(* ===== verification/_CoqProject ===== *)
-Q . S2P
Prelude.v
Sched.v
Tbf.v
Fifo.v
SchedSample.v
TbfConform.v
RateTheorems.v
TbfTheorems.v
RbCode.v
RbTree.v
RbSep.v
RbRefine.v
RbErase.v
RbWalk.v
RbMem.v
RbTheorems.v
SeqBuf.v
FlowTable.v
Packet.v
Reorder.v
ReorderSpec.v
ReorderSim.v
ReorderRun.v
ReorderTheorems.v
Counters.v
Nfqueue.v
NfqTheorems.v
Netlink.v
NetlinkTheorems.v
TcCore.v
Float.v
TcUtil.v
TcUtilTheorems.v
Rtnl.v
Dump.v
DumpFrames.v
DumpTheorems.v
DumpSafe.v
Driver.v
DriverTheorems.v
NetemRand.v
Netem.v
NetemConf.v
NetemFifo.v
NetemLine.v
NetemRate.v
NetemQueue.v
NetemFuel.v
NetemTheorems.v
NetemDriver.v
XmitPath.v
XmitTheorems.v
XmitRun.v
XmitRoots.v
XmitSample.v
TxTimeout.v
TxTimeoutTheorems.v
PfifoFast.v
Stab.v
Qtree.v
QtreeInv.v
QtreeRun.v
Qapi.v
QapiTheorems.v
QapiGraft.v
QapiClass.v
QapiCreate.v
QapiSafe.v
Qdump.v
QdumpTheorems.v
Qkinds.v
QkindsOk.v
QkindsSample.v
QdumpSample.v
