(* ===== verification/Prelude.v ===== *)
(** * dynbandwidth: a verification development

    The repository changes the bandwidth and the delay of network interfaces
    at run time and measures how transport protocols take it.  It has three
    groups of programs:

    - the queueing disciplines of the kernel that shape the traffic
      (src/sch_tbf.c, the author's version of the token bucket filter;
      src/net/sched, a copy of Linux's, with sch_tbf.c, sch_netem.c,
      sch_fifo.c, sch_mq.c, sch_generic.c and sch_api.c), the transmit path
      that takes packets from them (sch_generic.c and src/net/core/dev.c) and
      the requests and events that create, change and release them (sch_api.c,
      sch_generic.c, src/net/core/dev.c, link_watch.c);
    - the drivers (src/tbf), which change the parameters of these disciplines
      in a loop, through netlink messages they build with libnetlink.c,
      tc_core.c and tc_util.c;
    - the resequencers and counters (src/reordering_buffer), which put TCP
      segments back in order, or count those that are out of order, with a
      copy of the kernel's red-black tree.

    This library models the three groups and proves what each promises, up to
    the composition: the messages of a driver, decoded by the kernel's side,
    change the rate of a filter or of a delay line whose output conforms to
    it, and which the transmit path empties in order.

    ** Conventions

    A C integer is a [Z] kept at its width by [u8] ... [s64]; pointers are
    addresses or offsets.  Code that can fail (undefined behaviour: an access
    outside the memory, a division by zero, a conversion that does not fit) is
    a computation of the option-state monad [M] below, and [None] is the
    failure; so a theorem that a computation is [Some] says that it is free
    of it.  Loops have fuel; where a theorem is about a loop, it shows that
    the fuel given is enough.  Code that is not in the repository is a
    parameter: a class of operations (for example [KernelHeaders]) and a class
    of the facts relied on ([KernelHeadersOk]); each theorem that uses one is
    applied to a concrete instance by the lemma that has its name and the
    suffix _witness.
    A loop or a branch that is a definition of its own (for example
    [hash_find] in [qdisc_match_from_root]) translates lines of the function
    whose definition calls it.

    ** Files

    Kernel.
    - Sched: sch_generic.c and sch_api.c, the parts the disciplines call: rate
      configurations, rate tables, the watchdog, the no-op queue.
      RateTheorems: the reciprocal of a rate is normalised and accurate,
      tables are counted right.
    - Tbf: src/sch_tbf.c and src/net/sched/sch_tbf.c, every operation.
      Fifo: sch_fifo.c, the filter's inner queue (class [InnerQdisc]).
      TbfConform: the abstract token bucket ([ledger]) and the refinement.
      TbfTheorems: output conforms to the rate across changes of the rate,
      packets leave in order and none is lost, the watchdog is exact, a failed
      change changes nothing.
    - NetemRand, Netem, NetemConf: sch_netem.c, every operation: the random
      models, the queue with its list and tree, the configuration.
      NetemFifo: the time queue is a stable priority queue.  NetemLine,
      NetemRate: without randomness netem is a delay line with a rate.
      NetemQueue: in any configuration without duplication and corruption no
      packet is lost or invented.  NetemFuel: the recursion of the enqueue
      operation ends.  NetemTheorems: the theorems.
    - SchedSample: a concrete kernel for the witnesses.
    - PfifoFast: pfifo_fast of sch_generic.c, every operation; it refines
      three bounded lists in strict priority.  Stab: the size tables of
      sch_api.c; their lookup is equivalent to the computation of tc.

    Transmit path.
    - XmitPath: sch_generic.c from dequeue_skb to __qdisc_run, and
      __dev_xmit_skb, dev_hard_start_xmit and net_tx_action of dev.c.  The
      discipline is a class ([RootQdisc]), the driver another ([TxDevice]).
    - XmitTheorems: a step relation interleaves the path with enqueues,
      device events and soft interrupts at the points where the code drops a
      lock; packets are conserved, ordered and counted in every execution.
      XmitRun: the functions are such executions and return; no run leaves
      packets unattended.  XmitRoots: with the filter of Tbf at the root.
      XmitSample: instances, and two reorderings.
    - TxTimeout: the watchdog of sch_generic.c that reports stuck queues, with
      the carrier, detach and attach, as a transition system with time.
      TxTimeoutTheorems: it holds the device while it is pending, reports
      every queue that stays stuck, and, but for one that never sent, no other.

    Management.
    - Qtree: the disciplines of a device as objects on a heap, created,
      counted, hashed and released as in sch_generic.c; what a kind does in
      its [init], [change], [destroy] and [attach] is a program of calls into
      this core.  Qapi: the requests (tc_modify_qdisc, tc_get_qdisc,
      tc_ctl_tclass) and what they call, the registration of kinds, the
      activation of a device, its shutdown, its carrier.
    - QtreeInv: the invariant, which equates each count with the number of
      pointers, and [owns], a linear type system for the programs of kinds;
      [KindsOk] is what the core asks of a kind.  QtreeRun: typed programs
      run to their end and keep the invariant.  QapiTheorems, QapiGraft,
      QapiClass, QapiCreate: the operations do.  QapiSafe: so do all sequences of
      requests and events; nothing is used after it is freed, nothing is lost,
      everything is freed in the end, failures leave no trace.
    - Qkinds: the tables of noop, noqueue, pfifo_fast, pfifo, bfifo,
      pfifo_head_drop, mq, tbf and netem, on the private data of the files
      above.  QkindsOk: they satisfy [KindsOk].  QkindsSample: devices driven
      by requests, three requests that crash the kernel and a leak.
    - Qdump: netlink_dump of af_netlink.c with tc_dump_qdisc and
      tc_dump_tclass, which answer in pieces and go on where they stopped.
      QdumpTheorems: whatever the buffers, the pieces together are the list of
      the disciplines or classes, and the dump ends.  QdumpSample: instances,
      and dumps that tell something twice or not at all.

    Netlink and tc.
    - Netlink: messages and attributes of libnetlink.c over a byte buffer.
      NetlinkTheorems: what is built is read back; parsing is safe on any
      bytes.
    - Rtnl: rtnl_talk and rtnl_talk_iov.  Dump: the requests for dumps, the
      loops over dumps, notifications and recorded dumps.  DumpFrames,
      DumpTheorems: they compute functions of the list of messages.
      DumpSafe: their behaviour on arbitrary bytes.
    - TcCore: tc_core.c, with doubles as in the specification of IEEE 754.
      Float: when they are exact.  TcUtil, TcUtilTheorems: tc_util.c,
      identifiers, rates, sizes and actions read and printed.
    - Driver: tbf.c, tbf_peak.c, tbfenp.c, tbfifb.c, tbfnetem.c, netem.c,
      testtt.c and tbf_direct.c, one definition per round of the loop.
      DriverTheorems, NetemDriver: the requests decoded, and their effect on
      the filters of Tbf and the queues of Netem.

    Resequencing.
    - RbCode: rbtree.c, rbtree.h, rbtree_augmented.h over a memory of words.
      RbTree: the trees and the rebalancing as functions.  RbSep: a separation
      logic for this memory, on Iris's heaps.  RbRefine, RbErase, RbWalk: the
      code computes the functions.  RbMem, RbTheorems: the same on plain
      memories.
    - SeqBuf, FlowTable, Packet: what the programs share.
    - Reorder: reorder_counter.c.  ReorderSpec: the abstract resequencer.
      ReorderSim, ReorderRun, ReorderTheorems: the refinement.
    - Counters: tcp_reordercounter.c and ip_reordercounter.c.
    - Nfqueue, NfqTheorems: nfqueue.c.

    ** Bounds and fuel

    - Trees have fewer than [2 ^ 62] nodes, which a 64-bit address space does
      not exceed; the fuel of a walk in a tree is then larger than its depth.
    - The sequence numbers of a flow stay within half of the 32-bit circle, as
      the comparison of the code needs.
    - Loops over a buffer have a unit of fuel for each byte or more; they
      advance by at least four.
    - [netem_enqueue] calls itself at most three deep.
    - [psched_ratecfg_precompute] has 64 rounds at most, [cell_log] 32.
    - The programs of Qtree.v and Qapi.v have one bound for the depth of
      nested calls and for every loop; the theorems say that every bound from
      some number on gives the same result.  A run of the transmit path ends
      by its quota, or when the discipline gives nothing.
    - The reader of dumps is safe for datagrams of at most 32764 of the 32768
      bytes of its buffer; DumpSafe has examples of longer ones that are not.

    ** Not modelled

    - System calls: sockets, the event loop of libev, signals, sleeping, the
      scheduling class.  Their results are arguments where the code depends on
      them.  So are the commands of tc(8) that the drivers run first.
    - libnetfilter_queue, libev and the headers of the kernel, which the
      repository does not contain: parameters.
    - Of the management of disciplines: hardware offload, the options and
      statistics in messages to user space (their length is a parameter of the
      dumps), filters and their blocks, the ingress and clsact kinds (the laws
      of [KindsOk] allow them), and the hash tables of classes, which no kind
      the programs use has.
      The RTNL lock makes each request one step; within the transmit path the
      locks are the points at which other steps may come between.
    - What is printed, except where it is read back (identifiers, rates,
      actions); in tc_util.c percentages of a device's speed, sizes with a
      cell, and statistics.
    - tun.c and socket_intercept.c, which print the headers of packets;
      tbf_nopeak.c and the two files tbf_direct.c outside src/tbf, which do
      not compile; the scripts in shell, Python and Lua.
    - Of the transmit path: the driver, segmentation, checksums and
      encryption, which are parameters of the step that validates packets.
    - The rest of src/net and of src/iproute2-master, copies of Linux and of
      iproute2 that the programs do not use: thousands of files without a
      part in what the repository does. *)

From Stdlib Require Import ZArith Lia.
From stdpp Require Import base numbers list gmap option.

Open Scope Z_scope.

(** ** Machine integers

    A C integer of width [w] is a [Z]; the conversions below are the
    wrap-around the language prescribes for unsigned types and the
    two's-complement conversion gcc performs for signed ones. *)

Definition u8 (z : Z) : Z := z mod 2 ^ 8.

Definition u16 (z : Z) : Z := z mod 2 ^ 16.

Definition u32 (z : Z) : Z := z mod 2 ^ 32.

Definition u64 (z : Z) : Z := z mod 2 ^ 64.

Definition s16 (z : Z) : Z := (z + 2 ^ 15) mod 2 ^ 16 - 2 ^ 15.

Definition s32 (z : Z) : Z := (z + 2 ^ 31) mod 2 ^ 32 - 2 ^ 31.

Definition s64 (z : Z) : Z := (z + 2 ^ 63) mod 2 ^ 64 - 2 ^ 63.

(** ** Fallible state passing

    [M S A] is a C computation over a store [S]: [None] is undefined
    behaviour (a dereference of an address that holds no object). *)

Definition M (S A : Type) : Type := S → option (A * S).

Definition cret {S A} (a : A) : M S A := λ s, Some (a, s).

Definition cfail {S A} : M S A := λ _, None.

Definition cbind {S A B} (m : M S A) (k : A → M S B) : M S B :=
  λ s, match m s with
       | Some (a, s') => k a s'
       | None => None
       end.

Declare Scope c_scope.
Delimit Scope c_scope with c.

Notation "'let*' x ':=' m 'in' k" := (cbind m (λ x, k))
  (at level 10, x name, m at level 100, k at level 200) : c_scope.
Notation "m ;;; k" := (cbind m (λ _, k))
  (at level 100, k at level 200, right associativity) : c_scope.

Open Scope c_scope.

(** [c] returns from [s], with a value in [P] and a state related to [s]. *)
Definition returns {S A} (R : relation S) (s : S) (c : M S A) (P : A → Prop) : Prop :=
  ∃ v s', c s = Some (v, s') ∧ P v ∧ R s s'.

Lemma returns_ret {S A} (R : relation S) `{!Reflexive R} s (v : A) (P : A → Prop) :
  P v → returns R s (cret v) P.
Proof. intros HP. by exists v, s. Qed.

Lemma returns_bind {S A B} (R : relation S) `{!Transitive R} s (c : M S A) (k : A → M S B) P P' :
  returns R s c P → (∀ v s', P v → R s s' → returns R s' (k v) P') → returns R s (cbind c k) P'.
Proof.
  intros (v & s1 & Hc & Hv & Hs1) Hk. destruct (Hk v s1 Hv Hs1) as (w & s2 & Hc2 & Hw & Hs2).
  exists w, s2. unfold cbind. rewrite Hc. split; [done|]. split; [done|]. by transitivity s1.
Qed.

(** ** Lemmas on machine integers *)

Create HintDb cint discriminated.

Lemma u16_small z : 0 ≤ z < 2 ^ 16 → u16 z = z.
Proof. apply Z.mod_small. Qed.

Lemma u32_small z : 0 ≤ z < 2 ^ 32 → u32 z = z.
Proof. apply Z.mod_small. Qed.

Lemma u64_small z : 0 ≤ z < 2 ^ 64 → u64 z = z.
Proof. apply Z.mod_small. Qed.

Lemma s32_small z : - 2 ^ 31 ≤ z < 2 ^ 31 → s32 z = z.
Proof. intros ?. unfold s32. rewrite Z.mod_small by lia. lia. Qed.

Lemma s64_small z : - 2 ^ 63 ≤ z < 2 ^ 63 → s64 z = z.
Proof. intros ?. unfold s64. rewrite Z.mod_small by lia. lia. Qed.

Lemma u16_range z : 0 ≤ u16 z < 2 ^ 16.
Proof. apply Z.mod_pos_bound. lia. Qed.

Lemma u32_range z : 0 ≤ u32 z < 2 ^ 32.
Proof. apply Z.mod_pos_bound. lia. Qed.

Lemma u64_range z : 0 ≤ u64 z < 2 ^ 64.
Proof. apply Z.mod_pos_bound. lia. Qed.

Lemma s32_range z : - 2 ^ 31 ≤ s32 z < 2 ^ 31.
Proof. unfold s32. pose proof (Z.mod_pos_bound (z + 2 ^ 31) (2 ^ 32)). lia. Qed.

Lemma s64_range z : - 2 ^ 63 ≤ s64 z < 2 ^ 63.
Proof. unfold s64. pose proof (Z.mod_pos_bound (z + 2 ^ 63) (2 ^ 64)). lia. Qed.

#[export] Hint Resolve u16_range u32_range u64_range s32_range s64_range : cint.

(** [cint] discharges the wrap-arounds whose argument [lia] bounds. *)
Ltac cint :=
  repeat match goal with
    | |- context [u16 ?z] => rewrite (u16_small z) by lia
    | |- context [u32 ?z] => rewrite (u32_small z) by lia
    | |- context [u64 ?z] => rewrite (u64_small z) by lia
    | |- context [s32 ?z] => rewrite (s32_small z) by lia
    | |- context [s64 ?z] => rewrite (s64_small z) by lia
    end.

Ltac cint_in H :=
  repeat match type of H with
    | context [u16 ?z] => rewrite (u16_small z) in H by lia
    | context [u32 ?z] => rewrite (u32_small z) in H by lia
    | context [u64 ?z] => rewrite (u64_small z) in H by lia
    | context [s32 ?z] => rewrite (s32_small z) in H by lia
    | context [s64 ?z] => rewrite (s64_small z) in H by lia
    end.
