(* ===== verification/Sched.v ===== *)
(** * The packet scheduler's support code (src/net/sched)

    What sch_tbf.c uses of the kernel's scheduler core: rate configurations
    and their reciprocal ([psched_ratecfg_precompute], sch_generic.c), the
    shared rate tables ([qdisc_get_rtab], [qdisc_put_rtab], sch_api.c), the
    watchdog timer (sch_api.c), the builtin no-op queue (sch_generic.c) and
    the propagation of backlog changes to the ancestors (sch_api.c).  The
    helpers of the kernel's headers, which the repository does not contain,
    are the fields of [KernelHeaders]; what is relied on about them is
    [KernelHeadersOk]. *)

From Stdlib Require Import ZArith Lia.
From stdpp Require Import base numbers list option.
From S2P Require Import Prelude.

Open Scope Z_scope.

Definition NSEC_PER_SEC : Z := 1000000000.
Definition EINVAL : Z := 22.
Definition ENOMEM : Z := 12.

Definition TC_LINKLAYER_UNAWARE : Z := 0.
Definition TC_LINKLAYER_ETHERNET : Z := 1.
Definition TC_LINKLAYER_ATM : Z := 2.
Definition TC_LINKLAYER_MASK : Z := 15.
Definition TC_RTAB_SIZE : Z := 1024.

(** ** Rate specifications and configurations *)

Record tc_ratespec := {
  cell_log : Z;      (* unsigned char *)
  rs_linklayer : Z;  (* __u8, lower 4 bits *)
  rs_overhead : Z;   (* unsigned short *)
  cell_align : Z;    (* short *)
  mpu : Z;           (* unsigned short *)
  rs_rate : Z;       (* __u32 *)
}.

#[export] Instance tc_ratespec_eq_dec : EqDecision tc_ratespec.
Proof. solve_decision. Defined.

Record psched_ratecfg := {
  rate_bytes_ps : Z;  (* u64 *)
  mult : Z;
  overhead : Z;
  linklayer : Z;
  shift : Z;
}.

(** [memset(&peak, 0, sizeof(peak))] *)
Definition ratecfg_zero : psched_ratecfg :=
  {| rate_bytes_ps := 0; mult := 0; overhead := 0; linklayer := 0; shift := 0 |}.

(** The [for (;;)] loop of [psched_ratecfg_precompute]: [factor] is doubled
    until the quotient uses bit 31 or [factor] uses bit 63. *)
Fixpoint ratecfg_loop (fuel : nat) (rate factor sh : Z) : option (Z * Z) :=
  match fuel with
  | O => None
  | S fuel =>
      let m := factor / rate in
      if Z.testbit m 31 || Z.testbit factor 63 then Some (m, sh)
      else ratecfg_loop fuel rate (u64 (Z.shiftl factor 1)) (sh + 1)
  end.

Definition psched_ratecfg_precompute (conf : tc_ratespec) (rate64 : Z) : psched_ratecfg :=
  let rate := Z.max (rs_rate conf) rate64 in
  let '(m, sh) :=
    if 0 <? rate then default (1, 0) (ratecfg_loop 64 rate NSEC_PER_SEC 0)
    else (1, 0) in
  {| rate_bytes_ps := rate; mult := m; overhead := rs_overhead conf;
     linklayer := Z.land (rs_linklayer conf) TC_LINKLAYER_MASK; shift := sh |}.

(** ** Rate tables *)

(** [roundup(x, y)] of linux/kernel.h on nonnegative [x]. *)
Definition roundup (x y : Z) : Z := (x + (y - 1)) / y * y.

Definition __detect_linklayer (r : tc_ratespec) (rtab : list Z) : Z :=
  let low := roundup (mpu r) 48 in
  let high := roundup (low + 1) 48 in
  let cell_low := Z.shiftr low (cell_log r) in
  let cell_high := Z.shiftr high (cell_log r) - 1 in
  let at_ i := default 0 (rtab !! Z.to_nat i) in
  if (100000000 / 8 <? rs_rate r) || (at_ 0 =? 0) then TC_LINKLAYER_ETHERNET
  else if (cell_low <? cell_high) && (cell_high <? 256)
            && (at_ cell_low =? at_ cell_high)
  then TC_LINKLAYER_ATM
  else TC_LINKLAYER_ETHERNET.

(** [struct qdisc_rate_table]; the list [qdisc_rtab_list] is a Rocq list, and
    a table is identified by its address [rt_addr]. *)
Record qdisc_rate_table := {
  rt_addr : Z;
  rt_rate : tc_ratespec;
  rt_data : list Z;   (* 256 words, 1024 bytes *)
  rt_refcnt : Z;
}.

(** An [nlattr] holding a table: its payload length and its words. *)
Record rtab_attr := { ra_len : Z; ra_data : list Z }.

Definition rs_set_linklayer (ll : Z) (r : tc_ratespec) : tc_ratespec :=
  {| cell_log := cell_log r; rs_linklayer := ll; rs_overhead := rs_overhead r;
     cell_align := cell_align r; mpu := mpu r; rs_rate := rs_rate r |}.

Definition rt_ref (d : Z) (t : qdisc_rate_table) : qdisc_rate_table :=
  {| rt_addr := rt_addr t; rt_rate := rt_rate t; rt_data := rt_data t;
     rt_refcnt := rt_refcnt t + d |}.

Definition rtab_same (r : tc_ratespec) (data : list Z) (t : qdisc_rate_table) : bool :=
  bool_decide (rt_rate t = r) && bool_decide (rt_data t = data).

(** The first table of the list that matches, with its count incremented. *)
Fixpoint rtab_find (r : tc_ratespec) (data : list Z) (l : list qdisc_rate_table)
    : option (Z * list qdisc_rate_table) :=
  match l with
  | [] => None
  | t :: l' =>
      if rtab_same r data t then Some (rt_addr t, rt_ref 1 t :: l')
      else match rtab_find r data l' with
           | Some (a, l'') => Some (a, t :: l'')
           | None => None
           end
  end.

(** [fresh] is what [kmalloc] returns: [None] when it fails.  The result is
    the table (an address or NULL), the list and the specification, whose
    [linklayer] the function may rewrite. *)
Definition qdisc_get_rtab (fresh : option Z) (r : tc_ratespec) (tab : option rtab_attr)
    (l : list qdisc_rate_table) : option Z * list qdisc_rate_table * tc_ratespec :=
  match tab with
  | None => (None, l, r)
  | Some tab =>
      if (rs_rate r =? 0) || (cell_log r =? 0) || negb (ra_len tab =? TC_RTAB_SIZE)
      then (None, l, r)
      else match rtab_find r (ra_data tab) l with
           | Some (a, l') => (Some a, l', r)
           | None =>
               match fresh with
               | None => (None, l, r)
               | Some a =>
                   let t := {| rt_addr := a; rt_rate := r; rt_data := ra_data tab;
                               rt_refcnt := 1 |} in
                   let r' := if rs_linklayer r =? TC_LINKLAYER_UNAWARE
                             then rs_set_linklayer (__detect_linklayer r (ra_data tab)) r
                             else r in
                   (Some a, t :: l, r')
               end
           end
  end.

(** [--tab->refcnt], then the unlinking when it reached zero. *)
Fixpoint rtab_release (tab : Z) (l : list qdisc_rate_table) : list qdisc_rate_table :=
  match l with
  | [] => []
  | t :: l' =>
      if rt_addr t =? tab then
        if rt_refcnt t - 1 =? 0 then l' else rt_ref (-1) t :: l'
      else t :: rtab_release tab l'
  end.

Definition qdisc_put_rtab (tab : option Z) (l : list qdisc_rate_table)
    : list qdisc_rate_table :=
  match tab with
  | None => l
  | Some a => rtab_release a l
  end.

(** ** The watchdog *)

(** [struct qdisc_watchdog]: [wd_timer] is the expiry of the armed hrtimer. *)
Record qdisc_watchdog := {
  wd_last_expires : Z;
  wd_timer : option Z;
}.

(** [deactivated] is the state bit of the root queue. *)
Definition qdisc_watchdog_schedule_ns (deactivated : bool) (expires : Z)
    (wd : qdisc_watchdog) : qdisc_watchdog :=
  if deactivated then wd
  else if wd_last_expires wd =? expires then wd
  else {| wd_last_expires := expires; wd_timer := Some expires |}.

Definition qdisc_watchdog_cancel (wd : qdisc_watchdog) : qdisc_watchdog :=
  {| wd_last_expires := wd_last_expires wd; wd_timer := None |}.

(** [hrtimer_init] leaves the timer idle; [last_expires] is not written. *)
Definition qdisc_watchdog_init (wd : qdisc_watchdog) : qdisc_watchdog :=
  {| wd_last_expires := wd_last_expires wd; wd_timer := None |}.

(** ** Packets and statistics *)

Record sk_buff := {
  skb_id : Z;        (* the buffer's identity *)
  skb_len : Z;       (* skb->len, unsigned int *)
  pkt_len : Z;       (* qdisc_skb_cb(skb)->pkt_len, unsigned int *)
}.

#[export] Instance sk_buff_eq_dec : EqDecision sk_buff.
Proof. solve_decision. Defined.

Definition set_pkt_len (n : Z) (skb : sk_buff) : sk_buff :=
  {| skb_id := skb_id skb; skb_len := skb_len skb; pkt_len := n |}.

Record gnet_stats_queue := {
  gq_backlog : Z;     (* __u32 *)
  gq_drops : Z;       (* __u32 *)
  gq_overlimits : Z;  (* __u32 *)
}.

Record gnet_stats_basic := {
  gb_bytes : Z;    (* __u64 *)
  gb_packets : Z;  (* __u32 *)
}.

Definition set_backlog (b : Z) (s : gnet_stats_queue) : gnet_stats_queue :=
  {| gq_backlog := b; gq_drops := gq_drops s; gq_overlimits := gq_overlimits s |}.

(** ** The kernel headers' helpers

    One field per inline function or macro the sources call and the
    repository does not contain. *)

Class KernelHeaders := {
  NET_XMIT_SUCCESS : Z;
  NET_XMIT_DROP : Z;
  NET_XMIT_CN : Z;
  psched_l2t_ns : psched_ratecfg → Z → Z;
  PSCHED_TICKS2NS : Z → Z;
  PSCHED_NS2TICKS : Z → Z;
  psched_ratecfg_getrate : psched_ratecfg → tc_ratespec;
  net_xmit_drop_count : Z → bool;
  qdisc_drop : sk_buff → gnet_stats_queue → Z * gnet_stats_queue * list sk_buff;
  qdisc_qstats_drop : gnet_stats_queue → gnet_stats_queue;
  qdisc_qstats_overlimit : gnet_stats_queue → gnet_stats_queue;
  qdisc_qstats_backlog_dec : sk_buff → gnet_stats_queue → gnet_stats_queue;
  qdisc_bstats_update : sk_buff → gnet_stats_basic → gnet_stats_basic;
  skb_is_gso : sk_buff → bool;
  skb_gso_validate_mac_len : sk_buff → Z → bool;
  skb_gso_segment : sk_buff → option (list sk_buff);
}.

(** What the scheduler relies on: distinct return codes, a transmission time
    that is nonnegative, fits 62 bits and grows with the length, tick counts
    that convert to nonnegative times below 2^62 (a tick count is 32 bits
    wide), and statistics helpers that touch the counter they are named for. *)
Class KernelHeadersOk `{KernelHeaders} := {
  xmit_drop_ne : NET_XMIT_DROP ≠ NET_XMIT_SUCCESS;
  xmit_cn_ne : NET_XMIT_CN ≠ NET_XMIT_SUCCESS;
  l2t_range : ∀ r len, 0 ≤ psched_l2t_ns r len < 2 ^ 62;
  l2t_mono : ∀ r a b, 0 ≤ a → a ≤ b → psched_l2t_ns r a ≤ psched_l2t_ns r b;
  ticks2ns_range : ∀ t, 0 ≤ t < 2 ^ 32 → 0 ≤ PSCHED_TICKS2NS t < 2 ^ 62;
  drop_code : ∀ skb s, (qdisc_drop skb s).1.1 = NET_XMIT_DROP;
  drop_keeps_backlog : ∀ skb s, gq_backlog (qdisc_drop skb s).1.2 = gq_backlog s;
  drop_backlog : ∀ s, gq_backlog (qdisc_qstats_drop s) = gq_backlog s;
  overlimit_backlog : ∀ s, gq_backlog (qdisc_qstats_overlimit s) = gq_backlog s;
  backlog_dec : ∀ skb s,
    gq_backlog (qdisc_qstats_backlog_dec skb s) = u32 (gq_backlog s - pkt_len skb);
}.

(** ** Backlog propagation *)

(** An ancestor's counters, as [qdisc_tree_reduce_backlog] updates them;
    [an_notified] counts the calls of its [cl_ops->qlen_notify], a callback
    it has when [an_has_notify]. *)
Record ancestor := {
  an_qlen : Z;      (* u32 *)
  an_backlog : Z;   (* u32 *)
  an_drops : Z;     (* u32 *)
  an_has_notify : bool;
  an_notified : Z;
}.

(** The [while] loop walks [sch->parent] up to the root; the list is that
    chain, nearest first, cut at an ingress parent or a [TCQ_F_NOPARENT]
    queue.  [child_qlen] is the length of the queue below. *)
Fixpoint reduce_loop (offloaded : bool) (n len drops child_qlen : Z)
    (anc : list ancestor) : list ancestor :=
  match anc with
  | [] => []
  | a :: anc' =>
      let notify := (child_qlen =? 0) && negb ((n =? 0) && negb offloaded) in
      let a' :=
        {| an_qlen := u32 (an_qlen a - n);
           an_backlog := u32 (an_backlog a - len);
           an_drops := u32 (an_drops a + drops);
           an_has_notify := an_has_notify a;
           an_notified := if notify && an_has_notify a then an_notified a + 1
                          else an_notified a |} in
      a' :: reduce_loop offloaded n len drops (an_qlen a') anc'
  end.

Definition qdisc_tree_reduce_backlog (offloaded : bool) (qlen n len : Z)
    (anc : list ancestor) : list ancestor :=
  if (n =? 0) && (len =? 0) then anc
  else reduce_loop offloaded n len (Z.max n 0) qlen anc.
