(* ===== verification/Tbf.v ===== *)
(** * The token bucket filter (src/sch_tbf.c, src/net/sched/sch_tbf.c)

    The scheduler's private data, every operation of its [Qdisc_ops] and
    [Qdisc_class_ops], and the trace semantics of a run.  The two copies of
    sch_tbf.c in the repository differ in [tbf_change] only: the one at the
    top of the tree does not refill the bucket when the rate changes
    ([tbf_change]); the kernel's own does ([tbf_change_upstream]). *)

From Stdlib Require Import ZArith Lia.
From stdpp Require Import base numbers list option.
From S2P Require Import Prelude Sched.

Open Scope Z_scope.

(** ** The queue inside the filter *)

(** What sch_tbf.c calls on its inner queue: one field per entry of its
    [Qdisc_ops] or helper.  A call that changes the queue returns the queue;
    [iq_enqueue] also returns the code and the packets put on [to_free]. *)
Class InnerQdisc (Q : Type) := {
  iq_enqueue : sk_buff → Q → Z * Q * list sk_buff;  (* qdisc_enqueue *)
  iq_peek : Q → option sk_buff * Q;                 (* ops->peek *)
  iq_dequeue_peeked : Q → option sk_buff * Q;       (* qdisc_dequeue_peeked *)
  iq_reset : Q → Q;                                 (* qdisc_reset *)
  iq_set_limit : Z → Q → Z * Q;                     (* fifo_set_limit *)
  iq_create : Z → Z + Q;                            (* fifo_create_dflt, bfifo *)
  iq_qstats : Q → gnet_stats_queue;                 (* qdisc->qstats *)
  iq_handle : Q → Z;                                (* qdisc->handle *)
}.

(** [&noop_qdisc] or a queue of its own. *)
Inductive inner (Q : Type) :=
| Noop
| Child (c : Q).
Arguments Noop {Q}.
Arguments Child {Q} c.

(** What the filter relies on: the queue is a FIFO, and the packet
    [qdisc_dequeue_peeked] returns is the one [peek] showed. *)
Class InnerQdiscOk (Q : Type) `{KernelHeaders} `{InnerQdisc Q} := {
  iq_queue : Q → list sk_buff;
  iq_enqueue_ok : ∀ skb c ret c' fr, iq_enqueue skb c = (ret, c', fr) →
    iq_queue c' = iq_queue c ++ (if ret =? NET_XMIT_SUCCESS then [skb] else []);
  iq_peek_ok : ∀ c o c', iq_peek c = (o, c') →
    o = head (iq_queue c) ∧ iq_queue c' = iq_queue c;
  iq_dequeue_ok : ∀ c o c', iq_dequeue_peeked c = (o, c') →
    o = head (iq_queue c) ∧ iq_queue c' = tail (iq_queue c);
  iq_reset_ok : ∀ c, iq_queue (iq_reset c) = [];
  iq_set_limit_ok : ∀ n c, iq_queue (iq_set_limit n c).2 = iq_queue c;
  iq_create_ok : ∀ n c, iq_create n = inr c → iq_queue c = [];
}.

Section inner_ops.
Context `{KernelHeaders} {Q : Type} `{InnerQdisc Q}.

(** [qdisc_enqueue] on either; [noop_enqueue] (sch_generic.c) drops. *)
Definition inner_enqueue (skb : sk_buff) (q : inner Q) : Z * inner Q * list sk_buff :=
  match q with
  | Noop => (NET_XMIT_CN, Noop, [skb])
  | Child c => let '(ret, c', fr) := iq_enqueue skb c in (ret, Child c', fr)
  end.

(** [ops->peek]; the no-op queue's is [noop_dequeue]. *)
Definition inner_peek (q : inner Q) : option sk_buff * inner Q :=
  match q with
  | Noop => (None, Noop)
  | Child c => let '(o, c') := iq_peek c in (o, Child c')
  end.

Definition inner_dequeue_peeked (q : inner Q) : option sk_buff * inner Q :=
  match q with
  | Noop => (None, Noop)
  | Child c => let '(o, c') := iq_dequeue_peeked c in (o, Child c')
  end.

Definition inner_reset (q : inner Q) : inner Q :=
  match q with
  | Noop => Noop
  | Child c => Child (iq_reset c)
  end.

End inner_ops.

(** ** State *)

Record tbf_sched_data (Q : Type) := {
  limit : Z;                   (* u32 *)
  max_size : Z;                (* u32 *)
  buffer : Z;                  (* s64 *)
  mtu : Z;                     (* s64 *)
  rate : psched_ratecfg;
  peak : psched_ratecfg;
  tokens : Z;                  (* s64 *)
  ptokens : Z;                 (* s64 *)
  t_c : Z;                     (* s64 *)
  qdisc : inner Q;
  watchdog : qdisc_watchdog;
}.
Arguments limit {Q} _.
Arguments max_size {Q} _.
Arguments buffer {Q} _.
Arguments mtu {Q} _.
Arguments rate {Q} _.
Arguments peak {Q} _.
Arguments tokens {Q} _.
Arguments ptokens {Q} _.
Arguments t_c {Q} _.
Arguments qdisc {Q} _.
Arguments watchdog {Q} _.

(** The outer [struct Qdisc]: the fields sch_tbf.c reads or writes. *)
Record Qdisc (Q : Type) := {
  qlen : Z;                    (* sch->q.qlen *)
  qstats : gnet_stats_queue;
  bstats : gnet_stats_basic;
  priv : tbf_sched_data Q;     (* qdisc_priv(sch) *)
}.
Arguments qlen {Q} _.
Arguments qstats {Q} _.
Arguments bstats {Q} _.
Arguments priv {Q} _.

(** Field updates. *)
Definition set_qdisc {Q} (i : inner Q) (q : tbf_sched_data Q) : tbf_sched_data Q :=
  {| limit := limit q; max_size := max_size q; buffer := buffer q; mtu := mtu q;
     rate := rate q; peak := peak q; tokens := tokens q; ptokens := ptokens q;
     t_c := t_c q; qdisc := i; watchdog := watchdog q |}.

Definition set_bucket {Q} (tk ptk tc : Z) (q : tbf_sched_data Q) : tbf_sched_data Q :=
  {| limit := limit q; max_size := max_size q; buffer := buffer q; mtu := mtu q;
     rate := rate q; peak := peak q; tokens := tk; ptokens := ptk;
     t_c := tc; qdisc := qdisc q; watchdog := watchdog q |}.

Definition set_watchdog {Q} (w : qdisc_watchdog) (q : tbf_sched_data Q)
    : tbf_sched_data Q :=
  {| limit := limit q; max_size := max_size q; buffer := buffer q; mtu := mtu q;
     rate := rate q; peak := peak q; tokens := tokens q; ptokens := ptokens q;
     t_c := t_c q; qdisc := qdisc q; watchdog := w |}.

Definition set_priv {Q} (q : tbf_sched_data Q) (sch : Qdisc Q) : Qdisc Q :=
  {| qlen := qlen sch; qstats := qstats sch; bstats := bstats sch; priv := q |}.

Definition set_qstats {Q} (s : gnet_stats_queue) (sch : Qdisc Q) : Qdisc Q :=
  {| qlen := qlen sch; qstats := s; bstats := bstats sch; priv := priv sch |}.

Definition set_qlen {Q} (n : Z) (sch : Qdisc Q) : Qdisc Q :=
  {| qlen := n; qstats := qstats sch; bstats := bstats sch; priv := priv sch |}.

Definition set_bstats {Q} (b : gnet_stats_basic) (sch : Qdisc Q) : Qdisc Q :=
  {| qlen := qlen sch; qstats := qstats sch; bstats := b; priv := priv sch |}.

(** The parameters of a change: [struct tc_tbf_qopt] and the parsed
    attribute table [tb]. *)
Record tc_tbf_qopt := {
  qopt_rate : tc_ratespec;
  qopt_peakrate : tc_ratespec;
  qopt_limit : Z;   (* __u32 *)
  qopt_buffer : Z;  (* __u32 *)
  qopt_mtu : Z;     (* __u32 *)
}.

Record tbf_tb := {
  tb_parms : option tc_tbf_qopt;
  tb_rtab : option rtab_attr;
  tb_ptab : option rtab_attr;
  tb_rate64 : option Z;   (* u64 *)
  tb_prate64 : option Z;  (* u64 *)
  tb_burst : option Z;    (* u32 *)
  tb_pburst : option Z;   (* u32 *)
}.

(** ** Operations *)

(** Time to length: the bytes that can be sent in [time_in_ns]. *)
Definition psched_ns_t2l (r : psched_ratecfg) (time_in_ns : Z) : Z :=
  let len := u64 (time_in_ns * rate_bytes_ps r) in
  let len := len / NSEC_PER_SEC in
  let len := if linklayer r =? TC_LINKLAYER_ATM then u64 (len / 53 * 48) else len in
  if overhead r <? len then len - overhead r else 0.

Section ops.
Context `{KernelHeaders} {Q : Type} `{InnerQdisc Q}.

Definition tbf_peak_present (q : tbf_sched_data Q) : bool :=
  negb (rate_bytes_ps (peak q) =? 0).

(** [return qdisc_drop(skb, sch, to_free)]. *)
Definition drop_skb (skb : sk_buff) (sch : Qdisc Q) : Z * Qdisc Q * list sk_buff :=
  let '(ret, s, fr) := qdisc_drop skb (qstats sch) in (ret, set_qstats s sch, fr).

(** One enqueue into the inner queue, counting a drop on failure. *)
Definition enqueue_inner (skb : sk_buff) (sch : Qdisc Q) : Z * Qdisc Q * list sk_buff :=
  let '(ret, i, fr) := inner_enqueue skb (qdisc (priv sch)) in
  let sch := set_priv (set_qdisc i (priv sch)) sch in
  if negb (ret =? NET_XMIT_SUCCESS) && net_xmit_drop_count ret
  then (ret, set_qstats (qdisc_qstats_drop (qstats sch)) sch, fr)
  else (ret, sch, fr).

(** [qdisc_skb_cb(segs)->pkt_len = segs->len]. *)
Definition seg_skb (seg : sk_buff) : sk_buff := set_pkt_len (skb_len seg) seg.

(** The [while (segs)] loop of [tbf_segment]. *)
Fixpoint segment_loop (segs : list sk_buff) (sch : Qdisc Q) (len nb : Z)
    (to_free : list sk_buff) : Qdisc Q * Z * Z * list sk_buff :=
  match segs with
  | [] => (sch, len, nb, to_free)
  | seg :: segs' =>
      let '(ret, sch', fr) := enqueue_inner (seg_skb seg) sch in
      segment_loop segs' sch' (u32 (len + skb_len seg))
        (if ret =? NET_XMIT_SUCCESS then nb + 1 else nb) (to_free ++ fr)
  end.

(** Besides the code, the queue and the freed packets, the enqueue operations
    return the argument pair of their [qdisc_tree_reduce_backlog] call. *)
Definition tbf_segment (skb : sk_buff) (sch : Qdisc Q)
    : Z * Qdisc Q * list sk_buff * option (Z * Z) :=
  match skb_gso_segment skb with
  | None => (drop_skb skb sch, None)
  | Some segs =>
      let prev_len := pkt_len skb in
      let '(sch, len, nb, fr) := segment_loop segs sch 0 0 [] in
      let sch := set_qlen (u32 (qlen sch + nb)) sch in
      ((if 0 <? nb then NET_XMIT_SUCCESS else NET_XMIT_DROP, sch, fr),
       if 1 <? nb then Some (1 - nb, s32 (u32 (prev_len - len))) else None)
  end.

Definition tbf_enqueue (skb : sk_buff) (sch : Qdisc Q)
    : Z * Qdisc Q * list sk_buff * option (Z * Z) :=
  let len := pkt_len skb in
  if max_size (priv sch) <? pkt_len skb then
    if skb_is_gso skb && skb_gso_validate_mac_len skb (max_size (priv sch))
    then tbf_segment skb sch
    else (drop_skb skb sch, None)
  else
    let '(ret, sch, fr) := enqueue_inner skb sch in
    if negb (ret =? NET_XMIT_SUCCESS) then (ret, sch, fr, None)
    else
      let sch := set_qstats (set_backlog (u32 (gq_backlog (qstats sch) + len))
                               (qstats sch)) sch in
      (NET_XMIT_SUCCESS, set_qlen (u32 (qlen sch + 1)) sch, fr, None).

(** The bucket contents after the packet of length [len] at time [now]:
    [(toks, ptoks)] of [tbf_dequeue], negative when it must wait. *)
Definition tbf_balance (now len : Z) (q : tbf_sched_data Q) : Z * Z :=
  let toks := Z.min (s64 (now - t_c q)) (buffer q) in
  let ptoks :=
    if tbf_peak_present q then
      let p := s64 (toks + ptokens q) in
      let p := if mtu q <? p then mtu q else p in
      s64 (p - s64 (psched_l2t_ns (peak q) len))
    else 0 in
  let toks := s64 (toks + tokens q) in
  let toks := if buffer q <? toks then buffer q else toks in
  (s64 (toks - s64 (psched_l2t_ns (rate q) len)), ptoks).

(** [now] is [ktime_get_ns()], [deactivated] the root queue's state bit the
    watchdog tests. *)
Definition tbf_dequeue (now : Z) (deactivated : bool) (sch : Qdisc Q)
    : option sk_buff * Qdisc Q :=
  let '(o, i) := inner_peek (qdisc (priv sch)) in
  let sch := set_priv (set_qdisc i (priv sch)) sch in
  let q := priv sch in
  match o with
  | None => (None, sch)
  | Some skb =>
      let '(toks, ptoks) := tbf_balance now (pkt_len skb) q in
      if 0 <=? Z.lor toks ptoks then
        let '(o, i) := inner_dequeue_peeked (qdisc q) in
        let q := set_qdisc i q in
        match o with
        | None => (None, set_priv q sch)
        | Some skb =>
            let sch := set_priv (set_bucket toks ptoks now q) sch in
            let sch := set_qstats (qdisc_qstats_backlog_dec skb (qstats sch)) sch in
            let sch := set_qlen (u32 (qlen sch - 1)) sch in
            (Some skb, set_bstats (qdisc_bstats_update skb (bstats sch)) sch)
        end
      else
        let expires := u64 (now + Z.max (s64 (- toks)) (s64 (- ptoks))) in
        let w := qdisc_watchdog_schedule_ns deactivated expires (watchdog q) in
        let sch := set_priv (set_watchdog w q) sch in
        (None, set_qstats (qdisc_qstats_overlimit (qstats sch)) sch)
  end.

Definition tbf_reset (now : Z) (sch : Qdisc Q) : Qdisc Q :=
  let q := set_qdisc (inner_reset (qdisc (priv sch))) (priv sch) in
  let sch := set_qstats (set_backlog 0 (qstats sch)) sch in
  let sch := set_qlen 0 sch in
  let q := set_bucket (buffer q) (mtu q) now q in
  set_priv (set_watchdog (qdisc_watchdog_cancel (watchdog q)) q) sch.

(** The parameters [tbf_change] computes from the request before it touches
    the scheduler, or the error it returns. *)
Record tbf_params := {
  pr_rate : psched_ratecfg;
  pr_peak : psched_ratecfg;
  pr_max_size : Z;  (* u64 *)
  pr_buffer : Z;    (* s64 *)
  pr_mtu : Z;       (* s64 *)
}.

(** [rate] and [peakrate] are the specifications after the rate table lookups. *)
Definition tbf_params_of (rate_spec peak_spec : tc_ratespec) (qopt : tc_tbf_qopt)
    (tb : tbf_tb) : Z + tbf_params :=
  let buffer := Z.min (u64 (PSCHED_TICKS2NS (qopt_buffer qopt))) (2 ^ 32 - 1) in
  let mtu := Z.min (u64 (PSCHED_TICKS2NS (qopt_mtu qopt))) (2 ^ 32 - 1) in
  let rate := psched_ratecfg_precompute rate_spec (default 0 (tb_rate64 tb)) in
  let '(max_size, buffer) :=
    match tb_burst tb with
    | Some burst => (burst, s64 (psched_l2t_ns rate burst))
    | None => (Z.min (psched_ns_t2l rate (u64 buffer)) (2 ^ 32 - 1), buffer)
    end in
  if negb (rs_rate peak_spec =? 0) then
    let peak := psched_ratecfg_precompute peak_spec (default 0 (tb_prate64 tb)) in
    if rate_bytes_ps peak <=? rate_bytes_ps rate then inl (- EINVAL)
    else
      let '(max_size, mtu) :=
        match tb_pburst tb with
        | Some pburst => (Z.min (u32 max_size) pburst, s64 (psched_l2t_ns peak pburst))
        | None => (Z.min max_size (psched_ns_t2l peak (u64 mtu)), mtu)
        end in
      inr {| pr_rate := rate; pr_peak := peak; pr_max_size := max_size;
             pr_buffer := buffer; pr_mtu := mtu |}
  else
    inr {| pr_rate := rate; pr_peak := ratecfg_zero; pr_max_size := max_size;
           pr_buffer := buffer; pr_mtu := mtu |}.

(** The writes under [sch_tree_lock]; [refill] holds in the kernel's copy. *)
Definition tbf_install (refill : bool) (p : tbf_params) (qopt : tc_tbf_qopt)
    (tb : tbf_tb) (i : inner Q) (q : tbf_sched_data Q) : tbf_sched_data Q :=
  let mtu' := if tb_pburst tb is Some _ then pr_mtu p else s64 (PSCHED_TICKS2NS (qopt_mtu qopt)) in
  let buffer' := if tb_burst tb is Some _ then pr_buffer p
                 else s64 (PSCHED_TICKS2NS (qopt_buffer qopt)) in
  {| limit := qopt_limit qopt; max_size := u32 (pr_max_size p); buffer := buffer';
     mtu := mtu'; rate := pr_rate p; peak := pr_peak p;
     tokens := if refill then buffer' else tokens q;
     ptokens := if refill then mtu' else ptokens q;
     t_c := t_c q; qdisc := i; watchdog := watchdog q |}.

(** The inner queue's limit: [fifo_set_limit], or a new bfifo in place of the
    no-op queue (whose flush and release are empty). *)
Definition tbf_child (limit : Z) (i : inner Q) : Z * inner Q :=
  match i with
  | Child c => let '(err, c') := iq_set_limit limit c in (err, Child c')
  | Noop =>
      if 0 <? limit then
        match iq_create limit with
        | inl err => (err, Noop)
        | inr c => (0, Child c)
        end
      else (0, Noop)
  end.

(** [qdisc_put_rtab(qdisc_get_rtab(...))] for a specification whose link layer
    is unknown. *)
Definition touch_rtab (fresh : option Z) (r : tc_ratespec) (tab : option rtab_attr)
    (rtabs : list qdisc_rate_table) : list qdisc_rate_table * tc_ratespec :=
  if rs_linklayer r =? TC_LINKLAYER_UNAWARE then
    let '(t, rtabs, r) := qdisc_get_rtab fresh r tab rtabs in
    (qdisc_put_rtab t rtabs, r)
  else (rtabs, r).

(** [opt] is the result of [nla_parse_nested]; [fresh] the addresses the two
    table allocations may return. *)
Definition tbf_change_gen (refill : bool) (fresh : option Z * option Z)
    (opt : Z + tbf_tb) (rtabs : list qdisc_rate_table) (sch : Qdisc Q)
    : Z * list qdisc_rate_table * Qdisc Q :=
  match opt with
  | inl err => (err, rtabs, sch)
  | inr tb =>
      match tb_parms tb with
      | None => (- EINVAL, rtabs, sch)
      | Some qopt =>
          let '(rtabs, rate_spec) := touch_rtab fresh.1 (qopt_rate qopt) (tb_rtab tb) rtabs in
          let '(rtabs, peak_spec) := touch_rtab fresh.2 (qopt_peakrate qopt) (tb_ptab tb) rtabs in
          match tbf_params_of rate_spec peak_spec qopt tb with
          | inl err => (err, rtabs, sch)
          | inr p =>
              if pr_max_size p =? 0 then (- EINVAL, rtabs, sch)
              else
                let q := priv sch in
                let '(err, i) := tbf_child (qopt_limit qopt) (qdisc q) in
                if negb (err =? 0) then (err, rtabs, set_priv (set_qdisc i q) sch)
                else (0, rtabs, set_priv (tbf_install refill p qopt tb i q) sch)
          end
      end
  end.

(** src/sch_tbf.c: the bucket is left as it is. *)
Definition tbf_change := tbf_change_gen false.

(** src/net/sched/sch_tbf.c: the bucket is refilled. *)
Definition tbf_change_upstream := tbf_change_gen true.

Definition tbf_init (now : Z) (fresh : option Z * option Z) (opt : option (Z + tbf_tb))
    (rtabs : list qdisc_rate_table) (sch : Qdisc Q)
    : Z * list qdisc_rate_table * Qdisc Q :=
  let q := set_watchdog (qdisc_watchdog_init (watchdog (priv sch))) (priv sch) in
  let q := set_qdisc Noop q in
  match opt with
  | None => (- EINVAL, rtabs, set_priv q sch)
  | Some opt =>
      tbf_change fresh opt rtabs
        (set_priv (set_bucket (tokens q) (ptokens q) now q) sch)
  end.

(** [qdisc_put] releases the child; the timer is cancelled first. *)
Definition tbf_destroy (sch : Qdisc Q) : Qdisc Q :=
  let q := priv sch in
  set_priv (set_watchdog (qdisc_watchdog_cancel (watchdog q)) q) sch.

(** The attributes [tbf_dump] emits: the parameters and the 64-bit rates. *)
Record tbf_dumped := {
  d_parms : tc_tbf_qopt;
  d_rate64 : option Z;
  d_prate64 : option Z;
}.

Definition ratespec_zero : tc_ratespec :=
  {| cell_log := 0; rs_linklayer := 0; rs_overhead := 0; cell_align := 0; mpu := 0;
     rs_rate := 0 |}.

(** [room n] tells whether the [n]-th [nla_nest_start] or [nla_put] finds
    room in the message; any failure cancels the nest and returns -1. *)
Definition tbf_dump (room : nat → bool) (sch : Qdisc Q) : option tbf_dumped * Qdisc Q :=
  let q := priv sch in
  let b := match qdisc q with
           | Noop => 0
           | Child c => gq_backlog (iq_qstats c)
           end in
  let sch := set_qstats (set_backlog b (qstats sch)) sch in
  let opt :=
    {| qopt_limit := limit q;
       qopt_rate := psched_ratecfg_getrate (rate q);
       qopt_peakrate := if tbf_peak_present q then psched_ratecfg_getrate (peak q)
                        else ratespec_zero;
       qopt_mtu := u32 (PSCHED_NS2TICKS (mtu q));
       qopt_buffer := u32 (PSCHED_NS2TICKS (buffer q)) |} in
  let big := 2 ^ 32 <=? rate_bytes_ps (rate q) in
  let pbig := tbf_peak_present q && (2 ^ 32 <=? rate_bytes_ps (peak q)) in
  if room 0%nat && room 1%nat && (negb big || room 2%nat) && (negb pbig || room 3%nat) then
    (Some {| d_parms := opt;
             d_rate64 := if big then Some (rate_bytes_ps (rate q)) else None;
             d_prate64 := if pbig then Some (rate_bytes_ps (peak q)) else None |}, sch)
  else (None, sch).

(** [tcm] is [(tcm_handle, tcm_info)]. *)
Definition tbf_dump_class (sch : Qdisc Q) (tcm : Z * Z) : Z * (Z * Z) :=
  (0, (Z.lor tcm.1 1,
       match qdisc (priv sch) with Noop => 0 | Child c => iq_handle c end)).

(** [qdisc_replace] is the header's helper: it stores the new child, flushes
    the old one and returns it. *)
Definition tbf_graft (qdisc_replace : inner Q → Qdisc Q → inner Q * Qdisc Q)
    (new : option Q) (sch : Qdisc Q) : Z * inner Q * Qdisc Q :=
  let new := match new with None => Noop | Some c => Child c end in
  let '(old, sch) := qdisc_replace new sch in (0, old, sch).

Definition tbf_leaf (sch : Qdisc Q) : inner Q := qdisc (priv sch).

Definition tbf_find (classid : Z) : Z := 1.

Record qdisc_walker := { w_stop : bool; w_skip : Z; w_count : Z }.

(** [fn] is the walker's callback on class 1. *)
Definition tbf_walk (fn : Z → Z) (w : qdisc_walker) : qdisc_walker :=
  if w_stop w then w
  else if (w_skip w <=? w_count w) && (fn 1 <? 0)
  then {| w_stop := true; w_skip := w_skip w; w_count := w_count w |}
  else {| w_stop := w_stop w; w_skip := w_skip w; w_count := w_count w + 1 |}.

End ops.

(** ** Runs

    A run is a sequence of calls; [sent] records the packets that left, with
    the time, the costs charged and the bucket depths in force. *)

Record sent := {
  s_time : Z;
  s_skb : sk_buff;
  s_cost : Z;     (* transmission time at [rate] *)
  s_pcost : Z;    (* transmission time at [peak], 0 without a peak rate *)
  s_buffer : Z;   (* bucket depth when it left *)
  s_mtu : Z;
}.

Inductive event :=
| EvEnqueue (skb : sk_buff)
| EvDequeue (now : Z) (deactivated : bool)
| EvChange (fresh : option Z * option Z) (opt : Z + tbf_tb)
| EvDump (room : nat → bool)
| EvReset (now : Z).

Section run.
Context `{KernelHeaders} {Q : Type} `{InnerQdisc Q}.

Definition sent_of (now : Z) (skb : sk_buff) (q : tbf_sched_data Q) : sent :=
  {| s_time := now; s_skb := skb;
     s_cost := psched_l2t_ns (rate q) (pkt_len skb);
     s_pcost := if tbf_peak_present q then psched_l2t_ns (peak q) (pkt_len skb) else 0;
     s_buffer := buffer q; s_mtu := mtu q |}.

(** The state of the world: the shared rate tables and the filter. *)
Definition exec (refill : bool) (e : event) (w : list qdisc_rate_table * Qdisc Q)
    : (list qdisc_rate_table * Qdisc Q) * list sent :=
  let '(rtabs, sch) := w in
  match e with
  | EvEnqueue skb => (rtabs, (tbf_enqueue skb sch).1.1.2, [])
  | EvDequeue now d =>
      match tbf_dequeue now d sch with
      | (Some skb, sch') => (rtabs, sch', [sent_of now skb (priv sch)])
      | (None, sch') => (rtabs, sch', [])
      end
  | EvChange fresh opt =>
      let '(_, rtabs', sch') := tbf_change_gen refill fresh opt rtabs sch in
      (rtabs', sch', [])
  | EvDump room => (rtabs, (tbf_dump room sch).2, [])
  | EvReset now => (rtabs, tbf_reset now sch, [])
  end.

Fixpoint run (refill : bool) (es : list event) (w : list qdisc_rate_table * Qdisc Q)
    : (list qdisc_rate_table * Qdisc Q) * list sent :=
  match es with
  | [] => (w, [])
  | e :: es' =>
      let '(w1, out1) := exec refill e w in
      let '(w2, out2) := run refill es' w1 in
      (w2, out1 ++ out2)
  end.

End run.

(** The time of an event, and a run whose clock never goes back and stays
    below 2^62 ns. *)
Definition ev_time (e : event) : option Z :=
  match e with
  | EvDequeue now _ | EvReset now => Some now
  | _ => None
  end.

Fixpoint clock_ok (t : Z) (es : list event) : bool :=
  match es with
  | [] => true
  | e :: es' =>
      match ev_time e with
      | Some now => (t <=? now) && (now <? 2 ^ 62) && clock_ok now es'
      | None => clock_ok t es'
      end
  end.

(** The 32-bit fields of a request are 32 bits wide. *)
Definition opt_ok (opt : Z + tbf_tb) : bool :=
  match opt with
  | inr {| tb_parms := Some q |} =>
      (0 <=? qopt_buffer q) && (qopt_buffer q <? 2 ^ 32)
        && (0 <=? qopt_mtu q) && (qopt_mtu q <? 2 ^ 32)
  | _ => true
  end.

Definition ev_ok (e : event) : bool :=
  match e with
  | EvChange _ opt => opt_ok opt
  | _ => true
  end.

Definition no_reset (e : event) : bool :=
  match e with
  | EvReset _ => false
  | _ => true
  end.

Definition total {A} (f : A → Z) (l : list A) : Z := foldr (λ a n, f a + n) 0 l.
