(* ===== verification/Fifo.v ===== *)
(** * The FIFO queues (src/net/sched/sch_fifo.c)

    The default child of the token bucket filter is a bfifo.  This file
    models the operations of sch_fifo.c over the header's list helpers
    ([SkbQueue]), and shows that a FIFO meets the filter's requirements on its
    inner queue ([fifo_inner], [fifo_inner_ok]). *)

From Stdlib Require Import ZArith Lia.
From stdpp Require Import base numbers list option.
From S2P Require Import Prelude Sched Tbf.

Open Scope Z_scope.

(** The list, length and statistics of a queue. *)
Record skb_head := {
  sh_list : list sk_buff;
  sh_qlen : Z;                  (* u32 *)
  sh_qstats : gnet_stats_queue;
}.

(** The list helpers of the headers. *)
Class SkbQueue := {
  qdisc_enqueue_tail : sk_buff → skb_head → Z * skb_head;
  qdisc_dequeue_head : skb_head → option sk_buff * skb_head;
  qdisc_peek_head : skb_head → option sk_buff;
  qdisc_reset_queue : skb_head → skb_head;
  __qdisc_queue_drop_head : skb_head → skb_head * list sk_buff;
}.

Class SkbQueueOk `{KernelHeaders} `{SkbQueue} := {
  enqueue_tail_ok : ∀ skb h,
    (qdisc_enqueue_tail skb h).1 = NET_XMIT_SUCCESS ∧
    sh_list (qdisc_enqueue_tail skb h).2 = sh_list h ++ [skb] ∧
    sh_qlen (qdisc_enqueue_tail skb h).2 = u32 (sh_qlen h + 1) ∧
    gq_backlog (sh_qstats (qdisc_enqueue_tail skb h).2)
      = u32 (gq_backlog (sh_qstats h) + pkt_len skb);
  dequeue_head_ok : ∀ h,
    (qdisc_dequeue_head h).1 = head (sh_list h) ∧
    sh_list (qdisc_dequeue_head h).2 = tail (sh_list h);
  peek_head_ok : ∀ h, qdisc_peek_head h = head (sh_list h);
  reset_queue_ok : ∀ h, sh_list (qdisc_reset_queue h) = [];
  drop_head_ok : ∀ h,
    sh_list (__qdisc_queue_drop_head h).1 = tail (sh_list h) ∧
    (__qdisc_queue_drop_head h).2 = take 1 (sh_list h);
}.

(** Which [Qdisc_ops] a queue has. *)
Inductive fifo_ops := Pfifo | Bfifo | PfifoHeadDrop.

Record fifo := {
  f_ops : fifo_ops;
  f_limit : Z;      (* sch->limit, u32 *)
  f_bypass : bool;  (* TCQ_F_CAN_BYPASS *)
  f_handle : Z;
  f_head : skb_head;
}.

Definition set_head (h : skb_head) (f : fifo) : fifo :=
  {| f_ops := f_ops f; f_limit := f_limit f; f_bypass := f_bypass f;
     f_handle := f_handle f; f_head := h |}.

Definition set_head_qstats (s : gnet_stats_queue) (h : skb_head) : skb_head :=
  {| sh_list := sh_list h; sh_qlen := sh_qlen h; sh_qstats := s |}.

Section fifo.
Context `{KernelHeaders} `{SkbQueue}.

(** [return qdisc_drop(skb, sch, to_free)]. *)
Definition fifo_drop (skb : sk_buff) (f : fifo) : Z * fifo * list sk_buff :=
  let '(ret, s, fr) := qdisc_drop skb (sh_qstats (f_head f)) in
  (ret, set_head (set_head_qstats s (f_head f)) f, fr).

(** [return qdisc_enqueue_tail(skb, sch)]. *)
Definition fifo_enqueue_tail (skb : sk_buff) (f : fifo) : Z * fifo * list sk_buff :=
  let '(ret, h) := qdisc_enqueue_tail skb (f_head f) in (ret, set_head h f, []).

Definition bfifo_enqueue (skb : sk_buff) (f : fifo) : Z * fifo * list sk_buff :=
  if u32 (gq_backlog (sh_qstats (f_head f)) + pkt_len skb) <=? f_limit f
  then fifo_enqueue_tail skb f
  else fifo_drop skb f.

Definition pfifo_enqueue (skb : sk_buff) (f : fifo) : Z * fifo * list sk_buff :=
  if sh_qlen (f_head f) <? f_limit f
  then fifo_enqueue_tail skb f
  else fifo_drop skb f.

(** The full queue drops its head to make room.  The last component is the
    argument pair of [qdisc_tree_reduce_backlog]. *)
Definition pfifo_tail_enqueue (skb : sk_buff) (f : fifo)
    : Z * fifo * list sk_buff * option (Z * Z) :=
  if sh_qlen (f_head f) <? f_limit f
  then (fifo_enqueue_tail skb f, None)
  else
    let prev_backlog := gq_backlog (sh_qstats (f_head f)) in
    let '(h, fr) := __qdisc_queue_drop_head (f_head f) in
    let h := set_head_qstats (qdisc_qstats_drop (sh_qstats h)) h in
    let h := (qdisc_enqueue_tail skb h).2 in
    (NET_XMIT_CN, set_head h f, fr,
     Some (0, s32 (u32 (prev_backlog - gq_backlog (sh_qstats h))))).

(** [tx_queue_len] and [psched_mtu] are the device's; [opt] is the length and
    the limit of a [tc_fifo_qopt] attribute, four bytes long. *)
Definition fifo_init (tx_queue_len psched_mtu : Z) (opt : option (Z * Z)) (f : fifo)
    : Z * fifo :=
  let is_bfifo := match f_ops f with Bfifo => true | _ => false end in
  let finish limit :=
    let bypass := if is_bfifo then psched_mtu <=? limit else 1 <=? limit in
    (0, {| f_ops := f_ops f; f_limit := limit; f_bypass := bypass;
           f_handle := f_handle f; f_head := f_head f |}) in
  match opt with
  | None => finish (if is_bfifo then u32 (tx_queue_len * psched_mtu) else tx_queue_len)
  | Some (nla_len, limit) => if nla_len <? 4 then (- EINVAL, f) else finish limit
  end.

(** [strncmp(q->ops->id + 1, "fifo", 4)] is zero for the three queues of this
    file; [mem] tells whether [kmalloc] succeeds. *)
Definition fifo_set_limit (mem : bool) (tx_queue_len psched_mtu limit : Z) (f : fifo)
    : Z * fifo :=
  if mem then fifo_init tx_queue_len psched_mtu (Some (4, limit)) f else (- ENOMEM, f).

(** [created] is the result of [qdisc_create_dflt]. *)
Definition fifo_create_dflt (mem : bool) (tx_queue_len psched_mtu limit : Z)
    (created : option fifo) : Z + fifo :=
  match created with
  | None => inl (- ENOMEM)
  | Some f =>
      let '(err, f') := fifo_set_limit mem tx_queue_len psched_mtu limit f in
      if err <? 0 then inl err else inr f'
  end.

Definition fifo_dump (room : bool) (f : fifo) : option Z :=
  if room then Some (f_limit f) else None.

End fifo.

(** ** A bfifo as the filter's inner queue

    [fifo_create_dflt(sch, &bfifo_qdisc_ops, ...)] is the filter's default
    child. *)

Section inner.
Context `{KernelHeaders} `{SkbQueue}.
Context (mem : bool) (tx_queue_len psched_mtu : Z) (created : option fifo).

(** [qdisc_peek_head] leaves the packet in the list, so the peeked packet is
    taken by the queue's own dequeue. *)
Definition bfifo_inner : InnerQdisc fifo := {|
  iq_enqueue := bfifo_enqueue;
  iq_peek f := (qdisc_peek_head (f_head f), f);
  iq_dequeue_peeked f :=
    let '(o, h) := qdisc_dequeue_head (f_head f) in (o, set_head h f);
  iq_reset f := set_head (qdisc_reset_queue (f_head f)) f;
  iq_set_limit n f := fifo_set_limit mem tx_queue_len psched_mtu n f;
  iq_create n := fifo_create_dflt mem tx_queue_len psched_mtu n created;
  iq_qstats f := sh_qstats (f_head f);
  iq_handle f := f_handle f;
|}.

End inner.

(** ** Theorems *)

Section laws.
Context `{KernelHeadersOk} `{!SkbQueue} `{!SkbQueueOk}.

Lemma fifo_init_list txq pm opt f : sh_list (f_head (fifo_init txq pm opt f).2) = sh_list (f_head f).
Proof. unfold fifo_init. by repeat case_match. Qed.

Lemma fifo_set_limit_list mem txq pm n f :
  sh_list (f_head (fifo_set_limit mem txq pm n f).2) = sh_list (f_head f).
Proof. unfold fifo_set_limit. destruct mem; [apply fifo_init_list|done]. Qed.

Lemma bfifo_enqueue_list skb f ret f' fr :
  bfifo_enqueue skb f = (ret, f', fr) →
  sh_list (f_head f') = sh_list (f_head f) ++ (if ret =? NET_XMIT_SUCCESS then [skb] else []).
Proof.
  unfold bfifo_enqueue, fifo_enqueue_tail, fifo_drop. case_match.
  - destruct (enqueue_tail_ok skb (f_head f)) as (Hr & Hl & _).
    destruct (qdisc_enqueue_tail skb (f_head f)) as [r h]. simpl in *.
    intros [= <- <- <-]. by rewrite Hr, Z.eqb_refl.
  - pose proof (drop_code skb (sh_qstats (f_head f))) as Hr.
    destruct (qdisc_drop _ _) as [[r s] fr']. simpl in *. intros [= <- <- <-]. subst r.
    destruct (Z.eqb_spec NET_XMIT_DROP NET_XMIT_SUCCESS) as [E|_]; [by apply xmit_drop_ne in E|].
    by rewrite app_nil_r.
Qed.

(** A bfifo the kernel just created is empty. *)
Definition bfifo_inner_ok mem txq pm created
    (Hnew : ∀ f, created = Some f → sh_list (f_head f) = []) :
  @InnerQdiscOk fifo _ (bfifo_inner mem txq pm created).
Proof.
  refine {| iq_queue f := sh_list (f_head f) |}.
  - intros *. apply bfifo_enqueue_list.
  - intros c o c' [= <- <-]. by rewrite peek_head_ok.
  - simpl. intros c o c'. pose proof (dequeue_head_ok (f_head c)) as [E1 E2].
    destruct (qdisc_dequeue_head _) as [o' h]. simpl in *. by intros [= <- <-].
  - intros c. apply reset_queue_ok.
  - intros n c. apply fifo_set_limit_list.
  - intros n c. simpl. unfold fifo_create_dflt. destruct created as [f|]; [|done].
    pose proof (fifo_set_limit_list mem txq pm n f) as Hl.
    destruct (fifo_set_limit _ _ _ _ _) as [err f']. simpl in Hl. case_match; [done|].
    intros [= <-]. rewrite Hl. by apply Hnew.
Defined.

(** A packet a bfifo accepts leaves its backlog within the limit. *)
Lemma bfifo_accept_within_limit skb f f' fr :
  bfifo_enqueue skb f = (NET_XMIT_SUCCESS, f', fr) →
  gq_backlog (sh_qstats (f_head f')) ≤ f_limit f' ∧ fr = [].
Proof.
  unfold bfifo_enqueue, fifo_enqueue_tail, fifo_drop. case_match eqn:E.
  - destruct (enqueue_tail_ok skb (f_head f)) as (_ & _ & _ & Hb).
    destruct (qdisc_enqueue_tail skb (f_head f)) as [r h]. simpl in *.
    intros [= _ <- <-]. simpl. apply Z.leb_le in E. split; [lia|done].
  - pose proof (drop_code skb (sh_qstats (f_head f))) as Hr.
    destruct (qdisc_drop _ _) as [[r s] fr']. simpl in *. intros [= -> _ _].
    symmetry in Hr. by apply xmit_drop_ne in Hr.
Qed.

End laws.
