(* ===== verification/SchedSample.v ===== *)
(** * A concrete kernel

    One instance of the headers, to evaluate the models: [psched_l2t_ns] by the
    formula in the comment of [psched_ratecfg_precompute], a tick of 64 ns,
    and the FIFO of lists. *)

From Stdlib Require Import ZArith Lia.
From stdpp Require Import base numbers list option.
From S2P Require Import Prelude Sched Tbf Fifo.

Open Scope Z_scope.

Definition l2t_sample (r : psched_ratecfg) (len : Z) : Z :=
  Z.min (Z.shiftr (Z.max 0 len * Z.max 0 (mult r)) (shift r)) (2 ^ 62 - 1).

Definition sample_headers : KernelHeaders := {|
  NET_XMIT_SUCCESS := 0;
  NET_XMIT_DROP := 1;
  NET_XMIT_CN := 2;
  psched_l2t_ns := l2t_sample;
  PSCHED_TICKS2NS t := 64 * t;
  PSCHED_NS2TICKS t := t / 64;
  psched_ratecfg_getrate r :=
    {| cell_log := 0; rs_linklayer := linklayer r; rs_overhead := overhead r;
       cell_align := 0; mpu := 0; rs_rate := Z.min (rate_bytes_ps r) (2 ^ 32 - 1) |};
  net_xmit_drop_count e := true;
  qdisc_drop skb s :=
    (1, {| gq_backlog := gq_backlog s; gq_drops := u32 (gq_drops s + 1);
           gq_overlimits := gq_overlimits s |}, [skb]);
  qdisc_qstats_drop s :=
    {| gq_backlog := gq_backlog s; gq_drops := u32 (gq_drops s + 1);
       gq_overlimits := gq_overlimits s |};
  qdisc_qstats_overlimit s :=
    {| gq_backlog := gq_backlog s; gq_drops := gq_drops s;
       gq_overlimits := u32 (gq_overlimits s + 1) |};
  qdisc_qstats_backlog_dec skb s := set_backlog (u32 (gq_backlog s - pkt_len skb)) s;
  qdisc_bstats_update skb b :=
    {| gb_bytes := u64 (gb_bytes b + pkt_len skb); gb_packets := u32 (gb_packets b + 1) |};
  skb_is_gso skb := (4000 <? skb_len skb) && (skb_len skb <=? 8000);
  skb_gso_validate_mac_len skb n := 1000 <=? n;
  skb_gso_segment skb :=
    let half := skb_len skb / 2 in
    Some [{| skb_id := skb_id skb; skb_len := half; pkt_len := 0 |};
          {| skb_id := skb_id skb + 512; skb_len := skb_len skb - half; pkt_len := 0 |}];
|}.

Definition sample_headers_ok : @KernelHeadersOk sample_headers.
Proof.
  constructor; simpl; try done.
  - intros r len. unfold l2t_sample.
    assert (0 ≤ Z.shiftr (Z.max 0 len * Z.max 0 (mult r)) (shift r)) by (apply Z.shiftr_nonneg; nia).
    lia.
  - intros r a b Ha Hab. unfold l2t_sample.
    assert (∀ x y n, 0 ≤ x → x ≤ y → Z.shiftr x n ≤ Z.shiftr y n) as Hs.
    { intros x y n Hx Hxy. destruct (Z.le_gt_cases 0 n).
      - rewrite !Z.shiftr_div_pow2 by done. apply Z.div_le_mono; lia.
      - rewrite <- !Z.shiftl_opp_r, !Z.shiftl_mul_pow2 by lia. nia. }
    pose proof (Hs (Z.max 0 a * Z.max 0 (mult r)) (Z.max 0 b * Z.max 0 (mult r)) (shift r)
                  ltac:(nia) ltac:(nia)). lia.
  - intros t. lia.
Defined.

Definition sample_queue : SkbQueue := {|
  qdisc_enqueue_tail skb h :=
    (0, {| sh_list := sh_list h ++ [skb]; sh_qlen := u32 (sh_qlen h + 1);
           sh_qstats := set_backlog (u32 (gq_backlog (sh_qstats h) + pkt_len skb))
                          (sh_qstats h) |});
  qdisc_dequeue_head h :=
    match sh_list h with
    | [] => (None, h)
    | skb :: l =>
        (Some skb, {| sh_list := l; sh_qlen := u32 (sh_qlen h - 1);
                      sh_qstats := set_backlog (u32 (gq_backlog (sh_qstats h) - pkt_len skb))
                                     (sh_qstats h) |})
    end;
  qdisc_peek_head h := head (sh_list h);
  qdisc_reset_queue h := {| sh_list := []; sh_qlen := 0; sh_qstats := set_backlog 0 (sh_qstats h) |};
  __qdisc_queue_drop_head h :=
    ({| sh_list := tail (sh_list h); sh_qlen := u32 (sh_qlen h - 1);
        sh_qstats := set_backlog (u32 (gq_backlog (sh_qstats h)
                                         - total pkt_len (take 1 (sh_list h)))) (sh_qstats h) |},
     take 1 (sh_list h));
|}.

Definition sample_queue_ok : @SkbQueueOk sample_headers sample_queue.
Proof.
  constructor; simpl; try done.
  intros h. by destruct (sh_list h) eqn:E; simpl; rewrite ?E.
Defined.

Definition sample_fifo : fifo :=
  {| f_ops := Bfifo; f_limit := 0; f_bypass := false; f_handle := 0;
     f_head := {| sh_list := []; sh_qlen := 0;
                  sh_qstats := {| gq_backlog := 0; gq_drops := 0; gq_overlimits := 0 |} |} |}.

Definition sample_inner : InnerQdisc fifo :=
  @bfifo_inner sample_headers sample_queue true 1000 1514 (Some sample_fifo).

Definition sample_inner_ok : @InnerQdiscOk fifo sample_headers sample_inner.
Proof.
  apply (@bfifo_inner_ok sample_headers sample_headers_ok sample_queue sample_queue_ok).
  by intros f [= <-].
Defined.

(** The queue as [qdisc_alloc] returns it: zeroed. *)
Definition zero_sch : Qdisc fifo :=
  {| qlen := 0; qstats := {| gq_backlog := 0; gq_drops := 0; gq_overlimits := 0 |};
     bstats := {| gb_bytes := 0; gb_packets := 0 |};
     priv := {| limit := 0; max_size := 0; buffer := 0; mtu := 0; rate := ratecfg_zero;
                peak := ratecfg_zero; tokens := 0; ptokens := 0; t_c := 0; qdisc := Noop;
                watchdog := {| wd_last_expires := 0; wd_timer := None |} |} |}.
