(* ===== verification/TbfConform.v ===== *)
(** * The token bucket filter conforms to its contract

    The contract is the one stated at the top of sch_tbf.c, in units of time:
    for the packets that left between two moments, the transmission times sum
    to at most the bucket depth plus the time between the moments.  [ledger]
    is the abstract token bucket, [run_ledger] the refinement: every run of
    the filter, changes of the rate included, is a run of the abstract
    bucket. *)

From Stdlib Require Import ZArith Lia.
From stdpp Require Import base numbers list option.
From S2P Require Import Prelude Sched Tbf.

Open Scope Z_scope.

(** ** The abstract token bucket

    [ledger cost depth lvl t l]: a bucket that holds [lvl] at time [t] can pay
    for the packets of [l], each at its time, never holding more than the
    packet's bucket depth. *)
Inductive ledger (cost depth : sent → Z) : Z → Z → list sent → Prop :=
| ledger_nil lvl t : ledger cost depth lvl t []
| ledger_cons lvl t s lvl' l :
    0 ≤ lvl' →
    t ≤ s_time s →
    lvl' + cost s ≤ depth s →
    lvl' + cost s ≤ lvl + (s_time s - t) →
    ledger cost depth lvl' (s_time s) l →
    ledger cost depth lvl t (s :: l).

(** The time of the last packet, [d] if there is none. *)
Definition last_time (d : Z) (l : list sent) : Z := foldl (λ _ s, s_time s) d l.

Lemma ledger_app_r cost depth lvl t p l :
  ledger cost depth lvl t (p ++ l) → ∃ lvl' t', ledger cost depth lvl' t' l.
Proof.
  revert lvl t. induction p as [|s p IH]; intros lvl t Hl; [by eauto|].
  inversion Hl; subst. eauto.
Qed.

Lemma ledger_prefix cost depth lvl t p r :
  0 ≤ lvl → ledger cost depth lvl t (p ++ r) →
  total cost p ≤ lvl + (last_time t p - t).
Proof.
  revert lvl t. induction p as [|s p IH]; intros lvl t Hlvl Hl.
  - unfold last_time; simpl; lia.
  - inversion Hl as [|? ? ? lvl' ? Hpos Ht Hd Hp Hl']; subst.
    simpl. specialize (IH _ _ Hpos Hl'). lia.
Qed.

(** Any stretch of a ledger obeys the contract of the bucket. *)
Lemma ledger_conforms cost depth lvl t p s m r :
  ledger cost depth lvl t (p ++ (s :: m) ++ r) →
  total cost (s :: m) ≤ depth s + (last_time (s_time s) m - s_time s).
Proof.
  intros (lvl1 & t1 & Hl)%ledger_app_r.
  inversion Hl as [|? ? ? lvl' ? Hpos Ht Hd Hp Hl']; subst.
  simpl. pose proof (ledger_prefix _ _ _ _ _ _ Hpos Hl'). lia.
Qed.

(** ** The filter's arithmetic *)

Record bucket_ok {Q} (q : tbf_sched_data Q) : Prop := {
  ok_tokens : 0 ≤ tokens q < 2 ^ 62;
  ok_ptokens : 0 ≤ ptokens q < 2 ^ 62;
  ok_buffer : 0 ≤ buffer q < 2 ^ 62;
  ok_mtu : 0 ≤ mtu q < 2 ^ 62;
  ok_t_c : 0 ≤ t_c q < 2 ^ 62;
}.

Create HintDb tbf discriminated.

Lemma bucket_ok_set_qdisc {Q} (i : inner Q) q : bucket_ok q → bucket_ok (set_qdisc i q).
Proof. by intros []; constructor. Qed.

Lemma bucket_ok_set_watchdog {Q} w (q : tbf_sched_data Q) :
  bucket_ok q → bucket_ok (set_watchdog w q).
Proof. by intros []; constructor. Qed.

#[export] Hint Resolve bucket_ok_set_qdisc bucket_ok_set_watchdog : tbf.

Section arith.
Context `{KernelHeadersOk} {Q : Type} `{InnerQdisc Q}.
Implicit Types q : tbf_sched_data Q.

Lemma tbf_balance_eq now len q :
  bucket_ok q → t_c q ≤ now < 2 ^ 62 →
  tbf_balance now len q =
    (Z.min (buffer q) (tokens q + Z.min (now - t_c q) (buffer q))
       - psched_l2t_ns (rate q) len,
     if tbf_peak_present q
     then Z.min (mtu q) (ptokens q + Z.min (now - t_c q) (buffer q))
            - psched_l2t_ns (peak q) len
     else 0).
Proof.
  intros [] Hnow. unfold tbf_balance.
  pose proof (l2t_range (rate q) len). pose proof (l2t_range (peak q) len).
  cint.
  f_equal.
  - destruct (Z.ltb_spec (buffer q) (Z.min (now - t_c q) (buffer q) + tokens q)); cint; lia.
  - destruct (tbf_peak_present q); [|done].
    destruct (Z.ltb_spec (mtu q) (Z.min (now - t_c q) (buffer q) + ptokens q)); cint; lia.
Qed.

#[local] Opaque tbf_balance.

Lemma lor_nonneg_iff a b : (0 <=? Z.lor a b) = true ↔ 0 ≤ a ∧ 0 ≤ b.
Proof. rewrite Z.leb_le. apply Z.lor_nonneg. Qed.

(** A packet leaves: the bucket pays for it, and what is left was in the
    bucket, whose content is capped by its depth. *)
Lemma tbf_dequeue_sent `{!InnerQdiscOk Q} now d (sch sch' : Qdisc Q) skb :
  bucket_ok (priv sch) → t_c (priv sch) ≤ now < 2 ^ 62 →
  tbf_dequeue now d sch = (Some skb, sch') →
  let q := priv sch in
  let q' := priv sch' in
  let s := sent_of now skb q in
  t_c q' = now ∧ buffer q' = buffer q ∧ mtu q' = mtu q ∧
  0 ≤ tokens q' ∧ tokens q' + s_cost s ≤ buffer q ∧
  tokens q' + s_cost s ≤ tokens q + (now - t_c q) ∧
  0 ≤ ptokens q' ∧ ptokens q' + s_pcost s ≤ mtu q ∧
  ptokens q' + s_pcost s ≤ ptokens q + (now - t_c q).
Proof.
  intros Hok Hnow. destruct sch as [ql qs bs q]; simpl in *. unfold tbf_dequeue; simpl.
  destruct (inner_peek (qdisc q)) as [o i] eqn:Hpeek; simpl.
  destruct o as [skb1|]; [|done].
  destruct (tbf_balance now (pkt_len skb1) (set_qdisc i q)) as [toks ptoks] eqn:Hbal.
  rewrite tbf_balance_eq in Hbal by (simpl; auto with tbf). simpl in Hbal.
  destruct (0 <=? Z.lor toks ptoks) eqn:Hlor; [|intros [=]].
  apply lor_nonneg_iff in Hlor as [Ht Hp].
  destruct (inner_dequeue_peeked i) as [o2 i2] eqn:Hdeq; simpl.
  destruct o2 as [skb2|]; [|intros [=]]. intros [= <- <-]; simpl.
  assert (skb2 = skb1) as ->.
  { unfold inner_peek, inner_dequeue_peeked in *.
    destruct (qdisc q) as [|c]; [done|].
    destruct (iq_peek c) as [o1 c1] eqn:E1. injection Hpeek as -> <-.
    destruct (iq_dequeue_peeked c1) as [o3 c3] eqn:E2. injection Hdeq as -> <-.
    apply iq_peek_ok in E1 as [E1 Eq]. apply iq_dequeue_ok in E2 as [E2 _].
    rewrite Eq in E2. congruence. }
  assert (tbf_peak_present (set_qdisc i q) = tbf_peak_present q) as Hpp by done.
  rewrite Hpp in Hbal. destruct Hok as [? ? ? ? ?].
  pose proof (l2t_range (peak q) (pkt_len skb1)).
  injection Hbal as <- <-. destruct (tbf_peak_present q); lia.
Qed.

(** No packet leaves: the bucket and the parameters stay as they are. *)
Lemma tbf_dequeue_none now d (sch sch' : Qdisc Q) :
  tbf_dequeue now d sch = (None, sch') →
  ∃ i w, priv sch' = set_watchdog w (set_qdisc i (priv sch)).
Proof.
  destruct sch as [ql qs bs q]. unfold tbf_dequeue; simpl.
  destruct (inner_peek (qdisc q)) as [[skb|] i]; simpl.
  - destruct (tbf_balance _ _ _) as [toks ptoks].
    destruct (0 <=? Z.lor toks ptoks).
    + destruct (inner_dequeue_peeked i) as [[skb2|] i2]; intros [= <-].
      by exists i2, (watchdog q).
    + intros [= <-]. simpl. eauto.
  - intros [= <-]. by exists i, (watchdog q).
Qed.

(** Enqueuing touches the inner queue and the counters only. *)
Lemma enqueue_inner_priv skb (sch : Qdisc Q) :
  ∃ i, priv (enqueue_inner skb sch).1.2 = set_qdisc i (priv sch).
Proof.
  unfold enqueue_inner. destruct (inner_enqueue _ _) as [[ret i] fr]. exists i.
  by destruct (negb _ && _).
Qed.

Lemma segment_loop_priv segs (sch : Qdisc Q) len nb fr :
  ∃ i, priv (segment_loop segs sch len nb fr).1.1.1 = set_qdisc i (priv sch).
Proof.
  revert sch len nb fr. induction segs as [|seg segs IH]; intros sch len nb fr; simpl.
  - exists (qdisc (priv sch)). by destruct sch as [? ? ? []].
  - pose proof (enqueue_inner_priv (seg_skb seg) sch) as [i Hi].
    destruct (enqueue_inner _ _) as [[ret sch'] fr']. simpl in Hi.
    edestruct IH as [i' ->]. rewrite Hi. by exists i'.
Qed.

Lemma drop_skb_priv skb (sch : Qdisc Q) : priv (drop_skb skb sch).1.2 = priv sch.
Proof. unfold drop_skb. by destruct (qdisc_drop _ _) as [[]]. Qed.

Lemma tbf_enqueue_priv skb (sch : Qdisc Q) :
  ∃ i, priv (tbf_enqueue skb sch).1.1.2 = set_qdisc i (priv sch).
Proof.
  assert (priv (drop_skb skb sch).1.2 = set_qdisc (qdisc (priv sch)) (priv sch)) as Hdrop.
  { rewrite drop_skb_priv. by destruct sch as [? ? ? []]. }
  unfold tbf_enqueue. case_match; [case_match|]; simpl.
  - unfold tbf_segment. destruct (skb_gso_segment skb) as [segs|]; [|eauto].
    pose proof (segment_loop_priv segs sch 0 0 []) as [i Hi].
    destruct (segment_loop _ _ _ _ _) as [[[sch' ?] ?] ?]. by exists i.
  - eauto.
  - pose proof (enqueue_inner_priv skb sch) as [i Hi].
    destruct (enqueue_inner skb sch) as [[ret sch'] fr]. exists i. by destruct (negb _).
Qed.

End arith.

(** ** Changing the rate *)

Section change.
Context `{KernelHeadersOk} {Q : Type} `{InnerQdisc Q}.

Lemma tbf_params_of_error rs ps qopt tb e :
  tbf_params_of rs ps qopt tb = inl e → e = - EINVAL.
Proof. unfold tbf_params_of. intros He. repeat case_match; by simplify_eq/=. Qed.

(** Everything [tbf_change] can leave behind: on an error the inner queue may
    have been handed the new limit, and nothing else changed. *)
Lemma tbf_change_gen_cases refill fresh opt rtabs (sch : Qdisc Q) :
  let '(err, _, sch') := tbf_change_gen refill fresh opt rtabs sch in
  ((err ≠ 0 ∨ opt = inl err) ∧
   ∃ i, (i = qdisc (priv sch) ∨ ∃ n, i = (tbf_child n (qdisc (priv sch))).2) ∧
        sch' = set_priv (set_qdisc i (priv sch)) sch) ∨
  (err = 0 ∧ ∃ tb qopt rs ps p, opt = inr tb ∧ tb_parms tb = Some qopt ∧
     tbf_params_of rs ps qopt tb = inr p ∧ pr_max_size p ≠ 0 ∧
     tbf_child (qopt_limit qopt) (qdisc (priv sch))
       = (0, (tbf_child (qopt_limit qopt) (qdisc (priv sch))).2) ∧
     sch' = set_priv (tbf_install refill p qopt tb
                        (tbf_child (qopt_limit qopt) (qdisc (priv sch))).2 (priv sch)) sch).
Proof.
  assert (sch = set_priv (set_qdisc (qdisc (priv sch)) (priv sch)) sch) as Hid
    by by destruct sch as [? ? ? []].
  assert (∃ i, (i = qdisc (priv sch) ∨ ∃ n, i = (tbf_child n (qdisc (priv sch))).2) ∧
               sch = set_priv (set_qdisc i (priv sch)) sch) as Hsame by eauto.
  unfold tbf_change_gen. destruct opt as [e|tb]; [left; by split; [right|]|].
  destruct (tb_parms tb) as [qopt|] eqn:Hqopt; [|left; by split; [left|]].
  destruct (touch_rtab fresh.1 _ _ _) as [rtabs1 rs].
  destruct (touch_rtab fresh.2 _ _ _) as [rtabs2 ps].
  destruct (tbf_params_of rs ps qopt tb) as [e|p] eqn:Hp.
  { apply tbf_params_of_error in Hp as ->. left; by split; [left|]. }
  destruct (Z.eqb_spec (pr_max_size p) 0); [left; by split; [left|]|].
  destruct (tbf_child _ _) as [e i] eqn:Hc. destruct (Z.eqb_spec e 0); simpl.
  - right. subst e. split; [done|]. by exists tb, qopt, rs, ps, p; rewrite Hc.
  - left. split; [by left|]. exists i. split; [|done]. right. exists (qopt_limit qopt).
    by rewrite Hc.
Qed.

Lemma tbf_params_of_depths rs ps qopt tb p :
  tbf_params_of rs ps qopt tb = inr p →
  (∀ b, tb_burst tb = Some b → 0 ≤ pr_buffer p < 2 ^ 62) ∧
  (0 ≤ pr_mtu p < 2 ^ 62).
Proof.
  unfold tbf_params_of. intros Hp.
  set (rt := psched_ratecfg_precompute rs _) in Hp.
  set (pk := psched_ratecfg_precompute ps _) in Hp.
  pose proof (u64_range (PSCHED_TICKS2NS (qopt_mtu qopt))).
  assert (∀ r len, s64 (psched_l2t_ns r len) = psched_l2t_ns r len) as Hl2t.
  { intros r len. pose proof (l2t_range r len). by cint. }
  rewrite ?Hl2t in Hp.
  split.
  - intros b Hb. rewrite Hb in Hp. rewrite Hl2t in Hp.
    pose proof (l2t_range rt b).
    repeat case_match; simplify_eq/=; lia.
  - repeat case_match; simplify_eq/=; rewrite ?Hl2t; try apply l2t_range; lia.
Qed.

Lemma tbf_install_ok rs ps p qopt tb i (q : tbf_sched_data Q) :
  tbf_params_of rs ps qopt tb = inr p → tb_parms tb = Some qopt → opt_ok (inr tb) = true →
  bucket_ok q → bucket_ok (tbf_install false p qopt tb i q).
Proof.
  intros Hp Hq Hopt [? ? ? ? ?]. unfold opt_ok in Hopt. destruct tb as [pm ? ? ? ? burst pburst].
  simpl in *. subst pm. rewrite !andb_true_iff, !Z.leb_le, !Z.ltb_lt in Hopt.
  apply tbf_params_of_depths in Hp as [Hb Hm]; simpl in Hb.
  pose proof (ticks2ns_range (qopt_buffer qopt)) as Hr1.
  pose proof (ticks2ns_range (qopt_mtu qopt)) as Hr2.
  constructor; simpl; try done.
  - destruct burst as [b|]; [by eapply Hb|]. cint. lia.
  - destruct pburst; [done|]. cint. lia.
Qed.

(** Changing the rate without a refill moves neither the tokens nor the
    check-point, and leaves depths that fit the arithmetic. *)
Lemma tbf_change_bucket fresh opt rtabs (sch : Qdisc Q) :
  opt_ok opt = true → bucket_ok (priv sch) →
  let sch' := (tbf_change_gen false fresh opt rtabs sch).2 in
  bucket_ok (priv sch') ∧ tokens (priv sch') = tokens (priv sch) ∧
  ptokens (priv sch') = ptokens (priv sch) ∧ t_c (priv sch') = t_c (priv sch).
Proof.
  intros Hopt Hok. pose proof (tbf_change_gen_cases false fresh opt rtabs sch) as Hc.
  destruct (tbf_change_gen _ _ _ _ _) as [[err rtabs'] sch']; simpl.
  destruct Hc as [(_ & i & _ & ->)|(_ & tb & qopt & rs & ps & p & -> & Hq & Hp & _ & _ & ->)].
  - simpl. split_and!; auto with tbf.
  - split_and!; [|done..]. by eapply tbf_install_ok.
Qed.

End change.

(** ** Every run is a run of the abstract bucket *)

Section runs.
Context `{KernelHeadersOk} {Q : Type} `{!InnerQdisc Q} `{!InnerQdiscOk Q}.

Abbreviation world := (list qdisc_rate_table * Qdisc Q)%type.

(** What one event other than a reset does to the buckets. *)
Lemma exec_bucket e (w : world) :
  bucket_ok (priv w.2) → ev_ok e = true → no_reset e = true →
  clock_ok (t_c (priv w.2)) [e] = true →
  let '(w', out) := exec false e w in
  bucket_ok (priv w'.2) ∧
  match out with
  | [] => tokens (priv w'.2) = tokens (priv w.2) ∧
          ptokens (priv w'.2) = ptokens (priv w.2) ∧ t_c (priv w'.2) = t_c (priv w.2)
  | [s] => ev_time e = Some (s_time s) ∧ t_c (priv w.2) ≤ s_time s ∧
           t_c (priv w'.2) = s_time s ∧
           0 ≤ tokens (priv w'.2) ∧ tokens (priv w'.2) + s_cost s ≤ s_buffer s ∧
           tokens (priv w'.2) + s_cost s
             ≤ tokens (priv w.2) + (s_time s - t_c (priv w.2)) ∧
           0 ≤ ptokens (priv w'.2) ∧ ptokens (priv w'.2) + s_pcost s ≤ s_mtu s ∧
           ptokens (priv w'.2) + s_pcost s
             ≤ ptokens (priv w.2) + (s_time s - t_c (priv w.2))
  | _ => False
  end.
Proof.
  destruct w as [rtabs sch]; simpl. intros Hok Hev Hnr Hclk.
  destruct e as [skb|now d|fresh opt|room|now]; simpl in *; try done.
  - pose proof (tbf_enqueue_priv skb sch) as [i ->]. auto with tbf.
  - rewrite andb_true_r, andb_true_iff, Z.leb_le, Z.ltb_lt in Hclk.
    destruct (tbf_dequeue now d sch) as [[skb|] sch'] eqn:Hd; simpl.
    + pose proof (tbf_dequeue_sent now d sch sch' skb Hok Hclk Hd)
        as (Htc & Hb & Hm & Ht & Ht1 & Ht2 & Hp & Hp1 & Hp2).
      assert (0 ≤ s_cost (sent_of now skb (priv sch))) by apply l2t_range.
      assert (0 ≤ s_pcost (sent_of now skb (priv sch))).
      { simpl. destruct (tbf_peak_present _); [apply l2t_range|lia]. }
      destruct Hok. simpl in *.
      split; [constructor; rewrite ?Hb, ?Hm, ?Htc; lia|]. split_and!; done || lia.
    + apply tbf_dequeue_none in Hd as (i & wd & ->). auto with tbf.
  - pose proof (tbf_change_bucket fresh opt rtabs sch Hev Hok) as Hc.
    by destruct (tbf_change_gen _ _ _ _ _) as [[err rtabs'] sch'].
  - by unfold tbf_dump; case_match.
Qed.

Lemma clock_ok_mono t t' es : t ≤ t' → clock_ok t' es = true → clock_ok t es = true.
Proof.
  revert t t'. induction es as [|e es IH]; intros t t' Ht; simpl; [done|].
  destruct (ev_time e) as [now|]; [|by eapply IH].
  rewrite !andb_true_iff, !Z.leb_le. intros [[? ?] ?]. split_and!; auto; lia.
Qed.

Lemma clock_ok_cons t e es :
  clock_ok t (e :: es) = true →
  clock_ok t [e] = true ∧
  ∀ t', t' = t ∨ ev_time e = Some t' → clock_ok t' es = true.
Proof.
  simpl. destruct (ev_time e) as [now|]; [|naive_solver].
  rewrite !andb_true_iff. intros [[Hle ?] Hes]. split; [done|].
  intros t' [->|[= ->]]; [|done]. apply Z.leb_le in Hle. by eapply clock_ok_mono.
Qed.

Lemma run_ledger es (w : world) :
  bucket_ok (priv w.2) → Forall ev_ok es → Forall no_reset es →
  clock_ok (t_c (priv w.2)) es = true →
  let out := (run false es w).2 in
  ledger s_cost s_buffer (tokens (priv w.2)) (t_c (priv w.2)) out ∧
  ledger s_pcost s_mtu (ptokens (priv w.2)) (t_c (priv w.2)) out.
Proof.
  revert w. induction es as [|e es IH]; intros w Hok Hev Hnr Hclk; simpl.
  { split; constructor. }
  inversion_clear Hev as [|? ? He Hes]. inversion_clear Hnr as [|? ? Hn Hns].
  apply Is_true_true in He, Hn. apply clock_ok_cons in Hclk as [Hc1 Hc2].
  pose proof (exec_bucket e w Hok He Hn Hc1) as Hx.
  destruct (exec false e w) as [w1 out1]. destruct Hx as [Hok1 Hout].
  specialize (IH w1 Hok1 Hes Hns). destruct (run false es w1) as [w2 out2].
  destruct out1 as [|s [|]]; [| |done]; simpl in *.
  - destruct Hout as (<- & <- & Htc). rewrite <- Htc. apply IH, Hc2. by left.
  - destruct Hout as (Hs & ? & Htc & ?). rewrite Htc in IH.
    destruct IH as [IH1 IH2]; [apply Hc2; by right|].
    split;
      [apply (ledger_cons _ _ _ _ s (tokens (priv w1.2)))
      |apply (ledger_cons _ _ _ _ s (ptokens (priv w1.2)))]; done || lia.
Qed.

End runs.
