(* ===== verification/RateTheorems.v ===== *)
(** * Rate configurations and rate tables

    [psched_ratecfg_precompute] (sch_generic.c) replaces a division by a
    multiplication and a shift; the first theorems say that its loop ends,
    that nothing overflows and how precise the reciprocal is.
    [psched_ns_t2l] (sch_tbf.c) is its inverse.  The last ones are on the
    reference counts of the shared rate tables (sch_api.c). *)

From Stdlib Require Import ZArith Lia.
From stdpp Require Import base numbers list option sets.
From S2P Require Import Prelude Sched Tbf.

Open Scope Z_scope.

(** ** The reciprocal *)

(** The top bit of a number of [n + 1] bits. *)
Lemma top_bit n m : 0 ≤ n → 0 ≤ m < 2 ^ (n + 1) → Z.testbit m n = (2 ^ n <=? m).
Proof.
  intros Hn Hm. rewrite Z.pow_add_r in Hm by lia.
  pose proof (Z.testbit_spec' m n Hn) as Hb.
  assert (0 < 2 ^ n) by (apply Z.pow_pos_nonneg; lia).
  assert (0 ≤ m / 2 ^ n < 2) as Hd.
  { split; [apply Z.div_pos; lia|apply Z.div_lt_upper_bound; lia]. }
  rewrite Z.mod_small in Hb by lia.
  destruct (Z.leb_spec (2 ^ n) m) as [Hle|Hlt].
  - assert (1 ≤ m / 2 ^ n) by (apply Z.div_le_lower_bound; lia).
    destruct (Z.testbit m n); simpl in Hb; lia.
  - rewrite Z.div_small in Hb by lia. by destruct (Z.testbit m n).
Qed.

(** The state of the loop: [factor] is [NSEC_PER_SEC * 2 ^ sh] and neither it
    nor the quotient has outgrown its type. *)
Definition recip (rate sh : Z) : Z := NSEC_PER_SEC * 2 ^ sh / rate.

Definition recip_done (rate sh : Z) : bool :=
  (2 ^ 31 <=? recip rate sh) || (2 ^ 63 <=? NSEC_PER_SEC * 2 ^ sh).

Lemma recip_succ rate sh :
  0 < rate → 0 ≤ sh → recip rate sh < 2 ^ 31 → recip rate (sh + 1) < 2 ^ 32.
Proof.
  unfold recip. intros Hr Hs Hlt. rewrite Z.pow_add_r by lia.
  apply Z.div_lt_upper_bound; [done|].
  pose proof (Z.mul_succ_div_gt (NSEC_PER_SEC * 2 ^ sh) rate Hr). nia.
Qed.

Lemma ratecfg_loop_spec fuel rate sh :
  0 < rate → 0 ≤ sh ≤ 34 → recip rate sh < 2 ^ 32 → NSEC_PER_SEC * 2 ^ sh < 2 ^ 64 →
  34 - sh < Z.of_nat fuel →
  ∃ sh', ratecfg_loop fuel rate (NSEC_PER_SEC * 2 ^ sh) sh = Some (recip rate sh', sh') ∧
    sh ≤ sh' ≤ 34 ∧ recip rate sh' < 2 ^ 32 ∧ recip_done rate sh' = true ∧
    ∀ k, sh ≤ k < sh' → recip_done rate k = false.
Proof.
  revert sh. induction fuel as [|fuel IH]; intros sh Hr Hs Hm Hf Hfuel; [lia|].
  cbn [ratecfg_loop]. cbv zeta. fold (recip rate sh).
  assert (0 ≤ recip rate sh) by (unfold recip, NSEC_PER_SEC; apply Z.div_pos; nia).
  rewrite (top_bit 31) by (change (31 + 1) with 32; lia).
  assert (0 ≤ NSEC_PER_SEC * 2 ^ sh) by (unfold NSEC_PER_SEC; lia).
  rewrite (top_bit 63) by (change (63 + 1) with 64; lia).
  fold (recip_done rate sh).
  destruct (recip_done rate sh) eqn:Hd.
  - exists sh. split_and!; auto; try lia.
  - unfold recip_done in Hd. apply orb_false_iff in Hd as [Hd1 Hd2].
    apply Z.leb_gt in Hd1, Hd2.
    assert (sh < 34) as Hlt.
    { destruct (Z.eq_dec sh 34) as [->|]; [by compute in Hd2|lia]. }
    assert (u64 (Z.shiftl (NSEC_PER_SEC * 2 ^ sh) 1) = NSEC_PER_SEC * 2 ^ (sh + 1)) as ->.
    { rewrite Z.shiftl_mul_pow2, Z.pow_add_r by lia. unfold NSEC_PER_SEC in *.
      rewrite u64_small by lia. lia. }
    destruct (IH (sh + 1)) as (sh' & Hl & Hb & Hm' & Hd' & Hk); try lia.
    { apply recip_succ; lia. }
    { rewrite Z.pow_add_r by lia. lia. }
    exists sh'. split_and!; try done; try lia.
    intros k Hk'. destruct (Z.eq_dec k sh) as [->|]; [|apply Hk; lia].
    unfold recip_done. apply orb_false_iff. rewrite !Z.leb_gt. lia.
Qed.

Lemma recip_0 rate : 0 < rate → recip rate 0 < 2 ^ 32.
Proof.
  intros Hr. unfold recip, NSEC_PER_SEC. apply Z.div_lt_upper_bound; nia.
Qed.

Lemma precompute_loop conf rate64 :
  0 < Z.max (rs_rate conf) rate64 →
  let r := psched_ratecfg_precompute conf rate64 in
  rate_bytes_ps r = Z.max (rs_rate conf) rate64 ∧
  mult r = recip (rate_bytes_ps r) (shift r) ∧ 0 ≤ shift r ≤ 34 ∧
  0 ≤ mult r < 2 ^ 32 ∧ recip_done (rate_bytes_ps r) (shift r) = true ∧
  ∀ k, 0 ≤ k < shift r → recip_done (rate_bytes_ps r) k = false.
Proof.
  intros Hr. unfold psched_ratecfg_precompute. cbv zeta.
  rewrite (proj2 (Z.ltb_lt _ _) Hr).
  destruct (ratecfg_loop_spec 64 _ 0 Hr) as (sh & Hl & Hb & Hm & Hd & Hk);
    try (unfold NSEC_PER_SEC; lia); [by apply recip_0|].
  rewrite Z.pow_0_r, Z.mul_1_r in Hl. rewrite Hl; simpl.
  split_and!; auto; try lia. unfold recip, NSEC_PER_SEC. apply Z.div_pos; lia.
Qed.

(** For any nonzero rate the normalisation loop ends; [shift] is the least
    number of doublings after which the multiplier uses bit 31 or the scaled
    second uses bit 63, the multiplier is the truncated quotient and fits 32
    bits, and multiplying it by a 32-bit length cannot overflow 64 bits. *)
Theorem psched_precompute_normalised conf rate64 :
  0 < Z.max (rs_rate conf) rate64 →
  let r := psched_ratecfg_precompute conf rate64 in
  mult r = NSEC_PER_SEC * 2 ^ shift r / rate_bytes_ps r ∧
  0 ≤ shift r ≤ 34 ∧
  (2 ^ 31 ≤ mult r ∨ 2 ^ 63 ≤ NSEC_PER_SEC * 2 ^ shift r) ∧
  (∀ k, 0 ≤ k < shift r → NSEC_PER_SEC * 2 ^ k / rate_bytes_ps r < 2 ^ 31) ∧
  (∀ len, 0 ≤ len < 2 ^ 32 → 0 ≤ len * mult r < 2 ^ 64).
Proof.
  intros Hr. cbv zeta.
  destruct (precompute_loop conf rate64 Hr) as (_ & Hm & Hs & Hb & Hd & Hk).
  set (r := psched_ratecfg_precompute conf rate64) in *.
  split_and!; try done; try lia.
  - apply orb_true_iff in Hd as [Hd%Z.leb_le|Hd%Z.leb_le]; [left; lia|by right].
  - intros k Hlt. specialize (Hk k Hlt). unfold recip_done in Hk.
    apply orb_false_iff in Hk as [Hk%Z.leb_gt _]. exact Hk.
  - intros len Hlen. nia.
Qed.

Lemma psched_precompute_normalised_witness :
  let r := psched_ratecfg_precompute
             {| cell_log := 0; rs_linklayer := 1; rs_overhead := 0; cell_align := 0;
                mpu := 0; rs_rate := 625000000 |} 0 in
  mult r = 3435973836 ∧ shift r = 31 ∧ (∀ len, 0 ≤ len < 2 ^ 32 → 0 ≤ len * mult r < 2 ^ 64).
Proof.
  cbv zeta. split; [vm_compute; reflexivity|]. split; [vm_compute; reflexivity|].
  apply psched_precompute_normalised. vm_compute; reflexivity.
Defined.

(** C40: the reciprocal is a lower bound of the exact transmission time, and
    misses it by less than one nanosecond plus [len / 2 ^ shift]: with the
    formula of the source's comment, [time = (len * mult) >> shift],
    [time <= len * 10^9 / rate < time + 1 + len / 2^shift]. *)
Theorem psched_reciprocal_accuracy conf rate64 len :
  0 < Z.max (rs_rate conf) rate64 → 0 ≤ len →
  let r := psched_ratecfg_precompute conf rate64 in
  let time := Z.shiftr (len * mult r) (shift r) in
  time * rate_bytes_ps r ≤ len * NSEC_PER_SEC ∧
  len * NSEC_PER_SEC * 2 ^ shift r
    < ((time + 1) * 2 ^ shift r + len) * rate_bytes_ps r.
Proof.
  intros Hr Hlen. cbv zeta.
  destruct (precompute_loop conf rate64 Hr) as (Hrate & Hm & Hs & _ & _).
  set (r := psched_ratecfg_precompute conf rate64) in *.
  rewrite Z.shiftr_div_pow2 by lia.
  assert (0 < 2 ^ shift r) as Hp by (apply Z.pow_pos_nonneg; lia).
  set (P := 2 ^ shift r) in *. set (t := len * mult r / P).
  pose proof (Z.mul_div_le (len * mult r) P Hp) as Hlo.
  pose proof (Z.mul_succ_div_gt (len * mult r) P Hp) as Hhi.
  fold t in Hlo, Hhi. unfold recip in Hm. fold P in Hm.
  rewrite Hrate in *. set (R := Z.max (rs_rate conf) rate64) in *.
  pose proof (Z.mul_div_le (NSEC_PER_SEC * P) R Hr) as Hql.
  pose proof (Z.mul_succ_div_gt (NSEC_PER_SEC * P) R Hr) as Hqh.
  rewrite <- Hm in Hql, Hqh. split.
  - apply Z.mul_le_mono_pos_r with (p := P); [done|].
    apply Z.le_trans with (len * (R * mult r)); nia.
  - destruct (Z.eq_dec len 0) as [->|]; [nia|].
    apply Z.lt_le_trans with (len * (R * Z.succ (mult r))); nia.
Qed.

Lemma psched_reciprocal_accuracy_witness :
  let r := psched_ratecfg_precompute
             {| cell_log := 0; rs_linklayer := 1; rs_overhead := 0; cell_align := 0;
                mpu := 0; rs_rate := 625000000 |} 0 in
  Z.shiftr (1514 * mult r) (shift r) = 2422 ∧
  (2422 * rate_bytes_ps r ≤ 1514 * NSEC_PER_SEC ∧
   1514 * NSEC_PER_SEC * 2 ^ shift r < ((2422 + 1) * 2 ^ shift r + 1514) * rate_bytes_ps r).
Proof.
  cbv zeta. split; [vm_compute; reflexivity|].
  apply (psched_reciprocal_accuracy
           {| cell_log := 0; rs_linklayer := 1; rs_overhead := 0; cell_align := 0;
              mpu := 0; rs_rate := 625000000 |} 0 1514).
  - vm_compute; reflexivity.
  - vm_compute; congruence.
Defined.

(** ** Time to length *)

(** Below 2^64 the product of [psched_ns_t2l] is exact, and the length it
    returns is one whose transmission time, overhead included, is at most the
    given time: the burst size [tbf_change] derives from a buffer time fits
    that buffer. *)
Theorem psched_t2l_fits conf rate64 time :
  0 < Z.max (rs_rate conf) rate64 → 0 ≤ time → 0 ≤ rs_overhead conf →
  let r := psched_ratecfg_precompute conf rate64 in
  linklayer r ≠ TC_LINKLAYER_ATM → time * rate_bytes_ps r < 2 ^ 64 →
  let len := psched_ns_t2l r time in
  len = Z.max 0 (time * rate_bytes_ps r / NSEC_PER_SEC - overhead r) ∧
  (0 < len → Z.shiftr ((len + overhead r) * mult r) (shift r) ≤ time).
Proof.
  intros Hr Ht Ho. cbv zeta. intros Hll Hprod.
  destruct (precompute_loop conf rate64 Hr) as (Hrate & Hm & Hs & Hb & _).
  set (r := psched_ratecfg_precompute conf rate64) in *.
  assert (overhead r = rs_overhead conf) as Hov.
  { unfold r, psched_ratecfg_precompute. cbv zeta. by destruct (if 0 <? _ then _ else _). }
  assert (psched_ns_t2l r time
          = Z.max 0 (time * rate_bytes_ps r / NSEC_PER_SEC - overhead r)) as ->.
  { unfold psched_ns_t2l. cbv zeta.
    assert (0 ≤ time * rate_bytes_ps r) by (apply Z.mul_nonneg_nonneg; lia).
    rewrite (u64_small (time * rate_bytes_ps r)) by lia.
    rewrite (proj2 (Z.eqb_neq _ _) Hll).
    generalize (time * rate_bytes_ps r / NSEC_PER_SEC). intros L.
    destruct (Z.ltb_spec (overhead r) L); lia. }
  split; [done|]. intros Hpos.
  set (L := time * rate_bytes_ps r / NSEC_PER_SEC) in *.
  rewrite Z.max_r by lia. replace (L - overhead r + overhead r) with L by lia.
  assert (0 < 2 ^ shift r) as Hp by (apply Z.pow_pos_nonneg; lia).
  rewrite Z.shiftr_div_pow2 by lia.
  pose proof (Z.mul_div_le (time * rate_bytes_ps r) NSEC_PER_SEC eq_refl) as Hl.
  fold L in Hl. unfold recip in Hm.
  pose proof (Z.mul_div_le (NSEC_PER_SEC * 2 ^ shift r) (rate_bytes_ps r) ltac:(lia)) as Hq.
  rewrite <- Hm in Hq. rewrite <- (Z.div_mul time (2 ^ shift r)) by lia.
  apply Z.div_le_mono; [done|].
  apply Z.mul_le_mono_pos_l with (p := rate_bytes_ps r); [lia|].
  apply Z.le_trans with (L * (NSEC_PER_SEC * 2 ^ shift r)); nia.
Qed.

Lemma psched_t2l_fits_witness :
  let r := psched_ratecfg_precompute
             {| cell_log := 0; rs_linklayer := 1; rs_overhead := 24; cell_align := 0;
                mpu := 0; rs_rate := 625000000 |} 0 in
  psched_ns_t2l r 80000 = 49976 ∧
  (0 < psched_ns_t2l r 80000 →
   Z.shiftr ((psched_ns_t2l r 80000 + overhead r) * mult r) (shift r) ≤ 80000).
Proof.
  cbv zeta. split; [vm_compute; reflexivity|].
  apply (psched_t2l_fits
           {| cell_log := 0; rs_linklayer := 1; rs_overhead := 24; cell_align := 0;
              mpu := 0; rs_rate := 625000000 |} 0 80000).
  - vm_compute; reflexivity.
  - vm_compute; congruence.
  - vm_compute; congruence.
  - vm_compute; congruence.
  - vm_compute; reflexivity.
Defined.

(** ** Rate tables *)

Lemma rt_ref_undo t : rt_ref (-1) (rt_ref 1 t) = t.
Proof. destruct t. unfold rt_ref; simpl. f_equal. lia. Qed.

Lemma rtab_find_release r data l a l' :
  NoDup (rt_addr <$> l) → Forall (λ t, 1 ≤ rt_refcnt t) l →
  rtab_find r data l = Some (a, l') → rtab_release a l' = l.
Proof.
  revert l'. induction l as [|t l IH]; intros l' Hnd Href Hf; [done|].
  rewrite fmap_cons, list.NoDup_cons in Hnd. destruct Hnd as [Hin Hnd].
  apply Forall_cons_iff in Href as [Ht Href]. simpl in Hf.
  destruct (rtab_same r data t).
  - injection Hf as <- <-. simpl. rewrite Z.eqb_refl.
    destruct (Z.eqb_spec (rt_refcnt t + 1 - 1) 0); [lia|]. by rewrite rt_ref_undo.
  - destruct (rtab_find r data l) as [[a' l'']|] eqn:E; [|done]. injection Hf as <- <-. simpl.
    assert (a' ∈ rt_addr <$> l) as Ha.
    { clear -E. revert l'' E. induction l as [|t' l IH]; intros l'' E; simpl in E; [done|].
      rewrite fmap_cons. case_match; [simplify_eq; left|].
      destruct (rtab_find r data l) as [[a2 l2]|]; [|done]. injection E as -> _.
      right. by eapply IH. }
    destruct (Z.eqb_spec (rt_addr t) a') as [E'|_]; [by rewrite E' in Hin|]. f_equal. by apply IH.
Qed.

(** Looking a rate table up and releasing it again leaves the shared list
    of tables as it was, reference counts included, whether the table was
    found, allocated or refused; the request's specification changes at most
    in its link layer. *)
Theorem touch_rtab_no_leak fresh r tab l :
  NoDup (rt_addr <$> l) → Forall (λ t, 1 ≤ rt_refcnt t) l →
  (∀ a, fresh = Some a → a ∉ rt_addr <$> l) →
  (touch_rtab fresh r tab l).1 = l ∧
  ∃ ll, (touch_rtab fresh r tab l).2 = rs_set_linklayer ll r.
Proof.
  intros Hnd Href Hfresh. unfold touch_rtab, qdisc_get_rtab.
  assert (∃ ll, r = rs_set_linklayer ll r) as Hr by (exists (rs_linklayer r); by destruct r).
  destruct (rs_linklayer r =? TC_LINKLAYER_UNAWARE); [|done].
  destruct tab as [tab|]; [|done]. destruct (_ || _ || _); [done|].
  destruct (rtab_find r (ra_data tab) l) as [[a l']|] eqn:Hf.
  - simpl. split; [by eapply rtab_find_release|done].
  - destruct fresh as [a|]; [|done]. simpl. rewrite Z.eqb_refl. split; [done|eauto].
Qed.

Lemma touch_rtab_no_leak_witness :
  let r := {| cell_log := 3; rs_linklayer := 0; rs_overhead := 0; cell_align := 0;
              mpu := 0; rs_rate := 1000 |} in
  let t := {| rt_addr := 8; rt_rate := r; rt_data := [7]; rt_refcnt := 1 |} in
  (touch_rtab (Some 16) r (Some {| ra_len := 1024; ra_data := [9] |}) [t]).1 = [t] ∧
  ∃ ll, (touch_rtab (Some 16) r (Some {| ra_len := 1024; ra_data := [9] |}) [t]).2
        = rs_set_linklayer ll r.
Proof.
  cbv zeta. apply touch_rtab_no_leak.
  - repeat constructor. set_solver.
  - repeat constructor. simpl. lia.
  - intros a [= <-]. set_solver.
Defined.
