(* ===== verification/TbfTheorems.v ===== *)
(** * What the token bucket filter guarantees

    The properties of sch_tbf.c: conformance of the output across changes of
    the rate, the watchdog's precision, the effect of a change on every
    branch, and the accounting of the queue.  Witnesses run the model on the
    concrete kernel of SchedSample.v. *)

From Stdlib Require Import ZArith Lia.
From stdpp Require Import base numbers list option.
From S2P Require Import Prelude Sched Tbf TbfConform Fifo SchedSample.

Open Scope Z_scope.

(** ** Sample configurations *)

(** 8 Gbit/s is 10^9 bytes per second: one byte costs one nanosecond. *)
Definition spec_of_rate (r : Z) : tc_ratespec :=
  {| cell_log := 3; rs_linklayer := 1; rs_overhead := 0; cell_align := -1; mpu := 0;
     rs_rate := r |}.

Definition sample_tb (r p burst pburst : Z) : tbf_tb :=
  {| tb_parms := Some {| qopt_rate := spec_of_rate r; qopt_peakrate := spec_of_rate p;
                         qopt_limit := 100000; qopt_buffer := 100; qopt_mtu := 100 |};
     tb_rtab := None; tb_ptab := None; tb_rate64 := None; tb_prate64 := None;
     tb_burst := Some burst; tb_pburst := Some pburst |}.

Definition pkt (id len : Z) : sk_buff := {| skb_id := id; skb_len := len; pkt_len := len |}.

(** Two packets of 1000 bytes leave at 10^9 B/s, then one at half the rate. *)
Definition sample_events : list event :=
  [EvChange (None, None) (inr (sample_tb 1000000000 2000000000 3000 1500));
   EvEnqueue (pkt 1 1000); EvEnqueue (pkt 2 1000); EvEnqueue (pkt 3 1000);
   EvDequeue 2500 false; EvDequeue 3000 false;
   EvChange (None, None) (inr (sample_tb 500000000 2000000000 3000 1500));
   EvDequeue 3500 false; EvDequeue 5000 false].

Definition sample_run (refill : bool) (es : list event) :=
  @run sample_headers fifo sample_inner refill es ([], zero_sch).

Lemma zero_sch_ok : bucket_ok (priv zero_sch).
Proof. constructor; simpl; lia. Qed.

Ltac all_true := repeat (constructor; [exact I|]); constructor.

(** ** Conformance *)

(** C1: the packets the filter lets through obey the token bucket contract
    stated at the top of sch_tbf.c, across any interleaving of enqueues,
    dequeues, dumps and changes of the rate, failed ones included: whatever
    stretch of the output is taken, the transmission times of its packets
    (each at the rate in force when it left) sum to at most the bucket depth
    in force at its first packet plus the time the stretch took. *)
Theorem tbf_rate_conformance `{KernelHeadersOk} {Q : Type} `{!InnerQdisc Q} `{!InnerQdiscOk Q}
    (es : list event) (w : list qdisc_rate_table * Qdisc Q) p s m r :
  bucket_ok (priv w.2) → Forall ev_ok es → Forall no_reset es →
  clock_ok (t_c (priv w.2)) es = true →
  (run false es w).2 = p ++ (s :: m) ++ r →
  total s_cost (s :: m) ≤ s_buffer s + (last_time (s_time s) m - s_time s).
Proof.
  intros Hok He Hn Hc Hout. destruct (run_ledger es w Hok He Hn Hc) as [Hl _].
  rewrite Hout in Hl. by eapply ledger_conforms.
Qed.

Lemma tbf_rate_conformance_witness :
  ∃ s1 s2 s3, (sample_run false sample_events).2 = [s1; s2; s3] ∧
    total s_cost [s1; s2; s3] ≤ s_buffer s1 + (last_time (s_time s1) [s2; s3] - s_time s1).
Proof.
  do 3 eexists. split; [vm_compute; reflexivity|].
  apply (@tbf_rate_conformance sample_headers sample_headers_ok fifo sample_inner
           sample_inner_ok sample_events ([], zero_sch) [] _ _ []).
  - exact zero_sch_ok.
  - all_true.
  - all_true.
  - vm_compute. reflexivity.
  - vm_compute. reflexivity.
Defined.

(** The same for the second bucket: the transmission times at the peak
    rate, charged while a peak rate is configured, sum to at most the depth
    [mtu] plus the time taken. *)
Theorem tbf_peak_conformance `{KernelHeadersOk} {Q : Type} `{!InnerQdisc Q} `{!InnerQdiscOk Q}
    (es : list event) (w : list qdisc_rate_table * Qdisc Q) p s m r :
  bucket_ok (priv w.2) → Forall ev_ok es → Forall no_reset es →
  clock_ok (t_c (priv w.2)) es = true →
  (run false es w).2 = p ++ (s :: m) ++ r →
  total s_pcost (s :: m) ≤ s_mtu s + (last_time (s_time s) m - s_time s).
Proof.
  intros Hok He Hn Hc Hout. destruct (run_ledger es w Hok He Hn Hc) as [_ Hl].
  rewrite Hout in Hl. by eapply ledger_conforms.
Qed.

Lemma tbf_peak_conformance_witness :
  ∃ s1 s2 s3, (sample_run false sample_events).2 = [s1; s2; s3] ∧
    total s_pcost [s2; s3] ≤ s_mtu s2 + (last_time (s_time s2) [s3] - s_time s2).
Proof.
  do 3 eexists. split; [vm_compute; reflexivity|].
  apply (@tbf_peak_conformance sample_headers sample_headers_ok fifo sample_inner
           sample_inner_ok sample_events ([], zero_sch)
           (take 1 (sample_run false sample_events).2) _ _ []).
  - exact zero_sch_ok.
  - all_true.
  - all_true.
  - vm_compute. reflexivity.
  - vm_compute. reflexivity.
Defined.

(** Two requests in a row, each followed by a burst, at one instant. *)
Definition burst_events : list event :=
  [EvChange (None, None) (inr (sample_tb 1000000000 0 3000 1500));
   EvEnqueue (pkt 1 1000); EvEnqueue (pkt 2 1000); EvEnqueue (pkt 3 1000);
   EvEnqueue (pkt 4 1000);
   EvDequeue 10000 false; EvDequeue 10000 false; EvDequeue 10000 false;
   EvChange (None, None) (inr (sample_tb 1000000000 0 3000 1500));
   EvDequeue 10000 false].

(** The kernel's own [tbf_change] breaks the contract when the rate is
    changed while the filter runs: it refills the bucket, so two bursts leave
    at one instant and the sum of their costs exceeds the bucket depth.  The
    repository's [tbf_change] on the same calls holds the second burst back. *)
Theorem upstream_refill_breaks_conformance :
  ∃ s m,
    (sample_run true burst_events).2 = s :: m ∧
    last_time (s_time s) m = s_time s ∧
    s_buffer s < total s_cost (s :: m) ∧
    length (sample_run false burst_events).2 = 3%nat ∧
    total s_cost (sample_run false burst_events).2 = s_buffer s.
Proof. do 2 eexists. vm_compute. repeat split. Qed.

(** ** The packet at the head of the queue *)

Section head.
Context `{KernelHeadersOk} {Q : Type} `{!InnerQdisc Q} `{!InnerQdiscOk Q}.

(** What the filter holds, oldest first. *)
Definition inner_queue (i : inner Q) : list sk_buff :=
  match i with
  | Noop => []
  | Child c => iq_queue c
  end.

(** A dequeue with a packet at the head of the queue. *)
Lemma tbf_dequeue_head now d (sch : Qdisc Q) skb rest :
  inner_queue (qdisc (priv sch)) = skb :: rest →
  ∃ i i2, inner_queue i = skb :: rest ∧ inner_queue i2 = rest ∧
  tbf_dequeue now d sch =
    let q := priv sch in
    let '(toks, ptoks) := tbf_balance now (pkt_len skb) q in
    if 0 <=? Z.lor toks ptoks then
      (Some skb,
       set_bstats (qdisc_bstats_update skb (bstats sch))
         (set_qlen (u32 (qlen sch - 1))
            (set_qstats (qdisc_qstats_backlog_dec skb (qstats sch))
               (set_priv (set_bucket toks ptoks now (set_qdisc i2 q)) sch))))
    else
      (None,
       set_qstats (qdisc_qstats_overlimit (qstats sch))
         (set_priv
            (set_watchdog
               (qdisc_watchdog_schedule_ns d
                  (u64 (now + Z.max (s64 (- toks)) (s64 (- ptoks)))) (watchdog q))
               (set_qdisc i q)) sch)).
Proof.
  destruct sch as [ql qs bs q]. simpl. intros Hq. unfold tbf_dequeue; simpl.
  destruct (qdisc q) as [|c]; [done|]. simpl in *.
  destruct (iq_peek c) as [o c1] eqn:E1. apply iq_peek_ok in E1 as [Eo Ec].
  rewrite Hq in Eo, Ec. subst o; simpl.
  destruct (iq_dequeue_peeked c1) as [o2 c2] eqn:E2. apply iq_dequeue_ok in E2 as [Eo2 Ec2].
  rewrite Ec in Eo2, Ec2. subst o2; simpl in *.
  exists (Child c1), (Child c2). split_and!; [done..|].
  change (tbf_balance now (pkt_len skb) (set_qdisc (Child c1) q))
    with (tbf_balance now (pkt_len skb) q).
  by destruct (tbf_balance now (pkt_len skb) q) as [toks ptoks], (0 <=? Z.lor toks ptoks).
Qed.

Lemma tbf_dequeue_head_result now d (sch : Qdisc Q) skb rest :
  inner_queue (qdisc (priv sch)) = skb :: rest →
  (tbf_dequeue now d sch).1 =
    let '(toks, ptoks) := tbf_balance now (pkt_len skb) (priv sch) in
    if 0 <=? Z.lor toks ptoks then Some skb else None.
Proof.
  intros Hq. destruct (tbf_dequeue_head now d sch skb rest Hq) as (i & i2 & _ & _ & ->).
  cbv zeta. destruct (tbf_balance _ _ _) as [toks ptoks]. by destruct (0 <=? _).
Qed.

(** The packet fits the buckets: they can hold its cost. *)
Definition fits (skb : sk_buff) (q : tbf_sched_data Q) : Prop :=
  psched_l2t_ns (rate q) (pkt_len skb) ≤ buffer q ∧
  (tbf_peak_present q = true →
   psched_l2t_ns (peak q) (pkt_len skb) ≤ Z.min (mtu q) (buffer q)).

(** When the packet that fits may leave, as a threshold on the clock. *)
Lemma tbf_balance_threshold now t skb (q : tbf_sched_data Q) toks ptoks toks' ptoks' :
  bucket_ok q → t_c q ≤ now → now ≤ t < 2 ^ 62 → fits skb q →
  tbf_balance now (pkt_len skb) q = (toks, ptoks) →
  tbf_balance t (pkt_len skb) q = (toks', ptoks') →
  ¬ (0 ≤ toks ∧ 0 ≤ ptoks) →
  0 ≤ toks' ∧ 0 ≤ ptoks' ↔ now + Z.max (- toks) (- ptoks) ≤ t.
Proof.
  intros Hok Hnow Ht [Hf1 Hf2]. rewrite !tbf_balance_eq by (done || lia).
  intros [= <- <-] [= <- <-] Hneg. destruct Hok.
  pose proof (l2t_range (rate q) (pkt_len skb)).
  pose proof (l2t_range (peak q) (pkt_len skb)).
  destruct (tbf_peak_present q); [specialize (Hf2 eq_refl)|]; lia.
Qed.

(** A dequeue that finds the head packet waiting. *)
Lemma tbf_dequeue_waits now d (sch : Qdisc Q) skb rest :
  bucket_ok (priv sch) → t_c (priv sch) ≤ now < 2 ^ 62 →
  inner_queue (qdisc (priv sch)) = skb :: rest → fits skb (priv sch) →
  (tbf_dequeue now d sch).1 = None →
  ∃ wake, now < wake ∧
    watchdog (priv (tbf_dequeue now d sch).2)
      = qdisc_watchdog_schedule_ns d wake (watchdog (priv sch)) ∧
    ∀ t d', now ≤ t < 2 ^ 62 →
      (tbf_dequeue t d' (tbf_dequeue now d sch).2).1 = if wake <=? t then Some skb else None.
Proof.
  intros Hok Hnow Hq Hfit Hnone.
  destruct (tbf_dequeue_head now d sch skb rest Hq) as (i & i2 & Hi & Hi2 & Heq).
  rewrite tbf_dequeue_head_result with (1 := Hq) in Hnone. rewrite Heq. clear Heq. cbv zeta.
  destruct (tbf_balance now (pkt_len skb) (priv sch)) as [toks ptoks] eqn:Hbal.
  destruct (0 <=? Z.lor toks ptoks) eqn:Hlor; [done|]. simpl.
  assert (¬ (0 ≤ toks ∧ 0 ≤ ptoks)) as Hneg by (rewrite <- lor_nonneg_iff; congruence).
  assert (- 2 ^ 62 < toks < 2 ^ 62 ∧ - 2 ^ 62 < ptoks < 2 ^ 62) as [Hr1 Hr2].
  { rewrite tbf_balance_eq in Hbal by done. injection Hbal as <- <-. destruct Hok.
    pose proof (l2t_range (rate (priv sch)) (pkt_len skb)).
    pose proof (l2t_range (peak (priv sch)) (pkt_len skb)).
    destruct (tbf_peak_present _); lia. }
  destruct Hok. exists (now + Z.max (- toks) (- ptoks)). cint.
  split_and!; [lia|done|]. intros t d' Ht.
  erewrite tbf_dequeue_head_result by exact Hi.
  cbn [priv set_qstats set_priv].
  change (tbf_balance t (pkt_len skb) _) with (tbf_balance t (pkt_len skb) (priv sch)).
  destruct (tbf_balance t (pkt_len skb) (priv sch)) as [toks' ptoks'] eqn:Hbal'.
  pose proof (tbf_balance_threshold now t skb _ _ _ _ _ ltac:(by constructor)
                ltac:(lia) Ht Hfit Hbal Hbal' Hneg) as Hiff.
  rewrite <- lor_nonneg_iff in Hiff. cbv beta iota.
  destruct (Z.leb_spec (now + Z.max (- toks) (- ptoks)) t) as [Hle|Hlt].
  - by rewrite (proj2 Hiff Hle).
  - destruct (0 <=? Z.lor toks' ptoks'); [|done]. pose proof (proj1 Hiff eq_refl). lia.
Qed.


End head.

(** The filter with an empty bucket and a packet of 1000 bytes. *)
Definition waiting_sch : Qdisc fifo :=
  (sample_run false [EvChange (None, None) (inr (sample_tb 1000000000 2000000000 3000 1500));
                     EvEnqueue (pkt 1 1000)]).1.2.


(** ** Changing the parameters *)

Section change.
Context `{KernelHeadersOk} {Q : Type} `{!InnerQdisc Q}.

Lemma precompute_rate conf r64 :
  rate_bytes_ps (psched_ratecfg_precompute conf r64) = Z.max (rs_rate conf) r64.
Proof. unfold psched_ratecfg_precompute. cbv zeta. by destruct (if 0 <? _ then _ else _). Qed.

Lemma psched_ns_t2l_nonneg r t : 0 ≤ overhead r → 0 ≤ psched_ns_t2l r t.
Proof. intros Ho. unfold psched_ns_t2l. cbv zeta. case_match eqn:E; lia. Qed.

(** A request whose sizes are 32 bits wide. *)
Definition burst_ok (tb : tbf_tb) : Prop :=
  (∀ b, tb_burst tb = Some b → 0 ≤ b < 2 ^ 32) ∧
  (∀ b, tb_pburst tb = Some b → 0 ≤ b < 2 ^ 32).

(** The burst size bounds the packet size, in bytes and in transmission time. *)
Lemma tbf_params_of_burst rs ps qopt tb p burst :
  tbf_params_of rs ps qopt tb = inr p → burst_ok tb → tb_burst tb = Some burst →
  0 ≤ rs_overhead ps →
  0 ≤ pr_max_size p ≤ burst ∧ pr_buffer p = psched_l2t_ns (pr_rate p) burst ∧
  (rate_bytes_ps (pr_peak p) ≠ 0 → rate_bytes_ps (pr_rate p) < rate_bytes_ps (pr_peak p)) ∧
  (rate_bytes_ps (pr_peak p) ≠ 0 → ∀ pb, tb_pburst tb = Some pb →
     pr_max_size p ≤ pb ∧ pr_mtu p = psched_l2t_ns (pr_peak p) pb).
Proof.
  intros Hp [Hb Hpb] Hburst Hov. specialize (Hb _ Hburst). unfold tbf_params_of in Hp.
  rewrite Hburst in Hp. set (pk := psched_ratecfg_precompute ps _) in Hp.
  assert (0 ≤ overhead pk) as Hopk.
  { unfold pk, psched_ratecfg_precompute. cbv zeta. by destruct (if 0 <? _ then _ else _). }
  assert (∀ r len, s64 (psched_l2t_ns r len) = psched_l2t_ns r len) as Hl2t.
  { intros r len. pose proof (l2t_range r len). by cint. }
  rewrite !Hl2t in Hp. rewrite u32_small in Hp by done.
  destruct (negb _).
  - destruct (Z.leb_spec (rate_bytes_ps pk)
                (rate_bytes_ps (psched_ratecfg_precompute rs (default 0 (tb_rate64 tb))))); [done|].
    destruct (tb_pburst tb) as [pb|].
    + specialize (Hpb _ eq_refl). injection Hp as <-; simpl. rewrite Hl2t.
      split_and!; try done || lia. intros _ pb' [= <-]. lia.
    + injection Hp as <-; simpl.
      pose proof (psched_ns_t2l_nonneg pk
                    (u64 (Z.min (u64 (PSCHED_TICKS2NS (qopt_mtu qopt))) (2 ^ 32 - 1))) Hopk).
      split_and!; done || lia.
  - injection Hp as <-; simpl. split_and!; done || lia.
Qed.


(** A change that fails leaves the scheduler as it was: rates, depths,
    tokens, statistics, timer and queued packets are unchanged, and only the
    inner queue may have been given the new limit. *)
Theorem tbf_change_error_atomic `{!InnerQdiscOk Q} fresh tb rtabs (sch : Qdisc Q) err rtabs' sch' :
  tbf_change fresh (inr tb) rtabs sch = (err, rtabs', sch') → err ≠ 0 →
  ∃ i, sch' = set_priv (set_qdisc i (priv sch)) sch ∧
       inner_queue i = inner_queue (qdisc (priv sch)).
Proof.
  intros Hc Herr. pose proof (tbf_change_gen_cases false fresh (inr tb) rtabs sch) as Hcs.
  unfold tbf_change in Hc. rewrite Hc in Hcs.
  destruct Hcs as [(_ & i & Hi & ->)|(-> & _)]; [|done]. exists i. split; [done|].
  destruct Hi as [->|[n ->]]; [done|]. unfold tbf_child.
  destruct (qdisc (priv sch)) as [|c]; simpl.
  - destruct (0 <? n); [|done]. destruct (iq_create n) eqn:E; [done|].
    simpl. by eapply iq_create_ok.
  - pose proof (iq_set_limit_ok n c) as Hl. by destruct (iq_set_limit n c).
Qed.

End change.


(** A peak rate below the rate is refused. *)
Lemma tbf_change_error_atomic_witness :
  let r := @tbf_change sample_headers fifo sample_inner (None, None)
             (inr (sample_tb 1000000000 900000000 3000 1500)) [] waiting_sch in
  r.1.1 = - EINVAL ∧
  ∃ i, r.2 = set_priv (set_qdisc i (priv waiting_sch)) waiting_sch ∧
       @inner_queue sample_headers fifo sample_inner sample_inner_ok i
       = @inner_queue sample_headers fifo sample_inner sample_inner_ok
           (qdisc (priv waiting_sch)).
Proof.
  cbv zeta. split; [vm_compute; reflexivity|].
  eapply (@tbf_change_error_atomic sample_headers fifo sample_inner
            sample_inner_ok (None, None) (sample_tb 1000000000 900000000 3000 1500) []
            waiting_sch).
  - vm_compute; reflexivity.
  - vm_compute; congruence.
Defined.

(** ** Order and accounting of the queue *)

Section queue.
Context `{KernelHeadersOk} {Q : Type} `{!InnerQdisc Q} `{!InnerQdiscOk Q}.

Abbreviation world := (list qdisc_rate_table * Qdisc Q)%type.

(** Of the packets offered to the inner queue in turn, those it takes. *)
Fixpoint taken (l : list sk_buff) (i : inner Q) : list sk_buff :=
  match l with
  | [] => []
  | x :: l' =>
      let '(ret, i', _) := inner_enqueue x i in
      (if ret =? NET_XMIT_SUCCESS then [x] else []) ++ taken l' i'
  end.

(** What [tbf_enqueue] offers the inner queue: the packet, or its segments. *)
Definition offered (skb : sk_buff) (sch : Qdisc Q) : list sk_buff :=
  if max_size (priv sch) <? pkt_len skb then
    if skb_is_gso skb && skb_gso_validate_mac_len skb (max_size (priv sch))
    then map seg_skb (default [] (skb_gso_segment skb))
    else []
  else [skb].

Fixpoint arrivals (refill : bool) (es : list event) (w : world) : list sk_buff :=
  match es with
  | [] => []
  | e :: es' =>
      match e with
      | EvEnqueue skb => taken (offered skb w.2) (qdisc (priv w.2))
      | _ => []
      end ++ arrivals refill es' (exec refill e w).1
  end.

Definition queue (sch : Qdisc Q) : list sk_buff := inner_queue (qdisc (priv sch)).

Lemma inner_enqueue_queue skb (i : inner Q) ret i' fr :
  inner_enqueue skb i = (ret, i', fr) →
  inner_queue i' = inner_queue i ++ (if ret =? NET_XMIT_SUCCESS then [skb] else []).
Proof.
  destruct i as [|c]; simpl.
  - intros [= <- <- <-]. destruct (Z.eqb_spec NET_XMIT_CN NET_XMIT_SUCCESS) as [E|]; [|done].
    by apply xmit_cn_ne in E.
  - destruct (iq_enqueue skb c) as [[r c'] fr'] eqn:E. intros [= <- <- <-].
    by apply iq_enqueue_ok in E.
Qed.

(** One offer: what it does to the queue and to the counters. *)
Lemma enqueue_inner_queue skb (sch : Qdisc Q) ret sch' fr :
  enqueue_inner skb sch = (ret, sch', fr) →
  queue sch' = queue sch ++ taken [skb] (qdisc (priv sch)) ∧
  taken [skb] (qdisc (priv sch)) = (if ret =? NET_XMIT_SUCCESS then [skb] else []) ∧
  qdisc (priv sch') = (inner_enqueue skb (qdisc (priv sch))).1.2 ∧
  qlen sch' = qlen sch ∧ gq_backlog (qstats sch') = gq_backlog (qstats sch).
Proof.
  unfold enqueue_inner, queue. destruct (inner_enqueue skb _) as [[r i] f] eqn:E. simpl.
  rewrite E. apply inner_enqueue_queue in E.
  destruct (negb _ && _); intros [= <- <- <-]; simpl; rewrite E, app_nil_r;
    split_and!; try done. by rewrite drop_backlog.
Qed.

Lemma segment_loop_queue segs (sch : Qdisc Q) len nb fr sch' len' nb' fr' :
  segment_loop segs sch len nb fr = (sch', len', nb', fr') →
  let l := taken (map seg_skb segs) (qdisc (priv sch)) in
  queue sch' = queue sch ++ l ∧ nb' = nb + Z.of_nat (length l) ∧
  qlen sch' = qlen sch ∧ gq_backlog (qstats sch') = gq_backlog (qstats sch).
Proof.
  revert sch len nb fr. induction segs as [|seg segs IH]; intros sch len nb fr; simpl.
  { intros [= <- <- <- <-]. rewrite app_nil_r. split_and!; try done. simpl. lia. }
  destruct (enqueue_inner _ sch) as [[ret sch1] fr1] eqn:E.
  apply enqueue_inner_queue in E as (Hq & Ht & Hi & Hl & Hb). simpl in Hq, Ht.
  destruct (inner_enqueue _ (qdisc (priv sch))) as [[ret0 i0] ?]. simpl in Hi.
  rewrite app_nil_r in Hq, Ht.
  intros Hloop. apply IH in Hloop as (Hq' & Hn' & Hl' & Hb').
  rewrite Hi in Hq', Hn'. rewrite Hq', Hl', Hb', Hq, Ht, Hl, Hb, Hn', length_app, Nat2Z.inj_add.
  split_and!; try done; [by rewrite <- app_assoc|]. destruct (ret =? _); simpl; lia.
Qed.

Lemma tbf_enqueue_queue skb (sch : Qdisc Q) :
  let r := tbf_enqueue skb sch in
  queue r.1.1.2 = queue sch ++ taken (offered skb sch) (qdisc (priv sch)).
Proof.
  cbv zeta. unfold tbf_enqueue, offered.
  assert (queue (drop_skb skb sch).1.2 = queue sch) as Hdrop.
  { unfold queue. by rewrite drop_skb_priv. }
  case_match; [case_match|]; simpl.
  - unfold tbf_segment. destruct (skb_gso_segment skb) as [segs|]; simpl; [|by rewrite app_nil_r].
    destruct (segment_loop segs sch 0 0 []) as [[[sch' len] nb] fr] eqn:E.
    by apply segment_loop_queue in E as (? & _).
  - by rewrite app_nil_r.
  - destruct (enqueue_inner skb sch) as [[ret sch'] fr] eqn:E.
    apply enqueue_inner_queue in E as (Hq & _). simpl in Hq. destruct (negb _); exact Hq.
Qed.

Lemma tbf_dequeue_queue now d (sch : Qdisc Q) :
  option_list (tbf_dequeue now d sch).1 ++ queue (tbf_dequeue now d sch).2 = queue sch.
Proof.
  destruct (queue sch) as [|skb rest] eqn:Hq.
  - unfold queue, tbf_dequeue in *. destruct sch as [ql qs bs q]; simpl in *.
    destruct (qdisc q) as [|c]; simpl in *; [done|].
    destruct (iq_peek c) as [o c'] eqn:E. apply iq_peek_ok in E as [-> E].
    rewrite Hq in *. done.
  - destruct (tbf_dequeue_head now d sch skb rest Hq) as (i & i2 & Hi & Hi2 & ->).
    cbv zeta. destruct (tbf_balance _ _ _) as [toks ptoks].
    destruct (0 <=? _); unfold queue; simpl; by rewrite ?Hi, ?Hi2.
Qed.

Lemma tbf_change_queue refill fresh opt rtabs (sch : Qdisc Q) :
  let sch' := (tbf_change_gen refill fresh opt rtabs sch).2 in
  queue sch' = queue sch ∧ qlen sch' = qlen sch ∧ qstats sch' = qstats sch.
Proof.
  assert (∀ n, inner_queue (tbf_child n (qdisc (priv sch))).2 = inner_queue (qdisc (priv sch))) as Hc.
  { intros n. unfold tbf_child. destruct (qdisc (priv sch)) as [|c]; simpl.
    - destruct (0 <? n); [|done]. destruct (iq_create n) eqn:E; [done|].
      simpl. by eapply iq_create_ok.
    - pose proof (iq_set_limit_ok n c). by destruct (iq_set_limit n c). }
  pose proof (tbf_change_gen_cases refill fresh opt rtabs sch) as Hcs. simpl.
  destruct (tbf_change_gen _ _ _ _ _) as [[err rtabs'] sch']; simpl. unfold queue.
  destruct Hcs as [(_ & i & [->|[n ->]] & ->)|(_ & tb & qopt & rs & ps & p & _ & _ & _ & _ & _ & ->)];
    simpl; auto.
Qed.

(** C12: packets leave in the order they arrived, and none is lost or made
    up: over any run without a reset, the packets sent followed by the packets
    still queued are the packets queued at the start followed by those the
    inner queue accepted, segments included. *)
Theorem tbf_fifo_conservation refill es (w : world) :
  Forall no_reset es →
  map s_skb (run refill es w).2 ++ queue (run refill es w).1.2
  = queue w.2 ++ arrivals refill es w.
Proof.
  intros Hn. revert w. induction Hn as [|e es He Hn IH]; intros [rtabs sch]; cbn [run arrivals].
  { by rewrite app_nil_r. }
  specialize (IH (exec refill e (rtabs, sch)).1).
  destruct (exec refill e (rtabs, sch)) as [w1 out1] eqn:Hx. cbn [fst] in IH.
  destruct (run refill es w1) as [w2 out2]. cbn [fst snd] in *.
  rewrite map_app, <- app_assoc, IH.
  destruct e as [skb|now d|fresh opt|room|now]; simpl in *.
  - injection Hx as <- <-. simpl. by rewrite (tbf_enqueue_queue skb sch), <- app_assoc.
  - pose proof (tbf_dequeue_queue now d sch) as Hd. rewrite app_assoc. f_equal.
    destruct (tbf_dequeue now d sch) as [[skb|] sch']; injection Hx as <- <-; exact Hd.
  - pose proof (tbf_change_queue refill fresh opt rtabs sch) as (Hc & _).
    destruct (tbf_change_gen _ _ _ _ _) as [[err rtabs'] sch']. injection Hx as <- <-.
    simpl in *. by rewrite Hc.
  - injection Hx as <- <-. simpl. by unfold tbf_dump; case_match.
  - done.
Qed.

(** The counters of the filter agree with its queue. *)
Definition counted (sch : Qdisc Q) : Prop :=
  qlen sch = u32 (Z.of_nat (length (queue sch))) ∧
  gq_backlog (qstats sch) = u32 (total pkt_len (queue sch)).

(** The events that do not segment a packet; a dump copies the inner queue's
    backlog. *)
Definition plain (e : event) : bool :=
  match e with
  | EvEnqueue skb => negb (skb_is_gso skb)
  | EvDump _ => false
  | _ => true
  end.

Lemma total_app {A} (f : A → Z) l k : total f (l ++ k) = total f l + total f k.
Proof. induction l; simpl in *; lia. Qed.

Lemma u32_add_l a b : u32 (u32 a + b) = u32 (a + b).
Proof. unfold u32. by rewrite Zplus_mod_idemp_l. Qed.

Lemma u32_sub_l a b : u32 (u32 a - b) = u32 (a - b).
Proof. unfold u32. by rewrite Zminus_mod_idemp_l. Qed.

Lemma counted_enqueue skb (sch : Qdisc Q) :
  skb_is_gso skb = false → counted sch → counted (tbf_enqueue skb sch).1.1.2.
Proof.
  intros He [Hl Hb]. unfold counted. rewrite (tbf_enqueue_queue skb sch).
  unfold offered, tbf_enqueue. rewrite He; simpl.
  destruct (max_size (priv sch) <? pkt_len skb).
  - rewrite app_nil_r. unfold drop_skb.
    pose proof (drop_keeps_backlog skb (qstats sch)) as Hd.
    destruct (qdisc_drop _ _) as [[r s] f]. simpl in *. by rewrite Hd.
  - destruct (enqueue_inner skb sch) as [[ret sch'] fr] eqn:E.
    apply enqueue_inner_queue in E as (_ & -> & _ & Hl' & Hb').
    destruct (ret =? NET_XMIT_SUCCESS); simpl.
    + rewrite Hl', Hb', Hl, Hb, length_app, total_app, !u32_add_l. simpl.
      split; f_equal; lia.
    + by rewrite Hl', Hb', app_nil_r.
Qed.

Lemma counted_dequeue now d (sch : Qdisc Q) :
  counted sch → counted (tbf_dequeue now d sch).2.
Proof.
  intros [Hl Hb]. unfold counted. destruct (queue sch) as [|skb rest] eqn:Hq.
  - unfold queue in *. unfold tbf_dequeue. destruct (qdisc (priv sch)) as [|c] eqn:Ec; simpl in *.
    { done. }
    destruct (iq_peek c) as [o c'] eqn:Ep. apply iq_peek_ok in Ep as [-> Ep].
    rewrite Hq in *. simpl. by rewrite Ep.
  - destruct (tbf_dequeue_head now d sch skb rest Hq) as (i & i2 & Hi & Hi2 & ->).
    cbv zeta. destruct (tbf_balance _ _ _) as [toks ptoks].
    destruct (0 <=? _); unfold queue; simpl.
    + rewrite Hi2, backlog_dec, Hl, Hb. cbn [length].
      change (total pkt_len (skb :: rest)) with (pkt_len skb + total pkt_len rest).
      rewrite !u32_sub_l. split; f_equal; lia.
    + by rewrite Hi, overlimit_backlog.
Qed.

Lemma counted_change refill fresh opt rtabs (sch : Qdisc Q) :
  counted sch → counted (tbf_change_gen refill fresh opt rtabs sch).2.
Proof.
  intros [Hl Hb]. pose proof (tbf_change_queue refill fresh opt rtabs sch) as (H1 & H2 & H3).
  unfold counted. by rewrite H1, H2, H3.
Qed.

Lemma counted_reset now (sch : Qdisc Q) : counted (tbf_reset now sch).
Proof.
  unfold counted, queue, tbf_reset; simpl.
  destruct (qdisc (priv sch)) as [|c]; simpl; [done|]. by rewrite iq_reset_ok.
Qed.

Lemma counted_exec refill e (w : world) :
  plain e = true → counted w.2 → counted (exec refill e w).1.2.
Proof.
  destruct w as [rtabs sch], e as [skb|now d|fresh opt|room|now]; simpl; intros He Hc.
  - apply negb_true_iff in He. by apply counted_enqueue.
  - pose proof (counted_dequeue now d sch Hc). by destruct (tbf_dequeue now d sch) as [[]].
  - pose proof (counted_change refill fresh opt rtabs sch Hc).
    by destruct (tbf_change_gen _ _ _ _ _) as [[]].
  - done.
  - apply counted_reset.
Qed.

(** The filter's length and backlog counters are exact, modulo the 2^32
    they are counted in, over any run of enqueues of packets that need no
    segmentation, dequeues, changes and resets. *)
Theorem tbf_counters_exact refill es (w : world) :
  Forall plain es → counted w.2 → counted (run refill es w).1.2.
Proof.
  intros Hp. revert w. induction Hp as [|e es He Hp IH]; intros w Hc; [done|]. cbn [run].
  apply Is_true_true, (counted_exec refill e w) in He; [|done]. destruct (exec refill e w) as [w1 out1].
  specialize (IH w1 He). by destruct (run refill es w1).
Qed.

(** Segmenting a packet queues its segments and counts them in the
    length, but adds nothing to the backlog: the bytes a later dequeue of the
    segments subtracts were never added. *)
Theorem tbf_segment_backlog_unaccounted skb segs (sch : Qdisc Q) :
  skb_gso_segment skb = Some segs →
  let sch' := (tbf_segment skb sch).1.1.2 in
  let l := taken (map seg_skb segs) (qdisc (priv sch)) in
  queue sch' = queue sch ++ l ∧
  qlen sch' = u32 (qlen sch + Z.of_nat (length l)) ∧
  gq_backlog (qstats sch') = gq_backlog (qstats sch).
Proof.
  intros Hs. unfold tbf_segment. rewrite Hs.
  destruct (segment_loop segs sch 0 0 []) as [[[sch' len] nb] fr] eqn:E.
  apply segment_loop_queue in E as (Hq & Hn & Hl & Hb). simpl.
  rewrite Hl, Hn. split_and!; done.
Qed.

End queue.

(** The sample run: everything that arrived has left, in order. *)
Lemma tbf_fifo_conservation_witness :
  map s_skb (sample_run false sample_events).2
    ++ @queue sample_headers fifo sample_inner sample_inner_ok
         (sample_run false sample_events).1.2
  = @queue sample_headers fifo sample_inner sample_inner_ok zero_sch
      ++ @arrivals sample_headers fifo sample_inner false sample_events ([], zero_sch).
Proof.
  apply (@tbf_fifo_conservation sample_headers sample_headers_ok fifo sample_inner
           sample_inner_ok false sample_events ([], zero_sch)).
  all_true.
Defined.

Lemma tbf_counters_exact_witness :
  @counted sample_headers fifo sample_inner sample_inner_ok
    (sample_run false (take 5 sample_events)).1.2 ∧
  gq_backlog (qstats (sample_run false (take 5 sample_events)).1.2) = 2000.
Proof.
  split; [|vm_compute; reflexivity].
  apply (@tbf_counters_exact sample_headers sample_headers_ok fifo sample_inner
           sample_inner_ok false (take 5 sample_events) ([], zero_sch)).
  - all_true.
  - split; vm_compute; reflexivity.
Defined.

(** A 5000-byte packet in two segments of 2500 bytes, under a maximal size of
    3000: the backlog stays 0, and the first dequeue wraps it around. *)
Definition gso_sch : Qdisc fifo :=
  (sample_run false [EvChange (None, None) (inr (sample_tb 1000000000 0 3000 1500))]).1.2.

Lemma tbf_segment_backlog_unaccounted_witness :
  let sch' := (@tbf_segment sample_headers fifo sample_inner (pkt 1 5000) gso_sch).1.1.2 in
  (gq_backlog (qstats (@tbf_dequeue sample_headers fifo sample_inner 10000 false sch').2)
   = 2 ^ 32 - 2500) ∧
  @queue sample_headers fifo sample_inner sample_inner_ok sch'
    = @queue sample_headers fifo sample_inner sample_inner_ok gso_sch
        ++ @taken sample_headers fifo sample_inner
             (map seg_skb [{| skb_id := 1; skb_len := 2500; pkt_len := 0 |};
                           {| skb_id := 513; skb_len := 2500; pkt_len := 0 |}])
             (qdisc (priv gso_sch)) ∧
  qlen sch' = u32 (qlen gso_sch
     + Z.of_nat (length (@taken sample_headers fifo sample_inner
             (map seg_skb [{| skb_id := 1; skb_len := 2500; pkt_len := 0 |};
                           {| skb_id := 513; skb_len := 2500; pkt_len := 0 |}])
             (qdisc (priv gso_sch))))) ∧
  gq_backlog (qstats sch') = gq_backlog (qstats gso_sch).
Proof.
  cbv zeta. split; [vm_compute; reflexivity|].
  apply (@tbf_segment_backlog_unaccounted sample_headers sample_headers_ok fifo sample_inner
           sample_inner_ok (pkt 1 5000)
           [{| skb_id := 1; skb_len := 2500; pkt_len := 0 |};
            {| skb_id := 513; skb_len := 2500; pkt_len := 0 |}] gso_sch).
  vm_compute; reflexivity.
Defined.

(** Setting the filter up does not fill the bucket: the tokens are what
    the allocation left, which is zero, and the clock starts at the time of
    the call.  The description at the top of the file has the bucket full
    initially. *)
Theorem tbf_init_bucket_not_filled `{KernelHeaders} {Q : Type} `{!InnerQdisc Q}
    now fresh opt rtabs (sch : Qdisc Q) :
  let sch' := (tbf_init now fresh (Some opt) rtabs sch).2 in
  tokens (priv sch') = tokens (priv sch) ∧ ptokens (priv sch') = ptokens (priv sch) ∧
  t_c (priv sch') = now.
Proof.
  unfold tbf_init, tbf_change. cbv zeta.
  match goal with |- context [tbf_change_gen false fresh opt rtabs ?s] =>
    pose proof (tbf_change_gen_cases false fresh opt rtabs s) as Hc end.
  destruct (tbf_change_gen _ _ _ _ _) as [[err rtabs'] sch']; simpl in *.
  destruct Hc as [(_ & i & _ & ->)|(_ & tb & qopt & rs & ps & p & _ & _ & _ & _ & _ & ->)];
    done.
Qed.
