(* ===== verification/RbCode.v ===== *)
(** * Red-black trees in memory (src/reordering_buffer/rbtree.c, rbtree.h,
      rbtree_augmented.h)

    The functions of the three files over a memory of 64-bit words.  A
    [struct rb_node] at address [a] is the three words [a]
    ([__rb_parent_color]), [a + 8] ([rb_right]) and [a + 16] ([rb_left]); a
    [struct rb_root] is one word.  Pointers, [struct rb_node **] included, are
    addresses; a load or a store at an address that holds no word is undefined
    behaviour and makes the computation fail.

    The branches of [__rb_insert] and [____rb_erase_color] come in pairs that
    mirror each other; the model writes one of the pair with the side as an
    argument.  A loop takes the number of iterations it may do, [rb_fuel] in
    the functions that call it; a run that needs more fails, and RbRefine.v
    shows that none does. *)

From Stdlib Require Import ZArith Lia.
From stdpp Require Import base numbers list gmap option.
From S2P Require Import Prelude.

Open Scope Z_scope.

(** ** Memory *)

Abbreviation mem := (gmap Z Z).

Definition load (p : Z) : M mem Z :=
  λ m, match m !! p with Some v => Some (v, m) | None => None end.

Definition store (p v : Z) : M mem unit :=
  λ m, match m !! p with Some _ => Some (tt, <[p := v]> m) | None => None end.

Definition when (b : bool) (m : M mem unit) : M mem unit :=
  if b then m else cret tt.

Definition NULL : Z := 0.

(** [if (p)] on a pointer. *)
Definition nonnull (p : Z) : bool := negb (p =? NULL).

(** ** Nodes *)

(** Field addresses. *)
Definition rb_parent_color (a : Z) : Z := a.

Definition rb_right (a : Z) : Z := a + 8.

Definition rb_left (a : Z) : Z := a + 16.

Inductive side := L | R.

Definition opp (d : side) : side := match d with L => R | R => L end.

(** [&a->rb_left] or [&a->rb_right]. *)
Definition child_at (d : side) (a : Z) : Z :=
  match d with L => rb_left a | R => rb_right a end.

Definition RB_RED : Z := 0.

Definition RB_BLACK : Z := 1.

(** [__rb_parent], [__rb_color] on a packed word. *)
Definition __rb_parent (pc : Z) : Z := Z.land pc (Z.lnot 3).

Definition __rb_color (pc : Z) : Z := Z.land pc 1.

Definition __rb_is_black (pc : Z) : bool := negb (__rb_color pc =? 0).

Definition __rb_is_red (pc : Z) : bool := __rb_color pc =? 0.

Definition rb_parent (a : Z) : M mem Z :=
  let* pc := load (rb_parent_color a) in cret (__rb_parent pc).

Definition rb_is_black (a : Z) : M mem bool :=
  let* pc := load (rb_parent_color a) in cret (__rb_is_black pc).

Definition rb_is_red (a : Z) : M mem bool :=
  let* pc := load (rb_parent_color a) in cret (__rb_is_red pc).

(** [tmp && rb_is_red(tmp)]. *)
Definition present_red (a : Z) : M mem bool :=
  if nonnull a then rb_is_red a else cret false.

(** [!tmp || rb_is_black(tmp)]. *)
Definition absent_or_black (a : Z) : M mem bool :=
  if nonnull a then rb_is_black a else cret true.

Definition rb_red_parent (a : Z) : M mem Z := load (rb_parent_color a).

Definition rb_set_black (a : Z) : M mem unit :=
  let* pc := load (rb_parent_color a) in
  store (rb_parent_color a) (Z.lor pc RB_BLACK).

Definition rb_set_parent (a p : Z) : M mem unit :=
  let* pc := load (rb_parent_color a) in
  store (rb_parent_color a) (Z.lor (__rb_color pc) p).

Definition rb_set_parent_color (a p color : Z) : M mem unit :=
  store (rb_parent_color a) (Z.lor p color).

Definition __rb_change_child (old new parent root : Z) : M mem unit :=
  if nonnull parent then
    let* l := load (rb_left parent) in
    if l =? old then store (rb_left parent) new else store (rb_right parent) new
  else store root new.

Definition __rb_rotate_set_parents (old new root color : Z) : M mem unit :=
  let* parent := rb_parent old in
  let* pc := load (rb_parent_color old) in
  store (rb_parent_color new) pc ;;;
  rb_set_parent_color old new color ;;;
  __rb_change_child old new parent root.

(** The callbacks of augmented trees. *)
Record rb_augment_callbacks := {
  propagate : Z → Z → M mem unit;
  copy : Z → Z → M mem unit;
  rotate : Z → Z → M mem unit;
}.

Definition dummy_callbacks : rb_augment_callbacks := {|
  propagate := λ _ _, cret tt;
  copy := λ _ _, cret tt;
  rotate := λ _ _, cret tt;
|}.

(** Iterations a loop may do: more than the depth of a balanced tree that fits
    a 64-bit address space. *)
Definition rb_fuel : nat := 128.

(** ** Insertion *)

Definition rb_link_node (node parent rb_link : Z) : M mem unit :=
  store (rb_parent_color node) parent ;;;
  store (rb_right node) NULL ;;;
  store (rb_left node) NULL ;;;
  store rb_link node.

Section insert.
Variable augment_rotate : Z → Z → M mem unit.

(** Case 1: colour flips.  The next [node] and [parent]. *)
Definition insert_case1 (parent gparent tmp : Z) : M mem (Z * Z) :=
  rb_set_parent_color tmp gparent RB_BLACK ;;;
  rb_set_parent_color parent gparent RB_BLACK ;;;
  let node := gparent in
  let* parent := rb_parent node in
  rb_set_parent_color node parent RB_RED ;;;
  cret (node, parent).

(** Case 2: rotate at [parent], of which [node] is the child on the side other
    than [d].  The next [parent] and [tmp]. *)
Definition insert_case2 (d : side) (node parent : Z) : M mem (Z * Z) :=
  let* tmp := load (child_at d node) in
  store (child_at (opp d) parent) tmp ;;;
  store (child_at d node) parent ;;;
  when (nonnull tmp) (rb_set_parent_color tmp parent RB_BLACK) ;;;
  rb_set_parent_color parent node RB_RED ;;;
  augment_rotate parent node ;;;
  let parent := node in
  let* tmp := load (child_at (opp d) node) in
  cret (parent, tmp).

(** Case 3: rotate at [gparent]. *)
Definition insert_case3 (d : side) (parent gparent tmp root : Z) : M mem unit :=
  store (child_at d gparent) tmp ;;;
  store (child_at (opp d) parent) gparent ;;;
  when (nonnull tmp) (rb_set_parent_color tmp gparent RB_BLACK) ;;;
  __rb_rotate_set_parents gparent parent root RB_RED ;;;
  augment_rotate gparent parent.

(** The body of the loop of [__rb_insert] once [parent] is known to be the
    child of [gparent] on side [d], and [tmp] to be the uncle.  [Some] is the
    next value of [node] and [parent] ([continue]), [None] is [break]. *)
Definition insert_side (d : side) (node parent gparent tmp root : Z)
    : M mem (option (Z * Z)) :=
  let* red := present_red tmp in
  if red : bool then
    let* next := insert_case1 parent gparent tmp in cret (Some next)
  else
    let* tmp := load (child_at (opp d) parent) in
    let* pt := (if node =? tmp then insert_case2 d node parent
                else cret (parent, tmp)) in
    insert_case3 d pt.1 gparent pt.2 root ;;;
    cret None.

Fixpoint insert_loop (fuel : nat) (node parent root : Z) : M mem unit :=
  match fuel with
  | O => cfail
  | S fuel =>
      if negb (nonnull parent) then rb_set_parent_color node NULL RB_BLACK
      else
        let* black := rb_is_black parent in
        if black : bool then cret tt
        else
          let* gparent := rb_red_parent parent in
          let* tmp := load (rb_right gparent) in
          let* next :=
            (if negb (parent =? tmp) then
               insert_side L node parent gparent tmp root
             else
               let* tmp := load (rb_left gparent) in
               insert_side R node parent gparent tmp root) in
          match next with
          | Some (node, parent) => insert_loop fuel node parent root
          | None => cret tt
          end
  end.

Definition __rb_insert (node root : Z) : M mem unit :=
  let* parent := rb_red_parent node in
  insert_loop rb_fuel node parent root.
End insert.

Definition rb_insert_color (node root : Z) : M mem unit :=
  __rb_insert (rotate dummy_callbacks) node root.

Definition __rb_insert_augmented (node root : Z) (augment_rotate : Z → Z → M mem unit)
    : M mem unit :=
  __rb_insert augment_rotate node root.

Definition rb_insert_augmented (node root : Z) (augment : rb_augment_callbacks)
    : M mem unit :=
  __rb_insert_augmented node root (rotate augment).

(** ** Removal *)

Section erase_color.
Variable augment_rotate : Z → Z → M mem unit.

(** Case 1: rotate at [parent].  The next [sibling]. *)
Definition erase_case1 (d : side) (parent sibling root : Z) : M mem Z :=
  let* tmp1 := load (child_at d sibling) in
  store (child_at (opp d) parent) tmp1 ;;;
  store (child_at d sibling) parent ;;;
  rb_set_parent_color tmp1 parent RB_BLACK ;;;
  __rb_rotate_set_parents parent sibling root RB_RED ;;;
  augment_rotate parent sibling ;;;
  cret tmp1.

(** Case 2: sibling colour flip.  [Some] is the next value of [node] and
    [parent] ([continue]), [None] is [break]. *)
Definition erase_case2 (parent sibling : Z) : M mem (option (Z * Z)) :=
  rb_set_parent_color sibling parent RB_RED ;;;
  let* red := rb_is_red parent in
  if red : bool then rb_set_black parent ;;; cret None
  else
    let node := parent in
    let* parent := rb_parent node in
    if nonnull parent then cret (Some (node, parent)) else cret None.

(** Case 3: rotate at [sibling].  The next [tmp1] and [sibling]. *)
Definition erase_case3 (d : side) (parent sibling tmp2 : Z) : M mem (Z * Z) :=
  let* tmp1 := load (child_at (opp d) tmp2) in
  store (child_at d sibling) tmp1 ;;;
  store (child_at (opp d) tmp2) sibling ;;;
  store (child_at (opp d) parent) tmp2 ;;;
  when (nonnull tmp1) (rb_set_parent_color tmp1 sibling RB_BLACK) ;;;
  augment_rotate sibling tmp2 ;;;
  cret (sibling, tmp2).

(** Case 4: rotate at [parent] and colour flips. *)
Definition erase_case4 (d : side) (parent sibling tmp1 root : Z) : M mem unit :=
  let* tmp2 := load (child_at d sibling) in
  store (child_at (opp d) parent) tmp2 ;;;
  store (child_at d sibling) parent ;;;
  rb_set_parent_color tmp1 sibling RB_BLACK ;;;
  when (nonnull tmp2) (rb_set_parent tmp2 parent) ;;;
  __rb_rotate_set_parents parent sibling root RB_BLACK ;;;
  augment_rotate parent sibling.

(** Cases 2 to 4, for a black [sibling]. *)
Definition erase_black (d : side) (parent sibling root : Z) : M mem (option (Z * Z)) :=
  let* tmp1 := load (child_at (opp d) sibling) in
  let* black1 := absent_or_black tmp1 in
  if black1 : bool then
    let* tmp2 := load (child_at d sibling) in
    let* black2 := absent_or_black tmp2 in
    if black2 : bool then erase_case2 parent sibling
    else
      let* ts := erase_case3 d parent sibling tmp2 in
      erase_case4 d parent ts.2 ts.1 root ;;; cret None
  else erase_case4 d parent sibling tmp1 root ;;; cret None.

(** The body of the loop of [____rb_erase_color] when [node] is the child of
    [parent] on side [d] and [sibling] the other one. *)
Definition erase_side (d : side) (parent sibling root : Z) : M mem (option (Z * Z)) :=
  let* red := rb_is_red sibling in
  let* sibling := (if red : bool then erase_case1 d parent sibling root
                   else cret sibling) in
  erase_black d parent sibling root.

Fixpoint erase_loop (fuel : nat) (node parent root : Z) : M mem unit :=
  match fuel with
  | O => cfail
  | S fuel =>
      let* sibling := load (rb_right parent) in
      let* next :=
        (if negb (node =? sibling) then erase_side L parent sibling root
         else
           let* sibling := load (rb_left parent) in
           erase_side R parent sibling root) in
      match next with
      | Some (node, parent) => erase_loop fuel node parent root
      | None => cret tt
      end
  end.

Definition ____rb_erase_color (parent root : Z) : M mem unit :=
  erase_loop rb_fuel NULL parent root.
End erase_color.

Definition __rb_erase_color (parent root : Z) (augment_rotate : Z → Z → M mem unit)
    : M mem unit :=
  ____rb_erase_color augment_rotate parent root.

(** The [do ... while (tmp)] loop that finds the successor below [parent];
    [tmp] is not null. *)
Fixpoint successor_loop (fuel : nat) (successor tmp : Z) : M mem (Z * Z) :=
  match fuel with
  | O => cfail
  | S fuel =>
      let parent := successor in
      let successor := tmp in
      let* tmp := load (rb_left tmp) in
      if nonnull tmp then successor_loop fuel successor tmp
      else cret (parent, successor)
  end.

Section erase_augmented.
Variable augment : rb_augment_callbacks.

(** Case 1 of [__rb_erase_augmented]: at most one child.  The value of
    [rebalance] and of [tmp], where the augmented data changed. *)
Definition erase_no_left (node child root : Z) : M mem (Z * Z) :=
  let* pc := load (rb_parent_color node) in
  let parent := __rb_parent pc in
  __rb_change_child node child parent root ;;;
  if nonnull child then
    store (rb_parent_color child) pc ;;; cret (NULL, parent)
  else cret (if __rb_is_black pc then parent else NULL, parent).

Definition erase_no_right (node tmp root : Z) : M mem (Z * Z) :=
  let* pc := load (rb_parent_color node) in
  store (rb_parent_color tmp) pc ;;;
  let parent := __rb_parent pc in
  __rb_change_child node tmp parent root ;;;
  cret (NULL, parent).

(** Cases 2 and 3: take the successor out of the right subtree [child].  Its
    address, its parent's, and its right child's. *)
Definition erase_successor (node child : Z) : M mem (Z * Z * Z) :=
  let* tmp := load (rb_left child) in
  if negb (nonnull tmp) then
    let successor := child in
    let parent := successor in
    let* child2 := load (rb_right successor) in
    copy augment node successor ;;;
    cret (successor, parent, child2)
  else
    let* ps := successor_loop rb_fuel child tmp in
    let '(parent, successor) := ps in
    let* child2 := load (rb_right successor) in
    store (rb_left parent) child2 ;;;
    store (rb_right successor) child ;;;
    rb_set_parent child successor ;;;
    copy augment node successor ;;;
    propagate augment parent successor ;;;
    cret (successor, parent, child2).

(** The rest of cases 2 and 3: put the successor in the place of [node]. *)
Definition erase_two (node child root : Z) : M mem (Z * Z) :=
  let* sp := erase_successor node child in
  let '(successor, parent, child2) := sp in
  let* tmp := load (rb_left node) in
  store (rb_left successor) tmp ;;;
  rb_set_parent tmp successor ;;;
  let* pc := load (rb_parent_color node) in
  let tmp := __rb_parent pc in
  __rb_change_child node successor tmp root ;;;
  if nonnull child2 then
    store (rb_parent_color successor) pc ;;;
    rb_set_parent_color child2 parent RB_BLACK ;;;
    cret (NULL, successor)
  else
    let* pc2 := load (rb_parent_color successor) in
    store (rb_parent_color successor) pc ;;;
    cret (if __rb_is_black pc2 then parent else NULL, successor).

Definition __rb_erase_augmented (node root : Z) : M mem Z :=
  let* child := load (rb_right node) in
  let* tmp := load (rb_left node) in
  let* rt := (if negb (nonnull tmp) then erase_no_left node child root
              else if negb (nonnull child) then erase_no_right node tmp root
              else erase_two node child root) in
  let '(rebalance, tmp) := rt in
  propagate augment tmp NULL ;;;
  cret rebalance.
End erase_augmented.

Definition rb_erase (node root : Z) : M mem unit :=
  let* rebalance := __rb_erase_augmented dummy_callbacks node root in
  when (nonnull rebalance)
    (____rb_erase_color (rotate dummy_callbacks) rebalance root).

Definition rb_erase_augmented (node root : Z) (augment : rb_augment_callbacks)
    : M mem unit :=
  let* rebalance := __rb_erase_augmented augment node root in
  when (nonnull rebalance) (__rb_erase_color rebalance root (rotate augment)).

(** ** Traversal *)

(** [while (n->rb_left) n = n->rb_left;] and its mirror image. *)
Fixpoint descend (d : side) (fuel : nat) (n : Z) : M mem Z :=
  match fuel with
  | O => cfail
  | S fuel =>
      let* c := load (child_at d n) in
      if nonnull c then descend d fuel c else cret n
  end.

Definition first_at (d : side) (root : Z) : M mem Z :=
  let* n := load root in
  if negb (nonnull n) then cret NULL else descend d rb_fuel n.

Definition rb_first : Z → M mem Z := first_at L.

Definition rb_last : Z → M mem Z := first_at R.

Definition RB_EMPTY_NODE (node : Z) : M mem bool :=
  let* pc := load (rb_parent_color node) in cret (pc =? node).

(** [while ((parent = rb_parent(node)) && node == parent->rb_right)
      node = parent; return parent;] and its mirror image. *)
Fixpoint ascend (d : side) (fuel : nat) (node : Z) : M mem Z :=
  match fuel with
  | O => cfail
  | S fuel =>
      let* parent := rb_parent node in
      if nonnull parent then
        let* c := load (child_at (opp d) parent) in
        if node =? c then ascend d fuel parent else cret parent
      else cret parent
  end.

(** [rb_next] ([d] is [L]) and [rb_prev] ([d] is [R]): down to the child on the
    other side and then as far as possible on side [d], or up. *)
Definition next_at (d : side) (node : Z) : M mem Z :=
  let* empty := RB_EMPTY_NODE node in
  if empty : bool then cret NULL
  else
    let* c := load (child_at (opp d) node) in
    if nonnull c then descend d rb_fuel c else ascend d rb_fuel node.

Definition rb_next : Z → M mem Z := next_at L.

Definition rb_prev : Z → M mem Z := next_at R.

Definition rb_replace_node (victim new root : Z) : M mem unit :=
  let* parent := rb_parent victim in
  __rb_change_child victim new parent root ;;;
  let* l := load (rb_left victim) in
  when (nonnull l) (rb_set_parent l new) ;;;
  let* r := load (rb_right victim) in
  when (nonnull r) (rb_set_parent r new) ;;;
  (* *new = *victim *)
  let* pc := load (rb_parent_color victim) in
  store (rb_parent_color new) pc ;;;
  let* r := load (rb_right victim) in
  store (rb_right new) r ;;;
  let* l := load (rb_left victim) in
  store (rb_left new) l.

Fixpoint left_deepest_loop (fuel : nat) (node : Z) : M mem Z :=
  match fuel with
  | O => cfail
  | S fuel =>
      let* l := load (rb_left node) in
      if nonnull l then left_deepest_loop fuel l
      else
        let* r := load (rb_right node) in
        if nonnull r then left_deepest_loop fuel r else cret node
  end.

Definition rb_left_deepest_node (node : Z) : M mem Z := left_deepest_loop rb_fuel node.

Definition rb_next_postorder (node : Z) : M mem Z :=
  if negb (nonnull node) then cret NULL
  else
    let* parent := rb_parent node in
    if nonnull parent then
      let* l := load (rb_left parent) in
      if node =? l then
        let* r := load (rb_right parent) in
        if nonnull r then rb_left_deepest_node r else cret parent
      else cret parent
    else cret parent.

Definition rb_first_postorder (root : Z) : M mem Z :=
  let* n := load root in
  if negb (nonnull n) then cret NULL else rb_left_deepest_node n.
