(* ===== verification/RbTree.v ===== *)
(** * Red-black trees as values

    The trees that the memory of RbCode.v represents, with the address of each
    node, and the two rebalancing walks as functions on a tree and the path
    from it to the root.  RbRefine.v shows that the code computes these
    functions; here they are shown to keep the in-order sequence of the nodes
    and the properties 1 to 5 stated at the top of rbtree.c. *)

From Stdlib Require Import ZArith Lia.
From stdpp Require Import base numbers list option sets.
From S2P Require Import Prelude RbCode.

Open Scope Z_scope.

(** ** Trees and paths *)

Inductive color := Red | Black.

#[export] Instance color_eq_dec : EqDecision color.
Proof. solve_decision. Defined.

#[export] Instance side_eq_dec : EqDecision side.
Proof. solve_decision. Defined.

Inductive tree :=
| E
| T (c : color) (l : tree) (a : Z) (r : tree).

#[export] Instance tree_eq_dec : EqDecision tree.
Proof. solve_decision. Defined.

(** The pointer to a tree. *)
Definition addr (t : tree) : Z := match t with E => NULL | T _ _ a _ => a end.

(** The node with the child [x] on side [d] and [y] on the other. *)
Definition mk (d : side) (c : color) (x : tree) (a : Z) (y : tree) : tree :=
  match d with L => T c x a y | R => T c y a x end.

Definition sub (d : side) (t : tree) : tree :=
  match t with
  | E => E
  | T _ l _ r => match d with L => l | R => r end
  end.

Definition paint (c : color) (t : tree) : tree :=
  match t with E => E | T _ l a r => T c l a r end.

Definition is_red (t : tree) : bool :=
  match t with T Red _ _ _ => true | _ => false end.

(** A step of the path to the root: the tree below is the child on side
    [f_side] of the node [f_addr]. *)
Record frame := F { f_side : side; f_col : color; f_addr : Z; f_sib : tree }.

Abbreviation path := (list frame).

Definition plug (t : tree) (f : frame) : tree :=
  mk (f_side f) (f_col f) t (f_addr f) (f_sib f).

Definition fill (t : tree) (k : path) : tree := foldl plug t k.

(** The parent pointer of the tree at the end of a path. *)
Definition up (k : path) : Z := match k with [] => NULL | f :: _ => f_addr f end.

Fixpoint inorder (t : tree) : list Z :=
  match t with E => [] | T _ l a r => inorder l ++ a :: inorder r end.

Fixpoint postorder (t : tree) : list Z :=
  match t with E => [] | T _ l a r => postorder l ++ postorder r ++ [a] end.

(** What precedes and what follows the tree at the end of a path. *)
Fixpoint before_path (k : path) : list Z :=
  match k with
  | [] => []
  | F L _ _ _ :: k => before_path k
  | F R _ a s :: k => before_path k ++ inorder s ++ [a]
  end.

Fixpoint after_path (k : path) : list Z :=
  match k with
  | [] => []
  | F L _ a s :: k => a :: inorder s ++ after_path k
  | F R _ _ _ :: k => after_path k
  end.

(** ** Rebalancing *)

(** The child [t], on side [d] of the node [a] whose other child is [u], comes
    up with the colour [cu]; [a] goes down with the colour [cd]. *)
Definition rot_to (d : side) (cu cd : color) (t : tree) (a : Z) (u : tree) : tree :=
  match t with
  | E => mk d cd E a u
  | T _ _ b _ => mk d cu (sub d t) b (mk d cd (sub (opp d) t) a u)
  end.

(** What [__rb_insert] makes of the red tree [t] at the end of the path [k]. *)
Fixpoint ins_fix (t : tree) (k : path) : tree :=
  match k with
  | [] => paint Black t
  | f :: k1 =>
      match f_col f, k1 with
      | Black, _ => fill t k
      | Red, [] => fill t k
      | Red, g :: k2 =>
          let d := f_side g in
          if is_red (f_sib g) then
            ins_fix (mk d Red (paint Black (plug t f)) (f_addr g)
                       (paint Black (f_sib g))) k2
          else
            let p := if decide (f_side f = d) then plug t f
                     else rot_to (opp d) Red Red t (f_addr f) (f_sib f) in
            fill (rot_to d (f_col g) Red p (f_addr g) (f_sib g)) k2
      end
  end.

(** Cases 2 to 4 of [____rb_erase_color] at the node [p] of colour [c]; its
    child [t] on side [d] lacks a black node and its other child [s] is black.
    The new tree, and whether it lacks a black node in turn. *)
Definition del_black (d : side) (c : color) (t : tree) (p : Z) (s : tree) : tree * bool :=
  let case4 s := rot_to (opp d) c Black
                   (mk d Red (sub d s) (addr s) (paint Black (sub (opp d) s))) p t in
  if is_red (sub (opp d) s) then (case4 s, false)
  else if is_red (sub d s) then
    (case4 (rot_to d Red Black (sub d s) (addr s) (sub (opp d) s)), false)
  else (mk d Black t p (paint Red s), bool_decide (c = Black)).

(** What [____rb_erase_color] makes of the tree [t] at the end of the path [k],
    when the paths through [t] lack a black node. *)
Fixpoint del_fix (t : tree) (k : path) : tree :=
  match k with
  | [] => t
  | F d c p s :: k =>
      if is_red s then
        fill (mk d c (del_black d Red t p (sub d s)).1 (addr s) (sub (opp d) s)) k
      else
        let '(t, short) := del_black d c t p s in
        if short then del_fix t k else fill t k
  end.

(** The leftmost node of [T c l a r]: its colour, address and right subtree,
    and the path to it. *)
Fixpoint leftmost (c : color) (l : tree) (a : Z) (r : tree) (k : path)
    : color * Z * tree * path :=
  match l with
  | E => (c, a, r, k)
  | T cl ll al lr => leftmost cl ll al lr (F L c a r :: k)
  end.

(** [__rb_erase_augmented] on the node with the colour [c] and the children [l]
    and [r] at the end of the path [k]: the tree that takes the place of the
    node or of its successor, the path to it, and whether it lacks a black
    node. *)
Definition unlink (c : color) (l r : tree) (k : path) : tree * path * bool :=
  match l, r with
  | E, E => (E, k, bool_decide (c = Black))
  | E, _ => (paint c r, k, false)
  | _, E => (paint c l, k, false)
  | _, T cr rl ar rr =>
      let '(cs, s, sr, kr) := leftmost cr rl ar rr [] in
      (paint Black sr, kr ++ F R c s l :: k,
       bool_decide (sr = E) && bool_decide (cs = Black))
  end.

(** [rb_erase] of that node. *)
Definition erase_at (c : color) (l r : tree) (k : path) : tree :=
  let '(t, k', short) := unlink c l r k in
  if short then del_fix t k' else fill t k'.

(** ** The red-black properties *)

(** [rb c n t]: the colour of the root is [c] (leaves are black), no red node
    has a red child, and every path down has [n] black nodes. *)
Inductive rb : color → nat → tree → Prop :=
| rb_E : rb Black 0 E
| rb_R n l a r : rb Black n l → rb Black n r → rb Red n (T Red l a r)
| rb_B n cl l a cr r : rb cl n l → rb cr n r → rb Black (S n) (T Black l a r).

(** A tree as the code keeps it. *)
Definition rb_tree (t : tree) : Prop := ∃ n, rb Black n t.

(** [rb_path c n k]: filling the path with a tree of colour [c] and black
    height [n] gives a red-black tree. *)
Inductive rb_path : color → nat → path → Prop :=
| rbp_nil n : rb_path Black n []
| rbp_R n d a s k : rb Black n s → rb_path Red n k → rb_path Black n (F d Red a s :: k)
| rbp_B n c d a cs s k : rb cs n s → rb_path Black (S n) k →
    rb_path c n (F d Black a s :: k).

Create HintDb rbt discriminated.
#[export] Hint Constructors rb rb_path : rbt.

Lemma opp_opp d : opp (opp d) = d.
Proof. by destruct d. Qed.

Lemma opp_ne d : opp d ≠ d.
Proof. by destruct d. Qed.

Lemma sub_mk d c x a y : sub d (mk d c x a y) = x.
Proof. by destruct d. Qed.

Lemma sub_opp_mk d c x a y : sub (opp d) (mk d c x a y) = y.
Proof. by destruct d. Qed.

Lemma addr_mk d c x a y : addr (mk d c x a y) = a.
Proof. by destruct d. Qed.

Lemma paint_mk d c c' x a y : paint c' (mk d c x a y) = mk d c' x a y.
Proof. by destruct d. Qed.

Lemma is_red_mk d c x a y : is_red (mk d c x a y) = bool_decide (c = Red).
Proof. by destruct d, c. Qed.

Lemma mk_opp d c x a y : mk (opp d) c x a y = mk d c y a x.
Proof. by destruct d. Qed.

Lemma rot_to_mk d cu cd c x b y a u :
  rot_to d cu cd (mk d c x b y) a u = mk d cu x b (mk d cd y a u).
Proof. by destruct d. Qed.

Lemma rot_to_opp_mk d cu cd c x b y a u :
  rot_to (opp d) cu cd (mk d c x b y) a u = mk d cu (mk d cd u a x) b y.
Proof. by destruct d. Qed.

(** Every node can be read from either side. *)
Lemma T_mk d c l a r : T c l a r = mk d c (sub d (T c l a r)) a (sub (opp d) (T c l a r)).
Proof. by destruct d. Qed.

#[export] Hint Rewrite opp_opp sub_mk sub_opp_mk addr_mk paint_mk is_red_mk mk_opp
  rot_to_mk rot_to_opp_mk : rbt.

Lemma rb_mk_red d n x a y : rb Black n x → rb Black n y → rb Red n (mk d Red x a y).
Proof. destruct d; simpl; auto with rbt. Qed.

Lemma rb_mk_black d n cx x a cy y :
  rb cx n x → rb cy n y → rb Black (S n) (mk d Black x a y).
Proof. destruct d; simpl; eauto with rbt. Qed.

#[export] Hint Resolve rb_mk_red rb_mk_black : rbt.

Lemma rb_red_inv d n t : rb Red n t →
  ∃ x a y, t = mk d Red x a y ∧ rb Black n x ∧ rb Black n y.
Proof.
  intros H. inversion H; subst. destruct d; [by exists l, a, r | by exists r, a, l].
Qed.

Lemma rb_black_inv d n t : rb Black (S n) t →
  ∃ cx x a cy y, t = mk d Black x a y ∧ rb cx n x ∧ rb cy n y.
Proof.
  intros H. inversion H; subst.
  destruct d; [by exists cl, l, a, cr, r | by exists cr, r, a, cl, l].
Qed.

Lemma rb_is_red_eq c n t : rb c n t → is_red t = bool_decide (c = Red).
Proof. by destruct 1. Qed.

Lemma rb_color_inj c n t c' n' : rb c n t → rb c' n' t → c = c'.
Proof. by do 2 inversion 1; subst. Qed.

Lemma rb_red_nonempty n t : rb Red n t → t ≠ E.
Proof. by intros H ->; inversion H. Qed.

Lemma rb_paint_red n t : rb Red n t → rb Black (S n) (paint Black t).
Proof. inversion 1; subst; simpl; eauto with rbt. Qed.

(** The colour and the height of a path whose last step is red or black. *)
Lemma rb_path_red_inv n d a s c k : rb_path c n (F d Red a s :: k) →
  c = Black ∧ rb Black n s ∧ rb_path Red n k.
Proof. by inversion 1. Qed.

Lemma rb_path_black_inv c n d a s k : rb_path c n (F d Black a s :: k) →
  ∃ cs, rb cs n s ∧ rb_path Black (S n) k.
Proof. inversion 1; subst; eauto. Qed.

Lemma rb_path_red_cons n k : rb_path Red n k →
  ∃ d a s k' cs, k = F d Black a s :: k' ∧ rb cs n s ∧ rb_path Black (S n) k'.
Proof. inversion 1; subst; eauto 10. Qed.

Lemma rb_path_weaken n k c : rb_path Red n k → rb_path c n k.
Proof. inversion 1; subst; eauto with rbt. Qed.

Lemma rb_fill c n t k : rb c n t → rb_path c n k → rb_tree (fill t k).
Proof.
  intros Ht Hk. revert t Ht. induction Hk as [n|n d a s k Hs Hk IH|n c d a cs s k Hs Hk IH];
    intros t Ht; simpl; [by exists n|apply IH..]; unfold plug; simpl; eauto with rbt.
Qed.

Lemma rb_fill_inv t k : rb_tree (fill t k) → ∃ c n, rb c n t ∧ rb_path c n k.
Proof.
  revert t. induction k as [|[d c a s] k IH]; intros t [m Hm].
  { exists Black, m. auto with rbt. }
  destruct (IH _ (ex_intro _ m Hm)) as (c' & n & Ht & Hk). unfold plug in Ht; simpl in Ht.
  destruct c'.
  - destruct (rb_red_inv d n _ Ht) as (x & b & y & Heq & Hx & Hy).
    destruct d; simplify_eq/=; eauto with rbt.
  - destruct n as [|n]; [inversion Ht; by destruct d|].
    destruct (rb_black_inv d n _ Ht) as (cx & x & b & cy & y & Heq & Hx & Hy).
    destruct d; simplify_eq/=; eauto with rbt.
Qed.

(** ** Order *)

Lemma inorder_mk d c x a y :
  inorder (mk d c x a y) =
  match d with L => inorder x ++ a :: inorder y | R => inorder y ++ a :: inorder x end.
Proof. by destruct d. Qed.

Lemma inorder_paint c t : inorder (paint c t) = inorder t.
Proof. by destruct t. Qed.

Lemma inorder_rot_to d cu cd t a u c :
  inorder (rot_to d cu cd t a u) = inorder (mk d c t a u).
Proof. destruct t, d; simpl; rewrite ?app_nil_r; by simplify_list_eq. Qed.

Lemma inorder_fill t k : inorder (fill t k) = before_path k ++ inorder t ++ after_path k.
Proof.
  revert t. induction k as [|[d c a s] k IH]; intros t; simpl; [by rewrite app_nil_r|].
  rewrite IH. unfold plug; simpl. destruct d; simpl; by simplify_list_eq.
Qed.

Lemma inorder_mk_congr d c c' x x' a y y' :
  inorder x = inorder x' → inorder y = inorder y' →
  inorder (mk d c x a y) = inorder (mk d c' x' a y').
Proof. rewrite !inorder_mk. by intros -> ->. Qed.

Lemma inorder_fill_congr t t' k :
  inorder t = inorder t' → inorder (fill t k) = inorder (fill t' k).
Proof. rewrite !inorder_fill. by intros ->. Qed.

(** Insertion keeps the order. *)
Lemma ins_fix_inorder t k : inorder (ins_fix t k) = inorder (fill t k).
Proof.
  revert t. induction k as [k IH] using (induction_ltof1 _ length); intros t.
  destruct k as [|f [|g k]]; simpl; [by rewrite inorder_paint|by destruct (f_col f)|].
  destruct (f_col f) eqn:Hf; [|done].
  destruct (is_red (f_sib g)); [rewrite IH by (unfold ltof; simpl; lia)|];
    apply inorder_fill_congr.
  - apply inorder_mk_congr; by rewrite inorder_paint.
  - rewrite (inorder_rot_to _ _ _ _ _ _ (f_col g)).
    apply inorder_mk_congr; [|done]. case_decide as Hd; [done|].
    rewrite (inorder_rot_to _ _ _ _ _ _ Red). unfold plug. rewrite Hf.
    destruct (f_side f), (f_side g); done || by destruct Hd.
Qed.

(** Removal keeps the order of the nodes that stay. *)
Lemma del_black_inorder d c t p s : s ≠ E →
  inorder (del_black d c t p s).1 = inorder (mk d c t p s).
Proof.
  intros Hs. destruct s as [|cs l a r]; [done|].
  rewrite (T_mk d cs l a r). generalize (sub d (T cs l a r)), (sub (opp d) (T cs l a r)).
  clear l r Hs. intros x y. unfold del_black. autorewrite with rbt.
  destruct (is_red y); [|destruct x as [|[] xl xa xr]]; simpl; autorewrite with rbt;
    destruct d; simpl; rewrite ?inorder_paint; by simplify_list_eq.
Qed.

Lemma del_black_red d t p s : (del_black d Red t p s).2 = false.
Proof. unfold del_black. by repeat case_match. Qed.

Lemma rb_S_nonempty c n t : rb c (S n) t → t ≠ E.
Proof. by intros H ->; inversion H. Qed.

Lemma del_fix_inorder c n t k :
  rb_path c (S n) k → inorder (del_fix t k) = inorder (fill t k).
Proof.
  revert c n t. induction k as [|[d c p s] k IH]; intros c0 n t Hk; [done|]. simpl.
  assert (∃ cs, rb cs (S n) s) as [cs Hs] by (inversion Hk; eauto).
  rewrite (rb_is_red_eq _ _ _ Hs). case_bool_decide as Hc; subst.
  - apply inorder_fill_congr.
    destruct (rb_red_inv d _ _ Hs) as (x & a & y & -> & Hx & _). autorewrite with rbt.
    rewrite (inorder_mk_congr _ _ c _ (mk d Red t p x) _ _ y)
      by (done || apply del_black_inorder; eauto using rb_S_nonempty).
    destruct d; simpl; by simplify_list_eq.
  - assert (inorder (del_black d c t p s).1 = inorder (mk d c t p s)) as Heq
      by (apply del_black_inorder; eauto using rb_S_nonempty).
    assert (∃ m c', rb_path c' (S m) k) as (m & c' & Hk') by (inversion Hk; eauto).
    destruct (del_black d c t p s) as [t' []]; [rewrite (IH _ _ _ Hk')|];
      by apply inorder_fill_congr.
Qed.

Lemma leftmost_fill c l a r k cs s sr k' :
  leftmost c l a r k = (cs, s, sr, k') → fill (T c l a r) k = fill (T cs E s sr) k'.
Proof.
  revert c a r k. induction l as [|cl ll IHl al lr _]; intros c a r k; simpl.
  - by intros [= -> -> -> ->].
  - intros H. rewrite <- (IHl _ _ _ _ H). done.
Qed.

Lemma before_path_app k1 k2 : before_path (k1 ++ k2) = before_path k2 ++ before_path k1.
Proof.
  induction k1 as [|[[] c a s] k1 IH]; simpl; rewrite ?app_nil_r, ?IH, ?app_assoc; done.
Qed.

Lemma after_path_app k1 k2 : after_path (k1 ++ k2) = after_path k1 ++ after_path k2.
Proof. induction k1 as [|[[] c a s] k1 IH]; simpl; rewrite ?IH, ?app_assoc; done. Qed.

Lemma leftmost_app c l a r cs s sr kr k : leftmost c l a r [] = (cs, s, sr, kr) →
  leftmost c l a r k = (cs, s, sr, kr ++ k).
Proof.
  revert c a r cs s sr kr k.
  induction l as [|cl ll IHl al lr _]; intros c a r cs s sr kr k; simpl.
  { by intros [= <- <- <- <-]. }
  destruct (leftmost cl ll al lr []) as [[[cs' s'] sr'] k1] eqn:H1.
  rewrite (IHl _ _ _ _ _ _ _ [F L c a r] H1), (IHl _ _ _ _ _ _ _ (F L c a r :: k) H1).
  intros [= <- <- <- <-]. by rewrite <- app_assoc.
Qed.

(** The path to the leftmost node goes left. *)
Lemma leftmost_left c l a r k cs s sr k' : leftmost c l a r k = (cs, s, sr, k') →
  Forall (λ f, f_side f = L) k → Forall (λ f, f_side f = L) k'.
Proof.
  revert c a r k. induction l as [|cl ll IHl al lr _]; intros c a r k; simpl.
  { by intros [= <- <- <- <-]. }
  intros H Hk. apply (IHl _ _ _ _ H). by constructor.
Qed.

(** The last step to a leftmost node below another one. *)
Lemma leftmost_cons c l a r f cs s sr k' : f_side f = L →
  leftmost c l a r [f] = (cs, s, sr, k') → ∃ cg g sg kr, k' = F L cg g sg :: kr.
Proof.
  intros Hf Hl. pose proof (leftmost_left _ _ _ _ _ _ _ _ _ Hl ltac:(by constructor)) as HL.
  destruct (leftmost c l a r []) as [[[cs' s'] sr'] kr'] eqn:H0.
  rewrite (leftmost_app _ _ _ _ _ _ _ _ [f] H0) in Hl. simplify_eq.
  destruct kr' as [|[[] cg g sg] kr']; simpl in *; inversion HL; simplify_eq/=; eauto.
  destruct f; simplify_eq/=; eauto.
Qed.

(** Nothing precedes the leftmost node. *)
Lemma leftmost_before c l a r k cs s sr k' : leftmost c l a r k = (cs, s, sr, k') →
  before_path k = [] → before_path k' = [].
Proof.
  revert c a r k. induction l as [|cl ll IHl al lr _]; intros c a r k; simpl.
  { by intros [= <- <- <- <-]. }
  intros H Hk. by apply (IHl _ _ _ _ H).
Qed.

Lemma unlink_inorder c l r k t k' b : unlink c l r k = (t, k', b) →
  inorder (fill t k') = before_path k ++ inorder l ++ inorder r ++ after_path k.
Proof.
  intros Hu. rewrite inorder_fill. destruct l as [|cl ll al lr], r as [|cr rl ar rr]; simpl in Hu.
  1-3: simplify_eq/=; rewrite ?app_nil_r; by simplify_list_eq.
  destruct (leftmost cr rl ar rr []) as [[[cs s] sr] kr] eqn:Hl. simplify_eq.
  pose proof (f_equal inorder (leftmost_fill _ _ _ _ _ _ _ _ _ Hl)) as Hi.
  pose proof (leftmost_before _ _ _ _ _ _ _ _ _ Hl eq_refl) as Hb.
  rewrite (inorder_fill _ kr), Hb in Hi.
  change (fill (T cr rl ar rr) []) with (T cr rl ar rr) in Hi. rewrite Hi.
  rewrite before_path_app, after_path_app, Hb, inorder_paint. by simplify_list_eq.
Qed.

(** ** Balance *)

Lemma ins_flip_rb n d df p s cu u g t : rb Red n t → rb Black n s → rb cu n u →
  is_red u = true →
  rb Red (S n) (mk d Red (paint Black (plug t (F df Red p s))) g (paint Black u)).
Proof.
  intros Ht Hs Hu Hr. rewrite (rb_is_red_eq _ _ _ Hu) in Hr.
  apply bool_decide_eq_true in Hr as ->. unfold plug; simpl. autorewrite with rbt.
  apply rb_mk_red; eauto using rb_paint_red with rbt.
Qed.

Lemma ins_fix_rb n t k : rb Red n t → rb_path Black n k → rb_tree (ins_fix t k).
Proof.
  revert n t. induction k as [k IH] using (induction_ltof1 _ length); intros n t Ht Hk.
  destruct k as [|[df [] p s] k1]; simpl.
  { exists (S n). by apply rb_paint_red. }
  2: { apply rb_path_black_inv in Hk as (cs & Hs & Hk). eapply (rb_fill Black (S n)); [|done].
       unfold plug; simpl; eauto with rbt. }
  apply rb_path_red_inv in Hk as (_ & Hs & Hk).
  apply rb_path_red_cons in Hk as (d & g & u & k2 & cu & -> & Hu & Hk2). simpl.
  rewrite (rb_is_red_eq _ _ _ Hu). case_bool_decide as Hc; subst.
  - apply (IH k2) with (S n); [unfold ltof; simpl; lia| |done].
    eapply ins_flip_rb; [done..|]. by rewrite (rb_is_red_eq _ _ _ Hu).
  - destruct cu; [done|]. apply (rb_fill Black (S n)); [|done]. unfold plug; simpl.
    case_decide as Hd; subst; autorewrite with rbt; [eauto with rbt|].
    destruct (rb_red_inv d _ _ Ht) as (x & a & y & -> & Hx & Hy). autorewrite with rbt.
    eauto with rbt.
Qed.

Lemma rb_black_S c n t : rb c n t → is_red t = false → rb Black n t.
Proof. destruct 1; simpl; eauto with rbt; done. Qed.

(** The result of cases 2 to 4, when the child [t] has one black node less
    than the sibling [s]. *)
Lemma del_black_rb d c n t p s t' short :
  rb Black n t → rb Black (S n) s → del_black d c t p s = (t', short) →
  if short then c = Black ∧ rb Black (S n) t'
  else match c with Red => ∃ c', rb c' (S n) t' ∧ (c' = Red ∨ c' = Black)
       | Black => rb Black (S (S n)) t' end.
Proof.
  intros Ht Hs. destruct (rb_black_inv d _ _ Hs) as (cx & x & a & cy & y & -> & Hx & Hy).
  unfold del_black. autorewrite with rbt. rewrite (rb_is_red_eq _ _ _ Hy).
  case_bool_decide as Hcy; [subst|rewrite (rb_is_red_eq _ _ _ Hx); case_bool_decide as Hcx].
  - intros [= <- <-]. destruct c; [eexists; split; [|by left]|];
      eauto using rb_paint_red with rbt.
  - subst. destruct (rb_red_inv d _ _ Hx) as (xx & xa & xy & -> & Hxx & Hxy).
    autorewrite with rbt. intros [= <- <-]. destruct c; [eexists; split; [|by left]|];
      eauto using rb_paint_red with rbt.
  - destruct cx, cy; try done. intros [= <- <-]. case_bool_decide; subst.
    + split; eauto with rbt.
    + destruct c; [|done]. exists Black. split; [|by right]. eauto with rbt.
Qed.

Lemma del_fix_rb c n t k : rb Black n t → rb_path c (S n) k → rb_tree (del_fix t k).
Proof.
  revert c n t. induction k as [|[d c p s] k IH]; intros c0 n t Ht Hk; simpl.
  { by exists n. }
  assert (∃ cs, rb cs (S n) s) as [cs Hs] by (inversion Hk; eauto).
  rewrite (rb_is_red_eq _ _ _ Hs). case_bool_decide as Hc; subst.
  - destruct c.
    { apply rb_path_red_inv in Hk as (_ & Hb & _). by pose proof (rb_color_inj _ _ _ _ _ Hs Hb). }
    apply rb_path_black_inv in Hk as (_ & _ & Hk).
    destruct (rb_red_inv d _ _ Hs) as (x & a & y & -> & Hx & Hy). autorewrite with rbt.
    destruct (del_black d Red t p x) as [t' b] eqn:Hd.
    pose proof (del_black_rb _ _ _ _ _ _ _ _ Ht Hx Hd) as Hr.
    destruct b; [by destruct Hr|]. destruct Hr as (c' & Hr & _).
    apply (rb_fill Black (S (S n))); eauto with rbt.
  - destruct cs; [done|]. destruct (del_black d c t p s) as [t' b] eqn:Hd.
    pose proof (del_black_rb _ _ _ _ _ _ _ _ Ht Hs Hd) as Hr. destruct b.
    + destruct Hr as [-> Hr]. apply rb_path_black_inv in Hk as (_ & _ & Hk). eauto.
    + destruct c.
      * destruct Hr as (c' & Hr & _). apply rb_path_red_inv in Hk as (_ & _ & Hk).
        eauto using rb_fill, rb_path_weaken.
      * apply rb_path_black_inv in Hk as (_ & _ & Hk). eauto using rb_fill.
Qed.

Lemma leftmost_rb c n l a r k cs s sr k' : leftmost c l a r k = (cs, s, sr, k') →
  rb c n (T c l a r) → rb_path c n k →
  ∃ m, rb cs m (T cs E s sr) ∧ rb_path cs m k'.
Proof.
  revert c n a r k. induction l as [|cl ll IHl al lr _]; intros c n a r k; simpl.
  { intros [= <- <- <- <-]; eauto. }
  intros Hl Ht Hk. inversion Ht as [|n' ? ? ? H1 H2|n' cl' ? ? cr' ? H1 H2]; subst.
  - assert (cl = Black) as -> by (by inversion H1).
    eapply IHl; [done..|]. eauto with rbt.
  - assert (cl = cl') as -> by (by inversion H1).
    eapply IHl; [done..|]. eauto with rbt.
Qed.

(** The address of a step does not matter. *)
Lemma rb_path_readdress c n kr d c0 a a' s k :
  rb_path c n (kr ++ F d c0 a s :: k) → rb_path c n (kr ++ F d c0 a' s :: k).
Proof.
  revert c n. induction kr as [|g kr IH]; intros c n H; inversion H; subst; simpl;
    eauto with rbt.
Qed.

Lemma rb_0_inv c t : rb c 0 t → is_red t = false → t = E.
Proof. inversion 1; done. Qed.

Lemma unlink_rb c l a r k t k' b : unlink c l r k = (t, k', b) →
  rb_tree (fill (T c l a r) k) →
  if b then t = E ∧ ∃ c', rb_path c' 1 k' else rb_tree (fill t k').
Proof.
  intros Hu Ht. apply rb_fill_inv in Ht as (c' & n & Ht & Hk).
  assert (c' = c) as -> by (by inversion Ht).
  destruct l as [|cl ll al lr], r as [|cr rl ar rr]; simpl in Hu.
  - simplify_eq. inversion Ht as [|? ? ? ? H1 H2|? ? ? ? ? ? H1 H2]; subst; simpl;
      inversion H1; subst; eauto using rb_fill, rb_path_weaken with rbt.
  - simplify_eq. inversion Ht as [|? ? ? ? H1 H2|? ? ? ? ? ? H1 H2]; subst;
      inversion H1; subst; inversion H2; subst. apply (rb_fill Black 1); simpl; eauto with rbt.
  - simplify_eq. inversion Ht as [|? ? ? ? H1 H2|? ? ? ? ? ? H1 H2]; subst;
      inversion H2; subst; inversion H1; subst. apply (rb_fill Black 1); simpl; eauto with rbt.
  - destruct (leftmost cr rl ar rr []) as [[[cs s] sr] kr] eqn:Hl. simplify_eq.
    set (l := T cl ll al lr) in *.
    assert (∃ m, rb cr m (T cr rl ar rr) ∧ rb_path cr m (F R c a l :: k)) as (m & Hr & Hp).
    { inversion Ht as [|? ? ? ? H1 H2|? ? ? ? ? ? H1 H2]; subst; inversion H2; subst;
        eauto with rbt. }
    apply (leftmost_app _ _ _ _ _ _ _ _ (F R c a l :: k)) in Hl.
    destruct (leftmost_rb _ _ _ _ _ _ _ _ _ _ Hl Hr Hp) as (j & Hs & Hp').
    apply (rb_path_readdress _ _ _ _ _ _ s) in Hp'.
    inversion Hs as [|? ? ? ? H1 H2|? ? ? ? ? ? H1 H2]; subst; inversion H1; subst;
      inversion H2; subst; simpl; eauto using rb_fill, rb_path_weaken with rbt.
Qed.

(** ** Removal and insertion as a whole *)

Lemma erase_at_inorder c l a r k : rb_tree (fill (T c l a r) k) →
  inorder (erase_at c l r k) = before_path k ++ inorder l ++ inorder r ++ after_path k.
Proof.
  intros Ht. unfold erase_at. destruct (unlink c l r k) as [[t k'] b] eqn:Hu.
  rewrite <- (unlink_inorder _ _ _ _ _ _ _ Hu).
  pose proof (unlink_rb _ _ _ _ _ _ _ _ Hu Ht) as Hr. destruct b; [|done].
  destruct Hr as [_ [c' Hp]]. by eapply del_fix_inorder.
Qed.

Lemma erase_at_rb c l a r k : rb_tree (fill (T c l a r) k) → rb_tree (erase_at c l r k).
Proof.
  intros Ht. unfold erase_at. destruct (unlink c l r k) as [[t k'] b] eqn:Hu.
  pose proof (unlink_rb _ _ _ _ _ _ _ _ Hu Ht) as Hr. destruct b; [|done].
  destruct Hr as [-> [c' Hp]]. eapply del_fix_rb; eauto with rbt.
Qed.

(** ** Depth *)

Fixpoint height (t : tree) : nat :=
  match t with E => 0 | T _ l _ r => S (Nat.max (height l) (height r)) end.

Fixpoint nodes (t : tree) : nat :=
  match t with E => 0 | T _ l _ r => S (nodes l + nodes r) end.

Lemma rb_height c n t : rb c n t →
  (height t ≤ 2 * n + (if decide (c = Red) then 1 else 0))%nat.
Proof.
  induction 1; simpl; repeat case_decide; simplify_eq; lia.
Qed.

Lemma rb_nodes c n t : rb c n t → (2 ^ n ≤ S (nodes t))%nat.
Proof. induction 1; simpl; lia. Qed.

(** A tree of fewer than [2 ^ 62] nodes is less deep than [rb_fuel]. *)
Lemma rb_tree_depth t : rb_tree t → Z.of_nat (nodes t) < 2 ^ 62 → (height t < rb_fuel)%nat.
Proof.
  intros [n H] Hs. pose proof (rb_height _ _ _ H) as Hh. pose proof (rb_nodes _ _ _ H) as Hn.
  rewrite decide_False in Hh by done. apply Nat2Z.inj_le in Hn.
  rewrite Nat2Z.inj_pow in Hn. change (Z.of_nat 2) with 2 in Hn.
  assert (Z.of_nat n < 63); [|unfold rb_fuel; lia].
  apply (Z.pow_lt_mono_r_iff 2); lia.
Qed.

Lemma fill_height t k : (length k + height t ≤ height (fill t k))%nat.
Proof.
  revert t. induction k as [|[d c a s] k IH]; intros t; simpl; [lia|].
  pose proof (IH (plug t (F d c a s))) as H. unfold plug in *; destruct d; simpl in *; lia.
Qed.

(** The walk of [____rb_erase_color] is not longer than the tree is deep. *)
Lemma unlink_length c l a r k t k' b : unlink c l r k = (t, k', b) →
  (length k' ≤ height (fill (T c l a r) k))%nat.
Proof.
  intros Hu. pose proof (fill_height (T c l a r) k) as Hh.
  destruct l as [|cl ll al lr], r as [|cr rl ar rr]; simpl in Hu; simplify_eq; simpl in Hh;
    [lia..|].
  destruct (leftmost cr rl ar rr []) as [[[cs s] sr] kr] eqn:Hl. simplify_eq.
  set (l := T cl ll al lr) in *.
  pose proof (leftmost_fill _ _ _ _ _ _ _ _ _
    (leftmost_app _ _ _ _ _ _ _ _ (F R c a l :: k) Hl)) as Hf.
  change (fill (T cr rl ar rr) (F R c a l :: k)) with (fill (T c l a (T cr rl ar rr)) k) in Hf.
  rewrite Hf. pose proof (fill_height (T cs E s sr) (kr ++ F R c a l :: k)) as H.
  rewrite length_app in *. simpl in *. lia.
Qed.

Lemma nodes_inorder t : nodes t = length (inorder t).
Proof. induction t; simpl; rewrite ?length_app; simpl; lia. Qed.

#[global] Opaque rb_fuel.

(** ** Addresses and packed words *)

(** Node addresses: not null, and aligned so that the two low bits are free. *)
Definition ptr_ok (a : Z) : Prop := 0 < a ∧ a mod 4 = 0.

Definition aligned (p : Z) : Prop := p mod 4 = 0.

Definition col (c : color) : Z := match c with Red => RB_RED | Black => RB_BLACK end.

(** [__rb_parent_color] of a node. *)
Definition pcw (p : Z) (c : color) : Z := Z.lor p (col c).

Lemma aligned_null : aligned NULL.
Proof. done. Qed.

Lemma ptr_ok_aligned a : ptr_ok a → aligned a.
Proof. by intros [_ H]. Qed.

Lemma ptr_ok_nonnull a : ptr_ok a → nonnull a = true.
Proof. intros [H _]. unfold nonnull, NULL. rewrite (proj2 (Z.eqb_neq _ _)); [done|lia]. Qed.

Lemma land_low_aligned p b : aligned p → 0 ≤ b < 4 → Z.land p b = 0.
Proof.
  intros H Hb. apply Z.bits_inj'. intros n Hn. rewrite Z.land_spec, Z.bits_0.
  unfold aligned in H. rewrite <- (Z.mod_small b (2 ^ 2)) by lia.
  destruct (decide (n < 2)).
  - replace (Z.testbit p n) with (Z.testbit (p mod 2 ^ 2) n)
      by (by rewrite Z.mod_pow2_bits_low by lia).
    change (2 ^ 2) with 4. by rewrite H, Z.bits_0.
  - rewrite (Z.mod_pow2_bits_high b) by lia. apply andb_false_r.
Qed.

Lemma __rb_color_pcw p c : aligned p → __rb_color (pcw p c) = col c.
Proof.
  intros H. unfold __rb_color, pcw. rewrite Z.land_lor_distr_l, land_low_aligned by lia || done.
  by destruct c.
Qed.

Lemma __rb_parent_pcw p c : aligned p → __rb_parent (pcw p c) = p.
Proof.
  intros H. unfold __rb_parent, pcw. rewrite Z.land_lor_distr_l.
  rewrite <- Z.ldiff_land. replace (Z.land (col c) (Z.lnot 3)) with 0 by (by destruct c).
  rewrite Z.lor_0_r. pose proof (Z.lor_ldiff_and p 3) as Hd.
  by rewrite (land_low_aligned p 3) in Hd by lia || done; rewrite Z.lor_0_r in Hd.
Qed.

Lemma __rb_is_red_pcw p c : aligned p → __rb_is_red (pcw p c) = bool_decide (c = Red).
Proof. intros H. unfold __rb_is_red. rewrite __rb_color_pcw by done. by destruct c. Qed.

Lemma __rb_is_black_pcw p c : aligned p → __rb_is_black (pcw p c) = bool_decide (c = Black).
Proof. intros H. unfold __rb_is_black. rewrite __rb_color_pcw by done. by destruct c. Qed.

Lemma pcw_red p : pcw p Red = p.
Proof. apply Z.lor_0_r. Qed.

Lemma pcw_set_black p c : Z.lor (pcw p c) RB_BLACK = pcw p Black.
Proof. unfold pcw. rewrite <- Z.lor_assoc. by destruct c. Qed.

Lemma pcw_set_parent p c q : aligned p → Z.lor (__rb_color (pcw p c)) q = pcw q c.
Proof. intros H. rewrite __rb_color_pcw by done. apply Z.lor_comm. Qed.

Lemma paint_black_id t : is_red t = false → paint Black t = t.
Proof. by destruct t as [|[]]. Qed.

(** ** Trees in memory *)

Definition fields (a : Z) : list Z := [rb_parent_color a; rb_right a; rb_left a].

(** The words of a tree below the parent [par], and of a root that points to
    it. *)
Fixpoint cells (par : Z) (t : tree) : list (Z * Z) :=
  match t with
  | E => []
  | T c l a r =>
      (rb_parent_color a, pcw par c) :: (rb_right a, addr r) :: (rb_left a, addr l)
      :: cells a l ++ cells a r
  end.

Definition root_cells (root : Z) (t : tree) : list (Z * Z) := (root, addr t) :: cells NULL t.

Lemma cells_perm par t : (cells par t).*1 ≡ₚ
  inorder t ++ (rb_right <$> inorder t) ++ (rb_left <$> inorder t).
Proof.
  revert par. induction t as [|c l IHl a r IHr]; intros par; simpl; [done|].
  rewrite fmap_app, IHl, IHr, !fmap_app. simpl. unfold rb_parent_color. solve_Permutation.
Qed.

(** The addresses of a tree, and of the nodes [sp] that are in no tree. *)
Definition footprint (root : Z) (t : tree) (sp : list Z) : list Z :=
  (root_cells root t).*1 ++ (sp ≫= fields).

(** The memory [m] holds the tree [t] below [root] and besides it the nodes
    [sp], in any state. *)
Record rep (root : Z) (t : tree) (sp : list Z) (m : mem) : Prop := {
  rep_nodup : NoDup (footprint root t sp);
  rep_cells : Forall (λ pv, m !! pv.1 = Some pv.2) (root_cells root t);
  rep_spare : Forall (λ p, is_Some (m !! p)) (sp ≫= fields);
  rep_ptr : Forall ptr_ok (inorder t ++ sp);
}.

(** [m'] differs from [m] at the addresses [ps] only. *)
Definition same_except (ps : list Z) (m m' : mem) : Prop :=
  ∀ p, p ∉ ps → m' !! p = m !! p.
