(* ===== verification/RbSep.v ===== *)
(** * A separation logic for the memory of RbCode.v

    [wp m Φ] says that the computation [m] does not fail, ends, and that its
    result satisfies [Φ], with the same words in memory, described by points-to assertions of
    Iris's heap library.  [tree_at] and [path_at] describe a tree and the path
    above it; the specifications of the small functions of rbtree.c and
    rbtree_augmented.h follow.  [wp_adequate] brings a specification back to
    plain memories. *)

From Stdlib Require Import ZArith Lia.
From stdpp Require Import base numbers list gmap option.
From iris.proofmode Require Import proofmode.
From iris.base_logic Require Import base_logic lib.gen_heap.
From S2P Require Import Prelude RbCode RbTree.

Open Scope Z_scope.

Notation "l ↦ v" := (pointsto l (DfracOwn 1) v) (at level 20) : bi_scope.

(** ** Weakest preconditions *)

Section wp.
Context `{!gen_heapGS Z Z Σ}.

Definition wp {A} (m : M mem A) (Φ : A → iProp Σ) : iProp Σ :=
  ∀ σ, gen_heap_interp σ ==∗
    ∃ v σ', ⌜m σ = Some (v, σ') ∧ dom σ' = dom σ⌝ ∗ gen_heap_interp σ' ∗ Φ v.

Lemma wp_ret {A} (a : A) Φ : Φ a ⊢ wp (cret a) Φ.
Proof. iIntros "H" (σ) "Hσ !>". iExists a, σ. by iFrame. Qed.

Lemma wp_bind {A B} (m : M mem A) (k : A → M mem B) Φ :
  wp m (λ v, wp (k v) Φ) ⊢ wp (cbind m k) Φ.
Proof.
  iIntros "H" (σ) "Hσ". iMod ("H" with "Hσ") as (v σ') "(%Hm & Hσ & H)".
  iMod ("H" with "Hσ") as (w σ'') "(%Hk & Hσ & H)". iModIntro. iExists w, σ''.
  iFrame. iPureIntro. unfold cbind. destruct Hm as [-> <-]. apply Hk.
Qed.

Lemma wp_wand {A} (m : M mem A) Φ Ψ : wp m Φ -∗ (∀ v, Φ v -∗ Ψ v) -∗ wp m Ψ.
Proof.
  iIntros "H HΨ" (σ) "Hσ". iMod ("H" with "Hσ") as (v σ') "(%Hm & Hσ & H)".
  iModIntro. iExists v, σ'. iFrame. iSplit; [done|]. by iApply "HΨ".
Qed.

Lemma wp_load p v Φ : p ↦ v -∗ (p ↦ v -∗ Φ v) -∗ wp (load p) Φ.
Proof.
  iIntros "Hp HΦ" (σ) "Hσ". iDestruct (gen_heap_valid with "Hσ Hp") as %Hv.
  iModIntro. iExists v, σ. iFrame. iSplit; [|by iApply "HΦ"].
  iPureIntro. unfold load. by rewrite Hv.
Qed.

Lemma wp_store p v w Φ : p ↦ v -∗ (p ↦ w -∗ Φ tt) -∗ wp (store p w) Φ.
Proof.
  iIntros "Hp HΦ" (σ) "Hσ". iDestruct (gen_heap_valid with "Hσ Hp") as %Hv.
  iMod (gen_heap_update with "Hσ Hp") as "[Hσ Hp]". iModIntro.
  iExists tt, (<[p := w]> σ). iFrame. iSplit; [|by iApply "HΦ"].
  iPureIntro. unfold store. rewrite Hv. split; [done|].
  apply dom_insert_lookup_L. by exists v.
Qed.

(** ** Trees in memory *)

Definition node_at (a pc : Z) (d : side) (x y : Z) : iProp Σ :=
  a ↦ pc ∗ child_at d a ↦ x ∗ child_at (opp d) a ↦ y.

Fixpoint tree_at (par : Z) (t : tree) : iProp Σ :=
  match t with
  | E => emp
  | T c l a r =>
      ⌜ptr_ok a⌝ ∗ node_at a (pcw par c) L (addr l) (addr r) ∗ tree_at a l ∗ tree_at a r
  end.

(** The path [k] from the pointer [p] at its end up to the root. *)
Fixpoint path_at (root : Z) (k : path) (p : Z) : iProp Σ :=
  match k with
  | [] => root ↦ p
  | F d c a s :: k =>
      ⌜ptr_ok a⌝ ∗ node_at a (pcw (up k) c) d p (addr s) ∗ tree_at a s ∗ path_at root k a
  end.

(** A whole tree. *)
Definition root_at (root : Z) (t : tree) : iProp Σ := root ↦ addr t ∗ tree_at NULL t.

Lemma node_at_opp a pc d x y : node_at a pc (opp d) x y ⊣⊢ node_at a pc d y x.
Proof. unfold node_at. rewrite opp_opp. iSplit; iIntros "($ & $ & $)". Qed.

Lemma tree_at_mk par d c x a y : tree_at par (mk d c x a y) ⊣⊢
  ⌜ptr_ok a⌝ ∗ node_at a (pcw par c) d (addr x) (addr y) ∗ tree_at a x ∗ tree_at a y.
Proof.
  destruct d; simpl; [done|].
  rewrite (node_at_opp a (pcw par c) L).
  iSplit; iIntros "($ & $ & $ & $)".
Qed.

Lemma path_at_fill root k t :
  tree_at (up k) t ∗ path_at root k (addr t) ⊣⊢ root_at root (fill t k).
Proof.
  revert t. induction k as [|[d c a s] k IH]; intros t; simpl.
  - unfold root_at. rewrite bi.sep_comm. done.
  - rewrite -(IH (plug t (F d c a s))). unfold plug. simpl. rewrite tree_at_mk addr_mk.
    iSplit; iIntros "H".
    + iDestruct "H" as "($ & $ & $ & $ & $)".
    + iDestruct "H" as "(($ & $ & $ & $) & $)".
Qed.

Lemma path_at_up root k p : path_at root k p ⊢ ⌜aligned (up k)⌝.
Proof.
  destruct k as [|[d c a s] k]; simpl; [by iIntros "_"|].
  iIntros "(%H & _)". iPureIntro. by apply ptr_ok_aligned.
Qed.

Lemma path_at_nonnull root k p :
  path_at root k p ⊢ ⌜nonnull (up k) = negb (bool_decide (k = []))⌝.
Proof.
  destruct k as [|[d c a s] k]; simpl; [by iIntros "_"|].
  iIntros "(%H & _)". iPureIntro. by apply ptr_ok_nonnull.
Qed.

Lemma tree_at_addr par t : tree_at par t ⊢ ⌜aligned (addr t)⌝ ∧ ⌜nonnull (addr t) = negb (bool_decide (t = E))⌝.
Proof.
  destruct t as [|c l a r]; simpl; [by iIntros "_"|]. iIntros "(%H & _)". iPureIntro.
  split; [by apply ptr_ok_aligned|by apply ptr_ok_nonnull].
Qed.

(** A node that is owned is not the root of another tree. *)
Lemma tree_at_ne par t a pc : ptr_ok a → a ↦ pc -∗ tree_at par t -∗ ⌜addr t ≠ a⌝.
Proof.
  iIntros ([Ha _]) "H Ht". destruct t as [|c l b r]; simpl.
  - iPureIntro. unfold NULL. lia.
  - iDestruct "Ht" as "(_ & (Hb & _) & _)". iIntros (->).
    iDestruct (pointsto_ne with "H Hb") as %[]; done.
Qed.
End wp.

(** ** Tactics

    [wpl H] and [wps H] step over a load and a store of the word [H];
    [wpb] exposes the first computation of a sequence. *)

Ltac wpb := iApply wp_bind.

Tactic Notation "wpl" constr(H) :=
  iApply wp_bind; iApply (wp_load with H); iIntros H.

Tactic Notation "wps" constr(H) :=
  iApply wp_bind; iApply (wp_store with H); iIntros H.

Tactic Notation "wps_last" constr(H) :=
  iApply (wp_store with H); iIntros H.

(** ** The small functions *)

Section helpers.
Context `{!gen_heapGS Z Z Σ}.
Implicit Types (t : tree) (k : path).

Lemma wp_rb_parent a p c Φ : aligned p →
  a ↦ pcw p c -∗ (a ↦ pcw p c -∗ Φ p) -∗ wp (rb_parent a) Φ.
Proof.
  iIntros (Hp) "Ha HΦ". wpl "Ha". rewrite __rb_parent_pcw //. iApply wp_ret. by iApply "HΦ".
Qed.

Lemma wp_rb_is_red a p c Φ : aligned p →
  a ↦ pcw p c -∗ (a ↦ pcw p c -∗ Φ (bool_decide (c = Red))) -∗ wp (rb_is_red a) Φ.
Proof.
  iIntros (Hp) "Ha HΦ". wpl "Ha". rewrite __rb_is_red_pcw //. iApply wp_ret. by iApply "HΦ".
Qed.

Lemma wp_rb_is_black a p c Φ : aligned p →
  a ↦ pcw p c -∗ (a ↦ pcw p c -∗ Φ (bool_decide (c = Black))) -∗ wp (rb_is_black a) Φ.
Proof.
  iIntros (Hp) "Ha HΦ". wpl "Ha". rewrite __rb_is_black_pcw //. iApply wp_ret. by iApply "HΦ".
Qed.

Lemma wp_set_parent_color a pc q c Φ :
  a ↦ pc -∗ (a ↦ pcw q c -∗ Φ tt) -∗ wp (rb_set_parent_color a q (col c)) Φ.
Proof. iIntros "Ha HΦ". by iApply (wp_store with "Ha"). Qed.

Lemma wp_set_black a p c Φ :
  a ↦ pcw p c -∗ (a ↦ pcw p Black -∗ Φ tt) -∗ wp (rb_set_black a) Φ.
Proof.
  iIntros "Ha HΦ". wpl "Ha". rewrite pcw_set_black. wps_last "Ha". by iApply "HΦ".
Qed.

Lemma wp_set_parent a p c q Φ : aligned p →
  a ↦ pcw p c -∗ (a ↦ pcw q c -∗ Φ tt) -∗ wp (rb_set_parent a q) Φ.
Proof.
  iIntros (Hp) "Ha HΦ". wpl "Ha". rewrite pcw_set_parent //. wps_last "Ha". by iApply "HΦ".
Qed.

(** The same on the root of a subtree. *)

Lemma wp_paint par t q c Φ : t ≠ E →
  tree_at par t -∗ (tree_at q (paint c t) -∗ Φ tt) -∗
  wp (rb_set_parent_color (addr t) q (col c)) Φ.
Proof.
  iIntros (Ht) "Ht HΦ". destruct t as [|c' l a r]; [done|]. simpl.
  iDestruct "Ht" as "(%Ha & (Ha & Hx & Hy) & Hl & Hr)".
  iApply (wp_set_parent_color with "Ha"). iIntros "Ha". iApply "HΦ". by iFrame.
Qed.

Lemma wp_when_paint par t q c Φ :
  tree_at par t -∗ (tree_at q (paint c t) -∗ Φ tt) -∗
  wp (when (nonnull (addr t)) (rb_set_parent_color (addr t) q (col c))) Φ.
Proof.
  iIntros "Ht HΦ". iDestruct (tree_at_addr with "Ht") as %[_ ->].
  case_bool_decide as Ht; simpl.
  - subst. iApply wp_ret. by iApply "HΦ".
  - iApply (wp_paint _ _ _ _ _ Ht with "Ht HΦ").
Qed.

Lemma wp_reparent par t q Φ : aligned par → t ≠ E →
  tree_at par t -∗ (tree_at q t -∗ Φ tt) -∗ wp (rb_set_parent (addr t) q) Φ.
Proof.
  iIntros (Hp Ht) "Ht HΦ". destruct t as [|c' l a r]; [done|]. simpl.
  iDestruct "Ht" as "(%Ha & (Ha & Hx & Hy) & Hl & Hr)".
  iApply (wp_set_parent with "Ha"); [done|]. iIntros "Ha". iApply "HΦ". by iFrame.
Qed.

Lemma wp_when_reparent par t q Φ : aligned par →
  tree_at par t -∗ (tree_at q t -∗ Φ tt) -∗
  wp (when (nonnull (addr t)) (rb_set_parent (addr t) q)) Φ.
Proof.
  iIntros (Hp) "Ht HΦ". iDestruct (tree_at_addr with "Ht") as %[_ ->].
  case_bool_decide as Ht; simpl.
  - subst. iApply wp_ret. by iApply "HΦ".
  - iApply (wp_reparent _ _ _ _ Hp Ht with "Ht HΦ").
Qed.

Lemma wp_present_red par t Φ : aligned par →
  tree_at par t -∗ (tree_at par t -∗ Φ (is_red t)) -∗ wp (present_red (addr t)) Φ.
Proof.
  iIntros (Hp) "Ht HΦ". iDestruct (tree_at_addr with "Ht") as %[_ Hn].
  unfold present_red. rewrite Hn. destruct t as [|c l a r]; simpl.
  - iApply wp_ret. by iApply "HΦ".
  - iDestruct "Ht" as "(%Ha & (Ha & Hx & Hy) & Hl & Hr)".
    iApply (wp_rb_is_red with "Ha"); [done|]. iIntros "Ha".
    destruct c; iApply "HΦ"; by iFrame.
Qed.

Lemma wp_tree_is_red par t Φ : aligned par → t ≠ E →
  tree_at par t -∗ (tree_at par t -∗ Φ (is_red t)) -∗ wp (rb_is_red (addr t)) Φ.
Proof.
  iIntros (Hp Hne) "Ht HΦ". iDestruct (tree_at_addr with "Ht") as %[_ Hn].
  iDestruct (wp_present_red with "Ht HΦ") as "H"; [done|]. unfold present_red.
  rewrite Hn. by rewrite bool_decide_false.
Qed.

Lemma wp_absent_or_black par t Φ : aligned par →
  tree_at par t -∗ (tree_at par t -∗ Φ (negb (is_red t))) -∗
  wp (absent_or_black (addr t)) Φ.
Proof.
  iIntros (Hp) "Ht HΦ". iDestruct (tree_at_addr with "Ht") as %[_ Hn].
  unfold absent_or_black. rewrite Hn. destruct t as [|c l a r]; simpl.
  - iApply wp_ret. by iApply "HΦ".
  - iDestruct "Ht" as "(%Ha & (Ha & Hx & Hy) & Hl & Hr)".
    iApply (wp_rb_is_black with "Ha"); [done|]. iIntros "Ha".
    destruct c; iApply "HΦ"; by iFrame.
Qed.

(** The pointer at the end of a path. *)
Lemma wp_change_child root k old new pc Φ : ptr_ok old →
  old ↦ pc -∗ path_at root k old -∗ (old ↦ pc -∗ path_at root k new -∗ Φ tt) -∗
  wp (__rb_change_child old new (up k) root) Φ.
Proof.
  iIntros (Ho) "Ho Hk HΦ". unfold __rb_change_child. destruct k as [|[d c a s] k]; simpl.
  { iApply (wp_store with "Hk"). iApply ("HΦ" with "Ho"). }
  iDestruct "Hk" as "(%Ha & (Ha & Hx & Hy) & Hs & Hk)". rewrite ptr_ok_nonnull //.
  iDestruct (tree_at_ne with "Ho Hs") as %Hne; [done|]. destruct d; simpl.
  - wpl "Hx". rewrite Z.eqb_refl. wps_last "Hx". iApply ("HΦ" with "Ho"). by iFrame.
  - wpl "Hy". rewrite (proj2 (Z.eqb_neq _ _) Hne). wps_last "Hx". iApply ("HΦ" with "Ho"). by iFrame.
Qed.

Lemma wp_rotate_set_parents root k old new c pc cd Φ : ptr_ok old →
  old ↦ pcw (up k) c -∗ new ↦ pc -∗ path_at root k old -∗
  (old ↦ pcw new cd -∗ new ↦ pcw (up k) c -∗ path_at root k new -∗ Φ tt) -∗
  wp (__rb_rotate_set_parents old new root (col cd)) Φ.
Proof.
  iIntros (Ho) "Ho Hn Hk HΦ". iDestruct (path_at_up with "Hk") as %Hu.
  wpb. iApply (wp_rb_parent with "Ho"); [done|]. iIntros "Ho". wpl "Ho". wps "Hn". wpb.
  iApply (wp_set_parent_color with "Ho"). iIntros "Ho".
  iApply (wp_change_child with "Ho Hk"); [done|]. iIntros "Ho Hk".
  iApply ("HΦ" with "Ho Hn Hk").
Qed.
End helpers.

(** ** Back to memories *)

Section words.
Context `{!gen_heapGS Z Z Σ}.

Definition words (h : mem) : iProp Σ := [∗ map] a ↦ v ∈ h, pointsto a (DfracOwn 1) v.

Lemma words_valid σ h : gen_heap_interp σ -∗ words h -∗ ⌜h ⊆ σ⌝.
Proof.
  iIntros "Hσ Hh". iApply bi.pure_mono; [apply (proj2 (map_subseteq_spec h σ))|].
  iIntros (a v Ha). iDestruct (big_sepM_lookup with "Hh") as "Ha"; [done|].
  iApply (gen_heap_valid with "Hσ Ha").
Qed.

Lemma words_disjoint h1 h2 : words h1 -∗ words h2 -∗ ⌜h1 ##ₘ h2⌝.
Proof.
  iIntros "H1 H2". iApply bi.pure_mono; [apply (proj2 (map_disjoint_spec h1 h2))|].
  iIntros (a v w H1 H2). iDestruct (big_sepM_lookup with "H1") as "Hv"; [done|].
  iDestruct (big_sepM_lookup with "H2") as "Hw"; [done|].
  iDestruct (pointsto_ne with "Hv Hw") as %[]; done.
Qed.

Lemma words_union h1 h2 : h1 ##ₘ h2 → words (h1 ∪ h2) ⊣⊢ words h1 ∗ words h2.
Proof. apply big_sepM_union. Qed.
End words.

(** A specification of [m] over the words [h], in any memory that holds them
    and the words [hf] besides: [m] ends, and leaves the words [hf] alone. *)
Lemma wp_adequate {A} (m : M mem A) (σ h hf : mem) (φ : A → mem → Prop) :
  (∀ (H : gen_heapGS Z Z (gen_heapΣ Z Z)),
     words h ⊢ wp m (λ v, ∃ h', ⌜φ v h'⌝ ∗ words h')) →
  h ##ₘ hf → h ∪ hf ⊆ σ →
  ∃ v σ' h', m σ = Some (v, σ') ∧ dom σ' = dom σ ∧ φ v h' ∧ h' ##ₘ hf ∧ h' ∪ hf ⊆ σ'.
Proof.
  intros Hwp Hd Hsub.
  apply (pure_soundness (PROP := iPropI (gen_heapΣ Z Z))), (uPred.bupd_soundness _).
  iMod (gen_heap_init σ) as (Hheap) "(Hσ & Hmap & _)".
  iDestruct (big_sepM_subseteq with "Hmap") as "Hmap"; [exact Hsub|].
  iDestruct (words_union with "Hmap") as "[Hh Hf]"; [done|].
  iMod (Hwp with "Hh Hσ") as (v σ') "([%Hm %Hdom] & Hσ & %h' & %Hφ & Hh)". iModIntro.
  iDestruct (words_disjoint with "Hh Hf") as %Hd'.
  iDestruct (words_valid with "Hσ Hh") as %H1. iDestruct (words_valid with "Hσ Hf") as %H2.
  iPureIntro. exists v, σ', h'. do 4 (split; [done|]). by apply map_union_least.
Qed.
