(* ===== verification/RbRefine.v ===== *)
(** * The code of rbtree.c computes the functions of RbTree.v

    Specifications of insertion, removal and traversal over the assertions of
    RbSep.v: with a red-black tree in memory the functions end, touch nothing
    but the nodes of the tree, and leave the tree that RbTree.v computes. *)

From Stdlib Require Import ZArith Lia.
From stdpp Require Import base numbers list gmap option.
From iris.proofmode Require Import proofmode.
From iris.base_logic Require Import base_logic lib.gen_heap.
From S2P Require Import Prelude RbCode RbTree RbSep.

Open Scope Z_scope.

(** [augment_rotate] of the trees that are not augmented. *)
Abbreviation no_rotate := (rotate dummy_callbacks).

Section insert.
Context `{!gen_heapGS Z Z Σ}.
Implicit Types (t x y s u : tree) (k : path).

(** A node whose packed word is to be written; the parent of its child [y] is
    still [q]. *)
Definition open_at (a : Z) (d : side) (x y : tree) (q : Z) : iProp Σ :=
  ⌜ptr_ok a⌝ ∗ (∃ pc, node_at a pc d (addr x) (addr y)) ∗ tree_at a x ∗ tree_at q y.

Lemma wp_insert_case1 root k d df p s g t u Φ : u ≠ E →
  tree_at p t -∗ path_at root (F df Red p s :: F d Black g u :: k) (addr t) -∗
  (let t' := mk d Red (paint Black (plug t (F df Red p s))) g (paint Black u) in
   tree_at (up k) t' -∗ path_at root k (addr t') -∗ Φ (g, up k)) -∗
  wp (insert_case1 p g (addr u)) Φ.
Proof.
  iIntros (Hu) "Ht (%Hp & (Hp & Hpx & Hpy) & Hs & %Hg & (Hg & Hgx & Hgy) & Hu & Hk) HΦ".
  iDestruct (path_at_up with "Hk") as %Hup.
  wpb. iApply (wp_paint _ _ _ Black with "Hu"); [done|]. iIntros "Hu".
  wpb. iApply (wp_set_parent_color _ _ _ Black with "Hp"). iIntros "Hp".
  wpb. iApply (wp_rb_parent with "Hg"); [done|]. iIntros "Hg".
  wpb. iApply (wp_set_parent_color _ _ _ Red with "Hg"). iIntros "Hg".
  iApply wp_ret. unfold plug; simpl. rewrite paint_mk addr_mk.
  iApply ("HΦ" with "[-Hk] Hk"). rewrite !tree_at_mk !addr_mk.
  destruct u; [done|]. by iFrame.
Qed.

Lemma wp_insert_case2 d p pc s x a y Φ : is_red x = false → ptr_ok p →
  node_at p pc (opp d) a (addr s) -∗ tree_at p s -∗ tree_at p (mk d Red x a y) -∗
  (open_at a d (mk d Red s p x) y a -∗ Φ (a, addr y)) -∗
  wp (insert_case2 no_rotate d a p) Φ.
Proof.
  iIntros (Hx Hp) "(Hp & Hpx & Hpy) Hs Ht HΦ". rewrite tree_at_mk opp_opp.
  iDestruct "Ht" as "(%Ha & (Ha & Hax & Hay) & Hx & Hy)".
  wpl "Hax". wps "Hpx". wps "Hax".
  wpb. iApply (wp_when_paint _ _ _ Black with "Hx"). iIntros "Hx".
  rewrite paint_black_id //.
  wpb. iApply (wp_set_parent_color _ _ _ Red with "Hp"). iIntros "Hp".
  wpb. iApply wp_ret. wpl "Hay". iApply wp_ret. iApply "HΦ".
  unfold open_at. rewrite tree_at_mk addr_mk. by iFrame.
Qed.

Lemma wp_insert_case3 root d c g u k q b x y Φ : is_red y = false →
  open_at b d x y b -∗ path_at root (F d c g u :: k) q -∗
  (root_at root (fill (mk d c x b (mk d Red y g u)) k) -∗ Φ tt) -∗
  wp (insert_case3 no_rotate d b g (addr y) root) Φ.
Proof.
  iIntros (Hy) "(%Hb & (%pc & Hb & Hbx & Hby) & Hx & Hy) (%Hg & (Hg & Hgx & Hgy) & Hu & Hk) HΦ".
  wps "Hgx". wps "Hby". wpb. iApply (wp_when_paint _ _ _ Black with "Hy"). iIntros "Hy".
  rewrite paint_black_id //.
  wpb. iApply (wp_rotate_set_parents _ _ _ _ _ _ Red with "Hg Hb Hk"); [done|].
  iIntros "Hg Hb Hk". iApply wp_ret. iApply "HΦ". rewrite -path_at_fill addr_mk.
  rewrite !tree_at_mk !addr_mk. by iFrame.
Qed.

(** The body of the loop below a red parent. *)
Lemma wp_insert_side root n d df p s cu g u k t Φ :
  rb Red n t → rb Black n s → rb cu n u →
  tree_at p t -∗ path_at root (F df Red p s :: F d Black g u :: k) (addr t) -∗
  (if is_red u then
     let t' := mk d Red (paint Black (plug t (F df Red p s))) g (paint Black u) in
     tree_at (up k) t' -∗ path_at root k (addr t') -∗ Φ (Some (g, up k))
   else root_at root (ins_fix t (F df Red p s :: F d Black g u :: k)) -∗ Φ None) -∗
  wp (insert_side no_rotate d (addr t) p g (addr u) root) Φ.
Proof.
  iIntros (Ht Hs Hu) "Ht (%Hp & Hpn & Hs & %Hg & Hgn & Hu & Hk) HΦ".
  wpb. iApply (wp_present_red with "Hu"); [by apply ptr_ok_aligned|]. iIntros "Hu".
  simpl ins_fix. destruct (is_red u) eqn:Hru.
  { wpb. iApply (wp_insert_case1 _ _ d df _ s with "Ht [-HΦ]").
    { by intros ->. }
    { by iFrame. }
    iIntros "Ht Hk". iApply wp_ret. iApply ("HΦ" with "Ht Hk"). }
  case_decide as Hd; subst.
  - destruct (rb_red_inv d _ _ Ht) as (x & a & y & -> & Hx & Hy). rewrite addr_mk.
    iDestruct "Hpn" as "(Hp & Hpx & Hpy)". wpl "Hpy".
    iAssert ⌜addr s ≠ a⌝%I as %Hne.
    { rewrite tree_at_mk. iDestruct "Ht" as "(%Ha & (Ha & _) & _)".
      iApply (tree_at_ne with "Ha Hs"); done. }
    rewrite (proj2 (Z.eqb_neq _ _)); [|done]. wpb. iApply wp_ret. simpl. wpb.
    iApply (wp_insert_case3 _ d Black _ u k p _ (mk d Red x a y)
              with "[Hp Hpx Hpy Hs Ht] [Hgn Hu Hk]").
    { by rewrite (rb_is_red_eq _ _ _ Hs). }
    { unfold open_at. rewrite addr_mk. by iFrame. }
    { by iFrame. }
    iIntros "H". iApply wp_ret. iApply "HΦ". unfold plug; simpl. by rewrite rot_to_mk.
  - assert (df = opp d) as -> by (by destruct df, d).
    destruct (rb_red_inv d _ _ Ht) as (x & a & y & -> & Hx & Hy). rewrite addr_mk.
    iDestruct "Hpn" as "(Hp & Hpx & Hpy)". wpl "Hpx". rewrite Z.eqb_refl. wpb.
    iApply (wp_insert_case2 with "[$Hp $Hpx $Hpy] Hs Ht").
    { by rewrite (rb_is_red_eq _ _ _ Hx). }
    { done. }
    iIntros "Hn". simpl. wpb.
    iApply (wp_insert_case3 _ d Black _ u k p _ (mk d Red s p x) with "Hn [Hgn Hu Hk]").
    { by rewrite (rb_is_red_eq _ _ _ Hy). }
    { by iFrame. }
    iIntros "H". iApply wp_ret. iApply "HΦ". by rewrite rot_to_opp_mk rot_to_mk.
Qed.

(** The test that finds the side of the child [q] of the node [g], and the
    other child [y]; shared by insertion and removal. *)
Lemma wp_sides {A B} (body : side → Z → M mem A) (K : A → M mem B) d g pc (q y : Z) Φ :
  y ≠ q →
  node_at g pc d q y -∗
  (node_at g pc d q y -∗ wp (body d y) (λ v, wp (K v) Φ)) -∗
  wp (let* tmp := load (rb_right g) in
      let* next := (if negb (q =? tmp) then body L tmp
                    else let* tmp := load (rb_left g) in body R tmp) in
      K next) Φ.
Proof.
  iIntros (Hne) "(Hg & Hx & Hy) H". destruct d; simpl.
  - wpl "Hy". rewrite (proj2 (Z.eqb_neq q y)) //. wpb. iApply ("H" with "[$]").
  - wpl "Hx". rewrite Z.eqb_refl. wpb. simpl. wpl "Hy". iApply ("H" with "[$]").
Qed.

Lemma wp_insert_loop root fuel n t k a Φ : rb Red n t → rb_path Black n k →
  (length k < fuel)%nat → a = addr t →
  tree_at (up k) t -∗ path_at root k (addr t) -∗
  (root_at root (ins_fix t k) -∗ Φ tt) -∗
  wp (insert_loop no_rotate fuel a (up k) root) Φ.
Proof.
  iIntros (Ht Hk Hf Ha) "Ht Hk HΦ".
  iInduction fuel as [|fuel] "IH" forall (n t k a Ht Hk Hf Ha); [lia|]. subst a.
  destruct k as [|[df [] p s] k]; cbn [insert_loop up f_addr].
  { iApply (wp_paint _ _ _ Black with "Ht"); [by eapply rb_red_nonempty|].
    iIntros "Ht". iApply "HΦ". simpl. iFrame. by destruct t. }
  - apply rb_path_red_inv in Hk as (_ & Hs & Hk).
    apply rb_path_red_cons in Hk as (d & g & u & k2 & cu & -> & Hu & Hk2). simpl in Hf.
    iDestruct "Hk" as "(%Hp & (Hp & Hpc) & Hs & %Hg & Hg & Hu & Hk)".
    rewrite ptr_ok_nonnull //. wpb.
    iApply (wp_rb_is_black with "Hp"); [by apply ptr_ok_aligned|]. iIntros "Hp".
    simpl up. wpl "Hp". rewrite pcw_red.
    iDestruct (tree_at_ne with "Hp Hu") as %Hne; [done|].
    iApply (wp_sides (λ d tmp, insert_side no_rotate d (addr t) p g tmp root) with "Hg");
      [done|]. iIntros "Hg".
    iApply (wp_insert_side _ _ _ df _ s _ _ _ k2 with "Ht [-HΦ]"); [done..| |].
    { simpl. rewrite pcw_red. by iFrame. }
    cbn [ins_fix f_col f_side f_sib]. destruct (is_red u) eqn:Hru.
    + iIntros "Ht Hk". iApply ("IH" with "[%] [%] [%] [%] Ht Hk HΦ");
        [by eapply ins_flip_rb|done|lia|by rewrite addr_mk].
    + iIntros "H". iApply wp_ret. by iApply "HΦ".
  - iDestruct "Hk" as "(%Hp & (Hp & Hpc) & Hs & Hk)".
    iDestruct (path_at_up with "Hk") as %Hup. rewrite ptr_ok_nonnull //. wpb.
    iApply (wp_rb_is_black with "Hp"); [done|]. iIntros "Hp". iApply wp_ret.
    iApply "HΦ". iApply (path_at_fill root (F df Black p s :: k)). by iFrame.
Qed.

(** [rb_link_node] under the path [k], where there is no tree yet, followed by
    [rb_insert_color]; [a] is the new node and [link] the pointer to it. *)
Definition link_of (root : Z) (k : path) : Z :=
  match k with [] => root | f :: _ => child_at (f_side f) (f_addr f) end.

Definition fresh_at (a : Z) : iProp Σ := ∃ pc p q : Z, node_at a pc L p q.

Lemma wp_link_node root k a Φ : ptr_ok a →
  fresh_at a -∗ path_at root k NULL -∗
  (tree_at (up k) (T Red E a E) -∗ path_at root k a -∗ Φ tt) -∗
  wp (rb_link_node a (up k) (link_of root k)) Φ.
Proof.
  iIntros (Ha) "(%pc & %x & %y & Ha & Hx & Hy) Hk HΦ". wps "Ha". wps "Hy". wps "Hx".
  rewrite -{2}(pcw_red (up k)). destruct k as [|[d c p s] k]; simpl.
  - wps_last "Hk". iApply ("HΦ" with "[-Hk] Hk"). by iFrame.
  - iDestruct "Hk" as "(%Hp & (Hp & Hpx & Hpy) & Hs & Hk)".
    wps_last "Hpx". iApply ("HΦ" with "[Ha Hx Hy]"); by iFrame.
Qed.

Lemma wp_insert_color root k a Φ : rb_path Black 0 k → (length k < rb_fuel)%nat →
  tree_at (up k) (T Red E a E) -∗ path_at root k a -∗
  (root_at root (ins_fix (T Red E a E) k) -∗ Φ tt) -∗
  wp (rb_insert_color a root) Φ.
Proof.
  iIntros (Hk Hf) "(%Ha & (Ha & Hx & Hy) & _) Hk HΦ". unfold rb_insert_color, __rb_insert.
  wpl "Ha". rewrite pcw_red.
  iApply (wp_insert_loop _ _ 0 (T Red E a E) with "[Ha Hx Hy] Hk HΦ"); [auto with rbt|done..|].
  simpl. rewrite pcw_red. by iFrame.
Qed.
End insert.

Section erase_color.
Context `{!gen_heapGS Z Z Σ}.
Implicit Types (t x y z s u : tree) (k : path).

(** The two children of a node differ. *)
Lemma path_at_addr_ne root d c p s k t : s ≠ E →
  tree_at p t -∗ path_at root (F d c p s :: k) (addr t) -∗ ⌜addr s ≠ addr t⌝.
Proof.
  iIntros (Hs) "Ht (_ & _ & Hs & _)". destruct s as [|cs l b r]; [done|].
  iDestruct "Hs" as "(%Hb & (Hb & _) & _)".
  iDestruct (tree_at_ne with "Hb Ht") as %Hne; [done|]. iPureIntro. simpl. congruence.
Qed.

Lemma wp_erase_case1 root d c p x b y t k Φ : is_red x = false → x ≠ E →
  tree_at p t -∗ path_at root (F d c p (mk d Red x b y) :: k) (addr t) -∗
  (tree_at p t -∗ path_at root (F d Red p x :: F d c b y :: k) (addr t) -∗ Φ (addr x)) -∗
  wp (erase_case1 no_rotate d p b root) Φ.
Proof.
  iIntros (Hx Hne) "Ht (%Hp & (Hp & Hpx & Hpy) & Hs & Hk) HΦ". rewrite tree_at_mk.
  iDestruct "Hs" as "(%Hb & (Hb & Hbx & Hby) & Hx & Hy)".
  wpl "Hbx". wps "Hpy". wps "Hbx". wpb.
  iApply (wp_paint _ _ _ Black with "Hx"); [done|]. iIntros "Hx". rewrite paint_black_id //.
  wpb. iApply (wp_rotate_set_parents _ _ _ _ _ _ Red with "Hp Hb Hk"); [done|].
  iIntros "Hp Hb Hk". wpb. iApply wp_ret. iApply wp_ret.
  iApply ("HΦ" with "Ht"). simpl. by iFrame.
Qed.

Lemma wp_erase_case2 root d c p s t k w Φ : s ≠ E → w = addr s →
  tree_at p t -∗ path_at root (F d c p s :: k) (addr t) -∗
  (tree_at (up k) (mk d Black t p (paint Red s)) -∗ path_at root k p -∗
   Φ (if bool_decide (c = Black) && nonnull (up k) then Some (p, up k) else None)) -∗
  wp (erase_case2 p w) Φ.
Proof.
  iIntros (Hne ->) "Ht (%Hp & (Hp & Hpx & Hpy) & Hs & Hk) HΦ".
  iDestruct (path_at_up with "Hk") as %Hup. wpb.
  iApply (wp_paint _ _ _ Red with "Hs"); [done|]. iIntros "Hs". wpb.
  iApply (wp_rb_is_red with "Hp"); [done|]. iIntros "Hp". destruct c; simpl.
  - wpb. iApply (wp_set_black with "Hp"). iIntros "Hp". iApply wp_ret.
    iApply ("HΦ" with "[-Hk] Hk"). rewrite tree_at_mk. destruct s; [done|]. by iFrame.
  - wpb. iApply (wp_rb_parent with "Hp"); [done|]. iIntros "Hp".
    destruct (nonnull (up k)); iApply wp_ret; iApply ("HΦ" with "[-Hk] Hk");
      rewrite tree_at_mk; destruct s; [done| |done|]; by iFrame.
Qed.

Lemma wp_erase_case3 d p pc t (q : Z) x b y a z Φ : is_red y = false → ptr_ok p →
  node_at p pc d (addr t) q -∗ tree_at p (mk d Black (mk d Red x b y) a z) -∗
  (node_at p pc d (addr t) b -∗ open_at b d x (mk d Black y a z) p -∗ Φ (a, b)) -∗
  wp (erase_case3 no_rotate d p a b) Φ.
Proof.
  iIntros (Hy Hp) "(Hp & Hpx & Hpy) Hs HΦ". rewrite !tree_at_mk !addr_mk.
  iDestruct "Hs" as "(%Ha & (Ha & Hax & Haz) & (%Hb & (Hb & Hbx & Hby) & Hx & Hy) & Hz)".
  wpl "Hby". wps "Hax". wps "Hby". wps "Hpy". wpb.
  iApply (wp_when_paint _ _ _ Black with "Hy"). iIntros "Hy". rewrite paint_black_id //.
  wpb. iApply wp_ret. iApply wp_ret. iApply ("HΦ" with "[$Hp $Hpx $Hpy]").
  unfold open_at. rewrite tree_at_mk addr_mk. by iFrame.
Qed.

Lemma wp_erase_case4 root d c p t (q : Z) b x y q' k w Φ : y ≠ E → ptr_ok p →
  w = addr y →
  node_at p (pcw (up k) c) d (addr t) q -∗ tree_at p t -∗ open_at b d x y q' -∗
  path_at root k p -∗
  (root_at root (fill (mk d c (mk d Black t p x) b (paint Black y)) k) -∗ Φ tt) -∗
  wp (erase_case4 no_rotate d p b w root) Φ.
Proof.
  iIntros (Hy Hp ->) "(Hp & Hpx & Hpy) Ht (%Hb & (%pc & Hb & Hbx & Hby) & Hx & Hy) Hk HΦ".
  wpl "Hbx". wps "Hpy". wps "Hbx". wpb.
  iApply (wp_paint _ _ _ Black with "Hy"); [done|]. iIntros "Hy". wpb.
  iApply (wp_when_reparent with "Hx"); [by apply ptr_ok_aligned|]. iIntros "Hx". wpb.
  iApply (wp_rotate_set_parents _ _ _ _ _ _ Black with "Hp Hb Hk"); [done|].
  iIntros "Hp Hb Hk". iApply wp_ret. iApply "HΦ". rewrite -path_at_fill addr_mk.
  rewrite !tree_at_mk !addr_mk. destruct y; [done|]. by iFrame.
Qed.

(** Cases 2 to 4. *)
Lemma wp_erase_black root n d c p s t k Φ : rb Black (S n) s →
  tree_at p t -∗ path_at root (F d c p s :: k) (addr t) -∗
  (let '(t', short) := del_black d c t p s in
   if short && nonnull (up k)
   then ⌜addr t' = p⌝ -∗ tree_at (up k) t' -∗ path_at root k p -∗ Φ (Some (p, up k))
   else root_at root (fill t' k) -∗ Φ None) -∗
  wp (erase_black no_rotate d p (addr s) root) Φ.
Proof.
  iIntros (Hs) "Ht (%Hp & Hpn & Hs & Hk) HΦ".
  destruct (rb_black_inv d _ _ Hs) as (cx & x & a & cy & y & -> & Hx & Hy).
  rewrite tree_at_mk addr_mk. iDestruct "Hs" as "(%Ha & (Ha & Hax & Hay) & Hx & Hy)".
  pose proof (ptr_ok_aligned _ Ha) as Hal.
  wpl "Hay". wpb. iApply (wp_absent_or_black with "Hy"); [done|]. iIntros "Hy".
  unfold del_black. rewrite sub_opp_mk sub_mk addr_mk.
  destruct (is_red y) eqn:Hry; simpl.
  { wpb. iApply (wp_erase_case4 _ _ _ _ _ _ _ x y a with "Hpn Ht [Ha Hax Hay Hx Hy] Hk");
      [by intros ->|done..| |].
    { unfold open_at. by iFrame. }
    iIntros "H". iApply wp_ret. iApply "HΦ". by rewrite rot_to_opp_mk. }
  wpl "Hax". wpb. iApply (wp_absent_or_black with "Hx"); [done|]. iIntros "Hx".
  iAssert (tree_at p (mk d Black x a y)) with "[Ha Hax Hay Hx Hy]" as "Hs".
  { rewrite tree_at_mk. by iFrame. }
  destruct (is_red x) eqn:Hrx; simpl.
  - assert (cx = Red) as -> by (rewrite (rb_is_red_eq _ _ _ Hx) in Hrx;
      by apply bool_decide_eq_true in Hrx).
    destruct (rb_red_inv d _ _ Hx) as (xx & b & xy & -> & Hxx & Hxy).
    rewrite !addr_mk rot_to_mk. wpb. iApply (wp_erase_case3 with "Hpn Hs"); [|done|].
    { by rewrite (rb_is_red_eq _ _ _ Hxy). }
    iIntros "Hpn Hb". simpl. wpb.
    iApply (wp_erase_case4 with "Hpn Ht Hb Hk"); [by destruct d|done|by rewrite addr_mk|].
    iIntros "H". iApply wp_ret. iApply "HΦ".
    by rewrite sub_opp_mk sub_mk addr_mk rot_to_opp_mk !paint_mk.
  - iApply (wp_erase_case2 _ _ _ _ (mk d Black x a y) with "Ht [-HΦ]");
      [by destruct d|by rewrite addr_mk|simpl; rewrite addr_mk; by iFrame|].
    iIntros "Ht Hk". destruct (bool_decide (c = Black) && nonnull (up k)).
    + iApply ("HΦ" with "[%] Ht Hk"). by rewrite addr_mk.
    + iApply "HΦ". rewrite -path_at_fill addr_mk. by iFrame.
Qed.

Lemma wp_erase_side root n d c0 c p s t k Φ :
  rb_path c0 (S n) (F d c p s :: k) →
  tree_at p t -∗ path_at root (F d c p s :: k) (addr t) -∗
  (let '(t', short) := del_black d c t p s in
   if negb (is_red s) && (short && nonnull (up k))
   then ⌜addr t' = p⌝ -∗ tree_at (up k) t' -∗ path_at root k p -∗ Φ (Some (p, up k))
   else root_at root (del_fix t (F d c p s :: k)) -∗ Φ None) -∗
  wp (erase_side no_rotate d p (addr s) root) Φ.
Proof.
  iIntros (Hk) "Ht Hk HΦ". assert (∃ cs, rb cs (S n) s) as [cs Hs] by (inversion Hk; eauto).
  iDestruct "Hk" as "(%Hp & Hpn & Hs & Hk)".
  iDestruct (path_at_nonnull with "Hk") as %Hn. wpb.
  iApply (wp_tree_is_red with "Hs"); [by apply ptr_ok_aligned|by eapply rb_S_nonempty|].
  iIntros "Hs". cbn [del_fix]. destruct (is_red s) eqn:Hr; rewrite (rb_is_red_eq _ _ _ Hs) in Hr.
  - apply bool_decide_eq_true in Hr as ->.
    destruct (rb_red_inv d _ _ Hs) as (x & b & y & -> & Hx & Hy).
    rewrite sub_mk sub_opp_mk addr_mk. wpb.
    iApply (wp_erase_case1 _ d c p x b y t k with "Ht [Hpn Hs Hk]").
    { by rewrite (rb_is_red_eq _ _ _ Hx). }
    { by eapply rb_S_nonempty. }
    { rewrite /= addr_mk. by iFrame. }
    iIntros "Ht Hk". iApply (wp_erase_black with "Ht Hk"); [done|].
    pose proof (del_black_red d t p x) as Hsh. destruct (del_black d Red t p x) as [t' b'].
    simpl in Hsh. subst b'. simpl. destruct (del_black d c t p _). iApply "HΦ".
  - destruct cs; [done|]. wpb. iApply wp_ret.
    iApply (wp_erase_black with "Ht [-HΦ]"); [done|by iFrame|].
    rewrite Hn. destruct (del_black d c t p s) as [t' []], k; simpl; iApply "HΦ".
Qed.

Lemma wp_erase_loop root fuel n c0 d c p s t k a Φ :
  rb Black n t → rb_path c0 (S n) (F d c p s :: k) → (S (length k) ≤ fuel)%nat →
  a = addr t →
  tree_at p t -∗ path_at root (F d c p s :: k) (addr t) -∗
  (root_at root (del_fix t (F d c p s :: k)) -∗ Φ tt) -∗
  wp (erase_loop no_rotate fuel a p root) Φ.
Proof.
  iIntros (Ht Hk Hf Ha) "Ht Hk HΦ".
  iInduction fuel as [|fuel] "IH" forall (n c0 d c p s t k a Ht Hk Hf Ha); [lia|]. subst a.
  assert (∃ cs, rb cs (S n) s) as [cs Hs] by (inversion Hk; eauto).
  iDestruct (path_at_addr_ne with "Ht Hk") as %Hne; [by eapply rb_S_nonempty|].
  iDestruct "Hk" as "(%Hp & Hpn & Hs & Hk)". cbn [erase_loop].
  iApply (wp_sides (λ d sibling, erase_side no_rotate d p sibling root) with "Hpn"); [done|].
  iIntros "Hpn". iApply (wp_erase_side with "Ht [-HΦ]"); [done|by iFrame|].
  destruct (del_black d c t p s) as [t' short] eqn:Hd.
  destruct (negb (is_red s) && (short && nonnull (up k))) eqn:Hc.
  - apply andb_true_iff in Hc as [Hr [-> Hn]%andb_true_iff].
    iIntros (Ha) "Ht Hk". destruct k as [|[d' c' p' s'] k]; [done|].
    apply negb_true_iff in Hr. pose proof (rb_black_S _ _ _ Hs Hr) as Hs'.
    destruct (del_black_rb _ _ _ _ _ _ _ _ Ht Hs' Hd) as [-> Ht'].
    apply rb_path_black_inv in Hk as (_ & _ & Hk).
    iApply ("IH" with "[%] [%] [%] [%] Ht [Hk] [HΦ]"); [done..|simpl in *; lia|done| |].
    + by rewrite Ha.
    + iIntros "H". iApply "HΦ". cbn [del_fix] in *. by rewrite Hr Hd.
  - iIntros "H". iApply wp_ret. by iApply "HΦ".
Qed.

End erase_color.
