(* ===== verification/RbErase.v ===== *)
(** * Removal of a node computes [erase_at]

    [__rb_erase_augmented] and [rb_erase] over the assertions of RbSep.v. *)

From Stdlib Require Import ZArith Lia.
From stdpp Require Import base numbers list gmap option.
From iris.proofmode Require Import proofmode.
From iris.base_logic Require Import base_logic lib.gen_heap.
From S2P Require Import Prelude RbCode RbTree RbSep RbRefine.

Open Scope Z_scope.

Section erase.
Context `{!gen_heapGS Z Z Σ}.
Implicit Types (t x y z s u l r : tree) (k kr : path).

(** The parent pointer at the end of a path that starts below [q]. *)
Definition up_to (q : Z) (kr : path) : Z := match kr with [] => q | f :: _ => f_addr f end.

(** A path from the pointer [p] up to the node [top], whose parent is [q]. *)
Fixpoint seg_at (q : Z) (kr : path) (p top : Z) : iProp Σ :=
  match kr with
  | [] => ⌜top = p⌝
  | F d c a s :: kr =>
      ⌜ptr_ok a⌝ ∗ node_at a (pcw (up_to q kr) c) d p (addr s) ∗ tree_at a s ∗
      seg_at q kr a top
  end.

Lemma up_to_app kr k : up (kr ++ k) = up_to (up k) kr.
Proof. by destruct kr. Qed.

Lemma seg_at_path root kr k p top :
  seg_at (up k) kr p top -∗ path_at root k top -∗ path_at root (kr ++ k) p.
Proof.
  iIntros "Hs Hk". iInduction kr as [|[d c a s] kr] "IH" forall (p); simpl.
  { by iDestruct "Hs" as %->. }
  iDestruct "Hs" as "($ & Ha & $ & Hs)". rewrite up_to_app. iFrame "Ha".
  iApply ("IH" with "Hs Hk").
Qed.

Lemma seg_at_up q kr p top : aligned q → seg_at q kr p top ⊢ ⌜aligned (up_to q kr)⌝.
Proof.
  intros Hq. destruct kr as [|[d c a s] kr]; simpl; [by iIntros "_"|].
  iIntros "(%Ha & _)". iPureIntro. by apply ptr_ok_aligned.
Qed.

(** The node at the top gets another parent. *)
Lemma wp_seg_reparent q q' f kr p top Φ : aligned q →
  seg_at q (f :: kr) p top -∗ (seg_at q' (f :: kr) p top -∗ Φ tt) -∗
  wp (rb_set_parent top q') Φ.
Proof.
  iIntros (Hq) "Hs HΦ". iInduction kr as [|g kr] "IH" forall (f p);
    destruct f as [d c a s]; iDestruct "Hs" as "(%Ha & (Ha & Hac) & Hs & Hk)".
  - iDestruct "Hk" as %->. iApply (wp_set_parent with "Ha"); [done|]. iIntros "Ha".
    iApply "HΦ". simpl. by iFrame.
  - iApply ("IH" with "Hk"). iIntros "Hk". iApply "HΦ". by iFrame.
Qed.

Lemma wp_successor_loop q fuel c l b r f kr top Φ : aligned q → (height l < fuel)%nat →
  tree_at (f_addr f) (T c l b r) -∗ seg_at q (f :: kr) b top -∗
  (let '(cs, s, sr, kr') := leftmost c l b r (f :: kr) in
   tree_at (up_to q kr') (T cs E s sr) -∗ seg_at q kr' s top -∗ Φ (up_to q kr', s)) -∗
  wp (successor_loop fuel (f_addr f) b) Φ.
Proof.
  iIntros (Hq Hf) "Ht Hk HΦ".
  iInduction fuel as [|fuel] "IH" forall (c l b r f kr Hf); [lia|]. simpl.
  iDestruct "Ht" as "(%Hb & (Hb & Hbx & Hby) & Hl & Hr)". wpl "Hbx".
  destruct l as [|cl ll bl lr]; simpl.
  - iApply wp_ret. iApply ("HΦ" with "[-Hk] Hk"). by iFrame.
  - iAssert ⌜ptr_ok bl⌝%I as %Hbl; [by iDestruct "Hl" as "($ & _)"|].
    rewrite ptr_ok_nonnull //. simpl in Hf.
    iApply ("IH" $! cl ll bl lr (F L c b r) (f :: kr) with "[%] Hl [-HΦ] HΦ"); [lia|].
    simpl. by iFrame.
Qed.

(** The successor, taken out of the right subtree. *)
Lemma wp_erase_successor a cr rl b rr Φ : (height rl < rb_fuel)%nat → ptr_ok a →
  tree_at a (T cr rl b rr) -∗
  (let '(cs, s, sr, kr) := leftmost cr rl b rr [] in
   ∀ q top, ⌜ptr_ok s⌝ -∗ ⌜aligned q⌝ -∗ node_at s (pcw q cs) L NULL top -∗ tree_at s sr -∗
     seg_at s kr (addr sr) top -∗ Φ (s, up_to s kr, addr sr)) -∗
  wp (erase_successor dummy_callbacks a b) Φ.
Proof.
  iIntros (Hf Ha) "(%Hb & (Hb & Hbx & Hby) & Hl & Hr) HΦ". unfold erase_successor.
  wpl "Hbx". destruct rl as [|cl ll bl lr]; simpl addr.
  - wpl "Hby". wpb. iApply wp_ret. iApply wp_ret.
    iApply ("HΦ" with "[%] [%] [$Hb $Hbx $Hby] Hr [%]"); [done|by apply ptr_ok_aligned|done].
  - iAssert ⌜ptr_ok bl⌝%I as %Hbl; [by iDestruct "Hl" as "($ & _)"|].
    rewrite ptr_ok_nonnull //. simpl in Hf. wpb.
    iApply (wp_successor_loop a _ _ _ _ _ (F L cr b rr) [] b with "Hl [-HΦ]");
      [by apply ptr_ok_aligned|lia|simpl; by iFrame|].
    simpl leftmost. destruct (leftmost cl ll bl lr [F L cr b rr]) as [[[cs s] sr] kr] eqn:Hl.
    destruct (leftmost_cons _ _ _ _ (F L cr b rr) _ _ _ _ eq_refl Hl) as (cg & g & sg & kr' & ->).
    iIntros "(%Hs & (Hs & Hsx & Hsy) & _ & Hsr) (%Hg & (Hg & Hgx & Hgy) & Hsg & Hk)". simpl up_to.
    wpl "Hsy". wps "Hgx". wps "Hsy". wpb.
    iApply (wp_seg_reparent a s (F L cg g sg) kr' (addr sr) b with "[$Hg $Hgx $Hgy $Hsg $Hk //]");
      [by apply ptr_ok_aligned|]. iIntros "Hk". do 2 (wpb; iApply wp_ret). iApply wp_ret.
    iApply ("HΦ" with "[%] [%] [$Hs $Hsx $Hsy] Hsr Hk"); [done|by apply ptr_ok_aligned].
Qed.

(** The words of a node that is in no tree. *)
Lemma fresh_at_node a pc d (x y : Z) : node_at a pc d x y ⊢ fresh_at a.
Proof.
  iIntros "(Ha & Hx & Hy)". destruct d; simpl; [iExists pc, x, y|iExists pc, y, x]; iFrame.
Qed.

Lemma wp_erase_two root k a c l cr rl b rr Φ : (height rl < rb_fuel)%nat → l ≠ E →
  tree_at (up k) (T c l a (T cr rl b rr)) -∗ path_at root k a -∗
  (let '(t, k', short) := unlink c l (T cr rl b rr) k in
   ∀ p, fresh_at a -∗ tree_at (up k') t -∗ path_at root k' (addr t) -∗
     Φ (if short then up k' else NULL, p)) -∗
  wp (erase_two dummy_callbacks a b root) Φ.
Proof.
  iIntros (Hf Hl) "(%Ha & (Ha & Hax & Hay) & Hl & Hr) Hk HΦ".
  iDestruct (path_at_up with "Hk") as %Hup. wpb.
  iApply (wp_erase_successor with "Hr"); [done..|].
  replace (unlink c l (T cr rl b rr) k) with
    (let '(cs, s, sr, kr) := leftmost cr rl b rr [] in
     (paint Black sr, kr ++ F R c s l :: k, bool_decide (sr = E) && bool_decide (cs = Black)))
    by (by destruct l).
  destruct (leftmost cr rl b rr []) as [[[cs s] sr] kr].
  iIntros (q top Hs Hq) "(Hs & Hsx & Hsy) Hsr Hseg".
  wpl "Hax". wps "Hsx". wpb.
  iApply (wp_reparent with "Hl"); [by apply ptr_ok_aligned|done|]. iIntros "Hl".
  wpl "Ha". rewrite __rb_parent_pcw //. wpb.
  iApply (wp_change_child with "Ha Hk"); [done|]. iIntros "Ha Hk".
  iDestruct (tree_at_addr with "Hsr") as %[_ Hn]. rewrite Hn.
  iDestruct (fresh_at_node _ _ L with "[$Ha $Hax $Hay]") as "Hfr".
  iAssert (s ↦ pcw (up k) c -∗ path_at root (kr ++ F R c s l :: k) (addr sr))%I
    with "[Hsx Hsy Hseg Hl Hk]" as "Hpath".
  { iIntros "Hs". iApply (seg_at_path root kr (F R c s l :: k) with "Hseg"). simpl. by iFrame. }
  case_bool_decide as HE; simpl.
  - subst sr. wpl "Hs". wps "Hs". iApply wp_ret. rewrite __rb_is_black_pcw //.
    rewrite up_to_app. simpl. iSpecialize ("Hpath" with "Hs").
    iApply ("HΦ" with "Hfr [//] Hpath").
  - wps "Hs". wpb. iApply (wp_paint _ _ _ Black with "Hsr"); [done|]. iIntros "Hsr".
    iApply wp_ret. iApply ("HΦ" with "Hfr [Hsr]").
    + by rewrite up_to_app.
    + destruct sr; [done|]. by iApply "Hpath".
Qed.

Lemma wp_erase_no_left root k a c r Φ :
  tree_at (up k) (T c E a r) -∗ path_at root k a -∗
  (let '(t, k', short) := unlink c E r k in
   ∀ p, fresh_at a -∗ tree_at (up k') t -∗ path_at root k' (addr t) -∗
     Φ (if short then up k' else NULL, p)) -∗
  wp (erase_no_left a (addr r) root) Φ.
Proof.
  iIntros "(%Ha & (Ha & Hax & Hay) & _ & Hr) Hk HΦ".
  iDestruct (path_at_up with "Hk") as %Hup. wpl "Ha". rewrite __rb_parent_pcw //. wpb.
  iApply (wp_change_child with "Ha Hk"); [done|]. iIntros "Ha Hk".
  iDestruct (fresh_at_node _ _ L with "[$Ha $Hax $Hay]") as "Hfr".
  destruct r as [|cr rl b rr]; simpl.
  - iApply wp_ret. rewrite __rb_is_black_pcw //. iApply ("HΦ" with "Hfr Hr Hk").
  - iDestruct "Hr" as "(%Hb & (Hb & Hbx & Hby) & Hl & Hr)". rewrite ptr_ok_nonnull //.
    wps "Hb". iApply wp_ret. iApply ("HΦ" with "Hfr [-Hk] Hk"). by iFrame.
Qed.

Lemma wp_erase_no_right root k a c l Φ : l ≠ E →
  tree_at (up k) (T c l a E) -∗ path_at root k a -∗
  (let '(t, k', short) := unlink c l E k in
   ∀ p, fresh_at a -∗ tree_at (up k') t -∗ path_at root k' (addr t) -∗
     Φ (if short then up k' else NULL, p)) -∗
  wp (erase_no_right a (addr l) root) Φ.
Proof.
  iIntros (Hne) "(%Ha & (Ha & Hax & Hay) & Hl & _) Hk HΦ".
  iDestruct (path_at_up with "Hk") as %Hup. destruct l as [|cl ll b lr]; [done|].
  iDestruct "Hl" as "(%Hb & (Hb & Hbx & Hby) & Hl & Hr)".
  wpl "Ha". wps "Hb". rewrite __rb_parent_pcw //. wpb.
  iApply (wp_change_child with "Ha Hk"); [done|]. iIntros "Ha Hk".
  iDestruct (fresh_at_node _ _ L with "[$Ha $Hax $Hay]") as "Hfr".
  iApply wp_ret. iApply ("HΦ" with "Hfr [-Hk] Hk"). by iFrame.
Qed.

Lemma wp_erase_augmented root k a c l r Φ : (height r < rb_fuel)%nat →
  tree_at (up k) (T c l a r) -∗ path_at root k a -∗
  (let '(t, k', short) := unlink c l r k in
   fresh_at a -∗ tree_at (up k') t -∗ path_at root k' (addr t) -∗
     Φ (if short then up k' else NULL)) -∗
  wp (__rb_erase_augmented dummy_callbacks a root) Φ.
Proof.
  iIntros (Hf) "(%Ha & (Ha & Hax & Hay) & Hl & Hr) Hk HΦ". unfold __rb_erase_augmented.
  wpl "Hay". wpl "Hax". iDestruct (tree_at_addr with "Hl") as %[_ Hnl].
  iDestruct (tree_at_addr with "Hr") as %[_ Hnr]. rewrite Hnl Hnr.
  iAssert (tree_at (up k) (T c l a r)) with "[Ha Hax Hay Hl Hr]" as "Ht"; [by iFrame|].
  wpb. destruct (decide (l = E)) as [->|HE]; [|rewrite (bool_decide_false (l = E)) //;
    destruct (decide (r = E)) as [->|HE']; [|rewrite (bool_decide_false (r = E)) //]]; simpl negb;
    cbv iota.
  - iApply (wp_erase_no_left with "Ht Hk"). destruct (unlink c E r k) as [[t k'] b].
    iIntros (p) "Hfr Ht Hk". wpb. iApply wp_ret. iApply wp_ret. iApply ("HΦ" with "Hfr Ht Hk").
  - iApply (wp_erase_no_right with "Ht Hk"); [done|]. destruct (unlink c l E k) as [[t k'] b].
    iIntros (p) "Hfr Ht Hk". wpb. iApply wp_ret. iApply wp_ret. iApply ("HΦ" with "Hfr Ht Hk").
  - destruct r as [|cr rl b rr]; [done|]. simpl in Hf.
    iApply (wp_erase_two with "Ht Hk"); [lia|done|].
    destruct (unlink c l (T cr rl b rr) k) as [[t k'] b'].
    iIntros (p) "Hfr Ht Hk". wpb. iApply wp_ret. iApply wp_ret. iApply ("HΦ" with "Hfr Ht Hk").
Qed.

(** [rb_erase] of a node of a red-black tree. *)
Lemma wp_rb_erase root k a c l r Φ : rb_tree (fill (T c l a r) k) →
  (height (fill (T c l a r) k) < rb_fuel)%nat →
  root_at root (fill (T c l a r) k) -∗
  (fresh_at a -∗ root_at root (erase_at c l r k) -∗ Φ tt) -∗
  wp (rb_erase a root) Φ.
Proof.
  iIntros (Ht Hf) "H HΦ". rewrite -path_at_fill. iDestruct "H" as "[Ht Hk]".
  pose proof (fill_height (T c l a r) k) as Hh. simpl in Hh. wpb.
  iApply (wp_erase_augmented with "Ht Hk"); [lia|]. unfold erase_at.
  destruct (unlink c l r k) as [[t k'] b] eqn:Hu. iIntros "Hfr Ht Hk".
  iDestruct (path_at_nonnull with "Hk") as %Hn.
  pose proof (unlink_rb _ _ _ _ _ _ _ _ Hu Ht) as Hr. destruct b.
  - rewrite Hn. destruct Hr as [-> [c' Hp]]. case_bool_decide as HE; simpl.
    + subst. iApply wp_ret. iApply ("HΦ" with "Hfr"). simpl. by iFrame.
    + destruct k' as [|[d cp p s] k']; [done|].
      pose proof (unlink_length _ _ a _ _ _ _ _ Hu) as Hlen. simpl in Hlen.
      iApply (wp_erase_loop root _ _ _ d cp p s E k' with "[] Hk");
        [constructor|done|lia|done|done|].
      iApply ("HΦ" with "Hfr").
  - iApply wp_ret. iApply ("HΦ" with "Hfr"). rewrite -path_at_fill. iFrame.
Qed.
End erase.
