(* ===== verification/RbWalk.v ===== *)
(** * Traversal and replacement

    [rb_first], [rb_last], [rb_next], [rb_prev], the postorder walk and
    [rb_replace_node] over the assertions of RbSep.v: each returns the node at
    the place its name says in the in-order or the postorder sequence. *)

From Stdlib Require Import ZArith Lia.
From stdpp Require Import base numbers list gmap option.
From iris.proofmode Require Import proofmode.
From iris.base_logic Require Import base_logic lib.gen_heap.
From S2P Require Import Prelude RbCode RbTree RbSep RbRefine RbErase.

Open Scope Z_scope.

(** ** Sequences *)

(** The first ([L]) or the last ([R]) address of a sequence. *)
Definition end_of (d : side) (xs : list Z) : Z :=
  default NULL (match d with L => head xs | R => list.last xs end).

(** What follows ([L]) or precedes ([R]) the tree at the end of a path. *)
Definition beyond (d : side) (k : path) : list Z :=
  match d with L => after_path k | R => before_path k end.

(** What follows the tree at the end of a path in postorder. *)
Fixpoint post_path (k : path) : list Z :=
  match k with
  | [] => []
  | F L _ a s :: k => postorder s ++ a :: post_path k
  | F R _ a _ :: k => a :: post_path k
  end.

Lemma end_of_L_cons a xs : end_of L (a :: xs) = a.
Proof. done. Qed.

Lemma end_of_R_snoc xs a : end_of R (xs ++ [a]) = a.
Proof. unfold end_of. by rewrite last_snoc. Qed.

Lemma end_of_L_app xs ys : xs ≠ [] → end_of L (xs ++ ys) = end_of L xs.
Proof. by destruct xs. Qed.

Lemma end_of_R_app xs ys : ys ≠ [] → end_of R (xs ++ ys) = end_of R ys.
Proof.
  intros H. destruct ys as [|y ys _] using rev_ind; [done|].
  by rewrite app_assoc !end_of_R_snoc.
Qed.

Lemma inorder_nonempty t : t ≠ E → inorder t ≠ [].
Proof. destruct t; [done|]. simpl. by destruct (inorder t1). Qed.

Lemma postorder_nonempty t : t ≠ E → postorder t ≠ [].
Proof. destruct t; [done|]. simpl. by destruct (postorder t1), (postorder t2). Qed.

(** The end of a tree is the end of its child on that side, if it has one. *)
Lemma end_of_mk d c x a y :
  end_of d (inorder (mk d c x a y)) = if decide (x = E) then a else end_of d (inorder x).
Proof.
  rewrite inorder_mk. case_decide as HE; subst.
  - destruct d; simpl; [done|]. apply end_of_R_snoc.
  - destruct d.
    + by apply end_of_L_app, inorder_nonempty.
    + rewrite (app_assoc _ [a] (inorder x)). by apply end_of_R_app, inorder_nonempty.
Qed.

Lemma mk_surj d t : t ≠ E → ∃ c x a y, t = mk d c x a y.
Proof. destruct t as [|c l a r]; [done|]. destruct d; eauto. Qed.

Lemma height_mk d c x a y : height (mk d c x a y) = S (height x `max` height y).
Proof. destruct d; simpl; lia. Qed.

(** A node of a tree is at the end of a path. *)
Lemma find_path t a : a ∈ inorder t → ∃ c l r k, t = fill (T c l a r) k.
Proof.
  induction t as [|c l IHl b r IHr]; simpl; [by intros ?%elem_of_nil|].
  intros [H|[->|H]%elem_of_cons]%elem_of_app.
  - destruct (IHl H) as (c' & l' & r' & k & ->). exists c', l', r', (k ++ [F L c b r]).
    unfold fill. by rewrite foldl_app.
  - by exists c, l, r, [].
  - destruct (IHr H) as (c' & l' & r' & k & ->). exists c', l', r', (k ++ [F R c b l]).
    unfold fill. by rewrite foldl_app.
Qed.

Lemma postorder_fill t k : ∃ pre, postorder (fill t k) = pre ++ postorder t ++ post_path k.
Proof.
  revert t. induction k as [|[d c a s] k IH]; intros t; simpl.
  { exists []. by rewrite app_nil_r. }
  destruct (IH (plug t (F d c a s))) as [pre ->]. unfold plug; destruct d; simpl.
  - exists pre. by rewrite -!app_assoc.
  - exists (pre ++ postorder s). by rewrite -!app_assoc.
Qed.

Section walk.
Context `{!gen_heapGS Z Z Σ}.
Implicit Types (t x y s u l r : tree) (k : path).

Lemma wp_descend d fuel par t Φ : t ≠ E → (height t ≤ fuel)%nat →
  tree_at par t -∗ (tree_at par t -∗ Φ (end_of d (inorder t))) -∗
  wp (descend d fuel (addr t)) Φ.
Proof.
  iIntros (Ht Hf) "Ht HΦ". iInduction fuel as [|fuel] "IH" forall (par t Φ Ht Hf).
  { destruct t; simpl in *; [done|lia]. }
  destruct (mk_surj d t Ht) as (c & x & a & y & ->). rewrite height_mk in Hf.
  rewrite end_of_mk addr_mk tree_at_mk. simpl.
  iDestruct "Ht" as "(%Ha & (Ha & Hax & Hay) & Hx & Hy)". wpl "Hax".
  iDestruct (tree_at_addr with "Hx") as %[_ Hn]. rewrite Hn. case_decide as HE.
  - subst. simpl. iApply wp_ret. iApply "HΦ". by iFrame.
  - rewrite bool_decide_false //. iApply ("IH" with "[%] [%] Hx"); [done|lia|].
    iIntros "Hx". iApply "HΦ". by iFrame.
Qed.

Lemma wp_first_at d root t Φ : (height t ≤ rb_fuel)%nat →
  root_at root t -∗ (root_at root t -∗ Φ (end_of d (inorder t))) -∗
  wp (first_at d root) Φ.
Proof.
  iIntros (Hf) "[Hr Ht] HΦ". unfold first_at. wpl "Hr".
  iDestruct (tree_at_addr with "Ht") as %[_ Hn]. rewrite Hn. case_bool_decide as HE; cbn [negb].
  - subst. iApply wp_ret. destruct d; iApply "HΦ"; by iFrame.
  - iApply (wp_descend with "Ht"); [done..|]. iIntros "Ht". iApply "HΦ". by iFrame.
Qed.

(** A node is not its own parent word. *)
Lemma pcw_ne root k p t c : t ≠ E →
  tree_at (up k) t -∗ path_at root k p -∗ ⌜pcw (up k) c ≠ addr t⌝.
Proof.
  iIntros (Hne) "Ht Hk". iDestruct (path_at_up with "Hk") as %Hup.
  destruct t as [|ct l a r]; [done|]. iDestruct "Ht" as "(%Ha & (Ha & _) & _)". simpl addr.
  destruct c.
  - rewrite pcw_red. destruct k as [|[d c b s] k]; simpl; [destruct Ha; iPureIntro; unfold NULL; lia|].
    iDestruct "Hk" as "(_ & (Hb & _) & _)". iIntros (->).
    iDestruct (pointsto_ne with "Ha Hb") as %[]; done.
  - iPureIntro. intros Heq. pose proof (__rb_color_pcw (up k) Black Hup) as Hc.
    rewrite Heq in Hc. unfold __rb_color in Hc.
    rewrite land_low_aligned in Hc; [done|by apply ptr_ok_aligned|lia].
Qed.

Lemma wp_ascend d root fuel t k a Φ : t ≠ E → a = addr t → (length k < fuel)%nat →
  tree_at (up k) t -∗ path_at root k (addr t) -∗
  (root_at root (fill t k) -∗ Φ (end_of d (beyond d k))) -∗
  wp (ascend d fuel a) Φ.
Proof.
  iIntros (Hne Ha Hf) "Ht Hk HΦ".
  iInduction fuel as [|fuel] "IH" forall (t k a Hne Ha Hf); [lia|]. subst a. simpl.
  iDestruct (path_at_up with "Hk") as %Hup. iDestruct (path_at_nonnull with "Hk") as %Hn.
  iAssert (∀ Ψ, (tree_at (up k) t -∗ Ψ (up k)) -∗ wp (rb_parent (addr t)) Ψ)%I
    with "[Ht]" as "Hpar".
  { iIntros (Ψ) "HΨ". destruct t as [|c l b r]; [done|].
    iDestruct "Ht" as "(%Hb & (Hb & Hbc) & Hl & Hr)".
    iApply (wp_rb_parent with "Hb"); [done|]. iIntros "Hb". iApply "HΨ". by iFrame. }
  wpb. iApply "Hpar". iIntros "Ht". rewrite Hn. destruct k as [|[df c p s] k]; simpl.
  { iApply wp_ret. destruct d; iApply "HΦ"; by iFrame. }
  iDestruct "Hk" as "(%Hp & (Hp & Hpx & Hpy) & Hs & Hk)".
  iAssert ⌜addr s ≠ addr t⌝%I as %Hst.
  { destruct t as [|ct l b r]; [done|]. iDestruct "Ht" as "(%Hb & (Hb & _) & _)".
    by iApply (tree_at_ne with "Hb Hs"). }
  iAssert (child_at df p ↦ addr t -∗ child_at (opp df) p ↦ addr s -∗
    tree_at (up k) (plug t (F df c p s)))%I with "[Ht Hp Hs]" as "Hplug".
  { iIntros "Hx Hy". unfold plug; simpl. rewrite tree_at_mk. by iFrame. }
  destruct (decide (df = d)) as [->|Hd].
  - wpl "Hpy". rewrite (proj2 (Z.eqb_neq _ _)); [|done]. iApply wp_ret.
    iSpecialize ("Hplug" with "Hpx Hpy").
    replace (end_of d (beyond d (F d c p s :: k))) with p.
    { iApply "HΦ". iApply path_at_fill. iFrame. unfold plug; simpl. by rewrite addr_mk. }
    destruct d; simpl; [done|]. by rewrite app_assoc end_of_R_snoc.
  - assert (df = opp d) as -> by (by destruct df, d).
    wpl "Hpx". rewrite Z.eqb_refl. iSpecialize ("Hplug" with "Hpx Hpy").
    replace (beyond d (F (opp d) c p s :: k)) with (beyond d k) by (by destruct d).
    iApply ("IH" with "[%] [%] [%] Hplug [Hk] HΦ").
    + unfold plug; simpl. by destruct d.
    + unfold plug; simpl. by rewrite addr_mk.
    + simpl in Hf. lia.
    + unfold plug; simpl. by rewrite addr_mk.
Qed.

(** [rb_next] ([L]) and [rb_prev] ([R]). *)
Lemma wp_next_at d root c x a y k Φ :
  (height (fill (mk d c x a y) k) ≤ rb_fuel)%nat →
  root_at root (fill (mk d c x a y) k) -∗
  (root_at root (fill (mk d c x a y) k) -∗
   Φ (end_of d (match d with L => inorder y ++ after_path k
                | R => before_path k ++ inorder y end))) -∗
  wp (next_at d a) Φ.
Proof.
  iIntros (Hf) "H HΦ". pose proof (fill_height (mk d c x a y) k) as Hh.
  rewrite height_mk in Hh. rewrite -path_at_fill. iDestruct "H" as "[Ht Hk]".
  iDestruct (pcw_ne _ _ _ _ c with "Ht Hk") as %Hne; [by destruct d|].
  rewrite addr_mk in Hne *. rewrite tree_at_mk.
  iDestruct "Ht" as "(%Ha & (Ha & Hax & Hay) & Hx & Hy)". unfold next_at, RB_EMPTY_NODE.
  wpb. wpl "Ha". iApply wp_ret. rewrite (proj2 (Z.eqb_neq _ _)); [|done].
  wpl "Hay". iDestruct (tree_at_addr with "Hy") as %[_ ->]. case_bool_decide as HE; cbn [negb].
  - subst y. iApply (wp_ascend d root _ (mk d c x a E) k with "[-Hk HΦ] [Hk]").
    + by destruct d.
    + by rewrite addr_mk.
    + lia.
    + rewrite tree_at_mk. by iFrame.
    + by rewrite addr_mk.
    + rewrite -path_at_fill tree_at_mk addr_mk. iIntros "H". iSpecialize ("HΦ" with "H").
      destruct d; simpl; rewrite ?app_nil_r; iApply "HΦ".
  - iApply (wp_descend with "Hy"); [done|lia|]. iIntros "Hy".
    replace (end_of d (inorder y)) with
      (end_of d (match d with L => inorder y ++ after_path k
                 | R => before_path k ++ inorder y end)).
    { iApply "HΦ". by iFrame. }
    pose proof (inorder_nonempty y HE).
    destruct d; [by apply end_of_L_app|by apply end_of_R_app].
Qed.

Lemma wp_left_deepest fuel par t Φ : t ≠ E → (height t ≤ fuel)%nat →
  tree_at par t -∗ (tree_at par t -∗ Φ (end_of L (postorder t))) -∗
  wp (left_deepest_loop fuel (addr t)) Φ.
Proof.
  iIntros (Ht Hf) "Ht HΦ". iInduction fuel as [|fuel] "IH" forall (par t Φ Ht Hf).
  { destruct t; simpl in *; [done|lia]. }
  destruct t as [|c l a r]; [done|]. simpl in Hf. cbn [left_deepest_loop addr postorder].
  iDestruct "Ht" as "(%Ha & (Ha & Hax & Hay) & Hl & Hr)". wpl "Hax".
  iDestruct (tree_at_addr with "Hl") as %[_ ->]. case_bool_decide as HE; cbn [negb].
  - subst l. wpl "Hay". iDestruct (tree_at_addr with "Hr") as %[_ ->].
    case_bool_decide as HE; cbn [negb].
    + subst r. iApply wp_ret. iApply "HΦ". by iFrame.
    + iApply ("IH" with "[%] [%] Hr"); [done|lia|]. iIntros "Hr".
      replace (end_of L (postorder r)) with (end_of L (postorder E ++ postorder r ++ [a])).
      { iApply "HΦ". by iFrame. }
      simpl. rewrite end_of_L_app //. by apply postorder_nonempty.
  - iApply ("IH" with "[%] [%] Hl"); [done|lia|]. iIntros "Hl".
    replace (end_of L (postorder l)) with (end_of L (postorder l ++ postorder r ++ [a])).
    { iApply "HΦ". by iFrame. }
    rewrite end_of_L_app //. by apply postorder_nonempty.
Qed.

Lemma wp_first_postorder root t Φ : (height t ≤ rb_fuel)%nat →
  root_at root t -∗ (root_at root t -∗ Φ (end_of L (postorder t))) -∗
  wp (rb_first_postorder root) Φ.
Proof.
  iIntros (Hf) "[Hr Ht] HΦ". unfold rb_first_postorder. wpl "Hr".
  iDestruct (tree_at_addr with "Ht") as %[_ Hn]. rewrite Hn. case_bool_decide as HE; cbn [negb].
  - subst. iApply wp_ret. iApply "HΦ". by iFrame.
  - iApply (wp_left_deepest with "Ht"); [done..|]. iIntros "Ht". iApply "HΦ". by iFrame.
Qed.

Lemma wp_next_postorder root c l a r k Φ :
  (height (fill (T c l a r) k) ≤ rb_fuel)%nat →
  root_at root (fill (T c l a r) k) -∗
  (root_at root (fill (T c l a r) k) -∗ Φ (end_of L (post_path k))) -∗
  wp (rb_next_postorder a) Φ.
Proof.
  iIntros (Hf) "H HΦ". rewrite -path_at_fill. iDestruct "H" as "[Ht Hk]".
  iDestruct (path_at_up with "Hk") as %Hup. iDestruct (path_at_nonnull with "Hk") as %Hn.
  iDestruct "Ht" as "(%Ha & (Ha & Hac) & Hl & Hr)". unfold rb_next_postorder.
  rewrite ptr_ok_nonnull //. cbn [negb]. wpb. iApply (wp_rb_parent with "Ha"); [done|].
  iIntros "Ha". rewrite Hn. clear Hn. destruct k as [|[d cp p s] k]; simpl.
  { iApply wp_ret. iApply "HΦ". by iFrame. }
  iDestruct "Hk" as "(%Hp & (Hp & Hpx & Hpy) & Hs & Hk)".
  iDestruct (tree_at_ne with "Ha Hs") as %Hst; [done|]. destruct d; simpl.
  - wpl "Hpx". rewrite Z.eqb_refl. wpl "Hpy".
    iDestruct (tree_at_addr with "Hs") as %[_ ->]. case_bool_decide as HE; cbn [negb].
    + subst s. iApply wp_ret. iApply "HΦ". by iFrame.
    + pose proof (fill_height (plug (T c l a r) (F L cp p s)) k) as Hh.
      simpl in Hf, Hh. unfold rb_left_deepest_node.
      iApply (wp_left_deepest with "Hs"); [done|lia|]. iIntros "Hs".
      replace (end_of L (postorder s)) with (end_of L (postorder s ++ p :: post_path k)).
      { iApply "HΦ". by iFrame. }
      rewrite end_of_L_app //. by apply postorder_nonempty.
  - wpl "Hpy". rewrite (proj2 (Z.eqb_neq _ _)) //. iApply wp_ret. iApply "HΦ". by iFrame.
Qed.

(** [rb_replace_node]: the node [b] takes the place of the node [a]. *)
Lemma wp_replace_node root c l a r k b Φ : ptr_ok b →
  fresh_at b -∗ root_at root (fill (T c l a r) k) -∗
  (fresh_at a -∗ root_at root (fill (T c l b r) k) -∗ Φ tt) -∗
  wp (rb_replace_node a b root) Φ.
Proof.
  iIntros (Hb) "(%pcb & %p & %q & Hb & Hbx & Hby) H HΦ". rewrite -!path_at_fill.
  iDestruct "H" as "[(%Ha & (Ha & Hax & Hay) & Hl & Hr) Hk]".
  iDestruct (path_at_up with "Hk") as %Hup. pose proof (ptr_ok_aligned _ Ha) as Hal.
  unfold rb_replace_node. wpb. iApply (wp_rb_parent with "Ha"); [done|]. iIntros "Ha". wpb.
  iApply (wp_change_child with "Ha Hk"); [done|]. iIntros "Ha Hk".
  wpl "Hax". wpb. iApply (wp_when_reparent with "Hl"); [done|]. iIntros "Hl".
  wpl "Hay". wpb. iApply (wp_when_reparent with "Hr"); [done|]. iIntros "Hr".
  wpl "Ha". wps "Hb". wpl "Hay". wps "Hby". wpl "Hax". wps_last "Hbx".
  iDestruct (fresh_at_node _ _ L with "[$Ha $Hax $Hay]") as "Hfr".
  iApply ("HΦ" with "Hfr"). by iFrame.
Qed.
End walk.
