(* ===== verification/RbMem.v ===== *)
(** * The specifications on plain memories

    [rep_adequate] turns a specification of RbRefine.v, RbErase.v or RbWalk.v
    into a statement about the memory before and after a call. *)

From Stdlib Require Import ZArith Lia.
From stdpp Require Import base numbers list gmap option.
From iris.proofmode Require Import proofmode.
From iris.base_logic Require Import base_logic lib.gen_heap.
From S2P Require Import Prelude RbCode RbTree RbSep RbRefine RbErase RbWalk.

Open Scope Z_scope.

Section cells.
Context `{!gen_heapGS Z Z Σ}.

Definition list_at (cs : list (Z * Z)) : iProp Σ := [∗ list] pv ∈ cs, pv.1 ↦ pv.2.

Lemma list_at_nodup cs : list_at cs ⊢ ⌜NoDup cs.*1⌝.
Proof.
  induction cs as [|[p v] cs IH]; simpl; [iIntros "_"; iPureIntro; constructor|].
  iIntros "[Hp H]". iAssert ⌜p ∉ cs.*1⌝%I as %Hp.
  { iIntros ([[q w] [-> Hin]]%list_elem_of_fmap).
    iDestruct (big_sepL_elem_of with "H") as "Hq"; [done|]. simpl.
    iDestruct (pointsto_ne with "Hp Hq") as %[]; done. }
  iDestruct (IH with "H") as %Hcs. iPureIntro. by constructor.
Qed.

Lemma list_at_app cs cs' : list_at (cs ++ cs') ⊣⊢ list_at cs ∗ list_at cs'.
Proof. apply big_sepL_app. Qed.

Lemma tree_at_cells par t : tree_at par t ⊣⊢ ⌜Forall ptr_ok (inorder t)⌝ ∗ list_at (cells par t).
Proof.
  revert par. induction t as [|c l IHl a r IHr]; intros par; simpl.
  - iSplit; iIntros "_"; [|done]. iSplit; [iPureIntro; apply Forall_nil_2|by rewrite /list_at].
  - rewrite IHl IHr Forall_app Forall_cons_iff. unfold node_at. simpl.
    unfold list_at at 3. simpl. rewrite big_sepL_app. iSplit.
    + iIntros "(%Ha & ($ & $ & $) & [%Hl $] & [%Hr $])". done.
    + iIntros "((%Hl & %Ha & %Hr) & $ & $ & $ & $ & $)". done.
Qed.

Lemma root_at_cells root t :
  root_at root t ⊣⊢ ⌜Forall ptr_ok (inorder t)⌝ ∗ list_at (root_cells root t).
Proof.
  unfold root_at. rewrite tree_at_cells. unfold list_at at 2. simpl.
  iSplit; iIntros "($ & $ & $)".
Qed.

(** Spare nodes. *)
Definition spare_at (sp : list Z) : iProp Σ :=
  ⌜Forall ptr_ok sp⌝ ∗ [∗ list] a ∈ sp, fresh_at a.

(** Words with values to be chosen. *)
Lemma spare_at_cells sp : ([∗ list] a ∈ sp, fresh_at a) ⊣⊢
  ∃ vs, ⌜length vs = length (sp ≫= fields)⌝ ∗ list_at (zip (sp ≫= fields) vs).
Proof.
  induction sp as [|a sp IH].
  - iSplit; [iIntros "_"|by iIntros "_"]. iExists []. iSplit; [done|]. by rewrite /list_at /=.
  - rewrite big_sepL_cons IH bind_cons length_app. cbn [fields app length]. iSplit.
    + iIntros "[(%pc & %p & %q & Ha & Hp & Hq) (%vs & %Hvs & H)]".
      iExists (pc :: q :: p :: vs). iSplit; [iPureIntro; simpl; lia|].
      rewrite /list_at /=. iFrame.
    + iIntros "(%vs & %Hvs & H)". destruct vs as [|pc [|q [|p vs]]]; simplify_eq/=.
      iDestruct "H" as "(Ha & Hq & Hp & H)". iSplitL "Ha Hq Hp".
      * iExists pc, p, q. iFrame.
      * iExists vs. by iFrame.
Qed.
End cells.

(** ** Adequacy *)

Lemma fst_zip_fields (sp : list Z) (vs : list Z) :
  length vs = length (sp ≫= fields) → (zip (sp ≫= fields) vs).*1 = sp ≫= fields.
Proof. intros H. apply fst_zip. lia. Qed.

(** The values of the spare words. *)
Lemma rep_spare_values sp (m : mem) : Forall (λ p, is_Some (m !! p)) (sp ≫= fields) →
  ∃ vs, length vs = length (sp ≫= fields) ∧
    Forall (λ pv, m !! pv.1 = Some pv.2) (zip (sp ≫= fields) vs).
Proof.
  generalize (sp ≫= fields). intros ps H. induction H as [|p ps [v Hv] _ (vs & Hlen & Hvs)].
  - by exists [].
  - exists (v :: vs). simpl. split; [lia|]. by constructor.
Qed.

(** The words of a tree and of spare nodes with the values [vs]. *)
Definition all_cells (root : Z) (t : tree) (sp vs : list Z) : list (Z * Z) :=
  root_cells root t ++ zip (sp ≫= fields) vs.

Lemma all_cells_fst root t sp vs : length vs = length (sp ≫= fields) →
  (all_cells root t sp vs).*1 = footprint root t sp.
Proof. intros H. unfold all_cells. by rewrite fmap_app fst_zip_fields. Qed.

Lemma rep_intro root t sp vs (m : mem) : length vs = length (sp ≫= fields) →
  NoDup (footprint root t sp) → Forall ptr_ok (inorder t ++ sp) →
  list_to_map (all_cells root t sp vs) ⊆ m → rep root t sp m.
Proof.
  intros Hlen Hnd Hptr Hsub.
  assert (Forall (λ pv, m !! pv.1 = Some pv.2) (all_cells root t sp vs)) as Hall.
  { apply Forall_forall. intros [p v] Hin. simpl. eapply lookup_weaken; [|exact Hsub].
    apply elem_of_list_to_map_1; [by rewrite all_cells_fst|done]. }
  apply Forall_app in Hall as [Hc Hs]. split; [done..| |done].
  rewrite -(fst_zip_fields sp vs Hlen). apply Forall_fmap.
  eapply Forall_impl; [exact Hs|]. simpl. intros [p v] Hp. by exists v.
Qed.

Section all_cells.
Context `{!gen_heapGS Z Z Σ}.

Lemma words_cells root t sp vs : length vs = length (sp ≫= fields) →
  NoDup (footprint root t sp) → Forall ptr_ok (inorder t ++ sp) →
  words (list_to_map (all_cells root t sp vs)) ⊢ root_at root t ∗ spare_at sp.
Proof.
  iIntros (Hlen Hnd [Ht Hsp]%Forall_app) "H". unfold words.
  rewrite big_sepM_list_to_map; [|by rewrite all_cells_fst].
  iDestruct (list_at_app with "H") as "[Ht Hs]". rewrite root_at_cells. iFrame "Ht".
  unfold spare_at. rewrite spare_at_cells. iSplit; [done|]. iSplit; [done|].
  iExists vs. by iFrame.
Qed.

Lemma cells_words root t sp : root_at root t ∗ spare_at sp ⊢
  ∃ vs, ⌜length vs = length (sp ≫= fields) ∧ NoDup (footprint root t sp) ∧
    Forall ptr_ok (inorder t ++ sp)⌝ ∗ words (list_to_map (all_cells root t sp vs)).
Proof.
  iIntros "[Ht [%Hsp Hs]]". rewrite root_at_cells spare_at_cells.
  iDestruct "Ht" as "[%Ht Ht]". iDestruct "Hs" as (vs Hlen) "Hs".
  iAssert (list_at (all_cells root t sp vs)) with "[Ht Hs]" as "H".
  { rewrite list_at_app. iFrame. }
  iDestruct (list_at_nodup with "H") as %Hnd. iExists vs.
  rewrite all_cells_fst // in Hnd. iSplit.
  - iPureIntro. rewrite Forall_app. done.
  - unfold words. rewrite big_sepM_list_to_map; [done|by rewrite all_cells_fst].
Qed.
End all_cells.

(** A specification of [c] from the tree [t] and the spare nodes [sp]; what it
    leaves is described by [φ]. *)
Lemma rep_adequate {A} (c : M mem A) root t sp (m : mem) (φ : A → tree → list Z → Prop) :
  rep root t sp m →
  (∀ (H : gen_heapGS Z Z (gen_heapΣ Z Z)), ⊢ root_at root t -∗ spare_at sp -∗
     wp c (λ v, ∃ t' sp', ⌜φ v t' sp'⌝ ∗ root_at root t' ∗ spare_at sp')) →
  ∃ v m' t' sp', c m = Some (v, m') ∧ φ v t' sp' ∧ rep root t' sp' m' ∧
    same_except (footprint root t sp) m m'.
Proof.
  intros Hrep Hwp. destruct (rep_spare_values _ _ (rep_spare _ _ _ _ Hrep)) as (vs & Hlen & Hvs).
  pose proof (rep_nodup _ _ _ _ Hrep) as Hnd.
  set (h := list_to_map (all_cells root t sp vs) : mem).
  assert (h ⊆ m) as Hsub.
  { apply map_subseteq_spec. intros p v Hp%elem_of_list_to_map_2.
    assert (Forall (λ pv, m !! pv.1 = Some pv.2) (all_cells root t sp vs)) as Hall
      by (apply Forall_app; split; [apply Hrep|done]).
    by apply (proj1 (Forall_forall _ _) Hall (p, v)). }
  destruct (wp_adequate c m h (m ∖ h) (λ v h', ∃ t' sp' vs', φ v t' sp' ∧
    h' = list_to_map (all_cells root t' sp' vs') ∧ length vs' = length (sp' ≫= fields) ∧
    NoDup (footprint root t' sp') ∧ Forall ptr_ok (inorder t' ++ sp')))
    as (v & m' & h' & Hc & Hdom & (t' & sp' & vs' & Hφ & -> & Hlen' & Hnd' & Hptr') & Hdis & Hsub').
  - intros H. iIntros "H". iDestruct (words_cells with "H") as "[Ht Hs]"; [done..|apply Hrep|].
    iApply (wp_wand with "[Ht Hs]"); [iApply (Hwp with "Ht Hs")|].
    iIntros (v) "(%t' & %sp' & %Hφ & H)". iDestruct (cells_words with "H") as (vs') "[%Hc H]".
    iExists _. iFrame. iPureIntro. exists t', sp', vs'. naive_solver.
  - by apply map_disjoint_difference_r1.
  - by rewrite map_difference_union.
  - exists v, m', t', sp'. split; [done|]. split; [done|]. split.
    + eapply rep_intro; [exact Hlen'|done..|]. etrans; [|exact Hsub']. apply map_union_subseteq_l.
    + intros p Hp. rewrite -(all_cells_fst root t sp vs Hlen) in Hp.
      apply not_elem_of_list_to_map_1 in Hp. destruct (m !! p) as [w|] eqn:Hw.
      * eapply lookup_weaken; [|exact Hsub']. rewrite map_union_comm //.
        apply lookup_union_Some_l, lookup_difference_Some. done.
      * apply not_elem_of_dom. rewrite Hdom. by apply not_elem_of_dom.
Qed.

(** ** The functions of rbtree.c *)

(** Trees the fuel of the loops is enough for. *)
Definition small (t : tree) : Prop := Z.of_nat (nodes t) < 2 ^ 62.

(** The words of a represented tree do not change when it does not. *)
Lemma rep_same root t sp m m' : rep root t sp m → rep root t sp m' →
  same_except (footprint root t sp) m m' → sp = [] → m' = m.
Proof.
  intros H H' Hs ->. apply map_eq. intros p.
  destruct (decide (p ∈ footprint root t [])) as [Hp|Hp]; [|by apply Hs].
  unfold footprint in Hp. rewrite app_nil_r in Hp.
  apply list_elem_of_fmap in Hp as [[q v] [-> Hin]]. simpl.
  pose proof (proj1 (Forall_forall _ _) (rep_cells _ _ _ _ H) _ Hin) as H1.
  pose proof (proj1 (Forall_forall _ _) (rep_cells _ _ _ _ H') _ Hin) as H2.
  simpl in *. congruence.
Qed.

Lemma spare_at_nil `{!gen_heapGS Z Z Σ} : ⊢ spare_at (Σ := Σ) [].
Proof. iSplit; [iPureIntro; apply Forall_nil_2|done]. Qed.

Lemma spare_at_one `{!gen_heapGS Z Z Σ} a : spare_at [a] ⊣⊢ ⌜ptr_ok a⌝ ∗ fresh_at a.
Proof.
  unfold spare_at. rewrite big_sepL_singleton Forall_singleton. done.
Qed.

(** [rb_link_node] and [rb_insert_color] at the place [k] of the tree. *)
Lemma rb_insert_spec root k a m :
  rep root (fill E k) [a] m → rb_tree (fill E k) → small (fill E k) →
  ∃ m', (rb_link_node a (up k) (link_of root k) ;;; rb_insert_color a root)%c m = Some (tt, m') ∧
    rep root (ins_fix (T Red E a E) k) [] m' ∧
    same_except (footprint root (fill E k) [a]) m m'.
Proof.
  intros Hrep Ht Hsm. pose proof (rb_tree_depth _ Ht Hsm) as Hd.
  pose proof (fill_height E k) as Hh.
  apply rb_fill_inv in Ht as (c & n & HE & Hk). inversion HE; subst.
  destruct (rep_adequate (rb_link_node a (up k) (link_of root k) ;;; rb_insert_color a root)%c
    root (fill E k) [a] m (λ _ t' sp', t' = ins_fix (T Red E a E) k ∧ sp' = []) Hrep)
    as ([] & m' & t' & sp' & Hc & [-> ->] & Hrep' & Hs); [|by exists m'].
  intros H. iIntros "Ht Hs". rewrite spare_at_one -path_at_fill.
  iDestruct "Hs" as "[%Ha Hs]". iDestruct "Ht" as "[_ Hk]". wpb.
  iApply (wp_link_node with "Hs Hk"); [done|]. iIntros "Ht Hk".
  iApply (wp_insert_color with "Ht Hk"); [done|simpl in *; lia|]. iIntros "H".
  iExists _, []. iFrame. iSplit; [done|]. iApply spare_at_nil.
Qed.

Lemma rb_erase_spec root c l a r k m :
  rep root (fill (T c l a r) k) [] m → rb_tree (fill (T c l a r) k) →
  small (fill (T c l a r) k) →
  ∃ m', rb_erase a root m = Some (tt, m') ∧ rep root (erase_at c l r k) [a] m' ∧
    same_except (footprint root (fill (T c l a r) k) []) m m'.
Proof.
  intros Hrep Ht Hsm. pose proof (rb_tree_depth _ Ht Hsm) as Hd.
  destruct (rep_adequate (rb_erase a root) root _ [] m
    (λ _ t' sp', t' = erase_at c l r k ∧ sp' = [a]) Hrep)
    as ([] & m' & t' & sp' & Hc & [-> ->] & Hrep' & Hs); [|by exists m'].
  intros H. iIntros "Ht _". iApply (wp_rb_erase with "Ht"); [done..|]. iIntros "Hf Ht".
  iExists _, [a]. rewrite spare_at_one. iFrame. iPureIntro. split; [done|].
  pose proof (rep_ptr _ _ _ _ Hrep) as Hp. rewrite inorder_fill in Hp. simpl in Hp.
  rewrite !Forall_app Forall_cons_iff in Hp. tauto.
Qed.

(** The walks read the tree and leave the memory as it is. *)
Lemma walk_spec {A} (c : M mem A) root t m v : rep root t [] m →
  (∀ (H : gen_heapGS Z Z (gen_heapΣ Z Z)), ⊢ root_at root t -∗
     wp c (λ w, ⌜w = v⌝ ∗ root_at root t)) →
  c m = Some (v, m).
Proof.
  intros Hrep Hwp. destruct (rep_adequate c root t [] m (λ w t' sp', w = v ∧ t' = t ∧ sp' = []) Hrep)
    as (w & m' & t' & sp' & Hc & (-> & -> & ->) & Hrep' & Hs).
  - intros H. iIntros "Ht _". iApply (wp_wand with "[Ht]"); [iApply (Hwp with "Ht")|].
    iIntros (w) "[-> H]". iExists t, []. iFrame. iSplit; [done|]. iApply spare_at_nil.
  - by rewrite Hc (rep_same _ _ _ _ _ Hrep Hrep' Hs eq_refl).
Qed.

Lemma first_at_spec d root t m : rep root t [] m → rb_tree t → small t →
  first_at d root m = Some (end_of d (inorder t), m).
Proof.
  intros Hrep Ht Hsm. pose proof (rb_tree_depth _ Ht Hsm) as Hd.
  eapply walk_spec; [done|]. intros H. iIntros "Ht". iApply (wp_first_at with "Ht"); [lia|].
  by iIntros "$".
Qed.

Lemma rep_NoDup root t sp m : rep root t sp m → NoDup (inorder t).
Proof.
  intros H. pose proof (rep_nodup _ _ _ _ H) as Hn. apply NoDup_app in Hn as [Hn _].
  unfold root_cells in Hn. rewrite fmap_cons in Hn. apply list.NoDup_cons in Hn as [_ Hn].
  rewrite cells_perm in Hn.
  by apply NoDup_app in Hn as [Hn _].
Qed.

(** A node splits the sequence in one way. *)
Lemma split_unique (a : Z) xs ys xs' ys' : NoDup (xs ++ a :: ys) →
  xs ++ a :: ys = xs' ++ a :: ys' → xs = xs' ∧ ys = ys'.
Proof.
  intros Hn Heq. revert xs' Heq Hn.
  induction xs as [|x xs IH]; intros [|x' xs'] Heq Hn; simpl in Heq;
    [by injection Heq|injection Heq as Hx Htl; subst..].
  - apply list.NoDup_cons in Hn as [Hn _]. set_solver.
  - apply list.NoDup_cons in Hn as [Hn _]. set_solver.
  - apply list.NoDup_cons in Hn as [_ Hn]. by destruct (IH _ Htl Hn) as [-> ->].
Qed.

Lemma rep_nonnull root t sp m a : rep root t sp m → a ∈ inorder t → nonnull a = true.
Proof.
  intros H Ha. apply ptr_ok_nonnull. pose proof (rep_ptr _ _ _ _ H) as Hp.
  apply Forall_app in Hp as [Hp _]. by apply (proj1 (Forall_forall _ _) Hp).
Qed.

Lemma rep_split root t sp m xs a ys : rep root t sp m → inorder t = xs ++ a :: ys →
  ∃ c l r k, t = fill (T c l a r) k ∧ xs = before_path k ++ inorder l ∧
    ys = inorder r ++ after_path k.
Proof.
  intros Hrep Hin. destruct (find_path t a) as (c & l & r & k & ->); [rewrite Hin; set_solver|].
  pose proof (rep_NoDup _ _ _ _ Hrep) as Hn. exists c, l, r, k. split; [done|].
  rewrite Hin in Hn. apply (split_unique a); [done|].
  rewrite -Hin inorder_fill /=. by rewrite -!app_assoc.
Qed.

Lemma rb_next_spec root t m xs a ys : rep root t [] m → rb_tree t → small t →
  inorder t = xs ++ a :: ys → rb_next a m = Some (end_of L ys, m).
Proof.
  intros Hrep Ht Hsm Hin. pose proof (rb_tree_depth _ Ht Hsm) as Hd.
  destruct (rep_split _ _ _ _ _ _ _ Hrep Hin) as (c & l & r & k & -> & _ & ->).
  eapply walk_spec; [done|]. intros H. iIntros "Ht".
  iApply (wp_next_at L root c l a r k with "Ht"); [simpl; lia|]. by iIntros "$".
Qed.

Lemma rb_prev_spec root t m xs a ys : rep root t [] m → rb_tree t → small t →
  inorder t = xs ++ a :: ys → rb_prev a m = Some (end_of R xs, m).
Proof.
  intros Hrep Ht Hsm Hin. pose proof (rb_tree_depth _ Ht Hsm) as Hd.
  destruct (rep_split _ _ _ _ _ _ _ Hrep Hin) as (c & l & r & k & -> & -> & _).
  eapply walk_spec; [done|]. intros H. iIntros "Ht".
  iApply (wp_next_at R root c r a l k with "Ht"); [simpl; lia|]. by iIntros "$".
Qed.

Lemma rb_first_postorder_spec root t m : rep root t [] m → rb_tree t → small t →
  rb_first_postorder root m = Some (end_of L (postorder t), m).
Proof.
  intros Hrep Ht Hsm. pose proof (rb_tree_depth _ Ht Hsm) as Hd.
  eapply walk_spec; [done|]. intros H. iIntros "Ht".
  iApply (wp_first_postorder with "Ht"); [lia|]. by iIntros "$".
Qed.

Lemma postorder_perm t : postorder t ≡ₚ inorder t.
Proof.
  induction t as [|c l IHl a r IHr]; simpl; [done|]. rewrite IHl IHr. solve_Permutation.
Qed.

Lemma rb_next_postorder_spec root t m xs a ys : rep root t [] m → rb_tree t → small t →
  postorder t = xs ++ a :: ys → rb_next_postorder a m = Some (end_of L ys, m).
Proof.
  intros Hrep Ht Hsm Hpost. pose proof (rb_tree_depth _ Ht Hsm) as Hd.
  pose proof (rep_NoDup _ _ _ _ Hrep) as Hn. rewrite -postorder_perm Hpost in Hn.
  destruct (find_path t a) as (c & l & r & k & ->).
  { rewrite -postorder_perm Hpost. set_solver. }
  destruct (postorder_fill (T c l a r) k) as [pre Hp]. simpl in Hp.
  assert (ys = post_path k) as ->.
  { apply (split_unique a xs _ (pre ++ postorder l ++ postorder r)); [done|].
    rewrite -Hpost Hp. by rewrite -!app_assoc. }
  eapply walk_spec; [done|]. intros H. iIntros "Ht".
  iApply (wp_next_postorder with "Ht"); [lia|]. by iIntros "$".
Qed.

Lemma rb_replace_spec root c l a r k b m :
  rep root (fill (T c l a r) k) [b] m →
  ∃ m', rb_replace_node a b root m = Some (tt, m') ∧ rep root (fill (T c l b r) k) [a] m' ∧
    same_except (footprint root (fill (T c l a r) k) [b]) m m'.
Proof.
  intros Hrep. destruct (rep_adequate (rb_replace_node a b root) root _ [b] m
    (λ _ t' sp', t' = fill (T c l b r) k ∧ sp' = [a]) Hrep)
    as ([] & m' & t' & sp' & Hc & [-> ->] & Hrep' & Hs); [|by exists m'].
  intros H. iIntros "Ht Hs". rewrite spare_at_one. iDestruct "Hs" as "[%Hb Hs]".
  iApply (wp_replace_node with "Hs Ht"); [done|]. iIntros "Hf Ht".
  iExists _, [a]. rewrite spare_at_one. iFrame. iPureIntro. split; [done|].
  pose proof (rep_ptr _ _ _ _ Hrep) as Hp. rewrite inorder_fill in Hp. simpl in Hp.
  rewrite !Forall_app Forall_cons_iff in Hp. tauto.
Qed.
