(* ===== verification/RbTheorems.v ===== *)
(** * What the red-black tree of rbtree.c guarantees

    The theorems of this file are about memories: with a red-black tree below
    [root] ([rep], [rb_tree]) of fewer than [2 ^ 62] nodes ([small]; a 64-bit
    address space holds no more), the functions of rbtree.c do not fail, end,
    and change nothing but the words of the tree and of the node they are
    given. *)

From Stdlib Require Import ZArith Lia.
From stdpp Require Import base numbers list gmap option.
From S2P Require Import Prelude RbCode RbTree RbRefine RbWalk RbMem.

Open Scope Z_scope.

(** ** The loops of rbtree.h's users *)

(** [for (n = rb_first(root); n; n = rb_next(n))], with the nodes visited. *)
Fixpoint visit (fuel : nat) (n : Z) : M mem (list Z) :=
  match fuel with
  | O => cfail
  | S fuel =>
      if nonnull n then
        let* n' := rb_next n in
        let* ns := visit fuel n' in cret (n :: ns)
      else cret []
  end.

(** [rbtree_postorder_for_each_entry_safe]: the next position is read before
    the body runs. *)
Fixpoint postorder_visit (fuel : nat) (pos : Z) : M mem (list Z) :=
  match fuel with
  | O => cfail
  | S fuel =>
      if nonnull pos then
        let* n := rb_next_postorder pos in
        let* ns := postorder_visit fuel n in cret (pos :: ns)
      else cret []
  end.

Definition rbtree_postorder_for_each_entry_safe (fuel : nat) (root : Z) : M mem (list Z) :=
  let* pos := rb_first_postorder root in postorder_visit fuel pos.

Lemma visit_S fuel n m : visit (S fuel) n m =
  if nonnull n then (let* n' := rb_next n in let* ns := visit fuel n' in cret (n :: ns)) m
  else Some ([], m).
Proof. simpl. by destruct (nonnull n). Qed.

Lemma postorder_visit_S fuel pos m : postorder_visit (S fuel) pos m =
  if nonnull pos
  then (let* n := rb_next_postorder pos in
        let* ns := postorder_visit fuel n in cret (pos :: ns)) m
  else Some ([], m).
Proof. simpl. by destruct (nonnull pos). Qed.

(** ** Decision procedures, for the examples *)

#[global] Instance ptr_ok_dec a : Decision (ptr_ok a).
Proof. unfold ptr_ok. apply _. Defined.

#[global] Instance rep_dec root t sp m : Decision (rep root t sp m).
Proof.
  refine (cast_if (decide (NoDup (footprint root t sp)
    ∧ Forall (λ pv, m !! pv.1 = Some pv.2) (root_cells root t)
    ∧ Forall (λ p, is_Some (m !! p)) (sp ≫= fields) ∧ Forall ptr_ok (inorder t ++ sp))));
    [by destruct_and!; constructor|intros []; naive_solver].
Defined.

(** A tree of three nodes, and the memory that holds it with the words of the
    nodes [sp] besides. *)
Definition sample_tree : tree := T Black (T Red E 64 E) 128 (T Red E 192 E).

Definition sample_mem (t : tree) (sp : list Z) : mem :=
  list_to_map (root_cells 8 t ++ ((λ p, (p, 7)) <$> (sp ≫= fields))).

Ltac sample_rep := apply (bool_decide_unpack _); vm_compute; exact I.

Ltac sample_rb := eexists; repeat econstructor.

(** ** Insertion and removal *)

(** C6: linking the node [a] at a free place [k] of a red-black tree and
    calling [rb_insert_color] gives a red-black tree with [a] at that place of
    the in-order sequence and the other nodes where they were; the calls do
    not fail and touch no word outside the tree and the new node. *)
Theorem rb_insert_correct root k a m :
  rep root (fill E k) [a] m → rb_tree (fill E k) → small (fill E k) →
  ∃ m' t', (rb_link_node a (up k) (link_of root k) ;;; rb_insert_color a root) m
             = Some (tt, m') ∧
    rep root t' [] m' ∧ rb_tree t' ∧ inorder t' = before_path k ++ a :: after_path k ∧
    same_except (footprint root (fill E k) [a]) m m'.
Proof.
  intros Hrep Ht Hsm. destruct (rb_insert_spec _ _ _ _ Hrep Ht Hsm) as (m' & Hc & Hrep' & Hs).
  exists m', (ins_fix (T Red E a E) k). do 2 (split; [done|]).
  apply rb_fill_inv in Ht as (c & n & HE & Hk). inversion HE; subst.
  split; [apply (ins_fix_rb 0); auto with rbt|]. split; [|done].
  by rewrite ins_fix_inorder, inorder_fill.
Qed.

Definition sample_place : path := [F R Red 192 E; F R Black 128 (T Red E 64 E)].

Lemma rb_insert_correct_witness :
  let m := sample_mem sample_tree [256] in
  ∃ m' t', (rb_link_node 256 192 (rb_right 192) ;;; rb_insert_color 256 8) m = Some (tt, m') ∧
    rep 8 t' [] m' ∧ rb_tree t' ∧ inorder t' = [64; 128; 192; 256] ∧
    same_except (footprint 8 sample_tree [256]) m m'.
Proof.
  apply (rb_insert_correct 8 sample_place 256 (sample_mem sample_tree [256])).
  - sample_rep.
  - sample_rb.
  - reflexivity.
Defined.

(** C7: [rb_erase] of a node of a red-black tree gives a red-black tree with
    the other nodes in the same order; the words of the node are no longer
    part of the tree, and no word outside the tree changes. *)
Theorem rb_erase_correct root t m xs a ys :
  rep root t [] m → rb_tree t → small t → inorder t = xs ++ a :: ys →
  ∃ m' t', rb_erase a root m = Some (tt, m') ∧ rep root t' [a] m' ∧ rb_tree t' ∧
    inorder t' = xs ++ ys ∧ same_except (footprint root t []) m m'.
Proof.
  intros Hrep Ht Hsm Hin.
  destruct (rep_split _ _ _ _ _ _ _ Hrep Hin) as (c & l & r & k & -> & -> & ->).
  destruct (rb_erase_spec _ _ _ _ _ _ _ Hrep Ht Hsm) as (m' & Hc & Hrep' & Hs).
  exists m', (erase_at c l r k). do 2 (split; [done|]). split; [by eapply erase_at_rb|].
  split; [|done]. rewrite (erase_at_inorder _ _ a) by done. by rewrite <- !app_assoc.
Qed.

Lemma rb_erase_correct_witness :
  let m := sample_mem sample_tree [] in
  ∃ m' t', rb_erase 128 8 m = Some (tt, m') ∧ rep 8 t' [128] m' ∧ rb_tree t' ∧
    inorder t' = [64; 192] ∧ same_except (footprint 8 sample_tree []) m m'.
Proof.
  apply (rb_erase_correct 8 sample_tree (sample_mem sample_tree []) [64] 128 [192]).
  - sample_rep.
  - sample_rb.
  - reflexivity.
  - reflexivity.
Defined.

(** [rb_replace_node] puts the new node exactly where the victim was, with
    its colour, and releases the victim. *)
Theorem rb_replace_correct root t m xs a ys b :
  rep root t [b] m → rb_tree t → inorder t = xs ++ a :: ys →
  ∃ m' t', rb_replace_node a b root m = Some (tt, m') ∧ rep root t' [a] m' ∧ rb_tree t' ∧
    inorder t' = xs ++ b :: ys ∧ same_except (footprint root t [b]) m m'.
Proof.
  intros Hrep Ht Hin.
  destruct (rep_split _ _ _ _ _ _ _ Hrep Hin) as (c & l & r & k & -> & -> & ->).
  destruct (rb_replace_spec _ _ _ _ _ _ _ _ Hrep) as (m' & Hc & Hrep' & Hs).
  exists m', (fill (T c l b r) k). do 2 (split; [done|]). split; [|split; [|done]].
  - apply rb_fill_inv in Ht as (c' & n & Hn & Hk). apply (rb_fill c' n); [|done].
    inversion Hn; subst; eauto with rbt.
  - rewrite inorder_fill. simpl. by rewrite <- !app_assoc.
Qed.

Lemma rb_replace_correct_witness :
  let m := sample_mem sample_tree [256] in
  ∃ m' t', rb_replace_node 128 256 8 m = Some (tt, m') ∧ rep 8 t' [128] m' ∧ rb_tree t' ∧
    inorder t' = [64; 256; 192] ∧ same_except (footprint 8 sample_tree [256]) m m'.
Proof.
  apply (rb_replace_correct 8 sample_tree (sample_mem sample_tree [256]) [64] 128 [192]).
  - sample_rep.
  - sample_rb.
  - reflexivity.
Defined.

(** ** Traversal *)

(** [rb_first] followed by [rb_next] until it returns null visits the
    nodes in order, each once, and leaves the memory as it is; [rb_last] and
    [rb_prev] find the last node and the predecessor of each. *)
Theorem rb_traversal_correct root t m :
  rep root t [] m → rb_tree t → small t →
  (let* n := rb_first root in visit (S (nodes t)) n) m = Some (inorder t, m) ∧
  rb_last root m = Some (end_of R (inorder t), m) ∧
  ∀ xs a ys, inorder t = xs ++ a :: ys → rb_prev a m = Some (end_of R xs, m).
Proof.
  intros Hrep Ht Hsm. split; [|split].
  - unfold cbind, rb_first. rewrite (first_at_spec L _ _ _ Hrep Ht Hsm).
    assert (∀ ys xs, inorder t = xs ++ ys → visit (S (length ys)) (end_of L ys) m = Some (ys, m))
      as Hv.
    { induction ys as [|a ys IH]; intros xs Hin; [done|]. rewrite visit_S, end_of_L_cons. cbn [length].
      rewrite (rep_nonnull _ _ _ _ _ Hrep) by (rewrite Hin; set_solver).
      unfold cbind. rewrite (rb_next_spec _ _ _ _ _ _ Hrep Ht Hsm Hin).
      by rewrite (IH (xs ++ [a])) by (by rewrite Hin, <- app_assoc). }
    rewrite nodes_inorder. by apply (Hv _ []).
  - by apply first_at_spec.
  - intros xs a ys Hin. by eapply rb_prev_spec.
Qed.

Lemma rb_traversal_correct_witness :
  let m := sample_mem sample_tree [] in
  (let* n := rb_first 8 in visit 4 n) m = Some ([64; 128; 192], m) ∧
  rb_last 8 m = Some (192, m) ∧
  ∀ xs a ys, [64; 128; 192] = xs ++ a :: ys → rb_prev a m = Some (end_of R xs, m).
Proof.
  apply (rb_traversal_correct 8 sample_tree (sample_mem sample_tree [])).
  - sample_rep.
  - sample_rb.
  - reflexivity.
Defined.

(** The postorder iteration of rbtree.h visits every node once, in
    postorder (children before their parents), and leaves the memory as it is. *)
Theorem rb_postorder_correct root t m :
  rep root t [] m → rb_tree t → small t →
  rbtree_postorder_for_each_entry_safe (S (nodes t)) root m = Some (postorder t, m) ∧
  postorder t ≡ₚ inorder t.
Proof.
  intros Hrep Ht Hsm. split; [|apply postorder_perm].
  unfold rbtree_postorder_for_each_entry_safe, cbind.
  rewrite (rb_first_postorder_spec _ _ _ Hrep Ht Hsm).
  assert (∀ ys xs, postorder t = xs ++ ys →
    postorder_visit (S (length ys)) (end_of L ys) m = Some (ys, m)) as Hv.
  { induction ys as [|a ys IH]; intros xs Hin; [done|]. rewrite postorder_visit_S, end_of_L_cons. cbn [length].
    rewrite (rep_nonnull _ _ _ _ _ Hrep) by (rewrite <- postorder_perm, Hin; set_solver).
    unfold cbind. rewrite (rb_next_postorder_spec _ _ _ _ _ _ Hrep Ht Hsm Hin).
    by rewrite (IH (xs ++ [a])) by (by rewrite Hin, <- app_assoc). }
  rewrite nodes_inorder, <- postorder_perm. by apply (Hv _ []).
Qed.

Lemma rb_postorder_correct_witness :
  let m := sample_mem sample_tree [] in
  rbtree_postorder_for_each_entry_safe 4 8 m = Some ([64; 192; 128], m) ∧
  [64; 192; 128] ≡ₚ [64; 128; 192].
Proof.
  apply (rb_postorder_correct 8 sample_tree (sample_mem sample_tree [])).
  - sample_rep.
  - sample_rb.
  - reflexivity.
Defined.

(** Properties 4 and 5 of rbtree.c give the logarithmic bound its comment
    claims: the depth is at most twice the logarithm of the number of nodes. *)
Theorem rb_depth_logarithmic t : rb_tree t → (height t ≤ 2 * Nat.log2 (S (nodes t)))%nat.
Proof.
  intros [n H]. pose proof (rb_height _ _ _ H) as Hh. pose proof (rb_nodes _ _ _ H) as Hn.
  rewrite decide_False in Hh by done. apply Nat.log2_le_mono in Hn.
  rewrite Nat.log2_pow2 in Hn by lia. lia.
Qed.

Lemma rb_depth_logarithmic_witness : (2 ≤ 2 * 2)%nat.
Proof. apply (rb_depth_logarithmic sample_tree). sample_rb. Defined.
