(* ===== verification/SeqBuf.v ===== *)
(** * A resequencing buffer: packets in a red-black tree by sequence number

    The part that src/reordering_buffer/reorder_counter.c and nfqueue.c share:
    the comparison of sequence numbers ([before], [after]), the loop of
    [insert_or_send_packet] that looks for the place of a number, and the
    creation and release of a node.  A buffer is described by the list of its
    entries in tree order; the lemmas say how each step changes that list and
    that it leaves the rest of the heap alone. *)

From Stdlib Require Import ZArith Lia.
From stdpp Require Import base numbers list gmap option sets sorting.
From S2P Require Import Prelude RbCode RbTree RbRefine RbWalk RbMem.

Open Scope Z_scope.

(** ** Sequence numbers *)

(** [(__s32)(seq1-seq2) < 0]. *)
Definition before (seq1 seq2 : Z) : bool := s32 (u32 (seq1 - seq2)) <? 0.

Definition after (seq2 seq1 : Z) : bool := before seq1 seq2.

(** ** The heap: the words of the trees and the entries at their nodes *)

Record heap (D : Type) := Heap { hwords : mem; hdata : gmap Z D }.
Arguments Heap {D} _ _.
Arguments hwords {D} _.
Arguments hdata {D} _.

Section code.
Context {D : Type} (d_seq : D → Z).

Definition on_words {A} (c : M mem A) : M (heap D) A :=
  λ h, match c (hwords h) with
       | Some (v, w) => Some (v, Heap w (hdata h))
       | None => None
       end.

(** [rb_entry(a, struct ..., node)]: the tree node is the first field. *)
Definition get_data (a : Z) : M (heap D) D :=
  λ h, match hdata h !! a with Some d => Some (d, h) | None => None end.

Definition set_data (a : Z) (d : D) : M (heap D) unit :=
  λ h, match hdata h !! a with
       | Some _ => Some (tt, Heap (hwords h) (<[a := d]> (hdata h)))
       | None => None
       end.

(** [calloc], at the address [a], and the assignments that follow it. *)
Definition calloc_data (a : Z) (d : D) : M (heap D) unit :=
  λ h, Some (tt, Heap (<[rb_parent_color a := 0]> (<[rb_right a := 0]>
                         (<[rb_left a := 0]> (hwords h))))
                      (<[a := d]> (hdata h))).

Definition free_data (a : Z) : M (heap D) unit :=
  λ h, match hdata h !! a with
       | Some _ => Some (tt, Heap (delete (rb_parent_color a) (delete (rb_right a)
                                     (delete (rb_left a) (hwords h))))
                                  (delete a (hdata h)))
       | None => None
       end.

(** The [while ( *new_node)] loop: the node that holds [seq] already, or the
    parent and the pointer where it belongs. *)
Fixpoint place_loop (fuel : nat) (new_node parent seq : Z) : M (heap D) (Z + Z * Z) :=
  match fuel with
  | O => cfail
  | S fuel =>
      let* p := on_words (load new_node) in
      if nonnull p then
        let* curr := get_data p in
        if before seq (d_seq curr) then place_loop fuel (rb_left p) p seq
        else if after seq (d_seq curr) then place_loop fuel (rb_right p) p seq
        else cret (inl p)
      else cret (inr (parent, new_node))
  end.

(** The node [a] is linked in: [rb_link_node; rb_insert_color]. *)
Definition link_data (a : Z) (d : D) (parent new_node root : Z) : M (heap D) unit :=
  calloc_data a d ;;;
  on_words (rb_link_node a parent new_node) ;;;
  on_words (rb_insert_color a root).

(** [newdata = calloc(...); ...; rb_first; rb_link_node; rb_insert_color]. *)
Definition link_new (a : Z) (d : D) (parent new_node root : Z) : M (heap D) unit :=
  calloc_data a d ;;;
  let* _ := on_words (rb_first root) in
  on_words (rb_link_node a parent new_node) ;;;
  on_words (rb_insert_color a root).

(** [rb_erase] and [free]. *)
Definition unlink_free (a root : Z) : M (heap D) unit :=
  on_words (rb_erase a root) ;;;
  free_data a.
End code.

(** ** The entries of a buffer *)

(** The addresses of a buffer. *)
Abbreviation owned root t := (footprint root t []).

Section lemmas.
Context {D : Type} (d_seq : D → Z).
Implicit Types (t : tree) (k : path) (h : heap D) (ds : list D).

(** The buffer below [root] is the tree [t] with the entries [ds]. *)
Record buffer (root : Z) (t : tree) (h : heap D) (ds : list D) : Prop := {
  buf_rep : rep root t [] (hwords h);
  buf_rb : rb_tree t;
  buf_small : small t;
  buf_data : Forall2 (λ a d, hdata h !! a = Some d) (inorder t) ds;
}.

Lemma cells_plug par t f : cells (f_addr f) t ⊆ cells par (plug t f).
Proof. destruct f as [[] c a s]; unfold plug; simpl; set_solver. Qed.

Lemma cells_fill root t k : cells (up k) t ⊆ root_cells root (fill t k).
Proof.
  revert t. induction k as [|f k IH]; intros t; simpl; [set_solver|].
  etrans; [apply cells_plug|apply IH].
Qed.

Lemma link_cell root t k : (link_of root k, addr t) ∈ root_cells root (fill t k).
Proof.
  destruct k as [|[d c a s] k]; [simpl; set_solver|].
  apply (cells_fill root (plug t (F d c a s)) k). unfold plug. simpl.
  destruct d; simpl; set_solver.
Qed.

(** The pointer at the end of a path. *)
Lemma rep_link root t k sp (m : mem) : rep root (fill t k) sp m →
  m !! link_of root k = Some (addr t).
Proof.
  intros H. exact (proj1 (Forall_forall _ _) (rep_cells _ _ _ _ H) _ (link_cell root t k)).
Qed.

(** Every node has an entry. *)
Lemma buffer_entry root t h ds a : buffer root t h ds → a ∈ inorder t →
  ∃ d, hdata h !! a = Some d ∧ d ∈ ds.
Proof.
  intros Hb [i Hi]%list_elem_of_lookup.
  destruct (Forall2_lookup_l _ _ _ _ _ (buf_data _ _ _ _ Hb) Hi) as (d & Hd & ?).
  exists d. split; [done|]. by eapply list_elem_of_lookup_2.
Qed.

(** The directions the search took. *)
Definition went (h : heap D) (seq : Z) (f : frame) : Prop :=
  ∃ d, hdata h !! f_addr f = Some d ∧
    match f_side f with
    | L => before seq (d_seq d) = true
    | R => after seq (d_seq d) = true
    end.

Lemma place_loop_spec fuel root t k h seq ds :
  buffer root (fill t k) h ds → (height t < fuel)%nat → Forall (went h seq) k →
  ∃ r, place_loop d_seq fuel (link_of root k) (up k) seq h = Some (r, h) ∧
    match r with
    | inl a => a ∈ inorder (fill t k) ∧ ∃ d, hdata h !! a = Some d ∧
        before seq (d_seq d) = false ∧ after seq (d_seq d) = false
    | inr (parent, link) => ∃ k', parent = up k' ∧ link = link_of root k' ∧
        fill t k = fill E k' ∧ Forall (went h seq) k'
    end.
Proof.
  revert t k. induction fuel as [|fuel IH]; intros t k Hb Hf Hw; [lia|].
  cbn [place_loop]. unfold cbind at 1, on_words, load.
  rewrite (rep_link _ _ _ _ _ (buf_rep _ _ _ _ Hb)).
  destruct t as [|c l a r]; cbn [addr].
  { exists (inr (up k, link_of root k)). destruct h. split; [done|]. exists k. done. }
  assert (a ∈ inorder (fill (T c l a r) k)) as Ha
    by (rewrite inorder_fill; simpl; set_solver).
  rewrite (rep_nonnull _ _ _ _ _ (buf_rep _ _ _ _ Hb) Ha).
  destruct (buffer_entry _ _ _ _ _ Hb Ha) as (d & Hd & _).
  unfold cbind, get_data. simpl hdata. rewrite Hd. simpl in Hf. destruct h as [w dm].
  destruct (before seq (d_seq d)) eqn:Hbef; [|destruct (after seq (d_seq d)) eqn:Haft].
  - apply (IH l (F L c a r :: k)); [done|lia|]. constructor; [by exists d|done].
  - apply (IH r (F R c a l :: k)); [done|lia|]. constructor; [by exists d|done].
  - exists (inl a). split; [done|]. eauto.
Qed.
End lemmas.

(** The directions of a search determine the order on both sides of the place
    it ends at. *)
Lemma path_sides (le : Z → Z → Prop) (P P' : Z → Prop) k xs :
  StronglySorted le (before_path k ++ xs ++ after_path k) →
  (∀ x y, le x y → P y → P x) → (∀ x y, le x y → P' x → P' y) →
  Forall (λ f, match f_side f with L => P' (f_addr f) | R => P (f_addr f) end) k →
  Forall P (before_path k) ∧ Forall P' (after_path k).
Proof.
  intros Hs HP HP' Hk. revert xs Hs. induction Hk as [|[[] c a s] k Hf _ IH]; intros xs Hs; simpl in *.
  - done.
  - destruct (IH (xs ++ a :: inorder s)) as [Hb Ha]; [by rewrite <- app_assoc|].
    split; [done|]. constructor; [done|]. apply Forall_app. split; [|done].
    apply StronglySorted_app_1_r, StronglySorted_app_1_r, StronglySorted_cons in Hs as [Hs _].
    apply Forall_app in Hs as [Hs _]. eapply Forall_impl; [exact Hs|]. simpl. eauto.
  - destruct (IH ((inorder s ++ [a]) ++ xs)) as [Hb Ha]; [by rewrite <- !app_assoc in *|].
    split; [|done]. apply Forall_app. split; [done|]. apply Forall_app. split; [|by constructor].
    apply StronglySorted_app_1_l, StronglySorted_app_1_r in Hs.
    apply Forall_forall. intros x Hx.
    pose proof (StronglySorted_app_1_elem_of _ _ _ x a Hs Hx ltac:(set_solver)) as Hxa.
    eauto.
Qed.

(** ** Creation and release *)

Section blocks.
Context {D : Type}.
Implicit Types (t : tree) (k : path) (h : heap D) (ds : list D).

Lemma fields_NoDup a : NoDup (fields a).
Proof.
  unfold fields, rb_parent_color, rb_right, rb_left.
  repeat (apply list.NoDup_cons; split; [set_unfold; lia|]). apply NoDup_nil_2.
Qed.

Lemma fields_self a : a ∈ fields a.
Proof. unfold fields, rb_parent_color. set_solver. Qed.

(** The addresses of a tree, by node. *)
Lemma owned_spec root t p : p ∈ owned root t ↔ p = root ∨ ∃ a, a ∈ inorder t ∧ p ∈ fields a.
Proof.
  unfold footprint, root_cells. rewrite app_nil_r, fmap_cons, cells_perm.
  rewrite elem_of_cons, !elem_of_app, !list_elem_of_fmap.
  setoid_rewrite list_elem_of_In. simpl. unfold rb_parent_color.
  split.
  - intros [->|[H|[(a & -> & H)|(a & -> & H)]]];
      [by left|right; exists p; tauto|right; exists a; tauto..].
  - intros [->|(a & H & [<-|[<-|[<-|[]]]])]; eauto 10.
Qed.

(** A tree is read from its own words. *)
Lemma rep_frame root t sp (m m' : mem) : rep root t sp m →
  (∀ p, p ∈ footprint root t sp → m' !! p = m !! p) → rep root t sp m'.
Proof.
  intros [Hn Hc Hs Hp] Heq. split; [done| | |done].
  - apply Forall_forall. intros [p v] Hin. simpl. rewrite Heq.
    + exact (proj1 (Forall_forall _ _) Hc _ Hin).
    + unfold footprint. apply elem_of_app. left. apply list_elem_of_fmap. by exists (p, v).
  - apply Forall_forall. intros p Hin. rewrite Heq.
    + exact (proj1 (Forall_forall _ _) Hs _ Hin).
    + unfold footprint. set_solver.
Qed.

(** An empty tree. *)
Lemma rep_E root (m : mem) : m !! root = Some NULL → rep root E [] m.
Proof.
  intros H. split; simpl.
  - apply NoDup_singleton.
  - by constructor.
  - constructor.
  - constructor.
Qed.

Lemma owned_eq root t : owned root t = (root_cells root t).*1.
Proof. apply app_nil_r. Qed.

Lemma footprint_one root t a : footprint root t [a] = owned root t ++ fields a.
Proof. rewrite owned_eq. done. Qed.

Lemma rep_calloc root t (m m' : mem) a : rep root t [] m → ptr_ok a →
  (∀ p, p ∈ fields a → p ∉ owned root t ∧ is_Some (m' !! p)) →
  (∀ p, p ∉ fields a → m' !! p = m !! p) → rep root t [a] m'.
Proof.
  intros Hrep Ha Hf Hm'. assert (rep root t [] m') as [Hn Hc _ Hp].
  { eapply rep_frame; [done|]. intros p Hp. apply Hm'. intros Hpa. by destruct (Hf p Hpa). }
  rewrite app_nil_r in Hp. split.
  - rewrite footprint_one. apply NoDup_app. split; [done|].
    split; [|apply fields_NoDup]. intros p Hp1 Hp2. by destruct (Hf p Hp2).
  - done.
  - change ([a] ≫= fields) with (fields a). apply Forall_forall. intros p Hpa.
    by destruct (Hf p Hpa).
  - apply Forall_app. split; [done|]. by constructor.
Qed.

Lemma rep_free root t (m m' : mem) a : rep root t [a] m →
  (∀ p, p ∉ fields a → m' !! p = m !! p) → rep root t [] m'.
Proof.
  intros Hrep Hm'. pose proof (rep_nodup _ _ _ _ Hrep) as Hn.
  rewrite footprint_one in Hn. apply NoDup_app in Hn as (Hn & Hd & _).
  assert (rep root t [] m) as Hrep0.
  { destruct Hrep as [_ Hc _ Hp]. apply Forall_app in Hp as [Hp _].
    split; [done|done|by constructor|by rewrite app_nil_r]. }
  eapply rep_frame; [done|]. intros p Hp. apply Hm'. by apply Hd.
Qed.

Lemma calloc_words a (m : mem) p :
  (<[rb_parent_color a := 0]> (<[rb_right a := 0]> (<[rb_left a := 0]> m))) !! p =
  if decide (p ∈ fields a) then Some 0 else m !! p.
Proof.
  unfold fields. case_decide as Hp.
  - apply list_elem_of_In in Hp as [<-|[<-|[<-|[]]]].
    + by rewrite lookup_insert_eq.
    + rewrite lookup_insert_ne by (unfold rb_parent_color, rb_right; lia).
      by rewrite lookup_insert_eq.
    + rewrite 2 lookup_insert_ne by (unfold rb_parent_color, rb_right, rb_left; lia).
      by rewrite lookup_insert_eq.
  - rewrite !lookup_insert_ne by (intros <-; set_solver). done.
Qed.

Lemma free_words a (m : mem) p : p ∉ fields a →
  delete (rb_parent_color a) (delete (rb_right a) (delete (rb_left a) m)) !! p = m !! p.
Proof.
  intros Hp. unfold fields in Hp. rewrite !lookup_delete_ne by (intros <-; set_solver). done.
Qed.

Lemma buffer_length root t h ds : buffer root t h ds → length (inorder t) = length ds.
Proof. intros H. exact (Forall2_length _ _ _ (buf_data _ _ _ _ H)). Qed.

(** Entries at other nodes stay. *)
Lemma entries_frame (dm dm' : gmap Z D) xs ds :
  (∀ b, b ∈ xs → dm' !! b = dm !! b) →
  Forall2 (λ b e, dm !! b = Some e) xs ds → Forall2 (λ b e, dm' !! b = Some e) xs ds.
Proof.
  intros Heq H. apply Forall2_same_length_lookup in H as [Hlen H].
  apply Forall2_same_length_lookup. split; [done|]. intros i x y Hx Hy.
  rewrite Heq by (by eapply list_elem_of_lookup_2). by eapply H.
Qed.

Lemma entries_insert (dm : gmap Z D) a d xs ds : a ∉ xs →
  Forall2 (λ b e, dm !! b = Some e) xs ds →
  Forall2 (λ b e, <[a := d]> dm !! b = Some e) xs ds.
Proof. intros Ha. apply entries_frame. intros b Hb. apply lookup_insert_ne. set_solver. Qed.

Lemma entries_delete (dm : gmap Z D) a xs ds : a ∉ xs →
  Forall2 (λ b e, dm !! b = Some e) xs ds →
  Forall2 (λ b e, delete a dm !! b = Some e) xs ds.
Proof. intros Ha. apply entries_frame. intros b Hb. apply lookup_delete_ne. set_solver. Qed.

Lemma link_data_spec root k h ds a d :
  buffer root (fill E k) h ds → ptr_ok a →
  (∀ p, p ∈ fields a → p ∉ owned root (fill E k)) → hdata h !! a = None →
  Z.of_nat (length ds) + 1 < 2 ^ 62 →
  ∃ h' t' n, link_data a d (up k) (link_of root k) root h = Some (tt, h') ∧
    n = length (before_path k) ∧
    inorder t' = before_path k ++ a :: after_path k ∧
    buffer root t' h' (take n ds ++ d :: drop n ds) ∧
    hdata h' = <[a := d]> (hdata h) ∧
    same_except (owned root (fill E k) ++ fields a) (hwords h) (hwords h').
Proof.
  intros Hb Ha Hfr Hnone Hlen. pose proof Hb as [Hrep Hrb Hsm Hd].
  destruct h as [w dm]. unfold link_data, calloc_data, cbind, on_words. cbn [hwords hdata] in *.
  set (w1 := <[rb_parent_color a := 0]> (<[rb_right a := 0]> (<[rb_left a := 0]> w))).
  assert (rep root (fill E k) [a] w1) as Hrep1.
  { apply (rep_calloc _ _ w); [done..| |]; intros p Hp; unfold w1; rewrite calloc_words.
    - rewrite decide_True by done. split; [by apply Hfr|done].
    - by rewrite decide_False. }
  destruct (rb_insert_spec _ _ _ _ Hrep1 Hrb Hsm) as (m' & Hc & Hrep' & Hs).
  unfold cbind in Hc. destruct (rb_link_node a (up k) (link_of root k) w1) as [[[] w2]|]; [|done].
  cbn [hwords]. rewrite Hc. eexists (Heap m' _), (ins_fix (T Red E a E) k), _. split; [done|]. split; [done|].
  assert (inorder (ins_fix (T Red E a E) k) = before_path k ++ a :: after_path k) as Hin
    by (by rewrite ins_fix_inorder, inorder_fill).
  pose proof Hd as Hd0. rewrite inorder_fill in Hd0. simpl in Hd0.
  pose proof (Forall2_length _ _ _ Hd0) as Hl.
  split; [done|]. split; [split|split; [done|]]; simpl.
  - done.
  - apply rb_fill_inv in Hrb as (c & n & HE & Hk). inversion HE; subst.
    apply (ins_fix_rb 0); auto with rbt.
  - unfold small. rewrite nodes_inorder, Hin. rewrite length_app in *. simpl in *. lia.
  - rewrite Hin. apply Forall2_app_inv_l in Hd0 as (ds1 & ds2 & H1 & H2 & ->).
    rewrite take_app_length', drop_app_length' by (by eapply Forall2_length).
    assert (a ∉ before_path k ++ after_path k) as Hnin.
    { intros Hin'. destruct (buffer_entry _ _ _ _ a Hb) as (e & He & _); [|simpl in He; congruence].
      by rewrite inorder_fill. }
    apply Forall2_app; [by apply entries_insert; [set_solver|]|].
    constructor; [by rewrite lookup_insert_eq|]. by apply entries_insert; [set_solver|].
  - rewrite footprint_one in Hs. intros p Hp. rewrite (Hs p Hp). unfold w1.
    rewrite calloc_words, decide_False; [done|]. set_solver.
Qed.

(** [rb_first] reads only. *)
Lemma link_new_spec root k h ds a d :
  buffer root (fill E k) h ds → ptr_ok a →
  (∀ p, p ∈ fields a → p ∉ owned root (fill E k)) → hdata h !! a = None →
  Z.of_nat (length ds) + 1 < 2 ^ 62 →
  ∃ h' t' n, link_new a d (up k) (link_of root k) root h = Some (tt, h') ∧
    n = length (before_path k) ∧
    inorder t' = before_path k ++ a :: after_path k ∧
    buffer root t' h' (take n ds ++ d :: drop n ds) ∧
    hdata h' = <[a := d]> (hdata h) ∧
    same_except (owned root (fill E k) ++ fields a) (hwords h) (hwords h').
Proof.
  intros Hb Ha Hfr Hnone Hlen. destruct (link_data_spec root k h ds a d Hb Ha Hfr Hnone Hlen)
    as (h' & t' & n & Hc & Hrest). exists h', t', n. split; [|exact Hrest]. rewrite <- Hc.
  destruct Hb as [Hrep Hrb Hsm _]. destruct h as [w dm].
  unfold link_new, link_data, calloc_data, cbind, on_words. cbn [hwords hdata] in *.
  assert (rep root (fill E k) [] (<[rb_parent_color a := 0]> (<[rb_right a := 0]> (<[rb_left a := 0]> w)))) as Hrep'.
  { eapply rep_frame; [done|]. intros p Hp. rewrite calloc_words, decide_False; [done|].
    intros Hpa. by apply (Hfr p Hpa). }
  unfold rb_first. by rewrite (first_at_spec L _ _ _ Hrep' Hrb Hsm).
Qed.

Lemma unlink_free_spec root t h ds xs a ys pre d post :
  buffer root t h ds → inorder t = xs ++ a :: ys → ds = pre ++ d :: post →
  length xs = length pre →
  ∃ h' t', unlink_free a root h = Some (tt, h') ∧ inorder t' = xs ++ ys ∧
    buffer root t' h' (pre ++ post) ∧ hdata h' = delete a (hdata h) ∧
    same_except (owned root t) (hwords h) (hwords h').
Proof.
  intros Hb Hin -> Hlen. pose proof Hb as [Hrep Hrb Hsm Hd]. destruct h as [w dm].
  cbn [hwords hdata] in *.
  pose proof (rep_NoDup _ _ _ _ Hrep) as Hnd.
  destruct (rep_split _ _ _ _ _ _ _ Hrep Hin) as (c & l & r & k & -> & -> & ->).
  destruct (rb_erase_spec _ _ _ _ _ _ _ Hrep Hrb Hsm) as (m' & Hc & Hrep' & Hs).
  rewrite Hin in Hd, Hnd. apply Forall2_app_inv_l in Hd as (ds1 & ds2 & H1 & H2 & Heq).
  apply app_inj_1 in Heq as [-> <-]; [|by rewrite <- (Forall2_length _ _ _ H1), Hlen].
  inversion H2 as [|? ? ? ? Ha H3]; subst. unfold unlink_free, cbind, on_words, free_data.
  cbn [hwords]. rewrite Hc. cbn [hwords hdata]. rewrite Ha.
  eexists (Heap _ _), (erase_at c l r k). split; [done|].
  assert (inorder (erase_at c l r k) = (before_path k ++ inorder l) ++ inorder r ++ after_path k)
    as Hin' by (rewrite (erase_at_inorder _ _ a) by done; by rewrite <- !app_assoc).
  split; [done|]. apply NoDup_app in Hnd as (_ & Hnx & [Hny _]%list.NoDup_cons).
  split; [split|split; [done|]]; simpl.
  - eapply rep_free; [done|]. intros p Hp. by apply free_words.
  - by eapply erase_at_rb.
  - unfold small in Hsm |- *. rewrite nodes_inorder, Hin'. rewrite nodes_inorder, Hin in Hsm.
    rewrite (length_app _ (a :: _)) in Hsm. cbn [length] in Hsm. rewrite length_app in Hsm.
    rewrite (length_app (before_path k ++ inorder l)). rewrite !length_app in *. lia.
  - rewrite Hin'. apply Forall2_app; apply entries_delete; [|done..|done].
    intros Hax. by apply (Hnx a Hax); set_solver.
  - intros p Hp. rewrite free_words; [by apply Hs|]. intros Hpa. apply Hp, owned_spec. right.
    exists a. split; [rewrite inorder_fill; simpl; set_solver|done].
Qed.

(** A change of one entry. *)
Lemma buffer_update root t h xs a ys pre d d' post :
  buffer root t h (pre ++ d :: post) → inorder t = xs ++ a :: ys → length xs = length pre →
  buffer root t (Heap (hwords h) (<[a := d']> (hdata h))) (pre ++ d' :: post).
Proof.
  intros Hb Hin Hlen. pose proof Hb as [Hrep Hrb Hsm Hd]. split; [done..|]. simpl.
  pose proof (rep_NoDup _ _ _ _ Hrep) as Hnd. rewrite Hin in Hd, Hnd |- *.
  apply Forall2_app_inv_l in Hd as (ds1 & ds2 & H1 & H2 & Heq).
  apply app_inj_1 in Heq as [-> <-]; [|by rewrite <- (Forall2_length _ _ _ H1), Hlen].
  inversion H2; subst. apply NoDup_app in Hnd as (_ & Hnx & [Hny _]%list.NoDup_cons).
  apply Forall2_app; [|constructor; [by rewrite lookup_insert_eq|by apply entries_insert]].
  apply entries_insert; [|done]. intros Hax. apply (Hnx a Hax). by left.
Qed.
End blocks.
