(* ===== verification/FlowTable.v ===== *)
(** * The table of flows (src/reordering_buffer: reorder_counter.c,
      tcp_reordercounter.c, ip_reordercounter.c, nfqueue.c)

    [reorder_buf] has a list of flow buffers for each source port; the handler
    of each program begins by looking for the buffer with the destination port
    of the packet, and appends a new one if there is none.  The text is the
    same in the four programs up to the type of the buffers, a parameter
    here. *)

From Stdlib Require Import ZArith Lia.
From stdpp Require Import base numbers list gmap option sets.
From S2P Require Import Prelude RbCode.

Open Scope Z_scope.

(** [reorder_buf] (null where there is no entry) and the buffers it leads to. *)
Record table (B : Type) := Table { slots : gmap Z Z; bufs : gmap Z B }.
Arguments Table {B} _ _.
Arguments slots {B} _.
Arguments bufs {B} _.

(** The fields of a buffer the table is made of. *)
Class FlowBuf (B : Type) := {
  b_dport : B → Z;
  b_next : B → Z;
  set_next : Z → B → B;
  b_dport_set_next : ∀ n r, b_dport (set_next n r) = b_dport r;
  b_next_set_next : ∀ n r, b_next (set_next n r) = n;
}.

Section table.
Context `{FlowBuf B}.
Implicit Types (tb : table B) (bs : list Z).

Definition head_of tb (sport : Z) : Z := default NULL (slots tb !! sport).

(** The [while (curr)] loop: the buffer found, or the last one. *)
Fixpoint find_loop (fuel : nat) (dport curr tail : Z) (bm : gmap Z B) : option (Z + Z) :=
  match fuel with
  | O => None
  | S fuel =>
      if nonnull curr then
        match bm !! curr with
        | Some r =>
            if b_dport r =? dport then Some (inl curr)
            else find_loop fuel dport (b_next r) curr bm
        | None => None
        end
      else Some (inr tail)
  end.

(** The buffer of a flow and whether it is new; [fresh] is what [calloc]
    returns and [mk] the new buffer, given the one before it. *)
Definition flow_get (fresh : Z) (mk : Z → B) (sport dport : Z) (tb : table B)
    : option (Z * bool * table B) :=
  if negb (nonnull (head_of tb sport)) then
    Some (fresh, true, Table (<[sport := fresh]> (slots tb)) (<[fresh := mk NULL]> (bufs tb)))
  else
    match find_loop (S (size (bufs tb))) dport (head_of tb sport) (head_of tb sport) (bufs tb) with
    | Some (inl b) => Some (b, false, tb)
    | Some (inr tail) =>
        Some (fresh, true,
              Table (slots tb) (alter (set_next fresh) tail (<[fresh := mk tail]> (bufs tb))))
    | None => None
    end.

(** ** Invariant *)

(** The list from the pointer [p]. *)
Fixpoint chain (bm : gmap Z B) (p : Z) bs : Prop :=
  match bs with
  | [] => p = NULL
  | b :: bs => p = b ∧ nonnull b = true ∧ ∃ r, bm !! b = Some r ∧ chain bm (b_next r) bs
  end.

(** [ch] gives the list of each source port. *)
Record table_ok tb (ch : Z → list Z) : Prop := {
  tok_chain : ∀ sp, chain (bufs tb) (head_of tb sp) (ch sp);
  tok_nodup : ∀ sp, NoDup (ch sp);
  tok_port : ∀ sp sp' b, b ∈ ch sp → b ∈ ch sp' → sp = sp';
  tok_dport : ∀ sp b b' r r', b ∈ ch sp → b' ∈ ch sp → bufs tb !! b = Some r →
    bufs tb !! b' = Some r' → b_dport r = b_dport r' → b = b';
  tok_dom : ∀ b, is_Some (bufs tb !! b) → ∃ sp, b ∈ ch sp;
}.

Lemma chain_lookup bm p bs b : chain bm p bs → b ∈ bs → is_Some (bm !! b) ∧ nonnull b = true.
Proof.
  revert p. induction bs as [|b' bs IH]; intros p Hc Hb; [by apply elem_of_nil in Hb|].
  destruct Hc as (-> & Hn & r & Hr & Hc). apply elem_of_cons in Hb as [->|Hb]; [by eauto|eauto].
Qed.

Lemma chain_frame bm bm' p bs : chain bm p bs →
  (∀ b r, b ∈ bs → bm !! b = Some r → ∃ r', bm' !! b = Some r' ∧ b_next r' = b_next r) →
  chain bm' p bs.
Proof.
  revert p. induction bs as [|b bs IH]; intros p Hc Heq; [done|].
  destruct Hc as (-> & Hn & r & Hr & Hc). split; [done|]. split; [done|].
  destruct (Heq b r) as (r' & Hr' & Hnx); [set_solver|done|]. exists r'. split; [done|].
  rewrite Hnx. apply IH; [done|]. intros b' r0 Hb'. apply Heq. set_solver.
Qed.

(** The search, from a pointer into a list. *)
Lemma find_loop_spec fuel bm dport p bs tail : chain bm p bs → (length bs < fuel)%nat →
  ∃ x, find_loop fuel dport p tail bm = Some x ∧
    match x with
    | inl b => b ∈ bs ∧ ∃ r, bm !! b = Some r ∧ b_dport r = dport
    | inr tl => tl = default tail (list.last bs) ∧
        ∀ b r, b ∈ bs → bm !! b = Some r → b_dport r ≠ dport
    end.
Proof.
  revert fuel p tail. induction bs as [|b bs IH]; intros [|fuel] p tail Hc Hf; try (simpl in Hf; lia).
  - simpl in Hc. subst p. exists (inr tail). split; [done|]. split; [done|]. set_solver.
  - destruct Hc as (-> & Hn & r & Hr & Hc). simpl in Hf. cbn [find_loop]. rewrite Hn, Hr.
    destruct (Z.eqb_spec (b_dport r) dport) as [He|He].
    + exists (inl b). split; [done|]. split; [set_solver|eauto].
    + destruct (IH fuel (b_next r) b Hc ltac:(lia)) as (x & Hx & Hspec). exists x. split; [done|].
      destruct x as [b'|tl].
      * destruct Hspec as [Hb' ?]. split; [set_solver|done].
      * destruct Hspec as [-> Hall]. split; [rewrite last_cons; by destruct (list.last bs)|].
        intros b' r' [->|Hb']%elem_of_cons Hr'; [congruence|eauto].
Qed.

Lemma table_ok_length tb ch sp : table_ok tb ch → (length (ch sp) ≤ size (bufs tb))%nat.
Proof.
  intros Ht. rewrite <- size_dom.
  rewrite <- (size_list_to_set (C := gset Z) (ch sp)) by apply Ht.
  apply subseteq_size. intros b Hb%elem_of_list_to_set. apply elem_of_dom.
  by eapply chain_lookup; [apply Ht|].
Qed.

(** Appending to a list. *)
Lemma chain_snoc bm p bs b r0 : chain bm p bs → NoDup bs → bs ≠ [] → b ∉ bs →
  bm !! b = None → nonnull b = true → b_next r0 = NULL →
  chain (alter (set_next b) (default NULL (list.last bs)) (<[b := r0]> bm)) p (bs ++ [b]).
Proof.
  intros Hc Hnd Hne Hb Hnone Hnn Hnx. revert p Hc. induction bs as [|x bs IH]; intros p Hc; [done|].
  destruct Hc as (-> & Hn & r & Hr & Hc). apply list.NoDup_cons in Hnd as [Hx Hnd].
  assert (x ≠ b) as Hxb by set_solver. simpl app. split; [done|]. split; [done|].
  destruct bs as [|y bs].
  - simpl. exists (set_next b r). rewrite lookup_alter_eq, lookup_insert_ne, Hr by done.
    split; [done|]. rewrite b_next_set_next. split; [done|]. split; [done|].
    exists r0. rewrite lookup_alter_ne, lookup_insert_eq by done. done.
  - exists r. change (list.last (x :: y :: bs)) with (list.last (y :: bs)). split.
    + rewrite lookup_alter_ne, lookup_insert_ne; [done..|]. intros He. apply Hx. rewrite <- He.
      destruct (list.last (y :: bs)) as [z|] eqn:Hl; [|by apply last_None in Hl].
      by apply last_Some_elem_of in Hl.
    + apply IH; [done|done|set_solver|done].
Qed.

(** [r'] is [r] up to the pointer to the next buffer. *)
Definition relinked (r r' : B) : Prop := r' = r ∨ ∃ n, r' = set_next n r.

Lemma relinked_dport r r' : relinked r r' → b_dport r' = b_dport r.
Proof. intros [->|[n ->]]; [done|]. apply b_dport_set_next. Qed.

(** The lists with [b] appended to the one of [sport]. *)
Definition extend (ch : Z → list Z) (sport b : Z) : Z → list Z :=
  λ sp, if decide (sp = sport) then ch sport ++ [b] else ch sp.

Lemma elem_of_extend ch sport b sp x :
  x ∈ extend ch sport b sp ↔ x ∈ ch sp ∨ (sp = sport ∧ x = b).
Proof. unfold extend. case_decide; subst; set_solver. Qed.

Lemma table_ok_extend tb tb' ch sport b r0 : table_ok tb ch → bufs tb !! b = None →
  (∀ sp, chain (bufs tb') (head_of tb' sp) (extend ch sport b sp)) →
  (∀ x, x ≠ b → ∀ r', bufs tb' !! x = Some r' → ∃ r, bufs tb !! x = Some r ∧ relinked r r') →
  bufs tb' !! b = Some r0 →
  (∀ x r, x ∈ ch sport → bufs tb !! x = Some r → b_dport r ≠ b_dport r0) →
  table_ok tb' (extend ch sport b).
Proof.
  intros Ht Hnone Hch Hrel Hr0 Hdp.
  assert (∀ sp, b ∉ ch sp) as Hb.
  { intros sp Hb. destruct (chain_lookup _ _ _ _ (tok_chain _ _ Ht sp) Hb) as [[? ?] _]. congruence. }
  split; [done| | | |].
  - intros sp. unfold extend. case_decide; [|apply Ht]. apply NoDup_app.
    split; [apply Ht|]. split; [set_solver|apply NoDup_singleton].
  - intros sp sp' x [Hx|[-> ->]]%elem_of_extend [Hx'|[-> Hxb]]%elem_of_extend; subst;
      [by eapply tok_port|by destruct (Hb sp)|by destruct (Hb sp')|done].
  - intros sp x x' r r' [Hx|[-> ->]]%elem_of_extend [Hx'|[He ->]]%elem_of_extend Hr Hr' Hd; [| | |done].
    + destruct (Hrel x) with r as (q & Hq & Hqr); [by intros ->; destruct (Hb sp)|done|].
      destruct (Hrel x') with r' as (q' & Hq' & Hqr'); [by intros ->; destruct (Hb sp)|done|].
      rewrite (relinked_dport _ _ Hqr), (relinked_dport _ _ Hqr') in Hd. by eapply tok_dport.
    + subst sp. destruct (Hrel x) with r as (q & Hq & Hqr); [by intros ->; destruct (Hb sport)|done|].
      simplify_eq. rewrite (relinked_dport _ _ Hqr) in Hd. by destruct (Hdp x q).
    + destruct (Hrel x') with r' as (q & Hq & Hqr); [by intros ->; destruct (Hb sport)|done|].
      simplify_eq. rewrite (relinked_dport _ _ Hqr) in Hd. by destruct (Hdp x' q).
  - intros x [r Hr]. setoid_rewrite elem_of_extend. destruct (decide (x = b)) as [->|Hx]; [eauto|].
    destruct (Hrel x Hx r Hr) as (q & Hq & _). destruct (tok_dom _ _ Ht x) as [sp Hsp]; eauto.
Qed.

Section get.
Variables (fresh : Z) (mk : Z → B) (sport dport : Z) (tb : table B) (ch : Z → list Z).
Hypotheses (Ht : table_ok tb ch) (Hn : nonnull fresh = true) (Hnone : bufs tb !! fresh = None)
  (Hmk : ∀ p, b_dport (mk p) = dport ∧ b_next (mk p) = NULL).

Lemma fresh_not_in sp : fresh ∉ ch sp.
Proof.
  intros Hb. destruct (chain_lookup _ _ _ _ (tok_chain _ _ Ht sp) Hb) as [[? ?] _]. congruence.
Qed.

(** What [flow_get] promises. *)
Definition got (b : Z) (new : bool) (tb' : table B) : Prop :=
  if new then
    b = fresh ∧ table_ok tb' (extend ch sport fresh) ∧
    (∀ x r, x ∈ ch sport → bufs tb !! x = Some r → b_dport r ≠ dport) ∧
    (∃ p, bufs tb' !! fresh = Some (mk p)) ∧
    (∀ x, x ≠ fresh → ∀ r', bufs tb' !! x = Some r' → ∃ r, bufs tb !! x = Some r ∧ relinked r r')
  else tb' = tb ∧ b ∈ ch sport ∧ ∃ r, bufs tb !! b = Some r ∧ b_dport r = dport.

Lemma got_first : ch sport = [] →
  got fresh true (Table (<[sport := fresh]> (slots tb)) (<[fresh := mk NULL]> (bufs tb))).
Proof.
  intros Hnil. destruct (Hmk NULL) as [Hmd Hmn].
  assert (∀ x r, x ∈ ch sport → bufs tb !! x = Some r → b_dport r ≠ dport) as Hdp
    by (rewrite Hnil; set_solver).
  assert (∀ x, x ≠ fresh → ∀ r', <[fresh := mk NULL]> (bufs tb) !! x = Some r' →
    ∃ r, bufs tb !! x = Some r ∧ relinked r r') as Hrel.
  { intros x Hx r'. rewrite lookup_insert_ne by done. intros Hr. exists r'. split; [done|by left]. }
  split; [done|]. split; [|split; [done|split; [|done]]]; [|exists NULL; apply lookup_insert_eq].
  eapply table_ok_extend; [done..| |done|apply lookup_insert_eq|by rewrite Hmd].
  intros sp. unfold extend, head_of. simpl. case_decide as Hsp.
  - subst. rewrite Hnil, lookup_insert_eq. simpl. split; [done|]. split; [done|].
    exists (mk NULL). by rewrite lookup_insert_eq.
  - rewrite lookup_insert_ne by done. eapply chain_frame; [apply Ht|]. intros b r Hb Hr.
    exists r. rewrite lookup_insert_ne by congruence. done.
Qed.

Lemma got_append tail : tail = default NULL (list.last (ch sport)) → ch sport ≠ [] →
  (∀ x r, x ∈ ch sport → bufs tb !! x = Some r → b_dport r ≠ dport) →
  got fresh true
    (Table (slots tb) (alter (set_next fresh) tail (<[fresh := mk tail]> (bufs tb)))).
Proof.
  intros Htl Hne Hdp. destruct (Hmk tail) as [Hmd Hmn].
  assert (tail ∈ ch sport) as Hin.
  { destruct (list.last (ch sport)) as [z|] eqn:Hl; [|by apply last_None in Hl].
    simpl in Htl. subst. by apply last_Some_elem_of in Hl. }
  assert (tail ≠ fresh) as Htf by (intros ->; by apply (fresh_not_in sport)).
  assert (alter (set_next fresh) tail (<[fresh := mk tail]> (bufs tb)) !! fresh = Some (mk tail))
    as Hlk by (by rewrite lookup_alter_ne, lookup_insert_eq).
  assert (∀ x, x ≠ fresh → ∀ r', alter (set_next fresh) tail (<[fresh := mk tail]> (bufs tb)) !! x
    = Some r' → ∃ r, bufs tb !! x = Some r ∧ relinked r r') as Hrel.
  { intros x Hx r'. destruct (decide (x = tail)) as [->|Hxt].
    - rewrite lookup_alter_eq, lookup_insert_ne by done.
      intros (r & -> & Hr)%fmap_Some. exists r. split; [done|]. right. eauto.
    - rewrite lookup_alter_ne, lookup_insert_ne by done. intros Hr. exists r'. split; [done|by left]. }
  split; [done|]. split; [|split; [done|split; [by exists tail|done]]].
  eapply table_ok_extend; [done..| |done|exact Hlk|by rewrite Hmd].
  intros sp. unfold extend, head_of. simpl. case_decide as Hsp.
  - subst sp. rewrite Htl at 1. apply chain_snoc; [apply Ht|apply Ht|done|apply fresh_not_in|done..].
  - eapply chain_frame; [apply Ht|]. intros b r Hb Hr. exists r. split; [|done].
    rewrite lookup_alter_ne by (intros <-; by eapply Hsp, tok_port).
    rewrite lookup_insert_ne by congruence. done.
Qed.

Lemma flow_get_spec : ∃ b new tb',
  flow_get fresh mk sport dport tb = Some (b, new, tb') ∧ got b new tb'.
Proof.
  pose proof (tok_chain _ _ Ht sport) as Hc. unfold flow_get.
  destruct (nonnull (head_of tb sport)) eqn:Hh; simpl negb; cbv iota.
  - destruct (find_loop_spec (S (size (bufs tb))) _ dport _ _ (head_of tb sport) Hc) as (x & -> & Hx).
    { pose proof (table_ok_length _ _ sport Ht). lia. }
    destruct x as [b|tl].
    + exists b, false, tb. split; [done|]. by destruct Hx.
    + destruct Hx as [Htl Hall]. do 3 eexists. split; [done|].
      assert (ch sport ≠ []) as Hne by (intros He; rewrite He in Hc; simpl in Hc; by rewrite Hc in Hh).
      apply got_append; [|done|done]. rewrite Htl.
      destruct (list.last (ch sport)) eqn:Hl; [done|by apply last_None in Hl].
  - do 3 eexists. split; [done|]. apply got_first. destruct (ch sport); [done|].
    destruct Hc as (He & Hz & _). rewrite He in Hh. congruence.
Qed.
End get.
End table.
