(* ===== verification/Packet.v ===== *)
(** * Packet headers

    What the handlers of src/reordering_buffer read of a packet: the casts to
    [struct iphdr] and [struct tcphdr] over the bytes of the receive buffer,
    with [ntohs] and [ntohl]. *)

From Stdlib Require Import ZArith Lia.
From stdpp Require Import base numbers list.
From S2P Require Import Prelude.

Open Scope Z_scope.

(** The receive buffer holds [PBUF_SIZ] bytes, zero at the start. *)
Definition byte_at (data : list Z) (i : Z) : Z := u8 (default 0 (data !! Z.to_nat i)).

(** Network byte order. *)
Definition be16 (data : list Z) (i : Z) : Z := byte_at data i * 256 + byte_at data (i + 1).

Definition be32 (data : list Z) (i : Z) : Z := be16 data i * 65536 + be16 data (i + 2).

(** [struct iphdr]. *)
Definition ip_ihl (data : list Z) : Z := Z.land (byte_at data 0) 15.

Definition ip_tot_len (data : list Z) : Z := be16 data 2.

Definition ip_id (data : list Z) : Z := be16 data 4.

(** [struct tcphdr], at [data + 4*ihl]. *)
Definition tcp_off (data : list Z) : Z := 4 * ip_ihl data.

Definition th_sport (data : list Z) : Z := be16 data (tcp_off data).

Definition th_dport (data : list Z) : Z := be16 data (tcp_off data + 2).

Definition th_seq (data : list Z) : Z := be32 data (tcp_off data + 4).

Definition th_off (data : list Z) : Z := Z.shiftr (byte_at data (tcp_off data + 12)) 4.

Definition th_flags (data : list Z) : Z := byte_at data (tcp_off data + 13).

Definition TH_SYN : Z := 2.

(** The variables the handlers compute first. *)
Record packet := Packet {
  p_sport : Z;  (* uint16_t *)
  p_dport : Z;  (* uint16_t *)
  p_size : Z;   (* uint16_t psize *)
  p_seq : Z;    (* uint32_t *)
  p_syn : bool; (* tcp->th_flags & TH_SYN *)
  p_ipid : Z;   (* uint16_t *)
}.

Definition parse_packet (data : list Z) : packet := {|
  p_sport := th_sport data;
  p_dport := th_dport data;
  p_size := u16 (ip_tot_len data - (ip_ihl data + th_off data) * 4);
  p_seq := th_seq data;
  p_syn := negb (Z.land (th_flags data) TH_SYN =? 0);
  p_ipid := ip_id data;
|}.

Lemma byte_at_range data i : 0 ≤ byte_at data i < 256.
Proof. unfold byte_at, u8. apply Z.mod_pos_bound. lia. Qed.

Lemma be16_range data i : 0 ≤ be16 data i < 2 ^ 16.
Proof.
  unfold be16. pose proof (byte_at_range data i). pose proof (byte_at_range data (i + 1)). lia.
Qed.

Lemma be32_range data i : 0 ≤ be32 data i < 2 ^ 32.
Proof.
  unfold be32. pose proof (be16_range data i). pose proof (be16_range data (i + 2)). lia.
Qed.
