(* ===== verification/Reorder.v ===== *)
(** * The reordering counter (src/reordering_buffer/reorder_counter.c)

    The handler [rc_handle_packet] with its flow table, its resequencing buffer
    per flow and the counter, over a heap.  [calloc] is a parameter: it is
    given the addresses of the live blocks and returns that of a new one. *)

From Stdlib Require Import ZArith Lia.
From stdpp Require Import base numbers list gmap option.
From S2P Require Import Prelude RbCode RbTree SeqBuf FlowTable Packet.

Open Scope Z_scope.

(** ** Allocation *)

Class Calloc := { calloc : gset Z → Z }.

(** Blocks are aligned and do not overlap; the blocks of these programs take
    less than 256 bytes. *)
Definition BLOCK : Z := 256.

Class CallocOk `{Calloc} := {
  calloc_ptr : ∀ X, ptr_ok (calloc X);
  calloc_apart : ∀ X x, x ∈ X → calloc X + BLOCK ≤ x ∨ x + BLOCK ≤ calloc X;
}.

(** ** State *)

Record rc_flowdata := RcData { fd_seq : Z; fd_seg_size : Z }.

Record rc_flowbuf := RcBuf {
  fb_sport : Z;
  fb_dport : Z;
  fb_size : Z;           (* uint32_t *)
  fb_expected_next : Z;  (* uint32_t *)
  fb_prev : Z;
  fb_next : Z;
}.

(** The address of [fbuf->root]. *)
Definition fb_root (b : Z) : Z := b + 32.

Definition set_size (n : Z) (r : rc_flowbuf) : rc_flowbuf :=
  RcBuf (fb_sport r) (fb_dport r) n (fb_expected_next r) (fb_prev r) (fb_next r).

Definition set_expected_next (n : Z) (r : rc_flowbuf) : rc_flowbuf :=
  RcBuf (fb_sport r) (fb_dport r) (fb_size r) n (fb_prev r) (fb_next r).

#[export] Program Instance rc_flow_buf : FlowBuf rc_flowbuf := {
  b_dport := fb_dport;
  b_next := fb_next;
  set_next n r := RcBuf (fb_sport r) (fb_dport r) (fb_size r) (fb_expected_next r) (fb_prev r) n;
}.
Solve All Obligations with done.

Record rc_config := RC {
  rc_heap : heap rc_flowdata;
  rc_table : table rc_flowbuf;   (* reorder_buf *)
  rc_reorder_count : Z;          (* uint64_t *)
}.

Definition rc_init : rc_config := RC (Heap ∅ ∅) (Table ∅ ∅) 0.

Definition FBUF_SIZ : Z := 1024.

(** The blocks in use. *)
Definition live (s : rc_config) : gset Z :=
  dom (hdata (rc_heap s)) ∪ dom (bufs (rc_table s)).

(** ** Access to the parts of the state *)

Definition on_heap {A} (c : M (heap rc_flowdata) A) : M rc_config A :=
  λ s, match c (rc_heap s) with
       | Some (v, h) => Some (v, RC h (rc_table s) (rc_reorder_count s))
       | None => None
       end.

Definition get_buf (b : Z) : M rc_config rc_flowbuf :=
  λ s, match bufs (rc_table s) !! b with Some r => Some (r, s) | None => None end.

Definition upd_buf (b : Z) (f : rc_flowbuf → rc_flowbuf) : M rc_config unit :=
  λ s, match bufs (rc_table s) !! b with
       | Some r => Some (tt, RC (rc_heap s) (Table (slots (rc_table s))
                                   (<[b := f r]> (bufs (rc_table s)))) (rc_reorder_count s))
       | None => None
       end.

Definition incr_count : M rc_config unit :=
  λ s, Some (tt, RC (rc_heap s) (rc_table s) (u64 (rc_reorder_count s + 1))).

(** ** The handler *)

Section code.
Context `{Calloc}.

Definition send_packet_at (b node : Z) : M rc_config Z :=
  let* fdata := on_heap (get_data node) in
  upd_buf b (set_expected_next (u32 (fd_seq fdata + fd_seg_size fdata))) ;;;
  on_heap (unlink_free node (fb_root b)) ;;;
  upd_buf b (λ r, set_size (u32 (fb_size r - 1)) r) ;;;
  cret 0.

Definition fresh_block : M rc_config Z := λ s, Some (calloc (live s), s).

Definition insert_or_send_packet (b seq seg_size : Z) : M rc_config Z :=
  let* place := on_heap (place_loop fd_seq rb_fuel (fb_root b) NULL seq) in
  match place with
  | inl node =>
      (* a retransmission: the larger or the newer packet stays *)
      let* curr := on_heap (get_data node) in
      (if seg_size <? fd_seg_size curr then cret tt
       else on_heap (set_data node (RcData (fd_seq curr) seg_size))) ;;;
      cret 0
  | inr (parent, new_node) =>
      upd_buf b (λ r, set_size (u32 (fb_size r + 1)) r) ;;;
      let* newdata := fresh_block in
      on_heap (link_new newdata (RcData seq seg_size) parent new_node (fb_root b)) ;;;
      incr_count ;;;
      cret 0
  end.

(** [while (node && (before(seq, expected_next) || seq == expected_next))]. *)
Fixpoint release_loop (fuel : nat) (b node : Z) : M rc_config unit :=
  match fuel with
  | O => cfail
  | S fuel =>
      if nonnull node then
        let* fdata := on_heap (get_data node) in
        let* fbuf := get_buf b in
        if before (fd_seq fdata) (fb_expected_next fbuf)
           || (fd_seq fdata =? fb_expected_next fbuf) then
          send_packet_at b node ;;;
          let* node := on_heap (on_words (rb_first (fb_root b))) in
          release_loop fuel b node
        else cret tt
      else cret tt
  end.

(** One more iteration than there are entries. *)
Definition release (b node : Z) : M rc_config unit :=
  λ s, release_loop (S (size (hdata (rc_heap s)))) b node s.

(** The buffer of the flow, created if the flow is new. *)
Definition get_flow (sport dport seq : Z) : M rc_config Z :=
  λ s, match flow_get (calloc (live s)) (λ prev, RcBuf sport dport 0 seq prev NULL)
               sport dport (rc_table s) with
       | Some (b, new, tb) =>
           let w := hwords (rc_heap s) in
           let w := if new : bool then <[fb_root b := NULL]> w else w in
           Some (b, RC (Heap w (hdata (rc_heap s))) tb (rc_reorder_count s))
       | None => None
       end.

(** The resequencing algorithm, on the buffer [b] of the packet's flow. *)
Definition resequence (p : packet) (b : Z) : M rc_config Z :=
  let* fbuf := get_buf b in
  if before (p_seq p) (fb_expected_next fbuf) || (p_seq p =? fb_expected_next fbuf) then
    (if p_syn p then upd_buf b (set_expected_next (u32 (p_seq p + 1)))
     else upd_buf b (set_expected_next (u32 (p_seq p + p_size p)))) ;;;
    let* node := on_heap (on_words (rb_first (fb_root b))) in
    release b node ;;;
    cret 1
  else if fb_size fbuf <? FBUF_SIZ then
    insert_or_send_packet b (p_seq p) (p_size p)
  else
    let* first_node := on_heap (on_words (rb_first (fb_root b))) in
    let* lowest := on_heap (get_data first_node) in
    (if fd_seq lowest <=? p_seq p then
       let* _ := send_packet_at b first_node in
       let* _ := insert_or_send_packet b (p_seq p) (p_size p) in
       cret tt
     else cret tt) ;;;
    cret (-1).

(** The handler after the headers are read. *)
Definition rc_handle (p : packet) : M rc_config Z :=
  let* b := get_flow (p_sport p) (p_dport p) (p_seq p) in
  resequence p b.

Definition rc_handle_packet (data : list Z) : M rc_config Z := rc_handle (parse_packet data).

(** The [while (recvfrom(...) > 0)] loop of [main]: the contents of the buffer
    after each [recvfrom]. *)
Fixpoint rc_run (received : list (list Z)) : M rc_config unit :=
  match received with
  | [] => cret tt
  | data :: received => let* _ := rc_handle_packet data in rc_run received
  end.
End code.
