(* ===== verification/ReorderSpec.v ===== *)
(** * What the reordering counter computes

    An abstract resequencer over unbounded sequence numbers and sorted lists,
    one step per packet, and the lemmas that relate the 32-bit comparison of
    the code and the search in its trees to it.  ReorderSim.v shows that the
    code implements these steps. *)

From Stdlib Require Import ZArith Lia.
From stdpp Require Import base numbers list gmap option sets sorting.
From S2P Require Import Prelude RbCode RbTree RbRefine SeqBuf Reorder.

Open Scope Z_scope.

(** ** The abstract resequencer *)

(** A flow: the number expected next, and the packets held back as numbers and
    lengths in increasing order. *)
Record aflow := AFlow { a_exp : Z; a_buf : list (Z * Z) }.

(** Hold a packet back; of two with the same number the longer one is kept, the
    newer one if they are equally long.  Whether the number is new. *)
Fixpoint a_place (n len : Z) (buf : list (Z * Z)) : list (Z * Z) * bool :=
  match buf with
  | [] => ([(n, len)], true)
  | (s, l) :: rest =>
      if n <? s then ((n, len) :: buf, true)
      else if s <? n then ((s, l) :: (a_place n len rest).1, (a_place n len rest).2)
      else ((s, if len <? l then l else len) :: rest, false)
  end.

(** Let go of the packets that are due. *)
Fixpoint a_release (e : Z) (buf : list (Z * Z)) : Z * list (Z * Z) :=
  match buf with
  | [] => (e, [])
  | (s, l) :: rest => if s <=? e then a_release (s + l) rest else (e, buf)
  end.

(** The flow after the packet, and how many packets count as reordered. *)
Definition a_insert (n len : Z) (f : aflow) : aflow * Z :=
  (AFlow (a_exp f) (a_place n len (a_buf f)).1, if (a_place n len (a_buf f)).2 then 1 else 0).

Definition a_step (n len : Z) (syn : bool) (f : aflow) : aflow * Z :=
  if n <=? a_exp f then
    let '(e, buf) := a_release (if syn then n + 1 else n + len) (a_buf f) in
    (AFlow e buf, 0)
  else if Z.of_nat (length (a_buf f)) <? FBUF_SIZ then a_insert n len f
  else
    match a_buf f with
    | (s, l) :: rest =>
        if u32 s <=? u32 n then a_insert n len (AFlow (s + l) rest) else (f, 0)
    | [] => (f, 0)
    end.

(** ** Windows *)

(** Numbers less than half the 32-bit circle apart. *)
Definition window (lo x : Z) : Prop := lo ≤ x < lo + 2 ^ 31.

(** The number of the window that [v] stands for. *)
Definition unwrap (lo v : Z) : Z := lo + u32 (v - lo).

Lemma u32_sub x y : u32 (u32 x - u32 y) = u32 (x - y).
Proof. unfold u32. by rewrite <- Zminus_mod. Qed.

Lemma before_window lo x y : window lo x → window lo y → before (u32 x) (u32 y) = (x <? y).
Proof.
  intros Hx Hy. unfold before, window in *. rewrite u32_sub. unfold s32, u32.
  rewrite Zplus_mod_idemp_l. destruct (Z.ltb_spec x y).
  - assert ((x - y + 2 ^ 31) mod 2 ^ 32 = x - y + 2 ^ 31) as -> by (apply Z.mod_small; lia).
    apply Z.ltb_lt. lia.
  - assert ((x - y + 2 ^ 31) mod 2 ^ 32 = x - y + 2 ^ 31) as -> by (apply Z.mod_small; lia).
    apply Z.ltb_ge. lia.
Qed.

Lemma u32_window lo x y : window lo x → window lo y → (u32 x =? u32 y) = (x =? y).
Proof.
  intros Hx Hy. unfold window in *. destruct (Z.eqb_spec x y) as [->|Hne]; [by rewrite Z.eqb_refl|].
  apply Z.eqb_neq. intros He. pose proof (u32_sub x y) as Hs. rewrite He, Z.sub_diag in Hs.
  unfold u32 in Hs. rewrite Z.mod_0_l in Hs by done. symmetry in Hs.
  apply Z.mod_divide in Hs as [q Hq]; [|done]. lia.
Qed.

Lemma due_window lo x y : window lo x → window lo y →
  before (u32 x) (u32 y) || (u32 x =? u32 y) = (x <=? y).
Proof.
  intros Hx Hy. rewrite (before_window lo), (u32_window lo) by done.
  destruct (Z.ltb_spec x y), (Z.eqb_spec x y), (Z.leb_spec x y); simpl; lia || done.
Qed.

Lemma unwrap_u32 lo x : window lo x → unwrap lo (u32 x) = x.
Proof.
  intros Hx. unfold unwrap, window in *. replace (u32 (u32 x - lo)) with (x - lo); [lia|].
  unfold u32. rewrite Zminus_mod_idemp_l. rewrite Z.mod_small; lia.
Qed.

(** ** Well-formed flows *)

Record flow_wf (lo : Z) (f : aflow) : Prop := {
  wf_exp : window lo (a_exp f);
  wf_buf : Forall (λ e, window lo e.1 ∧ window lo (e.1 + e.2)) (a_buf f);
  wf_sorted : StronglySorted Z.lt (a_buf f).*1;
  wf_size : Z.of_nat (length (a_buf f)) ≤ FBUF_SIZ;
}.

(** The place of a number in a sorted buffer. *)
Lemma a_place_new n len pre post :
  Forall (λ e, e.1 < n) pre → Forall (λ e, n < e.1) post →
  a_place n len (pre ++ post) = (pre ++ (n, len) :: post, true).
Proof.
  intros Hpre Hpost. induction Hpre as [|[s l] pre Hs _ IH]; simpl in *.
  - destruct Hpost as [|[s l] post Hs _]; simpl in *; [done|].
    by rewrite (proj2 (Z.ltb_lt n s)).
  - rewrite (proj2 (Z.ltb_ge n s)) by lia. rewrite (proj2 (Z.ltb_lt s n)) by done. by rewrite IH.
Qed.

Lemma a_place_old n len pre l post :
  Forall (λ e, e.1 < n) pre →
  a_place n len (pre ++ (n, l) :: post) =
  (pre ++ (n, if len <? l then l else len) :: post, false).
Proof.
  intros Hpre. induction Hpre as [|[s l'] pre Hs _ IH]; simpl in *.
  - by rewrite Z.ltb_irrefl.
  - rewrite (proj2 (Z.ltb_ge n s)) by lia. rewrite (proj2 (Z.ltb_lt s n)) by done. by rewrite IH.
Qed.

(** The directions of a search, for numbers. *)
Lemma path_sorted (key : Z → Z) n k xs :
  StronglySorted (λ a b, key a < key b) (before_path k ++ xs ++ after_path k) →
  Forall (λ f, match f_side f with L => n < key (f_addr f) | R => key (f_addr f) < n end) k →
  Forall (λ a, key a < n) (before_path k) ∧ Forall (λ a, n < key a) (after_path k).
Proof.
  intros Hs Hk. apply (path_sides _ (λ a, key a < n) (λ a, n < key a) _ _ Hs); [lia..|].
  eapply Forall_impl; [exact Hk|]. by intros [[] ???].
Qed.

(** ** The abstract steps keep flows well-formed *)

Abbreviation sorted_buf buf := (StronglySorted Z.lt (buf.*1)).

(** A number is in a sorted buffer, or has one place in it. *)
Lemma a_place_cases n (buf : list (Z * Z)) : sorted_buf buf →
  ∃ pre post, Forall (λ e, e.1 < n) pre ∧ Forall (λ e, n < e.1) post ∧
    (buf = pre ++ post ∨ ∃ l, buf = pre ++ (n, l) :: post).
Proof.
  induction buf as [|[s l] buf IH]; intros Hs.
  { exists [], []. split; [constructor|]. split; [constructor|by left]. }
  rewrite fmap_cons in Hs. apply StronglySorted_cons in Hs as [Hall Hs]. simpl in Hall.
  rewrite Forall_fmap in Hall. destruct (Z.lt_trichotomy n s) as [Hn|[->|Hn]].
  - exists [], ((s, l) :: buf). split; [constructor|]. split; [|by left]. constructor; [done|].
    eapply Forall_impl; [exact Hall|]. simpl. lia.
  - exists [], buf. split; [constructor|]. split; [exact Hall|]. right. by exists l.
  - destruct (IH Hs) as (pre & post & Hpre & Hpost & Hcase).
    exists ((s, l) :: pre), post. split; [by constructor|]. split; [done|].
    destruct Hcase as [->|[l' ->]]; [by left|right; by exists l'].
Qed.

Lemma sorted_insert n (pre post : list (Z * Z)) v : sorted_buf pre → sorted_buf post →
  Forall (λ e, e.1 < n) pre → Forall (λ e, n < e.1) post → sorted_buf (pre ++ (n, v) :: post).
Proof.
  intros Hp Hq Hpre Hpost. rewrite fmap_app, fmap_cons. apply StronglySorted_app_2.
  - intros x y (e & -> & He)%list_elem_of_fmap Hy.
    pose proof (proj1 (Forall_forall _ _) Hpre e He) as H1. simpl in H1.
    apply elem_of_cons in Hy as [->|(e' & -> & He')%list_elem_of_fmap]; [done|].
    pose proof (proj1 (Forall_forall _ _) Hpost e' He') as H2. simpl in H2. lia.
  - done.
  - apply StronglySorted_cons. split; [|done]. by rewrite Forall_fmap.
Qed.

Lemma a_place_wf lo n len (buf : list (Z * Z)) :
  sorted_buf buf → Forall (λ e, window lo e.1 ∧ window lo (e.1 + e.2)) buf →
  window lo n → window lo (n + len) →
  sorted_buf (a_place n len buf).1 ∧
  Forall (λ e, window lo e.1 ∧ window lo (e.1 + e.2)) (a_place n len buf).1 ∧
  Z.of_nat (length (a_place n len buf).1) =
    Z.of_nat (length buf) + (if (a_place n len buf).2 then 1 else 0).
Proof.
  intros Hs Hw Hn Hl. destruct (a_place_cases n buf Hs) as (pre & post & Hpre & Hpost & [->|[l ->]]).
  - rewrite a_place_new by done. rewrite fmap_app in Hs.
    apply StronglySorted_app in Hs as (_ & Hs1 & Hs2). apply Forall_app in Hw as [Hw1 Hw2].
    split; [by apply sorted_insert|]. split; [apply Forall_app; split; [|constructor]; done|].
    simpl. rewrite !length_app. simpl. lia.
  - rewrite a_place_old by done. rewrite fmap_app, fmap_cons in Hs.
    apply StronglySorted_app in Hs as (_ & Hs1 & [_ Hs2]%StronglySorted_cons).
    apply Forall_app in Hw as [Hw1 [Hwn Hw2]%Forall_cons_iff].
    split; [by apply sorted_insert|]. split.
    + apply Forall_app. split; [done|]. constructor; [|done]. simpl in *. by destruct (len <? l).
    + simpl. rewrite !length_app. simpl. lia.
Qed.

Lemma a_release_wf lo e (buf : list (Z * Z)) :
  window lo e → sorted_buf buf → Forall (λ e, window lo e.1 ∧ window lo (e.1 + e.2)) buf →
  window lo (a_release e buf).1 ∧ sorted_buf (a_release e buf).2 ∧
  Forall (λ e, window lo e.1 ∧ window lo (e.1 + e.2)) (a_release e buf).2 ∧
  (length (a_release e buf).2 ≤ length buf)%nat.
Proof.
  revert e. induction buf as [|[s l] buf IH]; intros e He Hs Hw; simpl; [done|].
  case_match; [|done]. rewrite fmap_cons in Hs. apply StronglySorted_cons in Hs as [_ Hs].
  apply Forall_cons_iff in Hw as [[_ Hsl] Hw]. simpl in Hsl.
  destruct (IH (s + l) Hsl Hs Hw) as (H1 & H2 & H3 & H4). split_and!; [done..|lia].
Qed.

Lemma a_insert_wf lo n len f : flow_wf lo f → Z.of_nat (length (a_buf f)) < FBUF_SIZ →
  window lo n → window lo (n + len) → flow_wf lo (a_insert n len f).1.
Proof.
  intros [He Hw Hs Hz] Hlt Hn Hl. unfold a_insert.
  destruct (a_place_wf lo n len (a_buf f) Hs Hw Hn Hl) as (H2 & H3 & H4).
  split; simpl; [done..|]. rewrite H4. case_match; lia.
Qed.

(** Taking the lowest packet out. *)
Lemma pop_wf lo f s l rest : flow_wf lo f → a_buf f = (s, l) :: rest →
  flow_wf lo (AFlow (s + l) rest).
Proof.
  intros [He Hw Hs Hz] Hb. rewrite Hb in *. rewrite fmap_cons in Hs.
  apply StronglySorted_cons in Hs as [_ Hs]. apply Forall_cons_iff in Hw as [[_ Hsl] Hw].
  simpl in *. split; simpl; [done..|lia].
Qed.

Lemma a_step_wf lo n len syn f : flow_wf lo f →
  window lo n → window lo (n + len) → window lo (n + 1) → flow_wf lo (a_step n len syn f).1.
Proof.
  intros Hf Hn Hl H1. pose proof Hf as [He Hw Hs Hz]. unfold a_step.
  destruct (n <=? a_exp f).
  - pose proof (a_release_wf lo (if syn then n + 1 else n + len) (a_buf f)) as Hr.
    destruct (a_release _ (a_buf f)) as [e buf]. simpl in Hr.
    destruct Hr as (H2 & H3 & H4 & H5); [by destruct syn|done..|]. split; simpl; [done..|lia].
  - destruct (Z.ltb_spec (Z.of_nat (length (a_buf f))) FBUF_SIZ) as [Hlt|Hge];
      [by apply a_insert_wf|].
    destruct (a_buf f) as [|[s l] rest] eqn:Hb; [done|]. case_match; [|done].
    apply a_insert_wf; [by eapply pop_wf|simpl in *; lia|done..].
Qed.
