(* ===== verification/ReorderSim.v ===== *)
(** * The reordering counter implements the abstract resequencer

    [loc] relates one flow of the state to an abstract flow; [frame_step] says
    that a computation leaves the other flows alone.  Each function of
    reorder_counter.c is shown to take one to the other, then a whole packet
    ([rc_handle_sim]) and a whole run ([rc_run_sim]). *)

From Stdlib Require Import ZArith Lia.
From stdpp Require Import base numbers list gmap option sets sorting.
From S2P Require Import Prelude RbCode RbTree RbRefine RbWalk RbMem SeqBuf FlowTable Packet Reorder ReorderSpec.

Open Scope Z_scope.

Lemma rc_eta s : RC (rc_heap s) (rc_table s) (rc_reorder_count s) = s.
Proof. by destruct s. Qed.

Lemma on_heap_same {A} (c : M (heap rc_flowdata) A) s v :
  c (rc_heap s) = Some (v, rc_heap s) → on_heap c s = Some (v, s).
Proof. intros Hc. unfold on_heap. by rewrite Hc, rc_eta. Qed.

Lemma get_data_same s a d : hdata (rc_heap s) !! a = Some d →
  on_heap (get_data a) s = Some (d, s).
Proof. intros Hd. apply on_heap_same. unfold get_data. by rewrite Hd. Qed.

(** ** Blocks *)

Definition apart (X : gset Z) : Prop :=
  ∀ x y, x ∈ X → y ∈ X → x ≠ y → x + BLOCK ≤ y ∨ y + BLOCK ≤ x.

Definition in_block (b p : Z) : Prop := b ≤ p < b + BLOCK.

Lemma fields_in_block a p : p ∈ fields a → in_block a p.
Proof.
  unfold fields, in_block, BLOCK, rb_parent_color, rb_right, rb_left. set_unfold. lia.
Qed.

Lemma root_in_block b : in_block b (fb_root b).
Proof. unfold in_block, fb_root, BLOCK. lia. Qed.

Lemma block_unique X x y p : apart X → x ∈ X → y ∈ X → in_block x p → in_block y p → x = y.
Proof.
  intros HX Hx Hy Hpx Hpy. destruct (decide (x = y)) as [|Hne]; [done|].
  unfold in_block in *. destruct (HX x y Hx Hy Hne); lia.
Qed.

Lemma live_insert_buf s b r : bufs (rc_table s) !! b = Some r → ∀ r' c,
  live (RC (rc_heap s) (Table (slots (rc_table s)) (<[b := r']> (bufs (rc_table s)))) c) = live s.
Proof. intros Hr r' c. unfold live. simpl. rewrite dom_insert_lookup_L; done. Qed.

(** ** One flow *)

Definition conv (e : Z * Z) : rc_flowdata := RcData (u32 e.1) e.2.

Record loc (lo : Z) (s : rc_config) (b : Z) (t : tree) (f : aflow) : Prop := {
  loc_buf : ∃ r, bufs (rc_table s) !! b = Some r ∧
    fb_size r = Z.of_nat (length (a_buf f)) ∧ fb_expected_next r = u32 (a_exp f);
  loc_tree : buffer (fb_root b) t (rc_heap s) (conv <$> a_buf f);
  loc_wf : flow_wf lo f;
  loc_apart : apart (live s);
  loc_disj : ∀ x, is_Some (hdata (rc_heap s) !! x) → bufs (rc_table s) !! x = None;
}.

Record frame_step (b : Z) (t t' : tree) (s s' : rc_config) : Prop := {
  fr_slots : slots (rc_table s') = slots (rc_table s);
  fr_bufs : ∀ x, x ≠ b → bufs (rc_table s') !! x = bufs (rc_table s) !! x;
  fr_buf : ∀ r, bufs (rc_table s) !! b = Some r →
    ∃ r', bufs (rc_table s') !! b = Some r' ∧ fb_dport r' = fb_dport r ∧ fb_next r' = fb_next r;
  fr_data : ∀ a, is_Some (hdata (rc_heap s) !! a) → a ∉ inorder t →
    hdata (rc_heap s') !! a = hdata (rc_heap s) !! a ∧
    ∀ p, p ∈ fields a → hwords (rc_heap s') !! p = hwords (rc_heap s) !! p;
  fr_root : ∀ x, is_Some (bufs (rc_table s) !! x) → x ≠ b →
    hwords (rc_heap s') !! fb_root x = hwords (rc_heap s) !! fb_root x;
  fr_new : ∀ a, a ∈ inorder t' → a ∈ inorder t ∨ hdata (rc_heap s) !! a = None;
}.

Lemma frame_refl b t s : frame_step b t t s s.
Proof. split; try done; eauto. Qed.

Lemma frame_trans b t t1 t2 s s1 s2 :
  frame_step b t t1 s s1 → frame_step b t1 t2 s1 s2 → frame_step b t t2 s s2.
Proof.
  intros H1 H2.
  assert (∀ a, is_Some (hdata (rc_heap s) !! a) → a ∉ inorder t → a ∉ inorder t1) as Hnot.
  { intros a [d Hd] Ha Ha'. destruct (fr_new _ _ _ _ _ H1 a Ha') as [|Hn]; congruence. }
  split.
  - by rewrite (fr_slots _ _ _ _ _ H2), (fr_slots _ _ _ _ _ H1).
  - intros x Hx. by rewrite (fr_bufs _ _ _ _ _ H2), (fr_bufs _ _ _ _ _ H1).
  - intros r Hr. destruct (fr_buf _ _ _ _ _ H1 r Hr) as (r1 & Hr1 & Hd1 & Hn1).
    destruct (fr_buf _ _ _ _ _ H2 r1 Hr1) as (r2 & Hr2 & Hd2 & Hn2).
    exists r2. split; [done|]. split; congruence.
  - intros a Hs Ha. destruct (fr_data _ _ _ _ _ H1 a Hs Ha) as [He1 Hp1].
    destruct (fr_data _ _ _ _ _ H2 a) as [He2 Hp2]; [by rewrite He1|by apply Hnot|].
    split; [congruence|]. intros p Hp. by rewrite Hp2, Hp1.
  - intros x Hx Hne. rewrite (fr_root _ _ _ _ _ H2), (fr_root _ _ _ _ _ H1); try done.
    by rewrite (fr_bufs _ _ _ _ _ H1).
  - intros a Ha. destruct (fr_new _ _ _ _ _ H2 a Ha) as [Ha1|Hn]; [by apply (fr_new _ _ _ _ _ H1)|].
    destruct (hdata (rc_heap s) !! a) as [d|] eqn:Hd; [|by right].
    destruct (decide (a ∈ inorder t)) as [|Hnin]; [by left|].
    destruct (fr_data _ _ _ _ _ H1 a) as [He _]; [done|done|]. congruence.
Qed.

Lemma loc_node_live lo s b t f a : loc lo s b t f → a ∈ inorder t →
  is_Some (hdata (rc_heap s) !! a) ∧ a ∈ live s.
Proof.
  intros Hl Ha. destruct (buffer_entry _ _ _ _ _ (loc_tree _ _ _ _ _ Hl) Ha) as (d & Hd & _).
  split; [done|]. apply elem_of_union_l, elem_of_dom. done.
Qed.

Lemma loc_buf_live lo s b t f : loc lo s b t f → b ∈ live s.
Proof.
  intros Hl. destruct (loc_buf _ _ _ _ _ Hl) as (r & Hr & _).
  apply elem_of_union_r, elem_of_dom. done.
Qed.

(** The words of a flow lie in its own blocks. *)
Lemma owned_block lo s b t f x p : loc lo s b t f → x ∈ live s → x ≠ b → x ∉ inorder t →
  in_block x p → p ∉ owned (fb_root b) t.
Proof.
  intros Hl Hx Hb Hn Hp [->|(a & Ha & Hpa)]%owned_spec.
  - apply Hb. eapply block_unique; [apply Hl|done|by eapply loc_buf_live|done|apply root_in_block].
  - apply Hn. replace x with a; [done|].
    eapply block_unique; [apply Hl|by eapply loc_node_live|done|by apply fields_in_block|done].
Qed.

(** ** [rb_first] *)

Lemma first_loc lo s b t f : loc lo s b t f →
  on_heap (on_words (rb_first (fb_root b))) s = Some (end_of L (inorder t), s).
Proof.
  intros Hl. destruct (loc_tree _ _ _ _ _ Hl) as [Hrep Hrb Hsm _].
  unfold on_heap, on_words, rb_first. rewrite (first_at_spec L _ _ _ Hrep Hrb Hsm).
  by destruct s as [[] ? ?].
Qed.

(** ** A step on one flow *)

(** A heap that differs from [h] at the nodes of the tree [t] below [root] and
    at the new node. *)
Record heap_step (root : Z) (t : tree) (new : option Z) (h h' : heap rc_flowdata) : Prop := {
  hs_data : ∀ a, a ∉ inorder t → new ≠ Some a → hdata h' !! a = hdata h !! a;
  hs_dom : ∀ a, is_Some (hdata h' !! a) → is_Some (hdata h !! a) ∨ new = Some a;
  hs_words : ∀ p, p ∉ owned root t → (∀ a, new = Some a → p ∉ fields a) →
    hwords h' !! p = hwords h !! p;
}.

(** A block that overlaps no block in use. *)
Definition unused (s : rc_config) (a : Z) : Prop :=
  ∀ x, x ∈ live s → a + BLOCK ≤ x ∨ x + BLOCK ≤ a.

Lemma unused_not_live s a : unused s a → a ∉ live s.
Proof. intros Ha Hin. destruct (Ha a Hin); unfold BLOCK in *; lia. Qed.

Lemma unused_block s a x p : unused s a → x ∈ live s → in_block x p → ¬ in_block a p.
Proof. intros Ha Hx Hp Hpa. unfold in_block in *. destruct (Ha x Hx); lia. Qed.

(** The state after the buffer [b] and the heap have changed. *)
Definition with_flow (s : rc_config) (h' : heap rc_flowdata) (b : Z) (r' : rc_flowbuf) (c : Z)
    : rc_config :=
  RC h' (Table (slots (rc_table s)) (<[b := r']> (bufs (rc_table s)))) c.

Section step.
Variables (lo : Z) (s : rc_config) (b : Z) (t : tree) (f : aflow) (r r' : rc_flowbuf)
  (h' : heap rc_flowdata) (t' : tree) (f' : aflow) (new : option Z) (c : Z).
Hypotheses (Hl : loc lo s b t f) (Hr : bufs (rc_table s) !! b = Some r)
  (Hlink : fb_dport r' = fb_dport r ∧ fb_next r' = fb_next r)
  (Hval : fb_size r' = Z.of_nat (length (a_buf f')) ∧ fb_expected_next r' = u32 (a_exp f'))
  (Hbuf : buffer (fb_root b) t' h' (conv <$> a_buf f')) (Hwf : flow_wf lo f')
  (Hstep : heap_step (fb_root b) t new (rc_heap s) h')
  (Hnew : ∀ a, new = Some a → unused s a)
  (Hin : ∀ a, a ∈ inorder t' → a ∈ inorder t ∨ new = Some a).

Lemma step_live x : x ∈ live (with_flow s h' b r' c) → x ∈ live s ∨ new = Some x.
Proof.
  unfold live. simpl. rewrite !elem_of_union, dom_insert_lookup_L by done.
  intros [Hx|Hx]; [|by left; right]. apply elem_of_dom in Hx.
  destruct (hs_dom _ _ _ _ _ Hstep x Hx); [|by right]. left; left. by apply elem_of_dom.
Qed.

Lemma step_loc : loc lo (with_flow s h' b r' c) b t' f'.
Proof.
  split; simpl; [by exists r'; rewrite lookup_insert_eq|done|done| |].
  - intros x y [Hx|Hx]%step_live [Hy|Hy]%step_live Hne.
    + by apply (loc_apart _ _ _ _ _ Hl).
    + destruct (Hnew y Hy x Hx); [right|left]; done.
    + by apply Hnew.
    + simplify_eq.
  - intros x Hx. destruct (hs_dom _ _ _ _ _ Hstep x Hx) as [Hx'|Hx'].
    + assert (x ≠ b) as Hxb.
      { intros ->. rewrite (loc_disj _ _ _ _ _ Hl b Hx') in Hr. done. }
      rewrite lookup_insert_ne by done. by apply (loc_disj _ _ _ _ _ Hl).
    + pose proof (unused_not_live _ _ (Hnew x Hx')) as Hnl. unfold live in Hnl.
      rewrite lookup_insert_ne; [apply not_elem_of_dom; set_solver|].
      intros <-. apply Hnl, elem_of_union_r, elem_of_dom. by exists r.
Qed.

Lemma step_frame : frame_step b t t' s (with_flow s h' b r' c).
Proof.
  assert (∀ a x, new = Some a → x ∈ live s → x ≠ a) as Hna.
  { intros a x Ha Hx ->. by apply (unused_not_live _ _ (Hnew a Ha)). }
  assert (∀ x p, x ∈ live s → x ≠ b → x ∉ inorder t → in_block x p →
    hwords h' !! p = hwords (rc_heap s) !! p) as Hw.
  { intros x p Hx Hxb Hxt Hp. apply (hs_words _ _ _ _ _ Hstep).
    - by eapply owned_block.
    - intros a Ha Hpa. eapply (unused_block s a x p); [by apply Hnew|done..|].
      by apply fields_in_block. }
  split; simpl.
  - done.
  - intros x Hx. by rewrite lookup_insert_ne.
  - intros r0 Hr0. exists r'. rewrite lookup_insert_eq. split; [done|]. simplify_eq. done.
  - intros a Ha Hat. assert (a ∈ live s) as Hal by (by apply elem_of_union_l, elem_of_dom).
    assert (a ≠ b) as Hab.
    { intros ->. rewrite (loc_disj _ _ _ _ _ Hl b Ha) in Hr. done. }
    split.
    + apply (hs_data _ _ _ _ _ Hstep); [done|]. intros Hn. by destruct (Hna a a Hn Hal).
    + intros p Hp. by apply (Hw a); [..|apply fields_in_block].
  - intros x Hx Hxb. apply (Hw x); [by apply elem_of_union_r, elem_of_dom|done| |apply root_in_block].
    intros Hxt. destruct (loc_node_live _ _ _ _ _ _ Hl Hxt) as [Hd _].
    rewrite (loc_disj _ _ _ _ _ Hl x Hd) in Hx. by destruct Hx.
  - intros a Ha. destruct (Hin a Ha) as [|Hn]; [by left|]. right.
    apply not_elem_of_dom. intros Hd. by eapply Hna; [done|apply elem_of_union_l|].
Qed.

Lemma step_sim : loc lo (with_flow s h' b r' c) b t' f' ∧
  frame_step b t t' s (with_flow s h' b r' c).
Proof. split; [apply step_loc|apply step_frame]. Qed.
End step.

(** ** [send_packet_at] *)

(** The lowest packet leaves the buffer. *)
Lemma send_packet_at_sim lo s b t f x l rest :
  loc lo s b t f → a_buf f = (x, l) :: rest →
  ∃ s' t', send_packet_at b (end_of L (inorder t)) s = Some (0, s') ∧
    (loc lo s' b t' (AFlow (x + l) rest) ∧ frame_step b t t' s s') ∧
    rc_reorder_count s' = rc_reorder_count s.
Proof.
  intros Hl Hb. pose proof Hl as [(r & Hr & Hsz & Hex) Htr Hwf Hap Hdj].
  pose proof Htr as [_ _ _ Hd]. rewrite Hb, fmap_cons in Hd.
  destruct (inorder t) as [|a ys] eqn:Hin; [by inversion Hd|]. rewrite end_of_L_cons.
  inversion Hd as [|? ? ? ? Ha Hd']; subst.
  destruct (unlink_free_spec _ t (rc_heap s) _ [] a ys [] (conv (x, l)) (conv <$> rest) Htr Hin)
    as (h' & t' & Hu & Hin' & Hbuf' & Hdata & Hsame); [by rewrite Hb|done|].
  simpl in Hin', Hbuf'. pose proof (pop_wf _ _ _ _ _ Hwf Hb) as Hwf'.
  exists (with_flow s h' b (set_size (u32 (fb_size r - 1)) (set_expected_next
    (u32 (u32 x + l)) r)) (rc_reorder_count s)), t'.
  assert (heap_step (fb_root b) t None (rc_heap s) h') as Hhs.
  { split; rewrite ?Hdata.
    - intros a' Ha' _. rewrite lookup_delete_ne; [done|]. rewrite Hin in Ha'. set_solver.
    - intros a' [d Hd0]. left. apply lookup_delete_Some in Hd0 as [_ Hd0]. by exists d.
    - intros p Hp _. by apply Hsame. }
  assert (fb_size r - 1 = Z.of_nat (length rest)) as Hsz' by (rewrite Hsz, Hb; simpl; lia).
  split; [|split; [|done]].
  - unfold send_packet_at, cbind. unfold on_heap at 1, get_data. rewrite Ha.
    unfold upd_buf at 1. cbn [rc_table rc_heap rc_reorder_count]. rewrite Hr.
    unfold on_heap. cbn [rc_heap rc_table rc_reorder_count]. rewrite Hu.
    unfold upd_buf. cbn [rc_table rc_heap rc_reorder_count bufs slots]. rewrite lookup_insert_eq.
    by rewrite insert_insert_eq.
  - apply (step_sim lo s b t f r _ h' t' _ None); try done.
    + simpl. rewrite Hsz'. pose proof (wf_size _ _ Hwf') as Hz. unfold FBUF_SIZ in Hz. simpl in Hz.
      rewrite u32_small by lia. split; [done|]. unfold u32. by rewrite Zplus_mod_idemp_l.
    + rewrite Hin, Hin'. set_solver.
Qed.

(** ** The order of the nodes *)

(** The number a node stands for. *)
Definition key (lo : Z) (h : heap rc_flowdata) (a : Z) : Z :=
  match hdata h !! a with Some d => unwrap lo (fd_seq d) | None => 0 end.

Lemma entries_conv (dm : gmap Z rc_flowdata) xs buf :
  Forall2 (λ a d, dm !! a = Some d) xs (conv <$> buf) ↔
  Forall2 (λ a e, dm !! a = Some (conv e)) xs buf.
Proof. apply Forall2_fmap_r. Qed.

Lemma key_entries lo h xs buf :
  Forall2 (λ a e, hdata h !! a = Some (conv e)) xs buf →
  Forall (λ e, window lo e.1 ∧ window lo (e.1 + e.2)) buf →
  Forall2 (λ a e, key lo h a = e.1) xs buf.
Proof.
  intros Hd Hw. induction Hd as [|a e xs buf Ha _ IH]; [constructor|].
  apply Forall_cons_iff in Hw as [[He _] Hw]. constructor; [|by apply IH].
  unfold key. rewrite Ha. simpl. by apply unwrap_u32.
Qed.

Lemma key_sorted (kf : Z → Z) xs (buf : list (Z * Z)) :
  Forall2 (λ a e, kf a = e.1) xs buf → sorted_buf buf →
  StronglySorted (λ a b, kf a < kf b) xs.
Proof.
  intros Hk. induction Hk as [|a e xs buf Ha Hk IH]; intros Hs; [constructor|].
  rewrite fmap_cons in Hs. apply StronglySorted_cons in Hs as [Hall Hs].
  constructor; [by apply IH|]. rewrite Forall_fmap in Hall. clear IH Hs.
  induction Hk as [|a' e' xs buf Ha' _ IH]; [constructor|].
  apply Forall_cons_iff in Hall as [He' Hall]. constructor; [simpl in *; lia|by apply IH].
Qed.

Lemma path_addr_in t k f : f ∈ k → f_addr f ∈ inorder (fill t k).
Proof.
  rewrite inorder_fill. induction k as [|[[] c a s] k IH]; [by intros ?%elem_of_nil|..];
    intros [->|Hf]%elem_of_cons; simpl; set_solver.
Qed.

Lemma Forall2_Forall_l (kf : Z → Z) (P : Z → Prop) xs (buf : list (Z * Z)) :
  Forall2 (λ a e, kf a = e.1) xs buf → Forall (λ a, P (kf a)) xs → Forall (λ e, P e.1) buf.
Proof.
  intros Hk Hx. induction Hk as [|a e xs buf Ha _ IH]; [constructor|].
  apply Forall_cons_iff in Hx as [Hx1 Hx2]. constructor; [by rewrite <- Ha|by apply IH].
Qed.

Section insert.
Context `{CallocOk}.
Variables (lo : Z) (s : rc_config) (b : Z) (t : tree) (f : aflow) (n len : Z).
Hypotheses (Hl : loc lo s b t f) (Hn : window lo n) (Hlen : window lo (n + len)).

Lemma loc_entries : Forall2 (λ a e, hdata (rc_heap s) !! a = Some (conv e)) (inorder t) (a_buf f).
Proof. apply entries_conv, (loc_tree _ _ _ _ _ Hl). Qed.

Lemma loc_keys : Forall2 (λ a e, key lo (rc_heap s) a = e.1) (inorder t) (a_buf f).
Proof. apply key_entries; [apply loc_entries|apply (loc_wf _ _ _ _ _ Hl)]. Qed.

Lemma loc_node a d : a ∈ inorder t → hdata (rc_heap s) !! a = Some d →
  window lo (key lo (rc_heap s) a) ∧ fd_seq d = u32 (key lo (rc_heap s) a).
Proof.
  intros [i Hi]%list_elem_of_lookup Hd.
  destruct (Forall2_lookup_l _ _ _ _ _ loc_entries Hi) as (e & He & Ha).
  pose proof (Forall2_lookup_lr _ _ _ _ _ _ loc_keys Hi He) as Hk.
  pose proof (proj1 (Forall_lookup _ _) (wf_buf _ _ (loc_wf _ _ _ _ _ Hl)) _ _ He) as [Hw _].
  simplify_eq. by rewrite Hk.
Qed.

(** The place the search ends at. *)
Lemma loc_place k : t = fill E k → Forall (went fd_seq (rc_heap s) (u32 n)) k →
  let i := length (before_path k) in
  a_place n len (a_buf f) = (take i (a_buf f) ++ (n, len) :: drop i (a_buf f), true).
Proof.
  intros Ht Hk i. pose proof loc_keys as Hkeys. rewrite Ht, inorder_fill in Hkeys. simpl in Hkeys.
  destruct (path_sorted (key lo (rc_heap s)) n k []) as [Hb Ha].
  - simpl. eapply key_sorted; [done|]. apply (loc_wf _ _ _ _ _ Hl).
  - apply Forall_forall. intros fr Hfr.
    destruct (proj1 (Forall_forall _ _) Hk fr Hfr) as (d & Hd & Hdir).
    destruct (loc_node (f_addr fr) d) as [Hw Hseq]; [rewrite Ht; by apply path_addr_in|done|].
    rewrite Hseq in Hdir. unfold after in Hdir.
    destruct (f_side fr); rewrite (before_window lo) in Hdir by done; by apply Z.ltb_lt.
  - apply Forall2_app_inv_l in Hkeys as (pre & post & H1 & H2 & ->).
    unfold i. rewrite take_app_length', drop_app_length' by (by eapply Forall2_length).
    apply a_place_new; [by eapply (Forall2_Forall_l _ (λ z, z < n)) in Hb|].
    eapply (Forall2_Forall_l _ (λ z, n < z)) in Ha; done.
Qed.

(** A number that is held already. *)
Lemma loc_old a d : a ∈ inorder t → hdata (rc_heap s) !! a = Some d →
  before (u32 n) (fd_seq d) = false → after (u32 n) (fd_seq d) = false →
  ∃ pre l post xs ys, a_buf f = pre ++ (n, l) :: post ∧ d = conv (n, l) ∧
    inorder t = xs ++ a :: ys ∧ length xs = length pre ∧ Forall (λ e, e.1 < n) pre.
Proof.
  intros Ha Hd Hb1 Hb2. destruct (loc_node a d Ha Hd) as [Hw Hseq].
  rewrite Hseq in Hb1, Hb2. unfold after in Hb2.
  rewrite (before_window lo) in Hb1, Hb2 by done. apply Z.ltb_ge in Hb1, Hb2.
  assert (key lo (rc_heap s) a = n) as Hk by lia.
  apply list_elem_of_split in Ha as (xs & ys & Hin). pose proof loc_keys as Hkeys.
  pose proof loc_entries as Hent. rewrite Hin in Hkeys, Hent.
  apply Forall2_app_inv_l in Hent as (pre & post & H1 & H2 & Hbuf).
  inversion H2 as [|? [n' l] ? post' Hda H3]; subst.
  exists pre, l, post', xs, ys. rewrite Hbuf in Hkeys.
  apply Forall2_app_inv in Hkeys as [_ Hk2]; [|by eapply Forall2_length].
  inversion Hk2; simplify_eq/=. split; [done|]. split; [by simplify_eq|]. split; [done|].
  split; [by eapply Forall2_length|]. pose proof (wf_sorted _ _ (loc_wf _ _ _ _ _ Hl)) as Hs.
  rewrite Hbuf, fmap_app, fmap_cons in Hs.
  apply Forall_forall. intros e He.
  apply (StronglySorted_app_1_elem_of _ _ _ _ _ Hs); [by apply list_elem_of_fmap_2|by left].
Qed.

Lemma calloc_unused : unused s (calloc (live s)).
Proof. intros x Hx. by apply calloc_apart. Qed.

Lemma calloc_fresh t0 : (∀ a, a ∈ inorder t0 → a ∈ live s) →
  ∀ p, p ∈ fields (calloc (live s)) → p ∉ owned (fb_root b) t0.
Proof.
  intros Ht0 p Hp [->|(a & Ha & Hpa)]%owned_spec.
  - eapply (unused_block s _ b); [apply calloc_unused|by eapply loc_buf_live|apply root_in_block|].
    by apply fields_in_block.
  - eapply (unused_block s _ a); [apply calloc_unused|by apply Ht0|by apply fields_in_block|].
    by apply fields_in_block.
Qed.

(** The number is new. *)
Lemma insert_new k : t = fill E k → Forall (went fd_seq (rc_heap s) (u32 n)) k →
  Z.of_nat (length (a_buf f)) < FBUF_SIZ →
  ∃ s' t', (upd_buf b (λ r, set_size (u32 (fb_size r + 1)) r) ;;;
            let* newdata := fresh_block in
            on_heap (link_new newdata (RcData (u32 n) len) (up k) (link_of (fb_root b) k)
                       (fb_root b)) ;;;
            incr_count ;;; cret 0) s = Some (0, s') ∧
    (loc lo s' b t' (a_insert n len f).1 ∧ frame_step b t t' s s') ∧
    rc_reorder_count s' = u64 (rc_reorder_count s + 1).
Proof.
  intros Ht Hk Hlt. pose proof (loc_place k Ht Hk) as Hpl. cbv zeta in Hpl.
  destruct (loc_buf _ _ _ _ _ Hl) as (r & Hr & Hsz & Hex). pose proof (loc_tree _ _ _ _ _ Hl) as Htr.
  pose proof calloc_unused as Hun. pose proof (unused_not_live _ _ Hun) as Hnl.
  set (a := calloc (live s)) in *.
  assert (hdata (rc_heap s) !! a = None) as Hnone.
  { apply not_elem_of_dom. intros Hd. by apply Hnl, elem_of_union_l. }
  assert (∀ x, x ∈ inorder t → x ∈ live s) as Hlv by (intros x Hx; by eapply loc_node_live).
  rewrite Ht in Htr, Hlv.
  destruct (link_new_spec (fb_root b) k (rc_heap s) (conv <$> a_buf f) a (RcData (u32 n) len) Htr)
    as (h' & t' & i & Hc & Hi & Hin & Hbuf & Hdata & Hsame);
    [apply calloc_ptr|by apply calloc_fresh|done|rewrite length_fmap; unfold FBUF_SIZ in *; lia|].
  exists (with_flow s h' b (set_size (u32 (fb_size r + 1)) r) (u64 (rc_reorder_count s + 1))), t'.
  split; [|split; [|done]].
  - unfold cbind, upd_buf. rewrite Hr. unfold fresh_block. rewrite (live_insert_buf _ _ _ Hr).
    fold a. unfold on_heap. cbn [rc_heap]. rewrite Hc. done.
  - apply (step_sim lo s b t f r _ h' t' (a_insert n len f).1 (Some a)); try done; simpl.
    + rewrite Hpl. simpl. rewrite Hsz, length_app. simpl. rewrite length_take, length_drop.
      rewrite u32_small by (unfold FBUF_SIZ in *; lia). split; [lia|done].
    + rewrite Hpl. simpl. rewrite fmap_app, fmap_cons, fmap_take, fmap_drop.
      by rewrite <- Hi.
    + apply a_insert_wf; [apply (loc_wf _ _ _ _ _ Hl)|done..].
    + split; rewrite ?Hdata.
      * intros x Hx Hxa. rewrite lookup_insert_ne; [done|]. congruence.
      * intros x Hx. destruct (decide (x = a)) as [->|Hxa]; [by right|].
        rewrite lookup_insert_ne in Hx by done. by left.
      * intros p Hp Hpa. apply Hsame. rewrite <- Ht, elem_of_app. intros [|Hp']; [done|].
        by apply (Hpa a).
    + intros x [= <-]. done.
    + intros x. rewrite Hin, Ht, inorder_fill. simpl. rewrite !elem_of_app, elem_of_cons.
      intros [Hx|[->|Hx]]; [by left; left|by right|by left; right].
Qed.

Lemma insert_sim : Z.of_nat (length (a_buf f)) < FBUF_SIZ →
  ∃ s' t', insert_or_send_packet b (u32 n) len s = Some (0, s') ∧
    (loc lo s' b t' (a_insert n len f).1 ∧ frame_step b t t' s s') ∧
    rc_reorder_count s' = (if (a_place n len (a_buf f)).2 then u64 (rc_reorder_count s + 1)
                           else rc_reorder_count s).
Proof.
  intros Hlt. pose proof (loc_tree _ _ _ _ _ Hl) as Htr. pose proof Htr as [Hrep Hrb Hsm _].
  destruct (place_loop_spec fd_seq rb_fuel (fb_root b) t [] (rc_heap s) (u32 n) _ Htr)
    as (place & Hp & Hplace); [by apply rb_tree_depth|constructor|].
  cbn [link_of up] in Hp.
  unfold insert_or_send_packet. unfold cbind at 1. rewrite (on_heap_same _ _ _ Hp).
  destruct place as [a|[parent link]].
  - destruct Hplace as (Ha & d & Hd & Hb1 & Hb2). simpl in Ha.
    destruct (loc_old a d Ha Hd Hb1 Hb2) as (pre & l & post & xs & ys & Hbf & -> & Hin & Hlx & Hpre).
    pose proof (a_place_old n len pre l post Hpre) as Hpo. rewrite <- Hbf in Hpo.
    unfold a_insert. rewrite Hpo. cbn [fst snd].
    unfold cbind. rewrite (get_data_same _ _ _ Hd). cbn [fd_seg_size fd_seq conv fst snd].
    destruct (len <? l) eqn:Hlen'.
    + exists s, t. split; [done|]. split; [|done]. split; [|apply frame_refl].
      destruct f as [e bf]. simpl in *. by rewrite <- Hbf.
    + destruct (loc_buf _ _ _ _ _ Hl) as (r & Hr & Hsz & Hex).
      pose proof (a_insert_wf lo n len f (loc_wf _ _ _ _ _ Hl) Hlt Hn Hlen) as Hwf.
      unfold a_insert in Hwf. rewrite Hpo in Hwf. simpl in Hwf.
      exists (with_flow s (Heap (hwords (rc_heap s)) (<[a := RcData (u32 n) len]> (hdata (rc_heap s))))
                b r (rc_reorder_count s)), t.
      split; [|split; [|done]].
      * unfold on_heap, set_data. rewrite Hd. unfold with_flow.
        rewrite (insert_id (bufs (rc_table s)) b r) by done.
        by destruct (rc_table s).
      * apply (step_sim lo s b t f r r _ t _ None); try done; simpl.
        -- rewrite Hsz, Hbf, !length_app. done.
        -- rewrite fmap_app, fmap_cons. eapply buffer_update; [|done|by rewrite length_fmap].
           by rewrite Hbf, fmap_app, fmap_cons in Htr.
        -- split; simpl; [|intros x Hx; left|done].
           ++ intros x Hx _. rewrite lookup_insert_ne; [done|]. rewrite Hin in Hx. set_solver.
           ++ destruct (decide (x = a)) as [->|Hxa]; [done|]. by rewrite lookup_insert_ne in Hx.
        -- by left.
  - destruct Hplace as (k & -> & -> & Hfill & Hk). simpl in Hfill.
    destruct (insert_new k Hfill Hk Hlt) as (s' & t' & Hc & Hsim & Hcnt).
    exists s', t'. split; [done|]. split; [done|]. rewrite Hcnt.
    by rewrite (loc_place k Hfill Hk).
Qed.
End insert.

(** ** The release of due packets *)

Lemma release_loop_sim fuel lo s b t f : loc lo s b t f → (length (a_buf f) < fuel)%nat →
  ∃ s' t', release_loop fuel b (end_of L (inorder t)) s = Some (tt, s') ∧
    (loc lo s' b t' (AFlow (a_release (a_exp f) (a_buf f)).1 (a_release (a_exp f) (a_buf f)).2) ∧
     frame_step b t t' s s') ∧
    rc_reorder_count s' = rc_reorder_count s.
Proof.
  revert s t f. induction fuel as [|fuel IH]; intros s t f Hl Hf; [lia|].
  pose proof (loc_entries _ _ _ _ _ Hl) as Hent.
  destruct (a_buf f) as [|[x l] rest] eqn:Hb.
  - inversion Hent. exists s, t. split; [done|]. split; [|done]. split; [|apply frame_refl].
    destruct f. simpl in *. by subst.
  - destruct (inorder t) as [|a ys] eqn:Hin; [by inversion Hent|].
    pose proof (rep_nonnull _ _ _ _ a (buf_rep _ _ _ _ (loc_tree _ _ _ _ _ Hl))) as Hnn.
    inversion Hent as [|? ? ? ? Ha _]; subst. cbn [release_loop].
    rewrite end_of_L_cons, Hnn by (rewrite Hin; by left).
    unfold cbind. rewrite (get_data_same _ _ _ Ha).
    destruct (loc_buf _ _ _ _ _ Hl) as (r & Hr & _ & Hex). unfold get_buf. rewrite Hr, Hex.
    pose proof (loc_wf _ _ _ _ _ Hl) as [Hwe Hwb _ _]. rewrite Hb in Hwb.
    apply Forall_cons_iff in Hwb as [[Hwx _] _]. simpl in Hwx. cbn [conv fd_seq fst].
    rewrite (due_window lo) by done. cbn [a_release]. destruct (x <=? a_exp f).
    + destruct (send_packet_at_sim _ _ _ _ _ _ _ _ Hl Hb) as (s1 & t1 & Hc & [Hl1 Hfr1] & Hcnt1).
      rewrite Hin, end_of_L_cons in Hc. rewrite Hc, (first_loc _ _ _ _ _ Hl1).
      destruct (IH _ _ _ Hl1) as (s2 & t2 & Hc2 & [Hl2 Hfr2] & Hcnt2); [simpl in *; lia|].
      exists s2, t2. split; [done|]. split; [|congruence]. split; [done|].
      by eapply frame_trans.
    + exists s, t. split; [done|]. split; [|done]. split; [|apply frame_refl].
      destruct f. simpl in *. by subst.
Qed.

Lemma release_sim lo s b t f : loc lo s b t f →
  ∃ s' t', release b (end_of L (inorder t)) s = Some (tt, s') ∧
    (loc lo s' b t' (AFlow (a_release (a_exp f) (a_buf f)).1 (a_release (a_exp f) (a_buf f)).2) ∧
     frame_step b t t' s s') ∧
    rc_reorder_count s' = rc_reorder_count s.
Proof.
  intros Hl. apply release_loop_sim; [done|].
  pose proof (rep_NoDup _ _ _ _ (buf_rep _ _ _ _ (loc_tree _ _ _ _ _ Hl))) as Hnd.
  rewrite <- (Forall2_length _ _ _ (loc_entries _ _ _ _ _ Hl)).
  apply le_n_S. rewrite <- size_dom, <- (size_list_to_set (C := gset Z)) by done.
  apply subseteq_size. intros a Ha%elem_of_list_to_set. apply elem_of_dom.
  by eapply loc_node_live.
Qed.

(** Another value of [expected_next]. *)
Lemma expect_sim lo s b t f e v : loc lo s b t f → window lo e → v = u32 e →
  ∃ s', upd_buf b (set_expected_next v) s = Some (tt, s') ∧
    (loc lo s' b t (AFlow e (a_buf f)) ∧ frame_step b t t s s') ∧
    rc_reorder_count s' = rc_reorder_count s.
Proof.
  intros Hl He ->. destruct (loc_buf _ _ _ _ _ Hl) as (r & Hr & Hsz & Hex).
  exists (with_flow s (rc_heap s) b (set_expected_next (u32 e) r) (rc_reorder_count s)).
  split; [unfold upd_buf; by rewrite Hr|]. split; [|done].
  apply (step_sim lo s b t f r _ (rc_heap s) t _ None); try done.
  - apply (loc_tree _ _ _ _ _ Hl).
  - by destruct (loc_wf _ _ _ _ _ Hl).
  - split; [done| |done]. by left.
  - by left.
Qed.

(** ** The handler on one flow *)

Lemma count_u64 (v c : Z) (new : bool) : v = u64 c →
  (if new then u64 (v + 1) else v) = u64 (c + (if new then 1 else 0)).
Proof.
  intros ->. unfold u64. destruct new; [by rewrite Zplus_mod_idemp_l|by rewrite Z.add_0_r].
Qed.

(** The buffer is full. *)
Lemma resequence_full `{CallocOk} lo s b t f p n c : loc lo s b t f →
  rc_reorder_count s = u64 c →
  p_seq p = u32 n → window lo n → window lo (n + p_size p) →
  FBUF_SIZ ≤ Z.of_nat (length (a_buf f)) →
  let res := match a_buf f with
             | (x, l) :: rest => if u32 x <=? u32 n then a_insert n (p_size p) (AFlow (x + l) rest)
                                 else (f, 0)
             | [] => (f, 0)
             end in
  ∃ v s' t', (let* first_node := on_heap (on_words (rb_first (fb_root b))) in
       let* lowest := on_heap (get_data first_node) in
       (if fd_seq lowest <=? u32 n then
          let* _ := send_packet_at b first_node in
          let* _ := insert_or_send_packet b (u32 n) (p_size p) in
          cret tt
        else cret tt) ;;;
       cret (-1)) s = Some (v, s') ∧
    (loc lo s' b t' res.1 ∧ frame_step b t t' s s') ∧
    rc_reorder_count s' = u64 (c + res.2).
Proof.
  intros Hl Hcount Hseq Hn Hlen Hge. pose proof (wf_size _ _ (loc_wf _ _ _ _ _ Hl)) as Hz.
  pose proof (loc_entries _ _ _ _ _ Hl) as Hent. unfold cbind. rewrite (first_loc _ _ _ _ _ Hl).
  destruct (a_buf f) as [|[x l] rest] eqn:Hb; [done|]. inversion Hent as [|a ? ys ? Ha _ Hin]; subst.
  rewrite end_of_L_cons, (get_data_same _ _ _ Ha). cbn [conv fd_seq fst].
  destruct (u32 x <=? u32 n).
  - destruct (send_packet_at_sim _ _ _ _ _ _ _ _ Hl Hb) as (s1 & t1 & Hc1 & [Hl1 Hfr1] & Hcnt1).
    rewrite <- Hin, end_of_L_cons in Hc1. rewrite Hc1.
    destruct (insert_sim lo s1 b t1 _ n (p_size p) Hl1 Hn Hlen) as (s2 & t2 & Hc2 & [Hl2 Hfr2] & Hcnt2);
      [simpl in *; lia|].
    rewrite Hc2. exists (-1), s2, t2. split; [done|]. split; [split; [done|by eapply frame_trans]|].
    rewrite Hcnt2, Hcnt1. by apply count_u64.
  - exists (-1), s, t. split; [done|]. simpl. rewrite Z.add_0_r. split; [|done].
    split; [done|apply frame_refl].
Qed.

Lemma resequence_sim `{CallocOk} lo s b t f p n c : loc lo s b t f →
  rc_reorder_count s = u64 c →
  p_seq p = u32 n → window lo n → window lo (n + p_size p) → window lo (n + 1) →
  ∃ v s' t', resequence p b s = Some (v, s') ∧
    (loc lo s' b t' (a_step n (p_size p) (p_syn p) f).1 ∧ frame_step b t t' s s') ∧
    rc_reorder_count s' = u64 (c + (a_step n (p_size p) (p_syn p) f).2).
Proof.
  intros Hl Hcount Hseq Hn Hlen Hn1. destruct (loc_buf _ _ _ _ _ Hl) as (r & Hr & Hsz & Hex).
  unfold resequence, cbind at 1, get_buf. rewrite Hr, Hseq, Hex, Hsz.
  rewrite (due_window lo) by (done || apply (loc_wf _ _ _ _ _ Hl)).
  unfold a_step. destruct (n <=? a_exp f).
  - set (e := if p_syn p then n + 1 else n + p_size p).
    destruct (expect_sim lo s b t f e (u32 e) Hl) as (s1 & Hc1 & [Hl1 Hfr1] & Hcnt1);
      [by unfold e; destruct (p_syn p)|done|].
    destruct (release_sim _ _ _ _ _ Hl1) as (s2 & t2 & Hc2 & [Hl2 Hfr2] & Hcnt2).
    exists 1, s2, t2. simpl in Hl2. destruct (a_release e (a_buf f)) as [e' buf']. simpl in *.
    split; [|split; [split; [done|by eapply frame_trans]|by rewrite Hcnt2, Hcnt1, Z.add_0_r]].
    assert ((if p_syn p then upd_buf b (set_expected_next (u32 (u32 n + 1)))
             else upd_buf b (set_expected_next (u32 (u32 n + p_size p)))) s = Some (tt, s1)) as Hc.
    { unfold e in Hc1. unfold u32 in Hc1 |- *. rewrite !Zplus_mod_idemp_l.
      by destruct (p_syn p). }
    unfold cbind. rewrite Hc, (first_loc _ _ _ _ _ Hl1), Hc2. done.
  - destruct (Z.ltb_spec (Z.of_nat (length (a_buf f))) FBUF_SIZ) as [Hlt|Hge].
    + destruct (insert_sim lo s b t f n (p_size p) Hl Hn Hlen Hlt) as (s' & t' & Hc & Hsim & Hcnt).
      exists 0, s', t'. split; [done|]. split; [done|]. rewrite Hcnt. by apply count_u64.
    + by apply resequence_full.
Qed.
