(* ===== verification/ReorderRun.v ===== *)
(** * Runs of the reordering counter

    [sim] relates the whole state, with all its flows, to a map of abstract
    flows; a packet changes the flow it belongs to ([rc_handle_sim]), and a run
    of the program is a run of the abstract resequencers ([rc_run_sim]). *)

From Stdlib Require Import ZArith Lia.
From stdpp Require Import base numbers list gmap option sets sorting.
From S2P Require Import Prelude RbCode RbTree RbRefine RbWalk RbMem SeqBuf FlowTable Packet Reorder ReorderSpec ReorderSim.

Open Scope Z_scope.

(** ** The abstract program *)

Abbreviation flow_key := (Z * Z)%type.

Abbreviation aflows := (gmap flow_key aflow).

Definition key_of (p : packet) : flow_key := (p_sport p, p_dport p).

(** One packet, whose unbounded sequence number is [n]; the count of reordered
    packets is the second component. *)
Definition a_handle (p : packet) (n : Z) (S : aflows * Z) : aflows * Z :=
  let f := default (AFlow n []) (S.1 !! key_of p) in
  (<[key_of p := (a_step n (p_size p) (p_syn p) f).1]> S.1,
   S.2 + (a_step n (p_size p) (p_syn p) f).2).

(** The received buffers, each with the unbounded number of its packet. *)
Fixpoint a_run (received : list (list Z * Z)) (S : aflows * Z) : aflows * Z :=
  match received with
  | [] => S
  | (data, n) :: received => a_run received (a_handle (parse_packet data) n S)
  end.

(** The numbers of a flow stay in the window that begins at [lo]. *)
Definition packet_ok (lo : flow_key → Z) (dn : list Z * Z) : Prop :=
  let p := parse_packet dn.1 in
  p_seq p = u32 dn.2 ∧ window (lo (key_of p)) dn.2 ∧
  window (lo (key_of p)) (dn.2 + p_size p) ∧ window (lo (key_of p)) (dn.2 + 1).

(** ** The relation *)

Record sim_with (lo : flow_key → Z) (s : rc_config) (A : aflows)
    (ch : Z → list Z) (tr : Z → tree) : Prop := {
  sim_table : table_ok (rc_table s) ch;
  sim_flow : ∀ sp b r, b ∈ ch sp → bufs (rc_table s) !! b = Some r →
    ∃ f, A !! (sp, fb_dport r) = Some f ∧ loc (lo (sp, fb_dport r)) s b (tr b) f;
  sim_back : ∀ sp dp f, A !! (sp, dp) = Some f →
    ∃ b r, b ∈ ch sp ∧ bufs (rc_table s) !! b = Some r ∧ fb_dport r = dp;
  sim_nodes : ∀ sp sp' b b' a, b ∈ ch sp → b' ∈ ch sp' →
    a ∈ inorder (tr b) → a ∈ inorder (tr b') → b = b';
  sim_apart : apart (live s);
  sim_disj : ∀ x, is_Some (hdata (rc_heap s) !! x) → bufs (rc_table s) !! x = None;
}.

Definition sim (lo : flow_key → Z) (s : rc_config) (A : aflows) : Prop :=
  ∃ ch tr, sim_with lo s A ch tr.

Lemma sim_init lo : sim lo rc_init ∅.
Proof.
  exists (λ _, []), (λ _, E). split; try done; try set_solver.
  split; try done; try set_solver.
  - intros sp. apply NoDup_nil_2.
  - by intros b [r Hr].
Qed.

(** A flow is read from its own blocks. *)
Lemma loc_frame lo s s' b t f :
  loc lo s b t f → apart (live s') →
  (∀ x, is_Some (hdata (rc_heap s') !! x) → bufs (rc_table s') !! x = None) →
  (∀ r, bufs (rc_table s) !! b = Some r → ∃ r', bufs (rc_table s') !! b = Some r' ∧
     fb_size r' = fb_size r ∧ fb_expected_next r' = fb_expected_next r) →
  hwords (rc_heap s') !! fb_root b = hwords (rc_heap s) !! fb_root b →
  (∀ a, a ∈ inorder t → hdata (rc_heap s') !! a = hdata (rc_heap s) !! a ∧
     ∀ p, p ∈ fields a → hwords (rc_heap s') !! p = hwords (rc_heap s) !! p) →
  loc lo s' b t f.
Proof.
  intros Hl Hap Hdj Hbuf Hroot Hnodes. destruct Hl as [(r & Hr & Hsz & Hex) [Hrep Hrb Hsm Hd] Hwf _ _].
  destruct (Hbuf r Hr) as (r' & Hr' & Hs' & He').
  split; [exists r'; by rewrite Hs', He'| |done..]. split; [|done..|].
  - eapply rep_frame; [done|]. intros p [->|(a & Ha & Hp)]%owned_spec; [done|].
    destruct (Hnodes a Ha) as [_ Hw]. by apply Hw.
  - eapply entries_frame; [|done]. intros a Ha. by apply Hnodes.
Qed.

(** A step on one flow. *)
Lemma table_ok_frame (tb tb' : table rc_flowbuf) ch : table_ok tb ch →
  slots tb' = slots tb → (∀ x r, bufs tb !! x = Some r → ∃ r', bufs tb' !! x = Some r' ∧
    fb_dport r' = fb_dport r ∧ fb_next r' = fb_next r) →
  (∀ x, is_Some (bufs tb' !! x) → is_Some (bufs tb !! x)) → table_ok tb' ch.
Proof.
  intros Ht Hs Hb Hdom. split; [|apply Ht..| |].
  - intros sp. unfold head_of. rewrite Hs. eapply chain_frame; [apply Ht|].
    intros b r _ Hr. destruct (Hb b r Hr) as (r' & Hr' & _ & Hn). by exists r'.
  - intros sp b b' r r' Hin Hin' Hr Hr' Hd.
    destruct (chain_lookup _ _ _ _ (tok_chain _ _ Ht sp) Hin) as [[q Hq] _].
    destruct (chain_lookup _ _ _ _ (tok_chain _ _ Ht sp) Hin') as [[q' Hq'] _].
    destruct (Hb b q Hq) as (r1 & Hr1 & Hd1 & _). destruct (Hb b' q' Hq') as (r2 & Hr2 & Hd2 & _).
    simplify_eq. eapply tok_dport; [done..|]. simpl in *. congruence.
  - intros b Hb'. by apply (tok_dom _ _ Ht), Hdom.
Qed.

Section step.
Variables (lo : flow_key → Z) (s s' : rc_config) (A : aflows) (ch : Z → list Z) (tr : Z → tree)
  (sp b : Z) (r : rc_flowbuf) (t' : tree) (f' : aflow).
Hypotheses (Hsim : sim_with lo s A ch tr) (Hin : b ∈ ch sp)
  (Hr : bufs (rc_table s) !! b = Some r)
  (Hl : loc (lo (sp, fb_dport r)) s' b t' f') (Hfr : frame_step b (tr b) t' s s').

Lemma sim_frame_table : table_ok (rc_table s') ch.
Proof.
  eapply table_ok_frame; [apply Hsim|apply Hfr| |].
  - intros x r0 Hr0. destruct (decide (x = b)) as [->|Hx]; [by apply (fr_buf _ _ _ _ _ Hfr)|].
    exists r0. by rewrite (fr_bufs _ _ _ _ _ Hfr x Hx).
  - intros x Hx. destruct (decide (x = b)) as [->|Hxb]; [by exists r|].
    by rewrite <- (fr_bufs _ _ _ _ _ Hfr x Hxb).
Qed.

(** The other flows are as they were. *)
Lemma sim_frame_other sp' b' r' : b' ∈ ch sp' → b' ≠ b → bufs (rc_table s') !! b' = Some r' →
  ∃ f, A !! (sp', fb_dport r') = Some f ∧ loc (lo (sp', fb_dport r')) s' b' (tr b') f.
Proof.
  intros Hin' Hne Hr'. rewrite (fr_bufs _ _ _ _ _ Hfr b' Hne) in Hr'.
  destruct (sim_flow _ _ _ _ _ Hsim sp' b' r' Hin' Hr') as (f & Hf & Hlf). exists f.
  split; [done|]. eapply loc_frame; [done|apply Hl|apply Hl| | |].
  - intros r0 Hr0. exists r0. by rewrite (fr_bufs _ _ _ _ _ Hfr b' Hne).
  - by apply (fr_root _ _ _ _ _ Hfr); [exists r'|].
  - intros a Ha. apply (fr_data _ _ _ _ _ Hfr).
    + by eapply loc_node_live.
    + intros Ha'. by apply Hne, (sim_nodes _ _ _ _ _ Hsim sp' sp b' b a).
Qed.

Lemma sim_frame_step : sim lo s' (<[(sp, fb_dport r) := f']> A).
Proof.
  exists ch, (λ x, if decide (x = b) then t' else tr x).
  assert (∀ r', bufs (rc_table s') !! b = Some r' → fb_dport r' = fb_dport r) as Hdp.
  { intros r' Hr'. destruct (fr_buf _ _ _ _ _ Hfr r Hr) as (r1 & Hr1 & Hd & _). by simplify_eq. }
  split; [apply sim_frame_table| | | |apply Hl|apply Hl].
  - intros sp' b' r' Hin' Hr'. case_decide as Hb; [subst b'|].
    + rewrite (tok_port _ _ (sim_table _ _ _ _ _ Hsim) sp' sp b Hin' Hin), (Hdp r' Hr').
      exists f'. by rewrite lookup_insert_eq.
    + destruct (sim_frame_other sp' b' r' Hin' Hb Hr') as (f & Hf & Hlf). exists f.
      split; [|done]. rewrite lookup_insert_ne; [done|]. intros [= <- Hd].
      rewrite (fr_bufs _ _ _ _ _ Hfr b' Hb) in Hr'. apply Hb.
      by eapply (tok_dport _ _ (sim_table _ _ _ _ _ Hsim) sp b' b).
  - intros sp' dp f0 Hf0. destruct (decide ((sp', dp) = (sp, fb_dport r))) as [[= -> ->]|Hne].
    + destruct (fr_buf _ _ _ _ _ Hfr r Hr) as (r1 & Hr1 & Hd & _). by exists b, r1.
    + rewrite lookup_insert_ne in Hf0 by done.
      destruct (sim_back _ _ _ _ _ Hsim sp' dp f0 Hf0) as (b' & r' & Hb' & Hr' & Hd').
      exists b', r'. split; [done|]. split; [|done]. rewrite (fr_bufs _ _ _ _ _ Hfr); [done|].
      intros ->. apply Hne. rewrite (tok_port _ _ (sim_table _ _ _ _ _ Hsim) sp' sp b Hb' Hin).
      by simplify_eq.
  - assert (∀ sp' b' a, b' ∈ ch sp' → b' ≠ b → a ∈ inorder t' → a ∉ inorder (tr b')) as Hdis.
    { intros sp' b' a Hb' Hne Ha Ha'. destruct (fr_new _ _ _ _ _ Hfr a Ha) as [Ha0|Hnone].
      - by apply Hne, (sim_nodes _ _ _ _ _ Hsim sp' sp b' b a).
      - destruct (chain_lookup _ _ _ _ (tok_chain _ _ (sim_table _ _ _ _ _ Hsim) sp') Hb') as [[r' Hr'] _].
        destruct (sim_flow _ _ _ _ _ Hsim sp' b' r' Hb' Hr') as (f & _ & Hlf).
        destruct (loc_node_live _ _ _ _ _ _ Hlf Ha') as [[d Hd] _]. congruence. }
    intros sp1 sp2 b1 b2 a H1 H2 Ha1 Ha2.
    destruct (decide (b1 = b)) as [->|Hb1], (decide (b2 = b)) as [->|Hb2]; [done| | |].
    + by destruct (Hdis sp2 b2 a).
    + by destruct (Hdis sp1 b1 a).
    + by apply (sim_nodes _ _ _ _ _ Hsim sp1 sp2 b1 b2 a).
Qed.
End step.

(** ** A new flow *)

Lemma relinked_fields (r r' : rc_flowbuf) : relinked r r' →
  fb_dport r' = fb_dport r ∧ fb_size r' = fb_size r ∧ fb_expected_next r' = fb_expected_next r.
Proof. by intros [->|[n ->]]. Qed.

Section fresh.
Context `{CallocOk}.
Variables (lo : flow_key → Z) (s : rc_config) (A : aflows) (ch : Z → list Z) (tr : Z → tree)
  (sport dport n seq : Z) (tb : table rc_flowbuf).
Let b := calloc (live s).
Let s' := RC (Heap (<[fb_root b := NULL]> (hwords (rc_heap s))) (hdata (rc_heap s))) tb
             (rc_reorder_count s).
Hypotheses (Hsim : sim_with lo s A ch tr)
  (Hseq : seq = u32 n) (Hn : window (lo (sport, dport)) n)
  (Hgot : got b (λ prev, RcBuf sport dport 0 seq prev NULL) sport dport (rc_table s) ch b true tb).

Lemma fresh_unused : unused s b.
Proof. intros x Hx. by apply calloc_apart. Qed.

Lemma fresh_bufs x : is_Some (bufs tb !! x) → x = b ∨ is_Some (bufs (rc_table s) !! x).
Proof.
  intros [r' Hr']. destruct Hgot as (_ & _ & _ & _ & Hrel).
  destruct (decide (x = b)) as [|Hx]; [by left|]. right.
  destruct (Hrel x Hx r' Hr') as (r & Hr & _). by exists r.
Qed.

Lemma fresh_live x : x ∈ live s' → x = b ∨ x ∈ live s.
Proof.
  unfold live at 1. simpl. intros [Hx|Hx]%elem_of_union; [right; by apply elem_of_union_l|].
  apply elem_of_dom in Hx. destruct (fresh_bufs x Hx); [by left|].
  right. by apply elem_of_union_r, elem_of_dom.
Qed.

Lemma fresh_apart : apart (live s').
Proof.
  pose proof fresh_unused as Hun.
  intros x y [->|Hx]%fresh_live [->|Hy]%fresh_live Hne; [done|by apply Hun| |].
  - destruct (Hun x Hx); [by right|by left].
  - by apply (sim_apart _ _ _ _ _ Hsim).
Qed.

Lemma fresh_disj x : is_Some (hdata (rc_heap s') !! x) → bufs (rc_table s') !! x = None.
Proof.
  simpl. intros Hx. destruct (bufs tb !! x) as [r|] eqn:Hr; [|done].
  destruct (fresh_bufs x (ex_intro _ r Hr)) as [->|Hb].
  - destruct (unused_not_live s b fresh_unused). by apply elem_of_union_l, elem_of_dom.
  - rewrite (sim_disj _ _ _ _ _ Hsim x Hx) in Hb. by destruct Hb.
Qed.

Lemma new_not_in sp : b ∉ ch sp.
Proof.
  intros Hb. destruct (chain_lookup _ _ _ _ (tok_chain _ _ (sim_table _ _ _ _ _ Hsim) sp) Hb)
    as [Hs _].
  destruct (unused_not_live s b fresh_unused). by apply elem_of_union_r, elem_of_dom.
Qed.

(** The flows there were. *)
Lemma fresh_other sp x r : x ∈ ch sp → bufs tb !! x = Some r →
  ∃ f, A !! (sp, fb_dport r) = Some f ∧ loc (lo (sp, fb_dport r)) s' x (tr x) f.
Proof.
  intros Hx Hr. assert (x ≠ b) as Hxb by (intros ->; by apply (new_not_in sp)).
  destruct Hgot as (_ & _ & _ & _ & Hrel). destruct (Hrel x Hxb r Hr) as (r0 & Hr0 & Hre).
  destruct (relinked_fields _ _ Hre) as (Hd & Hs & He). rewrite Hd.
  destruct (sim_flow _ _ _ _ _ Hsim sp x r0 Hx Hr0) as (f & Hf & Hlf). exists f. split; [done|].
  assert (∀ p y, y ∈ live s → in_block y p → p ≠ fb_root b) as Hne.
  { intros p y Hy Hp ->. eapply (unused_block s b y); [apply fresh_unused|done..|apply root_in_block]. }
  eapply loc_frame; [done|apply fresh_apart|apply fresh_disj| | |]; simpl.
  - intros r1 Hr1. exists r. simplify_eq. done.
  - rewrite lookup_insert_ne; [done|]. apply not_eq_sym, (Hne _ x); [|apply root_in_block].
    by eapply loc_buf_live.
  - intros a Ha. split; [done|]. intros p Hp. rewrite lookup_insert_ne; [done|].
    apply not_eq_sym, (Hne _ a); [by eapply loc_node_live|by apply fields_in_block].
Qed.

Lemma fresh_loc : loc (lo (sport, dport)) s' b E (AFlow n []).
Proof.
  destruct Hgot as (_ & _ & _ & [p Hp] & _). split.
  - by exists (RcBuf sport dport 0 seq p NULL).
  - split; simpl; [apply rep_E; by rewrite lookup_insert_eq|exists 0%nat; constructor|done|constructor].
  - split; simpl; [done|constructor|constructor|done].
  - apply fresh_apart.
  - apply fresh_disj.
Qed.

Lemma fresh_sim : sim_with lo s' (<[(sport, dport) := AFlow n []]> A) (extend ch sport b)
    (λ x, if decide (x = b) then E else tr x).
Proof.
  pose proof Hgot as (_ & Htok & Hnodp & [p Hp] & _).
  split; [done| | | |apply fresh_apart|apply fresh_disj].
  - intros sp x r [Hx|[-> ->]]%elem_of_extend Hr.
    + assert (x ≠ b) as Hxb by (intros ->; by apply (new_not_in sp)).
      rewrite decide_False by done. destruct (fresh_other sp x r Hx Hr) as (f & Hf & Hlf).
      exists f. split; [|done]. rewrite lookup_insert_ne; [done|]. intros [= <- Hd].
      destruct Hgot as (_ & _ & _ & _ & Hrel). destruct (Hrel x Hxb r Hr) as (r0 & Hr0 & Hre).
      apply (Hnodp x r0 Hx Hr0). destruct (relinked_fields _ _ Hre) as (Hd' & _). simpl. congruence.
    + rewrite decide_True by done. simpl in Hr.
      assert (r = RcBuf sport dport 0 seq p NULL) as -> by congruence.
      simpl. exists (AFlow n []).
      rewrite lookup_insert_eq. split; [done|apply fresh_loc].
  - intros sp dp f Hf. destruct (decide ((sp, dp) = (sport, dport))) as [[= -> ->]|Hne].
    + exists b, (RcBuf sport dport 0 seq p NULL). split; [apply elem_of_extend; by right|done].
    + rewrite lookup_insert_ne in Hf by done.
      destruct (sim_back _ _ _ _ _ Hsim sp dp f Hf) as (x & r & Hx & Hr & Hd).
      assert (x ∈ extend ch sport b sp) as Hxe by (apply elem_of_extend; by left).
      destruct (chain_lookup _ _ _ _ (tok_chain _ _ Htok sp) Hxe) as [[r' Hr'] _].
      assert (x ≠ b) as Hxb by (intros ->; by apply (new_not_in sp)).
      destruct Hgot as (_ & _ & _ & _ & Hrel). destruct (Hrel x Hxb r' Hr') as (r0 & Hr0 & Hre).
      exists x, r'. split; [apply elem_of_extend; by left|]. split; [done|]. simplify_eq.
      by destruct (relinked_fields _ _ Hre) as (-> & _).
  - intros sp1 sp2 b1 b2 a H1 H2.
    destruct (decide (b1 = b)) as [->|Hb1]; [by intros ?%elem_of_nil|].
    destruct (decide (b2 = b)) as [->|Hb2]; [by intros _ ?%elem_of_nil|].
    apply elem_of_extend in H1 as [H1|[_ ->]]; [|done]. apply elem_of_extend in H2 as [H2|[_ ->]]; [|done].
    by eapply (sim_nodes _ _ _ _ _ Hsim).
Qed.
End fresh.

(** ** A packet and a run *)

Section handle.
Context `{CallocOk}.

Lemma get_flow_sim lo s A p n : sim lo s A →
  p_seq p = u32 n → window (lo (key_of p)) n →
  ∃ b s' A' ch tr r f, get_flow (p_sport p) (p_dport p) (p_seq p) s = Some (b, s') ∧
    sim_with lo s' A' ch tr ∧ b ∈ ch (p_sport p) ∧ bufs (rc_table s') !! b = Some r ∧
    fb_dport r = p_dport p ∧ loc (lo (key_of p)) s' b (tr b) f ∧
    f = default (AFlow n []) (A !! key_of p) ∧ A' = <[key_of p := f]> A ∧
    rc_reorder_count s' = rc_reorder_count s.
Proof.
  intros (ch & tr & Hsim) Hseq Hn.
  pose proof (calloc_ptr (live s)) as Hptr. pose proof (fresh_unused s) as Hun.
  assert (bufs (rc_table s) !! calloc (live s) = None) as Hnone.
  { apply not_elem_of_dom. intros Hd. apply (unused_not_live s _ Hun). by apply elem_of_union_r. }
  destruct (flow_get_spec (calloc (live s)) (λ prev, RcBuf (p_sport p) (p_dport p) 0 (p_seq p) prev NULL)
    (p_sport p) (p_dport p) (rc_table s) ch) as (b & new & tb & Hget & Hgot);
    [apply Hsim|by apply ptr_ok_nonnull|done|done|].
  unfold get_flow. rewrite Hget. destruct new.
  - pose proof Hgot as (-> & _ & Hnodp & [q Hq] & _).
    pose proof (fresh_sim lo s A ch tr _ _ n _ tb Hsim Hseq Hn Hgot) as Hs'.
    assert (A !! key_of p = None) as HA.
    { destruct (A !! key_of p) as [f|] eqn:Hf; [|done].
      destruct (sim_back _ _ _ _ _ Hsim _ _ _ Hf) as (x & r & Hx & Hr & Hd).
      by destruct (Hnodp x r Hx Hr). }
    do 7 eexists. split; [done|]. split; [exact Hs'|]. split; [apply elem_of_extend; by right|].
    split; [exact Hq|]. split; [done|]. rewrite HA. split; [|done].
    rewrite decide_True by done. exact (fresh_loc lo s A ch tr _ _ n _ tb Hsim Hseq Hn Hgot).
  - destruct Hgot as (-> & Hb & r & Hr & Hd).
    destruct (sim_flow _ _ _ _ _ Hsim _ b r Hb Hr) as (f & Hf & Hlf).
    replace (fb_dport r) with (p_dport p) in Hf, Hlf by done. fold (key_of p) in Hf, Hlf.
    exists b, s, A, ch, tr, r, f. rewrite Hf. split.
    { by destruct s as [[] ? ?]. }
    do 4 (split; [done|]). split; [done|]. split; [done|]. split; [|done].
    by rewrite insert_id.
Qed.

Lemma rc_handle_sim lo s A c data n : sim lo s A → packet_ok lo (data, n) →
  rc_reorder_count s = u64 c →
  ∃ v s', rc_handle_packet data s = Some (v, s') ∧
    sim lo s' (a_handle (parse_packet data) n (A, c)).1 ∧
    rc_reorder_count s' = u64 (a_handle (parse_packet data) n (A, c)).2.
Proof.
  intros Hsim (Hseq & Hn & Hlen & Hn1) Hc. simpl in Hseq, Hn, Hlen, Hn1.
  unfold rc_handle_packet, rc_handle. set (p := parse_packet data) in *.
  destruct (get_flow_sim lo s A p n Hsim Hseq Hn)
    as (b & s1 & A1 & ch & tr & r & f & Hget & Hs1 & Hb & Hr & Hd & Hl & Hf & HA1 & Hc1).
  rewrite <- Hc1 in Hc.
  destruct (resequence_sim _ _ _ _ _ p n c Hl Hc Hseq Hn Hlen Hn1) as (v & s2 & t2 & Hres & [Hl2 Hfr] & Hc2).
  exists v, s2. unfold cbind. rewrite Hget. split; [done|]. unfold a_handle. simpl. rewrite <- Hf.
  unfold key_of in *. rewrite <- Hd in *. split.
  - pose proof (sim_frame_step _ _ _ _ _ _ _ _ _ _ _ Hs1 Hb Hr Hl2 Hfr) as Hs2.
    by rewrite HA1, insert_insert_eq in Hs2.
  - exact Hc2.
Qed.

Lemma rc_run_sim lo s A c received : sim lo s A → Forall (packet_ok lo) received →
  rc_reorder_count s = u64 c →
  ∃ s', rc_run received.*1 s = Some (tt, s') ∧ sim lo s' (a_run received (A, c)).1 ∧
    rc_reorder_count s' = u64 (a_run received (A, c)).2.
Proof.
  intros Hsim Hok Hc. revert s A c Hsim Hc. induction Hok as [|[data n] received Hp _ IH];
    intros s A c Hsim Hc; [by exists s|].
  destruct (rc_handle_sim lo s A c data n Hsim Hp Hc) as (v & s1 & Hh & Hs1 & Hc1).
  cbn [a_run]. destruct (a_handle (parse_packet data) n (A, c)) as [A1 c1]. simpl in Hs1, Hc1.
  destruct (IH s1 A1 c1 Hs1 Hc1) as (s2 & Hrun & Hs2 & Hc2). exists s2. split; [|done].
  rewrite fmap_cons. cbn [rc_run fst]. unfold cbind. by rewrite Hh.
Qed.
End handle.
