(* ===== verification/ReorderTheorems.v ===== *)
(** * What the reordering counter guarantees *)

From Stdlib Require Import ZArith Lia.
From stdpp Require Import base numbers list gmap option sets sorting.
From S2P Require Import Prelude RbCode RbTree RbMem SeqBuf FlowTable Packet Reorder ReorderSpec ReorderSim ReorderRun.

Open Scope Z_scope.

(** ** An allocator for the examples: the block after the highest one in use *)

Definition top_block (X : gset Z) : Z := foldr Z.max 0 (elements X).

#[global] Instance sample_calloc : Calloc := {| calloc X := 256 * (top_block X / 256 + 2) |}.

Lemma top_block_ge X x : x ∈ X → x ≤ top_block X.
Proof.
  unfold top_block. intros Hx%elem_of_elements. induction (elements X) as [|y ys IH]; simpl.
  - by apply elem_of_nil in Hx.
  - apply elem_of_cons in Hx as [->|Hx]; [lia|]. specialize (IH Hx). lia.
Qed.

Lemma top_block_nonneg X : 0 ≤ top_block X.
Proof. unfold top_block. induction (elements X); simpl; lia. Qed.

#[global] Instance sample_calloc_ok : CallocOk.
Proof.
  split; intros X; simpl; pose proof (top_block_nonneg X) as H0;
    pose proof (Z.div_pos (top_block X) 256 H0 eq_refl).
  - split; [lia|]. rewrite (Z.mul_comm 256). replace 256 with (64 * 4) by lia.
    rewrite Z.mul_assoc. apply Z.mod_mul. lia.
  - intros x Hx%top_block_ge. right. unfold BLOCK.
    pose proof (Z.mod_pos_bound (top_block X) 256 eq_refl).
    pose proof (Z.div_mod (top_block X) 256). lia.
Qed.

(** ** Packets *)

(** The headers of a packet without options: 20 bytes of IP, 20 of TCP. *)
Definition hi (z : Z) : Z := z / 256.

Definition lo8 (z : Z) : Z := z mod 256.

Definition build_packet (p : packet) : list Z :=
  let len := p_size p + 40 in
  [69; 0; hi len; lo8 len; hi (p_ipid p); lo8 (p_ipid p); 0; 0; 64; 6; 0; 0] ++
  [10; 0; 0; 1; 10; 0; 0; 2] ++
  [hi (p_sport p); lo8 (p_sport p); hi (p_dport p); lo8 (p_dport p)] ++
  [hi (p_seq p / 65536); lo8 (p_seq p / 65536); hi (p_seq p mod 65536); lo8 (p_seq p mod 65536)] ++
  [0; 0; 0; 0; 80; if p_syn p then 2 else 16; 0; 0; 0; 0; 0; 0].

Definition packet_range (p : packet) : Prop :=
  0 ≤ p_sport p < 2 ^ 16 ∧ 0 ≤ p_dport p < 2 ^ 16 ∧ 0 ≤ p_size p < 2 ^ 16 - 40 ∧
  0 ≤ p_seq p < 2 ^ 32 ∧ 0 ≤ p_ipid p < 2 ^ 16.

(** The handlers read from the bytes of a packet the ports, the payload
    size, the sequence number, the SYN flag and the identification that were
    put there, for every packet without header options. *)
Theorem parse_build p : packet_range p → parse_packet (build_packet p) = p.
Proof.
  intros (Hs & Hd & Hz & Hq & Hi). destruct p as [sp dp size seq syn id]. simpl in *.
  assert (∀ z, 0 ≤ z < 2 ^ 16 → u8 (hi z) * 256 + u8 (lo8 z) = z) as H16.
  { intros z Hz'. unfold u8, hi, lo8. change (2 ^ 8) with 256.
    rewrite (Z.mod_small (z / 256)), Z.mod_mod by
      (done || (split; [apply Z.div_pos; lia|apply Z.div_lt_upper_bound; lia])).
    pose proof (Z.div_mod z 256). lia. }
  unfold parse_packet, build_packet. simpl.
  change (ip_ihl _) with 5. unfold th_sport, th_dport, th_seq, th_off, th_flags, tcp_off, ip_id,
    ip_tot_len, be32. change (ip_ihl _) with 5. unfold be16, byte_at. simpl.
  assert (0 ≤ seq / 65536 < 2 ^ 16) as Hh
    by (split; [apply Z.div_pos; lia|apply Z.div_lt_upper_bound; lia]).
  pose proof (Z.mod_pos_bound seq 65536 eq_refl) as Hm. rewrite !H16 by lia. f_equal.
  - change (u8 80 ≫ 4) with 5. rewrite u16_small; lia.
  - pose proof (Z.div_mod seq 65536). lia.
  - by destruct syn.
Qed.

Definition sample_packet (seq size : Z) (syn : bool) : packet := Packet 1000 80 size seq syn 7.

Lemma parse_build_witness :
  parse_packet (build_packet (sample_packet 4000000000 1448 true))
  = sample_packet 4000000000 1448 true.
Proof.
  apply (parse_build (sample_packet 4000000000 1448 true)). unfold packet_range. simpl. lia.
Defined.

(** ** Runs *)

Section runs.
Context `{CallocOk}.

(** C4: the program refines the abstract resequencers.  On any sequence of
    packets whose flows keep their sequence numbers within half the 32-bit
    circle, the loop of [main] handles every packet without failing, the flow
    table, the trees and the buffers of the final state represent the abstract
    flows, each packet having changed its own flow only, and the counter is the
    abstract count. *)
Theorem rc_refines_resequencer lo received : Forall (packet_ok lo) received →
  ∃ s, rc_run received.*1 rc_init = Some (tt, s) ∧
    sim lo s (a_run received (∅, 0)).1 ∧
    rc_reorder_count s = u64 (a_run received (∅, 0)).2.
Proof. intros Hok. by apply rc_run_sim; [apply sim_init|..]. Qed.

(** After any such run every flow's buffer is a red-black tree with as many
    nodes as its [size] field says, never more than [FBUF_SIZ]. *)
Theorem rc_buffers_bounded lo received s b r : Forall (packet_ok lo) received →
  rc_run received.*1 rc_init = Some (tt, s) → bufs (rc_table s) !! b = Some r →
  fb_size r ≤ FBUF_SIZ ∧
  ∃ t, rep (fb_root b) t [] (hwords (rc_heap s)) ∧ rb_tree t ∧ fb_size r = Z.of_nat (nodes t).
Proof.
  intros Hok Hrun Hr. destruct (rc_run_sim lo rc_init ∅ 0 received) as (s' & Hrun' & (ch & tr & Hs) & _);
    [apply sim_init|done..|]. rewrite Hrun in Hrun'. simplify_eq.
  destruct (tok_dom _ _ (sim_table _ _ _ _ _ Hs) b ltac:(by exists r)) as [sp Hb].
  destruct (sim_flow _ _ _ _ _ Hs sp b r Hb Hr) as (f & _ & Hl).
  destruct (loc_buf _ _ _ _ _ Hl) as (r' & Hr' & Hsz & _). simplify_eq. rewrite Hsz.
  split; [apply (loc_wf _ _ _ _ _ Hl)|]. exists (tr b).
  destruct (loc_tree _ _ _ _ _ Hl) as [Hrep Hrb _ _]. split; [done|]. split; [done|].
  rewrite nodes_inorder. f_equal. symmetry. eapply Forall2_length, loc_entries, Hl.
Qed.

(** Every packet continues its flow where the one before it ended; [e] has the
    number each flow expects. *)
Fixpoint in_order (e : gmap flow_key Z) (received : list (list Z * Z)) : Prop :=
  match received with
  | [] => True
  | (data, n) :: received =>
      let p := parse_packet data in
      (e !! key_of p = None ∨ e !! key_of p = Some n) ∧
      in_order (<[key_of p := if p_syn p then n + 1 else n + p_size p]> e) received
  end.

Lemma in_order_count received A c e :
  in_order e received → (∀ k f, A !! k = Some f → a_buf f = [] ∧ e !! k = Some (a_exp f)) →
  (a_run received (A, c)).2 = c.
Proof.
  revert A c e. induction received as [|[data n] received IH]; intros A c e Hord HA; [done|].
  destruct Hord as [Hn Hord]. simpl. set (p := parse_packet data) in *. unfold a_handle. simpl.
  assert (∃ f, default (AFlow n []) (A !! key_of p) = f ∧ a_buf f = [] ∧ a_exp f = n) as (f & -> & Hb & He).
  { destruct (A !! key_of p) as [f|] eqn:Hf; [|by eexists].
    destruct (HA _ _ Hf) as [Hb He]. exists f. destruct Hn as [Hn|Hn]; simplify_eq/=; naive_solver. }
  unfold a_step. rewrite He, Hb, (proj2 (Z.leb_le n n)) by lia. simpl.
  rewrite (IH _ _ _ Hord); [lia|]. intros k f'. destruct (decide (k = key_of p)) as [->|Hk].
  - rewrite !lookup_insert_eq. intros [= <-]. done.
  - rewrite !lookup_insert_ne by done. apply HA.
Qed.

(** Traffic in order is not counted: if every packet continues its flow
    where the packet before it ended, the counter is zero. *)
Theorem rc_in_order_not_counted lo received : Forall (packet_ok lo) received →
  in_order ∅ received →
  ∃ s, rc_run received.*1 rc_init = Some (tt, s) ∧ rc_reorder_count s = 0.
Proof.
  intros Hok Hord. destruct (rc_run_sim lo rc_init ∅ 0 received) as (s & Hrun & _ & Hc);
    [apply sim_init|done..|]. exists s. split; [done|].
  rewrite Hc, (in_order_count _ _ _ _ Hord); [done|]. intros k f Hf. done.
Qed.
End runs.

(** ** Examples *)

Definition sample_received (ps : list (Z * Z * bool)) : list (list Z * Z) :=
  (λ '(n, size, syn), (build_packet (sample_packet (u32 n) size syn), n)) <$> ps.

(** A flow that wraps around, with one packet out of order and its hole filled
    later. *)
Definition sample_flow : list (list Z * Z) :=
  sample_received [(4294967290, 0, true); (4294967291, 5, false); (4294967306, 10, false);
                   (4294967296, 10, false)].

Definition sample_lo : flow_key → Z := λ _, 4294967000.

Ltac sample_ok :=
  repeat (apply Forall_cons; split; [vm_compute; intuition congruence|]); apply Forall_nil_2.

Lemma rc_refines_resequencer_witness :
  ∃ s, rc_run sample_flow.*1 rc_init = Some (tt, s) ∧
    sim sample_lo s (a_run sample_flow (∅, 0)).1 ∧ rc_reorder_count s = 1.
Proof. apply (rc_refines_resequencer sample_lo sample_flow). sample_ok. Defined.

Definition sample_state : rc_config :=
  match rc_run sample_flow.*1 rc_init with Some (_, s) => s | None => rc_init end.

Lemma rc_buffers_bounded_witness :
  fb_size (RcBuf 1000 80 0 20 0 0) ≤ FBUF_SIZ ∧
  ∃ t, rep (fb_root (calloc ∅)) t [] (hwords (rc_heap sample_state)) ∧ rb_tree t ∧
    fb_size (RcBuf 1000 80 0 20 0 0) = Z.of_nat (nodes t).
Proof.
  apply (rc_buffers_bounded sample_lo sample_flow); [sample_ok|vm_compute; reflexivity|].
  vm_compute. reflexivity.
Defined.

(** A handshake and two segments, in order, across the wrap. *)
Definition sample_ordered : list (list Z * Z) :=
  sample_received [(4294967290, 0, true); (4294967291, 5, false); (4294967296, 10, false)].

Lemma rc_in_order_not_counted_witness :
  ∃ s, rc_run sample_ordered.*1 rc_init = Some (tt, s) ∧ rc_reorder_count s = 0.
Proof.
  apply (rc_in_order_not_counted sample_lo sample_ordered); [sample_ok|].
  vm_compute. intuition congruence.
Defined.

(** The number a flow expects can go backwards, because releasing a held
    packet sets it to the end of that packet even where a longer segment has
    already been seen: of the segments 100-150, 200-210, 150-250, 250-300 the
    third covers the hole and the second, yet the fourth, which continues the
    stream, is held back and counted. *)
Theorem rc_expected_regresses :
  let run := sample_received [(100, 50, false); (200, 10, false); (150, 100, false)] in
  let next := sample_received [(250, 50, false)] in
  (∃ s r, rc_run run.*1 rc_init = Some (tt, s) ∧ map_to_list (bufs (rc_table s)) = [r] ∧
    fb_expected_next r.2 = 210 ∧ rc_reorder_count s = 1) ∧
  ∃ s, rc_run (run ++ next).*1 rc_init = Some (tt, s) ∧ rc_reorder_count s = 2.
Proof.
  split; eexists; [eexists|]; (split; [vm_compute; reflexivity|]); vm_compute; done.
Qed.
