(* ===== verification/Counters.v ===== *)
(** * The two counters without a buffer (src/reordering_buffer:
      tcp_reordercounter.c, ip_reordercounter.c)

    Both programs share the headers, the flow table and the receive loop of
    reorder_counter.c; they keep one expected number per flow and never use
    its tree.  Each handler is shown to be a step on a map from flows to
    expected numbers; the theorems are about runs of the programs. *)

From Stdlib Require Import ZArith Lia.
From stdpp Require Import base numbers list gmap option sets.
From S2P Require Import Prelude RbCode RbTree SeqBuf FlowTable Packet Reorder ReorderSpec ReorderSim ReorderRun ReorderTheorems.

Open Scope Z_scope.

(** ** State *)

(** [struct rc_config]: [reorder_buf] and [reorder_count]. *)
Record ctr := Ctr { c_table : table rc_flowbuf; c_count : Z }.

Definition ctr_init : ctr := Ctr (Table ∅ ∅) 0.

Definition c_get (b : Z) : M ctr rc_flowbuf :=
  λ s, match bufs (c_table s) !! b with Some r => Some (r, s) | None => None end.

Definition c_upd (b : Z) (f : rc_flowbuf → rc_flowbuf) : M ctr unit :=
  λ s, match bufs (c_table s) !! b with
       | Some r => Some (tt, Ctr (Table (slots (c_table s)) (<[b := f r]> (bufs (c_table s))))
                               (c_count s))
       | None => None
       end.

Definition c_add (d : Z) : M ctr unit :=
  λ s, Some (tt, Ctr (c_table s) (u64 (c_count s + d))).

(** ** Code *)

Section code.
Context `{Calloc}.

(** The buffer of the flow; a new one expects [init]. *)
Definition c_flow (sport dport init : Z) : M ctr Z :=
  λ s, match flow_get (calloc (dom (bufs (c_table s)))) (λ prev, RcBuf sport dport 0 init prev NULL)
               sport dport (c_table s) with
       | Some (b, _, tb) => Some (b, Ctr tb (c_count s))
       | None => None
       end.

(** tcp_reordercounter.c, after the flow is found. *)
Definition tcp_count (p : packet) (b : Z) : M ctr Z :=
  let* fbuf := c_get b in
  if before (p_seq p) (fb_expected_next fbuf) then
    c_add 1 ;;;
    cret 1
  else
    (if p_syn p then c_upd b (set_expected_next (u32 (p_seq p + 1)))
     else c_upd b (set_expected_next (u32 (p_seq p + p_size p)))) ;;;
    cret (-1).

Definition tcp_rc_handle_packet (data : list Z) : M ctr Z :=
  let p := parse_packet data in
  let* b := c_flow (p_sport p) (p_dport p) (p_seq p) in
  tcp_count p b.

(** ip_reordercounter.c, after the flow is found.  [expected_next] is an
    [uint32_t]; the difference is converted to [__s16] and added to an
    [uint64_t]. *)
Definition ip_count (p : packet) (b : Z) : M ctr Z :=
  let* fbuf := c_get b in
  if before (p_ipid p) (fb_expected_next fbuf) || (p_ipid p =? fb_expected_next fbuf) then
    c_upd b (λ r, set_expected_next (u32 (fb_expected_next r + 1)) r) ;;;
    cret 1
  else
    c_add (s16 (u32 (fb_expected_next fbuf - p_ipid p))) ;;;
    c_upd b (set_expected_next (u32 (p_ipid p + 1))) ;;;
    cret (-1).

Definition ip_rc_handle_packet (data : list Z) : M ctr Z :=
  let p := parse_packet data in
  let* b := c_flow (p_sport p) (p_dport p) (u32 (p_ipid p + 1)) in
  ip_count p b.

(** The receive loops. *)
Fixpoint tcp_run (received : list (list Z)) : M ctr unit :=
  match received with
  | [] => cret tt
  | data :: received => let* _ := tcp_rc_handle_packet data in tcp_run received
  end.

Fixpoint ip_run (received : list (list Z)) : M ctr unit :=
  match received with
  | [] => cret tt
  | data :: received => let* _ := ip_rc_handle_packet data in ip_run received
  end.
End code.

(** ** The handlers as steps on expected numbers *)

Abbreviation expected := (gmap flow_key Z).

(** The expected number and the count after a packet. *)
Definition tcp_step (p : packet) (e c : Z) : Z * Z :=
  if before (p_seq p) e then (e, u64 (c + 1))
  else (u32 (p_seq p + (if p_syn p then 1 else p_size p)), c).

Definition ip_step (p : packet) (e c : Z) : Z * Z :=
  if before (p_ipid p) e || (p_ipid p =? e) then (u32 (e + 1), c)
  else (u32 (p_ipid p + 1), u64 (c + s16 (u32 (e - p_ipid p)))).

Definition e_handle (init : packet → Z) (step : packet → Z → Z → Z * Z)
    (p : packet) (S : expected * Z) : expected * Z :=
  let e := default (init p) (S.1 !! key_of p) in
  (<[key_of p := (step p e S.2).1]> S.1, (step p e S.2).2).

Definition csim_with (s : ctr) (m : expected) (ch : Z → list Z) : Prop :=
  table_ok (c_table s) ch ∧
  (∀ sp b r, b ∈ ch sp → bufs (c_table s) !! b = Some r →
     m !! (sp, fb_dport r) = Some (fb_expected_next r)) ∧
  (∀ sp dp e, m !! (sp, dp) = Some e →
     ∃ b r, b ∈ ch sp ∧ bufs (c_table s) !! b = Some r ∧ fb_dport r = dp).

Definition csim (s : ctr) (m : expected) : Prop := ∃ ch, csim_with s m ch.

Lemma csim_init : csim ctr_init ∅.
Proof.
  exists (λ _, []). split; [|split; [set_solver|done]].
  split; try done; try set_solver; [intros sp; apply NoDup_nil_2|by intros b [r Hr]].
Qed.

(** An update of the expected number of one buffer. *)
Lemma csim_upd s m ch sp b r e c : csim_with s m ch → b ∈ ch sp → bufs (c_table s) !! b = Some r →
  csim_with (Ctr (Table (slots (c_table s)) (<[b := set_expected_next e r]> (bufs (c_table s)))) c)
    (<[(sp, fb_dport r) := e]> m) ch.
Proof.
  intros (Ht & Hm & Hback) Hb Hr. split; [|split]; simpl.
  - assert (∀ x r', <[b := set_expected_next e r]> (bufs (c_table s)) !! x = Some r' →
      ∃ r0, bufs (c_table s) !! x = Some r0 ∧ fb_dport r' = fb_dport r0) as Hold.
    { intros x r'. destruct (decide (x = b)) as [->|Hx].
      - rewrite lookup_insert_eq. intros [= <-]. by exists r.
      - rewrite lookup_insert_ne by done. eauto. }
    split; [|apply Ht|apply Ht| |]; simpl.
    + intros sp'. unfold head_of. eapply chain_frame; [apply Ht|]. intros x r0 Hx Hr0.
      destruct (decide (x = b)) as [->|Hxb]; [rewrite lookup_insert_eq|rewrite lookup_insert_ne by done].
      * eexists. split; [done|]. by simplify_eq.
      * by exists r0.
    + intros sp' x x' r1 r2 Hx Hx' H1 H2 Heq.
      destruct (Hold _ _ H1) as (q1 & Hq1 & He1), (Hold _ _ H2) as (q2 & Hq2 & He2).
      eapply (tok_dport _ _ Ht); [done..|]. simpl in *. congruence.
    + intros x [r' Hr']. destruct (Hold _ _ Hr') as (r0 & Hr0 & _).
      apply (tok_dom _ _ Ht). by exists r0.
  - intros sp' x r' Hx Hr'. destruct (decide (x = b)) as [->|Hxb].
    + rewrite lookup_insert_eq in Hr'. simplify_eq. simpl.
      rewrite (tok_port _ _ Ht _ _ _ Hx Hb). by rewrite lookup_insert_eq.
    + rewrite lookup_insert_ne in Hr' by done. rewrite lookup_insert_ne; [by apply (Hm _ x)|].
      intros [= <- Hd]. apply Hxb. by eapply (tok_dport _ _ Ht).
  - intros sp' dp e' Hl. destruct (decide ((sp', dp) = (sp, fb_dport r))) as [[= -> ->]|Hne].
    + exists b, (set_expected_next e r). by rewrite lookup_insert_eq.
    + rewrite lookup_insert_ne in Hl by done. destruct (Hback _ _ _ Hl) as (x & r' & Hx & Hr' & Hd).
      destruct (decide (x = b)) as [->|Hxb].
      * exists b, (set_expected_next e r). rewrite lookup_insert_eq. simplify_eq. done.
      * exists x, r'. by rewrite lookup_insert_ne.
Qed.

Section refine.
Context `{CallocOk}.

Lemma c_flow_sim s m sport dport init : csim s m →
  ∃ b s' ch r, c_flow sport dport init s = Some (b, s') ∧
    csim_with s' (<[(sport, dport) := default init (m !! (sport, dport))]> m) ch ∧
    b ∈ ch sport ∧ bufs (c_table s') !! b = Some r ∧ fb_dport r = dport ∧
    fb_expected_next r = default init (m !! (sport, dport)) ∧ c_count s' = c_count s.
Proof.
  intros (ch & Ht & Hm & Hback). set (fresh := calloc (dom (bufs (c_table s)))).
  assert (bufs (c_table s) !! fresh = None) as Hnone.
  { apply not_elem_of_dom. intros Hd. pose proof (calloc_apart _ _ Hd). unfold fresh, BLOCK in *. lia. }
  destruct (flow_get_spec fresh (λ prev, RcBuf sport dport 0 init prev NULL) sport dport (c_table s) ch)
    as (b & new & tb & Hget & Hgot); [done|by apply ptr_ok_nonnull, calloc_ptr|done|done|].
  unfold c_flow. fold fresh. rewrite Hget. destruct new.
  - destruct Hgot as (-> & Htok & Hnodp & [q Hq] & Hrel).
    assert (m !! (sport, dport) = None) as HA.
    { destruct (m !! (sport, dport)) as [e|] eqn:Hf; [|done].
      destruct (Hback _ _ _ Hf) as (x & r & Hx & Hr & Hd). by destruct (Hnodp x r Hx Hr). }
    rewrite HA. simpl. do 4 eexists. split; [done|]. split; [|split; [apply elem_of_extend; by right|done]].
    split; [done|]. simpl. split.
    + intros sp x r [Hx|[-> ->]]%elem_of_extend Hr; [|rewrite Hq in Hr; simplify_eq; by rewrite lookup_insert_eq].
      assert (x ≠ fresh) as Hxf.
      { intros ->. destruct (chain_lookup _ _ _ _ (tok_chain _ _ Ht sp) Hx) as [[? ?] _]. congruence. }
      destruct (Hrel x Hxf r Hr) as (r0 & Hr0 & Hre).
      destruct (relinked_fields _ _ Hre) as (Hd & _ & He). rewrite Hd, He.
      rewrite lookup_insert_ne; [by eapply Hm|]. intros [= <- Hd']. by apply (Hnodp x r0 Hx Hr0).
    + intros sp dp e Hl. destruct (decide ((sp, dp) = (sport, dport))) as [[= -> ->]|Hne].
      { exists fresh. eexists. split; [apply elem_of_extend; by right|done]. }
      rewrite lookup_insert_ne in Hl by done. destruct (Hback _ _ _ Hl) as (x & r & Hx & Hr & Hd).
      assert (x ∈ extend ch sport fresh sp) as Hxe by (apply elem_of_extend; by left).
      destruct (chain_lookup _ _ _ _ (tok_chain _ _ Htok sp) Hxe) as [[r' Hr'] _].
      assert (x ≠ fresh) as Hxf by (intros ->; congruence).
      destruct (Hrel x Hxf r' Hr') as (r0 & Hr0 & Hre). exists x, r'. split; [done|]. split; [done|].
      destruct (relinked_fields _ _ Hre) as (-> & _). simplify_eq. done.
  - destruct Hgot as (-> & Hb & r & Hr & Hd). replace (b_dport r) with (fb_dport r) in Hd by done.
    assert (m !! (sport, dport) = Some (fb_expected_next r)) as Hl by (rewrite <- Hd; by eapply Hm).
    rewrite Hl. simpl. rewrite insert_id by done.
    exists b, (Ctr (c_table s) (c_count s)), ch, r. done.
Qed.

(** What the rest of a handler does to the buffer of the flow. *)
Definition implements (step : packet → Z → Z → Z * Z) (h : packet → Z → M ctr Z) : Prop :=
  ∀ p b s r, bufs (c_table s) !! b = Some r →
    ∃ v, h p b s = Some (v, Ctr
      (Table (slots (c_table s))
         (<[b := set_expected_next (step p (fb_expected_next r) (c_count s)).1 r]> (bufs (c_table s))))
      (step p (fb_expected_next r) (c_count s)).2).

Lemma tcp_implements : implements tcp_step tcp_count.
Proof.
  intros p b s r Hr. unfold tcp_count, tcp_step, c_get, c_upd, c_add, cbind, cret. rewrite Hr.
  destruct (before _ _).
  - eexists. simpl. rewrite insert_id; [by destruct s as [[]]|]. by rewrite Hr; destruct r.
  - destruct (p_syn p); simpl; rewrite Hr; by eexists.
Qed.

Lemma ip_implements : implements ip_step ip_count.
Proof.
  intros p b s r Hr. unfold ip_count, ip_step, c_get, c_upd, c_add, cbind, cret. rewrite Hr.
  destruct (_ || _); simpl; rewrite Hr; by eexists.
Qed.

Lemma handle_sim step h init s m p : implements step h → csim s m →
  ∃ v s', (let* b := c_flow (p_sport p) (p_dport p) (init p) in h p b) s = Some (v, s') ∧
    csim s' (e_handle init step p (m, c_count s)).1 ∧
    c_count s' = (e_handle init step p (m, c_count s)).2.
Proof.
  intros Himp Hsim. destruct (c_flow_sim s m (p_sport p) (p_dport p) (init p) Hsim)
    as (b & s1 & ch & r & Hget & Hs1 & Hb & Hr & Hd & He & Hc).
  destruct (Himp p b s1 r Hr) as (v & Hh). unfold cbind. rewrite Hget, Hh.
  do 2 eexists. split; [done|]. unfold e_handle. fold (key_of p) in *. rewrite He, Hc. simpl.
  split; [|done]. exists ch.
  pose proof (csim_upd _ _ _ _ b r (step p (default (init p) (m !! key_of p)) (c_count s)).1
    (step p (default (init p) (m !! key_of p)) (c_count s)).2 Hs1 Hb Hr) as Hu.
  rewrite Hd in Hu. fold (key_of p) in Hu. by rewrite insert_insert_eq in Hu.
Qed.

(** The abstract runs. *)
Definition e_run (init : packet → Z) (step : packet → Z → Z → Z * Z) (received : list (list Z)) (S : expected * Z) : expected * Z :=
  foldl (λ S data, e_handle init step (parse_packet data) S) S received.

Definition tcp_start (p : packet) : Z := p_seq p.

Definition ip_start (p : packet) : Z := u32 (p_ipid p + 1).

Lemma tcp_run_sim received s m : csim s m →
  ∃ s', tcp_run received s = Some (tt, s') ∧
    csim s' (e_run tcp_start tcp_step received (m, c_count s)).1 ∧
    c_count s' = (e_run tcp_start tcp_step received (m, c_count s)).2.
Proof.
  revert s m. induction received as [|data received IH]; intros s m Hs; [by exists s|].
  destruct (handle_sim _ _ tcp_start s m (parse_packet data) tcp_implements Hs) as (v & s1 & Hh & Hs1 & Hc1).
  destruct (IH s1 _ Hs1) as (s2 & Hrun & Hs2 & Hc2). exists s2. cbn [tcp_run]. unfold cbind at 1.
  unfold tcp_rc_handle_packet. fold (tcp_start (parse_packet data)). rewrite Hh. split; [done|].
  rewrite Hc1 in Hs2, Hc2. unfold e_run in *. simpl. by rewrite <- surjective_pairing in Hs2, Hc2.
Qed.

Lemma ip_run_sim received s m : csim s m →
  ∃ s', ip_run received s = Some (tt, s') ∧
    csim s' (e_run ip_start ip_step received (m, c_count s)).1 ∧
    c_count s' = (e_run ip_start ip_step received (m, c_count s)).2.
Proof.
  revert s m. induction received as [|data received IH]; intros s m Hs; [by exists s|].
  destruct (handle_sim _ _ ip_start s m (parse_packet data) ip_implements Hs) as (v & s1 & Hh & Hs1 & Hc1).
  destruct (IH s1 _ Hs1) as (s2 & Hrun & Hs2 & Hc2). exists s2. cbn [ip_run]. unfold cbind at 1.
  unfold ip_rc_handle_packet. fold (ip_start (parse_packet data)). rewrite Hh. split; [done|].
  rewrite Hc1 in Hs2, Hc2. unfold e_run in *. simpl. by rewrite <- surjective_pairing in Hs2, Hc2.
Qed.
End refine.

(** ** The TCP counter *)

(** What a packet takes of the sequence space. *)
Definition seg_len (p : packet) : Z := if p_syn p then 1 else p_size p.

(** The ends of the packets seen, by flow. *)
Abbreviation ends := (list (flow_key * Z)).

(** Some packet seen of the flow ends beyond [n]. *)
Definition is_late (seen : ends) (k : flow_key) (n : Z) : bool :=
  existsb (λ '(k', e), bool_decide (k' = k) && (n <? e)) seen.

Fixpoint count_late (seen : ends) (received : list (list Z * Z)) : Z :=
  match received with
  | [] => 0
  | (data, n) :: received =>
      let p := parse_packet data in
      (if is_late seen (key_of p) n then 1 else 0)
      + count_late ((key_of p, n + seg_len p) :: seen) received
  end.

(** Two segments of a flow are the same or do not overlap. *)
Definition segments_ok (d d' : list Z * Z) : Prop :=
  let p := parse_packet d.1 in
  let p' := parse_packet d'.1 in
  key_of p = key_of p' →
  d.2 + seg_len p = d'.2 + seg_len p' ∨ d.2 + seg_len p ≤ d'.2 ∨ d'.2 + seg_len p' ≤ d.2.

(** The expected number of a flow is the highest end seen. *)
Definition highest (lo : flow_key → Z) (m : expected) (done : list (list Z * Z)) (seen : ends) : Prop :=
  (∀ k e, (k, e) ∈ seen → ∃ x, window (lo k) x ∧ m !! k = Some (u32 x) ∧ e ≤ x) ∧
  (∀ k v, m !! k = Some v → ∃ d, d ∈ done ∧ key_of (parse_packet d.1) = k ∧
     v = u32 (d.2 + seg_len (parse_packet d.1)) ∧ window (lo k) (d.2 + seg_len (parse_packet d.1)) ∧
     (k, d.2 + seg_len (parse_packet d.1)) ∈ seen).

Lemma seg_len_nonneg data : 0 ≤ seg_len (parse_packet data).
Proof. unfold seg_len. destruct (p_syn _); [lia|]. apply u16_range. Qed.

Lemma packet_ok_end lo dn : packet_ok lo dn →
  window (lo (key_of (parse_packet dn.1))) (dn.2 + seg_len (parse_packet dn.1)).
Proof. intros (_ & _ & ? & ?). unfold seg_len. by destruct (p_syn _). Qed.

Lemma is_late_spec lo m done seen k n v : highest lo m done seen → window (lo k) n →
  m !! k = Some v → is_late seen k n = before (u32 n) v.
Proof.
  intros [Hup Hat] Hn Hk. destruct (Hat k v Hk) as (d & _ & _ & -> & Hw & Hin).
  rewrite (before_window (lo k)) by done.
  set (x := d.2 + seg_len (parse_packet d.1)) in *. unfold is_late.
  destruct (Z.ltb_spec n x) as [Hlt|Hge].
  - apply existsb_exists. exists (k, x). split; [by apply list_elem_of_In|].
    rewrite bool_decide_true by done. by apply Z.ltb_lt.
  - apply not_true_is_false. intros ([k' e] & Hine%list_elem_of_In & Hb)%existsb_exists.
    apply andb_prop in Hb as [->%bool_decide_eq_true Hlt%Z.ltb_lt].
    destruct (Hup _ _ Hine) as (y & Hy & Hmy & Hle). rewrite Hk in Hmy. injection Hmy as Heq.
    pose proof (u32_window (lo k) x y Hw Hy) as Hxy. rewrite Heq, Z.eqb_refl in Hxy.
    symmetry in Hxy. apply Z.eqb_eq in Hxy. lia.
Qed.

Section packet.
Variables (lo : flow_key → Z) (m : expected) (done : list (list Z * Z)) (seen : ends) (dn : list Z * Z).
Hypotheses (Hh : highest lo m done seen) (Hok : packet_ok lo dn).

Let p : packet := parse_packet dn.1.

Lemma highest_accept : is_late seen (key_of p) dn.2 = false →
  highest lo (<[key_of p := u32 (dn.2 + seg_len p)]> m) (dn :: done)
    ((key_of p, dn.2 + seg_len p) :: seen).
Proof.
  intros Hl. pose proof (packet_ok_end _ _ Hok) as Hwe. pose proof (seg_len_nonneg dn.1) as Hlen.
  fold p in Hwe, Hlen. destruct Hh as [Hup Hat]. split.
  - intros k e Hin. destruct (decide (k = key_of p)) as [->|Hk].
    + exists (dn.2 + seg_len p). rewrite lookup_insert_eq. split; [done|]. split; [done|].
      apply elem_of_cons in Hin as [[= ->]|Hin]; [lia|]. apply Z.le_ngt. intros Hlt.
      apply not_true_iff_false in Hl. apply Hl, existsb_exists. exists (key_of p, e).
      split; [by apply list_elem_of_In|]. rewrite bool_decide_true by done. apply Z.ltb_lt. lia.
    + rewrite lookup_insert_ne by done. apply elem_of_cons in Hin as [[= -> _]|Hin]; [done|eauto].
  - intros k v. destruct (decide (k = key_of p)) as [->|Hk].
    + rewrite lookup_insert_eq. intros [= <-]. exists dn. set_solver.
    + rewrite lookup_insert_ne by done. intros Hk'. destruct (Hat _ _ Hk') as (d & ? & ? & ? & ? & ?).
      exists d. set_solver.
Qed.

Lemma highest_late : Forall (segments_ok dn) done → is_late seen (key_of p) dn.2 = true →
  is_Some (m !! key_of p) →
  highest lo m (dn :: done) ((key_of p, dn.2 + seg_len p) :: seen).
Proof.
  intros Hseg Hl [v Hv]. pose proof Hh as [Hup Hat].
  destruct (Hat _ _ Hv) as (d & Hd & Hkd & -> & Hw & Hin).
  split; [|intros k w Hk'; destruct (Hat _ _ Hk') as (d' & ? & ? & ? & ? & ?); exists d'; set_solver].
  intros k e [[= -> ->]|Hin']%elem_of_cons; [|eauto].
  exists (d.2 + seg_len (parse_packet d.1)). split; [done|]. split; [done|].
  destruct Hok as (_ & Hn & _). fold p in Hn. rewrite (is_late_spec lo m done seen _ _ _ Hh Hn Hv) in Hl.
  rewrite (before_window (lo (key_of p))) in Hl by done. apply Z.ltb_lt in Hl.
  rewrite Forall_forall in Hseg. pose proof (Hseg d Hd) as Hs.
  unfold segments_ok in Hs. fold p in Hs. specialize (Hs (eq_sym Hkd)).
  pose proof (seg_len_nonneg d.1). lia.
Qed.

Lemma new_not_late : m !! key_of p = None → is_late seen (key_of p) dn.2 = false.
Proof.
  intros Hnone. apply not_true_is_false. intros ([k' e] & Hine%list_elem_of_In & Hb)%existsb_exists.
  apply andb_prop in Hb as [->%bool_decide_eq_true _]. destruct Hh as [Hup _].
  destruct (Hup _ _ Hine) as (y & _ & Hy & _). congruence.
Qed.

Lemma tcp_step_highest c : Forall (segments_ok dn) done →
  highest lo (e_handle tcp_start tcp_step p (m, c)).1 (dn :: done)
    ((key_of p, dn.2 + seg_len p) :: seen) ∧
  (e_handle tcp_start tcp_step p (m, c)).2
  = if is_late seen (key_of p) dn.2 then u64 (c + 1) else c.
Proof.
  intros Hseg. pose proof Hok as (Hseq & Hn & _). fold p in Hseq, Hn.
  unfold e_handle, tcp_step, tcp_start. cbn [fst snd].
  assert (u32 (p_seq p + (if p_syn p then 1 else p_size p)) = u32 (dn.2 + seg_len p)) as ->.
  { rewrite Hseq. unfold u32, seg_len. by rewrite Zplus_mod_idemp_l. }
  rewrite Hseq. destruct (m !! key_of p) as [v|] eqn:Hv; cbn [default from_option id].
  - rewrite <- (is_late_spec lo m done seen _ _ v Hh Hn Hv).
    destruct (is_late seen (key_of p) dn.2) eqn:Hl; cbn [fst snd]; (split; [|done]).
    + rewrite insert_id by done. by apply highest_late.
    + by apply highest_accept.
  - pose proof (new_not_late Hv) as Hl.
    assert (before (u32 dn.2) (u32 dn.2) = false) as -> by (rewrite (before_window _ _ _ Hn Hn); lia).
    rewrite Hl. split; [by apply highest_accept|done].
Qed.
End packet.

Lemma count_late_run lo received : ∀ m done seen c,
  highest lo m done seen → Forall (packet_ok lo) received →
  ForallOrdPairs (λ d d', segments_ok d' d) received →
  Forall (λ d, Forall (segments_ok d) done) received →
  (e_run tcp_start tcp_step received.*1 (m, u64 c)).2 = u64 (c + count_late seen received).
Proof.
  induction received as [|dn received IH]; intros m done seen c Hh Hok Hpairs Hdone.
  { simpl. f_equal. lia. }
  apply Forall_cons in Hok as [Hp Hok]. apply Forall_cons in Hdone as [Hd Hdone].
  inversion Hpairs as [|? ? Hp1 Hp2]; subst.
  destruct (tcp_step_highest lo m done seen dn Hh Hp (u64 c) Hd) as [Hh' Hc'].
  destruct dn as [data n]. rewrite fmap_cons. unfold e_run in *. cbn [foldl fst count_late].
  cbn [fst snd] in *.
  destruct (e_handle tcp_start tcp_step (parse_packet data) (m, u64 c)) as [m' c']. cbn [fst snd] in Hh', Hc'.
  assert (c' = u64 (c + (if is_late seen (key_of (parse_packet data)) n then 1 else 0))) as ->.
  { rewrite Hc'. destruct (is_late _ _ _); [|f_equal; lia]. unfold u64. by rewrite Zplus_mod_idemp_l. }
  rewrite (IH _ _ _ _ Hh' Hok Hp2); [f_equal; lia|].
  rewrite Forall_forall in *. intros d Hdin. apply Forall_cons. split; [by apply Hp1|by apply Hdone].
Qed.

(** The TCP counter counts exactly the late packets.  On packets whose flows
    stay within half the sequence space and whose segments, within a flow, do
    not overlap unless they end together (as retransmissions of a segment do),
    the program handles every packet, and its count is the number of packets
    that begin below the end of a packet already seen in their flow. *)
Theorem tcp_counts_late `{CallocOk} lo received : Forall (packet_ok lo) received →
  ForallOrdPairs (λ d d', segments_ok d' d) received →
  ∃ s, tcp_run received.*1 ctr_init = Some (tt, s) ∧ c_count s = u64 (count_late [] received).
Proof.
  intros Hok Hpairs. destruct (tcp_run_sim received.*1 ctr_init ∅ csim_init) as (s & Hrun & _ & Hc).
  exists s. split; [done|]. rewrite Hc. change (c_count ctr_init) with (u64 0).
  apply (count_late_run lo received ∅ [] [] 0); [|done..|by apply Forall_true].
  by split; [intros k e ?%elem_of_nil|].
Qed.

(** Segments across the wrap: the second in front of the first, which is sent
    twice. *)
Definition sample_late : list (list Z * Z) :=
  sample_received [(4294967291, 5, false); (4294967306, 10, false); (4294967296, 10, false);
                   (4294967291, 5, false); (4294967316, 10, false)].

Lemma tcp_counts_late_witness :
  ∃ s, tcp_run sample_late.*1 ctr_init = Some (tt, s) ∧ c_count s = 2.
Proof.
  apply (tcp_counts_late sample_lo sample_late); [sample_ok|].
  repeat (apply FOP_cons; [repeat (apply Forall_cons; split; [vm_compute; intuition congruence|]);
    apply Forall_nil_2|]). apply FOP_nil.
Defined.

(** ** The IP counter *)

(** Once the number a flow expects is past 65535, no 16-bit identification is
    ahead of it. *)
Lemma ip_step_blind p e c : 0 ≤ p_ipid p < 2 ^ 16 → 2 ^ 16 ≤ e < 2 ^ 31 → ip_step p e c = (e + 1, c).
Proof.
  intros Hi He. unfold ip_step.
  assert (before (p_ipid p) e = true) as ->; [|simpl; f_equal; apply u32_small; lia].
  unfold before. apply Z.ltb_lt. unfold s32, u32. rewrite Zplus_mod_idemp_l.
  rewrite Z.mod_small; lia.
Qed.

Lemma ip_blind_run k received : ∀ m c e,
  Forall (λ data, key_of (parse_packet data) = k) received →
  m !! k = Some e → 2 ^ 16 ≤ e → e + Z.of_nat (length received) < 2 ^ 31 →
  (e_run ip_start ip_step received (m, c)).2 = c.
Proof.
  induction received as [|data received IH]; intros m c e Hk Hm He Hlen; [done|].
  apply Forall_cons in Hk as [Hk0 Hk]. simpl in Hlen. unfold e_run in *. cbn [foldl].
  unfold e_handle at 2. cbn [fst snd]. rewrite Hk0, Hm. cbn [default from_option id].
  rewrite ip_step_blind; [|apply be16_range|lia]. cbn [fst snd].
  apply (IH _ _ (e + 1)); [done|apply lookup_insert_eq|lia..].
Qed.

(** The IP counter goes blind when the identification wraps: after the first
    packet of a flow with identification 65535, the number the flow expects is
    never reduced modulo 2^16 and stays ahead of every identification, so
    nothing that follows in the flow is counted, whatever its order. *)
Theorem ip_blind_after_wrap `{CallocOk} k data received :
  Forall (λ d, key_of (parse_packet d) = k) (data :: received) →
  p_ipid (parse_packet data) = 65535 → Z.of_nat (length received) < 2 ^ 30 →
  ∃ s, ip_run (data :: received) ctr_init = Some (tt, s) ∧ c_count s = 0.
Proof.
  intros Hk Hid Hlen.
  destruct (ip_run_sim (data :: received) ctr_init ∅ csim_init) as (s & Hrun & _ & Hc).
  exists s. split; [done|]. rewrite Hc. apply Forall_cons in Hk as [Hk0 Hk].
  unfold e_run. cbn [foldl]. unfold e_handle at 2. cbn [fst snd]. rewrite Hk0, lookup_empty.
  cbn [default from_option id]. unfold ip_start. rewrite Hid. change (u32 (65535 + 1)) with 65536.
  rewrite ip_step_blind; [|rewrite Hid; lia|lia]. cbn [fst snd].
  apply (ip_blind_run k received _ _ 65537); [done|apply lookup_insert_eq|lia..].
Qed.

Definition ip_packets (ids : list Z) : list (list Z) :=
  (λ i, build_packet (Packet 1000 80 100 0 false i)) <$> ids.

Lemma ip_blind_after_wrap_witness :
  ∃ s, ip_run (ip_packets [65535; 3; 40000; 2; 9]) ctr_init = Some (tt, s) ∧ c_count s = 0.
Proof.
  apply (ip_blind_after_wrap (1000, 80) (build_packet (Packet 1000 80 100 0 false 65535))
    (ip_packets [3; 40000; 2; 9])); [|done..].
  repeat (apply Forall_cons; split; [done|]). apply Forall_nil_2.
Defined.

(** The IP counter runs backwards: an identification ahead of the expected
    one by less than 2^15 lowers the 64-bit count by the distance. *)
Theorem ip_gap_subtracts `{CallocOk} s m data e :
  csim s m → m !! key_of (parse_packet data) = Some e →
  0 ≤ e < p_ipid (parse_packet data) → p_ipid (parse_packet data) - e < 2 ^ 15 →
  ∃ v s', ip_rc_handle_packet data s = Some (v, s') ∧
    c_count s' = u64 (c_count s - (p_ipid (parse_packet data) - e)).
Proof.
  intros Hs Hm He Hgap.
  destruct (handle_sim _ _ ip_start s m (parse_packet data) ip_implements Hs) as (v & s' & Hh & _ & Hc).
  exists v, s'. split; [done|]. rewrite Hc. unfold e_handle. cbn [fst snd]. rewrite Hm.
  cbn [default from_option id]. set (i := p_ipid (parse_packet data)) in *.
  assert (0 ≤ i < 2 ^ 16) as Hi by apply be16_range. unfold ip_step. fold i.
  assert (before i e = false) as ->.
  { unfold before, s32, u32. rewrite Zplus_mod_idemp_l, Z.mod_small by lia. lia. }
  rewrite (proj2 (Z.eqb_neq i e)) by lia. simpl. f_equal. f_equal. unfold s16, u32.
  rewrite <- (Z.mod_add (e - i) 1) by done.
  rewrite (Z.mod_small (e - i + 1 * 2 ^ 32)) by lia.
  replace (e - i + 1 * 2 ^ 32 + 2 ^ 15) with (e - i + 2 ^ 15 + 65536 * 2 ^ 16) by lia.
  rewrite Z.mod_add, Z.mod_small by lia. lia.
Qed.

(** Two packets, the second nine identifications later. *)
Lemma ip_gap_subtracts_witness : ∃ s v s',
  ip_run (ip_packets [1]) ctr_init = Some (tt, s) ∧
  ip_rc_handle_packet (build_packet (Packet 1000 80 100 0 false 10)) s = Some (v, s') ∧
  c_count s' = 18446744073709551609.
Proof.
  destruct (ip_run_sim (ip_packets [1]) ctr_init ∅ csim_init) as (s & Hrun & Hs & Hc).
  destruct (ip_gap_subtracts s _ (build_packet (Packet 1000 80 100 0 false 10)) 3 Hs)
    as (v & s' & Hh & Hc'); [vm_compute; done..|].
  exists s, v, s'. split; [done|]. split; [done|]. rewrite Hc', Hc. vm_compute. done.
Defined.
