(* ===== verification/Nfqueue.v ===== *)
(** * The resequencing queue (src/reordering_buffer/nfqueue.c, nfqueue.h)

    The program takes packets from a netfilter queue and gives a verdict on
    each.  [nfq_cb] as it stands accepts every packet at once; the rest of its
    body, unreachable after the first [return], is [nfq_resequence], and the
    functions it calls are modelled in full.  libnetfilter_queue and libev are
    not part of the repository: the verdicts and the timers started are logs,
    the results of the library calls and the current time are arguments.
    [ev_tstamp] is a double: an IEEE 754 binary64 number. *)

From Stdlib Require Import ZArith Lia Floats.SpecFloat.
From stdpp Require Import base numbers list gmap option sets.
From S2P Require Import Prelude RbCode RbTree RbRefine RbWalk RbMem SeqBuf FlowTable Packet Reorder.

Open Scope Z_scope.

(** ** Data *)

(** [ev_tstamp]. *)
Definition double : Type := spec_float.

Definition dsub : double → double → double := SFsub 53 1024.

Definition dadd : double → double → double := SFadd 53 1024.

Definition dzero : double := S754_zero false.

Record nfq_flowdata := NfqData {
  nd_seq : Z;        (* uint32_t *)
  nd_packet_id : Z;  (* uint32_t *)
  nd_seg_size : Z;   (* uint16_t *)
}.

Record nfq_flowbuf := NfqBuf {
  nb_sport : Z;
  nb_dport : Z;
  nb_size : Z;           (* uint32_t *)
  nb_expected_next : Z;  (* uint32_t *)
  nb_prev : Z;
  nb_next : Z;
  nb_timeout : double;
  nb_last_activity : double;
}.

(** The address of [fbuf->root]. *)
Definition nb_root (b : Z) : Z := b + 32.

Definition nb_with_size (n : Z) (r : nfq_flowbuf) : nfq_flowbuf :=
  NfqBuf (nb_sport r) (nb_dport r) n (nb_expected_next r) (nb_prev r) (nb_next r)
    (nb_timeout r) (nb_last_activity r).

Definition nb_with_expected (n : Z) (r : nfq_flowbuf) : nfq_flowbuf :=
  NfqBuf (nb_sport r) (nb_dport r) (nb_size r) n (nb_prev r) (nb_next r)
    (nb_timeout r) (nb_last_activity r).

Definition nb_with_activity (now : double) (r : nfq_flowbuf) : nfq_flowbuf :=
  NfqBuf (nb_sport r) (nb_dport r) (nb_size r) (nb_expected_next r) (nb_prev r) (nb_next r)
    (nb_timeout r) now.

Definition nb_with_prev (p : Z) (r : nfq_flowbuf) : nfq_flowbuf :=
  NfqBuf (nb_sport r) (nb_dport r) (nb_size r) (nb_expected_next r) p (nb_next r)
    (nb_timeout r) (nb_last_activity r).

Definition nb_with_next (n : Z) (r : nfq_flowbuf) : nfq_flowbuf :=
  NfqBuf (nb_sport r) (nb_dport r) (nb_size r) (nb_expected_next r) (nb_prev r) n
    (nb_timeout r) (nb_last_activity r).

#[export] Program Instance nfq_flow_buf : FlowBuf nfq_flowbuf := {
  b_dport := nb_dport;
  b_next := nb_next;
  set_next := nb_with_next;
}.
Solve All Obligations with done.

Inductive verdict := NF_DROP | NF_ACCEPT.

(** The global [nfq] with the trees it leads to, the verdicts given so far
    (queue, packet, verdict), the timers started (flow, delay), and the time. *)
Record nfq_state := NQ {
  nq_heap : heap nfq_flowdata;
  nq_table : table nfq_flowbuf;  (* reorder_buf *)
  nq_queue : Z;
  nq_verdicts : list (Z * Z * verdict);
  nq_timers : list (Z * double);
  nq_now : double;               (* ev_now(EV_A) *)
}.

Definition NFQ_FBUF_SIZ : Z := 256.

(** The blocks in use. *)
Definition nq_live (s : nfq_state) : gset Z :=
  dom (hdata (nq_heap s)) ∪ dom (bufs (nq_table s)).

(** ** Access to the parts of the state *)

Definition n_heap {A} (c : M (heap nfq_flowdata) A) : M nfq_state A :=
  λ s, match c (nq_heap s) with
       | Some (v, h) =>
           Some (v, NQ h (nq_table s) (nq_queue s) (nq_verdicts s) (nq_timers s) (nq_now s))
       | None => None
       end.

Definition n_get (b : Z) : M nfq_state nfq_flowbuf :=
  λ s, match bufs (nq_table s) !! b with Some r => Some (r, s) | None => None end.

Definition set_table (tb : table nfq_flowbuf) (s : nfq_state) : nfq_state :=
  NQ (nq_heap s) tb (nq_queue s) (nq_verdicts s) (nq_timers s) (nq_now s).

Definition n_upd (b : Z) (f : nfq_flowbuf → nfq_flowbuf) : M nfq_state unit :=
  λ s, match bufs (nq_table s) !! b with
       | Some r => Some (tt, set_table (Table (slots (nq_table s)) (<[b := f r]> (bufs (nq_table s)))) s)
       | None => None
       end.

Definition ev_now : M nfq_state double := λ s, Some (nq_now s, s).

(** [fbuf->last_activity = ev_now(EV_A)]. *)
Definition touch (b : Z) : M nfq_state unit :=
  let* now := ev_now in n_upd b (nb_with_activity now).

(** [ev_timer_set] and [ev_timer_start] on the timer of the flow. *)
Definition ev_timer_start (b : Z) (delay : double) : M nfq_state unit :=
  λ s, Some (tt, NQ (nq_heap s) (nq_table s) (nq_queue s) (nq_verdicts s)
                   (nq_timers s ++ [(b, delay)]) (nq_now s)).

(** ** Code *)

Section code.
Context `{Calloc} (verdict_ret : list (Z * Z * verdict) → Z).

Definition nfq_set_verdict (queue id : Z) (v : verdict) : M nfq_state Z :=
  λ s, Some (verdict_ret (nq_verdicts s ++ [(queue, id, v)]),
             NQ (nq_heap s) (nq_table s) (nq_queue s) (nq_verdicts s ++ [(queue, id, v)])
               (nq_timers s) (nq_now s)).

Definition nfq_send_packet_at (queue b node : Z) : M nfq_state Z :=
  let* fdata := n_heap (get_data node) in
  let* ret := nfq_set_verdict queue (nd_packet_id fdata) NF_ACCEPT in
  let* fbuf := n_get b in
  (if nb_expected_next fbuf <? u32 (nd_seq fdata + nd_seg_size fdata)
   then n_upd b (nb_with_expected (u32 (nd_seq fdata + nd_seg_size fdata))) else cret tt) ;;;
  n_heap (unlink_free node (nb_root b)) ;;;
  touch b ;;;
  n_upd b (λ r, nb_with_size (u32 (nb_size r - 1)) r) ;;;
  cret ret.

Definition nfq_insert_or_send_packet (queue b seq packet_id seg_size : Z) : M nfq_state Z :=
  let* place := n_heap (place_loop nd_seq rb_fuel (nb_root b) NULL seq) in
  match place with
  | inl node =>
      (* a retransmission: the larger or the newer packet stays *)
      let* curr := n_heap (get_data node) in
      let* ret :=
        if seg_size <? nd_seg_size curr then nfq_set_verdict queue packet_id NF_DROP
        else
          n_heap (set_data node (NfqData (nd_seq curr) packet_id seg_size)) ;;;
          nfq_set_verdict queue (nd_packet_id curr) NF_DROP in
      touch b ;;;
      cret ret
  | inr (parent, new_node) =>
      n_upd b (λ r, nb_with_size (u32 (nb_size r + 1)) r) ;;;
      let* newdata := λ s, Some (calloc (nq_live s), s) in
      n_heap (link_new newdata (NfqData seq packet_id seg_size) parent new_node (nb_root b)) ;;;
      touch b ;;;
      cret 0
  end.

(** [while (node) { ret &= send_packet_at(...); node = rb_first(...); }] *)
Fixpoint empty_loop (fuel : nat) (queue b ret node : Z) : M nfq_state Z :=
  match fuel with
  | O => cfail
  | S fuel =>
      if nonnull node then
        let* v := nfq_send_packet_at queue b node in
        let* node := n_heap (on_words (rb_first (nb_root b))) in
        empty_loop fuel queue b (Z.land ret v) node
      else cret ret
  end.

(** [nfq.reorder_buf[sport] = p]. *)
Definition set_slot (sport p : Z) : M nfq_state unit :=
  λ s, Some (tt, set_table (Table (<[sport := p]> (slots (nq_table s))) (bufs (nq_table s))) s).

(** The flow leaves its list; the buffer itself is not freed. *)
Definition unlink_flow (b : Z) : M nfq_state unit :=
  let* fbuf := n_get b in
  let myprev := nb_prev fbuf in
  let mynext := nb_next fbuf in
  (if nonnull myprev then n_upd myprev (nb_with_next mynext)
   else set_slot (nb_sport fbuf) mynext) ;;;
  (if nonnull mynext then n_upd mynext (nb_with_prev myprev) else cret tt).

Definition empty_and_destroy_buf (queue b : Z) : M nfq_state Z :=
  λ s, (let* node := n_heap (on_words (rb_first (nb_root b))) in
        let* ret := empty_loop (S (size (hdata (nq_heap s)))) queue b 1 node in
        unlink_flow b ;;;
        cret ret) s.

Definition timer_cb (b : Z) : M nfq_state unit :=
  let* fbuf := n_get b in
  let* now := ev_now in
  let after := dadd (dsub (nb_last_activity fbuf) now) (nb_timeout fbuf) in
  if SFltb after dzero then
    λ s, (let* _ := empty_and_destroy_buf (nq_queue s) b in cret tt) s
  else ev_timer_start b after.

(** The buffer of the flow; a new one is zeroed, gets its timer and its first
    call of [timer_cb]. *)
Definition nfq_get_flow (sport dport seq : Z) : M nfq_state Z :=
  λ s, match flow_get (calloc (nq_live s))
               (λ prev, NfqBuf sport dport 0 seq prev NULL dzero (nq_now s)) sport dport (nq_table s) with
       | Some (b, new, tb) =>
           if new : bool then
             let h := Heap (<[nb_root b := NULL]> (hwords (nq_heap s))) (hdata (nq_heap s)) in
             let s := NQ h tb (nq_queue s) (nq_verdicts s) (nq_timers s) (nq_now s) in
             match timer_cb b s with Some (_, s) => Some (b, s) | None => None end
           else Some (b, set_table tb s)
       | None => None
       end.

(** [while (node && seq == expected_next)]. *)
Fixpoint nfq_release_loop (fuel : nat) (queue b node : Z) : M nfq_state unit :=
  match fuel with
  | O => cfail
  | S fuel =>
      if nonnull node then
        let* fdata := n_heap (get_data node) in
        let* fbuf := n_get b in
        if nd_seq fdata =? nb_expected_next fbuf then
          let* _ := nfq_send_packet_at queue b node in
          let* node := n_heap (on_words (rb_first (nb_root b))) in
          nfq_release_loop fuel queue b node
        else cret tt
      else cret tt
  end.

Definition nfq_release (queue b node : Z) : M nfq_state unit :=
  λ s, nfq_release_loop (S (size (hdata (nq_heap s)))) queue b node s.

(** The resequencing algorithm, on the flow [b] of packet [id]. *)
Definition nfq_resequence (queue id : Z) (p : packet) (b : Z) : M nfq_state Z :=
  let* fbuf := n_get b in
  if before (p_seq p) (nb_expected_next fbuf) || (p_seq p =? nb_expected_next fbuf) then
    let* _ := nfq_set_verdict queue id NF_ACCEPT in
    (if p_syn p then n_upd b (nb_with_expected (u32 (p_seq p + 1)))
     else if nb_expected_next fbuf <? u32 (p_seq p + p_size p)
     then n_upd b (nb_with_expected (u32 (p_seq p + p_size p))) else cret tt) ;;;
    touch b ;;;
    let* node := n_heap (on_words (rb_first (nb_root b))) in
    nfq_release queue b node ;;;
    cret 1
  else if nb_size fbuf <? NFQ_FBUF_SIZ then
    nfq_insert_or_send_packet queue b (p_seq p) id (p_size p)
  else
    let* first_node := n_heap (on_words (rb_first (nb_root b))) in
    let* lowest := n_heap (get_data first_node) in
    (if nd_seq lowest <=? p_seq p then
       let* _ := nfq_send_packet_at queue b first_node in
       let* _ := nfq_insert_or_send_packet queue b (p_seq p) id (p_size p) in
       cret tt
     else
       let* _ := nfq_set_verdict queue id NF_ACCEPT in
       touch b) ;;;
    cret (-1).

(** The unreachable rest of [nfq_cb], on the payload of packet [id]. *)
Definition nfq_cb_rest (queue id : Z) (payload : list Z) : M nfq_state Z :=
  let p := parse_packet payload in
  let* b := nfq_get_flow (p_sport p) (p_dport p) (p_seq p) in
  nfq_resequence queue id p b.

(** [nfq_cb]; [packet_id] is in network order in the message. *)
Definition nfq_cb (queue : Z) (packet_id : list Z) : M nfq_state Z :=
  let id := be32 packet_id 0 in
  nfq_set_verdict queue id NF_ACCEPT.
End code.

(** ** Initialisation *)

(** What the library calls of [nfq_init] return. *)
Record nfq_lib := NfqLib {
  r_open : Z;
  r_create_queue : Z;
  r_set_mode : Z;
  r_set_queue_flags : Z;
  r_set_queue_maxlen : Z;
  r_fd : Z;
}.

(** [fd], [handler] and [queue] of the configuration it is given. *)
Record nfq_config := NfqConfig { cfg_fd : Z; cfg_handler : Z; cfg_queue : Z }.

Definition nfq_init (lib : nfq_lib) : Z * nfq_config :=
  if negb (nonnull (r_open lib)) then (-1, NfqConfig 0 (r_open lib) 0)
  else if negb (nonnull (r_create_queue lib)) then (-1, NfqConfig 0 (r_open lib) (r_create_queue lib))
  else if r_set_mode lib <? 0 then (r_set_mode lib, NfqConfig 0 (r_open lib) (r_create_queue lib))
  else if r_set_queue_flags lib <? 0 then
    (r_set_queue_flags lib, NfqConfig 0 (r_open lib) (r_create_queue lib))
  else if r_set_queue_maxlen lib <? 0 then
    (r_set_queue_maxlen lib, NfqConfig 0 (r_open lib) (r_create_queue lib))
  else
    let cfg := NfqConfig (r_fd lib) (r_open lib) (r_create_queue lib) in
    if r_fd lib <? 0 then (-1, cfg) else (0, cfg).
