(* ===== verification/NfqTheorems.v ===== *)
(** * What the resequencing queue guarantees

    Every packet given to the resequencing code gets exactly one verdict or is
    held; the expiry of a flow lets its packets go in order and takes the flow
    out of its list. *)

From Stdlib Require Import ZArith Lia Floats.SpecFloat.
From stdpp Require Import base numbers list gmap option sets.
From S2P Require Import Prelude RbCode RbTree RbRefine RbWalk RbMem SeqBuf FlowTable Packet Reorder RbTheorems ReorderSim ReorderTheorems Nfqueue.

Open Scope Z_scope.

(** ** One flow *)

(** The flow [b] holds the packets [ds]. *)
Record holds (s : nfq_state) (b : Z) (t : tree) (ds : list nfq_flowdata) : Prop := {
  holds_buf : ∃ r, bufs (nq_table s) !! b = Some r ∧ nb_size r = Z.of_nat (length ds);
  holds_tree : buffer (nb_root b) t (nq_heap s) ds;
  holds_len : Z.of_nat (length ds) ≤ NFQ_FBUF_SIZ;
}.

(** The fields of a buffer that place it in the table. *)
Definition same_place (r r' : nfq_flowbuf) : Prop :=
  nb_sport r' = nb_sport r ∧ nb_dport r' = nb_dport r ∧ nb_prev r' = nb_prev r ∧
  nb_next r' = nb_next r ∧ nb_timeout r' = nb_timeout r.

(** [s'] differs from [s] in the flow [b] and has the verdicts [log] more. *)
Record acts (b : Z) (log : list (Z * Z * verdict)) (s s' : nfq_state) : Prop := {
  acts_slots : slots (nq_table s') = slots (nq_table s);
  acts_bufs : ∀ x, x ≠ b → bufs (nq_table s') !! x = bufs (nq_table s) !! x;
  acts_buf : ∀ r, bufs (nq_table s) !! b = Some r →
    ∃ r', bufs (nq_table s') !! b = Some r' ∧ same_place r r';
  acts_queue : nq_queue s' = nq_queue s;
  acts_log : nq_verdicts s' = nq_verdicts s ++ log;
}.

Lemma same_place_refl r : same_place r r.
Proof. done. Qed.

Lemma acts_refl b s : acts b [] s s.
Proof. split; try done; [eauto using same_place_refl|by rewrite app_nil_r]. Qed.

Lemma acts_trans b log1 log2 s s1 s2 : acts b log1 s s1 → acts b log2 s1 s2 → acts b (log1 ++ log2) s s2.
Proof.
  intros H1 H2. split.
  - by rewrite (acts_slots _ _ _ _ H2), (acts_slots _ _ _ _ H1).
  - intros x Hx. by rewrite (acts_bufs _ _ _ _ H2), (acts_bufs _ _ _ _ H1).
  - intros r Hr. destruct (acts_buf _ _ _ _ H1 r Hr) as (r1 & Hr1 & Hp1).
    destruct (acts_buf _ _ _ _ H2 r1 Hr1) as (r2 & Hr2 & Hp2). exists r2. split; [done|].
    unfold same_place in *. intuition congruence.
  - by rewrite (acts_queue _ _ _ _ H2), (acts_queue _ _ _ _ H1).
  - by rewrite (acts_log _ _ _ _ H2), (acts_log _ _ _ _ H1), app_assoc.
Qed.

(** The state with another heap, another buffer and more verdicts. *)
Definition after_step (s : nfq_state) (h : heap nfq_flowdata) (b : Z) (r : nfq_flowbuf)
    (log : list (Z * Z * verdict)) : nfq_state :=
  NQ h (Table (slots (nq_table s)) (<[b := r]> (bufs (nq_table s)))) (nq_queue s)
    (nq_verdicts s ++ log) (nq_timers s) (nq_now s).

Lemma after_step_acts s h b r r' log : bufs (nq_table s) !! b = Some r → same_place r r' →
  acts b log s (after_step s h b r' log).
Proof.
  intros Hr Hp. split; simpl; try done.
  - intros x Hx. by rewrite lookup_insert_ne.
  - intros r0 Hr0. exists r'. rewrite lookup_insert_eq. by simplify_eq.
Qed.

Lemma n_heap_same {A} (c : M (heap nfq_flowdata) A) s v :
  c (nq_heap s) = Some (v, nq_heap s) → n_heap c s = Some (v, s).
Proof. intros Hc. unfold n_heap. rewrite Hc. by destruct s. Qed.

Lemma n_data_same s a d : hdata (nq_heap s) !! a = Some d → n_heap (get_data a) s = Some (d, s).
Proof. intros Hd. apply n_heap_same. unfold get_data. by rewrite Hd. Qed.

Lemma n_first s b t ds : holds s b t ds →
  n_heap (on_words (rb_first (nb_root b))) s = Some (end_of L (inorder t), s).
Proof.
  intros Hh. destruct (holds_tree _ _ _ _ Hh) as [Hrep Hrb Hsm _]. apply n_heap_same.
  unfold on_words, rb_first. rewrite (first_at_spec L _ _ _ Hrep Hrb Hsm). by destruct (nq_heap s).
Qed.

Lemma holds_fuel s b t ds : holds s b t ds → (length ds < S (size (hdata (nq_heap s))))%nat.
Proof.
  intros Hh. pose proof (holds_tree _ _ _ _ Hh) as Hb. apply le_n_S.
  rewrite <- (buffer_length _ _ _ _ Hb), <- size_dom.
  rewrite <- (size_list_to_set (C := gset Z) (inorder t)) by (eapply rep_NoDup, Hb).
  apply subseteq_size. intros a Ha%elem_of_list_to_set. apply elem_of_dom.
  destruct (buffer_entry _ _ _ _ _ Hb Ha) as (d & Hd & _). by exists d.
Qed.

Section flow.
Context `{CallocOk} (vret : list (Z * Z * verdict) → Z).

(** ** [send_packet_at] *)

Lemma send_acts q s b t d rest : holds s b t (d :: rest) →
  ∃ s' t', nfq_send_packet_at vret q b (end_of L (inorder t)) s
      = Some (vret (nq_verdicts s ++ [(q, nd_packet_id d, NF_ACCEPT)]), s') ∧
    holds s' b t' rest ∧ acts b [(q, nd_packet_id d, NF_ACCEPT)] s s'.
Proof.
  intros [(r & Hr & Hsz) Htr Hlen]. pose proof Htr as [_ _ _ Hd].
  destruct (inorder t) as [|a ys] eqn:Hin; [by inversion Hd|]. rewrite end_of_L_cons.
  inversion Hd as [|? ? ? ? Ha Hd']; subst.
  destruct (unlink_free_spec _ t (nq_heap s) _ [] a ys [] d rest Htr Hin)
    as (h' & t' & Hu & _ & Hbuf' & _); [done|done|].
  set (log := [(q, nd_packet_id d, NF_ACCEPT)]).
  set (e := u32 (nd_seq d + nd_seg_size d)).
  set (r1 := if nb_expected_next r <? e then nb_with_expected e r else r).
  assert (same_place r r1 ∧ nb_size r1 = nb_size r) as [Hp1 Hs1]
    by (unfold r1; destruct (_ <? _); done).
  set (r2 := nb_with_size (u32 (nb_size r1 - 1)) (nb_with_activity (nq_now s) r1)).
  exists (after_step s h' b r2 log), t'. split; [|split].
  - unfold nfq_send_packet_at. unfold cbind at 1. rewrite (n_data_same _ _ _ Ha).
    unfold cbind at 1, nfq_set_verdict at 1. unfold cbind at 1, n_get. cbn [nq_table]. rewrite Hr.
    fold e log. set (s1 := NQ _ _ _ _ _ _).
    assert ((if nb_expected_next r <? e then n_upd b (nb_with_expected e) else cret tt) s1
            = Some (tt, after_step s (nq_heap s) b r1 log)) as Hc1.
    { unfold r1, after_step. destruct (_ <? _).
      - unfold n_upd. simpl. by rewrite Hr.
      - unfold cret, s1. rewrite insert_id by done. by destruct (nq_table s). }
    unfold cbind at 1. rewrite Hc1. unfold cbind at 1, n_heap. simpl nq_heap. rewrite Hu.
    unfold cbind, touch, ev_now, cbind, n_upd. simpl. rewrite lookup_insert_eq. simpl.
    rewrite lookup_insert_eq. unfold set_table, after_step, cret. simpl. by rewrite !insert_insert_eq.
  - split; simpl; [|done|simpl in Hlen; lia]. exists r2. rewrite lookup_insert_eq.
    split; [done|]. simpl. rewrite Hs1, Hsz. simpl length. unfold NFQ_FBUF_SIZ in Hlen. simpl in Hlen.
    rewrite u32_small by lia. lia.
  - by apply (after_step_acts s h' b r).
Qed.

(** ** [insert_or_send_packet] *)

Lemma calloc_fresh_nodes s b t ds : holds s b t ds →
  let a := calloc (nq_live s) in
  ptr_ok a ∧ hdata (nq_heap s) !! a = None ∧ ∀ p, p ∈ fields a → p ∉ owned (nb_root b) t.
Proof.
  intros Hh a. destruct (holds_buf _ _ _ _ Hh) as (r & Hr & _).
  assert (∀ x, x ∈ nq_live s → a + BLOCK ≤ x ∨ x + BLOCK ≤ a) as Hap by (by apply calloc_apart).
  split; [apply calloc_ptr|]. split.
  - apply not_elem_of_dom. intros Hd. destruct (Hap a); [by apply elem_of_union_l|unfold BLOCK in *; lia..].
  - intros p Hp%fields_in_block. intros [->|(x & Hx & Hpx%fields_in_block)]%owned_spec.
    + destruct (Hap b); [by apply elem_of_union_r, elem_of_dom|unfold in_block, nb_root, BLOCK in *; lia..].
    + destruct (buffer_entry _ _ _ _ _ (holds_tree _ _ _ _ Hh) Hx) as (d & Hd & _).
      destruct (Hap x); [by apply elem_of_union_l, elem_of_dom|unfold in_block in *; lia..].
Qed.

(** The ids of verdicts, and of packets held. *)
Definition ids_of (log : list (Z * Z * verdict)) : list Z := (λ x, x.1.2) <$> log.

Lemma insert_new_acts s b k ds seq id len : holds s b (fill E k) ds →
  Z.of_nat (length ds) < NFQ_FBUF_SIZ →
  ∃ s' t' ds', (n_upd b (λ r, nb_with_size (u32 (nb_size r + 1)) r) ;;;
      let* newdata := λ s, Some (calloc (nq_live s), s) in
      n_heap (link_new newdata (NfqData seq id len) (up k) (link_of (nb_root b) k) (nb_root b)) ;;;
      touch b ;;; cret 0) s = Some (0, s') ∧
    holds s' b t' ds' ∧ acts b [] s s' ∧ nd_packet_id <$> ds' ≡ₚ id :: (nd_packet_id <$> ds).
Proof.
  intros Hh Hlt. destruct (calloc_fresh_nodes _ _ _ _ Hh) as (Hptr & Hnone & Hfr).
  pose proof Hh as [(r & Hr & Hsz) Htr _]. unfold NFQ_FBUF_SIZ in Hlt.
  set (a := calloc (nq_live s)) in *.
  destruct (link_new_spec (nb_root b) k (nq_heap s) ds a (NfqData seq id len) Htr)
    as (h' & t' & i & Hc & Hi & _ & Hbuf & _); [done..|lia|].
  set (r1 := nb_with_size (u32 (nb_size r + 1)) r).
  exists (after_step s h' b (nb_with_activity (nq_now s) r1) []), t',
    (take i ds ++ NfqData seq id len :: drop i ds). split; [|split; [|split]].
  - unfold cbind, n_upd at 1. rewrite Hr. fold r1.
    assert (nq_live (set_table (Table (slots (nq_table s)) (<[b := r1]> (bufs (nq_table s)))) s)
            = nq_live s) as -> by (unfold nq_live; simpl; by rewrite dom_insert_lookup_L).
    fold a. unfold n_heap. cbn [nq_heap set_table]. rewrite Hc.
    unfold touch, ev_now, cbind, n_upd. simpl. rewrite lookup_insert_eq.
    unfold set_table, after_step, cret. simpl. by rewrite insert_insert_eq, app_nil_r.
  - assert (length (take i ds ++ NfqData seq id len :: drop i ds) = S (length ds)) as Hlen'.
    { rewrite length_app. simpl. rewrite length_take, length_drop. lia. }
    split; simpl; [|done|unfold NFQ_FBUF_SIZ; lia].
    eexists. rewrite lookup_insert_eq. split; [done|]. simpl. rewrite Hsz, Hlen', u32_small by lia. lia.
  - by apply (after_step_acts s h' b r).
  - rewrite fmap_app, fmap_cons. simpl. rewrite <- Permutation_middle, <- fmap_app, take_drop. done.
Qed.

Lemma insert_acts q s b t ds seq id len : holds s b t ds →
  Z.of_nat (length ds) < NFQ_FBUF_SIZ →
  ∃ v s' t' ds' log, nfq_insert_or_send_packet vret q b seq id len s = Some (v, s') ∧
    holds s' b t' ds' ∧ acts b log s s' ∧
    ids_of log ++ (nd_packet_id <$> ds') ≡ₚ id :: (nd_packet_id <$> ds).
Proof.
  intros Hh Hlt. pose proof Hh as [(r & Hr & Hsz) Htr Hlen]. pose proof Htr as [Hrep Hrb Hsm Hd].
  destruct (place_loop_spec nd_seq rb_fuel (nb_root b) t [] (nq_heap s) seq _ Htr)
    as (place & Hp & Hplace); [by apply rb_tree_depth|constructor|].
  cbn [link_of up] in Hp. unfold nfq_insert_or_send_packet. unfold cbind at 1. rewrite (n_heap_same _ _ _ Hp).
  destruct place as [a|[parent link]].
  - destruct Hplace as (Ha & d & Hda & _). simpl in Ha.
    apply list_elem_of_split in Ha as (xs & ys & Hin). rewrite Hin in Hd.
    apply Forall2_app_inv_l in Hd as (pre & post & H1 & H2 & ->).
    inversion H2 as [|? d' ? post' Hda' H3]; subst. assert (d' = d) as -> by congruence.
    unfold cbind at 1. rewrite (n_data_same _ _ _ Hda).
    destruct (len <? nd_seg_size d).
    + unfold cbind, nfq_set_verdict, touch, ev_now, cbind, n_upd. simpl. rewrite Hr.
      exists (vret (nq_verdicts s ++ [(q, id, NF_DROP)])),
        (after_step s (nq_heap s) b (nb_with_activity (nq_now s) r) [(q, id, NF_DROP)]), t,
        (pre ++ d :: post'), [(q, id, NF_DROP)].
      split; [done|]. split; [|split; [by apply (after_step_acts s _ b r)|done]].
      split; [|done..]. simpl. eexists. by rewrite lookup_insert_eq.
    + set (d' := NfqData (nd_seq d) id len).
      exists (vret (nq_verdicts s ++ [(q, nd_packet_id d, NF_DROP)])),
        (after_step s (Heap (hwords (nq_heap s)) (<[a := d']> (hdata (nq_heap s)))) b
           (nb_with_activity (nq_now s) r) [(q, nd_packet_id d, NF_DROP)]), t,
        (pre ++ d' :: post'), [(q, nd_packet_id d, NF_DROP)].
      split; [|split; [|split; [by apply (after_step_acts s _ b r)|]]].
      * unfold cbind, n_heap, set_data. rewrite Hda. unfold nfq_set_verdict, touch, ev_now, cbind, n_upd.
        simpl. by rewrite Hr.
      * split; simpl; [|by eapply buffer_update; [|done|by eapply Forall2_length]|].
        -- eexists. rewrite lookup_insert_eq. split; [done|]. simpl. rewrite Hsz, !length_app. done.
        -- rewrite length_app in *. done.
      * rewrite !fmap_app, !fmap_cons. simpl. rewrite <- !Permutation_middle. apply perm_swap.
  - destruct Hplace as (k & -> & -> & Hfill & _). simpl in Hfill. subst t.
    destruct (insert_new_acts s b k ds seq id len Hh Hlt) as (s' & t' & ds' & Hc & Hh' & Hac & Hperm).
    exists 0, s', t', ds', []. done.
Qed.

(** ** The loops *)

Lemma release_acts fuel q s b t ds : holds s b t ds → (length ds < fuel)%nat →
  ∃ s' t' ds' log, nfq_release_loop vret fuel q b (end_of L (inorder t)) s = Some (tt, s') ∧
    holds s' b t' ds' ∧ acts b log s s' ∧
    ids_of log ++ (nd_packet_id <$> ds') = nd_packet_id <$> ds.
Proof.
  revert s t ds. induction fuel as [|fuel IH]; intros s t ds Hh Hf; [lia|].
  pose proof (holds_tree _ _ _ _ Hh) as Hb. pose proof Hb as [_ _ _ Hd]. destruct ds as [|d rest].
  - inversion Hd. exists s, t, [], []. split; [done|]. split; [done|]. split; [apply acts_refl|done].
  - destruct (inorder t) as [|a ys] eqn:Hin; [by inversion Hd|].
    pose proof (rep_nonnull _ _ _ _ a (buf_rep _ _ _ _ Hb)) as Hnn.
    inversion Hd as [|? ? ? ? Ha _]; subst. cbn [nfq_release_loop].
    rewrite end_of_L_cons, Hnn by (rewrite Hin; by left).
    unfold cbind. rewrite (n_data_same _ _ _ Ha).
    destruct (holds_buf _ _ _ _ Hh) as (r & Hr & _). unfold n_get. rewrite Hr.
    destruct (nd_seq d =? nb_expected_next r);
      [|exists s, t, (d :: rest), []; split; [done|]; split; [done|]; split; [apply acts_refl|done]].
    destruct (send_acts q _ _ _ _ _ Hh) as (s1 & t1 & Hc & Hh1 & Hac1).
    rewrite Hin, end_of_L_cons in Hc. rewrite Hc, (n_first _ _ _ _ Hh1).
    destruct (IH _ _ _ Hh1) as (s2 & t2 & ds2 & log2 & Hc2 & Hh2 & Hac2 & Heq); [simpl in *; lia|].
    exists s2, t2, ds2, ((q, nd_packet_id d, NF_ACCEPT) :: log2). split; [done|]. split; [done|].
    split; [by apply (acts_trans b [_] log2 s s1 s2)|]. unfold ids_of in *. rewrite !fmap_cons. simpl. by f_equal.
Qed.

Definition accepts (q : Z) (ds : list nfq_flowdata) : list (Z * Z * verdict) :=
  (λ d, (q, nd_packet_id d, NF_ACCEPT)) <$> ds.

Lemma empty_acts fuel q ret s b t ds : holds s b t ds → (length ds < fuel)%nat →
  ∃ v s' t', empty_loop vret fuel q b ret (end_of L (inorder t)) s = Some (v, s') ∧
    holds s' b t' [] ∧ acts b (accepts q ds) s s'.
Proof.
  revert ret s t ds. induction fuel as [|fuel IH]; intros ret s t ds Hh Hf; [lia|].
  pose proof (holds_tree _ _ _ _ Hh) as Hb. pose proof Hb as [_ _ _ Hd]. destruct ds as [|d rest].
  - inversion Hd. exists ret, s, t. split; [done|]. split; [done|apply acts_refl].
  - destruct (inorder t) as [|a ys] eqn:Hin; [by inversion Hd|].
    pose proof (rep_nonnull _ _ _ _ a (buf_rep _ _ _ _ Hb)) as Hnn. cbn [empty_loop].
    rewrite end_of_L_cons, Hnn by (rewrite Hin; by left). unfold cbind.
    destruct (send_acts q _ _ _ _ _ Hh) as (s1 & t1 & Hc & Hh1 & Hac1).
    rewrite Hin, end_of_L_cons in Hc. rewrite Hc, (n_first _ _ _ _ Hh1).
    destruct (IH (Z.land ret (vret (nq_verdicts s ++ [(q, nd_packet_id d, NF_ACCEPT)]))) _ _ _ Hh1)
      as (v & s2 & t2 & Hc2 & Hh2 & Hac2); [simpl in *; lia|].
    exists v, s2, t2. split; [done|]. split; [done|]. by apply (acts_trans b [_] _ s s1 s2).
Qed.

(** ** A packet *)

Lemma touch_acts s b t ds : holds s b t ds →
  ∃ s', touch b s = Some (tt, s') ∧ holds s' b t ds ∧ acts b [] s s'.
Proof.
  intros [(r & Hr & Hsz) Htr Hlen]. unfold touch, ev_now, cbind, n_upd. rewrite Hr.
  exists (after_step s (nq_heap s) b (nb_with_activity (nq_now s) r) []).
  split; [unfold after_step; by rewrite app_nil_r|]. split; [|by apply (after_step_acts s _ b r)].
  split; [|done..]. simpl. eexists. by rewrite lookup_insert_eq.
Qed.

Lemma expect_acts s b t ds e : holds s b t ds →
  ∃ s', n_upd b (nb_with_expected e) s = Some (tt, s') ∧ holds s' b t ds ∧ acts b [] s s'.
Proof.
  intros [(r & Hr & Hsz) Htr Hlen]. unfold n_upd. rewrite Hr.
  exists (after_step s (nq_heap s) b (nb_with_expected e r) []).
  split; [unfold after_step; by rewrite app_nil_r|]. split; [|by apply (after_step_acts s _ b r)].
  split; [|done..]. simpl. eexists. by rewrite lookup_insert_eq.
Qed.

Lemma verdict_acts q id v s b t ds : holds s b t ds →
  ∃ s', nfq_set_verdict vret q id v s = Some (vret (nq_verdicts s ++ [(q, id, v)]), s') ∧
    holds s' b t ds ∧ acts b [(q, id, v)] s s'.
Proof.
  intros [Hb Htr Hlen]. eexists. split; [done|]. split; [by split|]. split; try done.
  simpl. eauto using same_place_refl.
Qed.

(** The packet is due: it is accepted with those it was holding up. *)
Lemma due_acts q id p s b t ds exp : holds s b t ds →
  ∃ s' t' ds' log, (let* _ := nfq_set_verdict vret q id NF_ACCEPT in
      (if p_syn p then n_upd b (nb_with_expected (u32 (p_seq p + 1)))
       else if exp <? u32 (p_seq p + p_size p)
       then n_upd b (nb_with_expected (u32 (p_seq p + p_size p))) else cret tt) ;;;
      touch b ;;;
      let* node := n_heap (on_words (rb_first (nb_root b))) in
      nfq_release vret q b node ;;; cret 1) s = Some (1, s') ∧
    holds s' b t' ds' ∧ acts b log s s' ∧
    ids_of log ++ (nd_packet_id <$> ds') = id :: (nd_packet_id <$> ds).
Proof.
  intros Hh. destruct (verdict_acts q id NF_ACCEPT _ _ _ _ Hh) as (s1 & Hc1 & Hh1 & Ha1).
  assert (∃ s2, (if p_syn p then n_upd b (nb_with_expected (u32 (p_seq p + 1)))
       else if exp <? u32 (p_seq p + p_size p)
       then n_upd b (nb_with_expected (u32 (p_seq p + p_size p))) else cret tt) s1 = Some (tt, s2) ∧
       holds s2 b t ds ∧ acts b [] s1 s2) as (s2 & Hc2 & Hh2 & Ha2).
  { destruct (p_syn p); [by apply expect_acts|]. destruct (_ <? _); [by apply expect_acts|].
    exists s1. split; [done|]. split; [done|apply acts_refl]. }
  destruct (touch_acts _ _ _ _ Hh2) as (s3 & Hc3 & Hh3 & Ha3).
  destruct (release_acts _ q _ _ _ _ Hh3 (holds_fuel _ _ _ _ Hh3)) as (s4 & t4 & ds4 & log & Hc4 & Hh4 & Ha4 & Heq).
  exists s4, t4, ds4, ((q, id, NF_ACCEPT) :: log). split; [|split; [done|split]].
  - unfold cbind at 1. rewrite Hc1. unfold cbind at 1. rewrite Hc2. unfold cbind at 1. rewrite Hc3.
    unfold cbind at 1. rewrite (n_first _ _ _ _ Hh3). unfold cbind, nfq_release. by rewrite Hc4.
  - apply (acts_trans b [_] ([] ++ [] ++ log) s s1); [done|].
    eapply acts_trans; [done|]. by eapply acts_trans.
  - unfold ids_of in *. rewrite fmap_cons. simpl. by rewrite Heq.
Qed.

(** The buffer is full: the lowest packet makes room, or the packet is accepted. *)
Lemma full_acts q id p s b t ds : holds s b t ds → NFQ_FBUF_SIZ ≤ Z.of_nat (length ds) →
  ∃ s' t' ds' log, (let* first_node := n_heap (on_words (rb_first (nb_root b))) in
      let* lowest := n_heap (get_data first_node) in
      (if nd_seq lowest <=? p_seq p then
         let* _ := nfq_send_packet_at vret q b first_node in
         let* _ := nfq_insert_or_send_packet vret q b (p_seq p) id (p_size p) in
         cret tt
       else
         let* _ := nfq_set_verdict vret q id NF_ACCEPT in
         touch b) ;;;
      cret (-1)) s = Some (-1, s') ∧
    holds s' b t' ds' ∧ acts b log s s' ∧
    ids_of log ++ (nd_packet_id <$> ds') ≡ₚ id :: (nd_packet_id <$> ds).
Proof.
  intros Hh Hge. pose proof (holds_len _ _ _ _ Hh) as Hle. pose proof (holds_tree _ _ _ _ Hh) as [_ _ _ Hd].
  unfold cbind at 1. rewrite (n_first _ _ _ _ Hh). destruct ds as [|d rest]; [done|].
  destruct (inorder t) as [|a ys] eqn:Hin; [by inversion Hd|]. inversion Hd as [|? ? ? ? Ha _]; subst.
  rewrite end_of_L_cons. unfold cbind at 1. rewrite (n_data_same _ _ _ Ha).
  destruct (nd_seq d <=? p_seq p).
  - destruct (send_acts q _ _ _ _ _ Hh) as (s1 & t1 & Hc1 & Hh1 & Ha1).
    rewrite Hin, end_of_L_cons in Hc1.
    destruct (insert_acts q _ _ _ _ (p_seq p) id (p_size p) Hh1) as (v & s2 & t2 & ds2 & log & Hc2 & Hh2 & Ha2 & Hperm);
      [simpl in *; lia|].
    exists s2, t2, ds2, ((q, nd_packet_id d, NF_ACCEPT) :: log). split; [|split; [done|split]].
    + unfold cbind. by rewrite Hc1, Hc2.
    + by apply (acts_trans b [_] log s s1 s2).
    + unfold ids_of in *. rewrite !fmap_cons. simpl. rewrite Hperm. apply perm_swap.
  - destruct (verdict_acts q id NF_ACCEPT _ _ _ _ Hh) as (s1 & Hc1 & Hh1 & Ha1).
    destruct (touch_acts _ _ _ _ Hh1) as (s2 & Hc2 & Hh2 & Ha2).
    exists s2, t, (d :: rest), [(q, id, NF_ACCEPT)]. split; [|split; [done|split; [|done]]].
    + unfold cbind. by rewrite Hc1, Hc2.
    + by apply (acts_trans b [_] [] s s1 s2).
Qed.

(** The resequencing code gives every packet exactly one verdict or keeps
    it: whatever the packet, the code ends, touches no other flow, holds at
    most [FBUF_SIZ] packets, and the packets it gave verdicts on together with
    those it holds now are the new packet and those it held before. *)
Theorem nfq_resequence_conserves q id p s b t ds : holds s b t ds →
  ∃ v s' t' ds' log, nfq_resequence vret q id p b s = Some (v, s') ∧
    holds s' b t' ds' ∧ acts b log s s' ∧
    ids_of log ++ (nd_packet_id <$> ds') ≡ₚ id :: (nd_packet_id <$> ds).
Proof.
  intros Hh. destruct (holds_buf _ _ _ _ Hh) as (r & Hr & Hsz).
  unfold nfq_resequence. unfold cbind at 1, n_get. rewrite Hr. destruct (_ || _).
  { destruct (due_acts q id p s b t ds (nb_expected_next r) Hh) as (s' & t' & ds' & log & Hc & ? & ? & Heq).
    exists 1, s', t', ds', log. by rewrite Heq. }
  rewrite Hsz. destruct (Z.ltb_spec (Z.of_nat (length ds)) NFQ_FBUF_SIZ) as [Hlt|Hge].
  - by eapply insert_acts.
  - destruct (full_acts q id p s b t ds Hh Hge) as (s' & t' & ds' & log & ?). by exists (-1), s', t', ds', log.
Qed.

(** ** Expiry *)

(** The flow [b] stands in its list between [xs] and [ys], with its links. *)
Record placed (s : nfq_state) (b : Z) (r : nfq_flowbuf) (xs ys : list Z) : Prop := {
  placed_buf : bufs (nq_table s) !! b = Some r;
  placed_chain : chain (bufs (nq_table s)) (head_of (nq_table s) (nb_sport r)) (xs ++ b :: ys);
  placed_nodup : NoDup (xs ++ b :: ys);
  placed_prev : nb_prev r = default NULL (list.last xs);
}.

Lemma chain_next (bm : gmap Z nfq_flowbuf) p xs b ys r : chain bm p (xs ++ b :: ys) → bm !! b = Some r →
  nb_next r = default NULL (head ys).
Proof.
  revert p. induction xs as [|x xs IH]; intros p Hc Hr.
  - destruct Hc as (_ & _ & r' & Hr' & Hc). rewrite Hr in Hr'. injection Hr' as <-.
    destruct ys as [|y ys]; [done|]. by destruct Hc as (He & _).
  - destruct Hc as (_ & _ & r' & _ & Hc). eauto.
Qed.

(** The list without [b], once the buffer before it points past it. *)
Lemma chain_remove (bm bm' : gmap Z nfq_flowbuf) p xs b ys r : chain bm p (xs ++ b :: ys) →
  NoDup (xs ++ b :: ys) → bm !! b = Some r → xs ≠ [] →
  (∀ x r, x ∈ xs ++ ys → bm !! x = Some r → ∃ r', bm' !! x = Some r' ∧
     nb_next r' = if decide (list.last xs = Some x) then default NULL (head ys) else nb_next r) →
  chain bm' p (xs ++ ys).
Proof.
  revert p. induction xs as [|x xs IH]; intros p Hc Hnd Hr Hne Hup; [done|].
  destruct Hc as (-> & Hnn & rx & Hrx & Hc). simpl app in *. apply list.NoDup_cons in Hnd as [Hx Hnd].
  destruct (Hup x rx) as (rx' & Hrx' & Hnx); [by left|done|].
  split; [done|]. split; [done|]. exists rx'. split; [done|].
  replace (b_next rx') with (nb_next rx') by done. rewrite Hnx.
  destruct xs as [|y xs].
  - rewrite decide_True by done. simpl in Hc |- *. destruct Hc as (_ & _ & r' & Hr' & Hc).
    rewrite Hr in Hr'. injection Hr' as <-.
    assert (default NULL (head ys) = b_next r) as -> by (destruct ys; [done|by destruct Hc as (He & _)]).
    eapply chain_frame; [done|]. intros z rz Hz Hrz. destruct (Hup z rz) as (rz' & Hrz' & Hnz); [by right|done|].
    exists rz'. split; [done|]. rewrite decide_False in Hnz; [done|].
    intros [= ->]. apply Hx. simpl. set_solver.
  - rewrite decide_False.
    + apply IH; [done|done|done|done|]. intros z rz Hz Hrz. apply Hup; [by right|done].
    + rewrite last_cons_cons. intros Hl. apply Hx. apply elem_of_app. left.
      by apply last_Some_elem_of.
Qed.

(** The second half of the unlinking changes no [next]. *)
Lemma relink_prev s y q : (nonnull y = true → is_Some (bufs (nq_table s) !! y)) →
  ∃ s', (if nonnull y then n_upd y (nb_with_prev q) else cret tt) s = Some (tt, s') ∧
    slots (nq_table s') = slots (nq_table s) ∧ nq_verdicts s' = nq_verdicts s ∧ nq_heap s' = nq_heap s ∧
    (∀ x r, bufs (nq_table s) !! x = Some r → ∃ r', bufs (nq_table s') !! x = Some r' ∧ nb_next r' = nb_next r) ∧
    (nonnull y = true → ∃ r, bufs (nq_table s') !! y = Some r ∧ nb_prev r = q).
Proof.
  intros Hy. destruct (nonnull y) eqn:Hn.
  - destruct (Hy eq_refl) as [r Hr]. unfold n_upd. rewrite Hr. eexists. split; [done|].
    do 3 (split; [done|]). simpl. split.
    + intros x rx Hx. destruct (decide (x = y)) as [->|Hxy].
      * eexists. rewrite lookup_insert_eq. split; [done|]. by simplify_eq.
      * exists rx. by rewrite lookup_insert_ne.
    + intros _. eexists. by rewrite lookup_insert_eq.
  - exists s. split; [done|]. do 3 (split; [done|]). split; [eauto|done].
Qed.

Lemma unlink_flow_spec s b r xs ys : placed s b r xs ys →
  ∃ s', unlink_flow b s = Some (tt, s') ∧
    chain (bufs (nq_table s')) (head_of (nq_table s') (nb_sport r)) (xs ++ ys) ∧
    (∀ sp, sp ≠ nb_sport r → head_of (nq_table s') sp = head_of (nq_table s) sp) ∧
    (∀ y, head ys = Some y → ∃ ry, bufs (nq_table s') !! y = Some ry ∧ nb_prev ry = nb_prev r) ∧
    nq_verdicts s' = nq_verdicts s ∧ nq_heap s' = nq_heap s.
Proof.
  intros [Hr Hch Hnd Hprev]. pose proof (chain_next _ _ _ _ _ _ Hch Hr) as Hnext.
  assert (∀ x, x ∈ xs ++ b :: ys → is_Some (bufs (nq_table s) !! x) ∧ nonnull x = true) as Hin
    by (intros x Hx; by eapply chain_lookup).
  assert (∀ y, head ys = Some y → y ∈ ys) as Hhd by (intros y Hy; destruct ys; simplify_eq/=; by left).
  unfold unlink_flow. unfold cbind at 1, n_get. rewrite Hr, Hnext.
  assert (nonnull (default NULL (head ys)) = true → ∃ y, head ys = Some y) as Hhead
    by (destruct ys; simpl; [done|eauto]).
  destruct (list.last xs) as [x|] eqn:Hl; simpl in Hprev.
  - apply last_Some_elem_of in Hl as Hx. destruct (Hin x) as [[rx Hrx] Hnx]; [set_solver|].
    rewrite Hprev, Hnx. unfold cbind, n_upd at 1. rewrite Hrx. set (s1 := set_table _ s).
    destruct (relink_prev s1 (default NULL (head ys)) x) as (s2 & Hc & Hsl & Hv & Hhp & Hnxt & Hpy).
    { intros [y Hy]%Hhead. rewrite Hy. simpl. destruct (Hin y) as [Hsome _]; [set_solver|].
      destruct (decide (x = y)) as [->|Hxy]; [by rewrite lookup_insert_eq|by rewrite lookup_insert_ne]. }
    rewrite Hc. exists s2. split; [done|]. split; [|split; [|split; [|done]]].
    + unfold head_of. rewrite Hsl. change (slots (nq_table s1)) with (slots (nq_table s)).
      eapply (chain_remove (bufs (nq_table s))); [done..|by intros ->|].
      intros z rz Hz Hrz. destruct (decide (z = x)) as [->|Hzx].
      * destruct (Hnxt x (nb_with_next (default NULL (head ys)) rx)) as (r' & Hr' & Hn');
          [unfold s1; simpl; by rewrite lookup_insert_eq|].
        exists r'. split; [done|]. by rewrite decide_True.
      * destruct (Hnxt z rz) as (r' & Hr' & Hn'); [unfold s1; simpl; by rewrite lookup_insert_ne|].
        exists r'. split; [done|]. rewrite decide_False; [done|]. congruence.
    + intros sp _. unfold head_of. by rewrite Hsl.
    + intros y Hy. rewrite Hy in Hpy. simpl in Hpy. apply Hpy. apply Hin. set_solver.
  - apply last_None in Hl. subst xs. rewrite Hprev. simpl negb. change (nonnull NULL) with false.
    cbn [app] in *. unfold cbind, set_slot. set (s1 := set_table _ s).
    destruct (relink_prev s1 (default NULL (head ys)) NULL) as (s2 & Hc & Hsl & Hv & Hhp & Hnxt & Hpy).
    { intros [y Hy]%Hhead. rewrite Hy. simpl. apply Hin. set_solver. }
    rewrite Hc. exists s2. split; [done|]. split; [|split; [|split; [|done]]].
    + destruct Hch as (_ & _ & r' & Hr' & Hch). rewrite Hr in Hr'. injection Hr' as <-.
      unfold head_of. rewrite Hsl. simpl. rewrite lookup_insert_eq. simpl.
      change (b_next r) with (nb_next r) in Hch. rewrite Hnext in Hch.
      eapply chain_frame; [done|]. intros z rz _ Hrz. by apply Hnxt.
    + intros sp Hsp. unfold head_of. rewrite Hsl. simpl. by rewrite lookup_insert_ne.
    + intros y Hy. rewrite Hy in Hpy. simpl in Hpy. apply Hpy. apply Hin. set_solver.
Qed.

(** When a flow expires, the packets it holds are accepted in the order of
    the tree, none is left, and the flow is taken out of the list of its source
    port, whose other flows stay linked in both directions; other lists are
    untouched. *)
Theorem empty_and_destroy_releases q s b t ds r xs ys : holds s b t ds → placed s b r xs ys →
  ∃ v s' t', empty_and_destroy_buf vret q b s = Some (v, s') ∧
    nq_verdicts s' = nq_verdicts s ++ accepts q ds ∧
    rep (nb_root b) t' [] (hwords (nq_heap s')) ∧ inorder t' = [] ∧
    chain (bufs (nq_table s')) (head_of (nq_table s') (nb_sport r)) (xs ++ ys) ∧
    (∀ sp, sp ≠ nb_sport r → head_of (nq_table s') sp = head_of (nq_table s) sp) ∧
    (∀ y, head ys = Some y → ∃ ry, bufs (nq_table s') !! y = Some ry ∧ nb_prev ry = nb_prev r).
Proof.
  intros Hh [Hr Hch Hnd Hprev].
  destruct (empty_acts _ q 1 _ _ _ _ Hh (holds_fuel _ _ _ _ Hh)) as (v & s1 & t1 & Hc1 & Hh1 & Ha1).
  destruct (acts_buf _ _ _ _ Ha1 r Hr) as (r1 & Hr1 & Hsp & Hdp & Hpv & Hnx & _).
  assert (∀ sp, head_of (nq_table s1) sp = head_of (nq_table s) sp) as Hhd
    by (intros sp; unfold head_of; by rewrite (acts_slots _ _ _ _ Ha1)).
  assert (placed s1 b r1 xs ys) as Hpl.
  { split; [done| |done|congruence]. rewrite Hsp, Hhd. eapply chain_frame; [done|].
    intros x rx _ Hx. destruct (decide (x = b)) as [->|Hxb].
    - exists r1. split; [done|]. simplify_eq. done.
    - exists rx. by rewrite (acts_bufs _ _ _ _ Ha1). }
  destruct (unlink_flow_spec _ _ _ _ _ Hpl) as (s2 & Hc2 & Hch2 & Hsl2 & Hpy & Hv2 & Hhp2).
  exists v, s2, t1. split; [|split; [|split; [|split; [|split; [|split]]]]].
  - unfold empty_and_destroy_buf. unfold cbind at 1. rewrite (n_first _ _ _ _ Hh).
    unfold cbind at 1. rewrite Hc1. unfold cbind at 1. by rewrite Hc2.
  - by rewrite Hv2, (acts_log _ _ _ _ Ha1).
  - rewrite Hhp2. apply (holds_tree _ _ _ _ Hh1).
  - pose proof (buffer_length _ _ _ _ (holds_tree _ _ _ _ Hh1)) as Hz. by destruct (inorder t1).
  - by rewrite <- Hsp.
  - intros sp Hne. rewrite Hsl2 by congruence. apply Hhd.
  - intros y Hy. rewrite <- Hpv. by apply Hpy.
Qed.
End flow.

(** ** The callback as it is *)

(** The callback on each packet id of a sequence. *)
Fixpoint nfq_cb_run (vret : list (Z * Z * verdict) → Z) (q : Z) (ids : list (list Z)) : M nfq_state unit :=
  match ids with
  | [] => cret tt
  | id :: ids => let* _ := nfq_cb vret q id in nfq_cb_run vret q ids
  end.

(** The program in its present form resequences nothing: it accepts every
    packet in the order of arrival, and neither a flow nor a timer is ever
    created. *)
Theorem nfq_cb_passes_through vret q ids s :
  nfq_cb_run vret q ids s
  = Some (tt, NQ (nq_heap s) (nq_table s) (nq_queue s)
                (nq_verdicts s ++ ((λ id, (q, be32 id 0, NF_ACCEPT)) <$> ids)) (nq_timers s) (nq_now s)).
Proof.
  revert s. induction ids as [|id ids IH]; intros s.
  - simpl. rewrite app_nil_r. by destruct s.
  - cbn [nfq_cb_run]. unfold cbind, nfq_cb, nfq_set_verdict. rewrite IH. simpl.
    by rewrite <- app_assoc.
Qed.

(** ** Examples *)

Definition sample_vret : list (Z * Z * verdict) → Z := λ _, 0.

(** Two flows of source port 1000; the first holds three packets. *)
Definition held_tree : tree := T Black (T Red E 2048 E) 2304 (T Red E 2560 E).

Definition held_data : list nfq_flowdata := [NfqData 300 11 50; NfqData 400 12 50; NfqData 500 13 50].

Definition held_buf : nfq_flowbuf := NfqBuf 1000 80 3 200 NULL 1024 dzero dzero.

Definition held_state : nfq_state :=
  NQ (Heap (list_to_map (root_cells (nb_root 512) held_tree))
        (list_to_map (zip [2048; 2304; 2560] held_data)))
     (Table {[1000 := 512]} {[512 := held_buf; 1024 := NfqBuf 1000 81 0 0 512 NULL dzero dzero]})
     0 [] [] dzero.

Ltac held := split;
  [by exists held_buf|split; [sample_rep|sample_rb|reflexivity|repeat constructor]|done].

Lemma nfq_resequence_conserves_witness : ∃ v s' t' ds' log,
  nfq_resequence sample_vret 5 14 (Packet 1000 80 100 200 false 0) 512 held_state = Some (v, s') ∧
  holds s' 512 t' ds' ∧ acts 512 log held_state s' ∧
  ids_of log ++ (nd_packet_id <$> ds') ≡ₚ [14; 11; 12; 13].
Proof.
  apply (nfq_resequence_conserves sample_vret 5 14 (Packet 1000 80 100 200 false 0) held_state 512
    held_tree held_data). held.
Defined.

Lemma empty_and_destroy_releases_witness : ∃ v s' t',
  empty_and_destroy_buf sample_vret 5 512 held_state = Some (v, s') ∧
  nq_verdicts s' = [(5, 11, NF_ACCEPT); (5, 12, NF_ACCEPT); (5, 13, NF_ACCEPT)] ∧
  rep (nb_root 512) t' [] (hwords (nq_heap s')) ∧ inorder t' = [] ∧
  chain (bufs (nq_table s')) (head_of (nq_table s') 1000) [1024] ∧
  (∀ sp, sp ≠ 1000 → head_of (nq_table s') sp = head_of (nq_table held_state) sp) ∧
  (∀ y, Some 1024 = Some y → ∃ ry, bufs (nq_table s') !! y = Some ry ∧ nb_prev ry = NULL).
Proof.
  apply (empty_and_destroy_releases sample_vret 5 held_state 512 held_tree held_data held_buf [] [1024]).
  - held.
  - split; [done| |apply (bool_decide_unpack _); vm_compute; exact I|done].
    do 2 (split; [done|split; [done|eexists; split; [done|]]]). done.
Defined.

(** Half a second after ten, in binary64. *)
Definition ten : double := S754_finite false 5629499534213120 (-49).

Definition ten_and_half : double := S754_finite false 5910974510923776 (-49).

Definition at_time (now : double) (s : nfq_state) : nfq_state :=
  NQ (nq_heap s) (nq_table s) (nq_queue s) (nq_verdicts s) (nq_timers s) now.

(** A flow does not live for [FBUF_TOUT], which no statement stores in its
    [timeout]: the timer of a flow created at ten is started with delay zero,
    and half a second later its callback removes the flow, although
    [FBUF_TOUT] is one second. *)
Theorem nfq_timeout_is_zero :
  let s0 := NQ (Heap ∅ ∅) (Table ∅ ∅) 0 [] [] ten in
  ∃ b s1 s2, nfq_cb_rest sample_vret 5 1 (build_packet (sample_packet 100 50 false)) s0 = Some (1, s1) ∧
    nq_timers s1 = [(b, dzero)] ∧ head_of (nq_table s1) 1000 = b ∧
    timer_cb sample_vret b (at_time ten_and_half s1) = Some (tt, s2) ∧
    head_of (nq_table s2) 1000 = NULL.
Proof.
  exists 512. do 2 eexists. split; [vm_compute; reflexivity|]. do 2 (split; [done|]).
  split; [vm_compute; reflexivity|done].
Qed.

(** ** Initialisation *)

(** [nfq_init] reports success exactly if every library call succeeded, and
    then hands over the handle, the queue and a valid descriptor; every failure
    is a negative result. *)
Theorem nfq_init_result lib :
  let '(ret, cfg) := nfq_init lib in
  ret ≤ 0 ∧
  (ret = 0 ↔ r_open lib ≠ 0 ∧ r_create_queue lib ≠ 0 ∧ 0 ≤ r_set_mode lib ∧
     0 ≤ r_set_queue_flags lib ∧ 0 ≤ r_set_queue_maxlen lib ∧ 0 ≤ r_fd lib) ∧
  (ret = 0 → cfg = NfqConfig (r_fd lib) (r_open lib) (r_create_queue lib)).
Proof.
  destruct lib as [o c m f l d]. unfold nfq_init, nonnull, NULL. simpl.
  destruct (Z.eqb_spec o 0), (Z.eqb_spec c 0), (Z.ltb_spec m 0), (Z.ltb_spec f 0),
    (Z.ltb_spec l 0), (Z.ltb_spec d 0); simpl; (split; [lia|split; [lia|]]); done || lia.
Qed.
