(* ===== verification/Netlink.v ===== *)
(** * Netlink messages (src/tbf/libnetlink.c, with the macros of libnetlink.h,
      linux/netlink.h and linux/rtnetlink.h)

    A message under construction is the memory it lies in, a list of bytes
    whose offset 0 is the [struct nlmsghdr]; pointers into it are offsets.
    Integers are little-endian.  An access outside the memory is undefined
    behaviour ([None]). *)

From Stdlib Require Import ZArith Lia.
From stdpp Require Import base numbers list gmap option.
From S2P Require Import Prelude.

Open Scope Z_scope.

(** ** Bytes *)

Fixpoint le (n : nat) (v : Z) : list Z :=
  match n with
  | O => []
  | S n => v mod 256 :: le n (v / 256)
  end.

Fixpoint unle (bs : list Z) : Z :=
  match bs with
  | [] => 0
  | b :: bs => b + 256 * unle bs
  end.

(** [n] bytes at [off]. *)
Definition sub (off : Z) (n : nat) (buf : list Z) : list Z := take n (drop (Z.to_nat off) buf).

(** [d] at [off]; bytes outside the memory are dropped. *)
Definition put (off : Z) (d : list Z) (buf : list Z) : list Z :=
  let n := Z.to_nat off in
  take n buf ++ take (length buf - n) d ++ drop (n + length d) buf.

Definition in_mem (off : Z) (n : nat) (buf : list Z) : bool :=
  (0 <=? off) && (off + Z.of_nat n <=? Z.of_nat (length buf)).

Definition nl_read (off : Z) (n : nat) : M (list Z) (list Z) :=
  λ buf, if in_mem off n buf then Some (sub off n buf, buf) else None.

Definition nl_write (off : Z) (d : list Z) : M (list Z) unit :=
  λ buf, if in_mem off (length d) buf then Some (tt, put off d buf) else None.

Definition get16 (off : Z) : M (list Z) Z := let* bs := nl_read off 2 in cret (unle bs).

Definition get32 (off : Z) : M (list Z) Z := let* bs := nl_read off 4 in cret (unle bs).

(** ** Layout *)

(** [NLMSG_ALIGN] and [RTA_ALIGN]: [((len)+4U-1) & ~(4U-1)]. *)
Definition NLMSG_ALIGN (len : Z) : Z := Z.land (u32 (len + 3)) 4294967292.

Definition RTA_ALIGN (len : Z) : Z := NLMSG_ALIGN len.

Definition RTA_LENGTH (len : Z) : Z := 4 + len.

(** [nlmsg_len] is the first field of [struct nlmsghdr]; [rta_len] and
    [rta_type] are the fields of [struct rtattr]. *)
Definition nlmsg_len : M (list Z) Z := get32 0.

Definition set_nlmsg_len (v : Z) : M (list Z) unit := nl_write 0 (le 4 v).

Definition rta_len (rta : Z) : M (list Z) Z := get16 rta.

Definition rta_type (rta : Z) : M (list Z) Z := get16 (rta + 2).

Definition set_rta_len (rta v : Z) : M (list Z) unit := nl_write rta (le 2 v).

Definition set_rta_type (rta v : Z) : M (list Z) unit := nl_write (rta + 2) (le 2 v).

Definition RTA_DATA (rta : Z) : Z := rta + 4.

Definition RTA_PAYLOAD (len : Z) : Z := len - 4.

Definition NLMSG_TAIL : M (list Z) Z := let* n := nlmsg_len in cret (NLMSG_ALIGN n).

Definition RTA_TAIL (rta : Z) : M (list Z) Z := let* n := rta_len rta in cret (rta + RTA_ALIGN n).

(** ** Building *)

Definition addattr_l (maxlen type : Z) (data : list Z) : M (list Z) Z :=
  let len := RTA_LENGTH (Z.of_nat (length data)) in
  let* nlen := nlmsg_len in
  if u32 maxlen <? u32 (NLMSG_ALIGN nlen + RTA_ALIGN len) then cret (-1)
  else
    let* rta := NLMSG_TAIL in
    set_rta_type rta type ;;;
    set_rta_len rta len ;;;
    nl_write (RTA_DATA rta) data ;;;
    set_nlmsg_len (NLMSG_ALIGN nlen + RTA_ALIGN len) ;;;
    cret 0.

Definition addattr (maxlen type : Z) : M (list Z) Z := addattr_l maxlen type [].

Definition addattr8 (maxlen type data : Z) : M (list Z) Z := addattr_l maxlen type (le 1 data).

Definition addattr16 (maxlen type data : Z) : M (list Z) Z := addattr_l maxlen type (le 2 data).

Definition addattr32 (maxlen type data : Z) : M (list Z) Z := addattr_l maxlen type (le 4 data).

Definition addattr64 (maxlen type data : Z) : M (list Z) Z := addattr_l maxlen type (le 8 data).

(** [str] without its terminating zero. *)
Definition addattrstrz (maxlen type : Z) (str : list Z) : M (list Z) Z :=
  addattr_l maxlen type (str ++ [0]).

Definition addraw_l (maxlen : Z) (data : list Z) : M (list Z) Z :=
  let len := Z.of_nat (length data) in
  let* nlen := nlmsg_len in
  if u32 maxlen <? u32 (NLMSG_ALIGN nlen + NLMSG_ALIGN len) then cret (-1)
  else
    let* tail := NLMSG_TAIL in
    nl_write tail data ;;;
    nl_write (tail + len) (replicate (Z.to_nat (NLMSG_ALIGN len - len)) 0) ;;;
    set_nlmsg_len (NLMSG_ALIGN nlen + NLMSG_ALIGN len) ;;;
    cret 0.

Definition addattr_nest (maxlen type : Z) : M (list Z) Z :=
  let* nest := NLMSG_TAIL in
  let* _ := addattr_l maxlen type [] in
  cret nest.

Definition addattr_nest_end (nest : Z) : M (list Z) Z :=
  let* tail := NLMSG_TAIL in
  set_rta_len nest (tail - nest) ;;;
  nlmsg_len.

Definition addattr_nest_compat (maxlen type : Z) (data : list Z) : M (list Z) Z :=
  let* start := NLMSG_TAIL in
  let* _ := addattr_l maxlen type data in
  let* _ := addattr_nest maxlen type in
  cret start.

Definition addattr_nest_compat_end (start : Z) : M (list Z) Z :=
  let* slen := rta_len start in
  let nest := start + NLMSG_ALIGN slen in
  let* tail := NLMSG_TAIL in
  set_rta_len start (tail - start) ;;;
  let* _ := addattr_nest_end nest in
  nlmsg_len.

(** Attributes inside the attribute [rta]. *)
Definition rta_addattr32 (rta maxlen type data : Z) : M (list Z) Z :=
  let len := RTA_LENGTH 4 in
  let* rlen := rta_len rta in
  if u32 maxlen <? u32 (RTA_ALIGN rlen + len) then cret (-1)
  else
    let subrta := rta + RTA_ALIGN rlen in
    set_rta_type subrta type ;;;
    set_rta_len subrta len ;;;
    nl_write (RTA_DATA subrta) (le 4 data) ;;;
    set_rta_len rta (NLMSG_ALIGN rlen + len) ;;;
    cret 0.

Definition rta_addattr_l (rta maxlen type : Z) (data : list Z) : M (list Z) Z :=
  let len := RTA_LENGTH (Z.of_nat (length data)) in
  let* rlen := rta_len rta in
  if u32 maxlen <? u32 (RTA_ALIGN rlen + RTA_ALIGN len) then cret (-1)
  else
    let subrta := rta + RTA_ALIGN rlen in
    set_rta_type subrta type ;;;
    set_rta_len subrta len ;;;
    nl_write (RTA_DATA subrta) data ;;;
    set_rta_len rta (NLMSG_ALIGN rlen + RTA_ALIGN len) ;;;
    cret 0.

Definition rta_addattr8 (rta maxlen type data : Z) : M (list Z) Z :=
  rta_addattr_l rta maxlen type (le 1 data).

Definition rta_addattr16 (rta maxlen type data : Z) : M (list Z) Z :=
  rta_addattr_l rta maxlen type (le 2 data).

Definition rta_addattr64 (rta maxlen type data : Z) : M (list Z) Z :=
  rta_addattr_l rta maxlen type (le 8 data).

Definition rta_nest (rta maxlen type : Z) : M (list Z) Z :=
  let* nest := RTA_TAIL rta in
  let* _ := rta_addattr_l rta maxlen type [] in
  cret nest.

Definition rta_nest_end (rta nest : Z) : M (list Z) Z :=
  let* tail := RTA_TAIL rta in
  set_rta_len nest (tail - nest) ;;;
  rta_len rta.

(** ** Parsing *)

(** [RTA_OK(rta, len)]; the header is read only if [len] has room for it. *)
Definition RTA_OK (rta len : Z) : M (list Z) bool :=
  if 4 <=? len then
    let* l := rta_len rta in cret ((4 <=? l) && (l <=? len))
  else cret false.

(** The attributes found, as offsets by type; [memset] clears them. *)
Abbreviation rtattrs := (gmap Z Z).

Fixpoint parse_loop (fuel : nat) (max flags rta len : Z) (tb : rtattrs) : M (list Z) (rtattrs * Z) :=
  match fuel with
  | O => cfail
  | S fuel =>
      let* ok := RTA_OK rta len in
      if ok : bool then
        let* t := rta_type rta in
        let* l := rta_len rta in
        let type := Z.land t (65535 - flags) in
        let tb := if (type <=? max) && bool_decide (tb !! type = None)
                  then <[type := rta]> tb else tb in
        parse_loop fuel max flags (rta + RTA_ALIGN l) (s32 (len - RTA_ALIGN l)) tb
      else cret (tb, len)
  end.

(** Every iteration takes at least four bytes. *)
Definition parse_fuel (len : Z) : nat := S (Z.to_nat len).

(** The attributes and what is left of [len], printed as a deficit if not zero. *)
Definition parse_rtattr_flags (max rta len flags : Z) : M (list Z) (rtattrs * Z) :=
  parse_loop (parse_fuel len) max flags rta len ∅.

Definition parse_rtattr (max rta len : Z) : M (list Z) (rtattrs * Z) :=
  parse_rtattr_flags max rta len 0.

Definition parse_rtattr_nested (max rta : Z) : M (list Z) (rtattrs * Z) :=
  let* l := rta_len rta in
  parse_rtattr max (RTA_DATA rta) (RTA_PAYLOAD l).

Fixpoint parse_one_loop (fuel : nat) (type rta len : Z) : M (list Z) (option Z) :=
  match fuel with
  | O => cfail
  | S fuel =>
      let* ok := RTA_OK rta len in
      if ok : bool then
        let* t := rta_type rta in
        if t =? type then cret (Some rta)
        else
          let* l := rta_len rta in
          parse_one_loop fuel type (rta + RTA_ALIGN l) (s32 (len - RTA_ALIGN l))
      else cret None
  end.

Definition parse_rtattr_one (type rta len : Z) : M (list Z) (option Z) :=
  parse_one_loop (parse_fuel len) type rta len.

(** [-1], or the attributes after the first [len] bytes of the payload. *)
Definition __parse_rtattr_nested_compat (max rta len : Z) : M (list Z) (Z + rtattrs) :=
  let* l := rta_len rta in
  if RTA_PAYLOAD l <? len then cret (inl (-1))
  else if RTA_ALIGN len + 4 <=? RTA_PAYLOAD l then
    let* r := parse_rtattr_nested max (RTA_DATA rta + RTA_ALIGN len) in cret (inr r.1)
  else cret (inr ∅).

(** The payload of an attribute ([RTA_DATA], [RTA_PAYLOAD] bytes). *)
Definition rta_payload (rta : Z) : M (list Z) (list Z) :=
  let* l := rta_len rta in
  nl_read (RTA_DATA rta) (Z.to_nat (RTA_PAYLOAD l)).

Definition rta_getattr_u32 (rta : Z) : M (list Z) Z := get32 (RTA_DATA rta).

Definition rta_getattr_u64 (rta : Z) : M (list Z) Z :=
  let* bs := nl_read (RTA_DATA rta) 8 in cret (unle bs).
