(* ===== verification/NetlinkTheorems.v ===== *)
(** * What the netlink routines guarantee

    Attributes added one after the other are read back as they were put in;
    parsing ends and stays inside its bounds on any bytes. *)

From Stdlib Require Import ZArith Lia.
From stdpp Require Import base numbers list gmap option.
From S2P Require Import Prelude Netlink.

Open Scope Z_scope.

(** ** Bytes *)

Lemma length_le n v : length (le n v) = n.
Proof. revert v. induction n as [|n IH]; intros v; simpl; [done|by rewrite IH]. Qed.

Lemma unle_le n v : unle (le n v) = v mod 256 ^ Z.of_nat n.
Proof.
  revert v. induction n as [|n IH]; intros v; [by rewrite Z.mod_1_r|]. cbn [le unle].
  rewrite IH, Nat2Z.inj_succ, Z.pow_succ_r by lia.
  rewrite Z.rem_mul_r by (try apply Z.pow_nonzero; lia). done.
Qed.

Lemma unle_le_small n v : 0 ≤ v < 256 ^ Z.of_nat n → unle (le n v) = v.
Proof. intros Hv. by rewrite unle_le, Z.mod_small. Qed.

(** [NLMSG_ALIGN] rounds up to a multiple of four. *)
Definition align4 (z : Z) : Z := 4 * ((z + 3) / 4).

Lemma NLMSG_ALIGN_eq z : 0 ≤ z < 2 ^ 32 - 3 → NLMSG_ALIGN z = align4 z.
Proof.
  intros Hz. unfold NLMSG_ALIGN, align4. rewrite u32_small by lia.
  assert (∀ x, 0 ≤ x < 2 ^ 32 → Z.land x 4294967292 = Z.shiftl (Z.shiftr x 2) 2) as Hl.
  - intros x Hx. rewrite <- Z.ldiff_ones_r by lia. apply Z.bits_inj'. intros i Hi.
    rewrite Z.land_spec, Z.ldiff_spec. replace 4294967292 with (Z.ldiff (Z.ones 32) (Z.ones 2)) by done.
    rewrite Z.ldiff_spec. destruct (decide (i < 32)).
    + by rewrite (Z.ones_spec_low 32) by lia.
    + assert (Z.testbit x i = false) as ->; [|done]. apply Z.testbit_false; [done|].
      rewrite Z.div_small; [done|]. split; [lia|].
      apply Z.lt_le_trans with (2 ^ 32); [lia|apply Z.pow_le_mono_r; lia].
  - rewrite Hl by lia. rewrite Z.shiftr_div_pow2, Z.shiftl_mul_pow2 by lia. change (2 ^ 2) with 4. lia.
Qed.

Lemma align4_bounds z : z ≤ align4 z < z + 4.
Proof. unfold align4. pose proof (Z.div_mod (z + 3) 4). pose proof (Z.mod_pos_bound (z + 3) 4). lia. Qed.

Lemma align4_id z : z mod 4 = 0 → align4 z = z.
Proof.
  intros Hz. unfold align4. pose proof (Z.div_mod z 4). pose proof (Z.div_mod (z + 3) 4).
  pose proof (Z.mod_pos_bound (z + 3) 4). lia.
Qed.

Lemma align4_mod z : align4 z mod 4 = 0.
Proof. unfold align4. rewrite Z.mul_comm. by apply Z.mod_mul. Qed.

(** ** Reads after writes *)

Lemma put_inserts off d buf : put off d buf = list_inserts (Z.to_nat off) d buf.
Proof.
  unfold put. set (n := Z.to_nat off). apply list_eq. intros i.
  destruct (decide (i < length buf)%nat) as [Hi|Hi].
  2: { rewrite !lookup_ge_None_2; [done|rewrite length_inserts; lia|].
       rewrite !length_app, !length_take, length_drop. lia. }
  destruct (decide (i < n)%nat) as [Hn|Hn].
  - rewrite list_lookup_inserts_lt, lookup_app_l, lookup_take_lt by (rewrite ?length_take; lia). done.
  - rewrite lookup_app_r, length_take_le by (rewrite ?length_take; lia).
    destruct (decide (i < n + length d)%nat) as [Hd|Hd].
    + rewrite list_lookup_inserts, lookup_app_l, lookup_take_lt by (rewrite ?length_take; lia). done.
    + rewrite list_lookup_inserts_ge, lookup_app_r, lookup_drop, length_take by (rewrite ?length_take; lia).
      f_equal. lia.
Qed.

Lemma length_put off d buf : length (put off d buf) = length buf.
Proof. rewrite put_inserts. apply length_inserts. Qed.

Lemma length_sub off n buf : 0 ≤ off → off + Z.of_nat n ≤ Z.of_nat (length buf) →
  length (sub off n buf) = n.
Proof. intros H1 H2. unfold sub. rewrite length_take, length_drop. lia. Qed.

Lemma sub_lookup off n buf i : (i < n)%nat → sub off n buf !! i = buf !! (Z.to_nat off + i)%nat.
Proof. intros Hi. unfold sub. by rewrite lookup_take_lt, lookup_drop. Qed.

Lemma sub_put_same off d buf : 0 ≤ off → off + Z.of_nat (length d) ≤ Z.of_nat (length buf) →
  sub off (length d) (put off d buf) = d.
Proof.
  intros H1 H2. apply list_eq. intros i. destruct (decide (i < length d)%nat) as [Hi|Hi].
  - rewrite sub_lookup by done. rewrite put_inserts. rewrite list_lookup_inserts by lia. f_equal. lia.
  - rewrite !lookup_ge_None_2; [done|lia|]. unfold sub. rewrite length_take. lia.
Qed.

Lemma sub_put_other off n off' d buf : 0 ≤ off → 0 ≤ off' →
  off + Z.of_nat n ≤ off' ∨ off' + Z.of_nat (length d) ≤ off →
  sub off n (put off' d buf) = sub off n buf.
Proof.
  intros H1 H2 Hd. apply list_eq. intros i. destruct (decide (i < n)%nat) as [Hi|Hi].
  - rewrite !sub_lookup by done. rewrite put_inserts.
    destruct Hd; [apply list_lookup_inserts_lt; lia|apply list_lookup_inserts_ge; lia].
  - rewrite !lookup_ge_None_2; [done|unfold sub; rewrite length_take; lia..].
Qed.

Lemma sub_split off n n' buf : 0 ≤ off →
  sub off (n + n') buf = sub off n buf ++ sub (off + Z.of_nat n) n' buf.
Proof.
  intros Ho. unfold sub. rewrite Z2Nat.inj_add, Nat2Z.id by lia.
  rewrite <- drop_drop, take_take_drop. done.
Qed.

Lemma nl_read_ok off n buf : 0 ≤ off → off + Z.of_nat n ≤ Z.of_nat (length buf) →
  nl_read off n buf = Some (sub off n buf, buf).
Proof.
  intros H1 H2. unfold nl_read, in_mem.
  by rewrite (proj2 (Z.leb_le 0 off)), (proj2 (Z.leb_le _ _)) by done.
Qed.

Lemma nl_write_ok off d buf : 0 ≤ off → off + Z.of_nat (length d) ≤ Z.of_nat (length buf) →
  nl_write off d buf = Some (tt, put off d buf).
Proof.
  intros H1 H2. unfold nl_write, in_mem.
  by rewrite (proj2 (Z.leb_le 0 off)), (proj2 (Z.leb_le _ _)) by done.
Qed.

Lemma get16_ok off buf : 0 ≤ off → off + 2 ≤ Z.of_nat (length buf) →
  get16 off buf = Some (unle (sub off 2 buf), buf).
Proof. intros H1 H2. unfold get16, cbind. by rewrite nl_read_ok. Qed.

Lemma get32_ok off buf : 0 ≤ off → off + 4 ≤ Z.of_nat (length buf) →
  get32 off buf = Some (unle (sub off 4 buf), buf).
Proof. intros H1 H2. unfold get32, cbind. by rewrite nl_read_ok. Qed.

(** ** Attributes in memory *)

(** A type and a payload. *)
Abbreviation attr := (Z * list Z)%type.

Definition attr_len (a : attr) : Z := 4 + Z.of_nat (length a.2).

Definition attr_ok (a : attr) : Prop := 0 ≤ a.1 < 2 ^ 16 ∧ attr_len a < 2 ^ 16.

Definition attr_bytes (a : attr) : list Z := le 2 (attr_len a) ++ le 2 a.1 ++ a.2.

Fixpoint attrs_end (off : Z) (atts : list attr) : Z :=
  match atts with
  | [] => off
  | a :: atts => attrs_end (off + align4 (attr_len a)) atts
  end.

(** The padding between attributes can be anything. *)
Fixpoint attrs_at (buf : list Z) (off : Z) (atts : list attr) : Prop :=
  match atts with
  | [] => True
  | a :: atts => sub off (4 + length a.2) buf = attr_bytes a ∧
                 attrs_at buf (off + align4 (attr_len a)) atts
  end.

Lemma attr_len_pos a : 4 ≤ attr_len a.
Proof. unfold attr_len. lia. Qed.

Lemma attrs_end_ge off atts : off ≤ attrs_end off atts.
Proof.
  revert off. induction atts as [|a atts IH]; intros off; simpl; [lia|].
  pose proof (IH (off + align4 (attr_len a))). pose proof (align4_bounds (attr_len a)).
  pose proof (attr_len_pos a). lia.
Qed.

Lemma attrs_end_app off atts a :
  attrs_end off (atts ++ [a]) = attrs_end off atts + align4 (attr_len a).
Proof. revert off. induction atts as [|a' atts IH]; intros off; simpl; [done|apply IH]. Qed.

Lemma attrs_end_mod off atts : off mod 4 = 0 → attrs_end off atts mod 4 = 0.
Proof.
  revert off. induction atts as [|a atts IH]; intros off Ho; [done|]. simpl. apply IH.
  rewrite Z.add_mod, Ho, align4_mod by done. done.
Qed.

Lemma attrs_at_app buf off atts a : attrs_at buf off atts →
  sub (attrs_end off atts) (4 + length a.2) buf = attr_bytes a → attrs_at buf off (atts ++ [a]).
Proof. revert off. induction atts as [|a' atts IH]; intros off; simpl; [done|]. naive_solver. Qed.

(** Writes outside leave attributes alone. *)
Lemma attrs_at_put buf off atts off' d : 0 ≤ off → 0 ≤ off' → attrs_at buf off atts →
  off' + Z.of_nat (length d) ≤ off ∨ attrs_end off atts ≤ off' →
  attrs_at (put off' d buf) off atts.
Proof.
  revert off. induction atts as [|a atts IH]; intros off Ho Ho' Hat Hd; [done|].
  destruct Hat as [Ha Hat]. pose proof (align4_bounds (attr_len a)). pose proof (attr_len_pos a).
  simpl in Hd. pose proof (attrs_end_ge (off + align4 (attr_len a)) atts). split.
  - unfold attr_len in *. rewrite <- Ha. apply sub_put_other; lia.
  - apply IH; [lia|done|done|lia].
Qed.

(** ** Building *)

(** The message has its attributes from [start] on and ends with them. *)
Record message (buf : list Z) (start : Z) (atts : list attr) : Prop := {
  msg_start : 4 ≤ start;
  msg_aligned : start mod 4 = 0;
  msg_len : unle (sub 0 4 buf) = attrs_end start atts;
  msg_attrs : attrs_at buf start atts;
  msg_ok : Forall attr_ok atts;
  msg_fits : attrs_end start atts ≤ Z.of_nat (length buf);
  msg_small : attrs_end start atts < 2 ^ 31;
}.

Lemma nlmsg_len_ok buf start atts : message buf start atts →
  nlmsg_len buf = Some (attrs_end start atts, buf).
Proof.
  intros [Hs _ Hl _ _ Hf _]. unfold nlmsg_len. pose proof (attrs_end_ge start atts).
  rewrite get32_ok by lia. by rewrite Hl.
Qed.

Lemma message_align buf start atts : message buf start atts →
  NLMSG_ALIGN (attrs_end start atts) = attrs_end start atts.
Proof.
  intros [Hs Ha _ _ _ Hf Hm]. pose proof (attrs_end_ge start atts).
  rewrite NLMSG_ALIGN_eq by lia. by apply align4_id, attrs_end_mod.
Qed.

Lemma NLMSG_TAIL_ok buf start atts : message buf start atts →
  NLMSG_TAIL buf = Some (attrs_end start atts, buf).
Proof.
  intros Hm. unfold NLMSG_TAIL, cbind. rewrite (nlmsg_len_ok _ _ _ Hm).
  by rewrite (message_align _ _ _ Hm).
Qed.

(** What [addattr_l] leaves behind. *)
Definition added (buf : list Z) (e : Z) (a : attr) : list Z :=
  put 0 (le 4 (e + align4 (attr_len a)))
    (put (e + 4) a.2 (put e (le 2 (attr_len a)) (put (e + 2) (le 2 a.1) buf))).

Lemma length_added buf e a : length (added buf e a) = length buf.
Proof. unfold added. by rewrite !length_put. Qed.

(** Bytes between the length field and the new attribute stay. *)
Lemma added_frame buf e a off n : 4 ≤ off → off + Z.of_nat n ≤ e → sub off n (added buf e a) = sub off n buf.
Proof.
  intros H1 H2. unfold added. by rewrite !sub_put_other; rewrite ?length_le; try lia.
Qed.

Lemma added_attr buf e a : 4 ≤ e → e + attr_len a ≤ Z.of_nat (length buf) →
  sub e (4 + length a.2) (added buf e a) = attr_bytes a.
Proof.
  intros He Hf. unfold attr_len in Hf. change (4 + length a.2)%nat with (2 + (2 + length a.2))%nat.
  rewrite sub_split by lia. rewrite (sub_split _ 2 (length a.2)) by lia. unfold added, attr_bytes.
  replace (e + Z.of_nat 2 + Z.of_nat 2) with (e + 4) by lia. f_equal; [|f_equal].
  - rewrite sub_put_other, sub_put_other by (rewrite ?length_le; lia).
    apply (sub_put_same e (le 2 (attr_len a))); rewrite ?length_put, ?length_le; lia.
  - rewrite sub_put_other, sub_put_other, sub_put_other by (rewrite ?length_le; lia).
    apply (sub_put_same (e + 2) (le 2 a.1)); rewrite ?length_put, ?length_le; lia.
  - rewrite sub_put_other by (rewrite ?length_le; lia).
    apply sub_put_same; rewrite ?length_put; lia.
Qed.

Lemma added_attrs buf e a start atts : 4 ≤ start → attrs_at buf start atts → attrs_end start atts ≤ e →
  attrs_at (added buf e a) start atts.
Proof.
  intros Hs Hat He. pose proof (attrs_end_ge start atts). unfold added.
  repeat (apply attrs_at_put; rewrite ?length_le; try lia). done.
Qed.

Lemma added_message buf start atts a : message buf start atts → attr_ok a →
  attrs_end start (atts ++ [a]) ≤ Z.of_nat (length buf) → attrs_end start (atts ++ [a]) < 2 ^ 31 →
  message (added buf (attrs_end start atts) a) start (atts ++ [a]).
Proof.
  intros [Hs Ha Hl Hat Hok Hf Hm] Hoka Hfit Hsm. rewrite attrs_end_app in *.
  pose proof (attrs_end_ge start atts). pose proof (align4_bounds (attr_len a)). pose proof (attr_len_pos a).
  set (e := attrs_end start atts) in *. split; [done|done| | | | |].
  - rewrite attrs_end_app. fold e. unfold added.
    etrans; [apply f_equal, (sub_put_same 0 (le 4 (e + align4 (attr_len a))));
      rewrite ?length_put, ?length_le; lia|].
    apply unle_le_small. change (256 ^ Z.of_nat 4) with (2 ^ 32). lia.
  - apply attrs_at_app; [by apply added_attrs|]. apply added_attr; lia.
  - apply Forall_app. by split; [|constructor].
  - rewrite attrs_end_app, length_added. done.
  - by rewrite attrs_end_app.
Qed.

(** [addattr_l] where the attribute fits: it is appended. *)
Lemma addattr_l_ok buf start atts maxlen a : message buf start atts → attr_ok a →
  attrs_end start (atts ++ [a]) ≤ maxlen → maxlen ≤ Z.of_nat (length buf) → maxlen < 2 ^ 31 →
  addattr_l maxlen a.1 a.2 buf = Some (0, added buf (attrs_end start atts) a).
Proof.
  intros Hmsg Hok Hmax Hlen Hsm. pose proof Hmsg as [Hs Ha Hl Hat _ Hf Hm].
  rewrite attrs_end_app in Hmax. pose proof (attrs_end_ge start atts).
  destruct Hok as [Hty Hal]. pose proof (align4_bounds (attr_len a)). pose proof (attr_len_pos a).
  unfold addattr_l, RTA_ALIGN, RTA_LENGTH. fold (attr_len a). unfold cbind at 1.
  rewrite (nlmsg_len_ok _ _ _ Hmsg), (message_align _ _ _ Hmsg), (NLMSG_ALIGN_eq (attr_len a)) by lia.
  set (e := attrs_end start atts) in *. rewrite !u32_small by lia.
  rewrite (proj2 (Z.ltb_ge _ _)) by lia. unfold cbind at 1. rewrite (NLMSG_TAIL_ok _ _ _ Hmsg). fold e.
  unfold cbind, set_rta_type, set_rta_len, set_nlmsg_len, RTA_DATA, attr_len in *.
  by rewrite !nl_write_ok; rewrite ?length_put, ?length_le; try lia.
Qed.

(** [addattr_l] where it does not: an error, and nothing is written. *)
Lemma addattr_l_full buf start atts maxlen a : message buf start atts → attr_len a < 2 ^ 16 →
  0 ≤ maxlen < attrs_end start (atts ++ [a]) → maxlen < 2 ^ 31 →
  addattr_l maxlen a.1 a.2 buf = Some (-1, buf).
Proof.
  intros Hmsg Hal Hmax Hm. pose proof Hmsg as [Hs Ha Hl Hat _ Hf Hsm].
  rewrite attrs_end_app in Hmax. pose proof (attrs_end_ge start atts).
  pose proof (align4_bounds (attr_len a)). pose proof (attr_len_pos a).
  unfold addattr_l, RTA_ALIGN, RTA_LENGTH. fold (attr_len a). unfold cbind at 1.
  rewrite (nlmsg_len_ok _ _ _ Hmsg), (message_align _ _ _ Hmsg), (NLMSG_ALIGN_eq (attr_len a)) by lia.
  rewrite !u32_small by lia. by rewrite (proj2 (Z.ltb_lt _ _)) by lia.
Qed.

(** ** Parsing *)

(** The offset of the first attribute of a type. *)
Fixpoint first_attr (off : Z) (atts : list attr) (ty : Z) : option (Z * list Z) :=
  match atts with
  | [] => None
  | a :: atts => if a.1 =? ty then Some (off, a.2) else first_attr (off + align4 (attr_len a)) atts ty
  end.

(** The table after the attributes, from the table [tb] on. *)
Fixpoint collect (max off : Z) (atts : list attr) (tb : rtattrs) : rtattrs :=
  match atts with
  | [] => tb
  | a :: atts =>
      collect max (off + align4 (attr_len a)) atts
        (if (a.1 <=? max) && bool_decide (tb !! a.1 = None) then <[a.1 := off]> tb else tb)
  end.

Lemma collect_lookup max off atts tb ty : ty ≤ max →
  collect max off atts tb !! ty =
  match tb !! ty with Some r => Some r | None => fst <$> first_attr off atts ty end.
Proof.
  revert off tb. induction atts as [|[t d] atts IH]; intros off tb Hty; simpl; [by destruct (tb !! ty)|].
  rewrite IH by done. destruct (Z.eqb_spec t ty) as [->|Hne].
  - rewrite (proj2 (Z.leb_le ty max)) by done. simpl. case_bool_decide as Hn.
    + by rewrite lookup_insert_eq, Hn.
    + by destruct (tb !! ty).
  - destruct (_ && _); [|done]. by rewrite lookup_insert_ne.
Qed.

(** The header of an attribute. *)
Lemma attr_header buf off a : 0 ≤ off → attr_ok a → sub off (4 + length a.2) buf = attr_bytes a →
  off + attr_len a ≤ Z.of_nat (length buf) →
  rta_len off buf = Some (attr_len a, buf) ∧ rta_type off buf = Some (a.1, buf) ∧
  sub (off + 4) (length a.2) buf = a.2.
Proof.
  intros Ho [Hty Hal] Hb Hf. unfold attr_len in Hf. pose proof (attr_len_pos a).
  change (4 + length a.2)%nat with (2 + (2 + length a.2))%nat in Hb.
  rewrite sub_split in Hb by lia. rewrite (sub_split _ 2 (length a.2)) in Hb by lia.
  apply app_inj_1 in Hb as [Hb1 Hb]; [|rewrite length_sub, length_le; lia].
  apply app_inj_1 in Hb as [Hb2 Hb3]; [|rewrite length_sub, length_le; lia].
  change (Z.of_nat 2) with 2 in *. unfold rta_len, rta_type. rewrite !get16_ok by lia.
  rewrite Hb1, Hb2, !unle_le_small by (change (256 ^ Z.of_nat 2) with (2 ^ 16); lia).
  replace (off + 2 + 2) with (off + 4) in Hb3 by lia. done.
Qed.

Lemma parse_loop_attrs max buf : ∀ atts fuel off tb,
  0 ≤ off → attrs_at buf off atts → Forall attr_ok atts →
  attrs_end off atts ≤ Z.of_nat (length buf) → attrs_end off atts < 2 ^ 31 →
  attrs_end off atts - off < Z.of_nat fuel →
  parse_loop fuel max 0 off (attrs_end off atts - off) tb buf = Some ((collect max off atts tb, 0), buf).
Proof.
  induction atts as [|a atts IH]; intros [|fuel] off tb Ho Hat Hok Hf Hm Hfu; try (simpl in *; lia).
  - simpl. by rewrite Z.sub_diag.
  - pose proof (attrs_end_ge off (a :: atts)); lia.
  - apply Forall_cons_iff in Hok as [Ha Hok]. destruct Hat as [Hb Hat]. simpl in Hf, Hm, Hfu. cbn [attrs_end].
    pose proof (attrs_end_ge (off + align4 (attr_len a)) atts) as Hge.
    pose proof (align4_bounds (attr_len a)). pose proof (attr_len_pos a).
    destruct (attr_header buf off a Ho Ha Hb) as (Hl & Ht & _); [lia|].
    cbn [parse_loop]. unfold RTA_OK. rewrite (proj2 (Z.leb_le 4 _)) by lia.
    unfold cbind. rewrite Hl. unfold cret. rewrite (proj2 (Z.leb_le 4 _)), (proj2 (Z.leb_le (attr_len a) _)) by lia.
    cbn [andb]. rewrite Ht, Hl.
    replace (Z.land a.1 (65535 - 0)) with a.1
      by (change (65535 - 0) with (Z.ones 16); rewrite Z.land_ones, Z.mod_small by (destruct Ha; lia); done).
    unfold RTA_ALIGN. rewrite NLMSG_ALIGN_eq by (destruct Ha; lia). rewrite s32_small by lia.
    replace (attrs_end (off + align4 (attr_len a)) atts - off - align4 (attr_len a))
      with (attrs_end (off + align4 (attr_len a)) atts - (off + align4 (attr_len a))) by lia.
    rewrite IH by (done || lia). done.
Qed.

Lemma first_at_payload buf : ∀ atts off ty rta d, 0 ≤ off → attrs_at buf off atts → Forall attr_ok atts →
  attrs_end off atts ≤ Z.of_nat (length buf) → first_attr off atts ty = Some (rta, d) →
  rta_payload rta buf = Some (d, buf) ∧ off ≤ rta ∧ rta + 4 + Z.of_nat (length d) ≤ attrs_end off atts.
Proof.
  induction atts as [|a atts IH]; intros off ty rta d Ho Hat Hok Hf Hfirst; [done|].
  apply Forall_cons_iff in Hok as [Ha Hok]. destruct Hat as [Hb Hat]. cbn [attrs_end first_attr] in *.
  pose proof (attrs_end_ge (off + align4 (attr_len a)) atts) as Hge.
  pose proof (align4_bounds (attr_len a)). pose proof (attr_len_pos a).
  destruct (a.1 =? ty).
  - injection Hfirst as <- <-. destruct (attr_header buf off a Ho Ha Hb) as (Hl & _ & Hd); [lia|].
    unfold rta_payload, cbind. rewrite Hl. unfold RTA_DATA, RTA_PAYLOAD, attr_len in *.
    replace (Z.to_nat (4 + Z.of_nat (length a.2) - 4)) with (length a.2) by lia.
    rewrite nl_read_ok, Hd by lia. split; [done|lia].
  - destruct (IH (off + align4 (attr_len a)) ty rta d) as (? & ? & ?); [lia|done..|]. split; [done|lia].
Qed.

Lemma parse_message max buf start atts : message buf start atts →
  parse_rtattr max start (attrs_end start atts - start) buf = Some ((collect max start atts ∅, 0), buf).
Proof.
  intros [Hs _ _ Hat Hok Hf Hm]. unfold parse_rtattr, parse_rtattr_flags, parse_fuel.
  pose proof (attrs_end_ge start atts). apply parse_loop_attrs; (done || lia).
Qed.

(** ** Nesting *)

Lemma attrs_end_app_list off l1 l2 : attrs_end off (l1 ++ l2) = attrs_end (attrs_end off l1) l2.
Proof. revert off. induction l1 as [|a l1 IH]; intros off; simpl; [done|apply IH]. Qed.

Lemma attrs_at_app_list buf off l1 l2 :
  attrs_at buf off (l1 ++ l2) ↔ attrs_at buf off l1 ∧ attrs_at buf (attrs_end off l1) l2.
Proof. revert off. induction l1 as [|a l1 IH]; intros off; simpl; [tauto|]. rewrite IH. tauto. Qed.

Lemma addattr_nest_ok buf start atts maxlen ty : message buf start atts → 0 ≤ ty < 2 ^ 16 →
  attrs_end start atts + 4 ≤ maxlen → maxlen ≤ Z.of_nat (length buf) → maxlen < 2 ^ 31 →
  ∃ buf', addattr_nest maxlen ty buf = Some (attrs_end start atts, buf') ∧
    message buf' start (atts ++ [(ty, [])]) ∧ length buf' = length buf ∧
    (∀ off n, 4 ≤ off → off + Z.of_nat n ≤ attrs_end start atts → sub off n buf' = sub off n buf).
Proof.
  intros Hm Hty Hmax Hlen Hsm. exists (added buf (attrs_end start atts) (ty, [])).
  assert (attrs_end start (atts ++ [(ty, [])]) = attrs_end start atts + 4) as He by (by rewrite attrs_end_app).
  split; [|split; [|split; [apply length_added|intros; by apply added_frame]]].
  - unfold addattr_nest, cbind. rewrite (NLMSG_TAIL_ok _ _ _ Hm).
    pose proof (addattr_l_ok _ _ _ maxlen (ty, []) Hm) as Hadd. rewrite He in Hadd. simpl in Hadd.
    by rewrite Hadd by (done || lia).
  - apply added_message; [done|done|rewrite He; lia..].
Qed.

(** The length of an attribute with payload [d] is extended over the attributes
    [kids] after it. *)
Lemma nest_closed buf start atts ty d kids :
  message buf start (atts ++ (ty, d) :: kids) → Z.of_nat (length d) mod 4 = 0 →
  let nest := attrs_end start atts in
  let first := nest + 4 + Z.of_nat (length d) in
  let tail := attrs_end first kids in
  let buf' := put nest (le 2 (tail - nest)) buf in
  tail - nest < 2 ^ 16 →
  attrs_end start (atts ++ (ty, d) :: kids) = tail ∧
  set_rta_len nest (tail - nest) buf = Some (tt, buf') ∧
  message buf' start (atts ++ [(ty, sub (nest + 4) (Z.to_nat (tail - nest - 4)) buf)]) ∧
  attrs_at buf' first kids ∧ sub (nest + 4) (length d) buf' = d ∧
  (∀ off n, 4 ≤ off → off + Z.of_nat n ≤ nest → sub off n buf' = sub off n buf).
Proof.
  intros Hm Hd nest first tail buf' Hsz. pose proof Hm as [Hs Ha Hl Hat Hok Hf Hmx].
  assert (align4 (attr_len (ty, d)) = 4 + Z.of_nat (length d)) as Hal4.
  { apply align4_id. unfold attr_len. cbn [snd]. by rewrite Zplus_mod, Hd. }
  assert (attrs_end start (atts ++ (ty, d) :: kids) = tail) as He.
  { rewrite attrs_end_app_list. cbn [attrs_end]. rewrite Hal4. unfold tail, first, nest. f_equal. lia. }
  rewrite He in *. pose proof (attrs_end_ge start atts) as Hn. fold nest in Hn.
  pose proof (attrs_end_ge first kids) as Ht. fold tail in Ht.
  apply attrs_at_app_list in Hat as [Hat1 [Hnest Hat2]]. fold nest in Hnest, Hat2. rewrite Hal4 in Hat2.
  replace (nest + (4 + Z.of_nat (length d))) with first in Hat2 by (unfold first; lia).
  apply Forall_app in Hok as [Hok1 [Hok2 Hok3]%Forall_cons_iff].
  destruct (attr_header buf nest (ty, d)) as (_ & _ & Hpay); [lia|done|done|unfold attr_len, first in *; cbn [snd]; lia|].
  set (region := sub (nest + 4) (Z.to_nat (tail - nest - 4)) buf). unfold first in Ht.
  assert (Z.of_nat (length region) = tail - nest - 4) as Hrl by (unfold region; rewrite length_sub; lia).
  assert (attr_len (ty, region) = tail - nest) as Hal by (unfold attr_len; simpl; lia).
  assert (attrs_end start (atts ++ [(ty, region)]) = tail) as He'.
  { rewrite attrs_end_app, Hal. fold nest. rewrite align4_id; [lia|].
    assert (tail mod 4 = 0) as M1 by (rewrite <- He; by apply attrs_end_mod).
    assert (nest mod 4 = 0) as M2 by (by apply attrs_end_mod). by rewrite Zminus_mod, M1, M2. }
  split; [done|]. split; [|split; [|split; [|split]]].
  - unfold set_rta_len. by rewrite nl_write_ok by (rewrite ?length_le; lia).
  - split; [done|done| | | | |]; rewrite ?He'.
    + unfold buf'. by rewrite sub_put_other by (rewrite ?length_le; lia).
    + apply attrs_at_app; [apply attrs_at_put; (done || lia)|]. fold nest. cbn [snd].
      change (4 + length region)%nat with (2 + (2 + length region))%nat.
      rewrite sub_split, (sub_split _ 2 (length region)) by lia. change (Z.of_nat 2) with 2.
      unfold attr_bytes, buf'. rewrite Hal. f_equal; [|f_equal].
      * apply (sub_put_same nest (le 2 (tail - nest))); rewrite ?length_le; lia.
      * rewrite sub_put_other by (rewrite ?length_le; lia). cbn [snd] in Hnest.
        change (4 + length d)%nat with (2 + (2 + length d))%nat in Hnest.
        rewrite sub_split, (sub_split _ 2 (length d)) in Hnest by lia. unfold attr_bytes in Hnest.
        apply app_inj_1 in Hnest as [_ Hnest]; [|rewrite length_sub, length_le; lia].
        apply app_inj_1 in Hnest as [Hty _]; [exact Hty|rewrite length_sub, length_le; lia].
      * rewrite sub_put_other by (rewrite ?length_le; lia).
        replace (length region) with (Z.to_nat (tail - nest - 4)) by lia.
        by replace (nest + 2 + 2) with (nest + 4) by lia.
    + apply Forall_app. split; [done|]. constructor; [|done]. destruct Hok2. split; [done|]. rewrite Hal. lia.
    + unfold buf'. by rewrite length_put.
    + done.
  - apply attrs_at_put; [unfold first; lia..|done|]. left. rewrite length_le. unfold first. lia.
  - unfold buf'. by rewrite sub_put_other by (rewrite ?length_le; lia).
  - intros off n H1 H2. apply sub_put_other; lia.
Qed.

Lemma addattr_nest_end_ok buf start atts ty kids :
  message buf start (atts ++ (ty, []) :: kids) →
  let nest := attrs_end start atts in
  let tail := attrs_end (nest + 4) kids in
  tail - nest < 2 ^ 16 →
  ∃ buf', addattr_nest_end nest buf = Some (tail, buf') ∧
    message buf' start (atts ++ [(ty, sub (nest + 4) (Z.to_nat (tail - nest - 4)) buf)]) ∧
    attrs_at buf' (nest + 4) kids ∧ length buf' = length buf ∧
    (∀ off n, 4 ≤ off → off + Z.of_nat n ≤ nest → sub off n buf' = sub off n buf).
Proof.
  intros Hm nest tail Hsz. destruct (nest_closed buf start atts ty [] kids Hm) as (He & Hc & Hm' & Hk & _ & Hf);
    [done|cbn [length]; change (Z.of_nat 0) with 0; by rewrite Z.add_0_r|].
  fold nest in He, Hc, Hm', Hk, Hf. cbn [length] in *. change (Z.of_nat 0) with 0 in *. rewrite Z.add_0_r in *.
  fold tail in He, Hc, Hm', Hk, Hf. eexists. split; [|split; [exact Hm'|split; [exact Hk|split; [apply length_put|exact Hf]]]].
  unfold addattr_nest_end, cbind. rewrite (NLMSG_TAIL_ok _ _ _ Hm), He, Hc.
  pose proof Hm as [Hs _ Hl _ _ Hfit _]. rewrite He in Hfit. pose proof (attrs_end_ge start atts) as Hn. fold nest in Hn.
  pose proof (attrs_end_ge (nest + 4) kids) as Ht. fold tail in Ht. unfold nlmsg_len. rewrite get32_ok by (rewrite ?length_put; lia). by rewrite sub_put_other, Hl, He by (rewrite ?length_le; lia).
Qed.

(** ** Whole messages *)

Fixpoint add_all (maxlen : Z) (atts : list attr) : M (list Z) Z :=
  match atts with
  | [] => cret 0
  | a :: atts =>
      let* ret := addattr_l maxlen a.1 a.2 in
      if ret <? 0 then cret ret else add_all maxlen atts
  end.

Lemma add_all_ok maxlen start : ∀ atts done buf, message buf start done → Forall attr_ok atts →
  attrs_end start (done ++ atts) ≤ maxlen → maxlen ≤ Z.of_nat (length buf) → maxlen < 2 ^ 31 →
  ∃ buf', add_all maxlen atts buf = Some (0, buf') ∧ message buf' start (done ++ atts) ∧
    length buf' = length buf ∧ (∀ off n, 4 ≤ off → off + Z.of_nat n ≤ start → sub off n buf' = sub off n buf).
Proof.
  induction atts as [|a atts IH]; intros done buf Hm Hok Hmax Hlen Hsm.
  { exists buf. rewrite app_nil_r. done. }
  apply Forall_cons_iff in Hok as [Ha Hok]. 
  replace (done ++ a :: atts) with ((done ++ [a]) ++ atts) in Hmax by (by rewrite <- app_assoc).
  pose proof (attrs_end_ge (attrs_end start (done ++ [a])) atts) as Hge. rewrite <- attrs_end_app_list in Hge.
  pose proof (addattr_l_ok _ _ _ maxlen a Hm Ha) as Hadd.
  destruct (IH (done ++ [a]) (added buf (attrs_end start done) a)) as (buf' & Hall & Hm' & Hl' & Hfr);
    [by apply added_message; (done || lia)|done|done|by rewrite length_added|done|].
  exists buf'. cbn [add_all]. unfold cbind. rewrite Hadd by (done || lia). simpl.
  rewrite <- app_assoc in Hm'. rewrite length_added in Hl'. do 3 (split; [done|]).
  intros off n H1 H2. rewrite Hfr by done. apply added_frame; [done|].
  pose proof (attrs_end_ge start done). lia.
Qed.

(** C22: a message built with [addattr_l] is read back by [parse_rtattr] as it
    was put in: every type up to [max] has the payload of its first attribute,
    other types have none, nothing is left over, and the bytes before the
    attributes are untouched. *)
Theorem netlink_roundtrip buf start atts maxlen max : message buf start [] → Forall attr_ok atts →
  attrs_end start atts ≤ maxlen → maxlen ≤ Z.of_nat (length buf) → maxlen < 2 ^ 31 →
  ∃ buf' tb, add_all maxlen atts buf = Some (0, buf') ∧
    (let* n := nlmsg_len in parse_rtattr max start (n - start)) buf' = Some ((tb, 0), buf') ∧
    (∀ ty, ty ≤ max →
       match first_attr start atts ty with
       | Some (rta, d) => tb !! ty = Some rta ∧ rta_payload rta buf' = Some (d, buf')
       | None => tb !! ty = None
       end) ∧
    (∀ off n, 4 ≤ off → off + Z.of_nat n ≤ start → sub off n buf' = sub off n buf).
Proof.
  intros Hm Hok Hmax Hlen Hsm.
  destruct (add_all_ok maxlen start atts [] buf) as (buf' & Hall & Hm' & Hl' & Hfr); [done..|].
  exists buf', (collect max start atts ∅). split; [done|]. split; [|split; [|done]].
  - unfold cbind. rewrite (nlmsg_len_ok _ _ _ Hm'). by apply parse_message.
  - intros ty Hty. rewrite collect_lookup, lookup_empty by done.
    destruct (first_attr start atts ty) as [[rta d]|] eqn:Hf; [|done]. split; [done|].
    destruct Hm' as [Hs _ _ Hat _ Hfit _]. eapply first_at_payload in Hf as (Hp & _); (done || lia).
Qed.

(** A nest closed with [addattr_nest_end] contains the attributes added
    since it was opened: [parse_rtattr_nested] finds them, and the nest is one
    attribute of the message around it. *)
Theorem nest_roundtrip buf start atts ty kids max :
  message buf start (atts ++ (ty, []) :: kids) →
  let nest := attrs_end start atts in
  let tail := attrs_end (nest + 4) kids in
  tail - nest < 2 ^ 16 →
  ∃ buf' region, addattr_nest_end nest buf = Some (tail, buf') ∧
    message buf' start (atts ++ [(ty, region)]) ∧
    parse_rtattr_nested max nest buf' = Some ((collect max (nest + 4) kids ∅, 0), buf') ∧
    (∀ t rta d, first_attr (nest + 4) kids t = Some (rta, d) → rta_payload rta buf' = Some (d, buf')).
Proof.
  intros Hm nest tail Hsz. pose proof Hm as [Hs _ _ _ Hok _ _].
  apply Forall_app in Hok as [_ [Hokn Hok]%Forall_cons_iff].
  destruct (addattr_nest_end_ok _ _ _ _ _ Hm Hsz) as (buf' & Hend & Hm' & Hkids & Hl & _).
  fold nest tail in Hend, Hm', Hkids. set (region := sub _ _ buf) in Hm'.
  exists buf', region. split; [done|]. split; [done|].
  pose proof (attrs_end_ge start atts) as Hn. fold nest in Hn.
  pose proof (attrs_end_ge (nest + 4) kids) as Ht. fold tail in Ht.
  assert (attrs_end start (atts ++ (ty, []) :: kids) = tail) as He by (by rewrite attrs_end_app_list).
  pose proof (msg_fits _ _ _ Hm) as Hf. pose proof (msg_small _ _ _ Hm) as Hsmall. rewrite He in Hf, Hsmall.
  split.
  - pose proof (msg_attrs _ _ _ Hm') as [_ [Hnb _]]%attrs_at_app_list. fold nest in Hnb.
    assert (attr_len (ty, region) = tail - nest) as Hal.
    { unfold attr_len, region. simpl. rewrite length_sub; lia. }
    destruct (attr_header buf' nest (ty, region)) as (Hlen & _); [lia| |done|rewrite Hal, Hl; lia|].
    { destruct Hokn. split; [done|]. rewrite Hal. lia. }
    unfold parse_rtattr_nested, cbind. rewrite Hlen, Hal.
    unfold RTA_DATA, RTA_PAYLOAD, parse_rtattr, parse_rtattr_flags, parse_fuel.
    replace (tail - nest - 4) with (tail - (nest + 4)) by lia.
    apply parse_loop_attrs; rewrite ?Hl; (done || lia).
  - intros t rta d Hfirst. eapply first_at_payload in Hfirst as (Hp & _); rewrite ?Hl; (done || lia).
Qed.

(** [addattr_l] appends the attribute if it ends within [maxlen] and
    otherwise reports an error without writing; either way no byte at or
    beyond [maxlen] changes. *)
Theorem addattr_l_bounded buf start atts maxlen a : message buf start atts → attr_ok a →
  0 ≤ maxlen ≤ Z.of_nat (length buf) → maxlen < 2 ^ 31 →
  ∃ ret buf', addattr_l maxlen a.1 a.2 buf = Some (ret, buf') ∧
    (if decide (attrs_end start (atts ++ [a]) ≤ maxlen)
     then ret = 0 ∧ message buf' start (atts ++ [a]) else ret = -1 ∧ buf' = buf) ∧
    (∀ off n, maxlen ≤ off → sub off n buf' = sub off n buf).
Proof.
  intros Hm Ha Hmax Hsm. destruct (decide (attrs_end start (atts ++ [a]) ≤ maxlen)) as [Hfit|Hfull].
  - exists 0, (added buf (attrs_end start atts) a). split; [by apply addattr_l_ok; (done || lia)|].
    split; [split; [done|apply added_message; (done || lia)]|].
    intros off n Hoff. rewrite attrs_end_app in Hfit. pose proof (attrs_end_ge start atts).
    pose proof (align4_bounds (attr_len a)). pose proof (msg_start _ _ _ Hm). unfold added, attr_len in *.
    by rewrite !sub_put_other; rewrite ?length_le; try lia.
  - exists (-1), buf. split; [|done]. destruct Ha. eapply addattr_l_full; (done || lia).
Qed.

(** ** Any bytes *)

(** An attribute of the table lies between [lo] and [hi]. *)
Definition table_within (max lo hi : Z) (buf : list Z) (tb : rtattrs) : Prop :=
  ∀ ty r, tb !! ty = Some r →
    ty ≤ max ∧ lo ≤ r ∧ ∃ l, rta_len r buf = Some (l, buf) ∧ 4 ≤ l ∧ r + l ≤ hi.

Lemma parse_loop_safe max flags lo hi buf : 0 ≤ lo → hi ≤ Z.of_nat (length buf) → hi < 2 ^ 31 →
  ∀ fuel rta len tb, lo ≤ rta → rta + len = hi → Z.max 0 len < Z.of_nat fuel → - 2 ^ 31 ≤ len →
  table_within max lo hi buf tb →
  ∃ tb' rest, parse_loop fuel max flags rta len tb buf = Some ((tb', rest), buf) ∧
    table_within max lo hi buf tb'.
Proof.
  intros Hlo Hhi Hsm. induction fuel as [|fuel IH]; intros rta len tb Hr Hsum Hfuel Hneg Htb; [lia|].
  cbn [parse_loop]. unfold RTA_OK. destruct (Z.leb_spec 4 len) as [H4|H4]; [|by exists tb, len].
  unfold cbind, cret. unfold rta_len. rewrite get16_ok by lia. set (l := unle (sub rta 2 buf)).
  destruct (Z.leb_spec 4 l) as [Hl4|Hl4]; [|by exists tb, len].
  destruct (Z.leb_spec l len) as [Hll|Hll]; [|by exists tb, len]. cbn [andb].
  unfold rta_type. rewrite !get16_ok by lia. fold l. unfold RTA_ALIGN. rewrite NLMSG_ALIGN_eq by lia.
  pose proof (align4_bounds l). rewrite s32_small by lia. apply IH; [lia..|].
  set (t := Z.land _ _). destruct (Z.leb_spec t max) as [Ht|Ht]; [|done]. cbn [andb].
  case_bool_decide; [|done]. intros ty r. destruct (decide (t = ty)) as [<-|Hne].
  - rewrite lookup_insert_eq. intros [= <-]. split; [done|]. split; [done|].
    exists l. split; [unfold rta_len; by rewrite get16_ok by lia|lia].
  - rewrite lookup_insert_ne by done. apply Htb.
Qed.

(** [parse_rtattr_flags] is safe on any bytes: whatever the [len] bytes
    hold, it ends, reads only those bytes, and every attribute it reports has a
    type up to [max] and lies entirely within them. *)
Theorem parse_rtattr_safe buf max rta len flags : 0 ≤ rta → 0 ≤ len →
  rta + len ≤ Z.of_nat (length buf) → rta + len < 2 ^ 31 →
  ∃ tb rest, parse_rtattr_flags max rta len flags buf = Some ((tb, rest), buf) ∧
    table_within max rta (rta + len) buf tb.
Proof.
  intros Hr Hl Hf Hs. unfold parse_rtattr_flags, parse_fuel.
  apply parse_loop_safe; (done || lia).
Qed.

(** ** Examples *)

Definition sample_atts : list attr := [(1, [116; 98; 102; 0]); (8, [1; 2; 3; 4; 5; 6]); (1, [9])].

(** 64 bytes; the length field says 36. *)
Definition sample_buf : list Z := le 4 36 ++ replicate 60 170.

Lemma sample_message : message sample_buf 36 [].
Proof. by repeat split. Qed.

Ltac atts_ok := unfold sample_atts;
  repeat (apply Forall_cons_iff; split; [unfold attr_ok, attr_len; simpl; lia|]); apply Forall_nil_2.

Lemma netlink_roundtrip_witness : ∃ buf' tb, add_all 64 sample_atts sample_buf = Some (0, buf') ∧
  (let* n := nlmsg_len in parse_rtattr 8 36 (n - 36)) buf' = Some ((tb, 0), buf') ∧
  (∀ ty, ty ≤ 8 →
     match first_attr 36 sample_atts ty with
     | Some (rta, d) => tb !! ty = Some rta ∧ rta_payload rta buf' = Some (d, buf')
     | None => tb !! ty = None
     end) ∧
  (∀ off n, 4 ≤ off → off + Z.of_nat n ≤ 36 → sub off n buf' = sub off n sample_buf).
Proof.
  apply (netlink_roundtrip sample_buf 36 sample_atts 64 8); [apply sample_message|atts_ok|done..].
Defined.

Lemma addattr_l_bounded_witness : ∃ ret buf', addattr_l 40 1 [116; 98; 102; 0] sample_buf = Some (ret, buf') ∧
  (if decide (attrs_end 36 ([] ++ [(1, [116; 98; 102; 0])]) ≤ 40)
   then ret = 0 ∧ message buf' 36 ([] ++ [(1, [116; 98; 102; 0])]) else ret = -1 ∧ buf' = sample_buf) ∧
  (∀ off n, 40 ≤ off → sub off n buf' = sub off n sample_buf).
Proof.
  apply (addattr_l_bounded sample_buf 36 [] 40 (1, [116; 98; 102; 0])); [apply sample_message|done..].
Defined.

(** The sample message with a nest opened and an attribute added in it. *)
Definition sample_nested : list Z := Eval vm_compute in
  match (let* _ := addattr_nest 64 2 in addattr32 64 3 77) sample_buf with
  | Some (_, b) => b
  | None => []
  end.

Lemma nest_roundtrip_witness : ∃ buf' region, addattr_nest_end 36 sample_nested = Some (48, buf') ∧
  message buf' 36 [(2, region)] ∧
  parse_rtattr_nested 8 36 buf' = Some (({[3 := 40]}, 0), buf') ∧
  (∀ t rta d, first_attr 40 [(3, le 4 77)] t = Some (rta, d) → rta_payload rta buf' = Some (d, buf')).
Proof.
  apply (nest_roundtrip sample_nested 36 [] 2 [(3, le 4 77)] 8); [|done].
  by split; try done; atts_ok.
Defined.

Lemma parse_rtattr_safe_witness : ∃ tb rest,
  parse_rtattr_flags 8 4 60 0 sample_buf = Some ((tb, rest), sample_buf) ∧
  table_within 8 4 (4 + 60) sample_buf tb.
Proof. by apply (parse_rtattr_safe sample_buf 8 4 60 0). Defined.
