(* ===== verification/TcCore.v ===== *)
(** * Time and size tables of tc (src/tbf/tc_core.c)

    The conversions between times and ticks use doubles: IEEE 754 binary64
    numbers with the rounding of the specification.  A conversion of a double
    to an integer type that cannot hold it is undefined behaviour ([None]). *)

From Stdlib Require Import ZArith Lia Floats.SpecFloat.
From stdpp Require Import base numbers list option.
From S2P Require Import Prelude Sched.

Open Scope Z_scope.

(** ** Doubles *)

Definition of_int (z : Z) : spec_float := binary_normalize 53 1024 z 0 false.

Definition fmul : spec_float → spec_float → spec_float := SFmul 53 1024.

Definition fdiv : spec_float → spec_float → spec_float := SFdiv 53 1024.

(** Truncation towards zero. *)
Definition trunc (f : spec_float) : option Z :=
  match f with
  | S754_zero _ => Some 0
  | S754_finite s m e =>
      let v := if 0 <=? e then Z.pos m * 2 ^ e else Z.pos m / 2 ^ (- e) in
      Some (if s then - v else v)
  | _ => None
  end.

Definition to_unsigned (bits : Z) (f : spec_float) : option Z :=
  match trunc f with
  | Some z => if (0 <=? z) && (z <? 2 ^ bits) then Some z else None
  | None => None
  end.

(** ** Ticks *)

(** [tick_in_usec] and [clock_factor]. *)
Record tc_clock := TcClock { tick_in_usec : spec_float; clock_factor : spec_float }.

Definition clock_start : tc_clock := TcClock (of_int 1) (of_int 1).

Definition TIME_UNITS_PER_SEC : Z := 1000000.

Section clock.
Variable c : tc_clock.

Definition tc_core_time2big (time : Z) : option bool :=
  match to_unsigned 64 (fmul (of_int time) (tick_in_usec c)) with
  | Some t => Some (negb (Z.shiftr t 32 =? 0))
  | None => None
  end.

Definition tc_core_time2tick (time : Z) : option Z :=
  to_unsigned 32 (fmul (of_int time) (tick_in_usec c)).

Definition tc_core_tick2time (tick : Z) : option Z :=
  to_unsigned 32 (fdiv (of_int tick) (tick_in_usec c)).

Definition tc_core_time2ktime (time : Z) : option Z :=
  to_unsigned 32 (fmul (of_int time) (clock_factor c)).

Definition tc_core_ktime2time (ktime : Z) : option Z :=
  to_unsigned 32 (fdiv (of_int ktime) (clock_factor c)).

Definition tc_calc_xmittime (rate size : Z) : option Z :=
  match to_unsigned 32 (fmul (of_int TIME_UNITS_PER_SEC) (fdiv (of_int size) (of_int rate))) with
  | Some time => tc_core_time2tick time
  | None => None
  end.

Definition tc_calc_xmitsize (rate ticks : Z) : option Z :=
  match tc_core_tick2time ticks with
  | Some time => to_unsigned 32 (fdiv (fmul (of_int rate) (of_int time)) (of_int TIME_UNITS_PER_SEC))
  | None => None
  end.
End clock.

(** [tc_core_init]: the three numbers of /proc/net/psched, if they can be read. *)
Definition tc_core_init (psched : option (Z * Z * Z)) (c : tc_clock) : Z * tc_clock :=
  match psched with
  | None => (-1, c)
  | Some (t2us, us2t, clock_res) =>
      let t2us := if clock_res =? 1000000000 then us2t else t2us in
      let factor := fdiv (of_int clock_res) (of_int TIME_UNITS_PER_SEC) in
      (0, TcClock (fmul (fdiv (of_int t2us) (of_int us2t)) factor) factor)
  end.

(** ** Size adjustment *)

Inductive link_layer := LINKLAYER_UNSPEC | LINKLAYER_ETHERNET | LINKLAYER_ATM.

Definition link_layer_num (l : link_layer) : Z :=
  match l with LINKLAYER_UNSPEC => 0 | LINKLAYER_ETHERNET => 1 | LINKLAYER_ATM => 2 end.

Definition ATM_CELL_PAYLOAD : Z := 48.

Definition ATM_CELL_SIZE : Z := 53.

Definition tc_align_to_atm (size : Z) : Z :=
  let cells := s32 (size / ATM_CELL_PAYLOAD) in
  let cells := if 0 <? size mod ATM_CELL_PAYLOAD then cells + 1 else cells in
  u32 (s32 (cells * ATM_CELL_SIZE)).

Definition tc_adjust_size (sz mpu : Z) (linklayer : link_layer) : Z :=
  let sz := if sz <? mpu then mpu else sz in
  match linklayer with
  | LINKLAYER_ATM => tc_align_to_atm sz
  | _ => sz
  end.

(** ** Rate tables *)

(** [while ((mtu >> cell_log) > bound) cell_log++]; an [unsigned int] can be
    shifted by at most 31. *)
Fixpoint cell_log_loop (fuel : nat) (mtu bound cell_log : Z) : option Z :=
  match fuel with
  | O => None
  | S fuel =>
      if bound <? Z.shiftr mtu cell_log then cell_log_loop fuel mtu bound (cell_log + 1)
      else Some cell_log
  end.

(** The 256 entries, the first one for [i]. *)
Fixpoint rtab_entries (c : tc_clock) (n : nat) (i cell_log bps mpu : Z) (linklayer : link_layer)
    : option (list Z) :=
  match n with
  | O => Some []
  | S n =>
      let sz := tc_adjust_size (u32 (Z.shiftl (i + 1) cell_log)) mpu linklayer in
      match tc_calc_xmittime c bps sz, rtab_entries c n (i + 1) cell_log bps mpu linklayer with
      | Some t, Some ts => Some (t :: ts)
      | _, _ => None
      end
  end.

(** The result, the specification and the table. *)
Definition tc_calc_rtable (c : tc_clock) (r : tc_ratespec) (clog mtu : Z) (linklayer : link_layer)
    : option (Z * tc_ratespec * list Z) :=
  let bps := rs_rate r in
  let mtu := if mtu =? 0 then 2047 else mtu in
  match (if clog <? 0 then cell_log_loop 32 mtu 255 0 else Some clog) with
  | None => None
  | Some clog =>
      match rtab_entries c 256 0 clog bps (Sched.mpu r) linklayer with
      | None => None
      | Some rtab =>
          Some (clog,
                {| cell_log := u8 clog; rs_linklayer := Z.land (link_layer_num linklayer) TC_LINKLAYER_MASK;
                   rs_overhead := rs_overhead r; cell_align := -1; Sched.mpu := Sched.mpu r;
                   rs_rate := rs_rate r |},
                rtab)
      end
  end.

(** ** Size tables *)

Record tc_sizespec := SizeSpec {
  ss_cell_log : Z;    (* unsigned char *)
  ss_size_log : Z;    (* unsigned char *)
  ss_cell_align : Z;  (* short *)
  ss_overhead : Z;
  ss_linklayer : link_layer;
  ss_mpu : Z;
  ss_mtu : Z;
  ss_tsize : Z;
}.

(** The [for] loop from [i] down; [None] where [goto again] is taken. *)
Fixpoint stab_entries (n : nat) (cell_log size_log mpu : Z) (linklayer : link_layer) (acc : list Z)
    : option (list Z) :=
  match n with
  | O => Some acc
  | S n =>
      let i := Z.of_nat n in
      let sz := tc_adjust_size (u32 (Z.shiftl (i + 1) cell_log)) mpu linklayer in
      if 65535 <? Z.shiftr sz size_log then None
      else stab_entries n cell_log size_log mpu linklayer (Z.shiftr sz size_log :: acc)
  end.

(** [again:], with [size_log] incremented each time. *)
Fixpoint stab_again (fuel : nat) (tsize : nat) (cell_log size_log mpu : Z) (linklayer : link_layer)
    : option (Z * list Z) :=
  match fuel with
  | O => None
  | S fuel =>
      match stab_entries tsize cell_log size_log mpu linklayer [] with
      | Some stab => Some (size_log, stab)
      | None => stab_again fuel tsize cell_log (u8 (size_log + 1)) mpu linklayer
      end
  end.

(** [malloc_ok]: whether the allocation of the table succeeds. *)
Definition tc_calc_size_table (malloc_ok : bool) (s : tc_sizespec) : option (Z * tc_sizespec * option (list Z)) :=
  if (link_layer_num (ss_linklayer s) <=? 1) && (ss_mpu s =? 0) then
    Some (0, SizeSpec 0 (ss_size_log s) 0 (ss_overhead s) (ss_linklayer s) (ss_mpu s) 0 0, None)
  else
    let mtu := if ss_mtu s =? 0 then 2047 else ss_mtu s in
    let tsize := if ss_tsize s =? 0 then 512 else ss_tsize s in
    match cell_log_loop 32 mtu (tsize - 1) 0 with
    | None => None
    | Some clog =>
        if negb malloc_ok then
          Some (-1, SizeSpec clog (ss_size_log s) (ss_cell_align s) (ss_overhead s) (ss_linklayer s)
                      (ss_mpu s) mtu tsize, None)
        else
          match stab_again 32 (Z.to_nat tsize) clog (ss_size_log s) (ss_mpu s) (ss_linklayer s) with
          | None => None
          | Some (slog, stab) =>
              Some (0, SizeSpec clog slog (-1) (ss_overhead s) (ss_linklayer s) (ss_mpu s) mtu tsize,
                    Some stab)
          end
    end.

(** ** The loops *)

(** The loop that looks for [cell_log] ends without shifting too far, with
    the least shift that brings the size within the table. *)
Theorem cell_log_least mtu bound : 0 ≤ mtu < 2 ^ 32 → 1 ≤ bound →
  ∃ clog, cell_log_loop 32 mtu bound 0 = Some clog ∧ 0 ≤ clog ≤ 31 ∧ Z.shiftr mtu clog ≤ bound ∧
    ∀ k, 0 ≤ k < clog → bound < Z.shiftr mtu k.
Proof.
  intros Hm Hb.
  assert (∀ fuel clog, 0 ≤ clog → clog + Z.of_nat fuel = 32 → (∀ k, 0 ≤ k < clog → bound < Z.shiftr mtu k) →
    clog ≤ 31 → ∃ r, cell_log_loop fuel mtu bound clog = Some r ∧ 0 ≤ r ≤ 31 ∧ Z.shiftr mtu r ≤ bound ∧
      ∀ k, 0 ≤ k < r → bound < Z.shiftr mtu k) as Hloop; [|by apply (Hloop 32%nat 0); lia].
  induction fuel as [|fuel IH]; intros clog Hc Hf Hk H31; [lia|]. simpl.
  destruct (Z.ltb_spec bound (Z.shiftr mtu clog)) as [Hlt|Hge].
  - apply IH; [lia|lia| |].
    + intros k Hk'. destruct (decide (k = clog)) as [->|]; [done|]. apply Hk. lia.
    + destruct (decide (clog = 31)) as [->|]; [|lia].
      rewrite Z.shiftr_div_pow2 in Hlt by lia.
      assert (mtu / 2 ^ 31 < 2) by (apply Z.div_lt_upper_bound; lia). lia.
  - exists clog. done.
Qed.

Lemma cell_log_least_witness : ∃ clog, cell_log_loop 32 2047 255 0 = Some clog ∧ 0 ≤ clog ≤ 31 ∧
  Z.shiftr 2047 clog ≤ 255 ∧ ∀ k, 0 ≤ k < clog → 255 < Z.shiftr 2047 k.
Proof. apply (cell_log_least 2047 255); lia. Defined.

(** [tc_align_to_atm] is the number of whole cells that hold the packet,
    times the size of a cell, as long as the product fits an [int]. *)
Theorem tc_align_to_atm_cells size : 0 ≤ size → (size + 47) / 48 * 53 < 2 ^ 31 →
  tc_align_to_atm size = 53 * ((size + 47) / 48) ∧ size ≤ 48 * ((size + 47) / 48) < size + 48.
Proof.
  intros Hs Hb. pose proof (Z.div_mod (size + 47) 48). pose proof (Z.mod_pos_bound (size + 47) 48).
  pose proof (Z.div_mod size 48). pose proof (Z.mod_pos_bound size 48).
  unfold tc_align_to_atm, ATM_CELL_PAYLOAD, ATM_CELL_SIZE. rewrite (s32_small (size / 48)) by lia.
  split; [|lia]. assert ((if 0 <? size mod 48 then size / 48 + 1 else size / 48) = (size + 47) / 48) as ->.
  { destruct (Z.ltb_spec 0 (size mod 48)); lia. }
  rewrite s32_small, u32_small by lia. lia.
Qed.

Lemma tc_align_to_atm_cells_witness :
  tc_align_to_atm 1500 = 53 * ((1500 + 47) / 48) ∧ 1500 ≤ 48 * ((1500 + 47) / 48) < 1500 + 48.
Proof. by apply (tc_align_to_atm_cells 1500). Defined.

Lemma tc_adjust_size_range sz mpu l : 0 ≤ sz < 2 ^ 32 → 0 ≤ mpu < 2 ^ 32 → 0 ≤ tc_adjust_size sz mpu l < 2 ^ 32.
Proof.
  intros Hs Hm. unfold tc_adjust_size. destruct (sz <? mpu), l; try done; apply u32_range.
Qed.

Lemma stab_entries_ok tsize clog slog mpu l acc stab : 0 ≤ mpu < 2 ^ 32 → 0 ≤ slog →
  stab_entries tsize clog slog mpu l acc = Some stab → Forall (λ v, 0 ≤ v ≤ 65535) acc →
  length stab = (tsize + length acc)%nat ∧ Forall (λ v, 0 ≤ v ≤ 65535) stab.
Proof.
  intros Hm Hsl. revert acc. induction tsize as [|n IH]; intros acc Heq Hacc; simpl in Heq; [by simplify_eq|].
  destruct (Z.ltb_spec 65535 (Z.shiftr (tc_adjust_size (u32 (Z.shiftl (Z.of_nat n + 1) clog)) mpu l) slog));
    [done|]. apply IH in Heq as [Hlen Hall].
  - split; [rewrite Hlen; simpl; lia|done].
  - constructor; [|done]. split; [|done]. apply Z.shiftr_nonneg.
    apply tc_adjust_size_range; [apply u32_range|done].
Qed.

Lemma stab_entries_16 tsize clog mpu l acc : 0 ≤ mpu < 2 ^ 32 →
  is_Some (stab_entries tsize clog 16 mpu l acc).
Proof.
  intros Hm. revert acc. induction tsize as [|n IH]; intros acc; simpl; [by eexists|].
  set (sz := tc_adjust_size _ _ _).
  assert (0 ≤ sz < 2 ^ 32) as Hsz by (apply tc_adjust_size_range; [apply u32_range|done]).
  destruct (Z.ltb_spec 65535 (Z.shiftr sz 16)) as [Hlt|]; [|apply IH].
  rewrite Z.shiftr_div_pow2 in Hlt by lia.
  assert (sz / 2 ^ 16 < 2 ^ 16) by (apply Z.div_lt_upper_bound; lia). lia.
Qed.

(** The [again] loop of [tc_calc_size_table] ends after at most 16 rounds,
    with a full table of 16-bit entries. *)
Theorem stab_again_ends tsize clog slog mpu l : 0 ≤ slog ≤ 16 → 0 ≤ mpu < 2 ^ 32 →
  ∃ slog' stab, stab_again 32 tsize clog slog mpu l = Some (slog', stab) ∧ slog ≤ slog' ≤ 16 ∧
    length stab = tsize ∧ Forall (λ v, 0 ≤ v ≤ 65535) stab.
Proof.
  intros Hs Hm.
  assert (∀ fuel slog, 0 ≤ slog ≤ 16 → 16 - slog < Z.of_nat fuel →
    ∃ slog' stab, stab_again fuel tsize clog slog mpu l = Some (slog', stab) ∧ slog ≤ slog' ≤ 16 ∧
      length stab = tsize ∧ Forall (λ v, 0 ≤ v ≤ 65535) stab) as Hloop; [|by apply Hloop; lia].
  clear slog Hs. induction fuel as [|fuel IH]; intros slog Hs Hf; [lia|]. cbn [stab_again].
  destruct (stab_entries tsize clog slog mpu l []) as [stab|] eqn:He.
  - exists slog, stab. split; [done|]. split; [lia|].
    apply stab_entries_ok in He as [Hlen Hall]; [|done|lia|done]. simpl in Hlen. split; [lia|done].
  - destruct (decide (slog = 16)) as [->|Hne].
    { destruct (stab_entries_16 tsize clog mpu l [] Hm). congruence. }
    unfold u8. rewrite Z.mod_small by lia.
    destruct (IH (slog + 1)) as (slog' & stab & ? & ? & ?); [lia..|]. exists slog', stab. split; [done|lia || split; [lia|done]].
Qed.

Lemma stab_again_ends_witness : ∃ slog' stab,
  stab_again 32 512 10 0 0 LINKLAYER_ATM = Some (slog', stab) ∧ 0 ≤ slog' ≤ 16 ∧
  length stab = 512%nat ∧ Forall (λ v, 0 ≤ v ≤ 65535) stab.
Proof. apply (stab_again_ends 512 10 0 0 LINKLAYER_ATM); lia. Defined.
