(* ===== verification/Float.v ===== *)
(** * Exact arithmetic on doubles

    The doubles of TcCore.v are those of the specification of IEEE 754.  As
    long as a product of integers stays below [2 ^ 53] nothing is rounded:
    conversion from an integer, multiplication and division by a power of two
    are exact. *)

From Stdlib Require Import ZArith Lia Floats.SpecFloat.
From stdpp Require Import base numbers list option.
From S2P Require Import Prelude Sched TcCore.

Open Scope Z_scope.

Lemma digits_log2 p : Zdigits2 (Z.pos p) = Z.log2 (Z.pos p) + 1.
Proof.
  induction p as [p IH|p IH|]; [..|done]; cbn [Zdigits2 digits2_pos] in *; rewrite Pos2Z.inj_succ, IH.
  - change (Z.pos p~1) with (2 * Z.pos p + 1). rewrite Z.log2_succ_double by lia. lia.
  - change (Z.pos p~0) with (2 * Z.pos p). rewrite Z.log2_double by lia. lia.
Qed.

(** Shifting out zeros loses nothing. *)
Lemma shr_zeros n : ∀ q, 0 < q →
  SpecFloat.iter_pos shr_1 n {| shr_m := q * 2 ^ Z.pos n; shr_r := false; shr_s := false |}
  = {| shr_m := q; shr_r := false; shr_s := false |}.
Proof.
  induction n as [n IH|n IH|]; intros q Hq; cbn [SpecFloat.iter_pos].
  - assert (q * 2 ^ Z.pos n~1 = 2 * (q * 2 ^ Z.pos n * 2 ^ Z.pos n)) as ->.
    { replace (Z.pos n~1) with (1 + Z.pos n + Z.pos n) by lia. rewrite !Z.pow_add_r by lia. ring. }
    assert (0 < q * 2 ^ Z.pos n) as Hp by nia. assert (0 < q * 2 ^ Z.pos n * 2 ^ Z.pos n) by nia.
    destruct (q * 2 ^ Z.pos n * 2 ^ Z.pos n) as [|p|] eqn:E; [lia| |lia].
    change (2 * Z.pos p) with (Z.pos p~0). cbn [shr_1 orb]. rewrite <- E. by rewrite !IH.
  - assert (q * 2 ^ Z.pos n~0 = q * 2 ^ Z.pos n * 2 ^ Z.pos n) as ->.
    { replace (Z.pos n~0) with (Z.pos n + Z.pos n) by lia. rewrite Z.pow_add_r by lia. ring. }
    rewrite !IH by nia. done.
  - change (2 ^ 1) with 2. destruct q as [|p|]; [lia| |lia]. by rewrite Z.mul_comm.
Qed.

(** [f] is the double [v * 2 ^ e], with a full mantissa. *)
Definition double_is (f : spec_float) (v e : Z) : Prop :=
  ∃ m n, f = S754_finite false m (e - n) ∧ 2 ^ 52 ≤ Z.pos m < 2 ^ 53 ∧ 0 ≤ n ∧ Z.pos m = v * 2 ^ n.

Lemma log2_small v : 0 < v < 2 ^ 53 → 0 ≤ Z.log2 v ≤ 52.
Proof. intros Hv. split; [apply Z.log2_nonneg|]. assert (Z.log2 v < 53) by (apply Z.log2_lt_pow2; lia). lia. Qed.

Lemma mantissa_full v : 0 < v < 2 ^ 53 → 2 ^ 52 ≤ v * 2 ^ (52 - Z.log2 v) < 2 ^ 53.
Proof.
  intros Hv. pose proof (log2_small v Hv). pose proof (Z.log2_spec v ltac:(lia)) as [H1 H2].
  replace (2 ^ 52) with (2 ^ Z.log2 v * 2 ^ (52 - Z.log2 v)) by (rewrite <- Z.pow_add_r by lia; f_equal; lia).
  replace (2 ^ 53) with (2 ^ Z.succ (Z.log2 v) * 2 ^ (52 - Z.log2 v)) by (rewrite <- Z.pow_add_r by lia; f_equal; lia).
  assert (0 < 2 ^ (52 - Z.log2 v)) by (apply Z.pow_pos_nonneg; lia). nia.
Qed.

(** A mantissa of 53 bits is not changed. *)
Lemma shr_full m x : 2 ^ 52 ≤ Z.pos m < 2 ^ 53 → -1000 ≤ x →
  shr_fexp 53 1024 (Z.pos m) x loc_Exact = ({| shr_m := Z.pos m; shr_r := false; shr_s := false |}, x).
Proof.
  intros Hm Hx. unfold shr_fexp, fexp, emin. rewrite digits_log2.
  assert (Z.log2 (Z.pos m) = 52) as -> by (apply Z.log2_unique; lia).
  rewrite Z.max_l by lia. by replace (52 + 1 + x - 53 - x) with 0 by lia.
Qed.

Lemma round_exact m x v e k : Z.pos m = v * 2 ^ k → 0 ≤ k → x = e - k → 0 < v < 2 ^ 53 → 2 ^ 52 ≤ Z.pos m →
  -900 ≤ e ≤ 900 → double_is (binary_round_aux 53 1024 false (Z.pos m) x loc_Exact) v e.
Proof.
  intros Hm Hk Hx Hv Hfull He. pose proof (log2_small v Hv) as Hlog. pose proof (mantissa_full v Hv) as Hfv.
  assert (Z.log2 (Z.pos m) = k + Z.log2 v) as Hl by (rewrite Hm; apply Z.log2_mul_pow2; lia).
  assert (52 ≤ k + Z.log2 v) as Hk52 by (rewrite <- Hl; apply Z.log2_le_pow2; lia).
  set (n := 52 - Z.log2 v) in *. destruct (v * 2 ^ n) as [|m'|] eqn:Hm'; [lia| |lia].
  assert (shr_fexp 53 1024 (Z.pos m) x loc_Exact
    = ({| shr_m := Z.pos m'; shr_r := false; shr_s := false |}, e - n)) as Hshr.
  { unfold shr_fexp, fexp, emin. rewrite digits_log2, Hl, Z.max_l by lia.
    replace (k + Z.log2 v + 1 + x - 53 - x) with (k - n) by lia. cbn [shr_record_of_loc].
    assert (Z.pos m = Z.pos m' * 2 ^ (k - n)) as Hmm.
    { rewrite <- Hm', <- Z.mul_assoc, <- Z.pow_add_r by lia. rewrite Hm. f_equal. f_equal. lia. }
    destruct (k - n) as [|j|] eqn:Hj; [|..|lia].
    - rewrite Hmm, Z.mul_1_r. cbn [shr]. f_equal. lia.
    - cbn [shr]. rewrite Hmm, shr_zeros by lia. f_equal. lia. }
  unfold binary_round_aux. rewrite Hshr. cbn [shr_m loc_of_shr_record round_nearest_even].
  rewrite shr_full by lia. cbn [shr_m]. rewrite (proj2 (Z.leb_le (e - n) _)) by lia.
  exists m', n. split; [done|]. split; [done|]. split; [lia|done].
Qed.

Lemma iter_xO m d : Z.pos (Pos.iter xO m d) = Z.pos m * 2 ^ Z.pos d.
Proof.
  induction d as [|d IH] using Pos.peano_ind; [rewrite Z.mul_comm; done|].
  rewrite Pos.iter_succ, Pos2Z.inj_succ, Z.pow_succ_r by lia.
  change (Z.pos (Pos.iter xO m d)~0) with (2 * Z.pos (Pos.iter xO m d)). rewrite IH. ring.
Qed.

Lemma of_int_exact v : 0 < v < 2 ^ 53 → double_is (of_int v) v 0.
Proof.
  intros Hv. pose proof (log2_small v Hv) as Hlog. pose proof (mantissa_full v Hv) as Hfv.
  destruct v as [|p|]; [lia| |lia]. unfold of_int, binary_normalize, binary_round, fexp, emin.
  change (Z.pos (digits2_pos p)) with (Zdigits2 (Z.pos p)). rewrite digits_log2, Z.max_l by lia.
  unfold shl_align. replace (Z.log2 (Z.pos p) + 1 + 0 - 53 - 0) with (- (52 - Z.log2 (Z.pos p))) by lia.
  destruct (52 - Z.log2 (Z.pos p)) as [|d|] eqn:Hd; [|..|lia].
  - apply (round_exact p 0 (Z.pos p) 0 0); lia.
  - apply (round_exact _ _ (Z.pos p) 0 (Z.pos d)); [apply iter_xO|lia|lia|done|rewrite iter_xO; lia|lia].
Qed.

Lemma fmul_exact f g v w e d : double_is f v e → double_is g w d → 0 < v → 0 < w → v * w < 2 ^ 53 →
  -900 ≤ e + d ≤ 900 → double_is (fmul f g) (v * w) (e + d).
Proof.
  intros (m & n & -> & Hm & Hn & Hmv) (m' & n' & -> & Hm' & Hn' & Hmv') Hv Hw Hvw Hed.
  unfold fmul, SFmul. cbn [xorb].
  apply (round_exact _ _ (v * w) (e + d) (n + n')); [|lia|lia|lia| |lia].
  - rewrite Pos2Z.inj_mul, Hmv, Hmv', Z.pow_add_r by lia. ring.
  - rewrite Pos2Z.inj_mul. nia.
Qed.

(** Division by [2 ^ k]. *)
Lemma fdiv_exact f g v e k : double_is f v e → 0 < v < 2 ^ 53 → double_is g 1 k →
  -900 ≤ e - k ≤ 900 → double_is (fdiv f g) v (e - k).
Proof.
  intros (m & n & -> & Hm & Hn & Hmv) Hv (m' & n' & -> & Hm' & Hn' & Hmv') Hek.
  rewrite Z.mul_1_l in Hmv'.
  assert (n' = 52) as ->.
  { assert (Z.log2 (Z.pos m') = n') as Hl by (rewrite Hmv'; apply Z.log2_pow2; lia).
    rewrite <- Hl. apply Z.log2_unique; lia. }
  unfold fdiv, SFdiv, SFdiv_core_binary, fexp, emin. rewrite !digits_log2.
  assert (Z.log2 (Z.pos m) = 52) as -> by (apply Z.log2_unique; lia).
  assert (Z.log2 (Z.pos m') = 52) as -> by (apply Z.log2_unique; lia).
  pose proof (log2_small v Hv). assert (n ≤ 52) by (assert (2 ^ n < 2 ^ 53) by nia; apply Z.pow_lt_mono_r_iff in H0; lia).
  rewrite Z.max_l, Z.min_l by lia.
  replace (e - n - (k - 52) - (52 + 1 + (e - n) - (52 + 1 + (k - 52)) - 53)) with 53 by lia.
  rewrite Z.shiftl_mul_pow2 by lia.
  assert (Z.pos m * 2 ^ 53 = (2 * Z.pos m) * Z.pos m') as Heq by (rewrite Hmv'; lia).
  unfold new_location.
  destruct (Z.div_eucl (Z.pos m * 2 ^ 53) (Z.pos m')) as [q r] eqn:Hqr.
  assert (q = 2 * Z.pos m ∧ r = 0) as [-> ->].
  { pose proof (Z_div_mod (Z.pos m * 2 ^ 53) (Z.pos m') ltac:(lia)) as Hdm. rewrite Hqr in Hdm. nia. }
  replace (Z.even (Z.pos m')) with true by (rewrite Hmv'; reflexivity). cbn [xorb].
  change (new_location_even (Z.pos m') 0) with loc_Exact. change (2 * Z.pos m) with (Z.pos m~0).
  apply (round_exact _ _ v (e - k) (n + 1)); [|lia|lia|lia| |lia].
  - change (Z.pos m~0) with (2 * Z.pos m). rewrite Hmv, Z.pow_add_r by lia. ring.
  - change (Z.pos m~0) with (2 * Z.pos m). lia.
Qed.

Lemma trunc_exact f v e : double_is f v e → 0 < v → e ≤ 0 → trunc f = Some (v / 2 ^ (- e)).
Proof.
  intros (m & n & -> & Hm & Hn & Hmv) Hv He. unfold trunc. f_equal.
  destruct (Z.leb_spec 0 (e - n)).
  - assert (e = 0 ∧ n = 0) as [-> ->] by lia. rewrite Hmv. cbn. by rewrite Z.div_1_r, !Z.mul_1_r.
  - rewrite Hmv. replace (- (e - n)) with (- e + n) by lia. rewrite Z.pow_add_r by lia.
    apply Z.div_mul_cancel_r; apply Z.pow_nonzero; lia.
Qed.
