(* ===== verification/TcUtil.v ===== *)
(** * Arguments of tc (src/tbf/tc_util.c)

    Class identifiers, rates, sizes and actions, as they are read from the
    command line and printed.  A C string is the list of its bytes without
    the terminating zero; [None] is undefined behaviour.  [strtod] is a
    parameter ([Strtod]); the other functions of the C library the file uses
    are written out.  [matches], [get_u32] and [get_integer] are those of
    src/iproute2-master/lib/utils.c. *)

From Stdlib Require Import ZArith Lia Strings.String Strings.Ascii Floats.SpecFloat.
From stdpp Require Import base numbers list option.
From S2P Require Import Prelude Sched TcCore Float.

Open Scope Z_scope.

(** ** Strings *)

Fixpoint str (s : string) : list Z :=
  match s with
  | EmptyString => []
  | String c s => Z.of_N (N_of_ascii c) :: str s
  end.

Definition chr (s : string) : Z := List.hd 0 (str s).

Definition streq (a b : list Z) : bool := bool_decide (a = b).

Definition tolower (c : Z) : Z := if (65 <=? c) && (c <=? 90) then c + 32 else c.

(** [strcasecmp(a, b) == 0]. *)
Definition strcaseeq (a b : list Z) : bool := streq (map tolower a) (map tolower b).

(** [matches(cmd, pattern) == 0]: [cmd] is a prefix of [pattern]. *)
Definition matches (cmd pattern : list Z) : bool :=
  if (length pattern <? length cmd)%nat then false else streq (take (length cmd) pattern) cmd.

(** [snprintf(buf, len, ...)]: at most [len - 1] bytes of the output. *)
Definition snprintf (len : Z) (out : list Z) : list Z := take (Z.to_nat (len - 1)) out.

(** ** Numbers *)

Definition digit_char (d : Z) : Z := if d <? 10 then 48 + d else 87 + d.

Definition digit_val (base c : Z) : option Z :=
  let d := if (48 <=? c) && (c <=? 57) then c - 48
           else if (97 <=? c) && (c <=? 122) then c - 87
           else if (65 <=? c) && (c <=? 90) then c - 55 else 99 in
  if d <? base then Some d else None.

(** [%x] and [%u]; [fuel] digits at most. *)
Fixpoint to_digits (fuel : nat) (base n : Z) : list Z :=
  match fuel with
  | O => []
  | S fuel =>
      if n <? base then [digit_char n] else to_digits fuel base (n / base) ++ [digit_char (n mod base)]
  end.

(** A 64-bit number has at most 64 digits. *)
Definition print_num (base n : Z) : list Z := to_digits 64 base n.

Definition print_int (n : Z) : list Z := if n <? 0 then chr "-" :: print_num 10 (- n) else print_num 10 n.

Fixpoint parse_digits (base : Z) (s : list Z) (acc : Z) : Z * list Z :=
  match s with
  | c :: s' =>
      match digit_val base c with
      | Some d => parse_digits base s' (acc * base + d)
      | None => (acc, s)
      end
  | [] => (acc, s)
  end.

Definition isspace (c : Z) : bool := (c =? 32) || ((9 <=? c) && (c <=? 13)).

Fixpoint skip_space (s : list Z) : list Z :=
  match s with
  | c :: s' => if isspace c then skip_space s' else s
  | [] => []
  end.

Definition parse_sign (s : list Z) : bool * list Z :=
  match s with
  | c :: s' => if c =? chr "-" then (true, s') else if c =? chr "+" then (false, s') else (false, s)
  | [] => (false, [])
  end.

Definition starts_digit (base : Z) (s : list Z) : bool :=
  match s with
  | c :: _ => bool_decide (is_Some (digit_val base c))
  | [] => false
  end.

(** The prefix [0x] of hexadecimal numbers. *)
Definition skip_prefix (base : Z) (s : list Z) : list Z :=
  match s with
  | z :: x :: s' =>
      if (base =? 16) && (z =? chr "0") && (tolower x =? chr "x") && starts_digit 16 s' then s' else s
  | _ => s
  end.

Definition ULONG_MAX : Z := 2 ^ 64 - 1.

(** [strtoul(s, &p, base)], base 10 or 16: the value, whether [errno] becomes
    [ERANGE], and what [p] points to; [None] if there is no number, and
    [p == s]. *)
Definition strtoul (base : Z) (s : list Z) : option (Z * bool * list Z) :=
  let '(neg, s) := parse_sign (skip_space s) in
  let s := skip_prefix base s in
  if starts_digit base s then
    let '(v, rest) := parse_digits base s 0 in
    Some (if ULONG_MAX <? v then (ULONG_MAX, true, rest) else (if neg then u64 (- v) else v, false, rest))
  else None.

(** [get_u32]: the value, if the result is 0. *)
Definition get_u32 (base : Z) (arg : list Z) : option Z :=
  match strtoul base arg with
  | Some (res, erange, []) => if erange then None else if 4294967295 <? res then None else Some res
  | _ => None
  end.

(** ** Handles and class identifiers *)

Definition TC_H_ROOT : Z := 4294967295.

Definition TC_H_UNSPEC : Z := 0.

Definition TC_H_MAJ (h : Z) : Z := Z.land h 4294901760.

Definition TC_H_MIN (h : Z) : Z := Z.land h 65535.

(** The result and the handle; -1 if there is none. *)
Definition get_qdisc_handle (s : list Z) : option Z :=
  if streq s (str "none") then Some TC_H_UNSPEC
  else
    match strtoul 16 s with
    | None => None
    | Some (v, _, p) =>
        let maj := u32 v in
        if 2 ^ 16 <=? maj then None
        else
          let maj := u32 (Z.shiftl maj 16) in
          match p with
          | [] => Some maj
          | c :: _ => if c =? chr ":" then Some maj else None
          end
    end.

(** The part after the major number [maj]. *)
Definition get_classid_rest (maj : Z) (p : list Z) : option Z :=
  match p with
  | [] => Some maj
  | c :: s =>
      if c =? chr ":" then
        if 2 ^ 16 <=? maj then None
        else
          let maj := u32 (Z.shiftl maj 16) in
          match (match strtoul 16 s with Some (v, _, p) => (u32 v, p) | None => (0, s) end) with
          | (min, []) => if 2 ^ 16 <=? min then None else Some (Z.lor maj min)
          | _ => None
          end
      else None
  end.

Definition get_tc_classid (s : list Z) : option Z :=
  if streq s (str "root") then Some TC_H_ROOT
  else if streq s (str "none") then Some TC_H_UNSPEC
  else
    match strtoul 16 s with
    | None => match s with
              | c :: _ => if c =? chr ":" then get_classid_rest 0 s else None
              | [] => None
              end
    | Some (v, _, p) => get_classid_rest (u32 v) p
    end.

(** [names]: [id_to_name(cls_names, ...)], if [use_names] is set. *)
Definition print_tc_classid (names : option (Z → option (list Z))) (blen h : Z) : list Z :=
  let hlen := 63 in
  let handle :=
    if h =? TC_H_ROOT then str "root"
    else if h =? TC_H_UNSPEC then snprintf hlen (str "none")
    else if TC_H_MAJ h =? 0 then snprintf hlen (str ":" ++ print_num 16 (TC_H_MIN h))
    else if TC_H_MIN h =? 0 then snprintf hlen (print_num 16 (Z.shiftr (TC_H_MAJ h) 16) ++ str ":")
    else snprintf hlen (print_num 16 (Z.shiftr (TC_H_MAJ h) 16) ++ str ":" ++ print_num 16 (TC_H_MIN h)) in
  match names with
  | Some id_to_name =>
      match id_to_name h with
      | Some clname => snprintf blen (clname ++ str "#" ++ handle)
      | None => snprintf blen handle
      end
  | None => snprintf blen handle
  end.

Definition sprint_tc_classid (names : option (Z → option (list Z))) (h : Z) : list Z :=
  print_tc_classid names 63 h.

(** ** Rates *)

(** [strtod]: the value and the rest of the string; [None] if there is no
    number. *)
Class Strtod := strtod : list Z → option (spec_float * list Z).

(** What ends a decimal number. *)
Definition ends_number (s : list Z) : bool :=
  match s with
  | [] => true
  | c :: _ => negb ((c =? chr ".") || (tolower c =? chr "e") || (tolower c =? chr "x") || ((48 <=? c) && (c <=? 57)))
  end.

(** Of a number without a point or an exponent below [2 ^ 53], the value is
    exact. *)
Class StrtodOk `{Strtod} :=
  strtod_int : ∀ n s, 0 ≤ n < 2 ^ 53 → ends_number s = true → strtod (print_num 10 n ++ s) = Some (of_int n, s).

(** The table of suffixes; the scales are integers below [2 ^ 53]. *)
Definition suffixes : list (list Z * Z) :=
  [(str "bit", 1); (str "Kibit", 1024); (str "kbit", 1000); (str "mibit", 1024 * 1024);
   (str "mbit", 1000000); (str "gibit", 1024 * 1024 * 1024); (str "gbit", 1000000000);
   (str "tibit", 1024 * 1024 * 1024 * 1024); (str "tbit", 1000000000000); (str "Bps", 8);
   (str "KiBps", 8 * 1024); (str "KBps", 8000); (str "MiBps", 8 * 1024 * 1024); (str "MBps", 8000000);
   (str "GiBps", 8 * 1024 * 1024 * 1024); (str "GBps", 8000000000);
   (str "TiBps", 8 * 1024 * 1024 * 1024 * 1024); (str "TBps", 8000000000000)].

(** The loop over the table. *)
Fixpoint find_suffix (table : list (list Z * Z)) (p : list Z) : option Z :=
  match table with
  | [] => None
  | (name, scale) :: table => if strcaseeq name p then Some scale else find_suffix table p
  end.

(** Largest integer not above. *)
Definition ffloor (f : spec_float) : option Z :=
  match f with
  | S754_finite true m e => Some (if 0 <=? e then - (Z.pos m * 2 ^ e) else - Z.pos m / 2 ^ (- e))
  | _ => trunc f
  end.

Section rates.
Context `{Strtod}.

(** The bits per second that [str] stands for, divided by 8; [None] if the
    string is refused. *)
Definition get_bps (s : list Z) : option spec_float :=
  match strtod s with
  | None => None
  | Some (bps, p) =>
      match find_suffix suffixes p with
      | Some scale => Some (fdiv (fmul bps (of_int scale)) (of_int 8))
      | None => match p with [] => Some (fdiv bps (of_int 8)) | _ => None end
      end
  end.

(** The result and the rate: [Some None] is the result -1, [None] a
    conversion of a double the type cannot hold. *)
Definition get_rate (s : list Z) : option (option Z) :=
  match get_bps s with
  | None => Some None
  | Some bps =>
      match to_unsigned 32 bps with
      | None => None
      | Some rate => Some (if decide (ffloor bps = Some rate) then Some rate else None)
      end
  end.

Definition get_rate64 (s : list Z) : option (option Z) :=
  match get_bps s with
  | None => Some None
  | Some bps => match to_unsigned 64 bps with None => None | Some rate => Some (Some rate) end
  end.

Definition get_size (s : list Z) : option (option Z) :=
  match strtod s with
  | None => Some None
  | Some (sz, p) =>
      let scale :=
        if streq p [] then Some 1
        else if strcaseeq p (str "kb") || strcaseeq p (str "k") then Some 1024
        else if strcaseeq p (str "gb") || strcaseeq p (str "g") then Some (1024 * 1024 * 1024)
        else if strcaseeq p (str "gbit") then Some (1024 * 1024 * 1024 / 8)
        else if strcaseeq p (str "mb") || strcaseeq p (str "m") then Some (1024 * 1024)
        else if strcaseeq p (str "mbit") then Some (1024 * 1024 / 8)
        else if strcaseeq p (str "kbit") then Some (1024 / 8)
        else if strcaseeq p (str "b") then Some 1 else None in
      match scale with
      | None => Some None
      | Some scale =>
          match to_unsigned 32 (if scale =? 1 then sz else fmul sz (of_int scale)) with
          | None => None
          | Some size => Some (Some size)
          end
      end
  end.
End rates.

(** The loop of [print_rate]: [rate] and the index of the unit. *)
Fixpoint scale_rate (n : nat) (kilo rate i : Z) : Z * Z :=
  match n with
  | O => (rate, i)
  | S n =>
      if rate <? kilo then (rate, i)
      else if negb (rate mod kilo =? 0) && (rate <? 1000 * kilo) then (rate, i)
      else scale_rate n kilo (rate / kilo) (i + 1)
  end.

Definition units (i : Z) : list Z :=
  if i =? 0 then [] else if i =? 1 then str "K" else if i =? 2 then str "M"
  else if i =? 3 then str "G" else str "T".

(** [%.0f] of a double with an integer value. *)
Definition print_double0 (f : spec_float) : list Z :=
  match trunc f with Some v => print_num 10 v | None => [] end.

Definition print_rate (use_iec : bool) (len rate : Z) : list Z :=
  let kilo := if use_iec then 1024 else 1000 in
  let '(rate, i) := scale_rate 4 kilo (u64 (Z.shiftl rate 3)) 0 in
  snprintf len (print_double0 (of_int rate) ++ units i ++ (if use_iec then str "i" else []) ++ str "bit").

Definition sprint_rate (use_iec : bool) (rate : Z) : list Z := print_rate use_iec 63 rate.

(** ** Link layers *)

Definition get_linklayer (arg : list Z) : option link_layer :=
  if matches arg (str "ethernet") then Some LINKLAYER_ETHERNET
  else if matches arg (str "atm") then Some LINKLAYER_ATM
  else if matches arg (str "adsl") then Some LINKLAYER_ATM
  else None.

Definition print_linklayer (len linklayer : Z) : list Z :=
  snprintf len (if linklayer =? 0 then str "unspec" else if linklayer =? 1 then str "ethernet"
                else if linklayer =? 2 then str "atm" else str "unknown").

Definition sprint_linklayer (linklayer : Z) : list Z := print_linklayer 63 linklayer.

(** ** Actions *)

Definition TC_ACT_UNSPEC : Z := -1.

Definition TC_ACT_OK : Z := 0.

Definition TC_ACT_RECLASSIFY : Z := 1.

Definition TC_ACT_SHOT : Z := 2.

Definition TC_ACT_PIPE : Z := 3.

Definition TC_ACT_STOLEN : Z := 4.

Definition TC_ACT_TRAP : Z := 8.

Definition TC_ACT_JUMP : Z := 2 ^ 28.

Definition TC_ACT_GOTO_CHAIN : Z := 2 * 2 ^ 28.

Definition TC_ACT_EXT_VAL_MASK : Z := 2 ^ 28 - 1.

Definition TC_ACT_EXT_CMP (combined opcode : Z) : bool :=
  Z.land combined (Z.lnot TC_ACT_EXT_VAL_MASK) =? opcode.

Definition action_n2a (action : Z) : list Z :=
  if TC_ACT_EXT_CMP action TC_ACT_GOTO_CHAIN then str "goto"
  else if TC_ACT_EXT_CMP action TC_ACT_JUMP then str "jump"
  else if action =? TC_ACT_UNSPEC then str "continue"
  else if action =? TC_ACT_OK then str "pass"
  else if action =? TC_ACT_SHOT then str "drop"
  else if action =? TC_ACT_RECLASSIFY then str "reclassify"
  else if action =? TC_ACT_PIPE then str "pipe"
  else if action =? TC_ACT_STOLEN then str "stolen"
  else if action =? TC_ACT_TRAP then str "trap"
  else snprintf 64 (print_int action).

Definition a2n : list (list Z * Z) :=
  [(str "continue", TC_ACT_UNSPEC); (str "drop", TC_ACT_SHOT); (str "shot", TC_ACT_SHOT);
   (str "pass", TC_ACT_OK); (str "ok", TC_ACT_OK); (str "reclassify", TC_ACT_RECLASSIFY);
   (str "pipe", TC_ACT_PIPE); (str "goto", TC_ACT_GOTO_CHAIN); (str "jump", TC_ACT_JUMP);
   (str "trap", TC_ACT_TRAP)].

Fixpoint find_action (table : list (list Z * Z)) (arg : list Z) : option Z :=
  match table with
  | [] => None
  | (a, n) :: table => if matches arg a then Some n else find_action table arg
  end.

(** [sscanf(arg, "%d%c", &n, &dummy) == 1]: a number and nothing after it.  A
    number that does not fit an [int] is undefined behaviour. *)
Definition scan_int (arg : list Z) : option (option Z) :=
  let '(neg, s) := parse_sign (skip_space arg) in
  if starts_digit 10 s then
    match parse_digits 10 s 0 with
    | (v, rest) =>
        let n := if neg then - v else v in
        if (n <? - 2 ^ 31) || (2 ^ 31 <=? n) then None
        else Some (match rest with [] => Some n | _ => None end)
    end
  else Some None.

Definition action_a2n (arg : list Z) (allow_num : bool) : option (option Z) :=
  match find_action a2n arg with
  | Some n => Some (Some n)
  | None => if allow_num then scan_int arg else Some None
  end.

(** What a function on the argument list does: it returns 0 with its results
    and the rest of the arguments, returns an error, exits because an
    argument is missing, or is undefined. *)
Inductive parsed (A : Type) := POk (a : A) (rest : list (list Z)) | PError | PExit | PUndef.

Arguments POk {A}.
Arguments PError {A}.
Arguments PExit {A}.
Arguments PUndef {A}.

(** [NEXT_ARG()]. *)
Definition NEXT_ARG {A} (argv : list (list Z)) (k : list Z → list (list Z) → parsed A) : parsed A :=
  match tl argv with
  | [] => PExit
  | arg :: _ => k arg (tl argv)
  end.

Definition __parse_action_control (argv : list (list Z)) (allow_num : bool) : parsed Z :=
  match argv with
  | [] => PError
  | arg :: _ =>
      match action_a2n arg allow_num with
      | None => PUndef
      | Some None => PError
      | Some (Some result) =>
          (* [k]: what follows the value of an action with one *)
          let value (argv : list (list Z)) :=
            NEXT_ARG argv (λ arg argv,
              match get_u32 10 arg with
              | None => PError
              | Some v => if TC_ACT_EXT_VAL_MASK <? v then PError else POk (Z.lor result v) (tl argv)
              end) in
          if result =? TC_ACT_GOTO_CHAIN then
            NEXT_ARG argv (λ arg argv, if matches arg (str "chain") then value argv else PError)
          else if result =? TC_ACT_JUMP then value argv
          else POk result (tl argv)
      end
  end.

Definition parse_action_control := __parse_action_control.

(** The result is the default if there is an error. *)
Definition parse_action_control_dflt (argv : list (list Z)) (allow_num : bool) (default_result : Z) : parsed Z :=
  match __parse_action_control argv allow_num with
  | PError => POk default_result argv
  | r => r
  end.

(** The loop of [parse_action_control_slash_spaces]: [ok] actions were read,
    [result1] and [result2] are the values so far. *)
Fixpoint slash_loop (fuel : nat) (argv : list (list Z)) (allow_num : bool) (ok : Z) (result1 : Z)
    (result2 : option Z) : parsed (Z * Z * option Z) :=
  match fuel, argv with
  | S fuel, arg :: _ =>
      let out := POk (ok, result1, result2) argv in
      let parse (argv : list (list Z)) :=
        match parse_action_control argv allow_num with
        | POk r argv =>
            if ok =? 0 then slash_loop fuel argv allow_num (ok + 1) r result2
            else slash_loop fuel argv allow_num (ok + 1) result1 (Some r)
        | PError => PError
        | PExit => PExit
        | PUndef => PUndef
        end in
      if ok =? 1 then
        if negb (streq arg (str "/")) then out else NEXT_ARG argv (λ _ argv, parse argv)
      else if (ok =? 0) || (ok =? 2) then parse argv
      else out
  | _, _ => POk (ok, result1, result2) argv
  end.

(** The first result, and the second one if it is set. *)
Definition parse_action_control_slash_spaces (argv : list (list Z)) (allow_num : bool)
    : parsed (Z * option Z) :=
  match slash_loop (S (length argv)) argv allow_num 0 (-1) None with
  | POk (ok, result1, result2) rest => POk (result1, if ok =? 2 then result2 else None) rest
  | PError => PError
  | PExit => PExit
  | PUndef => PUndef
  end.

(** The string up to the first slash, and what follows the slash. *)
Fixpoint split_slash (s : list Z) : option (list Z * list Z) :=
  match s with
  | [] => None
  | c :: s => if c =? chr "/" then Some ([], s)
              else match split_slash s with Some (a, b) => Some (c :: a, b) | None => None end
  end.

Definition parse_action_control_slash (argv : list (list Z)) (allow_num : bool) : parsed (Z * option Z) :=
  match argv with
  | [] => PUndef
  | arg :: rest =>
      match split_slash arg with
      | None => parse_action_control_slash_spaces argv allow_num
      | Some (a, b) =>
          match action_a2n a allow_num with
          | None => PUndef
          | Some None => PError
          | Some (Some result1) =>
              match action_a2n b allow_num with
              | None => PUndef
              | Some None => PError
              | Some (Some result2) => POk (result1, Some result2) rest
              end
          end
      end
  end.

(** [print_action_control] on the terminal, without the prefix and the
    suffix: words separated by a space. *)
Definition print_action_control (action : Z) : list (list Z) :=
  [action_n2a action]
  ++ (if TC_ACT_EXT_CMP action TC_ACT_GOTO_CHAIN
      then [str "chain"; print_num 10 (Z.land action TC_ACT_EXT_VAL_MASK)] else [])
  ++ (if TC_ACT_EXT_CMP action TC_ACT_JUMP
      then [print_num 10 (Z.land action TC_ACT_EXT_VAL_MASK)] else []).
