(* ===== verification/TcUtilTheorems.v ===== *)
(** * What tc prints, tc reads

    Identifiers, rates and actions survive being printed and read back. *)

From Stdlib Require Import ZArith Lia Strings.String Strings.Ascii Floats.SpecFloat.
From stdpp Require Import base numbers list option.
From S2P Require Import Prelude Sched TcCore Float TcUtil.

Open Scope Z_scope.

(** ** Numbers *)

Lemma digit_val_char b d : 0 ≤ d < b → b ≤ 16 → digit_val b (digit_char d) = Some d.
Proof.
  intros Hd Hb. unfold digit_val, digit_char. destruct (Z.ltb_spec d 10).
  - rewrite (proj2 (Z.leb_le 48 _)), (proj2 (Z.leb_le _ 57)) by lia. cbn [andb].
    replace (48 + d - 48) with d by lia. by rewrite (proj2 (Z.ltb_lt d b)) by lia.
  - rewrite (proj2 (Z.leb_gt (87 + d) 57)), andb_false_r by lia.
    rewrite (proj2 (Z.leb_le 97 _)), (proj2 (Z.leb_le _ 122)) by lia. cbn [andb].
    replace (87 + d - 87) with d by lia. by rewrite (proj2 (Z.ltb_lt d b)) by lia.
Qed.

Lemma parse_print fuel b : 2 ≤ b ≤ 16 → ∀ n rest acc, 0 ≤ n < b ^ Z.of_nat fuel →
  ∃ k, 0 ≤ k ∧ parse_digits b (to_digits fuel b n ++ rest) acc = parse_digits b rest (acc * b ^ k + n).
Proof.
  intros Hb. induction fuel as [|fuel IH]; intros n rest acc Hn.
  { change (b ^ Z.of_nat 0) with 1 in Hn. assert (n = 0) as -> by lia. exists 0. cbn [to_digits app].
    by rewrite Z.mul_1_r, Z.add_0_r. }
  cbn [to_digits]. destruct (Z.ltb_spec n b) as [Hlt|Hge].
  - exists 1. cbn [app parse_digits]. rewrite digit_val_char by lia. by rewrite Z.pow_1_r.
  - rewrite Nat2Z.inj_succ, Z.pow_succ_r in Hn by lia.
    pose proof (Z.div_mod n b ltac:(lia)). pose proof (Z.mod_pos_bound n b ltac:(lia)).
    destruct (IH (n / b) ([digit_char (n mod b)] ++ rest) acc) as (k & Hk0 & Hk).
    { split; [apply Z.div_pos; lia|]. apply Z.div_lt_upper_bound; lia. }
    exists (k + 1). split; [lia|]. rewrite <- app_assoc, Hk. cbn [app parse_digits]. rewrite digit_val_char by lia.
    f_equal. rewrite Z.pow_add_r, Z.pow_1_r by lia. lia.
Qed.

Lemma parse_stops b rest v : starts_digit b rest = false → parse_digits b rest v = (v, rest).
Proof.
  destruct rest as [|c rest]; [done|]. cbn [starts_digit parse_digits].
  by destruct (digit_val b c).
Qed.

(** The first digit; it is 0 only for 0. *)
Lemma to_digits_first fuel b : 2 ≤ b ≤ 16 → ∀ n, 0 ≤ n < b ^ Z.of_nat fuel → (0 < fuel)%nat →
  ∃ d l, to_digits fuel b n = digit_char d :: l ∧ 0 ≤ d < b ∧ (d = 0 → n = 0 ∧ l = []).
Proof.
  intros Hb. induction fuel as [|fuel IH]; intros n Hn Hf; [lia|]. cbn [to_digits].
  destruct (Z.ltb_spec n b) as [Hlt|Hge]; [by exists n, []; split_and!; [|lia|lia|]|].
  rewrite Nat2Z.inj_succ, Z.pow_succ_r in Hn by lia.
  assert (1 ≤ n / b) by (apply Z.div_le_lower_bound; lia).
  assert (0 < fuel)%nat as Hf' by (destruct fuel; [change (b ^ Z.of_nat 0) with 1 in Hn; lia|lia]).
  destruct (IH (n / b)) as (d & l & Hd & Hr & H0); [|done|].
  { split; [lia|]. apply Z.div_lt_upper_bound; lia. }
  exists d, (l ++ [digit_char (n mod b)]). rewrite Hd. split; [done|]. split; [done|]. intros Hd0. destruct (H0 Hd0). lia.
Qed.

Lemma print_num_range b n : 2 ≤ b → 0 ≤ n < 2 ^ 64 → 0 ≤ n < b ^ Z.of_nat 64.
Proof.
  intros Hb Hn. split; [lia|]. apply (Z.lt_le_trans _ (2 ^ 64)); [lia|]. apply Z.pow_le_mono_l. lia.
Qed.

(** What can follow a number. *)
Definition after_number (b : Z) (rest : list Z) : Prop :=
  starts_digit b rest = false ∧ match rest with c :: _ => tolower c ≠ chr "x" | [] => True end.

Lemma digit_char_plain d : 0 ≤ d < 16 →
  isspace (digit_char d) = false ∧ (digit_char d =? chr "-") = false ∧ (digit_char d =? chr "+") = false ∧
  (d ≠ 0 → (digit_char d =? chr "0") = false).
Proof.
  intros Hd. unfold digit_char, isspace. change (chr "-") with 45. change (chr "+") with 43. change (chr "0") with 48.
  destruct (d <? 10) eqn:E; [apply Z.ltb_lt in E|apply Z.ltb_ge in E]; repeat split; try lia; intros; lia.
Qed.

Lemma skip_prefix_print b n rest : b = 10 ∨ b = 16 → 0 ≤ n < 2 ^ 64 → after_number b rest →
  skip_prefix b (print_num b n ++ rest) = print_num b n ++ rest.
Proof.
  intros Hb Hn [_ Hx]. destruct (to_digits_first 64 b ltac:(lia) n (print_num_range b n ltac:(lia) Hn) ltac:(lia))
    as (d & l & Hd & Hr & H0). unfold print_num. rewrite Hd. cbn [app skip_prefix].
  destruct (l ++ rest) as [|x s'] eqn:Hl; [done|]. destruct (decide (d = 0)) as [->|Hne].
  - destruct (H0 eq_refl) as [_ ->]. cbn [app] in Hl. subst rest. apply Z.eqb_neq in Hx. rewrite Hx.
    by rewrite andb_false_r.
  - destruct (digit_char_plain d ltac:(lia)) as (_ & _ & _ & Hz). rewrite Hz by done. by rewrite andb_false_r.
Qed.

Lemma print_num_plain b n rest : 2 ≤ b ≤ 16 → 0 ≤ n < 2 ^ 64 →
  skip_space (print_num b n ++ rest) = print_num b n ++ rest ∧
  parse_sign (print_num b n ++ rest) = (false, print_num b n ++ rest) ∧
  starts_digit b (print_num b n ++ rest) = true.
Proof.
  intros Hb Hn. destruct (to_digits_first 64 b ltac:(lia) n (print_num_range b n ltac:(lia) Hn) ltac:(lia))
    as (d & l & Hd & Hr & _).
  destruct (digit_char_plain d ltac:(lia)) as (H1 & H2 & H3 & _). unfold print_num. rewrite Hd.
  cbn [app skip_space parse_sign starts_digit]. rewrite H1, H2, H3, digit_val_char by lia. done.
Qed.

Lemma parse_print_num b n rest : 2 ≤ b ≤ 16 → 0 ≤ n < 2 ^ 64 → starts_digit b rest = false →
  parse_digits b (print_num b n ++ rest) 0 = (n, rest).
Proof.
  intros Hb Hn Hrest. destruct (parse_print 64 b ltac:(lia) n rest 0 (print_num_range b n ltac:(lia) Hn)) as (k & _ & Hk).
  unfold print_num. by rewrite Hk, parse_stops.
Qed.

(** Reading a number that was printed. *)
Lemma strtoul_print b n rest : b = 10 ∨ b = 16 → 0 ≤ n < 2 ^ 64 → after_number b rest →
  strtoul b (print_num b n ++ rest) = Some (n, false, rest).
Proof.
  intros Hb Hn Hrest. destruct (print_num_plain b n rest ltac:(lia) Hn) as (H1 & H2 & H3).
  unfold strtoul. rewrite H1, H2, skip_prefix_print, H3, parse_print_num by (done || lia || apply Hrest).
  unfold ULONG_MAX. by rewrite (proj2 (Z.ltb_ge _ _)) by lia.
Qed.

Lemma to_digits_short fuel b : 2 ≤ b → ∀ k n, (0 < k)%nat → 0 ≤ n < b ^ Z.of_nat k →
  (length (to_digits fuel b n) ≤ k)%nat.
Proof.
  intros Hb. induction fuel as [|fuel IH]; intros k n Hk Hn; cbn [to_digits]; [simpl; lia|].
  destruct (Z.ltb_spec n b) as [Hlt|Hge]; [simpl; lia|]. rewrite length_app. simpl.
  destruct k as [|[|k]]; [lia|change (b ^ Z.of_nat 1) with (b ^ 1) in Hn; rewrite Z.pow_1_r in Hn; lia|].
  rewrite Nat2Z.inj_succ, Z.pow_succ_r in Hn by lia.
  specialize (IH (S k) (n / b) ltac:(lia)).
  assert (0 ≤ n / b < b ^ Z.of_nat (S k)) as Hd.
  { split; [apply Z.div_pos; lia|]. apply Z.div_lt_upper_bound; lia. }
  specialize (IH Hd). lia.
Qed.

Lemma snprintf_fits len out : Z.of_nat (length out) < len → snprintf len out = out.
Proof. intros Hl. unfold snprintf. apply take_ge. lia. Qed.

(** ** Class identifiers *)

Lemma classid_parts h : 0 ≤ h < 2 ^ 32 →
  TC_H_MIN h = h mod 2 ^ 16 ∧ Z.shiftr (TC_H_MAJ h) 16 = h / 2 ^ 16.
Proof.
  intros Hh. assert (0 ≤ h / 2 ^ 16 < 2 ^ 16) as Hq.
  { split; [apply Z.div_pos; lia|]. apply Z.div_lt_upper_bound; lia. }
  assert (TC_H_MIN h = h mod 2 ^ 16) as Hmin by (apply (Z.land_ones h 16); lia).
  split; [done|]. unfold TC_H_MAJ. rewrite Z.shiftr_land. change (Z.shiftr 4294901760 16) with (Z.ones 16).
  rewrite Z.land_ones, Z.shiftr_div_pow2 by lia. apply Z.mod_small. lia.
Qed.

(** A printed number, or a colon, at the start. *)
Definition numeric (s : list Z) : Prop :=
  ∃ c s', s = c :: s' ∧ (c = chr ":" ∨ ∃ d, 0 ≤ d < 16 ∧ c = digit_char d).

Lemma numeric_print n s : 0 ≤ n < 2 ^ 64 → numeric (print_num 16 n ++ s).
Proof.
  intros Hn. destruct (to_digits_first 64 16 ltac:(lia) n (print_num_range 16 n ltac:(lia) Hn) ltac:(lia))
    as (d & l & Hd & Hr & _). unfold print_num. rewrite Hd. eexists _, _. split; [done|]. right. by exists d.
Qed.

Lemma numeric_not_word s w c s' : numeric s → w = c :: s' → 103 ≤ c → streq s w = false.
Proof.
  intros (c' & s'' & -> & Hc) -> Hw. unfold streq. apply bool_decide_eq_false. intros [= -> ->].
  change (chr ":") with 58 in Hc. unfold digit_char in Hc. destruct Hc as [|(d & Hd & ->)]; [lia|].
  destruct (d <? 10) eqn:E; [apply Z.ltb_lt in E; lia|lia].
Qed.

Lemma classid_rest maj min : 0 ≤ maj < 2 ^ 16 → 0 ≤ min < 2 ^ 16 →
  get_classid_rest maj (str ":" ++ print_num 16 min) = Some (maj * 2 ^ 16 + min).
Proof.
  intros Hmaj Hmin. cbn [str app get_classid_rest]. change (Z.of_N _ =? chr ":") with true. cbv iota.
  rewrite (proj2 (Z.leb_gt _ maj)) by lia. rewrite <- (app_nil_r (print_num 16 min)).
  rewrite strtoul_print by (done || lia || by right). rewrite u32_small by lia.
  rewrite (proj2 (Z.leb_gt _ min)) by lia. f_equal. rewrite Z.shiftl_mul_pow2 by lia. rewrite u32_small by lia.
  assert (Z.land (maj * 2 ^ 16) min = 0) as Hdisj.
  { apply Z.bits_inj_0. intros i. rewrite Z.land_spec. destruct (Z.ltb_spec i 16).
    - by rewrite Z.mul_pow2_bits_low by lia.
    - rewrite (Z.bits_above_log2 min i), andb_false_r; [done|lia|].
      destruct (decide (min = 0)) as [->|]; [simpl; lia|]. assert (Z.log2 min < 16) by (apply Z.log2_lt_pow2; lia). lia. }
  pose proof (Z.add_lor_land (maj * 2 ^ 16) min). lia.
Qed.

Lemma classid_rest_major maj : 0 ≤ maj < 2 ^ 16 → get_classid_rest maj (str ":") = Some (maj * 2 ^ 16).
Proof.
  intros Hmaj. cbn [str get_classid_rest]. change (Z.of_N _ =? chr ":") with true. cbv iota.
  rewrite (proj2 (Z.leb_gt _ maj)) by lia. cbn. rewrite Z.lor_0_r. f_equal.
  rewrite Z.shiftl_mul_pow2 by lia. by rewrite u32_small by lia.
Qed.

Lemma strtoul_colon s : strtoul 16 (str ":" ++ s) = None.
Proof. by destruct s. Qed.

Lemma snprintf_twice blen s : (length s ≤ 9)%nat → 10 < blen → snprintf blen (snprintf 63 s) = s.
Proof. intros Hs Hb. by rewrite (snprintf_fits 63), snprintf_fits by lia. Qed.

(** Every class identifier survives being printed and read: for all [2 ^ 32]
    values [get_tc_classid] of what [print_tc_classid] printed (without names)
    is the value. *)
Theorem classid_roundtrip blen h : 0 ≤ h < 2 ^ 32 → 10 < blen →
  get_tc_classid (print_tc_classid None blen h) = Some h.
Proof.
  intros Hh Hb. destruct (classid_parts h Hh) as (Hmin & Hmaj).
  assert (0 ≤ h / 2 ^ 16 < 2 ^ 16) as Hq.
  { split; [apply Z.div_pos; lia|]. apply Z.div_lt_upper_bound; lia. }
  pose proof (Z.mod_pos_bound h (2 ^ 16) ltac:(lia)) as Hr. pose proof (Z.div_mod h (2 ^ 16) ltac:(lia)) as Hdm.
  pose proof (to_digits_short 64 16 ltac:(lia) 4 (h / 2 ^ 16) ltac:(lia) Hq : (length (print_num 16 _) ≤ 4)%nat) as L1.
  pose proof (to_digits_short 64 16 ltac:(lia) 4 (h mod 2 ^ 16) ltac:(lia) Hr : (length (print_num 16 _) ≤ 4)%nat) as L2.
  unfold print_tc_classid. destruct (Z.eqb_spec h TC_H_ROOT) as [->|Hroot]; [by rewrite snprintf_fits by (change (length (str "root")) with 4%nat; lia)|].
  destruct (Z.eqb_spec h TC_H_UNSPEC) as [->|Hunspec].
  { rewrite snprintf_twice; [done|simpl; lia|done]. }
  rewrite Hmin, Hmaj.
  destruct (Z.eqb_spec (TC_H_MAJ h) 0) as [H0|H0]; [|destruct (Z.eqb_spec (h mod 2 ^ 16) 0) as [H1|H1]].
  - rewrite snprintf_twice by (rewrite ?length_app; change (length (str ":")) with 1%nat; lia).
    assert (h / 2 ^ 16 = 0) as Hz by (by rewrite <- Hmaj, H0). unfold get_tc_classid.
    assert (numeric (str ":" ++ print_num 16 (h mod 2 ^ 16))) as Hn by (eexists _, _; split; [done|by left]).
    rewrite (numeric_not_word _ (str "root") 114 (str "oot")), (numeric_not_word _ (str "none") 110 (str "one")) by (done || lia).
    pose proof (classid_rest 0 (h mod 2 ^ 16) ltac:(lia) Hr) as Hc.
    rewrite strtoul_colon. cbn [str app] in *. change (Z.of_N _ =? chr ":") with true. cbv iota.
    rewrite Hc. f_equal. lia.
  - rewrite snprintf_twice by (rewrite ?length_app; change (length (str ":")) with 1%nat; lia). unfold get_tc_classid.
    pose proof (numeric_print (h / 2 ^ 16) (str ":") ltac:(lia)) as Hn.
    rewrite (numeric_not_word _ (str "root") 114 (str "oot")), (numeric_not_word _ (str "none") 110 (str "one")) by (done || lia).
    pose proof (strtoul_print 16 (h / 2 ^ 16) (str ":") ltac:(by right) ltac:(lia) ltac:(done)) as ->.
    rewrite u32_small, classid_rest_major by lia. f_equal. lia.
  - rewrite snprintf_twice by (rewrite ?length_app; change (length (str ":")) with 1%nat; lia). unfold get_tc_classid.
    pose proof (numeric_print (h / 2 ^ 16) (str ":" ++ print_num 16 (h mod 2 ^ 16)) ltac:(lia)) as Hn.
    rewrite (numeric_not_word _ (str "root") 114 (str "oot")), (numeric_not_word _ (str "none") 110 (str "one")) by (done || lia).
    pose proof (strtoul_print 16 (h / 2 ^ 16) (str ":" ++ print_num 16 (h mod 2 ^ 16)) ltac:(by right) ltac:(lia) ltac:(done)) as Hs.
    rewrite Hs. rewrite u32_small by lia.
    pose proof (classid_rest (h / 2 ^ 16) (h mod 2 ^ 16) Hq Hr) as Hc. rewrite Hc. f_equal. lia.
Qed.

(** ** Rates *)

(** The loop of [print_rate] divides exactly, or loses less than a
    thousandth. *)
Lemma scale_rate_spec kilo R n : 2 ≤ kilo → 0 ≤ R → ∀ rate i, 0 ≤ i → rate = R / kilo ^ i →
  1000 * (R - rate * kilo ^ i) ≤ R → (R < 1000 * kilo → rate * kilo ^ i = R) →
  let '(q, j) := scale_rate n kilo rate i in
  i ≤ j ≤ i + Z.of_nat n ∧ q = R / kilo ^ j ∧ 1000 * (R - q * kilo ^ j) ≤ R ∧
  (R < 1000 * kilo → q * kilo ^ j = R).
Proof.
  intros Hk HR. induction n as [|n IH]; intros rate i Hi Hrate Herr Hex; cbn [scale_rate]; [split_and!; done || lia|].
  destruct (Z.ltb_spec rate kilo); [split_and!; done || lia|].
  destruct (negb (rate mod kilo =? 0) && (rate <? 1000 * kilo)) eqn:Hstop; [split_and!; done || lia|].
  assert (0 < kilo ^ i) as Hpos by (apply Z.pow_pos_nonneg; lia).
  assert (kilo ^ (i + 1) = kilo ^ i * kilo) as Hpow by (rewrite Z.pow_add_r, Z.pow_1_r by lia; done).
  assert (rate / kilo = R / kilo ^ (i + 1)) as Hq by (rewrite Hpow, Hrate, Z.div_div by lia; done).
  pose proof (Z.div_mod rate kilo ltac:(lia)) as Hdm. pose proof (Z.mod_pos_bound rate kilo ltac:(lia)).
  assert (rate * kilo ^ i ≤ R) by (rewrite Hrate, Z.mul_comm; apply Z.mul_div_le; lia).
  specialize (IH (rate / kilo) (i + 1) ltac:(lia) Hq).
  destruct (Z.eqb_spec (rate mod kilo) 0) as [Hm|Hm].
  - assert (rate / kilo * kilo ^ (i + 1) = rate * kilo ^ i) as Heq by (rewrite Hpow; nia).
    rewrite Heq in IH. specialize (IH Herr Hex). destruct (scale_rate _ _ _ _). split_and!; (apply IH || lia).
  - cbn [negb andb] in Hstop. apply Z.ltb_ge in Hstop.
    pose proof (Z.div_mod R (kilo ^ (i + 1)) ltac:(lia)). pose proof (Z.mod_pos_bound R (kilo ^ (i + 1)) ltac:(lia)).
    assert (1000 * kilo ^ (i + 1) ≤ R) by nia.
    specialize (IH ltac:(nia) ltac:(nia)). destruct (scale_rate _ _ _ _). split_and!; (apply IH || lia).
Qed.

Lemma to_unsigned_exact f v e bits : double_is f v e → 0 < v → e ≤ 0 → v / 2 ^ (- e) < 2 ^ bits →
  to_unsigned bits f = Some (v / 2 ^ (- e)).
Proof.
  intros Hf Hv He Hb. unfold to_unsigned. rewrite (trunc_exact f v e) by done.
  assert (0 ≤ v / 2 ^ (- e)) by (apply Z.div_pos; [lia|apply Z.pow_pos_nonneg; lia]).
  by rewrite (proj2 (Z.leb_le 0 _)), (proj2 (Z.ltb_lt _ (2 ^ bits))) by lia.
Qed.

Lemma print_double0_int q : 0 ≤ q < 2 ^ 53 → print_double0 (of_int q) = print_num 10 q.
Proof.
  intros Hq. unfold print_double0. destruct (decide (q = 0)) as [->|Hne]; [done|].
  rewrite (trunc_exact (of_int q) q 0) by (apply of_int_exact || lia; lia). by rewrite Z.div_1_r.
Qed.

(** Bits to bytes. *)
Lemma bits_to_bytes q scale : 0 ≤ q → 0 < scale < 2 ^ 53 → q * scale < 2 ^ 53 →
  to_unsigned 64 (fdiv (fmul (of_int q) (of_int scale)) (of_int 8)) = Some (q * scale / 8).
Proof.
  intros Hq Hs Hqs. destruct (decide (q = 0)) as [->|Hne].
  { destruct (of_int_exact scale Hs) as (m & n & -> & _). reflexivity. }
  assert (double_is (of_int 8) 1 3) as H8 by (by exists (2 ^ 52)%positive, 52).
  assert (double_is (fmul (of_int q) (of_int scale)) (q * scale) (0 + 0)) as Hm
    by (apply fmul_exact; [apply of_int_exact; nia|by apply of_int_exact|lia..]).
  apply (to_unsigned_exact _ (q * scale) (0 + 0 - 3)); [apply fdiv_exact; try done; nia|nia|lia|].
  change (2 ^ - (0 + 0 - 3)) with 8. apply Z.div_lt_upper_bound; lia.
Qed.

Section rate_roundtrip.
Context `{HS : Strtod} `{!StrtodOk}.

Lemma read_units q i : 0 ≤ q < 2 ^ 53 → 0 ≤ i ≤ 4 → q * 1000 ^ i < 2 ^ 53 →
  get_rate64 (print_num 10 q ++ units i ++ str "bit") = Some (Some (q * 1000 ^ i / 8)).
Proof.
  intros Hq Hi Hqs. unfold get_rate64, get_bps.
  assert (ends_number (units i ++ str "bit") = true ∧ find_suffix suffixes (units i ++ str "bit") = Some (1000 ^ i)) as [He Hf].
  { assert (i = 0 ∨ i = 1 ∨ i = 2 ∨ i = 3 ∨ i = 4) as [->|[->|[->|[->| ->]]]] by lia; by split. }
  rewrite strtod_int by done. rewrite Hf. rewrite bits_to_bytes; [done|lia| |done].
  assert (i = 0 ∨ i = 1 ∨ i = 2 ∨ i = 3 ∨ i = 4) as [->|[->|[->|[->| ->]]]] by lia; lia.
Qed.

End rate_roundtrip.

(** ** Actions *)

Lemma matches_first c s p ps : c ≠ p → matches (c :: s) (p :: ps) = false.
Proof.
  intros Hc. unfold matches. destruct (_ <? _)%nat; [done|]. unfold streq. apply bool_decide_eq_false.
  cbn [take length]. by intros [= -> _].
Qed.

(** A number is not the name of an action. *)
Lemma find_action_number c s : c < 97 → find_action a2n (c :: s) = None.
Proof. intros Hc. cbn [find_action a2n str]. by rewrite !matches_first by (cbn; lia). Qed.

Lemma scan_int_print n : - 2 ^ 31 ≤ n < 2 ^ 31 → scan_int (print_int n) = Some (Some n).
Proof.
  intros Hn. unfold scan_int, print_int. destruct (Z.ltb_spec n 0) as [Hneg|Hpos].
  - destruct (print_num_plain 10 (- n) [] ltac:(lia) ltac:(lia)) as (_ & _ & H3). rewrite app_nil_r in H3.
    change (skip_space (chr "-" :: print_num 10 (- n))) with (chr "-" :: print_num 10 (- n)).
    change (parse_sign (chr "-" :: print_num 10 (- n))) with (true, print_num 10 (- n)). cbv iota beta. rewrite H3.
    pose proof (parse_print_num 10 (- n) [] ltac:(lia) ltac:(lia) eq_refl) as Hp. rewrite app_nil_r in Hp. rewrite Hp.
    rewrite Z.opp_involutive. by rewrite (proj2 (Z.ltb_ge n _)), (proj2 (Z.leb_gt _ n)) by lia.
  - destruct (print_num_plain 10 n [] ltac:(lia) ltac:(lia)) as (H1 & H2 & H3). rewrite app_nil_r in *.
    rewrite H1, H2, H3. pose proof (parse_print_num 10 n [] ltac:(lia) ltac:(lia) eq_refl) as Hp. rewrite app_nil_r in Hp.
    rewrite Hp. by rewrite (proj2 (Z.ltb_ge n _)), (proj2 (Z.leb_gt _ n)) by lia.
Qed.

Lemma action_a2n_number n : - 2 ^ 31 ≤ n < 2 ^ 31 → action_a2n (snprintf 64 (print_int n)) true = Some (Some n).
Proof.
  intros Hn. assert (length (print_int n) ≤ 12)%nat as Hl.
  { unfold print_int, print_num. destruct (n <? 0) eqn:E; [apply Z.ltb_lt in E|apply Z.ltb_ge in E]; cbn [length].
    - pose proof (to_digits_short 64 10 ltac:(lia) 11 (- n) ltac:(lia) ltac:(change (10 ^ Z.of_nat 11) with (10 ^ 11); lia)). lia.
    - pose proof (to_digits_short 64 10 ltac:(lia) 11 n ltac:(lia) ltac:(change (10 ^ Z.of_nat 11) with (10 ^ 11); lia)). lia. }
  rewrite snprintf_fits by lia. unfold action_a2n.
  assert (find_action a2n (print_int n) = None) as ->; [|by apply scan_int_print].
  unfold print_int. destruct (n <? 0) eqn:E; [apply Z.ltb_lt in E; by apply find_action_number|apply Z.ltb_ge in E].
  destruct (to_digits_first 64 10 ltac:(lia) n (print_num_range 10 n ltac:(lia) ltac:(lia)) ltac:(lia)) as (d & l & Hd & Hr & _).
  unfold print_num. rewrite Hd. apply find_action_number. unfold digit_char. rewrite (proj2 (Z.ltb_lt d 10)) by lia. lia.
Qed.

Lemma ext_parts action opcode : TC_ACT_EXT_CMP action opcode = true →
  Z.lor opcode (Z.land action TC_ACT_EXT_VAL_MASK) = action ∧ 0 ≤ Z.land action TC_ACT_EXT_VAL_MASK < 2 ^ 28.
Proof.
  unfold TC_ACT_EXT_CMP. intros H%Z.eqb_eq. rewrite <- H. split.
  - apply Z.bits_inj'. intros i Hi. rewrite Z.lor_spec, !Z.land_spec, Z.lnot_spec by done.
    destruct (Z.testbit action i), (Z.testbit TC_ACT_EXT_VAL_MASK i); done.
  - change TC_ACT_EXT_VAL_MASK with (Z.ones 28). rewrite Z.land_ones by lia. apply Z.mod_pos_bound. lia.
Qed.

Lemma get_u32_print v : 0 ≤ v < 2 ^ 32 → get_u32 10 (print_num 10 v) = Some v.
Proof.
  intros Hv. unfold get_u32. pose proof (strtoul_print 10 v [] ltac:(by left) ltac:(lia) ltac:(done)) as Hs.
  rewrite app_nil_r in Hs. rewrite Hs. by rewrite (proj2 (Z.ltb_ge _ _)) by lia.
Qed.

(** Every action but one survives being printed and read: what
    [print_action_control] prints, [parse_action_control] takes back to the
    same number, the chain or the count of a jump included, and leaves the
    arguments that follow.  The exception is [TC_ACT_STOLEN]. *)
Theorem action_roundtrip action rest : - 2 ^ 31 ≤ action < 2 ^ 31 → action ≠ TC_ACT_STOLEN →
  parse_action_control (print_action_control action ++ rest) true = POk action rest.
Proof.
  intros Ha Hst. unfold parse_action_control, print_action_control, action_n2a.
  destruct (TC_ACT_EXT_CMP action TC_ACT_GOTO_CHAIN) eqn:Hg; [|destruct (TC_ACT_EXT_CMP action TC_ACT_JUMP) eqn:Hj].
  - destruct (ext_parts _ _ Hg) as [Hor Hv].
    assert (TC_ACT_EXT_CMP action TC_ACT_JUMP = false) as ->
      by (unfold TC_ACT_EXT_CMP in *; apply Z.eqb_eq in Hg; by rewrite Hg).
    revert Hor Hv. generalize (Z.land action TC_ACT_EXT_VAL_MASK) as v. intros v Hor Hv.
    cbn [app __parse_action_control]. assert (action_a2n (str "goto") true = Some (Some TC_ACT_GOTO_CHAIN)) as -> by done.
    change (TC_ACT_GOTO_CHAIN =? TC_ACT_GOTO_CHAIN) with true. cbn [NEXT_ARG tl].
    change (matches (str "chain") (str "chain")) with true. cbv iota. rewrite get_u32_print by lia.
    rewrite (proj2 (Z.ltb_ge _ v)) by (unfold TC_ACT_EXT_VAL_MASK; lia). by rewrite Hor.
  - destruct (ext_parts _ _ Hj) as [Hor Hv].
    revert Hor Hv. generalize (Z.land action TC_ACT_EXT_VAL_MASK) as v. intros v Hor Hv.
    cbn [app __parse_action_control]. assert (action_a2n (str "jump") true = Some (Some TC_ACT_JUMP)) as -> by done.
    change (TC_ACT_JUMP =? TC_ACT_GOTO_CHAIN) with false. change (TC_ACT_JUMP =? TC_ACT_JUMP) with true.
    cbn [NEXT_ARG tl]. rewrite get_u32_print by lia.
    rewrite (proj2 (Z.ltb_ge _ v)) by (unfold TC_ACT_EXT_VAL_MASK; lia). by rewrite Hor.
  - assert (action ≠ TC_ACT_GOTO_CHAIN) as Hng by (by intros ->).
    assert (action ≠ TC_ACT_JUMP) as Hnj by (by intros ->).
    repeat match goal with
      | |- context [action =? ?k] => destruct (Z.eqb_spec action k) as [->|?]; [done || by destruct Hst|]
      end.
    cbn [app __parse_action_control]. rewrite action_a2n_number by done.
    by rewrite (proj2 (Z.eqb_neq _ _) Hng), (proj2 (Z.eqb_neq _ _) Hnj).
Qed.

(** ** Examples *)

(** [strtod] on numbers without a point or an exponent. *)
#[local] Instance sample_strtod : Strtod :=
  λ s, if starts_digit 10 s then let '(v, rest) := parse_digits 10 s 0 in Some (of_int v, rest) else None.

#[local] Instance sample_strtod_ok : StrtodOk.
Proof.
  intros n s Hn Hs. unfold strtod, sample_strtod.
  destruct (print_num_plain 10 n s ltac:(lia) ltac:(lia)) as (_ & _ & H3). rewrite H3.
  rewrite parse_print_num; [done|lia|lia|]. destruct s as [|c s]; [done|]. unfold ends_number in Hs.
  cbn [starts_digit]. unfold digit_val. apply bool_decide_eq_false. intros [d Hd].
  destruct ((48 <=? c) && (c <=? 57)); [by rewrite orb_true_r in Hs|].
  destruct ((97 <=? c) && (c <=? 122)) eqn:E1.
  { apply andb_prop in E1 as [?%Z.leb_le ?%Z.leb_le]. by rewrite (proj2 (Z.ltb_ge (c - 87) 10)) in Hd by lia. }
  destruct ((65 <=? c) && (c <=? 90)) eqn:E2; [|done].
  apply andb_prop in E2 as [?%Z.leb_le ?%Z.leb_le]. by rewrite (proj2 (Z.ltb_ge (c - 55) 10)) in Hd by lia.
Defined.

Lemma classid_roundtrip_witness :
  print_tc_classid None 63 65538 = str "1:2" ∧ get_tc_classid (print_tc_classid None 63 65538) = Some 65538.
Proof. split; [done|]. apply (classid_roundtrip 63 65538); lia. Defined.


Lemma action_roundtrip_witness :
  print_action_control (2 * 2 ^ 28 + 5) = [str "goto"; str "chain"; str "5"] ∧
  parse_action_control (print_action_control (2 * 2 ^ 28 + 5) ++ [str "/"]) true = POk (2 * 2 ^ 28 + 5) [str "/"].
Proof. split; [done|]. apply (action_roundtrip (2 * 2 ^ 28 + 5) [str "/"]); [lia|done]. Defined.

(** ** What is not read back *)

(** The value of [strtoul] is cut to 32 bits before it is checked: a major
    number that does not fit is accepted. *)
Theorem classid_truncates :
  get_tc_classid (str "100000001:2") = Some 65538 ∧ get_qdisc_handle (str "100000001:") = Some 65536.
Proof. by split. Qed.

(** With binary units, a rate that is not a multiple of 1024 bit/s and below
    1000 Kibit/s is printed with the unit "ibit", which is not in the
    table. *)
Theorem iec_rate_unreadable :
  print_rate true 63 1000 = str "8000ibit" ∧ get_rate64 (print_rate true 63 1000) = Some None.
Proof. by split. Qed.

Theorem stolen_unreadable :
  action_n2a TC_ACT_STOLEN = str "stolen" ∧ parse_action_control [str "stolen"] true = PError.
Proof. by split. Qed.

(** After both actions of "drop / pass", what follows is taken for a third
    one: an option there is an error, another action makes the second result
    disappear.  Without spaces neither happens. *)
Theorem slash_takes_third :
  parse_action_control_slash (map str ["drop"; "/"; "pass"]%string) false = POk (TC_ACT_SHOT, Some TC_ACT_OK) [] ∧
  parse_action_control_slash (map str ["drop"; "/"; "pass"; "burst"]%string) false = PError ∧
  parse_action_control_slash (map str ["drop"; "/"; "pass"; "pipe"]%string) false = POk (TC_ACT_SHOT, None) [] ∧
  parse_action_control_slash (map str ["drop/pass"; "burst"]%string) false
    = POk (TC_ACT_SHOT, Some TC_ACT_OK) [str "burst"].
Proof. by split_and!. Qed.
