(* ===== verification/Rtnl.v ===== *)
(** * Talking to rtnetlink (src/tbf/libnetlink.c: __rtnl_talk_iov, rtnl_talk)

    Requests get the next sequence numbers and are sent together; the answers
    are the datagrams the socket delivers, an argument here.  What the
    functions print is left out.  Only the replies are read: a read beyond
    the bytes received is undefined behaviour ([None]). *)

From Stdlib Require Import ZArith Lia.
From stdpp Require Import base numbers list gmap option.
From S2P Require Import Prelude Netlink NetlinkTheorems.

Open Scope Z_scope.

(** ** Data *)

(** A datagram as [recvmsg] hands it over: its bytes, the [nl_pid] of the
    sender, whether the address has the right length, and [MSG_TRUNC]. *)
Record dgram := Dgram { dg_bytes : list Z; dg_pid : Z; dg_addr_ok : bool; dg_trunc : bool }.

(** [inl]: what a failing [rtnl_recvmsg] returns, negative. *)
Abbreviation received := (list (Z + dgram)).

(** How a call ends: it returns, with the datagram [*answer] points to if the
    caller wants one; the program exits; or it waits for a datagram. *)
Inductive talk_result := Returns (ret : Z) (answer : option (list Z)) | Exits (code : Z) | Waits.

(** How the loop over one datagram ends: at its end with what is left of
    [status], with the function's result, or with [goto next] after an
    acknowledgement. *)
Inductive scan_result := Scanned (status : Z) | Final (r : talk_result) | NextDgram.

Definition NLMSG_ERROR : Z := 2.

Definition NLM_F_ACK : Z := 4.

(** Fields of [struct nlmsghdr] at [h], and [err->error]. *)
Definition h_len (h : Z) : M (list Z) Z := get32 h.

Definition h_type (h : Z) : M (list Z) Z := get16 (h + 4).

Definition h_seq (h : Z) : M (list Z) Z := get32 (h + 8).

Definition h_pid (h : Z) : M (list Z) Z := get32 (h + 12).

Definition h_error (h : Z) : M (list Z) Z := let* e := get32 (h + 16) in cret (s32 e).

(** ** Code *)

Section talk.
(** [iovlen], [seq] after the requests were numbered, [rtnl->local.nl_pid],
    and whether [answer] is not null. *)
Variables (iovlen seq pid : Z) (answer : bool).

(** Whether a message is not an answer to the requests; [seq - iovlen] is
    computed in 64 bits. *)
Definition foreign (dg : dgram) (hpid hseq : Z) : bool :=
  negb (dg_pid dg =? 0) || negb (hpid =? pid) || (seq <? hseq) || (hseq <? u64 (seq - iovlen)).

(** What [*answer] points to once a datagram with an answer was read. *)
Definition answered (dg : dgram) : option (list Z) := if answer then Some (dg_bytes dg) else None.

(** The [for] loop; [status >= sizeof( *h)] compares as [size_t].  [ans] is
    what [*answer] points to, [i] the number of datagrams read. *)
Fixpoint scan (fuel : nat) (ans : option (list Z)) (i : Z) (dg : dgram) (h status : Z)
    : M (list Z) scan_result :=
  match fuel with
  | O => cfail
  | S fuel =>
      if 16 <=? u64 status then
        let* ulen := h_len h in
        let len := s32 ulen in
        let l := s32 (len - 16) in
        if (l <? 0) || (status <? len) then
          cret (Final (if dg_trunc dg then Returns (-1) ans else Exits 1))
        else
          let* hpid := h_pid h in
          let* hseq := h_seq h in
          let next := scan fuel ans i dg (h + NLMSG_ALIGN len) (s32 (status - NLMSG_ALIGN len)) in
          if foreign dg hpid hseq then next
          else
            let* t := h_type h in
            if t =? NLMSG_ERROR then
              let* error := h_error h in
              if l <? 20 then cret (Final (Returns (-1) ans))
              else if i <? iovlen then cret NextDgram
              else cret (Final (Returns (if error =? 0 then 0 else - i) (answered dg)))
            else if answer then cret (Final (Returns 0 (Some (dg_bytes dg))))
            else next
      else cret (Scanned status)
  end.

(** One iteration for each four bytes at least. *)
Definition scan_dgram (ans : option (list Z)) (i : Z) (dg : dgram) : option scan_result :=
  let n := length (dg_bytes dg) in
  match scan (S (S n)) ans i dg 0 (Z.of_nat n) (dg_bytes dg) with
  | Some (r, _) => Some r
  | None => None
  end.

(** The [while (1)] loop; [i] counts the datagrams. *)
Fixpoint talk_loop (ans : option (list Z)) (i : Z) (dgs : received) : option talk_result :=
  match dgs with
  | [] => Some Waits
  | inl status :: _ => Some (Returns status ans)
  | inr dg :: dgs =>
      let i := i + 1 in
      if negb (dg_addr_ok dg) then Some (Exits 1)
      else
        match scan_dgram ans i dg with
        | None => None
        | Some (Final r) => Some r
        | Some NextDgram => talk_loop (answered dg) i dgs
        | Some (Scanned status) =>
            if dg_trunc dg then talk_loop ans i dgs
            else if negb (status =? 0) then Some (Exits 1)
            else talk_loop ans i dgs
        end
  end.
End talk.

(** The handle: [seq], [local.nl_pid], [dump], [proto] and [flags]. *)
Record rtnl_handle := Rtnl {
  rtnl_seq : Z;    (* __u32 *)
  rtnl_pid : Z;    (* __u32 *)
  rtnl_dump : Z;   (* __u32 *)
  rtnl_proto : Z;
  rtnl_flags : Z;
}.

Definition set_seq (seq : Z) (rth : rtnl_handle) : rtnl_handle :=
  Rtnl seq (rtnl_pid rth) (rtnl_dump rth) (rtnl_proto rth) (rtnl_flags rth).

(** [nlmsg_seq] and the flags of one request. *)
Definition number_request (seq : Z) (answer : bool) : M (list Z) unit :=
  nl_write 8 (le 4 seq) ;;;
  (if answer then cret tt
   else let* flags := get16 6 in nl_write 6 (le 2 (Z.lor flags NLM_F_ACK))).

(** The first loop: the requests are numbered one after the other; [seq] is the
    number of the last. *)
Fixpoint number_all (answer : bool) (seq : Z) (rth : rtnl_handle) (iov : list (list Z))
    : option (Z * rtnl_handle * list (list Z)) :=
  match iov with
  | [] => Some (seq, rth, [])
  | req :: iov =>
      let seq := u32 (rtnl_seq rth + 1) in
      match number_request seq answer req with
      | Some (_, req) =>
          match number_all answer seq (set_seq seq rth) iov with
          | Some (seq, rth, iov) => Some (seq, rth, req :: iov)
          | None => None
          end
      | None => None
      end
  end.

(** [send_ok]: whether [sendmsg] succeeds.  The result comes with the handle
    and the requests as they were sent. *)
Definition __rtnl_talk_iov (send_ok answer : bool) (dgs : received) (rth : rtnl_handle)
    (iov : list (list Z)) : option (talk_result * rtnl_handle * list (list Z)) :=
  match number_all answer 0 rth iov with
  | Some (seq, rth, iov) =>
      if negb send_ok then Some (Returns (-1) None, rth, iov)
      else
        match talk_loop (Z.of_nat (length iov)) seq (rtnl_pid rth) answer None 0 dgs with
        | Some r => Some (r, rth, iov)
        | None => None
        end
  | None => None
  end.

Definition rtnl_talk_iov := __rtnl_talk_iov.

Definition __rtnl_talk (send_ok answer : bool) (dgs : received) (rth : rtnl_handle) (req : list Z)
    : option (talk_result * rtnl_handle * list (list Z)) :=
  __rtnl_talk_iov send_ok answer dgs rth [req].

Definition rtnl_talk := __rtnl_talk.

(** The same without the message on the terminal. *)
Definition rtnl_talk_suppress_rtnl_errmsg := __rtnl_talk.

(** ** Replies *)

(** A message of a datagram: header and payload. *)
Record nlmsg := Nlmsg { nm_type : Z; nm_flags : Z; nm_seq : Z; nm_pid : Z; nm_payload : list Z }.

Definition nlmsg_size (m : nlmsg) : Z := 16 + Z.of_nat (length (nm_payload m)).

Definition nlmsg_bytes (m : nlmsg) : list Z :=
  le 4 (nlmsg_size m) ++ le 2 (nm_type m) ++ le 2 (nm_flags m) ++ le 4 (nm_seq m) ++ le 4 (nm_pid m) ++ nm_payload m.

(** Fields in range; and whole words. *)
Definition fields_ok (m : nlmsg) : Prop :=
  0 ≤ nm_type m < 2 ^ 16 ∧ 0 ≤ nm_flags m < 2 ^ 16 ∧ 0 ≤ nm_seq m < 2 ^ 32 ∧ 0 ≤ nm_pid m < 2 ^ 32 ∧
  nlmsg_size m < 2 ^ 31.

Definition nlmsg_ok (m : nlmsg) : Prop := fields_ok m ∧ nlmsg_size m mod 4 = 0.

(** The acknowledgement of request [seq]: the error and a header. *)
Definition ack (seq pid error : Z) : nlmsg := Nlmsg NLMSG_ERROR 0 seq pid (le 4 (u32 error) ++ replicate 16 0).

Lemma sub_app_mid pre bs post n : n = length bs → sub (Z.of_nat (length pre)) n (pre ++ bs ++ post) = bs.
Proof. intros ->. unfold sub. by rewrite Nat2Z.id, drop_app_length, take_app_length. Qed.

(** A field of [n] bytes inside a message at [pre]. *)
Lemma read_field pre a v n b post off : off = Z.of_nat (length pre + length a) →
  0 ≤ v < 256 ^ Z.of_nat n →
  (let* bs := nl_read off n in cret (unle bs)) (pre ++ (a ++ le n v ++ b) ++ post)
  = Some (v, pre ++ (a ++ le n v ++ b) ++ post).
Proof.
  intros -> Hv. set (buf := pre ++ _ ++ post).
  assert (buf = (pre ++ a) ++ le n v ++ (b ++ post)) as Heq by (unfold buf; by rewrite <- !app_assoc).
  unfold cbind. rewrite nl_read_ok; [|lia|rewrite Heq, !length_app, length_le; lia].
  rewrite Heq, <- length_app, (sub_app_mid (pre ++ a) (le n v)) by (by rewrite length_le).
  unfold cret. by rewrite unle_le_small.
Qed.

Lemma nlmsg_fields pre m post : fields_ok m →
  let buf := pre ++ nlmsg_bytes m ++ post in
  let h := Z.of_nat (length pre) in
  h_len h buf = Some (nlmsg_size m, buf) ∧ h_type h buf = Some (nm_type m, buf) ∧
  h_seq h buf = Some (nm_seq m, buf) ∧ h_pid h buf = Some (nm_pid m, buf).
Proof.
  intros (Ht & _ & Hs & Hp & Hsz) buf h. unfold h_len, h_type, h_seq, h_pid, get16, get32.
  assert (0 ≤ nlmsg_size m) by (unfold nlmsg_size; lia). unfold buf, nlmsg_bytes.
  split; [|split; [|split]].
  - apply (read_field pre [] (nlmsg_size m) 4); [simpl; lia|change (256 ^ Z.of_nat 4) with (2 ^ 32); lia].
  - apply (read_field pre (le 4 _) (nm_type m) 2); [rewrite length_le; lia|done].
  - rewrite (app_assoc (le 4 _) (le 2 (nm_type m))), (app_assoc (_ ++ _) (le 2 _)).
    apply (read_field pre _ (nm_seq m) 4); [rewrite !length_app, !length_le; lia|done].
  - rewrite (app_assoc (le 4 _) (le 2 (nm_type m))), (app_assoc (_ ++ _) (le 2 _)), (app_assoc (_ ++ _) (le 4 _)).
    apply (read_field pre _ (nm_pid m) 4); [rewrite !length_app, !length_le; lia|done].
Qed.

Lemma ack_error pre seq pid error post : - 2 ^ 31 ≤ error < 2 ^ 31 →
  let buf := pre ++ nlmsg_bytes (ack seq pid error) ++ post in
  h_error (Z.of_nat (length pre)) buf = Some (error, buf).
Proof.
  intros He buf. unfold h_error, get32. unfold cbind at 1, buf, nlmsg_bytes. cbn [nm_payload ack].
  rewrite (app_assoc (le 4 _) (le 2 _)), (app_assoc (_ ++ _) (le 2 _)), (app_assoc (_ ++ _) (le 4 seq)),
    (app_assoc (_ ++ _) (le 4 pid)).
  rewrite (read_field pre _ (u32 error) 4); [|rewrite !length_app, !length_le; lia|apply u32_range].
  unfold cret, s32, u32. rewrite Zplus_mod_idemp_l, Z.mod_small by lia. by replace (error + 2 ^ 31 - 2 ^ 31) with error by lia.
Qed.

Lemma length_nlmsg_bytes m : Z.of_nat (length (nlmsg_bytes m)) = nlmsg_size m.
Proof. unfold nlmsg_bytes, nlmsg_size. rewrite !length_app, !length_le. lia. Qed.

Fixpoint msgs_bytes (ms : list nlmsg) : list Z :=
  match ms with
  | [] => []
  | m :: ms => nlmsg_bytes m ++ msgs_bytes ms
  end.

Section replies.
Variables (seq pid : Z) (answer : bool).
Hypothesis Hseq : 1 ≤ seq < 2 ^ 32.

(** Messages the loop passes over. *)
Definition passed (dg : dgram) (m : nlmsg) : Prop :=
  nlmsg_ok m ∧ (foreign 1 seq pid dg (nm_pid m) (nm_seq m) = true ∨
                (answer = false ∧ nm_type m ≠ NLMSG_ERROR)).

(** One message passed over. *)
Lemma scan_pass fuel ans i dg m pre post : passed dg m →
  Z.of_nat (length (nlmsg_bytes m ++ post)) < 2 ^ 31 →
  scan 1 seq pid answer (S fuel) ans i dg (Z.of_nat (length pre)) (Z.of_nat (length (nlmsg_bytes m ++ post)))
    (pre ++ nlmsg_bytes m ++ post)
  = scan 1 seq pid answer fuel ans i dg (Z.of_nat (length (pre ++ nlmsg_bytes m))) (Z.of_nat (length post))
      (pre ++ nlmsg_bytes m ++ post).
Proof.
  intros [Hok Hpass] Hlen. pose proof (length_nlmsg_bytes m) as Hlb.
  destruct Hok as [Hok Hmod]. destruct (nlmsg_fields pre m post Hok) as (H1 & H2 & H3 & H4).
  pose proof Hok as (_ & _ & _ & _ & Hsz). assert (16 ≤ nlmsg_size m) by (unfold nlmsg_size; lia).
  rewrite length_app in *. cbn [scan]. rewrite u64_small by lia. rewrite (proj2 (Z.leb_le 16 _)) by lia.
  unfold cbind at 1. rewrite H1, (s32_small (nlmsg_size m)), (s32_small (nlmsg_size m - 16)) by lia.
  rewrite (proj2 (Z.ltb_ge (nlmsg_size m - 16) 0)) by lia.
  rewrite (proj2 (Z.ltb_ge _ (nlmsg_size m))) by lia. cbn [orb].
  unfold cbind at 1. rewrite H4. unfold cbind at 1. rewrite H3.
  rewrite NLMSG_ALIGN_eq, align4_id by (done || lia). rewrite s32_small by lia.
  replace (Z.of_nat (length pre) + nlmsg_size m) with (Z.of_nat (length (pre ++ nlmsg_bytes m)))
    by (rewrite length_app; lia).
  replace (Z.of_nat (length (nlmsg_bytes m) + length post) - nlmsg_size m) with (Z.of_nat (length post)) by lia.
  destruct (foreign 1 seq pid dg (nm_pid m) (nm_seq m)); [done|].
  destruct Hpass as [|[-> Ht]]; [done|]. unfold cbind at 1. rewrite H2.
  by rewrite (proj2 (Z.eqb_neq _ _) Ht).
Qed.

Lemma scan_pass_all ans i dg ms : ∀ fuel pre post, Forall (passed dg) ms → (length ms < fuel)%nat →
  Z.of_nat (length (msgs_bytes ms ++ post)) < 2 ^ 31 →
  scan 1 seq pid answer fuel ans i dg (Z.of_nat (length pre)) (Z.of_nat (length (msgs_bytes ms ++ post)))
    (pre ++ msgs_bytes ms ++ post)
  = scan 1 seq pid answer (fuel - length ms) ans i dg (Z.of_nat (length (pre ++ msgs_bytes ms)))
      (Z.of_nat (length post)) (pre ++ msgs_bytes ms ++ post).
Proof.
  induction ms as [|m ms IH]; intros fuel pre post Hok Hf Hlen.
  { simpl. by rewrite Nat.sub_0_r, app_nil_r. }
  apply Forall_cons_iff in Hok as [Hm Hok]. destruct fuel as [|fuel]; [simpl in Hf; lia|].
  cbn [msgs_bytes] in *. rewrite <- app_assoc in *. rewrite scan_pass by done.
  specialize (IH fuel (pre ++ nlmsg_bytes m) post Hok). rewrite <- !app_assoc in IH.
  rewrite IH; [done|simpl in Hf; lia|].
  rewrite length_app in Hlen. lia.
Qed.

Lemma msgs_length ms : (4 * length ms ≤ length (msgs_bytes ms))%nat.
Proof.
  induction ms as [|m ms IH]; [done|]. cbn [msgs_bytes length]. rewrite length_app.
  pose proof (length_nlmsg_bytes m) as Hl. unfold nlmsg_size in Hl. lia.
Qed.

(** A datagram without an answer. *)
Lemma scan_foreign ans i dg ms : dg_bytes dg = msgs_bytes ms → Forall (passed dg) ms →
  Z.of_nat (length (msgs_bytes ms)) < 2 ^ 31 → scan_dgram 1 seq pid answer ans i dg = Some (Scanned 0).
Proof.
  intros Hb Hok Hlen. unfold scan_dgram. rewrite Hb. pose proof (msgs_length ms).
  pose proof (scan_pass_all ans i dg ms (S (S (length (msgs_bytes ms)))) [] [] Hok) as Hs.
  rewrite app_nil_r in Hs. simpl app in Hs. change (Z.of_nat (length (@nil Z))) with 0 in Hs.
  rewrite Hs by lia. destruct (S (S (length (msgs_bytes ms))) - length ms)%nat eqn:Hf; [lia|]. done.
Qed.

(** A datagram with the acknowledgement after other messages. *)
Lemma scan_ack ans i dg ms error rest : dg_bytes dg = msgs_bytes ms ++ nlmsg_bytes (ack seq pid error) ++ rest →
  Forall (passed dg) ms → dg_pid dg = 0 → 0 ≤ pid < 2 ^ 32 → - 2 ^ 31 ≤ error < 2 ^ 31 → 1 ≤ i →
  Z.of_nat (length (dg_bytes dg)) < 2 ^ 31 →
  scan_dgram 1 seq pid answer ans i dg
  = Some (Final (Returns (if error =? 0 then 0 else - i) (answered answer dg))).
Proof.
  intros Hb Hok Hpid0 Hpid Herr Hi Hlen. unfold scan_dgram. rewrite Hb in Hlen |- *.
  pose proof (msgs_length ms) as Hml. set (post := nlmsg_bytes (ack seq pid error) ++ rest) in *.
  pose proof (scan_pass_all ans i dg ms (S (S (length (msgs_bytes ms ++ post)))) [] post Hok) as Hs.
  rewrite !app_nil_l in Hs. change (Z.of_nat (length (@nil Z))) with 0 in Hs. rewrite length_app in Hs at 1.
  rewrite Hs by (rewrite ?length_app in *; lia).
  destruct (S (S (length (msgs_bytes ms ++ post))) - length ms)%nat as [|fuel] eqn:Hf;
    [rewrite length_app in Hf; lia|].
  assert (fields_ok (ack seq pid error)) as Hack.
  { split; [done|]. split; [done|]. split; [simpl; lia|]. by split. }
  destruct (nlmsg_fields (msgs_bytes ms) (ack seq pid error) rest Hack) as (H1 & H2 & H3 & H4).
  assert (nlmsg_size (ack seq pid error) = 36) as H36 by done. rewrite H36 in H1.
  pose proof (length_nlmsg_bytes (ack seq pid error)) as Hal. rewrite H36 in Hal.
  fold post in H1, H2, H3, H4. assert (36 ≤ Z.of_nat (length post)) by (unfold post; rewrite length_app; lia).
  cbn [scan]. rewrite length_app in Hlen. rewrite u64_small, (proj2 (Z.leb_le 16 _)) by lia.
  unfold cbind at 1. rewrite H1. change (s32 36) with 36. change (s32 (36 - 16)) with 20.
  rewrite (proj2 (Z.ltb_ge _ 36)) by lia. cbn [orb Z.ltb Z.compare].
  unfold cbind at 1. rewrite H4. unfold cbind at 1. rewrite H3. cbn [nm_pid nm_seq nm_type ack] in *.
  assert (foreign 1 seq pid dg pid seq = false) as ->.
  { unfold foreign. rewrite Hpid0, !Z.eqb_refl, u64_small by lia. simpl.
    rewrite (proj2 (Z.ltb_ge seq seq)), (proj2 (Z.ltb_ge seq (seq - 1))) by lia. done. }
  unfold cbind at 1. rewrite H2. rewrite Z.eqb_refl.
  pose proof (ack_error (msgs_bytes ms) seq pid error rest Herr) as H5. cbv zeta in H5. fold post in H5.
  unfold cbind at 1. rewrite H5. simpl Z.ltb.
  rewrite (proj2 (Z.ltb_ge i 1)) by lia. done.
Qed.

(** Datagrams that hold no answer. *)
Definition no_answer (x : Z + dgram) : Prop :=
  match x with
  | inl _ => False
  | inr dg => dg_addr_ok dg = true ∧ Z.of_nat (length (dg_bytes dg)) < 2 ^ 31 ∧
      ∃ ms, dg_bytes dg = msgs_bytes ms ∧ Forall (passed dg) ms
  end.

Lemma talk_skips ans i dgs rest : Forall no_answer dgs →
  talk_loop 1 seq pid answer ans i (dgs ++ rest) = talk_loop 1 seq pid answer ans (i + Z.of_nat (length dgs)) rest.
Proof.
  revert i. induction dgs as [|[z|dg] dgs IH]; intros i Hall; [simpl; by rewrite Z.add_0_r|..];
    apply Forall_cons_iff in Hall as [Hd Hall]; [done|].
  destruct Hd as (Haddr & Hlen & ms & Hb & Hok). simpl. rewrite Haddr. simpl.
  rewrite (scan_foreign _ _ _ ms) by (rewrite <- ?Hb; done). simpl.
  rewrite IH by done. replace (i + 1 + Z.of_nat (length dgs)) with (i + Z.pos (Pos.of_succ_nat (length dgs))) by lia.
  by destruct (dg_trunc dg).
Qed.
End replies.

(** [rtnl_talk] reports what the kernel answered: datagrams that hold only
    other messages, or, for a caller who wants no answer, unexpected replies,
    are passed over, and the acknowledgement of the request, wherever in its
    datagram it stands, decides the result: zero for success, otherwise minus
    the number of datagrams read, which is negative. *)
Theorem rtnl_talk_answers answer dgs dg ms error rest more rth req :
  let seq := u32 (rtnl_seq rth + 1) in
  1 ≤ seq → 0 ≤ rtnl_pid rth < 2 ^ 32 → 12 ≤ Z.of_nat (length req) → - 2 ^ 31 ≤ error < 2 ^ 31 →
  Forall (no_answer seq (rtnl_pid rth) answer) dgs →
  dg_bytes dg = msgs_bytes ms ++ nlmsg_bytes (ack seq (rtnl_pid rth) error) ++ rest →
  Forall (passed seq (rtnl_pid rth) answer dg) ms → dg_pid dg = 0 → dg_addr_ok dg = true →
  Z.of_nat (length (dg_bytes dg)) < 2 ^ 31 →
  ∃ req', rtnl_talk true answer (dgs ++ inr dg :: more) rth req
    = Some (Returns (if error =? 0 then 0 else - (Z.of_nat (length dgs) + 1))
              (if answer then Some (dg_bytes dg) else None), set_seq seq rth, [req']).
Proof.
  intros seq Hseq Hpid Hreq Herr Hdgs Hb Hms Hp0 Haddr Hlen.
  unfold rtnl_talk, __rtnl_talk, __rtnl_talk_iov. cbn [number_all]. fold seq.
  assert (seq < 2 ^ 32) as Hs2 by apply u32_range.
  assert (∃ req', number_request seq answer req = Some (tt, req')) as [req' Hn].
  { unfold number_request, cbind. rewrite nl_write_ok by (rewrite ?length_le; lia).
    destruct answer; [by eexists|]. rewrite get16_ok by (rewrite ?length_put; lia).
    rewrite nl_write_ok by (rewrite ?length_put, ?length_le; lia). by eexists. }
  exists req'. rewrite Hn. cbn [negb length]. change (Z.of_nat 1) with 1. rewrite talk_skips by done. cbn [talk_loop].
  rewrite Haddr. simpl negb. cbv iota.
  rewrite (scan_ack seq (rtnl_pid rth) answer ltac:(lia) _ _ dg ms error rest) by (done || lia).
  by rewrite Z.add_0_l.
Qed.

Definition sample_rth : rtnl_handle := Rtnl 1542000000 4711 0 0 0.

(** A message for another port, then the acknowledgement with [EINVAL]. *)
Definition sample_reply : dgram :=
  Dgram (nlmsg_bytes (Nlmsg 16 0 5 9 []) ++ nlmsg_bytes (ack 1542000001 4711 (-22))) 0 true false.

Lemma rtnl_talk_answers_witness : ∃ req',
  rtnl_talk true false [inr sample_reply] sample_rth (replicate 36 0)
  = Some (Returns (-1) None, Rtnl 1542000001 4711 0 0 0, [req']).
Proof.
  apply (rtnl_talk_answers false [] sample_reply [Nlmsg 16 0 5 9 []] (-22) [] [] sample_rth (replicate 36 0));
    try done. apply Forall_cons_iff. split; [|by apply Forall_nil_2]. split; [done|by left].
Defined.

(** When the 32-bit sequence number wraps to zero, the 64-bit difference
    [seq - iovlen] does not: the acknowledgement of request 0 is taken for a
    foreign message, and [rtnl_talk] waits for ever. *)
Theorem rtnl_talk_wrap_hangs :
  ∃ req', rtnl_talk true false [inr (Dgram (nlmsg_bytes (ack 0 4711 0)) 0 true false)]
    (Rtnl 4294967295 4711 0 0 0) (replicate 36 0) = Some (Waits, Rtnl 0 4711 0 0 0, [req']).
Proof. eexists. vm_compute. reflexivity. Qed.
