(* ===== verification/Dump.v ===== *)
(** * Dumps and notifications (src/tbf/libnetlink.c)

    The rest of libnetlink.c's traffic: the requests for a dump
    ([rtnl_*dump_req], [rtnl_dump_request]), the loop that reads a dump
    ([rtnl_dump_filter_l]), the one that waits for notifications
    ([rtnl_listen]) and the one that reads a recorded dump
    ([rtnl_from_file]).

    - The results of the successive [recvmsg] calls are an argument, a list;
      when it is used up the program waits.
    - A receive buffer is the whole block of memory, what the datagram did not
      fill included: an access outside it is undefined behaviour ([None]).
    - A callback gets the bytes of its message and the state [A] of its
      caller, and returns its result and the new state.
    - The file is compiled without libmnl, so that the functions for extended
      acknowledgements return 0; what is printed is left out. *)

From Stdlib Require Import ZArith Lia.
From stdpp Require Import base numbers list gmap option.
From S2P Require Import Prelude Netlink NetlinkTheorems Rtnl.

Open Scope Z_scope.

Definition EINTR : Z := 4.

Definition EAGAIN : Z := 11.

Definition ENOMEM : Z := 12.

Definition ENODATA : Z := 61.

Definition EOPNOTSUPP : Z := 95.

Definition ENOBUFS : Z := 105.

Definition NLMSG_DONE : Z := 3.

Definition NLM_F_DUMP_INTR : Z := 16.

Definition NLMSG_LENGTH (len : Z) : Z := len + 16.

Definition h_flags (h : Z) : M (list Z) Z := get16 (h + 6).

(** [NLMSG_OK] and [NLMSG_NEXT]: the latter gives the next header and what
    is left. *)
Definition NLMSG_OK (h len : Z) : M (list Z) bool :=
  if 16 <=? len then let* n := h_len h in cret ((16 <=? n) && (n <=? len)) else cret false.

Definition NLMSG_NEXT (h len : Z) : M (list Z) (Z * Z) :=
  let* n := h_len h in cret (h + NLMSG_ALIGN n, s32 (len - NLMSG_ALIGN n)).

(** How a function that reads from a socket ends. *)
Inductive outcome := Ret (ret : Z) | Exit (code : Z) | Block.

(** ** Opening *)

Definition RTNL_HANDLE_F_STRICT_CHK : Z := 4.

(** [ok]: whether [setsockopt] succeeds. *)
Definition rtnl_set_strict_dump (ok : bool) (rth : rtnl_handle) : rtnl_handle :=
  if ok then
    Rtnl (rtnl_seq rth) (rtnl_pid rth) (rtnl_dump rth) (rtnl_proto rth)
      (Z.lor (rtnl_flags rth) RTNL_HANDLE_F_STRICT_CHK)
  else rth.

(** What the system calls of [rtnl_open_byproto] do: whether [socket], the two
    calls of [setsockopt] that are checked and [bind] succeed, the length, the
    family and the port [getsockname] returns, and the time. *)
Record open_calls := OpenCalls {
  oc_socket : bool;
  oc_sndbuf : bool;
  oc_rcvbuf : bool;
  oc_bind : bool;
  oc_name : option (Z * Z * Z);
  oc_time : Z;
}.

Definition AF_NETLINK : Z := 16.

Definition rtnl_open_byproto (protocol : Z) (oc : open_calls) : Z * rtnl_handle :=
  let rth := Rtnl 0 0 0 protocol 0 in
  if negb (oc_socket oc) then (-1, rth)
  else if negb (oc_sndbuf oc) then (-1, rth)
  else if negb (oc_rcvbuf oc) then (-1, rth)
  else if negb (oc_bind oc) then (-1, rth)
  else
    match oc_name oc with
    | None => (-1, rth)
    | Some (addr_len, family, pid) =>
        let rth := Rtnl 0 pid 0 protocol 0 in
        if negb (addr_len =? 12) then (-1, rth)
        else if negb (family =? AF_NETLINK) then (-1, rth)
        else (0, set_seq (u32 (oc_time oc)) rth)
    end.

Definition NETLINK_ROUTE : Z := 0.

Definition rtnl_open (oc : open_calls) : Z * rtnl_handle := rtnl_open_byproto NETLINK_ROUTE oc.

(** ** Requests *)

(** What a request function does: it returns an error of the callback, or
    sends these bytes and returns the result of [send]. *)
Inductive req_result := ReqError (err : Z) | ReqSend (bytes : list Z).

(** [rth->dump = ++rth->seq]. *)
Definition next_dump (rth : rtnl_handle) : rtnl_handle :=
  let seq := u32 (rtnl_seq rth + 1) in
  Rtnl seq (rtnl_pid rth) seq (rtnl_proto rth) (rtnl_flags rth).

Definition NLM_F_REQUEST : Z := 1.

Definition NLM_F_DUMP : Z := 768.

Definition header (len type flags seq pid : Z) : list Z :=
  le 4 len ++ le 2 type ++ le 2 flags ++ le 4 seq ++ le 4 pid.

(** The [req] of a request function: a header with [nlmsg_len], the family in
    the first byte of a structure of [size] bytes, what follows it. *)
Definition dump_req (nlmsg_len type size family : Z) (rest : list Z) (rth : rtnl_handle) : list Z :=
  header nlmsg_len type (Z.lor NLM_F_DUMP NLM_F_REQUEST) (rtnl_dump rth) 0
    ++ (u8 family :: replicate (Z.to_nat size - 1) 0) ++ rest.

(** [filter_fn(&req.nlh, sizeof(req))]: a callback that may add to the
    request; a result other than 0 ends the function. *)
Definition req_filter_fn := list Z → Z * list Z.

Definition filter_req (filter_fn : req_filter_fn) (req : list Z) : req_result :=
  let '(err, req) := filter_fn req in
  if negb (err =? 0) then ReqError err else ReqSend req.

Definition filter_req_opt (filter_fn : option req_filter_fn) (req : list Z) : req_result :=
  match filter_fn with
  | Some f => filter_req f req
  | None => ReqSend req
  end.

Definition RTM_GETLINK : Z := 18.

Definition RTM_GETADDR : Z := 22.

Definition RTM_GETROUTE : Z := 26.

Definition RTM_GETNEIGH : Z := 30.

Definition RTM_GETRULE : Z := 34.

Definition RTM_GETNEIGHTBL : Z := 66.

Definition RTM_GETADDRLABEL : Z := 74.

Definition RTM_GETNETCONF : Z := 82.

Definition RTM_GETMDB : Z := 86.

Definition RTM_GETNSID : Z := 90.

Definition RTM_GETSTATS : Z := 94.

Definition AF_UNSPEC : Z := 0.

Definition AF_BRIDGE : Z := 7.

Definition AF_PACKET : Z := 17.

Definition zeros (n : nat) : list Z := replicate n 0.

Definition rtnl_addrdump_req (family : Z) (filter_fn : option req_filter_fn) (rth : rtnl_handle)
    : req_result * rtnl_handle :=
  let rth := next_dump rth in
  (filter_req_opt filter_fn (dump_req (NLMSG_LENGTH 8) RTM_GETADDR 8 family (zeros 128) rth), rth).

Definition rtnl_addrlbldump_req (family : Z) (rth : rtnl_handle) : req_result * rtnl_handle :=
  let rth := next_dump rth in
  (ReqSend (dump_req (NLMSG_LENGTH 12) RTM_GETADDRLABEL 12 family [] rth), rth).

Definition rtnl_routedump_req (family : Z) (filter_fn : option req_filter_fn) (rth : rtnl_handle)
    : req_result * rtnl_handle :=
  let rth := next_dump rth in
  (filter_req_opt filter_fn (dump_req (NLMSG_LENGTH 12) RTM_GETROUTE 12 family (zeros 128) rth), rth).

Definition rtnl_ruledump_req (family : Z) (rth : rtnl_handle) : req_result * rtnl_handle :=
  let rth := next_dump rth in
  (ReqSend (dump_req (NLMSG_LENGTH 12) RTM_GETRULE 12 family [] rth), rth).

Definition rtnl_neighdump_req (family : Z) (filter_fn : option req_filter_fn) (rth : rtnl_handle)
    : req_result * rtnl_handle :=
  let rth := next_dump rth in
  (filter_req_opt filter_fn (dump_req (NLMSG_LENGTH 12) RTM_GETNEIGH 12 family (zeros 256) rth), rth).

Definition rtnl_neightbldump_req (family : Z) (rth : rtnl_handle) : req_result * rtnl_handle :=
  let rth := next_dump rth in
  (ReqSend (dump_req (NLMSG_LENGTH 4) RTM_GETNEIGHTBL 4 family [] rth), rth).

Definition rtnl_mdbdump_req (family : Z) (rth : rtnl_handle) : req_result * rtnl_handle :=
  let rth := next_dump rth in
  (ReqSend (dump_req (NLMSG_LENGTH 8) RTM_GETMDB 8 family [] rth), rth).

(** The structure has one byte; [buf] is aligned, so that [req] has four. *)
Definition rtnl_netconfdump_req (family : Z) (rth : rtnl_handle) : req_result * rtnl_handle :=
  let rth := next_dump rth in
  (ReqSend (dump_req (NLMSG_LENGTH (NLMSG_ALIGN 1)) RTM_GETNETCONF 1 family (zeros 3) rth), rth).

Definition rtnl_nsiddump_req (family : Z) (rth : rtnl_handle) : req_result * rtnl_handle :=
  let rth := next_dump rth in
  (ReqSend (dump_req (NLMSG_LENGTH (NLMSG_ALIGN 1)) RTM_GETNSID 1 family (zeros 3) rth), rth).

Definition __rtnl_linkdump_req (family : Z) (rth : rtnl_handle) : req_result * rtnl_handle :=
  let rth := next_dump rth in
  (ReqSend (dump_req (NLMSG_LENGTH 16) RTM_GETLINK 16 family [] rth), rth).

Definition RTEXT_FILTER_VF : Z := 1.

Definition IFLA_EXT_MASK : Z := 29.

Definition rtnl_linkdump_req_filter (family filt_mask : Z) (rth : rtnl_handle)
    : req_result * rtnl_handle :=
  if (family =? AF_UNSPEC) || (family =? AF_BRIDGE) then
    let rth := next_dump rth in
    (ReqSend (dump_req 40 RTM_GETLINK 16 family
                (le 2 (RTA_LENGTH 4) ++ le 2 IFLA_EXT_MASK ++ le 4 filt_mask) rth), rth)
  else __rtnl_linkdump_req family rth.

Definition rtnl_linkdump_req (family : Z) (rth : rtnl_handle) : req_result * rtnl_handle :=
  if family =? AF_UNSPEC then rtnl_linkdump_req_filter family RTEXT_FILTER_VF rth
  else __rtnl_linkdump_req family rth.

(** Only the first [nlmsg_len] bytes, at most 1056, are sent. *)
Definition rtnl_linkdump_req_filter_fn (family : Z) (filter_fn : option req_filter_fn)
    (rth : rtnl_handle) : option (req_result * rtnl_handle) :=
  if (family =? AF_UNSPEC) || (family =? AF_PACKET) then
    let rth := next_dump rth in
    let req := dump_req (NLMSG_LENGTH 16) RTM_GETLINK 16 family (zeros 1024) rth in
    match filter_fn with
    | None => Some (ReqError (-22), rth)
    | Some f =>
        match filter_req f req with
        | ReqError err => Some (ReqError err, rth)
        | ReqSend req =>
            match (let* n := nlmsg_len in nl_read 0 (Z.to_nat n)) req with
            | Some (bytes, _) => Some (ReqSend bytes, rth)
            | None => None
            end
        end
    end
  else Some (__rtnl_linkdump_req family rth).

Definition rtnl_fdb_linkdump_req_filter_fn (filter_fn : req_filter_fn) (rth : rtnl_handle)
    : req_result * rtnl_handle :=
  let rth := next_dump rth in
  (filter_req filter_fn (dump_req (NLMSG_LENGTH 16) RTM_GETNEIGH 16 AF_BRIDGE (zeros 128) rth), rth).

Definition rtnl_statsdump_req_filter (fam filt_mask : Z) (rth : rtnl_handle)
    : req_result * rtnl_handle :=
  let rth := next_dump rth in
  (ReqSend (dump_req (NLMSG_LENGTH 12) RTM_GETSTATS 8 fam (le 4 filt_mask) rth), rth).

(** [rtnl_dump_request]: [req] is sent after a header. *)
Definition rtnl_dump_request (type : Z) (req : list Z) (rth : rtnl_handle) : req_result * rtnl_handle :=
  let rth := next_dump rth in
  (ReqSend (header (NLMSG_LENGTH (Z.of_nat (length req))) type (Z.lor NLM_F_DUMP NLM_F_REQUEST)
              (rtnl_dump rth) 0 ++ req), rth).

(** [rtnl_dump_request_n]: the header of [n] is completed, its first
    [nlmsg_len] bytes are sent. *)
Definition rtnl_dump_request_n (rth : rtnl_handle) : M (list Z) (req_result * rtnl_handle) :=
  let rth := next_dump rth in
  nl_write 6 (le 2 (Z.lor NLM_F_DUMP NLM_F_REQUEST)) ;;;
  nl_write 12 (le 4 0) ;;;
  nl_write 8 (le 4 (rtnl_dump rth)) ;;;
  let* len := nlmsg_len in
  let* bytes := nl_read 0 (Z.to_nat len) in
  cret (ReqSend bytes, rth).

(** [rtnl_send_check]: [status] is what [send] returns, [r] what [recv]
    leaves: an error number or at most 1024 bytes in [resp].  The result
    comes with the new [errno], if it was set. *)
Fixpoint check_loop (fuel : nat) (h status : Z) : M (list Z) (Z * option Z) :=
  match fuel with
  | O => cfail
  | S fuel =>
      let* ok := NLMSG_OK h status in
      if ok then
        let* t := h_type h in
        if t =? NLMSG_ERROR then
          let* n := h_len h in
          if n <? NLMSG_LENGTH 20 then cret (-1, None)
          else let* e := h_error h in cret (-1, Some (s32 (- e)))
        else
          let* hs := NLMSG_NEXT h status in
          check_loop fuel hs.1 hs.2
      else cret (0, None)
  end.

Definition rtnl_send_check (status : Z) (r : Z + list Z) (resp : list Z) : option (Z * option Z) :=
  if status <? 0 then Some (status, None)
  else
    match r with
    | inl errno => Some (if errno =? EAGAIN then 0 else -1, Some errno)
    | inr bytes =>
        match check_loop (S (S (length bytes))) 0 (Z.of_nat (length bytes)) (put 0 bytes resp) with
        | Some (r, _) => Some r
        | None => None
        end
    end.

(** ** Reading a dump *)

(** [malloc k n]: what the [k]-th call of [malloc] in the loop returns for
    [n] bytes: a block with arbitrary contents, or nothing. *)
Class Malloc := malloc : nat → Z → option (list Z).

Class MallocOk `{Malloc} := malloc_ok : ∀ k n, 0 ≤ n → ∃ blk, malloc k n = Some blk ∧ Z.of_nat (length blk) = n.

(** The results of [recvmsg], call by call: an error number or a datagram. *)
Abbreviation trace := (list (Z + dgram)).

Inductive recv_result := RecvBlocks | RecvError (ret : Z) (tr : trace) | Recv (dg : dgram) (tr : trace).

Fixpoint __rtnl_recvmsg (tr : trace) : recv_result :=
  match tr with
  | [] => RecvBlocks
  | inl errno :: tr =>
      if (errno =? EINTR) || (errno =? EAGAIN) then __rtnl_recvmsg tr else RecvError (- errno) tr
  | inr dg :: tr => if (length (dg_bytes dg) =? 0)%nat then RecvError (- ENODATA) tr else Recv dg tr
  end.

(** The first call peeks for the length, the second one reads into the block:
    the result is the datagram and the block. *)
Definition rtnl_recvmsg `{Malloc} (k : nat) (tr : trace) : recv_result * list Z :=
  match __rtnl_recvmsg tr with
  | Recv dg tr =>
      let len := Z.max 32768 (Z.of_nat (length (dg_bytes dg))) in
      match malloc k len with
      | None => (RecvError (- ENOMEM) tr, [])
      | Some buf =>
          match __rtnl_recvmsg tr with
          | Recv dg tr => (Recv dg tr, put 0 (dg_bytes dg) buf)
          | r => (r, [])
          end
      end
  | r => (r, [])
  end.

Section dump.
Context {A : Type}.

(** The block a datagram lies in, [errno], [dump_intr], the file [dump_fp] if
    there is one, the state of the callbacks. *)
Record dump_state := Dst {
  d_buf : list Z;
  d_errno : Z;
  d_intr : bool;
  d_file : option (list Z);
  d_arg : A;
}.

Definition set_buf (b : list Z) (s : dump_state) := Dst b (d_errno s) (d_intr s) (d_file s) (d_arg s).

Definition set_errno (e : Z) (s : dump_state) := Dst (d_buf s) e (d_intr s) (d_file s) (d_arg s).

Definition set_intr (i : bool) (s : dump_state) := Dst (d_buf s) (d_errno s) i (d_file s) (d_arg s).

Definition set_file (f : option (list Z)) (s : dump_state) := Dst (d_buf s) (d_errno s) (d_intr s) f (d_arg s).

Definition set_arg (a : A) (s : dump_state) := Dst (d_buf s) (d_errno s) (d_intr s) (d_file s) a.

Definition on_buf {X} (m : M (list Z) X) : M dump_state X :=
  λ s, match m (d_buf s) with
       | Some (x, b) => Some (x, set_buf b s)
       | None => None
       end.

Definition update (f : dump_state → dump_state) : M dump_state unit := λ s, Some (tt, f s).

Definition rtnl_dump_done (h : Z) : M dump_state Z :=
  let* len := on_buf (let* v := get32 (h + 16) in cret (s32 v)) in
  let* n := on_buf (h_len h) in
  if n <? NLMSG_LENGTH 4 then cret (-1)
  else if len <? 0 then
    let errno := s32 (- len) in
    update (set_errno errno) ;;;
    cret (if (errno =? 2) || (errno =? EOPNOTSUPP) then -1 else len)
  else cret 0.

Definition rtnl_dump_error (h : Z) : M dump_state unit :=
  let* n := on_buf (h_len h) in
  if n <? NLMSG_LENGTH 20 then cret tt
  else
    let* e := on_buf (h_error h) in
    update (set_errno (s32 (- e))).

Record filter_arg := FilterArg { filter : list Z → A → Z * A; nc_flags : Z }.

(** How the loop over a datagram ends for one filter: at its end with what is
    left, at the end of the dump, or with the function's result. *)
Inductive walk_end := WalkEnd (msglen : Z) | WalkDone (msglen : Z) | WalkReturn (ret : Z).

Section filters.
Variables (rth : rtnl_handle) (nl_pid : Z).

Fixpoint dump_walk (fuel : nat) (a : filter_arg) (h msglen : Z) : M dump_state walk_end :=
  match fuel with
  | O => cfail
  | S fuel =>
      let* ok := on_buf (NLMSG_OK h msglen) in
      if negb ok then cret (WalkEnd msglen)
      else
        let* fl := on_buf (h_flags h) in
        on_buf (nl_write (h + 6) (le 2 (Z.land fl (Z.lnot (nc_flags a))))) ;;;
        let* hpid := on_buf (h_pid h) in
        let* hseq := on_buf (h_seq h) in
        let skip_it := let* hs := on_buf (NLMSG_NEXT h msglen) in dump_walk fuel a hs.1 hs.2 in
        if negb (nl_pid =? 0) || negb (hpid =? rtnl_pid rth) || negb (hseq =? rtnl_dump rth) then skip_it
        else
          let* fl := on_buf (h_flags h) in
          (if Z.land fl NLM_F_DUMP_INTR =? 0 then cret tt else update (set_intr true)) ;;;
          let* t := on_buf (h_type h) in
          if t =? NLMSG_DONE then
            let* err := rtnl_dump_done h in
            cret (if err <? 0 then WalkReturn (-1) else WalkDone msglen)
          else if t =? NLMSG_ERROR then rtnl_dump_error h ;;; cret (WalkReturn (-1))
          else
            let* n := on_buf (h_len h) in
            let* bytes := on_buf (nl_read h (Z.to_nat n)) in
            let* err := λ s, match d_file s with
                             | None => let '(err, arg) := filter a bytes (d_arg s) in
                                       Some (err, set_arg arg s)
                             | Some _ => Some (0, s)
                             end in
            if err <? 0 then cret (WalkReturn err) else skip_it
  end.

(** The loop over the filters: [found_done] and the last [msglen]. *)
Fixpoint dump_filters (fuel : nat) (args : list filter_arg) (status : Z) (found_done : bool) (msglen : Z)
    : M dump_state (Z + bool * Z) :=
  match args with
  | [] => cret (inr (found_done, msglen))
  | a :: args =>
      let* r := dump_walk fuel a 0 status in
      match r with
      | WalkEnd msglen => dump_filters fuel args status found_done msglen
      | WalkDone msglen => dump_filters fuel args status true msglen
      | WalkReturn ret => cret (inl ret)
      end
  end.
End filters.

(** [fwrite(buf, 1, NLMSG_ALIGN(status), rth->dump_fp)]. *)
Definition dump_record (status : Z) : M dump_state unit :=
  λ s, match d_file s with
       | None => Some (tt, s)
       | Some file =>
           match nl_read 0 (Z.to_nat (NLMSG_ALIGN status)) (d_buf s) with
           | Some (bytes, _) => Some (tt, set_file (Some (file ++ bytes)) s)
           | None => None
           end
       end.

Fixpoint dump_loop `{Malloc} (fuel : nat) (rth : rtnl_handle) (args : list filter_arg) (k : nat)
    (tr : trace) : M dump_state outcome :=
  match fuel with
  | O => cfail
  | S fuel =>
      match rtnl_recvmsg k tr with
      | (RecvBlocks, _) => cret Block
      | (RecvError ret _, _) => cret (Ret ret)
      | (Recv dg tr, buf) =>
          let status := Z.of_nat (length (dg_bytes dg)) in
          update (set_buf buf) ;;;
          dump_record status ;;;
          let* r := dump_filters rth (dg_pid dg) (S (length (dg_bytes dg))) args status false 0 in
          match r with
          | inl ret => cret (Ret ret)
          | inr (found_done, msglen) =>
              if found_done then cret (Ret 0)
              else if dg_trunc dg then dump_loop fuel rth args (S k) tr
              else if negb (msglen =? 0) then cret (Exit 1)
              else dump_loop fuel rth args (S k) tr
          end
      end
  end.

(** Each datagram takes two results of [recvmsg]. *)
Definition rtnl_dump_filter_l `{Malloc} (rth : rtnl_handle) (args : list filter_arg) (tr : trace)
    : M dump_state outcome :=
  update (set_intr false) ;;; dump_loop (S (length tr)) rth args 0 tr.

Definition rtnl_dump_filter_nc `{Malloc} (rth : rtnl_handle) (f : list Z → A → Z * A) (nc : Z)
    (tr : trace) : M dump_state outcome :=
  rtnl_dump_filter_l rth [FilterArg f nc] tr.

(** ** Notifications *)

(** [struct rtnl_ctrl_data *]: null, not initialised, or with its [nsid]. *)
Inductive ctrl_data := CtrlNull | CtrlUnset | CtrlNsid (nsid : Z).

Definition handler := ctrl_data → list Z → A → Z * A.

(** A control message: level, type, length and the [int] it carries. *)
Record cmsghdr := Cmsg { cmsg_level : Z; cmsg_type : Z; cmsg_len : Z; cmsg_data : Z }.

(** A datagram with its control messages. *)
Record notice := Notice { nt_dgram : dgram; nt_cmsgs : list cmsghdr }.

(** [CMSG_SPACE] of a message of [CMSG_LEN] [len]. *)
Definition cmsg_space (len : Z) : Z := 8 * ((len + 7) / 8).

(** What [recvmsg] stores of the control messages in [controllen] bytes, and
    the number of bytes stored, which it writes to [msg_controllen]. *)
Fixpoint recv_control (controllen : Z) (cmsgs : list cmsghdr) : list cmsghdr * Z :=
  match cmsgs with
  | [] => ([], 0)
  | c :: cmsgs =>
      if controllen <? cmsg_len c then ([], 0)
      else
        let used := Z.min (cmsg_space (cmsg_len c)) controllen in
        let '(l, n) := recv_control (controllen - used) cmsgs in (c :: l, used + n)
  end.

Definition SOL_NETLINK : Z := 270.

Definition NETLINK_LISTEN_ALL_NSID : Z := 8.

Definition RTNL_HANDLE_F_LISTEN_ALL_NSID : Z := 1.

(** [ok]: whether [setsockopt] succeeds. *)
Definition rtnl_listen_all_nsid (ok : bool) (rth : rtnl_handle) : Z * rtnl_handle :=
  if ok then
    (0, Rtnl (rtnl_seq rth) (rtnl_pid rth) (rtnl_dump rth) (rtnl_proto rth)
          (Z.lor (rtnl_flags rth) RTNL_HANDLE_F_LISTEN_ALL_NSID))
  else (-1, rth).

(** The loop over the control messages: the last one that matches counts. *)
Definition ctrl_nsid (cmsgs : list cmsghdr) : Z :=
  fold_left (λ nsid c, if (cmsg_level c =? SOL_NETLINK) && (cmsg_type c =? NETLINK_LISTEN_ALL_NSID)
                          && (cmsg_len c =? 20)
                       then cmsg_data c else nsid) cmsgs (-1).

Inductive listen_end := ListenEnd (status : Z) | ListenFinal (r : outcome).

(** The loop over a datagram; [status >= sizeof( *h)] compares as [size_t]. *)
Fixpoint listen_walk (fuel : nat) (f : handler) (trunc : bool) (ctrl : ctrl_data) (h status : Z)
    : M (list Z * A) listen_end :=
  match fuel with
  | O => cfail
  | S fuel =>
      if 16 <=? u64 status then
        λ '(buf, a),
          match h_len h buf with
          | None => None
          | Some (ulen, _) =>
              let len := s32 ulen in
              let l := s32 (len - 16) in
              if (l <? 0) || (status <? len) then
                Some (ListenFinal (if trunc then Ret (-1) else Exit 1), (buf, a))
              else
                match nl_read h (Z.to_nat len) buf with
                | None => None
                | Some (bytes, _) =>
                    let '(err, a) := f ctrl bytes a in
                    if err <? 0 then Some (ListenFinal (Ret err), (buf, a))
                    else listen_walk fuel f trunc ctrl (h + NLMSG_ALIGN len)
                           (s32 (status - NLMSG_ALIGN len)) (buf, a)
                end
          end
      else cret (ListenEnd status)
  end.

(** The [while (1)] loop; the first result of [recvmsg] is the head of the
    list. *)
Fixpoint listen_loop (all_nsid : bool) (f : handler) (controllen : Z) (tr : list (Z + notice))
    : M (list Z * A) outcome :=
  match tr with
  | [] => cret Block
  | inl errno :: tr =>
      if (errno =? EINTR) || (errno =? EAGAIN) || (errno =? ENOBUFS)
      then listen_loop all_nsid f controllen tr
      else cret (Ret (-1))
  | inr nt :: tr =>
      let dg := nt_dgram nt in
      let status := Z.of_nat (length (dg_bytes dg)) in
      let '(cmsgs, controllen) := recv_control controllen (nt_cmsgs nt) in
      λ '(buf, a),
        let buf := put 0 (dg_bytes dg) buf in
        if status =? 0 then Some (Ret (-1), (buf, a))
        else if negb (dg_addr_ok dg) then Some (Exit 1, (buf, a))
        else
          let ctrl := if all_nsid then CtrlNsid (ctrl_nsid cmsgs) else CtrlUnset in
          (let* r := listen_walk (S (S (length (dg_bytes dg)))) f (dg_trunc dg) ctrl 0 status in
           match r with
           | ListenFinal r => cret r
           | ListenEnd status =>
               if dg_trunc dg then listen_loop all_nsid f controllen tr
               else if negb (status =? 0) then cret (Exit 1)
               else listen_loop all_nsid f controllen tr
           end) (buf, a)
  end.

(** [buf] is a local array of 16384 bytes, not initialised; the array for the
    control messages has [BUFSIZ] bytes. *)
Definition rtnl_listen (rth : rtnl_handle) (f : handler) (tr : list (Z + notice))
    : M (list Z * A) outcome :=
  let all_nsid := negb (Z.land (rtnl_flags rth) RTNL_HANDLE_F_LISTEN_ALL_NSID =? 0) in
  listen_loop all_nsid f (if all_nsid then 8192 else 0) tr.

(** ** A recorded dump *)

(** The state of [rtnl_from_file]: [buf], the rest of the file, the state of
    the callback. *)
Record file_state := Fst { fs_buf : list Z; fs_file : list Z; fs_arg : A }.

(** [fread(buf + off, 1, n, rtnl)]. *)
Definition fread (off n : Z) : M file_state Z :=
  λ s, let data := take (Z.to_nat n) (fs_file s) in
       match nl_write off data (fs_buf s) with
       | Some (_, buf) =>
           Some (Z.of_nat (length data), Fst buf (drop (Z.to_nat n) (fs_file s)) (fs_arg s))
       | None => None
       end.

(** [len > sizeof(buf)] compares as [size_t]. *)
Fixpoint from_file_loop (fuel : nat) (f : handler) : M file_state Z :=
  match fuel with
  | O => cfail
  | S fuel =>
      let* status := fread 0 16 in
      if status =? 0 then cret 0
      else
        λ s,
          match h_len 0 (fs_buf s) with
          | None => None
          | Some (ulen, _) =>
              let len := s32 ulen in
              let l := s32 (len - 16) in
              if (l <? 0) || (16384 <? u64 len) then Some (-1, s)
              else
                (let* status := fread 16 (NLMSG_ALIGN l) in
                 if status <? l then cret (-1)
                 else λ s,
                   match nl_read 0 (Z.to_nat len) (fs_buf s) with
                   | None => None
                   | Some (bytes, _) =>
                       let '(err, a) := f CtrlNull bytes (fs_arg s) in
                       let s := Fst (fs_buf s) (fs_file s) a in
                       if err <? 0 then Some (err, s) else from_file_loop fuel f s
                   end) s
          end
  end.

(** Every round but the last reads at least one byte. *)
Definition rtnl_from_file (f : handler) : M file_state Z :=
  λ s, from_file_loop (S (length (fs_file s))) f s.
End dump.
