(* ===== verification/DumpFrames.v ===== *)
(** * Dumps as sequences of messages

    A datagram of well-formed messages, each padded to a multiple of four
    bytes, is walked message by message: the loops of Dump.v compute a
    function on the list of its messages. *)

From Stdlib Require Import ZArith Lia.
From stdpp Require Import base numbers list gmap option.
From S2P Require Import Prelude Netlink NetlinkTheorems Rtnl Dump.

Open Scope Z_scope.

(** ** Padded messages *)

Definition padding (m : nlmsg) : list Z :=
  replicate (Z.to_nat (align4 (nlmsg_size m) - nlmsg_size m)) 0.

Definition frame (m : nlmsg) : list Z := nlmsg_bytes m ++ padding m.

Fixpoint frames (ms : list nlmsg) : list Z :=
  match ms with
  | [] => []
  | m :: ms => frame m ++ frames ms
  end.

Lemma length_frame m : Z.of_nat (length (frame m)) = align4 (nlmsg_size m).
Proof.
  unfold frame, padding. rewrite length_app, length_replicate, Nat2Z.inj_add, length_nlmsg_bytes.
  pose proof (align4_bounds (nlmsg_size m)). lia.
Qed.

Lemma nlmsg_size_ge m : 16 ≤ nlmsg_size m.
Proof. unfold nlmsg_size. lia. Qed.

Lemma frames_length ms : Z.of_nat (length ms) ≤ Z.of_nat (length (frames ms)).
Proof.
  induction ms as [|m ms IH]; [done|]. cbn [frames length]. rewrite length_app.
  pose proof (length_frame m). pose proof (align4_bounds (nlmsg_size m)). pose proof (nlmsg_size_ge m). lia.
Qed.

Lemma frames_app l1 l2 : frames (l1 ++ l2) = frames l1 ++ frames l2.
Proof. induction l1 as [|m l1 IH]; [done|]. cbn [frames app]. by rewrite IH, app_assoc. Qed.

(** The first message in the part of memory not walked yet. *)
Lemma frame_split pre m ms post :
  pre ++ frames (m :: ms) ++ post = pre ++ nlmsg_bytes m ++ (padding m ++ frames ms ++ post).
Proof. cbn [frames]. unfold frame. by rewrite <- !app_assoc. Qed.

Lemma frame_next pre m ms post :
  pre ++ nlmsg_bytes m ++ (padding m ++ frames ms ++ post) = (pre ++ frame m) ++ frames ms ++ post.
Proof. unfold frame. by rewrite <- !app_assoc. Qed.

(** ** Fields *)

Definition set_flags (v : Z) (m : nlmsg) : nlmsg :=
  Nlmsg (nm_type m) v (nm_seq m) (nm_pid m) (nm_payload m).

Lemma put_app_mid pre d d' post off : off = Z.of_nat (length pre) → length d = length d' →
  put off d (pre ++ d' ++ post) = pre ++ d ++ post.
Proof.
  intros -> Hd. rewrite put_inserts, Nat2Z.id, <- (Nat.add_0_r (length pre)), list_inserts_app_r.
  f_equal. by rewrite list_inserts_0_r.
Qed.

Lemma flags_field pre m post : fields_ok m →
  let buf := pre ++ nlmsg_bytes m ++ post in
  h_flags (Z.of_nat (length pre)) buf = Some (nm_flags m, buf).
Proof.
  intros (_ & Hf & _) buf. unfold buf, nlmsg_bytes, h_flags, get16.
  rewrite (app_assoc (le 4 _) (le 2 _)).
  apply (read_field pre _ (nm_flags m) 2); [rewrite length_app, !length_le; lia|done].
Qed.

Lemma flags_write pre m post v :
  nl_write (Z.of_nat (length pre) + 6) (le 2 v) (pre ++ nlmsg_bytes m ++ post)
  = Some (tt, pre ++ nlmsg_bytes (set_flags v m) ++ post).
Proof.
  pose proof (length_nlmsg_bytes m). pose proof (nlmsg_size_ge m).
  rewrite nl_write_ok by (rewrite ?length_le, ?length_app; lia). f_equal. f_equal.
  unfold nlmsg_bytes. cbn [nm_type nm_flags nm_seq nm_pid nm_payload set_flags].
  change (nlmsg_size (set_flags v m)) with (nlmsg_size m).
  pose proof (put_app_mid (pre ++ le 4 (nlmsg_size m) ++ le 2 (nm_type m)) (le 2 v) (le 2 (nm_flags m))
    (le 4 (nm_seq m) ++ le 4 (nm_pid m) ++ nm_payload m ++ post) (Z.of_nat (length pre) + 6)) as Hp.
  rewrite <- !app_assoc in *. apply Hp; rewrite ?length_app, !length_le; lia.
Qed.

(** The [int] at the start of the payload. *)
Definition payload_int (m : nlmsg) : Z := s32 (unle (take 4 (nm_payload m))).

Lemma payload_read pre m post : 4 ≤ Z.of_nat (length (nm_payload m)) →
  let buf := pre ++ nlmsg_bytes m ++ post in
  get32 (Z.of_nat (length pre) + 16) buf = Some (unle (take 4 (nm_payload m)), buf).
Proof.
  intros Hl buf. unfold get32, cbind. assert (length buf = (length pre + length (nlmsg_bytes m) + length post)%nat)
    as Hb by (unfold buf; rewrite !length_app; lia).
  pose proof (length_nlmsg_bytes m). unfold nlmsg_size in *.
  rewrite nl_read_ok by lia. unfold cret. repeat f_equal. unfold sub, buf, nlmsg_bytes.
  replace (Z.to_nat (Z.of_nat (length pre) + 16)) with (length pre + 16)%nat by lia.
  rewrite drop_app_add. rewrite <- !app_assoc.
  set (a := le 4 _). set (b := le 2 _). set (c := le 2 _). set (d := le 4 (nm_seq m)). set (e := le 4 _).
  replace (a ++ b ++ c ++ d ++ e ++ nm_payload m ++ post)
    with ((a ++ b ++ c ++ d ++ e) ++ (nm_payload m ++ post)) by (by rewrite <- !app_assoc).
  rewrite drop_app_length' by (by rewrite !length_app; unfold a, b, c, d, e; rewrite !length_le).
  by rewrite take_app_le by lia.
Qed.

Lemma message_read pre m post :
  let buf := pre ++ nlmsg_bytes m ++ post in
  nl_read (Z.of_nat (length pre)) (Z.to_nat (nlmsg_size m)) buf = Some (nlmsg_bytes m, buf).
Proof.
  intros buf. pose proof (length_nlmsg_bytes m).
  rewrite nl_read_ok by (unfold buf; rewrite ?length_app; lia). unfold buf. by rewrite sub_app_mid by lia.
Qed.

Lemma set_flags_ok v m : 0 ≤ v < 2 ^ 16 → fields_ok m → fields_ok (set_flags v m).
Proof. intros Hv (Ht & _ & Hs & Hp & Hz). exact (conj Ht (conj Hv (conj Hs (conj Hp Hz)))). Qed.

Lemma land_range a b n : 0 ≤ a < 2 ^ n → 0 ≤ Z.land a b < 2 ^ n.
Proof.
  intros [Ha Han]. destruct (Z.le_gt_cases 0 n); [|rewrite Z.pow_neg_r in Han; lia].
  assert (Z.land a b = Z.land (Z.land a b) (Z.ones n)) as ->.
  { rewrite <- Z.land_assoc, (Z.land_comm b), Z.land_assoc. f_equal.
    symmetry. rewrite Z.land_ones by done. apply Z.mod_small. lia. }
  rewrite Z.land_ones by done. apply Z.mod_pos_bound. lia.
Qed.

(** ** One message of a dump *)

Section walk.
Context {A : Type}.
Variables (rth : rtnl_handle) (f : list Z → A → Z * A) (nc : Z) (recording : bool).

(** Whether the message answers the request. *)
Definition own (pid : Z) (m : nlmsg) : bool :=
  (pid =? 0) && (nm_pid m =? rtnl_pid rth) && (nm_seq m =? rtnl_dump rth).

Definition cleared (m : nlmsg) : nlmsg := set_flags (Z.land (nm_flags m) (Z.lnot nc)) m.

(** What a message from the port [pid] does to [errno], [dump_intr] and the
    state of the callback; and the result, if it ends the dump. *)
Definition dump_step (pid : Z) (m : nlmsg) (s : Z * bool * A) : option Z * (Z * bool * A) :=
  if negb (own pid m) then (None, s)
  else
    let '(errno, intr, a) := s in
    let m := cleared m in
    let intr := intr || negb (Z.land (nm_flags m) NLM_F_DUMP_INTR =? 0) in
    if nm_type m =? NLMSG_DONE then
      if payload_int m <? 0 then (Some (-1), (s32 (- payload_int m), intr, a)) else (Some 0, (errno, intr, a))
    else if nm_type m =? NLMSG_ERROR then
      (Some (-1), (if nlmsg_size m <? 36 then errno else s32 (- payload_int m), intr, a))
    else if recording then (None, (errno, intr, a))
    else
      let '(err, a) := f (nlmsg_bytes m) a in
      (if err <? 0 then Some err else None, (errno, intr, a)).

(** A whole dump. *)
Fixpoint dump_spec (ms : list (Z * nlmsg)) (s : Z * bool * A) : option Z * (Z * bool * A) :=
  match ms with
  | [] => (None, s)
  | (pid, m) :: ms =>
      match dump_step pid m s with
      | (None, s) => dump_spec ms s
      | r => r
      end
  end.

Lemma dump_spec_app l1 l2 s :
  dump_spec (l1 ++ l2) s = match dump_spec l1 s with (None, s) => dump_spec l2 s | r => r end.
Proof.
  revert s. induction l1 as [|[pid m] l1 IH]; intros s; [done|]. cbn [dump_spec app].
  destruct (dump_step pid m s) as [[r|] s']; [done|]. apply IH.
Qed.

(** A message that a dump can hold: the end carries its error number. *)
Definition dump_msg (m : nlmsg) : Prop :=
  fields_ok m ∧ (nm_type m = NLMSG_DONE → 4 ≤ Z.of_nat (length (nm_payload m))).

(** The state with [errno], [dump_intr] and the callback's state from [s]. *)
Definition mkst (buf : list Z) (file : option (list Z)) (s : Z * bool * A) : dump_state :=
  Dst buf s.1.1 s.1.2 file s.2.

Lemma on_buf_ok {X} (m : M (list Z) X) buf file s x b : m buf = Some (x, b) →
  on_buf m (mkst buf file s) = Some (x, mkst b file s).
Proof. unfold on_buf. simpl. by intros ->. Qed.

Definition walk_result (msglen r : Z) : walk_end := if r =? 0 then WalkDone msglen else WalkReturn r.
End walk.

(** Whether the dump goes to a file. *)
Definition recorded (file : option (list Z)) : bool := match file with Some _ => true | None => false end.

Ltac buf_step H := unfold cbind at 1; rewrite (on_buf_ok _ _ _ _ _ _ H).

Section walk_one.
Context {A : Type}.
Variables (rth : rtnl_handle) (f : list Z → A → Z * A) (nc : Z).

Lemma cleared_ok m : fields_ok m → fields_ok (cleared nc m).
Proof. intros Hok. apply set_flags_ok; [|done]. apply land_range. apply Hok. Qed.

Lemma NLMSG_OK_ok pre m post msglen : fields_ok m → nlmsg_size m ≤ msglen →
  let buf := pre ++ nlmsg_bytes m ++ post in
  NLMSG_OK (Z.of_nat (length pre)) msglen buf = Some (true, buf).
Proof.
  intros Hok Hl buf. destruct (nlmsg_fields pre m post Hok) as (H1 & _). pose proof (nlmsg_size_ge m).
  unfold NLMSG_OK. rewrite (proj2 (Z.leb_le 16 msglen)) by lia. unfold cbind, buf. rewrite H1. unfold cret.
  by rewrite (proj2 (Z.leb_le 16 _)), (proj2 (Z.leb_le _ msglen)) by lia.
Qed.

Lemma NLMSG_NEXT_ok pre m post msglen : fields_ok m → nlmsg_size m ≤ msglen < 2 ^ 31 →
  let buf := pre ++ nlmsg_bytes m ++ post in
  NLMSG_NEXT (Z.of_nat (length pre)) msglen buf
  = Some ((Z.of_nat (length pre) + align4 (nlmsg_size m), msglen - align4 (nlmsg_size m)), buf).
Proof.
  intros Hok Hl buf. destruct (nlmsg_fields pre m post Hok) as (H1 & _). pose proof (nlmsg_size_ge m).
  pose proof (align4_bounds (nlmsg_size m)).
  unfold NLMSG_NEXT, cbind, buf. rewrite H1. unfold cret. rewrite NLMSG_ALIGN_eq by lia.
  by rewrite s32_small by lia.
Qed.

Lemma dump_done_ok pre m post file (s : Z * bool * A) : dump_msg m → nm_type m = NLMSG_DONE →
  let buf := pre ++ nlmsg_bytes m ++ post in
  ∃ r, rtnl_dump_done (Z.of_nat (length pre)) (mkst buf file s)
    = Some (r, mkst buf file (if payload_int m <? 0 then (s32 (- payload_int m), s.1.2, s.2) else s)) ∧
    (r <? 0) = (payload_int m <? 0).
Proof.
  intros [Hok Hd] Ht buf. specialize (Hd Ht). destruct (nlmsg_fields pre m post Hok) as (H1 & _).
  pose proof (payload_read pre m post Hd) as H2. unfold rtnl_dump_done.
  assert ((let* v := get32 (Z.of_nat (length pre) + 16) in cret (s32 v)) buf = Some (payload_int m, buf)) as H3.
  { unfold cbind at 1. fold buf in H2. by rewrite H2. }
  buf_step H3. buf_step H1. unfold NLMSG_LENGTH. rewrite (proj2 (Z.ltb_ge _ (4 + 16))) by (unfold nlmsg_size; lia).
  destruct (payload_int m <? 0) eqn:Hn.
  - eexists. split; [reflexivity|]. by destruct (_ || _).
  - exists 0. by destruct s as [[]].
Qed.

Lemma dump_error_ok pre m post file (s : Z * bool * A) : fields_ok m →
  let buf := pre ++ nlmsg_bytes m ++ post in
  rtnl_dump_error (Z.of_nat (length pre)) (mkst buf file s)
  = Some (tt, mkst buf file (if nlmsg_size m <? 36 then s else (s32 (- payload_int m), s.1.2, s.2))).
Proof.
  intros Hok buf. destruct (nlmsg_fields pre m post Hok) as (H1 & _). unfold rtnl_dump_error.
  buf_step H1. unfold NLMSG_LENGTH. change (20 + 16) with 36.
  destruct (nlmsg_size m <? 36) eqn:Hs; [by destruct s as [[]]|]. apply Z.ltb_ge in Hs.
  assert (h_error (Z.of_nat (length pre)) buf = Some (payload_int m, buf)) as H2.
  { unfold h_error, cbind at 1. unfold buf. rewrite payload_read by (unfold nlmsg_size in Hs; lia). done. }
  by buf_step H2.
Qed.

Lemma dump_walk_one pid fuel pre m post msglen file s : dump_msg m → nlmsg_size m ≤ msglen < 2 ^ 31 →
  let recording := recorded file in
  let buf' := pre ++ nlmsg_bytes (cleared nc m) ++ post in
  let '(r, s') := dump_step rth f nc recording pid m s in
  dump_walk rth pid (S fuel) (FilterArg f nc) (Z.of_nat (length pre)) msglen
    (mkst (pre ++ nlmsg_bytes m ++ post) file s)
  = match r with
    | None => dump_walk rth pid fuel (FilterArg f nc) (Z.of_nat (length pre) + align4 (nlmsg_size m))
                (msglen - align4 (nlmsg_size m)) (mkst buf' file s')
    | Some r => Some (walk_result msglen r, mkst buf' file s')
    end.
Proof.
  intros Hd Hl recording buf'. pose proof (proj1 Hd) as Hok. pose proof (cleared_ok m Hok) as Hok'.
  assert (dump_msg (cleared nc m)) as Hd' by (split; [done|apply Hd]).
  destruct (nlmsg_fields pre _ post Hok') as (H1 & H2 & H3 & H4).
  pose proof (flags_field pre _ post Hok') as H5.
  pose proof (NLMSG_NEXT_ok pre _ post msglen Hok' Hl) as H6. cbv zeta in H1, H2, H3, H4, H5, H6.
  pose proof (message_read pre (cleared nc m) post) as H7. cbv zeta in H7. fold buf' in H1, H2, H3, H4, H5, H6, H7.
  unfold dump_step. cbn [dump_walk nc_flags filter]. buf_step (NLMSG_OK_ok pre m post msglen Hok (proj1 Hl)).
  cbn [negb]. buf_step (flags_field pre m post Hok).
  buf_step (flags_write pre m post (Z.land (nm_flags m) (Z.lnot nc))). fold (cleared nc m). fold buf'.
  buf_step H4. buf_step H3.
  assert (∀ s', (let* hs := on_buf (NLMSG_NEXT (Z.of_nat (length pre)) msglen) in
     dump_walk rth pid fuel (FilterArg f nc) hs.1 hs.2) (mkst buf' file s')
     = dump_walk rth pid fuel (FilterArg f nc) (Z.of_nat (length pre) + align4 (nlmsg_size m))
         (msglen - align4 (nlmsg_size m)) (mkst buf' file s')) as Hskip.
  { intros s'. by buf_step H6. }
  unfold own. rewrite !negb_andb. cbn [nm_pid nm_seq cleared set_flags].
  destruct (negb (pid =? 0) || negb (nm_pid m =? rtnl_pid rth) || negb (nm_seq m =? rtnl_dump rth)); [done|].
  destruct s as [[errno intr] a]. buf_step H5.
  set (intr' := intr || negb (Z.land (nm_flags (cleared nc m)) NLM_F_DUMP_INTR =? 0)).
  assert ((if Z.land (nm_flags (cleared nc m)) NLM_F_DUMP_INTR =? 0 then cret tt else update (set_intr true))
    (mkst buf' file (errno, intr, a)) = Some (tt, mkst buf' file (errno, intr', a))) as Hi.
  { unfold intr'. by destruct (_ =? 0), intr. }
  unfold cbind at 1. rewrite Hi. buf_step H2. cbn [nm_type cleared set_flags].
  destruct (nm_type m =? NLMSG_DONE) eqn:Ht; [|destruct (nm_type m =? NLMSG_ERROR)].
  - apply Z.eqb_eq in Ht. destruct (dump_done_ok pre _ post file (errno, intr', a) Hd' Ht) as (r & Hr & Hneg).
    unfold cbind at 1. unfold buf'. rewrite Hr, Hneg.
    by destruct (payload_int (cleared nc m) <? 0).
  - unfold cbind at 1. unfold buf'. rewrite dump_error_ok by done.
    by destruct (nlmsg_size (cleared nc m) <? 36).
  - buf_step H1. buf_step H7. unfold recording. unfold cbind at 1. cbn [d_file mkst].
    destruct file as [file|]; [apply Hskip|]. cbn [recorded d_arg mkst snd].
    destruct (f (nlmsg_bytes (cleared nc m)) a) as [err a']. destruct (err <? 0) eqn:He; [|apply (Hskip (errno, intr', a'))].
    unfold walk_result. apply Z.ltb_lt in He. by rewrite (proj2 (Z.eqb_neq _ _)) by lia.
Qed.

Lemma dump_walk_frames pid ms : ∀ fuel pre post file s, Forall dump_msg ms →
  Z.of_nat (length (frames ms)) < 2 ^ 31 → (length ms < fuel)%nat →
  let '(r, s') := dump_spec rth f nc (recorded file) (map (pair pid) ms) s in
  ∃ buf' msglen,
    dump_walk rth pid fuel (FilterArg f nc) (Z.of_nat (length pre)) (Z.of_nat (length (frames ms)))
      (mkst (pre ++ frames ms ++ post) file s)
    = Some (match r with None => WalkEnd 0 | Some r => walk_result msglen r end, mkst buf' file s').
Proof.
  induction ms as [|m ms IH]; intros fuel pre post file s Hms Hlen Hf; (destruct fuel as [|fuel]; [simpl in Hf; lia|]).
  { cbn [map dump_spec]. eexists _, 0. reflexivity. }
  apply Forall_cons_iff in Hms as [Hm Hms]. cbn [map dump_spec]. rewrite frame_split.
  pose proof (length_frame m) as Hlm. pose proof (align4_bounds (nlmsg_size m)).
  cbn [frames length] in *. rewrite length_app in Hlen |- *.
  pose proof (dump_walk_one pid fuel pre m (padding m ++ frames ms ++ post)
    (Z.of_nat (length (frame m) + length (frames ms))) file s Hm ltac:(lia)) as H1.
  cbv zeta in H1. destruct (dump_step rth f nc (recorded file) pid m s) as [[r|] s'] eqn:Hs.
  - eexists _, _. exact H1.
  - rewrite H1. assert (nlmsg_size (cleared nc m) = nlmsg_size m) as Hc by done.
    assert (pre ++ nlmsg_bytes (cleared nc m) ++ padding m ++ frames ms ++ post
            = (pre ++ nlmsg_bytes (cleared nc m) ++ padding m) ++ frames ms ++ post) as -> by (by rewrite <- !app_assoc).
    replace (Z.of_nat (length pre) + align4 (nlmsg_size m))
      with (Z.of_nat (length (pre ++ nlmsg_bytes (cleared nc m) ++ padding m))).
    2: { rewrite length_app, Nat2Z.inj_add. f_equal. by rewrite <- Hc, <- length_frame. }
    replace (Z.of_nat (length (frame m) + length (frames ms)) - align4 (nlmsg_size m))
      with (Z.of_nat (length (frames ms))) by lia.
    apply IH; [done|lia|lia].
Qed.
End walk_one.

(** ** Datagrams *)

(** A datagram on the socket: the interruptions of the two calls that read
    it, and its messages. *)
Record item := Item {
  it_peek : list Z;
  it_read : list Z;
  it_dgram : dgram;
  it_msgs : list nlmsg;
}.

Definition interruption (errno : Z) : Prop := errno = EINTR ∨ errno = EAGAIN.

Definition item_ok (it : item) : Prop :=
  Forall interruption (it_peek it) ∧ Forall interruption (it_read it) ∧
  dg_bytes (it_dgram it) = frames (it_msgs it) ∧ it_msgs it ≠ [] ∧ Forall dump_msg (it_msgs it) ∧
  Z.of_nat (length (frames (it_msgs it))) < 2 ^ 31.

(** What [recvmsg] returns for it: a peek and a read. *)
Definition item_trace (it : item) : trace :=
  map inl (it_peek it) ++ inr (it_dgram it) :: map inl (it_read it) ++ [inr (it_dgram it)].

Fixpoint socket (items : list item) : trace :=
  match items with
  | [] => []
  | it :: items => item_trace it ++ socket items
  end.

(** The messages with their senders. *)
Definition tagged (it : item) : list (Z * nlmsg) := map (pair (dg_pid (it_dgram it))) (it_msgs it).

Lemma recvmsg_interrupted errs tr : Forall interruption errs →
  __rtnl_recvmsg (map inl errs ++ tr) = __rtnl_recvmsg tr.
Proof.
  induction 1 as [|e errs He Herrs IH]; [done|]. cbn [map app __rtnl_recvmsg].
  by destruct He as [-> | ->].
Qed.

Lemma put_0 d blk : (length d ≤ length blk)%nat → put 0 d blk = d ++ drop (length d) blk.
Proof.
  intros Hl. pose proof (put_app_mid [] d (take (length d) blk) (drop (length d) blk) 0 eq_refl) as Hp.
  rewrite !app_nil_l, take_drop in Hp. apply Hp. rewrite length_take. lia.
Qed.

Lemma rtnl_recvmsg_item `{!Malloc} `{!MallocOk} k it tr : item_ok it → ∃ post,
  rtnl_recvmsg k (item_trace it ++ tr) = (Recv (it_dgram it) tr, frames (it_msgs it) ++ post).
Proof.
  intros (Hp & Hr & Hb & Hne & _ & _). unfold rtnl_recvmsg, item_trace.
  assert ((length (frames (it_msgs it)) =? 0)%nat = false) as Hz.
  { apply Nat.eqb_neq. pose proof (frames_length (it_msgs it)). destruct (it_msgs it); [done|]. simpl length in *. lia. }
  rewrite <- app_assoc, recvmsg_interrupted by done. cbn [app __rtnl_recvmsg]. rewrite Hb, Hz, Hb.
  destruct (malloc_ok k (Z.max 32768 (Z.of_nat (length (frames (it_msgs it)))))) as (blk & Hm & Hl); [lia|].
  rewrite Hm, <- app_assoc, recvmsg_interrupted by done. cbn [app __rtnl_recvmsg]. rewrite Hb, Hz, Hb.
  rewrite put_0 by lia. by eexists.
Qed.

Section loop.
Context {A : Type} `{HM : Malloc} `{!MallocOk}.
Variables (rth : rtnl_handle) (f : list Z → A → Z * A) (nc : Z).

(** What is written to the file: the datagrams read. *)
Fixpoint dump_bytes (recording : bool) (items : list item) (s : Z * bool * A) : list Z :=
  match items with
  | [] => []
  | it :: items =>
      frames (it_msgs it) ++
      match dump_spec rth f nc recording (tagged it) s with
      | (None, s) => dump_bytes recording items s
      | _ => []
      end
  end.

Lemma frames_aligned ms : Z.of_nat (length (frames ms)) mod 4 = 0.
Proof.
  induction ms as [|m ms IH]; [done|]. cbn [frames]. rewrite length_app, Nat2Z.inj_add, length_frame.
  by rewrite Zplus_mod, IH, align4_mod.
Qed.

Lemma dump_record_ok ms post file s : Z.of_nat (length (frames ms)) < 2 ^ 31 →
  dump_record (A := A) (Z.of_nat (length (frames ms))) (mkst (frames ms ++ post) file s)
  = Some (tt, mkst (frames ms ++ post) (option_map (λ fl, fl ++ frames ms) file) s).
Proof.
  intros Hl. unfold dump_record. cbn [d_file d_buf mkst]. destruct file as [fl|]; [|done].
  rewrite NLMSG_ALIGN_eq, align4_id by (apply frames_aligned || lia).
  rewrite nl_read_ok by (rewrite ?length_app; lia). rewrite Nat2Z.id. cbn [option_map].
  change 0 with (Z.of_nat (length (@nil Z))) at 1. by rewrite (sub_app_mid [] (frames ms) post).
Qed.

Lemma dump_loop_items items : ∀ fuel k file s buf, Forall item_ok items → (length items < fuel)%nat →
  let '(r, s') := dump_spec rth f nc (recorded file) (concat (map tagged items)) s in
  ∃ buf', dump_loop fuel rth [FilterArg f nc] k (socket items) (mkst buf file s)
    = Some (match r with None => Block | Some r => Ret r end,
            mkst buf' (option_map (λ fl, fl ++ dump_bytes (recorded file) items s) file) s').
Proof.
  induction items as [|it items IH]; intros fuel k file s buf Hit Hf; (destruct fuel as [|fuel]; [simpl in Hf; lia|]).
  { cbn [map concat dump_spec]. eexists. cbn [dump_bytes].
    destruct file; cbn [option_map]; by rewrite ?app_nil_r. }
  apply Forall_cons_iff in Hit as [Hit Hits]. cbn [map concat socket dump_bytes]. rewrite dump_spec_app.
  cbn [dump_loop]. destruct (rtnl_recvmsg_item k it (socket items) Hit) as [post Hrecv]. rewrite Hrecv.
  destruct Hit as (_ & _ & Hb & _ & Hms & Hl). rewrite Hb. unfold cbind at 1, update at 1.
  change (set_buf ?b (mkst buf file s)) with (mkst b file s).
  unfold cbind at 1. rewrite dump_record_ok by done. unfold cbind at 1. cbn [dump_filters].
  set (file' := option_map _ file). assert (recorded file' = recorded file) as Hrec by (by destruct file).
  pose proof (frames_length (it_msgs it)).
  pose proof (dump_walk_frames rth f nc (dg_pid (it_dgram it)) (it_msgs it) (S (length (frames (it_msgs it)))) []
    post file' s Hms Hl ltac:(lia)) as Hw. rewrite Hrec in Hw. fold (tagged it) in Hw.
  change (Z.of_nat (length (@nil Z))) with 0 in Hw. rewrite app_nil_l in Hw. unfold cbind at 1.
  destruct (dump_spec rth f nc (recorded file) (tagged it) s) as [[r|] s'].
  - destruct Hw as (buf' & msglen & Hw). exists buf'. rewrite Hw. unfold walk_result. destruct (r =? 0) eqn:Hr.
    + apply Z.eqb_eq in Hr as ->. unfold cret. rewrite app_nil_r. done.
    + by rewrite app_nil_r.
  - destruct Hw as (buf' & _ & Hw). rewrite Hw. cbn [dump_filters]. unfold cret at 1.
    specialize (IH fuel (S k) file' s' buf' Hits ltac:(simpl in Hf; lia)). rewrite Hrec in IH.
    destruct (dump_spec rth f nc (recorded file) (concat (map tagged items)) s') as [r' s''].
    destruct IH as [buf'' IH]. exists buf''. cbn [negb Z.eqb].
    assert (option_map (λ fl, fl ++ dump_bytes (recorded file) items s') file'
      = option_map (λ fl, fl ++ frames (it_msgs it) ++ dump_bytes (recorded file) items s') file) as Hfile
      by (unfold file'; destruct file; cbn [option_map]; by rewrite <- ?app_assoc).
    rewrite Hfile in IH. by destruct (dg_trunc (it_dgram it)).
Qed.
End loop.
