(* ===== verification/DumpTheorems.v ===== *)
(** * What the functions that read messages guarantee

    A dump is read message by message whatever its datagrams are and however
    often the calls are interrupted; a recorded dump is played back as it
    came; notifications reach the handler once and in order; and no datagram
    or file, however malformed, makes the loops read outside their buffers
    (the exceptions, datagrams that fill the buffer, are exhibited at the
    end). *)

From Stdlib Require Import ZArith Lia.
From stdpp Require Import base numbers list gmap option.
From S2P Require Import Prelude Netlink NetlinkTheorems Rtnl Dump DumpFrames.

Open Scope Z_scope.

(** ** Dumps *)

Lemma dump_nc_items {A} `{HM : Malloc} `{!MallocOk} rth (f : list Z → A → Z * A) nc items st :
  Forall item_ok items →
  let s := (d_errno st, false, d_arg st) in
  let recording := recorded (d_file st) in
  let '(r, s') := dump_spec rth f nc recording (concat (map tagged items)) s in
  ∃ buf', rtnl_dump_filter_nc rth f nc (socket items) st
    = Some (match r with None => Block | Some r => Ret r end,
            mkst buf' (option_map (λ fl, fl ++ dump_bytes rth f nc recording items s) (d_file st)) s').
Proof.
  intros Hit. destruct st as [buf errno intr file a]. cbn [d_file d_errno d_arg].
  assert (length items ≤ length (socket items))%nat as Hl.
  { clear Hit. induction items as [|it items IH]; [done|]. cbn [socket length]. rewrite length_app. unfold item_trace.
    rewrite length_app. simpl length. lia. }
  exact (dump_loop_items rth f nc items (S (length (socket items))) 0 file (errno, false, a) buf Hit ltac:(lia)).
Qed.

(** C21: [rtnl_dump_filter_nc] refines the abstract dump: whatever way the kernel
    distributes the messages over datagrams, and however often signals
    interrupt the calls, the callback gets the messages that answer the
    request, in order and once each, with the flags [nc] cleared, up to the
    end of the dump, an error or a callback that refuses; the messages of
    others are skipped; the result, [errno] and the interruption flag are
    those of the abstract dump. *)
Theorem rtnl_dump_refines {A} `{HM : Malloc} `{!MallocOk} rth (f : list Z → A → Z * A) nc items st :
  Forall item_ok items → d_file st = None →
  let '(r, s') := dump_spec rth f nc false (concat (map tagged items)) (d_errno st, false, d_arg st) in
  ∃ buf', rtnl_dump_filter_nc rth f nc (socket items) st
    = Some (match r with None => Block | Some r => Ret r end, mkst buf' None s').
Proof.
  intros Hit Hfile. pose proof (dump_nc_items rth f nc items st Hit) as H1. cbv zeta in H1.
  rewrite Hfile in H1. exact H1.
Qed.

(** ** Requests *)

(** The bytes are one message of the type [ty], possibly with unused space
    after it, that asks for a dump of the family and has the number the dump
    is read by. *)
Definition requests (ty family : Z) (rth : rtnl_handle) (bytes : list Z) : Prop :=
  ∃ payload post,
    bytes = nlmsg_bytes (Nlmsg ty (Z.lor NLM_F_DUMP NLM_F_REQUEST) (rtnl_dump rth) 0 payload) ++ post ∧
    head payload = Some (u8 family).

Lemma dump_req_message n ty size family r1 r2 rth : 1 ≤ size →
  n = NLMSG_LENGTH (size + Z.of_nat (length r1)) →
  requests ty family rth (dump_req n ty size family (r1 ++ r2) rth).
Proof.
  intros Hs Hn. exists ((u8 family :: replicate (Z.to_nat size - 1) 0) ++ r1), r2. split; [|done].
  unfold dump_req, header, nlmsg_bytes. cbn [nm_type nm_flags nm_seq nm_pid nm_payload].
  assert (nlmsg_size (Nlmsg ty (Z.lor NLM_F_DUMP NLM_F_REQUEST) (rtnl_dump rth) 0
    ((u8 family :: replicate (Z.to_nat size - 1) 0) ++ r1)) = n) as ->.
  { unfold nlmsg_size, NLMSG_LENGTH in *. cbn [nm_payload]. rewrite length_app. simpl length.
    rewrite length_replicate. lia. }
  by rewrite <- !app_assoc.
Qed.

Lemma dump_req_all n ty size family r1 rth : 1 ≤ size →
  n = NLMSG_LENGTH (size + Z.of_nat (length r1)) → requests ty family rth (dump_req n ty size family r1 rth).
Proof. intros Hs Hn. rewrite <- (app_nil_r r1). by apply dump_req_message. Qed.

Lemma dump_req_space n ty size family r2 rth : 1 ≤ size → n = NLMSG_LENGTH size →
  requests ty family rth (dump_req n ty size family r2 rth).
Proof. intros Hs Hn. apply (dump_req_message n ty size family [] r2); [done|]. by rewrite Z.add_0_r. Qed.

(** The request functions, each with the type of its message. *)
Definition request_fns (family mask : Z) : list (Z * (rtnl_handle → req_result * rtnl_handle)) :=
  [(RTM_GETADDR, rtnl_addrdump_req family None); (RTM_GETADDRLABEL, rtnl_addrlbldump_req family);
   (RTM_GETROUTE, rtnl_routedump_req family None); (RTM_GETRULE, rtnl_ruledump_req family);
   (RTM_GETNEIGH, rtnl_neighdump_req family None); (RTM_GETNEIGHTBL, rtnl_neightbldump_req family);
   (RTM_GETMDB, rtnl_mdbdump_req family); (RTM_GETNETCONF, rtnl_netconfdump_req family);
   (RTM_GETNSID, rtnl_nsiddump_req family); (RTM_GETLINK, rtnl_linkdump_req family);
   (RTM_GETLINK, rtnl_linkdump_req_filter family mask); (RTM_GETSTATS, rtnl_statsdump_req_filter family mask)].

Lemma linkdump_filter_requests family mask rth : ∃ bytes,
  rtnl_linkdump_req_filter family mask rth = (ReqSend bytes, next_dump rth) ∧
  requests RTM_GETLINK family (next_dump rth) bytes.
Proof.
  unfold rtnl_linkdump_req_filter, __rtnl_linkdump_req.
  destruct (_ || _); eexists; (split; [reflexivity|]); [by apply dump_req_all|by apply dump_req_space].
Qed.

(** Every request function sends one complete message of its type: the
    length in the header is that of the header, the family structure and its
    attributes, the flags ask for a dump, and the number is the one
    [rtnl_dump_filter_l] then expects of the answers. *)
Theorem dump_requests_wellformed family mask rth :
  Forall (λ '(ty, req), ∃ bytes, req rth = (ReqSend bytes, next_dump rth) ∧
                                 requests ty family (next_dump rth) bytes)
    (request_fns family mask).
Proof.
  unfold request_fns. repeat (apply Forall_cons_iff; split; [|]); try apply Forall_nil_2;
    try (eexists; split; [reflexivity|]; first [by apply dump_req_space|by apply dump_req_all]).
  - unfold rtnl_linkdump_req. destruct (family =? AF_UNSPEC); [apply linkdump_filter_requests|].
    eexists. split; [reflexivity|]. by apply dump_req_space.
  - apply linkdump_filter_requests.
Qed.

(** ** Notifications *)

Section handlers.
Context {A : Type}.
Variable f : ctrl_data → list Z → A → Z * A.

(** The handler on one message after the other, until it refuses one. *)
Fixpoint handle_all (ctrl : ctrl_data) (ms : list nlmsg) (a : A) : option Z * A :=
  match ms with
  | [] => (None, a)
  | m :: ms =>
      let '(err, a) := f ctrl (nlmsg_bytes m) a in
      if err <? 0 then (Some err, a) else handle_all ctrl ms a
  end.

Lemma handle_all_app ctrl l1 l2 a :
  handle_all ctrl (l1 ++ l2) a
  = match handle_all ctrl l1 a with (None, a) => handle_all ctrl l2 a | r => r end.
Proof.
  revert a. induction l1 as [|m l1 IH]; intros a; [done|]. cbn [handle_all app].
  destruct (f ctrl (nlmsg_bytes m) a) as [err a']. destruct (err <? 0); [done|]. apply IH.
Qed.

Lemma listen_walk_frames trunc ctrl ms : ∀ fuel pre post a, Forall fields_ok ms →
  Z.of_nat (length (frames ms)) < 2 ^ 31 → (length ms < fuel)%nat →
  let buf := pre ++ frames ms ++ post in
  let '(r, a') := handle_all ctrl ms a in
  listen_walk fuel f trunc ctrl (Z.of_nat (length pre)) (Z.of_nat (length (frames ms))) (buf, a)
  = Some (match r with None => ListenEnd 0 | Some e => ListenFinal (Ret e) end, (buf, a')).
Proof.
  induction ms as [|m ms IH]; intros fuel pre post a Hms Hlen Hf buf; (destruct fuel as [|fuel]; [simpl in Hf; lia|]).
  { done. }
  apply Forall_cons_iff in Hms as [Hm Hms]. unfold buf. rewrite frame_split.
  destruct (nlmsg_fields pre m (padding m ++ frames ms ++ post) Hm) as (H1 & _).
  pose proof (message_read pre m (padding m ++ frames ms ++ post)) as H2. cbv zeta in H1, H2.
  pose proof (length_frame m) as Hlm. pose proof (align4_bounds (nlmsg_size m)). pose proof (nlmsg_size_ge m).
  pose proof Hm as (_ & _ & _ & _ & Hsz). cbn [frames] in Hlen |- *. rewrite length_app in Hlen |- *.
  cbn [listen_walk handle_all]. rewrite u64_small, (proj2 (Z.leb_le 16 _)) by lia.
  rewrite H1, (s32_small (nlmsg_size m)), s32_small by lia.
  rewrite (proj2 (Z.ltb_ge (nlmsg_size m - 16) 0)), (proj2 (Z.ltb_ge _ (nlmsg_size m))) by lia. cbn [orb].
  rewrite H2. destruct (f ctrl (nlmsg_bytes m) a) as [err a']. destruct (err <? 0); [done|].
  rewrite NLMSG_ALIGN_eq by lia. rewrite frame_next.
  replace (Z.of_nat (length pre) + align4 (nlmsg_size m)) with (Z.of_nat (length (pre ++ frame m)))
    by (rewrite length_app; lia).
  replace (s32 (Z.of_nat (length (frame m) + length (frames ms)) - align4 (nlmsg_size m)))
    with (Z.of_nat (length (frames ms))) by (rewrite s32_small; lia).
  apply IH; [done|lia|simpl in Hf; lia].
Qed.

(** A notification: the interruptions before it, the datagram, its
    messages. *)
Record delivery := Delivery { ev_errs : list Z; ev_notice : notice; ev_msgs : list nlmsg }.

Definition delivery_ok (ev : delivery) : Prop :=
  Forall (λ e, e = EINTR ∨ e = EAGAIN ∨ e = ENOBUFS) (ev_errs ev) ∧
  dg_bytes (nt_dgram (ev_notice ev)) = frames (ev_msgs ev) ∧ dg_addr_ok (nt_dgram (ev_notice ev)) = true ∧
  ev_msgs ev ≠ [] ∧ Forall fields_ok (ev_msgs ev) ∧ Z.of_nat (length (frames (ev_msgs ev))) ≤ 16384.

Fixpoint notifications (evs : list delivery) : list (Z + notice) :=
  match evs with
  | [] => []
  | ev :: evs => map inl (ev_errs ev) ++ inr (ev_notice ev) :: notifications evs
  end.

Lemma listen_interrupted all_nsid controllen errs tr s :
  Forall (λ e, e = EINTR ∨ e = EAGAIN ∨ e = ENOBUFS) errs →
  listen_loop all_nsid f controllen (map inl errs ++ tr) s = listen_loop all_nsid f controllen tr s.
Proof.
  induction 1 as [|e errs He Herrs IH]; [done|]. cbn [map app listen_loop].
  by destruct He as [-> | [-> | ->]].
Qed.

Lemma listen_loop_deliveries evs : ∀ controllen buf a, Forall delivery_ok evs → Z.of_nat (length buf) = 16384 →
  let '(r, a') := handle_all CtrlUnset (concat (map ev_msgs evs)) a in
  ∃ buf', listen_loop false f controllen (notifications evs) (buf, a)
    = Some (match r with None => Block | Some e => Ret e end, (buf', a')).
Proof.
  induction evs as [|ev evs IH]; intros controllen buf a Hev Hbuf; [by eexists|].
  apply Forall_cons_iff in Hev as [(He & Hb & Haddr & Hne & Hok & Hl) Hevs].
  cbn [map concat notifications]. rewrite handle_all_app, listen_interrupted by done. cbn [listen_loop].
  destruct (recv_control controllen (nt_cmsgs (ev_notice ev))) as [cmsgs controllen'].
  rewrite Hb, Haddr, put_0 by lia. pose proof (frames_length (ev_msgs ev)).
  assert (length (ev_msgs ev) ≠ 0%nat) by (by destruct (ev_msgs ev)).
  rewrite (proj2 (Z.eqb_neq _ _)) by lia. cbn [negb].
  pose proof (listen_walk_frames (dg_trunc (nt_dgram (ev_notice ev))) CtrlUnset (ev_msgs ev)
    (S (S (length (frames (ev_msgs ev))))) [] (drop (length (frames (ev_msgs ev))) buf) a Hok ltac:(lia) ltac:(lia)) as Hw.
  cbv zeta in Hw. rewrite app_nil_l in Hw. change (Z.of_nat (length (@nil Z))) with 0 in Hw.
  destruct (handle_all CtrlUnset (ev_msgs ev) a) as [[e|] a']; unfold cbind; rewrite Hw; [by eexists|].
  specialize (IH controllen' (frames (ev_msgs ev) ++ drop (length (frames (ev_msgs ev))) buf) a' Hevs).
  rewrite length_app, length_drop in IH. specialize (IH ltac:(lia)).
  destruct (handle_all CtrlUnset (concat (map ev_msgs evs)) a') as [r a'']. destruct IH as [buf' IH].
  exists buf'. cbn [negb Z.eqb]. by destruct (dg_trunc (nt_dgram (ev_notice ev))).
Qed.

(** [rtnl_listen] hands every message of every notification to the
    handler, once and in the order it arrived, through interruptions and
    overruns of the socket, until the handler refuses one; its refusal is the
    result. *)
Theorem rtnl_listen_delivers rth evs buf a :
  Z.land (rtnl_flags rth) RTNL_HANDLE_F_LISTEN_ALL_NSID = 0 → Forall delivery_ok evs →
  Z.of_nat (length buf) = 16384 →
  let '(r, a') := handle_all CtrlUnset (concat (map ev_msgs evs)) a in
  ∃ buf', rtnl_listen rth f (notifications evs) (buf, a)
    = Some (match r with None => Block | Some e => Ret e end, (buf', a')).
Proof.
  intros Hfl Hev Hbuf. unfold rtnl_listen. rewrite Hfl. exact (listen_loop_deliveries evs 0 buf a Hev Hbuf).
Qed.
End handlers.

(** ** Recorded dumps *)

Lemma put_app_r pre d rest off : off = Z.of_nat (length pre) → (length d ≤ length rest)%nat →
  put off d (pre ++ rest) = pre ++ d ++ drop (length d) rest.
Proof.
  intros -> Hl. rewrite <- (take_drop (length d) rest) at 1.
  rewrite put_app_mid; [done..|]. rewrite length_take. lia.
Qed.

Definition msg_header (m : nlmsg) : list Z :=
  header (nlmsg_size m) (nm_type m) (nm_flags m) (nm_seq m) (nm_pid m).

Lemma length_msg_header m : length (msg_header m) = 16%nat.
Proof. unfold msg_header, header. by rewrite !length_app, !length_le. Qed.

Lemma nlmsg_bytes_header m : nlmsg_bytes m = msg_header m ++ nm_payload m.
Proof. unfold nlmsg_bytes, msg_header, header. by rewrite <- !app_assoc. Qed.

Lemma frame_header m : frame m = msg_header m ++ (nm_payload m ++ padding m).
Proof. unfold frame. by rewrite nlmsg_bytes_header, <- app_assoc. Qed.

Lemma length_body m : Z.of_nat (length (nm_payload m ++ padding m)) = align4 (nlmsg_size m - 16).
Proof.
  pose proof (length_frame m) as Hf. rewrite frame_header, length_app, length_msg_header in Hf.
  assert (align4 (nlmsg_size m) = align4 (nlmsg_size m - 16) + 16) as Ha.
  { unfold align4. replace (nlmsg_size m + 3) with (nlmsg_size m - 16 + 3 + 4 * 4) by lia.
    rewrite Z.div_add by lia. lia. }
  lia.
Qed.

Lemma fread_ok {A} off data rest buf (a : A) n : n = Z.of_nat (length data) → 0 ≤ off →
  off + n ≤ Z.of_nat (length buf) →
  fread off n (Fst buf (data ++ rest) a) = Some (n, Fst (put off data buf) rest a).
Proof.
  intros -> Hoff Hl. unfold fread. cbn [fs_file fs_buf fs_arg]. rewrite Nat2Z.id, take_app_length, drop_app_length.
  by rewrite nl_write_ok by lia.
Qed.

Section replay.
Context {A : Type}.
Variable f : ctrl_data → list Z → A → Z * A.

Lemma header_len m rest : fields_ok m →
  h_len 0 (msg_header m ++ rest) = Some (nlmsg_size m, msg_header m ++ rest).
Proof.
  intros (_ & _ & _ & _ & Hsz). pose proof (nlmsg_size_ge m). unfold h_len, get32.
  apply (read_field [] [] (nlmsg_size m) 4 _ rest 0); [done|].
  change (256 ^ Z.of_nat 4) with (2 ^ 32). lia.
Qed.

Lemma from_file_frames ms : ∀ fuel buf a, Forall fields_ok ms → Forall (λ m, nlmsg_size m ≤ 16384) ms →
  Z.of_nat (length buf) = 16384 → (length ms < fuel)%nat →
  let '(r, a') := handle_all f CtrlNull ms a in
  ∃ buf' rest, from_file_loop fuel f (Fst buf (frames ms) a)
    = Some (match r with None => 0 | Some e => e end, Fst buf' rest a').
Proof.
  induction ms as [|m ms IH]; intros fuel buf a Hms Hsz Hbuf Hf; (destruct fuel as [|fuel]; [simpl in Hf; lia|]).
  { cbn [handle_all from_file_loop frames]. unfold cbind, fread. cbn [fs_file fs_buf fs_arg].
    rewrite take_nil, drop_nil, nl_write_ok by (simpl; lia). simpl. by eexists _, _. }
  apply Forall_cons_iff in Hms as [Hm Hms]. apply Forall_cons_iff in Hsz as [Hs Hsz].
  pose proof (nlmsg_size_ge m). pose proof (length_body m) as Hbody. pose proof (align4_bounds (nlmsg_size m - 16)).
  pose proof (length_msg_header m) as Hhdr. pose proof (align4_mod (nlmsg_size m - 16)) as Hmod.
  assert (align4 (nlmsg_size m - 16) ≤ 16368) as Hcap.
  { pose proof (Z.div_mod (align4 (nlmsg_size m - 16)) 4 ltac:(lia)). lia. }
  cbn [handle_all from_file_loop frames]. rewrite frame_header, <- app_assoc. unfold cbind at 1.
  rewrite fread_ok by lia. cbn [Z.eqb fs_buf]. rewrite put_0 by lia.
  rewrite header_len by done. rewrite (s32_small (nlmsg_size m)), s32_small by lia.
  rewrite u64_small, (proj2 (Z.ltb_ge _ 0)), (proj2 (Z.ltb_ge 16384 _)) by lia. cbn [orb].
  rewrite NLMSG_ALIGN_eq by lia. unfold cbind.
  rewrite (fread_ok 16 (nm_payload m ++ padding m)); [|done|lia|rewrite length_app, length_drop; lia].
  rewrite (proj2 (Z.ltb_ge (align4 _) _)) by lia. cbn [fs_buf fs_arg fs_file].
  rewrite put_app_r by (rewrite ?length_drop; lia). rewrite Hhdr.
  set (buf2 := msg_header m ++ _ ++ _).
  assert (Z.of_nat (length buf2) = 16384) as Hb2.
  { unfold buf2. rewrite length_app, (length_app (_ ++ _)), !length_drop. lia. }
  assert (nl_read 0 (Z.to_nat (nlmsg_size m)) buf2 = Some (nlmsg_bytes m, buf2)) as ->.
  { unfold buf2. rewrite <- (app_assoc (nm_payload m)), (app_assoc (msg_header m)), <- nlmsg_bytes_header.
    exact (message_read [] m _). }
  destruct (f CtrlNull (nlmsg_bytes m) a) as [err a']. destruct (err <? 0); [by eexists _, _|].
  apply (IH fuel buf2 a'); [done|done|done|simpl in Hf; lia].
Qed.
End replay.

Section roundtrip.
Context {A : Type} `{HM : Malloc} `{!MallocOk}.
Variables (rth : rtnl_handle) (f : list Z → A → Z * A) (nc : Z).

(** A message that does not end the dump, and one that ends it. *)
Definition ordinary (pid : Z) (m : nlmsg) : Prop :=
  own rth pid m = true → nm_type m ≠ NLMSG_DONE ∧ nm_type m ≠ NLMSG_ERROR.

Definition ending (pid : Z) (m : nlmsg) : Prop :=
  own rth pid m = true ∧ nm_type m = NLMSG_DONE ∧ 0 ≤ payload_int m.

Definition all_ordinary (it : item) : Prop := Forall (ordinary (dg_pid (it_dgram it))) (it_msgs it).

(** A datagram with the end of the dump. *)
Definition last_item (it : item) : Prop :=
  ∃ l1 m l2, it_msgs it = l1 ++ m :: l2 ∧ Forall (ordinary (dg_pid (it_dgram it))) l1 ∧
    ending (dg_pid (it_dgram it)) m.

Lemma spec_ordinary pid ms s : Forall (ordinary pid) ms →
  ∃ s', dump_spec rth f nc true (map (pair pid) ms) s = (None, s').
Proof.
  intros Hms. revert s. induction Hms as [|m ms Hm Hms IH]; intros s; [by eexists|]. cbn [map dump_spec].
  unfold dump_step. unfold ordinary in Hm. destruct (own rth pid m); cbn [negb]; [|apply IH].
  destruct Hm as [H1 H2]; [done|]. destruct s as [[errno intr] a]. cbn [nm_type cleared set_flags].
  rewrite (proj2 (Z.eqb_neq _ _) H1), (proj2 (Z.eqb_neq _ _) H2). apply IH.
Qed.

Lemma spec_last it s : last_item it → ∃ s', dump_spec rth f nc true (tagged it) s = (Some 0, s').
Proof.
  intros (l1 & m & l2 & Hms & H1 & Hown & Ht & Hp). unfold tagged. rewrite Hms, map_app, dump_spec_app.
  destruct (spec_ordinary _ l1 s H1) as [s1 ->]. cbn [map dump_spec]. unfold dump_step. rewrite Hown. cbn [negb].
  destruct s1 as [[errno intr] a]. cbn [nm_type cleared set_flags]. rewrite Ht, Z.eqb_refl.
  change (payload_int (cleared nc m)) with (payload_int m). rewrite (proj2 (Z.ltb_ge _ 0)) by done. by eexists.
Qed.

Lemma recorded_dump its it s : Forall all_ordinary its → last_item it →
  (∃ s', dump_spec rth f nc true (concat (map tagged (its ++ [it]))) s = (Some 0, s')) ∧
  dump_bytes rth f nc true (its ++ [it]) s = frames (concat (map it_msgs (its ++ [it]))).
Proof.
  intros Hits Hit. revert s. induction Hits as [|it' its Hi Hits IH]; intros s; cbn [app map concat dump_bytes].
  - rewrite !app_nil_r. destruct (spec_last it s Hit) as [s' Hs]. split; [by eexists|]. by rewrite Hs, app_nil_r.
  - rewrite dump_spec_app, frames_app. destruct (spec_ordinary (dg_pid (it_dgram it')) (it_msgs it') s Hi) as [s1 H1].
    fold (tagged it') in H1. rewrite H1. destruct (IH s1) as [H2 H3]. split; [done|]. by rewrite H3.
Qed.

(** C34: A dump that goes to a file can be played back: when the kernel ends
    its dump without an error, [rtnl_dump_filter_nc] succeeds, and
    [rtnl_from_file] on what it wrote gives the handler the messages of the
    datagrams read, all of them, in the order and as they arrived. *)
Theorem dump_replay_roundtrip {B} its it st (g : ctrl_data → list Z → B → Z * B) buf b :
  Forall item_ok (its ++ [it]) → Forall all_ordinary its → last_item it →
  d_file st = Some [] →
  Forall (λ m, nlmsg_size m ≤ 16384) (concat (map it_msgs (its ++ [it]))) →
  Z.of_nat (length buf) = 16384 →
  ∃ st' file, rtnl_dump_filter_nc rth f nc (socket (its ++ [it])) st = Some (Ret 0, st') ∧
    d_file st' = Some file ∧
    let '(r, b') := handle_all g CtrlNull (concat (map it_msgs (its ++ [it]))) b in
    ∃ buf' rest, rtnl_from_file g (Fst buf file b)
      = Some (match r with None => 0 | Some e => e end, Fst buf' rest b').
Proof.
  intros Hok Hits Hit Hfile Hsz Hbuf. pose proof (dump_nc_items rth f nc (its ++ [it]) st Hok) as H1.
  cbv zeta in H1. rewrite Hfile in H1. cbn [recorded option_map app] in H1.
  destruct (recorded_dump its it (d_errno st, false, d_arg st) Hits Hit) as [[s' Hs] Hb].
  rewrite Hs, Hb in H1. destruct H1 as [buf1 H1]. eexists _, _. split; [exact H1|]. split; [reflexivity|].
  unfold rtnl_from_file. cbn [fs_file]. pose proof (frames_length (concat (map it_msgs (its ++ [it])))).
  apply from_file_frames; [|done|done|lia].
  apply Forall_concat, Forall_map. eapply Forall_impl; [|exact Hok]. intros i (_ & _ & _ & _ & Hi & _).
  eapply Forall_impl; [|exact Hi]. by intros m [? _].
Qed.
End roundtrip.
