(* ===== verification/DumpSafe.v ===== *)
(** * The loops of Dump.v on arbitrary bytes

    Whatever the datagrams and the files hold, the loops end and stay inside
    their buffers, as long as a datagram does not fill the buffer to the last
    bytes. *)

From Stdlib Require Import ZArith Lia.
From stdpp Require Import base numbers list gmap option.
From S2P Require Import Prelude Netlink NetlinkTheorems Rtnl Dump DumpFrames DumpTheorems.

Open Scope Z_scope.

(** [c] returns, and the buffer keeps its size. *)
Definition stays {A X} (c : M (dump_state (A := A)) X) (s : dump_state) : Prop :=
  ∃ x s', c s = Some (x, s') ∧ length (d_buf s') = length (d_buf s).

Lemma stays_read {A X Y} (m : M (list Z) X) (k : X → M (dump_state (A := A)) Y) s x :
  m (d_buf s) = Some (x, d_buf s) → stays (k x) s → stays (cbind (on_buf m) k) s.
Proof.
  intros Hm Hk. unfold stays, cbind, on_buf. rewrite Hm. by destruct s.
Qed.

Lemma stays_write {A X Y} (m : M (list Z) X) (k : X → M (dump_state (A := A)) Y) s x b :
  m (d_buf s) = Some (x, b) → length b = length (d_buf s) → stays (k x) (set_buf b s) →
  stays (cbind (on_buf m) k) s.
Proof.
  intros Hm Hb (y & s' & Hk & Hl). exists y, s'. unfold cbind, on_buf. rewrite Hm. split; [done|].
  by rewrite Hl, <- Hb.
Qed.

(** A step that leaves the buffer alone. *)
Lemma stays_pure {A X Y} (c : M (dump_state (A := A)) X) (k : X → M dump_state Y) s :
  (∃ x s', c s = Some (x, s') ∧ d_buf s' = d_buf s ∧ stays (k x) s') → stays (cbind c k) s.
Proof.
  intros (x & s1 & Hc & Hb & (y & s2 & Hk & Hl)). exists y, s2. unfold cbind. rewrite Hc. split; [done|].
  by rewrite Hl, Hb.
Qed.

Lemma h_fields_ok h buf : 0 ≤ h → h + 16 ≤ Z.of_nat (length buf) →
  (∃ n, h_len h buf = Some (n, buf) ∧ n = unle (sub h 4 buf)) ∧ (∃ t, h_type h buf = Some (t, buf)) ∧
  (∃ fl, h_flags h buf = Some (fl, buf)) ∧ (∃ sq, h_seq h buf = Some (sq, buf)) ∧
  ∃ p, h_pid h buf = Some (p, buf).
Proof.
  intros Hh Hl. unfold h_len, h_type, h_flags, h_seq, h_pid.
  rewrite !get32_ok, !get16_ok by lia.
  split; [by eexists|]. split; [by eexists|]. split; [by eexists|]. split; by eexists.
Qed.

Section dump_safe.
Context {A : Type}.
Variables (rth : rtnl_handle) (pid : Z).
Implicit Types s : dump_state (A := A).

Lemma dump_done_safe h s : 0 ≤ h → h + 20 ≤ Z.of_nat (length (d_buf s)) → stays (rtnl_dump_done h) s.
Proof.
  intros Hh Hl. destruct (h_fields_ok h (d_buf s) Hh ltac:(lia)) as ((n & Hn & _) & _).
  unfold rtnl_dump_done. eapply stays_read; [unfold cbind at 1; rewrite get32_ok by lia; reflexivity|].
  eapply stays_read; [exact Hn|]. destruct (n <? NLMSG_LENGTH 4); [by eexists _, _|].
  destruct (_ <? 0); by eexists _, _.
Qed.

Lemma dump_error_safe h n s : 0 ≤ h → h_len h (d_buf s) = Some (n, d_buf s) →
  h + n ≤ Z.of_nat (length (d_buf s)) → stays (rtnl_dump_error h) s.
Proof.
  intros Hh Hn Hl. unfold rtnl_dump_error. eapply stays_read; [exact Hn|]. unfold NLMSG_LENGTH.
  destruct (n <? 20 + 16) eqn:Hlt; [by eexists _, _|]. apply Z.ltb_ge in Hlt.
  eapply stays_read; [unfold h_error, cbind at 1; rewrite get32_ok by lia; reflexivity|]. by eexists _, _.
Qed.

Lemma stays_bind {X Y} (c : M (dump_state (A := A)) X) (k : X → M dump_state Y) s :
  stays c s → (∀ x s', length (d_buf s') = length (d_buf s) → stays (k x) s') → stays (cbind c k) s.
Proof.
  intros (x & s1 & Hc & Hl) Hk. destruct (Hk x s1 Hl) as (y & s2 & Hy & Hl2). exists y, s2.
  unfold cbind. rewrite Hc. split; [done|]. lia.
Qed.

Lemma dump_walk_safe a fuel : ∀ h msglen s, 0 ≤ h → msglen < 2 ^ 31 →
  h + msglen + 4 ≤ Z.of_nat (length (d_buf s)) → msglen < 16 * Z.of_nat fuel → (0 < fuel)%nat →
  stays (dump_walk rth pid fuel a h msglen) s.
Proof.
  induction fuel as [|fuel IH]; intros h msglen s Hh Hm Hl Hf Hf0; [lia|]. cbn [dump_walk].
  destruct (16 <=? msglen) eqn:H16.
  2: { eapply stays_read; [unfold NLMSG_OK; rewrite H16; reflexivity|]. by eexists _, _. }
  apply Z.leb_le in H16. destruct (h_fields_ok h (d_buf s) Hh ltac:(lia)) as ((n & Hn & Hsub) & _ & (fl & Hfl) & _).
  eapply stays_read.
  { unfold NLMSG_OK. rewrite (proj2 (Z.leb_le 16 msglen)) by done. unfold cbind. rewrite Hn. reflexivity. }
  destruct ((16 <=? n) && (n <=? msglen)) eqn:Hok; cbn [negb]; [|by eexists _, _].
  apply andb_prop in Hok as [Hn1%Z.leb_le Hn2%Z.leb_le]. eapply stays_read; [exact Hfl|].
  set (b1 := put (h + 6) (le 2 (Z.land fl (Z.lnot (nc_flags a)))) (d_buf s)).
  assert (length b1 = length (d_buf s)) as Hlb by (apply length_put).
  eapply (stays_write _ _ _ tt b1); [by rewrite nl_write_ok by (rewrite ?length_le; lia)|done|].
  set (s1 := set_buf b1 s). assert (d_buf s1 = b1) as Hs1 by done.
  destruct (h_fields_ok h b1 Hh ltac:(lia)) as ((n1 & Hn1' & Hsub1) & (t & Ht) & (fl1 & Hfl1) & (sq & Hsq) & (p & Hp)).
  assert (n1 = n) as ->.
  { rewrite Hsub1, Hsub. unfold b1. by rewrite sub_put_other by (rewrite ?length_le; lia). }
  clearbody s1. clear Hfl Hn Hsub Hsub1. clearbody b1. subst b1.
  assert (∀ s', d_buf s' = d_buf s1 → stays (let* hs := on_buf (NLMSG_NEXT h msglen) in dump_walk rth pid fuel a hs.1 hs.2) s')
    as Hskip.
  { intros s' Hs'. eapply stays_read; [rewrite Hs'; unfold NLMSG_NEXT, cbind; rewrite Hn1'; reflexivity|].
    cbn [fst snd]. pose proof (align4_bounds n). rewrite NLMSG_ALIGN_eq, s32_small by lia. apply IH; rewrite ?Hs'; lia. }
  eapply stays_read; [exact Hp|]. eapply stays_read; [exact Hsq|]. destruct (_ || _); [by apply Hskip|].
  eapply stays_read; [exact Hfl1|]. apply stays_pure.
  assert (∃ s2, (if Z.land fl1 NLM_F_DUMP_INTR =? 0 then cret tt else update (set_intr true)) s1 = Some (tt, s2)
    ∧ d_buf s2 = d_buf s1) as (s2 & Hi & Hs2) by (destruct (_ =? 0); eexists; by split).
  exists tt, s2. split; [done|]. split; [done|]. rewrite <- Hs2 in *.
  eapply stays_read; [exact Ht|]. destruct (t =? NLMSG_DONE); [|destruct (t =? NLMSG_ERROR)].
  - apply stays_bind; [apply dump_done_safe; lia|]. intros err s3 _. by eexists _, _.
  - apply stays_bind; [apply (dump_error_safe h n); [done|done|lia]|]. intros [] s3 _. by eexists _, _.
  - eapply stays_read; [exact Hn1'|].
    eapply stays_read; [rewrite nl_read_ok by (rewrite ?Z2Nat.id by lia; lia); reflexivity|].
    apply stays_pure. destruct (d_file s2) as [file|] eqn:Hfile.
    + eexists 0, s2. by split_and!; [|done|apply Hskip].
    + destruct (filter a _ (d_arg s2)) as [err arg]. exists err, (set_arg arg s2).
      split_and!; [done|done|]. destruct (err <? 0); [by eexists _, _|by apply Hskip].
Qed.
End dump_safe.

(** A trace of datagrams that leave a word of the receive buffer free. *)
Definition short (n : Z) (x : Z + dgram) : Prop :=
  match x with
  | inl _ => True
  | inr dg => Z.of_nat (length (dg_bytes dg)) ≤ n
  end.

Lemma recvmsg_shrinks n tr dg tr' : __rtnl_recvmsg tr = Recv dg tr' → Forall (short n) tr →
  (length tr' < length tr)%nat ∧ Z.of_nat (length (dg_bytes dg)) ≤ n ∧ Forall (short n) tr'.
Proof.
  intros Hr Htr. induction Htr as [|x tr Hx Htr IH]; [done|]. cbn [__rtnl_recvmsg] in Hr. destruct x as [errno|dg'].
  - destruct (_ || _); [|done]. destruct (IH Hr) as (? & ? & ?). cbn [length]. split; [lia|done].
  - destruct (_ =? 0)%nat; [done|]. injection Hr as -> ->. cbn [length]. split; [lia|done].
Qed.

Section dump_loop_safe.
Context {A : Type} `{HM : Malloc} `{!MallocOk}.
Variables (rth : rtnl_handle).
Implicit Types s : dump_state (A := A).

Lemma recvmsg_safe k tr dg tr' buf : rtnl_recvmsg k tr = (Recv dg tr', buf) → Forall (short 32764) tr →
  (length tr' < length tr)%nat ∧ Z.of_nat (length (dg_bytes dg)) ≤ 32764 ∧
  32768 ≤ Z.of_nat (length buf) ∧ Forall (short 32764) tr'.
Proof.
  unfold rtnl_recvmsg. intros Hr Htr. destruct (__rtnl_recvmsg tr) as [| |dg1 tr1] eqn:H1; [done..|].
  destruct (recvmsg_shrinks _ _ _ _ H1 Htr) as (L1 & _ & T1).
  destruct (malloc_ok k (Z.max 32768 (Z.of_nat (length (dg_bytes dg1))))) as (blk & Hm & Hl); [lia|].
  rewrite Hm in Hr. destruct (__rtnl_recvmsg tr1) as [| |dg2 tr2] eqn:H2; [done..|].
  destruct (recvmsg_shrinks _ _ _ _ H2 T1) as (L2 & B2 & T2).
  injection Hr as -> -> <-. rewrite length_put. split; [lia|]. split; [done|]. split; [lia|done].
Qed.

Lemma dump_filters_safe pid fuel args status : status < 2 ^ 31 → status < 16 * Z.of_nat fuel → (0 < fuel)%nat →
  ∀ found msglen s, status + 4 ≤ Z.of_nat (length (d_buf s)) →
  stays (dump_filters rth pid fuel args status found msglen) s.
Proof.
  intros Hst Hf Hf0. induction args as [|a args IH]; intros found msglen s Hl; cbn [dump_filters]; [by eexists _, _|].
  apply stays_bind; [apply dump_walk_safe; lia|]. intros r s' Hs'.
  destruct r; [apply IH; lia|apply IH; lia|by eexists _, _].
Qed.

Lemma dump_record_safe status s : 0 ≤ status ≤ 32764 → 32768 ≤ Z.of_nat (length (d_buf s)) →
  stays (dump_record status) s.
Proof.
  intros Hst Hl. unfold stays, dump_record. destruct (d_file s); [|by eexists _, _].
  pose proof (align4_bounds status). rewrite NLMSG_ALIGN_eq by lia.
  rewrite nl_read_ok by (rewrite ?Z2Nat.id; lia). by eexists _, _.
Qed.

Lemma dump_loop_safe args fuel : ∀ k tr s, Forall (short 32764) tr → (length tr < fuel)%nat →
  ∃ o s', dump_loop fuel rth args k tr s = Some (o, s').
Proof.
  induction fuel as [|fuel IH]; intros k tr s Htr Hf; [lia|]. cbn [dump_loop].
  destruct (rtnl_recvmsg k tr) as [[|ret tr'|dg tr'] buf] eqn:Hr; [by eexists _, _..|].
  destruct (recvmsg_safe _ _ _ _ _ Hr Htr) as (Hlt & Hdg & Hbuf & Htr').
  set (status := Z.of_nat (length (dg_bytes dg))) in *. unfold cbind at 1, update.
  set (s0 := set_buf buf s). assert (d_buf s0 = buf) as Hs0 by done. rewrite <- Hs0 in Hbuf.
  destruct (dump_record_safe status s0 ltac:(lia) Hbuf) as (u & s1 & Hrec & Hl1).
  unfold cbind at 1. rewrite Hrec.
  destruct (dump_filters_safe (dg_pid dg) (S (length (dg_bytes dg))) args status ltac:(lia) ltac:(lia) ltac:(lia)
    false 0 s1 ltac:(lia)) as (r & s2 & Hw & _).
  unfold cbind at 1. rewrite Hw. destruct r as [ret|[found msglen]]; [by eexists _, _|].
  destruct found; [by eexists _, _|]. destruct (dg_trunc dg); [apply IH; [done|lia]|].
  destruct (negb (msglen =? 0)); [by eexists _, _|]. apply IH; [done|lia].
Qed.

End dump_loop_safe.

(** ** Files *)

Section file_safe.
Context {A : Type}.
Variable f : ctrl_data → list Z → A → Z * A.

Lemma fread_safe off n (s : file_state (A := A)) : 0 ≤ off → 0 ≤ n → off + n ≤ Z.of_nat (length (fs_buf s)) →
  ∃ buf', fread off n s = Some (Z.min n (Z.of_nat (length (fs_file s))),
                                Fst buf' (drop (Z.to_nat n) (fs_file s)) (fs_arg s)) ∧
    length buf' = length (fs_buf s).
Proof.
  intros Ho Hn Hl. unfold fread. pose proof (length_take (fs_file s) (Z.to_nat n)) as Ht.
  rewrite nl_write_ok by lia. eexists. split; [|apply length_put]. repeat f_equal. lia.
Qed.

Lemma from_file_safe fuel : ∀ s : file_state (A := A), Z.of_nat (length (fs_buf s)) = 16384 →
  (length (fs_file s) < fuel)%nat → ∃ r s', from_file_loop fuel f s = Some (r, s').
Proof.
  induction fuel as [|fuel IH]; intros s Hb Hf; [lia|]. cbn [from_file_loop].
  destruct (fread_safe 0 16 s ltac:(lia) ltac:(lia) ltac:(lia)) as (b1 & Hr1 & Hl1).
  unfold cbind at 1. rewrite Hr1. destruct (_ =? 0) eqn:H0; [by eexists _, _|]. apply Z.eqb_neq in H0. cbn [fs_buf].
  unfold h_len. rewrite get32_ok by lia. set (len := s32 (unle (sub 0 4 b1))).
  assert (- 2 ^ 31 ≤ len < 2 ^ 31) as Hlen by apply s32_range.
  destruct ((s32 (len - 16) <? 0) || (16384 <? u64 len)) eqn:Hbad; [by eexists _, _|].
  apply orb_false_elim in Hbad as [Hl0%Z.ltb_ge Hu%Z.ltb_ge].
  assert (16 ≤ len ≤ 16384) as Hlen16.
  { destruct (Z.lt_ge_cases len 0) as [Hneg|Hpos].
    - exfalso. unfold u64 in Hu. rewrite <- (Z.mod_add len 1) in Hu by lia. rewrite Z.mod_small in Hu by lia. lia.
    - rewrite u64_small in Hu by lia. rewrite s32_small in Hl0 by lia. lia. }
  rewrite s32_small by lia. rewrite NLMSG_ALIGN_eq by lia. pose proof (align4_bounds (len - 16)).
  pose proof (Z.div_mod (align4 (len - 16)) 4 ltac:(lia)). pose proof (align4_mod (len - 16)).
  set (s1 := Fst b1 _ _).
  destruct (fread_safe 16 (align4 (len - 16)) s1 ltac:(lia) ltac:(lia)) as (b2 & Hr2 & Hl2); [cbn; lia|].
  unfold cbind. rewrite Hr2. destruct (_ <? len - 16); [by eexists _, _|]. cbn [fs_buf fs_file fs_arg].
  cbn [fs_buf s1] in Hl2. rewrite nl_read_ok by (rewrite ?Z2Nat.id; lia).
  destruct (f CtrlNull _ _) as [err a]. destruct (err <? 0); [by eexists _, _|].
  apply IH; cbn [fs_buf fs_file s1]; rewrite ?length_drop; lia.
Qed.

(** [rtnl_from_file] can be given any file: it stays inside its buffer of
    16384 bytes, whatever it holds, and returns. *)
Theorem rtnl_from_file_safe s : Z.of_nat (length (fs_buf s)) = 16384 →
  ∃ r s', rtnl_from_file f s = Some (r, s').
Proof. intros Hb. apply from_file_safe; [done|lia]. Qed.
End file_safe.

(** ** Examples *)

#[export] Instance nlmsg_eq_dec : EqDecision nlmsg.
Proof. solve_decision. Defined.

#[export] Instance fields_ok_dec m : Decision (fields_ok m).
Proof. unfold fields_ok. apply _. Defined.

#[export] Instance dump_msg_dec m : Decision (dump_msg m).
Proof. unfold dump_msg. apply _. Defined.

#[export] Instance interruption_dec e : Decision (interruption e).
Proof. unfold interruption. apply _. Defined.

#[export] Instance item_ok_dec it : Decision (item_ok it).
Proof. unfold item_ok. apply _. Defined.

#[export] Instance delivery_ok_dec ev : Decision (delivery_ok ev).
Proof. unfold delivery_ok. apply _. Defined.

#[export] Instance ordinary_dec rth pid m : Decision (ordinary rth pid m).
Proof. unfold ordinary. apply _. Defined.

#[export] Instance all_ordinary_dec rth it : Decision (all_ordinary rth it).
Proof. unfold all_ordinary. apply _. Defined.

#[export] Instance short_dec n x : Decision (short n x).
Proof. destruct x; simpl; apply _. Defined.

#[local] Instance sample_malloc : Malloc := λ _ n, Some (replicate (Z.to_nat n) 0).

#[local] Instance sample_malloc_ok : MallocOk.
Proof. intros k n Hn. eexists. split; [reflexivity|]. rewrite length_replicate. lia. Defined.

(** A dump in two datagrams: two messages of the answer, one for another port,
    the end. *)
Definition sample_dump_rth : rtnl_handle := Rtnl 7 4711 7 0 0.

Definition sample_msg (seq b : Z) : nlmsg := Nlmsg 36 2 seq 4711 [b; 0; 0; 0; 1].

Definition sample_done : nlmsg := Nlmsg NLMSG_DONE 18 7 4711 [0; 0; 0; 0].

Definition sample_item (errs : list Z) (ms : list nlmsg) : item :=
  Item errs [EINTR] (Dgram (frames ms) 0 true false) ms.

Definition sample_items : list item :=
  [sample_item [EAGAIN; EINTR] [sample_msg 7 1; sample_msg 6 9]; sample_item [] [sample_msg 7 2; sample_done]].

(** A callback that keeps the first byte of the payload. *)
Definition sample_filter (bytes : list Z) (l : list Z) : Z * list Z := (0, l ++ take 1 (drop 16 bytes)).

Definition sample_state (file : option (list Z)) : dump_state (A := list Z) := Dst [] 0 false file [].

Lemma rtnl_dump_refines_witness :
  ∃ buf', rtnl_dump_filter_nc sample_dump_rth sample_filter 2 (socket sample_items) (sample_state None)
    = Some (Ret 0, mkst buf' None (0, true, [1; 2])).
Proof.
  pose proof (rtnl_dump_refines sample_dump_rth sample_filter 2 sample_items (sample_state None)
    ltac:(apply (bool_decide_unpack _); vm_compute; exact I) eq_refl) as H.
  exact H.
Defined.

Definition sample_handler (ctrl : ctrl_data) (bytes : list Z) (l : list Z) : Z * list Z :=
  (0, l ++ take 1 (drop 16 bytes)).

Lemma dump_replay_roundtrip_witness :
  ∃ st' file buf' rest,
    rtnl_dump_filter_nc sample_dump_rth sample_filter 2 (socket sample_items) (sample_state (Some []))
      = Some (Ret 0, st') ∧ d_file st' = Some file ∧
    rtnl_from_file sample_handler (Fst (replicate (Z.to_nat 16384) 0) file [])
      = Some (0, Fst buf' rest [1; 9; 2; 0]).
Proof.
  destruct (dump_replay_roundtrip sample_dump_rth sample_filter 2 [sample_item [EAGAIN; EINTR] [sample_msg 7 1; sample_msg 6 9]]
    (sample_item [] [sample_msg 7 2; sample_done]) (sample_state (Some [])) sample_handler (replicate (Z.to_nat 16384) 0) [])
    as (st' & file & H1 & H2 & H3).
  - apply (bool_decide_unpack _); vm_compute; exact I.
  - apply (bool_decide_unpack _); vm_compute; exact I.
  - exists [sample_msg 7 2], sample_done, []. split; [done|]. split; [|done].
    apply (bool_decide_unpack _); vm_compute; exact I.
  - done.
  - apply (bool_decide_unpack _); vm_compute; exact I.
  - by rewrite length_replicate.
  - destruct H3 as (buf' & rest & H3). exists st', file, buf', rest. split; [exact H1|]. split; [exact H2|exact H3].
Defined.

Definition sample_notice (ms : list nlmsg) (cmsgs : list cmsghdr) : notice :=
  Notice (Dgram (frames ms) 0 true false) cmsgs.

Lemma rtnl_listen_delivers_witness :
  ∃ buf', rtnl_listen sample_dump_rth sample_handler
    (notifications [Delivery [ENOBUFS] (sample_notice [sample_msg 0 5; sample_msg 0 6] []) [sample_msg 0 5; sample_msg 0 6]])
    (replicate (Z.to_nat 16384) 0, []) = Some (Block, (buf', [5; 6])).
Proof.
  pose proof (rtnl_listen_delivers sample_handler sample_dump_rth
    [Delivery [ENOBUFS] (sample_notice [sample_msg 0 5; sample_msg 0 6] []) [sample_msg 0 5; sample_msg 0 6]]
    (replicate (Z.to_nat 16384) 0) [] eq_refl) as H.
  specialize (H ltac:(apply (bool_decide_unpack _); vm_compute; exact I)).
  specialize (H ltac:(by rewrite length_replicate)). exact H.
Defined.


Lemma rtnl_from_file_safe_witness : ∃ r s',
  rtnl_from_file sample_handler (Fst (replicate (Z.to_nat 16384) 0) [3; 1; 4; 1; 5; 9; 2; 6] []) = Some (r, s').
Proof.
  apply (rtnl_from_file_safe sample_handler). by cbn [fs_buf]; rewrite length_replicate.
Defined.

(** ** Inputs the loops do not withstand *)

Definition sample_array : list Z := replicate (Z.to_nat 16384) 0.

Definition ok_handler (ctrl : ctrl_data) (bytes : list Z) (l : list ctrl_data) : Z * list ctrl_data := (0, l ++ [ctrl]).

Definition one_notice (bytes : list Z) : list (Z + notice) := [inr (Notice (Dgram bytes 9 true false) [])].

(** A header whose [nlmsg_len] is [2 ^ 31]: as an [int] the length is
    negative, and [len - sizeof( *h)] wraps to a positive number, so that the
    test for malformed messages passes; the next header is looked for two
    gigabytes further.  [rtnl_listen] and [rtnl_talk] have the same test;
    [rtnl_dump_filter_l] and [rtnl_from_file] do not. *)
Theorem rtnl_listen_huge_length :
  rtnl_listen sample_dump_rth ok_handler (one_notice (header (2 ^ 31) 16 0 0 0)) (sample_array, []) = None ∧
  rtnl_talk true false [inr (Dgram (header (2 ^ 31) 16 0 0 0) 9 true false)] sample_dump_rth (zeros 36) = None.
Proof. split; vm_compute; reflexivity. Qed.

(** A datagram of 16383 bytes: the padding of its message is counted, the rest
    is -1, which is large as a [size_t], and a header is read behind the
    array. *)
Theorem rtnl_listen_overrun :
  rtnl_listen sample_dump_rth ok_handler
    (one_notice (header 16383 16 0 0 0 ++ zeros (Z.to_nat 16367))) (sample_array, []) = None.
Proof. vm_compute. reflexivity. Qed.

(** A datagram of 32769 bytes lies in a block of that size, but three bytes
    more are written to the file. *)
Theorem dump_record_overrun :
  rtnl_dump_filter_l sample_dump_rth [FilterArg sample_filter 0]
    (let dg := Dgram (header 32769 16 0 0 0 ++ zeros (Z.to_nat 32753)) 0 true false in [inr dg; inr dg])
    (sample_state (Some [])) = None.
Proof. vm_compute. reflexivity. Qed.

(** What follows the last message of a file is read as a header, completed by
    the bytes of the message before it: the handler gets a message that the
    file does not hold. *)
Theorem rtnl_from_file_stale :
  match rtnl_from_file ok_handler (Fst sample_array (header 16 16 0 7 4711 ++ [16; 0; 0; 0]) []) with
  | Some (r, s) => r = 0 ∧ length (fs_arg s) = 2%nat
  | None => False
  end.
Proof. vm_compute. by split. Qed.

(** With notifications from all namespaces, the space for control messages is
    what the previous notification used: after one without a namespace, the
    namespace of every other one is lost. *)
Theorem rtnl_listen_loses_nsid :
  let rth := (rtnl_listen_all_nsid true sample_dump_rth).2 in
  let nsid := Cmsg SOL_NETLINK NETLINK_LISTEN_ALL_NSID 20 3 in
  let ms := [sample_msg 0 1] in
  match rtnl_listen rth ok_handler [inr (sample_notice ms []); inr (sample_notice ms [nsid])] (sample_array, []),
        rtnl_listen rth ok_handler [inr (sample_notice ms [nsid]); inr (sample_notice ms [nsid])] (sample_array, []) with
  | Some (_, (_, l1)), Some (_, (_, l2)) =>
      l1 = [CtrlNsid (-1); CtrlNsid (-1)] ∧ l2 = [CtrlNsid 3; CtrlNsid 3]
  | _, _ => False
  end.
Proof. vm_compute. by split. Qed.

(** The error of a request is forgotten if it is not the last of its batch,
    and the acknowledgement of the request before the batch is taken for one
    of its own. *)
Theorem rtnl_talk_iov_forgets :
  let ack_dgram seq error := inr (Dgram (nlmsg_bytes (ack seq 4711 error)) 0 true false) in
  match rtnl_talk_iov true false [ack_dgram 8 (-22); ack_dgram 9 0] sample_dump_rth [zeros 36; zeros 36],
        rtnl_talk true false [ack_dgram 7 (-22)] sample_dump_rth (zeros 36) with
  | Some (r1, _, _), Some (r2, _, _) => r1 = Returns 0 None ∧ r2 = Returns (-1) None
  | _, _ => False
  end.
Proof. vm_compute. by split. Qed.
