(* ===== verification/Driver.v ===== *)
(** * The bandwidth drivers (src/tbf: tbf.c, tbf_peak.c, tbfenp.c, tbfifb.c,
      tbfnetem.c, netem.c, testtt.c, tbf_direct.c)

    Each program sets up its queueing disciplines with tc(8), then changes the
    rate, the delay or both in an endless loop by netlink requests it builds
    itself.  The loops are modelled round by round.  The kernel is a
    parameter: [talk] takes the request [rtnl_talk] sends to the result it
    returns.  The sizes of the structures are those of the 64-bit ABI. *)

From Stdlib Require Import ZArith Lia Floats.SpecFloat.
From stdpp Require Import base numbers list gmap option.
From S2P Require Import Prelude Sched Tbf Netlink TcCore.

Open Scope Z_scope.

(** ** Structures as bytes *)

Definition enc_ratespec (r : tc_ratespec) : list Z :=
  le 1 (cell_log r) ++ le 1 (rs_linklayer r) ++ le 2 (rs_overhead r) ++ le 2 (cell_align r) ++
  le 2 (Sched.mpu r) ++ le 4 (rs_rate r).

Definition dec_ratespec (bs : list Z) : tc_ratespec := {|
  cell_log := unle (sub 0 1 bs); rs_linklayer := unle (sub 1 1 bs); rs_overhead := unle (sub 2 2 bs);
  cell_align := s16 (unle (sub 4 2 bs)); Sched.mpu := unle (sub 6 2 bs); rs_rate := unle (sub 8 4 bs);
|}.

(** [struct tc_tbf_qopt]: 36 bytes. *)
Definition enc_tbf_qopt (o : tc_tbf_qopt) : list Z :=
  enc_ratespec (qopt_rate o) ++ enc_ratespec (qopt_peakrate o) ++ le 4 (qopt_limit o) ++
  le 4 (qopt_buffer o) ++ le 4 (qopt_mtu o).

Definition dec_tbf_qopt (bs : list Z) : tc_tbf_qopt := {|
  qopt_rate := dec_ratespec (sub 0 12 bs); qopt_peakrate := dec_ratespec (sub 12 12 bs);
  qopt_limit := unle (sub 24 4 bs); qopt_buffer := unle (sub 28 4 bs); qopt_mtu := unle (sub 32 4 bs);
|}.

(** [__u32 rtab[256]]. *)
Fixpoint enc_words (ws : list Z) : list Z :=
  match ws with
  | [] => []
  | w :: ws => le 4 w ++ enc_words ws
  end.

Fixpoint dec_words (n : nat) (bs : list Z) : list Z :=
  match n with
  | O => []
  | S n => unle (take 4 bs) :: dec_words n (drop 4 bs)
  end.

(** [struct tc_netem_qopt] with the fields the programs set; the rest is zero. *)
Definition enc_netem_qopt (latency limit : Z) : list Z := le 4 latency ++ le 4 limit ++ replicate 16 0.

(** [struct tc_netem_rate], likewise. *)
Definition enc_netem_rate (rate : Z) : list Z := le 4 rate ++ replicate 12 0.

(** ** Constants *)

Definition TCA_KIND : Z := 1.
Definition TCA_OPTIONS : Z := 2.
Definition TCA_TBF_PARMS : Z := 1.
Definition TCA_TBF_RTAB : Z := 2.
Definition TCA_TBF_PTAB : Z := 3.
Definition TCA_TBF_RATE64 : Z := 4.
Definition TCA_TBF_PRATE64 : Z := 5.
Definition TCA_TBF_BURST : Z := 6.
Definition TCA_TBF_PBURST : Z := 7.
Definition TCA_TBF_MAX : Z := 8.
Definition TCA_NETEM_RATE : Z := 6.
Definition TCA_NETEM_RATE64 : Z := 8.
Definition TC_H_ROOT : Z := 4294967295.

(** ["tbf"] and ["netem"] with their terminating zeros. *)
Definition k_tbf : list Z := [116; 98; 102; 0].

Definition k_netem : list Z := [110; 101; 116; 101; 109; 0].

(** [NLMSG_LENGTH(sizeof(struct tcmsg))] and [sizeof(req)]. *)
Definition TCMSG_LENGTH : Z := 36.

Definition SIZEOF_REQ : Z := 65572.

(** Fields of [req.t]. *)
Definition set_tcm_ifindex (i : Z) : M (list Z) unit := nl_write 20 (le 4 i).

Definition set_tcm_handle (h : Z) : M (list Z) unit := nl_write 24 (le 4 h).

Definition set_tcm_parent (p : Z) : M (list Z) unit := nl_write 28 (le 4 p).

(** ** Requests *)

(** [if (rate64 >= (1ULL << 32)) addattr_l(...)]. *)
Definition add_rate64 (maxlen type rate64 : Z) : M (list Z) Z :=
  if 2 ^ 32 <=? rate64 then addattr_l maxlen type (le 8 rate64) else cret 0.

(** The request of tbf.c, tbfenp.c, tbfifb.c, tbfnetem.c and tbf_direct.c. *)
Definition tbf_request (opt : tc_tbf_qopt) (rate64 buffer : Z) (rtab : list Z) : M (list Z) Z :=
  set_nlmsg_len TCMSG_LENGTH ;;;
  let* _ := addattr_l SIZEOF_REQ TCA_KIND k_tbf in
  let* tail := addattr_nest 1024 TCA_OPTIONS in
  let* _ := addattr_l 2024 TCA_TBF_PARMS (enc_tbf_qopt opt) in
  let* _ := addattr_l 2124 TCA_TBF_BURST (le 4 buffer) in
  let* _ := add_rate64 2124 TCA_TBF_RATE64 rate64 in
  let* _ := addattr_l 3024 TCA_TBF_RTAB (enc_words rtab) in
  addattr_nest_end tail.

(** The request of tbf_peak.c; [ptab] is never assigned there. *)
Definition tbf_peak_request (opt : tc_tbf_qopt) (rate64 buffer mtu : Z) (rtab ptab : list Z) : M (list Z) Z :=
  set_nlmsg_len TCMSG_LENGTH ;;;
  let* _ := addattr_l SIZEOF_REQ TCA_KIND k_tbf in
  let* tail := addattr_nest 1024 TCA_OPTIONS in
  let* _ := addattr_l 2024 TCA_TBF_PARMS (enc_tbf_qopt opt) in
  let* _ := addattr_l 2124 TCA_TBF_BURST (le 4 buffer) in
  let* _ := add_rate64 2124 TCA_TBF_RATE64 rate64 in
  let* _ := addattr_l 3024 TCA_TBF_RTAB (enc_words rtab) in
  let* _ := if negb (rs_rate (qopt_peakrate opt) =? 0) then
              let* _ := add_rate64 3124 TCA_TBF_PRATE64 rate64 in
              let* _ := addattr_l 3224 TCA_TBF_PBURST (le 4 mtu) in
              addattr_l 4096 TCA_TBF_PTAB (enc_words ptab)
            else cret 0 in
  addattr_nest_end tail.

(** [tail->rta_len = (void * ) NLMSG_TAIL(n) - (void * ) tail]. *)
Definition close_tail (tail : Z) : M (list Z) unit :=
  let* e := NLMSG_TAIL in set_rta_len tail (e - tail).

(** The request of tbfenp.c, tbfifb.c, tbfnetem.c and testtt.c: the options of
    netem are the structure itself. *)
Definition netem_request (latency limit : Z) : M (list Z) unit :=
  set_nlmsg_len TCMSG_LENGTH ;;;
  let* _ := addattr_l SIZEOF_REQ TCA_KIND k_netem in
  let* tail := NLMSG_TAIL in
  let* _ := addattr_l 1024 TCA_OPTIONS (enc_netem_qopt latency limit) in
  close_tail tail.

(** The request of netem.c, with a rate. *)
Definition netem_rate_request (latency limit rate64 : Z) : M (list Z) unit :=
  set_nlmsg_len TCMSG_LENGTH ;;;
  let* _ := addattr_l SIZEOF_REQ TCA_KIND k_netem in
  let* tail := NLMSG_TAIL in
  let* _ := addattr_l 1024 TCA_OPTIONS (enc_netem_qopt latency limit) in
  let* _ := add_rate64 1024 TCA_NETEM_RATE64 rate64 in
  let* _ := addattr_l 1024 TCA_NETEM_RATE
              (enc_netem_rate (if 2 ^ 32 <=? rate64 then 2 ^ 32 - 1 else rate64)) in
  close_tail tail.

(** ** Programs *)

(** [struct bw_param]. *)
Record bw_param := BwParam { bandwidth : Z; delay : Z; period_sec : Z; period_nsec : Z }.

(** The arguments of one entry of the table. *)
Definition parse_bw (bw d t : Z) : bw_param :=
  let t_ns := u64 (t * 1000) in
  let sec := t_ns / 1000000000 in
  BwParam (Z.shiftr bw 3) d sec (t_ns - sec * 1000000000).

(** The entries of the command line after [strtoull]. *)
Fixpoint parse_bws (n : nat) (args : list Z) : option (list bw_param) :=
  match n, args with
  | O, _ => Some []
  | S n, bw :: d :: t :: args =>
      match parse_bws n args with
      | Some bws => Some (parse_bw bw d t :: bws)
      | None => None
      end
  | _, _ => None
  end.

(** The queue length, the number of entries (an [int]) and the entries; [None]:
    a wrong number of arguments. *)
Definition parse_args (args : list Z) : option (Z * list bw_param) :=
  match args with
  | ql :: n :: args =>
      let nbws := s32 n in
      if negb (u32 (Z.of_nat (length args)) =? u32 (nbws * 3)) then None
      else match parse_bws (Z.to_nat nbws) args with
           | Some bws => Some (ql, bws)
           | None => None
           end
  | _ => None
  end.

(** The variables of a program that live through its loop, the kernel [K], and
    the sleeps between rounds. *)
Record prog (K : Type) := Prog {
  pg_index : Z;
  pg_opt : tc_tbf_qopt;
  pg_req : list Z;
  pg_kernel : K;
  pg_slept : list (Z * Z);
}.
Arguments Prog {K} _ _ _ _ _.
Arguments pg_index {K} _.
Arguments pg_opt {K} _.
Arguments pg_req {K} _.
Arguments pg_kernel {K} _.
Arguments pg_slept {K} _.

(** A step of a round: [inl] is the exit code of [goto exit]. *)
Definition step (K A : Type) : Type := prog K → option (Z + A * prog K).

Definition sret {K A} (a : A) : step K A := λ s, Some (inr (a, s)).

Definition sbind {K A B} (m : step K A) (k : A → step K B) : step K B :=
  λ s, match m s with
       | Some (inr (a, s)) => k a s
       | Some (inl code) => Some (inl code)
       | None => None
       end.

Section drivers.
Context {K : Type} (talk : list Z → K → Z * K) (clk : tc_clock).

(** A computation on [req]. *)
Definition on_req {A} (c : M (list Z) A) : step K A :=
  λ s, match c (pg_req s) with
       | Some (a, req) => Some (inr (a, Prog (pg_index s) (pg_opt s) req (pg_kernel s) (pg_slept s)))
       | None => None
       end.

(** [if (rtnl_talk(&rth, &req.n, NULL) < 0) { ret = 2; goto exit; }]. *)
Definition send : step K unit :=
  λ s, let '(ret, k) := talk (pg_req s) (pg_kernel s) in
       if ret <? 0 then Some (inl 2)
       else Some (inr (tt, Prog (pg_index s) (pg_opt s) (pg_req s) k (pg_slept s))).

Definition send_to (idx : Z) : step K unit :=
  sbind (on_req (set_tcm_ifindex idx)) (λ _, send).

(** [opt.rate.rate], [tc_calc_rtable] and [opt.buffer] for a new rate; the rate
    table is the result. *)
Definition set_rate (rate64 buffer mtu : Z) : step K (list Z) :=
  λ s, let o := pg_opt s in
       let rate := if 2 ^ 32 <=? rate64 then 2 ^ 32 - 1 else rate64 in
       let r := qopt_rate o in
       let r := {| cell_log := cell_log r; rs_linklayer := rs_linklayer r; rs_overhead := rs_overhead r;
                   cell_align := cell_align r; Sched.mpu := Sched.mpu r; rs_rate := rate |} in
       match tc_calc_rtable clk r (-1) mtu LINKLAYER_ETHERNET, tc_calc_xmittime clk rate buffer with
       | Some (ret, r, rtab), Some ticks =>
           if ret <? 0 then Some (inl (-1))
           else
             let o := {| qopt_rate := r; qopt_peakrate := qopt_peakrate o; qopt_limit := qopt_limit o;
                         qopt_buffer := ticks; qopt_mtu := qopt_mtu o |} in
             Some (inr (rtab, Prog (pg_index s) o (pg_req s) (pg_kernel s) (pg_slept s)))
       | _, _ => None
       end.

Definition get_prog : step K (prog K) := λ s, Some (inr (s, s)).

Definition set_index (i : Z) : step K unit :=
  λ s, Some (inr (tt, Prog i (pg_opt s) (pg_req s) (pg_kernel s) (pg_slept s))).

Definition nanosleep (sec nsec : Z) : step K unit :=
  λ s, Some (inr (tt, Prog (pg_index s) (pg_opt s) (pg_req s) (pg_kernel s) (pg_slept s ++ [(sec, nsec)]))).

(** The rate of the filters on the devices [idxs]. *)
Fixpoint send_all (idxs : list Z) : step K unit :=
  match idxs with
  | [] => sret tt
  | idx :: idxs => sbind (send_to idx) (λ _, send_all idxs)
  end.

Definition send_tbf (rate64 buffer mtu : Z) (idxs : list Z) : step K unit :=
  sbind (set_rate rate64 buffer mtu) (λ rtab,
  sbind get_prog (λ s,
  sbind (on_req (tbf_request (pg_opt s) rate64 buffer rtab)) (λ _,
  send_all idxs))).

(** The delay of the netem queues on the devices [idxs]. *)
Definition send_netem (d limit : Z) (idxs : list Z) : step K unit :=
  match tc_core_time2tick clk (u32 d) with
  | None => λ _, None
  | Some latency => sbind (on_req (netem_request latency (u32 limit))) (λ _, send_all idxs)
  end.

Definition send_netem_rate (d limit rate64 : Z) (idxs : list Z) : step K unit :=
  match tc_core_time2tick clk (u32 d) with
  | None => λ _, None
  | Some latency => sbind (on_req (netem_rate_request latency (u32 limit) rate64)) (λ _, send_all idxs)
  end.

(** The next entry of the table, and the sleep after it. *)
Definition next_bw (bws : list bw_param) : step K bw_param :=
  sbind get_prog (λ s,
  let i := (pg_index s + 1) mod Z.of_nat (length bws) in
  sbind (set_index i) (λ _,
  match bws !! Z.to_nat i with
  | Some bw => sret bw
  | None => λ _, None
  end)).

(** tbf.c and tbf_direct.c: one round, between the two rates [hbw] and [lbw]
    (in bits), on the devices [idxs]. *)
Definition tbf_round (hbw lbw dt_s dt_ns : Z) (idxs : list Z) : step K unit :=
  sbind get_prog (λ s,
  let i := Z.lxor (pg_index s) 1 in
  sbind (set_index i) (λ _,
  sbind (send_tbf (Z.shiftr (if i =? 0 then hbw else lbw) 3) 50000 0 idxs) (λ _,
  nanosleep dt_s dt_ns))).

(** tbf_direct.c: one device, chosen before the loop. *)
Definition tbf_direct_round (hbw lbw dt_s dt_ns : Z) : step K unit :=
  sbind get_prog (λ s,
  let i := Z.lxor (pg_index s) 1 in
  let rate64 := Z.shiftr (if i =? 0 then hbw else lbw) 3 in
  sbind (set_index i) (λ _,
  sbind (set_rate rate64 50000 0) (λ rtab,
  sbind get_prog (λ s,
  sbind (on_req (tbf_request (pg_opt s) rate64 50000 rtab)) (λ _,
  sbind send (λ _,
  nanosleep dt_s dt_ns)))))).

(** tbfenp.c. *)
Definition tbfenp_round (ql : Z) (bws : list bw_param) (idx1 idx2 idx3 : Z) : step K unit :=
  sbind (next_bw bws) (λ bw,
  sbind (send_netem (delay bw) (2 * ql) [idx3]) (λ _,
  sbind (send_tbf (bandwidth bw) 50000 0 [idx1; idx2]) (λ _,
  nanosleep (period_sec bw) (period_nsec bw)))).

(** tbfifb.c. *)
Definition tbfifb_round (ql : Z) (bws : list bw_param) (idx1 idx2 idx3 idx4 : Z) : step K unit :=
  sbind (next_bw bws) (λ bw,
  sbind (send_tbf (bandwidth bw) 50000 0 [idx1; idx2]) (λ _,
  sbind (send_netem (delay bw) ql [idx3; idx4]) (λ _,
  nanosleep (period_sec bw) (period_nsec bw)))).

(** tbfnetem.c: the filter is at the root, netem below it. *)
Definition tbfnetem_round (ql : Z) (bws : list bw_param) (idx1 idx2 : Z) : step K unit :=
  sbind (next_bw bws) (λ bw,
  sbind (on_req (set_tcm_parent TC_H_ROOT ;;; set_tcm_handle 0)) (λ _,
  sbind (send_tbf (bandwidth bw) 50000 0 [idx1; idx2]) (λ _,
  sbind (on_req (set_tcm_parent 65537 ;;; set_tcm_handle 1048576)) (λ _,
  sbind (send_netem (delay bw) ql [idx1; idx2]) (λ _,
  nanosleep (period_sec bw) (period_nsec bw)))))).

(** netem.c. *)
Definition netem_round (ql : Z) (bws : list bw_param) (idx1 idx2 : Z) : step K unit :=
  sbind (next_bw bws) (λ bw,
  sbind (send_netem_rate (delay bw) ql (bandwidth bw) [idx1; idx2]) (λ _,
  nanosleep (period_sec bw) (period_nsec bw))).

(** testtt.c: only the delay. *)
Definition testtt_round (ql : Z) (bws : list bw_param) (idx3 idx4 : Z) : step K unit :=
  sbind (next_bw bws) (λ bw,
  sbind (send_netem (delay bw) ql [idx3; idx4]) (λ _,
  nanosleep (period_sec bw) (period_nsec bw))).

(** tbf_peak.c: the peak rate is the rate with its bits repeated four places to
    the right. *)
Definition set_peak : step K unit :=
  λ s, let o := pg_opt s in
       let r := rs_rate (qopt_rate o) in
       let p := qopt_peakrate o in
       let p := {| cell_log := cell_log p; rs_linklayer := rs_linklayer p; rs_overhead := rs_overhead p;
                   cell_align := cell_align p; Sched.mpu := Sched.mpu p; rs_rate := Z.lor r (Z.shiftr r 4) |} in
       let o := {| qopt_rate := qopt_rate o; qopt_peakrate := p; qopt_limit := qopt_limit o;
                   qopt_buffer := qopt_buffer o; qopt_mtu := qopt_mtu o |} in
       Some (inr (tt, Prog (pg_index s) o (pg_req s) (pg_kernel s) (pg_slept s))).

Definition tbf_peak_round (ptab : list Z) : step K unit :=
  sbind get_prog (λ s,
  let i := Z.lxor (pg_index s) 1 in
  let rate64 := Z.shiftr (if i =? 0 then 10000000000 else 1000000000) 3 in
  sbind (set_index i) (λ _,
  sbind (set_rate rate64 1250000 2500) (λ rtab,
  sbind set_peak (λ _,
  sbind get_prog (λ s,
  sbind (on_req (tbf_peak_request (pg_opt s) rate64 1250000 2500 rtab ptab)) (λ _,
  sbind send (λ _,
  nanosleep 0 101625000))))))).

(** [while (1)]: [n] rounds, or fewer if the program exits. *)
Fixpoint rounds (round : step K unit) (n : nat) : step K unit :=
  match n with
  | O => sret tt
  | S n => sbind round (λ _, rounds round n)
  end.
End drivers.

(** The start of the loops: [index], [opt] after its assignments and [req] after
    its initialisation. *)
Definition ratespec_zero : tc_ratespec :=
  {| cell_log := 0; rs_linklayer := 0; rs_overhead := 0; cell_align := 0; Sched.mpu := 0; rs_rate := 0 |}.

Definition opt_start (limit : Z) : tc_tbf_qopt :=
  {| qopt_rate := ratespec_zero; qopt_peakrate := ratespec_zero; qopt_limit := u32 limit;
     qopt_buffer := 0; qopt_mtu := 0 |}.

(** [nlmsg_type = RTM_NEWQDISC], [nlmsg_flags = NLM_F_REQUEST], [tcm_parent]. *)
Definition req_start (parent handle : Z) : list Z :=
  put 28 (le 4 parent) (put 24 (le 4 handle) (put 6 (le 2 1) (put 4 (le 2 36) (replicate 65572 0)))).

(** The times of tbf.c: microseconds of the command line. *)
Definition tbf_times (us : Z) : Z * Z :=
  let dt_ns := u64 (1000 * us) in
  if 999999999 <? dt_ns then (dt_ns / 1000000000, dt_ns - dt_ns / 1000000000 * 1000000000)
  else (0, dt_ns).
