(* ===== verification/DriverTheorems.v ===== *)
(** * What the drivers do to the filters

    The requests are decoded with the parser of libnetlink.c; a kernel that
    passes the attributes it is sent to [tbf_change] ends up with the rates of
    the program, round after round. *)

From Stdlib Require Import ZArith Lia Floats.SpecFloat.
From stdpp Require Import base numbers list gmap option.
From S2P Require Import Prelude Sched Tbf Fifo SchedSample Netlink NetlinkTheorems TcCore Driver.

Open Scope Z_scope.

(** ** Structures *)

Definition ratespec_ok (r : tc_ratespec) : Prop :=
  0 ≤ cell_log r < 2 ^ 8 ∧ 0 ≤ rs_linklayer r < 2 ^ 8 ∧ 0 ≤ rs_overhead r < 2 ^ 16 ∧
  - 2 ^ 15 ≤ cell_align r < 2 ^ 15 ∧ 0 ≤ Sched.mpu r < 2 ^ 16 ∧ 0 ≤ rs_rate r < 2 ^ 32.

Definition qopt_ok (o : tc_tbf_qopt) : Prop :=
  ratespec_ok (qopt_rate o) ∧ ratespec_ok (qopt_peakrate o) ∧ 0 ≤ qopt_limit o < 2 ^ 32 ∧
  0 ≤ qopt_buffer o < 2 ^ 32 ∧ 0 ≤ qopt_mtu o < 2 ^ 32.

Lemma length_enc_ratespec r : length (enc_ratespec r) = 12%nat.
Proof. unfold enc_ratespec. by rewrite !length_app, !length_le. Qed.

Lemma length_enc_tbf_qopt o : length (enc_tbf_qopt o) = 36%nat.
Proof. unfold enc_tbf_qopt. by rewrite !length_app, !length_enc_ratespec, !length_le. Qed.

Lemma length_enc_words ws : length (enc_words ws) = (4 * length ws)%nat.
Proof. induction ws as [|w ws IH]; [done|]. cbn [enc_words length]. rewrite length_app, length_le, IH. lia. Qed.

Lemma s16_mod v : - 2 ^ 15 ≤ v < 2 ^ 15 → s16 (v mod 2 ^ 16) = v.
Proof. intros Hv. unfold s16. rewrite Zplus_mod_idemp_l, Z.mod_small; lia. Qed.

(** Fields one after the other. *)
Lemma sub_app_skip a b off n : off = Z.of_nat (length a) → sub off n (a ++ b) = take n b.
Proof. intros ->. unfold sub. by rewrite Nat2Z.id, drop_app_length. Qed.

Lemma dec_enc_ratespec r rest : ratespec_ok r → dec_ratespec (take 12 (enc_ratespec r ++ rest)) = r.
Proof.
  intros (H1 & H2 & H3 & H4 & H5 & H6). rewrite take_app_length' by (by rewrite length_enc_ratespec).
  destruct r as [cl ll ov al mp rt]. simpl in *. unfold dec_ratespec, enc_ratespec. simpl.
  unfold sub. simpl. change (Z.to_nat 8) with 8%nat.
  f_equal; simpl; rewrite ?Z.mod_mod by done.
  - rewrite Z.mod_small; lia.
  - rewrite Z.mod_small; lia.
  - pose proof (unle_le_small 2 ov) as Hu. simpl in Hu. rewrite Hu; [done|lia].
  - pose proof (unle_le 2 al) as Hu. simpl in Hu. rewrite Hu. by apply s16_mod.
  - pose proof (unle_le_small 2 mp) as Hu. simpl in Hu. rewrite Hu; [done|lia].
  - pose proof (unle_le_small 4 rt) as Hu. simpl in Hu. rewrite Hu; [done|lia].
Qed.

Lemma dec_enc_tbf_qopt o : qopt_ok o → dec_tbf_qopt (enc_tbf_qopt o) = o.
Proof.
  intros (H1 & H2 & H3 & H4 & H5). destruct o as [r p l b m]. simpl in *.
  unfold dec_tbf_qopt, enc_tbf_qopt. cbn [qopt_rate qopt_peakrate qopt_limit qopt_buffer qopt_mtu].
  pose proof (length_enc_ratespec r) as Hr. pose proof (length_enc_ratespec p) as Hp.
  assert (∀ n, unle (le 4 n) = n mod 2 ^ 32) as Hu by (intros; apply unle_le). f_equal.
  - unfold sub. rewrite drop_0. by apply dec_enc_ratespec.
  - rewrite (sub_app_skip _ _ 12) by lia. by apply dec_enc_ratespec.
  - rewrite (app_assoc (enc_ratespec r)), (sub_app_skip _ _ 24) by (rewrite length_app; lia).
    rewrite take_app_length' by done. rewrite Hu, Z.mod_small; lia.
  - rewrite !app_assoc, <- (app_assoc _ (le 4 b)), (sub_app_skip _ _ 28) by (rewrite !length_app, length_le; lia).
    rewrite take_app_length' by done. rewrite Hu, Z.mod_small; lia.
  - rewrite !app_assoc, (sub_app_skip _ _ 32) by (rewrite !length_app, !length_le; lia).
    rewrite take_ge by done. rewrite Hu, Z.mod_small; lia.
Qed.

Lemma dec_enc_words ws : Forall (λ w, 0 ≤ w < 2 ^ 32) ws → dec_words (length ws) (enc_words ws) = ws.
Proof.
  intros Hws. induction Hws as [|w ws Hw _ IH]; [done|]. cbn [length enc_words dec_words].
  rewrite take_app_length', drop_app_length', IH by (by rewrite length_le). by rewrite unle_le_small.
Qed.

(** ** Decoding a request *)

Definition payload (tb : rtattrs) (ty : Z) : M (list Z) (option (list Z)) :=
  match tb !! ty with
  | None => cret None
  | Some rta => let* d := rta_payload rta in cret (Some d)
  end.

Definition dec_rtab (d : list Z) : rtab_attr :=
  {| ra_len := Z.of_nat (length d); ra_data := dec_words (length d / 4) d |}.

(** The device, the kind and the options of a request, read with
    [parse_rtattr]. *)
Definition decode_tbf : M (list Z) (Z * option (list Z) * option tbf_tb) :=
  let* ifindex := get32 20 in
  let* n := nlmsg_len in
  let* r := parse_rtattr 15 TCMSG_LENGTH (n - TCMSG_LENGTH) in
  let* kind := payload r.1 TCA_KIND in
  match r.1 !! TCA_OPTIONS with
  | None => cret (ifindex, kind, None)
  | Some opts =>
      let* o := parse_rtattr_nested TCA_TBF_MAX opts in
      let* parms := payload o.1 TCA_TBF_PARMS in
      let* rtab := payload o.1 TCA_TBF_RTAB in
      let* ptab := payload o.1 TCA_TBF_PTAB in
      let* rate64 := payload o.1 TCA_TBF_RATE64 in
      let* prate64 := payload o.1 TCA_TBF_PRATE64 in
      let* burst := payload o.1 TCA_TBF_BURST in
      let* pburst := payload o.1 TCA_TBF_PBURST in
      cret (ifindex, kind,
            Some {| tb_parms := dec_tbf_qopt <$> parms; tb_rtab := dec_rtab <$> rtab;
                    tb_ptab := dec_rtab <$> ptab; tb_rate64 := unle <$> rate64;
                    tb_prate64 := unle <$> prate64; tb_burst := unle <$> burst;
                    tb_pburst := unle <$> pburst |})
  end.

Lemma payload_ok buf off atts max ty : 0 ≤ off → attrs_at buf off atts → Forall attr_ok atts →
  attrs_end off atts ≤ Z.of_nat (length buf) → ty ≤ max →
  payload (collect max off atts ∅) ty buf = Some (snd <$> first_attr off atts ty, buf).
Proof.
  intros Ho Hat Hok Hf Hty. unfold payload. rewrite collect_lookup, lookup_empty by done.
  destruct (first_attr off atts ty) as [[rta d]|] eqn:Hfirst; [|done]. simpl.
  eapply first_at_payload in Hfirst as (Hp & _); [|done..]. unfold cbind. by rewrite Hp.
Qed.

(** ** Building requests *)

(** The bytes of [struct tcmsg] stay. *)
Definition same_header (buf buf' : list Z) : Prop :=
  length buf' = length buf ∧ ∀ off n, 4 ≤ off → off + Z.of_nat n ≤ 36 → sub off n buf' = sub off n buf.

Lemma same_header_trans b1 b2 b3 : same_header b1 b2 → same_header b2 b3 → same_header b1 b3.
Proof. intros [L1 F1] [L2 F2]. split; [congruence|]. intros off n H1 H2. by rewrite F2, F1. Qed.

Lemma add_step buf atts maxlen ty d : message buf 36 atts → attr_ok (ty, d) →
  attrs_end 36 (atts ++ [(ty, d)]) ≤ maxlen → maxlen ≤ Z.of_nat (length buf) → maxlen < 2 ^ 31 →
  ∃ buf', addattr_l maxlen ty d buf = Some (0, buf') ∧ message buf' 36 (atts ++ [(ty, d)]) ∧
    same_header buf buf'.
Proof.
  intros Hm Ha Hmax Hl Hs. eexists. split; [by apply (addattr_l_ok buf 36 atts maxlen (ty, d))|].
  split; [apply added_message; (done || lia)|]. split; [apply length_added|].
  intros off n H1 H2. apply added_frame; [done|]. pose proof (attrs_end_ge 36 atts). lia.
Qed.

(** The start of every request: the length, and the kind. *)
Lemma kind_added req kind : Z.of_nat (length req) = SIZEOF_REQ → (length kind ≤ 16)%nat →
  ∃ buf0 buf', set_nlmsg_len TCMSG_LENGTH req = Some (tt, buf0) ∧
    addattr_l SIZEOF_REQ TCA_KIND kind buf0 = Some (0, buf') ∧
    message buf' 36 [(TCA_KIND, kind)] ∧ same_header req buf'.
Proof.
  intros Hreq Hk. unfold SIZEOF_REQ in Hreq. unfold set_nlmsg_len, TCMSG_LENGTH.
  rewrite nl_write_ok by (rewrite ?length_le; lia). set (buf0 := put 0 (le 4 36) req).
  assert (message buf0 36 []) as Hm0.
  { split; simpl; try done; [|unfold buf0; rewrite length_put; lia].
    unfold buf0. etrans; [apply f_equal, (sub_put_same 0 (le 4 36)); rewrite ?length_le; lia|done]. }
  assert (same_header req buf0) as Hf0.
  { split; [apply length_put|]. intros off n H1 H2. apply sub_put_other; rewrite ?length_le; lia. }
  assert (Z.of_nat (length buf0) = 65572) as Hl0 by (unfold buf0; by rewrite length_put).
  assert (attr_len (TCA_KIND, kind) ≤ 20) as Hal by (unfold attr_len; cbn [snd]; lia).
  pose proof (align4_bounds (attr_len (TCA_KIND, kind))).
  destruct (add_step buf0 [] SIZEOF_REQ TCA_KIND kind Hm0) as (buf1 & Hc1 & Hm1 & Hf1);
    [split; [done|lia]|cbn [app attrs_end]; unfold SIZEOF_REQ; lia|unfold SIZEOF_REQ; lia|done|].
  exists buf0, buf1. split; [done|]. split; [done|]. split; [done|]. by apply (same_header_trans _ buf0).
Qed.

(** ** The request of the filter drivers *)

Section request.
Variables (opt : tc_tbf_qopt) (rate64 burst : Z) (rtab : list Z).
Hypotheses (Hopt : qopt_ok opt) (Hrate : 0 ≤ rate64 < 2 ^ 64) (Hburst : 0 ≤ burst < 2 ^ 32)
  (Hlen : length rtab = 256%nat) (Hrtab : Forall (λ w, 0 ≤ w < 2 ^ 32) rtab).

Definition request_kids : list attr :=
  [(TCA_TBF_PARMS, enc_tbf_qopt opt); (TCA_TBF_BURST, le 4 burst)] ++
  (if 2 ^ 32 <=? rate64 then [(TCA_TBF_RATE64, le 8 rate64)] else []) ++
  [(TCA_TBF_RTAB, enc_words rtab)].

(** The attributes the kernel is meant to see. *)
Definition request_tb : tbf_tb :=
  {| tb_parms := Some opt; tb_rtab := Some {| ra_len := 1024; ra_data := rtab |}; tb_ptab := None;
     tb_rate64 := if 2 ^ 32 <=? rate64 then Some rate64 else None; tb_prate64 := None;
     tb_burst := Some burst; tb_pburst := None |}.

Record is_request (buf : list Z) (region : list Z) : Prop := {
  rq_msg : message buf 36 [(TCA_KIND, k_tbf); (TCA_OPTIONS, region)];
  rq_kids : attrs_at buf 48 request_kids;
  rq_region : Z.of_nat (length region) = attrs_end 48 request_kids - 48;
}.

Lemma kids_ok : Forall attr_ok request_kids.
Proof.
  assert (∀ ty d, 0 ≤ ty < 2 ^ 16 → (length d ≤ 1024)%nat → attr_ok (ty, d)) as Hok.
  { intros ty d Hty Hd. split; [done|]. unfold attr_len. simpl. lia. }
  unfold request_kids. repeat apply Forall_app_2; repeat apply Forall_cons_2; try apply Forall_nil_2;
    try (apply Hok; [done|]); rewrite ?length_enc_tbf_qopt, ?length_le, ?length_enc_words, ?Hlen; try lia.
  destruct (_ <=? _); repeat apply Forall_cons_2; try apply Forall_nil_2. apply Hok; [done|]. rewrite length_le. lia.
Qed.

Lemma kids_end : attrs_end 48 request_kids = if 2 ^ 32 <=? rate64 then 1136 else 1124.
Proof.
  unfold request_kids. destruct (2 ^ 32 <=? rate64); cbn [app attrs_end]; unfold attr_len; cbn [snd];
    rewrite ?length_enc_tbf_qopt, ?length_le, ?length_enc_words, Hlen; done.
Qed.

Lemma request_decodes buf region : is_request buf region →
  decode_tbf buf = Some ((unle (sub 20 4 buf), Some k_tbf, Some request_tb), buf).
Proof.
  intros [Hmsg Hkids Hreg]. pose proof kids_ok as Hok. pose proof kids_end as Hend.
  pose proof Hmsg as [_ _ _ Hat Hoks Hfit Hsm]. cbn [attrs_end] in Hfit, Hsm.
  change (align4 (attr_len (TCA_KIND, k_tbf))) with 8 in *.
  assert (Z.of_nat (length region) = if 2 ^ 32 <=? rate64 then 1088 else 1076) as Hrl
    by (destruct (2 ^ 32 <=? rate64); lia).
  assert (align4 (attr_len (TCA_OPTIONS, region)) = attr_len (TCA_OPTIONS, region)) as Hal.
  { apply align4_id. unfold attr_len. cbn [snd]. rewrite Hrl. by destruct (2 ^ 32 <=? rate64). }
  rewrite Hal in Hfit. assert (attrs_end 48 request_kids ≤ Z.of_nat (length buf)) as Hfit'
    by (unfold attr_len in Hfit; cbn [snd] in Hfit; lia).
  unfold decode_tbf. unfold cbind at 1. rewrite get32_ok by (destruct (2 ^ 32 <=? rate64); lia).
  unfold cbind at 1. rewrite (nlmsg_len_ok _ _ _ Hmsg).
  unfold cbind at 1. unfold TCMSG_LENGTH. rewrite (parse_message _ _ _ _ Hmsg). cbn [fst].
  unfold cbind at 1. rewrite payload_ok by (done || apply Hmsg). rewrite collect_lookup, lookup_empty by done.
  cbn [first_attr fst snd fmap option_fmap option_map Z.eqb TCA_KIND TCA_OPTIONS Pos.eqb].
  change (36 + align4 (attr_len (TCA_KIND, k_tbf))) with 44.
  destruct Hat as [_ [Hnest _]]. change (36 + align4 (attr_len (TCA_KIND, k_tbf))) with 44 in Hnest.
  apply Forall_cons_iff in Hoks as [_ [Hokn _]%Forall_cons_iff].
  destruct (attr_header buf 44 (TCA_OPTIONS, region)) as (Hl & _); [lia|done|done|unfold attr_len in *; cbn [snd] in *; lia|].
  unfold cbind at 1. unfold parse_rtattr_nested. unfold cbind at 1. rewrite Hl.
  unfold RTA_DATA, RTA_PAYLOAD, attr_len. cbn [snd]. rewrite Hreg.
  replace (4 + (attrs_end 48 request_kids - 48) - 4) with (attrs_end 48 request_kids - (44 + 4)) by lia.
  unfold parse_rtattr, parse_rtattr_flags. change (44 + 4) with 48.
  assert (48 ≤ attrs_end 48 request_kids < 2 ^ 31) by (destruct (2 ^ 32 <=? rate64); lia).
  rewrite parse_loop_attrs; try (done || lia); [|unfold parse_fuel; lia]. cbn [fst].
  unfold cbind. rewrite !payload_ok by done. unfold cret. do 3 f_equal.
  unfold request_tb, request_kids, TCA_TBF_PARMS, TCA_TBF_RTAB, TCA_TBF_PTAB, TCA_TBF_RATE64,
    TCA_TBF_PRATE64, TCA_TBF_BURST, TCA_TBF_PBURST.
  assert (dec_rtab (enc_words rtab) = {| ra_len := 1024; ra_data := rtab |}) as Hrt.
  { unfold dec_rtab. rewrite length_enc_words, Hlen. f_equal. change (4 * 256 / 4)%nat with 256%nat.
    rewrite <- Hlen. by apply dec_enc_words. }
  destruct (2 ^ 32 <=? rate64);
    cbn [first_attr app fst snd Z.eqb Pos.eqb fmap option_fmap option_map];
    rewrite dec_enc_tbf_qopt, Hrt, ?unle_le_small by done; done.
Qed.

(** ** Building it *)

(** The first part of the kids, up to the optional rate. *)
Definition request_flat (kids : list attr) : list attr := (TCA_KIND, k_tbf) :: (TCA_OPTIONS, []) :: kids.

Lemma add_kids buf kids maxlen ty d : message buf 36 (request_flat kids) → attr_ok (ty, d) →
  attrs_end 48 (kids ++ [(ty, d)]) ≤ maxlen → maxlen ≤ Z.of_nat (length buf) → maxlen < 2 ^ 31 →
  ∃ buf', addattr_l maxlen ty d buf = Some (0, buf') ∧ message buf' 36 (request_flat (kids ++ [(ty, d)])) ∧
    same_header buf buf'.
Proof. intros Hm Ha Hmax Hl Hs. by apply (add_step buf (request_flat kids)). Qed.

Lemma request_opened req : Z.of_nat (length req) = SIZEOF_REQ →
  ∃ buf', (set_nlmsg_len TCMSG_LENGTH ;;; let* _ := addattr_l SIZEOF_REQ TCA_KIND k_tbf in
           addattr_nest 1024 TCA_OPTIONS) req = Some (44, buf') ∧
    message buf' 36 (request_flat []) ∧ same_header req buf'.
Proof.
  intros Hreq. destruct (kind_added req k_tbf Hreq) as (buf0 & buf1 & Hc0 & Hc1 & Hm1 & Hf1); [simpl; lia|].
  unfold cbind. rewrite Hc0, Hc1. unfold SIZEOF_REQ in Hreq. pose proof Hf1 as [Hl1 _].
  destruct (addattr_nest_ok buf1 36 _ 1024 TCA_OPTIONS Hm1) as (buf2 & Hc2 & Hm2 & Hl2 & Hf2);
    [done|done|lia|done|].
  exists buf2. split; [exact Hc2|]. split; [done|].
  apply (same_header_trans _ buf1); [done|]. split; [done|]. intros off n H1 H2. apply Hf2; [done|].
  change (attrs_end 36 [(TCA_KIND, k_tbf)]) with 44. lia.
Qed.

Ltac ends := rewrite ?length_enc_tbf_qopt, ?length_le, ?length_enc_words, ?Hlen; by vm_compute.

(** The optional attribute. *)
Lemma add_rate64_ok buf kids : message buf 36 (request_flat kids) → attrs_end 48 kids ≤ 96 →
  Z.of_nat (length buf) = SIZEOF_REQ →
  ∃ v buf', add_rate64 2124 TCA_TBF_RATE64 rate64 buf = Some (v, buf') ∧
    message buf' 36 (request_flat (kids ++ (if 2 ^ 32 <=? rate64 then [(TCA_TBF_RATE64, le 8 rate64)] else []))) ∧
    same_header buf buf'.
Proof.
  intros Hm He Hl. unfold add_rate64. destruct (2 ^ 32 <=? rate64).
  - destruct (add_kids buf kids 2124 TCA_TBF_RATE64 (le 8 rate64) Hm) as (buf' & Hc & Hm' & Hf');
      [done|rewrite attrs_end_app; change (align4 (attr_len (TCA_TBF_RATE64, le 8 rate64))) with 12; lia
      |unfold SIZEOF_REQ in Hl; lia|done|]. by exists 0, buf'.
  - exists 0, buf. rewrite app_nil_r. done.
Qed.

Lemma request_built req : Z.of_nat (length req) = SIZEOF_REQ →
  ∃ n buf' region, tbf_request opt rate64 burst rtab req = Some (n, buf') ∧
    is_request buf' region ∧ same_header req buf'.
Proof.
  intros Hreq. destruct (request_opened req Hreq) as (b0 & Hc0 & Hm0 & Hf0).
  pose proof Hf0 as [L0 _]. rewrite <- L0 in Hreq.
  destruct (add_kids b0 [] 2024 TCA_TBF_PARMS (enc_tbf_qopt opt) Hm0) as (b1 & Hc1 & Hm1 & Hf1);
    [split; [done|unfold attr_len; simpl snd; ends]|cbn [app attrs_end]; unfold attr_len; cbn [snd]; ends
    |unfold SIZEOF_REQ in Hreq; lia|done|].
  pose proof Hf1 as [L1 _]. rewrite <- L1 in Hreq.
  destruct (add_kids b1 _ 2124 TCA_TBF_BURST (le 4 burst) Hm1) as (b2 & Hc2 & Hm2 & Hf2);
    [done|cbn [app attrs_end]; unfold attr_len; cbn [snd]; ends|unfold SIZEOF_REQ in Hreq; lia|done|].
  pose proof Hf2 as [L2 _]. rewrite <- L2 in Hreq. cbn [app] in Hm2.
  destruct (add_rate64_ok b2 _ Hm2) as (v & b3 & Hc3 & Hm3 & Hf3);
    [cbn [app attrs_end]; unfold attr_len; cbn [snd]; ends|done|].
  pose proof Hf3 as [L3 _]. rewrite <- L3 in Hreq. pose proof kids_end as Hend.
  set (kids3 := [_; _] ++ _) in Hm3.
  assert (kids3 ++ [(TCA_TBF_RTAB, enc_words rtab)] = request_kids) as Hk
    by (unfold kids3, request_kids; by rewrite <- app_assoc).
  destruct (add_kids b3 kids3 3024 TCA_TBF_RTAB (enc_words rtab) Hm3) as (b4 & Hc4 & Hm4 & Hf4);
    [split; [done|unfold attr_len; simpl snd; ends]|rewrite Hk, Hend; by destruct (2 ^ 32 <=? rate64)
    |unfold SIZEOF_REQ in Hreq; lia|done|].
  rewrite Hk in Hm4. pose proof Hf4 as [L4 _]. rewrite <- L4 in Hreq.
  destruct (addattr_nest_end_ok b4 36 [(TCA_KIND, k_tbf)] TCA_OPTIONS request_kids Hm4)
    as (b5 & Hc5 & Hm5 & Hk5 & L5 & Hf5);
    change (attrs_end 36 [(TCA_KIND, k_tbf)]) with 44 in *; change (44 + 4) with 48 in *;
    [rewrite Hend; by destruct (2 ^ 32 <=? rate64)|].
  eexists _, b5, _. split; [|split].
  - unfold tbf_request. unfold cbind in Hc0 |- *.
    destruct (set_nlmsg_len TCMSG_LENGTH req) as [[? r0]|]; [|done].
    destruct (addattr_l SIZEOF_REQ TCA_KIND k_tbf r0) as [[? r1]|]; [|done].
    rewrite Hc0, Hc1, Hc2, Hc3, Hc4. exact Hc5.
  - split; [exact Hm5|done|]. rewrite length_sub; unfold SIZEOF_REQ in Hreq; rewrite Hend in *;
      destruct (2 ^ 32 <=? rate64); lia.
  - do 4 (eapply same_header_trans; [done|]). eapply same_header_trans; [done|]. split; [done|].
    intros off n H1 H2. apply Hf5; lia.
Qed.
End request.

(** C23: the request of the drivers means what the program meant: whatever was in
    the request buffer before, the message [tbf_request] builds is read back
    as a change of a filter with exactly the options, the burst, the rate table
    and, from 2^32 bytes per second on, the 64-bit rate it was built from; the
    [struct tcmsg] in it stays. *)
Theorem tbf_request_decodes opt rate64 burst rtab req :
  qopt_ok opt → 0 ≤ rate64 < 2 ^ 64 → 0 ≤ burst < 2 ^ 32 → length rtab = 256%nat →
  Forall (λ w, 0 ≤ w < 2 ^ 32) rtab → Z.of_nat (length req) = SIZEOF_REQ →
  ∃ n req', tbf_request opt rate64 burst rtab req = Some (n, req') ∧ same_header req req' ∧
    decode_tbf req' = Some ((unle (sub 20 4 req), Some k_tbf, Some (request_tb opt rate64 burst rtab)), req').
Proof.
  intros Hopt Hr Hb Hl Hrt Hreq.
  destruct (request_built opt rate64 burst rtab Hl req Hreq) as (n & req' & region & Hc & Hrq & Hh).
  exists n, req'. split; [done|]. split; [done|].
  rewrite (request_decodes opt rate64 burst rtab Hopt Hr Hb Hl Hrt req' region Hrq).
  by rewrite (proj2 Hh 20 4%nat) by lia.
Qed.

(** ** Rates of tbf.c *)

(** The clock of a kernel that reports nanosecond ticks of 64 (the numbers of
    /proc/net/psched). *)
Definition std_clock : tc_clock := (tc_core_init (Some (1000, 64, 1000000)) clock_start).2.

Definition HBW : Z := 5000000000.

Definition LBW : Z := 1000000000.

Definition hrate : Z := Z.shiftr HBW 3.

Definition lrate : Z := Z.shiftr LBW 3.

Definition rate_table (rate : Z) : list Z :=
  default [] (rtab_entries std_clock 256 0 3 rate 0 LINKLAYER_ETHERNET).

Definition rate_ticks (rate : Z) : Z := default 0 (tc_calc_xmittime std_clock rate 50000).

Lemma rate_calc rate : rate = hrate ∨ rate = lrate →
  rtab_entries std_clock 256 0 3 rate 0 LINKLAYER_ETHERNET = Some (rate_table rate) ∧
  tc_calc_xmittime std_clock rate 50000 = Some (rate_ticks rate) ∧
  length (rate_table rate) = 256%nat ∧ Forall (λ w, 0 ≤ w < 2 ^ 32) (rate_table rate) ∧
  0 ≤ rate_ticks rate < 2 ^ 32.
Proof.
  assert (∀ l, forallb (λ w, (0 <=? w) && (w <? 2 ^ 32)) l = true → Forall (λ w, 0 ≤ w < 2 ^ 32) l) as Hall.
  { intros l Hl. rewrite forallb_forall in Hl. apply Forall_forall.
    intros w Hw. apply Hl in Hw. lia. }
  intros [->| ->]; (split; [vm_compute; reflexivity|]); (split; [vm_compute; reflexivity|]);
    (split; [vm_compute; reflexivity|]); (split; [apply Hall; vm_compute; reflexivity|]); by vm_compute.
Qed.

Lemma rate_range rate : rate = hrate ∨ rate = lrate → 0 ≤ rate < 2 ^ 32.
Proof. by intros [->| ->]. Qed.

#[local] Opaque rate_table rate_ticks.

Definition new_ratespec (rate : Z) : tc_ratespec :=
  {| cell_log := 3; rs_linklayer := 1; rs_overhead := 0; cell_align := -1; Sched.mpu := 0; rs_rate := rate |}.

Definition new_opt (limit rate : Z) : tc_tbf_qopt :=
  {| qopt_rate := new_ratespec rate; qopt_peakrate := ratespec_zero; qopt_limit := limit;
     qopt_buffer := rate_ticks rate; qopt_mtu := 0 |}.

(** What stays of [opt] through the loop. *)
Definition opt_kept (limit : Z) (o : tc_tbf_qopt) : Prop :=
  Sched.mpu (qopt_rate o) = 0 ∧ rs_overhead (qopt_rate o) = 0 ∧ qopt_peakrate o = ratespec_zero ∧
  qopt_limit o = limit ∧ qopt_mtu o = 0.

Lemma set_rate_ok {K} (s : prog K) limit rate : opt_kept limit (pg_opt s) → rate = hrate ∨ rate = lrate →
  set_rate std_clock rate 50000 0 s
  = Some (inr (rate_table rate, Prog (pg_index s) (new_opt limit rate) (pg_req s) (pg_kernel s) (pg_slept s))).
Proof.
  intros (H1 & H2 & H3 & H4 & H5) Hr. destruct (rate_calc rate Hr) as (Ht & Hx & _).
  unfold set_rate. assert ((2 ^ 32 <=? rate) = false) as -> by (by destruct Hr as [->| ->]).
  unfold tc_calc_rtable. cbn [rs_rate Sched.mpu rs_overhead]. rewrite H1, H2.
  change (-1 <? 0) with true. change (0 =? 0) with true. cbv iota zeta.
  change (cell_log_loop 32 2047 255 0) with (Some 3). cbv iota. rewrite Ht, Hx. change (3 <? 0) with false.
  unfold new_opt. by rewrite H3, H4, H5.
Qed.

Lemma new_opt_kept limit rate : opt_kept limit (new_opt limit rate).
Proof. done. Qed.

Lemma new_opt_ok limit rate : 0 ≤ limit < 2 ^ 32 → rate = hrate ∨ rate = lrate → qopt_ok (new_opt limit rate).
Proof.
  intros Hl Hr. destruct (rate_calc rate Hr) as (_ & _ & _ & _ & Ht). unfold qopt_ok, ratespec_ok. simpl.
  destruct Hr as [->| ->]; (split; [vm_compute; intuition congruence|]); (split; [done|]); lia.
Qed.

(** ** The kernel *)

(** A kernel with filters on some devices, which passes the options of a
    request for one of them to [tbf_change]. *)
Class TbfKernel (Q K : Type) `{KernelHeaders} `{InnerQdisc Q} (talk : list Z → K → Z * K) := {
  filter_of : K → Z → option (Qdisc Q);
  talk_change : ∀ msg msg' k i tb sch,
    decode_tbf msg = Some ((i, Some k_tbf, Some tb), msg') → filter_of k i = Some sch →
    ∃ fresh rtabs k', let '(err, _, sch') := tbf_change fresh (inr tb) rtabs sch in
      talk msg k = (if err =? 0 then 0 else -1, k') ∧ filter_of k' i = Some sch' ∧
      ∀ j, j ≠ i → filter_of k' j = filter_of k j;
}.

Section kernel.
Context `{KernelHeaders} `{InnerQdisc Q} {K : Type} (talk : list Z → K → Z * K) `{!TbfKernel Q K talk}.
Hypothesis Hchild : ∀ limit (i : inner Q), (tbf_child limit i).1 = 0.

(** The filter runs at [rate]; its bucket is that of [sch]. *)
Definition runs_at (rate limit : Z) (sch sch' : Qdisc Q) : Prop :=
  rate_bytes_ps (Tbf.rate (priv sch')) = rate ∧ max_size (priv sch') = 50000 ∧
  Tbf.limit (priv sch') = limit ∧ tokens (priv sch') = tokens (priv sch) ∧
  ptokens (priv sch') = ptokens (priv sch) ∧ t_c (priv sch') = t_c (priv sch).

Lemma change_runs_at limit rate fresh rtabs sch : rate = hrate ∨ rate = lrate →
  let '(err, _, sch') := tbf_change fresh
    (inr (request_tb (new_opt limit rate) rate 50000 (rate_table rate))) rtabs sch in
  err = 0 ∧ runs_at rate limit sch sch'.
Proof.
  intros Hr. unfold tbf_change, tbf_change_gen, request_tb. cbn [tb_parms].
  assert ((2 ^ 32 <=? rate) = false) as -> by (by destruct Hr as [->| ->]).
  unfold touch_rtab. cbn [qopt_rate qopt_peakrate qopt_limit new_opt tb_ptab tb_rtab fst snd].
  change (rs_linklayer (new_ratespec rate) =? TC_LINKLAYER_UNAWARE) with false.
  change (rs_linklayer ratespec_zero =? TC_LINKLAYER_UNAWARE) with true. cbv iota.
  cbn [qdisc_get_rtab qdisc_put_rtab]. unfold tbf_params_of. cbn [tb_burst tb_rate64 default rs_rate ratespec_zero].
  change (negb (0 =? 0)) with false. cbv iota. cbn [pr_max_size]. change (50000 =? 0) with false. cbv iota.
  pose proof (Hchild limit (qdisc (priv sch))) as Hc.
  destruct (tbf_child limit (qdisc (priv sch))) as [err i]. simpl in Hc. subst err.
  change (negb (0 =? 0)) with false. cbv iota. split; [done|].
  unfold runs_at, tbf_install, psched_ratecfg_precompute. cbn [rs_rate new_ratespec].
  destruct (if 0 <? _ then _ else _). by destruct Hr as [->| ->].
Qed.

(** ** One request to several devices *)

Lemma request_put opt rate64 burst rtab buf region off d : is_request opt rate64 burst rtab buf region →
  4 ≤ off → off + Z.of_nat (length d) ≤ 36 → is_request opt rate64 burst rtab (put off d buf) region.
Proof.
  intros [[H1 H2 H3 H4 H5 H6 H7] Hk Hr] Ho Hd. split; [|apply attrs_at_put; (done || lia)|done].
  split; [done|done| |apply attrs_at_put; (done || lia)|done|by rewrite length_put|done].
  by rewrite sub_put_other by lia.
Qed.

(** The request for [rate]. *)
Definition rate_request (limit rate : Z) (buf : list Z) : Prop :=
  Z.of_nat (length buf) = SIZEOF_REQ ∧
  ∃ region, is_request (new_opt limit rate) rate 50000 (rate_table rate) buf region.

Definition idx_ok (i : Z) : Prop := 0 ≤ i < 2 ^ 32.

Lemma send_to_ok limit rate s idx sch : 0 ≤ limit < 2 ^ 32 → rate = hrate ∨ rate = lrate → idx_ok idx →
  rate_request limit rate (pg_req s) → filter_of (pg_kernel s) idx = Some sch →
  ∃ req k sch', send_to talk idx s = Some (inr (tt, Prog (pg_index s) (pg_opt s) req k (pg_slept s))) ∧
    rate_request limit rate req ∧ filter_of k idx = Some sch' ∧ runs_at rate limit sch sch' ∧
    ∀ j, j ≠ idx → filter_of k j = filter_of (pg_kernel s) j.
Proof.
  intros Hlim Hr Hidx [Hlen [region Hrq]] Hf. destruct (rate_calc rate Hr) as (_ & _ & Hl & Hall & _).
  unfold send_to, sbind, on_req, set_tcm_ifindex. unfold SIZEOF_REQ in Hlen.
  rewrite nl_write_ok by (rewrite ?length_le; lia). set (req := put 20 (le 4 idx) (pg_req s)).
  assert (is_request (new_opt limit rate) rate 50000 (rate_table rate) req region) as Hrq'
    by (apply request_put; rewrite ?length_le; (done || lia)).
  assert (0 ≤ rate < 2 ^ 64) as Hrr by (pose proof (rate_range rate Hr); lia).
  assert (0 ≤ 50000 < 2 ^ 32) as Hbb by lia.
  pose proof (request_decodes _ _ _ _ (new_opt_ok limit rate Hlim Hr) Hrr Hbb Hl Hall req region Hrq') as Hdec.
  assert (unle (sub 20 4 req) = idx) as Hi.
  { unfold req. etrans; [apply f_equal, (sub_put_same 20 (le 4 idx)); rewrite ?length_le; lia|].
    by apply unle_le_small. }
  rewrite Hi in Hdec. destruct (talk_change req req (pg_kernel s) idx _ sch Hdec Hf) as (fresh & rtabs & k' & Ht).
  pose proof (change_runs_at limit rate fresh rtabs sch Hr) as Hch.
  destruct (tbf_change _ _ _ _) as [[err ?] sch']. destruct Hch as [-> Hrun], Ht as (Ht & Hf' & Hoth).
  exists req, k', sch'. unfold send. cbn [pg_req pg_kernel pg_index pg_opt pg_slept]. rewrite Ht.
  split; [done|]. split; [|done]. split; [unfold req; by rewrite length_put|by exists region].
Qed.

Lemma send_all_ok limit rate idxs : 0 ≤ limit < 2 ^ 32 → rate = hrate ∨ rate = lrate →
  Forall idx_ok idxs → NoDup idxs → ∀ s (schs : Z → Qdisc Q), rate_request limit rate (pg_req s) →
  (∀ i, i ∈ idxs → filter_of (pg_kernel s) i = Some (schs i)) →
  ∃ req k, send_all talk idxs s = Some (inr (tt, Prog (pg_index s) (pg_opt s) req k (pg_slept s))) ∧
    Z.of_nat (length req) = SIZEOF_REQ ∧
    (∀ i, i ∈ idxs → ∃ sch', filter_of k i = Some sch' ∧ runs_at rate limit (schs i) sch') ∧
    ∀ j, j ∉ idxs → filter_of k j = filter_of (pg_kernel s) j.
Proof.
  intros Hlim Hr Hok Hnd. induction Hnd as [|idx idxs Hnin Hnd IH]; intros s schs Hrq Hf.
  { exists (pg_req s), (pg_kernel s). destruct s. split; [done|]. split; [apply Hrq|].
    split; [|done]. intros i Hi. by apply elem_of_nil in Hi. }
  apply Forall_cons_iff in Hok as [Hi Hok].
  destruct (send_to_ok limit rate s idx (schs idx) Hlim Hr Hi Hrq) as (req & k & sch' & Hc & Hrq' & Hf' & Hrun & Hoth);
    [apply Hf; by left|].
  destruct (IH Hok (Prog (pg_index s) (pg_opt s) req k (pg_slept s)) schs Hrq') as (req2 & k2 & Hc2 & Hl2 & Hall & Hoth2).
  { intros i Hin. cbn [pg_kernel]. rewrite Hoth by (intros ->; done). apply Hf. by right. }
  exists req2, k2. cbn [send_all]. unfold sbind. rewrite Hc. split; [done|]. split; [done|]. split.
  - intros i [->|Hin]%elem_of_cons; [|by apply Hall]. exists sch'. by rewrite Hoth2.
  - intros j [Hj Hjs]%not_elem_of_cons. rewrite Hoth2 by done. by apply Hoth.
Qed.

(** ** A round *)

Lemma send_tbf_ok limit rate idxs s (schs : Z → Qdisc Q) : 0 ≤ limit < 2 ^ 32 → rate = hrate ∨ rate = lrate →
  Forall idx_ok idxs → NoDup idxs → opt_kept limit (pg_opt s) → Z.of_nat (length (pg_req s)) = SIZEOF_REQ →
  (∀ i, i ∈ idxs → filter_of (pg_kernel s) i = Some (schs i)) →
  ∃ req k, send_tbf talk std_clock rate 50000 0 idxs s
      = Some (inr (tt, Prog (pg_index s) (new_opt limit rate) req k (pg_slept s))) ∧
    Z.of_nat (length req) = SIZEOF_REQ ∧
    (∀ i, i ∈ idxs → ∃ sch', filter_of k i = Some sch' ∧ runs_at rate limit (schs i) sch').
Proof.
  intros Hlim Hr Hok Hnd Hopt Hlen Hf. destruct (rate_calc rate Hr) as (_ & _ & Hl & _).
  unfold send_tbf. unfold sbind at 1. rewrite (set_rate_ok s limit rate Hopt Hr).
  unfold sbind at 1, get_prog. unfold sbind, on_req. cbn [pg_opt pg_req pg_index pg_kernel pg_slept].
  destruct (request_built (new_opt limit rate) rate 50000 (rate_table rate) Hl (pg_req s) Hlen)
    as (n & req & region & Hc & Hrq & Hh). rewrite Hc.
  destruct (send_all_ok limit rate idxs Hlim Hr Hok Hnd
    (Prog (pg_index s) (new_opt limit rate) req (pg_kernel s) (pg_slept s)) schs)
    as (req2 & k2 & Hc2 & Hl2 & Hall & _); [|done|].
  { split; cbn [pg_req]; [by rewrite (proj1 Hh)|by exists region]. }
  exists req2, k2. done.
Qed.

Definition rate_of_index (i : Z) : Z := Z.shiftr (if i =? 0 then HBW else LBW) 3.

Lemma tbf_rounds_ok limit dt_s dt_ns idxs n : 0 ≤ limit < 2 ^ 32 → Forall idx_ok idxs → NoDup idxs →
  ∀ s (schs : Z → Qdisc Q), pg_index s = 0 ∨ pg_index s = 1 → opt_kept limit (pg_opt s) →
  Z.of_nat (length (pg_req s)) = SIZEOF_REQ →
  (∀ i, i ∈ idxs → filter_of (pg_kernel s) i = Some (schs i)) →
  ∃ s', rounds (tbf_round talk std_clock HBW LBW dt_s dt_ns idxs) n s = Some (inr (tt, s')) ∧
    pg_slept s' = pg_slept s ++ replicate n (dt_s, dt_ns) ∧
    pg_index s' = (if Nat.odd n then Z.lxor (pg_index s) 1 else pg_index s) ∧
    ((0 < n)%nat → ∀ i, i ∈ idxs → ∃ sch', filter_of (pg_kernel s') i = Some sch' ∧
       runs_at (rate_of_index (pg_index s')) limit (schs i) sch').
Proof.
  intros Hlim Hok Hnd. induction n as [|n IH]; intros s schs Hi Hopt Hlen Hf.
  { exists s. split; [done|]. split; [by rewrite app_nil_r|]. split; [done|lia]. }
  set (i' := Z.lxor (pg_index s) 1).
  assert (i' = 0 ∨ i' = 1) as Hi' by (unfold i'; destruct Hi as [->| ->]; [by right|by left]).
  destruct (send_tbf_ok limit (rate_of_index i') idxs
    (Prog i' (pg_opt s) (pg_req s) (pg_kernel s) (pg_slept s)) schs) as (req & k & Hc & Hl & Hall);
    [done|destruct Hi' as [->| ->]; [by left|by right]|done..|].
  cbn [pg_index pg_slept] in Hc.
  destruct (IH (Prog i' (new_opt limit (rate_of_index i')) req k (pg_slept s ++ [(dt_s, dt_ns)]))
    (λ i, default (schs i) (filter_of k i))) as (s' & Hrun & Hsl & Hidx & Hrate); [done|done|done| |].
  { intros i Hin. destruct (Hall i Hin) as (sch' & Hs & _). cbn [pg_kernel]. by rewrite Hs. }
  exists s'. split; [|split; [|split]].
  - cbn [rounds]. unfold sbind at 1.
    change (tbf_round talk std_clock HBW LBW dt_s dt_ns idxs s) with
      (sbind (send_tbf talk std_clock (rate_of_index i') 50000 0 idxs) (λ _, nanosleep dt_s dt_ns)
         (Prog i' (pg_opt s) (pg_req s) (pg_kernel s) (pg_slept s))).
    unfold sbind at 1. rewrite Hc. exact Hrun.
  - rewrite Hsl. cbn [pg_slept]. by rewrite <- app_assoc.
  - rewrite Hidx. cbn [pg_index]. rewrite Nat.odd_succ, <- Nat.negb_odd. unfold i'.
    destruct (Nat.odd n); simpl; [|done]. by destruct Hi as [->| ->].
  - intros _ i Hin. destruct (Hall i Hin) as (sch1 & Hs1 & Hr1). destruct n as [|n].
    + simpl in Hrun. injection Hrun as <-. exists sch1. done.
    + destruct (Hrate ltac:(lia) i Hin) as (sch2 & Hs2 & Hr2). exists sch2. split; [done|].
      cbv beta in Hr2. rewrite Hs1 in Hr2. simpl in Hr2. unfold runs_at in *. intuition congruence.
Qed.

End kernel.

(** ** A concrete kernel *)

Abbreviation sample_kernel := (gmap Z (Qdisc fifo)).

Definition sample_talk (msg : list Z) (k : sample_kernel) : Z * sample_kernel :=
  match decode_tbf msg with
  | Some ((i, Some _, Some tb), _) =>
      match k !! i with
      | Some sch =>
          let '(err, _, sch') := @tbf_change sample_headers fifo sample_inner (None, None) (inr tb) [] sch in
          (if err =? 0 then 0 else -1, <[i := sch']> k)
      | None => (-1, k)
      end
  | _ => (-1, k)
  end.

Definition sample_tbf_kernel : @TbfKernel fifo sample_kernel sample_headers sample_inner sample_talk.
Proof.
  refine {| filter_of k i := k !! i |}. intros msg msg' k i tb sch Hd Hk.
  exists (None, None), [].
  destruct (@tbf_change sample_headers fifo sample_inner (None, None) (inr tb) [] sch) as [[err ?] sch'] eqn:E.
  exists (<[i := sch']> k). unfold sample_talk. rewrite Hd, Hk, E. split; [done|].
  split; [by rewrite lookup_insert_eq|]. intros j Hj. by rewrite lookup_insert_ne.
Defined.

Lemma sample_child limit (i : inner fifo) : (@tbf_child fifo sample_inner limit i).1 = 0.
Proof. destruct i as [|c]; [|done]. cbn. by destruct (0 <? limit). Qed.

Definition sample_devices (sch : Qdisc fifo) : sample_kernel := <[4 := sch]> (<[5 := sch]> ∅).


Lemma tbf_request_decodes_witness :
  let opt := {| qopt_rate := {| cell_log := 3; rs_linklayer := 1; rs_overhead := 0; cell_align := -1;
                                Sched.mpu := 0; rs_rate := 2 ^ 32 - 1 |};
                qopt_peakrate := ratespec_zero; qopt_limit := 151400; qopt_buffer := 1; qopt_mtu := 0 |} in
  let rtab := replicate 256 7 in
  let req := put 20 (le 4 12) (req_start TC_H_ROOT 0) in
  ∃ n req', tbf_request opt 5000000000 50000 rtab req = Some (n, req') ∧ same_header req req' ∧
    decode_tbf req' = Some ((12, Some k_tbf, Some (request_tb opt 5000000000 50000 rtab)), req').
Proof.
  intros opt rtab req.
  apply (tbf_request_decodes opt 5000000000 50000 rtab req); [|lia|lia|done| |].
  - repeat split; (done || lia).
  - apply Forall_replicate. lia.
  - unfold req, req_start. rewrite !length_put, length_replicate. done.
Defined.
