(* ===== verification/NetemRand.v ===== *)
(** * The random models of netem (src/net/sched/sch_netem.c)

    The parts of sch_netem.c that compute on random numbers: the correlated
    generator, the two loss models, the delay distribution and the
    transmission time of a packet.  A drawn number is an argument; sch_netem.c's
    functions that draw them are in Netem.v.  [None] is a division by
    zero. *)

From Stdlib Require Import ZArith Lia.
From stdpp Require Import base numbers list option.
From S2P Require Import Prelude Sched.

Open Scope Z_scope.

(** ** The correlated generator *)

Record crndstate := Crnd {
  last : Z;  (* u32 *)
  rho : Z;   (* u32 *)
}.

(** [get_crandom] with correlation, on the drawn [value]: the answer and the new
    state. *)
Definition crandom (state : crndstate) (value : Z) : Z * crndstate :=
  let r := rho state + 1 in
  let answer := Z.shiftr (u64 (u64 (value * (2 ^ 32 - r)) + u64 (last state * r))) 32 in
  (answer, Crnd (u32 answer) (rho state)).

(** ** The loss models *)

Definition TX_IN_GAP_PERIOD : Z := 1.
Definition TX_IN_BURST_PERIOD : Z := 2.
Definition LOST_IN_GAP_PERIOD : Z := 3.
Definition LOST_IN_BURST_PERIOD : Z := 4.

Definition GOOD_STATE : Z := 1.
Definition BAD_STATE : Z := 2.

Record clgstate := Clg {
  clg_state : Z;  (* u8 *)
  a1 : Z;         (* u32, like the rest *)
  a2 : Z;
  a3 : Z;
  a4 : Z;
  a5 : Z;
}.

Definition clg_to (st : Z) (clg : clgstate) : clgstate :=
  Clg st (a1 clg) (a2 clg) (a3 clg) (a4 clg) (a5 clg).

(** The [switch] of [loss_4state]; the result is true if the packet is lost. *)
Definition loss_4state_step (rnd : Z) (clg : clgstate) : bool * clgstate :=
  if clg_state clg =? TX_IN_GAP_PERIOD then
    if rnd <? a4 clg then (true, clg_to LOST_IN_BURST_PERIOD clg)
    else if (a4 clg <? rnd) && (rnd <? u32 (a1 clg + a4 clg)) then (true, clg_to LOST_IN_GAP_PERIOD clg)
    else if u32 (a1 clg + a4 clg) <? rnd then (false, clg_to TX_IN_GAP_PERIOD clg)
    else (false, clg)
  else if clg_state clg =? TX_IN_BURST_PERIOD then
    if rnd <? a5 clg then (true, clg_to LOST_IN_GAP_PERIOD clg)
    else (false, clg_to TX_IN_BURST_PERIOD clg)
  else if clg_state clg =? LOST_IN_GAP_PERIOD then
    if rnd <? a3 clg then (false, clg_to TX_IN_BURST_PERIOD clg)
    else if (a3 clg <? rnd) && (rnd <? u32 (a2 clg + a3 clg)) then (false, clg_to TX_IN_GAP_PERIOD clg)
    else if u32 (a2 clg + a3 clg) <? rnd then (true, clg_to LOST_IN_GAP_PERIOD clg)
    else (false, clg)
  else if clg_state clg =? LOST_IN_BURST_PERIOD then (false, clg_to TX_IN_GAP_PERIOD clg)
  else (false, clg).

(** The cases of [loss_gilb_ell], with the first and the second number drawn. *)
Definition gilb_ell_step (rnd1 rnd2 : Z) (clg : clgstate) : bool * clgstate :=
  if clg_state clg =? GOOD_STATE then
    (rnd2 <? a4 clg, if rnd1 <? a1 clg then clg_to BAD_STATE clg else clg)
  else if clg_state clg =? BAD_STATE then
    (a3 clg <? rnd2, if rnd1 <? a2 clg then clg_to GOOD_STATE clg else clg)
  else (false, clg).

(** ** The delay distribution *)

Definition NETEM_DIST_SCALE : Z := 8192.

Definition NETEM_DIST_MAX : Z := 16384.

(** [tabledist] for a nonzero [sigma] and the drawn [rnd].  [2 * sigma] is
    converted to the unsigned type of [rnd]; [%] and [/] truncate. *)
Definition tabledist_of (mu sigma rnd : Z) (dist : option (list Z)) : option Z :=
  match dist with
  | None =>
      let m := u32 (2 * sigma) in
      if m =? 0 then None else Some (s64 (s64 (rnd mod m + mu) - sigma))
  | Some table =>
      if Z.of_nat (length table) =? 0 then None
      else
        let t := default 0 (table !! Z.to_nat (rnd mod Z.of_nat (length table))) in
        let x := Z.rem sigma NETEM_DIST_SCALE * t in
        let x := if 0 <=? x then x + NETEM_DIST_SCALE / 2 else x - NETEM_DIST_SCALE / 2 in
        Some (s64 (Z.quot x NETEM_DIST_SCALE + Z.quot sigma NETEM_DIST_SCALE * t + mu))
  end.

(** ** Transmission time *)

(** [struct reciprocal_value] and the two functions of linux/reciprocal_div.h,
    which the repository does not contain: division by a constant, exact for
    32-bit operands. *)
Record rvalue := RValue { rv_m : Z; rv_sh1 : Z; rv_sh2 : Z }.

Class ReciprocalDiv := {
  reciprocal_value : Z → rvalue;
  reciprocal_divide : Z → rvalue → Z;
}.

Class ReciprocalDivOk `{ReciprocalDiv} := {
  reciprocal_exact : ∀ a d, 0 ≤ a < 2 ^ 32 → 0 < d < 2 ^ 32 →
    reciprocal_divide a (reciprocal_value d) = a / d;
}.

(** [packet_time_ns], with the fields of the queue it reads. *)
Definition packet_time_ns `{ReciprocalDiv} (packet_overhead cell_size : Z) (r : rvalue)
    (cell_overhead rate len : Z) : Z :=
  let len := u64 (len + packet_overhead) in
  let len :=
    if negb (cell_size =? 0) then
      let cells := reciprocal_divide (u32 len) r in
      let cells := if u32 (cells * cell_size) <? len then u32 (cells + 1) else cells in
      u32 (cells * u32 (cell_size + cell_overhead))
    else len in
  u64 (len * NSEC_PER_SEC) / rate.

(** ** Theorems *)

(** The answer is the mean of the drawn number and the last answer, weighted with
    the correlation and rounded down: it lies between them. *)
Theorem crandom_between st value :
  0 ≤ value < 2 ^ 32 → 0 ≤ last st < 2 ^ 32 → 0 ≤ rho st < 2 ^ 32 →
  (crandom st value).1 = (value * (2 ^ 32 - (rho st + 1)) + last st * (rho st + 1)) / 2 ^ 32 ∧
  Z.min value (last st) ≤ (crandom st value).1 ≤ Z.max value (last st) ∧
  last (crandom st value).2 = (crandom st value).1.
Proof.
  intros Hv Hl Hr. unfold crandom. cbn [fst snd last].
  set (r := rho st + 1). assert (1 ≤ r ≤ 2 ^ 32) by (unfold r; lia).
  assert (0 ≤ value * (2 ^ 32 - r) ≤ (2 ^ 32 - 1) * (2 ^ 32 - r)) by nia.
  assert (0 ≤ last st * r ≤ (2 ^ 32 - 1) * r) by nia.
  rewrite (u64_small (value * _)), (u64_small (last st * r)), u64_small by lia.
  rewrite Z.shiftr_div_pow2 by lia. set (x := value * (2 ^ 32 - r) + last st * r).
  assert (Z.min value (last st) * 2 ^ 32 ≤ x ≤ Z.max value (last st) * 2 ^ 32) as Hx
    by (unfold x; destruct (Z.le_ge_cases value (last st)); nia).
  assert (Z.min value (last st) ≤ x / 2 ^ 32 ≤ Z.max value (last st)) as Hq.
  { split; [apply Z.div_le_lower_bound; lia|]. apply Z.div_le_upper_bound; lia. }
  split; [done|]. split; [done|]. apply u32_small. lia.
Qed.

Lemma crandom_between_witness :
  (crandom (Crnd 1000 2147483647) 3000).1 = 2000 ∧
  Z.min 3000 1000 ≤ (crandom (Crnd 1000 2147483647) 3000).1 ≤ Z.max 3000 1000.
Proof.
  destruct (crandom_between (Crnd 1000 2147483647) 3000) as (H1 & H2 & _); [lia|simpl; lia|simpl; lia|].
  split; [rewrite H1; reflexivity|exact H2].
Defined.

Definition lost_state (clg : clgstate) : bool :=
  (clg_state clg =? LOST_IN_GAP_PERIOD) || (clg_state clg =? LOST_IN_BURST_PERIOD).

Definition clg_ok (clg : clgstate) : Prop := 1 ≤ clg_state clg ≤ 4.

(** The four states mean what their names say: the chain stays in them, keeps
    its probabilities, and a packet is lost exactly if the chain moves to a
    LOST state, unless the number drawn is one of the two thresholds of
    LOST_IN_GAP_PERIOD. *)
Theorem loss_4state_sound rnd clg : clg_ok clg →
  let '(lost, clg') := loss_4state_step rnd clg in
  clg_ok clg' ∧ (a1 clg', a2 clg', a3 clg', a4 clg', a5 clg') = (a1 clg, a2 clg, a3 clg, a4 clg, a5 clg) ∧
  (rnd ≠ a3 clg → rnd ≠ u32 (a2 clg + a3 clg) → lost = lost_state clg') ∧
  (lost = true → lost_state clg' = true).
Proof.
  intros Hok. destruct clg as [st b1 b2 b3 b4 b5]. unfold clg_ok in *. cbn [clg_state] in Hok.
  assert (st = 1 ∨ st = 2 ∨ st = 3 ∨ st = 4) as Hst by lia.
  unfold loss_4state_step, clg_to, TX_IN_GAP_PERIOD, TX_IN_BURST_PERIOD, LOST_IN_GAP_PERIOD, LOST_IN_BURST_PERIOD.
  cbn [clg_state a1 a2 a3 a4 a5].
  destruct Hst as [->|[->|[->| ->]]]; cbn -[u32 Z.le];
    repeat case_match; simplify_eq; cbn -[u32 Z.le]; (split; [lia|]); (split; [done|]); split; intros; try done; exfalso; lia.
Qed.

Lemma loss_4state_sound_witness :
  clg_ok (Clg 1 100 200 300 400 500) ∧
  loss_4state_step 450 (Clg 1 100 200 300 400 500) = (true, Clg 3 100 200 300 400 500) ∧
  lost_state (Clg 3 100 200 300 400 500) = true.
Proof.
  assert (clg_ok (Clg 1 100 200 300 400 500)) as Hok by (unfold clg_ok; simpl; lia).
  pose proof (loss_4state_sound 450 (Clg 1 100 200 300 400 500) Hok) as H.
  change (loss_4state_step 450 (Clg 1 100 200 300 400 500)) with (true, Clg 3 100 200 300 400 500) in *.
  destruct H as (_ & _ & _ & H). split; [exact Hok|]. split; [reflexivity|]. by apply H.
Defined.

(** At a threshold of LOST_IN_GAP_PERIOD neither branch is taken: the chain
    stays in a LOST state and the packet is not lost. *)
Theorem loss_4state_threshold_leaks rnd clg :
  clg_state clg = LOST_IN_GAP_PERIOD → a3 clg ≤ u32 (a2 clg + a3 clg) →
  rnd = a3 clg ∨ rnd = u32 (a2 clg + a3 clg) →
  loss_4state_step rnd clg = (false, clg) ∧ lost_state clg = true.
Proof.
  intros Hst Hle Hrnd. unfold loss_4state_step, lost_state. rewrite Hst. cbn -[u32].
  split; [|done]. repeat case_match; lia || done.
Qed.

(** The uniform distribution: within [sigma] of the mean, for jitters below 2^31
    ns. *)
Theorem tabledist_uniform mu sigma rnd : - 2 ^ 62 ≤ mu < 2 ^ 62 → 0 < sigma < 2 ^ 31 → 0 ≤ rnd →
  ∃ d, tabledist_of mu sigma rnd None = Some d ∧ mu - sigma ≤ d < mu + sigma.
Proof.
  intros Hmu Hs Hr. unfold tabledist_of. rewrite (u32_small (2 * sigma)) by lia.
  rewrite (proj2 (Z.eqb_neq _ _)) by lia.
  pose proof (Z.mod_pos_bound rnd (2 * sigma)). cint. eexists. split; [done|]. lia.
Qed.

(** A table: the entry of the table times [sigma / 8192], rounded to the nearest
    integer, around the mean. *)
Theorem tabledist_table mu sigma rnd table : - 2 ^ 62 ≤ mu < 2 ^ 62 → - 2 ^ 31 ≤ sigma < 2 ^ 31 →
  0 ≤ rnd → table ≠ [] → Forall (λ t, - 2 ^ 15 ≤ t < 2 ^ 15) table →
  ∃ d t, tabledist_of mu sigma rnd (Some table) = Some d ∧
    table !! Z.to_nat (rnd mod Z.of_nat (length table)) = Some t ∧
    - NETEM_DIST_SCALE ≤ 2 * ((d - mu) * NETEM_DIST_SCALE - sigma * t) ≤ NETEM_DIST_SCALE.
Proof.
  intros Hmu Hs Hr Hne Hall. unfold tabledist_of, NETEM_DIST_SCALE.
  assert (0 < Z.of_nat (length table)) as Hlen by (destruct table; simpl; [done|lia]).
  rewrite (proj2 (Z.eqb_neq _ _)) by lia.
  pose proof (Z.mod_pos_bound rnd (Z.of_nat (length table)) Hlen) as Hi.
  destruct (lookup_lt_is_Some_2 table (Z.to_nat (rnd mod Z.of_nat (length table)))) as [t Ht]; [lia|].
  pose proof (Forall_lookup_1 _ _ _ _ Hall Ht) as Hb. simpl in Hb. rewrite Ht. cbn [default from_option].
  exists (s64 (Z.quot (if 0 <=? Z.rem sigma 8192 * t then Z.rem sigma 8192 * t + 8192 / 2
                       else Z.rem sigma 8192 * t - 8192 / 2) 8192 + Z.quot sigma 8192 * t + mu)), t.
  split; [done|]. split; [done|]. change (8192 / 2) with 4096.
  pose proof (Z.quot_rem' sigma 8192) as Hqr. pose proof (Z.rem_bound_abs sigma 8192) as Hrb.
  set (r := Z.rem sigma 8192) in *. set (qs := Z.quot sigma 8192) in *.
  assert (- 8192 < r < 8192) as Hr' by lia. assert (- 2 ^ 19 ≤ qs ≤ 2 ^ 19) as Hq by lia.
  assert (- 2 ^ 28 ≤ r * t ≤ 2 ^ 28) by nia. assert (- 2 ^ 34 ≤ qs * t ≤ 2 ^ 34) by nia.
  assert (sigma * t = 8192 * (qs * t) + r * t) as -> by nia.
  destruct (Z.leb_spec 0 (r * t)).
  - pose proof (Z.quot_rem' (r * t + 4096) 8192). pose proof (Z.rem_bound_pos (r * t + 4096) 8192).
    rewrite s64_small by lia. lia.
  - pose proof (Z.quot_rem' (r * t - 4096) 8192). pose proof (Z.rem_bound_pos_neg (r * t - 4096) 8192 ltac:(lia) ltac:(lia)).
    pose proof (Z.rem_bound_abs (r * t - 4096) 8192).
    rewrite s64_small by lia. lia.
Qed.

Lemma tabledist_table_witness :
  tabledist_of 1000000 10000 7 (Some [8192; -4096; 123]) = Some 995000 ∧
  ∃ d t, tabledist_of 1000000 10000 7 (Some [8192; -4096; 123]) = Some d ∧
    [8192; -4096; 123] !! Z.to_nat (7 mod Z.of_nat (length [8192; -4096; 123])) = Some t ∧
    - NETEM_DIST_SCALE ≤ 2 * ((d - 1000000) * NETEM_DIST_SCALE - 10000 * t) ≤ NETEM_DIST_SCALE.
Proof.
  split; [reflexivity|]. apply (tabledist_table 1000000 10000 7 [8192; -4096; 123]); [lia|lia|lia|discriminate|].
  repeat constructor; lia.
Defined.
