(* ===== verification/Netem.v ===== *)
(** * The network emulator (src/net/sched/sch_netem.c)

    Every operation of netem's [Qdisc_ops] and [Qdisc_class_ops], over a state
    that holds the configuration, the random state, the time queue (a list and
    a red-black tree), the queue of reordered packets and the statistics.

    - A packet is a [sk_buff] of Sched.v; its identity [skb_id] is its address,
      and with the time it is due it is an [nskb].
    - The tree is the one of rbtree.c, which the repository has a copy of: its
      words are in a [heap], and the node of a packet is at the packet's
      address ([skb->rbnode] is the first field).
    - What the kernel decides at a call (the next random number, the clock,
      whether memory can be had) is [NetemEnv], read at a counter that every
      call advances.
    - netem is the root queue: [qdisc_root(sch)] is [sch], and a duplicate is
      enqueued into it again. *)

From Stdlib Require Import ZArith Lia.
From stdpp Require Import base numbers list gmap option.
From S2P Require Import Prelude Sched RbCode SeqBuf NetemRand.

Open Scope Z_scope.

(** ** What the kernel provides *)

Record nskb := Nskb { ns_skb : sk_buff; time_to_send : Z (* u64 *) }.

(** [struct qdisc_skb_head]. *)
Record qdisc_head := QHead { qh_list : list nskb; qh_qlen : Z (* u32 *) }.

Class NetemEnv := {
  t_root : Z;                                (* the address of q->t_root *)
  prandom_at : nat → Z;
  ktime_at : nat → Z;
  clone_at : nat → option Z;                 (* skb_clone: the copy's address *)
  unshare_at : nat → option (option Z);      (* skb_unshare: the copy, or none needed *)
  checksum_at : nat → Z;                     (* skb_checksum_help *)
  malloc_at : nat → bool;                    (* kvmalloc *)
}.

(** Helpers of the headers beyond those of [KernelHeaders]. *)
Class NetemHeaders := {
  __NET_XMIT_BYPASS : Z;
  INET_ECN_set_ce : sk_buff → bool * sk_buff;
  skb_csum_partial : sk_buff → bool;         (* ip_summed == CHECKSUM_PARTIAL *)
  skb_headlen : sk_buff → Z;
  qdisc_qstats_backlog_inc : sk_buff → gnet_stats_queue → gnet_stats_queue;
  qdisc_drop_all : sk_buff → list sk_buff → gnet_stats_queue → gnet_stats_queue * list sk_buff;
  qdisc_calculate_pkt_len : sk_buff → sk_buff;
  __qdisc_enqueue_head : nskb → qdisc_head → qdisc_head;
  __qdisc_dequeue_head : qdisc_head → option nskb * qdisc_head;
  reset_queue : qdisc_head → gnet_stats_queue → qdisc_head * gnet_stats_queue; (* qdisc_reset_queue *)
}.

(** What netem calls on the queue below it; [Z] is the clock. *)
Class ChildQdisc (Q : Type) := {
  cq_enqueue : sk_buff → Q → Z * Q * list sk_buff;
  cq_dequeue : Z → Q → option sk_buff * Q;
  cq_reset : Z → Q → Q;
  cq_handle : Q → Z;
}.

(** ** State *)

Inductive loss_kind := CLG_RANDOM | CLG_4_STATES | CLG_GILB_ELL.

Record tc_netem_slot := Slot {
  min_delay : Z;    (* s64 *)
  max_delay : Z;    (* s64 *)
  max_packets : Z;  (* s32 *)
  max_bytes : Z;    (* s32 *)
  dist_delay : Z;   (* s64 *)
  dist_jitter : Z;  (* s64 *)
}.

Record slotstate := SlotState {
  slot_next : Z;     (* u64 *)
  packets_left : Z;  (* s32 *)
  bytes_left : Z;    (* s32 *)
}.

(** The fields of [netem_sched_data] that a change sets. *)
Record netem_cfg := {
  latency : Z;          (* s64 *)
  jitter : Z;           (* s64 *)
  loss : Z;             (* u32 *)
  ecn : Z;              (* u32 *)
  nlimit : Z;           (* q->limit, u32 *)
  gap : Z;              (* u32 *)
  duplicate : Z;        (* u32 *)
  reorder : Z;          (* u32 *)
  corrupt : Z;          (* u32 *)
  nrate : Z;            (* q->rate, u64 *)
  packet_overhead : Z;  (* s32 *)
  cell_size : Z;        (* u32 *)
  cell_size_reciprocal : rvalue;
  cell_overhead : Z;    (* s32 *)
  loss_model : loss_kind;
  delay_dist : option (list Z);
  slot_dist : option (list Z);
  slot_config : tc_netem_slot;
}.

(** The five correlated generators. *)
Inductive cor := DelayCor | LossCor | DupCor | ReorderCor | CorruptCor.

Record cors := Cors {
  delay_cor : crndstate;
  loss_cor : crndstate;
  dup_cor : crndstate;
  reorder_cor : crndstate;
  corrupt_cor : crndstate;
}.

Definition get_cor (c : cor) (s : cors) : crndstate :=
  match c with
  | DelayCor => delay_cor s
  | LossCor => loss_cor s
  | DupCor => dup_cor s
  | ReorderCor => reorder_cor s
  | CorruptCor => corrupt_cor s
  end.

Definition set_cor (c : cor) (v : crndstate) (s : cors) : cors :=
  let 'Cors d l u r o := s in
  match c with
  | DelayCor => Cors v l u r o
  | LossCor => Cors d v u r o
  | DupCor => Cors d l v r o
  | ReorderCor => Cors d l u v o
  | CorruptCor => Cors d l u r v
  end.

(** [nm_list] is the linear queue from [t_head] to [t_tail].  The last four
    fields are records of what happened: the calls of the environment, the bits
    flipped, the packets freed and the calls of
    [qdisc_tree_reduce_backlog]. *)
Record netem (Q : Type) := Netem {
  nm_cfg : netem_cfg;
  nm_cors : cors;
  nm_clg : clgstate;
  nm_slot : slotstate;
  nm_counter : Z;                 (* u32 *)
  nm_tree : heap nskb;            (* below q->t_root *)
  nm_list : list nskb;
  nm_child : option Q;            (* q->qdisc *)
  nm_watchdog : qdisc_watchdog;
  nm_q : qdisc_head;              (* sch->q *)
  nm_limit : Z;                   (* sch->limit, u32 *)
  nm_qstats : gnet_stats_queue;
  nm_requeues : Z;                (* u32 *)
  nm_bstats : gnet_stats_basic;
  nm_tick : nat;
  nm_flips : list (sk_buff * Z * Z);
  nm_freed : list sk_buff;
  nm_reduced : list (Z * Z);
}.
Arguments Netem {Q} _ _ _ _ _ _ _ _ _ _ _ _ _ _ _ _ _ _.
Arguments nm_cfg {Q} _.
Arguments nm_cors {Q} _.
Arguments nm_clg {Q} _.
Arguments nm_slot {Q} _.
Arguments nm_counter {Q} _.
Arguments nm_tree {Q} _.
Arguments nm_list {Q} _.
Arguments nm_child {Q} _.
Arguments nm_watchdog {Q} _.
Arguments nm_q {Q} _.
Arguments nm_limit {Q} _.
Arguments nm_qstats {Q} _.
Arguments nm_requeues {Q} _.
Arguments nm_bstats {Q} _.
Arguments nm_tick {Q} _.
Arguments nm_flips {Q} _.
Arguments nm_freed {Q} _.
Arguments nm_reduced {Q} _.

Section updates.
Context {Q : Type}.

(** Updates of one field. *)
Definition upd_cfg (f : netem_cfg → netem_cfg) (s : netem Q) : netem Q :=
  Netem (f (nm_cfg s)) (nm_cors s) (nm_clg s) (nm_slot s) (nm_counter s) (nm_tree s) (nm_list s) (nm_child s)
    (nm_watchdog s) (nm_q s) (nm_limit s) (nm_qstats s) (nm_requeues s) (nm_bstats s) (nm_tick s) (nm_flips s)
    (nm_freed s) (nm_reduced s).

Definition upd_cors (f : cors → cors) (s : netem Q) : netem Q :=
  Netem (nm_cfg s) (f (nm_cors s)) (nm_clg s) (nm_slot s) (nm_counter s) (nm_tree s) (nm_list s) (nm_child s)
    (nm_watchdog s) (nm_q s) (nm_limit s) (nm_qstats s) (nm_requeues s) (nm_bstats s) (nm_tick s) (nm_flips s)
    (nm_freed s) (nm_reduced s).

Definition upd_clg (f : clgstate → clgstate) (s : netem Q) : netem Q :=
  Netem (nm_cfg s) (nm_cors s) (f (nm_clg s)) (nm_slot s) (nm_counter s) (nm_tree s) (nm_list s) (nm_child s)
    (nm_watchdog s) (nm_q s) (nm_limit s) (nm_qstats s) (nm_requeues s) (nm_bstats s) (nm_tick s) (nm_flips s)
    (nm_freed s) (nm_reduced s).

Definition upd_slot (f : slotstate → slotstate) (s : netem Q) : netem Q :=
  Netem (nm_cfg s) (nm_cors s) (nm_clg s) (f (nm_slot s)) (nm_counter s) (nm_tree s) (nm_list s) (nm_child s)
    (nm_watchdog s) (nm_q s) (nm_limit s) (nm_qstats s) (nm_requeues s) (nm_bstats s) (nm_tick s) (nm_flips s)
    (nm_freed s) (nm_reduced s).

Definition upd_counter (f : Z → Z) (s : netem Q) : netem Q :=
  Netem (nm_cfg s) (nm_cors s) (nm_clg s) (nm_slot s) (f (nm_counter s)) (nm_tree s) (nm_list s) (nm_child s)
    (nm_watchdog s) (nm_q s) (nm_limit s) (nm_qstats s) (nm_requeues s) (nm_bstats s) (nm_tick s) (nm_flips s)
    (nm_freed s) (nm_reduced s).

Definition upd_tree (f : heap nskb → heap nskb) (s : netem Q) : netem Q :=
  Netem (nm_cfg s) (nm_cors s) (nm_clg s) (nm_slot s) (nm_counter s) (f (nm_tree s)) (nm_list s) (nm_child s)
    (nm_watchdog s) (nm_q s) (nm_limit s) (nm_qstats s) (nm_requeues s) (nm_bstats s) (nm_tick s) (nm_flips s)
    (nm_freed s) (nm_reduced s).

Definition upd_list (f : list nskb → list nskb) (s : netem Q) : netem Q :=
  Netem (nm_cfg s) (nm_cors s) (nm_clg s) (nm_slot s) (nm_counter s) (nm_tree s) (f (nm_list s)) (nm_child s)
    (nm_watchdog s) (nm_q s) (nm_limit s) (nm_qstats s) (nm_requeues s) (nm_bstats s) (nm_tick s) (nm_flips s)
    (nm_freed s) (nm_reduced s).

Definition upd_child (f : option Q → option Q) (s : netem Q) : netem Q :=
  Netem (nm_cfg s) (nm_cors s) (nm_clg s) (nm_slot s) (nm_counter s) (nm_tree s) (nm_list s) (f (nm_child s))
    (nm_watchdog s) (nm_q s) (nm_limit s) (nm_qstats s) (nm_requeues s) (nm_bstats s) (nm_tick s) (nm_flips s)
    (nm_freed s) (nm_reduced s).

Definition upd_watchdog (f : qdisc_watchdog → qdisc_watchdog) (s : netem Q) : netem Q :=
  Netem (nm_cfg s) (nm_cors s) (nm_clg s) (nm_slot s) (nm_counter s) (nm_tree s) (nm_list s) (nm_child s) (f
    (nm_watchdog s)) (nm_q s) (nm_limit s) (nm_qstats s) (nm_requeues s) (nm_bstats s) (nm_tick s) (nm_flips
    s) (nm_freed s) (nm_reduced s).

Definition upd_q (f : qdisc_head → qdisc_head) (s : netem Q) : netem Q :=
  Netem (nm_cfg s) (nm_cors s) (nm_clg s) (nm_slot s) (nm_counter s) (nm_tree s) (nm_list s) (nm_child s)
    (nm_watchdog s) (f (nm_q s)) (nm_limit s) (nm_qstats s) (nm_requeues s) (nm_bstats s) (nm_tick s)
    (nm_flips s) (nm_freed s) (nm_reduced s).

Definition upd_limit (f : Z → Z) (s : netem Q) : netem Q :=
  Netem (nm_cfg s) (nm_cors s) (nm_clg s) (nm_slot s) (nm_counter s) (nm_tree s) (nm_list s) (nm_child s)
    (nm_watchdog s) (nm_q s) (f (nm_limit s)) (nm_qstats s) (nm_requeues s) (nm_bstats s) (nm_tick s)
    (nm_flips s) (nm_freed s) (nm_reduced s).

Definition upd_qstats (f : gnet_stats_queue → gnet_stats_queue) (s : netem Q) : netem Q :=
  Netem (nm_cfg s) (nm_cors s) (nm_clg s) (nm_slot s) (nm_counter s) (nm_tree s) (nm_list s) (nm_child s)
    (nm_watchdog s) (nm_q s) (nm_limit s) (f (nm_qstats s)) (nm_requeues s) (nm_bstats s) (nm_tick s)
    (nm_flips s) (nm_freed s) (nm_reduced s).

Definition upd_requeues (f : Z → Z) (s : netem Q) : netem Q :=
  Netem (nm_cfg s) (nm_cors s) (nm_clg s) (nm_slot s) (nm_counter s) (nm_tree s) (nm_list s) (nm_child s)
    (nm_watchdog s) (nm_q s) (nm_limit s) (nm_qstats s) (f (nm_requeues s)) (nm_bstats s) (nm_tick s)
    (nm_flips s) (nm_freed s) (nm_reduced s).

Definition upd_bstats (f : gnet_stats_basic → gnet_stats_basic) (s : netem Q) : netem Q :=
  Netem (nm_cfg s) (nm_cors s) (nm_clg s) (nm_slot s) (nm_counter s) (nm_tree s) (nm_list s) (nm_child s)
    (nm_watchdog s) (nm_q s) (nm_limit s) (nm_qstats s) (nm_requeues s) (f (nm_bstats s)) (nm_tick s)
    (nm_flips s) (nm_freed s) (nm_reduced s).

Definition upd_tick (f : nat → nat) (s : netem Q) : netem Q :=
  Netem (nm_cfg s) (nm_cors s) (nm_clg s) (nm_slot s) (nm_counter s) (nm_tree s) (nm_list s) (nm_child s)
    (nm_watchdog s) (nm_q s) (nm_limit s) (nm_qstats s) (nm_requeues s) (nm_bstats s) (f (nm_tick s))
    (nm_flips s) (nm_freed s) (nm_reduced s).

Definition log_flip (x : sk_buff * Z * Z) (s : netem Q) : netem Q :=
  Netem (nm_cfg s) (nm_cors s) (nm_clg s) (nm_slot s) (nm_counter s) (nm_tree s) (nm_list s) (nm_child s)
    (nm_watchdog s) (nm_q s) (nm_limit s) (nm_qstats s) (nm_requeues s) (nm_bstats s) (nm_tick s) (nm_flips s
    ++ [x]) (nm_freed s) (nm_reduced s).

Definition log_freed (x : list sk_buff) (s : netem Q) : netem Q :=
  Netem (nm_cfg s) (nm_cors s) (nm_clg s) (nm_slot s) (nm_counter s) (nm_tree s) (nm_list s) (nm_child s)
    (nm_watchdog s) (nm_q s) (nm_limit s) (nm_qstats s) (nm_requeues s) (nm_bstats s) (nm_tick s) (nm_flips s)
    (nm_freed s ++ x) (nm_reduced s).

(** [qdisc_tree_reduce_backlog(sch, n, len)]: the root queue has no ancestors
    whose counters could change. *)
Definition log_reduced (x : Z * Z) (s : netem Q) : netem Q :=
  Netem (nm_cfg s) (nm_cors s) (nm_clg s) (nm_slot s) (nm_counter s) (nm_tree s) (nm_list s) (nm_child s)
    (nm_watchdog s) (nm_q s) (nm_limit s) (nm_qstats s) (nm_requeues s) (nm_bstats s) (nm_tick s) (nm_flips s)
    (nm_freed s) (nm_reduced s ++ [x]).

(** Fields of the configuration. *)
Definition cfg_set_duplicate (d : Z) (c : netem_cfg) : netem_cfg :=
  {| latency := latency c; jitter := jitter c; loss := loss c; ecn := ecn c; nlimit := nlimit c;
     gap := gap c; duplicate := d; reorder := reorder c; corrupt := corrupt c; nrate := nrate c;
     packet_overhead := packet_overhead c; cell_size := cell_size c;
     cell_size_reciprocal := cell_size_reciprocal c; cell_overhead := cell_overhead c;
     loss_model := loss_model c; delay_dist := delay_dist c; slot_dist := slot_dist c;
     slot_config := slot_config c |}.
End updates.

(** ** Operations *)

Section ops.
Context `{KernelHeaders} `{NetemHeaders} `{NetemEnv} `{ReciprocalDiv} {Q : Type} `{ChildQdisc Q}.

Abbreviation N := (M (netem Q)).

Definition gets {A} (f : netem Q → A) : N A := λ s, Some (f s, s).

Definition modify (f : netem Q → netem Q) : N unit := λ s, Some (tt, f s).

Definition cfg {A} (f : netem_cfg → A) : N A := gets (λ s, f (nm_cfg s)).

(** The next reading of the environment. *)
Definition next {A} (f : nat → A) : N A := λ s, Some (f (nm_tick s), upd_tick S s).

Definition prandom_u32 : N Z := next prandom_at.

Definition ktime_get_ns : N Z := next ktime_at.

Definition on_tree {A} (c : M (heap nskb) A) : N A :=
  λ s, match c (nm_tree s) with
       | Some (v, h) => Some (v, upd_tree (λ _, h) s)
       | None => None
       end.

(** *** Random numbers *)

Definition init_crandom (c : cor) (r : Z) : N unit :=
  let* v := prandom_u32 in
  modify (upd_cors (set_cor c (Crnd v (u32 r)))).

(** [None] is the null pointer. *)
Definition get_crandom (c : option cor) : N Z :=
  let* value := prandom_u32 in
  match c with
  | None => cret value
  | Some c =>
      let* st := gets (λ s, get_cor c (nm_cors s)) in
      if rho st =? 0 then cret value
      else
        let '(answer, st') := crandom st value in
        modify (upd_cors (set_cor c st')) ;;;
        cret (u32 answer)
  end.

(** [p && p >= get_crandom(...)]. *)
Definition chance (p : Z) (c : cor) : N bool :=
  if p =? 0 then cret false
  else let* r := get_crandom (Some c) in cret (r <=? p).

Definition loss_4state : N bool :=
  let* rnd := prandom_u32 in
  let* clg := gets nm_clg in
  let '(lost, clg') := loss_4state_step rnd clg in
  modify (upd_clg (λ _, clg')) ;;; cret lost.

Definition loss_gilb_ell : N bool :=
  let* clg := gets nm_clg in
  if (clg_state clg =? GOOD_STATE) || (clg_state clg =? BAD_STATE) then
    let* rnd1 := prandom_u32 in
    let* rnd2 := prandom_u32 in
    let '(lost, clg') := gilb_ell_step rnd1 rnd2 clg in
    modify (upd_clg (λ _, clg')) ;;; cret lost
  else cret false.

Definition loss_event : N bool :=
  let* m := cfg loss_model in
  match m with
  | CLG_RANDOM => let* p := cfg loss in chance p LossCor
  | CLG_4_STATES => loss_4state
  | CLG_GILB_ELL => loss_gilb_ell
  end.

Definition tabledist (mu sigma : Z) (c : option cor) (dist : option (list Z)) : N Z :=
  if sigma =? 0 then cret mu
  else
    let* rnd := get_crandom c in
    match tabledist_of mu sigma rnd dist with
    | Some d => cret d
    | None => cfail
    end.

Definition cfg_packet_time (c : netem_cfg) (len : Z) : Z :=
  packet_time_ns (packet_overhead c) (cell_size c) (cell_size_reciprocal c) (cell_overhead c) (nrate c) len.

(** *** The time queue *)

(** The depth of a red-black tree of fewer than 2^62 nodes. *)
Definition tree_fuel : nat := 128.

(** The search of [tfifo_enqueue]: the parent and the pointer. *)
Fixpoint tfifo_place (fuel : nat) (p parent tnext : Z) : M (heap nskb) (Z * Z) :=
  match fuel with
  | O => cfail
  | S fuel =>
      let* a := on_words (load p) in
      if nonnull a then
        let* skb := get_data a in
        if time_to_send skb <=? tnext then tfifo_place fuel (rb_right a) a tnext
        else tfifo_place fuel (rb_left a) a tnext
      else cret (parent, p)
  end.

(** The words of [nskb->rbnode] are the packet's own. *)
Definition tree_insert (nskb : nskb) : M (heap Netem.nskb) unit :=
  let* pl := tfifo_place tree_fuel t_root 0 (time_to_send nskb) in
  link_data (skb_id (ns_skb nskb)) nskb pl.1 pl.2 t_root.

Definition incr_qlen (d : Z) (q : qdisc_head) : qdisc_head := QHead (qh_list q) (u32 (qh_qlen q + d)).

Definition tfifo_enqueue (nskb : nskb) : N unit :=
  let* l := gets nm_list in
  match list.last l with
  | Some t_tail =>
      if time_to_send t_tail <=? time_to_send nskb then modify (upd_list (λ l, l ++ [nskb]))
      else on_tree (tree_insert nskb)
  | None => modify (upd_list (λ l, l ++ [nskb]))
  end ;;;
  modify (upd_q (incr_qlen 1)).

(** [skb_rb_first], [skb_rb_last]. *)
Definition tree_end (find : Z → M mem Z) : M (heap nskb) (option nskb) :=
  let* a := on_words (find t_root) in
  if nonnull a then let* n := get_data a in cret (Some n) else cret None.

Definition netem_peek : N (option nskb) :=
  let* o := on_tree (tree_end rb_first) in
  let* l := gets nm_list in
  cret match o, l with
       | None, l => head l
       | Some n, [] => Some n
       | Some n, t_head :: _ => if time_to_send n <? time_to_send t_head then Some n else Some t_head
       end.

(** Packets are compared by address. *)
Definition netem_erase_head (n : nskb) : N unit :=
  let* l := gets nm_list in
  match l with
  | t_head :: l' =>
      if skb_id (ns_skb n) =? skb_id (ns_skb t_head) then modify (upd_list (λ _, l'))
      else on_tree (unlink_free (skb_id (ns_skb n)) t_root)
  | [] => on_tree (unlink_free (skb_id (ns_skb n)) t_root)
  end.

(** The loop of [tfifo_reset]: [rb_next] before [rb_erase]. *)
Fixpoint reset_loop (fuel : nat) (p : Z) : N unit :=
  match fuel with
  | O => cfail
  | S fuel =>
      if nonnull p then
        let* n := on_tree (get_data p) in
        let* p' := on_tree (on_words (rb_next p)) in
        on_tree (unlink_free p t_root) ;;;
        modify (log_freed [ns_skb n]) ;;;
        reset_loop fuel p'
      else cret tt
  end.

(** [fuel] bounds the number of packets in the tree. *)
Definition tfifo_reset (fuel : nat) : N unit :=
  let* p := on_tree (on_words (rb_first t_root)) in
  reset_loop fuel p ;;;
  let* l := gets nm_list in
  modify (log_freed (ns_skb <$> l)) ;;;
  modify (upd_list (λ _, [])).

(** *** Enqueue *)

Definition count_drop : N unit := modify (upd_qstats qdisc_qstats_drop).

(** [qdisc_drop(skb, sch, to_free)]. *)
Definition nm_drop (skb : sk_buff) : N unit :=
  let* st := gets nm_qstats in
  let '(_, st', fr) := qdisc_drop skb st in
  modify (upd_qstats (λ _, st')) ;;; modify (log_freed fr).

Definition netem_segment (skb : sk_buff) : N (option (list sk_buff)) :=
  match skb_gso_segment skb with
  | None | Some [] => nm_drop skb ;;; cret None
  | Some segs => modify (log_freed [skb]) ;;; cret (Some segs)
  end.

Definition set_skb_id (a : Z) (skb : sk_buff) : sk_buff :=
  {| skb_id := a; skb_len := skb_len skb; pkt_len := pkt_len skb |}.

(** The corruption of a packet: [return rc_drop], [goto finish_segs], or the
    packet to enqueue; the list is what is left in [segs]. *)
Inductive corrupted :=
| CReturn
| CFinish (segs : list sk_buff)
| CContinue (skb : sk_buff) (segs : list sk_buff).

(** [skb->data[prandom_u32() % skb_headlen(skb)] ^= 1<<(prandom_u32() % 8)]. *)
Definition flip_bit (skb : sk_buff) : N unit :=
  let* i := prandom_u32 in
  let* j := prandom_u32 in
  if skb_headlen skb =? 0 then cfail
  else modify (log_flip (skb, i mod skb_headlen skb, j mod 8)).

Definition skb_unshare (skb : sk_buff) : N (option sk_buff) :=
  let* r := next unshare_at in
  cret match r with
       | None => None
       | Some None => Some skb
       | Some (Some a) => Some (set_skb_id a skb)
       end.

(** [skb] is the first of the packets to corrupt, [segs] the rest. *)
Definition corrupt_first (skb : sk_buff) (segs : list sk_buff) : N corrupted :=
  let* u := skb_unshare skb in
  match u with
  | None => count_drop ;;; cret (CFinish segs)
  | Some skb =>
      let* err := if skb_csum_partial skb then next checksum_at else cret 0 in
      if negb (err =? 0) then nm_drop skb ;;; cret (CFinish segs)
      else flip_bit skb ;;; cret (CContinue skb segs)
  end.

Definition netem_corrupt (skb : sk_buff) : N corrupted :=
  let* p := cfg corrupt in
  let* c := chance p CorruptCor in
  if negb c then cret (CContinue skb [])
  else if skb_is_gso skb then
    let* segs := netem_segment skb in
    match segs with
    | Some (skb :: segs) => corrupt_first skb segs
    | _ => cret CReturn
    end
  else corrupt_first skb [].

(** The time the last packet of the queue is due: the greatest of the tail of
    [sch->q], the last packet of the tree and the tail of the list, as the
    code compares them. *)
Definition later (t : option nskb) (last : option nskb) : option nskb :=
  match t, last with
  | Some t, None => Some t
  | Some t, Some l => if time_to_send l <? time_to_send t then Some t else last
  | None, _ => last
  end.

Definition last_due : N (option nskb) :=
  let* q := gets nm_q in
  let* t_last := on_tree (tree_end rb_last) in
  let* l := gets nm_list in
  cret (later (list.last l) (later t_last (list.last (qh_list q)))).

(** With a rate, the packet follows the last one by its transmission time. *)
Definition rate_delay (delay now : Z) (skb : sk_buff) : N (Z * Z) :=
  let* c := cfg id in
  if nrate c =? 0 then cret (delay, now)
  else
    let* last := last_due in
    let '(delay, now) :=
      match last with
      | Some l => (Z.max 0 (s64 (delay - (time_to_send l - now))), time_to_send l)
      | None => (delay, now)
      end in
    cret (s64 (delay + cfg_packet_time c (pkt_len skb)), now).

Definition enqueue_delayed (skb : sk_buff) : N unit :=
  let* c := cfg id in
  let* delay := tabledist (latency c) (s32 (jitter c)) (Some DelayCor) (delay_dist c) in
  let* now := ktime_get_ns in
  let* dn := rate_delay delay now skb in
  modify (upd_counter (λ n, u32 (n + 1))) ;;;
  tfifo_enqueue (Nskb skb (u64 (dn.2 + dn.1))).

(** Reordering: the packet goes to the front. *)
Definition enqueue_reordered (skb : sk_buff) : N unit :=
  let* now := ktime_get_ns in
  modify (upd_counter (λ _, 0)) ;;;
  modify (upd_q (__qdisc_enqueue_head (Nskb skb now))) ;;;
  modify (upd_requeues (λ n, u32 (n + 1))).

(** [q->gap == 0 || q->counter < q->gap - 1 || q->reorder < get_crandom(...)]. *)
Definition delays : N bool :=
  let* g := cfg gap in
  let* n := gets nm_counter in
  if (g =? 0) || (n <? u32 (g - 1)) then cret true
  else
    let* p := cfg reorder in
    let* r := get_crandom (Some ReorderCor) in
    cret (p <? r).

Definition enqueue_one (skb : sk_buff) : N unit :=
  modify (upd_qstats (qdisc_qstats_backlog_inc skb)) ;;;
  let* d := delays in
  if d then enqueue_delayed skb else enqueue_reordered skb.

(** [qdisc_skb_cb(segs)->pkt_len = segs->len]. *)
Definition nm_seg_skb (seg : sk_buff) : sk_buff := set_pkt_len (skb_len seg) seg.

(** The [while (segs)] loop; [enq] is [sch->enqueue]. *)
Fixpoint segs_loop (enq : sk_buff → N Z) (segs : list sk_buff) (nb len : Z) : N (Z * Z) :=
  match segs with
  | [] => cret (nb, len)
  | seg :: segs =>
      let* rc := enq (qdisc_calculate_pkt_len (nm_seg_skb seg)) in
      if negb (rc =? NET_XMIT_SUCCESS) then
        (if net_xmit_drop_count rc then count_drop else cret tt) ;;;
        segs_loop enq segs nb len
      else segs_loop enq segs (nb + 1) (u32 (len + skb_len seg))
  end.

Definition finish_segs (enq : sk_buff → N Z) (segs : list sk_buff) (prev_len : Z) : N Z :=
  match segs with
  | [] => cret NET_XMIT_SUCCESS
  | _ =>
      let* r := segs_loop enq segs 0 0 in
      modify (upd_q (incr_qlen r.1)) ;;;
      (if 1 <? r.1 then modify (log_reduced (1 - r.1, s32 (u32 (prev_len - r.2)))) else cret tt) ;;;
      cret NET_XMIT_SUCCESS
  end.

(** The loss, with the packet, which may be marked instead: whether to drop one
    copy. *)
Definition netem_loss (skb : sk_buff) : N (bool * sk_buff) :=
  let* lost := loss_event in
  if negb lost then cret (false, skb)
  else
    let* e := cfg ecn in
    if negb (e =? 0) then
      let '(marked, skb') := INET_ECN_set_ce skb in
      if marked then count_drop ;;; cret (false, skb') else cret (true, skb')
    else cret (true, skb).

(** The duplicate: enqueued at the root with duplication switched off; the result
    is [rc_drop]. *)
Definition netem_duplicate (enq : sk_buff → N Z) (skb : sk_buff) : N Z :=
  let* c := next clone_at in
  match c with
  | None => cret NET_XMIT_DROP
  | Some a =>
      let* dupsave := cfg duplicate in
      modify (upd_cfg (cfg_set_duplicate 0)) ;;;
      let* _ := enq (set_skb_id a skb) in
      modify (upd_cfg (cfg_set_duplicate dupsave)) ;;;
      cret NET_XMIT_SUCCESS
  end.

(** The recursion is through duplicates and segments: a duplicate is not
    duplicated, a segment is not segmented. *)
Fixpoint netem_enqueue (fuel : nat) (skb : sk_buff) : N Z :=
  match fuel with
  | O => cfail
  | S fuel =>
      let prev_len := pkt_len skb in
      let* p := cfg duplicate in
      let* dup := chance p DupCor in
      let* l := netem_loss skb in
      let skb := l.2 in
      let count := 1 + Z.b2z dup - Z.b2z l.1 in
      if count =? 0 then
        count_drop ;;; modify (log_freed [skb]) ;;;
        cret (Z.lor NET_XMIT_SUCCESS __NET_XMIT_BYPASS)
      else
        let* rc_drop := if 1 <? count then netem_duplicate (netem_enqueue fuel) skb
                        else cret NET_XMIT_DROP in
        let* c := netem_corrupt skb in
        match c with
        | CReturn => cret rc_drop
        | CFinish segs => finish_segs (netem_enqueue fuel) segs prev_len
        | CContinue skb segs =>
            let* q := gets nm_q in
            let* lim := gets nm_limit in
            if lim <=? qh_qlen q then
              let* st := gets nm_qstats in
              let '(st', fr) := qdisc_drop_all skb segs st in
              modify (upd_qstats (λ _, st')) ;;; modify (log_freed fr) ;;;
              cret rc_drop
            else
              enqueue_one skb ;;;
              finish_segs (netem_enqueue fuel) segs prev_len
        end
  end.

(** *** Dequeue *)

(** [prandom_u32() * (max_delay - min_delay) >> 32] in 64-bit arithmetic. *)
Definition slot_delay (c : tc_netem_slot) (rnd : Z) : Z :=
  s64 (min_delay c + Z.shiftr (s64 (rnd * s64 (max_delay c - min_delay c))) 32).

Definition get_slot_next (now : Z) : N unit :=
  let* c := cfg id in
  let sl := slot_config c in
  let* next_delay :=
    match slot_dist c with
    | None => let* rnd := prandom_u32 in cret (slot_delay sl rnd)
    | Some d => tabledist (dist_delay sl) (s32 (dist_jitter sl)) None (Some d)
    end in
  modify (upd_slot (λ _, SlotState (u64 (now + next_delay)) (max_packets sl) (max_bytes sl))).

(** [q->qdisc->ops->dequeue(q->qdisc)], if there is one. *)
Definition child_dequeue : N (option sk_buff) :=
  let* ch := gets nm_child in
  match ch with
  | None => cret None
  | Some c =>
      let* now := ktime_get_ns in
      let '(o, c') := cq_dequeue now c in
      modify (upd_child (λ _, Some c')) ;;; cret o
  end.

(** [deliver:]. *)
Definition deliver (skb : sk_buff) : N (option sk_buff) :=
  modify (upd_bstats (qdisc_bstats_update skb)) ;;; cret (Some skb).

(** The accounting of the slot for a packet that leaves. *)
Definition slot_account (now : Z) (skb : sk_buff) : N unit :=
  let* sl := gets nm_slot in
  if slot_next sl =? 0 then cret tt
  else
    let pl := s32 (packets_left sl - 1) in
    let bl := s32 (bytes_left sl - pkt_len skb) in
    modify (upd_slot (λ _, SlotState (slot_next sl) pl bl)) ;;;
    if (pl <=? 0) || (bl <=? 0) then get_slot_next now else cret tt.

(** A packet that is due leaves the time queue. *)
Definition take_due (now : Z) (n : nskb) : N unit :=
  netem_erase_head n ;;;
  modify (upd_q (incr_qlen (-1))) ;;;
  modify (upd_qstats (qdisc_qstats_backlog_dec (ns_skb n))) ;;;
  slot_account now (ns_skb n).

(** It goes into the queue below. *)
Definition child_enqueue (c : Q) (skb : sk_buff) : N unit :=
  let '(err, c', fr) := cq_enqueue skb c in
  modify (upd_child (λ _, Some c')) ;;;
  modify (log_freed fr) ;;;
  if negb (err =? NET_XMIT_SUCCESS) && net_xmit_drop_count err
  then count_drop ;;; modify (log_reduced (1, s32 (pkt_len skb)))
  else cret tt.

Definition open_slot (now tts : Z) : N Z :=
  let* sl := gets nm_slot in
  (if negb (slot_next sl =? 0) && (slot_next sl <? tts) then get_slot_next now else cret tt) ;;;
  gets (λ s, slot_next (nm_slot s)).

(** What is left to do when no packet is due: the queue below. *)
Definition dequeue_child : N (option sk_buff) :=
  let* o := child_dequeue in
  match o with
  | Some skb => deliver skb
  | None => cret None
  end.

(** [fuel] bounds the packets that move to the queue below. *)
Fixpoint netem_dequeue (fuel : nat) (deactivated : bool) : N (option sk_buff) :=
  match fuel with
  | O => cfail
  | S fuel =>
      let* q := gets nm_q in
      let '(o, q') := __qdisc_dequeue_head q in
      modify (upd_q (λ _, q')) ;;;
      match o with
      | Some n =>
          modify (upd_qstats (qdisc_qstats_backlog_dec (ns_skb n))) ;;;
          deliver (ns_skb n)
      | None =>
          let* o := netem_peek in
          match o with
          | None => dequeue_child
          | Some n =>
              let tts := time_to_send n in
              let* now := ktime_get_ns in
              let* sn := open_slot now tts in
              if (tts <=? now) && (sn <=? now) then
                take_due now n ;;;
                let* ch := gets nm_child in
                match ch with
                | Some c => child_enqueue c (ns_skb n) ;;; netem_dequeue fuel deactivated
                | None => deliver (ns_skb n)
                end
              else
                let* o := child_dequeue in
                match o with
                | Some skb => deliver skb
                | None =>
                    let* sl := gets nm_slot in
                    modify (upd_watchdog (qdisc_watchdog_schedule_ns deactivated
                                            (Z.max tts (slot_next sl)))) ;;;
                    dequeue_child
                end
          end
      end
  end.

Definition netem_reset (fuel : nat) : N unit :=
  let* q := gets nm_q in
  let* st := gets nm_qstats in
  let '(q', st') := reset_queue q st in
  modify (log_freed (ns_skb <$> qh_list q)) ;;;
  modify (upd_q (λ _, q')) ;;;
  modify (upd_qstats (λ _, st')) ;;;
  tfifo_reset fuel ;;;
  let* ch := gets nm_child in
  match ch with
  | Some c => let* now := ktime_get_ns in modify (upd_child (λ _, Some (cq_reset now c)))
  | None => cret tt
  end ;;;
  modify (upd_watchdog qdisc_watchdog_cancel).
End ops.
