(* ===== verification/NetemConf.v ===== *)
(** * Configuration of netem (src/net/sched/sch_netem.c)

    [netem_change] and the functions it calls for each attribute, [netem_init],
    [netem_destroy], the dump of a configuration, and the class operations.
    The attributes arrive as [parse_attr] leaves them: a fixed structure and a
    table of optional payloads. *)

From Stdlib Require Import ZArith Lia.
From stdpp Require Import base numbers list gmap option.
From S2P Require Import Prelude Sched Tbf RbCode SeqBuf NetemRand Netem.

Open Scope Z_scope.

Definition ENOENT : Z := 2.

Definition INT_MAX : Z := 2147483647.

Definition UINT_MAX : Z := 4294967295.

(** ** Attributes *)

(** [struct tc_netem_qopt]: 32-bit fields. *)
Record tc_netem_qopt := NQopt {
  no_latency : Z;
  no_limit : Z;
  no_loss : Z;
  no_gap : Z;
  no_duplicate : Z;
  no_jitter : Z;
}.

(** A nested attribute of [TCA_NETEM_LOSS], with the length of its payload. *)
Inductive loss_attr :=
| LossGI (len p13 p31 p32 p14 p23 : Z)
| LossGE (len p r h k1 : Z)
| LossOther (type : Z).

(** [struct tc_netem_rate]. *)
Record tc_netem_rate := NRate {
  nr_rate : Z;             (* u32 *)
  nr_packet_overhead : Z;  (* s32 *)
  nr_cell_size : Z;        (* u32 *)
  nr_cell_overhead : Z;    (* s32 *)
}.

Record netem_tb := {
  tb_corr : option (Z * Z * Z);   (* delay, loss and duplication *)
  tb_delay_dist : option (list Z);
  tb_reorder : option (Z * Z);    (* probability and correlation *)
  tb_corrupt : option (Z * Z);
  tb_loss : option (list loss_attr);
  tb_rate : option tc_netem_rate;
  tb_ecn : option Z;              (* u32 *)
  tb_nrate64 : option Z;          (* u64 *)
  tb_latency64 : option Z;        (* s64 *)
  tb_jitter64 : option Z;         (* s64 *)
  tb_slot : option tc_netem_slot;
  tb_slot_dist : option (list Z);
}.

(** [parse_attr]: [nla_parse] is the kernel's, its answer [parsed]. *)
Definition NLA_ALIGN (len : Z) : Z := Z.land (len + 3) (Z.lnot 3).

Definition no_attrs : netem_tb := {|
  tb_corr := None; tb_delay_dist := None; tb_reorder := None; tb_corrupt := None; tb_loss := None;
  tb_rate := None; tb_ecn := None; tb_nrate64 := None; tb_latency64 := None; tb_jitter64 := None;
  tb_slot := None; tb_slot_dist := None |}.

Definition parse_attr (nla_len len : Z) (parsed : Z + netem_tb) : Z + netem_tb :=
  let nested_len := nla_len - NLA_ALIGN len in
  if nested_len <? 0 then inl (- EINVAL)
  else if 4 <=? nested_len then parsed
  else inr no_attrs.

(** The attribute [opt] of the options, as [netem_change] reads it: the fixed
    structure has 24 bytes. *)
Definition netem_opt (nla_len : Z) (qopt : tc_netem_qopt) (parsed : Z + netem_tb) : Z + tc_netem_qopt * netem_tb :=
  match parse_attr nla_len 24 parsed with
  | inl err => inl err
  | inr tb => inr (qopt, tb)
  end.

(** ** Updates of the configuration *)

Definition cfg_set_loss_model (m : loss_kind) (c : netem_cfg) : netem_cfg :=
  {| latency := latency c; jitter := jitter c; loss := loss c; ecn := ecn c; nlimit := nlimit c;
     gap := gap c; duplicate := duplicate c; reorder := reorder c; corrupt := corrupt c; nrate := nrate c;
     packet_overhead := packet_overhead c; cell_size := cell_size c;
     cell_size_reciprocal := cell_size_reciprocal c; cell_overhead := cell_overhead c;
     loss_model := m; delay_dist := delay_dist c; slot_dist := slot_dist c;
     slot_config := slot_config c |}.

Definition cfg_set_dists (d sd : option (list Z)) (c : netem_cfg) : netem_cfg :=
  {| latency := latency c; jitter := jitter c; loss := loss c; ecn := ecn c; nlimit := nlimit c;
     gap := gap c; duplicate := duplicate c; reorder := reorder c; corrupt := corrupt c; nrate := nrate c;
     packet_overhead := packet_overhead c; cell_size := cell_size c;
     cell_size_reciprocal := cell_size_reciprocal c; cell_overhead := cell_overhead c;
     loss_model := loss_model c; delay_dist := d; slot_dist := sd;
     slot_config := slot_config c |}.

Definition cfg_set_reorder (r : Z) (c : netem_cfg) : netem_cfg :=
  {| latency := latency c; jitter := jitter c; loss := loss c; ecn := ecn c; nlimit := nlimit c;
     gap := gap c; duplicate := duplicate c; reorder := r; corrupt := corrupt c; nrate := nrate c;
     packet_overhead := packet_overhead c; cell_size := cell_size c;
     cell_size_reciprocal := cell_size_reciprocal c; cell_overhead := cell_overhead c;
     loss_model := loss_model c; delay_dist := delay_dist c; slot_dist := slot_dist c;
     slot_config := slot_config c |}.

Definition cfg_set_corrupt (p : Z) (c : netem_cfg) : netem_cfg :=
  {| latency := latency c; jitter := jitter c; loss := loss c; ecn := ecn c; nlimit := nlimit c;
     gap := gap c; duplicate := duplicate c; reorder := reorder c; corrupt := p; nrate := nrate c;
     packet_overhead := packet_overhead c; cell_size := cell_size c;
     cell_size_reciprocal := cell_size_reciprocal c; cell_overhead := cell_overhead c;
     loss_model := loss_model c; delay_dist := delay_dist c; slot_dist := slot_dist c;
     slot_config := slot_config c |}.

Definition cfg_set_rate (r : Z) (c : netem_cfg) : netem_cfg :=
  {| latency := latency c; jitter := jitter c; loss := loss c; ecn := ecn c; nlimit := nlimit c;
     gap := gap c; duplicate := duplicate c; reorder := reorder c; corrupt := corrupt c; nrate := r;
     packet_overhead := packet_overhead c; cell_size := cell_size c;
     cell_size_reciprocal := cell_size_reciprocal c; cell_overhead := cell_overhead c;
     loss_model := loss_model c; delay_dist := delay_dist c; slot_dist := slot_dist c;
     slot_config := slot_config c |}.

Definition cfg_set_delays (l j : Z) (c : netem_cfg) : netem_cfg :=
  {| latency := l; jitter := j; loss := loss c; ecn := ecn c; nlimit := nlimit c;
     gap := gap c; duplicate := duplicate c; reorder := reorder c; corrupt := corrupt c; nrate := nrate c;
     packet_overhead := packet_overhead c; cell_size := cell_size c;
     cell_size_reciprocal := cell_size_reciprocal c; cell_overhead := cell_overhead c;
     loss_model := loss_model c; delay_dist := delay_dist c; slot_dist := slot_dist c;
     slot_config := slot_config c |}.

Definition cfg_set_ecn (e : Z) (c : netem_cfg) : netem_cfg :=
  {| latency := latency c; jitter := jitter c; loss := loss c; ecn := e; nlimit := nlimit c;
     gap := gap c; duplicate := duplicate c; reorder := reorder c; corrupt := corrupt c; nrate := nrate c;
     packet_overhead := packet_overhead c; cell_size := cell_size c;
     cell_size_reciprocal := cell_size_reciprocal c; cell_overhead := cell_overhead c;
     loss_model := loss_model c; delay_dist := delay_dist c; slot_dist := slot_dist c;
     slot_config := slot_config c |}.

Definition cfg_set_slot (sl : tc_netem_slot) (c : netem_cfg) : netem_cfg :=
  {| latency := latency c; jitter := jitter c; loss := loss c; ecn := ecn c; nlimit := nlimit c;
     gap := gap c; duplicate := duplicate c; reorder := reorder c; corrupt := corrupt c; nrate := nrate c;
     packet_overhead := packet_overhead c; cell_size := cell_size c;
     cell_size_reciprocal := cell_size_reciprocal c; cell_overhead := cell_overhead c;
     loss_model := loss_model c; delay_dist := delay_dist c; slot_dist := slot_dist c;
     slot_config := sl |}.

Section ops.
Context `{KernelHeaders} `{NetemHeaders} `{NetemEnv} `{ReciprocalDiv} {Q : Type} `{ChildQdisc Q}.

Abbreviation N := (M (netem Q)).

(** ** The attributes *)

(** [get_dist_table(sch, tbl, attr)]: the new table or an error; the old one is
    freed. *)
Definition get_dist_table (data : list Z) : N (Z + list Z) :=
  if NETEM_DIST_MAX <? Z.of_nat (length data) then cret (inl (- EINVAL))
  else
    let* ok := next malloc_at in
    cret (if ok then inr data else inl (- ENOMEM)).

Definition has_slot (c : tc_netem_slot) : bool :=
  negb (Z.lor (Z.lor (min_delay c) (max_delay c)) (dist_jitter c) =? 0).

Definition get_slot (c : tc_netem_slot) : N unit :=
  let sl := Slot (min_delay c) (max_delay c)
              (if max_packets c =? 0 then INT_MAX else max_packets c)
              (if max_bytes c =? 0 then INT_MAX else max_bytes c)
              (dist_delay c) (dist_jitter c) in
  modify (upd_cfg (cfg_set_slot sl)) ;;;
  let* sn := if has_slot sl then ktime_get_ns else cret 0 in
  modify (upd_slot (λ _, SlotState sn (max_packets sl) (max_bytes sl))).

Definition get_correlation (c : Z * Z * Z) : N unit :=
  init_crandom DelayCor c.1.1 ;;;
  init_crandom LossCor c.1.2 ;;;
  init_crandom DupCor c.2.

Definition get_reorder (r : Z * Z) : N unit :=
  modify (upd_cfg (cfg_set_reorder r.1)) ;;;
  init_crandom ReorderCor r.2.

Definition get_corrupt (r : Z * Z) : N unit :=
  modify (upd_cfg (cfg_set_corrupt r.1)) ;;;
  init_crandom CorruptCor r.2.

(** [get_rate]. *)
Definition netem_get_rate (r : tc_netem_rate) (c : netem_cfg) : netem_cfg :=
  {| latency := latency c; jitter := jitter c; loss := loss c; ecn := ecn c; nlimit := nlimit c;
     gap := gap c; duplicate := duplicate c; reorder := reorder c; corrupt := corrupt c;
     nrate := nr_rate r; packet_overhead := nr_packet_overhead r; cell_size := nr_cell_size r;
     cell_size_reciprocal := if negb (nr_cell_size r =? 0) then reciprocal_value (nr_cell_size r)
                             else RValue 0 0 0;
     cell_overhead := nr_cell_overhead r;
     loss_model := loss_model c; delay_dist := delay_dist c; slot_dist := slot_dist c;
     slot_config := slot_config c |}.

(** [sizeof(struct tc_netem_gimodel)] is 20, that of [tc_netem_gemodel] 16. *)
Fixpoint get_loss_clg (attrs : list loss_attr) : N Z :=
  match attrs with
  | [] => cret 0
  | LossGI len p13 p31 p32 p14 p23 :: attrs =>
      if len <? 20 then cret (- EINVAL)
      else
        modify (upd_cfg (cfg_set_loss_model CLG_4_STATES)) ;;;
        modify (upd_clg (λ _, Clg TX_IN_GAP_PERIOD p13 p31 p32 p14 p23)) ;;;
        get_loss_clg attrs
  | LossGE len p r h k1 :: attrs =>
      if len <? 16 then cret (- EINVAL)
      else
        modify (upd_cfg (cfg_set_loss_model CLG_GILB_ELL)) ;;;
        modify (upd_clg (λ c, Clg GOOD_STATE p r h k1 (a5 c))) ;;;
        get_loss_clg attrs
  | LossOther _ :: _ => cret (- EINVAL)
  end.

(** ** [netem_change] *)

(** [if (tb[...]) f(...)]. *)
Definition when {A} (o : option A) (f : A → N unit) : N unit :=
  match o with
  | Some a => f a
  | None => cret tt
  end.

(** The fixed structure. *)
Definition netem_set_qopt (qopt : tc_netem_qopt) (c : netem_cfg) : netem_cfg :=
  {| latency := s64 (PSCHED_TICKS2NS (no_latency qopt)); jitter := s64 (PSCHED_TICKS2NS (no_jitter qopt));
     loss := no_loss qopt; ecn := ecn c; nlimit := no_limit qopt; gap := no_gap qopt;
     duplicate := no_duplicate qopt;
     reorder := if negb (no_gap qopt =? 0) then UINT_MAX else reorder c;
     corrupt := corrupt c; nrate := nrate c;
     packet_overhead := packet_overhead c; cell_size := cell_size c;
     cell_size_reciprocal := cell_size_reciprocal c; cell_overhead := cell_overhead c;
     loss_model := loss_model c; delay_dist := delay_dist c; slot_dist := slot_dist c;
     slot_config := slot_config c |}.

(** From [sch->limit = qopt->limit] on: nothing fails any more. *)
Definition netem_install (qopt : tc_netem_qopt) (tb : netem_tb) : N unit :=
  modify (upd_limit (λ _, no_limit qopt)) ;;;
  modify (upd_cfg (netem_set_qopt qopt)) ;;;
  modify (upd_counter (λ _, 0)) ;;;
  when (tb_corr tb) get_correlation ;;;
  when (tb_reorder tb) get_reorder ;;;
  when (tb_corrupt tb) get_corrupt ;;;
  when (tb_rate tb) (λ r, modify (upd_cfg (netem_get_rate r))) ;;;
  when (tb_nrate64 tb) (λ r, modify (upd_cfg (λ c, cfg_set_rate (Z.max (nrate c) r) c))) ;;;
  when (tb_latency64 tb) (λ l, modify (upd_cfg (λ c, cfg_set_delays l (jitter c) c))) ;;;
  when (tb_jitter64 tb) (λ j, modify (upd_cfg (λ c, cfg_set_delays (latency c) j c))) ;;;
  when (tb_ecn tb) (λ e, modify (upd_cfg (cfg_set_ecn e))) ;;;
  when (tb_slot tb) get_slot.

(** One distribution: zero, or the error. *)
Definition change_dist (o : option (list Z)) (set : list Z → netem_cfg → netem_cfg) : N Z :=
  match o with
  | None => cret 0
  | Some data =>
      let* r := get_dist_table data in
      match r with
      | inl err => cret err
      | inr d => modify (upd_cfg (set d)) ;;; cret 0
      end
  end.

Definition change_dists (tb : netem_tb) : N Z :=
  let* r := change_dist (tb_delay_dist tb) (λ d c, cfg_set_dists (Some d) (slot_dist c) c) in
  if negb (r =? 0) then cret r
  else change_dist (tb_slot_dist tb) (λ d c, cfg_set_dists (delay_dist c) (Some d) c).

(** [opt] is [None] for no attribute, [inl] for an error of [parse_attr]. *)
Definition netem_change (opt : option (Z + tc_netem_qopt * netem_tb)) : N Z :=
  match opt with
  | None => cret (- EINVAL)
  | Some (inl err) => cret err
  | Some (inr (qopt, tb)) =>
      let* old_clg := gets nm_clg in
      let* old_loss_model := cfg loss_model in
      let* ret :=
        match tb_loss tb with
        | Some attrs => get_loss_clg attrs
        | None => modify (upd_cfg (cfg_set_loss_model CLG_RANDOM)) ;;; cret 0
        end in
      if negb (ret =? 0) then
        modify (upd_cfg (cfg_set_loss_model old_loss_model)) ;;; cret ret
      else
        let* ret := change_dists tb in
        if negb (ret =? 0) then
          modify (upd_clg (λ _, old_clg)) ;;;
          modify (upd_cfg (cfg_set_loss_model old_loss_model)) ;;; cret ret
        else netem_install qopt tb ;;; cret 0
  end.

Definition netem_init (opt : option (Z + tc_netem_qopt * netem_tb)) : N Z :=
  modify (upd_watchdog qdisc_watchdog_init) ;;;
  match opt with
  | None => cret (- EINVAL)
  | Some _ =>
      modify (upd_cfg (cfg_set_loss_model CLG_RANDOM)) ;;;
      netem_change opt
  end.

(** [qdisc_put] releases the child, [dist_free] the tables. *)
Definition netem_destroy : N unit :=
  modify (upd_watchdog qdisc_watchdog_cancel) ;;;
  modify (upd_child (λ _, None)) ;;;
  modify (upd_cfg (cfg_set_dists None None)).

(** ** Dump *)

(** The nested attribute of the loss model; [None]: the legacy model has none. *)
Definition dump_loss_model (s : netem Q) : option (list loss_attr) :=
  let c := nm_clg s in
  match loss_model (nm_cfg s) with
  | CLG_RANDOM => None
  | CLG_4_STATES => Some [LossGI 20 (a1 c) (a2 c) (a3 c) (a4 c) (a5 c)]
  | CLG_GILB_ELL => Some [LossGE 16 (a1 c) (a2 c) (a3 c) (a4 c)]
  end.

(** [min_t(psched_tdiff_t, PSCHED_NS2TICKS(x), UINT_MAX)]. *)
Definition ticks_of (x : Z) : Z := u32 (Z.min (PSCHED_NS2TICKS x) UINT_MAX).

Definition dump_slot (c : tc_netem_slot) : option tc_netem_slot :=
  if has_slot c then
    Some (Slot (min_delay c) (max_delay c)
            (if max_packets c =? INT_MAX then 0 else max_packets c)
            (if max_bytes c =? INT_MAX then 0 else max_bytes c)
            (dist_delay c) (dist_jitter c))
  else None.

(** The attributes put into the message; [room n] tells whether the [n]-th of
    them finds room. *)
Definition netem_dump (room : nat → bool) (s : netem Q) : option (tc_netem_qopt * netem_tb) :=
  let c := nm_cfg s in
  let big := 2 ^ 32 <=? nrate c in
  let qopt := NQopt (ticks_of (latency c)) (nlimit c) (loss c) (gap c) (duplicate c) (ticks_of (jitter c)) in
  let tb := {|
    tb_corr := Some (rho (delay_cor (nm_cors s)), rho (loss_cor (nm_cors s)), rho (dup_cor (nm_cors s)));
    tb_delay_dist := None;
    tb_reorder := Some (reorder c, rho (reorder_cor (nm_cors s)));
    tb_corrupt := Some (corrupt c, rho (corrupt_cor (nm_cors s)));
    tb_loss := dump_loss_model s;
    tb_rate := Some (NRate (if big then UINT_MAX else nrate c) (packet_overhead c) (cell_size c) (cell_overhead c));
    tb_ecn := if ecn c =? 0 then None else Some (ecn c);
    tb_nrate64 := if big then Some (nrate c) else None;
    tb_latency64 := Some (latency c);
    tb_jitter64 := Some (jitter c);
    tb_slot := dump_slot (slot_config c);
    tb_slot_dist := None;
  |} in
  if room 0%nat && room 1%nat && room 2%nat && room 3%nat && room 4%nat && room 5%nat &&
     (negb big || room 6%nat) && room 7%nat && ((ecn c =? 0) || room 8%nat) &&
     room 9%nat && (match dump_loss_model s with Some _ => room 10%nat | None => true end) &&
     (negb (has_slot (slot_config c)) || room 11%nat)
  then Some (qopt, tb) else None.

(** ** Classes *)

(** [tcm] is [(tcm_handle, tcm_info)]. *)
Definition netem_dump_class (cl : Z) (tcm : Z * Z) (s : netem Q) : Z * (Z * Z) :=
  match nm_child s with
  | Some c => if negb (cl =? 1) then (- ENOENT, tcm) else (0, (Z.lor tcm.1 1, cq_handle c))
  | None => (- ENOENT, tcm)
  end.

(** [qdisc_replace] is the header's helper. *)
Definition netem_graft (qdisc_replace : option Q → netem Q → option Q * netem Q) (new : option Q)
    (s : netem Q) : Z * option Q * netem Q :=
  let '(old, s) := qdisc_replace new s in (0, old, s).

Definition netem_leaf (s : netem Q) : option Q := nm_child s.

Definition netem_find (classid : Z) : Z := 1.

(** [fn] is the walker's callback on class 1. *)
Definition netem_walk (fn : Z → Z) (w : qdisc_walker) : qdisc_walker :=
  if w_stop w then w
  else if (w_skip w <=? w_count w) && (fn 1 <? 0)
  then {| w_stop := true; w_skip := w_skip w; w_count := w_count w |}
  else {| w_stop := w_stop w; w_skip := w_skip w; w_count := w_count w + 1 |}.
End ops.
