(* ===== verification/NetemFifo.v ===== *)
(** * The time queue of netem is a stable priority queue

    The packets that wait are split: those that arrived in the order they are
    due are in a list, the others in a red-black tree.  The abstract queue is
    one list in the order of the due times.  Inserting puts a packet behind
    those due no later, the packet shown and removed is the first. *)

From Stdlib Require Import ZArith Lia.
From stdpp Require Import base numbers list gmap option sets sorting.
From S2P Require Import Prelude Sched RbCode RbTree RbRefine RbWalk RbMem SeqBuf NetemRand Netem.

Open Scope Z_scope.

(** ** Due times *)

Definition due_le (a b : nskb) : Prop := time_to_send a ≤ time_to_send b.

#[export] Instance due_le_dec a b : Decision (due_le a b).
Proof. unfold due_le. apply _. Defined.

Definition nid (n : nskb) : Z := skb_id (ns_skb n).

(** The place of a packet: after those due at the same time. *)
Fixpoint insert_due (n : nskb) (l : list nskb) : list nskb :=
  match l with
  | [] => [n]
  | x :: l => if time_to_send x <=? time_to_send n then x :: insert_due n l else n :: x :: l
  end.

(** What is in the list goes before what is in the tree at the same time. *)
Abbreviation merge := (list_merge due_le).

Lemma insert_due_app n pre post : Forall (λ x, time_to_send x ≤ time_to_send n) pre →
  Forall (λ x, time_to_send n < time_to_send x) post → insert_due n (pre ++ post) = pre ++ n :: post.
Proof.
  intros Hpre Hpost. induction Hpre as [|x pre Hx _ IH]; simpl.
  - destruct Hpost as [|x post Hx _]; simpl; [done|]. by rewrite (proj2 (Z.leb_gt _ _)).
  - rewrite (proj2 (Z.leb_le _ _)) by done. by rewrite IH.
Qed.

Lemma insert_due_last n l : Forall (λ x, time_to_send x ≤ time_to_send n) l → insert_due n l = l ++ [n].
Proof. intros Hl. rewrite <- (app_nil_r l) at 1. by apply insert_due_app. Qed.

Lemma insert_due_perm n l : insert_due n l ≡ₚ n :: l.
Proof.
  induction l as [|x l IH]; simpl; [done|]. case_match; [|done]. rewrite IH. constructor.
Qed.

Lemma insert_due_sorted n l : StronglySorted due_le l → StronglySorted due_le (insert_due n l).
Proof.
  induction 1 as [|x l Hs IH Hx]; simpl; [repeat constructor|]. destruct (Z.leb_spec (time_to_send x) (time_to_send n)).
  - constructor; [done|]. rewrite insert_due_perm. by constructor.
  - constructor; [by constructor|]. constructor; [unfold due_le; lia|].
    eapply Forall_impl; [exact Hx|]. unfold due_le. lia.
Qed.

Lemma merge_insert n ls ts : merge ls (insert_due n ts) = insert_due n (merge ls ts).
Proof.
  revert ts. induction ls as [|x ls IHl]; intros ts; [by rewrite !list_merge_nil_l|].
  induction ts as [|y ts IHt]; [cbn [insert_due]; rewrite list_merge_cons|].
  - specialize (IHl []). rewrite list_merge_nil_r in IHl. rewrite list_merge_nil_r. cbn [insert_due] in *.
    destruct (decide (due_le x n)) as [Hd|Hd]; unfold due_le in Hd.
    + rewrite (proj2 (Z.leb_le _ _)) by done. by rewrite IHl.
    + by rewrite (proj2 (Z.leb_gt _ _)) by lia.
  - cbn [insert_due]. rewrite (list_merge_cons _ x y). destruct (Z.leb_spec (time_to_send y) (time_to_send n)).
    + rewrite list_merge_cons. destruct (decide (due_le x y)) as [Hd|Hd]; unfold due_le in Hd; cbn [insert_due].
      * rewrite (proj2 (Z.leb_le _ _)) by lia. f_equal. rewrite <- IHl. cbn [insert_due].
        by rewrite (proj2 (Z.leb_le _ _)).
      * rewrite (proj2 (Z.leb_le _ _)) by lia. by f_equal.
    + rewrite list_merge_cons. destruct (decide (due_le x n)) as [Hd|Hd]; unfold due_le in Hd.
      * rewrite decide_True by (unfold due_le; lia). cbn [insert_due].
        rewrite (proj2 (Z.leb_le _ _)) by done. f_equal. rewrite <- IHl. cbn [insert_due].
        by rewrite (proj2 (Z.leb_gt _ _)).
      * destruct (decide (due_le x y)) as [Hd'|Hd']; cbn [insert_due];
          rewrite (proj2 (Z.leb_gt _ _)) by lia; rewrite list_merge_cons; [by rewrite decide_True|by rewrite decide_False].
Qed.

Lemma merge_snoc n ls ts : Forall (λ x, time_to_send x < time_to_send n) ts →
  merge (ls ++ [n]) ts = merge ls ts ++ [n].
Proof.
  revert ts. induction ls as [|x ls IHl]; intros ts Hts.
  - rewrite list_merge_nil_l. simpl. induction Hts as [|y ts Hy _ IH]; [done|].
    rewrite list_merge_cons, decide_False by (unfold due_le; lia). by rewrite IH.
  - cbn [app]. induction Hts as [|y ts Hy Hts IH]; [by rewrite !list_merge_nil_r|].
    rewrite !list_merge_cons. case_decide; [|by rewrite IH].
    rewrite IHl; [done|]. by constructor.
Qed.

Lemma merge_perm ls ts : merge ls ts ≡ₚ ls ++ ts.
Proof. apply merge_Permutation. Qed.

(** ** The split queue *)

Section queue.
Context `{NetemEnv} {Q : Type}.
Implicit Types (s : netem Q) (t : tree) (ts ls : list nskb) (h : heap nskb).

(** The tree below [t_root] holds [ts], each packet at its own address. *)
Record time_tree (h : heap nskb) (t : tree) (ts : list nskb) : Prop := {
  tt_buffer : buffer t_root t h ts;
  tt_ids : inorder t = nid <$> ts;
  tt_sorted : StronglySorted due_le ts;
  tt_dom : ∀ a n, hdata h !! a = Some n → a ∈ inorder t;
}.

(** The list is in order, everything in the tree is due before its tail, and no
    packet is in the queue twice. *)
Record split_queue (h : heap nskb) (ls : list nskb) (t : tree) (ts : list nskb) : Prop := {
  sq_tree : time_tree h t ts;
  sq_list : StronglySorted due_le ls;
  sq_tail : match list.last ls with
            | Some n => Forall (λ x, time_to_send x < time_to_send n) ts
            | None => ts = []
            end;
  sq_distinct : NoDup (nid <$> ls ++ ts);
}.

(** The abstract queue. *)
Definition due (h : heap nskb) (ls : list nskb) (l : list nskb) : Prop :=
  ∃ t ts, split_queue h ls t ts ∧ l = merge ls ts.

(** The memory of a packet is its own: its tree node overlaps neither that of a
    packet of the queue nor the root. *)
Record fresh_skb (a : Z) (l : list nskb) : Prop := {
  fr_ptr : ptr_ok a;
  fr_root : t_root ∉ fields a;
  fr_apart : Forall (λ n, a + 24 ≤ nid n ∨ nid n + 24 ≤ a) l;
}.

(** *** The tree *)

(** The directions of the search. *)
Definition turned (h : heap nskb) (tnext : Z) (f : frame) : Prop :=
  ∃ d, hdata h !! f_addr f = Some d ∧
    match f_side f with
    | L => tnext < time_to_send d
    | R => time_to_send d ≤ tnext
    end.

Lemma tfifo_place_spec fuel t k h tnext ds :
  buffer t_root (fill t k) h ds → (height t < fuel)%nat → Forall (turned h tnext) k →
  ∃ k', tfifo_place fuel (link_of t_root k) (up k) tnext h = Some ((up k', link_of t_root k'), h) ∧
    fill t k = fill E k' ∧ Forall (turned h tnext) k'.
Proof.
  revert t k. induction fuel as [|fuel IH]; intros t k Hb Hf Hw; [lia|].
  cbn [tfifo_place]. unfold cbind at 1, on_words, load.
  rewrite (rep_link _ _ _ _ _ (buf_rep _ _ _ _ Hb)).
  destruct t as [|c l a r]; cbn [addr]; [destruct h; by exists k|].
  assert (a ∈ inorder (fill (T c l a r) k)) as Ha
    by (rewrite inorder_fill; simpl; set_solver).
  rewrite (rep_nonnull _ _ _ _ _ (buf_rep _ _ _ _ Hb) Ha).
  destruct (buffer_entry _ _ _ _ _ Hb Ha) as (d & Hd & _).
  unfold cbind, get_data. simpl hdata. rewrite Hd. simpl in Hf. destruct h as [w dm].
  destruct (Z.leb_spec (time_to_send d) tnext).
  - apply (IH r (F R c a l :: k)); [done|lia|]. constructor; [by exists d|done].
  - apply (IH l (F L c a r :: k)); [done|lia|]. constructor; [by exists d|done].
Qed.

(** The time of the packet at an address. *)
Definition time_at (h : heap nskb) (a : Z) : Z :=
  match hdata h !! a with Some d => time_to_send d | None => 0 end.

Lemma times_sorted h xs ts : Forall2 (λ a d, hdata h !! a = Some d) xs ts → StronglySorted due_le ts →
  StronglySorted (λ a b, time_at h a ≤ time_at h b) xs.
Proof.
  intros Hd. induction Hd as [|a d xs ts Ha Hd IH]; intros Hs; [constructor|].
  apply StronglySorted_cons in Hs as [Hx Hs]. constructor; [by apply IH|].
  clear IH Hs. unfold time_at at 1. rewrite Ha. induction Hd as [|b e xs ts Hb _ IH]; [constructor|].
  apply Forall_cons_iff in Hx as [He Hx]. constructor; [|by apply IH]. unfold time_at. by rewrite Hb.
Qed.

Lemma times_forall h (P : Z → Prop) xs ts : Forall2 (λ a d, hdata h !! a = Some d) xs ts →
  Forall (λ a, P (time_at h a)) xs → Forall (λ d, P (time_to_send d)) ts.
Proof.
  intros Hd Hp. induction Hd as [|a d xs ts Ha _ IH]; [constructor|].
  apply Forall_cons_iff in Hp as [Hpa Hp]. constructor; [|by apply IH].
  unfold time_at in Hpa. by rewrite Ha in Hpa.
Qed.

(** Where the search ends, the packet belongs. *)
Lemma place_is_due h t ts k n : time_tree h t ts → t = fill E k → Forall (turned h (time_to_send n)) k →
  let i := length (before_path k) in
  before_path k = nid <$> take i ts ∧ after_path k = nid <$> drop i ts ∧
  insert_due n ts = take i ts ++ n :: drop i ts.
Proof.
  intros [Hb Hids Hs _] -> Hk i. pose proof (buf_data _ _ _ _ Hb) as Hd.
  pose proof Hd as Hd0. rewrite inorder_fill in Hd, Hids. simpl in Hd, Hids.
  destruct (path_sides (λ a b, time_at h a ≤ time_at h b) (λ a, time_at h a ≤ time_to_send n)
              (λ a, time_to_send n < time_at h a) k []) as [Hpre Hpost]; [|lia..| |].
  { change [] with (inorder E). rewrite <- inorder_fill. by eapply times_sorted. }
  { eapply Forall_impl; [exact Hk|]. intros f (d & Hfd & Hf). unfold time_at. rewrite Hfd. done. }
  apply Forall2_app_inv_l in Hd as (ts1 & ts2 & H1 & H2 & ->).
  assert (i = length ts1) as -> by (by eapply Forall2_length).
  rewrite take_app_length, drop_app_length. rewrite fmap_app in Hids.
  apply app_inj_1 in Hids as [-> ->]; [|rewrite length_fmap; by eapply Forall2_length].
  split; [done|]. split; [done|]. apply insert_due_app; [by apply (times_forall h (λ z, z ≤ time_to_send n) _ _ H1)|].
  by apply (times_forall h (λ z, time_to_send n < z) _ _ H2).
Qed.

Lemma fields_apart a b p : a + 24 ≤ b ∨ b + 24 ≤ a → p ∈ fields a → p ∉ fields b.
Proof. unfold fields, rb_parent_color, rb_right, rb_left. set_unfold. lia. Qed.

Lemma fresh_owned a t ts : inorder t = nid <$> ts → fresh_skb a ts →
  ∀ p, p ∈ fields a → p ∉ owned t_root t.
Proof.
  intros Hids [_ Hroot Hap] p Hp Ho. apply owned_spec in Ho as [->|(b & Hb & Hpb)]; [done|].
  rewrite Hids in Hb. apply list_elem_of_fmap in Hb as (n & -> & Hn).
  rewrite Forall_forall in Hap. by apply (fields_apart a (nid n) p (Hap n Hn)).
Qed.

Lemma fresh_not_in_queue a ts : fresh_skb a ts → a ∉ nid <$> ts.
Proof.
  intros [_ _ Hap] (n & -> & Hn)%list_elem_of_fmap. rewrite Forall_forall in Hap.
  specialize (Hap n Hn). simpl in Hap. lia.
Qed.

Lemma tree_insert_spec h t ts n : time_tree h t ts → fresh_skb (nid n) ts →
  Z.of_nat (length ts) + 1 < 2 ^ 62 →
  ∃ h' t', tree_insert n h = Some (tt, h') ∧ time_tree h' t' (insert_due n ts).
Proof.
  intros Ht Hfr Hlen. pose proof Ht as [Hb Hids Hs Hdom].
  destruct (tfifo_place_spec tree_fuel t [] h (time_to_send n) ts) as (k & Hc & Hfill & Hk); [done| |done|].
  { exact (rb_tree_depth _ (buf_rb _ _ _ _ Hb) (buf_small _ _ _ _ Hb)). }
  simpl in Hfill. destruct (place_is_due h t ts k n Ht Hfill Hk) as (Hbef & Haft & Hins). subst t.
  destruct (link_data_spec t_root k h ts (nid n) n) as (h' & t' & i & Hl & -> & Hin & Hb' & Hd' & _);
    [done|apply Hfr|by apply (fresh_owned _ _ _ Hids)| |done|].
  { destruct (hdata h !! nid n) as [d|] eqn:E; [|done]. apply Hdom in E. rewrite Hids in E.
    by apply fresh_not_in_queue in Hfr. }
  exists h', t'. unfold tree_insert, cbind. change (link_of t_root []) with t_root in Hc.
  change (up []) with 0 in Hc. rewrite Hc. split; [exact Hl|]. rewrite Hins in *. split; [done| | |].
  - rewrite Hin, fmap_app, fmap_cons. by rewrite <- Hbef, <- Haft.
  - rewrite <- Hins. by apply insert_due_sorted.
  - intros a d. rewrite Hd', Hin, elem_of_app, elem_of_cons. intros [[-> _]|[_ Ha%Hdom]]%lookup_insert_Some; [tauto|].
    rewrite inorder_fill in Ha. apply elem_of_app in Ha. tauto.
Qed.

Lemma tree_end_spec h t ts d : time_tree h t ts →
  tree_end (first_at d) h = Some (match d with L => head ts | R => list.last ts end, h).
Proof.
  intros [[Hrep Hrb Hsm Hd] Hids Hs Hdom]. unfold tree_end, cbind at 1, on_words.
  rewrite (first_at_spec d _ _ _ Hrep Hrb Hsm). destruct h as [w dm]. cbn [hwords hdata] in *.
  assert (∀ a n, a ∈ inorder t → dm !! a = Some n →
    (if nonnull a then let* n := get_data a in cret (Some n) else cret None) (Heap w dm) = Some (Some n, Heap w dm)) as Hget.
  { intros a n Ha Hn. rewrite (rep_nonnull _ _ _ _ _ Hrep Ha). unfold cbind, get_data. simpl. by rewrite Hn. }
  destruct d; unfold end_of.
  - destruct Hd as [|a n xs ts' Ha Hd]; [done|]. apply Hget; [by left|done].
  - destruct (list.last ts) as [n|] eqn:El.
    + apply last_Some in El as [ts' ->]. apply Forall2_app_inv_r in Hd as (xs & ys & Hxs & Hys & Hi).
      inversion Hys as [|a ? ys' ? Ha Hys']; subst. inversion Hys'; subst. rewrite Hi, last_snoc.
      apply Hget; [|done]. rewrite Hi. apply elem_of_app. right. by left.
    + apply last_None in El as ->. by apply Forall2_nil_inv_r in Hd as ->.
Qed.

Lemma tree_unlink_spec h t n ts : time_tree h t (n :: ts) →
  ∃ h' t', unlink_free (nid n) t_root h = Some (tt, h') ∧ time_tree h' t' ts.
Proof.
  intros [Hb Hids Hs Hdom]. rewrite fmap_cons in Hids.
  destruct (unlink_free_spec t_root t h (n :: ts) [] (nid n) (nid <$> ts) [] n ts Hb Hids)
    as (h' & t' & Hc & Hin & Hb' & Hd' & _); [done..|].
  exists h', t'. split; [done|]. split; [done|done|by apply StronglySorted_cons in Hs as [_ Hs]|].
  intros a d. rewrite Hd'. intros [Hne Ha%Hdom]%lookup_delete_Some.
  rewrite Hin. rewrite Hids in Ha. by apply elem_of_cons in Ha as [->|Ha].
Qed.

(** *** Both parts *)

(** The state with another time queue. *)
Definition with_queue (h : heap nskb) (ls : list nskb) (s : netem Q) : netem Q :=
  upd_list (λ _, ls) (upd_tree (λ _, h) s).

Lemma with_queue_eta s : with_queue (nm_tree s) (nm_list s) s = s.
Proof. by destruct s. Qed.

Lemma with_queue_twice h h' ls ls' s : with_queue h' ls' (with_queue h ls s) = with_queue h' ls' s.
Proof. done. Qed.

Lemma fresh_perm a l l' : l ≡ₚ l' → fresh_skb a l → fresh_skb a l'.
Proof. intros Hp [H1 H2 H3]. split; [done..|]. by rewrite <- Hp. Qed.

Lemma fresh_tail a n l : fresh_skb a (n :: l) → fresh_skb a l.
Proof. intros [H1 H2 H3]. apply Forall_cons_iff in H3 as [_ H3]. by split. Qed.

Lemma fresh_app_r a l l' : fresh_skb a (l ++ l') → fresh_skb a l'.
Proof. intros [H1 H2 H3]. apply Forall_app in H3 as [_ H3]. by split. Qed.

(** Everything in the queue is due by the tail of the list. *)
Lemma split_tail_max h ls t ts n : split_queue h ls t ts → list.last ls = Some n →
  Forall (λ x, time_to_send x ≤ time_to_send n) (ls ++ ts).
Proof.
  intros [_ Hl Ht _] Hn. rewrite Hn in Ht. apply Forall_app. split.
  - apply last_Some in Hn as [ls' ->]. apply Forall_app. split; [|by constructor].
    apply Forall_forall. intros x Hx. by apply (StronglySorted_app_1_elem_of _ _ _ x n Hl Hx); left.
  - eapply Forall_impl; [exact Ht|]. simpl. lia.
Qed.

Lemma due_sorted h ls l : due h ls l → StronglySorted due_le l.
Proof.
  intros (t & ts & [[_ _ Hts _] Hls _ _] & ->). apply Sorted_StronglySorted.
  { intros x y z. unfold due_le. lia. }
  apply Sorted_list_merge; [intros x y; unfold due_le; lia|by apply StronglySorted_Sorted..].
Qed.

Lemma due_perm h ls l : due h ls l → ∃ ts, l ≡ₚ ls ++ ts.
Proof. intros (t & ts & _ & ->). exists ts. apply merge_perm. Qed.

Lemma due_distinct h ls l : due h ls l → NoDup (nid <$> l).
Proof. intros (t & ts & Hq & ->). rewrite merge_perm. apply Hq. Qed.

(** The last packet of the queue is the tail of the list. *)
Lemma due_last h ls l : due h ls l → list.last l = list.last ls.
Proof.
  intros (t & ts & Hq & ->). pose proof (sq_tail _ _ _ _ Hq) as Ht. destruct (list.last ls) as [n|] eqn:El.
  - apply last_Some in El as [ls' ->]. rewrite merge_snoc by done. by rewrite last_snoc.
  - apply last_None in El as ->. subst ts. done.
Qed.

Lemma list_append_due h ls t ts n : split_queue h ls t ts → nid n ∉ nid <$> ls ++ ts →
  (∀ x, list.last ls = Some x → time_to_send x ≤ time_to_send n) →
  split_queue h (ls ++ [n]) t ts ∧ merge (ls ++ [n]) ts = insert_due n (merge ls ts).
Proof.
  intros Hq Hn Hle. pose proof Hq as [Htt Hl Ht Hd].
  assert (Forall (λ x, time_to_send x ≤ time_to_send n) ls ∧ Forall (λ x, time_to_send x < time_to_send n) ts)
    as [Hall Hlt].
  { destruct (list.last ls) as [x|] eqn:El.
    - specialize (Hle x eq_refl). pose proof (split_tail_max _ _ _ _ _ Hq El) as [Hm _]%Forall_app.
      split; (eapply Forall_impl; [eassumption|]); simpl; lia.
    - apply last_None in El as ->. subst ts. split; constructor. }
  split; [split; [done| | |]|].
  - apply StronglySorted_app_2; [|done|repeat constructor]. intros x y Hx ->%list_elem_of_singleton.
    rewrite Forall_forall in Hall. by apply Hall.
  - by rewrite last_snoc.
  - rewrite <- app_assoc. simpl. rewrite <- Permutation_middle. by apply list.NoDup_cons.
  - rewrite merge_snoc by done. symmetry. apply insert_due_last. rewrite merge_perm.
    apply Forall_app. split; [done|]. eapply Forall_impl; [exact Hlt|]. simpl. lia.
Qed.

(** *** The operations *)

Lemma tfifo_enqueue_spec s l n : due (nm_tree s) (nm_list s) l → fresh_skb (nid n) l →
  Z.of_nat (length l) + 1 < 2 ^ 62 →
  ∃ h' ls', tfifo_enqueue n s = Some (tt, upd_q (incr_qlen 1) (with_queue h' ls' s)) ∧
    due h' ls' (insert_due n l).
Proof.
  intros (t & ts & Hq & ->) Hfr Hlen. pose proof Hfr as Hn%fresh_not_in_queue. rewrite merge_perm in Hn, Hlen.
  assert (∀ (Hle : ∀ x, list.last (nm_list s) = Some x → time_to_send x ≤ time_to_send n),
    due (nm_tree s) (nm_list s ++ [n]) (insert_due n (merge (nm_list s) ts))) as Happ.
  { intros Hle. destruct (list_append_due _ _ _ _ n Hq Hn Hle) as [Hq' <-]. by exists t, ts. }
  unfold tfifo_enqueue, cbind at 1, gets. cbv beta iota. unfold cbind, modify.
  destruct (list.last (nm_list s)) as [x|] eqn:El.
  - destruct (Z.leb_spec (time_to_send x) (time_to_send n)) as [Hle|Hgt].
    + exists (nm_tree s), (nm_list s ++ [n]). split; [by destruct s|]. apply Happ. by intros ? [= <-].
    + destruct (tree_insert_spec (nm_tree s) t ts n) as (h' & t' & Hc & Ht'); [apply Hq| | |].
      { eapply fresh_app_r, fresh_perm; [apply merge_perm|done]. }
      { rewrite length_app in Hlen. lia. }
      exists h', (nm_list s). unfold on_tree. rewrite Hc. split; [by destruct s|].
      exists t', (insert_due n ts). rewrite merge_insert. split; [|done]. destruct Hq as [_ Hl Ht Hd]. rewrite El in Ht.
      split; [done|done|rewrite El; rewrite insert_due_perm; by constructor|].
      rewrite insert_due_perm, <- Permutation_middle. by apply list.NoDup_cons.
  - exists (nm_tree s), (nm_list s ++ [n]). split; [by destruct s|]. by apply Happ.
Qed.

Lemma merge_head ls ts : head (merge ls ts) =
  match head ts, ls with
  | None, ls => head ls
  | Some n, [] => Some n
  | Some n, t_head :: _ => if time_to_send n <? time_to_send t_head then Some n else Some t_head
  end.
Proof.
  destruct ls as [|x ls], ts as [|y ts]; try done. simpl head. rewrite list_merge_cons.
  destruct (decide (due_le x y)) as [Hd|Hd]; unfold due_le in Hd; simpl.
  - by rewrite (proj2 (Z.ltb_ge _ _)).
  - by rewrite (proj2 (Z.ltb_lt _ _)) by lia.
Qed.

Lemma netem_peek_spec s l : due (nm_tree s) (nm_list s) l → netem_peek s = Some (head l, s).
Proof.
  intros (t & ts & Hq & ->). unfold netem_peek, cbind, on_tree, gets.
  change (tree_end rb_first) with (tree_end (first_at L)).
  rewrite (tree_end_spec _ _ _ L (sq_tree _ _ _ _ Hq)). rewrite merge_head.
  by destruct s, ts.
Qed.

Lemma split_pop_list h x ls t ts : split_queue h (x :: ls) t ts →
  (∀ y, head ts = Some y → time_to_send x ≤ time_to_send y) → split_queue h ls t ts.
Proof.
  intros Hq Hle. pose proof Hq as [Htt Hl Ht Hd]. split; [done| | |].
  - by apply StronglySorted_cons in Hl as [_ Hl].
  - destruct ls as [|z ls]; [|done]. simpl in Ht. destruct ts as [|y ts]; [done|].
    apply Forall_cons_iff in Ht as [Hy _]. specialize (Hle y eq_refl). lia.
  - by apply list.NoDup_cons in Hd as [_ Hd].
Qed.

Lemma split_pop_tree h h' ls t t' n ts : split_queue h ls t (n :: ts) → time_tree h' t' ts →
  split_queue h' ls t' ts.
Proof.
  intros [_ Hl Ht Hd] Htt. split; [done..| |].
  - destruct (list.last ls); [by apply Forall_cons_iff in Ht as [_ Ht]|done].
  - rewrite fmap_app in Hd |- *. apply NoDup_app in Hd as (H1 & H2 & H3). apply NoDup_app.
    apply list.NoDup_cons in H3 as [_ H3]. split; [done|]. split; [|done]. intros a Ha Ha'.
    apply (H2 a Ha). rewrite fmap_cons. by right.
Qed.

Lemma netem_erase_head_spec s n l : due (nm_tree s) (nm_list s) (n :: l) →
  ∃ h' ls', netem_erase_head n s = Some (tt, with_queue h' ls' s) ∧ due h' ls' l.
Proof.
  intros (t & ts & Hq & Heq). pose proof (sq_distinct _ _ _ _ Hq) as Hd.
  unfold netem_erase_head, cbind, gets, modify. fold (nid n).
  destruct (nm_list s) as [|x ls] eqn:El; [|destruct ts as [|y ts]].
  - pose proof (sq_tail _ _ _ _ Hq) as Ht. simpl in Ht. subst ts. done.
  - rewrite list_merge_nil_r in Heq. injection Heq as <- <-. rewrite Z.eqb_refl.
    exists (nm_tree s), l. split; [by destruct s|]. exists t, []. split; [|by rewrite list_merge_nil_r].
    by eapply split_pop_list.
  - rewrite list_merge_cons in Heq. destruct (decide (due_le x y)) as [Hle|Hgt]; injection Heq as <- ->.
    + rewrite Z.eqb_refl. exists (nm_tree s), ls. split; [by destruct s|]. exists t, (y :: ts). split; [|done].
      eapply split_pop_list; [done|]. by intros ? [= <-].
    + fold (nid x). rewrite (proj2 (Z.eqb_neq (nid n) (nid x))).
      2: { intros He. rewrite fmap_app, fmap_cons in Hd. apply list.NoDup_cons in Hd as [Hx _].
           apply Hx, elem_of_app. right. rewrite <- He. by left. }
      destruct (tree_unlink_spec (nm_tree s) t n ts (sq_tree _ _ _ _ Hq)) as (h' & t' & Hc & Ht').
      unfold on_tree. fold (nid n). rewrite Hc. exists h', (x :: ls). rewrite <- El at 1. split; [by destruct s|].
      exists t', ts. split; [|done]. by eapply split_pop_tree.
Qed.
End queue.
