(* ===== verification/NetemLine.v ===== *)
(** * netem as a delay line

    Without jitter, loss, duplication, corruption, reordering, slots and a queue
    below it (which is how the bandwidth drivers set it up), netem is a delay
    line: a packet waits for the latency, and with a rate for its transmission
    behind the packets before it.  This file states the delay line as a
    specification on one list, and proves that sch_netem.c implements it,
    changes of the configuration included. *)

From Stdlib Require Import ZArith Lia.
From stdpp Require Import base numbers list gmap option sets sorting.
From S2P Require Import Prelude Sched RbCode RbTree RbRefine RbWalk RbMem SeqBuf NetemRand Netem NetemConf NetemFifo.

Open Scope Z_scope.

(** What is relied on about the helpers of the headers. *)
Class NetemHeadersOk `{KernelHeaders} `{NetemHeaders} := {
  dequeue_head_nil : ∀ q, qh_list q = [] → __qdisc_dequeue_head q = (None, q);
  dequeue_head_cons : ∀ q n l, qh_list q = n :: l →
    __qdisc_dequeue_head q = (Some n, QHead l (u32 (qh_qlen q - 1)));
  enqueue_head_ok : ∀ n q, __qdisc_enqueue_head n q = QHead (n :: qh_list q) (u32 (qh_qlen q + 1));
  backlog_inc : ∀ skb st, gq_backlog (qdisc_qstats_backlog_inc skb st) = u32 (gq_backlog st + pkt_len skb);
  drop_all_backlog : ∀ skb segs st, gq_backlog (qdisc_drop_all skb segs st).1 = gq_backlog st;
}.

(** ** The specification *)

Section line.
Context `{KernelHeaders} `{NetemHeaders} `{NetemEnv} `{ReciprocalDiv}.

(** The configurations of a delay line. *)
Record plain (c : netem_cfg) : Prop := {
  pl_dup : duplicate c = 0;
  pl_corrupt : corrupt c = 0;
  pl_loss : loss c = 0;
  pl_model : loss_model c = CLG_RANDOM;
  pl_gap : gap c = 0;
  pl_jitter : jitter c = 0;
  pl_latency : 0 ≤ latency c < 2 ^ 62;
  pl_rate : 0 ≤ nrate c;
}.

(** The transmission time. *)
Definition cost (c : netem_cfg) (skb : sk_buff) : Z :=
  if nrate c =? 0 then 0 else cfg_packet_time c (pkt_len skb).

(** When a packet that arrives at [now] behind the packets [l] is due. *)
Definition due_time (c : netem_cfg) (now : Z) (skb : sk_buff) (l : list nskb) : Z :=
  if nrate c =? 0 then now + latency c
  else match list.last l with
       | Some x => Z.max (now + latency c) (time_to_send x) + cost c skb
       | None => now + latency c + cost c skb
       end.

Record dline := Dline {
  dl_cfg : netem_cfg;
  dl_limit : Z;
  dl_queue : list nskb;
  dl_tick : nat;
}.

Inductive nevent :=
| NmEnqueue (skb : sk_buff)
| NmDequeue (deactivated : bool)
| NmChange (qopt : tc_netem_qopt) (rate : option tc_netem_rate) (rate64 : option Z).

Definition no_change (e : nevent) : bool :=
  match e with
  | NmChange _ _ _ => false
  | _ => true
  end.

Definition line_change (qopt : tc_netem_qopt) (r : option tc_netem_rate) (r64 : option Z) (c : netem_cfg) : netem_cfg :=
  let c := netem_set_qopt qopt (cfg_set_loss_model CLG_RANDOM c) in
  let c := match r with Some r => netem_get_rate r c | None => c end in
  match r64 with Some r => cfg_set_rate (Z.max (nrate c) r) c | None => c end.

(** One event; the list is the packet that leaves, with the time. *)
Definition line_step (e : nevent) (d : dline) : dline * list (Z * sk_buff) :=
  match e with
  | NmEnqueue skb =>
      if dl_limit d <=? Z.of_nat (length (dl_queue d)) then (d, [])
      else
        let n := Nskb skb (due_time (dl_cfg d) (ktime_at (dl_tick d)) skb (dl_queue d)) in
        (Dline (dl_cfg d) (dl_limit d) (insert_due n (dl_queue d)) (S (dl_tick d)), [])
  | NmDequeue _ =>
      match dl_queue d with
      | [] => (d, [])
      | n :: l =>
          let now := ktime_at (dl_tick d) in
          if time_to_send n <=? now
          then (Dline (dl_cfg d) (dl_limit d) l (S (dl_tick d)), [(now, ns_skb n)])
          else (Dline (dl_cfg d) (dl_limit d) (n :: l) (S (dl_tick d)), [])
      end
  | NmChange qopt r r64 =>
      (Dline (line_change qopt r r64 (dl_cfg d)) (no_limit qopt) (dl_queue d) (dl_tick d), [])
  end.

Fixpoint line_run (es : list nevent) (d : dline) : dline * list (Z * sk_buff) :=
  match es with
  | [] => (d, [])
  | e :: es =>
      let '(d1, out1) := line_step e d in
      let '(d2, out2) := line_run es d1 in (d2, out1 ++ out2)
  end.

(** The assumptions on an event: packets have memory of their own, a
    configuration is that of a delay line, limits are below 2^31 packets, and no
    time exceeds 2^62 ns, a century and a half. *)
Definition event_ok (e : nevent) (d : dline) : Prop :=
  match e with
  | NmEnqueue skb =>
      fresh_skb (skb_id skb) (dl_queue d) ∧ 0 ≤ ktime_at (dl_tick d) ∧
      0 ≤ due_time (dl_cfg d) (ktime_at (dl_tick d)) skb (dl_queue d) < 2 ^ 62 ∧ 0 ≤ cost (dl_cfg d) skb < 2 ^ 62
  | NmDequeue _ => 0 ≤ ktime_at (dl_tick d)
  | NmChange qopt r r64 => plain (line_change qopt r r64 (dl_cfg d)) ∧ no_limit qopt < 2 ^ 31
  end.

Fixpoint events_ok (es : list nevent) (d : dline) : Prop :=
  match es with
  | [] => True
  | e :: es => event_ok e d ∧ events_ok es (line_step e d).1
  end.

(** The assumptions are decidable. *)
Definition dec_of_iff {P R : Prop} (Heq : P ↔ R) (d : Decision R) : Decision P :=
  match d with
  | left r => left (proj2 Heq r)
  | right n => right (λ p, n (proj1 Heq p))
  end.

#[global] Instance loss_kind_eq_dec : EqDecision loss_kind.
Proof. solve_decision. Defined.

Lemma plain_iff c : plain c ↔ duplicate c = 0 ∧ corrupt c = 0 ∧ loss c = 0 ∧ loss_model c = CLG_RANDOM ∧ gap c = 0 ∧
  jitter c = 0 ∧ (0 ≤ latency c < 2 ^ 62) ∧ 0 ≤ nrate c.
Proof. split; [intros []; tauto|]. by intros (? & ? & ? & ? & ? & ? & ? & ?). Qed.

Lemma fresh_skb_iff a l : fresh_skb a l ↔
  ptr_ok a ∧ t_root ∉ fields a ∧ Forall (λ n, a + 24 ≤ nid n ∨ nid n + 24 ≤ a) l.
Proof. split; [intros []; tauto|]. by intros (? & ? & ?). Qed.

#[global] Instance plain_dec c : Decision (plain c).
Proof. apply (dec_of_iff (plain_iff c)), _. Defined.

#[global] Instance fresh_skb_dec a l : Decision (fresh_skb a l).
Proof. apply (dec_of_iff (fresh_skb_iff a l)), _. Defined.

#[global] Instance event_ok_dec e d : Decision (event_ok e d).
Proof. destruct e; cbn [event_ok]; apply _. Defined.

#[global] Instance events_ok_dec es : ∀ d, Decision (events_ok es d).
Proof. induction es; intros d; cbn [events_ok]; apply _. Defined.
End line.

(** ** The code *)

Section code.
Context `{KernelHeaders} `{NetemHeaders} `{NetemEnv} `{ReciprocalDiv} {Q : Type} `{ChildQdisc Q}.

(** The attribute table of a change of the rate. *)
Definition rate_tb (r : option tc_netem_rate) (r64 : option Z) : netem_tb := {|
  tb_corr := None; tb_delay_dist := None; tb_reorder := None; tb_corrupt := None; tb_loss := None;
  tb_rate := r; tb_ecn := None; tb_nrate64 := r64; tb_latency64 := None; tb_jitter64 := None;
  tb_slot := None; tb_slot_dist := None |}.

(** The operations of netem, with the time of a packet that leaves: the last
    reading of the clock. *)
Definition netem_exec (e : nevent) : M (netem Q) (list (Z * sk_buff)) :=
  match e with
  | NmEnqueue skb => let* _ := netem_enqueue 1 skb in cret []
  | NmDequeue deactivated =>
      let* o := netem_dequeue 1 deactivated in
      let* k := gets nm_tick in
      cret match o with Some skb => [(ktime_at (pred k), skb)] | None => [] end
  | NmChange qopt r r64 => let* _ := netem_change (Some (inr (qopt, rate_tb r r64))) in cret []
  end.

Fixpoint netem_run (es : list nevent) : M (netem Q) (list (Z * sk_buff)) :=
  match es with
  | [] => cret []
  | e :: es => let* out1 := netem_exec e in let* out2 := netem_run es in cret (out1 ++ out2)
  end.

(** netem's state implements the delay line. *)
Record implements (s : netem Q) (d : dline) : Prop := {
  im_cfg : nm_cfg s = dl_cfg d;
  im_plain : plain (dl_cfg d);
  im_limit : nm_limit s = dl_limit d;
  im_small : dl_limit d < 2 ^ 31;
  im_due : due (nm_tree s) (nm_list s) (dl_queue d);
  im_q : qh_list (nm_q s) = [];
  im_qlen : qh_qlen (nm_q s) = Z.of_nat (length (dl_queue d));
  im_len : Z.of_nat (length (dl_queue d)) < 2 ^ 31;
  im_tick : nm_tick s = dl_tick d;
  im_child : nm_child s = None;
  im_slot : slot_next (nm_slot s) = 0;
  im_times : Forall (λ n, 0 ≤ time_to_send n < 2 ^ 62) (dl_queue d);
}.

Implicit Types (s : netem Q).

Lemma chance_zero c s : chance 0 c s = Some (false, s).
Proof. done. Qed.

Lemma netem_loss_plain skb s : plain (nm_cfg s) → netem_loss skb s = Some ((false, skb), s).
Proof.
  intros Hp. unfold netem_loss, loss_event, cfg, cbind, gets. rewrite (pl_model _ Hp), (pl_loss _ Hp). done.
Qed.

Lemma netem_corrupt_plain skb s : plain (nm_cfg s) → netem_corrupt skb s = Some (CContinue skb [], s).
Proof. intros Hp. unfold netem_corrupt, cfg, cbind, gets. by rewrite (pl_corrupt _ Hp). Qed.

Lemma delays_plain s : plain (nm_cfg s) → delays s = Some (true, s).
Proof. intros Hp. unfold delays, cfg, cbind, gets. by rewrite (pl_gap _ Hp). Qed.

Lemma last_due_spec s l : due (nm_tree s) (nm_list s) l → qh_list (nm_q s) = [] →
  last_due s = Some (list.last l, s).
Proof.
  intros Hd Hq. rewrite (due_last _ _ _ Hd). destruct Hd as (t & ts & Hsq & _).
  unfold last_due, cbind, on_tree, gets. change (tree_end rb_last) with (tree_end (first_at R)).
  rewrite (tree_end_spec _ _ _ R (sq_tree _ _ _ _ Hsq)). pose proof (sq_tail _ _ _ _ Hsq) as Ht.
  replace (upd_tree (λ _, nm_tree s) s) with s by (by destruct s). rewrite Hq. cbn [list.last].
  destruct (list.last (nm_list s)) as [x|] eqn:El; [|by subst ts].
  destruct (list.last ts) as [y|] eqn:Ey; [|done]. simpl.
  apply last_Some in Ey as [ts' ->]. apply Forall_app in Ht as [_ Hy].
  apply Forall_cons_iff in Hy as [Hy _]. by rewrite (proj2 (Z.ltb_lt _ _)).
Qed.

(** The time [netem_enqueue] computes. *)
Lemma rate_delay_spec s l now skb : due (nm_tree s) (nm_list s) l → qh_list (nm_q s) = [] → plain (nm_cfg s) →
  0 ≤ now → 0 ≤ due_time (nm_cfg s) now skb l < 2 ^ 62 → 0 ≤ cost (nm_cfg s) skb < 2 ^ 62 →
  Forall (λ n, 0 ≤ time_to_send n < 2 ^ 62) l →
  ∃ dn, rate_delay (latency (nm_cfg s)) now skb s = Some (dn, s) ∧
    u64 (dn.2 + dn.1) = due_time (nm_cfg s) now skb l.
Proof.
  intros Hd Hq Hp Hnow Hdue Hcost Hall. pose proof (pl_latency _ Hp) as Hlat.
  unfold rate_delay, cbind at 1, cfg, gets. cbv beta iota. cbn [id]. unfold due_time, cost in *.
  destruct (nrate (nm_cfg s) =? 0).
  - eexists. split; [done|]. simpl. by rewrite u64_small by lia.
  - unfold cbind. rewrite (last_due_spec s l Hd Hq). destruct (list.last l) as [x|] eqn:El.
    + assert (0 ≤ time_to_send x < 2 ^ 62) as Hx
        by (apply last_Some in El as [l' ->]; apply Forall_app in Hall as [_ Hall]; by apply Forall_cons_iff in Hall as [? _]).
      eexists. split; [done|]. cbn [fst snd].
      rewrite (s64_small (latency _ - _)) by lia. rewrite s64_small by lia. rewrite u64_small by lia. lia.
    + eexists. split; [done|]. cbn [fst snd]. rewrite s64_small by lia. rewrite u64_small by lia. lia.
Qed.

Lemma insert_due_length n l : length (insert_due n l) = S (length l).
Proof. by rewrite insert_due_perm. Qed.

Lemma enqueue_sim `{!NetemHeadersOk} s d skb : implements s d → event_ok (NmEnqueue skb) d →
  ∃ r s', netem_enqueue 1 skb s = Some (r, s') ∧ implements s' (line_step (NmEnqueue skb) d).1 ∧
    r = (if dl_limit d <=? Z.of_nat (length (dl_queue d)) then NET_XMIT_DROP else NET_XMIT_SUCCESS).
Proof.
  intros Him (Hfr & Hnow & Hdue & Hcost). pose proof Him as [Hc Hp Hl Hsm Hd Hq Hql Hlen Ht Hch Hsl Htm].
  rewrite <- Hc in Hp, Hdue, Hcost. cbn [netem_enqueue]. unfold cbind at 1, cfg, gets. cbv beta iota.
  rewrite (pl_dup _ Hp). unfold cbind at 1. rewrite chance_zero. unfold cbind at 1.
  rewrite (netem_loss_plain skb s Hp). cbn [fst snd Z.b2z]. change (1 + 0 - 0) with 1. cbv iota.
  change (1 =? 0) with false. change (1 <? 1) with false. cbv iota. unfold cbind at 1, cret at 1.
  unfold cbind at 1. rewrite (netem_corrupt_plain skb s Hp). unfold cbind at 1 2. rewrite Hl, Hql.
  cbn [line_step]. destruct (dl_limit d <=? Z.of_nat (length (dl_queue d))) eqn:Elim.
  - unfold cbind at 1. destruct (qdisc_drop_all skb [] (nm_qstats s)) as [st' fr].
    eexists _, _. split; [done|]. split; [|done]. cbn [fst]. split; try done. by rewrite <- Hc.
  - unfold cbind at 1, enqueue_one. unfold cbind at 1, modify at 1. unfold cbind at 1.
    set (s1 := upd_qstats _ s). rewrite (delays_plain s1 Hp). unfold enqueue_delayed, cbind at 1, cfg, gets.
    cbn [id]. rewrite (pl_jitter _ Hp : jitter (nm_cfg s1) = 0). unfold cbind at 1, tabledist.
    change (s32 0 =? 0) with true. cbv iota. unfold cret at 1. unfold cbind at 1, ktime_get_ns, next.
    set (s2 := upd_tick S s1). change (nm_tick s1) with (nm_tick s). rewrite Ht.
    destruct (rate_delay_spec s2 (dl_queue d) (ktime_at (dl_tick d)) skb) as (dn & Hdn & Htime);
      [done..|]. change (latency (nm_cfg s1)) with (latency (nm_cfg s2)). unfold cbind at 1. rewrite Hdn.
    unfold cbind at 1, modify at 1. set (s3 := upd_counter _ s2).
    destruct (tfifo_enqueue_spec s3 (dl_queue d) (Nskb skb (u64 (dn.2 + dn.1)))) as (h' & ls' & Hte & Hdue');
      [done|done|lia|]. rewrite Hte. cbn [finish_segs]. eexists _, _. split; [done|]. split; [|done].
    rewrite Htime in Hdue'. change (nm_cfg s2) with (nm_cfg s) in Hdue', Htime. rewrite Hc in *.
    cbn [fst]. split; cbn [dl_cfg dl_limit dl_queue dl_tick]; try done.
    + change (u32 (qh_qlen (nm_q s) + 1) = Z.of_nat (length (insert_due (Nskb skb (due_time (dl_cfg d) (ktime_at (dl_tick d)) skb (dl_queue d))) (dl_queue d)))).
      rewrite insert_due_length, Hql, u32_small by lia. lia.
    + rewrite insert_due_length. apply Z.leb_gt in Elim. lia.
    + change (S (nm_tick s) = S (dl_tick d)). by rewrite Ht.
    + rewrite insert_due_perm. constructor; [done|done].
Qed.

Lemma upd_q_same s : upd_q (λ _, nm_q s) s = s.
Proof. by destruct s. Qed.

(** A dequeue: the first packet if it is due; otherwise the watchdog is armed for
    the time it is due. *)
Lemma dequeue_sim `{!NetemHeadersOk} s d deactivated : implements s d → event_ok (NmDequeue deactivated) d →
  ∃ s', netem_dequeue 1 deactivated s =
      Some (match (line_step (NmDequeue deactivated) d).2 with [] => None | x :: _ => Some x.2 end, s') ∧
    implements s' (line_step (NmDequeue deactivated) d).1 ∧
    nm_watchdog s' = match dl_queue d with
                     | n :: _ => if time_to_send n <=? ktime_at (dl_tick d) then nm_watchdog s
                                 else qdisc_watchdog_schedule_ns deactivated (time_to_send n) (nm_watchdog s)
                     | [] => nm_watchdog s
                     end.
Proof.
  intros Him Hnow. pose proof Him as [Hc Hp Hl Hsm Hd Hq Hql Hlen Ht Hch Hsl Htm]. simpl in Hnow.
  cbn [netem_dequeue]. unfold cbind at 1, gets. cbv beta iota. rewrite (dequeue_head_nil (nm_q s) Hq).
  unfold cbind at 1, modify at 1. rewrite upd_q_same. unfold cbind at 1. rewrite (netem_peek_spec s _ Hd).
  cbn [line_step]. destruct (dl_queue d) as [|n l] eqn:El; cbn [head].
  - unfold dequeue_child, child_dequeue, cbind, gets. rewrite Hch. exists s. done.
  - unfold cbind at 1, ktime_get_ns, next. rewrite Ht. set (s1 := upd_tick S s).
    unfold cbind at 1, open_slot. unfold cbind at 1. unfold gets. rewrite (Hsl : slot_next (nm_slot s1) = 0).
    change (negb (0 =? 0) && (0 <? time_to_send n)) with false. cbv iota. unfold cbind at 1, cret at 1. unfold gets.
    rewrite (Hsl : slot_next (nm_slot s1) = 0). rewrite (proj2 (Z.leb_le 0 _) Hnow), andb_true_r.
    destruct (time_to_send n <=? ktime_at (dl_tick d)) eqn:Edue.
    + destruct (netem_erase_head_spec s1 n l) as (h' & ls' & He & Hd'); [done|].
      unfold cbind at 1, take_due. unfold cbind at 1. rewrite He. unfold cbind at 1 2, modify at 1 2.
      set (s2 := upd_qstats _ _). unfold slot_account, cbind at 1. unfold gets.
      rewrite (Hsl : slot_next (nm_slot s2) = 0). change (0 =? 0) with true. cbv iota. unfold cret at 1.
      unfold cbind at 1. unfold gets. rewrite (Hch : nm_child s2 = None). unfold deliver, cbind, modify, cret.
      eexists. split; [done|]. split; [|done]. cbn [fst]. simpl in Hql, Hlen.
      split; cbn [dl_cfg dl_limit dl_queue dl_tick]; try done.
      * change (u32 (qh_qlen (nm_q s) + -1) = Z.of_nat (length l)). rewrite Hql, u32_small by lia. lia.
      * lia.
      * change (S (nm_tick s) = S (dl_tick d)). by rewrite Ht.
      * by apply Forall_cons_iff in Htm as [_ Htm].
    + unfold cbind at 1, child_dequeue at 1. unfold cbind at 1. unfold gets. rewrite (Hch : nm_child s1 = None).
      unfold cret at 1. unfold cbind at 1. unfold gets. rewrite (Hsl : slot_next (nm_slot s1) = 0).
      unfold cbind at 1, modify at 1. set (s2 := upd_watchdog _ s1).
      unfold dequeue_child, child_dequeue, cbind, gets. rewrite (Hch : nm_child s2 = None). unfold cret.
      exists s2. split; [done|]. apply Forall_cons_iff in Htm as [Hn Htm]. split.
      * cbn [fst]. split; cbn [dl_cfg dl_limit dl_queue dl_tick]; rewrite ?El in *; try done.
        -- change (S (nm_tick s) = S (dl_tick d)). by rewrite Ht.
        -- by constructor.
      * change (nm_watchdog s2) with (qdisc_watchdog_schedule_ns deactivated (Z.max (time_to_send n) 0) (nm_watchdog s)).
        by rewrite Z.max_l by lia.
Qed.

Lemma change_sim s d qopt r r64 : implements s d → event_ok (NmChange qopt r r64) d →
  ∃ s', netem_change (Some (inr (qopt, rate_tb r r64))) s = Some (0, s') ∧
    implements s' (line_step (NmChange qopt r r64) d).1.
Proof.
  intros [Hc Hp Hl Hsm Hd Hq Hql Hlen Ht Hch Hsl Htm] [Hpl Hlim].
  destruct r as [r|], r64 as [r64|]; (eexists; split; [reflexivity|]);
    cbn [line_step fst]; (split; cbn [dl_cfg dl_limit dl_queue dl_tick]; try done); by rewrite <- Hc.
Qed.

Lemma exec_sim `{!NetemHeadersOk} s d e : implements s d → event_ok e d →
  ∃ s', netem_exec e s = Some ((line_step e d).2, s') ∧ implements s' (line_step e d).1.
Proof.
  intros Him Hok. destruct e as [skb|dea|qopt r r64]; cbn [netem_exec]; unfold cbind.
  - destruct (enqueue_sim s d skb Him Hok) as (r & s' & -> & Hs' & _). exists s'. split; [|done].
    cbn [line_step]. by case_match.
  - destruct (dequeue_sim s d dea Him Hok) as (s' & -> & Hs' & _). exists s'. split; [|done].
    unfold gets. rewrite (im_tick _ _ Hs'). cbn [line_step]. destruct (dl_queue d) as [|n l]; [done|].
    by destruct (time_to_send n <=? _).
  - destruct (change_sim s d qopt r r64 Him Hok) as (s' & -> & Hs'). by exists s'.
Qed.

Lemma run_sim `{!NetemHeadersOk} es s d : implements s d → events_ok es d →
  ∃ s', netem_run es s = Some ((line_run es d).2, s') ∧ implements s' (line_run es d).1.
Proof.
  revert s d. induction es as [|e es IH]; intros s d Him Hok; [by exists s|].
  destruct Hok as [He Hes]. destruct (exec_sim s d e Him He) as (s1 & Hc1 & Him1).
  destruct (IH s1 _ Him1 Hes) as (s2 & Hc2 & Him2). exists s2. cbn [netem_run]. unfold cbind.
  rewrite Hc1, Hc2. cbn [line_run]. destruct (line_step e d) as [d1 out1]. simpl in *.
  by destruct (line_run es d1) as [d2 out2].
Qed.
End code.
