(* ===== verification/NetemRate.v ===== *)
(** * The rate of a delay line

    With a constant configuration and a clock that does not go back, the delay
    line of NetemLine.v is a link: packets leave in the order they came, each
    after the latency and after the transmission of the packets before it. *)

From Stdlib Require Import ZArith Lia.
From stdpp Require Import base numbers list gmap option sets sorting.
From S2P Require Import Prelude Sched Tbf NetemRand Netem NetemConf NetemFifo NetemLine.

Open Scope Z_scope.

Section rate.
Context `{KernelHeaders} `{NetemHeaders} `{NetemEnv} `{ReciprocalDiv}.
Context (c : netem_cfg) (lim : Z).
Hypothesis Hmono : ∀ i j, (i ≤ j)%nat → ktime_at i ≤ ktime_at j.

(** The packets the line accepts, with the times they arrive. *)
Fixpoint accepted (es : list nevent) (d : dline) : list (Z * sk_buff) :=
  match es with
  | [] => []
  | e :: es =>
      (match e with
       | NmEnqueue skb => if dl_limit d <=? Z.of_nat (length (dl_queue d)) then []
                          else [(ktime_at (dl_tick d), skb)]
       | _ => []
       end) ++ accepted es (line_step e d).1
  end.

(** The schedule of a link: a packet that arrives at [a] is due when the packet
    before it has left and the latency has passed, plus its transmission. *)
Fixpoint schedule (last : Z) (hist : list (Z * nskb)) : Prop :=
  match hist with
  | [] => True
  | (a, n) :: hist =>
      time_to_send n = Z.max last (a + latency c) + cost c (ns_skb n) ∧ schedule (time_to_send n) hist
  end.

Definition last_of (last : Z) (l : list nskb) : Z :=
  match list.last l with Some x => time_to_send x | None => last end.

Lemma schedule_app last h1 h2 :
  schedule last (h1 ++ h2) ↔ schedule last h1 ∧ schedule (last_of last h1.*2) h2.
Proof.
  revert last. induction h1 as [|[a n] h1 IH]; intros last; [simpl; tauto|].
  cbn [app schedule]. rewrite fmap_cons, IH. unfold last_of. rewrite last_cons.
  destruct (list.last h1.*2); simpl; tauto.
Qed.

(** A packet is due after the transmission of every packet from [a] on. *)
Lemma schedule_total last a n h m b : schedule last ((a, n) :: h) → list.last ((a, n) :: h) = Some (b, m) →
  Forall (λ x, 0 ≤ cost c (ns_skb x.2)) ((a, n) :: h) →
  a + latency c + total (cost c) (ns_skb <$> ((a, n) :: h).*2) ≤ time_to_send m.
Proof.
  revert last a n. induction h as [|[a' n'] h IH]; intros last a n [Hn Hs] Hl Hc.
  { simpl in Hl. injection Hl as -> ->. simpl. lia. }
  apply Forall_cons_iff in Hc as [Hcn Hc]. pose proof Hs as [Hn' _].
  rewrite last_cons_cons in Hl.
  (* the claim for the rest, from the time the first packet is due *)
  assert (∀ last' a'' x h', schedule last' ((a'', x) :: h') → list.last ((a'', x) :: h') = Some (b, m) →
    last' + total (cost c) (ns_skb <$> ((a'', x) :: h').*2) ≤ time_to_send m) as Hgen.
  { clear. intros last' a'' x h'. revert last' a'' x. induction h' as [|[a3 x3] h' IH]; intros last' a'' x [Hx Hs] Hl.
    - simpl in Hl. injection Hl as -> ->. simpl. lia.
    - rewrite last_cons_cons in Hl. specialize (IH _ _ _ Hs Hl). cbn [fmap list_fmap fst snd] in *.
      cbn [total foldr] in *. lia. }
  specialize (Hgen _ _ _ _ Hs Hl). cbn [fmap list_fmap fst snd] in *. cbn [total foldr] in *. lia.
Qed.

(** The state of the line after some packets [hist] arrived, of which the first
    [length out] have left; [now] is the latest reading of the clock. *)
Record link_state (hist : list (Z * nskb)) (out : list (Z * sk_buff)) (d : dline) : Prop := {
  ls_cfg : dl_cfg d = c;
  ls_limit : dl_limit d = lim;
  ls_sched : schedule 0 hist;
  ls_queue : hist.*2 = take (length out) hist.*2 ++ dl_queue d;
  ls_out : Forall2 (λ o n, o.2 = ns_skb n ∧ time_to_send n ≤ o.1) out (take (length out) hist.*2);
  ls_past : Forall (λ o, ∀ i, (dl_tick d ≤ i)%nat → o.1 ≤ ktime_at i) out;
  ls_arrived : Forall (λ x, ∀ i, (dl_tick d ≤ i)%nat → x.1 ≤ ktime_at i) hist;
  ls_cost : Forall (λ x, 0 ≤ cost c (ns_skb x.2)) hist;
}.

Lemma last_of_app last l l' : l' ≠ [] → last_of last (l ++ l') = last_of last l'.
Proof.
  intros Hne. unfold last_of. destruct (list.last l') as [x|] eqn:E.
  - by rewrite last_app, E.
  - by apply last_None in E.
Qed.

(** Without a rate, the schedule is the latency alone. *)
Lemma schedule_no_rate last hist x : nrate c = 0 → schedule last hist → (∀ y, y ∈ hist → 0 ≤ y.1) →
  last ≤ x + latency c → (∀ y, y ∈ hist → y.1 ≤ x) → last_of last hist.*2 ≤ x + latency c.
Proof.
  intros Hr. revert last. induction hist as [|[a n] hist IH]; intros last Hs Hpos Hl Hx; [done|].
  destruct Hs as [Hn Hs]. unfold cost in Hn. rewrite Hr in Hn. simpl in Hn.
  specialize (Hx (a, n) ltac:(by left)) as Ha. simpl in Ha.
  assert (last_of last ((a, n) :: hist).*2 = last_of (time_to_send n) hist.*2) as ->.
  { unfold last_of. rewrite fmap_cons, last_cons. by destruct (list.last hist.*2). }
  apply IH; [done|intros y Hy; apply Hpos; by right|lia|intros y Hy; apply Hx; by right].
Qed.

Lemma schedule_bounds last hist : schedule last hist → 0 ≤ latency c →
  Forall (λ x, 0 ≤ cost c (ns_skb x.2)) hist →
  last ≤ last_of last hist.*2 ∧ Forall (λ n, time_to_send n ≤ last_of last hist.*2) hist.*2.
Proof.
  intros Hs Hlat Hc. revert last Hs. induction Hc as [|[a n] hist Hn Hc IH]; intros last Hs; [simpl; by split|].
  destruct Hs as [Ht Hs]. destruct (IH _ Hs) as [Hb1 Hb2]. simpl in Hn.
  assert (last_of last ((a, n) :: hist).*2 = last_of (time_to_send n) hist.*2) as ->.
  { unfold last_of. rewrite fmap_cons, last_cons. by destruct (list.last hist.*2). }
  split; [lia|]. rewrite fmap_cons. by constructor.
Qed.

(** The last packet that left is due in the past. *)
Lemma delivered_past hist out d i : link_state hist out d → dl_queue d = [] → (dl_tick d ≤ i)%nat →
  0 ≤ ktime_at i → last_of 0 hist.*2 ≤ ktime_at i.
Proof.
  intros Hls Hq Hi Hk. pose proof (ls_queue _ _ _ Hls) as Hsplit. rewrite Hq, app_nil_r in Hsplit.
  pose proof (ls_out _ _ _ Hls) as Ho. rewrite <- Hsplit in Ho. unfold last_of.
  destruct (list.last hist.*2) as [n|] eqn:El; [|done]. apply last_Some in El as [l El]. rewrite El in Ho.
  apply Forall2_app_inv_r in Ho as (o1 & o2 & _ & Ho2 & Heq). inversion Ho2 as [|o ? o2' ? [_ Hon] Ho3]; subst.
  pose proof (ls_past _ _ _ Hls) as Hp. apply Forall_app in Hp as [_ Hp].
  apply Forall_cons_iff in Hp as [Hp _]. specialize (Hp i Hi). lia.
Qed.

(** The due time of a packet that arrives now continues the schedule. *)
Lemma due_time_schedule hist out d skb : plain c → link_state hist out d → 0 ≤ ktime_at (dl_tick d) →
  0 ≤ cost c skb → Forall (λ x, 0 ≤ x.1) hist →
  due_time c (ktime_at (dl_tick d)) skb (dl_queue d)
  = Z.max (last_of 0 hist.*2) (ktime_at (dl_tick d) + latency c) + cost c skb.
Proof.
  intros Hp Hls Hk Hcost Hpos. pose proof (pl_latency _ Hp) as Hlat. unfold due_time.
  pose proof (delivered_past hist out d (dl_tick d) Hls) as Hpast.
  destruct (Z.eqb_spec (nrate c) 0) as [Hr|Hr].
  - rewrite Z.max_r.
    + unfold cost. rewrite Hr. simpl. lia.
    + apply schedule_no_rate; [done|apply Hls| |lia|].
      * rewrite Forall_forall in Hpos. exact Hpos.
      * pose proof (ls_arrived _ _ _ Hls) as Ha. rewrite Forall_forall in Ha. intros y Hy. by apply (Ha y Hy).
  - rewrite (ls_queue _ _ _ Hls). destruct (dl_queue d) as [|q qs] eqn:Eq.
    + rewrite app_nil_r. simpl. specialize (Hpast eq_refl ltac:(lia) Hk).
      rewrite (ls_queue _ _ _ Hls), Eq, app_nil_r in Hpast. lia.
    + rewrite last_of_app by done. unfold last_of.
      destruct (list.last (q :: qs)) as [x|] eqn:El; [lia|by apply last_None in El].
Qed.

Lemma Forall_tick {A} (f : A → Z) (l : list A) k :
  Forall (λ x, ∀ i, (k ≤ i)%nat → f x ≤ ktime_at i) l →
  Forall (λ x, ∀ i, (S k ≤ i)%nat → f x ≤ ktime_at i) l.
Proof. intros Hl. eapply Forall_impl; [exact Hl|]. simpl. intros x Hx i Hi. apply Hx. lia. Qed.

Lemma link_enqueue hist out d skb : plain c → link_state hist out d → event_ok (NmEnqueue skb) d →
  Forall (λ x, 0 ≤ x.1) hist →
  let n := Nskb skb (due_time (dl_cfg d) (ktime_at (dl_tick d)) skb (dl_queue d)) in
  link_state (hist ++ [(ktime_at (dl_tick d), n)]) out
    (Dline (dl_cfg d) (dl_limit d) (insert_due n (dl_queue d)) (S (dl_tick d))).
Proof.
  intros Hp Hls (_ & Hk & _ & Hcost) Hpos. rewrite (ls_cfg _ _ _ Hls) in Hcost |- *. intros n.
  pose proof (due_time_schedule hist out d skb Hp Hls Hk ltac:(lia) Hpos) as Hdue. pose proof (pl_latency _ Hp) as Hlat.
  destruct (schedule_bounds 0 hist (ls_sched _ _ _ Hls) ltac:(lia) (ls_cost _ _ _ Hls)) as [_ Hall].
  assert (insert_due n (dl_queue d) = dl_queue d ++ [n]) as ->.
  { apply insert_due_last. rewrite (ls_queue _ _ _ Hls) in Hall. apply Forall_app in Hall as [_ Hall].
    eapply Forall_impl; [exact Hall|]. intros x Hx. unfold n. simpl in *.
    rewrite <- (ls_queue _ _ _ Hls) in Hx. lia. }
  pose proof (ls_queue _ _ _ Hls) as Hq. pose proof (ls_out _ _ _ Hls) as Ho.
  assert (length out ≤ length hist.*2)%nat as Hlen.
  { apply Forall2_length in Ho. rewrite length_take in Ho. lia. }
  destruct Hls as [Hc Hl Hs _ _ Hpast Harr Hcs].
  split; cbn [dl_cfg dl_limit dl_queue dl_tick]; rewrite ?fmap_app; try done.
  - apply schedule_app. split; [done|]. by split.
  - cbn [fmap list_fmap snd]. rewrite take_app_le by done. rewrite app_assoc. by rewrite <- Hq.
  - by rewrite take_app_le.
  - by apply (Forall_tick fst).
  - apply Forall_app. split; [by apply (Forall_tick fst)|]. constructor; [|constructor].
    intros i Hi. apply Hmono. lia.
  - apply Forall_app. split; [done|]. constructor; [simpl; lia|constructor].
Qed.

Lemma link_dequeue hist out d n l : link_state hist out d → dl_queue d = n :: l →
  time_to_send n ≤ ktime_at (dl_tick d) →
  link_state hist (out ++ [(ktime_at (dl_tick d), ns_skb n)])
    (Dline (dl_cfg d) (dl_limit d) l (S (dl_tick d))).
Proof.
  intros [Hc Hl Hs Hq Ho Hpast Harr Hcs] Eq Hdue. rewrite Eq in Hq.
  assert (take (length (out ++ [(ktime_at (dl_tick d), ns_skb n)])) hist.*2 = take (length out) hist.*2 ++ [n]) as Ht.
  { rewrite length_app. simpl. apply Forall2_length in Ho. rewrite Hq at 1. rewrite take_app.
    rewrite <- Ho. rewrite take_ge by lia. f_equal. replace (length out + 1 - length out)%nat with 1%nat by lia. done. }
  split; cbn [dl_cfg dl_limit dl_queue dl_tick]; rewrite ?Ht; try done.
  - rewrite <- app_assoc. exact Hq.
  - apply Forall2_app; [done|]. by repeat constructor.
  - apply Forall_app. split; [by apply (Forall_tick fst)|]. constructor; [|constructor].
    intros i Hi. apply Hmono. lia.
  - by apply (Forall_tick fst).
Qed.

Lemma link_wait hist out d : link_state hist out d →
  link_state hist out (Dline (dl_cfg d) (dl_limit d) (dl_queue d) (S (dl_tick d))).
Proof.
  intros [Hc Hl Hs Hq Ho Hpast Harr Hcs]. split; try done; by apply (Forall_tick fst).
Qed.

Lemma link_run es : plain c → Forall (λ e, no_change e = true) es → ∀ hist out d,
  link_state hist out d → events_ok es d → Forall (λ x, 0 ≤ x.1) hist →
  ∃ hist', link_state (hist ++ hist') (out ++ (line_run es d).2) (line_run es d).1 ∧
    (λ x, (x.1, ns_skb x.2)) <$> hist' = accepted es d.
Proof.
  intros Hp Hnc. induction Hnc as [|e es He _ IH]; intros hist out d Hls Hok Hpos.
  { exists []. simpl. by rewrite !app_nil_r. }
  destruct Hok as [Heok Hok].
  assert (∃ h, link_state (hist ++ h) (out ++ (line_step e d).2) (line_step e d).1 ∧
    Forall (λ x, 0 ≤ x.1) h ∧ accepted (e :: es) d = ((λ x, (x.1, ns_skb x.2)) <$> h) ++ accepted es (line_step e d).1)
    as (h & Hls1 & Hh & Hacc).
  { destruct e as [skb|dea|]; [| |done]; cbn [accepted line_step].
    - destruct (dl_limit d <=? _); [exists []; by rewrite !app_nil_r|].
      eexists [_]. rewrite app_nil_r.
      split; [by apply link_enqueue|]. split; [|done]. repeat constructor. apply Heok.
    - exists []. rewrite app_nil_r. destruct (dl_queue d) as [|n l] eqn:Eq; [by rewrite app_nil_r|].
      destruct (Z.leb_spec (time_to_send n) (ktime_at (dl_tick d))); cbn [fst snd]; (split; [|done]).
      + by apply link_dequeue.
      + rewrite app_nil_r, <- Eq. by apply link_wait. }
  destruct (IH _ _ _ Hls1 Hok) as (h' & Hls2 & Hacc'); [by apply Forall_app|].
  exists (h ++ h'). rewrite Hacc, fmap_app, Hacc'. split; [|done]. cbn [line_run].
  destruct (line_step e d) as [d1 o1]. simpl in *. destruct (line_run es d1) as [d2 o2]. simpl in *.
  by rewrite !app_assoc.
Qed.

Lemma slice_schedule hist i j : schedule 0 hist → ∃ last, schedule last (take j (drop i hist)).
Proof.
  intros Hs. rewrite <- (take_drop i hist) in Hs. apply schedule_app in Hs as [_ Hs].
  rewrite <- (take_drop j (drop i hist)) in Hs. apply schedule_app in Hs as [Hs _]. eauto.
Qed.

Lemma slice_last {A} (l : list A) i j x : (i ≤ j)%nat → l !! j = Some x → list.last (take (S j - i) (drop i l)) = Some x.
Proof.
  intros Hij Hx. rewrite last_lookup, length_take, length_drop.
  pose proof (lookup_lt_Some _ _ _ Hx). rewrite lookup_take_lt by lia. rewrite lookup_drop.
  rewrite <- Hx. f_equal. lia.
Qed.

Lemma link_bound hist out d i j a skb t skb' : link_state hist out d → (i ≤ j)%nat →
  ((λ x, (x.1, ns_skb x.2)) <$> hist) !! i = Some (a, skb) → out !! j = Some (t, skb') →
  a + latency c + total (cost c) (take (S j - i) (drop i (ns_skb <$> hist.*2))) ≤ t.
Proof.
  intros Hls Hij Hi Hj. rewrite list_lookup_fmap in Hi. destruct (hist !! i) as [[a0 ni]|] eqn:Ehi; [|done].
  simpl in Hi. injection Hi as -> <-.
  destruct (Forall2_lookup_l _ _ _ _ _ (ls_out _ _ _ Hls) Hj) as (n & Hn & _ & Ht). simpl in Ht.
  apply lookup_take_Some in Hn as [Hn Hlt]. apply list_lookup_fmap_Some in Hn as ([b n'] & -> & Hhj).
  destruct (slice_schedule hist i (S j - i) (ls_sched _ _ _ Hls)) as [lst Hs].
  pose proof (slice_last hist i j _ Hij Hhj) as Hlast.
  assert (Forall (λ x, 0 ≤ cost c (ns_skb x.2)) (take (S j - i) (drop i hist))) as Hc
    by apply Forall_take, Forall_drop, Hls.
  rewrite <- !fmap_drop, <- !fmap_take.
  rewrite (drop_S _ _ _ Ehi) in Hs, Hlast, Hc |- *.
  replace (S j - i)%nat with (S (j - i)) in * by lia. cbn [take] in *.
  pose proof (schedule_total _ _ _ _ _ _ Hs Hlast Hc). simpl in *. lia.
Qed.
End rate.
