(* ===== verification/NetemQueue.v ===== *)
(** * netem's queue in any configuration

    Jitter, distributions, the loss models, ECN, correlation, reordering, rates
    and slots decide when a packet leaves and whether it is dropped.  Whatever
    they decide, the queue stays well-formed, no operation fails, and packets
    are neither lost nor invented.  Duplication and corruption, which allocate
    packets, are excluded here. *)

From Stdlib Require Import ZArith Lia.
From stdpp Require Import base numbers list gmap option sets sorting.
From S2P Require Import Prelude Sched RbCode RbTree RbRefine RbWalk RbMem SeqBuf NetemRand Netem NetemConf NetemFifo NetemLine.

Open Scope Z_scope.

(** What is relied on about the helpers that free or mark a packet. *)
Class NetemDropsOk `{KernelHeaders} `{NetemHeaders} := {
  ecn_keeps_id : ∀ skb, skb_id (INET_ECN_set_ce skb).2 = skb_id skb;
  drop_all_frees : ∀ skb segs st, (qdisc_drop_all skb segs st).2 = skb :: segs;
  reset_queue_ok : ∀ q st, (reset_queue q st).1 = QHead [] 0;
}.

Section queue.
Context `{KernelHeaders} `{NetemHeaders} `{NetemEnv} `{ReciprocalDiv} {Q : Type} `{ChildQdisc Q}.
Implicit Types (s : netem Q).

(** ** Steps that do not touch the queue *)

Record same s s' : Prop := {
  sm_cfg : nm_cfg s' = nm_cfg s;
  sm_tree : nm_tree s' = nm_tree s;
  sm_list : nm_list s' = nm_list s;
  sm_q : nm_q s' = nm_q s;
  sm_limit : nm_limit s' = nm_limit s;
  sm_child : nm_child s' = nm_child s;
  sm_freed : nm_freed s' = nm_freed s;
}.

#[global] Instance same_preorder : PreOrder same.
Proof. split; [by intros s|]. intros s1 s2 s3 [] []. split; congruence. Qed.

(** [c] returns from [s], with a value in [P], and keeps the queue. *)
Abbreviation quiet := (returns same).

Lemma quiet_ret {A} s (v : A) (P : A → Prop) : P v → quiet s (cret v) P.
Proof. apply returns_ret, _. Qed.

Lemma quiet_gets {A} s (f : netem Q → A) : quiet s (gets f) (λ v, v = f s).
Proof. by exists (f s), s. Qed.

Lemma quiet_next {A} s (f : nat → A) : quiet s (next f) (λ _, True).
Proof. by eexists _, _. Qed.

Lemma quiet_modify s f : same s (f s) → quiet s (modify f) (λ _, True).
Proof. intros Hf. by eexists _, _. Qed.

Create HintDb netem.
#[local] Hint Resolve quiet_ret quiet_gets quiet_next quiet_modify : netem.
#[local] Hint Extern 1 (same _ _) => done : netem.

Ltac quiet_step := eapply (returns_bind same); [by eauto with netem|cbv beta; intros ? ? ? ?].

Lemma quiet_crandom s c : quiet s (get_crandom c) (λ _, True).
Proof.
  unfold get_crandom, prandom_u32. quiet_step. destruct c as [c|]; [|eauto with netem].
  quiet_step. case_match; [eauto with netem|]. case_match. quiet_step. eauto with netem.
Qed.
#[local] Hint Resolve quiet_crandom : netem.

Lemma quiet_chance s p c : quiet s (chance p c) (λ _, True).
Proof. unfold chance. case_match; [eauto with netem|]. quiet_step. eauto with netem. Qed.
#[local] Hint Resolve quiet_chance : netem.

Lemma quiet_loss_event s : quiet s loss_event (λ _, True).
Proof.
  unfold loss_event, cfg. quiet_step. case_match.
  - quiet_step. eauto with netem.
  - unfold loss_4state, prandom_u32. quiet_step. quiet_step. case_match. quiet_step. eauto with netem.
  - unfold loss_gilb_ell, prandom_u32. quiet_step. case_match; [|eauto with netem].
    quiet_step. quiet_step. case_match. quiet_step. eauto with netem.
Qed.
#[local] Hint Resolve quiet_loss_event : netem.

Lemma quiet_delays s : quiet s delays (λ _, True).
Proof.
  unfold delays, cfg. quiet_step. quiet_step. case_match; [eauto with netem|]. quiet_step. quiet_step. eauto with netem.
Qed.

Lemma quiet_count_drop s : quiet s count_drop (λ _, True).
Proof. unfold count_drop. eauto with netem. Qed.
#[local] Hint Resolve quiet_count_drop : netem.

Lemma quiet_loss `{!NetemDropsOk} s skb : quiet s (netem_loss skb) (λ r, skb_id r.2 = skb_id skb).
Proof.
  unfold netem_loss, cfg. quiet_step. case_match; [eauto with netem|]. quiet_step. case_match; [|eauto with netem].
  destruct (INET_ECN_set_ce skb) as [m skb'] eqn:Ee. pose proof (ecn_keeps_id skb) as Hid. rewrite Ee in Hid.
  destruct m; [quiet_step|]; eauto with netem.
Qed.

(** A distribution that [tabledist] can use. *)
Definition dist_ok (sigma : Z) (dist : option (list Z)) : Prop :=
  match dist with
  | None => sigma ≠ - 2 ^ 31
  | Some table => table ≠ []
  end.

Lemma quiet_tabledist s mu sigma c dist : - 2 ^ 31 ≤ sigma < 2 ^ 31 → dist_ok sigma dist →
  quiet s (tabledist mu sigma c dist) (λ _, True).
Proof.
  intros Hs Hd. unfold tabledist. destruct (Z.eqb_spec sigma 0); [eauto with netem|]. quiet_step.
  unfold tabledist_of. destruct dist as [table|]; simpl in Hd.
  - destruct table as [|t table]; [done|]. rewrite (proj2 (Z.eqb_neq _ _)) by (simpl; lia). eauto with netem.
  - rewrite (proj2 (Z.eqb_neq _ _)); [eauto with netem|]. unfold u32.
    pose proof (Z.div_mod (2 * sigma) (2 ^ 32)). intros Hz. assert (- 2 ^ 31 < sigma) by lia.
    apply Z.mod_divide in Hz as [k Hk]; lia.
Qed.

(** ** The configurations *)

Record single (c : netem_cfg) : Prop := {
  sg_dup : duplicate c = 0;
  sg_corrupt : corrupt c = 0;
  sg_dist : dist_ok (s32 (jitter c)) (delay_dist c);
  sg_slot : slot_dist c ≠ Some [];
}.

Lemma quiet_slot_next s now : single (nm_cfg s) → quiet s (get_slot_next now) (λ _, True).
Proof.
  intros Hsg. unfold get_slot_next, cfg. eapply (returns_bind same); [apply quiet_gets|].
  intros c s1 -> Hs1. unfold id. eapply (returns_bind same _ _ _ (λ _, True)); [|intros; eauto with netem].
  destruct (slot_dist (nm_cfg s)) as [d|] eqn:Ed.
  - apply quiet_tabledist; [apply s32_range|]. simpl. intros ->. by apply (sg_slot _ Hsg).
  - unfold prandom_u32. quiet_step. eauto with netem.
Qed.

(** ** The queue *)

(** [fr] is the queue of reordered packets, [l] the time queue. *)
Record queue_ok s (fr l : list nskb) : Prop := {
  qo_single : single (nm_cfg s);
  qo_due : due (nm_tree s) (nm_list s) l;
  qo_front : qh_list (nm_q s) = fr;
  qo_qlen : qh_qlen (nm_q s) = Z.of_nat (length (fr ++ l));
  qo_len : Z.of_nat (length (fr ++ l)) < 2 ^ 31;
  qo_limit : nm_limit s < 2 ^ 31;
  qo_child : nm_child s = None;
}.

Lemma queue_same s s' fr l : same s s' → queue_ok s fr l → queue_ok s' fr l.
Proof. intros [Hc Ht Hl Hq Hlim Hch _] []. split; rewrite ?Hc, ?Ht, ?Hl, ?Hq, ?Hlim, ?Hch; done. Qed.

Lemma quiet_last_due s fr l : queue_ok s fr l → quiet s last_due (λ _, True).
Proof.
  intros Hok. destruct (qo_due _ _ _ Hok) as (t & ts & Hsq & _). unfold last_due. quiet_step.
  match goal with H : same s ?x |- _ => rename H into Hs1; set (s1 := x) in * end.
  eapply (returns_bind same _ _ _ (λ _, True)); [|intros; quiet_step; eauto with netem].
  unfold on_tree. change (tree_end rb_last) with (tree_end (first_at R)). exists (list.last ts), s1.
  rewrite (sm_tree _ _ Hs1), (tree_end_spec _ _ _ R (sq_tree _ _ _ _ Hsq)). rewrite <- (sm_tree _ _ Hs1).
  split; [by destruct s1|]. done.
Qed.

Lemma quiet_rate_delay s fr l delay now skb : queue_ok s fr l → quiet s (rate_delay delay now skb) (λ _, True).
Proof.
  intros Hok. unfold rate_delay, cfg. quiet_step. case_match; [eauto with netem|].
  eapply (returns_bind same); [eapply quiet_last_due, queue_same; [eassumption|exact Hok]|]. intros ? ? _ _.
  case_match. eauto with netem.
Qed.

(** A packet that is not dropped: to the time queue, or to the front. *)
Lemma enqueue_one_ok `{!NetemHeadersOk} s fr l skb : queue_ok s fr l → fresh_skb (skb_id skb) l →
  qh_qlen (nm_q s) < nm_limit s →
  ∃ s' t fr' l', enqueue_one skb s = Some (tt, s') ∧ queue_ok s' fr' l' ∧ nm_freed s' = nm_freed s ∧
    (fr' = fr ∧ l' = insert_due (Nskb skb t) l ∨ fr' = Nskb skb t :: fr ∧ l' = l).
Proof.
  intros Hok Hfr Hlim. unfold enqueue_one, cbind at 1, modify. set (s0 := upd_qstats _ s).
  destruct (quiet_delays s0) as (d & s1 & Hd & _ & Hs1). unfold cbind at 1. rewrite Hd.
  assert (same s s1) as Hss1 by (transitivity s0; done). clear s0 Hd Hs1.
  pose proof (queue_same _ _ _ _ Hss1 Hok) as Hok1. pose proof (qo_qlen _ _ _ Hok) as Hql.
  pose proof (qo_len _ _ _ Hok) as Hlen. pose proof (qo_limit _ _ _ Hok) as Hli. destruct d.
  - unfold enqueue_delayed, cbind at 1, cfg, gets. cbn [id].
    destruct (quiet_tabledist s1 (latency (nm_cfg s1)) (s32 (jitter (nm_cfg s1))) (Some DelayCor) (delay_dist (nm_cfg s1)))
      as (dl & s2 & Ht & _ & Hs2); [apply s32_range|apply Hok1|].
    unfold cbind at 1. rewrite Ht. unfold cbind at 1, ktime_get_ns, next. set (s3 := upd_tick S s2).
    assert (same s s3) as Hss3 by (transitivity s1; [done|]; transitivity s2; done).
    destruct (quiet_rate_delay s3 fr l dl (ktime_at (nm_tick s2)) skb) as (dn & s4 & Hr & _ & Hs4);
      [by eapply queue_same|]. unfold cbind at 1. rewrite Hr. unfold cbind at 1, modify.
    set (s5 := upd_counter _ s4). assert (same s s5) as Hss5 by (transitivity s3; [done|]; transitivity s4; done).
    pose proof (queue_same _ _ _ _ Hss5 Hok) as [Hsg Hdue Hf Hq Hl2 Hlim5 Hch].
    destruct (tfifo_enqueue_spec s5 l (Nskb skb (u64 (dn.2 + dn.1)))) as (h' & ls' & He & Hd');
      [done|done|rewrite length_app in Hlen; lia|].
    eexists _, _, fr, _. rewrite He. split; [done|]. split; [|split; [exact (sm_freed _ _ Hss5)|by left]].
    split; try done.
    + change (u32 (qh_qlen (nm_q s5) + 1) = Z.of_nat (length (fr ++ insert_due (Nskb skb (u64 (dn.2 + dn.1))) l))).
      rewrite Hq, !length_app, insert_due_length in *. rewrite u32_small by lia. lia.
    + rewrite !length_app, insert_due_length in *. lia.
  - unfold enqueue_reordered, cbind, ktime_get_ns, next, modify. destruct Hok1 as [Hsg Hdue Hf Hq Hl2 Hlim1 Hch].
    eexists _, (ktime_at (nm_tick s1)), (_ :: fr), l. split; [done|].
    split; [|split; [exact (sm_freed _ _ Hss1)|by right]].
    pose proof (enqueue_head_ok (Nskb skb (ktime_at (nm_tick s1))) (nm_q s1)) as Hh.
    split; try done.
    + change (qh_list (__qdisc_enqueue_head (Nskb skb (ktime_at (nm_tick s1))) (nm_q s1))
        = Nskb skb (ktime_at (nm_tick s1)) :: fr). by rewrite Hh, Hf.
    + change (qh_qlen (__qdisc_enqueue_head (Nskb skb (ktime_at (nm_tick s1))) (nm_q s1))
        = Z.of_nat (S (length (fr ++ l)))). rewrite Hh. simpl. rewrite Hq, u32_small by lia. lia.
    + simpl. lia.
Qed.

(** An enqueue: the packet (which may be marked) is freed or queued. *)
Lemma enqueue_ok `{!NetemHeadersOk} `{!NetemDropsOk} s fr l skb : queue_ok s fr l → fresh_skb (skb_id skb) l →
  ∃ r s' skb' t fr' l', netem_enqueue 1 skb s = Some (r, s') ∧ queue_ok s' fr' l' ∧ skb_id skb' = skb_id skb ∧
    (nm_freed s' = nm_freed s ++ [skb'] ∧ fr' = fr ∧ l' = l ∨
     nm_freed s' = nm_freed s ∧
       (fr' = fr ∧ l' = insert_due (Nskb skb' t) l ∨ fr' = Nskb skb' t :: fr ∧ l' = l)).
Proof.
  intros Hok Hfr. pose proof (qo_single _ _ _ Hok) as Hsg. cbn [netem_enqueue].
  unfold cbind at 1, cfg, gets. cbv beta iota. rewrite (sg_dup _ Hsg). unfold cbind at 1. rewrite chance_zero.
  destruct (quiet_loss s skb) as ([lost skb'] & s1 & Hl & Hid & Hs1). unfold cbind at 1. rewrite Hl. cbn [fst snd] in *.
  pose proof (queue_same _ _ _ _ Hs1 Hok) as Hok1. destruct lost; simpl (Z.b2z _).
  - change (1 + 0 - 1 =? 0) with true. cbv iota. unfold count_drop, cbind, modify.
    eexists _, _, skb', 0, fr, l. split; [done|]. split; [|split; [done|left; split; [|done]]].
    + by destruct Hok1.
    + change (nm_freed s1 ++ [skb'] = nm_freed s ++ [skb']). by rewrite (sm_freed _ _ Hs1).
  - change (1 + 0 - 0 =? 0) with false. change (1 <? 1 + 0 - 0) with false. cbv iota. unfold cbind at 1, cret at 1.
    unfold netem_corrupt, cbind at 1. unfold cbind at 1, cfg, gets. cbv beta iota.
    rewrite (sg_corrupt _ (qo_single _ _ _ Hok1)). unfold cbind at 1. rewrite chance_zero. cbn [negb]. unfold cret at 1.
    unfold cbind at 1 2. destruct (Z.leb_spec (nm_limit s1) (qh_qlen (nm_q s1))) as [Hle|Hgt].
    + unfold cbind at 1. pose proof (drop_all_frees skb' [] (nm_qstats s1)) as Hda.
      destruct (qdisc_drop_all skb' [] (nm_qstats s1)) as [st fz]. simpl in Hda. subst fz.
      eexists _, _, skb', 0, fr, l. split; [done|]. split; [|split; [done|left; split; [|done]]].
      * by destruct Hok1.
      * change (nm_freed s1 ++ [skb'] = nm_freed s ++ [skb']). by rewrite (sm_freed _ _ Hs1).
    + destruct (enqueue_one_ok s1 fr l skb') as (s2 & t & fr' & l' & He & Hok2 & Hf2 & Hcase); [done|by rewrite Hid|done|].
      unfold cbind at 1. rewrite He. cbn [finish_segs]. eexists _, s2, skb', t, fr', l'. split; [done|].
      split; [done|]. split; [done|]. right. split; [|done]. by rewrite Hf2, (sm_freed _ _ Hs1).
Qed.

Lemma quiet_open_slot s now tts : single (nm_cfg s) →
  ∃ s', open_slot now tts s = Some (slot_next (nm_slot s'), s') ∧ same s s'.
Proof.
  intros Hsg. unfold open_slot, cbind, gets.
  destruct (negb (slot_next (nm_slot s) =? 0) && (slot_next (nm_slot s) <? tts)); [|by exists s].
  destruct (quiet_slot_next s now Hsg) as (v & s' & Hc & _ & Hs'). rewrite Hc. by exists s'.
Qed.

Lemma quiet_slot_account s now skb : single (nm_cfg s) → quiet s (slot_account now skb) (λ _, True).
Proof.
  intros Hsg. unfold slot_account. quiet_step. case_match; [eauto with netem|].
  match goal with H : same s ?x |- _ => rename H into Hs1; set (s1 := x) in * end.
  eapply (returns_bind same); [apply quiet_modify; done|]. intros _ s2 _ Hs2. case_match; [|eauto with netem].
  apply quiet_slot_next. by rewrite (sm_cfg _ _ Hs2), (sm_cfg _ _ Hs1).
Qed.

(** The first packet leaves the time queue. *)
Lemma take_due_ok s fr n l now : queue_ok s fr (n :: l) →
  ∃ s', take_due now n s = Some (tt, s') ∧ queue_ok s' fr l ∧ nm_freed s' = nm_freed s.
Proof.
  intros [Hsg Hdue Hf Hq Hlen Hlim Hch]. destruct (netem_erase_head_spec s n l Hdue) as (h' & ls' & He & Hd').
  unfold take_due, cbind at 1. rewrite He. unfold cbind at 1 2, modify. set (s1 := upd_qstats _ _).
  assert (queue_ok s1 fr l) as Hok1.
  { rewrite length_app in Hq, Hlen. simpl in Hq, Hlen. split; try done.
    - change (u32 (qh_qlen (nm_q s) + -1) = Z.of_nat (length (fr ++ l))).
      rewrite length_app, Hq, u32_small by lia. lia.
    - rewrite length_app. lia. }
  destruct (quiet_slot_account s1 now (ns_skb n) (qo_single _ _ _ Hok1)) as ([] & s2 & Hc & _ & Hs2).
  exists s2. split; [done|]. split; [by eapply queue_same|]. exact (sm_freed _ _ Hs2).
Qed.

(** A dequeue: a reordered packet at once; otherwise the first packet of the time
    queue, if it is due and the slot is open. *)
Lemma dequeue_ok `{!NetemHeadersOk} s fr l deactivated : queue_ok s fr l →
  ∃ o s' fr' l', netem_dequeue 1 deactivated s = Some (o, s') ∧ queue_ok s' fr' l' ∧ nm_freed s' = nm_freed s ∧
    match fr, l with
    | n :: fr0, _ => o = Some (ns_skb n) ∧ fr' = fr0 ∧ l' = l
    | [], [] => o = None ∧ fr' = [] ∧ l' = []
    | [], n :: l0 =>
        fr' = [] ∧
        (o = Some (ns_skb n) ∧ l' = l0 ∧ time_to_send n ≤ ktime_at (nm_tick s) ∨
         o = None ∧ l' = l ∧
           (ktime_at (nm_tick s) < time_to_send n ∨ ktime_at (nm_tick s) < slot_next (nm_slot s')))
    end.
Proof.
  intros Hok. pose proof Hok as [Hsg Hdue Hf Hq Hlen Hlim Hch]. cbn [netem_dequeue]. unfold cbind at 1, gets. cbv beta iota.
  destruct fr as [|n fr].
  - rewrite (dequeue_head_nil (nm_q s) Hf). unfold cbind at 1, modify at 1. rewrite upd_q_same. unfold cbind at 1.
    rewrite (netem_peek_spec s _ Hdue). destruct l as [|n l]; cbn [head].
    + unfold dequeue_child, child_dequeue, cbind, gets. rewrite Hch. by exists None, s, [], [].
    + unfold cbind at 1, ktime_get_ns, next. set (s1 := upd_tick S s). set (now := ktime_at (nm_tick s)).
      destruct (quiet_open_slot s1 now (time_to_send n) Hsg) as (s2 & Ho & Hs2). unfold cbind at 1. rewrite Ho.
      assert (queue_ok s2 [] (n :: l)) as Hok2 by (eapply queue_same; [|exact Hok]; transitivity s1; done).
      pose proof (sm_freed _ _ Hs2) as Hfr2.
      destruct ((time_to_send n <=? now) && (slot_next (nm_slot s2) <=? now)) eqn:Edue.
      * destruct (take_due_ok s2 [] n l now Hok2) as (s3 & Ht & Hok3 & Hfr3). unfold cbind at 1. rewrite Ht.
        unfold cbind at 1. unfold gets. rewrite (qo_child _ _ _ Hok3). unfold deliver, cbind, modify, cret.
        eexists _, _, [], l. split; [done|]. split; [by destruct Hok3|]. split; [by simpl; rewrite Hfr3|].
        split; [done|]. left. split; [done|]. split; [done|]. apply andb_true_iff in Edue as [Edue _]. lia.
      * unfold cbind at 1, child_dequeue at 1. unfold cbind at 1. unfold gets. rewrite (qo_child _ _ _ Hok2).
        unfold cret at 1. unfold cbind at 1. unfold gets. unfold cbind at 1, modify at 1.
        unfold dequeue_child, child_dequeue, cbind, gets. set (s3 := upd_watchdog _ s2).
        rewrite (qo_child _ _ _ Hok2 : nm_child s3 = None). unfold cret.
        exists None, s3, [], (n :: l). split; [done|]. split; [by destruct Hok2|]. split; [done|]. split; [done|].
        right. split; [done|]. split; [done|]. change (nm_slot s3) with (nm_slot s2).
        apply andb_false_iff in Edue as [?|?]; [left|right]; lia.
  - rewrite (dequeue_head_cons (nm_q s) n fr Hf). unfold deliver, cbind, modify, cret.
    eexists _, _, fr, l. split; [done|]. split; [|done]. simpl in Hq, Hlen. split; try done.
    + change (u32 (qh_qlen (nm_q s) - 1) = Z.of_nat (length (fr ++ l))). rewrite Hq, u32_small by lia. lia.
    + lia.
Qed.

(** ** Runs *)

Definition packets (es : list nevent) : list sk_buff :=
  omap (λ e, match e with NmEnqueue skb => Some skb | _ => None end) es.

(** The packets of a run are at addresses of their own. *)
Fixpoint apart (as_ : list Z) : Prop :=
  match as_ with
  | [] => True
  | a :: as_ =>
      (ptr_ok a ∧ t_root ∉ fields a) ∧ Forall (λ b, b + 24 ≤ a ∨ a + 24 ≤ b) as_ ∧ apart as_
  end.

#[global] Instance apart_dec l : Decision (apart l).
Proof. induction l; cbn [apart]; apply _. Defined.

(** The packets a state holds or has freed. *)
Definition holds s (fr l : list nskb) : list sk_buff := nm_freed s ++ (ns_skb <$> fr ++ l).

Lemma enqueue_holds s s' skb' t fr l fr' l' :
  (nm_freed s' = nm_freed s ++ [skb'] ∧ fr' = fr ∧ l' = l ∨
   nm_freed s' = nm_freed s ∧ (fr' = fr ∧ l' = insert_due (Nskb skb' t) l ∨ fr' = Nskb skb' t :: fr ∧ l' = l)) →
  holds s' fr' l' ≡ₚ skb' :: holds s fr l.
Proof.
  unfold holds. intros [(-> & -> & ->)|[-> [[-> ->]|[-> ->]]]].
  - rewrite <- app_assoc. simpl. by rewrite Permutation_middle.
  - rewrite insert_due_perm, <- Permutation_middle. simpl. by rewrite Permutation_middle.
  - simpl. by rewrite Permutation_middle.
Qed.

Definition option_list {A} (o : option A) : list A :=
  match o with Some a => [a] | None => [] end.

Lemma dequeue_holds s s' o fr l fr' l' (P : nskb → Prop) R : nm_freed s' = nm_freed s →
  match fr, l with
  | n :: fr0, _ => o = Some (ns_skb n) ∧ fr' = fr0 ∧ l' = l
  | [], [] => o = None ∧ fr' = [] ∧ l' = []
  | [], n :: l0 => fr' = [] ∧ (o = Some (ns_skb n) ∧ l' = l0 ∧ P n ∨ o = None ∧ l' = l ∧ R n)
  end → option_list o ++ holds s' fr' l' ≡ₚ holds s fr l.
Proof.
  unfold holds. intros ->. destruct fr as [|n fr]; [destruct l as [|n l]|].
  - by intros (-> & -> & ->).
  - intros (-> & [(-> & -> & _)|(-> & -> & _)]); [|done]. simpl. by rewrite Permutation_middle.
  - intros (-> & -> & ->). simpl. by rewrite Permutation_middle.
Qed.

Lemma apart_perm l l' : l ≡ₚ l' → apart l → apart l'.
Proof.
  induction 1 as [|a l l' Hp IH|a b l|l l' l'' _ IH1 _ IH2]; simpl.
  - done.
  - intros (Ha & Hf & Hl). rewrite Hp in Hf. auto.
  - intros (Ha & Hf & Hb & Hg & Hl). apply Forall_cons_iff in Hf as [Hab Hf].
    split; [done|]. split; [constructor; [lia|done]|]. done.
  - auto.
Qed.

Lemma apart_app_r l l' : apart (l ++ l') → apart l'.
Proof. induction l as [|a l IH]; simpl; [done|]. intros (_ & _ & Hl). auto. Qed.

(** Along a run, every packet that came is held, was freed or has left. *)
Lemma run_ok `{!NetemHeadersOk} `{!NetemDropsOk} es : Forall (λ e, no_change e = true) es → ∀ s fr l,
  queue_ok s fr l → apart ((skb_id <$> packets es) ++ (skb_id <$> holds s fr l)) →
  ∃ out s' fr' l', netem_run es s = Some (out, s') ∧ queue_ok s' fr' l' ∧
    skb_id <$> out.*2 ++ holds s' fr' l' ≡ₚ (skb_id <$> packets es) ++ (skb_id <$> holds s fr l).
Proof.
  intros Hnc. induction Hnc as [|e es He _ IH]; intros s fr l Hok Hap.
  { exists [], s, fr, l. done. }
  cbn [netem_run]. unfold cbind at 1. destruct e as [skb|dea|]; [| |done]; cbn [netem_exec].
  - change (packets (NmEnqueue skb :: es)) with (skb :: packets es) in *. rewrite fmap_cons in *.
    assert (fresh_skb (skb_id skb) l) as Hfresh.
    { destruct Hap as ([Hp Hr] & Hf & _). split; [done..|]. apply Forall_app in Hf as [_ Hf].
      unfold holds in Hf. rewrite !fmap_app, !Forall_app, !Forall_fmap in Hf. destruct Hf as (_ & _ & Hf).
      eapply Forall_impl; [exact Hf|]. unfold nid. simpl. lia. }
    destruct (enqueue_ok s fr l skb Hok Hfresh) as (r & s1 & skb' & t & fr1 & l1 & Hc & Hok1 & Hid & Hcase).
    apply enqueue_holds in Hcase as Hh. unfold cbind. rewrite Hc. unfold cret at 1.
    destruct (IH s1 fr1 l1 Hok1) as (out & s2 & fr2 & l2 & Hr & Hok2 & Hperm).
    { eapply apart_perm; [|exact Hap]. rewrite Hh, fmap_cons, Hid. simpl. by rewrite Permutation_middle. }
    rewrite Hr. exists out, s2, fr2, l2. split; [done|]. split; [done|].
    rewrite Hperm, Hh, fmap_cons, Hid. simpl. by rewrite Permutation_middle.
  - change (packets (NmDequeue dea :: es)) with (packets es) in *.
    destruct (dequeue_ok s fr l dea Hok) as (o & s1 & fr1 & l1 & Hc & Hok1 & Hfr1 & Hcase).
    assert (option_list o ++ holds s1 fr1 l1 ≡ₚ holds s fr l) as Hh
      by exact (dequeue_holds _ _ _ _ _ _ _ (λ n, time_to_send n ≤ ktime_at (nm_tick s))
           (λ n, ktime_at (nm_tick s) < time_to_send n ∨ ktime_at (nm_tick s) < slot_next (nm_slot s1)) Hfr1 Hcase).
    unfold cbind, gets. rewrite Hc. unfold cret at 1.
    destruct (IH s1 fr1 l1 Hok1) as (out & s2 & fr2 & l2 & Hr & Hok2 & Hperm).
    { apply (apart_app_r (skb_id <$> option_list o)). eapply apart_perm; [|exact Hap].
      rewrite <- Hh, fmap_app, !app_assoc. f_equiv. apply Permutation_app_comm. }
    rewrite Hr. eexists _, s2, fr2, l2. split; [done|]. split; [done|].
    apply (fmap_Permutation skb_id) in Hh. rewrite fmap_app in Hh. rewrite <- Hh.
    rewrite (Permutation_app_comm (skb_id <$> option_list o)), app_assoc, <- Hperm.
    rewrite (Permutation_app_comm _ (skb_id <$> option_list o)). by destruct o as [skb|].
Qed.

(** ** Reset *)

(** The loop frees the packets of the tree in order. *)
Lemma reset_loop_spec ts : ∀ fuel s t, time_tree (nm_tree s) t ts → (length ts < fuel)%nat →
  ∃ h', reset_loop fuel (end_of L (inorder t)) s
      = Some (tt, log_freed (ns_skb <$> ts) (upd_tree (λ _, h') s)) ∧
    time_tree h' E [].
Proof.
  induction ts as [|n ts IH]; intros fuel s t Htt Hf; (destruct fuel as [|fuel]; [lia|]).
  - pose proof Htt as [[Hrep Hrb Hsm Hd] Hids Hs Hdom]. destruct t as [|c l a r]; [|by apply app_eq_nil in Hids as [_ ?]].
    exists (nm_tree s). split; [|done]. cbn [reset_loop]. unfold cret. destruct s. unfold log_freed. simpl. by rewrite app_nil_r.
  - pose proof Htt as [[Hrep Hrb Hsm Hd] Hids Hs Hdom]. rewrite fmap_cons in Hids. rewrite Hids.
    change (end_of L (nid n :: (nid <$> ts))) with (nid n). cbn [reset_loop].
    rewrite (rep_nonnull _ _ _ _ (nid n) Hrep) by (rewrite Hids; by left).
    rewrite Hids in Hd. inversion Hd as [|? ? ? ? Hn Hd']; subst.
    unfold cbind at 1, on_tree, get_data. rewrite Hn. unfold cbind at 1. unfold on_words. cbn [nm_tree upd_tree].
    rewrite (rb_next_spec _ _ _ [] (nid n) (nid <$> ts) Hrep Hrb Hsm Hids).
    destruct (tree_unlink_spec _ _ n ts Htt) as (h1 & t1 & Hu & Ht1).
    unfold cbind at 1. cbn [nm_tree upd_tree]. replace (Heap (hwords (nm_tree s)) (hdata (nm_tree s))) with (nm_tree s) by (by destruct (nm_tree s)).
    rewrite Hu. unfold cbind at 1, modify.
    set (s1 := log_freed _ _). rewrite <- (tt_ids _ _ _ Ht1).
    destruct (IH fuel s1 t1 Ht1) as (h' & Hr & Ht'); [simpl in Hf; lia|]. exists h'. rewrite Hr. split; [|done].
    unfold s1, log_freed. simpl. by rewrite <- app_assoc.
Qed.

(** The queue is empty, and its packets are freed once each. *)
Lemma reset_ok `{!NetemDropsOk} fuel s fr l : queue_ok s fr l → (length l < fuel)%nat →
  ∃ s', netem_reset fuel s = Some (tt, s') ∧ queue_ok s' [] [] ∧ holds s' [] [] ≡ₚ holds s fr l ∧
    wd_timer (nm_watchdog s') = None.
Proof.
  intros Hok Hf. pose proof Hok as [Hsg (t & ts & Hsq & Hl) Hfr Hq Hlen Hlim Hch].
  unfold netem_reset, cbind at 1 2, gets. cbv beta iota. pose proof (reset_queue_ok (nm_q s) (nm_qstats s)) as Hrq.
  destruct (reset_queue (nm_q s) (nm_qstats s)) as [q' st']. simpl in Hrq. subst q'. unfold cbind at 1 2 3, modify.
  set (s1 := upd_qstats _ _). unfold tfifo_reset, cbind at 1. unfold cbind at 1, on_tree, on_words.
  pose proof (sq_tree _ _ _ _ Hsq) as Htt. pose proof Htt as [[Hrep Hrb Hsm _] _ _ _].
  change (nm_tree s1) with (nm_tree s). unfold rb_first. rewrite (first_at_spec L _ _ _ Hrep Hrb Hsm).
  replace (Heap (hwords (nm_tree s)) (hdata (nm_tree s))) with (nm_tree s) by (by destruct (nm_tree s)).
  change (upd_tree (λ _, nm_tree s) s1) with s1.
  destruct (reset_loop_spec ts fuel s1 t) as (h' & Hr & Ht'); [done| |].
  { rewrite Hl, merge_perm, length_app in Hf. lia. }
  unfold cbind at 1. rewrite Hr. unfold cbind, gets, modify. set (s2 := log_freed (ns_skb <$> ts) _).
  change (nm_child _) with (nm_child s) at 1. rewrite Hch. unfold cret. eexists. split; [done|]. split; [|split].
  - split; try done. exists E, []. split; [|done]. split; [done|constructor|done|apply NoDup_nil_2].
  - unfold holds. simpl. rewrite Hfr, app_nil_r, <- !app_assoc. f_equiv. rewrite !fmap_app. f_equiv.
    rewrite Hl, merge_perm, fmap_app. apply Permutation_app_comm.
  - done.
Qed.
End queue.
