(* ===== verification/NetemFuel.v ===== *)
(** * The recursion of netem_enqueue

    [netem_enqueue] calls itself through [sch->enqueue] for a duplicate and for
    the segments of a packet it corrupts.  A duplicate is not duplicated again
    and a segment is not segmented again, so that the calls are at most three
    deep: the fuel of the model is never what ends them. *)

From Stdlib Require Import ZArith Lia.
From stdpp Require Import base numbers list gmap option.
From S2P Require Import Prelude Sched RbCode SeqBuf NetemRand Netem NetemConf.

Open Scope Z_scope.

(** What is relied on about segmentation: a packet stays what it is when it is
    marked or cloned, and segments are sent as they are. *)
Class NetemGsoOk `{KernelHeaders} `{NetemHeaders} := {
  gso_ecn : ∀ skb, skb_is_gso (INET_ECN_set_ce skb).2 = skb_is_gso skb;
  gso_clone : ∀ a skb, skb_is_gso (set_skb_id a skb) = skb_is_gso skb;
  gso_segments : ∀ skb segs, skb_is_gso skb = true → skb_gso_segment skb = Some segs →
    Forall (λ seg, skb_is_gso (qdisc_calculate_pkt_len (nm_seg_skb seg)) = false) segs;
}.

Section fuel.
Context `{KernelHeaders} `{NetemHeaders} `{NetemEnv} `{ReciprocalDiv} {Q : Type} `{ChildQdisc Q}.
Implicit Types (s : netem Q).

(** ** Commands that keep the configuration *)

Definition keeps {A} (c : M (netem Q) A) : Prop := ∀ s v s', c s = Some (v, s') → nm_cfg s' = nm_cfg s.

Lemma keeps_ret {A} (v : A) : keeps (cret v).
Proof. by intros s ? ? [= <- <-]. Qed.

Lemma keeps_fail {A} : keeps (cfail : M (netem Q) A).
Proof. done. Qed.

Lemma keeps_bind {A B} (c : M (netem Q) A) (k : A → M (netem Q) B) :
  keeps c → (∀ v, keeps (k v)) → keeps (cbind c k).
Proof.
  intros Hc Hk s v s'. unfold cbind. destruct (c s) as [[w s1]|] eqn:E; [|done].
  intros Hs. by rewrite (Hk _ _ _ _ Hs), (Hc _ _ _ E).
Qed.

Lemma keeps_gets {A} (f : netem Q → A) : keeps (gets f).
Proof. by intros s ? ? [= <- <-]. Qed.

Lemma keeps_next {A} (f : nat → A) : keeps (next f).
Proof. by intros s ? ? [= <- <-]. Qed.

Lemma keeps_modify f : (∀ s, nm_cfg (f s) = nm_cfg s) → keeps (modify f).
Proof. intros Hf s ? ? [= <- <-]. apply Hf. Qed.

Lemma keeps_tree {A} (c : M (heap nskb) A) : keeps (on_tree c).
Proof. intros s v s'. unfold on_tree. destruct (c _) as [[? ?]|]; [|done]. by intros [= <- <-]. Qed.

Create HintDb netem_keeps.
#[local] Hint Resolve keeps_ret keeps_fail keeps_gets keeps_next keeps_tree : netem_keeps.
#[local] Hint Extern 2 (keeps (modify _)) => by apply keeps_modify : netem_keeps.

(** Structural proofs: a bind, a case, or a command in the database. *)
Ltac keep := repeat (eauto with netem_keeps || (apply keeps_bind; [|intros ?]) || case_match).

Lemma keeps_chance p c : keeps (chance p c).
Proof. unfold chance, get_crandom, prandom_u32. keep. Qed.

Lemma keeps_loss skb : keeps (netem_loss skb).
Proof.
  unfold netem_loss, loss_event, loss_4state, loss_gilb_ell, chance, get_crandom, prandom_u32, cfg, count_drop. keep.
Qed.

Lemma keeps_drop skb : keeps (nm_drop skb).
Proof. unfold nm_drop. keep. Qed.
#[local] Hint Resolve keeps_chance keeps_loss keeps_drop : netem_keeps.

Lemma keeps_corrupt skb : keeps (netem_corrupt skb).
Proof. unfold netem_corrupt, netem_segment, corrupt_first, skb_unshare, flip_bit, prandom_u32, count_drop, cfg. keep. Qed.

Lemma keeps_one skb : keeps (enqueue_one skb).
Proof.
  unfold enqueue_one, delays, enqueue_delayed, enqueue_reordered, tabledist, get_crandom, prandom_u32,
    ktime_get_ns, rate_delay, last_due, tfifo_enqueue, cfg. keep.
Qed.
#[local] Hint Resolve keeps_corrupt keeps_one : netem_keeps.

Lemma keeps_segs enq segs nb len : (∀ skb, keeps (enq skb)) → keeps (segs_loop enq segs nb len).
Proof.
  intros Henq. revert nb len. induction segs as [|seg segs IH]; intros nb len; cbn [segs_loop]; unfold count_drop; keep.
Qed.

Lemma keeps_finish enq segs len : (∀ skb, keeps (enq skb)) → keeps (finish_segs enq segs len).
Proof. intros Henq. unfold finish_segs. pose proof (keeps_segs enq). keep. Qed.

Lemma set_duplicate_twice c d : cfg_set_duplicate (duplicate c) (cfg_set_duplicate d c) = c.
Proof. by destruct c. Qed.

(** The duplicate is enqueued with duplication switched off, and it is switched
    on again. *)
Lemma keeps_duplicate enq skb : (∀ skb, keeps (enq skb)) → keeps (netem_duplicate enq skb).
Proof.
  intros Henq. unfold netem_duplicate. apply keeps_bind; [auto with netem_keeps|]. intros [a|]; [|auto with netem_keeps].
  intros s v s'. unfold cbind at 1, cfg, gets. unfold cbind at 1, modify at 1. unfold cbind at 1.
  destruct (enq _ _) as [[r s1]|] eqn:E; [|done]. intros [= <- <-]. simpl. rewrite (Henq _ _ _ _ E). simpl.
  apply set_duplicate_twice.
Qed.

Lemma keeps_enqueue fuel : ∀ skb, keeps (netem_enqueue fuel skb).
Proof.
  induction fuel as [|fuel IH]; intros skb; cbn [netem_enqueue]; [keep|].
  unfold count_drop, cfg.
  pose proof (λ skb, keeps_duplicate _ skb IH) as Hdup. pose proof (λ segs len, keeps_finish _ segs len IH) as Hsegs. keep.
Qed.

(** ** The depth *)

(** Two binds agree if their commands do, and their continuations agree on what
    the command returns. *)
Lemma bind_agree2 {A B} (c1 c2 : M (netem Q) A) (k1 k2 : A → M (netem Q) B) s : c1 s = c2 s →
  (∀ v s', c1 s = Some (v, s') → k1 v s' = k2 v s') → cbind c1 k1 s = cbind c2 k2 s.
Proof. intros Hc Hk. unfold cbind. rewrite <- Hc. destruct (c1 s) as [[v s']|]; auto. Qed.

Lemma bind_agree {A B} (c : M (netem Q) A) (k1 k2 : A → M (netem Q) B) s :
  (∀ v s', c s = Some (v, s') → k1 v s' = k2 v s') → cbind c k1 s = cbind c k2 s.
Proof. by apply bind_agree2. Qed.

Definition is_dup s : nat := if duplicate (nm_cfg s) =? 0 then 0 else 1.

Definition is_gso skb : nat := if skb_is_gso skb then 1 else 0.

(** The depth of the calls that enqueue [skb]. *)
Definition depth s skb : nat := (1 + is_dup s + is_gso skb)%nat.

Lemma loss_gso `{!NetemGsoOk} skb s v s' : netem_loss skb s = Some (v, s') → skb_is_gso v.2 = skb_is_gso skb.
Proof.
  unfold netem_loss. unfold cbind at 1. destruct (loss_event s) as [[[] s1]|]; [|by intros [= <- <-]|done].
  cbn [negb]. unfold cbind at 1, cfg, gets. case_match; [|by intros [= <- <-]].
  pose proof (gso_ecn skb) as Hecn. destruct (INET_ECN_set_ce skb) as [[] skb'];
    unfold cbind, count_drop, modify, cret; by intros [= <- <-].
Qed.

(** The segments that are left after the corruption are those of a packet that
    can be segmented, and cannot be segmented themselves. *)
Lemma corrupt_segs `{!NetemGsoOk} skb s c s' : netem_corrupt skb s = Some (c, s') →
  match c with
  | CReturn => True
  | CFinish segs | CContinue _ segs =>
      segs = [] ∨ skb_is_gso skb = true ∧
        Forall (λ seg, skb_is_gso (qdisc_calculate_pkt_len (nm_seg_skb seg)) = false) segs
  end.
Proof.
  assert (∀ skb0 segs s0 c s1, corrupt_first skb0 segs s0 = Some (c, s1) →
    match c with CReturn => True | CFinish segs' | CContinue _ segs' => segs' = segs end) as Hfirst.
  { intros skb0 segs s0 c' s1. unfold corrupt_first. unfold cbind at 1. destruct (skb_unshare skb0 s0) as [[[u|] s2]|]; [| |done].
    - unfold cbind at 1. destruct ((if skb_csum_partial u then next checksum_at else cret 0) s2) as [[err s3]|]; [|done].
      destruct (negb (err =? 0)); unfold cbind.
      + destruct (nm_drop u s3) as [[? ?]|]; [|done]. by intros [= <- <-].
      + destruct (flip_bit u s3) as [[? ?]|]; [|done]. by intros [= <- <-].
    - unfold cbind, count_drop, modify. by intros [= <- <-]. }
  unfold netem_corrupt. unfold cbind at 1, cfg, gets. unfold cbind at 1.
  destruct (chance _ _ s) as [[b s1]|]; [|done]. destruct (negb b); [intros [= <- <-]; by left|].
  destruct (skb_is_gso skb) eqn:Eg; [|intros Hc; apply Hfirst in Hc; destruct c; auto].
  unfold cbind at 1. destruct (netem_segment skb s1) as [[segs s2]|] eqn:Es; [|done].
  destruct segs as [[|seg segs]|]; try (by intros [= <- <-]).
  intros Hc. apply Hfirst in Hc. assert (skb_gso_segment skb = Some (seg :: segs)) as Hseg.
  { revert Es. unfold netem_segment, cbind. destruct (skb_gso_segment skb) as [[|x xs]|];
      [destruct (nm_drop skb s1) as [[? ?]|]|unfold modify|destruct (nm_drop skb s1) as [[? ?]|]]; by intros [=-> ->] || done. }
  apply gso_segments in Hseg; [|done]. apply Forall_cons_iff in Hseg as [_ Hseg]. destruct c; subst; auto.
Qed.

Lemma finish_agree enq1 enq2 segs len : (∀ skb, keeps (enq1 skb)) → ∀ s,
  (∀ seg s', seg ∈ segs → nm_cfg s' = nm_cfg s →
     enq1 (qdisc_calculate_pkt_len (nm_seg_skb seg)) s' = enq2 (qdisc_calculate_pkt_len (nm_seg_skb seg)) s') →
  finish_segs enq1 segs len s = finish_segs enq2 segs len s.
Proof.
  intros Hk s Heq. unfold finish_segs. destruct segs as [|seg segs]; [done|].
  assert (segs_loop enq1 (seg :: segs) 0 0 s = segs_loop enq2 (seg :: segs) 0 0 s) as Hl; [|unfold cbind; by rewrite Hl].
  revert s Heq. generalize (seg :: segs) as l. generalize 0 at 1 3 as nb. generalize 0 as n. clear seg segs.
  intros n nb l. revert n nb. induction l as [|seg segs IH]; intros n nb s Heq; [done|]. cbn [segs_loop].
  unfold cbind at 1 3. rewrite (Heq seg s) by (by left || done).
  destruct (enq2 _ s) as [[rc s1]|] eqn:E; [|done]. rewrite <- (Heq seg s) in E by (by left || done).
  apply Hk in E. destruct (negb _).
  - apply bind_agree. intros [] s2 Hs2. apply IH. intros seg' s' Hin Hc. apply Heq; [by right|].
    rewrite Hc, <- E. revert Hs2. unfold count_drop. case_match; by intros [= <-].
  - apply IH. intros seg' s' Hin Hc. apply Heq; [by right|]. by rewrite Hc, E.
Qed.

Lemma duplicate_agree enq1 enq2 skb s : (∀ a s', duplicate (nm_cfg s') = 0 →
     enq1 (set_skb_id a skb) s' = enq2 (set_skb_id a skb) s') →
  netem_duplicate enq1 skb s = netem_duplicate enq2 skb s.
Proof.
  intros Heq. unfold netem_duplicate. apply bind_agree. intros [a|] s1 _; [|done]. apply bind_agree. intros d s2 _.
  unfold cbind at 1 3, modify. unfold cbind. by rewrite Heq.
Qed.

(** With fuel for the depth, more fuel changes nothing. *)
Lemma enqueue_agree `{!NetemGsoOk} f1 : ∀ f2 skb s, (depth s skb ≤ f1)%nat → (depth s skb ≤ f2)%nat →
  netem_enqueue f1 skb s = netem_enqueue f2 skb s.
Proof.
  induction f1 as [|f1 IH]; intros f2 skb s Hf1 Hf2; [unfold depth in Hf1; lia|].
  destruct f2 as [|f2]; [unfold depth in Hf2; lia|]. cbn [netem_enqueue]. unfold depth in Hf1, Hf2.
  assert (∀ skb' s' segs len, nm_cfg s' = nm_cfg s → skb_is_gso skb' = skb_is_gso skb →
    (segs = [] ∨ skb_is_gso skb' = true ∧
       Forall (λ seg, skb_is_gso (qdisc_calculate_pkt_len (nm_seg_skb seg)) = false) segs) →
    finish_segs (netem_enqueue f1) segs len s' = finish_segs (netem_enqueue f2) segs len s') as Hsegs.
  { intros skb' s' segs len Hc Hg [->|[Hg' Hall]]; [done|]. apply finish_agree; [apply keeps_enqueue|].
    intros seg s2 Hin Hc2. rewrite list.Forall_forall in Hall. specialize (Hall _ Hin).
    unfold is_gso in Hf1, Hf2. rewrite <- Hg, Hg' in Hf1, Hf2.
    assert (is_dup s2 = is_dup s) as Hd by (unfold is_dup; by rewrite Hc2, Hc).
    apply IH; unfold depth, is_gso; rewrite Hall, Hd; lia. }
  unfold cfg. apply bind_agree. intros p s0 [= <- <-]. apply bind_agree. intros dup s1 Hs1.
  apply bind_agree. intros l s2 Hs2. case_match; [done|].
  pose proof (keeps_chance _ _ _ _ _ Hs1) as Hc1. pose proof (keeps_loss _ _ _ _ Hs2) as Hc2.
  pose proof (loss_gso _ _ _ _ Hs2) as Hg. rewrite Hc1 in Hc2.
  assert ((if 1 <? 1 + Z.b2z dup - Z.b2z l.1 then netem_duplicate (netem_enqueue f1) l.2 else cret NET_XMIT_DROP) s2
    = (if 1 <? 1 + Z.b2z dup - Z.b2z l.1 then netem_duplicate (netem_enqueue f2) l.2 else cret NET_XMIT_DROP) s2) as Hd.
  { destruct (Z.ltb_spec 1 (1 + Z.b2z dup - Z.b2z l.1)) as [Hcount|]; [|done].
    assert (is_dup s = 1%nat) as Hdup.
    { destruct dup; [|by destruct l.1; simpl in Hcount; lia]. unfold is_dup. revert Hs1. unfold chance.
      destruct (duplicate (nm_cfg s) =? 0); [by intros [=]|done]. }
    apply duplicate_agree. intros a s' Hz. apply IH; unfold depth, is_gso in *; rewrite gso_clone, Hg;
      unfold is_dup at 1; rewrite Hz; simpl; lia. }
  apply bind_agree2; [exact Hd|]. intros rc s3 E3.
  assert (nm_cfg s3 = nm_cfg s) as Hc3.
  { rewrite <- Hc2. revert E3. case_match; [|by intros [= <- <-]]. apply keeps_duplicate, keeps_enqueue. }
  apply bind_agree. intros c s4 Hs4. pose proof (corrupt_segs _ _ _ _ Hs4) as Hcs. apply keeps_corrupt in Hs4.
  rewrite Hc3 in Hs4. destruct c as [|segs|skb' segs]; [done|by apply (Hsegs l.2)|].
  apply bind_agree. intros q s5 [= <- <-]. apply bind_agree. intros lim s6 [= <- <-].
  destruct (_ <=? _); [done|].
  apply bind_agree. intros [] s7 Hs7. apply keeps_one in Hs7. apply (Hsegs l.2); [by rewrite Hs7|done|done].
Qed.
End fuel.
