(* ===== verification/NetemTheorems.v ===== *)
(** * What netem guarantees

    The properties of sch_netem.c: as a delay line, with its rate and its
    watchdog, and on a queue as it is set up.  The kernel of the examples is
    the concrete one of SchedSample.v. *)

From Stdlib Require Import ZArith Lia.
From stdpp Require Import base numbers list gmap option sets sorting.
From S2P Require Import Prelude Sched Tbf Fifo SchedSample RbCode RbTree RbRefine RbMem SeqBuf NetemRand Netem NetemConf NetemFifo NetemLine NetemRate NetemQueue NetemFuel.

Open Scope Z_scope.

(** ** A queue as [qdisc_alloc] returns it *)

Definition cfg_zero : netem_cfg := {|
  latency := 0; jitter := 0; loss := 0; ecn := 0; nlimit := 0; gap := 0; duplicate := 0; reorder := 0;
  corrupt := 0; nrate := 0; packet_overhead := 0; cell_size := 0; cell_size_reciprocal := RValue 0 0 0;
  cell_overhead := 0; loss_model := CLG_RANDOM; delay_dist := None; slot_dist := None;
  slot_config := Slot 0 0 0 0 0 0 |}.

Definition netem_zero `{NetemEnv} (Q : Type) : netem Q :=
  let z := Crnd 0 0 in
  Netem cfg_zero (Cors z z z z z) (Clg 0 0 0 0 0 0) (SlotState 0 0 0) 0 (Heap {[t_root := NULL]} ∅) [] None
    {| wd_last_expires := 0; wd_timer := None |} (QHead [] 0) 0
    {| gq_backlog := 0; gq_drops := 0; gq_overlimits := 0 |} 0 {| gb_bytes := 0; gb_packets := 0 |} 0 [] [] [].

Section line.
Context `{KernelHeaders} `{NetemHeaders} `{NetemEnv} `{ReciprocalDiv} `{!NetemHeadersOk} {Q : Type} `{ChildQdisc Q}.

Lemma due_nil : due (Heap {[t_root := NULL]} ∅) [] [].
Proof.
  exists E, []. split; [|done]. split; [split| | |].
  - split; [by apply rep_E, lookup_singleton_eq|exists 0%nat; constructor|done|constructor].
  - done.
  - constructor.
  - intros a n Ha. simpl in Ha. by rewrite lookup_empty in Ha.
  - constructor.
  - done.
  - apply NoDup_nil_2.
Qed.

(** The queue after [netem_init]. *)
Lemma init_implements qopt r r64 : let c := line_change qopt r r64 cfg_zero in
  plain c → no_limit qopt < 2 ^ 31 →
  ∃ s, netem_init (Some (inr (qopt, rate_tb r r64))) (netem_zero Q) = Some (0, s) ∧
    implements s (Dline c (no_limit qopt) [] 0).
Proof.
  intros c Hp Hl. destruct r as [r|], r64 as [r64|]; (eexists; split; [reflexivity|]);
    split; try done; apply due_nil.
Qed.

(** The queue the drivers set up and a run of it. *)
Definition plain_run qopt r r64 es : M (netem Q) (list (Z * sk_buff)) :=
  let* _ := netem_init (Some (inr (qopt, rate_tb r r64))) in netem_run es.

(** The delay line it implements. *)
Definition plain_line qopt r r64 : dline := Dline (line_change qopt r r64 cfg_zero) (no_limit qopt) [] 0.

Lemma plain_run_sim qopt r r64 es : let d := plain_line qopt r r64 in
  plain (dl_cfg d) → no_limit qopt < 2 ^ 31 → events_ok es d →
  ∃ s', plain_run qopt r r64 es (netem_zero Q) = Some ((line_run es d).2, s') ∧ implements s' (line_run es d).1.
Proof.
  intros d Hp Hl Hok. destruct (init_implements qopt r r64 Hp Hl) as (s & Hi & Him).
  destruct (run_sim es s d Him Hok) as (s' & Hr & Him'). exists s'. unfold plain_run, cbind. by rewrite Hi.
Qed.



End line.

(** ** Changes of the configuration *)

Section change.
Context `{KernelHeaders} `{NetemHeaders} `{NetemEnv} `{ReciprocalDiv} {Q : Type} `{ChildQdisc Q}.
Implicit Types (s : netem Q).

(** The queue, the statistics and the timer. *)
Record same_queue s s' : Prop := {
  sq_heap : nm_tree s' = nm_tree s;
  sq_times : nm_list s' = nm_list s;
  sq_head : nm_q s' = nm_q s;
  sq_below : nm_child s' = nm_child s;
  sq_timer : nm_watchdog s' = nm_watchdog s;
  sq_stats : (nm_qstats s', nm_requeues s', nm_bstats s') = (nm_qstats s, nm_requeues s, nm_bstats s);
  sq_freed : nm_freed s' = nm_freed s;
}.

#[local] Instance same_queue_preorder : PreOrder same_queue.
Proof. split; [by intros s|]. intros s1 s2 s3 [] []. split; congruence. Qed.

Abbreviation calm s c := (returns same_queue s c (λ _, True)).

Lemma calm_bind {A B} s (c : M (netem Q) A) (k : A → M (netem Q) B) :
  calm s c → (∀ v s', calm s' (k v)) → calm s (cbind c k).
Proof. intros Hc Hk. eapply (returns_bind same_queue); [exact Hc|auto]. Qed.

Lemma calm_modify s f : same_queue s (f s) → calm s (modify f).
Proof. intros Hf. by eexists _, _. Qed.

Lemma calm_next {A} s (f : nat → A) : calm s (next f).
Proof. by eexists _, _. Qed.

Lemma calm_when {A} s (o : option A) f : (∀ a s', calm s' (f a)) → calm s (when o f).
Proof. intros Hf. destruct o; [apply Hf|by exists tt, s]. Qed.

Create HintDb calm.
#[local] Hint Resolve calm_next : calm.
#[local] Hint Extern 1 (returns _ _ (modify _) _) => by apply calm_modify : calm.
#[local] Hint Extern 1 (returns _ _ (cret _) _) => by apply (returns_ret same_queue) : calm.

Ltac calm_step := repeat (eauto with calm || (apply calm_bind; [|intros ? ?]) || (apply calm_when; intros ? ?)).

Lemma calm_install s qopt tb : calm s (netem_install qopt tb).
Proof.
  unfold netem_install, get_correlation, get_reorder, get_corrupt, init_crandom, prandom_u32, get_slot, ktime_get_ns.
  calm_step. case_match; calm_step.
Qed.

(** The attributes of the loss model change the model and its state. *)
Lemma get_loss_clg_spec attrs : ∀ s, ∃ r m clg,
  get_loss_clg attrs s = Some (r, upd_clg (λ _, clg) (upd_cfg (cfg_set_loss_model m) s)).
Proof.
  induction attrs as [|[] attrs IH]; intros s; cbn [get_loss_clg].
  - exists 0, (loss_model (nm_cfg s)), (nm_clg s). by destruct s as [[]].
  - case_match; [exists (- EINVAL), (loss_model (nm_cfg s)), (nm_clg s); by destruct s as [[]]|].
    unfold cbind, modify. destruct (IH (upd_clg (λ _, Clg TX_IN_GAP_PERIOD p13 p31 p32 p14 p23)
      (upd_cfg (cfg_set_loss_model CLG_4_STATES) s))) as (r & m & clg & ->). by eexists r, m, clg.
  - case_match; [exists (- EINVAL), (loss_model (nm_cfg s)), (nm_clg s); by destruct s as [[]]|].
    unfold cbind, modify. destruct (IH (upd_clg (λ c, Clg GOOD_STATE p r h k1 (a5 c))
      (upd_cfg (cfg_set_loss_model CLG_GILB_ELL) s))) as (r' & m & clg & ->). by eexists r', m, clg.
  - exists (- EINVAL), (loss_model (nm_cfg s)), (nm_clg s). by destruct s as [[]].
Qed.

Lemma change_dist_spec o set s : ∃ r s', change_dist o set s = Some (r, s') ∧
  ∃ k, if r =? 0 then s' = upd_tick (λ _, k) s ∨ ∃ d, s' = upd_cfg (set d) (upd_tick (λ _, k) s)
       else s' = upd_tick (λ _, k) s.
Proof.
  unfold change_dist. destruct o as [data|].
  - unfold get_dist_table. case_match; unfold cbind, cret, next, modify.
    + eexists _, _. split; [done|]. exists (nm_tick s). by destruct s.
    + destruct (malloc_at (nm_tick s)); eexists _, _; (split; [done|]); exists (S (nm_tick s)); simpl; eauto.
  - eexists _, _. split; [done|]. exists (nm_tick s). left. by destruct s.
Qed.

(** After an error, at most the delay distribution is new. *)
Lemma change_dists_spec tb s : ∃ r s', change_dists tb s = Some (r, s') ∧ same_queue s s' ∧
  nm_clg s' = nm_clg s ∧
  (r ≠ 0 → ∃ k d, s' = upd_tick (λ _, k) (upd_cfg (λ c, cfg_set_dists d (slot_dist c) c) s)).
Proof.
  assert (∀ s0 k, upd_tick (λ _, k) s0 = upd_tick (λ _, k) (upd_cfg (λ c, cfg_set_dists (delay_dist c) (slot_dist c) c) s0)) as Hid
    by (intros [[]] k; done).
  unfold change_dists, cbind.
  destruct (change_dist_spec (tb_delay_dist tb) (λ d c, cfg_set_dists (Some d) (slot_dist c) c) s) as (r1 & s1 & -> & k1 & Hs1).
  destruct (Z.eqb_spec r1 0) as [->|Hr1]; simpl.
  - destruct (change_dist_spec (tb_slot_dist tb) (λ d c, cfg_set_dists (delay_dist c) (Some d) c) s1) as (r2 & s2 & -> & k2 & Hs2).
    exists r2, s2. split; [done|]. assert (same_queue s s1 ∧ nm_clg s1 = nm_clg s) as [Hq Hc]
      by (destruct Hs1 as [->|[d ->]]; done).
    destruct (Z.eqb_spec r2 0) as [->|Hr2].
    + split; [destruct Hs2 as [->|[d ->]], Hq; split; done|]. split; [destruct Hs2 as [->|[d ->]]; exact Hc|done].
    + subst s2. split; [by destruct Hq|]. split; [done|]. intros _. exists k2.
      destruct Hs1 as [->|[d ->]]; [exists (delay_dist (nm_cfg s)); by destruct s as [[]]|by exists (Some d)].
  - subst s1. eexists _, _. split; [done|]. split; [done|]. split; [done|]. intros _. exists k1, (delay_dist (nm_cfg s)).
    by destruct s as [[]].
Qed.

Lemma restore_state s m clg k d : let s1 := upd_clg (λ _, clg) (upd_cfg (cfg_set_loss_model m) s) in
  upd_cfg (cfg_set_loss_model (loss_model (nm_cfg s)))
    (upd_clg (λ _, nm_clg s) (upd_tick (λ _, k) (upd_cfg (λ c, cfg_set_dists d (slot_dist c) c) s1)))
  = upd_tick (λ _, k) (upd_clg (λ _, nm_clg s) (upd_cfg (λ c, cfg_set_dists d (slot_dist c) c) s)).
Proof. by destruct s as [[]]. Qed.

Lemma netem_change_spec opt s : ∃ r s', netem_change opt s = Some (r, s') ∧ same_queue s s' ∧
  (r ≠ 0 → ∃ k clg d,
     s' = upd_tick (λ _, k) (upd_clg (λ _, clg) (upd_cfg (λ c, cfg_set_dists d (slot_dist c) c) s))).
Proof.
  assert (∃ k clg d, s = upd_tick (λ _, k) (upd_clg (λ _, clg) (upd_cfg (λ c, cfg_set_dists d (slot_dist c) c) s))) as Hid
    by (exists (nm_tick s), (nm_clg s), (delay_dist (nm_cfg s)); by destruct s as [[]]).
  destruct opt as [[err|[qopt tb]]|]; [by exists err, s| |by exists (- EINVAL), s].
  cbn [netem_change]. unfold cbind at 1 2, cfg, gets. cbv beta iota.
  set (c1 := match tb_loss tb with Some attrs => _ | None => _ end).
  assert (∃ r m clg, c1 s = Some (r, upd_clg (λ _, clg) (upd_cfg (cfg_set_loss_model m) s))) as (r & m & clg & Hc1).
  { subst c1. destruct (tb_loss tb); [apply get_loss_clg_spec|]. exists 0, CLG_RANDOM, (nm_clg s). by destruct s. }
  unfold cbind at 1. rewrite Hc1. set (s1 := upd_clg _ _). destruct (Z.eqb_spec r 0) as [->|Hr]; cbn [negb Z.eqb].
  - unfold cbind at 1. destruct (change_dists_spec tb s1) as (r2 & s2 & -> & Hq & Hclg & Herr).
    destruct (Z.eqb_spec r2 0) as [->|Hr2]; cbn [negb Z.eqb].
    + destruct (calm_install s2 qopt tb) as (v & s3 & Hi & _ & Hq3). unfold cbind. rewrite Hi. exists 0, s3.
      split; [done|]. split; [|done]. transitivity s2; [|done]. by transitivity s1.
    + unfold cbind, modify. eexists _, _. split; [done|]. destruct (Herr Hr2) as (k & d & ->). split; [done|].
      intros _. exists k, (nm_clg s), d. apply restore_state.
  - unfold cbind, modify. eexists _, _. split; [done|]. split; [done|]. intros _.
    exists (nm_tick s), clg, (delay_dist (nm_cfg s)). by destruct s as [[]].
Qed.

(** C37: [netem_change] always returns, and no request touches a queued packet, the
    statistics or the timer.  A request that is refused changes nothing else
    either, but the state of the loss model and the delay distribution, which
    may already have been replaced. *)
Theorem netem_change_total opt s : ∃ r s', netem_change opt s = Some (r, s') ∧ same_queue s s' ∧
  (r ≠ 0 → ∃ k clg d,
     s' = upd_tick (λ _, k) (upd_clg (λ _, clg) (upd_cfg (λ c, cfg_set_dists d (slot_dist c) c) s))).
Proof. apply netem_change_spec. Qed.

(** A request that is refused after a part of it was taken over leaves the
    loss model with the new probabilities: the 4-state parameters of the first
    attribute stay although the second attribute makes the change fail, while
    the kind of the model is restored. *)
Theorem netem_failed_change_keeps_clg s qopt tb len p13 p31 p32 p14 p23 ty rest :
  tb_loss tb = Some (LossGI len p13 p31 p32 p14 p23 :: LossOther ty :: rest) → 20 ≤ len →
  ∃ s', netem_change (Some (inr (qopt, tb))) s = Some (- EINVAL, s') ∧
    nm_cfg s' = nm_cfg s ∧ nm_clg s' = Clg TX_IN_GAP_PERIOD p13 p31 p32 p14 p23.
Proof.
  intros Htb Hlen. cbn [netem_change]. unfold cbind at 1 2, cfg, gets. cbv beta iota. rewrite Htb.
  cbn [get_loss_clg]. rewrite (proj2 (Z.ltb_ge len 20)) by done. eexists. split; [reflexivity|].
  split; [by destruct s as [[]]|done].
Qed.

(** What a dump shows: the settings, and the slots. *)
Definition settings s :=
  let c := nm_cfg s in let k := nm_cors s in
  ((latency c, jitter c, nlimit c, loss c, gap c, duplicate c, reorder c, corrupt c),
   (nrate c, packet_overhead c, cell_size c, cell_overhead c, ecn c),
   (rho (delay_cor k), rho (loss_cor k), rho (dup_cor k), rho (reorder_cor k), rho (corrupt_cor k)),
   dump_loss_model s).

Definition shown s := (settings s, dump_slot (slot_config (nm_cfg s))).

Lemma dump_slot_has c c' : dump_slot c = dump_slot c' → has_slot c = has_slot c'.
Proof. unfold dump_slot. by destruct (has_slot c), (has_slot c'). Qed.

Lemma dump_shown room s s' : shown s = shown s' → netem_dump room s = netem_dump room s'.
Proof.
  intros [= Hl Hj Hn Hlo Hg Hd Hr Hc Hrt Hpo Hcs Hco He R1 R2 R3 R4 R5 Hm Hs]. unfold netem_dump.
  by rewrite Hl, Hj, Hn, Hlo, Hg, Hd, Hr, Hc, Hrt, Hpo, Hcs, Hco, He, R1, R2, R3, R4, R5, Hm, Hs, (dump_slot_has _ _ Hs).
Qed.

(** A limit of a slot: zero in a message stands for [INT_MAX]. *)
Lemma slot_limit_roundtrip x : let m := if x =? INT_MAX then 0 else x in
  let y := if m =? 0 then INT_MAX else m in (if y =? INT_MAX then 0 else y) = m.
Proof.
  simpl. destruct (Z.eqb_spec x INT_MAX); [done|]. destruct (Z.eqb_spec x 0) as [->|]; [done|].
  by rewrite (proj2 (Z.eqb_neq x INT_MAX)).
Qed.

Lemma get_slot_shown c sl s : dump_slot c = Some sl →
  ∃ s', get_slot sl s = Some (tt, s') ∧ dump_slot (slot_config (nm_cfg s')) = dump_slot c ∧
    nm_cfg s' = cfg_set_slot (slot_config (nm_cfg s')) (nm_cfg s) ∧
    nm_cors s' = nm_cors s ∧ nm_clg s' = nm_clg s.
Proof.
  unfold dump_slot at 1. destruct (has_slot c) eqn:Hs; [|done]. intros [= <-]. unfold get_slot. cbv zeta.
  cbn [min_delay max_delay max_packets max_bytes dist_delay dist_jitter]. unfold cbind at 1, modify.
  set (sl := Slot _ _ _ _ _ _). assert (has_slot sl = true) as Hs' by exact Hs. rewrite Hs'.
  unfold cbind, ktime_get_ns, next. eexists. split; [done|]. cbn -[dump_slot sl]. split; [|done].
  unfold dump_slot. rewrite Hs, Hs'. unfold sl. cbn [min_delay max_delay max_packets max_bytes dist_delay dist_jitter].
  by rewrite !slot_limit_roundtrip.
Qed.

Lemma slot_shown s s1 : slot_config (nm_cfg s1) = slot_config cfg_zero → settings s1 = settings s →
  ∃ s', when (dump_slot (slot_config (nm_cfg s))) get_slot s1 = Some (tt, s') ∧ shown s' = shown s.
Proof.
  intros Hz Hset. destruct (dump_slot (slot_config (nm_cfg s))) as [sl|] eqn:Es; cbn [when].
  - destruct (get_slot_shown _ sl s1 Es) as (s' & Hg & Hd & Hc & Hk & Hl). exists s'. split; [done|].
    unfold shown. rewrite Hd. f_equal. rewrite <- Hset. unfold settings, dump_loss_model. by rewrite Hk, Hl, Hc.
  - exists s1. split; [done|]. unfold shown. by rewrite Hset, Hz, Es.
Qed.

(** The configuration of a dump, installed into a new queue. *)
Lemma install_shown room s qopt tb s1 : netem_dump room s = Some (qopt, tb) →
  ecn (nm_cfg s1) = 0 → slot_config (nm_cfg s1) = slot_config cfg_zero → dump_loss_model s1 = dump_loss_model s →
  Forall (λ c, 0 ≤ rho c < 2 ^ 32)
    [delay_cor (nm_cors s); loss_cor (nm_cors s); dup_cor (nm_cors s); reorder_cor (nm_cors s); corrupt_cor (nm_cors s)] →
  ∃ s', netem_install qopt tb s1 = Some (tt, s') ∧ shown s' = shown s.
Proof.
  intros Hd He Hsl Hm Hr. unfold netem_dump in Hd. destruct (_ && _); [|done]. injection Hd as <- <-.
  rewrite !Forall_cons_iff in Hr. destruct Hr as (R1 & R2 & R3 & R4 & R5 & _).
  destruct s1 as [c1 [d1 o1 u1 r1 x1] g1 sl1 n1 t1 l1 ch1 w1 q1 lim1 st1 rq1 b1 k1 f1 z1 y1].
  destruct s as [c [d o u r x] g sl n t l ch w q lim st rq b k f z y]. unfold dump_loss_model in Hm.
  cbn [nm_cfg nm_clg nm_cors delay_cor loss_cor dup_cor reorder_cor corrupt_cor] in *.
  pose proof (slot_shown (Netem c (Cors d o u r x) g sl n t l ch w q lim st rq b k f z y)) as Hslot.
  cbn [nm_cfg] in Hslot. revert Hslot. generalize (dump_slot (slot_config c)) as slots. intros slots Hslot.
  destruct (Z.eqb_spec (ecn c) 0) as [Hz|Hz], (Z.leb_spec (2 ^ 32) (nrate c)) as [Hb|Hb];
  cbv beta iota zeta delta [netem_install when cbind cret modify next get_correlation get_reorder get_corrupt init_crandom
    prandom_u32 tb_corr tb_reorder tb_corrupt tb_rate tb_nrate64 tb_latency64 tb_jitter64 tb_ecn tb_slot
    upd_cfg upd_cors upd_tick upd_limit upd_counter set_cor nm_cfg nm_cors nm_clg nm_slot nm_counter nm_tree nm_list
    nm_child nm_watchdog nm_q nm_limit nm_qstats nm_requeues nm_bstats nm_tick nm_flips nm_freed nm_reduced];
    (match goal with |- ∃ s', _ ?x = _ ∧ _ => apply (Hslot x Hsl) end).
  all: unfold settings, dump_loss_model.
  all: cbn -[u32 Z.max Z.pow s64 PSCHED_TICKS2NS].
  all: rewrite Hm.
  all: rewrite !u32_small by done.
  all: try match type of Hz with _ = 0 => rewrite He, Hz end.
  all: rewrite ?Z.max_r by (unfold UINT_MAX; lia).
  all: done.
Qed.

(** C38: what [netem_dump] shows, [netem_init] sets up: a new queue configured with the
    dump of a queue has the same dump. *)
Theorem netem_dump_init_roundtrip room s o : netem_dump room s = Some o →
  Forall (λ c, 0 ≤ rho c < 2 ^ 32)
    [delay_cor (nm_cors s); loss_cor (nm_cors s); dup_cor (nm_cors s); reorder_cor (nm_cors s); corrupt_cor (nm_cors s)] →
  ∃ s', netem_init (Some (inr o)) (netem_zero Q) = Some (0, s') ∧ netem_dump room s' = Some o.
Proof.
  intros Hd Hr. destruct o as [qopt tb].
  assert (tb_loss tb = dump_loss_model s ∧ tb_delay_dist tb = None ∧ tb_slot_dist tb = None) as (Hloss & Hdd & Hsd).
  { unfold netem_dump in Hd. destruct (_ && _); [|done]. by injection Hd as <- <-. }
  set (s0 := upd_cfg (cfg_set_loss_model CLG_RANDOM) (upd_watchdog qdisc_watchdog_init (netem_zero Q))).
  assert (∃ s1, netem_init (Some (inr (qopt, tb))) (netem_zero Q) = (netem_install qopt tb ;;; cret 0) s1 ∧
    ecn (nm_cfg s1) = 0 ∧ slot_config (nm_cfg s1) = slot_config cfg_zero ∧ dump_loss_model s1 = dump_loss_model s)
    as (s1 & Hi & He & Hsl & Hm).
  { unfold netem_init, cbind at 1 2, modify at 1 2. fold s0. cbn [netem_change]. unfold cbind at 1 2, cfg, gets. cbv beta iota.
    rewrite Hloss. unfold cbind at 1, change_dists. rewrite Hdd, Hsd. unfold dump_loss_model at 1 3.
    destruct (loss_model (nm_cfg s)); eexists; (split; [reflexivity|]); done. }
  destruct (install_shown room s qopt tb s1 Hd He Hsl Hm Hr) as (s' & Hin & Hsh).
  exists s'. rewrite Hi. unfold cbind. rewrite Hin. split; [done|]. by rewrite (dump_shown room s' s Hsh).
Qed.
End change.

(** ** Any configuration *)

Section any.
Context `{KernelHeaders} `{NetemHeaders} `{NetemEnv} `{ReciprocalDiv} `{!NetemHeadersOk} `{!NetemDropsOk}.
Context {Q : Type} `{ChildQdisc Q}.
Implicit Types (s : netem Q).

(** [netem_init] leaves the queue empty. *)
Lemma init_queue_ok qopt tb s : netem_init (Some (inr (qopt, tb))) (netem_zero Q) = Some (0, s) →
  single (nm_cfg s) → nm_limit s < 2 ^ 31 → queue_ok s [] [] ∧ nm_freed s = [].
Proof.
  intros Hi Hsg Hlim. unfold netem_init, cbind at 1 2, modify in Hi. set (s0 := upd_cfg _ _) in Hi.
  destruct (netem_change_spec (Some (inr (qopt, tb))) s0) as (r & s' & Hc & [Ht Hl Hh Hb _ _ Hf] & _).
  rewrite Hc in Hi. injection Hi as -> ->. split; [|by rewrite Hf].
  split; rewrite ?Ht, ?Hl, ?Hh, ?Hb; try done. apply due_nil.
Qed.


(** A dequeue takes a reordered packet at once, and otherwise the packet of the
    time queue that is due first, among packets due at the same time the one
    that came first; it never takes one before its time, and it returns
    nothing only while the packet is not due or the slot is closed. *)
Theorem netem_dequeue_order s fr l deactivated : queue_ok s fr l →
  ∃ o s', netem_dequeue 1 deactivated s = Some (o, s') ∧
    match fr, l with
    | n :: _, _ => o = Some (ns_skb n)
    | [], [] => o = None
    | [], n :: l0 =>
        Forall (λ x, time_to_send n ≤ time_to_send x) l0 ∧
        (o = Some (ns_skb n) ∧ time_to_send n ≤ ktime_at (nm_tick s) ∧ due (nm_tree s') (nm_list s') l0 ∨
         o = None ∧ due (nm_tree s') (nm_list s') l ∧
           (ktime_at (nm_tick s) < time_to_send n ∨ ktime_at (nm_tick s) < slot_next (nm_slot s')))
    end.
Proof.
  intros Hok. destruct (dequeue_ok s fr l deactivated Hok) as (o & s' & fr' & l' & Hc & Hok' & _ & Hcase).
  exists o, s'. split; [done|]. destruct fr as [|n fr]; [destruct l as [|n l]|]; [naive_solver| |naive_solver].
  split.
  - pose proof (due_sorted _ _ _ (qo_due _ _ _ Hok)) as Hs. apply StronglySorted_cons in Hs as [Hs _]. exact Hs.
  - destruct Hcase as [_ [(-> & -> & Hle)|(-> & -> & Hwait)]]; [left|right]; (split; [done|]).
    + split; [done|apply Hok'].
    + split; [apply Hok'|done].
Qed.

(** A reset empties the queue, frees each packet that was in it once, stops the
    timer, and does not fail: the walk over the tree, which erases the node it
    stands on, meets every packet. *)
Theorem netem_reset_frees_all s fr l fuel : queue_ok s fr l → (length l < fuel)%nat →
  ∃ s', netem_reset fuel s = Some (tt, s') ∧ queue_ok s' [] [] ∧ qh_qlen (nm_q s') = 0 ∧
    nm_freed s' ≡ₚ nm_freed s ++ (ns_skb <$> fr ++ l) ∧ wd_timer (nm_watchdog s') = None.
Proof.
  intros Hok Hf. destruct (reset_ok fuel s fr l Hok Hf) as (s' & Hr & Hok' & Hh & Hw).
  exists s'. split; [done|]. split; [done|]. split; [apply Hok'|]. split; [|done].
  unfold holds in Hh. simpl in Hh. by rewrite app_nil_r in Hh.
Qed.
End any.

(** ** Recursion *)

Section recursion.
Context `{KernelHeaders} `{NetemHeaders} `{NetemEnv} `{ReciprocalDiv} `{!NetemGsoOk} {Q : Type} `{ChildQdisc Q}.

(** [netem_enqueue] calls itself to a depth of three at most: once for a
    duplicate, once for the segments of a packet it corrupts.  Whatever more is
    allowed, the result is the same. *)
Theorem netem_enqueue_depth skb (s : netem Q) fuel : (depth s skb ≤ fuel)%nat →
  (depth s skb ≤ 3)%nat ∧ netem_enqueue fuel skb s = netem_enqueue (depth s skb) skb s.
Proof.
  intros Hf. split; [unfold depth, is_dup, is_gso; repeat case_match; lia|]. by apply enqueue_agree.
Qed.

(** The attributes of a queue with a 64-bit jitter. *)
Definition jitter_tb (j : Z) : netem_tb := {|
  tb_corr := None; tb_delay_dist := None; tb_reorder := None; tb_corrupt := None; tb_loss := None;
  tb_rate := None; tb_ecn := None; tb_nrate64 := None; tb_latency64 := None; tb_jitter64 := Some j;
  tb_slot := None; tb_slot_dist := None |}.

(** A jitter of 2^31 ns, which [netem_change] accepts, makes every packet divide
    by zero: the jitter is truncated to 32 bits, and twice the result is zero
    modulo 2^32. *)
Theorem netem_jitter_divides_by_zero lat lim j : 0 < lim → j mod 2 ^ 32 = 2 ^ 31 →
  ∃ s, netem_init (Some (inr (NQopt lat lim 0 0 0 0, jitter_tb j))) (netem_zero Q) = Some (0, s) ∧
    ∀ fuel skb, netem_enqueue fuel skb s = None.
Proof.
  intros Hlim Hj. eexists. split; [reflexivity|]. intros [|fuel] skb; [done|].
  assert (s32 j = - 2 ^ 31) as Hs.
  { unfold s32. rewrite <- Zplus_mod_idemp_l, Hj. reflexivity. }
  match goal with |- _ ?x = None => set (s := x) end. cbn [netem_enqueue].
  unfold cbind at 1, cfg, gets. cbv beta iota. change (duplicate (nm_cfg s)) with 0. unfold cbind at 1. rewrite chance_zero.
  unfold cbind at 1. assert (netem_loss skb s = Some ((false, skb), s)) as -> by done. cbn [fst snd Z.b2z].
  change (1 + 0 - 0 =? 0) with false. change (1 <? 1 + 0 - 0) with false. cbv iota. unfold cbind at 1, cret at 1.
  unfold cbind at 1. assert (netem_corrupt skb s = Some (CContinue skb [], s)) as -> by done.
  unfold cbind at 1 2. change (nm_limit s) with lim. change (qh_qlen (nm_q s)) with 0.
  rewrite (proj2 (Z.leb_gt lim 0)) by done. unfold cbind at 1, enqueue_one. unfold cbind at 1, modify.
  unfold cbind at 1. set (s1 := upd_qstats _ s). assert (delays s1 = Some (true, s1)) as -> by done.
  unfold enqueue_delayed, cbind at 1, cfg, gets. cbn [id]. change (jitter (nm_cfg s1)) with j.
  change (delay_dist (nm_cfg s1)) with (@None (list Z)). unfold cbind at 1, tabledist. rewrite Hs.
  change (- 2 ^ 31 =? 0) with false. cbv iota. unfold cbind at 1.
  by destruct (get_crandom (Some DelayCor) s1) as [[rnd s2]|].
Qed.
End recursion.

(** ** Examples *)

(** A clock that advances 1000 ns between readings, and memory for copies. *)
Definition sample_env : NetemEnv := {|
  t_root := 8;
  prandom_at k := (Z.of_nat k * 2654435761) mod 2 ^ 32;
  ktime_at k := 1000 * Z.of_nat k;
  clone_at k := Some (2 ^ 20 + 64 * Z.of_nat k);
  unshare_at _ := Some None;
  checksum_at _ := 0;
  malloc_at _ := true;
|}.

Definition sample_nheaders : NetemHeaders := {|
  __NET_XMIT_BYPASS := 131072;
  INET_ECN_set_ce skb := (true, skb);
  skb_csum_partial _ := false;
  skb_headlen skb := skb_len skb;
  qdisc_qstats_backlog_inc skb st := set_backlog (u32 (gq_backlog st + pkt_len skb)) st;
  qdisc_drop_all skb segs st :=
    ({| gq_backlog := gq_backlog st; gq_drops := u32 (gq_drops st + 1 + Z.of_nat (length segs));
        gq_overlimits := gq_overlimits st |}, skb :: segs);
  qdisc_calculate_pkt_len skb := skb;
  __qdisc_enqueue_head n q := QHead (n :: qh_list q) (u32 (qh_qlen q + 1));
  __qdisc_dequeue_head q :=
    match qh_list q with
    | [] => (None, q)
    | n :: l => (Some n, QHead l (u32 (qh_qlen q - 1)))
    end;
  reset_queue q st := (QHead [] 0, set_backlog 0 st);
|}.

Definition sample_recip : ReciprocalDiv := {|
  reciprocal_value d := RValue d 0 0;
  reciprocal_divide a r := a / rv_m r;
|}.

(** A FIFO below, in case there is one. *)
Definition sample_child : ChildQdisc (list sk_buff) := {|
  cq_enqueue skb l := (0, l ++ [skb], []);
  cq_dequeue _ l := match l with [] => (None, []) | skb :: l => (Some skb, l) end;
  cq_reset _ _ := [];
  cq_handle _ := 65536;
|}.

#[local] Existing Instances sample_headers sample_env sample_nheaders sample_recip sample_child.

#[local] Instance sample_nheaders_ok : NetemHeadersOk.
Proof.
  split; simpl; try done.
  - by intros q ->.
  - by intros q n l ->.
Defined.

#[local] Instance sample_drops_ok : NetemDropsOk.
Proof. by split. Defined.

#[local] Instance sample_gso_ok : NetemGsoOk.
Proof.
  split; [done|done|]. intros skb segs Hg [= <-]. simpl in Hg |- *. apply andb_true_iff in Hg as [Hg1 Hg2].
  pose proof (Z.div_mod (skb_len skb) 2). pose proof (Z.mod_pos_bound (skb_len skb) 2).
  rewrite !Forall_cons_iff. split; [|split; [|constructor]]; apply andb_false_iff; left; apply Z.ltb_ge; cbn [skb_len]; lia.
Defined.

Definition npkt (id len : Z) : sk_buff := {| skb_id := id; skb_len := len; pkt_len := len |}.

(** A latency of 6400 ns, lowered to 640 ns after the first packet: the second
    packet goes into the tree and leaves first. *)
Definition sample_events : list nevent :=
  [NmEnqueue (npkt 1024 1000); NmChange (NQopt 10 1000 0 0 0 0) None None; NmEnqueue (npkt 2048 1000);
   NmDequeue false; NmDequeue false; NmEnqueue (npkt 4096 500); NmDequeue false; NmDequeue false; NmDequeue false].


(** One gigabit per second: the second packet waits for the first. *)
Definition sample_rate_events : list nevent :=
  [NmEnqueue (npkt 1024 1000); NmEnqueue (npkt 2048 250)] ++ replicate 20 (NmDequeue false).

Definition sample_rate : tc_netem_rate := NRate 125000000 0 0 0.


(** The state a command leaves. *)
Definition left_by {A} (c : M (netem (list sk_buff)) A) (s : netem (list sk_buff)) : netem (list sk_buff) :=
  match c s with Some (_, s') => s' | None => s end.

(** The state after some events on a queue as [netem_init] sets it up. *)
Definition state_after (qopt : tc_netem_qopt) (tb : netem_tb) (es : list nevent) : netem (list sk_buff) :=
  left_by (let* _ := netem_init (Some (inr (qopt, tb))) in netem_run es) (netem_zero _).


(** A new 4-state model with an unknown attribute after it. *)
Definition bad_loss_tb : netem_tb := {|
  tb_corr := None; tb_delay_dist := None; tb_reorder := None; tb_corrupt := None;
  tb_loss := Some [LossGI 20 1 2 3 4 5; LossOther 9];
  tb_rate := None; tb_ecn := None; tb_nrate64 := None; tb_latency64 := None; tb_jitter64 := None;
  tb_slot := None; tb_slot_dist := None |}.

Lemma netem_failed_change_keeps_clg_witness :
  tb_loss bad_loss_tb = Some [LossGI 20 1 2 3 4 5; LossOther 9] ∧
  ∃ s', netem_change (Some (inr (NQopt 0 0 0 0 0 0, bad_loss_tb))) (netem_zero (list sk_buff)) = Some (- EINVAL, s') ∧
    nm_cfg s' = nm_cfg (netem_zero (list sk_buff)) ∧ nm_clg s' = Clg TX_IN_GAP_PERIOD 1 2 3 4 5.
Proof.
  split; [reflexivity|].
  apply (netem_failed_change_keeps_clg _ _ _ 20 1 2 3 4 5 9 []); [reflexivity|lia].
Defined.

(** Everything that a dump shows. *)
Definition full_tb : netem_tb := {|
  tb_corr := Some (1000, 2000, 3000); tb_delay_dist := Some [100; -100]; tb_reorder := Some (500, 600);
  tb_corrupt := Some (700, 800); tb_loss := Some [LossGE 16 10 20 30 40];
  tb_rate := Some (NRate 4294967295 14 48 5); tb_ecn := Some 1; tb_nrate64 := Some 5000000000;
  tb_latency64 := Some 123456789; tb_jitter64 := Some 4321;
  tb_slot := Some (Slot 1000 2000 16 0 0 0); tb_slot_dist := None |}.

Lemma netem_dump_init_roundtrip_witness :
  let s := state_after (NQopt 5 100 1 2 3 4) full_tb [] in
  ∃ o s', netem_dump (λ _, true) s = Some o ∧
    netem_init (Some (inr o)) (netem_zero (list sk_buff)) = Some (0, s') ∧ netem_dump (λ _, true) s' = Some o.
Proof.
  cbv zeta. eexists. edestruct (netem_dump_init_roundtrip (λ _, true) (state_after (NQopt 5 100 1 2 3 4) full_tb [])) as (s' & Hi & Hd).
  - vm_compute. reflexivity.
  - apply (bool_decide_unpack _). vm_compute. exact I.
  - exists s'. split; [vm_compute; reflexivity|]. split; [exact Hi|exact Hd].
Defined.

(** Jitter, random loss, ECN off, reordering of every third packet, a rate and slots. *)
Definition busy_tb : netem_tb := {|
  tb_corr := Some (1000, 2000, 3000); tb_delay_dist := Some [8192; -8192; 0]; tb_reorder := Some (2000000000, 600);
  tb_corrupt := None; tb_loss := None; tb_rate := Some sample_rate; tb_ecn := None; tb_nrate64 := None;
  tb_latency64 := None; tb_jitter64 := Some 3000; tb_slot := Some (Slot 1000 2000 2 0 0 0); tb_slot_dist := None |}.

Definition busy_events : list nevent :=
  (NmEnqueue <$> ((λ i, npkt (1024 * Z.of_nat (S i)) 200) <$> seq 0 8)) ++ replicate 12 (NmDequeue false).


(** Two packets in the list and one at the front. *)
Definition three_packets : netem (list sk_buff) :=
  upd_q (λ _, QHead [Nskb (npkt 4096 100) 0] 3)
    (upd_limit (λ _, 10)
      (upd_list (λ _, [Nskb (npkt 1024 100) 0; Nskb (npkt 2048 100) 500]) (netem_zero (list sk_buff)))).

Lemma three_packets_ok : queue_ok three_packets [Nskb (npkt 4096 100) 0] [Nskb (npkt 1024 100) 0; Nskb (npkt 2048 100) 500].
Proof.
  split; try done.
  destruct due_nil as (t & ts & Hsq & Hm). pose proof (sq_tail _ _ _ _ Hsq) as Hts. simpl in Hts. subst ts.
  exists t, []. split; [|done]. split; [apply Hsq| |constructor|].
  - repeat constructor; done.
  - apply (bool_decide_unpack _); vm_compute; exact I.
Qed.

Lemma netem_dequeue_order_witness :
  ∃ o s', netem_dequeue 1 false three_packets = Some (o, s') ∧ o = Some (npkt 4096 100).
Proof.
  exact (netem_dequeue_order three_packets _ _ false three_packets_ok).
Defined.

Lemma netem_reset_frees_all_witness :
  ∃ s', netem_reset 3 three_packets = Some (tt, s') ∧ queue_ok s' [] [] ∧ qh_qlen (nm_q s') = 0 ∧
    nm_freed s' ≡ₚ [npkt 4096 100; npkt 1024 100; npkt 2048 100] ∧ wd_timer (nm_watchdog s') = None.
Proof.
  exact (netem_reset_frees_all three_packets _ _ 3 three_packets_ok (le_n 3)).
Defined.

(** Everything is duplicated and corrupted, with no more than a delay besides. *)
Definition dup_corrupt_tb : netem_tb := {|
  tb_corr := None; tb_delay_dist := None; tb_reorder := None; tb_corrupt := Some (UINT_MAX, 0);
  tb_loss := None; tb_rate := None; tb_ecn := None; tb_nrate64 := None;
  tb_latency64 := None; tb_jitter64 := None; tb_slot := None; tb_slot_dist := None |}.

Lemma netem_enqueue_depth_witness :
  let s := state_after (NQopt 100 1000 0 0 4294967295 0) dup_corrupt_tb [] in
  (fst <$> netem_enqueue 3 (npkt 1024 6000) s) = Some 0 ∧
  (depth s (npkt 1024 6000) ≤ 3)%nat ∧
  netem_enqueue 7 (npkt 1024 6000) s = netem_enqueue (depth s (npkt 1024 6000)) (npkt 1024 6000) s.
Proof.
  split; [vm_compute; reflexivity|]. apply netem_enqueue_depth. vm_compute. lia.
Defined.

Lemma netem_jitter_divides_by_zero_witness :
  2147483648 mod 2 ^ 32 = 2 ^ 31 ∧
  ∃ s, netem_init (Some (inr (NQopt 100 1000 0 0 0 0, jitter_tb 2147483648))) (netem_zero (list sk_buff)) = Some (0, s) ∧
    ∀ fuel skb, netem_enqueue fuel skb s = None.
Proof.
  split; [reflexivity|]. apply netem_jitter_divides_by_zero; reflexivity.
Defined.

(** The segments of a corrupted packet are counted twice.  A packet of two
    segments on an empty queue with a limit of three: the first segment is
    corrupted, two packets are queued, and the queue length is three, so that
    the next packet is dropped with room for one left; after two dequeues the
    queue is empty and its length is one. *)
Theorem netem_segments_counted_twice :
  let s := state_after (NQopt 1 3 0 0 0 0) dup_corrupt_tb [] in
  let s1 := left_by (netem_enqueue 3 (npkt 1024 6000)) s in
  let s2 := left_by (netem_run [NmDequeue false; NmDequeue false]) s1 in
  fst <$> netem_enqueue 3 (npkt 1024 6000) s = Some NET_XMIT_SUCCESS ∧
  skb_len ∘ ns_skb <$> nm_list s1 = [3000; 3000] ∧ qh_qlen (nm_q s1) = 3 ∧
  fst <$> netem_enqueue 3 (npkt 8192 100) s1 = Some NET_XMIT_DROP ∧
  nm_list s2 = [] ∧ qh_qlen (nm_q s2) = 1.
Proof. vm_compute. repeat split. Qed.
