(* ===== verification/NetemDriver.v ===== *)
(** * What netem.c does to the queues

    The requests of the driver netem.c (src/tbf/netem.c) decoded the way
    [netem_change] reads its options, and their effect: after a round both
    queues are delay lines with the rate and the latency of the entry of the
    table whose turn it is, and the packets in them stay. *)

From Stdlib Require Import ZArith Lia.
From stdpp Require Import base numbers list gmap option sets sorting.
From S2P Require Import Prelude Sched Tbf SchedSample RbCode SeqBuf Netlink NetlinkTheorems TcCore Driver DriverTheorems NetemRand Netem NetemConf NetemFifo NetemLine NetemTheorems.

Open Scope Z_scope.

(** ** Decoding *)

Definition TCA_NETEM_MAX : Z := 13.

(** The types of attributes other than the two rates. *)
Definition other_types : list Z := [1; 2; 3; 4; 5; 7; 10; 11; 12; 13].

Definition dec_netem_qopt (bs : list Z) : tc_netem_qopt :=
  NQopt (unle (sub 0 4 bs)) (unle (sub 4 4 bs)) (unle (sub 8 4 bs)) (unle (sub 12 4 bs)) (unle (sub 16 4 bs))
    (unle (sub 20 4 bs)).

Definition dec_netem_rate (bs : list Z) : tc_netem_rate :=
  NRate (unle (sub 0 4 bs)) (s32 (unle (sub 4 4 bs))) (unle (sub 8 4 bs)) (s32 (unle (sub 12 4 bs))).

(** The attributes after the fixed structure, if none but the rates are there. *)
Definition decode_rates (opts len : Z) : M (list Z) (option netem_tb) :=
  let* r := parse_rtattr TCA_NETEM_MAX (RTA_DATA opts + NLA_ALIGN 24) (len - NLA_ALIGN 24) in
  if forallb (λ ty, bool_decide (r.1 !! ty = None)) other_types then
    let* rate := payload r.1 TCA_NETEM_RATE in
    let* rate64 := payload r.1 TCA_NETEM_RATE64 in
    cret (Some (rate_tb (dec_netem_rate <$> rate) (unle <$> rate64)))
  else cret None.

(** The device, the kind, and the options as [parse_attr] takes them apart; [None]
    if there are none, or others than the rates. *)
Definition decode_netem : M (list Z) (Z * option (list Z) * option (Z + tc_netem_qopt * netem_tb)) :=
  let* ifindex := get32 20 in
  let* n := nlmsg_len in
  let* r := parse_rtattr 15 TCMSG_LENGTH (n - TCMSG_LENGTH) in
  let* kind := payload r.1 TCA_KIND in
  match r.1 !! TCA_OPTIONS with
  | None => cret (ifindex, kind, None)
  | Some opts =>
      let* l := rta_len opts in
      let* fixed := nl_read (RTA_DATA opts) 24 in
      let* tb := decode_rates opts (RTA_PAYLOAD l) in
      cret (ifindex, kind,
            match tb with
            | Some tb => Some (netem_opt (RTA_PAYLOAD l) (dec_netem_qopt fixed) (inr tb))
            | None => None
            end)
  end.

(** ** The request *)

Section request.
Variables (latency limit rate64 : Z).
Hypotheses (Hlat : 0 ≤ latency < 2 ^ 32) (Hlim : 0 ≤ limit < 2 ^ 32) (Hrate : 0 ≤ rate64 < 2 ^ 64).

Definition rate32 : Z := if 2 ^ 32 <=? rate64 then 2 ^ 32 - 1 else rate64.

Definition netem_kids : list attr :=
  (if 2 ^ 32 <=? rate64 then [(TCA_NETEM_RATE64, le 8 rate64)] else []) ++
  [(TCA_NETEM_RATE, enc_netem_rate rate32)].

(** The options the kernel is meant to see. *)
Definition netem_wanted : tc_netem_qopt * netem_tb :=
  (NQopt latency limit 0 0 0 0,
   rate_tb (Some (NRate rate32 0 0 0)) (if 2 ^ 32 <=? rate64 then Some rate64 else None)).

Record is_netem_request (buf : list Z) (region : list Z) : Prop := {
  nr_msg : message buf 36 [(TCA_KIND, k_netem); (TCA_OPTIONS, region)];
  nr_fixed : sub 52 24 buf = enc_netem_qopt latency limit;
  nr_kids : attrs_at buf 76 netem_kids;
  nr_region : Z.of_nat (length region) = attrs_end 76 netem_kids - 52;
}.

Lemma length_enc_netem_qopt : length (enc_netem_qopt latency limit) = 24%nat.
Proof. unfold enc_netem_qopt. by rewrite !length_app, !length_le, length_replicate. Qed.

Lemma length_enc_netem_rate r : length (enc_netem_rate r) = 16%nat.
Proof. unfold enc_netem_rate. by rewrite !length_app, length_le, length_replicate. Qed.

Lemma rate32_range : 0 ≤ rate32 < 2 ^ 32.
Proof. unfold rate32. destruct (Z.leb_spec (2 ^ 32) rate64); lia. Qed.

Lemma netem_kids_ok : Forall attr_ok netem_kids.
Proof.
  unfold netem_kids. apply Forall_app. split.
  - destruct (_ <=? _); [|done]. apply Forall_cons_iff. split; [|done]. split; [done|]. unfold attr_len. cbn [snd].
    rewrite length_le. lia.
  - apply Forall_cons_iff. split; [|done]. split; [done|]. unfold attr_len. cbn [snd].
    rewrite length_enc_netem_rate. lia.
Qed.

Lemma netem_kids_end : attrs_end 76 netem_kids = if 2 ^ 32 <=? rate64 then 108 else 96.
Proof.
  unfold netem_kids. destruct (2 ^ 32 <=? rate64); cbn [app attrs_end]; unfold attr_len; cbn [snd];
    by rewrite ?length_le, length_enc_netem_rate.
Qed.

Lemma dec_enc_netem_qopt : dec_netem_qopt (enc_netem_qopt latency limit) = NQopt latency limit 0 0 0 0.
Proof.
  unfold dec_netem_qopt, enc_netem_qopt.
  assert (∀ n, 0 ≤ n < 2 ^ 32 → unle (le 4 n) = n) as Hu by (intros n Hn; by apply unle_le_small).
  unfold sub. f_equal; try done.
  - change (Z.to_nat 0) with 0%nat. rewrite drop_0, take_app_length' by (by rewrite length_le). by apply Hu.
  - change (Z.to_nat 4) with 4%nat. rewrite drop_app_length' by (by rewrite length_le).
    rewrite take_app_length' by (by rewrite length_le). by apply Hu.
Qed.

Lemma dec_enc_netem_rate : dec_netem_rate (enc_netem_rate rate32) = NRate rate32 0 0 0.
Proof.
  unfold dec_netem_rate, enc_netem_rate, sub. pose proof rate32_range as Hr. f_equal; try done.
  change (Z.to_nat 0) with 0%nat. rewrite drop_0, take_app_length' by (by rewrite length_le).
  by apply unle_le_small.
Qed.

(** The attributes after the structure. *)
Lemma decode_rates_ok buf : attrs_at buf 76 netem_kids → attrs_end 76 netem_kids ≤ Z.of_nat (length buf) →
  decode_rates 48 (attrs_end 76 netem_kids - 52) buf
  = Some (Some (rate_tb (Some (NRate rate32 0 0 0)) (if 2 ^ 32 <=? rate64 then Some rate64 else None)), buf).
Proof.
  intros Hk Hfit. pose proof netem_kids_ok as Hok. pose proof netem_kids_end as Hend.
  unfold decode_rates. change (RTA_DATA 48 + NLA_ALIGN 24) with 76. change (NLA_ALIGN 24) with 24.
  replace (attrs_end 76 netem_kids - 52 - 24) with (attrs_end 76 netem_kids - 76) by lia.
  assert (76 ≤ attrs_end 76 netem_kids < 2 ^ 31) by (rewrite Hend; by destruct (2 ^ 32 <=? rate64)).
  unfold cbind at 1, parse_rtattr, parse_rtattr_flags.
  rewrite parse_loop_attrs; try (done || lia); [|unfold parse_fuel; lia]. cbn [fst].
  assert (∀ ty, ty ≤ TCA_NETEM_MAX → collect TCA_NETEM_MAX 76 netem_kids ∅ !! ty = fst <$> first_attr 76 netem_kids ty) as Hc
    by (intros ty Hty; by rewrite collect_lookup, lookup_empty).
  assert (forallb (λ ty, bool_decide (collect TCA_NETEM_MAX 76 netem_kids ∅ !! ty = None)) other_types = true) as ->.
  { apply forallb_forall. intros ty Hty. apply bool_decide_eq_true. rewrite Hc.
    - unfold netem_kids. destruct (2 ^ 32 <=? rate64); simpl in Hty; repeat destruct Hty as [<-|Hty]; done.
    - simpl in Hty. unfold TCA_NETEM_MAX. repeat destruct Hty as [<-|Hty]; done. }
  unfold cbind. rewrite !payload_ok by (done || lia). unfold cret, netem_kids, TCA_NETEM_RATE, TCA_NETEM_RATE64.
  destruct (2 ^ 32 <=? rate64); cbn [first_attr app fst snd Z.eqb Pos.eqb fmap option_fmap option_map];
    rewrite dec_enc_netem_rate, ?unle_le_small by done; done.
Qed.

Lemma netem_request_read buf region : is_netem_request buf region →
  decode_netem buf = Some ((unle (sub 20 4 buf), Some k_netem, Some (inr netem_wanted)), buf).
Proof.
  intros [Hmsg Hfx Hkids Hreg]. pose proof netem_kids_end as Hend.
  pose proof Hmsg as [_ _ _ Hat Hoks Hfit Hsm]. cbn [attrs_end] in Hfit, Hsm.
  change (align4 (attr_len (TCA_KIND, k_netem))) with 12 in *.
  assert (Z.of_nat (length region) = if 2 ^ 32 <=? rate64 then 56 else 44) as Hrl
    by (destruct (2 ^ 32 <=? rate64); lia).
  assert (align4 (attr_len (TCA_OPTIONS, region)) = attr_len (TCA_OPTIONS, region)) as Hal.
  { apply align4_id. unfold attr_len. cbn [snd]. rewrite Hrl. by destruct (2 ^ 32 <=? rate64). }
  rewrite Hal in Hfit. assert (attrs_end 76 netem_kids ≤ Z.of_nat (length buf)) as Hfit'
    by (unfold attr_len in Hfit; cbn [snd] in Hfit; lia).
  assert (96 ≤ attrs_end 76 netem_kids) as Hbig by (rewrite Hend; by destruct (2 ^ 32 <=? rate64)).
  unfold decode_netem. unfold cbind at 1. rewrite get32_ok by lia.
  unfold cbind at 1. rewrite (nlmsg_len_ok _ _ _ Hmsg).
  unfold cbind at 1. unfold TCMSG_LENGTH. rewrite (parse_message _ _ _ _ Hmsg). cbn [fst].
  unfold cbind at 1. rewrite payload_ok by (done || apply Hmsg). rewrite collect_lookup, lookup_empty by done.
  cbn [first_attr fst snd fmap option_fmap option_map Z.eqb TCA_KIND TCA_OPTIONS Pos.eqb].
  change (36 + align4 (attr_len (TCA_KIND, k_netem))) with 48.
  destruct Hat as [_ [Hnest _]]. change (36 + align4 (attr_len (TCA_KIND, k_netem))) with 48 in Hnest.
  apply Forall_cons_iff in Hoks as [_ [Hokn _]%Forall_cons_iff].
  destruct (attr_header buf 48 (TCA_OPTIONS, region)) as (Hl & _); [lia|done|done|unfold attr_len in *; cbn [snd] in *; lia|].
  unfold cbind at 1. rewrite Hl. unfold RTA_PAYLOAD, attr_len. cbn [snd]. rewrite Hreg.
  replace (4 + (attrs_end 76 netem_kids - 52) - 4) with (attrs_end 76 netem_kids - 52) by lia.
  unfold cbind at 1. change (RTA_DATA 48) with 52. rewrite nl_read_ok by lia. rewrite Hfx.
  unfold cbind. rewrite (decode_rates_ok buf Hkids Hfit'). rewrite dec_enc_netem_qopt.
  unfold cret, netem_opt, parse_attr, netem_wanted. change (NLA_ALIGN 24) with 24.
  rewrite (proj2 (Z.ltb_ge _ _)), (proj2 (Z.leb_le _ _)) by lia. done.
Qed.

(** ** Building it *)

Lemma netem_rate64_ok buf : message buf 36 [(TCA_KIND, k_netem); (TCA_OPTIONS, enc_netem_qopt latency limit)] →
  Z.of_nat (length buf) = SIZEOF_REQ →
  ∃ v buf', add_rate64 1024 TCA_NETEM_RATE64 rate64 buf = Some (v, buf') ∧
    message buf' 36 ([(TCA_KIND, k_netem); (TCA_OPTIONS, enc_netem_qopt latency limit)] ++
      (if 2 ^ 32 <=? rate64 then [(TCA_NETEM_RATE64, le 8 rate64)] else [])) ∧
    same_header buf buf'.
Proof.
  intros Hm Hl. unfold SIZEOF_REQ in Hl. unfold add_rate64. destruct (2 ^ 32 <=? rate64).
  - destruct (add_step buf _ 1024 TCA_NETEM_RATE64 (le 8 rate64) Hm) as (buf' & Hc & Hm' & Hf');
      [done| |lia|done|by exists 0, buf'].
    cbn [app attrs_end]. unfold attr_len. cbn [snd]. rewrite length_enc_netem_qopt, length_le. by vm_compute.
  - exists 0, buf. rewrite app_nil_r. done.
Qed.

Lemma netem_request_built req : Z.of_nat (length req) = SIZEOF_REQ →
  ∃ buf' region, netem_rate_request latency limit rate64 req = Some (tt, buf') ∧
    is_netem_request buf' region ∧ same_header req buf'.
Proof.
  intros Hreq. destruct (kind_added req k_netem Hreq) as (b0 & b1 & Hc0 & Hc1 & Hm1 & Hf1); [simpl; lia|].
  pose proof Hf1 as [L1 _]. rewrite <- L1 in Hreq. unfold netem_rate_request. unfold cbind at 1. rewrite Hc0.
  unfold cbind at 1. rewrite Hc1. unfold cbind at 1. rewrite (NLMSG_TAIL_ok _ _ _ Hm1).
  change (attrs_end 36 [(TCA_KIND, k_netem)]) with 48.
  destruct (add_step b1 _ 1024 TCA_OPTIONS (enc_netem_qopt latency limit) Hm1) as (b2 & Hc2 & Hm2 & Hf2);
    [split; [done|unfold attr_len; cbn [snd]; rewrite length_enc_netem_qopt; lia]
    |cbn [app attrs_end]; unfold attr_len; cbn [snd]; rewrite length_enc_netem_qopt; by vm_compute
    |unfold SIZEOF_REQ in Hreq; lia|done|].
  unfold cbind at 1. rewrite Hc2. pose proof Hf2 as [L2 _]. rewrite <- L2 in Hreq. cbn [app] in Hm2.
  destruct (netem_rate64_ok b2 Hm2 Hreq) as (v & b3 & Hc3 & Hm3 & Hf3). unfold cbind at 1. rewrite Hc3.
  pose proof Hf3 as [L3 _]. rewrite <- L3 in Hreq. pose proof netem_kids_end as Hend.
  fold rate32. set (kids := if 2 ^ 32 <=? rate64 then _ else _) in Hm3.
  destruct (add_step b3 _ 1024 TCA_NETEM_RATE (enc_netem_rate rate32) Hm3) as (b4 & Hc4 & Hm4 & Hf4);
    [split; [done|unfold attr_len; cbn [snd]; rewrite length_enc_netem_rate; lia]| |unfold SIZEOF_REQ in Hreq; lia|done|].
  { unfold kids. destruct (2 ^ 32 <=? rate64); cbn [app attrs_end]; unfold attr_len; cbn [snd];
      rewrite length_enc_netem_qopt, length_enc_netem_rate, ?length_le; by vm_compute. }
  unfold cbind at 1. rewrite Hc4. pose proof Hf4 as [L4 _]. rewrite <- L4 in Hreq.
  assert (message b4 36 ([(TCA_KIND, k_netem)] ++ (TCA_OPTIONS, enc_netem_qopt latency limit) :: netem_kids)) as Hm4'
    by (unfold netem_kids; fold kids; rewrite <- app_assoc in Hm4; exact Hm4).
  destruct (nest_closed b4 36 _ _ _ _ Hm4') as (He & Hc5 & Hm5 & Hk5 & Hx5 & Hf5); rewrite ?length_enc_netem_qopt in *;
    change (attrs_end 36 [(TCA_KIND, k_netem)]) with 48 in *; change (48 + 4 + Z.of_nat 24) with 76 in *;
    change (48 + 4) with 52 in *; [done|rewrite Hend; by destruct (2 ^ 32 <=? rate64)|].
  eexists _, _. split; [|split].
  - unfold close_tail, cbind. rewrite (NLMSG_TAIL_ok _ _ _ Hm4'), He, Hc5. done.
  - split; [exact Hm5|exact Hx5|exact Hk5|]. rewrite length_sub; unfold SIZEOF_REQ in Hreq; rewrite Hend in *;
      destruct (2 ^ 32 <=? rate64); lia.
  - do 4 (eapply same_header_trans; [done|]). split; [apply length_put|]. intros off n H1 H2. apply Hf5; lia.
Qed.
End request.

(** C24: The request of netem.c means what the program meant: whatever was in the
    request buffer before, the message [netem_rate_request] builds is read by
    [netem_change] as the latency, the limit and the rate, in 64 bits from
    2^32 bytes per second on, and nothing else. *)
Theorem netem_request_decodes latency limit rate64 req :
  0 ≤ latency < 2 ^ 32 → 0 ≤ limit < 2 ^ 32 → 0 ≤ rate64 < 2 ^ 64 → Z.of_nat (length req) = SIZEOF_REQ →
  ∃ req', netem_rate_request latency limit rate64 req = Some (tt, req') ∧ same_header req req' ∧
    decode_netem req' = Some ((unle (sub 20 4 req), Some k_netem, Some (inr (netem_wanted latency limit rate64))), req').
Proof.
  intros Hlat Hlim Hr Hreq. destruct (netem_request_built latency limit rate64 req Hreq) as (req' & region & Hc & Hrq & Hh).
  exists req'. split; [done|]. split; [done|].
  rewrite (netem_request_read latency limit rate64 Hlat Hlim Hr req' region Hrq). by rewrite (proj2 Hh 20 4%nat) by lia.
Qed.

(** ** The kernel *)

(** A kernel with netem on some devices, which passes the options of a request for
    one of them to [netem_change]. *)
Class NetemKernel (Q K : Type) `{KernelHeaders} `{NetemEnv} `{ReciprocalDiv} (talk : list Z → K → Z * K) := {
  queue_of : K → Z → option (netem Q);
  talk_netem : ∀ msg msg' k i opt s r s',
    decode_netem msg = Some ((i, Some k_netem, Some opt), msg') → queue_of k i = Some s →
    netem_change (Some opt) s = Some (r, s') →
    ∃ k', talk msg k = (if r =? 0 then 0 else -1, k') ∧ queue_of k' i = Some s' ∧
      ∀ j, j ≠ i → queue_of k' j = queue_of k j;
}.

Section kernel.
Context `{KernelHeaders} `{NetemHeaders} `{NetemEnv} `{ReciprocalDiv} {Q K : Type} (talk : list Z → K → Z * K).
Context `{!NetemKernel Q K talk} (clk : tc_clock).
Hypothesis Hticks : ∀ t, 0 ≤ t < 2 ^ 32 → PSCHED_TICKS2NS t = 64 * t.

(** The line after the change, with the packets in it. *)
Definition line_at (latency limit rate64 : Z) (d d' : dline) : Prop :=
  nrate (dl_cfg d') = rate64 ∧ Netem.latency (dl_cfg d') = 64 * latency ∧ dl_limit d' = limit ∧
  packet_overhead (dl_cfg d') = 0 ∧ cell_size (dl_cfg d') = 0 ∧ dl_queue d' = dl_queue d.

Lemma change_line_at (s : netem Q) d latency limit rate64 : implements s d →
  0 ≤ latency < 2 ^ 32 → 0 ≤ limit < 2 ^ 31 → 0 ≤ rate64 < 2 ^ 64 →
  ∃ s' d', netem_change (Some (inr (netem_wanted latency limit rate64))) s = Some (0, s') ∧
    implements s' d' ∧ line_at latency limit rate64 d d'.
Proof.
  intros Him Hlat Hlim Hr. unfold netem_wanted, rate32.
  set (r64 := if 2 ^ 32 <=? rate64 then Some rate64 else None). set (r32 := if 2 ^ 32 <=? rate64 then 2 ^ 32 - 1 else rate64).
  pose proof (Hticks latency Hlat) as Hl. pose proof (Hticks 0 ltac:(lia)) as Hz.
  assert (nrate (line_change (NQopt latency limit 0 0 0 0) (Some (NRate r32 0 0 0)) r64 (dl_cfg d)) = rate64) as Hrate.
  { unfold r64, r32. destruct (Z.leb_spec (2 ^ 32) rate64); simpl; lia. }
  assert (Netem.latency (line_change (NQopt latency limit 0 0 0 0) (Some (NRate r32 0 0 0)) r64 (dl_cfg d)) = 64 * latency) as Hlt.
  { unfold r64. destruct (2 ^ 32 <=? rate64); simpl; rewrite Hl, s64_small; lia. }
  destruct (change_sim s d (NQopt latency limit 0 0 0 0) (Some (NRate r32 0 0 0)) r64 Him) as (s' & Hc & Him').
  { split; [|simpl; lia]. pose proof (im_plain _ _ Him) as Hp.
    split; rewrite ?Hrate, ?Hlt; try lia; unfold r64; destruct (2 ^ 32 <=? rate64); simpl; try done;
      rewrite ?Hz; try done; apply Hp. }
  exists s', (line_step (NmChange (NQopt latency limit 0 0 0 0) (Some (NRate r32 0 0 0)) r64) d).1.
  split; [done|]. split; [done|]. unfold line_at. cbn [line_step fst dl_cfg dl_limit dl_queue].
  split; [done|]. split; [done|]. unfold r64. by destruct (2 ^ 32 <=? rate64).
Qed.

(** ** A request to both devices *)

Lemma netem_request_put latency limit rate64 buf region off d : is_netem_request latency limit rate64 buf region →
  4 ≤ off → off + Z.of_nat (length d) ≤ 36 → is_netem_request latency limit rate64 (put off d buf) region.
Proof.
  intros [[M1 M2 M3 M4 M5 M6 M7] Hx Hk Hr] Ho Hd. split; [| |apply attrs_at_put; (done || lia)|done].
  - split; [done|done| |apply attrs_at_put; (done || lia)|done|by rewrite length_put|done].
    by rewrite sub_put_other by lia.
  - by rewrite sub_put_other by lia.
Qed.

Definition netem_req (latency limit rate64 : Z) (buf : list Z) : Prop :=
  Z.of_nat (length buf) = SIZEOF_REQ ∧ ∃ region, is_netem_request latency limit rate64 buf region.

Lemma netem_send_to latency limit rate64 s idx (q : netem Q) d :
  0 ≤ latency < 2 ^ 32 → 0 ≤ limit < 2 ^ 31 → 0 ≤ rate64 < 2 ^ 64 → idx_ok idx →
  netem_req latency limit rate64 (pg_req s) → queue_of (pg_kernel s) idx = Some q → implements q d →
  ∃ req k q' d', send_to talk idx s = Some (inr (tt, Prog (pg_index s) (pg_opt s) req k (pg_slept s))) ∧
    netem_req latency limit rate64 req ∧ queue_of k idx = Some q' ∧ implements q' d' ∧
    line_at latency limit rate64 d d' ∧ ∀ j, j ≠ idx → queue_of k j = queue_of (pg_kernel s) j.
Proof.
  intros Hlat Hlim Hr Hidx [Hlen [region Hrq]] Hq Him.
  unfold send_to, sbind, on_req, set_tcm_ifindex. unfold SIZEOF_REQ in Hlen.
  rewrite nl_write_ok by (rewrite ?length_le; lia). set (req := put 20 (le 4 idx) (pg_req s)).
  assert (is_netem_request latency limit rate64 req region) as Hrq'
    by (apply netem_request_put; rewrite ?length_le; (done || lia)).
  assert (0 ≤ limit < 2 ^ 32) as Hlim' by lia.
  pose proof (netem_request_read latency limit rate64 Hlat Hlim' Hr req region Hrq') as Hdec.
  assert (unle (sub 20 4 req) = idx) as Hi.
  { unfold req. etrans; [apply f_equal, (sub_put_same 20 (le 4 idx)); rewrite ?length_le; lia|].
    by apply unle_le_small. }
  rewrite Hi in Hdec. destruct (change_line_at q d latency limit rate64 Him Hlat Hlim Hr) as (q' & d' & Hc & Him' & Hline).
  destruct (talk_netem req req (pg_kernel s) idx _ q 0 q' Hdec Hq Hc) as (k' & Ht & Hq' & Hoth).
  exists req, k', q', d'. unfold send. cbn [pg_req pg_kernel pg_index pg_opt pg_slept]. rewrite Ht.
  split; [done|]. split; [|done]. split; [unfold req; by rewrite length_put|by exists region].
Qed.

(** ** Rounds *)

Definition bw_ok (bw : bw_param) : Prop :=
  0 ≤ bandwidth bw < 2 ^ 64 ∧ ∃ t, tc_core_time2tick clk (u32 (delay bw)) = Some t ∧ 0 ≤ t < 2 ^ 32.

(** The line runs with the entry [bw] of the table. *)
Definition line_for (limit : Z) (bw : bw_param) (d d' : dline) : Prop :=
  ∃ t, tc_core_time2tick clk (u32 (delay bw)) = Some t ∧ line_at t limit (bandwidth bw) d d'.

(** Both queues are delay lines. *)
Definition lines (k : K) (idx1 idx2 : Z) (d1 d2 : dline) : Prop :=
  (∃ q, queue_of k idx1 = Some q ∧ implements q d1) ∧ (∃ q, queue_of k idx2 = Some q ∧ implements q d2).

Definition entry (bws : list bw_param) (i : Z) : option bw_param := bws !! Z.to_nat (i mod Z.of_nat (length bws)).

Definition sleep_of (bws : list bw_param) (i : Z) : Z * Z :=
  match entry bws i with Some bw => (period_sec bw, period_nsec bw) | None => (0, 0) end.

Lemma netem_round_ok ql bws idx1 idx2 s d1 d2 : bws ≠ [] → Forall bw_ok bws → u32 ql < 2 ^ 31 →
  idx_ok idx1 → idx_ok idx2 → idx1 ≠ idx2 → Z.of_nat (length (pg_req s)) = SIZEOF_REQ →
  lines (pg_kernel s) idx1 idx2 d1 d2 →
  ∃ s' bw d1' d2', netem_round talk clk ql bws idx1 idx2 s = Some (inr (tt, s')) ∧
    pg_index s' = (pg_index s + 1) mod Z.of_nat (length bws) ∧
    pg_slept s' = pg_slept s ++ [sleep_of bws (pg_index s + 1)] ∧
    Z.of_nat (length (pg_req s')) = SIZEOF_REQ ∧ entry bws (pg_index s + 1) = Some bw ∧
    lines (pg_kernel s') idx1 idx2 d1' d2' ∧ line_for (u32 ql) bw d1 d1' ∧ line_for (u32 ql) bw d2 d2'.
Proof.
  intros Hne Hok Hql Hi1 Hi2 Hdiff Hlen [(q1 & Hq1 & Him1) (q2 & Hq2 & Him2)].
  assert (0 < Z.of_nat (length bws)) as Hpos by (destruct bws; simpl; [done|lia]).
  pose proof (Z.mod_pos_bound (pg_index s + 1) _ Hpos) as Hb.
  destruct (lookup_lt_is_Some_2 bws (Z.to_nat ((pg_index s + 1) mod Z.of_nat (length bws)))) as [bw Hbw]; [lia|].
  pose proof (Forall_lookup_1 _ _ _ _ Hok Hbw) as (Hbr & t & Ht & Htr).
  pose proof (u32_range ql) as Hqr. assert (0 ≤ u32 ql < 2 ^ 31) as Hlim by lia.
  unfold netem_round. unfold sbind at 1. unfold next_bw. unfold sbind at 1, get_prog. unfold sbind at 1, set_index.
  rewrite Hbw. unfold sret at 1. unfold sbind at 1, send_netem_rate. rewrite Ht. unfold sbind at 1, on_req.
  cbn [pg_req pg_index pg_opt pg_kernel pg_slept].
  destruct (netem_request_built t (u32 ql) (bandwidth bw) (pg_req s) Hlen) as (req & region & Hc & Hrq & Hh). rewrite Hc.
  set (s1 := Prog _ _ req _ _).
  destruct (netem_send_to t (u32 ql) (bandwidth bw) s1 idx1 q1 d1) as (req1 & k1 & q1' & d1' & Hc1 & Hrq1 & Hq1' & Him1' & Hl1 & Hoth1);
    [done..| |done|done|]. { split; [simpl; by rewrite (proj1 Hh)|by exists region]. }
  set (s2 := Prog (pg_index s1) (pg_opt s1) req1 k1 (pg_slept s1)).
  destruct (netem_send_to t (u32 ql) (bandwidth bw) s2 idx2 q2 d2) as (req2 & k2 & q2' & d2' & Hc2 & Hrq2 & Hq2' & Him2' & Hl2 & Hoth2);
    [done..| |done|]. { simpl. by rewrite Hoth1. }
  cbn [send_all]. unfold sbind at 1. rewrite Hc1. fold s2. unfold sbind at 1. rewrite Hc2. unfold sret, nanosleep.
  eexists _, bw, d1', d2'. split; [done|]. cbn [pg_index pg_slept pg_req pg_kernel s1 s2].
  split; [done|]. split; [unfold sleep_of, entry; by rewrite Hbw|]. split; [apply Hrq2|]. split; [exact Hbw|].
  split; [|split; by exists t]. split; [exists q1'; by rewrite Hoth2|by exists q2'].
Qed.

Lemma line_for_chain limit bw bw' d d1 d2 : line_for limit bw d d1 → line_for limit bw' d1 d2 → line_for limit bw' d d2.
Proof.
  intros (t & _ & _ & _ & _ & _ & _ & Hq) (t' & Ht' & L1 & L2 & L3 & L4 & L5 & Hq').
  exists t'. split; [done|]. unfold line_at. by rewrite Hq', Hq.
Qed.

Lemma netem_rounds_ok ql bws idx1 idx2 : bws ≠ [] → Forall bw_ok bws → u32 ql < 2 ^ 31 →
  idx_ok idx1 → idx_ok idx2 → idx1 ≠ idx2 → ∀ n s d1 d2, Z.of_nat (length (pg_req s)) = SIZEOF_REQ →
  lines (pg_kernel s) idx1 idx2 d1 d2 →
  ∃ s', rounds (netem_round talk clk ql bws idx1 idx2) n s = Some (inr (tt, s')) ∧
    pg_slept s' = pg_slept s ++ ((λ k, sleep_of bws (pg_index s + Z.of_nat k)) <$> seq 1 n) ∧
    ((0 < n)%nat → ∃ bw d1' d2', entry bws (pg_index s + Z.of_nat n) = Some bw ∧
       lines (pg_kernel s') idx1 idx2 d1' d2' ∧ line_for (u32 ql) bw d1 d1' ∧ line_for (u32 ql) bw d2 d2').
Proof.
  intros Hne Hok Hql Hi1 Hi2 Hdiff. induction n as [|n IH]; intros s d1 d2 Hlen Hlines.
  { exists s. split; [done|]. split; [by rewrite app_nil_r|lia]. }
  destruct (netem_round_ok ql bws idx1 idx2 s d1 d2) as (s1 & bw & d1a & d2a & Hr & Hidx & Hsl & Hlen1 & Hbw & Hl1 & Hf1 & Hf2);
    [done..|]. destruct (IH s1 d1a d2a Hlen1 Hl1) as (s2 & Hrs & Hsl2 & Hend). exists s2.
  assert (∀ k, entry bws (pg_index s1 + k) = entry bws (pg_index s + 1 + k)) as Hen.
  { intros k. unfold entry. by rewrite Hidx, Zplus_mod_idemp_l. }
  split; [cbn [rounds]; unfold sbind; by rewrite Hr|]. split.
  - rewrite Hsl2, Hsl, <- app_assoc. f_equal. cbn [seq fmap list_fmap]. f_equal.
    rewrite <- (seq_shift n 1), <- list_fmap_compose. apply list_fmap_ext. intros i k _. simpl. unfold sleep_of.
    rewrite Hen. by replace (pg_index s + 1 + Z.of_nat k) with (pg_index s + Z.of_nat (S k)) by lia.
  - intros _. destruct n as [|n].
    + simpl in Hrs. injection Hrs as <-. exists bw, d1a, d2a. by split.
    + destruct (Hend ltac:(lia)) as (bw2 & d1b & d2b & Hbw2 & Hl2 & Hg1 & Hg2). exists bw2, d1b, d2b.
      rewrite Hen in Hbw2. replace (pg_index s + 1 + Z.of_nat (S n)) with (pg_index s + Z.of_nat (S (S n))) in Hbw2 by lia.
      split; [done|]. split; [done|]. split; by eapply line_for_chain.
Qed.

End kernel.

(** ** A concrete kernel *)

#[local] Existing Instances sample_headers sample_env sample_nheaders sample_recip.

Abbreviation netem_sample_kernel := (gmap Z (netem unit)).

Definition netem_sample_talk (msg : list Z) (k : netem_sample_kernel) : Z * netem_sample_kernel :=
  match decode_netem msg with
  | Some ((i, Some _, Some opt), _) =>
      match k !! i with
      | Some s =>
          match netem_change (Some opt) s with
          | Some (r, s') => (if r =? 0 then 0 else -1, <[i := s']> k)
          | None => (-1, k)
          end
      | None => (-1, k)
      end
  | _ => (-1, k)
  end.

#[local] Instance netem_sample_kernel_ok : NetemKernel unit netem_sample_kernel netem_sample_talk.
Proof.
  refine {| queue_of k i := k !! i |}. intros msg msg' k i opt s r s' Hd Hk Hc.
  exists (<[i := s']> k). unfold netem_sample_talk. rewrite Hd, Hk, Hc. split; [done|].
  split; [by rewrite lookup_insert_eq|]. intros j Hj. by rewrite lookup_insert_ne.
Defined.

Definition start_queue : netem unit :=
  match netem_init (Some (inr (NQopt 100 1000 0 0 0 0, rate_tb None None))) (netem_zero unit) with
  | Some (_, s) => s
  | None => netem_zero unit
  end.

Definition start_line : dline := Dline (line_change (NQopt 100 1000 0 0 0 0) None None cfg_zero) 1000 [] 0.

Lemma start_implements : implements start_queue start_line.
Proof. split; try done. apply due_nil. Qed.

(** 8 Gbit/s with a delay of 100 us, and 40 Gbit/s with 20 us. *)
Definition sample_table : list bw_param := [parse_bw 8000000000 100 1000000; parse_bw 40000000000 20 500].


Lemma netem_request_decodes_witness :
  let req := put 20 (le 4 12) (req_start TC_H_ROOT 0) in
  ∃ req', netem_rate_request 1563 100 5000000000 req = Some (tt, req') ∧ same_header req req' ∧
    decode_netem req' = Some ((12, Some k_netem, Some (inr (netem_wanted 1563 100 5000000000))), req').
Proof.
  intros req. apply (netem_request_decodes 1563 100 5000000000 req); [lia|lia|lia|].
  unfold req, req_start. rewrite !length_put, length_replicate. done.
Defined.
