(* ===== verification/XmitPath.v ===== *)
(** * The transmit path (src/net/sched/sch_generic.c, src/net/core/dev.c)

    How packets leave a root queueing discipline: [dequeue_skb] and its bulk
    variants, [sch_direct_xmit], [__qdisc_run], the enqueue side
    [__dev_xmit_skb], and the soft interrupt [net_tx_action] that runs the
    queues [__netif_schedule] recorded.  The root discipline is any instance of
    [RootQdisc]; the network card is an instance of [TxDevice].  A chain of
    packets linked by [skb->next] is a list, the null pointer the empty one; a
    transmit queue of the device is named by its index.  [None] of the monad
    means that a loop used up its fuel; XmitTheorems.v shows that it does not. *)

From Stdlib Require Import ZArith Lia.
From stdpp Require Import base numbers list gmap option.
From S2P Require Import Prelude Sched.

Open Scope Z_scope.

Record qdisc_flags := {
  TCQ_F_NOLOCK : bool;
  TCQ_F_CPUSTATS : bool;
  TCQ_F_ONETXQUEUE : bool;
  TCQ_F_CAN_BYPASS : bool;
}.

(** ** What the path calls

    The inline functions of the headers. *)
Class TxHeaders := {
  NETDEV_TX_OK : Z;
  NETDEV_TX_BUSY : Z;
  NET_XMIT_MASK : Z;
  dev_xmit_complete : Z → bool;
  skb_get_queue_mapping : sk_buff → Z;
  xfrm_offload : sk_buff → bool;
  qdisc_is_percpu_stats : qdisc_flags → bool;
  qdisc_may_bulk : qdisc_flags → bool;
  qdisc_qstats_backlog_inc : sk_buff → gnet_stats_queue → gnet_stats_queue;
  (** whether [qdisc_run_begin] takes a queue with that [running] bit *)
  qdisc_run_begin : bool → bool;
  (** whether [qdisc_run], having taken the queue, calls [__qdisc_run] *)
  qdisc_run_enters : qdisc_flags → bool → bool;
}.

(** The steps of [validate_xmit_skb] whose code is outside the path: tags,
    sockets, segmentation, checksums and IPsec. *)
Class TxValidate := {
  vlan_push_needed : sk_buff → bool;
  __vlan_hwaccel_push_inside : sk_buff → option sk_buff;
  sk_validate_xmit_skb : sk_buff → option sk_buff;
  netif_needs_gso : sk_buff → bool;
  xmit_gso_segment : sk_buff → option (list sk_buff);   (* None: an error pointer *)
  skb_needs_linearize : sk_buff → bool;
  __skb_linearize : sk_buff → bool;                      (* true: failed *)
  checksum_partial : sk_buff → bool;
  skb_csum_hwoffload_help : sk_buff → bool;              (* true: failed *)
  validate_xmit_xfrm : list sk_buff → list sk_buff * bool;
}.

(** A device with state [D].  [netdev_start_xmit] calls the driver. *)
Class TxDevice (D : Type) := {
  netif_xmit_frozen_or_stopped : Z → D → bool;
  netif_tx_queue_stopped : Z → D → bool;
  qdisc_avail_bulklimit : Z → D → Z;
  netdev_start_xmit : sk_buff → Z → bool → D → Z * D;
}.

(** A root queueing discipline: its [Qdisc_ops] and the counters of
    [struct Qdisc] the path touches.  [rq_dequeue] is given the time and the
    deactivated bit; [rq_cpu_inc] and [rq_cpu_dec] are the per-CPU backlog and
    the atomic length, which only queues with [TCQ_F_CPUSTATS] have. *)
Class RootQdisc (Q : Type) := {
  rq_enqueue : sk_buff → Q → Z * Q * list sk_buff;
  rq_dequeue : Z → bool → Q → option sk_buff * Q;
  rq_qlen : Q → Z;
  rq_set_qlen : Z → Q → Q;
  rq_qstats : Q → gnet_stats_queue;
  rq_set_qstats : gnet_stats_queue → Q → Q;
  rq_cpu_inc : sk_buff → Q → Q;
  rq_cpu_dec : sk_buff → Q → Q;
  rq_bstats_update : sk_buff → Q → Q;
  rq_calculate_pkt_len : sk_buff → Q → sk_buff;
}.

(** ** State *)

(** [struct Qdisc]: the fields of the path. *)
Record nqdisc (Q : Type) := Nqdisc {
  nq_id : Z;                    (* its address *)
  nq_sch : Q;
  nq_flags : qdisc_flags;
  nq_dev_queue : Z;
  gso_skb : list sk_buff;
  skb_bad_txq : list sk_buff;
  nq_requeues : Z;              (* u32 *)
  nq_sched : bool;              (* __QDISC_STATE_SCHED *)
  nq_deactivated : bool;        (* __QDISC_STATE_DEACTIVATED *)
  nq_running : bool;
}.
Arguments Nqdisc {Q} _ _ _ _ _ _ _ _ _ _.
Arguments nq_id {Q} _.
Arguments nq_sch {Q} _.
Arguments nq_flags {Q} _.
Arguments nq_dev_queue {Q} _.
Arguments gso_skb {Q} _.
Arguments skb_bad_txq {Q} _.
Arguments nq_requeues {Q} _.
Arguments nq_sched {Q} _.
Arguments nq_deactivated {Q} _.
Arguments nq_running {Q} _.

(** The device, [sd->output_queue] and [sd->completion_queue] of the CPU,
    [dev->tx_dropped], the number of clock readings so far, and three records
    of what happened: the packets taken for transmission, those the driver
    completed, those freed. *)
Record txenv (D : Type) := Txenv {
  tx_dev : D;
  tx_output : list Z;
  tx_completion : list sk_buff;
  tx_dropped : Z;
  tx_reads : nat;
  tx_pulled : list sk_buff;
  tx_sent : list sk_buff;
  tx_freed : list sk_buff;
}.
Arguments Txenv {D} _ _ _ _ _ _ _ _.
Arguments tx_dev {D} _.
Arguments tx_output {D} _.
Arguments tx_completion {D} _.
Arguments tx_dropped {D} _.
Arguments tx_reads {D} _.
Arguments tx_pulled {D} _.
Arguments tx_sent {D} _.
Arguments tx_freed {D} _.

Section updates.
Context {Q D : Type}.

Definition q_set_sch (sch : Q) (q : nqdisc Q) : nqdisc Q :=
  let 'Nqdisc i _ f d g b r sc de ru := q in Nqdisc i sch f d g b r sc de ru.

Definition q_set_gso (g : list sk_buff) (q : nqdisc Q) : nqdisc Q :=
  let 'Nqdisc i s f d _ b r sc de ru := q in Nqdisc i s f d g b r sc de ru.

Definition q_set_bad (b : list sk_buff) (q : nqdisc Q) : nqdisc Q :=
  let 'Nqdisc i s f d g _ r sc de ru := q in Nqdisc i s f d g b r sc de ru.

Definition q_set_requeues (r : Z) (q : nqdisc Q) : nqdisc Q :=
  let 'Nqdisc i s f d g b _ sc de ru := q in Nqdisc i s f d g b r sc de ru.

Definition q_set_sched (sc : bool) (q : nqdisc Q) : nqdisc Q :=
  let 'Nqdisc i s f d g b r _ de ru := q in Nqdisc i s f d g b r sc de ru.

Definition q_set_running (ru : bool) (q : nqdisc Q) : nqdisc Q :=
  let 'Nqdisc i s f d g b r sc de _ := q in Nqdisc i s f d g b r sc de ru.

Definition e_set_dev (d : D) (e : txenv D) : txenv D :=
  let 'Txenv _ o c dr r p s f := e in Txenv d o c dr r p s f.

Definition e_output (id : Z) (e : txenv D) : txenv D :=
  let 'Txenv d o c dr r p s f := e in Txenv d (o ++ [id]) c dr r p s f.

Definition e_drop (n : Z) (e : txenv D) : txenv D :=
  let 'Txenv d o c dr r p s f := e in Txenv d o c (dr + n) r p s f.

Definition e_read (e : txenv D) : txenv D :=
  let 'Txenv d o c dr r p s f := e in Txenv d o c dr (S r) p s f.

Definition e_pull (skb : sk_buff) (e : txenv D) : txenv D :=
  let 'Txenv d o c dr r p s f := e in Txenv d o c dr r (p ++ [skb]) s f.

Definition e_send (skb : sk_buff) (e : txenv D) : txenv D :=
  let 'Txenv d o c dr r p s f := e in Txenv d o c dr r p (s ++ [skb]) f.

Definition e_free (l : list sk_buff) (e : txenv D) : txenv D :=
  let 'Txenv d o c dr r p s f := e in Txenv d o c dr r p s (f ++ l).

Definition e_complete (e : txenv D) : txenv D :=
  let 'Txenv d o c dr r p s f := e in Txenv d o [] dr r p s (f ++ c).

Definition e_clear_output (e : txenv D) : txenv D :=
  let 'Txenv d o c dr r p s f := e in Txenv d [] c dr r p s f.

Definition txs : Type := nqdisc Q * txenv D.

Definition get_q : M txs (nqdisc Q) := λ s, Some (s.1, s).

Definition get_e : M txs (txenv D) := λ s, Some (s.2, s).

Definition upd_q (f : nqdisc Q → nqdisc Q) : M txs unit := λ s, Some (tt, (f s.1, s.2)).

Definition upd_e (f : txenv D → txenv D) : M txs unit := λ s, Some (tt, (s.1, f s.2)).

End updates.
Arguments txs : clear implicits.

Section path.
Context `{TxHeaders} `{TxValidate} {Q D : Type} `{RootQdisc Q} `{TxDevice D}.

(** The clock's readings, the answers of [need_resched], the packet quota of a
    run ([dev_tx_weight]) and whether the kernel has IPsec offload. *)
Context (clock : nat → Z) (need_resched : nat → bool) (dev_tx_weight : Z) (xfrm_config : bool).

Notation T := (M (txs Q D)).

(** ** Scheduling a queue *)

(** [__netif_schedule] and [__netif_reschedule]. *)
Definition __netif_schedule : T unit :=
  let* q := get_q in
  if nq_sched q then cret tt
  else upd_q (q_set_sched true) ;;; upd_e (e_output (nq_id q)).

(** ** Counters *)

(** [qdisc_qstats_backlog_inc(q, skb); q->q.qlen++], and the reverse. *)
Definition plain_inc (skb : sk_buff) (q : nqdisc Q) : nqdisc Q :=
  let sch := nq_sch q in
  let sch := rq_set_qstats (qdisc_qstats_backlog_inc skb (rq_qstats sch)) sch in
  q_set_sch (rq_set_qlen (u32 (rq_qlen sch + 1)) sch) q.

Definition plain_dec `{KernelHeaders} (skb : sk_buff) (q : nqdisc Q) : nqdisc Q :=
  let sch := nq_sch q in
  let sch := rq_set_qstats (qdisc_qstats_backlog_dec skb (rq_qstats sch)) sch in
  q_set_sch (rq_set_qlen (u32 (rq_qlen sch - 1)) sch) q.

Definition count_inc (skb : sk_buff) (q : nqdisc Q) : nqdisc Q :=
  if qdisc_is_percpu_stats (nq_flags q) then q_set_sch (rq_cpu_inc skb (nq_sch q)) q
  else plain_inc skb q.

Definition count_dec `{KernelHeaders} (skb : sk_buff) (q : nqdisc Q) : nqdisc Q :=
  if qdisc_is_percpu_stats (nq_flags q) then q_set_sch (rq_cpu_dec skb (nq_sch q)) q
  else plain_dec skb q.

(** ** Requeueing *)

(** [__skb_queue_tail(&q->gso_skb, skb)]. *)
Definition gso_tail (skb : sk_buff) (q : nqdisc Q) : nqdisc Q :=
  q_set_requeues (u32 (nq_requeues q + 1)) (q_set_gso (gso_skb q ++ [skb]) q).

Fixpoint requeue_loop (skb : list sk_buff) : T unit :=
  match skb with
  | [] => cret tt
  | skb :: next => upd_q (λ q, plain_inc skb (gso_tail skb q)) ;;; requeue_loop next
  end.

Definition __dev_requeue_skb (skb : list sk_buff) : T Z :=
  requeue_loop skb ;;; __netif_schedule ;;; cret 0.

Fixpoint requeue_loop_locked (skb : list sk_buff) : T unit :=
  match skb with
  | [] => cret tt
  | skb :: next =>
      upd_q (λ q, q_set_sch (rq_cpu_inc skb (nq_sch q)) (gso_tail skb q)) ;;; requeue_loop_locked next
  end.

Definition dev_requeue_skb_locked (skb : list sk_buff) : T Z :=
  requeue_loop_locked skb ;;; __netif_schedule ;;; cret 0.

Definition dev_requeue_skb (skb : list sk_buff) : T Z :=
  let* q := get_q in
  if TCQ_F_NOLOCK (nq_flags q) then dev_requeue_skb_locked skb else __dev_requeue_skb skb.

(** ** Dequeueing *)

Context `{KernelHeaders}.

(** [q->dequeue(q)], with the time it reads. *)
Definition q_dequeue : T (option sk_buff) :=
  let* e := get_e in
  let* q := get_q in
  upd_e e_read ;;;
  let r := rq_dequeue (clock (tx_reads e)) (nq_deactivated q) (nq_sch q) in
  upd_q (q_set_sch r.2) ;;;
  match r.1 with
  | None => cret None
  | Some skb => upd_e (e_pull skb) ;;; cret (Some skb)
  end.

(** [__skb_dequeue] on either list, with the counters. *)
Definition gso_dequeue (q : nqdisc Q) : nqdisc Q :=
  match gso_skb q with
  | [] => q
  | skb :: rest => count_dec skb (q_set_gso rest q)
  end.

Definition bad_txq_dequeue (q : nqdisc Q) : nqdisc Q :=
  match skb_bad_txq q with
  | [] => q
  | skb :: rest => count_dec skb (q_set_bad rest q)
  end.

Definition __skb_dequeue_bad_txq : T (option sk_buff) :=
  let* q := get_q in
  let* e := get_e in
  match skb_bad_txq q with
  | [] => cret None
  | skb :: _ =>
      if netif_xmit_frozen_or_stopped (skb_get_queue_mapping skb) (tx_dev e) then cret None
      else upd_q bad_txq_dequeue ;;; cret (Some skb)
  end.

Definition qdisc_dequeue_skb_bad_txq : T (option sk_buff) :=
  let* q := get_q in
  match skb_bad_txq q with
  | [] => cret None
  | _ :: _ => __skb_dequeue_bad_txq
  end.

Definition qdisc_enqueue_skb_bad_txq (skb : sk_buff) : T unit :=
  upd_q (λ q, count_inc skb (q_set_bad (skb_bad_txq q ++ [skb]) q)).

(** The [while] loop of [try_bulk_dequeue_skb]: the packets that follow the
    first one. *)
Fixpoint bulk_loop (fuel : nat) (bytelimit : Z) : T (list sk_buff) :=
  match fuel with
  | O => cfail
  | S fuel =>
      if 0 <? bytelimit then
        let* nskb := q_dequeue in
        match nskb with
        | None => cret []
        | Some nskb =>
            let* rest := bulk_loop fuel (s32 (bytelimit - skb_len nskb)) in
            cret (nskb :: rest)
        end
      else cret []
  end.

(** The chain and the number of packets added to [*packets]. *)
Definition try_bulk_dequeue_skb (skb : sk_buff) (txq : Z) : T (list sk_buff * Z) :=
  let* e := get_e in
  let bytelimit := s32 (qdisc_avail_bulklimit txq (tx_dev e) - skb_len skb) in
  let* rest := bulk_loop (S (Z.to_nat bytelimit)) bytelimit in
  cret (skb :: rest, Z.of_nat (length rest)).

(** The [do ... while (++cnt < 8)] loop; [n] is what is left of the eight. *)
Fixpoint slow_loop (n : nat) (mapping : Z) : T (list sk_buff) :=
  match n with
  | O => cret []
  | S n =>
      let* nskb := q_dequeue in
      match nskb with
      | None => cret []
      | Some nskb =>
          if negb (skb_get_queue_mapping nskb =? mapping) then
            qdisc_enqueue_skb_bad_txq nskb ;;; cret []
          else
            let* rest := slow_loop n mapping in
            cret (nskb :: rest)
      end
  end.

Definition try_bulk_dequeue_skb_slow (skb : sk_buff) : T (list sk_buff * Z) :=
  let* rest := slow_loop 8 (skb_get_queue_mapping skb) in
  cret (skb :: rest, Z.of_nat (length rest)).

(** The label [bulk]. *)
Definition dequeue_bulk (skb : sk_buff) : T (list sk_buff * bool * Z) :=
  let* q := get_q in
  let* r := (if qdisc_may_bulk (nq_flags q) then try_bulk_dequeue_skb skb (nq_dev_queue q)
             else try_bulk_dequeue_skb_slow skb) in
  cret (r.1, true, 1 + r.2).

(** The chain, [*validate] and [*packets].  The test under the lock that
    [gso_skb] is still not empty concerns another CPU that takes the packet in
    between, which the running bit excludes. *)
Definition dequeue_skb : T (list sk_buff * bool * Z) :=
  let* q := get_q in
  let* e := get_e in
  match gso_skb q with
  | skb :: _ =>
      let validate := xfrm_offload skb in
      if negb (netif_xmit_frozen_or_stopped (skb_get_queue_mapping skb) (tx_dev e)) then
        upd_q gso_dequeue ;;; cret ([skb], validate, 1)
      else cret ([], validate, 1)
  | [] =>
      if TCQ_F_ONETXQUEUE (nq_flags q) && netif_xmit_frozen_or_stopped (nq_dev_queue q) (tx_dev e)
      then cret ([], true, 1)
      else
        let* skb := qdisc_dequeue_skb_bad_txq in
        match skb with
        | Some skb => dequeue_bulk skb
        | None =>
            let* skb := q_dequeue in
            match skb with
            | Some skb => dequeue_bulk skb
            | None => cret ([], true, 1)
            end
        end
  end.

(** ** Handing packets to the driver *)

(** The chain, whether [*again] was set, and whether the packet was dropped. *)
Definition validate_xmit_skb (skb : sk_buff) : list sk_buff * bool * bool :=
  match (if vlan_push_needed skb then __vlan_hwaccel_push_inside skb else Some skb) with
  | None => ([], false, true)
  | Some skb =>
      match sk_validate_xmit_skb skb with
      | None => ([], false, true)
      | Some skb =>
          if netif_needs_gso skb then
            match xmit_gso_segment skb with
            | None => ([], false, true)
            | Some [] => (validate_xmit_xfrm [skb], false)
            | Some segs => (validate_xmit_xfrm segs, false)
            end
          else if skb_needs_linearize skb && __skb_linearize skb then ([], false, true)
          else if checksum_partial skb && skb_csum_hwoffload_help skb then ([], false, true)
          else (validate_xmit_xfrm [skb], false)
      end
  end.

Fixpoint validate_xmit_skb_list (skb : list sk_buff) : list sk_buff * bool * Z :=
  match skb with
  | [] => ([], false, 0)
  | skb :: next =>
      let '(l, again, dropped) := validate_xmit_skb skb in
      let '(l', again', n) := validate_xmit_skb_list next in
      (l ++ l', again || again', (if dropped then 1 else 0) + n)
  end.

(** [xmit_one]: the taps of [dev_queue_xmit_nit] only look at the packet. *)
Definition xmit_one (skb : sk_buff) (txq : Z) (more : bool) : T Z :=
  let* e := get_e in
  let r := netdev_start_xmit skb txq more (tx_dev e) in
  upd_e (e_set_dev r.2) ;;; cret r.1.

(** What is left of the chain, and [*ret]. *)
Fixpoint hard_xmit_loop (skb : list sk_buff) (txq : Z) (rc : Z) : T (list sk_buff * Z) :=
  match skb with
  | [] => cret ([], rc)
  | skb :: next =>
      let* rc := xmit_one skb txq (match next with [] => false | _ => true end) in
      if negb (dev_xmit_complete rc) then cret (skb :: next, rc)
      else
        upd_e (e_send skb) ;;;
        let* e := get_e in
        match next with
        | _ :: _ => if netif_tx_queue_stopped txq (tx_dev e) then cret (next, NETDEV_TX_BUSY)
                    else hard_xmit_loop next txq rc
        | [] => cret ([], rc)
        end
  end.

Definition dev_hard_start_xmit (first : list sk_buff) (txq : Z) : T (list sk_buff * Z) :=
  hard_xmit_loop first txq NETDEV_TX_OK.

(** [sch_direct_xmit] drops the root lock while it validates and transmits.
    [xmit_result] is what the part without the lock leaves to the part that
    takes it again: a chain to validate again, nothing to send, or the driver's
    answer with the unsent rest. *)
Inductive xmit_result :=
| XAgain (skb : list sk_buff)
| XNone
| XRet (ret : Z) (skb : list sk_buff).

Definition sch_direct_xmit_unlocked (skb : list sk_buff) (txq : Z) (validate : bool) : T xmit_result :=
  let '(skb, again, n) := if validate then validate_xmit_skb_list skb else (skb, false, 0) in
  upd_e (e_drop n) ;;;
  if xfrm_config && again then cret (XAgain skb)
  else match skb with
       | [] => cret XNone
       | _ :: _ =>
           let* e := get_e in
           if netif_xmit_frozen_or_stopped txq (tx_dev e) then cret (XRet NETDEV_TX_BUSY skb)
           else
             let* r := dev_hard_start_xmit skb txq in
             cret (XRet r.2 r.1)
       end.

Definition sch_direct_xmit_locked (r : xmit_result) : T bool :=
  match r with
  | XAgain skb => dev_requeue_skb skb ;;; cret false
  | XNone => cret true
  | XRet ret skb =>
      if negb (dev_xmit_complete ret) then dev_requeue_skb skb ;;; cret false
      else cret true
  end.

Definition sch_direct_xmit (skb : list sk_buff) (txq : Z) (validate : bool) : T bool :=
  let* r := sch_direct_xmit_unlocked skb txq validate in
  sch_direct_xmit_locked r.

(** The transmit queue of the first packet of a chain. *)
Definition chain_txq (skb : list sk_buff) : Z :=
  match skb with
  | [] => 0
  | skb :: _ => skb_get_queue_mapping skb
  end.

Definition qdisc_restart : T (bool * Z) :=
  let* r := dequeue_skb in
  let '(skb, validate, packets) := r in
  match skb with
  | [] => cret (false, packets)
  | _ :: _ =>
      let* more := sch_direct_xmit skb (chain_txq skb) validate in
      cret (more, packets)
  end.

(** [need_resched()] at this point of the execution. *)
Definition resched : T bool :=
  let* e := get_e in cret (need_resched (tx_reads e)).

Fixpoint qdisc_run_loop (fuel : nat) (quota : Z) : T unit :=
  match fuel with
  | O => cfail
  | S fuel =>
      let* r := qdisc_restart in
      if r.1 then
        let quota := quota - r.2 in
        let* yield := resched in
        if (quota <=? 0) || yield then __netif_schedule
        else qdisc_run_loop fuel quota
      else cret tt
  end.

Definition __qdisc_run : T unit := qdisc_run_loop (S (Z.to_nat dev_tx_weight)) dev_tx_weight.

(** ** Entering the path *)

(** [qdisc_run_begin(q)], its effect on the running bit, and [qdisc_run_end]. *)
Definition run_begin : T bool :=
  let* q := get_q in
  if qdisc_run_begin (nq_running q) then upd_q (q_set_running true) ;;; cret true else cret false.

Definition run_end : T unit := upd_q (q_set_running false).

Definition qdisc_run : T unit :=
  let* b := run_begin in
  if b then
    let* q := get_q in
    (if qdisc_run_enters (nq_flags q) (nq_deactivated q) then __qdisc_run else cret tt) ;;;
    run_end
  else cret tt.

(** [q->enqueue(skb, q, &to_free) & NET_XMIT_MASK]; the packets of [to_free] are
    freed at the end of [__dev_xmit_skb]. *)
Definition q_enqueue (skb : sk_buff) : T (Z * list sk_buff) :=
  let* q := get_q in
  let '(rc, sch, to_free) := rq_enqueue skb (nq_sch q) in
  upd_q (q_set_sch sch) ;;;
  cret (Z.land rc NET_XMIT_MASK, to_free).

Definition __dev_xmit_skb (skb : sk_buff) (txq : Z) : T Z :=
  let* q := get_q in
  let skb := rq_calculate_pkt_len skb (nq_sch q) in
  if TCQ_F_NOLOCK (nq_flags q) then
    if nq_deactivated q then upd_e (e_free [skb]) ;;; cret NET_XMIT_DROP
    else
      let* r := q_enqueue skb in
      qdisc_run ;;;
      upd_e (e_free r.2) ;;;
      cret r.1
  else if nq_deactivated q then upd_e (e_free [skb]) ;;; cret NET_XMIT_DROP
  else if TCQ_F_CAN_BYPASS (nq_flags q) && (rq_qlen (nq_sch q) =? 0) && qdisc_run_begin (nq_running q) then
    upd_q (q_set_running true) ;;;
    upd_q (λ q, q_set_sch (rq_bstats_update skb (nq_sch q)) q) ;;;
    upd_e (e_pull skb) ;;;
    let* more := sch_direct_xmit [skb] txq true in
    (if more then __qdisc_run else cret tt) ;;;
    run_end ;;;
    cret NET_XMIT_SUCCESS
  else
    let* r := q_enqueue skb in
    (let* b := run_begin in if b then __qdisc_run ;;; run_end else cret tt) ;;;
    upd_e (e_free r.2) ;;;
    cret r.1.

(** ** The soft interrupt

    The queues of the system, by address. *)
Definition softnet : Type := gmap Z (nqdisc Q) * txenv D.

(** [c] on the queue at address [id]. *)
Definition on_queue {A} (id : Z) (c : T A) : M softnet A :=
  λ s, match s.1 !! id with
       | None => None
       | Some q => match c (q, s.2) with
                   | Some (a, (q, e)) => Some (a, (<[id := q]> s.1, e))
                   | None => None
                   end
       end.

Fixpoint tx_action_loop (head : list Z) : M softnet unit :=
  match head with
  | [] => cret tt
  | id :: head =>
      on_queue id (upd_q (q_set_sched false) ;;; qdisc_run) ;;;
      tx_action_loop head
  end.

(** [xfrm_dev_backlog] belongs to IPsec offload. *)
Definition net_tx_action : M softnet unit :=
  λ s, let e := e_complete s.2 in
       tx_action_loop (tx_output e) (s.1, e_clear_output e).

End path.
