(* ===== verification/XmitTheorems.v ===== *)
(** * The transmit path: conservation, order, progress

    Interleavings are a step relation: between the two halves of
    [sch_direct_xmit] the root lock is free, and other CPUs enqueue, the device
    changes state and timers schedule the queue. *)

From Stdlib Require Import ZArith Lia.
From stdpp Require Import base numbers list gmap option relations sorting.
From S2P Require Import Prelude Sched XmitPath.

Open Scope Z_scope.

(** What the path relies on: [NETDEV_TX_BUSY] is the answer that asks for the
    packet to be kept, and the running bit belongs to one CPU at a time. *)
Class TxHeadersOk `{TxHeaders} := {
  tx_busy : dev_xmit_complete NETDEV_TX_BUSY = false;
  run_begin_idle : ∀ b, qdisc_run_begin b = negb b;
  run_enters_active : ∀ f, qdisc_run_enters f false = true;
}.

(** A kernel without IPsec offload validates a packet once. *)
Class NoOffload `{TxHeaders} `{TxValidate} := {
  no_offload : ∀ skb, xfrm_offload skb = false;
  no_again : ∀ l, validate_xmit_xfrm l = (l, false);
}.

Lemma rtc_invariant {A} (R : relation A) (I : A → Prop) :
  (∀ x y, R x y → I x → I y) → ∀ x y, I x → rtc R x y → I y.
Proof. intros HR x y HI. induction 1; eauto. Qed.

Section path.
Context `{TxHeadersOk} `{TxValidate} {Q D : Type} `{RootQdisc Q} `{TxDevice D} `{KernelHeaders}.
Context (clock : nat → Z) (need_resched : nat → bool) (dev_tx_weight : Z) (xfrm_config : bool).

(** ** Interleaved executions

    Where the CPU that owns the running bit stands: outside, about to dequeue
    with a quota, sending a chain without the root lock, or back with the
    result.  [from] is the number of packets and the quota of [__qdisc_run], or
    [None] for the packet that bypassed the queue. *)
Inductive phase :=
| PIdle
| PRun (quota : Z)
| PSend (skb : list sk_buff) (txq : Z) (validate : bool) (from : option (Z * Z))
| PDone (r : xmit_result) (from : option (Z * Z)).

Definition config : Type := phase * txs Q D.

(** What follows a transmission that returned [more]. *)
Definition after_xmit (more : bool) (from : option (Z * Z)) (s : txs Q D) : option config :=
  if negb more then Some (PIdle, (q_set_running false s.1, s.2))
  else match from with
       | None => Some (PRun dev_tx_weight, s)
       | Some (packets, quota) =>
           let quota := quota - packets in
           if (quota <=? 0) || need_resched (tx_reads s.2) then
             match __netif_schedule s with
             | Some (_, s') => Some (PIdle, (q_set_running false s'.1, s'.2))
             | None => None
             end
           else Some (PRun quota, s)
       end.

Inductive tx_step : config → config → Prop :=
(* the owner of the running bit *)
| st_begin q e :
    nq_running q = false → nq_deactivated q = false →
    tx_step (PIdle, (q, e)) (PRun dev_tx_weight, (q_set_running true q, e))
| st_empty quota s validate packets q e :
    dequeue_skb clock s = Some (([], validate, packets), (q, e)) →
    tx_step (PRun quota, s) (PIdle, (q_set_running false q, e))
| st_dequeue quota s skb validate packets s' :
    dequeue_skb clock s = Some ((skb, validate, packets), s') → skb ≠ [] →
    tx_step (PRun quota, s) (PSend skb (chain_txq skb) validate (Some (packets, quota)), s')
| st_bypass skb txq q e :
    nq_running q = false → nq_deactivated q = false → TCQ_F_NOLOCK (nq_flags q) = false →
    TCQ_F_CAN_BYPASS (nq_flags q) = true → rq_qlen (nq_sch q) = 0 →
    tx_step (PIdle, (q, e))
      (PSend [skb] txq true None,
       (q_set_sch (rq_bstats_update skb (nq_sch q)) (q_set_running true q), e_pull skb e))
| st_xmit skb txq validate from s r s' :
    sch_direct_xmit_unlocked xfrm_config skb txq validate s = Some (r, s') →
    tx_step (PSend skb txq validate from, s) (PDone r from, s')
| st_finish r from s more s' c :
    sch_direct_xmit_locked r s = Some (more, s') → after_xmit more from s' = Some c →
    tx_step (PDone r from, s) c
(* everyone else *)
| st_enqueue ph skb q e rc sch fr :
    rq_enqueue skb (nq_sch q) = (rc, sch, fr) →
    tx_step (ph, (q, e)) (ph, (q_set_sch sch q, e))
| st_free ph q e l :
    tx_step (ph, (q, e)) (ph, (q, e_free l e))
| st_schedule ph s s' :
    __netif_schedule s = Some (tt, s') → tx_step (ph, s) (ph, s')
| st_softirq ph q e :
    tx_step (ph, (q, e)) (ph, (q_set_sched false q, e))
| st_device ph q e d :
    tx_step (ph, (q, e)) (ph, (q, e_set_dev d e)).

(** ** What each operation does to the packets *)

(** The packets taken, sent, waiting for another attempt, and put aside. *)
Definition view (s : txs Q D) : list sk_buff * list sk_buff * list sk_buff * list sk_buff :=
  (tx_pulled s.2, tx_sent s.2, gso_skb s.1, skb_bad_txq s.1).

(** What no operation changes. *)
Definition fixed (s : txs Q D) : Z * qdisc_flags * Z * bool * bool :=
  (nq_id s.1, nq_flags s.1, nq_dev_queue s.1, nq_deactivated s.1, nq_running s.1).

Lemma q_set_sch_view sch q (e : txenv D) : view (q_set_sch sch q, e) = view (q, e).
Proof. by destruct q. Qed.

Lemma count_inc_same skb q (e : txenv D) :
  view (count_inc skb q, e) = view (q, e) ∧ fixed (count_inc skb q, e) = fixed (q, e).
Proof. unfold count_inc, plain_inc. destruct q; simpl. by case_match. Qed.

Lemma count_dec_same skb q (e : txenv D) :
  view (count_dec skb q, e) = view (q, e) ∧ fixed (count_dec skb q, e) = fixed (q, e).
Proof. unfold count_dec, plain_dec. destruct q; simpl. by case_match. Qed.

Lemma schedule_spec s :
  ∃ s', __netif_schedule s = Some (tt, s') ∧ view s' = view s ∧ fixed s' = fixed s ∧
        nq_sched s'.1 = true ∧ nq_sch s'.1 = nq_sch s.1 ∧ tx_dev s'.2 = tx_dev s.2.
Proof.
  destruct s as [[] []]. unfold __netif_schedule, get_q, upd_q, upd_e, cbind, cret; simpl.
  case_match; subst; eexists; (split; [done|]); done.
Qed.

Lemma q_dequeue_spec s :
  ∃ o s', q_dequeue clock s = Some (o, s') ∧ fixed s' = fixed s ∧
    nq_sched s'.1 = nq_sched s.1 ∧ tx_dev s'.2 = tx_dev s.2 ∧
    view s' = (tx_pulled s.2 ++ option_list o, tx_sent s.2, gso_skb s.1, skb_bad_txq s.1) ∧
    rq_dequeue (clock (tx_reads s.2)) (nq_deactivated s.1) (nq_sch s.1) = (o, nq_sch s'.1).
Proof.
  destruct s as [[] []]. unfold q_dequeue, get_q, get_e, upd_q, upd_e, cbind, cret, view; simpl.
  destruct (rq_dequeue _ _ _) as [[skb|] sch]; simpl; eexists _, _; (split; [done|]);
    simpl; rewrite ?app_nil_r; done.
Qed.

(** [m] run from [s], if it returns, ends in [P]. *)
Definition ends {A} (m : M (txs Q D) A) (s : txs Q D) (P : A → txs Q D → Prop) : Prop :=
  ∀ a s', m s = Some (a, s') → P a s'.

Lemma ends_ret {A} (a : A) s (P : A → txs Q D → Prop) : P a s → ends (cret a) s P.
Proof. by intros HP ? ? [= <- <-]. Qed.

Lemma ends_bind {A B} (m : M (txs Q D) A) (k : A → M (txs Q D) B) s P R :
  ends m s R → (∀ a s', R a s' → ends (k a) s' P) → ends (cbind m k) s P.
Proof.
  intros Hm Hk b s'. unfold cbind. destruct (m s) as [[a s1]|] eqn:E; [|done].
  by apply Hk, Hm.
Qed.

Lemma ends_weaken {A} (m : M (txs Q D) A) s (P R : A → txs Q D → Prop) :
  ends m s R → (∀ a s', R a s' → P a s') → ends m s P.
Proof. intros Hm HP a s' Ha. by apply HP, Hm. Qed.

Lemma ends_dequeue s P :
  (∀ o s', fixed s' = fixed s → tx_dev s'.2 = tx_dev s.2 → nq_sched s'.1 = nq_sched s.1 →
    view s' = (tx_pulled s.2 ++ option_list o, tx_sent s.2, gso_skb s.1, skb_bad_txq s.1) → P o s') →
  ends (q_dequeue clock) s P.
Proof.
  intros HP o s' Ho. destruct (q_dequeue_spec s) as (o1 & s1 & Hd & Hf & Hs & He & Hv & _).
  rewrite Hd in Ho. injection Ho as <- <-. by apply HP.
Qed.

(** The first loop takes packets; the second may put the last one aside. *)
Lemma ends_bulk_loop fuel lim s :
  ends (bulk_loop clock fuel lim) s (λ rest s', fixed s' = fixed s ∧
    view s' = (tx_pulled s.2 ++ rest, tx_sent s.2, gso_skb s.1, skb_bad_txq s.1)).
Proof.
  revert lim s. induction fuel as [|fuel IH]; intros lim s; simpl; [by intros ? ?|].
  case_match; [|apply ends_ret; unfold view; by rewrite app_nil_r].
  eapply ends_bind; [by apply ends_dequeue; intros o s1 Hf _ _ Hv; exact (conj Hf Hv)|].
  cbv beta. intros [nskb|] s1 [Hf Hv]; [|apply ends_ret; by rewrite app_nil_r in Hv |- *].
  eapply ends_bind; [apply IH|]. intros rest s2 [Hf2 Hv2]. apply ends_ret.
  split; [congruence|]. rewrite Hv2. unfold view in Hv. injection Hv as -> -> -> ->.
  by rewrite <- app_assoc.
Qed.

Lemma ends_slow_loop n mapping s :
  ends (slow_loop clock n mapping) s (λ rest s', ∃ extra, fixed s' = fixed s ∧
    view s' = (tx_pulled s.2 ++ rest ++ extra, tx_sent s.2, gso_skb s.1, skb_bad_txq s.1 ++ extra) ∧
    Forall (λ skb, skb_get_queue_mapping skb ≠ mapping) extra).
Proof.
  revert s. induction n as [|n IH]; intros s; simpl.
  { apply ends_ret. exists []. unfold view. by rewrite !app_nil_r. }
  eapply ends_bind; [by apply ends_dequeue; intros o s1 Hf _ _ Hv; exact (conj Hf Hv)|].
  cbv beta. intros [nskb|] s1 [Hf Hv].
  2:{ apply ends_ret. exists []. rewrite !app_nil_r in *. done. }
  unfold view in Hv. injection Hv as Hp Hs Hg Hb.
  destruct (Z.eqb_spec (skb_get_queue_mapping nskb) mapping) as [Em|Em]; simpl.
  - eapply ends_bind; [apply IH|]. intros rest s2 (extra & Hf2 & Hv2 & Hx). apply ends_ret.
    exists extra. rewrite Hv2, Hp, Hs, Hg, Hb, <- !app_assoc. split; [congruence|done].
  - intros a s' Ha. unfold qdisc_enqueue_skb_bad_txq, upd_q, cbind, cret in Ha. injection Ha as <- <-.
    exists [nskb]. destruct (count_inc_same nskb (q_set_bad (skb_bad_txq s1.1 ++ [nskb]) s1.1) s1.2) as [E1 E2].
    rewrite E1, E2. destruct s1 as [[] []]. simpl in *. subst. split; [done|]. split; [done|].
    by constructor.
Qed.

(** The ways [dequeue_skb] ends: nothing is taken, the oldest refused packet is
    taken again, or a chain starts with a packet put aside or a new one.
    [extra] is the packet put aside when a chain meets another transmit queue. *)
Inductive dequeued (s : txs Q D) : list sk_buff → bool → txs Q D → Prop :=
| dq_none validate s' : view s' = view s → dequeued s [] validate s'
| dq_gso skb rest s' : gso_skb s.1 = skb :: rest →
    view s' = (tx_pulled s.2, tx_sent s.2, rest, skb_bad_txq s.1) →
    dequeued s [skb] (xfrm_offload skb) s'
| dq_bad skb bad rest extra s' : gso_skb s.1 = [] → skb_bad_txq s.1 = skb :: bad →
    Forall (λ x, skb_get_queue_mapping x ≠ skb_get_queue_mapping skb) extra →
    view s' = (tx_pulled s.2 ++ rest ++ extra, tx_sent s.2, [], bad ++ extra) →
    dequeued s (skb :: rest) true s'
| dq_new skb rest extra s' : gso_skb s.1 = [] →
    Forall (λ x, skb_get_queue_mapping x ≠ skb_get_queue_mapping skb) extra →
    view s' = (tx_pulled s.2 ++ skb :: rest ++ extra, tx_sent s.2, [], skb_bad_txq s.1 ++ extra) →
    dequeued s (skb :: rest) true s'.

Lemma ends_dequeue_bulk skb s :
  ends (dequeue_bulk clock skb) s (λ r s', ∃ rest extra,
    r = (skb :: rest, true, 1 + Z.of_nat (length rest)) ∧ fixed s' = fixed s ∧
    view s' = (tx_pulled s.2 ++ rest ++ extra, tx_sent s.2, gso_skb s.1, skb_bad_txq s.1 ++ extra) ∧
    Forall (λ x, skb_get_queue_mapping x ≠ skb_get_queue_mapping skb) extra).
Proof.
  unfold dequeue_bulk. intros r s'. unfold cbind at 1, get_q. simpl. revert r s'.
  eapply (ends_bind _ _ _ _ (λ r s', ∃ rest extra, r = (skb :: rest, Z.of_nat (length rest)) ∧
    fixed s' = fixed s ∧ view s' = (tx_pulled s.2 ++ rest ++ extra, tx_sent s.2, gso_skb s.1,
      skb_bad_txq s.1 ++ extra) ∧ Forall (λ x, skb_get_queue_mapping x ≠ skb_get_queue_mapping skb) extra)).
  - case_match.
    + unfold try_bulk_dequeue_skb. intros r s'. unfold cbind at 1, get_e. cbn -[bulk_loop]. revert r s'.
      eapply ends_bind; [apply ends_bulk_loop|]. intros rest s2 [Hf Hv]. apply ends_ret.
      exists rest, []. by rewrite !app_nil_r.
    + unfold try_bulk_dequeue_skb_slow. eapply ends_bind; [apply ends_slow_loop|].
      intros rest s2 (extra & Hf & Hv & Hx). apply ends_ret. by exists rest, extra.
  - intros r s1 (rest & extra & -> & Hr). apply ends_ret. by exists rest, extra.
Qed.

Lemma ends_bad_txq s :
  ends (qdisc_dequeue_skb_bad_txq) s (λ o s', fixed s' = fixed s ∧ tx_dev s'.2 = tx_dev s.2 ∧
    match o with
    | None => s' = s
    | Some skb => skb_bad_txq s.1 = skb :: skb_bad_txq s'.1 ∧ tx_pulled s'.2 = tx_pulled s.2 ∧
                  tx_sent s'.2 = tx_sent s.2 ∧ gso_skb s'.1 = gso_skb s.1
    end).
Proof.
  intros o s'. unfold qdisc_dequeue_skb_bad_txq, __skb_dequeue_bad_txq, get_q, get_e, upd_q, cbind, cret.
  destruct (skb_bad_txq s.1) as [|skb bad] eqn:Eb; [by intros [= <- <-]|]. rewrite Eb.
  case_match; [by intros [= <- <-]|]. intros [= <- <-]. unfold bad_txq_dequeue. rewrite Eb. simpl.
  destruct (count_dec_same skb (q_set_bad bad s.1) s.2) as [E1 E2].
  unfold view in E1. injection E1 as E3 E4. rewrite E2, E3, E4. by destruct s as [[] []].
Qed.

Lemma ends_dequeue_skb s :
  ends (dequeue_skb clock) s (λ r s', fixed s' = fixed s ∧ dequeued s r.1.1 r.1.2 s').
Proof.
  intros r s'. unfold dequeue_skb. unfold cbind at 1 2, get_q, get_e. simpl.
  destruct (gso_skb s.1) as [|skb rest] eqn:Eg.
  2:{ case_match; simpl.
      - intros Hr. unfold upd_q, cbind, cret, gso_dequeue in Hr. rewrite Eg in Hr. injection Hr as <- <-.
        destruct (count_dec_same skb (q_set_gso rest s.1) s.2) as [E1 E2].
        split; [rewrite E2; by destruct s as [[] []]|]. simpl. apply (dq_gso s skb rest); [done|].
        rewrite E1. by destruct s as [[] []].
      - intros [= <- <-]. by split; [|constructor]. }
  case_match; [by intros [= <- <-]; split; [|constructor]|]. revert r s'.
  eapply ends_bind; [apply ends_bad_txq|]. cbv beta. intros [skb|] s1 (Hf & Hd & Ho).
  - destruct Ho as (Hb & Hp & Hs & Hg). eapply ends_weaken; [apply ends_dequeue_bulk|].
    cbv beta. intros r s2 (rest & extra & -> & Hf2 & Hv & Hx). split; [congruence|]. simpl.
    apply (dq_bad s skb (skb_bad_txq s1.1) rest extra); [done..|].
    rewrite Hv, Hp, Hs, Hg, Eg. done.
  - subst s1. eapply ends_bind; [by apply ends_dequeue; intros o s1 Hf1 _ _ Hv; exact (conj Hf1 Hv)|].
    cbv beta. intros [skb|] s1 [Hf1 Hv].
    + eapply ends_weaken; [apply ends_dequeue_bulk|].
      cbv beta. intros r s2 (rest & extra & -> & Hf2 & Hv2 & Hx). split; [congruence|]. simpl.
      unfold view in Hv. injection Hv as Hp Hs Hg Hb.
      apply (dq_new s skb rest extra); [done..|].
      rewrite Hv2, Hp, Hs, Hg, Hb, Eg, <- app_assoc. done.
    + apply ends_ret. split; [done|]. constructor. rewrite Hv, app_nil_r. done.
Qed.

(** [dev_hard_start_xmit] sends a prefix; the answer asks for the rest. *)
Lemma ends_hard_xmit txq skb rc s : skb ≠ [] →
  ends (hard_xmit_loop skb txq rc) s (λ r s', s'.1 = s.1 ∧ ∃ done, skb = done ++ r.1 ∧
    view s' = (tx_pulled s.2, tx_sent s.2 ++ done, gso_skb s.1, skb_bad_txq s.1) ∧
    (dev_xmit_complete r.2 = true ↔ r.1 = [])).
Proof.
  revert rc s. induction skb as [|skb next IH]; [done|]. intros rc [q e] _. cbn [hard_xmit_loop].
  unfold xmit_one. intros r s' Hr. unfold cbind at 1 2 3, get_e, upd_e, cret in Hr. cbn [fst snd] in Hr.
  destruct (netdev_start_xmit _ _ _ _) as [rc' d']. cbn [fst snd] in Hr.
  destruct (dev_xmit_complete rc') eqn:Ec; cbn [negb] in Hr.
  2:{ injection Hr as <- <-. split; [done|]. exists []. split; [done|]. destruct e; simpl.
      unfold view; simpl. rewrite app_nil_r, Ec. done. }
  unfold cbind in Hr. cbn [fst snd] in Hr. destruct next as [|skb2 next].
  { injection Hr as <- <-. split; [done|]. exists [skb]. split; [done|]. destruct e; simpl. rewrite Ec. done. }
  destruct (netif_tx_queue_stopped _ _) eqn:Es.
  { injection Hr as <- <-. split; [done|]. exists [skb]. split; [done|]. destruct e; simpl. rewrite tx_busy. done. }
  destruct (IH _ _ ltac:(done) _ _ Hr) as (Hq & done' & Hn & Hv & Hc). split; [exact Hq|].
  exists (skb :: done'). split; [simpl; congruence|]. split; [|exact Hc]. rewrite Hv.
  destruct e; simpl. by rewrite <- app_assoc.
Qed.

(** A chain after validation, packet by packet. *)
Definition vx (l : list sk_buff) : list sk_buff := (validate_xmit_skb_list l).1.1.

Lemma vx_cons skb l : vx (skb :: l) = vx [skb] ++ vx l.
Proof.
  unfold vx. simpl. destruct (validate_xmit_skb skb) as [[v a] d], (validate_xmit_skb_list l) as [[v' a'] n].
  simpl. by rewrite app_nil_r.
Qed.

Lemma vx_app l k : vx (l ++ k) = vx l ++ vx k.
Proof.
  induction l as [|skb l IH]; [done|]. by rewrite <- app_comm_cons, vx_cons, (vx_cons _ l), IH, app_assoc.
Qed.

Lemma again_never `{!NoOffload} l : (validate_xmit_skb_list l).1.2 = false.
Proof.
  induction l as [|skb l IH]; [done|]. simpl. unfold validate_xmit_skb.
  destruct (validate_xmit_skb_list l) as [[v' a'] n]. simpl in IH. subst a'.
  repeat case_match; simplify_eq; rewrite ?no_again in *; simplify_eq; done.
Qed.

(** The packets between the queue and the driver. *)
Definition inflight (ph : phase) : list sk_buff :=
  match ph with
  | PIdle | PRun _ | PDone XNone _ => []
  | PSend skb _ validate _ => if validate then vx skb else skb
  | PDone (XAgain skb) _ | PDone (XRet _ skb) _ => skb
  end.

(** A transmission the driver completed leaves nothing. *)
Definition done_ok (ph : phase) : Prop :=
  match ph with
  | PDone (XAgain _) _ => False
  | PDone (XRet ret skb) _ => dev_xmit_complete ret = true → skb = []
  | _ => True
  end.

Lemma ends_unlocked `{!NoOffload} skb txq validate from s :
  ends (sch_direct_xmit_unlocked xfrm_config skb txq validate) s (λ r s', s'.1 = s.1 ∧
    ∃ done, inflight (PSend skb txq validate from) = done ++ inflight (PDone r from) ∧
      view s' = (tx_pulled s.2, tx_sent s.2 ++ done, gso_skb s.1, skb_bad_txq s.1) ∧
      done_ok (PDone r from)).
Proof.
  intros r s'. unfold sch_direct_xmit_unlocked. set (v := if validate then _ else _).
  assert (inflight (PSend skb txq validate from) = v.1.1 ∧ v.1.2 = false) as [-> Ha].
  { subst v. destruct validate; simpl; [|done]. split; [done|]. apply again_never. }
  destruct v as [[l a] n]. simpl in Ha. subst a. rewrite andb_false_r.
  unfold cbind at 1, upd_e. simpl. destruct l as [|x l].
  { intros [= <- <-]. split; [done|]. exists []. destruct s as [q []]; simpl. unfold view; simpl. by rewrite app_nil_r. }
  unfold cbind at 1, get_e. simpl. case_match.
  { intros [= <- <-]. split; [done|]. exists []. rewrite tx_busy.
    destruct s as [q []]; simpl. unfold view; simpl. by rewrite app_nil_r. }
  unfold dev_hard_start_xmit. revert r s'. eapply ends_bind; [by apply ends_hard_xmit|].
  cbv beta. intros [rest rc] s1 (Hq & done & Hl & Hv & Hc). apply ends_ret. simpl in *. split; [done|].
  exists done. split; [done|]. split; [rewrite Hv; by destruct s as [q []]|]. apply Hc.
Qed.

(** Requeueing puts the chain behind the packets that wait, and schedules. *)
Lemma requeue_spec l s :
  ∃ s', dev_requeue_skb l s = Some (0, s') ∧ fixed s' = fixed s ∧ nq_sched s'.1 = true ∧
    tx_dev s'.2 = tx_dev s.2 ∧
    view s' = (tx_pulled s.2, tx_sent s.2, gso_skb s.1 ++ l, skb_bad_txq s.1).
Proof.
  assert (∀ s, ∃ s', (if TCQ_F_NOLOCK (nq_flags s.1) then requeue_loop_locked l s else requeue_loop l s)
    = Some (tt, s') ∧ fixed s' = fixed s ∧ tx_dev s'.2 = tx_dev s.2 ∧
    view s' = (tx_pulled s.2, tx_sent s.2, gso_skb s.1 ++ l, skb_bad_txq s.1)) as Hloop.
  { clear s. induction l as [|skb l IH]; intros [q e].
    { exists (q, e). unfold view. rewrite app_nil_r. by case_match. }
    set (q1 := q_set_requeues (u32 (nq_requeues q + 1)) (q_set_gso (gso_skb q ++ [skb]) q)).
    destruct (IH (if TCQ_F_NOLOCK (nq_flags q) then q_set_sch (rq_cpu_inc skb (nq_sch q1)) q1
                  else plain_inc skb q1, e)) as (s' & Hr & Hf & Hd & Hv).
    exists s'. destruct q as [i sch fl dq g b r sc de ru], e. subst q1. simpl in *.
    destruct (TCQ_F_NOLOCK fl) eqn:En; simpl in *; rewrite En in Hr;
      (split; [exact Hr|]); rewrite Hv, <- app_assoc; done. }
  unfold dev_requeue_skb, dev_requeue_skb_locked, __dev_requeue_skb. unfold cbind, get_q.
  destruct (Hloop s) as (s1 & Hr & Hf & Hd & Hv). destruct (schedule_spec s1) as (s2 & Hs & Hv2 & Hf2 & Hsc & _ & Hd2).
  exists s2. destruct (TCQ_F_NOLOCK (nq_flags s.1)); rewrite Hr, Hs; repeat split; congruence.
Qed.

Lemma ends_locked r from s : done_ok (PDone r from) →
  ends (sch_direct_xmit_locked r) s (λ more s', fixed s' = fixed s ∧
    view s' = (tx_pulled s.2, tx_sent s.2, gso_skb s.1 ++ inflight (PDone r from), skb_bad_txq s.1) ∧
    (more = false → nq_sched s'.1 = true)).
Proof.
  intros Hok more s' Hm. destruct r as [l| |ret l]; simpl in *; [done|injection Hm as <- <-; unfold view; by rewrite app_nil_r|].
  destruct (dev_xmit_complete ret) eqn:Ec; simpl in Hm.
  - injection Hm as <- <-. rewrite Hok by done. unfold view. by rewrite app_nil_r.
  - destruct (requeue_spec l s) as (s1 & Hr & Hf & Hs & _ & Hv). unfold cbind in Hm. rewrite Hr in Hm.
    injection Hm as <- <-. done.
Qed.

(** ** The invariant *)

(** Every packet taken from the queue is, validated, with the driver, in flight,
    waiting for another attempt or put aside; exactly once. *)
Definition conserved (c : config) : Prop :=
  let '(ph, s) := c in
  vx (tx_pulled s.2) ≡ₚ tx_sent s.2 ++ inflight ph ++ gso_skb s.1 ++ vx (skb_bad_txq s.1) ∧ done_ok ph.

Lemma conserved_view ph s s' : view s' = view s → conserved (ph, s) → conserved (ph, s').
Proof. unfold view, conserved. by intros [= -> -> -> ->]. Qed.

Lemma conserved_idle ph s q e : inflight ph = [] → view (q, e) = view s →
  conserved (ph, s) → conserved (PIdle, (q_set_running false q, e)).
Proof.
  unfold view, conserved. intros -> [= Hp Hs Hg Hb] [Hi _]. destruct q; simpl in *.
  rewrite Hp, Hs, Hg, Hb. done.
Qed.

Lemma conserved_dequeue `{!NoOffload} quota s skb validate packets s' :
  dequeue_skb clock s = Some ((skb, validate, packets), s') → conserved (PRun quota, s) →
  conserved (PSend skb (chain_txq skb) validate (Some (packets, quota)), s').
Proof.
  intros Hd [Hi _]. destruct (ends_dequeue_skb s _ _ Hd) as [_ Hq]. simpl in *. split; [|done].
  destruct Hq as [v s' Hv|x rest s' Hg Hv|x bad rest extra s' Hg Hb Hx Hv|x rest extra s' Hg Hx Hv];
    unfold view in Hv; injection Hv as Hp' Hs' Hg' Hb'; rewrite Hp', Hs', Hg', Hb', ?vx_app, Hi, ?Hg.
  - by destruct v.
  - rewrite no_offload. done.
  - rewrite Hb, (vx_cons x bad), (vx_cons x rest). solve_Permutation.
  - rewrite (vx_cons x (rest ++ extra)), (vx_cons x rest), vx_app. solve_Permutation.
Qed.

Lemma after_xmit_view more from s ph s' : after_xmit more from s = Some (ph, s') →
  view s' = view s ∧ inflight ph = [] ∧ done_ok ph.
Proof.
  unfold after_xmit. destruct (schedule_spec s) as (s1 & -> & Hv & _).
  repeat case_match; intros [= <- <-]; simpl; (split; [|done]); try done.
  - by destruct s as [[] ?].
  - rewrite <- Hv. by destruct s1 as [[] ?].
Qed.

Lemma conserved_step `{!NoOffload} c c' : tx_step c c' → conserved c → conserved c'.
Proof.
  intros Hst. destruct Hst as [q e Hr Hd|quota s v n q e Hd|quota s skb v n s' Hd Hn|skb txq q e Hr Hd Hl Hb Hz
    |skb txq v from s r s' Hx|r from s more s' [ph s2] Hl Ha|ph skb q e rc sch fr He|ph q e l|ph s s' Hs|ph q e|ph q e d];
    intros Hc.
  - revert Hc. unfold conserved. by destruct q.
  - refine (conserved_idle _ (q, e) q e _ eq_refl (conserved_dequeue _ _ _ _ _ _ Hd Hc)). by destruct v.
  - by eapply conserved_dequeue.
  - destruct Hc as [Hi _]. split; [|done]. destruct q, e; simpl in *. rewrite vx_app, Hi. solve_Permutation.
  - destruct (ends_unlocked skb txq v from s _ _ Hx) as (Hq & sent & Hf & Hv & Hok). destruct Hc as [Hi _].
    split; [|done]. unfold view in Hv. injection Hv as Hp Hse Hg Hb. rewrite Hp, Hse, Hg, Hb, Hi, Hf.
    solve_Permutation.
  - destruct Hc as [Hi Hok]. destruct (ends_locked r from s Hok _ _ Hl) as (_ & Hv & _).
    destruct (after_xmit_view _ _ _ _ _ Ha) as (Hv2 & Hf & Hok2). split; [|done]. rewrite Hv in Hv2.
    unfold view in Hv2. injection Hv2 as Hp Hse Hg Hb. rewrite Hp, Hse, Hg, Hb, Hf, Hi. solve_Permutation.
  - apply (conserved_view _ (q, e)); [by destruct q|done].
  - apply (conserved_view _ (q, e)); [by destruct e|done].
  - destruct (schedule_spec s) as (s1 & Hs1 & Hv & _). rewrite Hs in Hs1. injection Hs1 as <-.
    by apply (conserved_view _ s).
  - apply (conserved_view _ (q, e)); [by destruct q|done].
  - apply (conserved_view _ (q, e)); [by destruct e|done].
Qed.


(** ** Properties closed under sequencing

    A property of computations that holds of the elementary steps of the path
    and is closed under sequencing holds of a whole run. *)
Class TxClosed (P : ∀ A, M (txs Q D) A → Prop) : Prop := {
  cl_ret : ∀ A (a : A), P A (cret a);
  cl_fail : ∀ A, P A cfail;
  cl_bind : ∀ A B m (k : A → M (txs Q D) B), P A m → (∀ a, P B (k a)) → P B (cbind m k);
  cl_get_q : P _ get_q;
  cl_get_e : P _ get_e;
  cl_schedule : P _ __netif_schedule;
  cl_dequeue : P _ (q_dequeue clock);
  cl_gso_dequeue : P _ (upd_q gso_dequeue);
  cl_bad_dequeue : P _ (upd_q bad_txq_dequeue);
  cl_put_aside : ∀ skb, P _ (qdisc_enqueue_skb_bad_txq skb);
  cl_requeue : ∀ l, P _ (dev_requeue_skb l);
  cl_xmit_one : ∀ skb txq more, P _ (xmit_one skb txq more);
  cl_send : ∀ skb, P _ (upd_e (e_send skb));
  cl_drop : ∀ n, P _ (upd_e (e_drop n));
}.

Section closed.
Context {P : ∀ A, M (txs Q D) A → Prop} `{!TxClosed P}.

(** One step through a computation. *)
Ltac closed_step :=
  repeat first [ apply cl_ret | apply cl_fail | apply cl_get_q | apply cl_get_e | apply cl_schedule
    | apply cl_dequeue | apply cl_gso_dequeue | apply cl_bad_dequeue | apply cl_put_aside | apply cl_requeue
    | apply cl_xmit_one | apply cl_send | apply cl_drop | apply cl_bind; [|intros ?] | case_match ].

Lemma closed_bulk_loop fuel lim : P _ (bulk_loop clock fuel lim).
Proof.
  revert lim. induction fuel as [|fuel IH]; intros lim; simpl; [closed_step|]. case_match; [|closed_step].
  apply cl_bind; [closed_step|]. intros [x|]; [|closed_step]. apply cl_bind; [apply IH|]. intros. closed_step.
Qed.

Lemma closed_slow_loop n mapping : P _ (slow_loop clock n mapping).
Proof.
  induction n as [|n IH]; simpl; [closed_step|]. apply cl_bind; [closed_step|]. intros [x|]; [|closed_step].
  case_match; [closed_step|]. apply cl_bind; [apply IH|]. intros. closed_step.
Qed.

Lemma closed_dequeue_bulk skb : P _ (dequeue_bulk clock skb).
Proof.
  unfold dequeue_bulk. apply cl_bind; [closed_step|]. intros q. apply cl_bind; [|intros; closed_step]. case_match.
  - unfold try_bulk_dequeue_skb. apply cl_bind; [closed_step|]. intros e.
    apply cl_bind; [apply closed_bulk_loop|]. intros. closed_step.
  - unfold try_bulk_dequeue_skb_slow. apply cl_bind; [apply closed_slow_loop|]. intros. closed_step.
Qed.

Lemma closed_dequeue_skb : P _ (dequeue_skb clock).
Proof.
  unfold dequeue_skb. apply cl_bind; [closed_step|]. intros q. apply cl_bind; [closed_step|]. intros e.
  destruct (gso_skb q); case_match; [closed_step| |closed_step..]. apply cl_bind.
  - unfold qdisc_dequeue_skb_bad_txq, __skb_dequeue_bad_txq. closed_step.
  - intros [x|]; [apply closed_dequeue_bulk|]. apply cl_bind; [closed_step|].
    intros [x|]; [apply closed_dequeue_bulk|closed_step].
Qed.

Lemma closed_unlocked l txq v : P _ (sch_direct_xmit_unlocked xfrm_config l txq v).
Proof.
  unfold sch_direct_xmit_unlocked. destruct (if v then _ else _) as [[k a] n]. apply cl_bind; [closed_step|].
  intros _. case_match; [closed_step|]. destruct k as [|x k]; [closed_step|]. apply cl_bind; [closed_step|].
  intros e. case_match; [closed_step|]. apply cl_bind; [|intros; closed_step].
  unfold dev_hard_start_xmit. generalize NETDEV_TX_OK.
  induction (x :: k) as [|y ys IH]; intros rc; cbn [hard_xmit_loop]; [closed_step|].
  apply cl_bind; [closed_step|]. intros rc'. case_match; [closed_step|]. apply cl_bind; [closed_step|]. intros _.
  apply cl_bind; [closed_step|]. intros e'. destruct ys; [closed_step|]. case_match; [closed_step|apply IH].
Qed.

Lemma closed_locked r : P _ (sch_direct_xmit_locked r).
Proof. destruct r; simpl; closed_step. Qed.

Lemma closed_run_loop fuel quota : P _ (qdisc_run_loop clock need_resched xfrm_config fuel quota).
Proof.
  revert quota. induction fuel as [|fuel IH]; intros quota; cbn [qdisc_run_loop]; [closed_step|]. apply cl_bind.
  - unfold qdisc_restart. apply cl_bind; [apply closed_dequeue_skb|]. intros [[[|x l] w] n]; [closed_step|].
    apply cl_bind; [|intros; closed_step]. unfold sch_direct_xmit. apply cl_bind; [apply closed_unlocked|].
    intros r. apply closed_locked.
  - intros [more n]. simpl. case_match; [|closed_step]. unfold resched. apply cl_bind; [closed_step|].
    intros yield. case_match; [closed_step|apply IH].
Qed.

End closed.

(** ** The length counter *)

(** A queue whose [qlen] counts its packets. *)
Class RootCounted := {
  rq_size : Q → nat;
  size_enqueue : ∀ skb q rc q' fr, rq_enqueue skb q = (rc, q', fr) →
    u32 (rq_qlen q') = u32 (rq_qlen q + (Z.of_nat (rq_size q') - Z.of_nat (rq_size q)));
  size_dequeue : ∀ now d q o q', rq_dequeue now d q = (o, q') →
    u32 (rq_qlen q') = u32 (rq_qlen q - Z.of_nat (length (option_list o))) ∧
    rq_size q = (rq_size q' + length (option_list o))%nat;
  size_set_qlen : ∀ n q, rq_size (rq_set_qlen n q) = rq_size q ∧ rq_qlen (rq_set_qlen n q) = n;
  size_set_qstats : ∀ st q, rq_size (rq_set_qstats st q) = rq_size q ∧ rq_qlen (rq_set_qstats st q) = rq_qlen q;
  size_bstats : ∀ skb q, rq_size (rq_bstats_update skb q) = rq_size q ∧
    rq_qlen (rq_bstats_update skb q) = rq_qlen q;
}.

Section counting.
Context `{!RootCounted}.

(** All packets the queue holds, and the counter; flags without per-CPU statistics. *)
Definition backlog_of (q : nqdisc Q) : Z :=
  Z.of_nat (rq_size (nq_sch q)) + Z.of_nat (length (gso_skb q)) + Z.of_nat (length (skb_bad_txq q)).

Definition plain_flags (f : qdisc_flags) : Prop := qdisc_is_percpu_stats f = false ∧ TCQ_F_NOLOCK f = false.

Definition counted_q (s : txs Q D) : Prop :=
  plain_flags (nq_flags s.1) ∧ u32 (rq_qlen (nq_sch s.1)) = u32 (backlog_of s.1).

Lemma plain_inc_qlen skb q : rq_qlen (nq_sch (plain_inc skb q)) = u32 (rq_qlen (nq_sch q) + 1) ∧
  rq_size (nq_sch (plain_inc skb q)) = rq_size (nq_sch q).
Proof.
  unfold plain_inc. destruct q as [? sch0]; simpl. set (st := qdisc_qstats_backlog_inc _ _).
  destruct (size_set_qstats st sch0) as [E1 E2].
  destruct (size_set_qlen (u32 (rq_qlen (rq_set_qstats st sch0) + 1)) (rq_set_qstats st sch0)) as [E3 E4].
  by rewrite E3, E4, E1, E2.
Qed.

Lemma plain_dec_qlen skb q : rq_qlen (nq_sch (plain_dec skb q)) = u32 (rq_qlen (nq_sch q) - 1) ∧
  rq_size (nq_sch (plain_dec skb q)) = rq_size (nq_sch q).
Proof.
  unfold plain_dec. destruct q as [? sch0]; simpl. set (st := qdisc_qstats_backlog_dec _ _).
  destruct (size_set_qstats st sch0) as [E1 E2].
  destruct (size_set_qlen (u32 (rq_qlen (rq_set_qstats st sch0) - 1)) (rq_set_qstats st sch0)) as [E3 E4].
  by rewrite E3, E4, E1, E2.
Qed.

Lemma u32_idem a : u32 (u32 a) = u32 a.
Proof. apply Zmod_mod. Qed.

(** Counters that agree modulo 2^32 agree after the same change. *)
Lemma u32_cong a b d : u32 a = u32 b → u32 (a + d) = u32 (b + d).
Proof. unfold u32. intros Hab. by rewrite <- (Zplus_mod_idemp_l a), Hab, Zplus_mod_idemp_l. Qed.

(** Moving the counter by one along with the packets. *)
Lemma counted_inc skb (s : txs Q D) q' :
  counted_q s → nq_flags q' = nq_flags s.1 → nq_sch q' = nq_sch s.1 → backlog_of q' = backlog_of s.1 + 1 →
  ∀ e, counted_q (plain_inc skb q', e).
Proof.
  intros [Hpl Hc] Hf Hs Hb e. destruct (plain_inc_qlen skb q') as [E1 E2].
  assert (nq_flags (plain_inc skb q') = nq_flags q' ∧ gso_skb (plain_inc skb q') = gso_skb q' ∧
    skb_bad_txq (plain_inc skb q') = skb_bad_txq q') as (E3 & E4 & E5) by by destruct q'.
  split; simpl; [by rewrite E3, Hf|]. unfold backlog_of in *. rewrite E1, E2, E4, E5, Hs, u32_idem, (u32_cong _ _ _ Hc).
  rewrite Hs in Hb. by rewrite Hb.
Qed.

Lemma counted_dec skb (s : txs Q D) q' :
  counted_q s → nq_flags q' = nq_flags s.1 → nq_sch q' = nq_sch s.1 → backlog_of q' = backlog_of s.1 - 1 →
  ∀ e, counted_q (plain_dec skb q', e).
Proof.
  intros [Hpl Hc] Hf Hs Hb e. destruct (plain_dec_qlen skb q') as [E1 E2].
  assert (nq_flags (plain_dec skb q') = nq_flags q' ∧ gso_skb (plain_dec skb q') = gso_skb q' ∧
    skb_bad_txq (plain_dec skb q') = skb_bad_txq q') as (E3 & E4 & E5) by by destruct q'.
  split; simpl; [by rewrite E3, Hf|]. unfold backlog_of in *. rewrite E1, E2, E4, E5, Hs, u32_idem.
  rewrite Hs in Hb. rewrite Hb. apply u32_cong, Hc.
Qed.

(** Keeping the counter exact. *)
Definition counts {A} (m : M (txs Q D) A) : Prop := ∀ s, counted_q s → ends m s (λ _, counted_q).

Lemma counts_ret {A} (a : A) : counts (cret a).
Proof. intros s Hs. by apply ends_ret. Qed.

Lemma counts_bind {A B} (m : M (txs Q D) A) (k : A → M (txs Q D) B) :
  counts m → (∀ a, counts (k a)) → counts (cbind m k).
Proof. intros Hm Hk s Hs. eapply ends_bind; [by apply Hm|]. intros a s' Hs'. by apply Hk. Qed.

Lemma counts_get_q : counts get_q.
Proof. by intros s Hs ? ? [= <- <-]. Qed.

Lemma counts_get_e : counts get_e.
Proof. by intros s Hs ? ? [= <- <-]. Qed.

Lemma counts_dequeue : counts (q_dequeue clock).
Proof.
  intros s [Hpl Hc] o s' Ho. destruct (q_dequeue_spec s) as (o1 & s1 & Hd & Hf & _ & _ & Hv & Hr).
  rewrite Hd in Ho. injection Ho as <- <-. apply size_dequeue in Hr as [Hq Hsz].
  unfold fixed, view in *. injection Hf as _ Hf _ _ _. injection Hv as _ _ Hg Hb.
  split; [by rewrite Hf|]. unfold backlog_of in *. rewrite Hq, Hg, Hb. unfold Z.sub. rewrite (u32_cong _ _ _ Hc). f_equal. lia.
Qed.

Lemma counts_schedule : counts __netif_schedule.
Proof.
  intros s [Hpl Hc] [] s' Hs. destruct (schedule_spec s) as (s1 & Hs1 & Hv & Hf & _ & Hn & _).
  rewrite Hs in Hs1. injection Hs1 as <-. unfold view, fixed in *. injection Hv as _ _ Hg Hb.
  injection Hf as _ Hf _ _ _. unfold counted_q, backlog_of in *. by rewrite Hf, Hn, Hg, Hb.
Qed.

Lemma counts_upd f (Hf : ∀ q e, counted_q (q, e) → counted_q (f q, e)) : counts (upd_q f).
Proof. intros [q e] Hs [] s' [= <-]. by apply Hf. Qed.

Lemma counts_requeue l : counts (dev_requeue_skb l).
Proof.
  intros s Hs. pose proof Hs as [[_ Hn] _]. intros r s'. unfold dev_requeue_skb. unfold cbind at 1, get_q.
  rewrite Hn. revert r s'. refine ((_ : counts (__dev_requeue_skb l)) s Hs). clear s Hs Hn.
  apply counts_bind; [|intros _; apply counts_bind; [apply counts_schedule|intros _; apply counts_ret]].
  induction l as [|skb l IH]; [apply counts_ret|]. apply counts_bind; [|done]. apply counts_upd. intros q e Hq.
  apply (counted_inc _ (q, e)); [done|by destruct q..|].
  destruct q. unfold backlog_of. simpl. rewrite length_app. simpl. lia.
Qed.

#[export] Instance counts_closed : TxClosed (@counts).
Proof.
  constructor; try (intros; first [apply counts_ret|apply counts_requeue|done]).
  - intros. by apply counts_bind.
  - apply counts_get_q.
  - apply counts_get_e.
  - apply counts_schedule.
  - apply counts_dequeue.
  - apply counts_upd. intros q e Hq. pose proof Hq as [[Hp _] _]. unfold gso_dequeue, count_dec.
    destruct (gso_skb q) as [|x l] eqn:Eg; [done|].
    assert (nq_flags (q_set_gso l q) = nq_flags q) as -> by by destruct q. simpl in Hp. rewrite Hp.
    apply (counted_dec _ (q, e)); [done|by destruct q..|]. destruct q. unfold backlog_of. simpl in *. subst. simpl. lia.
  - apply counts_upd. intros q e Hq. pose proof Hq as [[Hp _] _]. unfold bad_txq_dequeue, count_dec.
    destruct (skb_bad_txq q) as [|x l] eqn:Eg; [done|].
    assert (nq_flags (q_set_bad l q) = nq_flags q) as -> by by destruct q. simpl in Hp. rewrite Hp.
    apply (counted_dec _ (q, e)); [done|by destruct q..|]. destruct q. unfold backlog_of. simpl in *. subst. simpl. lia.
  - intros skb. apply counts_upd. intros q e Hq. pose proof Hq as [[Hp _] _]. unfold count_inc.
    assert (nq_flags (q_set_bad (skb_bad_txq q ++ [skb]) q) = nq_flags q) as -> by by destruct q.
    simpl in Hp. rewrite Hp. apply (counted_inc _ (q, e)); [done|by destruct q..|].
    destruct q. unfold backlog_of. simpl. rewrite length_app. simpl. lia.
  - intros skb txq more [q e] Hs. unfold xmit_one, cbind, get_e, upd_e, cret. by intros ? ? [= <- <-].
  - intros skb [q e] Hs. by intros ? ? [= <- <-].
  - intros n [q e] Hs. by intros ? ? [= <- <-].
Qed.

Lemma counted_running b s : counted_q s → counted_q (q_set_running b s.1, s.2).
Proof. by destruct s as [[] ?]. Qed.

Lemma counted_step c c' : tx_step c c' → counted_q c.2 → counted_q c'.2.
Proof.
  intros Hst. destruct Hst as [q e Hr Hd|quota s v n q e Hd|quota s skb v n s' Hd Hn|skb txq q e Hr Hd Hl Hb Hz
    |skb txq v from s r s' Hx|r from s more s' c Hl Ha|ph skb q e rc sch fr He|ph q e l|ph s s' Hs|ph q e|ph q e d];
    simpl; intros Hc.
  - by apply (counted_running true (q, e)).
  - apply (counted_running false (q, e)). by eapply (closed_dequeue_skb (P := @counts)).
  - by eapply (closed_dequeue_skb (P := @counts)).
  - destruct q as [i sch f dq g b r sc de ru]. destruct (size_bstats skb sch) as [E1 E2].
    unfold counted_q, backlog_of in *. simpl in *. by rewrite E1, E2.
  - by eapply (closed_unlocked (P := @counts)).
  - apply (closed_locked (P := @counts)) in Hl; [|done]. unfold after_xmit in Ha. destruct (schedule_spec s') as (s2 & Hs2 & _).
    rewrite Hs2 in Ha. apply counts_schedule in Hs2; [|done].
    repeat case_match; simplify_eq; [by apply counted_running|by apply counted_running|done|done].
  - apply size_enqueue in He. destruct Hc as [Hpl Hc]. destruct q. unfold counted_q, backlog_of in *. simpl in *.
    split; [done|]. rewrite He, (u32_cong _ _ _ Hc). f_equal. lia.
  - done.
  - by eapply counts_schedule.
  - by destruct q.
  - done.
Qed.

End counting.

(** ** Order *)

(** One transmit queue. *)
Definition one_queue : Prop := ∀ a b, skb_get_queue_mapping a = skb_get_queue_mapping b.

(** No packet is refused while others wait in [gso_skb]: the condition under
    which putting it at the end of [gso_skb] keeps the order. *)
Definition refused_alone (c : config) : Prop :=
  match c with
  | (PDone (XRet ret _) _, (q, _)) => dev_xmit_complete ret = true ∨ gso_skb q = []
  | _ => True
  end.

(** A bypass happens when nothing waits. *)
Definition bypass_alone (c c' : config) : Prop :=
  match c, c' with
  | (PIdle, (q, _)), (PSend _ _ _ None, _) => gso_skb q = []
  | _, _ => True
  end.

Definition ordered (c : config) : Prop :=
  let '(ph, s) := c in
  vx (tx_pulled s.2) = tx_sent s.2 ++ inflight ph ++ gso_skb s.1 ∧ skb_bad_txq s.1 = [] ∧ done_ok ph.

Lemma Forall_none {A} (P : A → Prop) l : (∀ x, ¬ P x) → Forall P l → l = [].
Proof. intros HP [|x l' Hx _]; [done|]. by apply HP in Hx. Qed.

Lemma ordered_view ph s s' : view s' = view s → ordered (ph, s) → ordered (ph, s').
Proof. unfold view, ordered. by intros [= -> -> -> ->]. Qed.

Lemma ordered_dequeue `{!NoOffload} quota s skb validate packets s' : one_queue →
  dequeue_skb clock s = Some ((skb, validate, packets), s') → ordered (PRun quota, s) →
  ordered (PSend skb (chain_txq skb) validate (Some (packets, quota)), s').
Proof.
  intros Hone Hd (Hi & Hb0 & _). destruct (ends_dequeue_skb s _ _ Hd) as [_ Hq]. simpl in *.
  destruct Hq as [v s' Hv|x rest s' Hg Hv|x bad rest extra s' Hg Hb Hx Hv|x rest extra s' Hg Hx Hv];
    unfold view in Hv; injection Hv as Hp' Hs' Hg' Hb'; rewrite Hp', Hs', Hg', Hb', ?vx_app, Hi, ?Hg, ?Hb0.
  - by destruct v.
  - by rewrite no_offload.
  - by rewrite Hb in Hb0.
  - apply Forall_none in Hx as ->; [|intros y Hy; by apply Hy].
    split; [|done]. by rewrite !app_nil_r.
Qed.

Lemma ordered_step `{!NoOffload} c c' : one_queue → tx_step c c' → refused_alone c → bypass_alone c c' →
  ordered c → ordered c'.
Proof.
  intros Hone Hst. destruct Hst as [q e Hr Hd|quota s v n q e Hd|quota s skb v n s' Hd Hn|skb txq q e Hr Hd Hl Hb Hz
    |skb txq v from s r s' Hx|r from s more s' [ph s2] Hl Ha|ph skb q e rc sch fr He|ph q e l|ph s s' Hs|ph q e|ph q e d];
    intros Hra Hba Hc.
  - revert Hc. unfold ordered. by destruct q.
  - apply (ordered_dequeue _ _ _ _ _ _ Hone Hd) in Hc as (Hi & Hb & _). revert Hi Hb. unfold ordered.
    destruct q; simpl. by destruct v.
  - by eapply ordered_dequeue.
  - destruct Hc as (Hi & Hb0 & _). simpl in Hba. destruct q, e; simpl in *. subst. rewrite vx_app, Hi, !app_nil_r. done.
  - destruct (ends_unlocked skb txq v from s _ _ Hx) as (Hq & sent & Hf & Hv & Hok). destruct Hc as (Hi & Hb0 & _).
    unfold view in Hv. injection Hv as Hp Hse Hg Hb. simpl. rewrite Hp, Hse, Hg, Hb, Hi, Hf.
    by rewrite <- !app_assoc.
  - destruct Hc as (Hi & Hb0 & Hok). destruct (ends_locked r from s Hok _ _ Hl) as (_ & Hv & _).
    destruct (after_xmit_view _ _ _ _ _ Ha) as (Hv2 & Hf & Hok2). rewrite Hv in Hv2.
    unfold view in Hv2. injection Hv2 as Hp Hse Hg Hb. simpl. rewrite Hp, Hse, Hg, Hb, Hf, Hi.
    split; [|done]. f_equal. destruct r as [| |ret l]; simpl in *; [done|by rewrite app_nil_r|].
    destruct s as [q e]. simpl in *. destruct Hra as [Hra| ->]; [rewrite (Hok Hra), app_nil_r; done|].
    by rewrite app_nil_r.
  - apply (ordered_view _ (q, e)); [by destruct q|done].
  - apply (ordered_view _ (q, e)); [by destruct e|done].
  - destruct (schedule_spec s) as (s1 & Hs1 & Hv & _). rewrite Hs in Hs1. injection Hs1 as <-.
    by apply (ordered_view _ s).
  - apply (ordered_view _ (q, e)); [by destruct q|done].
  - apply (ordered_view _ (q, e)); [by destruct e|done].
Qed.

Lemma flags_step c c' : done_ok c.1 → tx_step c c' → nq_flags c'.2.1 = nq_flags c.2.1.
Proof.
  intros Hok Hst. destruct Hst as [q e Hr Hd|quota s v n q e Hd|quota s skb v n s' Hd Hn|skb txq q e Hr Hd Hl Hb Hz
    |skb txq v from s r s' Hx|r from s more s' c Hl Ha|ph skb q e rc sch fr He|ph q e l|ph s s' Hs|ph q e|ph q e d];
    simpl; try by destruct q.
  - destruct (ends_dequeue_skb s _ _ Hd) as [Hf _]. injection Hf as _ Hf _. by destruct q.
  - destruct (ends_dequeue_skb s _ _ Hd) as [Hf _]. by injection Hf as _ Hf _.
  - revert Hx. unfold sch_direct_xmit_unlocked.
    destruct (if v then _ else _) as [[l a] n]. unfold cbind at 1, upd_e.
    case_match; [by intros [= <- <-]|]. destruct l as [|x l]; [by intros [= <- <-]|].
    unfold cbind at 1, get_e. case_match; [by intros [= <- <-]|]. unfold cbind, dev_hard_start_xmit.
    destruct (hard_xmit_loop _ _ _ _) as [[r1 s1]|] eqn:E; [|done].
    apply ends_hard_xmit in E as [Hq _]; [|done]. intros [= <- <-]. by rewrite Hq.
  - destruct (ends_locked r from s Hok _ _ Hl) as [Hf _]. injection Hf as _ Hf _. rewrite <- Hf. clear Hl Hf.
    unfold after_xmit in Ha. destruct (schedule_spec s') as (s2 & Hs2 & _ & Hf2 & _). rewrite Hs2 in Ha.
    injection Hf2 as _ Hf2 _. repeat case_match; simplify_eq; simpl; rewrite <- ?Hf2.
    + by destruct s' as [[] ?].
    + by destruct s2 as [[] ?].
    + done.
    + done.
  - destruct (schedule_spec s) as (s2 & Hs2 & _ & Hf2 & _). rewrite Hs in Hs2. injection Hs2 as <-.
    by injection Hf2 as _ Hf2 _.
Qed.

Section order.
Context `{!NoOffload} `{!RootCounted}.

(** A queue with its own lock never bypasses; the others count their packets. *)
Definition bypass_ok (s : txs Q D) : Prop := TCQ_F_NOLOCK (nq_flags s.1) = true ∨ counted_q s.

(** A step with fewer than 2^32 packets queued, in which no packet is refused
    while others wait. *)
Definition orderly (c c' : config) : Prop := tx_step c c' ∧ refused_alone c ∧ backlog_of c.2.1 < 2 ^ 32.

Lemma bypass_alone_step c c' : tx_step c c' → bypass_ok c.2 → backlog_of c.2.1 < 2 ^ 32 → bypass_alone c c'.
Proof.
  intros Hst Hok Hb. unfold bypass_alone. destruct Hst; simpl in *; repeat case_match; try done.
  - destruct Hok as [Hn|[_ Hc]]; simpl in *; [congruence|]. unfold backlog_of in *.
    match goal with Hz : rq_qlen _ = 0 |- _ => rewrite Hz, (u32_small 0), u32_small in Hc by lia end.
    destruct (gso_skb q); [done|]. simpl in Hc. lia.
Qed.

Lemma orderly_step c c' : one_queue → orderly c c' → ordered c ∧ bypass_ok c.2 → ordered c' ∧ bypass_ok c'.2.
Proof.
  intros Hone (Hst & Hra & Hb) [Ho Hok]. split.
  - apply (ordered_step c); [done..| |done]. by apply bypass_alone_step.
  - destruct Hok as [Hn|Hc]; [left|right; by eapply counted_step].
    rewrite (flags_step c c'); [done| |done]. destruct c as [ph s]. apply Ho.
Qed.

(** With one transmit queue, packets reach the driver in the order in which
    the queueing discipline released them, whatever enqueues, device events and
    soft interrupts interleave, as long as no packet is refused while others
    wait in [gso_skb]. *)
Theorem xmit_in_order c ph q e :
  one_queue → ordered c → bypass_ok c.2 → rtc orderly c (ph, (q, e)) →
  vx (tx_pulled e) = tx_sent e ++ inflight ph ++ gso_skb q.
Proof.
  intros Hone Ho Hok Hst.
  by destruct (rtc_invariant _ _ (λ x y, orderly_step x y Hone) _ _ (conj Ho Hok) Hst) as [[Hi _] _].
Qed.

(** The length counter of a queue counts, modulo 2^32, the packets of the
    discipline, those that wait for another attempt and those put aside. *)
Theorem xmit_qlen_exact c ph q e :
  counted_q c.2 → rtc tx_step c (ph, (q, e)) → u32 (rq_qlen (nq_sch q)) = u32 (backlog_of q).
Proof. intros Hc Hst. apply (rtc_invariant _ (λ c, counted_q c.2) counted_step _ _ Hc Hst). Qed.

End order.

(** ** Executable executions

    The next step of the owner of the running bit. *)
Definition owner_step (c : config) : option config :=
  match c with
  | (PIdle, (q, e)) =>
      if nq_running q || nq_deactivated q then None else Some (PRun dev_tx_weight, (q_set_running true q, e))
  | (PRun quota, s) =>
      match dequeue_skb clock s with
      | Some (([], _, _), (q, e)) => Some (PIdle, (q_set_running false q, e))
      | Some ((skb, validate, packets), s') =>
          Some (PSend skb (chain_txq skb) validate (Some (packets, quota)), s')
      | None => None
      end
  | (PSend skb txq validate from, s) =>
      match sch_direct_xmit_unlocked xfrm_config skb txq validate s with
      | Some (r, s') => Some (PDone r from, s')
      | None => None
      end
  | (PDone r from, s) =>
      match sch_direct_xmit_locked r s with
      | Some (more, s') => after_xmit more from s'
      | None => None
      end
  end.

Lemma owner_step_ok c c' : owner_step c = Some c' → tx_step c c'.
Proof.
  destruct c as [[|quota|skb txq v from|r from] s]; cbn [owner_step].
  - destruct s as [q e]. destruct (nq_running q) eqn:Er, (nq_deactivated q) eqn:Ed; try done.
    intros [= <-]. by apply st_begin.
  - destruct (dequeue_skb clock s) as [[[[[|x l] v] n] s']|] eqn:E; [destruct s' as [q e]| |done];
      intros [= <-]; [by eapply st_empty|by eapply st_dequeue].
  - destruct (sch_direct_xmit_unlocked _ _ _ _ _) as [[r s']|] eqn:E; [|done]. intros [= <-]. by apply st_xmit.
  - destruct (sch_direct_xmit_locked r s) as [[more s']|] eqn:E; [|done]. by eapply st_finish.
Qed.

Definition refused_aloneb (c : config) : bool :=
  match c with
  | (PDone (XRet ret _) _, (q, _)) =>
      dev_xmit_complete ret || match gso_skb q with [] => true | _ :: _ => false end
  | _ => true
  end.

Lemma refused_aloneb_ok c : refused_aloneb c = true → refused_alone c.
Proof.
  destruct c as [[| | |[]] [q e]]; try done. simpl. intros Hr. apply orb_prop in Hr as [Hr|Hr]; [by left|].
  right. by destruct (gso_skb q).
Qed.

(** [n] steps of the owner, from states that pass the test [ok]. *)
Fixpoint owner_run (ok : config → bool) (n : nat) (c : config) : option config :=
  match n with
  | O => Some c
  | S n => if ok c then match owner_step c with Some c' => owner_run ok n c' | None => None end else None
  end.

Lemma owner_run_ok (ok : config → bool) (R : relation config) n c c' :
  (∀ x y, tx_step x y → ok x = true → R x y) → owner_run ok n c = Some c' → rtc R c c'.
Proof.
  intros HR. revert c. induction n as [|n IH]; intros c; simpl; [by intros [= <-]|].
  destruct (ok c) eqn:Er; [|done]. destruct (owner_step c) as [c1|] eqn:E; [|done].
  intros Hrun. eapply rtc_l; [|by apply IH]. apply HR; [by apply owner_step_ok|done].
Qed.

End path.
