(* ===== verification/XmitRun.v ===== *)
(** * Runs of the transmit path

    [__qdisc_run], [__dev_xmit_skb] and [net_tx_action] return, are executions
    of the step relation of XmitTheorems.v, and never leave packets behind that
    nobody will come back for. *)

From Stdlib Require Import ZArith Lia.
From stdpp Require Import base numbers list gmap option relations.
From S2P Require Import Prelude Sched XmitPath XmitTheorems.

Open Scope Z_scope.

Section runs.
Context `{TxHeadersOk} `{TxValidate} {Q D : Type} `{RootQdisc Q} `{TxDevice D} `{KernelHeaders}.
Context (clock : nat → Z) (need_resched : nat → bool) (dev_tx_weight : Z) (xfrm_config : bool).

(** ** Termination *)

(** The packets a discipline releases are not empty, so that the byte budget of
    a bulk dequeue shrinks. *)
Class RootSized := {
  rq_wf : Q → Prop;
  wf_dequeue : ∀ now d q o q', rq_wf q → rq_dequeue now d q = (o, q') →
    rq_wf q' ∧ ∀ skb, o = Some skb → 1 ≤ skb_len skb < 2 ^ 31;
  wf_set_qlen : ∀ n q, rq_wf q → rq_wf (rq_set_qlen n q);
  wf_set_qstats : ∀ st q, rq_wf q → rq_wf (rq_set_qstats st q);
  wf_cpu_inc : ∀ skb q, rq_wf q → rq_wf (rq_cpu_inc skb q);
  wf_cpu_dec : ∀ skb q, rq_wf q → rq_wf (rq_cpu_dec skb q);
}.

Section halting.
Context `{!RootSized}.

(** [m] returns from every state with a well-formed discipline. *)
Definition halts {A} (m : M (txs Q D) A) : Prop :=
  ∀ s, rq_wf (nq_sch s.1) → ∃ a s', m s = Some (a, s') ∧ rq_wf (nq_sch s'.1).

Lemma halts_ret {A} (a : A) : halts (cret a).
Proof. intros s Hs. by exists a, s. Qed.

Lemma halts_bind {A B} (m : M (txs Q D) A) (k : A → M (txs Q D) B) :
  halts m → (∀ a, halts (k a)) → halts (cbind m k).
Proof.
  intros Hm Hk s Hs. destruct (Hm s Hs) as (a & s1 & Ha & Hs1). destruct (Hk a s1 Hs1) as (b & s2 & Hb & Hs2).
  exists b, s2. unfold cbind. by rewrite Ha.
Qed.

Lemma halts_get_q : halts get_q.
Proof. intros s Hs. by eexists _, _. Qed.

Lemma halts_get_e : halts get_e.
Proof. intros s Hs. by eexists _, _. Qed.

Lemma halts_upd_e f : halts (upd_e f).
Proof. intros s Hs. by eexists _, _. Qed.

Lemma halts_upd_q f : (∀ q, rq_wf (nq_sch q) → rq_wf (nq_sch (f q))) → halts (upd_q f).
Proof. intros Hf s Hs. eexists _, _. split; [done|]. by apply Hf. Qed.

#[local] Hint Resolve halts_ret halts_get_q halts_get_e halts_upd_e : tx_halts.

Lemma wf_plain_inc skb q : rq_wf (nq_sch q) → rq_wf (nq_sch (plain_inc skb q)).
Proof. intros Hq. destruct q. simpl. by apply wf_set_qlen, wf_set_qstats. Qed.

Lemma wf_count_inc skb q : rq_wf (nq_sch q) → rq_wf (nq_sch (count_inc skb q)).
Proof. intros Hq. unfold count_inc. case_match; [destruct q; by apply wf_cpu_inc|by apply wf_plain_inc]. Qed.

Lemma wf_count_dec skb q : rq_wf (nq_sch q) → rq_wf (nq_sch (count_dec skb q)).
Proof.
  intros Hq. unfold count_dec. case_match; destruct q; [by apply wf_cpu_dec|by apply wf_set_qlen, wf_set_qstats].
Qed.

Lemma wf_put_aside skb q : rq_wf (nq_sch q) → rq_wf (nq_sch (count_inc skb (q_set_bad (skb_bad_txq q ++ [skb]) q))).
Proof. intros Hq. apply wf_count_inc. by destruct q. Qed.

Lemma wf_gso_dequeue q : rq_wf (nq_sch q) → rq_wf (nq_sch (gso_dequeue q)).
Proof. intros Hq. unfold gso_dequeue. case_match; [done|]. apply wf_count_dec. by destruct q. Qed.

Lemma wf_bad_dequeue q : rq_wf (nq_sch q) → rq_wf (nq_sch (bad_txq_dequeue q)).
Proof. intros Hq. unfold bad_txq_dequeue. case_match; [done|]. apply wf_count_dec. by destruct q. Qed.

Lemma wf_requeue skb q : rq_wf (nq_sch q) → rq_wf (nq_sch (plain_inc skb (gso_tail skb q))).
Proof. intros Hq. apply wf_plain_inc. by destruct q. Qed.

(** One step of a totality proof: split a sequence, try what is known. *)
Ltac tot := repeat first
  [ progress eauto with tx_halts
  | apply halts_bind; [|intros ?]
  | apply halts_upd_q; by eauto using wf_put_aside, wf_gso_dequeue, wf_bad_dequeue, wf_requeue
  | apply halts_upd_q; let x := fresh in let Hx := fresh in intros x Hx; destruct x; simpl in *; by eauto using wf_cpu_inc ].

Lemma halts_schedule : halts __netif_schedule.
Proof. unfold __netif_schedule. apply halts_bind; [tot|]. intros q. case_match; tot. Qed.

#[local] Hint Resolve halts_schedule : tx_halts.

Lemma q_dequeue_halts (s : txs Q D) : rq_wf (nq_sch s.1) → ∃ o s', q_dequeue clock s = Some (o, s') ∧
  rq_wf (nq_sch s'.1) ∧ ∀ skb, o = Some skb → 1 ≤ skb_len skb < 2 ^ 31.
Proof.
  intros Hs. destruct (q_dequeue_spec clock s) as (o & s' & Hd & _ & _ & _ & _ & Hr).
  exists o, s'. split; [done|]. by eapply wf_dequeue.
Qed.

Lemma halts_dequeue : halts (q_dequeue clock).
Proof. intros s Hs. destruct (q_dequeue_halts s Hs) as (o & s' & Hd & Hs' & _). by exists o, s'. Qed.

#[local] Hint Resolve halts_dequeue : tx_halts.

Lemma halts_bulk_loop fuel lim : lim < 2 ^ 31 → (Z.to_nat lim < fuel)%nat → halts (bulk_loop clock fuel lim).
Proof.
  revert lim. induction fuel as [|fuel IH]; intros lim Hlim Hf; [lia|]. simpl.
  destruct (Z.ltb_spec 0 lim); [|tot]. intros s Hs.
  destruct (q_dequeue_halts s Hs) as (o & s1 & Hd & Hs1 & Ho). unfold cbind at 1. rewrite Hd.
  destruct o as [skb|]; [|by apply halts_ret]. specialize (Ho skb eq_refl).
  apply halts_bind; [|tot|done]. rewrite s32_small by lia. apply IH; lia.
Qed.

Lemma halts_slow_loop n mapping : halts (slow_loop clock n mapping).
Proof.
  induction n as [|n IH]; simpl; [tot|]. apply halts_bind; [tot|]. intros [nskb|]; [|tot].
  case_match; [|tot]. unfold qdisc_enqueue_skb_bad_txq. tot.
Qed.

Lemma halts_dequeue_bulk skb : halts (dequeue_bulk clock skb).
Proof.
  unfold dequeue_bulk. tot. case_match.
  - unfold try_bulk_dequeue_skb. tot. apply halts_bulk_loop; [|lia].
    match goal with |- s32 ?x < _ => pose proof (s32_range x) end. lia.
  - unfold try_bulk_dequeue_skb_slow. apply halts_bind; [apply halts_slow_loop|]. tot.
Qed.

#[local] Hint Resolve halts_dequeue_bulk : tx_halts.

Lemma halts_dequeue_skb : halts (dequeue_skb clock).
Proof.
  unfold dequeue_skb. apply halts_bind; [tot|]. intros q. apply halts_bind; [tot|]. intros e.
  destruct (gso_skb q); case_match; [tot| |tot|tot]. apply halts_bind.
  - unfold qdisc_dequeue_skb_bad_txq, __skb_dequeue_bad_txq. apply halts_bind; [tot|]. intros q1.
    case_match; tot. case_match; [tot|]. case_match; tot.
  - intros [skb|]; tot. case_match; tot.
Qed.

Lemma halts_requeue l : halts (dev_requeue_skb l).
Proof.
  unfold dev_requeue_skb. apply halts_bind; [tot|]. intros q. case_match.
  - unfold dev_requeue_skb_locked. apply halts_bind; [|intros; tot]. induction l; simpl; tot.
  - unfold __dev_requeue_skb. apply halts_bind; [|intros; tot]. induction l; simpl; tot.
Qed.

#[local] Hint Resolve halts_requeue : tx_halts.

Lemma halts_direct_xmit l txq v : halts (sch_direct_xmit xfrm_config l txq v).
Proof.
  unfold sch_direct_xmit. apply halts_bind.
  - unfold sch_direct_xmit_unlocked. destruct (if v then _ else _) as [[k a] n]. apply halts_bind; [tot|]. intros _.
    case_match; [tot|]. destruct k as [|x k]; [tot|]. apply halts_bind; [tot|]. intros e. case_match; [tot|].
    apply halts_bind; [|intros; tot]. unfold dev_hard_start_xmit. generalize NETDEV_TX_OK.
    induction (x :: k) as [|y ys IH]; intros rc; simpl; [tot|]. unfold xmit_one. tot.
    case_match; [tot|]. tot. destruct ys; [tot|]. case_match; [tot|apply IH].
  - intros []; simpl; tot. case_match; tot.
Qed.

Lemma dequeue_skb_packets (s : txs Q D) : ends (dequeue_skb clock) s (λ r _, 1 ≤ r.2).
Proof.
  assert (∀ skb s, ends (dequeue_bulk clock skb) s (λ r _, 1 ≤ r.2)) as Hb.
  { intros skb s1. eapply ends_weaken; [apply (ends_dequeue_bulk clock skb s1)|].
    intros r s2 (rest & extra & -> & _). simpl. lia. }
  intros r s'. unfold dequeue_skb. unfold cbind at 1 2, get_q, get_e. cbv beta iota.
  destruct (gso_skb s.1); case_match; try (by intros [= <- <-]). revert r s'.
  eapply ends_bind; [apply ends_bad_txq|]. cbv beta. intros [skb|] s1 _; [apply Hb|].
  eapply (ends_bind _ _ _ _ (λ _ _, True)); [by intros ? ?|]. intros [skb|] s2 _; [apply Hb|by apply ends_ret].
Qed.

Lemma halts_restart : halts (qdisc_restart clock xfrm_config).
Proof.
  unfold qdisc_restart. apply halts_bind; [apply halts_dequeue_skb|]. intros [[[|x l] v] n]; [tot|].
  apply halts_bind; [apply halts_direct_xmit|]. intros. tot.
Qed.

Lemma restart_packets (s : txs Q D) : ends (qdisc_restart clock xfrm_config) s (λ r _, 1 ≤ r.2).
Proof.
  unfold qdisc_restart. eapply ends_bind; [apply dequeue_skb_packets|]. cbv beta.
  intros [[[|x l] v] n] s1 Hn; [by apply ends_ret|].
  eapply (ends_bind _ _ _ _ (λ _ _, True)); [by intros ? ?|]. intros more s2 _. by apply ends_ret.
Qed.

Lemma halts_run_loop fuel quota : (Z.to_nat quota < fuel)%nat →
  halts (qdisc_run_loop clock need_resched xfrm_config fuel quota).
Proof.
  revert quota. induction fuel as [|fuel IH]; intros quota Hf; [lia|]. cbn [qdisc_run_loop]. intros s Hs.
  destruct (halts_restart s Hs) as ([more n] & s1 & Hr & Hs1). pose proof (restart_packets s _ _ Hr) as Hn.
  unfold cbind at 1. rewrite Hr. cbn [fst snd] in *. destruct more; [|by apply halts_ret].
  apply halts_bind; [|intros yield|done]. { unfold resched. tot. }
  destruct (Z.leb_spec (quota - n) 0); [tot|]. destruct yield; [tot|]. apply IH. lia.
Qed.

Lemma halts_qdisc_run : halts (__qdisc_run clock need_resched dev_tx_weight xfrm_config).
Proof. apply halts_run_loop. lia. Qed.

Lemma halts_run : halts (qdisc_run clock need_resched dev_tx_weight xfrm_config).
Proof.
  unfold qdisc_run, run_begin, run_end. apply halts_bind.
  - apply halts_bind; [tot|]. intros q. case_match; tot.
  - intros b. case_match; [|tot]. apply halts_bind; [tot|]. intros q. apply halts_bind; [|intros; tot].
    case_match; [apply halts_qdisc_run|tot].
Qed.

End halting.

(** ** Progress *)

(** The next packet waits for the device. *)
Definition waits_for_device (s : txs Q D) : Prop :=
  (∃ skb rest, gso_skb s.1 = skb :: rest ∧
     netif_xmit_frozen_or_stopped (skb_get_queue_mapping skb) (tx_dev s.2) = true) ∨
  (gso_skb s.1 = [] ∧ TCQ_F_ONETXQUEUE (nq_flags s.1) = true ∧
     netif_xmit_frozen_or_stopped (nq_dev_queue s.1) (tx_dev s.2) = true).

Lemma q_dequeue_reads (s : txs Q D) o s' : q_dequeue clock s = Some (o, s') → tx_reads s'.2 = S (tx_reads s.2).
Proof.
  destruct s as [q []]. unfold q_dequeue, get_q, get_e, upd_q, upd_e, cbind, cret. simpl.
  destruct (rq_dequeue _ _ _) as [[] ?]; by intros [= <- <-].
Qed.

(** An invariant of the discipline at its [k]-th reading of the clock. *)
Class TimedInv (I : nat → Q → Prop) : Prop := {
  inv_dequeue : ∀ k d q o q', I k q → rq_dequeue (clock k) d q = (o, q') → I (S k) q';
  inv_set_qlen : ∀ k n q, I k q → I k (rq_set_qlen n q);
  inv_set_qstats : ∀ k st q, I k q → I k (rq_set_qstats st q);
  inv_cpu_inc : ∀ k skb q, I k q → I k (rq_cpu_inc skb q);
  inv_cpu_dec : ∀ k skb q, I k q → I k (rq_cpu_dec skb q);
}.

Section progress.
Context {I : nat → Q → Prop} `{!TimedInv I}.

Definition inv_now (s : txs Q D) : Prop := I (tx_reads s.2) (nq_sch s.1).

Definition keeps_inv {A} (m : M (txs Q D) A) : Prop := ∀ s, inv_now s → ends m s (λ _, inv_now).

Lemma keeps_upd_q f : (∀ q k, I k (nq_sch q) → I k (nq_sch (f q))) → keeps_inv (upd_q f).
Proof. intros Hf [q e] Hs [] s' [= <-]. by apply Hf. Qed.

Lemma keeps_upd_e f : (∀ e, tx_reads (f e) = tx_reads e) → keeps_inv (upd_e f).
Proof. intros Hf [q e] Hs [] s' [= <-]. unfold inv_now in *. simpl in *. by rewrite Hf. Qed.

Lemma preserves_ret {A} (a : A) : keeps_inv (cret a).
Proof. intros s Hs. by apply ends_ret. Qed.

Lemma preserves_bind {A B} (m : M (txs Q D) A) (k : A → M (txs Q D) B) :
  keeps_inv m → (∀ a, keeps_inv (k a)) → keeps_inv (cbind m k).
Proof. intros Hm Hk s Hs. eapply ends_bind; [by apply Hm|]. intros a s' Hs'. by apply Hk. Qed.

Lemma inv_count_inc skb q k : I k (nq_sch q) → I k (nq_sch (count_inc skb q)).
Proof.
  intros Hq. unfold count_inc, plain_inc.
  case_match; destruct q; simpl in *; [by apply inv_cpu_inc|by apply inv_set_qlen, inv_set_qstats].
Qed.

Lemma inv_count_dec skb q k : I k (nq_sch q) → I k (nq_sch (count_dec skb q)).
Proof.
  intros Hq. unfold count_dec, plain_dec.
  case_match; destruct q; simpl in *; [by apply inv_cpu_dec|by apply inv_set_qlen, inv_set_qstats].
Qed.

Lemma keeps_schedule : keeps_inv __netif_schedule.
Proof.
  unfold __netif_schedule. apply preserves_bind; [by intros s Hs ? ? [= <- <-]|]. intros q. case_match; [apply preserves_ret|].
  apply preserves_bind; [apply keeps_upd_q; by intros []|]. intros _. apply keeps_upd_e. by intros [].
Qed.

#[export] Instance keeps_inv_closed : TxClosed clock (@keeps_inv).
Proof.
  constructor; intros; try (by apply preserves_bind); eauto using preserves_ret, keeps_schedule;
    try (by intros s Hs ? ? [= <- <-]).
  - intros s Hs o s' Hd. destruct (q_dequeue_spec clock s) as (o1 & s1 & Hd1 & _ & _ & _ & _ & Hr).
    pose proof (q_dequeue_reads _ _ _ Hd1) as He.
    rewrite Hd in Hd1. injection Hd1 as <- <-. unfold inv_now in *. rewrite He. by eapply inv_dequeue.
  - apply keeps_upd_q. intros q k Hq. unfold gso_dequeue. case_match; [done|]. apply inv_count_dec. by destruct q.
  - apply keeps_upd_q. intros q k Hq. unfold bad_txq_dequeue. case_match; [done|]. apply inv_count_dec. by destruct q.
  - apply keeps_upd_q. intros q k Hq. apply inv_count_inc. by destruct q.
  - unfold dev_requeue_skb, dev_requeue_skb_locked, __dev_requeue_skb.
    apply preserves_bind; [by intros s Hs ? ? [= <- <-]|]. intros q.
    case_match; (apply preserves_bind; [|intros _; apply preserves_bind; [apply keeps_schedule|intros _; apply preserves_ret]]);
      induction l as [|x l IH]; simpl; try apply preserves_ret; (apply preserves_bind; [|done]); apply keeps_upd_q;
      intros q1 k Hq; destruct q1; simpl in *; by first [apply inv_cpu_inc|apply inv_set_qlen, inv_set_qstats].
  - unfold xmit_one. apply preserves_bind; [by intros s Hs ? ? [= <- <-]|]. intros e.
    apply preserves_bind; [apply keeps_upd_e; by intros []|]. intros _. apply preserves_ret.
  - apply keeps_upd_e. by intros [].
  - apply keeps_upd_e. by intros [].
Qed.

(** Nothing waits but what the device refuses and what the discipline, last asked
    at its [k]-th reading of the clock, holds back. *)
Definition nothing_released (s : txs Q D) : Prop :=
  gso_skb s.1 = [] ∧
  (skb_bad_txq s.1 = [] ∨ ∃ skb rest, skb_bad_txq s.1 = skb :: rest ∧
     netif_xmit_frozen_or_stopped (skb_get_queue_mapping skb) (tx_dev s.2) = true) ∧
  ∃ k sch, I k sch ∧ tx_reads s.2 = S k ∧ rq_dequeue (clock k) (nq_deactivated s.1) sch = (None, nq_sch s.1).

Lemma bad_txq_none s s' : qdisc_dequeue_skb_bad_txq s = Some (None, s') →
  s' = s ∧ (skb_bad_txq s.1 = [] ∨ ∃ skb rest, skb_bad_txq s.1 = skb :: rest ∧
     netif_xmit_frozen_or_stopped (skb_get_queue_mapping skb) (tx_dev s.2) = true).
Proof.
  unfold qdisc_dequeue_skb_bad_txq, __skb_dequeue_bad_txq, get_q, get_e, upd_q, cbind, cret.
  destruct (skb_bad_txq s.1) as [|skb rest] eqn:Eb; [intros [= <-]; by eauto|]. rewrite Eb.
  case_match eqn:Ef; [|done]. intros [= <-]. split; [done|]. right. by exists skb, rest.
Qed.

Lemma dequeue_skb_none (s : txs Q D) : inv_now s →
  ends (dequeue_skb clock) s (λ r s', r.1.1 = [] → waits_for_device s' ∨ nothing_released s').
Proof.
  intros Hi.
  assert (∀ skb s, ends (dequeue_bulk clock skb) s (λ r s', r.1.1 = [] → waits_for_device s' ∨ nothing_released s')) as Hb.
  { intros skb s1. eapply ends_weaken; [apply (ends_dequeue_bulk clock skb s1)|].
    by intros r s2 (rest & extra & -> & _). }
  intros r s'. unfold dequeue_skb. unfold cbind at 1 2, get_q, get_e. cbv beta iota.
  destruct (gso_skb s.1) as [|x l] eqn:Eg.
  - case_match eqn:Ef.
    { intros [= <- <-] _. left. right. apply andb_prop in Ef as [? ?]. done. }
    unfold cbind at 1. destruct (qdisc_dequeue_skb_bad_txq s) as [[[skb|] s1]|] eqn:E; [apply Hb| |done].
    apply bad_txq_none in E as [-> Hbad]. destruct (q_dequeue_spec clock s) as (o & s1 & Hd & Hf & _ & He & Hv & Hr).
    unfold cbind. rewrite Hd. destruct o as [skb|]; [apply Hb|]. intros [= <- <-] _. right.
    unfold view in Hv. injection Hv as _ _ Hg Hbd. injection Hf as _ _ _ Hde _. rewrite <- Hde in Hr.
    rewrite <- Hbd, <- He in Hbad. split; [congruence|]. split; [exact Hbad|]. eexists _, _. split; [exact Hi|].
    split; [by eapply q_dequeue_reads|exact Hr].
  - case_match eqn:Ef; [by intros [= <- <-]|]. intros [= <- <-] _. left. left.
    exists x, l. split; [done|]. by apply negb_false_iff in Ef.
Qed.

Lemma run_loop_no_stall fuel quota s s' : inv_now s →
  qdisc_run_loop clock need_resched xfrm_config fuel quota s = Some (tt, s') →
  nq_sched s'.1 = true ∨ waits_for_device s' ∨ nothing_released s'.
Proof.
  revert s quota.
  induction fuel as [|fuel IH]; intros s quota Hi; [done|]. cbn [qdisc_run_loop]. unfold cbind at 1, qdisc_restart.
  unfold cbind at 1. destruct (dequeue_skb clock s) as [[[[skb v] n] s1]|] eqn:Ed; [|done].
  destruct skb as [|x l].
  { intros [= <-]. right. by apply (dequeue_skb_none s Hi _ _ Ed). }
  pose proof (closed_dequeue_skb clock (P := @keeps_inv) _ Hi _ _ Ed) as Hi1.
  unfold cbind at 1, sch_direct_xmit. unfold cbind at 1.
  destruct (sch_direct_xmit_unlocked xfrm_config _ _ _ s1) as [[r s2]|] eqn:Eu; [|done].
  pose proof (closed_unlocked clock xfrm_config (P := @keeps_inv) _ _ _ _ Hi1 _ _ Eu) as Hi2.
  destruct (sch_direct_xmit_locked r s2) as [[more s3]|] eqn:El; [|done].
  pose proof (closed_locked clock (P := @keeps_inv) _ _ Hi2 _ _ El) as Hi3. cbn [cret fst snd]. destruct more.
  - unfold resched, cbind, get_e, cret. cbn [fst snd]. case_match; [|by apply IH].
    destruct (schedule_spec s3) as (s4 & Hs4 & _ & _ & Hsc & _). rewrite Hs4. intros [= <-]. by left.
  - intros [= <-]. left.
    assert (∀ l s2, (dev_requeue_skb l ;;; cret false) s2 = Some (false, s3) → nq_sched s3.1 = true) as Hrq.
    { intros k s4. destruct (requeue_spec k s4) as (s5 & Hr & _ & Hs & _). unfold cbind. rewrite Hr. by intros [= <-]. }
    revert El. destruct r; simpl; [apply Hrq|done|]. case_match; [apply Hrq|done].
Qed.

(** [__qdisc_run] never leaves packets behind unattended: when it returns,
    the queue is scheduled to run again, or the next packet waits for the
    device, whose wake-up schedules the queue, or the discipline released
    nothing when it was last asked. *)
Theorem qdisc_run_no_stall s s' : inv_now s →
  __qdisc_run clock need_resched dev_tx_weight xfrm_config s = Some (tt, s') →
  nq_sched s'.1 = true ∨ waits_for_device s' ∨ nothing_released s'.
Proof. apply run_loop_no_stall. Qed.

End progress.

(** ** Sequential runs are executions *)

Notation step := (tx_step clock need_resched dev_tx_weight xfrm_config).

Lemma run_loop_steps fuel quota s s' :
  qdisc_run_loop clock need_resched xfrm_config fuel quota s = Some (tt, s') →
  rtc step (PRun quota, s) (PIdle, (q_set_running false s'.1, s'.2)).
Proof.
  revert s quota.
  induction fuel as [|fuel IH]; intros s quota; [done|]. cbn [qdisc_run_loop]. unfold cbind at 1, qdisc_restart.
  unfold cbind at 1. destruct (dequeue_skb clock s) as [[[[skb v] n] s1]|] eqn:Ed; [|done].
  destruct skb as [|x l].
  { intros [= <-]. destruct s1 as [q e]. eapply rtc_once, st_empty. exact Ed. }
  unfold sch_direct_xmit. unfold cbind at 1 2.
  destruct (sch_direct_xmit_unlocked xfrm_config _ _ _ s1) as [[r s2]|] eqn:Eu; [|done].
  destruct (sch_direct_xmit_locked r s2) as [[more s3]|] eqn:El; [|done]. intros Hrun.
  eapply rtc_l; [by eapply st_dequeue|]. eapply rtc_l; [by eapply st_xmit|]. revert Hrun. cbn [cret fst snd].
  destruct more.
  - unfold resched, cbind, get_e, cret. cbn [fst snd]. intros Hrun.
    destruct ((quota - n <=? 0) || need_resched (tx_reads s3.2)) eqn:Eq.
    + eapply rtc_once, st_finish; [exact El|]. unfold after_xmit. cbn [negb]. by rewrite Eq, Hrun.
    + eapply rtc_l; [|by apply IH]. eapply st_finish; [exact El|]. unfold after_xmit. cbn [negb]. by rewrite Eq.
  - intros [= <-]. by eapply rtc_once, st_finish.
Qed.

(** Taking the running bit, running, and giving it back. *)
Lemma run_steps q e s' : nq_running q = false → nq_deactivated q = false →
  (__qdisc_run clock need_resched dev_tx_weight xfrm_config ;;; run_end) (q_set_running true q, e) = Some (tt, s') →
  rtc step (PIdle, (q, e)) (PIdle, s').
Proof.
  intros Hr Hd. unfold cbind. destruct (__qdisc_run _ _ _ _ _) as [[[] s1]|] eqn:E; [|done].
  intros [= <-]. eapply rtc_l; [by apply st_begin|]. by apply run_loop_steps in E.
Qed.

Lemma cbind_eq {S A B} (m : M S A) (k : A → M S B) s a s1 : m s = Some (a, s1) → cbind m k s = k a s1.
Proof. unfold cbind. by intros ->. Qed.

Lemma run_begin_eq (q : nqdisc Q) (e : txenv D) : nq_running q = false →
  run_begin (q, e) = Some (true, (q_set_running true q, e)).
Proof. intros Hr. unfold run_begin, cbind, get_q. simpl. by rewrite Hr, run_begin_idle. Qed.

Lemma qdisc_run_eq q e : nq_running q = false → nq_deactivated q = false →
  qdisc_run clock need_resched dev_tx_weight xfrm_config (q, e) =
  (__qdisc_run clock need_resched dev_tx_weight xfrm_config ;;; run_end) (q_set_running true q, e).
Proof.
  intros Hr Hd. unfold qdisc_run. rewrite (cbind_eq _ _ _ _ _ (run_begin_eq q e Hr)).
  unfold cbind at 1, get_q. cbn [fst snd].
  assert (nq_deactivated (q_set_running true q) = false) as -> by by destruct q. by rewrite run_enters_active.
Qed.

(** The two ways to enqueue and run. *)
Lemma enqueue_run_steps skb q e (run : M (txs Q D) unit) rc s' :
  nq_running q = false → nq_deactivated q = false →
  (∀ q e s1, nq_running q = false → nq_deactivated q = false → run (q, e) = Some (tt, s1) →
     (__qdisc_run clock need_resched dev_tx_weight xfrm_config ;;; run_end) (q_set_running true q, e) = Some (tt, s1)) →
  (let* r := q_enqueue skb in run ;;; upd_e (e_free r.2) ;;; cret r.1) (q, e) = Some (rc, s') →
  rtc step (PIdle, (q, e)) (PIdle, s').
Proof.
  intros Hr Hd Hrun. destruct (rq_enqueue skb (nq_sch q)) as [[rc0 sch] fr] eqn:Ee.
  erewrite cbind_eq; [|unfold q_enqueue, cbind, get_q, upd_q; cbn [fst snd]; by rewrite Ee].
  assert (nq_running (q_set_sch sch q) = false ∧ nq_deactivated (q_set_sch sch q) = false) as [Hr1 Hd1] by by destruct q.
  unfold cbind at 1. destruct (run _) as [[[] s1]|] eqn:Es; [|done]. intros [= <- <-].
  eapply rtc_l; [eapply st_enqueue; exact Ee|]. eapply rtc_r; [|apply st_free].
  apply run_steps; [done..|]. rewrite <- surjective_pairing. by apply Hrun.
Qed.

(** A packet sent past the empty queue. *)
Lemma bypass_steps skb txq q e rc s' :
  nq_running q = false → nq_deactivated q = false → TCQ_F_NOLOCK (nq_flags q) = false →
  TCQ_F_CAN_BYPASS (nq_flags q) = true → rq_qlen (nq_sch q) = 0 →
  (let* more := sch_direct_xmit xfrm_config [skb] txq true in
   (if more then __qdisc_run clock need_resched dev_tx_weight xfrm_config else cret tt) ;;;
   run_end ;;; cret NET_XMIT_SUCCESS)
    (q_set_sch (rq_bstats_update skb (nq_sch q)) (q_set_running true q), e_pull skb e) = Some (rc, s') →
  rtc step (PIdle, (q, e)) (PIdle, s').
Proof.
  intros Hr Hd Hl Hb Hz. unfold sch_direct_xmit. unfold cbind at 1 2.
  destruct (sch_direct_xmit_unlocked _ _ _ _ _) as [[r s2]|] eqn:Eu; [|done].
  destruct (sch_direct_xmit_locked r s2) as [[more s3]|] eqn:El; [|done]. intros Hx.
  eapply rtc_l; [by eapply (st_bypass _ _ _ _ skb txq)|]. eapply rtc_l; [by eapply st_xmit|]. revert Hx.
  unfold cbind. destruct more; cbn [cret fst snd].
  - destruct (__qdisc_run _ _ _ _ _) as [[[] s4]|] eqn:E; [|done]. cbn. intros [= <- <-].
    eapply rtc_l; [by eapply st_finish|]. by apply run_loop_steps in E.
  - cbn. intros [= <- <-]. eapply rtc_once. by eapply st_finish.
Qed.

(** C29: [__dev_xmit_skb] refines the interleaved semantics: a call that finds
    the queue at rest is an execution from rest to rest. *)
Theorem dev_xmit_skb_refines skb txq s rc s' :
  nq_running s.1 = false →
  __dev_xmit_skb clock need_resched dev_tx_weight xfrm_config skb txq s = Some (rc, s') →
  rtc step (PIdle, s) (PIdle, s').
Proof.
  destruct s as [q e]. intros Hr. cbn [fst] in Hr. unfold __dev_xmit_skb. unfold cbind at 1, get_q. cbn [fst snd].
  set (skb' := rq_calculate_pkt_len _ _). clearbody skb'.
  destruct (nq_deactivated q) eqn:Ed; [case_match; intros [= <- <-]; eapply rtc_once, st_free|].
  destruct (TCQ_F_NOLOCK (nq_flags q)) eqn:En.
  { apply enqueue_run_steps; [done..|]. intros q1 e1 s1 Hr1 Hd1. by rewrite qdisc_run_eq. }
  case_match eqn:Eb.
  - apply andb_prop in Eb as [Eb _]. apply andb_prop in Eb as [Eb Ez]. apply Z.eqb_eq in Ez.
    unfold cbind at 1 2 3, upd_q, upd_e. cbn [fst snd].
    assert (nq_sch (q_set_running true q) = nq_sch q) as -> by by destruct q. by apply bypass_steps.
  - intros Hx. eapply (enqueue_run_steps _ _ _ (let* b := run_begin in
      if b then __qdisc_run clock need_resched dev_tx_weight xfrm_config ;;; run_end else cret tt)); [done..| |exact Hx].
    intros q1 e1 s1 Hr1 Hd1. by rewrite (cbind_eq _ _ _ _ _ (run_begin_eq q1 e1 Hr1)).
Qed.

(** ** The soft interrupt *)

(** What an operation may do to the [SCHED] bit and the list of the CPU: nothing,
    or set the bit and append the queue. *)
Definition marked (s s' : txs Q D) : Prop :=
  nq_id s'.1 = nq_id s.1 ∧
  ((nq_sched s'.1 = nq_sched s.1 ∧ tx_output s'.2 = tx_output s.2) ∨
   (nq_sched s.1 = false ∧ nq_sched s'.1 = true ∧ tx_output s'.2 = tx_output s.2 ++ [nq_id s.1])).

Definition marks {A} (m : M (txs Q D) A) : Prop := ∀ s, ends m s (λ _, marked s).

#[local] Instance marked_trans : Transitive marked.
Proof.
  intros s1 s2 s3 [Hi1 H12] [Hi2 H23]. split; [congruence|]. rewrite Hi1 in H23.
  destruct H12 as [[E1 E2]|(E1 & E2 & E3)], H23 as [[E4 E5]|(E4 & E5 & E6)]; intuition congruence.
Qed.

Lemma marks_ret {A} (a : A) : marks (cret a).
Proof. intros s. apply ends_ret. split; [done|by left]. Qed.

Lemma marks_fail {A} : marks (cfail (A := A)).
Proof. by intros s ? ?. Qed.

Lemma marks_bind {A B} (m : M (txs Q D) A) (k : A → M (txs Q D) B) :
  marks m → (∀ a, marks (k a)) → marks (cbind m k).
Proof.
  intros Hm Hk s. eapply ends_bind; [apply Hm|]. intros a s1 Hs1. eapply ends_weaken; [apply Hk|].
  intros b s2 Hs2. by transitivity s1.
Qed.

Lemma marks_get_q : marks get_q.
Proof. intros s ? ? [= <- <-]. split; [done|by left]. Qed.

Lemma marks_get_e : marks get_e.
Proof. intros s ? ? [= <- <-]. split; [done|by left]. Qed.

Lemma marks_upd_e f : (∀ e, tx_output (f e) = tx_output e) → marks (upd_e f).
Proof. intros Hf s ? ? [= <- <-]. split; [done|]. left. simpl. by rewrite Hf. Qed.

Lemma marks_upd_q f : (∀ q, nq_id (f q) = nq_id q ∧ nq_sched (f q) = nq_sched q) → marks (upd_q f).
Proof. intros Hf s ? ? [= <- <-]. destruct (Hf s.1) as [E1 E2]. split; [done|]. by left. Qed.

Lemma marks_schedule : marks __netif_schedule.
Proof.
  intros [q e] [] s'. unfold __netif_schedule, cbind, get_q, upd_q, upd_e, cret. simpl.
  destruct (nq_sched q) eqn:E; intros [= <-]; unfold marked; simpl; [by eauto|].
  destruct q, e; simpl in *; subst. split; [done|by right].
Qed.

Lemma count_inc_marks skb (q : nqdisc Q) : nq_id (count_inc skb q) = nq_id q ∧ nq_sched (count_inc skb q) = nq_sched q.
Proof. unfold count_inc, plain_inc. case_match; by destruct q. Qed.

Lemma count_dec_marks skb (q : nqdisc Q) : nq_id (count_dec skb q) = nq_id q ∧ nq_sched (count_dec skb q) = nq_sched q.
Proof. unfold count_dec, plain_dec. case_match; by destruct q. Qed.

Lemma marks_requeue l : marks (dev_requeue_skb l).
Proof.
  unfold dev_requeue_skb, dev_requeue_skb_locked, __dev_requeue_skb. apply marks_bind; [apply marks_get_q|]. intros q.
  case_match; (apply marks_bind; [|intros _; apply marks_bind; [apply marks_schedule|intros _; apply marks_ret]]);
    induction l as [|x l IH]; simpl; try apply marks_ret; (apply marks_bind; [|done]);
    apply marks_upd_q; intros q1; by destruct q1.
Qed.

#[export] Instance marks_closed : TxClosed clock (@marks).
Proof.
  constructor; intros; try (by apply marks_bind);
    eauto using marks_ret, marks_fail, marks_get_q, marks_get_e, marks_schedule, marks_requeue.
  - unfold q_dequeue. apply marks_bind; [apply marks_get_e|]. intros e. apply marks_bind; [apply marks_get_q|].
    intros q. apply marks_bind; [apply marks_upd_e; by intros []|]. intros _.
    apply marks_bind; [apply marks_upd_q; by intros []|]. intros _. case_match; [|apply marks_ret].
    apply marks_bind; [apply marks_upd_e; by intros []|]. intros _. apply marks_ret.
  - apply marks_upd_q. intros q. unfold gso_dequeue. case_match; [done|].
    rewrite (proj1 (count_dec_marks _ _)), (proj2 (count_dec_marks _ _)). by destruct q.
  - apply marks_upd_q. intros q. unfold bad_txq_dequeue. case_match; [done|].
    rewrite (proj1 (count_dec_marks _ _)), (proj2 (count_dec_marks _ _)). by destruct q.
  - apply marks_upd_q. intros q. rewrite (proj1 (count_inc_marks _ _)), (proj2 (count_inc_marks _ _)). by destruct q.
  - unfold xmit_one. apply marks_bind; [apply marks_get_e|]. intros e.
    apply marks_bind; [apply marks_upd_e; by intros []|]. intros _. apply marks_ret.
  - apply marks_upd_e. by intros [].
  - apply marks_upd_e. by intros [].
Qed.

Lemma marks_run : marks (qdisc_run clock need_resched dev_tx_weight xfrm_config).
Proof.
  unfold qdisc_run, run_begin, run_end.
  assert (∀ b, marks (upd_q (q_set_running b))) as Hr by (intros b; apply marks_upd_q; by intros []).
  apply marks_bind.
  - apply marks_bind; [apply marks_get_q|]. intros q. case_match; [|apply marks_ret].
    apply marks_bind; [apply Hr|]. intros _. apply marks_ret.
  - intros b. case_match; [|apply marks_ret]. apply marks_bind; [apply marks_get_q|]. intros q.
    apply marks_bind; [|intros _; apply Hr]. case_match; [|apply marks_ret].
    apply (closed_run_loop clock need_resched xfrm_config (P := @marks)).
Qed.

(** The queues, with [pending] the ones the interrupt still has to run: a queue
    is listed exactly when its [SCHED] bit is set, and once. *)
Definition sched_ok (pending : list Z) (s : softnet (Q := Q) (D := D)) : Prop :=
  NoDup (pending ++ tx_output s.2) ∧
  (∀ id, id ∈ pending ++ tx_output s.2 → is_Some (s.1 !! id)) ∧
  (∀ id q, s.1 !! id = Some q → nq_id q = id ∧ (nq_sched q = true ↔ id ∈ pending ++ tx_output s.2)).

Lemma sched_ok_run id head queues e q q' e' :
  sched_ok (id :: head) (queues, e) → queues !! id = Some q →
  marked (q_set_sched false q, e) (q', e') → sched_ok head (<[id := q']> queues, e').
Proof.
  intros (Hnd & Hin & Hq) Hid Hm. simpl in *. apply NoDup_cons in Hnd as [Hni Hnd].
  assert (nq_sched (q_set_sched false q) = false ∧ nq_id (q_set_sched false q) = id) as [Hs Hi].
  { destruct (Hq _ _ Hid) as [<- _]. by destruct q. }
  assert (∃ l, tx_output e' = tx_output e ++ l ∧ nq_id q' = id ∧
    ((l = [] ∧ nq_sched q' = false) ∨ (l = [id] ∧ nq_sched q' = true))) as (l & Hl & Hi' & Hcase).
  { destruct Hm as [Hi' [[E1 E2]|(E1 & E2 & E3)]]; simpl in *; rewrite Hi in *.
    - exists []. rewrite app_nil_r. split; [done|]. split; [done|]. left. split; [done|congruence].
    - exists [id]. split; [done|]. split; [done|]. by right. }
  unfold sched_ok. simpl. rewrite Hl, app_assoc. split; [|split].
  - apply NoDup_app. split; [done|].
    destruct Hcase as [[-> _]|[-> _]]; (split; [|repeat constructor; set_solver]); set_solver.
  - intros i Hin'. apply lookup_insert_is_Some'. destruct Hcase as [[-> _]|[-> _]]; set_solver.
  - intros i qi. rewrite lookup_insert_Some. intros [[<- <-]|[Hne Hqi]].
    + split; [done|]. destruct Hcase as [[-> ->]|[-> ->]]; [|set_solver]. rewrite app_nil_r. split; [done|]. by intros ?%Hni.
    + destruct (Hq _ _ Hqi) as [E1 E2]. split; [done|]. rewrite E2. destruct Hcase as [[-> _]|[-> _]]; set_solver.
Qed.

Section softirq.
Context `{!RootSized}.

Lemma tx_action_loop_ok head s :
  sched_ok head s → map_Forall (λ _ q, rq_wf (nq_sch q)) s.1 →
  ∃ s', tx_action_loop clock need_resched dev_tx_weight xfrm_config head s = Some (tt, s') ∧
        sched_ok [] s' ∧ map_Forall (λ _ q, rq_wf (nq_sch q)) s'.1.
Proof.
  revert s. induction head as [|id head IH]; intros [queues e] Hok Hwf; [by eexists|].
  pose proof Hok as (_ & Hin & _). destruct (Hin id) as [q Hid]; [set_solver|]. simpl in Hid.
  destruct (halts_run (q_set_sched false q, e)) as ([] & [q' e'] & Hr & Hw).
  { apply Hwf in Hid. by destruct q. }
  destruct (IH (<[id := q']> queues, e')) as (s' & Hs' & Hok' & Hwf').
  - eapply sched_ok_run; [done..|]. by apply (marks_run _ _ _ Hr).
  - by apply map_Forall_insert_2.
  - exists s'. split; [|done]. simpl. unfold cbind at 1, on_queue. simpl. rewrite Hid.
    unfold cbind at 1, upd_q. simpl. by rewrite Hr.
Qed.

(** C30: The soft interrupt always returns, and keeps its book: every queue is
    in the list of the CPU exactly when its [SCHED] bit is set, and once, so
    that a request to schedule is neither lost nor served twice. *)
Theorem net_tx_action_ok s :
  sched_ok [] s → map_Forall (λ _ q, rq_wf (nq_sch q)) s.1 →
  ∃ s', net_tx_action clock need_resched dev_tx_weight xfrm_config s = Some (tt, s') ∧
        sched_ok [] s' ∧ map_Forall (λ _ q, rq_wf (nq_sch q)) s'.1.
Proof.
  intros Hok Hwf. unfold net_tx_action. apply tx_action_loop_ok; [|done].
  destruct s as [queues []]. unfold sched_ok in *. simpl in *. by rewrite app_nil_r.
Qed.

(** [__qdisc_run] returns from every state, within its quota of restarts. *)
Theorem qdisc_run_returns s : rq_wf (nq_sch s.1) →
  ∃ s', __qdisc_run clock need_resched dev_tx_weight xfrm_config s = Some (tt, s').
Proof. intros Hs. destruct (halts_qdisc_run s Hs) as ([] & s' & Hr & _). by exists s'. Qed.

End softirq.

End runs.
