(* ===== verification/XmitRoots.v ===== *)
(** * Queueing disciplines at the root of the transmit path

    The token bucket filter and the byte FIFO as instances of [RootQdisc], and
    what the transmit path then guarantees: packets reach the driver in the
    order in which the discipline accepted them, and packets a filter holds
    back are always waited for. *)

From Stdlib Require Import ZArith Lia.
From stdpp Require Import base numbers list gmap option relations.
From S2P Require Import Prelude Sched Tbf Fifo SchedSample TbfConform TbfTheorems XmitPath XmitTheorems XmitRun.

Open Scope Z_scope.

(** ** First in, first out *)

Section fifo.
Context `{TxHeadersOk} `{TxValidate} {Q D : Type} `{RootQdisc Q} `{TxDevice D} `{KernelHeaders}.
Context (clock : nat → Z) (need_resched : nat → bool) (dev_tx_weight : Z) (xfrm_config : bool).

(** A discipline that is a queue. *)
Class RootFifo := {
  rq_queue : Q → list sk_buff;
  fifo_enqueue : ∀ skb q rc q' fr, rq_enqueue skb q = (rc, q', fr) → ∃ l, rq_queue q' = rq_queue q ++ l;
  fifo_dequeue : ∀ now d q o q', rq_dequeue now d q = (o, q') → option_list o ++ rq_queue q' = rq_queue q;
  fifo_set_qlen : ∀ n q, rq_queue (rq_set_qlen n q) = rq_queue q;
  fifo_set_qstats : ∀ st q, rq_queue (rq_set_qstats st q) = rq_queue q;
  fifo_cpu_inc : ∀ skb q, rq_queue (rq_cpu_inc skb q) = rq_queue q;
  fifo_cpu_dec : ∀ skb q, rq_queue (rq_cpu_dec skb q) = rq_queue q;
}.

Context `{!RootFifo}.

(** The packets accepted so far, in order: those taken and those still queued. *)
Definition accepted (s : txs Q D) : list sk_buff := tx_pulled s.2 ++ rq_queue (nq_sch s.1).

Definition fifo_keeps {A} (m : M (txs Q D) A) : Prop := ∀ s, ends m s (λ _ s', accepted s' = accepted s).

Lemma fifo_upd_q f : (∀ q, rq_queue (nq_sch (f q)) = rq_queue (nq_sch q)) → fifo_keeps (upd_q f).
Proof. intros Hf [q e] [] s' [= <-]. unfold accepted. simpl. by rewrite Hf. Qed.

Lemma fifo_upd_e f : (∀ e, tx_pulled (f e) = tx_pulled e) → fifo_keeps (upd_e f).
Proof. intros Hf [q e] [] s' [= <-]. unfold accepted. simpl. by rewrite Hf. Qed.

Lemma fifo_ret {A} (a : A) : fifo_keeps (cret a).
Proof. intros s. by apply ends_ret. Qed.

Lemma fifo_bind {A B} (m : M (txs Q D) A) (k : A → M (txs Q D) B) :
  fifo_keeps m → (∀ a, fifo_keeps (k a)) → fifo_keeps (cbind m k).
Proof.
  intros Hm Hk s. eapply ends_bind; [apply Hm|]. cbv beta. intros a s1 Hs1. rewrite <- Hs1. apply Hk.
Qed.

Lemma fifo_count_inc skb q : rq_queue (nq_sch (count_inc skb q)) = rq_queue (nq_sch q).
Proof.
  unfold count_inc, plain_inc.
  case_match; destruct q; simpl; [apply fifo_cpu_inc|by rewrite fifo_set_qlen, fifo_set_qstats].
Qed.

Lemma fifo_count_dec skb q : rq_queue (nq_sch (count_dec skb q)) = rq_queue (nq_sch q).
Proof.
  unfold count_dec, plain_dec.
  case_match; destruct q; simpl; [apply fifo_cpu_dec|by rewrite fifo_set_qlen, fifo_set_qstats].
Qed.

Lemma fifo_schedule : fifo_keeps __netif_schedule.
Proof.
  unfold __netif_schedule. apply fifo_bind; [by intros s ? ? [= <- <-]|]. intros q. case_match; [apply fifo_ret|].
  apply fifo_bind; [apply fifo_upd_q; by intros []|]. intros _. apply fifo_upd_e. by intros [].
Qed.

#[export] Instance fifo_closed : TxClosed clock (@fifo_keeps).
Proof.
  constructor; intros; try (by apply fifo_bind); eauto using fifo_ret, fifo_schedule;
    try (by intros s ? ? [= <- <-]).
  - intros s o s' Hd. destruct (q_dequeue_spec clock s) as (o1 & s1 & Hd1 & _ & _ & _ & Hv & Hr).
    rewrite Hd in Hd1. injection Hd1 as <- <-. apply fifo_dequeue in Hr. unfold view in Hv.
    injection Hv as Hp _ _ _. unfold accepted. by rewrite Hp, <- app_assoc, Hr.
  - apply fifo_upd_q. intros q. unfold gso_dequeue. case_match; [done|]. rewrite fifo_count_dec. by destruct q.
  - apply fifo_upd_q. intros q. unfold bad_txq_dequeue. case_match; [done|]. rewrite fifo_count_dec. by destruct q.
  - apply fifo_upd_q. intros q. rewrite fifo_count_inc. by destruct q.
  - unfold dev_requeue_skb, dev_requeue_skb_locked, __dev_requeue_skb.
    apply fifo_bind; [by intros s ? ? [= <- <-]|]. intros q.
    case_match; (apply fifo_bind; [|intros _; apply fifo_bind; [apply fifo_schedule|intros _; apply fifo_ret]]);
      induction l as [|x l IH]; simpl; try apply fifo_ret; (apply fifo_bind; [|done]); apply fifo_upd_q;
      intros []; simpl; by rewrite ?fifo_cpu_inc, ?fifo_set_qlen, ?fifo_set_qstats.
  - unfold xmit_one. apply fifo_bind; [by intros s ? ? [= <- <-]|]. intros e.
    apply fifo_bind; [apply fifo_upd_e; by intros []|]. intros _. apply fifo_ret.
  - apply fifo_upd_e. by intros [].
  - apply fifo_upd_e. by intros [].
Qed.

Lemma fifo_running b (s : txs Q D) : accepted (q_set_running b s.1, s.2) = accepted s.
Proof. by destruct s as [[] ?]. Qed.

Lemma fifo_after more from s c : after_xmit need_resched dev_tx_weight more from s = Some c → accepted c.2 = accepted s.
Proof.
  unfold after_xmit. destruct (__netif_schedule s) as [[[] s2]|] eqn:Es; [apply fifo_schedule in Es|];
    repeat case_match; intros [= <-]; cbn [fst snd]; rewrite ?fifo_running; congruence.
Qed.

Notation step := (tx_step clock need_resched dev_tx_weight xfrm_config).

Lemma fifo_step c c' : TCQ_F_CAN_BYPASS (nq_flags c.2.1) = false → step c c' →
  ∃ l, accepted c'.2 = accepted c.2 ++ l.
Proof.
  intros Hb Hst. destruct Hst as [q e Hr Hd|quota s v n q e Hd|quota s skb v n s' Hd Hn|skb txq q e Hr Hd Hl Hcb Hz
    |skb txq v from s r s' Hx|r from s more s' c Hl Ha|ph skb q e rc sch fr He|ph q e l|ph s s' Hs|ph q e|ph q e d];
    cbn [fst snd] in *.
  7:{ apply fifo_enqueue in He as [l Hl]. exists l. unfold accepted. destruct q. simpl in *. by rewrite Hl, app_assoc. }
  all: exists []; rewrite app_nil_r.
  - by destruct q.
  - rewrite <- (closed_dequeue_skb clock (P := @fifo_keeps) _ _ _ Hd). by destruct q.
  - by apply (closed_dequeue_skb clock (P := @fifo_keeps) _ _ _ Hd).
  - congruence.
  - by apply (closed_unlocked clock xfrm_config (P := @fifo_keeps) _ _ _ _ _ _ Hx).
  - rewrite <- (closed_locked clock (P := @fifo_keeps) _ _ _ _ Hl). by eapply fifo_after.
  - by destruct e.
  - by apply (fifo_schedule _ _ _ Hs).
  - by destruct q.
  - by destruct e.
Qed.

(** A step in which no packet is refused while others wait. *)
Definition polite (c c' : config (Q := Q) (D := D)) : Prop := step c c' ∧ refused_alone c.

Lemma fifo_in_order `{!NoOffload} c0 ph q e :
  one_queue → TCQ_F_CAN_BYPASS (nq_flags c0.2.1) = false → ordered c0 → rtc polite c0 (ph, (q, e)) →
  ∃ new, accepted (q, e) = accepted c0.2 ++ new ∧
         vx (accepted c0.2 ++ new) = tx_sent e ++ inflight ph ++ gso_skb q ++ vx (rq_queue (nq_sch q)).
Proof.
  intros Hone Hb0 Ho Hst.
  pose (I c := ordered c ∧ TCQ_F_CAN_BYPASS (nq_flags c.2.1) = false ∧ ∃ l, accepted c.2 = accepted c0.2 ++ l).
  assert (I (ph, (q, e))) as ((Hi & _) & _ & new & Ha).
  { apply (rtc_invariant polite I) with c0; [|by split_and!; [..|exists []; rewrite app_nil_r]|done].
    intros c c' [Hs Hr] (Hoc & Hb & l & Hl). split_and!.
    - eapply ordered_step; [done..| |done]. destruct Hs; simpl in *; repeat case_match; try done. congruence.
    - erewrite flags_step; [exact Hb| |exact Hs]. destruct c. apply Hoc.
    - destruct (fifo_step c c' Hb Hs) as [l' Hl']. exists (l ++ l'). rewrite app_assoc. etransitivity; [exact Hl'|]. f_equal. exact Hl. }
  exists new. split; [exact Ha|]. cbn [fst snd] in *. rewrite <- Ha. unfold accepted. cbn [fst snd].
  by rewrite vx_app, Hi, <- !app_assoc.
Qed.

End fifo.

(** ** The token bucket filter *)

Section tbf.
Context `{TxHeadersOk} `{TxValidate} {Q D : Type} `{TxDevice D} `{KernelHeadersOk} `{!InnerQdisc Q}.

(** [pkt_len_of] is the effect of [qdisc_calculate_pkt_len] with the filter's
    size table.  A filter has no per-CPU counters. *)
Definition tbf_root (pkt_len_of : sk_buff → sk_buff) : RootQdisc (Qdisc Q) := {|
  rq_enqueue skb sch := (tbf_enqueue skb sch).1;
  rq_dequeue now d sch := tbf_dequeue now d sch;
  rq_qlen := qlen;
  rq_set_qlen := set_qlen;
  rq_qstats := qstats;
  rq_set_qstats := set_qstats;
  rq_cpu_inc _ sch := sch;
  rq_cpu_dec _ sch := sch;
  rq_bstats_update skb sch := set_bstats (qdisc_bstats_update skb (bstats sch)) sch;
  rq_calculate_pkt_len skb _ := pkt_len_of skb;
|}.

Context `{!InnerQdiscOk Q} (pkt_len_of : sk_buff → sk_buff).

#[local] Instance tbf_root_inst : RootQdisc (Qdisc Q) := tbf_root pkt_len_of.

#[export] Instance tbf_root_fifo : RootFifo (Q := Qdisc Q).
Proof.
  refine {| rq_queue := queue |}; try done.
  - intros skb sch rc sch' fr Heq. exists (taken (offered skb sch) (qdisc (priv sch))).
    pose proof (tbf_enqueue_queue skb sch) as Hq. cbn in *. by rewrite Heq in Hq.
  - intros now d sch o sch' Heq. pose proof (tbf_dequeue_queue now d sch) as Hq. cbn in *. by rewrite Heq in Hq.
Defined.

(** Its length counts its packets. *)
Lemma tbf_enqueue_qlen skb (sch : Qdisc Q) :
  let sch' := (tbf_enqueue skb sch).1.1.2 in
  u32 (qlen sch') = u32 (qlen sch + (Z.of_nat (length (queue sch')) - Z.of_nat (length (queue sch)))).
Proof.
  cbv zeta.
  assert (qlen (drop_skb skb sch).1.2 = qlen sch ∧ queue (drop_skb skb sch).1.2 = queue sch) as [Hd Hdq].
  { unfold drop_skb, queue. by destruct (qdisc_drop skb (qstats sch)) as [[? ?] ?]. }
  assert (∀ l k a, u32 (u32 (a + Z.of_nat k)) = u32 (a + (Z.of_nat (l + k) - Z.of_nat l))) as Hu.
  { intros l k a. rewrite u32_idem. f_equal. lia. }
  unfold tbf_enqueue. case_match; [case_match|].
  - unfold tbf_segment. destruct (skb_gso_segment skb) as [segs|]; cbn [fst snd].
    2:{ rewrite Hd, Hdq. f_equal. lia. }
    destruct (segment_loop segs sch 0 0 []) as [[[sch' len] nb] fr] eqn:E.
    apply segment_loop_queue in E as (Hq & Hn & Hl & _). cbn [fst snd].
    change (queue (set_qlen _ sch')) with (queue sch'). simpl. rewrite Hq, length_app, Hl, Hn. apply Hu.
  - cbn [fst snd]. rewrite Hd, Hdq. f_equal. lia.
  - destruct (enqueue_inner skb sch) as [[ret sch'] fr] eqn:E.
    apply enqueue_inner_queue in E as (Hq & Ht & _ & Hl & _). rewrite Ht in Hq.
    destruct (Z.eqb_spec ret NET_XMIT_SUCCESS); cbn [negb fst snd].
    + change (queue (set_qlen _ _)) with (queue sch'). simpl. rewrite Hq, length_app, Hl. apply (Hu _ 1%nat).
    + rewrite app_nil_r in Hq. rewrite Hq, Hl. f_equal. lia.
Qed.

Lemma tbf_dequeue_qlen now d (sch : Qdisc Q) :
  u32 (qlen (tbf_dequeue now d sch).2) = u32 (qlen sch - Z.of_nat (length (option_list (tbf_dequeue now d sch).1))).
Proof.
  destruct (queue sch) as [|skb rest] eqn:Hq.
  - pose proof (tbf_dequeue_queue now d sch) as Hd. rewrite Hq in Hd.
    apply app_eq_nil in Hd as [Ho _]. destruct (tbf_dequeue now d sch) as [[skb|] sch'] eqn:E; [done|]. simpl.
    rewrite Z.sub_0_r. f_equal. revert E. unfold tbf_dequeue. destruct (inner_peek _) as [[skb|] i].
    + case_match. case_match; [|by intros [= <-]]. destruct (inner_dequeue_peeked _) as [[?|] ?]; by intros [= <-].
    + by intros [= <-].
  - destruct (tbf_dequeue_head now d sch skb rest Hq) as (i & i2 & _ & _ & ->). cbv zeta.
    destruct (tbf_balance _ _ _) as [toks ptoks]. case_match; simpl; [by rewrite u32_idem|f_equal; lia].
Qed.

#[export] Instance tbf_root_counted : RootCounted (Q := Qdisc Q).
Proof.
  refine {| rq_size sch := length (queue sch) |}; try done.
  - intros skb sch rc sch' fr Heq. pose proof (tbf_enqueue_qlen skb sch) as Hq. cbn in *. by rewrite Heq in Hq.
  - intros now d sch o sch' Heq. pose proof (tbf_dequeue_qlen now d sch) as Hl.
    pose proof (tbf_dequeue_queue now d sch) as Hq. cbn in *. rewrite Heq in Hq, Hl. split; [exact Hl|].
    cbn [fst snd] in Hq. rewrite <- Hq, length_app. lia.
Defined.

(** The packets it releases are not empty if those it holds are not. *)
#[export] Instance tbf_root_sized : RootSized (Q := Qdisc Q).
Proof.
  refine {| rq_wf sch := Forall (λ skb, 1 ≤ skb_len skb < 2 ^ 31) (queue sch) |}; try done.
  intros now d sch o sch' Hwf Heq. pose proof (tbf_dequeue_queue now d sch) as Hq. cbn in *. rewrite Heq in Hq.
  cbn [fst snd] in Hq. rewrite <- Hq in Hwf. apply Forall_app in Hwf as [Ho Hq']. split; [done|].
  intros skb ->. by apply Forall_inv in Ho.
Defined.


(** ** A filter that holds packets back is waited for *)

Context (clock : nat → Z) (Hclock : ∀ k, 0 ≤ clock k ≤ clock (S k) ∧ clock k < 2 ^ 62).

(** The bucket is in range and was filled in the past, and every queued packet
    fits it. *)
Definition tbf_timed (k : nat) (sch : Qdisc Q) : Prop :=
  bucket_ok (priv sch) ∧ t_c (priv sch) ≤ clock k ∧ Forall (λ skb, fits skb (priv sch)) (queue sch).

#[export] Instance tbf_timed_inv : TimedInv clock tbf_timed.
Proof.
  constructor; try done. intros k d sch o sch' (Hok & Htc & Hfit) Heq. cbn in Heq.
  pose proof (tbf_dequeue_queue (clock k) d sch) as Hq. rewrite Heq in Hq. cbn [fst snd] in Hq.
  destruct (Hclock k) as [Hk Hk2]. destruct o as [skb|].
  - rewrite <- Hq in Hfit. apply Forall_cons_1 in Hfit as [_ Hfit].
    destruct (tbf_dequeue_sent _ _ _ _ _ Hok (conj Htc Hk2) Heq) as (Ht & Hb & Hm & Htk & Htb & _ & Hp & Hpm & _).
    destruct (tbf_dequeue_head (clock k) d sch skb (queue sch') ltac:(done)) as (i & i2 & _ & Hi2 & Heq2).
    rewrite Heq in Heq2. cbv zeta in Heq2. destruct (tbf_balance _ _ _) as [toks ptoks].
    destruct (0 <=? Z.lor toks ptoks); [|done]. injection Heq2 as ->. simpl in *.
    pose proof (l2t_range (rate (priv sch)) (pkt_len skb)). pose proof (l2t_range (peak (priv sch)) (pkt_len skb)).
    split_and!; [|simpl; lia|exact Hfit]. destruct Hok. constructor; simpl; [|destruct (tbf_peak_present _)|..]; lia.
  - apply tbf_dequeue_none in Heq as (i & w & Hpr). simpl in Hq. unfold tbf_timed. rewrite Hpr, Hq. simpl.
    split_and!; [|lia|exact Hfit]. apply bucket_ok_set_watchdog, bucket_ok_set_qdisc, Hok.
Qed.


End tbf.
