(* ===== verification/XmitSample.v ===== *)
(** * The transmit path on concrete devices

    A device with transmit rings, on which the theorems are applied and the two
    ways in which the path reorders packets are shown. *)

From Stdlib Require Import ZArith Lia.
From stdpp Require Import base numbers list gmap option relations.
From S2P Require Import Prelude Sched Tbf Fifo SchedSample TbfConform TbfTheorems XmitPath XmitTheorems XmitRun XmitRoots.

Open Scope Z_scope.

(** The headers, with [queue_of] the transmit queue of a packet. *)
Definition sample_tx (queue_of : sk_buff → Z) : TxHeaders := {|
  NETDEV_TX_OK := 0;
  NETDEV_TX_BUSY := 16;
  NET_XMIT_MASK := 15;
  dev_xmit_complete rc := rc <? 15;
  skb_get_queue_mapping := queue_of;
  xfrm_offload _ := false;
  qdisc_is_percpu_stats := TCQ_F_CPUSTATS;
  qdisc_may_bulk := TCQ_F_ONETXQUEUE;
  qdisc_qstats_backlog_inc skb s := set_backlog (u32 (gq_backlog s + pkt_len skb)) s;
  qdisc_run_begin := negb;
  qdisc_run_enters f d := negb (TCQ_F_NOLOCK f && d);
|}.

Definition sample_tx_ok queue_of : @TxHeadersOk (sample_tx queue_of).
Proof. constructor; [done..|]. intros []; simpl. by rewrite andb_false_r. Defined.

(** A device that needs no help with tags, segments or checksums. *)
Definition sample_validate : TxValidate := {|
  vlan_push_needed _ := false;
  __vlan_hwaccel_push_inside := Some;
  sk_validate_xmit_skb := Some;
  netif_needs_gso _ := false;
  xmit_gso_segment skb := Some [skb];
  skb_needs_linearize _ := false;
  __skb_linearize _ := false;
  checksum_partial _ := false;
  skb_csum_hwoffload_help _ := false;
  validate_xmit_xfrm l := (l, false);
|}.

Definition sample_no_offload queue_of : @NoOffload (sample_tx queue_of) sample_validate.
Proof. by constructor. Defined.

(** Per transmit queue: whether it is stopped and the room in its ring. *)
Record rings := { r_stopped : list bool; r_room : list nat }.

Definition at_queue {A} (d : A) (l : list A) (i : Z) : A := default d (l !! Z.to_nat i).

Definition sample_dev : TxDevice rings := {|
  netif_xmit_frozen_or_stopped i d := at_queue true (r_stopped d) i;
  netif_tx_queue_stopped i d := at_queue true (r_stopped d) i;
  qdisc_avail_bulklimit _ _ := 9000;
  netdev_start_xmit _ i _ d :=
    match at_queue 0%nat (r_room d) i with
    | O => (16, d)
    | S n => (0, {| r_stopped := r_stopped d; r_room := <[Z.to_nat i := n]> (r_room d) |})
    end;
|}.

(** The filter with the packets [l] queued. *)
Definition sample_filter (l : list sk_buff) : Qdisc fifo :=
  (sample_run false (EvChange (None, None) (inr (sample_tb 1000000000 0 30000 0)) :: map EvEnqueue l)).1.2.

Definition flags_of (one : bool) : qdisc_flags :=
  {| TCQ_F_NOLOCK := false; TCQ_F_CPUSTATS := false; TCQ_F_ONETXQUEUE := one; TCQ_F_CAN_BYPASS := false |}.

Definition sample_nq (one : bool) (l : list sk_buff) : nqdisc (Qdisc fifo) :=
  Nqdisc 7 (sample_filter l) (flags_of one) 0 [] [] 0 false false false.

Definition sample_env (d : rings) : txenv rings := Txenv d [] [] 0 0 [] [] [].

Definition sample_clock (k : nat) : Z := 1000000 * Z.of_nat (S k).

Section sample.
Context (queue_of : sk_buff → Z).

#[local] Existing Instance sample_headers.
#[local] Existing Instance sample_headers_ok.
#[local] Existing Instance sample_inner.
#[local] Existing Instance sample_inner_ok.
#[local] Existing Instance sample_validate.
#[local] Existing Instance sample_dev.
#[local] Instance sample_tx_inst : TxHeaders := sample_tx queue_of.
#[local] Instance sample_root : RootQdisc (Qdisc fifo) := tbf_root id.

Definition run_once (s : txs (Qdisc fifo) rings) : option (unit * txs (Qdisc fifo) rings) :=
  __qdisc_run sample_clock (λ _, false) 64 false s.

(** A run on the device as it is, then the device becomes [d], then another run. *)
Definition then_run (d : rings) (s : option (unit * txs (Qdisc fifo) rings)) :=
  match s with
  | Some (_, (q, e)) => run_once (q_set_sched false q, e_set_dev d e)
  | None => None
  end.

(** What was taken from the filter and what was sent, in order. *)
Definition history (s : option (unit * txs (Qdisc fifo) rings)) : option (list Z * list Z) :=
  match s with
  | Some (_, (q, e)) => Some (map skb_id (tx_pulled e), map skb_id (tx_sent e))
  | None => None
  end.

End sample.

(** One transmit queue: a driver that answers [NETDEV_TX_BUSY] twice makes
    [__dev_requeue_skb] put the first packet behind the others. *)
Theorem requeue_reorders :
  let full := {| r_stopped := [false]; r_room := [0%nat] |} in
  let free := {| r_stopped := [false]; r_room := [9%nat] |} in
  history (then_run (λ _, 0) free (then_run (λ _, 0) full
    (run_once (λ _, 0) (sample_nq true [pkt 1 1000; pkt 2 1000; pkt 3 1000], sample_env full))))
  = Some ([1; 2; 3], [2; 3; 1]).
Proof. vm_compute. reflexivity. Qed.

(** Two transmit queues: packets 2 and 3 go to the second one, which is stopped
    when the first run meets them; packet 3 overtakes packet 2. *)
Theorem bad_txq_reorders :
  let queue_of skb := if skb_id skb =? 1 then 0 else 1 in
  let stopped := {| r_stopped := [false; true]; r_room := [9%nat; 9%nat] |} in
  let free := {| r_stopped := [false; false]; r_room := [9%nat; 9%nat] |} in
  history (then_run queue_of free
    (run_once queue_of (sample_nq false [pkt 1 1000; pkt 2 1000; pkt 3 1000], sample_env stopped)))
  = Some ([1; 2; 3], [1; 3; 2]).
Proof. vm_compute. reflexivity. Qed.

(** ** The theorems on a device with one transmit queue *)

Module OneQueue.

#[local] Existing Instance sample_headers.
#[local] Existing Instance sample_headers_ok.
#[local] Existing Instance sample_inner.
#[local] Existing Instance sample_inner_ok.
#[local] Existing Instance sample_validate.
#[local] Existing Instance sample_dev.
#[local] Instance tx_inst : TxHeaders := sample_tx (λ _, 0).
#[local] Instance tx_ok_inst : TxHeadersOk := sample_tx_ok (λ _, 0).
#[local] Instance no_offload_inst : NoOffload := sample_no_offload (λ _, 0).
#[local] Instance root_inst : RootQdisc (Qdisc fifo) := tbf_root id.

Definition free : rings := {| r_stopped := [false]; r_room := [9%nat] |}.

Definition full : rings := {| r_stopped := [false]; r_room := [0%nat] |}.

Definition q0 : nqdisc (Qdisc fifo) := Eval vm_compute in sample_nq true [pkt 1 1000; pkt 2 1000; pkt 3 1000].

Definition e0 (d : rings) : txenv rings := sample_env d.

(** The state after [n] steps of the transmission on the device [d]. *)
Definition ok_step (c : config (Q := Qdisc fifo) (D := rings)) : bool :=
  refused_aloneb c && (backlog_of c.2.1 <? 2 ^ 32).

Definition after (n : nat) (d : rings) : config :=
  default (PIdle, (q0, e0 d)) (owner_run sample_clock (λ _, false) 64 false ok_step n (PIdle, (q0, e0 d))).

(** On a free device: begin, take the three packets, send them, find nothing. *)
Lemma sent_all : map skb_id (tx_sent (after 5 free).2.2) = [1; 2; 3] ∧ (after 5 free).1 = PIdle.
Proof. by vm_compute. Qed.

(** On a full one the three packets are put back. *)
Lemma put_back : map skb_id (gso_skb (after 4 full).2.1) = [1; 2; 3] ∧ (after 4 full).1 = PIdle.
Proof. by vm_compute. Qed.


Lemma xmit_qlen_exact_witness :
  u32 (rq_qlen (nq_sch (after 4 full).2.1)) = u32 (backlog_of (after 4 full).2.1).
Proof.
  apply (xmit_qlen_exact sample_clock (λ _, false) 64 false (PIdle, (q0, e0 full)) PIdle _ (after 4 full).2.2).
  - by vm_compute.
  - apply (owner_run_ok sample_clock (λ _, false) 64 false ok_step _ 4); [by intros|]. by vm_compute.
Defined.

Lemma xmit_in_order_witness :
  vx (tx_pulled (after 5 free).2.2) = tx_sent (after 5 free).2.2 ++ inflight PIdle ++ gso_skb (after 5 free).2.1.
Proof.
  apply (xmit_in_order sample_clock (λ _, false) 64 false (PIdle, (q0, e0 free)) PIdle).
  - done.
  - by vm_compute.
  - right. by vm_compute.
  - apply (owner_run_ok sample_clock (λ _, false) 64 false ok_step _ 5); [|by vm_compute].
    intros x y Hx Hy. apply andb_prop in Hy as [Hy1 Hy2]. split; [done|].
    split; [by apply refused_aloneb_ok|by apply Z.ltb_lt].
Defined.


Notation run_ := (__qdisc_run sample_clock (λ _, false) 64 false).

Lemma qdisc_run_returns_witness : ∃ s', run_ (q0, e0 free) = Some (tt, s').
Proof.
  apply (qdisc_run_returns sample_clock (λ _, false) 64 false (q0, e0 free)).
  cbn [rq_wf tbf_root_sized]. apply (bool_decide_unpack _). vm_compute. exact I.
Defined.

(** The filter with an empty bucket, 1 ns after its last packet: it has to wait. *)
Definition slow_clock (k : nat) : Z := 2000001 + Z.min (Z.of_nat k) 1000.

Definition empty_bucket : nqdisc (Qdisc fifo) :=
  Eval vm_compute in q_set_sch (set_priv (set_bucket 0 0 2000000 (priv (nq_sch q0))) (nq_sch q0)) q0.

Definition waited : txs (Qdisc fifo) rings :=
  match __qdisc_run slow_clock (λ _, false) 64 false (empty_bucket, e0 free) with
  | Some (_, s) => s
  | None => (q0, e0 free)
  end.


#[local] Instance true_timed : TimedInv slow_clock (λ (_ : nat) (_ : Qdisc fifo), True).
Proof. by constructor. Qed.

Lemma qdisc_run_no_stall_witness :
  nq_sched waited.1 = true ∨ waits_for_device waited ∨
  nothing_released slow_clock (I := λ _ _, True) waited.
Proof.
  apply (qdisc_run_no_stall slow_clock (λ _, false) 64 false (I := λ _ _, True) (empty_bucket, e0 free)).
  - exact I.
  - by vm_compute.
Defined.

(** A packet offered to the filter at rest. *)
Definition offered_one : txs (Qdisc fifo) rings :=
  match __dev_xmit_skb sample_clock (λ _, false) 64 false (pkt 4 500) 0 (q0, e0 free) with
  | Some (_, s) => s
  | None => (q0, e0 free)
  end.

Lemma dev_xmit_skb_refines_witness :
  rtc (tx_step sample_clock (λ _, false) 64 false) (PIdle, (q0, e0 free)) (PIdle, offered_one) ∧
  map skb_id (tx_sent offered_one.2) = [1; 2; 3; 4].
Proof.
  split; [|by vm_compute].
  apply (dev_xmit_skb_refines sample_clock (λ _, false) 64 false (pkt 4 500) 0 (q0, e0 free) 0); by vm_compute.
Defined.

(** Two scheduled queues. *)
Definition two_queues : gmap Z (nqdisc (Qdisc fifo)) :=
  {[ 7 := q_set_sched true q0;
     8 := Nqdisc 8 (nq_sch q0) (nq_flags q0) 0 [] [] 0 true false false ]}.

Lemma net_tx_action_ok_witness :
  ∃ s', net_tx_action sample_clock (λ _, false) 64 false (two_queues, Txenv free [7; 8] [] 0 0 [] [] [])
        = Some (tt, s') ∧ sched_ok [] s' ∧ map_Forall (λ _ q, rq_wf (nq_sch q)) s'.1.
Proof.
  apply (net_tx_action_ok sample_clock (λ _, false) 64 false (two_queues, Txenv free [7; 8] [] 0 0 [] [] [])).
  - split; [|split]; simpl.
    + apply (bool_decide_unpack _). vm_compute. exact I.
    + intros id Hid. assert (id = 7 ∨ id = 8) as [-> | ->] by set_solver; by eexists.
    + intros id q. unfold two_queues. rewrite lookup_insert_Some, lookup_singleton_Some.
      intros [[<- <-]|[Hne [<- <-]]]; (split; [done|]); split; try done; intros _; set_solver.
  - unfold two_queues. apply map_Forall_insert_2; [|apply map_Forall_singleton];
      cbn [rq_wf tbf_root_sized]; apply (bool_decide_unpack _); vm_compute; exact I.
Defined.

End OneQueue.
