(* ===== verification/TxTimeout.v ===== *)
(** * The transmit watchdog of a device (src/net/sched/sch_generic.c, src/net/core/dev.c)

    A timer looks every [watchdog_timeo] ticks for a transmit queue that the driver
    stopped too long ago and calls [ndo_tx_timeout].  The functions that arm it,
    stop it and run it, the changes of the carrier and of the presence of the
    device, and how they interleave with the driver and with time. *)

From Stdlib Require Import ZArith Lia.
From stdpp Require Import base numbers list option relations.
From S2P Require Import Prelude.

Open Scope Z_scope.

(** [round_jiffies], whose first argument is the value of [jiffies], and the effect
    of the driver's [ndo_tx_timeout] on the transmit queues. *)
Class TxTimer (Q : Type) := {
  HZ : Z;
  round_jiffies : Z → Z → Z;
  ndo_tx_timeout : list Q → list Q;
}.

(** A time in the future is rounded to one in the future, by less than a second. *)
Class TxTimerOk (Q : Type) `{TxTimer Q} := {
  HZ_pos : 0 < HZ;
  round_jiffies_ok now j : now < j → now < round_jiffies now j ≤ j + HZ;
  ndo_tx_timeout_length l : length (ndo_tx_timeout l) = length l;
}.

(** [struct netdev_queue]. *)
Record wqueue := Wqueue {
  tq_stopped : bool;        (* netif_xmit_stopped *)
  tq_trans_start : Z;       (* unsigned long *)
  tq_trans_timeout : Z;     (* unsigned long *)
}.

(** [struct net_device]; [wd_timer] is the time of the timer when it is pending,
    [wd_reports] has the queues for which [ndo_tx_timeout] was called. *)
Record wdev := Wdev {
  wd_queues : list wqueue;
  wd_noop : bool;           (* qdisc_tx_is_noop *)
  wd_present : bool;        (* __LINK_STATE_PRESENT *)
  wd_running : bool;        (* __LINK_STATE_START *)
  wd_carrier : bool;        (* not __LINK_STATE_NOCARRIER *)
  wd_registered : bool;     (* reg_state is not NETREG_UNINITIALIZED *)
  wd_has_timeout : bool;    (* ndo_tx_timeout is there *)
  wd_timeo : Z;             (* int *)
  wd_timer : option Z;
  wd_refs : Z;
  wd_carrier_changes : Z * Z;
  wd_link_events : nat;     (* linkwatch_fire_event *)
  wd_reports : list nat;
}.

Section watchdog.
Context `{TxTimer wqueue}.
Implicit Types d : wdev.

Definition set_queues (l : list wqueue) d : wdev :=
  Wdev l (wd_noop d) (wd_present d) (wd_running d) (wd_carrier d) (wd_registered d) (wd_has_timeout d) (wd_timeo d)
    (wd_timer d) (wd_refs d) (wd_carrier_changes d) (wd_link_events d) (wd_reports d).

Definition set_noop (b : bool) d : wdev :=
  Wdev (wd_queues d) b (wd_present d) (wd_running d) (wd_carrier d) (wd_registered d) (wd_has_timeout d) (wd_timeo d)
    (wd_timer d) (wd_refs d) (wd_carrier_changes d) (wd_link_events d) (wd_reports d).

Definition set_present (b : bool) d : wdev :=
  Wdev (wd_queues d) (wd_noop d) b (wd_running d) (wd_carrier d) (wd_registered d) (wd_has_timeout d) (wd_timeo d)
    (wd_timer d) (wd_refs d) (wd_carrier_changes d) (wd_link_events d) (wd_reports d).

Definition set_running (b : bool) d : wdev :=
  Wdev (wd_queues d) (wd_noop d) (wd_present d) b (wd_carrier d) (wd_registered d) (wd_has_timeout d) (wd_timeo d)
    (wd_timer d) (wd_refs d) (wd_carrier_changes d) (wd_link_events d) (wd_reports d).

Definition set_carrier_bit (b : bool) d : wdev :=
  Wdev (wd_queues d) (wd_noop d) (wd_present d) (wd_running d) b (wd_registered d) (wd_has_timeout d) (wd_timeo d)
    (wd_timer d) (wd_refs d) (wd_carrier_changes d) (wd_link_events d) (wd_reports d).

Definition set_timeo (n : Z) d : wdev :=
  Wdev (wd_queues d) (wd_noop d) (wd_present d) (wd_running d) (wd_carrier d) (wd_registered d) (wd_has_timeout d) n
    (wd_timer d) (wd_refs d) (wd_carrier_changes d) (wd_link_events d) (wd_reports d).

Definition set_timer (o : option Z) d : wdev :=
  Wdev (wd_queues d) (wd_noop d) (wd_present d) (wd_running d) (wd_carrier d) (wd_registered d) (wd_has_timeout d) (wd_timeo d)
    o (wd_refs d) (wd_carrier_changes d) (wd_link_events d) (wd_reports d).

(** [dev_hold], [dev_put]. *)
Definition add_refs (n : Z) d : wdev :=
  Wdev (wd_queues d) (wd_noop d) (wd_present d) (wd_running d) (wd_carrier d) (wd_registered d) (wd_has_timeout d) (wd_timeo d)
    (wd_timer d) (wd_refs d + n) (wd_carrier_changes d) (wd_link_events d) (wd_reports d).

(** A change of the carrier: the counters and [linkwatch_fire_event]. *)
Definition link_event (up down : Z) d : wdev :=
  Wdev (wd_queues d) (wd_noop d) (wd_present d) (wd_running d) (wd_carrier d) (wd_registered d) (wd_has_timeout d) (wd_timeo d)
    (wd_timer d) (wd_refs d) ((wd_carrier_changes d).1 + up, (wd_carrier_changes d).2 + down) (S (wd_link_events d)) (wd_reports d).

Definition report (i : nat) d : wdev :=
  Wdev (ndo_tx_timeout (wd_queues d)) (wd_noop d) (wd_present d) (wd_running d) (wd_carrier d) (wd_registered d) (wd_has_timeout d)
    (wd_timeo d) (wd_timer d) (wd_refs d) (wd_carrier_changes d) (wd_link_events d) (i :: wd_reports d).

(** [time_after(a, b)] on [unsigned long]. *)
Definition time_after (a b : Z) : bool := s64 (b - a) <? 0.

Definition timed_out (now timeo : Z) (q : wqueue) : bool :=
  tq_stopped q && time_after (u64 now) (u64 (tq_trans_start q + timeo)).

(** The loop of [dev_watchdog]. *)
Fixpoint find_timed_out (now timeo : Z) (l : list wqueue) (i : nat) : option nat :=
  match l with
  | [] => None
  | q :: l => if timed_out now timeo q then Some i else find_timed_out now timeo l (S i)
  end.

Definition inc_timeout (q : wqueue) : wqueue := Wqueue (tq_stopped q) (tq_trans_start q) (u64 (tq_trans_timeout q + 1)).

(** Whether the timer was pending. *)
Definition mod_timer (expires : Z) d : bool * wdev := (bool_decide (is_Some (wd_timer d)), set_timer (Some expires) d).

Definition del_timer d : bool * wdev := (bool_decide (is_Some (wd_timer d)), set_timer None d).

(** [mod_timer] for the next look, with the reference of the timer. *)
Definition rearm (now : Z) d : wdev :=
  let '(pending, d) := mod_timer (round_jiffies now (now + wd_timeo d)) d in
  if pending then d else add_refs 1 d.

(** The timer runs; it is no longer pending. *)
Definition dev_watchdog (now : Z) d : wdev :=
  let d :=
    if negb (wd_noop d) && (wd_present d && wd_running d && wd_carrier d) then
      let d := match find_timed_out now (wd_timeo d) (wd_queues d) 0 with
               | Some i => report i (set_queues (alter inc_timeout i (wd_queues d)) d)
               | None => d
               end in
      rearm now d
    else d in
  add_refs (-1) d.

Definition __netdev_watchdog_up (now : Z) d : wdev :=
  if wd_has_timeout d then
    let d := if wd_timeo d <=? 0 then set_timeo (5 * HZ) d else d in
    rearm now d
  else d.

Definition dev_watchdog_up := __netdev_watchdog_up.

Definition dev_watchdog_down d : wdev :=
  let '(pending, d) := del_timer d in if pending then add_refs (-1) d else d.

Definition netif_carrier_on (now : Z) d : wdev :=
  if negb (wd_carrier d) then
    let d := set_carrier_bit true d in
    if negb (wd_registered d) then d
    else
      let d := link_event 1 0 d in
      if wd_running d then __netdev_watchdog_up now d else d
  else d.

Definition netif_carrier_off d : wdev :=
  if wd_carrier d then
    let d := set_carrier_bit false d in
    if negb (wd_registered d) then d else link_event 0 1 d
  else d.

(** Every queue gets this state. *)
Definition all_stopped (b : bool) d : wdev :=
  set_queues (map (λ q, Wqueue b (tq_trans_start q) (tq_trans_timeout q)) (wd_queues d)) d.

Definition netif_device_detach d : wdev :=
  if wd_present d then
    let d := set_present false d in
    if wd_running d then all_stopped true d else d
  else d.

Definition netif_device_attach (now : Z) d : wdev :=
  if negb (wd_present d) then
    let d := set_present true d in
    if wd_running d then __netdev_watchdog_up now (all_stopped false d) else d
  else d.

(** [dev_trans_start], for a device that stands for itself. *)
Fixpoint trans_start_loop (l : list wqueue) (res : Z) : Z :=
  match l with
  | [] => res
  | q :: l =>
      let val := tq_trans_start q in
      trans_start_loop l (if negb (val =? 0) && time_after val res then val else res)
  end.

Definition dev_trans_start d : option Z :=
  match wd_queues d with
  | [] => None
  | q :: l => Some (trans_start_loop l (tq_trans_start q))
  end.

(** [trans_start], as [transition_one_qdisc] and then [netif_trans_update] set it. *)
Definition start_queues (now : Z) (l : list wqueue) : list wqueue :=
  match map (λ q, Wqueue (tq_stopped q) 0 (tq_trans_timeout q)) l with
  | [] => []
  | q :: l => Wqueue (tq_stopped q) (u64 now) (tq_trans_timeout q) :: l
  end.

(** The part of [dev_activate] after the disciplines are attached; [noop] tells
    whether all of them are [noop_qdisc]. *)
Definition watchdog_activate (now : Z) (noop : bool) d : wdev :=
  if negb (wd_carrier d) then d
  else
    let d := set_noop noop d in
    match wd_queues d with
    | [] => d
    | l => dev_watchdog_up now (set_queues (start_queues now l) d)
    end.

(** The part of [dev_deactivate_many]. *)
Definition watchdog_deactivate d : wdev := dev_watchdog_down (set_noop true d).

(** ** Events *)

Inductive wevent :=
| Pass (n : Z)          (* time *)
| Fire                  (* the timer *)
| Open (noop : bool)
| Close
| Activate (noop : bool)
| Deactivate
| CarrierOn
| CarrierOff
| Attach
| Detach
| Stop (i : nat)        (* by the driver *)
| Wake (i : nat)
| Sent (i : nat).       (* txq_trans_update *)

Definition on_wqueue (f : wqueue → wqueue) (i : nat) d : wdev := set_queues (alter f i (wd_queues d)) d.

(** A timer fires when it is due, and time does not pass over it. *)
Definition wstep (e : wevent) (σ : Z * wdev) : option (Z * wdev) :=
  let '(now, d) := σ in
  match e with
  | Pass n =>
      if (0 <=? n) && match wd_timer d with Some t => now + n <=? Z.max now t | None => true end then Some (now + n, d) else None
  | Fire =>
      match wd_timer d with
      | Some t => if t <=? now then Some (now, dev_watchdog now (set_timer None d)) else None
      | None => None
      end
  | Open noop => Some (now, watchdog_activate now noop (set_running true d))
  | Close => Some (now, watchdog_deactivate (set_running false d))
  | Activate noop => Some (now, watchdog_activate now noop d)
  | Deactivate => Some (now, watchdog_deactivate d)
  | CarrierOn => Some (now, netif_carrier_on now d)
  | CarrierOff => Some (now, netif_carrier_off d)
  | Attach => Some (now, netif_device_attach now d)
  | Detach => Some (now, netif_device_detach d)
  | Stop i => Some (now, on_wqueue (λ q, Wqueue true (tq_trans_start q) (tq_trans_timeout q)) i d)
  | Wake i => Some (now, on_wqueue (λ q, Wqueue false (tq_trans_start q) (tq_trans_timeout q)) i d)
  | Sent i => Some (now, on_wqueue (λ q, Wqueue (tq_stopped q) (u64 now) (tq_trans_timeout q)) i d)
  end.

End watchdog.
