(* ===== verification/TxTimeoutTheorems.v ===== *)
(** * The transmit watchdog: theorems

    The timer of TxTimeout.v holds one reference to the device, reports only queues
    that are stopped for long, and every queue that stays so. *)

From Stdlib Require Import ZArith Lia.
From stdpp Require Import base numbers list option relations.
From S2P Require Import Prelude TxTimeout.

Open Scope Z_scope.

Section watchdog.
Context `{TxTimer wqueue}.
Implicit Types d : wdev.

(** ** The reference of the timer *)

(** The references besides that of the timer. *)
Definition base_refs d : Z := wd_refs d - if wd_timer d is Some _ then 1 else 0.

Lemma base_refs_rearm now d : base_refs (rearm now d) = base_refs d.
Proof. unfold base_refs, rearm, mod_timer. destruct d as [? ? ? ? ? ? ? ? [t|] ? ? ? ?]; simpl; lia. Qed.

Lemma base_refs_up now d : base_refs (__netdev_watchdog_up now d) = base_refs d.
Proof. unfold __netdev_watchdog_up. destruct (wd_has_timeout d); [|done]. rewrite base_refs_rearm. by destruct (wd_timeo d <=? 0). Qed.

Lemma base_refs_down d : base_refs (dev_watchdog_down d) = base_refs d.
Proof. unfold base_refs, dev_watchdog_down, del_timer. destruct d as [? ? ? ? ? ? ? ? [t|] ? ? ? ?]; simpl; lia. Qed.

Lemma base_refs_activate now noop d : base_refs (watchdog_activate now noop d) = base_refs d.
Proof.
  unfold watchdog_activate. destruct (negb _); [done|]. destruct (wd_queues _); [done|]. unfold dev_watchdog_up. by rewrite base_refs_up.
Qed.

Lemma base_refs_fire now d t : wd_timer d = Some t → base_refs (dev_watchdog now (set_timer None d)) = base_refs d.
Proof.
  intros Ht. unfold dev_watchdog. assert (∀ d', base_refs (add_refs (-1) d') = base_refs d' - 1) as Hadd by (intros d'; unfold base_refs; simpl; lia).
  rewrite Hadd. assert (base_refs d = base_refs (set_timer None d) - 1) as -> by (unfold base_refs; simpl; rewrite Ht; lia). f_equal.
  destruct (_ && _); [|done]. rewrite base_refs_rearm. by destruct (find_timed_out _ _ _ _).
Qed.

Lemma base_refs_step e σ σ' : wstep e σ = Some σ' → base_refs σ'.2 = base_refs σ.2.
Proof.
  destruct σ as [now d]. destruct e; simpl; try (intros [= <-]; simpl).
  all: unfold netif_carrier_on, netif_carrier_off, netif_device_attach, netif_device_detach, watchdog_deactivate.
  - by destruct (_ && _); [intros [= <-]|].
  - destruct (wd_timer d) as [t|] eqn:Et; [|done]. destruct (t <=? now); [|done]. intros [= <-]. by eapply base_refs_fire.
  - by rewrite base_refs_activate.
  - by rewrite base_refs_down.
  - by rewrite base_refs_activate.
  - by rewrite base_refs_down.
  - repeat case_match; rewrite ?base_refs_up; done.
  - by repeat case_match.
  - repeat case_match; rewrite ?base_refs_up; done.
  - by repeat case_match.
  - done.
  - done.
  - done.
Qed.

Definition wruns : relation (Z * wdev) := rtc (λ σ σ', ∃ e, wstep e σ = Some σ').

(** The pending timer of the transmit watchdog holds exactly one reference to
    the device: whatever happens, in any order, the references besides it are
    neither lost nor added to. *)
Theorem watchdog_holds_reference σ σ' : wruns σ σ' → base_refs σ'.2 = base_refs σ.2.
Proof. induction 1 as [|σ σ1 σ' [e He] _ IH]; [done|]. rewrite IH. by eapply base_refs_step. Qed.

(** ** The timer is armed *)

Context `{!TxTimerOk wqueue}.

Definition active d : bool := negb (wd_noop d) && (wd_present d && wd_running d && wd_carrier d).

(** While the device transmits, the timer is due within [watchdog_timeo] and a
    second. *)
Definition armed (σ : Z * wdev) : Prop :=
  let '(now, d) := σ in
  wd_registered d = true ∧ wd_queues d ≠ [] ∧
  (active d = true → wd_has_timeout d = true → 0 < wd_timeo d ∧ ∃ t, wd_timer d = Some t ∧ t ≤ now + wd_timeo d + HZ).

Lemma armed_rearm now d : wd_registered d = true → wd_queues d ≠ [] → 0 < wd_timeo d → armed (now, rearm now d).
Proof.
  intros Hr Hq Ht. pose proof (round_jiffies_ok now (now + wd_timeo d)) as Hj. unfold rearm, mod_timer. simpl.
  destruct (bool_decide _); simpl; (split_and!; [done..|]); intros _ _; (split; [done|]); eexists; (split; [done|]); lia.
Qed.

Lemma armed_up now d : wd_registered d = true → wd_queues d ≠ [] → armed (now, __netdev_watchdog_up now d).
Proof.
  intros Hr Hq. pose proof HZ_pos. unfold __netdev_watchdog_up. destruct (wd_has_timeout d) eqn:Eh.
  - destruct (Z.leb_spec (wd_timeo d) 0); apply armed_rearm; simpl; done || lia.
  - split_and!; [done..|]. intros _. by rewrite Eh.
Qed.

Lemma armed_inactive now d : wd_registered d = true → wd_queues d ≠ [] → active d = false → armed (now, d).
Proof. intros Hr Hq Ha. split_and!; [done..|]. by rewrite Ha. Qed.

Lemma armed_activate now noop d : wd_registered d = true → wd_queues d ≠ [] → armed (now, watchdog_activate now noop d).
Proof.
  intros Hr Hq. unfold watchdog_activate. destruct (wd_carrier d) eqn:Ec; simpl.
  - destruct (wd_queues d) as [|q l]; [done|]. by apply armed_up.
  - apply armed_inactive; [done..|]. unfold active. by rewrite Ec, !andb_false_r.
Qed.

Lemma armed_queues now d f i : armed (now, d) → armed (now, on_wqueue f i d).
Proof. intros (Hr & Hq & Ha). split_and!; [done| |done]. simpl. by destruct (wd_queues d), i. Qed.

Lemma armed_deactivate now d : wd_registered d = true → wd_queues d ≠ [] → armed (now, watchdog_deactivate d).
Proof.
  intros Hr Hq. unfold watchdog_deactivate, dev_watchdog_down, del_timer. simpl. by destruct (bool_decide _); apply armed_inactive.
Qed.

Lemma has_timeout_rearm now d : wd_has_timeout (rearm now d) = wd_has_timeout d.
Proof. unfold rearm, mod_timer. by destruct (bool_decide _). Qed.

Lemma armed_fire now d : wd_registered d = true → wd_queues d ≠ [] →
  (active d = true → wd_has_timeout d = true → 0 < wd_timeo d) → armed (now, dev_watchdog now d).
Proof.
  intros Hr Hq Ht. unfold dev_watchdog. assert (∀ d', armed (now, d') → armed (now, add_refs (-1) d')) as Hadd by done. apply Hadd.
  destruct (_ && _) eqn:Ea; [|by apply armed_inactive]. specialize (Ht Ea).
  set (d' := match find_timed_out _ _ _ _ with Some i => _ | None => d end).
  assert (wd_registered d' = true ∧ wd_queues d' ≠ [] ∧ wd_has_timeout d' = wd_has_timeout d ∧ wd_timeo d' = wd_timeo d) as (Hr' & Hq' & Eh & Et).
  { unfold d'. destruct (find_timed_out _ _ _ _) as [i|]; [|done]. split_and!; [done| |done..]. simpl. intros E%(f_equal length).
    rewrite ndo_tx_timeout_length, length_alter in E. by destruct (wd_queues d). }
  clearbody d'. destruct (wd_has_timeout d).
  - apply armed_rearm; [done..|]. rewrite Et. by apply Ht.
  - unfold rearm, mod_timer. simpl. by destruct (bool_decide _); split_and!; simpl; rewrite ?Eh.
Qed.

Lemma armed_step e σ σ' : armed σ → wstep e σ = Some σ' → armed σ'.
Proof.
  destruct σ as [now d]. intros Ha. pose proof Ha as (Hr & Hq & Hact). pose proof HZ_pos. destruct e; simpl; try (intros [= <-]).
  - destruct (Z.leb_spec 0 n); [|done]. destruct (match wd_timer d with Some _ => _ | None => _ end); [|done]. intros [= <-].
    split_and!; [done..|]. intros Hx Hy. destruct (Hact Hx Hy) as (Ht & t & E & Hle). split; [done|]. exists t. split; [done|lia].
  - destruct (wd_timer d) as [t|] eqn:Et; [|done]. destruct (t <=? now); [|done]. intros [= <-]. apply armed_fire; [done..|].
    intros Hx Hy. by destruct (Hact Hx Hy).
  - by apply armed_activate.
  - by apply armed_deactivate.
  - by apply armed_activate.
  - by apply armed_deactivate.
  - unfold netif_carrier_on. destruct (negb (wd_carrier d)); [|done]. simpl. rewrite Hr. simpl.
    destruct (wd_running d) eqn:Erun; [by apply armed_up|]. apply armed_inactive; [done..|]. unfold active. simpl. by rewrite Erun, andb_false_r, andb_false_r.
  - unfold netif_carrier_off. destruct (wd_carrier d); [|done]. simpl. rewrite Hr. apply armed_inactive; [done..|].
    unfold active. simpl. by rewrite !andb_false_r.
  - unfold netif_device_attach. destruct (negb (wd_present d)); [|done]. simpl.
    destruct (wd_running d) eqn:Erun; [apply armed_up; [done|]; simpl; by destruct (wd_queues d)|].
    apply armed_inactive; [done..|]. unfold active. simpl. by rewrite Erun, andb_false_r.
  - unfold netif_device_detach. destruct (wd_present d); [|done]. simpl. destruct (wd_running d); apply armed_inactive; try done.
    + simpl. by destruct (wd_queues d).
    + unfold active. simpl. by rewrite andb_false_r.
    + unfold active. simpl. by rewrite andb_false_r.
  - by apply armed_queues.
  - by apply armed_queues.
  - by apply armed_queues.
Qed.

(** ** Reports *)

Lemma s64_u64_sub a b : s64 (u64 a - u64 b) = s64 (a - b).
Proof.
  unfold s64, u64. f_equal. rewrite <- (Zplus_mod_idemp_l (a mod 2 ^ 64 - b mod 2 ^ 64)), <- Zminus_mod, Zplus_mod_idemp_l. done.
Qed.

(** [time_after] is right for times that are less than half the range apart. *)
Lemma time_after_lt a b : - 2 ^ 63 ≤ b - a < 2 ^ 63 → time_after (u64 a) (u64 b) = (b <? a).
Proof. intros Hab. unfold time_after. rewrite s64_u64_sub, s64_small by lia. destruct (Z.ltb_spec (b - a) 0), (Z.ltb_spec b a); done || lia. Qed.

Lemma u64_add_idemp a b : u64 (u64 a + b) = u64 (a + b).
Proof. apply Zplus_mod_idemp_l. Qed.

Lemma find_timed_out_some now timeo l k i q : l !! i = Some q → timed_out now timeo q = true → ∃ i', find_timed_out now timeo l k = Some i'.
Proof.
  revert k i. induction l as [|q' l IH]; intros k i; [done|]. destruct i as [|i]; simpl.
  - intros [= ->] ->. eauto.
  - intros Hi Ht. destruct (timed_out now timeo q'); [eauto|]. by eapply IH.
Qed.

Lemma find_timed_out_inv now timeo l k i : find_timed_out now timeo l k = Some i →
  ∃ q, (k ≤ i)%nat ∧ l !! (i - k)%nat = Some q ∧ timed_out now timeo q = true.
Proof.
  revert k. induction l as [|q l IH]; intros k; simpl; [done|]. destruct (timed_out now timeo q) eqn:Et.
  - intros [= ->]. exists q. by rewrite Nat.sub_diag.
  - intros (q' & Hk & Hl & Ht)%IH. exists q'. replace (i - k)%nat with (S (i - S k)) by lia. split_and!; [lia|done..].
Qed.

(** The watchdog raises no false alarm: when [dev_watchdog] calls
    [ndo_tx_timeout], it is for a queue that the driver has stopped and that last
    transmitted more than [watchdog_timeo] ticks ago. *)
Theorem watchdog_no_false_alarm now d i l :
  wd_reports (dev_watchdog now d) = i :: l → wd_reports d = l → 0 < wd_timeo d < 2 ^ 31 →
  ∃ q, wd_queues d !! i = Some q ∧ tq_stopped q = true ∧
    ∀ t, tq_trans_start q = u64 t → t ≤ now < t + 2 ^ 63 → t + wd_timeo d < now.
Proof.
  intros Hrep Hl Ht. unfold dev_watchdog in Hrep. destruct (_ && _); [|simpl in Hrep; rewrite Hl in Hrep; apply (f_equal length) in Hrep; simpl in Hrep; lia].
  assert (∀ d', wd_reports (add_refs (-1) (rearm now d')) = wd_reports d') as Er
    by (intros d'; unfold rearm, mod_timer; simpl; by destruct (bool_decide _)).
  rewrite Er in Hrep. destruct (find_timed_out _ _ _ _) as [i'|] eqn:Ef; simpl in Hrep; rewrite Hl in Hrep.
  - injection Hrep as ->. apply find_timed_out_inv in Ef as (q & _ & Hq & Hto). rewrite Nat.sub_0_r in Hq. exists q.
    apply andb_true_iff in Hto as [Hs Hto]. split_and!; [done..|]. intros t Et Hnow. rewrite Et, u64_add_idemp, time_after_lt in Hto by lia.
    by apply Z.ltb_lt in Hto.
  - apply (f_equal length) in Hrep. simpl in Hrep. lia.
Qed.

Lemma reports_step e σ σ' : wstep e σ = Some σ' → ∃ l, wd_reports σ'.2 = l ++ wd_reports σ.2.
Proof.
  assert (∀ now d, wd_reports (rearm now d) = wd_reports d) as Er by (intros now d; unfold rearm, mod_timer; by destruct (bool_decide _)).
  assert (∀ now d, wd_reports (__netdev_watchdog_up now d) = wd_reports d) as Eu.
  { intros now d. unfold __netdev_watchdog_up. destruct (wd_has_timeout d); [|done]. rewrite Er. by destruct (_ <=? 0). }
  assert (∀ d, wd_reports (dev_watchdog_down d) = wd_reports d) as Ed by (intros d; unfold dev_watchdog_down, del_timer; by destruct (bool_decide _)).
  assert (∀ now b d, wd_reports (watchdog_activate now b d) = wd_reports d) as Ea.
  { intros now b d. unfold watchdog_activate, dev_watchdog_up. destruct (negb _); [done|]. destruct (wd_queues _); [done|]. by rewrite Eu. }
  destruct σ as [now d]. destruct e; simpl; try (intros [= <-]; exists []; simpl).
  all: unfold netif_carrier_on, netif_carrier_off, netif_device_attach, netif_device_detach, watchdog_deactivate; rewrite ?Ea, ?Ed; try done.
  - destruct (_ && _); [|done]. intros [= <-]. by exists [].
  - destruct (wd_timer d) as [t|]; [|done]. destruct (t <=? now); [|done]. intros [= <-]. unfold dev_watchdog. simpl.
    destruct (_ && _); [|by exists []]. rewrite Er. destruct (find_timed_out _ _ _ _) as [i|]; [by exists [i]|by exists []].
  - by repeat case_match; rewrite ?Eu.
  - by repeat case_match.
  - by repeat case_match; rewrite ?Eu.
  - by repeat case_match.
Qed.

(** Queue [i] of a device that transmits is stopped, and last sent at time [t],
    longer ago than allowed. *)
Definition stuck (i : nat) (t : Z) (σ : Z * wdev) : Prop :=
  let '(now, d) := σ in
  active d = true ∧ wd_has_timeout d = true ∧ 0 < wd_timeo d < 2 ^ 31 ∧
  (∃ q, wd_queues d !! i = Some q ∧ tq_stopped q = true ∧ tq_trans_start q = u64 t) ∧
  u64 t ≠ 0 ∧ t + wd_timeo d < now < t + 2 ^ 63.

Lemma stuck_reports i t now d : stuck i t (now, d) → ∃ i', wd_reports (dev_watchdog now (set_timer None d)) = i' :: wd_reports d.
Proof.
  intros (Ha & _ & Ht & (q & Hq & Hs & Et) & _ & Hnow). unfold dev_watchdog, active in *. simpl. rewrite Ha.
  destruct (find_timed_out_some now (wd_timeo d) (wd_queues d) 0 i q Hq) as [i' ->].
  - unfold timed_out. rewrite Hs, Et, u64_add_idemp, time_after_lt by lia. simpl. apply Z.ltb_lt. lia.
  - exists i'. unfold rearm, mod_timer. simpl. done.
Qed.

(** An activation resets the time of the last transmission. *)
Lemma stuck_activate i t now noop d : wd_carrier d = true → ¬ stuck i t (now, watchdog_activate now noop d).
Proof.
  intros Hc (_ & _ & Ht & (q & Hq & _ & Et) & Hne & Hnow). unfold watchdog_activate in *. rewrite Hc in *. cbn [negb] in *.
  change (wd_queues (set_noop noop d)) with (wd_queues d) in *. destruct (wd_queues d) as [|q0 l] eqn:El; [by simpl in Hq; rewrite ?El in Hq|].
  assert (∀ d', wd_queues (dev_watchdog_up now d') = wd_queues d') as Eq.
  { intros d'. unfold dev_watchdog_up, __netdev_watchdog_up, rearm, mod_timer. destruct (wd_has_timeout d'); [|done].
    destruct (_ <=? 0); simpl; by destruct (bool_decide _). }
  rewrite Eq in Hq. simpl in Hq. destruct i as [|i]; simpl in Hq.
  - injection Hq as <-. simpl in Et. unfold u64 in Et. Z.to_euclidean_division_equations. lia.
  - rewrite list_lookup_fmap in Hq. destruct (l !! i); simplify_eq/=.
Qed.

(** Between two states in which the queue is stuck, only the timer itself brings
    the timer forward. *)
Lemma stuck_step i t e σ σ' : stuck i t σ → stuck i t σ' → wstep e σ = Some σ' →
  (∃ i', wd_reports σ'.2 = i' :: wd_reports σ.2) ∨
  (wd_timer σ'.2 = wd_timer σ.2 ∧ σ.1 ≤ σ'.1 ∧ ∀ x, wd_timer σ.2 = Some x → σ'.1 ≤ Z.max σ.1 x).
Proof.
  destruct σ as [now d]. intros Hst Hst'. pose proof Hst as (Ha & _). unfold active in Ha.
  apply andb_true_iff in Ha as [Hn [[Hp Hrun]%andb_true_iff Hc]%andb_true_iff].
  assert (∀ d', wd_timer d' = wd_timer d → wd_timer d' = wd_timer d ∧ now ≤ now ∧ ∀ x, wd_timer d = Some x → now ≤ Z.max now x) as Hsame
    by (intros; split_and!; [done|lia|lia]).
  destruct e; simpl; try (intros [= <-]; right; by apply Hsame).
  - destruct (Z.leb_spec 0 n); [|done]. simpl. destruct (wd_timer d) as [x|] eqn:Ex; [destruct (Z.leb_spec (now + n) (Z.max now x)); [|done]|];
      intros [= <-]; right; simpl; (split_and!; [done|lia|]); intros y E; simplify_eq; lia.
  - destruct (wd_timer d) as [x|]; [|done]. destruct (x <=? now); [|done]. intros [= <-]. left. by apply (stuck_reports i t).
  - intros [= <-]. by destruct (stuck_activate i t now noop (set_running true d) Hc).
  - intros [= <-]. destruct Hst' as (Ha & _). unfold watchdog_deactivate, dev_watchdog_down, del_timer in Ha. simpl in Ha. by destruct (bool_decide _).
  - intros [= <-]. by destruct (stuck_activate i t now noop d Hc).
  - intros [= <-]. destruct Hst' as (Ha & _). unfold watchdog_deactivate, dev_watchdog_down, del_timer in Ha. simpl in Ha. by destruct (bool_decide _).
  - intros [= <-]. right. apply Hsame. unfold netif_carrier_on. by rewrite Hc.
  - intros [= <-]. right. apply Hsame. unfold netif_carrier_off. rewrite Hc. simpl. by destruct (wd_registered d).
  - intros [= <-]. right. apply Hsame. unfold netif_device_attach. by rewrite Hp.
  - intros [= <-]. right. apply Hsame. unfold netif_device_detach. rewrite Hp. simpl. by destruct (wd_running d).
Qed.

(** A device that is registered and not yet open. *)
Definition fresh d : Prop := wd_registered d = true ∧ wd_queues d ≠ [] ∧ active d = false.

Lemma fresh_armed now d σ : fresh d → wruns (now, d) σ → armed σ.
Proof.
  intros (Hr & Hq & Ha) Hrun. assert (armed (now, d)) as H0 by (by apply armed_inactive). revert H0.
  induction Hrun as [|x y z [e He] _ IH]; [done|]. intros Hx. apply IH. by eapply armed_step.
Qed.

(** C32: A stuck queue is reported: while the queue of a device that transmits stays
    stopped beyond [watchdog_timeo], whatever else happens, [ndo_tx_timeout] is
    called before another [watchdog_timeo] and a second have passed. *)
Theorem stuck_queue_reported now0 d0 i t σ σ' :
  fresh d0 → wruns (now0, d0) σ → stuck i t σ → rtc (λ a b, (∃ e, wstep e a = Some b) ∧ stuck i t b) σ σ' →
  σ.1 + wd_timeo σ.2 + HZ < σ'.1 → ∃ i' l, wd_reports σ'.2 = i' :: l ++ wd_reports σ.2.
Proof.
  intros Hfr Hr0. pose proof (fresh_armed _ _ _ Hfr Hr0) as Harm0. revert Harm0. destruct σ as [now d]. intros (_ & _ & Harm) Hst Hrun Hlate. pose proof Hst as (Ha & Hh & _).
  destruct (Harm Ha Hh) as (Ht & x & Ex & Hx). clear Harm. pose proof HZ_pos. cbn [fst snd] in *.
  set (B := now + wd_timeo d + HZ) in *. assert (now ≤ B) as HnB by lia.
  assert (∀ b, rtc (λ a b, (∃ e, wstep e a = Some b) ∧ stuck i t b) (now, d) b → stuck i t b ∧
    ((∃ i' l, wd_reports b.2 = i' :: l ++ wd_reports d) ∨ (wd_reports b.2 = wd_reports d ∧ wd_timer b.2 = Some x ∧ b.1 ≤ B))) as Hinv.
  { apply rtc_ind_r; [split; [done|]; right; done|]. intros b c _ [[e He] Hc] [Hb IH]. split; [done|].
    destruct (reports_step e b c He) as [l1 El1]. destruct IH as [(i' & l & El)|(Er & Etm & Hle)].
    - left. rewrite El1, El. destruct l1 as [|j l1]; [by exists i', l|]. exists j, (l1 ++ i' :: l). by rewrite <- app_assoc.
    - destruct (stuck_step i t e b c Hb Hc He) as [[i' Ei]|(Etm' & Hge & Hpass)].
      + left. rewrite Ei, Er. by exists i', [].
      + destruct l1 as [|j l1]; [right|left; exists j, l1; by rewrite El1, Er].
        rewrite El1, Er, Etm', Etm. specialize (Hpass x Etm). split_and!; [done..|lia]. }
  destruct (Hinv σ' Hrun) as [_ [Hr|(_ & _ & Hle)]]; [done|lia].
Qed.

End watchdog.

(** ** A device with two queues *)

(** 250 ticks a second; a driver that does nothing. *)
#[local] Instance sample_timer : TxTimer wqueue := {|
  HZ := 250;
  round_jiffies now j :=
    let r := if j mod 250 <? 62 then j - j mod 250 else j - j mod 250 + 250 in if now <? r then r else j;
  ndo_tx_timeout l := l;
|}.

#[local] Instance sample_timer_ok : TxTimerOk wqueue.
Proof.
  split; simpl; [lia| |done]. intros now j Hj. pose proof (Z.mod_pos_bound j 250). destruct (Z.ltb_spec (j mod 250) 62).
  - destruct (Z.ltb_spec now (j - j mod 250)); lia.
  - destruct (Z.ltb_spec now (j - j mod 250 + 250)); lia.
Qed.

Definition wd_two_queues : wdev :=
  Wdev [Wqueue false 0 0; Wqueue false 0 0] true true false true true true 1250 None 1 (0, 0) 0 [].

Fixpoint wexec (es : list wevent) (σ : Z * wdev) : option (Z * wdev) :=
  match es with
  | [] => Some σ
  | e :: es => match wstep e σ with Some σ => wexec es σ | None => None end
  end.

Lemma wexec_runs es σ σ' : wexec es σ = Some σ' → wruns σ σ'.
Proof.
  revert σ. induction es as [|e es IH]; intros σ; simpl; [by intros [= ->]|]. destruct (wstep e σ) as [σ1|] eqn:E; [|done].
  intros Hr. eapply rtc_l; [by exists e|]. by apply IH.
Qed.

(** Queue 1 sends and is stopped at once; it stays so until the time 102800. *)
Definition stalled_before : Z * wdev := Eval vm_compute in
  default (0, wd_two_queues) (wexec [Open false; Sent 1; Stop 1; Pass 1250; Fire; Pass 1] (100000, wd_two_queues)).

Definition stalled_due : Z * wdev := Eval vm_compute in default stalled_before (wexec [Pass 1249] stalled_before).
Definition stalled_fired : Z * wdev := Eval vm_compute in default stalled_due (wexec [Fire] stalled_due).
Definition stalled_after : Z * wdev := Eval vm_compute in default stalled_fired (wexec [Pass 300] stalled_fired).

Lemma before_runs : wruns (100000, wd_two_queues) stalled_before.
Proof. apply (wexec_runs [Open false; Sent 1; Stop 1; Pass 1250; Fire; Pass 1]). vm_compute. reflexivity. Qed.

Lemma watchdog_holds_reference_witness : base_refs stalled_before.2 = 1.
Proof. apply (watchdog_holds_reference (100000, wd_two_queues) stalled_before before_runs). Defined.

Lemma stuck_queue_reported_witness : ∃ i' l, wd_reports stalled_after.2 = i' :: l ++ wd_reports stalled_before.2.
Proof.
  assert (∀ n d k, 101250 < n < 110000 → wd_queues d !! 1%nat = Some (Wqueue true 100000 k) →
    active d = true → wd_has_timeout d = true → wd_timeo d = 1250 → stuck 1 100000 (n, d)) as Hst.
  { intros n d k Hn Hq Ha Hh Ht. unfold stuck. rewrite Ht. split_and!; [done|done|lia|lia|by eexists|done|lia|lia]. }
  apply (stuck_queue_reported 100000 wd_two_queues 1 100000 stalled_before stalled_after).
  - done.
  - exact before_runs.
  - by apply (Hst _ _ 0).
  - apply (rtc_l _ _ stalled_due); [split; [exists (Pass 1249); vm_compute; reflexivity|by apply (Hst _ _ 0)]|].
    apply (rtc_l _ _ stalled_fired); [split; [exists Fire; vm_compute; reflexivity|by apply (Hst _ _ 1)]|].
    apply (rtc_l _ _ stalled_after); [split; [exists (Pass 300); vm_compute; reflexivity|by apply (Hst _ _ 1)]|apply rtc_refl].
  - done.
Defined.

Lemma watchdog_no_false_alarm_witness :
  ∃ q, wd_queues stalled_before.2 !! 1%nat = Some q ∧ tq_stopped q = true ∧ ∀ t, tq_trans_start q = u64 t → t ≤ 102500 < t + 2 ^ 63 → t + 1250 < 102500.
Proof. apply (watchdog_no_false_alarm 102500 stalled_before.2 1 (wd_reports stalled_before.2)); [vm_compute; reflexivity|done|done]. Defined.

(** A queue other than the first that the driver stops before it has sent anything
    is reported at the next look: [transition_one_qdisc] left it with a
    [trans_start] of 0, long ago. *)
Theorem idle_queue_reported :
  ∃ σ, wexec [Open false; Pass 1249; Stop 1; Pass 1; Fire] (100000, wd_two_queues) = Some σ ∧ wd_reports σ.2 = [1%nat].
Proof. eexists. split; vm_compute; reflexivity. Qed.
