(* ===== verification/PfifoFast.v ===== *)
(** * The default queueing discipline (src/net/sched/sch_generic.c)

    [pfifo_fast]: three rings, served in strict priority.  The rings are the
    [skb_array]s of a kernel header ([SkbArray]).  The discipline is shown to
    implement three FIFO lists of bounded length, and to be a root for the
    transmit path. *)

From Stdlib Require Import ZArith Lia.
From stdpp Require Import base numbers list option.
From S2P Require Import Prelude Sched SchedSample.

Open Scope Z_scope.

Definition PFIFO_FAST_BANDS : nat := 3.

Definition TC_PRIO_MAX : Z := 15.

Definition prio2band : list nat := [1; 2; 2; 2; 1; 2; 0; 0; 1; 1; 1; 1; 1; 1; 1; 1]%nat.

(** The rings of linux/skb_array.h; [sa_null] tells that [ring.queue] is NULL. *)
Class SkbArray (A : Type) := {
  skb_array_init : Z → Z * A;
  skb_array_produce : sk_buff → A → Z * A;
  __skb_array_empty : A → bool;
  __skb_array_consume : A → option sk_buff * A;
  __skb_array_peek : A → option sk_buff;
  skb_array_resize_multiple : list A → Z → Z * list A * list sk_buff;
  ptr_ring_cleanup : A → A;
  sa_null : A → bool;
}.

(** A ring is a list of at most [sa_size] packets; one without memory is empty. *)
Class SkbArrayOk (A : Type) `{SkbArray A} := {
  sa_list : A → list sk_buff;
  sa_size : A → nat;
  sa_init_ok : ∀ n err a, skb_array_init n = (err, a) →
    sa_list a = [] ∧ (err = 0 → sa_size a = Z.to_nat n ∧ sa_null a = false) ∧ (err ≠ 0 → sa_null a = true);
  sa_produce_ok : ∀ skb a err a', skb_array_produce skb a = (err, a') →
    sa_size a' = sa_size a ∧ sa_null a' = sa_null a ∧
    ((err = 0 ∧ (length (sa_list a) < sa_size a)%nat ∧ sa_list a' = sa_list a ++ [skb]) ∨
     (err ≠ 0 ∧ (sa_size a ≤ length (sa_list a))%nat ∧ sa_list a' = sa_list a));
  sa_empty_ok : ∀ a, __skb_array_empty a = true ↔ sa_list a = [];
  sa_consume_ok : ∀ a o a', __skb_array_consume a = (o, a') →
    o = head (sa_list a) ∧ sa_list a' = tail (sa_list a) ∧ sa_size a' = sa_size a ∧ sa_null a' = sa_null a;
  sa_peek_ok : ∀ a, __skb_array_peek a = head (sa_list a);
  sa_null_ok : ∀ a, sa_null a = true → sa_list a = [];
}.

(** The private data, with the per-CPU statistics summed and the atomic length. *)
Record pfifo_fast (A : Type) := Pfifo_fast {
  pf_q : list A;
  pf_qlen : Z;             (* atomic_t *)
  pf_backlog : Z;          (* u32, sum over the CPUs *)
  pf_drops : Z;            (* u32, sum over the CPUs *)
  pf_bytes : Z;            (* u64 *)
  pf_packets : Z;          (* u32 *)
  pf_bypass : bool;        (* TCQ_F_CAN_BYPASS *)
}.
Arguments Pfifo_fast {A} _ _ _ _ _ _ _.
Arguments pf_q {A} _.
Arguments pf_qlen {A} _.
Arguments pf_backlog {A} _.
Arguments pf_drops {A} _.
Arguments pf_bytes {A} _.
Arguments pf_packets {A} _.
Arguments pf_bypass {A} _.

Section ops.
Context `{KernelHeaders} {A : Type} `{SkbArray A}.

(** [skb->priority]; the constant of [qdisc_drop_cpu]. *)
Context (priority : sk_buff → Z).

Definition set_pf_q (l : list A) (q : pfifo_fast A) : pfifo_fast A :=
  let 'Pfifo_fast _ n b d by_ p f := q in Pfifo_fast l n b d by_ p f.

(** [qdisc_qstats_cpu_backlog_inc] with [qdisc_qstats_atomic_qlen_inc], and the
    reverse. *)
Definition pf_inc (skb : sk_buff) (q : pfifo_fast A) : pfifo_fast A :=
  let 'Pfifo_fast l n b d by_ p f := q in Pfifo_fast l (n + 1) (u32 (b + pkt_len skb)) d by_ p f.

Definition pf_dec (skb : sk_buff) (q : pfifo_fast A) : pfifo_fast A :=
  let 'Pfifo_fast l n b d by_ p f := q in Pfifo_fast l (n - 1) (u32 (b - pkt_len skb)) d by_ p f.

(** [qdisc_bstats_cpu_update]. *)
Definition pf_bstats (skb : sk_buff) (q : pfifo_fast A) : pfifo_fast A :=
  let 'Pfifo_fast l n b d by_ p f := q in
  Pfifo_fast l n b d (u64 (by_ + pkt_len skb)) (u32 (p + 1)) f.

(** [qdisc_drop_cpu]. *)
Definition pf_drop (q : pfifo_fast A) : pfifo_fast A :=
  let 'Pfifo_fast l n b d by_ p f := q in Pfifo_fast l n b (u32 (d + 1)) by_ p f.

Definition band_of (skb : sk_buff) : nat :=
  default 0%nat (prio2band !! Z.to_nat (Z.land (priority skb) TC_PRIO_MAX)).

Definition pfifo_fast_enqueue (skb : sk_buff) (q : pfifo_fast A)
    : option (Z * pfifo_fast A * list sk_buff) :=
  let band := band_of skb in
  match pf_q q !! band with
  | None => None
  | Some a =>
      let '(err, a') := skb_array_produce skb a in
      let q := set_pf_q (<[band := a']> (pf_q q)) q in
      if negb (err =? 0) then Some (NET_XMIT_DROP, pf_drop q, [skb])
      else Some (NET_XMIT_SUCCESS, pf_inc skb q, [])
  end.

(** [for (band = 0; band < PFIFO_FAST_BANDS && !skb; band++)]. *)
Fixpoint consume_bands (l : list A) : option sk_buff * list A :=
  match l with
  | [] => (None, [])
  | a :: l =>
      if __skb_array_empty a then
        let '(o, l') := consume_bands l in (o, a :: l')
      else
        match __skb_array_consume a with
        | (Some skb, a') => (Some skb, a' :: l)
        | (None, a') => let '(o, l') := consume_bands l in (o, a' :: l')
        end
  end.

Definition pfifo_fast_dequeue (q : pfifo_fast A) : option sk_buff * pfifo_fast A :=
  let '(o, l) := consume_bands (pf_q q) in
  let q := set_pf_q l q in
  match o with
  | None => (None, q)
  | Some skb => (Some skb, pf_dec skb (pf_bstats skb q))
  end.

Fixpoint peek_bands (l : list A) : option sk_buff :=
  match l with
  | [] => None
  | a :: l => match __skb_array_peek a with Some skb => Some skb | None => peek_bands l end
  end.

Definition pfifo_fast_peek (q : pfifo_fast A) : option sk_buff := peek_bands (pf_q q).

(** [while ((skb = __skb_array_consume(q)) != NULL) kfree_skb(skb)]: the ring and
    the packets freed.  [None]: the fuel ran out. *)
Fixpoint drain (fuel : nat) (a : A) : option (A * list sk_buff) :=
  match fuel with
  | O => None
  | S fuel =>
      match __skb_array_consume a with
      | (None, a') => Some (a', [])
      | (Some skb, a') =>
          match drain fuel a' with
          | Some (a'', l) => Some (a'', skb :: l)
          | None => None
          end
      end
  end.

Fixpoint drain_bands (fuel : nat) (l : list A) : option (list A * list sk_buff) :=
  match l with
  | [] => Some ([], [])
  | a :: l =>
      match (if sa_null a then Some (a, []) else drain fuel a) with
      | None => None
      | Some (a', freed) =>
          match drain_bands fuel l with
          | Some (l', freed') => Some (a' :: l', freed ++ freed')
          | None => None
          end
      end
  end.

(** The per-CPU backlogs are zeroed; the atomic length is not touched. *)
Definition pfifo_fast_reset (fuel : nat) (q : pfifo_fast A) : option (pfifo_fast A * list sk_buff) :=
  match drain_bands fuel (pf_q q) with
  | None => None
  | Some (l, freed) =>
      let 'Pfifo_fast _ n _ d by_ p f := q in Some (Pfifo_fast l n 0 d by_ p f, freed)
  end.

(** The rings, up to the first one without memory; the others stay zeroed. *)
Fixpoint init_bands (qlen : Z) (l : list A) : Z * list A :=
  match l with
  | [] => (0, [])
  | a :: l =>
      let '(err, a') := skb_array_init qlen in
      if negb (err =? 0) then (- ENOMEM, a' :: l)
      else let '(err, l') := init_bands qlen l in (err, a' :: l')
  end.

(** [qlen] is the device's [tx_queue_len]. *)
Definition pfifo_fast_init (qlen : Z) (q : pfifo_fast A) : Z * pfifo_fast A :=
  if qlen =? 0 then (- EINVAL, q)
  else
    let '(err, l) := init_bands qlen (pf_q q) in
    if negb (err =? 0) then (err, set_pf_q l q)
    else
      let 'Pfifo_fast _ n b d by_ p _ := q in (0, Pfifo_fast l n b d by_ p true).

Definition pfifo_fast_destroy (q : pfifo_fast A) : pfifo_fast A :=
  set_pf_q (map (λ a, if sa_null a then a else ptr_ring_cleanup a) (pf_q q)) q.

(** The priority map of [struct tc_prio_qopt], after the number of bands. *)
Definition pfifo_fast_dump (room : bool) : option (nat * list nat) :=
  if room then Some (PFIFO_FAST_BANDS, prio2band) else None.

Definition pfifo_fast_change_tx_queue_len (new_len : Z) (q : pfifo_fast A)
    : Z * pfifo_fast A * list sk_buff :=
  let '(err, l, dropped) := skb_array_resize_multiple (pf_q q) new_len in
  (err, set_pf_q l q, dropped).

End ops.

(** ** Refinement: three lists *)

Section spec.
Context (priority : sk_buff → Z).

(** The specification: lists of at most [size] packets. *)
Definition spec_enqueue (size : nat) (skb : sk_buff) (l : list (list sk_buff)) : bool * list (list sk_buff) :=
  let band := band_of priority skb in
  match l !! band with
  | Some b => if (length b <? size)%nat then (true, <[band := b ++ [skb]]> l) else (false, l)
  | None => (false, l)
  end.

Fixpoint spec_dequeue (l : list (list sk_buff)) : option sk_buff * list (list sk_buff) :=
  match l with
  | [] => (None, [])
  | [] :: l => let '(o, l') := spec_dequeue l in (o, [] :: l')
  | (skb :: b) :: l => (Some skb, b :: l)
  end.

(** Strict priority, first in first out: what is taken is the oldest packet of
    the first band that has one. *)
Lemma spec_dequeue_some l skb l' : spec_dequeue l = (Some skb, l') →
  ∃ before b after, l = before ++ (skb :: b) :: after ∧ l' = before ++ b :: after ∧ Forall (λ x, x = []) before.
Proof.
  revert l'. induction l as [|[|x b] l IH]; intros l'; simpl; [done| |].
  - destruct (spec_dequeue l) as [o l1] eqn:E. intros [= -> <-].
    destruct (IH _ eq_refl) as (bf & b & af & -> & -> & Hbf). exists ([] :: bf), b, af. by repeat constructor.
  - intros [= <- <-]. by exists [], b, l.
Qed.

Lemma spec_dequeue_none l l' : spec_dequeue l = (None, l') → l' = l ∧ Forall (λ x, x = []) l.
Proof.
  revert l'. induction l as [|[|x b] l IH]; intros l'; simpl; [by intros [= <-]| |done].
  destruct (spec_dequeue l) as [o l1] eqn:E. intros [= -> <-]. destruct (IH _ eq_refl) as [-> Hl]. by repeat constructor.
Qed.

End spec.

Section refine.
Context `{KernelHeadersOk} {A : Type} `{SkbArrayOk A} (priority : sk_buff → Z).

(** The state represents the lists: rings with memory, all of one size, and
    counters that agree with them. *)
Definition pf_total (l : list (list sk_buff)) : Z := foldr (λ b n, Z.of_nat (length b) + n) 0 l.

Definition pf_bytes_of (l : list (list sk_buff)) : Z :=
  foldr (λ b n, foldr (λ skb n, pkt_len skb + n) 0 b + n) 0 l.

Record pf_rep (size : nat) (q : pfifo_fast A) (l : list (list sk_buff)) : Prop := {
  rep_lists : map sa_list (pf_q q) = l;
  rep_bands : length (pf_q q) = PFIFO_FAST_BANDS;
  rep_rings : Forall (λ a, sa_size a = size ∧ sa_null a = false) (pf_q q);
  rep_qlen : pf_qlen q = pf_total l;
  rep_backlog : pf_backlog q = u32 (pf_bytes_of l);
}.

Lemma prio2band_range : Forall (λ b, (b < PFIFO_FAST_BANDS)%nat) prio2band.
Proof. apply (bool_decide_unpack _). vm_compute. exact I. Qed.

Lemma band_of_range skb : (band_of priority skb < PFIFO_FAST_BANDS)%nat.
Proof.
  unfold band_of. destruct (prio2band !! _) as [b|] eqn:E; simpl; [|unfold PFIFO_FAST_BANDS; lia].
  by apply (Forall_lookup_1 _ _ _ _ prio2band_range E).
Qed.

Lemma pf_total_insert l i b b' : l !! i = Some b →
  pf_total (<[i := b']> l) = pf_total l + (Z.of_nat (length b') - Z.of_nat (length b)).
Proof.
  revert i. induction l as [|x l IH]; intros [|i]; simpl; try done; [intros [= ->]; lia|].
  intros Hi. rewrite (IH _ Hi). lia.
Qed.

Lemma pf_bytes_insert l i b b' : l !! i = Some b →
  pf_bytes_of (<[i := b']> l) = pf_bytes_of l + (foldr (λ skb n, pkt_len skb + n) 0 b' - foldr (λ skb n, pkt_len skb + n) 0 b).
Proof.
  revert i. induction l as [|x l IH]; intros [|i]; simpl; try done; [intros [= ->]; lia|].
  intros Hi. rewrite (IH _ Hi). lia.
Qed.

Lemma bytes_app b c : foldr (λ skb n, pkt_len skb + n) 0 (b ++ c) =
  foldr (λ skb n, pkt_len skb + n) 0 b + foldr (λ skb n, pkt_len skb + n) 0 c.
Proof. induction b; simpl; lia. Qed.

(** The packet joins the band of its priority if the ring has room, and is
    dropped and counted if not; the length and the backlog stay exact. *)
Lemma pfifo_fast_enqueue_refines size skb q l :
  pf_rep size q l →
  ∃ rc q' freed, pfifo_fast_enqueue priority skb q = Some (rc, q', freed) ∧
    pf_rep size q' (spec_enqueue priority size skb l).2 ∧
    (if (spec_enqueue priority size skb l).1 then rc = NET_XMIT_SUCCESS ∧ freed = []
     else rc = NET_XMIT_DROP ∧ freed = [skb] ∧ pf_drops q' = u32 (pf_drops q + 1)).
Proof.
  intros [Hl Hb Hr Hn Hby]. unfold pfifo_fast_enqueue, spec_enqueue. set (i := band_of priority skb).
  pose proof (band_of_range skb) as Hi. fold i in Hi. rewrite <- Hb in Hi.
  destruct (lookup_lt_is_Some_2 (pf_q q) i Hi) as [a Ha]. rewrite Ha.
  assert (l !! i = Some (sa_list a)) as Hli by (rewrite <- Hl, list_lookup_fmap, Ha; done). rewrite Hli.
  destruct (skb_array_produce skb a) as [err a'] eqn:Ep. apply sa_produce_ok in Ep as (Hs & Hnl & Hcase).
  pose proof (Forall_lookup_1 _ _ _ _ Hr Ha) as [Hsz Hnz]. cbv beta in Hsz, Hnz. rewrite Hsz in Hcase.
  assert (Forall (λ a, sa_size a = size ∧ sa_null a = false) (<[i:=a']> (pf_q q))) as Hr'.
  { apply Forall_insert; [done|]. split; congruence. }
  destruct Hcase as [(-> & Hlt & Hla)|(Hne & Hge & Hla)].
  - rewrite (proj2 (Nat.ltb_lt _ _) Hlt). cbn [negb Z.eqb]. eexists _, _, _. split; [done|]. split; [|done].
    destruct q as [pq n b d by_ p f]. simpl in *. constructor; simpl.
    + rewrite list_fmap_insert, Hla. by rewrite <- Hl.
    + by rewrite length_insert.
    + done.
    + rewrite (pf_total_insert _ _ _ _ Hli), Hn, length_app. simpl. lia.
    + rewrite (pf_bytes_insert _ _ _ _ Hli), Hby, bytes_app. unfold u32. rewrite Zplus_mod_idemp_l. f_equal. simpl. lia.
  - rewrite (proj2 (Nat.ltb_ge _ _) Hge). rewrite (proj2 (Z.eqb_neq _ _) Hne). cbn [negb].
    eexists _, _, _. split; [done|]. split; [|by destruct q].
    destruct q as [pq n b d by_ p f]. simpl in *. constructor; simpl; [|by rewrite length_insert|done..].
    rewrite list_fmap_insert, Hla, list_insert_id; [done|]. by rewrite list_lookup_fmap, Ha.
Qed.

Lemma consume_bands_spec l : ∃ l', consume_bands l = ((spec_dequeue (map sa_list l)).1, l') ∧
  map sa_list l' = (spec_dequeue (map sa_list l)).2 ∧ length l' = length l ∧
  ∀ size, Forall (λ a, sa_size a = size ∧ sa_null a = false) l → Forall (λ a, sa_size a = size ∧ sa_null a = false) l'.
Proof.
  induction l as [|a l (l' & Hc & Hm & Hlen & Hr)]; [by exists []|]. cbn [consume_bands map spec_dequeue].
  destruct (__skb_array_empty a) eqn:Ee.
  - pose proof (proj1 (sa_empty_ok a) Ee) as Ea. rewrite Hc, Ea. destruct (spec_dequeue (map sa_list l)) as [o m].
    exists (a :: l'). simpl in *. rewrite Ea, Hm, Hlen. split_and!; [done..|].
    intros size [Ha Hl]%Forall_cons_1. constructor; [done|]. by apply Hr.
  - destruct (__skb_array_consume a) as [o a'] eqn:Eo. apply sa_consume_ok in Eo as (-> & Ht & Hs & Hn).
    destruct (sa_list a) as [|skb b] eqn:Ea; [by rewrite (proj2 (sa_empty_ok a) Ea) in Ee|]. cbn [head tail] in *.
    exists (a' :: l). simpl. rewrite Ht. split_and!; [done..|].
    intros size [[Ha1 Ha2] Hl]%Forall_cons_1. constructor; [|done]. split; congruence.
Qed.

Lemma pf_total_take before skb b after :
  pf_total (before ++ b :: after) = pf_total (before ++ (skb :: b) :: after) - 1.
Proof. induction before; simpl in *; lia. Qed.

Lemma pf_bytes_take before skb b after :
  pf_bytes_of (before ++ b :: after) = pf_bytes_of (before ++ (skb :: b) :: after) - pkt_len skb.
Proof. induction before; simpl in *; lia. Qed.

Lemma pfifo_fast_dequeue_refines size q l :
  pf_rep size q l →
  (pfifo_fast_dequeue q).1 = (spec_dequeue l).1 ∧ pf_rep size (pfifo_fast_dequeue q).2 (spec_dequeue l).2.
Proof.
  intros [Hl Hb Hr Hn Hby]. unfold pfifo_fast_dequeue. destruct (consume_bands_spec (pf_q q)) as (l' & Hc & Hm & Hlen & Hr').
  rewrite Hl in Hc, Hm. rewrite Hc. specialize (Hr' size Hr). destruct q as [pq n b d by_ p f]. simpl in *.
  destruct (spec_dequeue l) as [[skb|] m] eqn:Ed; cbn [fst snd] in *; (split; [done|]).
  - apply spec_dequeue_some in Ed as (bf & bb & af & -> & -> & _). constructor; simpl; [done|congruence|done|..].
    + rewrite Hn. symmetry. apply pf_total_take.
    + rewrite (pf_bytes_take bf skb bb), Hby. unfold u32. by rewrite Zminus_mod_idemp_l.
  - apply spec_dequeue_none in Ed as [-> _]. by constructor; simpl; [|congruence|..].
Qed.

(** Peeking shows the packet that a dequeue takes. *)
Lemma pfifo_fast_peek_dequeue q : pfifo_fast_peek q = (pfifo_fast_dequeue q).1.
Proof.
  unfold pfifo_fast_peek, pfifo_fast_dequeue. destruct (consume_bands_spec (pf_q q)) as (l' & -> & _).
  transitivity (spec_dequeue (map sa_list (pf_q q))).1; [|by destruct (spec_dequeue _) as [[]]].
  induction (pf_q q) as [|a l IH]; [done|]. simpl. rewrite sa_peek_ok. destruct (sa_list a) as [|skb b]; simpl; [|done].
  rewrite IH. by destruct (spec_dequeue (map sa_list l)).
Qed.

Lemma drain_spec fuel a : (length (sa_list a) < fuel)%nat →
  ∃ a', drain fuel a = Some (a', sa_list a) ∧ sa_list a' = [] ∧ sa_size a' = sa_size a ∧ sa_null a' = sa_null a.
Proof.
  revert a. induction fuel as [|fuel IH]; intros a Hf; [lia|]. simpl.
  destruct (__skb_array_consume a) as [o a'] eqn:Eo. apply sa_consume_ok in Eo as (-> & Ht & Hs & Hn).
  destruct (sa_list a) as [|skb b] eqn:Ea; simpl in *; [by exists a'|].
  destruct (IH a') as (a2 & Hd & Ha2 & Hs2 & Hn2); [rewrite Ht; lia|]. exists a2. rewrite Hd, Ht. split_and!; congruence.
Qed.

(** A reset returns, frees every queued packet, band by band in order, and
    leaves the rings empty and the backlog zero. *)
Theorem pfifo_fast_reset_frees fuel q :
  Forall (λ a, (length (sa_list a) < fuel)%nat) (pf_q q) →
  ∃ q', pfifo_fast_reset fuel q = Some (q', concat (map sa_list (pf_q q))) ∧
    Forall (λ a, sa_list a = []) (pf_q q') ∧ length (pf_q q') = length (pf_q q) ∧ pf_backlog q' = 0.
Proof.
  intros Hf. assert (∃ l', drain_bands fuel (pf_q q) = Some (l', concat (map sa_list (pf_q q))) ∧
    Forall (λ a, sa_list a = []) l' ∧ length l' = length (pf_q q)) as (l' & Hd & He & Hl).
  { induction Hf as [|a l Ha _ (l' & Hd & He & Hl)]; [by exists []|]. simpl.
    destruct (sa_null a) eqn:En.
    - exists (a :: l'). rewrite Hd, (sa_null_ok a En). split_and!; [done| |simpl; by rewrite Hl]. constructor; [by apply sa_null_ok|done].
    - destruct (drain_spec fuel a Ha) as (a' & -> & Ha' & _). exists (a' :: l'). rewrite Hd.
      split_and!; [done|by constructor|simpl; by rewrite Hl]. }
  unfold pfifo_fast_reset. rewrite Hd. destruct q. eexists. by split_and!.
Qed.

(** The rings [pfifo_fast_init] sets up. *)
Lemma init_bands_spec n l : n ≠ 0 → let '(err, l') := init_bands n l in
  length l' = length l ∧
  (err = 0 → Forall (λ a, sa_list a = []) l' ∧ Forall (λ a, sa_size a = Z.to_nat n ∧ sa_null a = false) l').
Proof.
  intros Hn. induction l as [|a l IH]; [done|]. simpl.
  destruct (skb_array_init n) as [err a'] eqn:Ei. apply sa_init_ok in Ei as (He & Hok & _).
  destruct (Z.eqb_spec err 0) as [->|Hne]; simpl; [|done].
  destruct (init_bands n l) as [err l']. destruct IH as [Hl Hr]. split; [simpl; lia|]. intros ->.
  destruct (Hok eq_refl), (Hr eq_refl). by split; constructor.
Qed.

Lemma pfifo_fast_init_rep n q q' : length (pf_q q) = PFIFO_FAST_BANDS → pf_qlen q = 0 → pf_backlog q = 0 →
  pfifo_fast_init n q = (0, q') → pf_rep (Z.to_nat n) q' [[]; []; []].
Proof.
  intros Hl Hn Hb. unfold pfifo_fast_init. destruct (Z.eqb_spec n 0) as [->|Hz]; [done|].
  pose proof (init_bands_spec n (pf_q q) Hz) as Hi. destruct (init_bands n (pf_q q)) as [err l].
  destruct Hi as [Hlen Hi]. destruct (Z.eqb_spec err 0) as [->|]; simpl; [|by intros [= ? ?]].
  destruct (Hi eq_refl) as [He Hr]. destruct q as [pq qn b d by_ p f]. simpl in *. subst. intros [= <-].
  rewrite Hl in Hlen. destruct l as [|a1 [|a2 [|a3 [|]]]]; try done.
  apply Forall_cons_1 in He as [E1 He]. apply Forall_cons_1 in He as [E2 He]. apply Forall_cons_1 in He as [E3 _].
  constructor; simpl; [by rewrite E1, E2, E3|done..].
Qed.

(** ** Sequences of operations *)

Inductive pf_op := PfEnqueue (skb : sk_buff) | PfDequeue.

Inductive pf_out := PfAccepted | PfDropped | PfTaken (o : option sk_buff).

Definition pf_exec (op : pf_op) (q : pfifo_fast A) : option (pf_out * pfifo_fast A) :=
  match op with
  | PfEnqueue skb =>
      match pfifo_fast_enqueue priority skb q with
      | Some (rc, q', _) => Some (if rc =? NET_XMIT_SUCCESS then PfAccepted else PfDropped, q')
      | None => None
      end
  | PfDequeue => let '(o, q') := pfifo_fast_dequeue q in Some (PfTaken o, q')
  end.

Fixpoint pf_run (ops : list pf_op) (q : pfifo_fast A) : option (list pf_out * pfifo_fast A) :=
  match ops with
  | [] => Some ([], q)
  | op :: ops =>
      match pf_exec op q with
      | None => None
      | Some (out, q) =>
          match pf_run ops q with
          | Some (outs, q) => Some (out :: outs, q)
          | None => None
          end
      end
  end.

Definition spec_exec (size : nat) (op : pf_op) (l : list (list sk_buff)) : pf_out * list (list sk_buff) :=
  match op with
  | PfEnqueue skb => let '(ok, l') := spec_enqueue priority size skb l in (if ok then PfAccepted else PfDropped, l')
  | PfDequeue => let '(o, l') := spec_dequeue l in (PfTaken o, l')
  end.

Fixpoint spec_run (size : nat) (ops : list pf_op) (l : list (list sk_buff)) : list pf_out * list (list sk_buff) :=
  match ops with
  | [] => ([], l)
  | op :: ops =>
      let '(out, l) := spec_exec size op l in
      let '(outs, l) := spec_run size ops l in (out :: outs, l)
  end.

Lemma pf_exec_refines size op q l : pf_rep size q l →
  ∃ q', pf_exec op q = Some ((spec_exec size op l).1, q') ∧ pf_rep size q' (spec_exec size op l).2.
Proof.
  intros Hrep. destruct op as [skb|]; simpl.
  - destruct (pfifo_fast_enqueue_refines size skb q l Hrep) as (rc & q' & fr & -> & Hr' & Hrc). exists q'.
    destruct (spec_enqueue priority size skb l) as [[] l']; simpl in *.
    + destruct Hrc as [-> _]. by rewrite Z.eqb_refl.
    + destruct Hrc as [-> _]. rewrite (proj2 (Z.eqb_neq _ _) xmit_drop_ne). done.
  - destruct (pfifo_fast_dequeue_refines size q l Hrep) as [Ho Hr']. destruct (pfifo_fast_dequeue q) as [o q'].
    destruct (spec_dequeue l) as [o' l']. simpl in *. subst. by exists q'.
Qed.

(** C27: [pfifo_fast] refines three bounded lists in strict priority: any sequence
    of enqueues and dequeues has the results of the specification, never fails,
    and leaves the length and the backlog exact.  The specification takes the
    oldest packet of the first non-empty band. *)
Theorem pfifo_fast_refines size ops q l :
  pf_rep size q l →
  ∃ q', pf_run ops q = Some ((spec_run size ops l).1, q') ∧ pf_rep size q' (spec_run size ops l).2.
Proof.
  revert q l. induction ops as [|op ops IH]; intros q l Hrep; [by exists q|]. simpl.
  destruct (pf_exec_refines size op q l Hrep) as (q1 & -> & Hr1). destruct (spec_exec size op l) as [out l1].
  simpl in Hr1. destruct (IH q1 l1 Hr1) as (q2 & -> & Hr2). destruct (spec_run size ops l1) as [outs l2].
  simpl in *. by exists q2.
Qed.

End refine.

(** ** Rings of lists *)

Record ring := { ring_size : nat; ring_list : list sk_buff }.

Definition sample_ring : SkbArray ring := {|
  skb_array_init n := (0, {| ring_size := Z.to_nat n; ring_list := [] |});
  skb_array_produce skb a :=
    if (length (ring_list a) <? ring_size a)%nat
    then (0, {| ring_size := ring_size a; ring_list := ring_list a ++ [skb] |})
    else (- 28, a);
  __skb_array_empty a := match ring_list a with [] => true | _ => false end;
  __skb_array_consume a := (head (ring_list a), {| ring_size := ring_size a; ring_list := tail (ring_list a) |});
  __skb_array_peek a := head (ring_list a);
  skb_array_resize_multiple l n :=
    (0, map (λ a, {| ring_size := Z.to_nat n; ring_list := take (Z.to_nat n) (ring_list a) |}) l,
     concat (map (λ a, drop (Z.to_nat n) (ring_list a)) l));
  ptr_ring_cleanup a := {| ring_size := 0; ring_list := [] |};
  sa_null a := false;
|}.

Definition sample_ring_ok : @SkbArrayOk ring sample_ring.
Proof.
  refine {| sa_list := ring_list; sa_size := ring_size |}.
  - intros n err a [= <- <-]. split; [done|]. by split; [|intros []].
  - intros skb a err a'. simpl. destruct (Nat.ltb_spec (length (ring_list a)) (ring_size a)); intros [= <- <-];
      (split; [done|]); (split; [done|]); [by left|by right].
  - intros a. simpl. by destruct (ring_list a).
  - by intros a o a' [= <- <-].
  - done.
  - done.
Defined.

Definition zero_pfifo : pfifo_fast ring :=
  Pfifo_fast (replicate 3 {| ring_size := 0; ring_list := [] |}) 0 0 0 0 0 false.

Definition fresh_pfifo : pfifo_fast ring := (@pfifo_fast_init ring sample_ring 2 zero_pfifo).2.

Definition skb_of (id : Z) : sk_buff := {| skb_id := id; skb_len := 100; pkt_len := 100 |}.

(** Packet 6 is of the first band, the others of the second, whose ring is full
    when packet 3 comes. *)
Lemma pfifo_fast_refines_witness :
  let ops := [PfEnqueue (skb_of 1); PfEnqueue (skb_of 2); PfEnqueue (skb_of 3); PfEnqueue (skb_of 6);
              PfDequeue; PfDequeue; PfDequeue; PfDequeue] in
  let prio skb := if skb_id skb =? 6 then 6 else 0 in
  ∃ q', @pf_run sample_headers ring sample_ring prio ops fresh_pfifo = Some ((spec_run prio 2 ops [[]; []; []]).1, q') ∧
    @pf_rep ring sample_ring sample_ring_ok 2 q' (spec_run prio 2 ops [[]; []; []]).2.
Proof.
  apply (@pfifo_fast_refines sample_headers sample_headers_ok ring sample_ring sample_ring_ok).
  by constructor; vm_compute; repeat constructor.
Defined.

Lemma pfifo_fast_outputs :
  let prio skb := if skb_id skb =? 6 then 6 else 0 in
  (spec_run prio 2 [PfEnqueue (skb_of 1); PfEnqueue (skb_of 2); PfEnqueue (skb_of 3); PfEnqueue (skb_of 6);
                    PfDequeue; PfDequeue; PfDequeue; PfDequeue] [[]; []; []]).1
  = [PfAccepted; PfAccepted; PfDropped; PfAccepted;
     PfTaken (Some (skb_of 6)); PfTaken (Some (skb_of 1)); PfTaken (Some (skb_of 2)); PfTaken None].
Proof. reflexivity. Qed.

Lemma pfifo_fast_reset_frees_witness :
  let q := Pfifo_fast (map (λ l, {| ring_size := 2; ring_list := l |}) [[skb_of 6]; [skb_of 1; skb_of 2]; []])
             3 300 0 0 0 true in
  ∃ q', @pfifo_fast_reset ring sample_ring 5 q = Some (q', [skb_of 6; skb_of 1; skb_of 2]) ∧
    Forall (λ a, ring_list a = []) (pf_q q') ∧ length (pf_q q') = 3%nat ∧ pf_backlog q' = 0.
Proof.
  apply (@pfifo_fast_reset_frees ring sample_ring sample_ring_ok 5
    (Pfifo_fast (map (λ l, {| ring_size := 2; ring_list := l |}) [[skb_of 6]; [skb_of 1; skb_of 2]; []])
       3 300 0 0 0 true)).
  repeat constructor; simpl; lia.
Defined.
