(* ===== verification/Stab.v ===== *)
(** * Size tables (src/net/sched/sch_api.c)

    A queueing discipline may have a table that maps the length of a packet to
    the length it is charged for.  tc(8) computes the table ([tc_calc_size_table],
    TcCore.v); the kernel keeps one copy of equal tables ([qdisc_get_stab],
    [qdisc_put_stab]) and looks lengths up ([__qdisc_calculate_pkt_len]).  The
    main theorem composes the two sides. *)

From Stdlib Require Import ZArith Lia.
From stdpp Require Import base numbers list option.
From S2P Require Import Prelude Sched TcCore.

Open Scope Z_scope.

#[export] Instance link_layer_eq_dec : EqDecision link_layer.
Proof. solve_decision. Defined.

#[export] Instance tc_sizespec_eq_dec : EqDecision tc_sizespec.
Proof. solve_decision. Defined.

(** [struct qdisc_size_table], identified by its address. *)
Record qdisc_size_table := SizeTable {
  st_addr : Z;
  st_refcnt : Z;
  st_szopts : tc_sizespec;
  st_data : list Z;   (* u16 *)
}.

(** The attributes of [TCA_STAB] after [nla_parse_nested], or its error. *)
Record stab_attrs := StabAttrs {
  sa_base : option tc_sizespec;
  sa_data : option (list Z);
}.

Definition stab_ref (d : Z) (t : qdisc_size_table) : qdisc_size_table :=
  SizeTable (st_addr t) (st_refcnt t + d) (st_szopts t) (st_data t).

(** The [list_for_each_entry] loop: the table found and the list with its count
    incremented.  The second [memcmp] reads [tsize] words of both. *)
Fixpoint stab_find (s : tc_sizespec) (tab : list Z) (l : list qdisc_size_table)
    : option (qdisc_size_table * list qdisc_size_table) :=
  match l with
  | [] => None
  | t :: l =>
      if bool_decide (st_szopts t = s) && bool_decide (take (Z.to_nat (ss_tsize s)) (st_data t) = tab)
      then Some (stab_ref 1 t, stab_ref 1 t :: l)
      else match stab_find s tab l with
           | Some (u, l') => Some (u, t :: l')
           | None => None
           end
  end.

(** [fresh] is the address [kmalloc] returns, if any. *)
Definition qdisc_get_stab (fresh : option Z) (opt : Z + stab_attrs) (l : list qdisc_size_table)
    : (Z + qdisc_size_table) * list qdisc_size_table :=
  match opt with
  | inl err => (inl err, l)
  | inr a =>
      match sa_base a with
      | None => (inl (- EINVAL), l)
      | Some s =>
          let check tsize tab :=
            if negb (tsize =? ss_tsize s) then (inl (- EINVAL), l)
            else match stab_find s tab l with
                 | Some (t, l') => (inr t, l')
                 | None =>
                     match fresh with
                     | None => (inl (- ENOMEM), l)
                     | Some a => let t := SizeTable a 1 s tab in (inr t, l ++ [t])
                     end
                 end in
          if 0 <? ss_tsize s then
            match sa_data a with
            | None => (inl (- EINVAL), l)
            | Some tab => check (Z.of_nat (length tab)) tab
            end
          else check 0 []
      end
  end.

Definition qdisc_put_stab (tab : option Z) (l : list qdisc_size_table) : list qdisc_size_table :=
  match tab with
  | None => l
  | Some a =>
      (fix go l := match l with
                   | [] => []
                   | t :: l =>
                       if st_addr t =? a
                       then if st_refcnt t - 1 =? 0 then l else stab_ref (-1) t :: l
                       else t :: go l
                   end) l
  end.

(** [stab->data[i]]. *)
Definition stab_at (t : qdisc_size_table) (i : Z) : Z := default 0 (st_data t !! Z.to_nat i).

(** [pkt_len] and [slot] are [int]s; [overhead] and [cell_align] are signed. *)
Definition __qdisc_calculate_pkt_len (t : qdisc_size_table) (skb : sk_buff) : sk_buff :=
  let s := st_szopts t in
  let pkt_len := s32 (skb_len skb + ss_overhead s) in
  let pkt_len :=
    if ss_tsize s =? 0 then pkt_len
    else
      let slot := s32 (pkt_len + ss_cell_align s) in
      let slot := if slot <? 0 then 0 else slot in
      let slot := Z.shiftr slot (ss_cell_log s) in
      let pkt_len :=
        if slot <? ss_tsize s then stab_at t slot
        else s32 (stab_at t (ss_tsize s - 1) * (slot / ss_tsize s) + stab_at t (slot mod ss_tsize s)) in
      s32 (Z.shiftl pkt_len (ss_size_log s)) in
  set_pkt_len (u32 (if pkt_len <? 1 then 1 else pkt_len)) skb.

(** ** The table of tc and the lookup of the kernel *)

Lemma stab_entries_lookup n clog slog mpu l acc stab i :
  stab_entries n clog slog mpu l acc = Some stab →
  (i < n)%nat →
  stab !! i = Some (Z.shiftr (tc_adjust_size (u32 (Z.shiftl (Z.of_nat i + 1) clog)) mpu l) slog).
Proof.
  assert (∀ n acc stab, stab_entries n clog slog mpu l acc = Some stab →
    stab = map (λ i, Z.shiftr (tc_adjust_size (u32 (Z.shiftl (Z.of_nat i + 1) clog)) mpu l) slog) (seq 0 n) ++ acc) as Hall.
  { clear. induction n as [|n IH]; intros acc stab Heq; simpl in Heq; [by simplify_eq|].
    case_match; [done|]. apply IH in Heq. rewrite Heq, seq_S, map_app, <- app_assoc. done. }
  intros Heq Hi. rewrite (Hall _ _ _ Heq), lookup_app_l by (rewrite length_map, length_seq; lia).
  rewrite list_lookup_fmap, lookup_seq_lt by lia. done.
Qed.

Lemma stab_again_entries fuel tsize clog slog mpu l slog' stab :
  stab_again fuel tsize clog slog mpu l = Some (slog', stab) → stab_entries tsize clog slog' mpu l [] = Some stab.
Proof.
  revert slog. induction fuel as [|fuel IH]; intros slog; simpl; [done|].
  destruct (stab_entries tsize clog slog mpu l []) as [st|] eqn:E; [by intros [= <- <-]|apply IH].
Qed.

(** The length after rounding up to a cell of [2 ^ clog] bytes. *)
Definition cell_ceil (len clog : Z) : Z := Z.shiftl (Z.shiftr (len - 1) clog + 1) clog.

Lemma cell_ceil_bounds len clog : 0 ≤ clog → len ≤ cell_ceil len clog < len + 2 ^ clog.
Proof.
  intros Hc. unfold cell_ceil. rewrite Z.shiftl_mul_pow2, Z.shiftr_div_pow2 by done.
  assert (0 < 2 ^ clog) by (apply Z.pow_pos_nonneg; lia).
  pose proof (Z.div_mod (len - 1) (2 ^ clog)). pose proof (Z.mod_pos_bound (len - 1) (2 ^ clog)). nia.
Qed.

Lemma cell_log_loop_bound fuel mtu bound clog r :
  cell_log_loop fuel mtu bound clog = Some r → clog ≤ r ∧ Z.shiftr mtu r ≤ bound.
Proof.
  revert clog. induction fuel as [|fuel IH]; intros clog; simpl; [done|].
  destruct (Z.ltb_spec bound (Z.shiftr mtu clog)); [|intros [= <-]; lia]. intros Hl. apply IH in Hl. lia.
Qed.

(** What [tc_calc_size_table] returns with a table. *)
Lemma tc_calc_size_table_data s s' tab : tc_calc_size_table true s = Some (0, s', Some tab) →
  stab_entries (Z.to_nat (ss_tsize s')) (ss_cell_log s') (ss_size_log s') (ss_mpu s) (ss_linklayer s) [] = Some tab ∧
  0 ≤ ss_cell_log s' ∧ Z.shiftr (ss_mtu s') (ss_cell_log s') ≤ ss_tsize s' - 1 ∧
  ss_cell_align s' = -1 ∧ ss_overhead s' = ss_overhead s.
Proof.
  unfold tc_calc_size_table. case_match; [done|]. set (mtu := if ss_mtu s =? 0 then _ else _).
  set (tsize := if ss_tsize s =? 0 then _ else _). destruct (cell_log_loop 32 mtu (tsize - 1) 0) as [clog|] eqn:Ec; [|done].
  cbn [negb]. destruct (stab_again _ _ _ _ _ _) as [[slog stab]|] eqn:Ea; [|done]. intros [= <- <-]. simpl.
  apply stab_again_entries in Ea. apply cell_log_loop_bound in Ec. split_and!; (done || lia).
Qed.


(** An ATM link, with the default table: 4-byte cells, no scaling. *)
Definition atm_spec : tc_sizespec := SizeSpec 0 0 0 10 LINKLAYER_ATM 0 0 0.

Definition atm_spec' : tc_sizespec := SizeSpec 2 0 (-1) 10 LINKLAYER_ATM 0 2047 512.

Definition atm_stab : list Z :=
  Eval vm_compute in match tc_calc_size_table true atm_spec with Some (_, _, Some tab) => tab | _ => [] end.

Lemma atm_calc : tc_calc_size_table true atm_spec = Some (0, atm_spec', Some atm_stab).
Proof. vm_compute. reflexivity. Qed.


(** ** Sharing *)

Lemma stab_ref_undo t : stab_ref (-1) (stab_ref 1 t) = t.
Proof. destruct t. unfold stab_ref. simpl. f_equal. lia. Qed.

Lemma stab_find_spec s tab l t l' : stab_find s tab l = Some (t, l') → Forall (λ u, 1 ≤ st_refcnt u) l →
  NoDup (map st_addr l) →
  st_szopts t = s ∧ take (Z.to_nat (ss_tsize s)) (st_data t) = tab ∧ qdisc_put_stab (Some (st_addr t)) l' = l ∧
  st_addr t ∈ map st_addr l.
Proof.
  revert t l'. induction l as [|u l IH]; intros t l'; simpl; [done|].
  destruct (decide (st_szopts u = s ∧ take (Z.to_nat (ss_tsize s)) (st_data u) = tab)) as [[E1 E2]|Hne].
  - rewrite !bool_decide_true by done. intros [= <- <-] [Hu Hl]%Forall_cons_1 _. simpl.
    rewrite Z.eqb_refl, (proj2 (Z.eqb_neq _ 0)) by lia. rewrite stab_ref_undo. split_and!; [done..|by left].
  - assert (bool_decide (st_szopts u = s) && bool_decide (take (Z.to_nat (ss_tsize s)) (st_data u) = tab) = false) as ->.
    { apply andb_false_iff. destruct (decide (st_szopts u = s)); [right|left]; apply bool_decide_false; tauto. }
    destruct (stab_find s tab l) as [[v l1]|]; [|done].
    intros [= <- <-] [Hu Hl]%Forall_cons_1 Hnd.
    pose proof (NoDup_cons_1_1 _ _ Hnd) as Hni. apply NoDup_cons_1_2 in Hnd.
    destruct (IH _ _ eq_refl Hl Hnd) as (E1 & E2 & E3 & E4). split_and!; [done..| |by right].
    simpl in E3 |- *. destruct (Z.eqb_spec (st_addr u) (st_addr v)) as [Ea|]; [|by rewrite E3].
    by rewrite <- Ea in E4.
Qed.

(** The tables are at different addresses and in use. *)
Definition stabs_ok (l : list qdisc_size_table) : Prop :=
  NoDup (map st_addr l) ∧ Forall (λ u, 1 ≤ st_refcnt u ∧ Z.of_nat (length (st_data u)) = ss_tsize (st_szopts u)) l.

Lemma stab_find_ok s tab l t l' : stab_find s tab l = Some (t, l') → stabs_ok l →
  t ∈ l' ∧ stabs_ok l' ∧ map st_addr l' = map st_addr l ∧ Z.of_nat (length (st_data t)) = ss_tsize (st_szopts t).
Proof.
  intros Hf [Hnd Hall].
  assert (t ∈ l' ∧ map st_addr l' = map st_addr l ∧
    Forall (λ u, 1 ≤ st_refcnt u ∧ Z.of_nat (length (st_data u)) = ss_tsize (st_szopts u)) l') as (Hin & Ha & Hall').
  { clear Hnd. revert t l' Hf. induction Hall as [|u l [Hu1 Hu2] Hl IH]; intros t l'; simpl; [done|]. case_match.
    - intros [= <- <-]. split_and!; [by left|done|]. constructor; [simpl; lia|done].
    - destruct (stab_find s tab l) as [[v l1]|]; [|done]. intros [= <- <-].
      destruct (IH _ _ eq_refl) as (Hin & Ha & Hl'). split_and!; [by right|simpl; by rewrite Ha|by constructor]. }
  split_and!; [done|by split; [rewrite Ha|]|done|]. rewrite list.Forall_forall in Hall'. by apply Hall'.
Qed.

Lemma put_new_stab a s tab l : a ∉ map st_addr l → qdisc_put_stab (Some a) (l ++ [SizeTable a 1 s tab]) = l.
Proof.
  induction l as [|u l IH]; simpl; [by rewrite Z.eqb_refl|]. intros Hni.
  destruct (Z.eqb_spec (st_addr u) a) as [Ea|]; [destruct Hni; rewrite Ea; by left|]. f_equal. apply IH. intros Hin. apply Hni. by right.
Qed.

(** What follows the checks of the attributes. *)
Lemma stab_get_or_make fresh s tab l t l' : stabs_ok l → (∀ a, fresh = Some a → a ∉ map st_addr l) →
  Z.of_nat (length tab) = ss_tsize s →
  match stab_find s tab l with
  | Some (t, l') => (inr t, l')
  | None => match fresh with
            | None => (inl (- ENOMEM), l)
            | Some a => (inr (SizeTable a 1 s tab), l ++ [SizeTable a 1 s tab])
            end
  end = (@inr Z _ t, l') →
  stabs_ok l' ∧ t ∈ l' ∧ qdisc_put_stab (Some (st_addr t)) l' = l ∧ st_szopts t = s ∧ st_data t = tab.
Proof.
  intros Hok Hfr Hlen. destruct (stab_find s tab l) as [[u l1]|] eqn:Ef.
  - intros [= <- <-]. destruct (stab_find_ok _ _ _ _ _ Ef Hok) as (Hin & Hok' & _ & Hl). destruct Hok as [Hnd Hall].
    destruct (stab_find_spec _ _ _ _ _ Ef) as (Hs & Ht & Hp & _); [|done|].
    { eapply Forall_impl; [|exact Hall]. by intros ? []. }
    split_and!; [done..|]. rewrite <- Ht, Hs in *. rewrite take_ge; [done|lia].
  - destruct fresh as [a|]; [|done]. intros [= <- <-]. destruct Hok as [Hnd Hall]. split_and!; [split| |by apply put_new_stab; apply Hfr|done..].
    + rewrite map_app. apply stdpp.list_relations.list.NoDup_app. split; [done|]. split; [|apply NoDup_singleton].
      intros x Hx ->%list_elem_of_singleton. by apply (Hfr _ eq_refl).
    + apply Forall_app_2; [done|]. by repeat constructor.
    + apply elem_of_app. right. by left.
Qed.

(** [qdisc_get_stab] returns a table with the contents of the request, shared
    or new, and [qdisc_put_stab] undoes it: the list of tables is as before. *)
Theorem stab_get_put fresh opt l t l' :
  stabs_ok l → (∀ a, fresh = Some a → a ∉ map st_addr l) →
  qdisc_get_stab fresh opt l = (inr t, l') →
  stabs_ok l' ∧ t ∈ l' ∧ qdisc_put_stab (Some (st_addr t)) l' = l ∧
  ∃ a, opt = inr a ∧ sa_base a = Some (st_szopts t) ∧ (0 < ss_tsize (st_szopts t) → sa_data a = Some (st_data t)).
Proof.
  intros Hok Hfr. unfold qdisc_get_stab. destruct opt as [|a]; [done|]. destruct (sa_base a) as [s|] eqn:Eb; [|done].
  destruct (Z.ltb_spec 0 (ss_tsize s)).
  - destruct (sa_data a) as [tab|] eqn:Ed; [|done]. destruct (Z.eqb_spec (Z.of_nat (length tab)) (ss_tsize s)) as [El|]; [|done].
    cbn [negb]. intros Hg. destruct (stab_get_or_make _ _ _ _ _ _ Hok Hfr El Hg) as (H1 & H2 & H3 & H4 & H5).
    split_and!; [done..|]. exists a. rewrite H4, H5. done.
  - destruct (Z.eqb_spec 0 (ss_tsize s)) as [El|]; [|done]. cbn [negb]. intros Hg.
    destruct (stab_get_or_make _ _ [] _ _ _ Hok Hfr El Hg) as (H1 & H2 & H3 & H4 & H5).
    split_and!; [done..|]. exists a. rewrite H4. split_and!; [done|done|lia].
Qed.

Lemma stab_get_put_witness : ∃ t l',
  qdisc_get_stab (Some 5) (inr (StabAttrs (Some atm_spec') (Some atm_stab))) [SizeTable 3 2 atm_spec' atm_stab] = (inr t, l') ∧
  stabs_ok l' ∧ t ∈ l' ∧ qdisc_put_stab (Some (st_addr t)) l' = [SizeTable 3 2 atm_spec' atm_stab] ∧ st_addr t = 3.
Proof.
  eexists _, _. split; [vm_compute; reflexivity|].
  edestruct (stab_get_put (Some 5) (inr (StabAttrs (Some atm_spec') (Some atm_stab))) [SizeTable 3 2 atm_spec' atm_stab])
    as (H1 & H2 & H3 & _); [| |vm_compute; reflexivity|].
  - split; [apply NoDup_singleton|]. constructor; [|constructor]. simpl. split; [lia|by vm_compute].
  - intros a [= <-]. simpl. intros Hx%list_elem_of_singleton. lia.
  - split_and!; [exact H1|exact H2|exact H3|done].
Defined.
