(* ===== verification/Qtree.v ===== *)
(** * Queueing disciplines of a device (src/net/sched/sch_api.c, sch_generic.c)

    The kernel objects [struct Qdisc] of one network device, in a heap indexed
    by their addresses: creation, reference counting, release, the hash table of
    handles, the slots of the device's transmit queues.  What a discipline of
    some kind does in its [init], [change], [destroy] and [attach] is a program
    of calls into the core ([prog]), which [run] executes; the rest of its
    [Qdisc_ops] are functions on its private data.  Reading an address that holds
    no object makes a computation fail ([None]), and so does running out of fuel,
    which bounds the depth of nested calls; QtreeRun.v shows that neither happens.
    The RTNL lock serializes all of this code; the other devices share only the
    size tables, the module counts and the counter of handles. *)

From Stdlib Require Import ZArith Lia.
From stdpp Require Import base numbers list gmap option strings.
From S2P Require Import Prelude Sched Stab.

Open Scope Z_scope.

Definition ENOENT : Z := 2.
Definition EAGAIN : Z := 11.
Definition EEXIST : Z := 17.
Definition EOPNOTSUPP : Z := 95.
Definition ENOBUFS : Z := 105.

Definition TC_H_ROOT : Z := 4294967295.
Definition TC_H_INGRESS : Z := 4294967281.
Definition TC_H_MAJ (h : Z) : Z := Z.land h 4294901760.
Definition TC_H_MIN (h : Z) : Z := Z.land h 65535.
Definition TC_H_MAKE (maj min : Z) : Z := Z.lor (Z.land maj 4294901760) (Z.land min 65535).

(** ** Objects *)

(** [sch->flags]. *)
Record qflags := Qflags {
  f_builtin : bool;
  f_ingress : bool;
  f_nolock : bool;
  f_onetxqueue : bool;
  f_noparent : bool;
  f_mqroot : bool;
  f_invisible : bool;
  f_cpustats : bool;
}.

Definition set_ingress (f : qflags) : qflags :=
  Qflags (f_builtin f) true (f_nolock f) (f_onetxqueue f) (f_noparent f) (f_mqroot f) (f_invisible f) (f_cpustats f).

Definition clear_nolock (f : qflags) : qflags :=
  Qflags (f_builtin f) (f_ingress f) false (f_onetxqueue f) (f_noparent f) (f_mqroot f) (f_invisible f) (f_cpustats f).

Definition set_onetxqueue (f : qflags) : qflags :=
  Qflags (f_builtin f) (f_ingress f) (f_nolock f) true (f_noparent f) (f_mqroot f) (f_invisible f) (f_cpustats f).

(** [flags |= TCQ_F_ONETXQUEUE | TCQ_F_NOPARENT]. *)
Definition set_onetxqueue_noparent (f : qflags) : qflags :=
  Qflags (f_builtin f) (f_ingress f) (f_nolock f) true true (f_mqroot f) (f_invisible f) (f_cpustats f).

Definition or_mqroot (b : bool) (f : qflags) : qflags :=
  Qflags (f_builtin f) (f_ingress f) (f_nolock f) (f_onetxqueue f) (f_noparent f) (f_mqroot f || b) (f_invisible f) (f_cpustats f).

Definition set_invisible (f : qflags) : qflags :=
  Qflags (f_builtin f) (f_ingress f) (f_nolock f) (f_onetxqueue f) (f_noparent f) (f_mqroot f) true (f_cpustats f).

(** [sch->dev_queue]. *)
Inductive queue :=
| TxQueue (i : nat)
| IngressQueue
| NoopQueue.

#[export] Instance queue_eq_dec : EqDecision queue.
Proof. solve_decision. Defined.

(** [&noop_qdisc]. *)
Definition noop_qdisc : Z := 0.

(** [struct Qdisc]; [kind] names its [Qdisc_ops], [P] is its private data. *)
Record sqdisc (kind P : Type) := Sqdisc {
  q_ops : kind;
  q_handle : Z;                 (* u32 *)
  q_parent : Z;                 (* u32 *)
  q_flags : qflags;
  q_refcnt : Z;
  q_queue : queue;              (* dev_queue *)
  q_enqueue : bool;             (* enqueue is not null *)
  q_deactivated : bool;         (* __QDISC_STATE_DEACTIVATED *)
  q_stab : option Z;
  q_rate_est : bool;
  q_gso : list sk_buff;         (* gso_skb *)
  q_bad : list sk_buff;         (* skb_bad_txq *)
  q_qlen : Z;
  q_backlog : Z;
  q_priv : P;
}.
Arguments Sqdisc {kind P} _ _ _ _ _ _ _ _ _ _ _ _ _ _ _.
Arguments q_ops {kind P} _.
Arguments q_handle {kind P} _.
Arguments q_parent {kind P} _.
Arguments q_flags {kind P} _.
Arguments q_refcnt {kind P} _.
Arguments q_queue {kind P} _.
Arguments q_enqueue {kind P} _.
Arguments q_deactivated {kind P} _.
Arguments q_stab {kind P} _.
Arguments q_rate_est {kind P} _.
Arguments q_gso {kind P} _.
Arguments q_bad {kind P} _.
Arguments q_qlen {kind P} _.
Arguments q_backlog {kind P} _.
Arguments q_priv {kind P} _.

Section setters.
Context {kind P : Type}.
Implicit Types q : sqdisc kind P.

Definition set_parent (p : Z) q := Sqdisc (q_ops q) (q_handle q) p (q_flags q) (q_refcnt q) (q_queue q) (q_enqueue q)
  (q_deactivated q) (q_stab q) (q_rate_est q) (q_gso q) (q_bad q) (q_qlen q) (q_backlog q) (q_priv q).

Definition set_handle (h : Z) q := Sqdisc (q_ops q) h (q_parent q) (q_flags q) (q_refcnt q) (q_queue q) (q_enqueue q)
  (q_deactivated q) (q_stab q) (q_rate_est q) (q_gso q) (q_bad q) (q_qlen q) (q_backlog q) (q_priv q).

Definition map_flags (f : qflags → qflags) q := Sqdisc (q_ops q) (q_handle q) (q_parent q) (f (q_flags q)) (q_refcnt q)
  (q_queue q) (q_enqueue q) (q_deactivated q) (q_stab q) (q_rate_est q) (q_gso q) (q_bad q) (q_qlen q) (q_backlog q) (q_priv q).

Definition set_refcnt (r : Z) q := Sqdisc (q_ops q) (q_handle q) (q_parent q) (q_flags q) r (q_queue q) (q_enqueue q)
  (q_deactivated q) (q_stab q) (q_rate_est q) (q_gso q) (q_bad q) (q_qlen q) (q_backlog q) (q_priv q).

Definition set_enqueue (b : bool) q := Sqdisc (q_ops q) (q_handle q) (q_parent q) (q_flags q) (q_refcnt q) (q_queue q) b
  (q_deactivated q) (q_stab q) (q_rate_est q) (q_gso q) (q_bad q) (q_qlen q) (q_backlog q) (q_priv q).

Definition set_deactivated (b : bool) q := Sqdisc (q_ops q) (q_handle q) (q_parent q) (q_flags q) (q_refcnt q) (q_queue q)
  (q_enqueue q) b (q_stab q) (q_rate_est q) (q_gso q) (q_bad q) (q_qlen q) (q_backlog q) (q_priv q).

Definition set_stab (t : option Z) q := Sqdisc (q_ops q) (q_handle q) (q_parent q) (q_flags q) (q_refcnt q) (q_queue q)
  (q_enqueue q) (q_deactivated q) t (q_rate_est q) (q_gso q) (q_bad q) (q_qlen q) (q_backlog q) (q_priv q).

Definition set_rate_est (b : bool) q := Sqdisc (q_ops q) (q_handle q) (q_parent q) (q_flags q) (q_refcnt q) (q_queue q)
  (q_enqueue q) (q_deactivated q) (q_stab q) b (q_gso q) (q_bad q) (q_qlen q) (q_backlog q) (q_priv q).

(** Both lists of packets emptied. *)
Definition clear_skbs q := Sqdisc (q_ops q) (q_handle q) (q_parent q) (q_flags q) (q_refcnt q) (q_queue q)
  (q_enqueue q) (q_deactivated q) (q_stab q) (q_rate_est q) [] [] (q_qlen q) (q_backlog q) (q_priv q).

Definition clear_counts q := Sqdisc (q_ops q) (q_handle q) (q_parent q) (q_flags q) (q_refcnt q) (q_queue q)
  (q_enqueue q) (q_deactivated q) (q_stab q) (q_rate_est q) (q_gso q) (q_bad q) 0 0 (q_priv q).

Definition set_qpriv (p : P) q := Sqdisc (q_ops q) (q_handle q) (q_parent q) (q_flags q) (q_refcnt q) (q_queue q)
  (q_enqueue q) (q_deactivated q) (q_stab q) (q_rate_est q) (q_gso q) (q_bad q) (q_qlen q) (q_backlog q) p.

End setters.

(** ** Kinds *)

(** What an operation of a kind leaves: its result, its private data, and
    whether it set [TCQ_F_MQROOT] or cleared [sch->enqueue]. *)
Record ans (P : Type) := Ans {
  an_err : Z;
  an_priv : P;
  an_mqroot : bool;
  an_noqueue : bool;
}.
Arguments Ans {P} _ _ _ _.
Arguments an_err {P} _.
Arguments an_priv {P} _.
Arguments an_mqroot {P} _.
Arguments an_noqueue {P} _.

(** The calls an operation makes into the core, and what it does with their
    results. *)
Inductive prog (kind P : Type) :=
| Ret (a : ans P)
| CreateDflt (dev_queue : queue) (k : kind) (parentid : Z) (c : option Z → prog kind P)   (* qdisc_create_dflt *)
| QdiscPut (a : Z) (c : prog kind P)                                                       (* qdisc_put *)
| HashAdd (a : Z) (invisible : bool) (c : prog kind P)                                     (* qdisc_hash_add *)
| SetLimit (a : Z) (limit : Z) (c : Z → prog kind P)                                       (* fifo_set_limit *)
| TxFlags (a : Z) (c : prog kind P)                                                        (* flags |= ... *)
| DevGraft (dev_queue : queue) (a : Z) (c : Z → prog kind P)                               (* dev_graft_qdisc *)
| Alloc (c : bool → prog kind P).                                                          (* of private memory *)
Arguments Ret {kind P} a.
Arguments CreateDflt {kind P} dev_queue k parentid c.
Arguments QdiscPut {kind P} a c.
Arguments HashAdd {kind P} a invisible c.
Arguments SetLimit {kind P} a limit c.
Arguments TxFlags {kind P} a c.
Arguments DevGraft {kind P} dev_queue a c.
Arguments Alloc {kind P} c.

(** What an operation reads of its own object, the device and the system. *)
Record self (kind : Type) := Self {
  sf_addr : Z;
  sf_handle : Z;
  sf_parent : Z;
  sf_queue : queue;
  sf_multiqueue : bool;              (* netif_is_multiqueue *)
  sf_num_tx : nat;                   (* num_tx_queues *)
  sf_real_num_tx : nat;              (* real_num_tx_queues *)
  sf_default : nat → kind;           (* get_default_qdisc_ops *)
  sf_tx_queue_len : Z;
  sf_now : Z;                        (* ktime_get_ns *)
}.
Arguments Self {kind} _ _ _ _ _ _ _ _ _ _.
Arguments sf_addr {kind} _.
Arguments sf_handle {kind} _.
Arguments sf_parent {kind} _.
Arguments sf_queue {kind} _.
Arguments sf_multiqueue {kind} _.
Arguments sf_num_tx {kind} _.
Arguments sf_real_num_tx {kind} _.
Arguments sf_default {kind} _ _.
Arguments sf_tx_queue_len {kind} _.
Arguments sf_now {kind} _.

(** The child of a class: a pointer of the private data, or the discipline of a
    transmit queue. *)
Inductive leafref :=
| Child (a : Z)
| OfQueue (q : queue).

(** What [graft] does: it fails, or exchanges a pointer with [qdisc_replace], or
    goes through the transmit queue ([mq_graft]). *)
Inductive graft_act (P : Type) :=
| GraftErr (err : Z)
| GraftSlot (old : option Z) (p : P)
| GraftQueue (q : queue).
Arguments GraftErr {P} err.
Arguments GraftSlot {P} old p.
Arguments GraftQueue {P} q.

(** [struct Qdisc_class_ops]; [cl_dump] takes and gives the parent and the handle
    of a [struct tcmsg], and names the object whose handle goes into [tcm_info].
    [cl_change] takes the identities of the class and its parent, the class, if it
    exists, and the options, and gives the error, the private data and the class; [cl_has_block] tells whether [tcf_block] is there. *)
Record Qdisc_class_ops (P opt : Type) := {
  cl_select_queue : option (nat → Z → option queue);
  cl_graft : option (nat → P → Z → option Z → graft_act P);
  cl_leaf : nat → P → Z → option leafref;
  cl_find : nat → P → Z → Z;
  cl_walk : nat → P → list Z;
  cl_dump : nat → P → Z → Z * Z → option (Z * Z * leafref);
  cl_change : option (Z → Z → Z → option opt → P → Z * P * Z);
  cl_delete : option (Z → P → Z * P);
  cl_has_block : bool;
}.
Arguments cl_select_queue {P opt} _.
Arguments cl_graft {P opt} _.
Arguments cl_leaf {P opt} _ _ _ _.
Arguments cl_find {P opt} _ _ _ _.
Arguments cl_walk {P opt} _ _ _.
Arguments cl_dump {P opt} _ _ _ _ _.
Arguments cl_change {P opt} _.
Arguments cl_delete {P opt} _.
Arguments cl_has_block {P opt} _.

(** [struct Qdisc_ops]; a missing operation is [None].  [op_reset] takes the
    time and gives the children it calls [qdisc_reset] on; [op_limit] is [change]
    on an attribute that holds a [struct tc_fifo_qopt]. *)
Record Qdisc_ops (kind P opt : Type) := {
  op_id : string;
  op_has_peek : bool;
  op_has_dequeue : bool;
  op_owner : Z;
  op_static_flags : qflags;
  op_priv0 : P;                                                   (* before init stores what the others read *)
  op_init : option (self kind → option opt → prog kind P);
  op_change : option (self kind → P → opt → prog kind P);
  op_reset : option (Z → P → P * list Z);
  op_destroy : option (self kind → P → prog kind P);
  op_attach : option (self kind → P → prog kind P);
  op_limit : option (Z → P → Z * P);
  op_ingress_block_set : option (Z → P → P);
  op_egress_block_set : option (Z → P → P);
  op_change_tx_queue_len : option (Z → P → Z * P);
  op_cl : option (Qdisc_class_ops P opt);
}.
Arguments op_id {kind P opt} _.
Arguments op_has_peek {kind P opt} _.
Arguments op_has_dequeue {kind P opt} _.
Arguments op_owner {kind P opt} _.
Arguments op_static_flags {kind P opt} _.
Arguments op_priv0 {kind P opt} _.
Arguments op_init {kind P opt} _.
Arguments op_change {kind P opt} _.
Arguments op_reset {kind P opt} _.
Arguments op_destroy {kind P opt} _.
Arguments op_attach {kind P opt} _.
Arguments op_limit {kind P opt} _.
Arguments op_ingress_block_set {kind P opt} _.
Arguments op_egress_block_set {kind P opt} _.
Arguments op_change_tx_queue_len {kind P opt} _.
Arguments op_cl {kind P opt} _.

(** The static tables of the kernel. *)
Class QdiscKinds (kind P opt : Type) := {
  ops : kind → Qdisc_ops kind P opt;
  noop_ops : kind;
  noqueue_ops : kind;
  mq_ops : kind;
}.

(** ** State *)

(** [struct netdev_queue]: [qdisc], which the transmit path uses, and
    [qdisc_sleeping], which owns a reference. *)
Record slot := Slot {
  sl_qdisc : Z;
  sl_sleeping : Z;
}.

(** [struct net_device]; the newest entry of [qdisc_hash] comes first. *)
Record netdev := Netdev {
  nd_ifindex : Z;
  nd_up : bool;                 (* IFF_UP *)
  nd_carrier : bool;            (* netif_carrier_ok *)
  nd_multiqueue : bool;         (* netif_is_multiqueue *)
  nd_no_queue : bool;           (* IFF_NO_QUEUE *)
  nd_real_num_tx : nat;
  nd_tx_queue_len : Z;
  nd_qdisc : Z;
  nd_tx : list slot;
  nd_ingress : option slot;
  nd_hash : list Z;
  nd_refs : Z;                  (* dev_hold, dev_put *)
}.

(** [RTM_DELQDISC] for the old one and [RTM_NEWQDISC] for the new one, with the
    class and the handles; [RTM_NEWTCLASS] or [RTM_DELTCLASS]. *)
Inductive note :=
| Note (clid : Z) (old new : option Z)
| ClassNote (deleted : bool) (parent handle info : Z).

(** [ns_clock] counts the calls whose result the environment decides; [ns_leaked]
    records the references that a store overwrote. *)
Record nstate (kind P : Type) := Nstate {
  ns_heap : gmap Z (sqdisc kind P);
  ns_dev : netdev;
  ns_stabs : list qdisc_size_table;
  ns_autohandle : Z;
  ns_mods : gmap Z Z;           (* references on modules *)
  ns_default : kind;            (* default_qdisc_ops *)
  ns_base : list kind;          (* qdisc_base *)
  ns_clock : nat;
  ns_notes : list note;
  ns_freed : list sk_buff;
  ns_leaked : list Z;
}.
Arguments Nstate {kind P} _ _ _ _ _ _ _ _ _ _ _.
Arguments ns_heap {kind P} _.
Arguments ns_dev {kind P} _.
Arguments ns_stabs {kind P} _.
Arguments ns_autohandle {kind P} _.
Arguments ns_mods {kind P} _.
Arguments ns_default {kind P} _.
Arguments ns_base {kind P} _.
Arguments ns_clock {kind P} _.
Arguments ns_notes {kind P} _.
Arguments ns_freed {kind P} _.
Arguments ns_leaked {kind P} _.

Definition set_nd_qdisc (a : Z) (d : netdev) : netdev :=
  Netdev (nd_ifindex d) (nd_up d) (nd_carrier d) (nd_multiqueue d) (nd_no_queue d) (nd_real_num_tx d) (nd_tx_queue_len d)
    a (nd_tx d) (nd_ingress d) (nd_hash d) (nd_refs d).

Definition set_nd_tx (l : list slot) (d : netdev) : netdev :=
  Netdev (nd_ifindex d) (nd_up d) (nd_carrier d) (nd_multiqueue d) (nd_no_queue d) (nd_real_num_tx d) (nd_tx_queue_len d)
    (nd_qdisc d) l (nd_ingress d) (nd_hash d) (nd_refs d).

Definition set_nd_ingress (o : option slot) (d : netdev) : netdev :=
  Netdev (nd_ifindex d) (nd_up d) (nd_carrier d) (nd_multiqueue d) (nd_no_queue d) (nd_real_num_tx d) (nd_tx_queue_len d)
    (nd_qdisc d) (nd_tx d) o (nd_hash d) (nd_refs d).

Definition set_nd_hash (l : list Z) (d : netdev) : netdev :=
  Netdev (nd_ifindex d) (nd_up d) (nd_carrier d) (nd_multiqueue d) (nd_no_queue d) (nd_real_num_tx d) (nd_tx_queue_len d)
    (nd_qdisc d) (nd_tx d) (nd_ingress d) l (nd_refs d).

Definition set_nd_refs (r : Z) (d : netdev) : netdev :=
  Netdev (nd_ifindex d) (nd_up d) (nd_carrier d) (nd_multiqueue d) (nd_no_queue d) (nd_real_num_tx d) (nd_tx_queue_len d)
    (nd_qdisc d) (nd_tx d) (nd_ingress d) (nd_hash d) r.

Definition set_nd_len (n : Z) (d : netdev) : netdev :=
  Netdev (nd_ifindex d) (nd_up d) (nd_carrier d) (nd_multiqueue d) (nd_no_queue d) (nd_real_num_tx d) n
    (nd_qdisc d) (nd_tx d) (nd_ingress d) (nd_hash d) (nd_refs d).

(** ** The environment

    Memory, modules and estimators, and the inline functions of the headers.
    The first argument of an oracle is the number of the call. *)
Class NetEnv (kind P : Type) := {
  kzalloc : nat → gset Z → option Z;               (* for a struct Qdisc; the addresses in use *)
  kmalloc_stab : nat → list Z → option Z;
  alloc_ok : nat → bool;                           (* any other allocation *)
  try_module_get : Z → bool;
  request_module : string → list kind → list kind; (* the effect on qdisc_base *)
  gen_new_estimator : nat → list Z → Z;
  ktime_ns : nat → Z;                              (* ktime_get_ns *)
  rtnetlink_send : nat → Z;
  DEFAULT_TX_QUEUE_LEN : Z;
  get_default_qdisc_ops : kind → nat → nat → kind; (* default, real_num_tx_queues, queue *)
  qdisc_refcount_inc : bool → Z → Z;               (* TCQ_F_BUILTIN, refcnt *)
  refcount_dec_and_test : Z → Z * bool;
  qdisc_flush : sqdisc kind P → sqdisc kind P;     (* what qdisc_replace does to the old child *)
}.

(** What the core relies on. *)
Class NetEnvOk (kind P : Type) `{NetEnv kind P} := {
  kzalloc_fresh n used a : kzalloc n used = Some a → a ∉ used;
  refcount_inc_ok r : qdisc_refcount_inc false r = r + 1;
  refcount_inc_builtin r : qdisc_refcount_inc true r = r;
  dec_and_test_ok r : 0 < r → refcount_dec_and_test r = (r - 1, r - 1 =? 0);
  estimator_errors n l : gen_new_estimator n l ≠ - EAGAIN;
}.

Section core.
Context {kind P opt : Type} `{!QdiscKinds kind P opt} `{!NetEnv kind P}.
Notation qd := (sqdisc kind P).
Notation st := (nstate kind P).
Implicit Types s : st.

Definition with_heap (h : gmap Z qd) s : st := Nstate h (ns_dev s) (ns_stabs s) (ns_autohandle s) (ns_mods s)
  (ns_default s) (ns_base s) (ns_clock s) (ns_notes s) (ns_freed s) (ns_leaked s).

Definition with_dev (d : netdev) s : st := Nstate (ns_heap s) d (ns_stabs s) (ns_autohandle s) (ns_mods s)
  (ns_default s) (ns_base s) (ns_clock s) (ns_notes s) (ns_freed s) (ns_leaked s).

Definition with_stabs (l : list qdisc_size_table) s : st := Nstate (ns_heap s) (ns_dev s) l (ns_autohandle s) (ns_mods s)
  (ns_default s) (ns_base s) (ns_clock s) (ns_notes s) (ns_freed s) (ns_leaked s).

Definition with_autohandle (a : Z) s : st := Nstate (ns_heap s) (ns_dev s) (ns_stabs s) a (ns_mods s)
  (ns_default s) (ns_base s) (ns_clock s) (ns_notes s) (ns_freed s) (ns_leaked s).

Definition with_mods (m : gmap Z Z) s : st := Nstate (ns_heap s) (ns_dev s) (ns_stabs s) (ns_autohandle s) m
  (ns_default s) (ns_base s) (ns_clock s) (ns_notes s) (ns_freed s) (ns_leaked s).

Definition with_base (l : list kind) s : st := Nstate (ns_heap s) (ns_dev s) (ns_stabs s) (ns_autohandle s) (ns_mods s)
  (ns_default s) l (ns_clock s) (ns_notes s) (ns_freed s) (ns_leaked s).

Definition with_default (k : kind) s : st := Nstate (ns_heap s) (ns_dev s) (ns_stabs s) (ns_autohandle s) (ns_mods s)
  k (ns_base s) (ns_clock s) (ns_notes s) (ns_freed s) (ns_leaked s).

Definition with_notes (l : list note) s : st := Nstate (ns_heap s) (ns_dev s) (ns_stabs s) (ns_autohandle s) (ns_mods s)
  (ns_default s) (ns_base s) (ns_clock s) l (ns_freed s) (ns_leaked s).

Definition with_freed (l : list sk_buff) s : st := Nstate (ns_heap s) (ns_dev s) (ns_stabs s) (ns_autohandle s) (ns_mods s)
  (ns_default s) (ns_base s) (ns_clock s) (ns_notes s) l (ns_leaked s).

Definition with_leaked (l : list Z) s : st := Nstate (ns_heap s) (ns_dev s) (ns_stabs s) (ns_autohandle s) (ns_mods s)
  (ns_default s) (ns_base s) (ns_clock s) (ns_notes s) (ns_freed s) l.

Definition tick s : st := Nstate (ns_heap s) (ns_dev s) (ns_stabs s) (ns_autohandle s) (ns_mods s)
  (ns_default s) (ns_base s) (S (ns_clock s)) (ns_notes s) (ns_freed s) (ns_leaked s).

Definition gets {A} (f : st → A) : M st A := λ s, Some (f s, s).

Definition modify (f : st → st) : M st unit := λ s, Some (tt, f s).

(** A read through a pointer. *)
Definition get_q (a : Z) : M st qd := λ s,
  match ns_heap s !! a with Some q => Some (q, s) | None => None end.

(** A write through a pointer. *)
Definition upd_q (a : Z) (f : qd → qd) : M st unit := λ s,
  match ns_heap s !! a with Some q => Some (tt, with_heap (<[a := f q]> (ns_heap s)) s) | None => None end.

(** A call whose result the environment decides. *)
Definition ask {A} (f : nat → A) : M st A := λ s, Some (f (ns_clock s), tick s).

Definition mod_add (d : Z) (m : Z) : M st unit :=
  modify (λ s, with_mods (<[m := default 0 (ns_mods s !! m) + d]> (ns_mods s)) s).

Definition module_put (m : Z) : M st unit := mod_add (-1) m.

Definition dev_put : M st unit := modify (λ s, with_dev (set_nd_refs (nd_refs (ns_dev s) - 1) (ns_dev s)) s).

Definition dev_hold : M st unit := modify (λ s, with_dev (set_nd_refs (nd_refs (ns_dev s) + 1) (ns_dev s)) s).

Definition num_tx s : nat := length (nd_tx (ns_dev s)).

(** The slot of a queue. *)
Definition slot_of (q : queue) (d : netdev) : option slot :=
  match q with TxQueue i => nd_tx d !! i | IngressQueue => nd_ingress d | NoopQueue => None end.

Definition set_slot (q : queue) (v : slot) (d : netdev) : netdev :=
  match q with
  | TxQueue i => set_nd_tx (<[i := v]> (nd_tx d)) d
  | IngressQueue => set_nd_ingress (Some v) d
  | NoopQueue => d
  end.

Definition get_slot (q : queue) : M st slot := λ s,
  match slot_of q (ns_dev s) with Some v => Some (v, s) | None => None end.

Definition put_slot (q : queue) (v : slot) : M st unit := modify (λ s, with_dev (set_slot q v (ns_dev s)) s).

(** What an operation of the object at [a] sees. *)
Definition self_of (a : Z) : M st (self kind) :=
  let* q := get_q a in
  gets (λ s, Self a (q_handle q) (q_parent q) (q_queue q) (nd_multiqueue (ns_dev s)) (num_tx s)
    (nd_real_num_tx (ns_dev s)) (get_default_qdisc_ops (ns_default s) (nd_real_num_tx (ns_dev s)))
    (nd_tx_queue_len (ns_dev s)) (ktime_ns (ns_clock s))).

(** ** Packets *)

(** The loops over [gso_skb] and [skb_bad_txq]. *)
Definition free_skbs (a : Z) : M st unit :=
  let* q := get_q a in
  modify (λ s, with_freed (ns_freed s ++ q_gso q ++ q_bad q) s) ;;;
  upd_q a clear_skbs.

Fixpoint each {A} (f : A → M st unit) (l : list A) : M st unit :=
  match l with
  | [] => cret tt
  | x :: l => f x ;;; each f l
  end.

(** [ops->reset(qdisc)]; its calls of [qdisc_reset] on the children. *)
Fixpoint ops_reset (n : nat) (a : Z) : M st unit :=
  match n with
  | O => cfail
  | S n =>
      let* q := get_q a in
      match op_reset (ops (q_ops q)) with
      | None => cret tt
      | Some f =>
          let* now := gets (λ s, ktime_ns (ns_clock s)) in
          each (λ c, ops_reset n c ;;; free_skbs c ;;; upd_q c clear_counts) (f now (q_priv q)).2 ;;;
          upd_q a (set_qpriv (f now (q_priv q)).1)
      end
  end.

Definition qdisc_reset (n : nat) (a : Z) : M st unit :=
  ops_reset n a ;;;
  free_skbs a ;;;
  upd_q a clear_counts.

(** ** The hash table *)

Definition hashable (q : qd) : bool := negb (q_parent q =? TC_H_ROOT) && negb (f_ingress (q_flags q)).

Definition qdisc_hash_add (a : Z) (invisible : bool) : M st unit :=
  let* q := get_q a in
  if hashable q then
    modify (λ s, with_dev (set_nd_hash (a :: nd_hash (ns_dev s)) (ns_dev s)) s) ;;;
    if invisible then upd_q a (map_flags set_invisible) else cret tt
  else cret tt.

Definition qdisc_hash_del (a : Z) : M st unit :=
  let* q := get_q a in
  if hashable q then
    modify (λ s, with_dev (set_nd_hash (filter (λ b, b ≠ a) (nd_hash (ns_dev s))) (ns_dev s)) s)
  else cret tt.

(** ** Slots *)

Definition dev_graft_qdisc (dev_queue : queue) (a : Z) : M st Z :=
  let* v := get_slot dev_queue in
  put_slot dev_queue (Slot noop_qdisc a) ;;;
  cret (sl_sleeping v).

(** ** Creation and release *)

Definition qdisc_alloc (dev_queue : option queue) (k : kind) : M st (Z + Z) :=
  match dev_queue with
  | None => cret (inl (- EINVAL))
  | Some dq =>
      let* p := gets (λ s, kzalloc (ns_clock s) (dom (ns_heap s))) in
      modify tick ;;;
      match p with
      | None => cret (inl (- ENOBUFS))
      | Some a =>
          let o := ops k in
          let* stats :=
            if f_cpustats (op_static_flags o) then
              let* b := ask alloc_ok in
              let* c := ask alloc_ok in
              cret (b && c)
            else cret true in
          if negb stats then cret (inl (- ENOBUFS))
          else
            modify (λ s, with_heap (<[a := Sqdisc k 0 0 (op_static_flags o) 1 dq true false None false [] [] 0 0 (op_priv0 o)]>
                                      (ns_heap s)) s) ;;;
            dev_hold ;;;
            cret (inr a)
      end
  end.

(** What an operation left in its object. *)
Definition store_ans (a : Z) (r : ans P) : M st unit :=
  upd_q a (λ q, set_enqueue (q_enqueue q && negb (an_noqueue r)) (map_flags (or_mqroot (an_mqroot r)) (set_qpriv (an_priv r) q))).

Section open.

(** [rec] runs the operation of a kind, [n] bounds the depth of resets. *)
Context (rec : prog kind P → M st (ans P)) (n : nat).

Definition qdisc_destroy (a : Z) : M st unit :=
  let* q := get_q a in
  qdisc_hash_del a ;;;
  modify (λ s, with_stabs (qdisc_put_stab (q_stab q) (ns_stabs s)) s) ;;;
  upd_q a (set_rate_est false) ;;;
  ops_reset n a ;;;
  let* q := get_q a in
  let* me := self_of a in
  (match op_destroy (ops (q_ops q)) with
   | Some f => let* _ := rec (f me (q_priv q)) in cret tt
   | None => cret tt
   end) ;;;
  module_put (op_owner (ops (q_ops q))) ;;;
  dev_put ;;;
  free_skbs a ;;;
  modify (λ s, with_heap (delete a (ns_heap s)) s).

Definition qdisc_put (a : Z) : M st unit :=
  let* q := get_q a in
  if f_builtin (q_flags q) then cret tt
  else
    let '(r, zero) := refcount_dec_and_test (q_refcnt q) in
    upd_q a (set_refcnt r) ;;;
    if zero then qdisc_destroy a else cret tt.

(** [ops->init(sch, opt)]. *)
Definition ops_init (a : Z) (f : self kind → option opt → prog kind P) (o : option opt) : M st Z :=
  let* me := self_of a in
  let* r := rec (f me o) in
  store_ans a r ;;;
  cret (an_err r).

Definition qdisc_create_dflt (dev_queue : option queue) (k : kind) (parentid : Z) : M st (option Z) :=
  let o := ops k in
  if negb (try_module_get (op_owner o)) then cret None
  else
    mod_add 1 (op_owner o) ;;;
    let* sch := qdisc_alloc dev_queue k in
    match sch with
    | inl _ => module_put (op_owner o) ;;; cret None
    | inr a =>
        upd_q a (set_parent parentid) ;;;
        match op_init o with
        | None => cret (Some a)
        | Some f =>
            let* err := ops_init a f None in
            if err =? 0 then cret (Some a)
            else qdisc_put a ;;; cret None
        end
    end.

(** [strncmp(ops->id + 1, "fifo", 4) == 0]. *)
Definition is_fifo_id (id : string) : bool := String.eqb (String.substring 1 4 id) "fifo".

(** fifo_set_limit (sch_fifo.c); [change] is called without a look at whether it
    is NULL. *)
Definition fifo_set_limit (a : Z) (limit : Z) : M st Z :=
  let* q := get_q a in
  if negb (is_fifo_id (op_id (ops (q_ops q)))) then cret 0
  else
    let* b := ask alloc_ok in
    if negb b then cret (- ENOMEM)
    else
      match op_limit (ops (q_ops q)) with
      | None => cfail
      | Some f => upd_q a (set_qpriv (f limit (q_priv q)).2) ;;; cret (f limit (q_priv q)).1
      end.

End open.

(** The operation of a kind; the fuel bounds the depth of nested operations. *)
Fixpoint run (n : nat) : prog kind P → M st (ans P) :=
  match n with
  | O => λ _, cfail
  | S n =>
      fix go (p : prog kind P) : M st (ans P) :=
        match p with
        | Ret r => cret r
        | CreateDflt q k parentid c =>
            let* o := qdisc_create_dflt (run n) n (Some q) k parentid in go (c o)
        | QdiscPut a c => qdisc_put (run n) n a ;;; go c
        | HashAdd a invisible c => qdisc_hash_add a invisible ;;; go c
        | SetLimit a limit c => let* err := fifo_set_limit a limit in go (c err)
        | TxFlags a c => upd_q a (map_flags set_onetxqueue_noparent) ;;; go c
        | DevGraft q a c => let* old := dev_graft_qdisc q a in go (c old)
        | Alloc c => let* b := ask alloc_ok in go (c b)
        end
  end.

End core.
