(* ===== verification/QtreeInv.v ===== *)
(** * The invariant of the tree of queueing disciplines

    [inv] relates the reference counts of the objects of Qtree.v to the pointers
    that exist: those of the device's slots, those of the private data of other
    objects, and those that running code holds.  [owns] is the discipline that
    programs of kinds follow: a linear type system for references.  The lemmas
    here say how each elementary step moves the invariant. *)

From Stdlib Require Import ZArith Lia.
From stdpp Require Import base numbers list gmap option sets.
From S2P Require Import Prelude Sched Stab Qtree.

Open Scope Z_scope.

(** ** Counting *)

Fixpoint occ (a : Z) (l : list Z) : Z :=
  match l with
  | [] => 0
  | x :: l => (if x =? a then 1 else 0) + occ a l
  end.

Lemma occ_app a l l' : occ a (l ++ l') = occ a l + occ a l'.
Proof. induction l as [|x l IH]; simpl; [lia|]. rewrite IH. lia. Qed.

Lemma occ_perm a l l' : l ≡ₚ l' → occ a l = occ a l'.
Proof. induction 1; simpl; lia. Qed.

#[export] Instance occ_proper a : Proper ((≡ₚ) ==> (=)) (occ a).
Proof. intros l l'. apply occ_perm. Qed.

Lemma occ_nonneg a l : 0 ≤ occ a l.
Proof. induction l as [|x l IH]; simpl; [lia|]. case_match; lia. Qed.

Lemma occ_pos a l : a ∈ l ↔ 1 ≤ occ a l.
Proof.
  induction l as [|x l IH]; simpl.
  - split; [by intros ?%elem_of_nil|lia].
  - rewrite elem_of_cons, IH. pose proof (occ_nonneg a l). destruct (Z.eqb_spec x a); split; intros; [lia|left; congruence|..].
    + destruct H0 as [->|]; [done|lia].
    + right. lia.
Qed.

Lemma occ_zero a l : a ∉ l ↔ occ a l = 0.
Proof. rewrite occ_pos. pose proof (occ_nonneg a l). lia. Qed.

Lemma occ_submseteq a l l' : l ⊆+ l' → occ a l ≤ occ a l'.
Proof.
  intros [k ->]%submseteq_Permutation. rewrite occ_app. pose proof (occ_nonneg a k). lia.
Qed.

Section hsum.
Context {V : Type}.
Implicit Types (m : gmap Z V) (f g : Z → V → Z).

Definition hsum f m : Z := map_fold (λ k v acc, f k v + acc) 0 m.

Lemma hsum_insert f m k v : m !! k = None → hsum f (<[k := v]> m) = f k v + hsum f m.
Proof. intros Hn. unfold hsum. rewrite map_fold_insert_L; [done| |done]. intros. lia. Qed.

Lemma hsum_delete f m k v : m !! k = Some v → hsum f m = f k v + hsum f (delete k m).
Proof. intros Hs. rewrite <- hsum_insert by apply lookup_delete_eq. by rewrite insert_delete_id. Qed.

Lemma hsum_update f m k v v' : m !! k = Some v → hsum f (<[k := v']> m) = hsum f m - f k v + f k v'.
Proof.
  intros Hs. rewrite (hsum_delete f m k v Hs), <- (insert_delete_eq m k v').
  rewrite hsum_insert by apply lookup_delete_eq. lia.
Qed.

Lemma hsum_ext f g m : (∀ k v, m !! k = Some v → f k v = g k v) → hsum f m = hsum g m.
Proof.
  induction m as [|k v m Hn IH] using map_ind; intros Hfg; [done|].
  rewrite !hsum_insert by done. rewrite (Hfg k v) by apply lookup_insert_eq. f_equal. apply IH.
  intros k' v' Hk. apply Hfg. rewrite lookup_insert_ne; [done|]. intros ->. congruence.
Qed.

Lemma hsum_nonneg f m : (∀ k v, 0 ≤ f k v) → 0 ≤ hsum f m.
Proof.
  intros Hf. induction m as [|k v m Hn IH] using map_ind; [done|].
  rewrite hsum_insert by done. specialize (Hf k v). lia.
Qed.

Lemma hsum_ge f m k v : (∀ k v, 0 ≤ f k v) → m !! k = Some v → f k v ≤ hsum f m.
Proof. intros Hf Hs. rewrite (hsum_delete f m k v Hs). pose proof (hsum_nonneg f (delete k m) Hf). lia. Qed.

Lemma hsum_none f m : (∀ k v, m !! k = Some v → f k v = 0) → hsum f m = 0.
Proof.
  intros Hf. induction m as [|k v m Hn IH] using map_ind; [done|]. rewrite hsum_insert by done.
  rewrite (Hf k v) by apply lookup_insert_eq. rewrite IH; [done|]. intros j w Hj. apply Hf. rewrite lookup_insert_ne; [done|].
  intros ->. congruence.
Qed.

Lemma hsum_zero f m : (∀ k v, 0 ≤ f k v) → hsum f m = 0 → ∀ k v, m !! k = Some v → f k v = 0.
Proof. intros Hf H0 k v Hs. pose proof (hsum_ge f m k v Hf Hs). specialize (Hf k v). lia. Qed.

End hsum.

(** Related maps have related sums. *)
Lemma hsum_rel {V W} (f : Z → V → Z) (g : Z → W → Z) (m : gmap Z V) (m' : gmap Z W) :
  (∀ k, match m !! k, m' !! k with
        | Some v, Some w => f k v = g k w
        | None, None => True
        | _, _ => False
        end) → hsum f m = hsum g m'.
Proof.
  revert m'. induction m as [|k v m Hn IH] using map_ind; intros m' Hr.
  - assert (m' = ∅) as ->; [|done]. apply map_eq. intros k. specialize (Hr k). rewrite !lookup_empty in *. by case_match.
  - pose proof (Hr k) as Hk. rewrite lookup_insert_eq in Hk. destruct (m' !! k) as [w|] eqn:Ew; [|done].
    rewrite hsum_insert, (hsum_delete g m' k w), Hk by done. f_equal. apply IH. intros j. destruct (decide (j = k)) as [->|Hj].
    + by rewrite Hn, lookup_delete_eq.
    + specialize (Hr j). rewrite lookup_insert_ne in Hr by done. by rewrite lookup_delete_ne.
Qed.

(** ** Total correctness

    [settles f s Q]: with enough fuel [f] ends, always in the same way, and the
    end satisfies [Q]. *)
Definition settles {S A} (f : nat → M S A) (s : S) (Q : A → S → Prop) : Prop :=
  ∃ n0 a s', Q a s' ∧ ∀ n, (n0 ≤ n)%nat → f n s = Some (a, s').

Lemma settles_bind {S A B} (f : nat → M S A) (g : nat → A → M S B) s Q R :
  settles f s Q → (∀ a s', Q a s' → settles (λ n, g n a) s' R) → settles (λ n, cbind (f n) (g n)) s R.
Proof.
  intros (n0 & a & s' & HQ & Hf) Hg. destruct (Hg a s' HQ) as (n1 & b & s2 & HR & Hg'). exists (n0 `max` n1)%nat, b, s2.
  split; [done|]. intros n Hn. unfold cbind. rewrite Hf by lia. apply Hg'. lia.
Qed.

Lemma settles_ret {S A} (a : A) (s : S) (Q : A → S → Prop) : Q a s → settles (λ _, cret a) s Q.
Proof. intros HQ. by exists 0%nat, a, s. Qed.

(** A computation without fuel. *)
Lemma settles_done {S A} (m : M S A) (s : S) a s' (Q : A → S → Prop) : m s = Some (a, s') → Q a s' → settles (λ _, m) s Q.
Proof. intros Hm HQ. by exists 0%nat, a, s'. Qed.

Lemma settles_mono {S A} (f : nat → M S A) s (Q R : A → S → Prop) :
  settles f s Q → (∀ a s', Q a s' → R a s') → settles f s R.
Proof. intros (n0 & a & s' & HQ & Hf) HR. exists n0, a, s'. eauto. Qed.

Lemma settles_ext {S A} (f g : nat → M S A) s Q : (∀ n, f n s = g n s) → settles g s Q → settles f s Q.
Proof. intros He (n0 & a & s' & HQ & Hf). exists n0, a, s'. split; [done|]. intros n Hn. rewrite He. by apply Hf. Qed.

(** The fuel may be used up by one. *)
Lemma settles_S {S A} (f g : nat → M S A) s Q : (∀ n, f (Datatypes.S n) s = g n s) → settles g s Q → settles f s Q.
Proof.
  intros He (n0 & a & s' & HQ & Hf). exists (Datatypes.S n0), a, s'. split; [done|]. intros n Hn. destruct n as [|n]; [lia|].
  rewrite He. apply Hf. lia.
Qed.

Lemma settles_pred {S A} (f : nat → M S A) s Q : settles f s Q → settles (λ n, f (Datatypes.S n)) s Q.
Proof. intros (n0 & a & s' & HQ & Hf). exists n0, a, s'. split; [done|]. intros n Hn. apply Hf. lia. Qed.

(** ** What is expected of the kinds *)

Section inv.
Context {kind P opt : Type} `{!QdiscKinds kind P opt} `{!NetEnv kind P}.
Notation qd := (sqdisc kind P).
Notation st := (nstate kind P).
Implicit Types (s : st) (q : qd).

(** The references of private data, those among them that were never put into
    the hash table, and the private data that objects of a kind have. *)
Class KindRefs := {
  children : P → list Z;
  unhashed : P → list Z;
  fits : kind → P → Prop;
  children_unhashed p b : b ∈ unhashed p → b ∈ children p;
}.

Context {refs : KindRefs}.

(** ** The invariant *)

Definition sleeping (d : netdev) : list Z :=
  map sl_sleeping (nd_tx d) ++ (if nd_ingress d is Some v then [sl_sleeping v] else []).

(** The references of the device; [r] tells whether [dev->qdisc] is one. *)
Definition roots (r : bool) (d : netdev) : list Z := (if r then [nd_qdisc d] else []) ++ sleeping d.

(** The pointers to [a] among those [f] selects of the objects that run no
    operation. *)
Definition owned_by (f : P → list Z) (B : gset Z) (h : gmap Z qd) (a : Z) : Z :=
  hsum (λ b q, if bool_decide (b ∈ B) then 0 else occ a (f (q_priv q))) h.

Notation owned := (owned_by children).
Notation owned_unhashed := (owned_by unhashed).

(** [b] is a child of [a]. *)
Definition edge (B : gset Z) (h : gmap Z qd) (a b : Z) : Prop :=
  ∃ q, h !! a = Some q ∧ a ∉ B ∧ b ∈ children (q_priv q).

Definition valid_queue (d : netdev) (dq : queue) : Prop := is_Some (slot_of dq d).

(** [H]: the references that running code holds; [U]: objects that it may put
    into the hash table; [B]: the objects whose operations are running, whose
    references are in [H]; [L]: objects that running code leaves alone. *)
Record inv (r : bool) (L B : gset Z) (H U : list Z) s : Prop := {
  inv_noop : ∃ q, ns_heap s !! noop_qdisc = Some q ∧ q_ops q = noop_ops ∧ q_handle q = 0 ∧ children (q_priv q) = [];
  inv_builtin a q : ns_heap s !! a = Some q → f_builtin (q_flags q) = bool_decide (a = noop_qdisc);
  inv_count a q : ns_heap s !! a = Some q → a ≠ noop_qdisc →
    q_refcnt q = occ a (roots r (ns_dev s)) + owned B (ns_heap s) a + occ a H + occ a (ns_leaked s);
  inv_alive a q : ns_heap s !! a = Some q → a ≠ noop_qdisc → a ∉ B → 0 < q_refcnt q;
  inv_held a : a ∈ roots r (ns_dev s) ++ H ++ ns_leaked s → is_Some (ns_heap s !! a);
  inv_edge a b : edge B (ns_heap s) a b → is_Some (ns_heap s !! b);
  inv_fits a q : ns_heap s !! a = Some q → fits (q_ops q) (q_priv q) ∧ noop_qdisc ∉ unhashed (q_priv q);
  inv_once a : occ a U + owned_unhashed B (ns_heap s) a + occ a (nd_hash (ns_dev s)) ≤ 1;
  inv_U a : a ∈ U → is_Some (ns_heap s !! a) ∧ a ≠ noop_qdisc;
  inv_hash a : a ∈ nd_hash (ns_dev s) → ∃ q, ns_heap s !! a = Some q ∧ hashable q = true ∧ a ≠ noop_qdisc;
  inv_sep a b : edge B (ns_heap s) a b → a ∉ L → b ∈ L → b = noop_qdisc;
  inv_L a : a ∈ L → is_Some (ns_heap s !! a);
  inv_B a : a ∈ B → ∃ q, ns_heap s !! a = Some q ∧ a ≠ noop_qdisc ∧
    (a ∈ L ∨ q_refcnt q = 0);
  inv_wf a : Acc (λ b a, edge B (ns_heap s) a b) a;
  inv_queue a q : ns_heap s !! a = Some q → a ≠ noop_qdisc → valid_queue (ns_dev s) (q_queue q);
  inv_active dq v : slot_of dq (ns_dev s) = Some v →
    sl_qdisc v = noop_qdisc ∨ sl_qdisc v = sl_sleeping v ∨ sl_qdisc v ∈ ns_leaked s;
  inv_tx : 0 < Z.of_nat (length (nd_tx (ns_dev s))) < 65535;
}.

Arguments inv_noop {r L B H U s} _.
Arguments inv_builtin {r L B H U s} _.
Arguments inv_count {r L B H U s} _.
Arguments inv_alive {r L B H U s} _.
Arguments inv_held {r L B H U s} _.
Arguments inv_edge {r L B H U s} _.
Arguments inv_fits {r L B H U s} _.
Arguments inv_once {r L B H U s} _.
Arguments inv_U {r L B H U s} _.
Arguments inv_hash {r L B H U s} _.
Arguments inv_sep {r L B H U s} _.
Arguments inv_L {r L B H U s} _.
Arguments inv_B {r L B H U s} _.
Arguments inv_wf {r L B H U s} _.
Arguments inv_queue {r L B H U s} _.
Arguments inv_active {r L B H U s} _.
Arguments inv_tx {r L B H U s} _.

(** ** Steps that leave the references alone *)

(** Same identity, count and references. *)
Definition calm q q' : Prop :=
  q_ops q' = q_ops q ∧ q_handle q' = q_handle q ∧ q_parent q' = q_parent q ∧
  f_builtin (q_flags q') = f_builtin (q_flags q) ∧ f_ingress (q_flags q') = f_ingress (q_flags q) ∧
  q_queue q' = q_queue q ∧ q_refcnt q' = q_refcnt q ∧
  children (q_priv q') = children (q_priv q) ∧ unhashed (q_priv q') = unhashed (q_priv q) ∧
  (fits (q_ops q) (q_priv q) → fits (q_ops q') (q_priv q')).

#[global] Instance calm_preorder : PreOrder calm.
Proof. split; [done|]. unfold calm. intros x y z Hxy Hyz. naive_solver congruence. Qed.

(** The device but for its reference count and the length of its queues. *)
Definition dev_core (d : netdev) :=
  (nd_ifindex d, nd_up d, nd_carrier d, nd_multiqueue d, nd_no_queue d, nd_real_num_tx d,
   (nd_qdisc d, nd_tx d, nd_ingress d, nd_hash d)).

Record calms s s' : Prop := {
  cs_heap a : option_relation calm (λ _, False) (λ _, False) (ns_heap s !! a) (ns_heap s' !! a);
  cs_dev : dev_core (ns_dev s') = dev_core (ns_dev s);
  cs_leaked : ns_leaked s' = ns_leaked s;
}.

#[global] Instance calms_preorder : PreOrder calms.
Proof.
  split.
  - intros s. split; [|done..]. intros a. by destruct (ns_heap s !! a).
  - intros s1 s2 s3 [H1 D1 K1] [H2 D2 K2]. split; [|congruence..]. intros a. specialize (H1 a). specialize (H2 a).
    destruct (ns_heap s1 !! a), (ns_heap s2 !! a), (ns_heap s3 !! a); simpl in *; try done. by etrans.
Qed.

Lemma calms_lookup s s' a q : calms s s' → ns_heap s !! a = Some q → ∃ q', ns_heap s' !! a = Some q' ∧ calm q q'.
Proof. intros Hc Ha. pose proof (cs_heap _ _ Hc a) as Hr. rewrite Ha in Hr. destruct (ns_heap s' !! a); [eauto|done]. Qed.

Lemma calms_lookup' s s' a q' : calms s s' → ns_heap s' !! a = Some q' → ∃ q, ns_heap s !! a = Some q ∧ calm q q'.
Proof. intros Hc Ha. pose proof (cs_heap _ _ Hc a) as Hr. rewrite Ha in Hr. destruct (ns_heap s !! a); [eauto|done]. Qed.

Lemma calms_is_Some s s' a : calms s s' → is_Some (ns_heap s !! a) → is_Some (ns_heap s' !! a).
Proof. intros Hc [q Hq]. destruct (calms_lookup _ _ _ _ Hc Hq) as (q' & Hq' & _). by exists q'. Qed.

Lemma calms_owned s s' B a : calms s s' →
  owned B (ns_heap s') a = owned B (ns_heap s) a ∧ owned_unhashed B (ns_heap s') a = owned_unhashed B (ns_heap s) a.
Proof.
  intros Hc. split; symmetry; apply hsum_rel; intros k; pose proof (cs_heap _ _ Hc k) as Hr;
    destruct (ns_heap s !! k), (ns_heap s' !! k); simpl in *; try done;
    destruct Hr as (_ & _ & _ & _ & _ & _ & _ & Hch & Hun & _); by rewrite ?Hch, ?Hun.
Qed.

Lemma calms_edge s s' B a b : calms s s' → edge B (ns_heap s') a b ↔ edge B (ns_heap s) a b.
Proof.
  intros Hc. split; intros (q & Hq & HB & Hb).
  - destruct (calms_lookup' _ _ _ _ Hc Hq) as (q0 & Hq0 & (_ & _ & _ & _ & _ & _ & _ & Hch & _ & _)).
    exists q0. by rewrite <- Hch.
  - destruct (calms_lookup _ _ _ _ Hc Hq) as (q0 & Hq0 & (_ & _ & _ & _ & _ & _ & _ & Hch & _ & _)).
    exists q0. by rewrite Hch.
Qed.

Lemma Acc_sub (R R' : Z → Z → Prop) a : (∀ x y, R' x y → R x y) → Acc R a → Acc R' a.
Proof. intros Hsub. induction 1 as [a _ IH]. constructor. intros b Hb. apply IH. by apply Hsub. Qed.

Lemma slot_of_core dq d d' : dev_core d' = dev_core d → slot_of dq d' = slot_of dq d.
Proof. intros [= _ _ _ _ _ _ Hq Ht Hi Hh]. destruct dq; simpl; congruence. Qed.

Lemma roots_core r d d' : dev_core d' = dev_core d → roots r d' = roots r d.
Proof. intros [= _ _ _ _ _ _ Hq Ht Hi Hh]. unfold roots, sleeping. by rewrite Hq, Ht, Hi. Qed.

Lemma inv_calms r L B H U s s' : inv r L B H U s → calms s s' → inv r L B H U s'.
Proof.
  intros I Hc. pose proof (cs_dev _ _ Hc) as Hd. pose proof (cs_leaked _ _ Hc) as Hl.
  assert (nd_hash (ns_dev s') = nd_hash (ns_dev s)) as Hh by (injection Hd; congruence).
  assert (nd_qdisc (ns_dev s') = nd_qdisc (ns_dev s)) as Hn by (injection Hd; congruence).
  split; rewrite ?(roots_core _ _ _ Hd), ?Hl, ?Hh, ?Hn.
  - destruct (inv_noop I) as (q & Hq & Ho & Hha & Hch).
    destruct (calms_lookup _ _ _ _ Hc Hq) as (q' & Hq' & (H1 & H2 & _ & _ & _ & _ & _ & H3 & _)).
    exists q'. split_and!; congruence.
  - intros a q' Hq'. destruct (calms_lookup' _ _ _ _ Hc Hq') as (q & Hq & (_ & _ & _ & Hb & _)).
    rewrite Hb. by apply (inv_builtin I).
  - intros a q' Hq' Ha. destruct (calms_lookup' _ _ _ _ Hc Hq') as (q & Hq & (_ & _ & _ & _ & _ & _ & Hr & _)).
    destruct (calms_owned _ _ B a Hc) as [-> _]. rewrite Hr. by apply (inv_count I).
  - intros a q' Hq' Ha HB. destruct (calms_lookup' _ _ _ _ Hc Hq') as (q & Hq & (_ & _ & _ & _ & _ & _ & Hr & _)).
    rewrite Hr. by apply (inv_alive I a).
  - intros a Ha. by apply (calms_is_Some _ _ _ Hc), (inv_held I).
  - intros a b. rewrite (calms_edge _ _ _ _ _ Hc). intros He. by apply (calms_is_Some _ _ _ Hc), (inv_edge I a).
  - intros a q' Hq'. destruct (calms_lookup' _ _ _ _ Hc Hq') as (q & Hq & (_ & _ & _ & _ & _ & _ & _ & _ & H2 & H3)).
    rewrite H2. destruct (inv_fits I a q Hq). auto.
  - intros a. destruct (calms_owned _ _ B a Hc) as [_ ->]. apply (inv_once I).
  - intros a Ha. destruct (inv_U I a Ha). split; [by apply (calms_is_Some _ _ _ Hc)|done].
  - intros a Ha. destruct (inv_hash I a Ha) as (q & Hq & Hha & Hne).
    destruct (calms_lookup _ _ _ _ Hc Hq) as (q' & Hq' & (_ & _ & H1 & _ & H2 & _)).
    exists q'. unfold hashable. rewrite H1, H2. done.
  - intros a b. rewrite (calms_edge _ _ _ _ _ Hc). apply (inv_sep I).
  - intros a Ha. by apply (calms_is_Some _ _ _ Hc), (inv_L I).
  - intros a Ha. destruct (inv_B I a Ha) as (q & Hq & Hne & Hp).
    destruct (calms_lookup _ _ _ _ Hc Hq) as (q' & Hq' & (_ & _ & _ & _ & _ & _ & H1 & _)).
    exists q'. by rewrite H1.
  - intros a. eapply Acc_sub; [|apply (inv_wf I)]. intros x y. simpl. by rewrite (calms_edge _ _ _ _ _ Hc).
  - intros a q' Hq' Ha. destruct (calms_lookup' _ _ _ _ Hc Hq') as (q & Hq & (_ & _ & _ & _ & _ & H1 & _)).
    unfold valid_queue. rewrite H1, (slot_of_core _ _ _ Hd). by apply (inv_queue I a).
  - intros dq v. rewrite (slot_of_core _ _ _ Hd). apply (inv_active I).
  - injection Hd as _ _ _ _ _ _ _ Ht _ _. rewrite Ht. apply (inv_tx I).
Qed.

(** ** Counting pointers *)

Lemma owned_insert f B h a q x : h !! a = None →
  owned_by f B (<[a := q]> h) x = (if bool_decide (a ∈ B) then 0 else occ x (f (q_priv q))) + owned_by f B h x.
Proof. intros Ha. unfold owned_by. by rewrite hsum_insert. Qed.

Lemma owned_update f B h a q q' x : h !! a = Some q →
  owned_by f B (<[a := q']> h) x =
  owned_by f B h x + (if bool_decide (a ∈ B) then 0 else occ x (f (q_priv q')) - occ x (f (q_priv q))).
Proof. intros Ha. unfold owned_by. rewrite (hsum_update _ _ _ _ _ Ha). case_bool_decide; lia. Qed.

Lemma owned_delete f B h a q x : h !! a = Some q →
  owned_by f B h x = (if bool_decide (a ∈ B) then 0 else occ x (f (q_priv q))) + owned_by f B (delete a h) x.
Proof. intros Ha. unfold owned_by. by rewrite (hsum_delete _ _ _ _ Ha). Qed.

Lemma owned_busy f B h a q x : h !! a = Some q → a ∉ B →
  owned_by f ({[a]} ∪ B) h x = owned_by f B h x - occ x (f (q_priv q)).
Proof.
  intros Ha HB. rewrite (owned_delete f B h a q x Ha), (owned_delete f ({[a]} ∪ B) h a q x Ha).
  rewrite (bool_decide_false (a ∈ B)), bool_decide_true by set_solver.
  enough (owned_by f ({[a]} ∪ B) (delete a h) x = owned_by f B (delete a h) x) by lia.
  apply hsum_ext. intros k v Hk. assert (k ≠ a) by (intros ->; rewrite lookup_delete_eq in Hk; done).
  assert (k ∈ {[a]} ∪ B ↔ k ∈ B) as Hd by set_solver. by rewrite (bool_decide_ext _ _ Hd).
Qed.

Lemma owned_nonneg f B h x : 0 ≤ owned_by f B h x.
Proof. apply hsum_nonneg. intros. case_match; [lia|apply occ_nonneg]. Qed.

Lemma owned_edge B h a b : edge B h a b → 1 ≤ owned B h b.
Proof.
  intros (q & Hq & HB & Hb). pose proof (hsum_ge (λ c q, if bool_decide (c ∈ B) then 0 else occ b (children (q_priv q))) h a q) as Hge.
  simpl in Hge. rewrite (bool_decide_false _ HB) in Hge. apply occ_pos in Hb. etrans; [exact Hb|]. apply Hge; [|done].
  intros. case_match; [lia|apply occ_nonneg].
Qed.

(** A counted object that is not there is referenced by nobody. *)
Lemma unhashed_pos r L B H U s x : inv r L B H U s → 1 ≤ owned_unhashed B (ns_heap s) x → ∃ a, edge B (ns_heap s) a x.
Proof.
  intros I. unfold owned_by. assert (∀ a q, ns_heap s !! a = Some q → x ∈ unhashed (q_priv q) → x ∈ children (q_priv q)) as Hu.
  { intros a q Hq Hx. by apply children_unhashed. }
  unfold edge. revert Hu. clear I. induction (ns_heap s) as [|k v m Hn IH] using map_ind; intros Hu; [done|].
  rewrite hsum_insert by done. case_bool_decide as Hk.
  - intros Hs. destruct IH as (a & q & Hq & HB & Hx); [|lia|].
    + intros a q Hq. apply (Hu a). rewrite lookup_insert_ne; [done|]. intros ->. congruence.
    + exists a, q. rewrite lookup_insert_ne; [done|]. intros ->. congruence.
  - intros Hs. destruct (decide (x ∈ unhashed (q_priv v))) as [Hx|Hx].
    + exists k, v. rewrite lookup_insert_eq. split_and!; [done..|]. eapply Hu; [apply lookup_insert_eq|done].
    + apply occ_zero in Hx. destruct IH as (a & q & Hq & HB & Hx'); [|lia|].
      * intros a q Hq. apply (Hu a). rewrite lookup_insert_ne; [done|]. intros ->. congruence.
      * exists a, q. rewrite lookup_insert_ne; [done|]. intros ->. congruence.
Qed.

(** ** Steps of the invariant *)

(** Identity and references are kept; the count may change. *)
Definition same q q' : Prop :=
  q_ops q' = q_ops q ∧ q_handle q' = q_handle q ∧ q_parent q' = q_parent q ∧
  f_builtin (q_flags q') = f_builtin (q_flags q) ∧ f_ingress (q_flags q') = f_ingress (q_flags q) ∧ q_queue q' = q_queue q.

Lemma lookup_update (h : gmap Z qd) a q q' b v : h !! a = Some q → <[a := q']> h !! b = Some v →
  (b = a ∧ v = q') ∨ (b ≠ a ∧ h !! b = Some v).
Proof. intros _. destruct (decide (b = a)) as [->|]; [rewrite lookup_insert_eq|rewrite lookup_insert_ne by done]; naive_solver. Qed.

Lemma is_Some_update (h : gmap Z qd) a q' b : is_Some (h !! b) → is_Some (<[a := q']> h !! b).
Proof. destruct (decide (b = a)) as [->|]; [rewrite lookup_insert_eq; eauto|by rewrite lookup_insert_ne]. Qed.

(** [s'] is [s] with another heap. *)
Definition new_heap s s' (h : gmap Z qd) : Prop := ns_heap s' = h ∧ ns_dev s' = ns_dev s ∧ ns_leaked s' = ns_leaked s.

Ltac upd_cases Ha Hv := destruct (lookup_update _ _ _ _ _ _ Ha Hv) as [[-> ->]|[Hne Hv']].

(** What the invariant needs of the identity of an object. *)
Definition alike s (a : Z) q q' : Prop :=
  f_builtin (q_flags q') = f_builtin (q_flags q) ∧ q_queue q' = q_queue q ∧
  (a ∈ nd_hash (ns_dev s) → hashable q = true → hashable q' = true).

Lemma same_alike s a q q' : same q q' → alike s a q q'.
Proof. intros (H1 & H2 & H3 & H4 & H5 & H6). split_and!; [done..|]. unfold hashable. by rewrite H3, H5. Qed.

(** A change of the object at [a]. *)
Lemma inv_at r L B B' H H' U U' s s' a q q' :
  inv r L B H U s → ns_heap s !! a = Some q → a ≠ noop_qdisc → alike s a q q' → new_heap s s' (<[a := q']> (ns_heap s)) →
  (∀ x, x ≠ a → x ∈ B' ↔ x ∈ B) →
  (∀ x, (if x =? a then q_refcnt q' - q_refcnt q else 0) =
    owned B' (<[a := q']> (ns_heap s)) x + occ x H' - owned B (ns_heap s) x - occ x H) →
  (∀ x, occ x U' + owned_unhashed B' (<[a := q']> (ns_heap s)) x ≤ occ x U + owned_unhashed B (ns_heap s) x) →
  (a ∈ B' → a ∈ L ∨ q_refcnt q' = 0) →
  (a ∉ B' → 0 < q_refcnt q' ∧ ∀ b, b ∈ children (q_priv q') → is_Some (ns_heap s !! b) ∧ (a ∉ L → b ∈ L → b = noop_qdisc)) →
  (∀ x, x ∈ H' → is_Some (ns_heap s !! x)) →
  (∀ x, x ∈ U' → is_Some (ns_heap s !! x) ∧ x ≠ noop_qdisc) →
  fits (q_ops q') (q_priv q') → noop_qdisc ∉ unhashed (q_priv q') →
  (∀ x, Acc (λ y x, edge B' (<[a := q']> (ns_heap s)) x y) x) →
  inv r L B' H' U' s'.
Proof.
  intros I Ha Hn (S4 & S6 & S3) (Eh & Ed & El) HB' Hcnt Honce Hprot Hfree HH' HU' Hfit Hun Hwf.
  assert (∀ x y, edge B' (<[a := q']> (ns_heap s)) x y →
    (x = a ∧ a ∉ B' ∧ y ∈ children (q_priv q')) ∨ (x ≠ a ∧ edge B (ns_heap s) x y)) as Hed.
  { intros x y (v & Hv & HxB & Hy). upd_cases Ha Hv; [by left|]. right. split; [done|]. exists v. by rewrite <- HB'. }
  split; rewrite ?Eh, ?Ed, ?El.
  - destruct (inv_noop I) as (v & Hv & Hr). exists v. by rewrite lookup_insert_ne.
  - intros x v Hv. upd_cases Ha Hv; [rewrite S4; by apply (inv_builtin I)|by apply (inv_builtin I)].
  - intros x v Hv Hx. specialize (Hcnt x). upd_cases Ha Hv.
    + pose proof (inv_count I _ _ Ha Hx). rewrite Z.eqb_refl in Hcnt. lia.
    + pose proof (inv_count I _ _ Hv' Hx). destruct (Z.eqb_spec x a); [done|]. lia.
  - intros x v Hv Hx HxB. upd_cases Ha Hv; [by apply Hfree|]. apply (inv_alive I x); [done..|]. by rewrite <- HB'.
  - intros x. rewrite !elem_of_app. intros [Hx|[Hx|Hx]]; apply is_Some_update; [|by apply HH'|];
      apply (inv_held I); rewrite !elem_of_app; auto.
  - intros x y He. apply is_Some_update. destruct (Hed _ _ He) as [(-> & HaB & Hy)|[_ He']]; [by apply Hfree|by apply (inv_edge I x)].
  - intros x v Hv. upd_cases Ha Hv; [done|by apply (inv_fits I x)].
  - intros x. specialize (Honce x). pose proof (inv_once I x). lia.
  - intros x Hx. destruct (HU' x Hx). split; [by apply is_Some_update|done].
  - intros x Hx. destruct (inv_hash I x Hx) as (v & Hv & Hh & Hne). destruct (decide (x = a)) as [->|].
    + exists q'. rewrite lookup_insert_eq. simplify_eq. auto.
    + exists v. by rewrite lookup_insert_ne.
  - intros x y He. destruct (Hed _ _ He) as [(-> & HaB & Hy)|[_ He']]; [by apply Hfree|by apply (inv_sep I)].
  - intros x Hx. by apply is_Some_update, (inv_L I).
  - intros x Hx. destruct (decide (x = a)) as [->|Hne].
    + exists q'. rewrite lookup_insert_eq. auto.
    + destruct (inv_B I x) as (v & Hv & Hr); [by apply HB'|]. exists v. by rewrite lookup_insert_ne.
  - done.
  - intros x v Hv Hx. upd_cases Ha Hv; [rewrite S6; by apply (inv_queue I a)|by apply (inv_queue I x)].
  - apply (inv_active I).
  - apply (inv_tx I).
Qed.

Lemma same_refcnt q n : same q (set_refcnt n q).
Proof. done. Qed.

Lemma elem_of_busy (a x : Z) (B : gset Z) : x ∈ {[a]} ∪ B ↔ x = a ∨ x ∈ B.
Proof. set_solver. Qed.

Lemma occ_repeat a x d : occ x (repeat a d) = if x =? a then Z.of_nat d else 0.
Proof. induction d as [|d IH]; simpl; [by case_match|]. rewrite IH, (Z.eqb_sym a x). case_match; lia. Qed.

(** An operation of the object at [a] starts; [d] references to it are dropped. *)
Lemma inv_enter r L B H H' U s s' a q d :
  inv r L B H U s → ns_heap s !! a = Some q → a ∉ B → a ≠ noop_qdisc →
  H ≡ₚ repeat a d ++ H' →
  (a ∈ L ∨ q_refcnt q - Z.of_nat d = 0) →
  new_heap s s' (<[a := set_refcnt (q_refcnt q - Z.of_nat d) q]> (ns_heap s)) →
  inv r L ({[a]} ∪ B) (children (q_priv q) ++ H') (unhashed (q_priv q) ++ U) s'.
Proof.
  intros I Ha HB Hn HH Hp Hs'. set (q' := set_refcnt _ q) in Hs'.
  assert (a ∈ {[a]} ∪ B) as HaB by set_solver.
  assert (∀ f x, owned_by f ({[a]} ∪ B) (<[a := q']> (ns_heap s)) x = owned_by f B (ns_heap s) x - occ x (f (q_priv q))) as Hown.
  { intros f x. rewrite (owned_update _ _ _ _ _ _ _ Ha), bool_decide_true, (owned_busy _ _ _ _ _ _ Ha HB) by done. lia. }
  assert (∀ b, b ∈ children (q_priv q) → is_Some (ns_heap s !! b)) as Hch by (intros b Hb; apply (inv_edge I a); by exists q).
  eapply (inv_at _ _ _ _ _ _ _ _ _ _ _ _ q' I Ha Hn); [by apply same_alike|exact Hs'|..].
  - intros x Hx. rewrite elem_of_busy. tauto.
  - intros x. rewrite Hown, HH, !occ_app, occ_repeat. unfold q'. simpl. case_match; lia.
  - intros x. rewrite Hown, occ_app. lia.
  - done.
  - tauto.
  - intros x [Hx|Hx]%elem_of_app; [by apply Hch|]. apply (inv_held I). rewrite HH, !elem_of_app. auto.
  - intros x [Hx|Hx]%elem_of_app; [|by apply (inv_U I)]. destruct (inv_fits I _ _ Ha) as [_ Hno]. split; [by apply Hch, children_unhashed|]. by intros ->.
  - by apply (inv_fits I a q).
  - by apply (inv_fits I a q).
  - intros x. eapply Acc_sub; [|apply (inv_wf I)]. intros y z (v & Hv & HzB & Hy). rewrite elem_of_busy in HzB.
    upd_cases Ha Hv; [tauto|]. exists v. tauto.
Qed.

(** Adding edges from [a] to objects that do not reach it. *)
Lemma Acc_add (E E' : Z → Z → Prop) (a : Z) :
  (∀ x, Acc (λ y x, E x y) x) → (∀ x y, E' x y → E x y ∨ (x = a ∧ ¬ rtc E y a)) → ∀ x, Acc (λ y x, E' x y) x.
Proof.
  intros Hwf Hadd.
  assert (∀ x, ¬ rtc E x a → Acc (λ y x, E' x y) x) as Hno.
  { intros x. induction (Hwf x) as [x _ IH]. intros Hx. constructor. intros y Hy. destruct (Hadd _ _ Hy) as [He|[-> _]].
    - apply IH; [done|]. intros Hr. apply Hx. by eapply rtc_l.
    - by destruct Hx. }
  intros x. induction (Hwf x) as [x _ IH]. constructor. intros y Hy. destruct (Hadd _ _ Hy) as [He|[_ Hr]]; [by apply IH|by apply Hno].
Qed.

(** An operation of the object at [a] ends, and leaves the references [C]. *)
Lemma inv_leave r L B H U C V s s' a q q' :
  inv r L ({[a]} ∪ B) (C ++ H) (V ++ U) s → ns_heap s !! a = Some q → a ∉ B → a ≠ noop_qdisc → 0 < q_refcnt q →
  same q q' → q_refcnt q' = q_refcnt q →
  children (q_priv q') ≡ₚ C → unhashed (q_priv q') ⊆+ V →
  fits (q_ops q') (q_priv q') →
  (∀ b, b ∈ C → a ∉ L → b ∈ L → b = noop_qdisc) →
  (∀ b, b ∈ C → ¬ rtc (edge ({[a]} ∪ B) (ns_heap s)) b a) →
  new_heap s s' (<[a := q']> (ns_heap s)) → inv r L B H U s'.
Proof.
  intros I Ha HB Hn Hpos Hsame Hr HC HV Hfit Hsep Hreach Hs'.
  assert (a ∈ {[a]} ∪ B) as HaB by set_solver.
  assert (∀ f x, owned_by f B (<[a := q']> (ns_heap s)) x =
    owned_by f ({[a]} ∪ B) (ns_heap s) x + occ x (f (q_priv q'))) as Hown.
  { intros f x. pose proof (owned_busy f B (<[a := q']> (ns_heap s)) a q' x (lookup_insert_eq _ _ _) HB) as Hb.
    rewrite (owned_update _ _ _ _ _ _ _ Ha), bool_decide_true in Hb by done. lia. }
  assert (∀ b, b ∈ unhashed (q_priv q') → b ∈ V) as HV' by (intros b Hb; by eapply elem_of_submseteq).
  eapply (inv_at _ _ _ _ _ _ _ _ _ _ _ _ q' I Ha Hn (same_alike _ _ _ _ Hsame) Hs').
  - intros x Hx. rewrite elem_of_busy. tauto.
  - intros x. rewrite Hown, occ_app, (occ_perm _ _ _ HC), Hr. case_match; lia.
  - intros x. rewrite Hown, occ_app. pose proof (occ_submseteq x _ _ HV). lia.
  - done.
  - intros _. rewrite Hr. split; [done|]. intros b. rewrite HC. intros Hb. split; [|by apply Hsep].
    apply (inv_held I). rewrite !elem_of_app. auto.
  - intros x Hx. apply (inv_held I). rewrite !elem_of_app. auto.
  - intros x Hx. apply (inv_U I). rewrite elem_of_app. auto.
  - done.
  - intros Hb. assert (noop_qdisc ∈ V ++ U) as HU by (rewrite elem_of_app; auto). by destruct (inv_U I _ HU).
  - apply (Acc_add (edge ({[a]} ∪ B) (ns_heap s)) _ a); [apply (inv_wf I)|]. intros x y (v & Hv & HxB & Hy).
    upd_cases Ha Hv; [right; split; [done|]; apply Hreach; by rewrite <- HC|]. left. exists v. rewrite elem_of_busy. tauto.
Qed.

(** References to [a] are taken or given back. *)
Lemma inv_refcnt r L B H H' U s s' a q n :
  inv r L B H U s → ns_heap s !! a = Some q → a ≠ noop_qdisc →
  (∀ x, occ x H' = occ x H + (if x =? a then n - q_refcnt q else 0)) →
  (a ∈ B → a ∈ L) → (a ∉ B → 0 < n) →
  new_heap s s' (<[a := set_refcnt n q]> (ns_heap s)) → inv r L B H' U s'.
Proof.
  intros I Ha Hn HH Hp Hpos Hs'.
  assert (∀ f x, owned_by f B (<[a := set_refcnt n q]> (ns_heap s)) x = owned_by f B (ns_heap s) x) as Hown.
  { intros f x. rewrite (owned_update _ _ _ _ _ _ _ Ha). simpl. case_match; lia. }
  eapply (inv_at _ _ _ _ _ _ _ _ _ _ _ _ _ I Ha Hn (same_alike _ _ _ _ (same_refcnt q n)) Hs').
  - done.
  - intros x. rewrite Hown, HH. simpl. lia.
  - intros x. rewrite Hown. lia.
  - intros HaB. left. auto.
  - intros HaB. split; [by apply Hpos|]. intros b Hb. assert (edge B (ns_heap s) a b) as He by (by exists q).
    split; [by apply (inv_edge I a)|]. intros. by apply (inv_sep I a).
  - intros x Hx. destruct (Z.eqb_spec x a) as [->|Hne]; [by rewrite Ha|]. apply (inv_held I). rewrite !elem_of_app.
    right. left. apply occ_pos. apply occ_pos in Hx. rewrite HH in Hx. destruct (Z.eqb_spec x a); [done|]. lia.
  - apply (inv_U I).
  - by apply (inv_fits I a q).
  - by apply (inv_fits I a q).
  - intros x. eapply Acc_sub; [|apply (inv_wf I)]. intros y z (v & Hv & HzB & Hy). upd_cases Ha Hv; [by exists q|by exists v].
Qed.

(** The identity of an object that is not in the hash table is settled. *)
Lemma inv_identity r L B H U s s' a q q' :
  inv r L B H U s → ns_heap s !! a = Some q → a ∈ U →
  f_builtin (q_flags q') = f_builtin (q_flags q) → q_queue q' = q_queue q → q_refcnt q' = q_refcnt q →
  q_ops q' = q_ops q → q_priv q' = q_priv q →
  new_heap s s' (<[a := q']> (ns_heap s)) → inv r L B H U s'.
Proof.
  intros I Ha HU Hb Hq Hr Ho Hp Hs'. destruct (inv_U I a HU) as [_ Hn].
  assert (a ∉ nd_hash (ns_dev s)) as Hh.
  { apply occ_zero. apply occ_pos in HU. pose proof (inv_once I a). pose proof (owned_nonneg unhashed B (ns_heap s) a).
    pose proof (occ_nonneg a (nd_hash (ns_dev s))). lia. }
  assert (∀ f x, owned_by f B (<[a := q']> (ns_heap s)) x = owned_by f B (ns_heap s) x) as Hown.
  { intros f x. rewrite (owned_update _ _ _ _ _ _ _ Ha), Hp. case_match; lia. }
  eapply (inv_at _ _ _ _ _ _ _ _ _ _ _ _ q' I Ha Hn); [done|exact Hs'|done|..].
  - intros x. rewrite Hown, Hr. case_match; lia.
  - intros x. rewrite Hown. lia.
  - intros HaB. rewrite Hr. destruct (inv_B I a HaB) as (v & Hv & _ & Hx). by simplify_eq.
  - intros HaB. rewrite Hr, Hp. split; [by apply (inv_alive I a)|]. intros b Hb'. assert (edge B (ns_heap s) a b) as He by (by exists q).
    split; [by apply (inv_edge I a)|]. intros. by apply (inv_sep I a).
  - intros x Hx. apply (inv_held I). rewrite !elem_of_app. auto.
  - apply (inv_U I).
  - rewrite Ho, Hp. by apply (inv_fits I a).
  - rewrite Hp. by apply (inv_fits I a).
  - intros x. eapply Acc_sub; [|apply (inv_wf I)]. intros y z (v & Hv & HzB & Hy). upd_cases Ha Hv; [|by exists v].
    exists q. by rewrite <- Hp.
Qed.

(** Nothing refers to an address that is not in use. *)
Lemma inv_fresh r L B H U s a : inv r L B H U s → ns_heap s !! a = None →
  a ≠ noop_qdisc ∧ a ∉ B ∧ a ∉ L ∧ (∀ x, ¬ edge B (ns_heap s) x a) ∧
  owned B (ns_heap s) a = 0 ∧ owned_unhashed B (ns_heap s) a = 0 ∧
  a ∉ roots r (ns_dev s) ++ H ++ ns_leaked s ∧ a ∉ U ∧ a ∉ nd_hash (ns_dev s).
Proof.
  intros I Ha. assert (∀ x, ¬ edge B (ns_heap s) x a) as Hno by (intros x He; destruct (inv_edge I x a He); congruence).
  split_and!; [..|done| | | | |].
  - intros ->. destruct (inv_noop I) as (v & Hv & _). congruence.
  - intros HaB. destruct (inv_B I a HaB) as (v & Hv & _). congruence.
  - intros HaL. destruct (inv_L I a HaL) as (v & Hv). congruence.
  - apply hsum_none. intros k v Hk. case_bool_decide; [done|]. apply occ_zero. intros Hx. apply (Hno k). by exists v.
  - apply hsum_none. intros k v Hk. case_bool_decide; [done|]. apply occ_zero. intros Hx. apply (Hno k). exists v.
    split_and!; [done..|]. by apply children_unhashed.
  - intros Hx. destruct (inv_held I a Hx). congruence.
  - intros Hx. destruct (inv_U I a Hx) as [[v Hv] _]. congruence.
  - intros Hx. destruct (inv_hash I a Hx) as (v & Hv & _). congruence.
Qed.

(** [qdisc_alloc]. *)
Lemma inv_alloc r L B H U s s' a q :
  inv r L B H U s → ns_heap s !! a = None →
  f_builtin (q_flags q) = false → q_refcnt q = 1 → children (q_priv q) = [] → unhashed (q_priv q) = [] → fits (q_ops q) (q_priv q) →
  valid_queue (ns_dev s) (q_queue q) →
  new_heap s s' (<[a := q]> (ns_heap s)) → inv r L B (a :: H) (a :: U) s'.
Proof.
  intros I Ha Hb Hr Hc Hu Hf Hq (Eh & Ed & El).
  destruct (inv_fresh _ _ _ _ _ _ _ I Ha) as (Hn & HB & HL & Hno & Ho1 & Ho2 & Hheld & HU & Hh).
  rewrite !elem_of_app in Hheld.
  assert (∀ f x, f (q_priv q) = [] → owned_by f B (<[a := q]> (ns_heap s)) x = owned_by f B (ns_heap s) x) as Hown.
  { intros f x Hf'. rewrite (owned_insert _ _ _ _ _ _ Ha), Hf'. simpl. case_match; lia. }
  assert (∀ x v, <[a := q]> (ns_heap s) !! x = Some v → (x = a ∧ v = q) ∨ (x ≠ a ∧ ns_heap s !! x = Some v)) as Hcase.
  { intros x v Hv. destruct (decide (x = a)) as [->|]; [left|right]; [by rewrite lookup_insert_eq in Hv; simplify_eq|by rewrite lookup_insert_ne in Hv]. }
  assert (∀ x y, edge B (<[a := q]> (ns_heap s)) x y → edge B (ns_heap s) x y) as Hed.
  { intros x y (v & Hv & HxB & Hy). destruct (Hcase _ _ Hv) as [[-> ->]|[Hne Hv']]; [|by exists v]. rewrite Hc in Hy. by apply elem_of_nil in Hy. }
  split; rewrite ?Eh, ?Ed, ?El.
  - destruct (inv_noop I) as (v & Hv & Hx). exists v. by rewrite lookup_insert_ne.
  - intros x v Hv. destruct (Hcase _ _ Hv) as [[-> ->]|[Hne Hv']]; [by rewrite bool_decide_false|by apply (inv_builtin I)].
  - intros x v Hv Hx. rewrite (Hown _ _ Hc). simpl. destruct (Hcase _ _ Hv) as [[-> ->]|[Hne Hv']].
    + rewrite Z.eqb_refl, Ho1. assert (∀ l, a ∉ l → occ a l = 0) as Hz by (intros l; apply occ_zero).
      rewrite !Hz by tauto. done.
    + pose proof (inv_count I _ _ Hv' Hx). destruct (Z.eqb_spec a x); [congruence|]. lia.
  - intros x v Hv Hx HxB. destruct (Hcase _ _ Hv) as [[-> ->]|[Hne Hv']]; [lia|by apply (inv_alive I x)].
  - intros x. rewrite !elem_of_app, elem_of_cons. intros Hx. destruct (decide (x = a)) as [->|Hne]; [rewrite lookup_insert_eq; eauto|].
    apply is_Some_update, (inv_held I). rewrite !elem_of_app. tauto.
  - intros x y He. apply is_Some_update. by apply (inv_edge I x), Hed.
  - intros x v Hv. destruct (Hcase _ _ Hv) as [[-> ->]|[Hne Hv']]; [rewrite Hu; split; [done|by intros ?%elem_of_nil]|by apply (inv_fits I x)].
  - intros x. rewrite (Hown _ _ Hu). simpl. pose proof (inv_once I x). destruct (Z.eqb_spec a x) as [<-|]; [|lia].
    apply occ_zero in HU. apply occ_zero in Hh. lia.
  - intros x [->|Hx]%elem_of_cons; [rewrite lookup_insert_eq; eauto|]. destruct (inv_U I x Hx). split; [by apply is_Some_update|done].
  - intros x Hx. destruct (inv_hash I x Hx) as (v & Hv & Hh'). exists v. rewrite lookup_insert_ne; [done|]. congruence.
  - intros x y He. by apply (inv_sep I), Hed.
  - intros x Hx. by apply is_Some_update, (inv_L I).
  - intros x Hx. destruct (inv_B I x Hx) as (v & Hv & Hp). exists v. rewrite lookup_insert_ne; [done|]. congruence.
  - intros x. eapply Acc_sub; [|apply (inv_wf I)]. intros y z. apply Hed.
  - intros x v Hv Hx. destruct (Hcase _ _ Hv) as [[-> ->]|[Hne Hv']]; [done|by apply (inv_queue I x)].
  - apply (inv_active I).
  - apply (inv_tx I).
Qed.

(** The end of [qdisc_destroy]. *)
Lemma inv_delete r L B H U s s' a q :
  inv r L ({[a]} ∪ B) H U s → ns_heap s !! a = Some q → q_refcnt q = 0 → a ∉ B → a ∉ nd_hash (ns_dev s) → a ∉ U → a ∉ L →
  new_heap s s' (delete a (ns_heap s)) → inv r L B H U s'.
Proof.
  intros I Ha Hr HB Hh HU HL (Eh & Ed & El).
  assert (a ≠ noop_qdisc) as Hn by (destruct (inv_B I a) as (v & Hv & ? & _); set_solver).
  pose proof (inv_count I _ _ Ha Hn) as Hc.
  pose proof (occ_nonneg a (roots r (ns_dev s))). pose proof (occ_nonneg a H). pose proof (occ_nonneg a (ns_leaked s)).
  pose proof (owned_nonneg children ({[a]} ∪ B) (ns_heap s) a).
  assert (a ∉ roots r (ns_dev s) ∧ a ∉ H ∧ a ∉ ns_leaked s) as (Z1 & Z2 & Z3) by (rewrite !occ_zero; lia).
  assert (∀ x, ¬ edge ({[a]} ∪ B) (ns_heap s) x a) as Hno by (intros x ?%owned_edge; lia).
  assert (∀ f x, owned_by f B (delete a (ns_heap s)) x = owned_by f ({[a]} ∪ B) (ns_heap s) x) as Hown.
  { intros f x. rewrite (owned_busy _ _ _ _ _ _ Ha HB), (owned_delete f B _ _ _ x Ha), bool_decide_false by done. lia. }
  assert (∀ x v, delete a (ns_heap s) !! x = Some v → x ≠ a ∧ ns_heap s !! x = Some v) as Hcase.
  { intros x v Hv. apply lookup_delete_Some in Hv as [? ?]. done. }
  assert (∀ x y, edge B (delete a (ns_heap s)) x y → y ≠ a ∧ edge ({[a]} ∪ B) (ns_heap s) x y) as Hed.
  { intros x y (v & Hv & HxB & Hy). destruct (Hcase _ _ Hv) as [Hne Hv'].
    assert (edge ({[a]} ∪ B) (ns_heap s) x y) as He by (exists v; rewrite elem_of_busy; tauto).
    split; [|done]. intros ->. by apply (Hno x). }
  assert (∀ x, x ≠ a → is_Some (ns_heap s !! x) → is_Some (delete a (ns_heap s) !! x)) as Hsome by (intros; by rewrite lookup_delete_ne).
  split; rewrite ?Eh, ?Ed, ?El.
  - destruct (inv_noop I) as (v & Hv & Hx). exists v. by rewrite lookup_delete_ne.
  - intros x v [_ Hv]%Hcase. by apply (inv_builtin I).
  - intros x v [_ Hv]%Hcase Hx. rewrite Hown. by apply (inv_count I).
  - intros x v [Hne Hv]%Hcase Hx HxB. apply (inv_alive I x); [done..|]. rewrite elem_of_busy. tauto.
  - intros x Hx. apply Hsome; [|by apply (inv_held I)]. rewrite !elem_of_app in Hx. intros ->. tauto.
  - intros x y [Hne He]%Hed. apply Hsome; [done|]. by apply (inv_edge I x).
  - intros x v [_ Hv]%Hcase. by apply (inv_fits I x).
  - intros x. rewrite Hown. apply (inv_once I).
  - intros x Hx. destruct (inv_U I x Hx). split; [|done]. apply Hsome; [|done]. by intros ->.
  - intros x Hx. destruct (inv_hash I x Hx) as (v & Hv & Hy). exists v. rewrite lookup_delete_ne; [done|]. by intros ->.
  - intros x y [_ He]%Hed. by apply (inv_sep I).
  - intros x Hx. apply Hsome; [|by apply (inv_L I)]. by intros ->.
  - intros x Hx. destruct (inv_B I x) as (v & Hv & Hp); [set_solver|]. exists v. rewrite lookup_delete_ne; [done|]. by intros ->.
  - intros x. eapply Acc_sub; [|apply (inv_wf I)]. intros y z. apply Hed.
  - intros x v [_ Hv]%Hcase. by apply (inv_queue I x).
  - apply (inv_active I).
  - apply (inv_tx I).
Qed.

(** A change of the device, of the references held and of those lost. *)
Lemma inv_dev r r' L B H H' U U' s s' :
  inv r L B H U s → ns_heap s' = ns_heap s →
  (∀ x, x ≠ noop_qdisc → occ x (roots r' (ns_dev s')) + occ x H' + occ x (ns_leaked s') =
    occ x (roots r (ns_dev s)) + occ x H + occ x (ns_leaked s)) →
  (∀ x, occ x U' + occ x (nd_hash (ns_dev s')) ≤ occ x U + occ x (nd_hash (ns_dev s))) →
  (∀ x, x ∈ U' → x ∈ U) →
  (∀ x, x ∈ nd_hash (ns_dev s') → x ∈ nd_hash (ns_dev s) ∨
     (x ≠ noop_qdisc ∧ ∃ q, ns_heap s !! x = Some q ∧ hashable q = true)) →
  (∀ dq, is_Some (slot_of dq (ns_dev s)) → is_Some (slot_of dq (ns_dev s'))) →
  length (nd_tx (ns_dev s')) = length (nd_tx (ns_dev s)) →
  (∀ dq v, slot_of dq (ns_dev s') = Some v →
    sl_qdisc v = noop_qdisc ∨ sl_qdisc v = sl_sleeping v ∨ sl_qdisc v ∈ ns_leaked s') →
  inv r' L B H' U' s'.
Proof.
  intros I Eh Hcnt Honce HU Hhash Hslot Hlen Hact. destruct (inv_noop I) as (v0 & Hv0 & Hn).
  split; rewrite ?Eh.
  - eauto.
  - apply (inv_builtin I).
  - intros x v Hv Hx. pose proof (inv_count I _ _ Hv Hx). specialize (Hcnt _ Hx). lia.
  - apply (inv_alive I).
  - intros x Hx. destruct (decide (x = noop_qdisc)) as [->|Hne]; [by rewrite Hv0|]. apply (inv_held I).
    apply occ_pos. apply occ_pos in Hx. rewrite !occ_app in *. specialize (Hcnt _ Hne). lia.
  - apply (inv_edge I).
  - apply (inv_fits I).
  - intros x. pose proof (inv_once I x). specialize (Honce x). lia.
  - intros x Hx. by apply (inv_U I), HU.
  - intros x Hx. destruct (Hhash x Hx) as [Hy|(Hne & v & Hv & Hh)]; [by apply (inv_hash I)|eauto].
  - apply (inv_sep I).
  - apply (inv_L I).
  - apply (inv_B I).
  - apply (inv_wf I).
  - intros x v Hv Hx. apply Hslot. by apply (inv_queue I x).
  - done.
  - rewrite Hlen. apply (inv_tx I).
Qed.

Ltac dev_same I := try done; try (exact (inv_active I)); try (by intros; auto).

(** Reordering, forgetting hashable objects, and [&noop_qdisc], which has no
    count. *)
Lemma inv_weaken r L B H H' U U' s :
  inv r L B H U s → (∀ x, x ≠ noop_qdisc → occ x H' = occ x H) → U' ⊆+ U → inv r L B H' U' s.
Proof.
  intros I HH HU. apply (inv_dev r r L B H H' U U' s s I); dev_same I.
  - intros x Hx. rewrite HH by done. lia.
  - intros x. pose proof (occ_submseteq x _ _ HU). lia.
  - intros x Hx. by eapply elem_of_submseteq.
Qed.

Lemma inv_perm r L B H H' U s : inv r L B H U s → H ≡ₚ H' → inv r L B H' U s.
Proof. intros I HH. eapply inv_weaken; [exact I| |done]. intros x _. by rewrite HH. Qed.

Lemma inv_noop_held r L B H U s : inv r L B (noop_qdisc :: H) U s ↔ inv r L B H U s.
Proof.
  split; intros I; (eapply inv_weaken; [exact I| |done]); intros x Hx; cbn [occ]; destruct (Z.eqb_spec noop_qdisc x); congruence || lia.
Qed.

Lemma inv_hash_add r L B H U s s' a q :
  inv r L B H (a :: U) s → ns_heap s !! a = Some q → hashable q = true →
  ns_heap s' = ns_heap s → ns_leaked s' = ns_leaked s → ns_dev s' = set_nd_hash (a :: nd_hash (ns_dev s)) (ns_dev s) →
  inv r L B H U s'.
Proof.
  intros I Ha Hh Eh El Ed. apply (inv_dev r r L B H H (a :: U) U s s' I Eh); rewrite ?Ed, ?El; dev_same I.
  - intros x. simpl. lia.
  - intros x Hx. by right.
  - intros x [->|Hx]%elem_of_cons; [|by left]. right. split; [|by exists q]. apply (inv_U I a). by left.
Qed.

Lemma inv_hash_del r L B H U s s' a :
  inv r L B H U s → ns_heap s' = ns_heap s → ns_leaked s' = ns_leaked s →
  ns_dev s' = set_nd_hash (filter (λ b, b ≠ a) (nd_hash (ns_dev s))) (ns_dev s) → inv r L B H U s'.
Proof.
  intros I Eh El Ed. apply (inv_dev r r L B H H U U s s' I Eh); rewrite ?Ed, ?El; dev_same I.
  - intros x. simpl. enough (occ x (filter (λ b, b ≠ a) (nd_hash (ns_dev s))) ≤ occ x (nd_hash (ns_dev s))) by lia.
    apply occ_submseteq, sublist_submseteq, sublist_filter.
  - intros x. simpl. rewrite list_elem_of_filter. tauto.
Qed.

(** ** Slots *)

Lemma occ_sleeping_set x dq v v' d : slot_of dq d = Some v →
  occ x (sleeping (set_slot dq v' d)) + occ x [sl_sleeping v] = occ x (sleeping d) + occ x [sl_sleeping v'].
Proof.
  intros Hs. destruct dq as [i| |]; simpl in Hs; [| |done]; unfold sleeping; simpl.
  - rewrite !occ_app. enough (occ x (map sl_sleeping (<[i:=v']> (nd_tx d))) + occ x [sl_sleeping v] =
      occ x (map sl_sleeping (nd_tx d)) + occ x [sl_sleeping v']) as Hx by (simpl in Hx; lia).
    revert i Hs. induction (nd_tx d) as [|w l IH]; intros [|i] Hs; simplify_eq/=; [lia|]. specialize (IH i Hs). lia.
  - rewrite Hs, !occ_app. simpl. lia.
Qed.

Lemma slot_of_set dq dq' v v' d : slot_of dq d = Some v →
  slot_of dq' (set_slot dq v' d) = if decide (dq' = dq) then Some v' else slot_of dq' d.
Proof.
  intros Hs. destruct dq as [i| |]; simpl in Hs; [| |done]; destruct dq' as [j| |]; case_decide as Hd; simplify_eq; try done.
  - apply list_lookup_insert_eq. by eapply lookup_lt_Some.
  - apply list_lookup_insert_ne. congruence.
Qed.

(** A slot gets a reference that was held; its old one is held. *)
Lemma inv_slot r L B H H' U s s' dq v v' :
  inv r L B H U s → slot_of dq (ns_dev s) = Some v → H ≡ₚ sl_sleeping v' :: H' →
  (sl_qdisc v' = noop_qdisc ∨ sl_qdisc v' = sl_sleeping v' ∨ sl_qdisc v' ∈ ns_leaked s) →
  ns_heap s' = ns_heap s → ns_leaked s' = ns_leaked s → ns_dev s' = set_slot dq v' (ns_dev s) →
  inv r L B (sl_sleeping v :: H') U s'.
Proof.
  intros I Hs HH Hv' Eh El Ed.
  assert (nd_qdisc (ns_dev s') = nd_qdisc (ns_dev s) ∧ nd_hash (ns_dev s') = nd_hash (ns_dev s)) as [Eq Ehash].
  { rewrite Ed. by destruct dq. }
  apply (inv_dev r r L B H _ U U s s' I Eh); rewrite ?El, ?Ehash, ?Eq; dev_same I.
  - intros x Hx. pose proof (occ_sleeping_set x dq v v' _ Hs) as Ho. rewrite HH. unfold roots. rewrite Eq, Ed, !occ_app. simpl in *. lia.
  - intros dq' Hd. rewrite Ed, (slot_of_set _ _ _ _ _ Hs). case_decide; eauto.
  - rewrite Ed. destruct dq; simpl; rewrite ?length_insert; done.
  - intros dq' w. rewrite Ed, (slot_of_set _ _ _ _ _ Hs). case_decide; [by intros [= <-]|]. apply (inv_active I).
Qed.

(** Only the discipline that the transmit path uses changes. *)
Lemma inv_set_active r L B H U s s' dq v a : inv r L B H U s → slot_of dq (ns_dev s) = Some v →
  (a = noop_qdisc ∨ a = sl_sleeping v ∨ a ∈ ns_leaked s) →
  ns_heap s' = ns_heap s → ns_leaked s' = ns_leaked s → ns_dev s' = set_slot dq (Slot a (sl_sleeping v)) (ns_dev s) →
  inv r L B H U s'.
Proof.
  intros I Hs Ha Eh El Ed.
  assert (nd_qdisc (ns_dev s') = nd_qdisc (ns_dev s) ∧ nd_hash (ns_dev s') = nd_hash (ns_dev s)) as [Eq Ehash].
  { rewrite Ed. by destruct dq. }
  apply (inv_dev r r L B H H U U s s' I Eh); rewrite ?El, ?Ehash, ?Eq; dev_same I.
  - intros x Hx. pose proof (occ_sleeping_set x dq v (Slot a (sl_sleeping v)) _ Hs) as Ho. unfold roots. rewrite Eq, Ed, !occ_app. simpl in *. lia.
  - intros dq' Hd. rewrite Ed, (slot_of_set _ _ _ _ _ Hs). case_decide; eauto.
  - rewrite Ed. destruct dq; simpl; rewrite ?length_insert; done.
  - intros dq' w. rewrite Ed, (slot_of_set _ _ _ _ _ Hs). case_decide; [by intros [= <-]|]. apply (inv_active I).
Qed.

(** [dev->qdisc] gives up its reference, takes one, or loses one. *)
Lemma inv_unroot L B H U s : inv true L B H U s → inv false L B (nd_qdisc (ns_dev s) :: H) U s.
Proof.
  intros I. apply (inv_dev true false L B H _ U U s s I); dev_same I. intros x Hx. unfold roots. simpl. lia.
Qed.

Lemma inv_root L B H U s s' a : inv false L B (a :: H) U s →
  ns_heap s' = ns_heap s → ns_leaked s' = ns_leaked s → ns_dev s' = set_nd_qdisc a (ns_dev s) → inv true L B H U s'.
Proof.
  intros I Eh El Ed. apply (inv_dev false true L B (a :: H) H U U s s' I Eh); rewrite ?El, ?Ed; dev_same I.
  intros x Hx. unfold roots. simpl. change (sleeping (set_nd_qdisc a (ns_dev s))) with (sleeping (ns_dev s)). lia.
Qed.

Lemma inv_leak r L B H U s s' a : inv r L B (a :: H) U s →
  ns_heap s' = ns_heap s → ns_leaked s' = a :: ns_leaked s → ns_dev s' = ns_dev s → inv r L B H U s'.
Proof.
  intros I Eh El Ed. apply (inv_dev r r L B (a :: H) H U U s s' I Eh); rewrite ?El, ?Ed; dev_same I.
  - intros x Hx. simpl. lia.
  - intros dq v Hv. destruct (inv_active I dq v Hv) as [|[|]]; auto. right. right. by right.
Qed.

(** An object without references that is not in the hash table. *)
Lemma inv_addU r L B H U s a q : inv r L B H U s → ns_heap s !! a = Some q → a ≠ noop_qdisc → q_refcnt q = 0 →
  a ∉ nd_hash (ns_dev s) → a ∉ U → inv r L B H (a :: U) s.
Proof.
  intros I Ha Hn Hr Hh HU.
  assert (owned_unhashed B (ns_heap s) a = 0) as H0.
  { pose proof (owned_nonneg unhashed B (ns_heap s) a). destruct (decide (1 ≤ owned_unhashed B (ns_heap s) a)) as [Hp|]; [|lia].
    destruct (unhashed_pos _ _ _ _ _ _ _ I Hp) as [x He%owned_edge]. pose proof (inv_count I a q Ha Hn).
    pose proof (occ_nonneg a (roots r (ns_dev s))). pose proof (occ_nonneg a H). pose proof (occ_nonneg a (ns_leaked s)). lia. }
  destruct I as [I1 I2 I3 I4 I5 I6 I7 I8 I9 I10 I11 I12 I13 I14 I15 I16 I17]. split; try done.
  - intros x. simpl. specialize (I8 x). destruct (Z.eqb_spec a x) as [<-|]; [|lia].
    apply occ_zero in Hh. apply occ_zero in HU. lia.
  - intros x [->|Hx]%elem_of_cons; [eauto|by apply I9].
Qed.

(** ** The objects left alone *)

Lemma inv_setL_gen r L L' B H U s : inv r L B H U s →
  (∀ a b, edge B (ns_heap s) a b → a ∉ L' → b ∈ L' → b = noop_qdisc) →
  (∀ a, a ∈ L' → is_Some (ns_heap s !! a)) →
  (∀ a q, a ∈ B → a ∈ L → ns_heap s !! a = Some q → a ∈ L' ∨ q_refcnt q = 0) → inv r L' B H U s.
Proof.
  intros [I1 I2 I3 I4 I5 I6 I7 I8 I9 I10 I11 I12 I13 I14 I15 I16 I17] Hsep HL HB. split; try done.
  intros a Ha. destruct (I13 a Ha) as (q & Hq & Hn & [Hp|Hp]); exists q; split_and!; auto.
Qed.

Lemma inv_setL r L L' B H U s : inv r L B H U s →
  (∀ a b, edge B (ns_heap s) a b → a ∉ L' → b ∈ L' → b = noop_qdisc) →
  (∀ a, a ∈ L' → is_Some (ns_heap s !! a)) → (∀ a, a ∈ B → a ∈ L → a ∈ L') → inv r L' B H U s.
Proof. intros I Hsep HL HB. eapply inv_setL_gen; [exact I|done|done|]. intros a q Ha HaL _. left. auto. Qed.

(** ** The discipline of references *)

(** [fifo_set_limit] can be called on objects of this kind: its name does not
    begin with "?fifo", or it has a [change]. *)
Definition limitable (k : kind) : bool := negb (is_fifo_id (op_id (ops k))) || bool_decide (is_Some (op_limit (ops k))).

(** [owns V rk g L H U G T p Q]: started with the references [H] and the hashable
    objects [U], [p] uses every reference at most once, and ends with an answer,
    references and hashable objects that satisfy [Q].  [V] holds of the queues
    of the device, [rk] bounds the nesting of creations, [g] allows grafting,
    [L] is left alone, [G] is the object grafted last, [T] are held objects whose
    limit can be set. *)
Inductive owns (rank : kind → nat) (V : queue → Prop) (rk : nat) (g : bool) (L : gset Z)
    : list Z → list Z → list Z → list Z → prog kind P → (ans P → list Z → list Z → Prop) → Prop :=
| ow_ret H U G T r (Q : ans P → list Z → list Z → Prop) : Q r H U → owns rank V rk g L H U G T (Ret r) Q
| ow_create H U G T dq k par c Q :
    V dq → (rank k < rk)%nat → par ≠ TC_H_ROOT →
    owns rank V rk g L H U G T (c None) Q →
    (∀ a, a ∉ L → a ≠ noop_qdisc → owns rank V rk g L (a :: H) (a :: U) G (if limitable k then a :: T else T) (c (Some a)) Q) →
    owns rank V rk g L H U G T (CreateDflt dq k par c) Q
| ow_put H H' U U' G T T' a c Q :
    H ≡ₚ a :: H' → U' ⊆+ U → (∀ b, b ∈ U' → b ∈ H' ++ G) → (∀ b, b ∈ T' → b ∈ T ∧ b ∈ H') → (a ∈ L → a = noop_qdisc) →
    owns rank V rk g L H' U' G T' c Q → owns rank V rk g L H U G T (QdiscPut a c) Q
| ow_put_noop H U G T c Q : owns rank V rk g L H U G T c Q → owns rank V rk g L H U G T (QdiscPut noop_qdisc c) Q
| ow_hash H U U' G T a i c Q :
    U ≡ₚ a :: U' → owns rank V rk g L H U' G T c Q → owns rank V rk g L H U G T (HashAdd a i c) Q
| ow_limit H U G T a n c Q :
    a ∈ H → a ∈ T → (∀ err, err ≠ - EAGAIN → owns rank V rk g L H U G T (c err) Q) → owns rank V rk g L H U G T (SetLimit a n c) Q
| ow_flags H U G T a c Q :
    a ∈ H → owns rank V rk g L H U G T c Q → owns rank V rk g L H U G T (TxFlags a c) Q
| ow_graft H H' U U' G T T' dq a c Q :
    g = true → V dq → (∃ i, dq = TxQueue i) → H ≡ₚ a :: H' → U' ⊆+ U → (∀ b, b ∈ U' → b ∈ H' ++ [a]) →
    (∀ b, b ∈ T' → b ∈ T ∧ b ∈ H') → (a ∈ L → a = noop_qdisc) →
    (∀ old, (old ∈ L → old = noop_qdisc) → owns rank V rk g L (old :: H') U' [a] T' (c old) Q) →
    owns rank V rk g L H U G T (DevGraft dq a c) Q
| ow_alloc H U G T c Q : (∀ b, owns rank V rk g L H U G T (c b) Q) → owns rank V rk g L H U G T (Alloc c) Q.

(** What an operation leaves is what its private data says. *)
Definition leaves (k : kind) (r : ans P) (H U : list Z) : Prop :=
  children (an_priv r) ≡ₚ H ∧ unhashed (an_priv r) ⊆+ U ∧ fits k (an_priv r).

(** A change of private data that keeps the references. *)
Definition keeps_refs (k : kind) (p p' : P) : Prop :=
  children p' = children p ∧ unhashed p' = unhashed p ∧ fits k p'.

(** The queues that an operation can name. *)
Definition sees (V : queue → Prop) (me : self kind) : Prop :=
  V (sf_queue me) ∧ (∀ i, (i < sf_num_tx me)%nat → V (TxQueue i)) ∧ 0 < Z.of_nat (sf_num_tx me) < 65535.

(** What the core relies on of every kind. *)
Class KindsOk := {
  (** the depth of creations below a default object that is not a root *)
  rank : kind → nat;
  ok_noop : op_reset (ops noop_ops) = None ∧ op_attach (ops noop_ops) = None;
  ok_noqueue : op_attach (ops noqueue_ops) = None;
  ok_mq : is_Some (op_attach (ops mq_ops));
  ok_priv0 k : children (op_priv0 (ops k)) = [] ∧ unhashed (op_priv0 (ops k)) = [] ∧ fits k (op_priv0 (ops k));
  ok_static k : f_builtin (op_static_flags (ops k)) = false ∧ f_ingress (op_static_flags (ops k)) = false;
  ok_init k f me o L V : op_init (ops k) = Some f → sees V me →
    ∃ rk, (o = None → sf_handle me = 0 → sf_parent me ≠ TC_H_ROOT → rk = rank k) ∧
    owns rank V rk false L [] [] [] [] (f me o) (λ r H U, leaves k r H U ∧ (∀ b, b ∈ H → b ∈ L → b = noop_qdisc) ∧ an_err r ≠ - EAGAIN ∧
      (an_err r = 0 → (op_attach (ops k) = None ∧ unhashed (an_priv r) = []) ∨
        (is_Some (op_attach (ops k)) ∧ sf_parent me = TC_H_ROOT ∧ sf_multiqueue me = true ∧ length (children (an_priv r)) = sf_num_tx me)));
  ok_no_init k : op_init (ops k) = None → op_attach (ops k) = None;
  ok_change k f me p o L V : op_change (ops k) = Some f → fits k p → unhashed p = [] → sees V me →
    (∀ b, b ∈ children p → b ∈ L → b = noop_qdisc) →
    ∃ rk, owns rank V rk false L (children p) [] [] (children p) (f me p o)
      (λ r H U, leaves k r H U ∧ unhashed (an_priv r) = [] ∧ ∀ b, b ∈ H → b ∈ L → b = noop_qdisc);
  ok_destroy k f me p L V : op_destroy (ops k) = Some f → fits k p → (∀ b, b ∈ children p → b ∈ L → b = noop_qdisc) →
    owns rank V 0 false L (children p) [] [] [] (f me p) (λ _ H _, H = []);
  ok_no_destroy k p : op_destroy (ops k) = None → fits k p → children p = [];
  ok_attach k f me p L V : op_attach (ops k) = Some f → fits k p → sees V me → length (children p) = sf_num_tx me → (∀ b, b ∈ children p → b ∈ L → b = noop_qdisc) →
    owns rank V 0 true L (children p) (unhashed p) [] [] (f me p) (λ r H _, H = [] ∧ children (an_priv r) = [] ∧ fits k (an_priv r));
  ok_reset k f now p : op_reset (ops k) = Some f → fits k p →
    keeps_refs k p (f now p).1 ∧ ∀ c, c ∈ (f now p).2 → c ∈ children p ∨ c = noop_qdisc;
  ok_limit k f n p : op_limit (ops k) = Some f → fits k p → keeps_refs k p (f n p).2 ∧ (f n p).1 ≠ - EAGAIN;
  ok_ingress_block k f n p : op_ingress_block_set (ops k) = Some f → fits k p → keeps_refs k p (f n p);
  ok_egress_block k f n p : op_egress_block_set (ops k) = Some f → fits k p → keeps_refs k p (f n p);
  ok_tx_len k f n p : op_change_tx_queue_len (ops k) = Some f → fits k p → keeps_refs k p (f n p).2;
  ok_graft k c f n p cl id new : op_cl (ops k) = Some c → cl_graft c = Some f → fits k p → cl_find c n p id = cl → cl ≠ 0 →
    match f n p cl new with
    | GraftErr err => err ≠ 0
    | GraftSlot old p' => fits k p' ∧ unhashed p' = unhashed p ∧
        ∀ x, x ≠ noop_qdisc → occ x (children p') + occ x (option_list old) = occ x (option_list new) + occ x (children p)
    | GraftQueue dq => is_Some (op_attach (ops k)) ∧ ∃ i, dq = TxQueue i ∧ (i < n)%nat
    end;
  ok_select k c f n id dq : op_cl (ops k) = Some c → cl_select_queue c = Some f → f n id = Some dq → ∃ i, dq = TxQueue i ∧ (i < n)%nat;
  ok_leaf k c n p cl : op_cl (ops k) = Some c → fits k p →
    (cl ∈ cl_walk c n p ∨ ∃ id, cl_find c n p id = cl ∧ cl ≠ 0) →
    match cl_leaf c n p cl with
    | Some (Child b) => b ∈ children p ∨ b = noop_qdisc
    | Some (OfQueue dq) => ∃ i, dq = TxQueue i ∧ (i < n)%nat
    | None => True
    end;
  ok_walk k c n p : op_cl (ops k) = Some c → fits k p → unhashed p = [] →
    ∀ b, b ∈ children p → b ≠ noop_qdisc → ∃ cl, cl ∈ cl_walk c n p ∧ cl_leaf c n p cl = Some (Child b);
  ok_dump k c n p cl ph : op_cl (ops k) = Some c → fits k p →
    (cl ∈ cl_walk c n p ∨ ∃ id, cl_find c n p id = cl ∧ cl ≠ 0) →
    match cl_dump c n p cl ph with
    | Some (_, Child b) => b ∈ children p ∨ b = noop_qdisc
    | Some (_, OfQueue dq) => ∃ i, dq = TxQueue i ∧ (i < n)%nat
    | None => True
    end;
  ok_cl_change k c f n clid parent cl0 o p : op_cl (ops k) = Some c → cl_change c = Some f → fits k p →
    let '(err, p', cl) := f clid parent cl0 o p in keeps_refs k p p' ∧ (err = 0 → ∃ id, cl_find c n p' id = cl ∧ cl ≠ 0);
  ok_cl_delete k c f cl p : op_cl (ops k) = Some c → cl_delete c = Some f → fits k p → keeps_refs k p (f cl p).2;
  ok_no_class k p : op_cl (ops k) = None → fits k p → children p = [];
  (** the part of [qdisc_replace] that concerns the old child *)
  ok_flush q : calm q (qdisc_flush q);
}.

End inv.

Arguments inv_noop {kind P opt QdiscKinds0 refs r L B H U s} _.
Arguments inv_builtin {kind P opt QdiscKinds0 refs r L B H U s} _.
Arguments inv_count {kind P opt QdiscKinds0 refs r L B H U s} _.
Arguments inv_alive {kind P opt QdiscKinds0 refs r L B H U s} _.
Arguments inv_held {kind P opt QdiscKinds0 refs r L B H U s} _.
Arguments inv_edge {kind P opt QdiscKinds0 refs r L B H U s} _.
Arguments inv_fits {kind P opt QdiscKinds0 refs r L B H U s} _.
Arguments inv_once {kind P opt QdiscKinds0 refs r L B H U s} _.
Arguments inv_U {kind P opt QdiscKinds0 refs r L B H U s} _.
Arguments inv_hash {kind P opt QdiscKinds0 refs r L B H U s} _.
Arguments inv_sep {kind P opt QdiscKinds0 refs r L B H U s} _.
Arguments inv_L {kind P opt QdiscKinds0 refs r L B H U s} _.
Arguments inv_B {kind P opt QdiscKinds0 refs r L B H U s} _.
Arguments inv_wf {kind P opt QdiscKinds0 refs r L B H U s} _.
Arguments inv_queue {kind P opt QdiscKinds0 refs r L B H U s} _.
Arguments inv_active {kind P opt QdiscKinds0 refs r L B H U s} _.
Arguments inv_tx {kind P opt QdiscKinds0 refs r L B H U s} _.
