(* ===== verification/QtreeRun.v ===== *)
(** * The core of the tree of queueing disciplines is correct

    With enough fuel, [qdisc_reset], [qdisc_put], [qdisc_create_dflt] and the
    programs of the kinds end; they read no address that is not in use, and they
    keep the invariant of QtreeInv.v. *)

From Stdlib Require Import ZArith Lia.
From stdpp Require Import base numbers list gmap option sets.
From S2P Require Import Prelude Sched Stab Qtree QtreeInv.

Open Scope Z_scope.

Section run.
Context {kind P opt : Type} `{!QdiscKinds kind P opt} `{!NetEnv kind P} `{!NetEnvOk kind P}.
Context {refs : KindRefs (kind := kind) (P := P)} {kok : KindsOk}.
Notation qd := (sqdisc kind P).
Notation st := (nstate kind P).
Implicit Types (s : st) (q : qd).

(** ** Elementary steps *)

Lemma settles_get {A} a q (g : nat → qd → M st A) s R :
  ns_heap s !! a = Some q → settles (λ n, g n q) s R → settles (λ n, cbind (get_q a) (g n)) s R.
Proof. intros Ha. apply settles_ext. intros n. unfold cbind, get_q. by rewrite Ha. Qed.

Lemma settles_upd {A} a q f (g : nat → unit → M st A) s R :
  ns_heap s !! a = Some q → settles (λ n, g n tt) (with_heap (<[a := f q]> (ns_heap s)) s) R →
  settles (λ n, cbind (upd_q a f) (g n)) s R.
Proof.
  intros Ha (n0 & x & s' & HR & Hg). exists n0, x, s'. split; [done|]. intros n Hn. unfold cbind, upd_q. rewrite Ha. by apply Hg.
Qed.

Lemma settles_upd_last a q f s (R : unit → st → Prop) :
  ns_heap s !! a = Some q → R tt (with_heap (<[a := f q]> (ns_heap s)) s) → settles (λ _, upd_q a f) s R.
Proof. intros Ha HR. eapply settles_done; [unfold upd_q; by rewrite Ha|done]. Qed.

Lemma settles_modify {A} f (g : nat → unit → M st A) s R :
  settles (λ n, g n tt) (f s) R → settles (λ n, cbind (modify f) (g n)) s R.
Proof. intros (n0 & x & s' & HR & Hg). exists n0, x, s'. split; [done|]. intros n Hn. by apply Hg. Qed.

Lemma settles_gets {A B} (f : st → B) (g : nat → B → M st A) s R :
  settles (λ n, g n (f s)) s R → settles (λ n, cbind (gets f) (g n)) s R.
Proof. intros (n0 & x & s' & HR & Hg). exists n0, x, s'. split; [done|]. intros n Hn. by apply Hg. Qed.

Lemma settles_ask {A B} (f : nat → B) (g : nat → B → M st A) s R :
  settles (λ n, g n (f (ns_clock s))) (tick s) R → settles (λ n, cbind (ask f) (g n)) s R.
Proof. intros (n0 & x & s' & HR & Hg). exists n0, x, s'. split; [done|]. intros n Hn. by apply Hg. Qed.

Lemma settles_assoc {A B C} (f : nat → M st A) (g : nat → A → M st B) (h : nat → B → M st C) s R :
  settles (λ n, cbind (f n) (λ x, cbind (g n x) (h n))) s R → settles (λ n, cbind (cbind (f n) (g n)) (h n)) s R.
Proof. apply settles_ext. intros n. unfold cbind. by destruct (f n s) as [[? ?]|]. Qed.

(** ** Calm steps *)

Lemma calms_upd s s' a q q' : ns_heap s !! a = Some q → calm q q' → ns_heap s' = <[a := q']> (ns_heap s) →
  dev_core (ns_dev s') = dev_core (ns_dev s) → ns_leaked s' = ns_leaked s → calms s s'.
Proof.
  intros Ha Hc Eh Ed El. split; [|done..]. intros b. rewrite Eh. destruct (decide (b = a)) as [->|].
  - by rewrite Ha, lookup_insert_eq.
  - rewrite lookup_insert_ne by done. by destruct (ns_heap s !! b).
Qed.

(** Only what the invariant does not see changes. *)
Lemma calms_eq s s' : ns_heap s' = ns_heap s → dev_core (ns_dev s') = dev_core (ns_dev s) → ns_leaked s' = ns_leaked s → calms s s'.
Proof. intros Eh Ed El. split; [|done..]. intros a. rewrite Eh. by destruct (ns_heap s !! a). Qed.

Lemma free_skbs_calm s a : is_Some (ns_heap s !! a) → settles (λ _, free_skbs a) s (λ _ s', calms s s').
Proof.
  intros [q Ha]. eapply settles_done; [unfold free_skbs, cbind, get_q, modify, upd_q; rewrite Ha; simpl; rewrite Ha; reflexivity|].
  by apply (calms_upd _ _ a q (clear_skbs q) Ha).
Qed.

(** What [each] does to its elements. *)
Lemma each_settles {A} (f : nat → A → M st unit) l (R : st → Prop) s : R s →
  (∀ x s', x ∈ l → R s' → settles (λ n, f n x) s' (λ _ s'', R s'')) → settles (λ n, each (f n) l) s (λ _ s', R s').
Proof.
  revert s. induction l as [|x l IH]; intros s HR Hf; simpl.
  - by apply settles_ret.
  - eapply settles_bind; [apply Hf; [left|done]|]. intros [] s' HR'. apply IH; [done|]. intros y s'' Hy. apply Hf. by right.
Qed.

(** ** Resets *)

(** What may be reset: an object that runs no operation, below which none does. *)
Definition resettable (L B : gset Z) (a : Z) : Prop := a = noop_qdisc ∨ B = ∅ ∨ (a ∉ L ∧ a ∉ B).

Lemma resettable_busy r L B H U s a : inv r L B H U s → resettable L B a → a ∉ B.
Proof.
  intros I [->|[->|[_ HB]]]; [|set_solver|done]. intros HB. by destruct (inv_B I _ HB) as (? & ? & ? & _).
Qed.

Lemma resettable_edge r L B H U s a b : inv r L B H U s → resettable L B a → edge B (ns_heap s) a b → resettable L B b.
Proof.
  intros I Hr He. destruct Hr as [->|[->|[HL HB]]].
  - destruct (inv_noop I) as (v & Hv & _ & _ & Hc), He as (q & Hq & _ & Hb). simplify_eq. rewrite Hc in Hb. by apply elem_of_nil in Hb.
  - by right; left.
  - destruct (decide (b = noop_qdisc)) as [->|Hn]; [by left|]. right. right.
    assert (b ∉ L) as HbL by (intros HbL; by apply Hn, (inv_sep I a)). split; [done|]. intros HbB.
    destruct (inv_B I b HbB) as (q & Hq & _ & [|H0]); [done|]. pose proof (inv_count I b q Hq Hn). apply owned_edge in He.
    pose proof (occ_nonneg b (roots r (ns_dev s))). pose proof (occ_nonneg b H). pose proof (occ_nonneg b (ns_leaked s)). lia.
Qed.

Lemma keeps_refs_calm k p q : q_ops q = k → keeps_refs k (q_priv q) p → calm q (set_qpriv p q).
Proof. intros <- (H1 & H2 & H3). by split_and!. Qed.

(** [noop_qdisc] has nothing to reset. *)
Lemma noop_reset r L B H U s s' : inv r L B H U s → calms s s' →
  is_Some (ns_heap s !! noop_qdisc) ∧ settles (λ n, ops_reset n noop_qdisc) s' (λ _ s'', calms s s'').
Proof.
  intros I Hc. destruct (inv_noop I) as (v & Hv & _). split; [by exists v|].
  destruct (inv_noop (inv_calms _ _ _ _ _ _ _ I Hc)) as (q & Hq & Ho & _).
  apply (settles_S _ (λ _, cret tt)); [|by apply settles_ret].
  intros n. cbn [ops_reset]. unfold cbind, get_q. rewrite Hq, Ho. by destruct ok_noop as [-> _].
Qed.

(** [ops->reset], when the children can be reset. *)
Lemma reset_body r L B H U s s' a : inv r L B H U s → is_Some (ns_heap s !! a) → calms s s' →
  (∀ q c s1, ns_heap s !! a = Some q → c ∈ children (q_priv q) → calms s s1 →
    is_Some (ns_heap s !! c) ∧ settles (λ n, ops_reset n c) s1 (λ _ s2, calms s s2)) →
  settles (λ n, ops_reset n a) s' (λ _ s'', calms s s'').
Proof.
  intros I [v Hv] Hc Hkid. pose proof (inv_calms _ _ _ _ _ _ _ I Hc) as I'.
  destruct (calms_lookup _ _ _ _ Hc Hv) as (q & Hq & Hvq). destruct (inv_fits I' a q Hq) as [Hfit _].
  destruct Hvq as (O1 & _ & _ & _ & _ & _ & _ & C1 & U1 & _).
  apply (settles_S _ (λ n, let* q := get_q a in
    match op_reset (ops (q_ops q)) with
    | None => cret tt
    | Some f =>
        let* now := gets (λ s, ktime_ns (ns_clock s)) in
        each (λ c, ops_reset n c ;;; free_skbs c ;;; upd_q c clear_counts) (f now (q_priv q)).2 ;;;
        upd_q a (set_qpriv (f now (q_priv q)).1)
    end)); [done|].
  eapply settles_get; [exact Hq|]. destruct (op_reset (ops (q_ops q))) as [f|] eqn:Ef; [|by apply settles_ret].
  apply settles_gets. destruct (ok_reset _ _ (ktime_ns (ns_clock s')) _ Ef Hfit) as [Hk Hkids]. eapply settles_bind.
  - apply (each_settles _ _ (calms s)); [done|]. intros c s1 Hcin Hc1.
    assert (is_Some (ns_heap s !! c) ∧ settles (λ n, ops_reset n c) s1 (λ _ s2, calms s s2)) as [Hsc Hset].
    { destruct (Hkids c Hcin) as [Hin| ->]; [apply (Hkid v c s1 Hv); [by rewrite <- C1|done]|by eapply noop_reset]. }
    eapply settles_bind; [exact Hset|]. intros [] s2 Hc2.
    eapply settles_bind; [apply free_skbs_calm, (calms_is_Some _ _ _ Hc2 Hsc)|]. intros [] s3 Hc3.
    assert (calms s s3) as Hc3' by by etrans. destruct (calms_is_Some _ _ _ Hc3' Hsc) as [w Hw].
    eapply settles_upd_last; [exact Hw|]. etrans; [exact Hc3'|]. by eapply (calms_upd _ _ c w (clear_counts w)).
  - intros [] s1 Hc1. simpl. destruct (calms_lookup _ _ _ _ Hc1 Hv) as (w & Hw & (O2 & _ & _ & _ & _ & _ & _ & C2 & U2 & _)).
    eapply settles_upd_last; [exact Hw|]. etrans; [exact Hc1|]. destruct Hk as (K1 & K2 & K3).
    eapply (calms_upd _ _ a w (set_qpriv _ w)); [done| |done..].
    split_and!; simpl; try done; [congruence..|]. intros _. by rewrite O2, <- O1.
Qed.

Lemma ops_reset_calm r L B H U s a : inv r L B H U s → resettable L B a → is_Some (ns_heap s !! a) →
  settles (λ n, ops_reset n a) s (λ _ s', calms s s').
Proof.
  intros I Hr Ha. enough (∀ s', calms s s' → settles (λ n, ops_reset n a) s' (λ _ s'', calms s s'')) as Hx by by apply Hx.
  revert Hr Ha. induction (inv_wf I a) as [a _ IH]. intros Hr Ha s' Hc. eapply reset_body; [exact I|done..|].
  intros q c s1 Hq Hcin Hc1. assert (edge B (ns_heap s) a c) as Hed.
  { exists q. split_and!; [done| |done]. by apply (resettable_busy _ _ _ _ _ _ _ I). }
  assert (is_Some (ns_heap s !! c)) as Hsc by (by apply (inv_edge I a)). split; [done|].
  apply (IH c Hed); [exact (resettable_edge _ _ _ _ _ _ _ _ I Hr Hed)|done..].
Qed.

Lemma qdisc_reset_calm r L B H U s a : inv r L B H U s → resettable L B a → is_Some (ns_heap s !! a) →
  settles (λ n, qdisc_reset n a) s (λ _ s', calms s s').
Proof.
  intros I Hr Ha. eapply settles_bind; [by eapply ops_reset_calm|]. intros [] s1 Hc1.
  eapply settles_bind; [apply free_skbs_calm, (calms_is_Some _ _ _ Hc1 Ha)|]. intros [] s2 Hc2.
  assert (calms s s2) as Hc by by etrans. destruct (calms_is_Some _ _ _ Hc Ha) as [w Hw].
  eapply settles_upd_last; [exact Hw|]. etrans; [exact Hc|]. by eapply (calms_upd _ _ a w (clear_counts w)).
Qed.

(** ** What running code leaves as it was *)

Definition dev_static (d : netdev) :=
  (nd_ifindex d, nd_up d, nd_carrier d, nd_multiqueue d, nd_no_queue d, nd_real_num_tx d, nd_qdisc d, length (nd_tx d),
   bool_decide (is_Some (nd_ingress d))).

(** The objects of [L], the busy ones and those with a reference in [F] stay; the
    first also keep their counts and references.  An object that was not there
    before cannot be attached, and its children are in the hash table. *)
Record evolves (L B : gset Z) (F : list Z) s s' : Prop := {
  ev_same a q : ns_heap s !! a = Some q → a ∈ L ∨ a ∈ B ∨ a ∈ F → ∃ q', ns_heap s' !! a = Some q' ∧ same q q';
  ev_refcnt a q q' : ns_heap s !! a = Some q → ns_heap s' !! a = Some q' → a ∈ L →
    q_refcnt q' = q_refcnt q ∧ (a ∉ B → children (q_priv q') = children (q_priv q));
  ev_new a q' : ns_heap s' !! a = Some q' → a ∉ B →
    (∃ q, ns_heap s !! a = Some q ∧ same q q' ∧ (unhashed (q_priv q) = [] → unhashed (q_priv q') = [])) ∨
    (op_attach (ops (q_ops q')) = None ∧ unhashed (q_priv q') = []);
  ev_dev : dev_static (ns_dev s') = dev_static (ns_dev s);
}.

Lemma same_trans q1 q2 q3 : same q1 q2 → same q2 q3 → same q1 q3.
Proof. unfold same. intros (? & ? & ? & ? & ? & ?) (? & ? & ? & ? & ? & ?). split_and!; congruence. Qed.

Lemma calm_same q q' : calm q q' → same q q'.
Proof. intros (? & ? & ? & ? & ? & ? & _). by split_and!. Qed.

Lemma evolves_trans L B F s1 s2 s3 : evolves L B F s1 s2 → evolves L B F s2 s3 → evolves L B F s1 s3.
Proof.
  intros [A1 R1 U1 D1] [A2 R2 U2 D2]. split; [| | |congruence].
  - intros a q Ha Hin. destruct (A1 a q Ha Hin) as (q2 & H2 & S2). destruct (A2 a q2 H2 Hin) as (q3 & H3 & S3).
    exists q3. split; [done|]. by eapply same_trans.
  - intros a q q3 Ha H3 HL. destruct (A1 a q Ha) as (q2 & H2 & _); [auto|].
    destruct (R1 _ _ _ Ha H2 HL) as [E1 C1], (R2 _ _ _ H2 H3 HL) as [E2 C2]. split; [congruence|].
    intros HB. rewrite C2, C1 by done. done.
  - intros a q3 H3 HB. destruct (U2 a q3 H3 HB) as [(q2 & H2 & S2 & E2)|]; [|by right].
    destruct (U1 a q2 H2 HB) as [(q1 & H1 & S1 & E1)|[O1 E1]].
    + left. exists q1. split_and!; [done|by eapply same_trans|auto].
    + right. assert (q_ops q3 = q_ops q2) as -> by apply S2. auto.
Qed.

Lemma evolves_mono L B F F' s s' : (∀ a, a ∈ F → a ∈ F') → evolves L B F' s s' → evolves L B F s s'.
Proof. intros HF [A R U D]. split; [|done..]. intros a q Ha [|[|]]; apply (A a q Ha); auto. Qed.

Lemma evolves_sub L L' B F F' s s' : (∀ a, a ∈ L → a ∈ L') → (∀ a, a ∈ F → a ∈ F') → evolves L' B F' s s' → evolves L B F s s'.
Proof.
  intros HL HF [A R U D]. split; [| |done..].
  - intros a q Ha [|[|]]; apply (A a q Ha); auto.
  - intros a q q' Ha Ha' Hin. by apply R, HL.
Qed.

(** A busy object is written. *)
Lemma evolves_busy L B F s s' a q q' : ns_heap s !! a = Some q → a ∈ B → a ∉ L → same q q' → new_heap s s' (<[a := q']> (ns_heap s)) →
  evolves L B F s s'.
Proof.
  intros Ha HB HL Hs (Eh & Ed & _). split; rewrite ?Eh, ?Ed; [| | |done].
  - intros x v Hx _. destruct (decide (x = a)) as [->|]; [|by exists v; rewrite lookup_insert_ne].
    rewrite lookup_insert_eq. simplify_eq. eauto.
  - intros x v v' Hx Hx' HxL. rewrite lookup_insert_ne in Hx' by (intros ->; done). by simplify_eq.
  - intros x v Hx HxB. destruct (lookup_update _ _ _ _ _ _ Ha Hx) as [[-> ->]|[_ Hx']]; [done|left; by exists v].
Qed.

Lemma evolves_calms L B F s s' : calms s s' → evolves L B F s s'.
Proof.
  intros Hc. split; [| | |pose proof (cs_dev _ _ Hc) as Hd; unfold dev_static; injection Hd as -> -> -> -> -> -> -> -> -> _; done].
  - intros a q Ha _. destruct (calms_lookup _ _ _ _ Hc Ha) as (q' & Hq' & Hcm). exists q'. split; [done|]. by apply calm_same.
  - intros a q q' Ha Hq' _. destruct (calms_lookup _ _ _ _ Hc Ha) as (? & ? & (_ & _ & _ & _ & _ & _ & E & C & _)). simplify_eq. done.
  - intros a q' Hq' _. destruct (calms_lookup' _ _ _ _ Hc Hq') as (q & Hq & Hcm). left. exists q.
    split_and!; [done|by apply calm_same|]. destruct Hcm as (_ & _ & _ & _ & _ & _ & _ & _ & -> & _). done.
Qed.

(** The number of objects with references. *)
Definition live s : Z := hsum (λ _ q, if 0 <? q_refcnt q then 1 else 0) (ns_heap s).

Lemma live_nonneg s : 0 ≤ live s.
Proof. apply hsum_nonneg. intros. case_match; lia. Qed.

Lemma live_calms s s' : calms s s' → live s' = live s.
Proof.
  intros Hc. symmetry. apply hsum_rel. intros k. pose proof (cs_heap _ _ Hc k) as Hr.
  destruct (ns_heap s !! k), (ns_heap s' !! k); simpl in *; try done.
  destruct Hr as (_ & _ & _ & _ & _ & _ & E & _). by rewrite E.
Qed.

(** The slots and the references that were lost. *)
Definition slots_same s s' : Prop :=
  nd_tx (ns_dev s') = nd_tx (ns_dev s) ∧ (nd_ingress (ns_dev s'), ns_leaked s') = (nd_ingress (ns_dev s), ns_leaked s).

Lemma slots_sleeping s s' : slots_same s s' → sleeping (ns_dev s') = sleeping (ns_dev s).
Proof. intros [E1 [= E2 _]]. unfold sleeping. by rewrite E1, E2. Qed.

Lemma calms_slots s s' : calms s s' → slots_same s s'.
Proof. intros Hc. pose proof (cs_dev _ _ Hc) as Hd. split; [|rewrite (cs_leaked _ _ Hc)]; injection Hd; congruence. Qed.

(** What [qdisc_put] and [qdisc_create_dflt] do; [U] must be referenced elsewhere. *)
Definition backed (B : gset Z) (U H : list Z) s : Prop := ∀ x, x ∈ U → x ∈ H ∨ x ∈ sleeping (ns_dev s) ∨ x ∈ B.

Definition put_spec (N : nat) : Prop := ∀ r L B H U s a,
  inv r L B (a :: H) U s → (a ∈ L → a = noop_qdisc) → backed B U H s → live s ≤ Z.of_nat N →
  settles (λ n, qdisc_put (run n) n a) s (λ _ s', inv r L B H U s' ∧ evolves L B H s s' ∧ slots_same s s' ∧
    live s' ≤ live s ∧ (∀ x, ns_heap s !! x = None → ns_heap s' !! x = None) ∧
    (∀ q, ns_heap s !! a = Some q → q_refcnt q = 1 → a ≠ noop_qdisc → ns_heap s' !! a = None)).

Definition create_spec (k : kind) : Prop := ∀ r L B H U s dq par,
  inv r L B H U s → valid_queue (ns_dev s) dq → par ≠ TC_H_ROOT → backed B U H s →
  settles (λ n, qdisc_create_dflt (run n) n (Some dq) k par) s (λ o s', evolves L B H s s' ∧ slots_same s s' ∧
    match o with
    | None => inv r L B H U s'
    | Some a => inv r L B (a :: H) (a :: U) s' ∧ a ∉ L ∧ a ≠ noop_qdisc ∧ ∃ q, ns_heap s' !! a = Some q ∧ q_ops q = k
    end).

(** Together. *)
Record quiet (L B : gset Z) (F : list Z) s s' : Prop := {
  qt_ev : evolves L B F s s';
  qt_slots : slots_same s s';
  qt_live : live s' ≤ live s;
  qt_none x : ns_heap s !! x = None → ns_heap s' !! x = None;
}.

Lemma quiet_calms L B F s s' : calms s s' → quiet L B F s s'.
Proof.
  intros Hc. split; [by apply evolves_calms|by apply calms_slots|rewrite (live_calms _ _ Hc); lia|].
  intros x Hx. pose proof (cs_heap _ _ Hc x) as Hr. rewrite Hx in Hr. by destruct (ns_heap s' !! x).
Qed.

Lemma quiet_trans L B F s1 s2 s3 : quiet L B F s1 s2 → quiet L B F s2 s3 → quiet L B F s1 s3.
Proof.
  intros [E1 [S1 T1] L1 N1] [E2 [S2 T2] L2 N2]. split; [by eapply evolves_trans|split; congruence|lia|auto].
Qed.

Lemma quiet_mono L B F F' s s' : (∀ a, a ∈ F → a ∈ F') → quiet L B F' s s' → quiet L B F s s'.
Proof. intros HF [E S L1 N]. split; [by eapply evolves_mono|done..]. Qed.

(** ** Calls of the programs *)

Lemma evolves_heap L B F s s' : ns_heap s' = ns_heap s → dev_static (ns_dev s') = dev_static (ns_dev s) → evolves L B F s s'.
Proof.
  intros Eh Ed. split; rewrite ?Eh; [| | |done].
  - intros a q Ha _. by exists q.
  - intros a q q' Ha Ha' _. by simplify_eq.
  - intros a q Ha _. left. by exists q.
Qed.

Lemma quiet_heap L B F s s' : ns_heap s' = ns_heap s → slots_same s s' → dev_static (ns_dev s') = dev_static (ns_dev s) → quiet L B F s s'.
Proof.
  intros Eh Es Ed. split; [by apply evolves_heap|done|unfold live; rewrite Eh; lia|by rewrite Eh].
Qed.

Lemma hash_add_ok r L B H U s a i F : inv r L B H (a :: U) s →
  settles (λ _, qdisc_hash_add a i) s (λ _ s', inv r L B H U s' ∧ quiet L B F s s').
Proof.
  intros I. destruct (inv_U I a) as [[q Hq] Hn]; [by left|]. eapply settles_get; [exact Hq|].
  destruct (hashable q) eqn:Hh.
  - apply settles_modify. match goal with |- settles _ ?s1 _ => set (s' := s1) end.
    assert (inv r L B H U s') as I' by (by eapply (inv_hash_add _ _ _ _ _ s s' a q I)).
    assert (quiet L B F s s') as Q' by (by apply quiet_heap). destruct i; [|by apply settles_ret].
    assert (calms s' (with_heap (<[a := map_flags set_invisible q]> (ns_heap s')) s')) as Hc by (by eapply (calms_upd _ _ a q (map_flags set_invisible q))).
    eapply settles_upd_last; [exact Hq|]. split; [by eapply inv_calms|].
    eapply quiet_trans; [exact Q'|]. by apply quiet_calms.
  - apply settles_ret. split; [|by apply quiet_calms]. eapply inv_weaken; [exact I|done|]. by apply submseteq_cons.
Qed.

Lemma set_limit_ok r L B H U s a n F : inv r L B H U s → a ∈ H → (∃ q, ns_heap s !! a = Some q ∧ limitable (q_ops q) = true) →
  settles (λ _, fifo_set_limit a n) s (λ err s', (inv r L B H U s' ∧ quiet L B F s s') ∧ err ≠ - EAGAIN).
Proof.
  intros I Ha (q & Hq & Hlim). destruct (inv_fits I a q Hq) as [Hfit _]. eapply settles_get; [exact Hq|]. unfold limitable in Hlim.
  destruct (is_fifo_id _); simpl in *; [|apply settles_ret; split_and!; [done|by apply quiet_calms|done]]. apply bool_decide_eq_true in Hlim as [f Ef].
  apply settles_ask. destruct (alloc_ok _); simpl.
  - rewrite Ef. destruct (ok_limit _ _ n _ Ef Hfit) as [Hkeep Herr]. assert (calms s (with_heap (<[a := set_qpriv (f n (q_priv q)).2 q]> (ns_heap s)) (tick s))) as Hc.
    { eapply (calms_upd _ _ a q (set_qpriv _ q)); [done| |done..]. by eapply keeps_refs_calm. }
    eapply settles_upd; [exact Hq|]. apply settles_ret. split_and!; [by eapply inv_calms|by apply quiet_calms|done].
  - assert (calms s (tick s)) as Hc by by apply calms_eq. apply settles_ret. split_and!; [by eapply inv_calms|by apply quiet_calms|done].
Qed.

Lemma tx_flags_ok r L B H U s a F : inv r L B H U s → a ∈ H →
  settles (λ _, upd_q a (map_flags set_onetxqueue_noparent)) s (λ _ s', inv r L B H U s' ∧ quiet L B F s s').
Proof.
  intros I Ha. destruct (inv_held I a) as [q Hq]; [rewrite !elem_of_app; auto|].
  assert (calms s (with_heap (<[a := map_flags set_onetxqueue_noparent q]> (ns_heap s)) s)) as Hc by (by eapply (calms_upd _ _ a q (map_flags set_onetxqueue_noparent q))).
  eapply settles_upd_last; [exact Hq|]. split; [by eapply inv_calms|by apply quiet_calms].
Qed.

Lemma set_slot_static dq v v' d : slot_of dq d = Some v → dev_static (set_slot dq v' d) = dev_static d.
Proof. intros Hv. unfold dev_static. destruct dq; simpl in *; rewrite ?length_insert, ?Hv; done. Qed.

Lemma sleeping_slot dq v d : slot_of dq d = Some v → sl_sleeping v ∈ sleeping d.
Proof.
  unfold sleeping. destruct dq; simpl; intros Hv; [| |done]; apply elem_of_app.
  - left. apply list_elem_of_fmap. exists v. split; [done|]. by eapply list_elem_of_lookup_2.
  - right. rewrite Hv. by left.
Qed.

Lemma sleeping_set x dq v v' d : slot_of dq d = Some v → x ∈ sleeping (set_slot dq v' d) → x = sl_sleeping v' ∨ x ∈ sleeping d.
Proof.
  intros Hv Hx. pose proof (occ_sleeping_set x dq v v' d Hv) as Ho. rewrite occ_pos in *. simpl in Ho.
  destruct (Z.eqb_spec (sl_sleeping v') x); [auto|]. right. destruct (sl_sleeping v =? x); lia.
Qed.

(** [dev_graft_qdisc]: the reference of the new object goes into the slot, and the
    old one is the caller's. *)
Lemma dev_graft_ok r L B H H' U s dq a F : inv r L B H U s → H ≡ₚ a :: H' → valid_queue (ns_dev s) dq →
  settles (λ _, dev_graft_qdisc dq a) s (λ old s', inv r L B (old :: H') U s' ∧ evolves L B F s s' ∧ ns_heap s' = ns_heap s ∧
    old ∈ sleeping (ns_dev s) ∧ a ∈ sleeping (ns_dev s') ∧ (∀ x, x ∈ sleeping (ns_dev s') → x = a ∨ x ∈ sleeping (ns_dev s)) ∧
    ns_leaked s' = ns_leaked s ∧ ns_dev s' = set_slot dq (Slot noop_qdisc a) (ns_dev s)).
Proof.
  intros I HH [v Hv]. set (w := Slot noop_qdisc a). set (s' := with_dev (set_slot dq w (ns_dev s)) s).
  eapply (settles_done _ _ (sl_sleeping v) s').
  - unfold dev_graft_qdisc, cbind, get_slot. by rewrite Hv.
  - split_and!; [|apply evolves_heap; [done|by eapply set_slot_static]|done|by eapply sleeping_slot| | |done|done].
    + by eapply (inv_slot _ _ _ _ _ _ s s' dq v w I Hv HH); auto.
    + apply (sleeping_slot dq w). simpl. rewrite (slot_of_set _ _ _ _ _ Hv). by case_decide.
    + intros x. by apply (sleeping_set x dq v w).
Qed.

(** ** Programs *)

Lemma valid_static d d' dq : dev_static d' = dev_static d → valid_queue d dq → valid_queue d' dq.
Proof.
  intros [= _ _ _ _ _ _ _ Hl Hi]. unfold valid_queue. destruct dq as [i| |]; simpl; [| |done].
  - rewrite !lookup_lt_is_Some. lia.
  - intros Hs. rewrite (bool_decide_true _ Hs) in Hi. by apply bool_decide_eq_true in Hi.
Qed.

(** A bound on the objects with references, if the program only releases. *)
Definition put_upto (b : option nat) : Prop := match b with Some N => put_spec N | None => ∀ N, put_spec N end.

Definition below (b : option nat) s : Prop := match b with Some N => live s ≤ Z.of_nat N | None => True end.

Lemma put_upto_below b s : put_upto b → below b s → ∃ N, put_spec N ∧ live s ≤ Z.of_nat N.
Proof.
  destruct b as [N|]; simpl; [by exists N|]. intros Hp _. exists (Z.to_nat (live s)). split; [done|].
  pose proof (live_nonneg s). lia.
Qed.

Record ran (rk : nat) (g : bool) (L B : gset Z) (F : list Z) s s' : Prop := {
  rn_ev : evolves L B F s s';
  rn_slots : g = false → slots_same s s';
  rn_ingress : (nd_ingress (ns_dev s'), ns_leaked s') = (nd_ingress (ns_dev s), ns_leaked s);
  rn_live : rk = 0%nat → live s' ≤ live s ∧ ∀ x, ns_heap s !! x = None → ns_heap s' !! x = None;
}.

Lemma ran_trans rk g L B F s1 s2 s3 : ran rk g L B F s1 s2 → ran rk g L B F s2 s3 → ran rk g L B F s1 s3.
Proof.
  intros [E1 S1 N1 L1] [E2 S2 N2 L2]. split; [by eapply evolves_trans| |congruence|].
  - intros Hg. destruct (S1 Hg), (S2 Hg). split; congruence.
  - intros Hr. destruct (L1 Hr), (L2 Hr). split; [lia|auto].
Qed.

Lemma ran_quiet rk g L B F s s' : quiet L B F s s' → ran rk g L B F s s'.
Proof. intros [E S Li N]. split; [done|done|by destruct S|done]. Qed.

(** The state in which a program with [H], [U] and [G] may run, with the
    references [HF] and [UF] of its callers. *)
Record ready (V : queue → Prop) (g : bool) (b : option nat) (r : bool) (L B : gset Z) (H U G T HF UF : list Z) s : Prop := {
  rd_inv : inv r L B (H ++ HF) (U ++ UF) s;
  rd_U x : x ∈ U → x ∈ H ++ G;
  rd_G x : x ∈ G → x ∈ sleeping (ns_dev s);
  rd_UF x : x ∈ UF → x ∈ HF ∨ (g = false ∧ x ∈ sleeping (ns_dev s)) ∨ x ∈ B;
  rd_V dq : V dq ↔ valid_queue (ns_dev s) dq;
  rd_L : g = true → ∀ x, x ∈ sleeping (ns_dev s) → x ∈ L → x = noop_qdisc;
  rd_below : below b s;
  rd_T x : x ∈ T → x ∈ H ∧ ∃ q, ns_heap s !! x = Some q ∧ limitable (q_ops q) = true;
}.

Arguments rd_inv {V g b r L B H U G T HF UF s} _.
Arguments rd_U {V g b r L B H U G T HF UF s} _.
Arguments rd_G {V g b r L B H U G T HF UF s} _.
Arguments rd_UF {V g b r L B H U G T HF UF s} _.
Arguments rd_V {V g b r L B H U G T HF UF s} _.
Arguments rd_L {V g b r L B H U G T HF UF s} _.
Arguments rd_below {V g b r L B H U G T HF UF s} _.
Arguments rd_T {V g b r L B H U G T HF UF s} _.

Lemma ready_backed V g b r L B H U G T HF UF s H' U' : ready V g b r L B H U G T HF UF s →
  (∀ x, x ∈ U' → x ∈ H' ++ G) → backed B (U' ++ UF) (H' ++ HF) s.
Proof.
  intros R HU x. rewrite elem_of_app. intros [Hx|Hx].
  - apply HU in Hx. rewrite elem_of_app in *. destruct Hx; [auto|]. right. left. by apply (rd_G R).
  - destruct (rd_UF R x Hx) as [|[[_ ?]|]]; [left; apply elem_of_app| |]; auto.
Qed.

(** After a step that leaves the slots alone. *)
Lemma ready_step V g b r L B H U G T HF UF s H' U' T' F s' rk : ready V g b r L B H U G T HF UF s →
  inv r L B (H' ++ HF) (U' ++ UF) s' → (∀ x, x ∈ U' → x ∈ H' ++ G) →
  evolves L B F s s' → slots_same s s' → (b = None ∨ rk = 0%nat) → (rk = 0%nat → live s' ≤ live s) →
  (∀ x, x ∈ T' → x ∈ H' ∧ ((x ∈ T ∧ x ∈ F) ∨ ∃ q, ns_heap s' !! x = Some q ∧ limitable (q_ops q) = true)) →
  ready V g b r L B H' U' G T' HF UF s'.
Proof.
  intros [I HU HG HUF HV HL Hb HT] I' HU' Hev Hs Hbr Hli HT'. split; rewrite ?(slots_sleeping _ _ Hs); try done.
  - intros dq. rewrite HV. pose proof (ev_dev _ _ _ _ _ Hev). split; by apply valid_static.
  - destruct b as [N|]; [|done]. destruct Hbr; [done|]. simpl in *. specialize (Hli H0). lia.
  - intros x Hx. destruct (HT' x Hx) as [HxH [[HxT HxF]|]]; [|done]. split; [done|]. destruct (HT x HxT) as (_ & q & Hq & Hl).
    destruct (ev_same _ _ _ _ _ Hev x q Hq) as (q' & Hq' & (E & _)); [auto|]. exists q'. by rewrite E.
Qed.

Lemma inv_sub r L B H H' U U' HF UF s : inv r L B (H ++ HF) (U ++ UF) s → H ≡ₚ H' → U' ⊆+ U → inv r L B (H' ++ HF) (U' ++ UF) s.
Proof.
  intros I HH HU. eapply inv_weaken; [exact I| |by apply submseteq_app]. intros x _. rewrite !occ_app. by rewrite HH.
Qed.

(** The end of a program. *)
Definition ends_with (Q : ans P → list Z → list Z → Prop) rk g r L B HF UF s (an : ans P) s' : Prop :=
  ∃ H' U', Q an H' U' ∧ inv r L B (H' ++ HF) (U' ++ UF) s' ∧ ran rk g L B HF s s'.

(** A call, and the rest of the program. *)
Lemma run_cont {A} p (call : nat → M st A) (c : A → prog kind P) (T : A → st → Prop) Q rk g r L B HF UF s :
  (∀ n, run (Datatypes.S n) p = cbind (call n) (λ x, run (Datatypes.S n) (c x))) →
  settles call s (λ x s1, ran rk g L B HF s s1 ∧ T x s1) →
  (∀ x s1, T x s1 → settles (λ n, run n (c x)) s1 (ends_with Q rk g r L B HF UF s1)) →
  settles (λ n, run n p) s (ends_with Q rk g r L B HF UF s).
Proof.
  intros Hp Hcall Hc. eapply (settles_S _ (λ n, cbind (call n) (λ x, run (Datatypes.S n) (c x)))); [intros n; by rewrite Hp|].
  eapply settles_bind; [exact Hcall|]. intros x s1 [R1 HT]. eapply settles_mono; [apply (settles_pred (λ n, run n (c x))), Hc, HT|].
  intros an s2 (H2 & U2 & HQ & I2 & R2). exists H2, U2. split_and!; [done..|]. by eapply ran_trans.
Qed.

(** The calls of a program, each from the state that the discipline asks for. *)
Section calls.
Context (b : option nat) (V : queue → Prop) (rk : nat) (g r : bool) (L B : gset Z) (HF UF : list Z).
Hypotheses (Hput : put_upto b) (Hcreate : ∀ k, (rank k < rk)%nat → create_spec k) (Hb : b = None ∨ rk = 0%nat).
Implicit Types H U G T : list Z.

Abbreviation rdy g H U G T s := (ready V g b r L B H U G T HF UF s).

Lemma evolves_frame H s s' : evolves L B (H ++ HF) s s' → evolves L B HF s s'.
Proof. apply evolves_mono. intros x Hx. apply elem_of_app. auto. Qed.

Lemma call_create H U G T dq k par s : rdy g H U G T s → V dq → (rank k < rk)%nat → par ≠ TC_H_ROOT →
  settles (λ n, qdisc_create_dflt (run n) n (Some dq) k par) s (λ o s1, ran rk g L B HF s s1 ∧
    match o with
    | None => rdy g H U G T s1
    | Some a => a ∉ L ∧ a ≠ noop_qdisc ∧ rdy g (a :: H) (a :: U) G (if limitable k then a :: T else T) s1
    end).
Proof.
  intros R HV Hk Hpar. pose proof (rd_inv R) as I. eapply settles_mono.
  { apply (Hcreate k Hk r L B _ _ s dq par I); [by apply (rd_V R)|done|]. eapply ready_backed; [exact R|apply (rd_U R)]. }
  intros o s1 (Hev & Hsl & Ho). split; [split; [by eapply evolves_frame|done|by destruct Hsl|intros; lia]|].
  assert (∀ x, x ∈ T → x ∈ H ∧ x ∈ T ∧ x ∈ H ++ HF) as HT by (intros x Hx; destruct (rd_T R x Hx); rewrite elem_of_app; auto).
  destruct o as [a|].
  - destruct Ho as (I1 & HaL & Hn & q & Hq & Ek). split_and!; [done..|].
    eapply (ready_step _ _ _ _ _ _ _ _ _ _ _ _ _ (a :: H) (a :: U) _ (H ++ HF) s1 rk R I1); [|exact Hev|exact Hsl|done|lia|].
    + intros x. rewrite elem_of_cons. intros [->|Hx]; [by left|]. right. by apply (rd_U R).
    + intros x Hx. destruct (limitable k) eqn:El; [apply elem_of_cons in Hx as [->|Hx]|].
      * split; [by left|]. right. exists q. by rewrite Ek.
      * destruct (HT x Hx) as (? & ?). split; [by right|auto].
      * destruct (HT x Hx) as (? & ?). split; [by right|auto].
  - apply (ready_step _ _ _ _ _ _ _ _ _ _ _ _ _ H U T _ s1 rk R Ho (rd_U R) Hev Hsl Hb); [lia|]. intros x Hx. destruct (HT x Hx). auto.
Qed.

Lemma call_put H H' U U' G T T' a s : rdy g H U G T s → H ≡ₚ a :: H' → U' ⊆+ U → (∀ x, x ∈ U' → x ∈ H' ++ G) →
  (∀ x, x ∈ T' → x ∈ T ∧ x ∈ H') → (a ∈ L → a = noop_qdisc) →
  settles (λ n, qdisc_put (run n) n a) s (λ _ s1, ran rk g L B HF s s1 ∧ rdy g H' U' G T' s1).
Proof.
  intros R HH HU HUG HT HaL. destruct (put_upto_below b s Hput (rd_below R)) as (N & HN & Hlive).
  eapply settles_mono; [apply (HN r L B (H' ++ HF) (U' ++ UF) s a); [|done| |done]|].
  - eapply (inv_sub _ _ _ _ (a :: H')); [exact (rd_inv R)|done|done].
  - by eapply ready_backed.
  - intros [] s1 (I1 & Hev & Hsl & Hli & Hno & _). split; [split; [by eapply evolves_frame|done|by destruct Hsl|done]|].
    apply (ready_step _ _ _ _ _ _ _ _ _ _ _ _ _ H' U' T' _ s1 rk R I1 HUG Hev Hsl Hb); [done|].
    intros x Hx. destruct (HT x Hx). rewrite elem_of_app. auto.
Qed.

Lemma call_put_noop H U G T s : rdy g H U G T s →
  settles (λ n, qdisc_put (run n) n noop_qdisc) s (λ _ s1, ran rk g L B HF s s1 ∧ rdy g H U G T s1).
Proof.
  intros R. apply (call_put (noop_qdisc :: H) H U U G T T); [|done|done|apply (rd_U R)| |done].
  - destruct R as [I HU HG HUF HV HL Hbl HT]. split; [by apply inv_noop_held| |done..|].
    + intros x Hx. right. by apply HU.
    + intros x Hx. destruct (HT x Hx). split; [by right|done].
  - intros x Hx. split; [done|by apply (rd_T R)].
Qed.

(** A call that leaves the references alone. *)
Lemma call_quiet {A} (R0 : A → Prop) (m : M st A) H U U' G T s : rdy g H U G T s → (∀ x, x ∈ U' → x ∈ U) →
  settles (λ _, m) s (λ x s1, (inv r L B (H ++ HF) (U' ++ UF) s1 ∧ quiet L B (H ++ HF) s s1) ∧ R0 x) →
  settles (λ _, m) s (λ x s1, ran rk g L B HF s s1 ∧ R0 x ∧ rdy g H U' G T s1).
Proof.
  intros R HU Hm. eapply settles_mono; [exact Hm|]. intros x s1 ((I1 & [Hev Hsl Hli Hno]) & H0).
  split_and!; [split; [by eapply evolves_frame|done|by destruct Hsl|done]|done|].
  apply (ready_step _ _ _ _ _ _ _ _ _ _ _ _ _ H U' T (H ++ HF) s1 rk R I1); [|exact Hev|done..|].
  - intros y Hy. by apply (rd_U R), HU.
  - intros y Hy. destruct (rd_T R y Hy). rewrite elem_of_app. auto.
Qed.

Lemma call_graft H H' U U' G T T' i a s : rdy true H U G T s → V (TxQueue i) → H ≡ₚ a :: H' → U' ⊆+ U → (∀ x, x ∈ U' → x ∈ H' ++ [a]) →
  (∀ x, x ∈ T' → x ∈ T ∧ x ∈ H') → (a ∈ L → a = noop_qdisc) →
  settles (λ _, dev_graft_qdisc (TxQueue i) a) s (λ old s1, ran rk true L B HF s s1 ∧
    (old ∈ L → old = noop_qdisc) ∧ rdy true (old :: H') U' [a] T' s1).
Proof.
  intros R HV HH HU HUG HT HaL. eapply settles_mono; [eapply (dev_graft_ok r L B (H ++ HF) (H' ++ HF) (U' ++ UF) s (TxQueue i) a HF)|].
  - eapply (inv_sub _ _ _ H H); [exact (rd_inv R)|done|done].
  - by rewrite HH.
  - by apply (rd_V R).
  - intros old s1 (I1 & Hev & Eh & Hold & Has & Hsub & El & Ed). split.
    { split; [done|done|by rewrite Ed, El|]. intros _. unfold live. by rewrite Eh. }
    split; [by apply (rd_L R)|]. split; [exact I1| | | | | | |].
    + intros x Hx. specialize (HUG x Hx). rewrite elem_of_app in *. rewrite elem_of_cons. tauto.
    + by intros x ->%list_elem_of_singleton.
    + intros x Hx. destruct (rd_UF R x Hx) as [|[[? _]|]]; [auto|done|auto].
    + intros dq'. rewrite (rd_V R). pose proof (ev_dev _ _ _ _ _ Hev). split; by apply valid_static.
    + intros _ x Hx HxL. destruct (Hsub x Hx) as [->|Hs]; [by apply HaL|by apply (rd_L R)].
    + pose proof (rd_below R) as Hbl. destruct b; [|done]. simpl in *. unfold live in *. by rewrite Eh.
    + intros x Hx. destruct (HT x Hx) as [Hx1 Hx2], (rd_T R x Hx1) as (_ & q & Hq). split; [by right|]. exists q. by rewrite Eh.
Qed.

End calls.

Lemma prog_run_ok b V rk g L H U G T p Q :
  owns rank V rk g L H U G T p Q → put_upto b → (∀ k, (rank k < rk)%nat → create_spec k) → (b = None ∨ rk = 0%nat) →
  ∀ r B HF UF s, ready V g b r L B H U G T HF UF s → settles (λ n, run n p) s (ends_with Q rk g r L B HF UF s).
Proof.
  intros Ho Hput Hcreate Hb. induction Ho as [H U G T an Q HQ | H U G T dq k par c Q HV Hk Hpar _ IHn _ IHs
    | H H' U U' G T T' a c Q HH HU HUG HT HaL _ IH | H U G T c Q _ IH | H U U' G T a i c Q HU _ IH | H U G T a n c Q Ha HaT _ IH
    | H U G T a c Q Ha _ IH | H H' U U' G T T' dq a c Q -> HV [i ->] HH HU HUG HT HaL _ IH | H U G T c Q _ IH];
    intros r0 B HF UF s R; pose proof (rd_inv R) as I.
  - eapply (settles_S _ (λ _, cret an)); [done|]. apply settles_ret. exists H, U. split_and!; [done..|]. by apply ran_quiet, quiet_calms.
  - eapply (run_cont _ _ c); [done|by apply (call_create b V rk g r0 L B HF UF Hcreate Hb H U G T)|].
    intros [a|] s1 HT; [|by apply IHn]. destruct HT as (HaL & Hn & R1). by apply IHs.
  - eapply (run_cont _ _ (λ _, c)); [done|by apply (call_put b V rk g r0 L B HF UF Hput Hb H H' U U' G T T')|intros ? s1; apply IH].
  - eapply (run_cont _ _ (λ _, c)); [done|by apply (call_put_noop b V rk g r0 L B HF UF Hput Hb H U G T)|intros ? s1; apply IH].
  - eapply (run_cont _ (λ _, qdisc_hash_add a i) (λ _, c)); [done|apply (call_quiet b V rk g r0 L B HF UF Hb (λ _, True) _ H U U' G T)|intros ? s1 [_ R1]; by apply IH]; [done|intros x Hx; rewrite HU; by right|].
    eapply settles_mono; [|intros ? s1 HQ; split; [exact HQ|done]]. apply hash_add_ok. eapply (inv_sub _ _ _ H H U (a :: U')); [exact I|done|by rewrite HU].
  - eapply (run_cont _ (λ _, fifo_set_limit a n) c); [done|apply (call_quiet b V rk g r0 L B HF UF Hb (λ err, err ≠ - EAGAIN) _ H U U G T)|intros e s1 [He R1]; by apply IH]; [done..|]. apply set_limit_ok; [done|apply elem_of_app; auto|by apply (rd_T R)].
  - eapply (run_cont _ (λ _, upd_q a (map_flags set_onetxqueue_noparent)) (λ _, c)); [done|apply (call_quiet b V rk g r0 L B HF UF Hb (λ _, True) _ H U U G T)|intros ? s1 [_ R1]; by apply IH]; [done..|].
    eapply settles_mono; [|intros ? s1 HQ; split; [exact HQ|done]]. apply tx_flags_ok; [done|apply elem_of_app; auto].
  - eapply (run_cont _ (λ _, dev_graft_qdisc (TxQueue i) a) c); [done|by apply (call_graft b V rk r0 L B HF UF Hput Hb H H' U U' G T T')|].
    intros old s1 [HoL R1]. by apply IH.
  - eapply (run_cont _ (λ _, ask alloc_ok) c); [done|apply (call_quiet b V rk g r0 L B HF UF Hb (λ _, True) _ H U U G T)|intros x s1 [_ R1]; by apply IH]; [done..|]. eapply settles_done; [done|].
    assert (calms s (tick s)) as Hc by by apply calms_eq. split_and!; [by eapply inv_calms|by apply quiet_calms|done].
Qed.

(** ** Release *)

(** The children of an object that is being released can be reset. *)
Lemma dying_resettable r L B H U s a c : inv r L ({[a]} ∪ B) H U s → c ∈ H → (c ∈ L → c = noop_qdisc) → resettable L ({[a]} ∪ B) c.
Proof.
  intros I Hc HL. destruct (decide (c = noop_qdisc)) as [->|Hn]; [by left|]. right. right. split; [tauto|].
  intros HcB. destruct (inv_B I c HcB) as (q & Hq & _ & [|H0]); [tauto|]. pose proof (inv_count I c q Hq Hn). apply occ_pos in Hc.
  pose proof (occ_nonneg c (roots r (ns_dev s))). pose proof (occ_nonneg c (ns_leaked s)).
  pose proof (owned_nonneg children ({[a]} ∪ B) (ns_heap s) c). lia.
Qed.

Lemma dying_reset r L B H U s a q : inv r L ({[a]} ∪ B) (children (q_priv q) ++ H) U s → ns_heap s !! a = Some q →
  (∀ c, c ∈ children (q_priv q) → c ∈ L → c = noop_qdisc) → settles (λ n, ops_reset n a) s (λ _ s', calms s s').
Proof.
  intros I Ha HL. eapply reset_body; [exact I|by rewrite Ha|done|]. intros q' c s1 Hq' Hc Hc1. simplify_eq.
  assert (is_Some (ns_heap s !! c)) as Hsc by (apply (inv_held I); rewrite !elem_of_app; auto). split; [done|].
  eapply settles_mono; [eapply ops_reset_calm|].
  - by eapply inv_calms.
  - eapply dying_resettable; [by eapply inv_calms|apply elem_of_app; by left|by apply HL].
  - by eapply calms_is_Some.
  - intros [] s2 Hc2. by etrans.
Qed.

Lemma hash_del_ok r L B H U s a q F : inv r L B H U s → ns_heap s !! a = Some q →
  settles (λ _, qdisc_hash_del a) s (λ _ s', inv r L B H U s' ∧ quiet L B F s s' ∧ ns_heap s' = ns_heap s ∧ a ∉ nd_hash (ns_dev s')).
Proof.
  intros I Ha. eapply settles_get; [exact Ha|]. destruct (hashable q) eqn:Hh.
  - eapply (settles_done _ _ tt); [done|]. split_and!; [by eapply inv_hash_del|by apply quiet_heap|done|].
    simpl. rewrite list_elem_of_filter. tauto.
  - apply settles_ret. split_and!; [done|by apply quiet_calms|done|]. intros Hin.
    destruct (inv_hash I a Hin) as (q' & Hq' & Hh' & _). congruence.
Qed.

(** The reading of [self_of]. *)
Lemma self_of_ok {A} a q (g : nat → self kind → M st A) s R : ns_heap s !! a = Some q →
  (∀ me, sf_addr me = a → sf_handle me = q_handle q → sf_parent me = q_parent q → sf_queue me = q_queue q →
    sf_multiqueue me = nd_multiqueue (ns_dev s) → sf_num_tx me = num_tx s → settles (λ n, g n me) s R) →
  settles (λ n, cbind (self_of a) (g n)) s R.
Proof.
  intros Ha Hg. unfold self_of. apply settles_assoc. eapply settles_get; [exact Ha|]. apply settles_gets. by apply Hg.
Qed.

Lemma sees_valid r L B H U s (me : self kind) : inv r L B H U s → valid_queue (ns_dev s) (sf_queue me) → sf_num_tx me = num_tx s →
  sees (valid_queue (ns_dev s)) me.
Proof.
  intros I Hq Hn. split_and!; [done| |rewrite Hn; apply (inv_tx I)|rewrite Hn; apply (inv_tx I)].
  intros i Hi. unfold valid_queue. simpl. apply lookup_lt_is_Some. rewrite Hn in Hi. done.
Qed.

(** An operation of the object at [a], as seen by the caller. *)
Lemma evolves_unbusy L B F s s' s'' a : a ∉ L → evolves L ({[a]} ∪ B) F s s' → evolves L B F s' s'' →
  (∀ q, ns_heap s'' !! a = Some q → op_attach (ops (q_ops q)) = None ∧ unhashed (q_priv q) = []) → evolves L B F s s''.
Proof.
  intros HL [E1 E2 E3 E4] [F1 F2 F3 F4] Ha. split; [| | |congruence].
  - intros x q Hx Hin. destruct (E1 x q Hx) as (q' & Hq' & Hs); [rewrite elem_of_busy; tauto|].
    destruct (F1 x q' Hq' Hin) as (q'' & Hq'' & Hs'). exists q''. split; [done|]. by eapply same_trans.
  - intros x q q'' Hx Hx'' HxL. destruct (E1 x q Hx) as (q' & Hq' & _); [auto|].
    destruct (E2 x q q' Hx Hq' HxL) as [H1 H2], (F2 x q' q'' Hq' Hx'' HxL) as [H3 H4]. split; [congruence|]. intros HB.
    rewrite H4, H2; [done| |done]. rewrite elem_of_busy. intros [->|]; tauto.
  - intros x q'' Hx HB. destruct (decide (x = a)) as [->|Hxa]; [right; by apply Ha|].
    destruct (F3 x q'' Hx HB) as [(q' & Hq' & Hs' & Hu')|]; [|by right].
    destruct (E3 x q' Hq') as [(q & Hq & Hs & Hu)|[Ho Hu]]; [rewrite elem_of_busy; tauto|left|right].
    + exists q. split_and!; [done|by eapply same_trans|auto].
    + assert (q_ops q'' = q_ops q') as -> by apply Hs'. auto.
Qed.

Lemma quiet_unbusy L B F s s' s'' a : a ∉ L → quiet L ({[a]} ∪ B) F s s' → quiet L B F s' s'' → ns_heap s'' !! a = None → quiet L B F s s''.
Proof.
  intros HL [E1 [S1 T1] L1 N1] [E2 [S2 T2] L2 N2] Ha. split; [|split; congruence|lia|auto].
  eapply evolves_unbusy; [exact HL|done..|]. intros q Hq. congruence.
Qed.

(** [free_skbs], [module_put], [dev_put] and the end of the memory. *)
Lemma release_ok r L B H U s a q m F : inv r L ({[a]} ∪ B) H U s → ns_heap s !! a = Some q → q_refcnt q = 0 →
  a ∉ B → a ∉ L → a ∉ U → a ∉ F → a ∉ nd_hash (ns_dev s) →
  settles (λ _, module_put m ;;; dev_put ;;; free_skbs a ;;; modify (λ s, with_heap (delete a (ns_heap s)) s)) s
    (λ _ s', inv r L B H U s' ∧ quiet L B F s s' ∧ ns_heap s' !! a = None).
Proof.
  intros I Ha Hr HB HL HU HF Hh. do 2 apply settles_modify. match goal with |- settles _ ?s1 _ => set (s1' := s1) end.
  assert (calms s s1') as Hc1 by by apply calms_eq.
  eapply settles_bind; [apply free_skbs_calm; by exists q|]. intros [] s2 Hc2.
  assert (calms s s2) as Hc by by etrans. destruct (calms_lookup _ _ _ _ Hc Ha) as (q2 & Ha2 & Hq2).
  assert (inv r L ({[a]} ∪ B) H U s2) as I2 by by eapply inv_calms.
  eapply (settles_done _ _ tt); [done|]. set (s3 := with_heap (delete a (ns_heap s2)) s2).
  assert (q_refcnt q2 = 0) as Hr2 by (destruct Hq2 as (_ & _ & _ & _ & _ & _ & -> & _); done).
  assert (a ∉ nd_hash (ns_dev s2)) as Hh2 by (pose proof (cs_dev _ _ Hc) as Hd; injection Hd as _ _ _ _ _ _ _ _ _ ->; done).
  assert (inv r L B H U s3) as I3 by (by eapply (inv_delete _ _ _ _ _ s2 s3 a q2)).
  assert (∀ x, x ≠ a → ns_heap s3 !! x = ns_heap s2 !! x) as Hl by (intros; simpl; by rewrite lookup_delete_ne).
  split_and!; [done| |simpl; apply lookup_delete_eq].
  eapply quiet_trans; [by apply quiet_calms|]. split; [split| | |].
  - intros x v Hx Hin. exists v. rewrite Hl; [done|]. intros ->. tauto.
  - intros x v v' Hx Hx' HxL. rewrite Hl in Hx' by (intros ->; tauto). by simplify_eq.
  - intros x v Hx _. left. exists v. split; [|done]. destruct (decide (x = a)) as [->|]; [|by rewrite Hl in Hx].
    simpl in Hx. by rewrite lookup_delete_eq in Hx.
  - done.
  - done.
  - unfold live. simpl. rewrite (hsum_delete _ (ns_heap s2) a q2 Ha2). case_match; lia.
  - intros x Hx. simpl. destruct (decide (x = a)) as [->|]; [apply lookup_delete_eq|by rewrite lookup_delete_ne].
Qed.

(** [ops->destroy]: the references of the object are given back. *)
Lemma ops_destroy_ok N r L B H U s q me : put_spec N → inv r L B (children (q_priv q) ++ H) U s →
  fits (q_ops q) (q_priv q) → (∀ c, c ∈ children (q_priv q) → c ∈ L → c = noop_qdisc) → backed B U H s → live s ≤ Z.of_nat N →
  settles (λ n, match op_destroy (ops (q_ops q)) with
                | Some f => let* _ := run n (f me (q_priv q)) in cret tt
                | None => cret tt
                end) s (λ _ s', inv r L B H U s' ∧ quiet L B H s s').
Proof.
  intros Hput I Hfit Hch Hbk Hlive. destruct (op_destroy (ops (q_ops q))) as [f|] eqn:Ef.
  - eapply settles_bind.
    { eapply (prog_run_ok (Some N) (valid_queue (ns_dev s)) 0 false L (children (q_priv q)) [] [] [] _ (λ _ H _, H = [])).
      - by apply (ok_destroy (q_ops q)).
      - done.
      - intros k Hk. lia.
      - by right.
      - split; [exact I|by intros ? ?%elem_of_nil..| |done|done|done|by intros ? ?%elem_of_nil]. intros x Hx. destruct (Hbk x Hx) as [|[|]]; auto. }
    intros an s5 (H5 & U5 & -> & I5 & [Hev Hsl _ Hli]). destruct (Hli eq_refl) as [Hli' Hno].
    apply settles_ret. split; [eapply inv_weaken; [exact I5|done|by apply submseteq_inserts_l]|]. split; auto.
  - apply settles_ret. split; [|by apply quiet_calms]. by rewrite (ok_no_destroy _ _ Ef Hfit) in I.
Qed.

Lemma destroy_ok N r L B H U s a q : put_spec N →
  inv r L ({[a]} ∪ B) (children (q_priv q) ++ H) U s → ns_heap s !! a = Some q → q_refcnt q = 0 →
  a ∉ B → a ∉ L → a ∉ U → (∀ c, c ∈ children (q_priv q) → c ∈ L → c = noop_qdisc) → backed B U H s → live s ≤ Z.of_nat N →
  settles (λ n, qdisc_destroy (run n) n a) s (λ _ s', inv r L B H U s' ∧ quiet L B H s s' ∧ ns_heap s' !! a = None).
Proof.
  intros Hput I Ha Hr HB HL HU Hch Hbk Hlive. assert (a ∈ {[a]} ∪ B) as HaB by set_solver.
  destruct (inv_B I a HaB) as (w & Hw & Hn & _).
  assert (a ∉ H) as HaH.
  { pose proof (inv_count I a q Ha Hn) as Hc. rewrite occ_app in Hc. pose proof (occ_nonneg a (roots r (ns_dev s))). pose proof (occ_nonneg a H).
    pose proof (occ_nonneg a (children (q_priv q))). pose proof (occ_nonneg a (ns_leaked s)).
    pose proof (owned_nonneg children ({[a]} ∪ B) (ns_heap s) a). rewrite occ_zero. lia. }
  eapply settles_get; [exact Ha|].
  eapply settles_bind; [by apply (hash_del_ok _ _ _ _ _ _ _ _ H I Ha)|]. intros [] s1 (I1 & Q1 & E1 & Hh1).
  apply settles_modify. match goal with |- settles _ ?s1 _ => set (s2 := s1) end.
  eapply settles_upd; [simpl; rewrite E1; exact Ha|]. match goal with |- settles _ ?s1 _ => set (s3 := s1) end.
  assert (calms s1 s3) as Hc3 by (eapply (calms_upd _ _ a q (set_rate_est false q)); [by rewrite E1|done..]).
  eapply settles_bind.
  { eapply (dying_reset _ _ _ _ _ _ _ (set_rate_est false q)); [by eapply inv_calms|apply lookup_insert_eq|done]. }
  intros [] s4 Hc4. assert (calms s1 s4) as Hc by by etrans. clear Hc3 Hc4.
  destruct (calms_lookup s1 s4 a q Hc) as (q4 & Ha4 & Hq4); [by rewrite E1|]. pose proof (inv_calms _ _ _ _ _ _ _ I1 Hc) as I4.
  assert (quiet L ({[a]} ∪ B) H s s4) as Q4 by (eapply quiet_trans; [exact Q1|by apply quiet_calms]).
  destruct Hq4 as (_ & _ & _ & _ & _ & _ & Er4 & Ec4 & _). destruct (inv_fits I4 a q4 Ha4) as [Hfit _].
  assert (nd_hash (ns_dev s4) = nd_hash (ns_dev s1)) as Eh4 by (pose proof (cs_dev _ _ Hc) as Hd; by injection Hd).
  eapply settles_get; [exact Ha4|]. eapply self_of_ok; [exact Ha4|]. intros me _ _ _ _ _ _.
  eapply settles_bind.
  - eapply (ops_destroy_ok N r L ({[a]} ∪ B) H (a :: U) s4 q4 me Hput).
    + rewrite Ec4. eapply inv_addU; [exact I4|done|done|congruence|congruence|done].
    + done.
    + by rewrite Ec4.
    + intros x [->|Hx]%elem_of_cons; [auto|]. rewrite (slots_sleeping _ _ (qt_slots _ _ _ _ _ Q4)).
      destruct (Hbk x Hx) as [|[|]]; [auto..|]. right. right. apply elem_of_busy. auto.
    + pose proof (qt_live _ _ _ _ _ Q4). lia.
  - intros [] s5 [I5 Q5]. assert (quiet L ({[a]} ∪ B) H s s5) as Q05 by by eapply quiet_trans.
    destruct (ev_same _ _ _ _ _ (qt_ev _ _ _ _ _ Q05) a q Ha) as (q5 & Ha5 & _); [auto|].
    assert (q_refcnt q5 = 0) as Hr5.
    { destruct (inv_B I5 a HaB) as (v & Hv & _ & [|]); [done|congruence]. }
    assert (a ∉ nd_hash (ns_dev s5)) as Hh5.
    { apply occ_zero. pose proof (inv_once I5 a) as Ho. simpl in Ho. rewrite Z.eqb_refl in Ho.
      pose proof (occ_nonneg a (nd_hash (ns_dev s5))). pose proof (occ_nonneg a U).
      pose proof (owned_nonneg unhashed ({[a]} ∪ B) (ns_heap s5) a). lia. }
    assert (inv r L ({[a]} ∪ B) H U s5) as I5' by (eapply inv_weaken; [exact I5|done|by apply submseteq_cons]).
    eapply settles_mono; [by apply (release_ok _ _ _ _ _ _ _ _ _ H I5' Ha5 Hr5)|].
    intros [] s6 (I6 & Q6 & Ha6). split_and!; [done|by eapply quiet_unbusy|done].
Qed.

(** A reference is given back. *)
Lemma quiet_unref L B F s a q : ns_heap s !! a = Some q → 1 ≤ q_refcnt q → a ∉ L →
  quiet L B F s (with_heap (<[a := set_refcnt (q_refcnt q - 1) q]> (ns_heap s)) s).
Proof.
  intros Ha Hpos HL. split; [split| | |]; simpl; [| | |done|done| |].
  - intros x v Hx _. destruct (decide (x = a)) as [->|]; [|by exists v; rewrite lookup_insert_ne].
    rewrite lookup_insert_eq. simplify_eq. by eexists.
  - intros x v v' Hx Hx' HxL. rewrite lookup_insert_ne in Hx' by (intros ->; done). by simplify_eq.
  - intros x v Hx _. left. destruct (lookup_update _ _ _ _ _ _ Ha Hx) as [[-> ->]|[_ Hx']]; [by exists q|by exists v].
  - unfold live. simpl. rewrite (hsum_update _ _ _ _ _ Ha). simpl.
    destruct (Z.ltb_spec 0 (q_refcnt q)), (Z.ltb_spec 0 (q_refcnt q - 1)); lia.
  - intros x Hx. rewrite lookup_insert_ne; [done|]. intros ->. congruence.
Qed.

(** [qdisc_put] ends, whatever it has to release. *)
Lemma put_ok N : put_spec N.
Proof.
  induction N as [N IH] using lt_wf_ind. intros r L B H U s a I HaL Hbk Hlive.
  destruct (inv_held I a) as [q Ha]; [rewrite !elem_of_app; right; left; by left|].
  eapply settles_get; [exact Ha|]. rewrite (inv_builtin I a q Ha). case_bool_decide as Hn.
  { subst a. apply settles_ret. split_and!; [by apply inv_noop_held|by apply evolves_calms|done|lia|done|done]. }
  assert (1 ≤ q_refcnt q) as Hpos.
  { rewrite (inv_count I a q Ha Hn). simpl. rewrite Z.eqb_refl. pose proof (occ_nonneg a (roots r (ns_dev s))). pose proof (occ_nonneg a H).
    pose proof (occ_nonneg a (ns_leaked s)). pose proof (owned_nonneg children B (ns_heap s) a). lia. }
  assert (a ∉ B) as HB.
  { intros HaB. destruct (inv_B I a HaB) as (v & Hv & _ & [HL|]); [by apply Hn, HaL|]. simplify_eq. lia. }
  rewrite dec_and_test_ok by lia. eapply settles_upd; [exact Ha|]. set (s1 := with_heap _ s).
  pose proof (quiet_unref L B H s a q Ha Hpos) as Q1. fold s1 in Q1. specialize (Q1 (λ HL, Hn (HaL HL))).
  destruct (Z.eqb_spec (q_refcnt q - 1) 0) as [Hz|Hz].
  - assert (a ∉ H ∧ a ∉ sleeping (ns_dev s)) as [HaH Has].
    { pose proof (inv_count I a q Ha Hn) as Hc. unfold roots in Hc. rewrite occ_app in Hc. simpl in Hc. rewrite Z.eqb_refl in Hc. rewrite !occ_zero.
      pose proof (occ_nonneg a (if r then [nd_qdisc (ns_dev s)] else [])). pose proof (occ_nonneg a (sleeping (ns_dev s))). pose proof (occ_nonneg a H).
      pose proof (occ_nonneg a (ns_leaked s)). pose proof (owned_nonneg children B (ns_heap s) a). lia. }
    assert (a ∉ U) as HU by (intros Hx; destruct (Hbk a Hx) as [|[|]]; done).
    assert (live s1 = live s - 1) as Hl1.
    { unfold live. simpl. rewrite (hsum_update _ _ _ _ _ Ha). simpl. rewrite Hz. destruct (Z.ltb_spec 0 (q_refcnt q)); [|lia]. simpl. lia. }
    pose proof (live_nonneg s1). assert (put_spec (N - 1)) as IH' by (apply IH; lia).
    eapply settles_mono; [eapply (destroy_ok (N - 1) r L B H U s1 a (set_refcnt (q_refcnt q - 1) q) IH')|].
    + eapply inv_weaken; [by eapply (inv_enter _ _ _ (a :: H) H U s s1 a q 1 I Ha HB Hn); auto|done|by apply submseteq_inserts_l].
    + apply lookup_insert_eq.
    + done.
    + done.
    + intros HL. by apply Hn, HaL.
    + done.
    + intros c Hc HcL. apply (inv_sep I a c); [by exists q| |done]. intros HL. by apply Hn, HaL.
    + done.
    + lia.
    + intros [] s2 (I2 & Q2 & Ha2). destruct (quiet_trans _ _ _ _ _ _ Q1 Q2) as [Hev Hsl Hli Hno]. split_and!; done.
  - apply settles_ret. destruct Q1 as [Hev Hsl Hli Hno]. split_and!; [|done..|by intros v Hv; simplify_eq; lia].
    eapply (inv_refcnt r L B (a :: H) H U s s1 a q (q_refcnt q - 1) I Ha Hn); [|done|intros; lia|done].
    intros x. simpl. rewrite (Z.eqb_sym a x). case_match; lia.
Qed.

(** ** Creation *)

Lemma set_refcnt_id q : set_refcnt (q_refcnt q - Z.of_nat 0) q = q.
Proof. destruct q. unfold set_refcnt. simpl. by rewrite Z.sub_0_r. Qed.

(** An operation starts. *)
Lemma inv_begin r L B H U s a q : inv r L B H U s → ns_heap s !! a = Some q → a ∉ B → a ≠ noop_qdisc → a ∈ L →
  inv r L ({[a]} ∪ B) (children (q_priv q) ++ H) (unhashed (q_priv q) ++ U) s.
Proof.
  intros I Ha HB Hn HL. eapply (inv_enter _ _ _ _ _ _ _ _ _ _ 0 I Ha HB Hn); [done|auto|].
  rewrite set_refcnt_id. split_and!; [|done..]. by rewrite insert_id.
Qed.

(** Nothing points to [a], when nothing did before and [a] was left alone. *)
Lemma no_edge_to r L B H U H' U' s s' F a : inv r L B H U s → inv r L B H' U' s' → evolves L B F s s' → a ∈ L → a ≠ noop_qdisc →
  (∀ x, ¬ edge B (ns_heap s) x a) → ∀ x, ¬ edge B (ns_heap s') x a.
Proof.
  intros I I' Hev HL Hn Hno x He. destruct (decide (x ∈ L)) as [HxL|HxL]; [|by apply Hn, (inv_sep I' x)].
  destruct He as (q' & Hq' & HxB & Hin), (inv_L I x HxL) as [q Hq]. apply (Hno x). exists q. split_and!; [done..|].
  destruct (ev_refcnt _ _ _ _ _ Hev x q q' Hq Hq' HxL) as [_ Hc]. by rewrite <- Hc.
Qed.

(** An object that nothing points to is given references. *)
Lemma inv_finish r L B H U C V s s' a q q' :
  inv r ({[a]} ∪ L) ({[a]} ∪ B) (C ++ H) (V ++ U) s → ns_heap s !! a = Some q → a ∉ B → a ∉ L → a ≠ noop_qdisc → 0 < q_refcnt q →
  (∀ x, ¬ edge ({[a]} ∪ B) (ns_heap s) x a) → (∀ b, b ∈ C → b ∈ {[a]} ∪ L → b = noop_qdisc) →
  same q q' → q_refcnt q' = q_refcnt q → children (q_priv q') ≡ₚ C → unhashed (q_priv q') ⊆+ V → fits (q_ops q') (q_priv q') →
  new_heap s s' (<[a := q']> (ns_heap s)) → inv r L B H U s' ∧ ∀ x, ¬ edge B (ns_heap s') x a.
Proof.
  intros I Ha HB HL Hn Hpos Hno HC Hsame Hr Hch Hun Hfit Hs'.
  assert (a ∉ C) as HaC by (intros HaC; apply Hn, HC; [done|set_solver]).
  assert (inv r ({[a]} ∪ L) B H U s') as I'.
  { eapply (inv_leave _ _ _ _ _ C V s s' a q q' I Ha HB Hn Hpos Hsame Hr Hch Hun Hfit); [|..|done].
    - intros b _ HaL. set_solver.
    - intros b Hb Hre. apply rtc_inv_r in Hre as [->|(z & _ & He)]; [done|]. by apply (Hno z). }
  destruct Hs' as (Eh & _ & _). assert (∀ x, edge B (ns_heap s') x a → False) as Hno'.
  { intros x (v & Hv & HxB & Hin). rewrite Eh in Hv. destruct (lookup_update _ _ _ _ _ _ Ha Hv) as [[-> ->]|[Hne Hv']].
    - rewrite Hch in Hin. done.
    - apply (Hno x). exists v. rewrite elem_of_busy. tauto. }
  split; [|done]. eapply inv_setL; [exact I'|..].
  - intros x y He HxL HyL. destruct (decide (x = a)) as [->|Hne]; [|by apply (inv_sep I' x); set_solver].
    destruct He as (v & Hv & _ & Hin). rewrite Eh, lookup_insert_eq in Hv. simplify_eq. rewrite Hch in Hin. apply HC; [done|set_solver].
  - intros x Hx. apply (inv_L I'). set_solver.
  - set_solver.
Qed.

(** An object that nothing points to, held once. *)
Record newborn (B : gset Z) s a q : Prop := {
  nb_heap : ns_heap s !! a = Some q;
  nb_noop : a ≠ noop_qdisc;
  nb_B : a ∉ B;
  nb_refcnt : q_refcnt q = 1;
  nb_edge x : ¬ edge B (ns_heap s) x a;
}.

(** Whether its children are in the hash table. *)
Definition settled (k : kind) (par : Z) s q : Prop :=
  (op_attach (ops k) = None ∧ unhashed (q_priv q) = []) ∨
  (is_Some (op_attach (ops k)) ∧ par = TC_H_ROOT ∧ nd_multiqueue (ns_dev s) = true ∧ length (children (q_priv q)) = num_tx s).

Lemma edge_sub (a : Z) (B : gset Z) (h : gmap Z qd) x y : edge ({[a]} ∪ B) h x y → edge B h x y.
Proof. intros (q & Hq & HB & Hy). rewrite elem_of_busy in HB. exists q. tauto. Qed.

(** The new object is left alone by its own operation. *)
Lemma inv_born r L B H U s a q : inv r L B H U s → newborn B s a q → inv r ({[a]} ∪ L) B H U s.
Proof.
  intros I [Ha Hn HB _ Hno]. eapply inv_setL; [exact I| | |set_solver].
  - intros x y He Hx [->|Hy]%elem_of_busy; [by destruct (Hno x)|]. apply (inv_sep I x); set_solver.
  - intros x [->|Hx]%elem_of_busy; [by exists q|by apply (inv_L I)].
Qed.

Lemma ops_init_ok r L B H U s a q f o :
  inv r L B (a :: H) (a :: U) s → newborn B s a q → a ∉ L → children (q_priv q) = [] → unhashed (q_priv q) = [] →
  op_init (ops (q_ops q)) = Some f → backed B U H s →
  (∀ rk, (o = None → q_handle q = 0 → q_parent q ≠ TC_H_ROOT → rk = rank (q_ops q)) → ∀ k, (rank k < rk)%nat → create_spec k) →
  settles (λ n, ops_init (run n) a f o) s (λ err s', inv r L B (a :: H) (a :: U) s' ∧ evolves L ({[a]} ∪ B) H s s' ∧ slots_same s s' ∧
    ∃ q', newborn B s' a q' ∧ same q q' ∧ (∀ b, b ∈ children (q_priv q') → b ∈ L → b = noop_qdisc) ∧
      err ≠ - EAGAIN ∧ (err = 0 → settled (q_ops q) (q_parent q) s q')).
Proof.
  intros I Hnb HL Hc0 Hu0 Ef Hbk Hcr. pose proof Hnb as [Ha Hn HB Hr Hno]. pose proof (inv_born _ _ _ _ _ _ _ _ I Hnb) as I1.
  assert (a ∈ {[a]} ∪ L) as HaL by set_solver. pose proof (inv_begin _ _ _ _ _ _ _ _ I1 Ha HB Hn HaL) as I2. rewrite Hc0, Hu0 in I2.
  eapply self_of_ok; [exact Ha|]. intros me _ Hmh Hmp Hmq Hmm Hmn.
  assert (sees (valid_queue (ns_dev s)) me) as Hsees.
  { eapply sees_valid; [exact I2|rewrite Hmq; by apply (inv_queue I a)|done]. }
  destruct (ok_init _ _ me o ({[a]} ∪ L) _ Ef Hsees) as (rk & Hrk & Hown). rewrite Hmh, Hmp in Hrk.
  eapply settles_bind.
  { eapply (prog_run_ok None _ rk false _ [] [] [] [] _ _ Hown); [exact put_ok|by apply Hcr|by left|].
    split; [exact I2|by intros ? ?%elem_of_nil..| |done|done|done|by intros ? ?%elem_of_nil]. intros x. rewrite !elem_of_cons. intros [->|Hx]; [auto|].
    destruct (Hbk x Hx) as [|[|]]; [auto..|]. right. right. apply elem_of_busy. auto. }
  intros an s1 (H1 & U1 & ((Lc & Lu & Lf) & HfreshL & Hag & Hset) & I3 & [Hev Hsl _ _]).
  destruct (ev_same _ _ _ _ _ Hev a q Ha) as (q1 & Ha1 & Hs1); [auto|].
  destruct (ev_refcnt _ _ _ _ _ Hev a q q1 Ha Ha1 HaL) as [Hr1 _].
  eapply settles_upd; [exact Ha1|]. apply settles_ret.
  set (q2 := set_enqueue _ _). set (s2 := with_heap _ s1).
  assert (same q1 q2) as Hs2 by done. assert (q_ops q1 = q_ops q) as Eo by apply Hs1.
  assert (∀ x, ¬ edge ({[a]} ∪ B) (ns_heap s1) x a) as Hno1.
  { eapply no_edge_to; [exact I2|exact I3|exact Hev|done|done|]. intros x He%edge_sub. by apply (Hno x). }
  destruct (inv_finish r L B (a :: H) (a :: U) H1 U1 s1 s2 a q1 q2 I3 Ha1 HB HL Hn) as [I4 Hno4]; [lia|done..|simpl; congruence|done|].
  split_and!; [done| |by apply Hsl|].
  - eapply evolves_trans; [eapply evolves_sub; [| |exact Hev]; [set_solver|by right]|].
    eapply (evolves_busy _ _ _ _ _ a q1 q2); [done|set_solver|done..].
  - exists q2. split_and!; [|by eapply same_trans| | |].
    + split; [apply lookup_insert_eq|done|done|simpl; congruence|done].
    + intros b Hb HbL. simpl in Hb. rewrite Lc in Hb. apply HfreshL; [done|set_solver].
    + done.
    + intros H0. unfold settled. simpl. rewrite <- Hmp, <- Hmm, <- Hmn. by apply Hset.
Qed.

Lemma evolves_new L B F s s' a q : ns_heap s !! a = None → ns_heap s' = <[a := q]> (ns_heap s) →
  dev_static (ns_dev s') = dev_static (ns_dev s) → a ∈ B → evolves L B F s s'.
Proof.
  intros Ha Eh Ed HaB. split; rewrite ?Eh; [| | |done].
  - intros x v Hx _. exists v. rewrite lookup_insert_ne; [done|]. intros ->. congruence.
  - intros x v v' Hx Hx' _. rewrite lookup_insert_ne in Hx' by (intros ->; congruence). by simplify_eq.
  - intros x v Hx HxB. rewrite lookup_insert_ne in Hx by (intros ->; done). left. by exists v.
Qed.

(** The object [qdisc_alloc] makes, once its parent and handle are known. *)
Definition made (k : kind) (dq : queue) q : Prop :=
  q_ops q = k ∧ q_queue q = dq ∧ q_priv q = op_priv0 (ops k) ∧ q_refcnt q = 1 ∧ f_builtin (q_flags q) = false.

Lemma qdisc_alloc_ok r L B H U s dq k : inv r L B H U s → valid_queue (ns_dev s) dq →
  settles (λ _, qdisc_alloc (Some dq) k) s (λ res s', slots_same s s' ∧ dev_static (ns_dev s') = dev_static (ns_dev s) ∧
    match res with
    | inl err => calms s s' ∧ err ≠ - EAGAIN
    | inr a => ns_heap s !! a = None ∧ dev_core (ns_dev s') = dev_core (ns_dev s) ∧ ∃ q, ns_heap s' = <[a := q]> (ns_heap s) ∧ made k dq q ∧ q_handle q = 0 ∧ f_ingress (q_flags q) = false ∧
        inv r L B (a :: H) (a :: U) s'
    end).
Proof.
  intros I Hdq. unfold qdisc_alloc. apply settles_gets, settles_modify.
  destruct (kzalloc (ns_clock s) (dom (ns_heap s))) as [a|] eqn:Ek; [|apply settles_ret; split_and!; [done..|by apply calms_eq|done]].
  apply kzalloc_fresh, not_elem_of_dom in Ek.
  eapply (settles_bind _ _ _ (λ _ s1, ns_heap s1 = ns_heap s ∧ ns_dev s1 = ns_dev s ∧ ns_leaked s1 = ns_leaked s)).
  { case_match; [|by apply settles_ret]. do 2 apply settles_ask. by apply settles_ret. }
  intros stats s1 (E1 & E2 & E3). destruct stats; simpl.
  - apply settles_modify, settles_modify, settles_ret. destruct (ok_priv0 k) as (Hc & Hu & Hf). simpl. unfold slots_same. simpl. rewrite E2, E1, E3.
    set (q0 := Sqdisc k _ _ _ _ _ _ _ _ _ _ _ _ _ _). set (s2 := with_heap (<[a := q0]> (ns_heap s1)) s1).
    assert (inv r L B (a :: H) (a :: U) s2) as I2.
    { eapply (inv_alloc r L B H U s s2 a q0 I Ek); [apply (ok_static k)|done..|]. split_and!; [simpl; by rewrite E1|done..]. }
    split_and!; [done..|]. exists q0. split_and!; [done|split_and!; [done..|apply (ok_static k)]|done|apply (ok_static k)|].
    eapply inv_calms; [exact I2|]. apply calms_eq; [simpl; by rewrite E1|simpl; by rewrite E2|done].
  - apply settles_ret. split_and!; [split; congruence|congruence|apply calms_eq; congruence|done].
Qed.

Lemma calms_static s s' : calms s s' → dev_static (ns_dev s') = dev_static (ns_dev s).
Proof. intros Hc. apply (ev_dev _ _ _ _ _ (evolves_calms ∅ ∅ [] _ _ Hc)). Qed.

Lemma slots_trans s1 s2 s3 : slots_same s1 s2 → slots_same s2 s3 → slots_same s1 s3.
Proof. intros [] []. split; congruence. Qed.

Lemma backed_slots B U H s s' : slots_same s s' → backed B U H s → backed B U H s'.
Proof. intros Hs Hb x Hx. rewrite (slots_sleeping _ _ Hs). by apply Hb. Qed.

(** What the lemmas on new objects ask for. *)
Lemma newborn_alloc r L B H U s s' a q q' k dq : inv r L B H U s → inv r L B (a :: H) (a :: U) s' → ns_heap s !! a = None →
  ns_heap s' = <[a := q]> (ns_heap s) → made k dq q → made k dq q' →
  newborn B (with_heap (<[a := q']> (ns_heap s')) s') a q' ∧ a ∉ L.
Proof.
  intros I I' Ha Eh Hm (Ho & Hq & Hp & Hr & Hb). destruct (inv_fresh _ _ _ _ _ _ _ I Ha) as (Hn & HB & HL & Hno & _).
  split; [|done]. split; simpl; [apply lookup_insert_eq|done..|]. rewrite Eh, insert_insert_eq. intros x (v & Hv & HxB & Hin).
  destruct (decide (x = a)) as [->|]; [rewrite lookup_insert_eq in Hv|rewrite lookup_insert_ne in Hv by done].
  - simplify_eq. rewrite Hp in Hin. destruct (ok_priv0 (q_ops v)) as (Hc & _). rewrite Hc in Hin. by apply elem_of_nil in Hin.
  - apply (Hno x). by exists v.
Qed.

(** [qdisc_create_dflt], provided that nested creations are correct. *)
Lemma create_dflt_ok r L B H U s dq k par : inv r L B H U s → valid_queue (ns_dev s) dq → backed B U H s →
  (∀ rk, (par ≠ TC_H_ROOT → rk = rank k) → ∀ k', (rank k' < rk)%nat → create_spec k') →
  settles (λ n, qdisc_create_dflt (run n) n (Some dq) k par) s (λ o s', slots_same s s' ∧
    match o with
    | None => inv r L B H U s' ∧ evolves L B H s s'
    | Some a => inv r L B (a :: H) (a :: U) s' ∧ a ∉ L ∧ evolves L ({[a]} ∪ B) H s s' ∧
        ∃ q, newborn B s' a q ∧ q_ops q = k ∧ q_parent q = par ∧ f_ingress (q_flags q) = false ∧ settled k par s q
    end).
Proof.
  intros I Hdq Hbk Hcr. unfold qdisc_create_dflt. destruct (try_module_get _); simpl;
    [|apply settles_ret; split_and!; [done|done|by apply evolves_calms]].
  apply settles_modify. match goal with |- settles _ ?s1 _ => set (s0 := s1) end.
  assert (calms s s0) as Hc0 by by apply calms_eq. pose proof (inv_calms _ _ _ _ _ _ _ I Hc0) as I0.
  eapply settles_bind; [by apply (qdisc_alloc_ok _ _ _ _ _ _ dq k I0)|]. intros res s1 (Hsl1 & Hd1 & Hres). destruct res as [err|a].
  - destruct Hres as [Hc1 _]. apply settles_modify, settles_ret. assert (calms s s1) as Hc by by etrans.
    match goal with |- context [evolves _ _ _ _ ?s2] => assert (calms s1 s2) as Hc2 by by apply calms_eq end.
    split_and!; [by apply calms_slots; etrans|eapply inv_calms; [exact I|by etrans]|apply evolves_calms; by etrans].
  - destruct Hres as (Hfr & _ & q & Eh & Hm & Hh & Hi & I1).
    assert (ns_heap s1 !! a = Some q) as Ha1 by (rewrite Eh; apply lookup_insert_eq).
    eapply settles_upd; [exact Ha1|]. set (q2 := set_parent par q). set (s2 := with_heap _ s1).
    assert (inv r L B (a :: H) (a :: U) s2) as I2 by (eapply (inv_identity _ _ _ _ _ s1 s2 a q q2); [exact I1|done|by left|done..]).
    destruct (newborn_alloc r L B H U s0 s1 a q q2 k dq I0 I1 Hfr Eh Hm Hm) as [Hnb HaL]. fold s2 in Hnb.
    assert (made k dq q2) as (Ho & Hq & Hp & Hr & Hb) by exact Hm. destruct (ok_priv0 k) as (Hc & Hu & _).
    assert (slots_same s s2) as Hsl2 by (eapply slots_trans; [by apply calms_slots|exact Hsl1]).
    assert (evolves L ({[a]} ∪ B) H s s2) as Hev2.
    { eapply evolves_trans; [apply evolves_calms, Hc0|]. eapply (evolves_new _ _ _ _ _ a q2); [done|simpl; by rewrite Eh, insert_insert_eq|done|].
      set_solver. }
    destruct (op_init (ops k)) as [f|] eqn:Ef.
    + eapply settles_bind.
      { eapply (ops_init_ok r L B H U s2 a q2 f None I2 Hnb HaL); [by rewrite Hp|by rewrite Hp|by rewrite Ho|by eapply backed_slots|].
        intros rk Hrk. apply Hcr. intros Hpar. rewrite <- Ho. by apply Hrk. }
      intros err s3 (I3 & Hev3 & Hsl3 & q3 & Hnb3 & Hs3 & Hch3 & _ & Hset). destruct (Z.eqb_spec err 0) as [->|Herr].
      * apply settles_ret. split_and!; [by eapply slots_trans|done|done|by eapply evolves_trans|]. exists q3.
        destruct Hs3 as (S1 & _ & S3 & _ & S5 & _). split_and!; [done|by rewrite S1|by rewrite S3|by rewrite S5|]. specialize (Hset eq_refl).
        unfold settled in *. rewrite Ho in Hset. simpl in Hset. pose proof Hd1 as [= _ _ _ E _ _ _ El _].
        change (num_tx s2) with (length (nd_tx (ns_dev s1))) in Hset. unfold num_tx. by rewrite <- El, <- E.
      * destruct Hnb3 as [Ha3 Hn3 HB3 Hr3 Hno3]. eapply settles_bind.
        { eapply (put_ok (Z.to_nat (live s3)) r L B H U s3 a); [|done|by eapply backed_slots, backed_slots|pose proof (live_nonneg s3); lia].
          eapply inv_weaken; [exact I3|done|by apply submseteq_cons]. }
        intros [] s4 (I4 & Hev4 & Hsl4 & _ & _ & Hgone). apply settles_ret.
        split_and!; [eapply slots_trans; [exact Hsl2|by eapply slots_trans]|done|].
        eapply evolves_unbusy; [exact HaL|eapply evolves_trans; [exact Hev2|exact Hev3]|exact Hev4|].
        intros v Hv. by rewrite (Hgone q3 Ha3 Hr3 Hn3) in Hv.
    + apply settles_ret. split_and!; [done..|]. exists q2. split_and!; [done..|]. left. rewrite Hp. split; [by apply ok_no_init|done].
Qed.

(** The depth of nested creations is bounded. *)
Lemma create_ok k : create_spec k.
Proof.
  remember (rank k) as n eqn:Hk. revert k Hk. induction n as [n IH] using lt_wf_ind. intros k -> r L B H U s dq par I Hdq Hpar Hbk.
  eapply settles_mono; [apply (create_dflt_ok r L B H U s dq k par I Hdq Hbk)|].
  - intros rk Hrk k' Hk'. apply (IH (rank k')); [|done]. by rewrite <- Hrk.
  - intros o s' [Hsl Ho]. destruct o as [a|]; [|naive_solver]. destruct Ho as (I' & HaL & Hev & q & Hnb & Ho & Hp & Hh & Hset).
    split_and!; [|done|done|done|by destruct Hnb|exists q; by destruct Hnb].
    eapply evolves_unbusy; [exact HaL|exact Hev|by apply evolves_calms|]. intros v Hv. destruct Hnb as [Ha _ _ _ _]. simplify_eq.
    destruct Hset as [|(_ & ? & _)]; done.
Qed.

End run.
