(* ===== verification/Qapi.v ===== *)
(** * Requests and events of a device (src/net/sched/sch_api.c, sch_generic.c)

    The handlers that change the tree of Qtree.v: the netlink requests
    [RTM_NEWQDISC], [RTM_DELQDISC] and [RTM_GETQDISC] with the functions they
    call, the activation and deactivation of a device, and its end.  [n] is the
    fuel of the operations of the kinds.  Not modelled here: the contents of the
    notifications, offloading to hardware, and the transmit watchdog. *)

From Stdlib Require Import ZArith Lia.
From stdpp Require Import base numbers list gmap option strings.
From S2P Require Import Prelude Sched Stab Qtree.

Open Scope Z_scope.

Definition EPERM : Z := 1.
Definition ENODEV : Z := 19.
Definition ENOSPC : Z := 28.
Definition ELOOP : Z := 40.
Definition ERANGE : Z := 34.
Definition IFNAMSIZ : nat := 16.

(** The attributes of a request, after [nlmsg_parse]. *)
Record tca (opt : Type) := Tca {
  tca_kind : option string;
  tca_options : option opt;
  tca_stab : option (Z + stab_attrs);
  tca_rate : option (list Z);
  tca_ingress_block : option Z;
  tca_egress_block : option Z;
}.
Arguments Tca {opt} _ _ _ _ _ _.
Arguments tca_kind {opt} _.
Arguments tca_options {opt} _.
Arguments tca_stab {opt} _.
Arguments tca_rate {opt} _.
Arguments tca_ingress_block {opt} _.
Arguments tca_egress_block {opt} _.

(** A request: [struct nlmsghdr], [struct tcmsg] and the attributes. *)
Record nlreq (opt : Type) := Nlreq {
  rq_delete : bool;                 (* RTM_DELQDISC; else RTM_GETQDISC or RTM_NEWQDISC *)
  rq_capable : bool;                (* netlink_ns_capable *)
  rq_create : bool;                 (* NLM_F_CREATE *)
  rq_replace : bool;                (* NLM_F_REPLACE *)
  rq_excl : bool;                   (* NLM_F_EXCL *)
  rq_ifindex : Z;
  rq_parent : Z;                    (* u32 *)
  rq_handle : Z;                    (* u32 *)
  rq_tca : Z + tca opt;             (* nlmsg_parse *)
}.
Arguments Nlreq {opt} _ _ _ _ _ _ _ _ _.
Arguments rq_delete {opt} _.
Arguments rq_capable {opt} _.
Arguments rq_create {opt} _.
Arguments rq_replace {opt} _.
Arguments rq_excl {opt} _.
Arguments rq_ifindex {opt} _.
Arguments rq_parent {opt} _.
Arguments rq_handle {opt} _.
Arguments rq_tca {opt} _.

Section api.
Context {kind P opt : Type} `{!QdiscKinds kind P opt} `{!NetEnv kind P}.
Notation qd := (sqdisc kind P).
Notation st := (nstate kind P).
Implicit Types s : st.

(** ** Registered kinds *)

Definition find_ops (name : string) (l : list kind) : option kind :=
  head (filter (λ k, op_id (ops k) = name) l).

Definition register_qdisc (k : kind) : M st Z :=
  let* base := gets ns_base in
  if find_ops (op_id (ops k)) base is Some _ then cret (- EEXIST)
  else if negb (op_has_peek (ops k)) && op_has_dequeue (ops k) then cret (- EINVAL)
  else modify (with_base (base ++ [k])) ;;; cret 0.

(** The loop of [unregister_qdisc]. *)
Fixpoint unlink_ops `{!EqDecision kind} (k : kind) (l : list kind) : option (list kind) :=
  match l with
  | [] => None
  | x :: l => if decide (x = k) then Some l else cons x <$> unlink_ops k l
  end.

Definition unregister_qdisc `{!EqDecision kind} (k : kind) : M st Z :=
  let* base := gets ns_base in
  match unlink_ops k base with
  | Some base => modify (with_base base) ;;; cret 0
  | None => cret (- ENOENT)
  end.

(** [strlcpy] keeps [len - 1] characters. *)
Definition qdisc_get_default (len : nat) : M st string :=
  gets (λ s, String.substring 0 (len - 1) (op_id (ops (ns_default s)))).

(** [qdisc_lookup_ops]. *)
Definition qdisc_lookup_ops (name : option string) : M st (option kind) :=
  match name with
  | None => cret None
  | Some name =>
      let* base := gets ns_base in
      match find_ops name base with
      | None => cret None
      | Some k =>
          if try_module_get (op_owner (ops k)) then mod_add 1 (op_owner (ops k)) ;;; cret (Some k)
          else cret None
      end
  end.

(** [qdisc_set_default]; [ok] is [capable(CAP_NET_ADMIN)]. *)
Definition qdisc_set_default (ok : bool) (name : string) : M st Z :=
  if negb ok then cret (- EPERM)
  else
    let* o := qdisc_lookup_ops (Some name) in
    let* o := match o with
              | Some k => cret (Some k)
              | None => modify (λ s, with_base (request_module name (ns_base s)) s) ;;; qdisc_lookup_ops (Some name)
              end in
    match o with
    | Some k =>
        let* d := gets ns_default in
        module_put (op_owner (ops d)) ;;; modify (with_default k) ;;; cret 0
    | None => cret (- ENOENT)
    end.

(** ** Lookup *)

Fixpoint hash_find (l : list Z) (handle : Z) : M st (option Z) :=
  match l with
  | [] => cret None
  | a :: l =>
      let* q := get_q a in
      if q_handle q =? handle then cret (Some a) else hash_find l handle
  end.

(** The device of [&noop_qdisc] is null. *)
Definition qdisc_match_from_root (root handle : Z) : M st (option Z) :=
  let* q := get_q root in
  if decide (q_queue q = NoopQueue) then cret (if q_handle q =? handle then Some root else None)
  else if negb (f_builtin (q_flags q)) && (q_handle q =? handle) then cret (Some root)
  else let* l := gets (λ s, nd_hash (ns_dev s)) in hash_find l handle.

Definition qdisc_lookup (handle : Z) : M st (option Z) :=
  if handle =? 0 then cret None
  else
    let* root := gets (λ s, nd_qdisc (ns_dev s)) in
    let* o := qdisc_match_from_root root handle in
    match o with
    | Some a => cret (Some a)
    | None =>
        let* i := gets (λ s, nd_ingress (ns_dev s)) in
        match i with
        | Some v => qdisc_match_from_root (sl_sleeping v) handle
        | None => cret None
        end
    end.

(** [cops->leaf(q, cl)]. *)
Definition leaf_of (l : option leafref) : M st (option Z) :=
  match l with
  | None => cret None
  | Some (Child a) => cret (Some a)
  | Some (OfQueue dq) => let* v := get_slot dq in cret (Some (sl_sleeping v))
  end.

Definition qdisc_leaf (p classid : Z) : M st (option Z) :=
  let* q := get_q p in
  let* n := gets num_tx in
  match op_cl (ops (q_ops q)) with
  | None => cret None
  | Some c =>
      let cl := cl_find c n (q_priv q) classid in
      if cl =? 0 then cret None else leaf_of (cl_leaf c n (q_priv q) cl)
  end.

(** The loop of [qdisc_alloc_handle]: [i] more rounds. *)
Fixpoint alloc_handle_loop (i : nat) : M st Z :=
  match i with
  | O => cret 0
  | S i =>
      modify (λ s,
        let h := u32 (ns_autohandle s + TC_H_MAKE 65536 0) in
        with_autohandle (if h =? TC_H_MAKE TC_H_ROOT 0 then TC_H_MAKE 2147483648 0 else h) s) ;;;
      let* h := gets ns_autohandle in
      let* o := qdisc_lookup h in
      match o with
      | None => cret h
      | Some _ => alloc_handle_loop i
      end
  end.

Definition qdisc_alloc_handle : M st Z := alloc_handle_loop (Z.to_nat 32768).

(** ** Loops in the hierarchy *)

(** [cl_ops->walk]: the callback stops the walk. *)
Fixpoint walk (fn : Z → M st bool) (l : list Z) : M st bool :=
  match l with
  | [] => cret false
  | cl :: l => let* stop := fn cl in if stop then cret true else walk fn l
  end.

(** The callback is [check_loop_fn]; [room] is 8 minus the depth. *)
Fixpoint check_loop (room : nat) (q p : Z) : M st bool :=
  let* qo := get_q q in
  let* n := gets num_tx in
  match op_cl (ops (q_ops qo)) with
  | None => cret false
  | Some c =>
      walk (λ cl,
        let* leaf := leaf_of (cl_leaf c n (q_priv qo) cl) in
        match leaf with
        | None => cret false
        | Some b =>
            if b =? p then cret true
            else match room with
                 | O => cret true
                 | S room => check_loop room b p
                 end
        end) (cl_walk c n (q_priv qo))
  end.

(** ** Notifications *)

Definition tc_qdisc_dump_ignore (q : qd) (dump_invisible : bool) : bool :=
  f_builtin (q_flags q) || f_invisible (q_flags q) && negb dump_invisible.

(** The handle of an object that a message would describe. *)
Definition noted (o : option Z) : M st (option Z) :=
  match o with
  | None => cret None
  | Some a => let* q := get_q a in cret (if tc_qdisc_dump_ignore q false then None else Some (q_handle q))
  end.

(** An allocation, or the room in the message, may fail. *)
Definition qdisc_notify (clid : Z) (old new : option Z) : M st unit :=
  let* ok := ask alloc_ok in
  if negb ok then cret tt
  else
    let* o := noted old in
    let* w := noted new in
    match o, w with
    | None, None => cret tt
    | _, _ => modify (λ s, with_notes (ns_notes s ++ [Note clid o w]) s)
    end.

Definition notify_and_destroy (n : nat) (clid : Z) (old new : option Z) : M st unit :=
  match old, new with
  | None, None => cret tt
  | _, _ => qdisc_notify clid old new
  end ;;;
  match old with
  | Some a => qdisc_put (run n) n a
  | None => cret tt
  end.

(** ** Activation *)

Definition tx_queues s : list queue := map TxQueue (seq 0 (num_tx s)).

(** [qdisc_refcount_inc]. *)
Definition ref_inc (a : Z) : M st unit :=
  upd_q a (λ q, set_refcnt (qdisc_refcount_inc (f_builtin (q_flags q)) (q_refcnt q)) q).

(** The store into [qdisc_sleeping] overwrites what was there. *)
Definition attach_one_default_qdisc (n : nat) (dq : queue) : M st unit :=
  let* k := gets (λ s, if nd_no_queue (ns_dev s) then noqueue_ops else ns_default s) in
  let* o := qdisc_create_dflt (run n) n (Some dq) k TC_H_ROOT in
  match o with
  | None => cret tt
  | Some a =>
      let* mq := gets (λ s, nd_multiqueue (ns_dev s)) in
      (if negb mq then upd_q a (map_flags set_onetxqueue_noparent) else cret tt) ;;;
      let* v := get_slot dq in
      put_slot dq (Slot (sl_qdisc v) a) ;;;
      modify (λ s, with_leaked (if sl_sleeping v =? noop_qdisc then ns_leaked s else sl_sleeping v :: ns_leaked s) s)
  end.

(** [ops->attach(qdisc)]. *)
Definition ops_attach (n : nat) (a : Z) (f : self kind → P → prog kind P) : M st unit :=
  let* q := get_q a in
  let* me := self_of a in
  let* r := run n (f me (q_priv q)) in
  store_ans a r.

Definition set_root (a : Z) : M st unit := modify (λ s, with_dev (set_nd_qdisc a (ns_dev s)) s).

Definition attach_default_qdiscs (n : nat) : M st unit :=
  let* d := gets ns_dev in
  (if negb (nd_multiqueue d) || nd_no_queue d then
     let* l := gets tx_queues in
     each (attach_one_default_qdisc n) l ;;;
     let* v := get_slot (TxQueue 0) in
     set_root (sl_sleeping v) ;;;
     ref_inc (sl_sleeping v)
   else
     let* o := qdisc_create_dflt (run n) n (Some (TxQueue 0)) mq_ops TC_H_ROOT in
     match o with
     | None => cret tt
     | Some a =>
         set_root a ;;;
         match op_attach (ops mq_ops) with
         | Some f => ops_attach n a f
         | None => cfail
         end
     end) ;;;
  let* root := gets (λ s, nd_qdisc (ns_dev s)) in
  if negb (root =? noop_qdisc) then qdisc_hash_add root false else cret tt.

Definition transition_one_qdisc (dq : queue) : M st unit :=
  let* v := get_slot dq in
  let* q := get_q (sl_sleeping v) in
  (if negb (f_builtin (q_flags q)) then upd_q (sl_sleeping v) (set_deactivated false) else cret tt) ;;;
  put_slot dq (Slot (sl_sleeping v) (sl_sleeping v)).

(** The transmit queues and the ingress queue. *)
Definition all_queues s : list queue := tx_queues s ++ (if nd_ingress (ns_dev s) is Some _ then [IngressQueue] else []).

Definition dev_activate (n : nat) : M st unit :=
  let* root := gets (λ s, nd_qdisc (ns_dev s)) in
  (if root =? noop_qdisc then attach_default_qdiscs n else cret tt) ;;;
  let* ok := gets (λ s, nd_carrier (ns_dev s)) in
  if negb ok then cret tt
  else let* l := gets all_queues in each transition_one_qdisc l.

Definition dev_deactivate_queue (n : nat) (dq : queue) : M st unit :=
  let* v := get_slot dq in
  let* q := get_q (sl_qdisc v) in
  (if negb (f_builtin (q_flags q)) then upd_q (sl_qdisc v) (set_deactivated true) else cret tt) ;;;
  put_slot dq (Slot noop_qdisc (sl_sleeping v)) ;;;
  qdisc_reset n (sl_qdisc v).

Definition dev_qdisc_reset (n : nat) (dq : queue) : M st unit :=
  let* v := get_slot dq in qdisc_reset n (sl_sleeping v).

(** Between the two loops, [dev_deactivate_many] waits for the transmissions of
    other processors to end. *)
Definition dev_deactivate (n : nat) : M st unit :=
  let* l := gets all_queues in
  each (dev_deactivate_queue n) l ;;;
  each (dev_qdisc_reset n) l.

(** [dev_qdisc_change_tx_queue_len]. *)
Fixpoint change_len_loop (l : list queue) : M st Z :=
  match l with
  | [] => cret 0
  | dq :: l =>
      let* v := get_slot dq in
      let* q := get_q (sl_sleeping v) in
      let* len := gets (λ s, nd_tx_queue_len (ns_dev s)) in
      match op_change_tx_queue_len (ops (q_ops q)) with
      | None => change_len_loop l
      | Some f =>
          upd_q (sl_sleeping v) (set_qpriv (f len (q_priv q)).2) ;;;
          if (f len (q_priv q)).1 =? 0 then change_len_loop l else cret (f len (q_priv q)).1
      end
  end.

Definition dev_qdisc_change_tx_queue_len (n : nat) : M st Z :=
  let* up := gets (λ s, nd_up (ns_dev s)) in
  (if up then dev_deactivate n else cret tt) ;;;
  let* l := gets tx_queues in
  let* ret := change_len_loop l in
  (if up then dev_activate n else cret tt) ;;;
  cret ret.

(** net/core/dev.c; [veto] is the answer of the notifiers. *)
Definition dev_change_tx_queue_len (n : nat) (veto new_len : Z) : M st Z :=
  let* orig_len := gets (λ s, nd_tx_queue_len (ns_dev s)) in
  if negb (new_len =? u32 new_len) then cret (- ERANGE)
  else if new_len =? orig_len then cret 0
  else
    modify (λ s, with_dev (set_nd_len new_len (ns_dev s)) s) ;;;
    let* res := if negb (veto =? 0) then cret veto else dev_qdisc_change_tx_queue_len n in
    if res =? 0 then cret 0
    else modify (λ s, with_dev (set_nd_len orig_len (ns_dev s)) s) ;;; cret res.

Definition shutdown_scheduler_queue (n : nat) (dq : queue) : M st unit :=
  let* v := get_slot dq in
  put_slot dq (Slot noop_qdisc noop_qdisc) ;;;
  qdisc_put (run n) n (sl_sleeping v).

Definition dev_shutdown (n : nat) : M st unit :=
  let* l := gets all_queues in
  each (shutdown_scheduler_queue n) l ;;;
  let* root := gets (λ s, nd_qdisc (ns_dev s)) in
  qdisc_put (run n) n root ;;;
  set_root noop_qdisc.

(** ** Grafting *)

Definition flags_of (o : option Z) : M st (option qd) :=
  match o with
  | None => cret None
  | Some a => let* q := get_q a in cret (Some q)
  end.

Definition has_ingress (o : option qd) : bool := if o is Some q then f_ingress (q_flags q) else false.

(** sch_mq.c. *)
Definition mq_graft (n : nat) (dq : queue) (new : option Z) : M st Z :=
  let* up := gets (λ s, nd_up (ns_dev s)) in
  (if up then dev_deactivate n else cret tt) ;;;
  let* old := dev_graft_qdisc dq (default noop_qdisc new) in
  (if new is Some a then upd_q a (map_flags set_onetxqueue_noparent) else cret tt) ;;;
  (if up then dev_activate n else cret tt) ;;;
  cret old.

(** The loop over the transmit queues: queue [i] is next. *)
Fixpoint graft_loop (n : nat) (new : option Z) (i : nat) (k : nat) : M st unit :=
  match k with
  | O => cret tt
  | S k =>
      let* old := dev_graft_qdisc (TxQueue i) (default noop_qdisc new) in
      (if new is Some a then if (0 <? i)%nat then ref_inc a else cret tt else cret tt) ;;;
      qdisc_put (run n) n old ;;;
      graft_loop n new (S i) k
  end.

(** The branch of [qdisc_graft] for the root, or the ingress queue. *)
Definition graft_root (n : nat) (classid : Z) (new old : option Z) : M st Z :=
  let* oq := flags_of old in
  let* nq := flags_of new in
  let ingress := has_ingress oq || has_ingress nq in
  let* d := gets ns_dev in
  if ingress && bool_decide (nd_ingress d = None) then cret (- ENOENT)
  else
    (if nd_up d then dev_deactivate n else cret tt) ;;;
    let attach := if nq is Some q then op_attach (ops (q_ops q)) else None in
    let* old :=
      match attach with
      | Some _ => cret old
      | None =>
          if ingress then let* o := dev_graft_qdisc IngressQueue (default noop_qdisc new) in cret (Some o)
          else let* k := gets num_tx in graft_loop n new 0 k ;;; cret old
      end in
    (if ingress then notify_and_destroy n classid old new
     else
       let* root := gets (λ s, nd_qdisc (ns_dev s)) in
       notify_and_destroy n classid (Some root) new ;;;
       (if new is Some a then if attach is None then ref_inc a else cret tt else cret tt) ;;;
       set_root (default noop_qdisc new) ;;;
       match new, attach with
       | Some a, Some f => ops_attach n a f
       | _, _ => cret tt
       end) ;;;
    let* up := gets (λ s, nd_up (ns_dev s)) in
    (if up then dev_activate n else cret tt) ;;;
    cret 0.

(** The branch for a class of the parent [p]. *)
Definition graft_class (n : nat) (p classid : Z) (new : option Z) : M st Z :=
  let* po := get_q p in
  (if new is Some a then
     let* q := get_q a in
     if f_nolock (q_flags q) && negb (f_nolock (q_flags po)) then upd_q a (map_flags clear_nolock) else cret tt
   else cret tt) ;;;
  let* k := gets num_tx in
  match op_cl (ops (q_ops po)) with
  | None => cret (- EOPNOTSUPP)
  | Some c =>
      match cl_graft c with
      | None => cret (- EOPNOTSUPP)
      | Some f =>
          let cl := cl_find c k (q_priv po) classid in
          if cl =? 0 then cret (- ENOENT)
          else
            match f k (q_priv po) cl new with
            | GraftErr err => cret err
            | GraftSlot old pr =>
                upd_q p (set_qpriv pr) ;;;
                (if old is Some b then upd_q b qdisc_flush else cret tt) ;;;
                notify_and_destroy n classid old new ;;;
                cret 0
            | GraftQueue dq =>
                let* old := mq_graft n dq new in
                notify_and_destroy n classid (Some old) new ;;;
                cret 0
            end
      end
  end.

Definition qdisc_graft (n : nat) (parent : option Z) (classid : Z) (new old : option Z) : M st Z :=
  match parent with
  | None => graft_root n classid new old
  | Some p => graft_class n p classid new
  end.

(** ** Creation and change by request *)

Definition block_set (a : Z) (idx : option Z) (f : option (Z → P → P)) : M st Z :=
  match idx with
  | None => cret 0
  | Some b =>
      if b =? 0 then cret (- EINVAL)
      else match f with
           | None => cret (- EOPNOTSUPP)
           | Some f => upd_q a (λ q, set_qpriv (f b (q_priv q)) q) ;;; cret 0
           end
  end.

Definition qdisc_block_indexes_set (a : Z) (t : tca opt) : M st Z :=
  let* q := get_q a in
  let* err := block_set a (tca_ingress_block t) (op_ingress_block_set (ops (q_ops q))) in
  if negb (err =? 0) then cret err
  else block_set a (tca_egress_block t) (op_egress_block_set (ops (q_ops q))).

(** [err_out3] and [err_out2]. *)
Definition create_undo (k : kind) (a err : Z) : M st (Z + Z) :=
  dev_put ;;;
  modify (λ s, with_heap (delete a (ns_heap s)) s) ;;;
  module_put (op_owner (ops k)) ;;;
  cret (inl err).

(** [ops->destroy(sch)] and the labels after it. *)
Definition create_destroy (n : nat) (k : kind) (a err : Z) : M st (Z + Z) :=
  let* q := get_q a in
  let* me := self_of a in
  (match op_destroy (ops k) with
   | Some f => let* _ := run n (f me (q_priv q)) in cret tt
   | None => cret tt
   end) ;;;
  create_undo k a err.

(** [err_out4]. *)
Definition create_release (n : nat) (k : kind) (a err : Z) : M st (Z + Z) :=
  let* q := get_q a in
  modify (λ s, with_stabs (qdisc_put_stab (q_stab q) (ns_stabs s)) s) ;;;
  create_destroy n k a err.

(** [qdisc_get_stab], with the memory it may get. *)
Definition get_stab (o : Z + stab_attrs) : M st (Z + qdisc_size_table) := λ s,
  let '(r, l) := qdisc_get_stab (kmalloc_stab (ns_clock s) (map st_addr (ns_stabs s))) o (ns_stabs s) in
  Some (r, tick (with_stabs l s)).

(** The end of [qdisc_create], after [ops->init]. *)
Definition create_stab (a : Z) (t : tca opt) : M st (option Z) :=
  match tca_stab t with
  | None => cret None
  | Some o =>
      let* r := get_stab o in
      match r with
      | inl err => cret (Some err)
      | inr tab => upd_q a (set_stab (Some (st_addr tab))) ;;; cret None
      end
  end.

Definition create_rate (a : Z) (t : tca opt) : M st (option Z) :=
  match tca_rate t with
  | None => cret None
  | Some r =>
      let* q := get_q a in
      if f_mqroot (q_flags q) then cret (Some (- EOPNOTSUPP))
      else
        let* err := ask (λ i, gen_new_estimator i r) in
        if err =? 0 then upd_q a (set_rate_est true) ;;; cret None else cret (Some err)
  end.

Definition create_extras (n : nat) (k : kind) (a : Z) (t : tca opt) : M st (Z + Z) :=
  let* e := create_stab a t in
  match e with
  | Some err => create_release n k a err
  | None =>
      let* e := create_rate a t in
      match e with
      | Some err => create_release n k a err
      | None => qdisc_hash_add a false ;;; cret (inr a)
      end
  end.

(** The handle: [None] if there is none left. *)
Definition create_handle (a handle : Z) : M st (option Z) :=
  if handle =? TC_H_INGRESS then
    upd_q a (map_flags set_ingress) ;;; cret (Some (TC_H_MAKE TC_H_INGRESS 0))
  else
    let* h := if handle =? 0 then qdisc_alloc_handle else cret handle in
    if h =? 0 then cret None
    else
      let* mq := gets (λ s, nd_multiqueue (ns_dev s)) in
      (if negb mq then upd_q a (map_flags set_onetxqueue) else cret tt) ;;;
      cret (Some h).

Definition create_with (n : nat) (k : kind) (dev_queue : option queue) (parent handle : Z) (t : tca opt) : M st (Z + Z) :=
  let* sch := qdisc_alloc dev_queue k in
  match sch with
  | inl err => module_put (op_owner (ops k)) ;;; cret (inl err)
  | inr a =>
      upd_q a (set_parent parent) ;;;
      let* h := create_handle a handle in
      match h with
      | None => create_undo k a (- ENOSPC)
      | Some h =>
          upd_q a (set_handle h) ;;;
          modify (λ s, if nd_no_queue (ns_dev s) && (nd_tx_queue_len (ns_dev s) =? 0)
                       then with_dev (set_nd_len DEFAULT_TX_QUEUE_LEN (ns_dev s)) s else s) ;;;
          let* err := qdisc_block_indexes_set a t in
          if negb (err =? 0) then create_undo k a err
          else
            let* err := match op_init (ops k) with
                        | None => cret 0
                        | Some f => ops_init (run n) a f (tca_options t)
                        end in
            if negb (err =? 0) then create_destroy n k a err
            else create_extras n k a t
      end
  end.

Definition qdisc_create (n : nat) (dev_queue : option queue) (parent handle : Z) (t : tca opt) : M st (Z + Z) :=
  let* o := qdisc_lookup_ops (tca_kind t) in
  match o, tca_kind t with
  | Some k, _ => create_with n k dev_queue parent handle t
  | None, Some name =>
      if (String.length name <? IFNAMSIZ)%nat then
        modify (λ s, with_base (request_module name (ns_base s)) s) ;;;
        let* o := qdisc_lookup_ops (tca_kind t) in
        match o with
        | Some k => module_put (op_owner (ops k)) ;;; cret (inl (- EAGAIN))
        | None => cret (inl (- ENOENT))
        end
      else cret (inl (- ENOENT))
  | None, None => cret (inl (- ENOENT))
  end.

(** [ops->change(sch, opt)]. *)
Definition ops_change (n : nat) (a : Z) (f : self kind → P → opt → prog kind P) (o : opt) : M st Z :=
  let* q := get_q a in
  let* me := self_of a in
  let* r := run n (f me (q_priv q) o) in
  store_ans a r ;;;
  cret (an_err r).

Definition qdisc_change (n : nat) (a : Z) (t : tca opt) : M st Z :=
  let* q := get_q a in
  let* err :=
    match tca_options t with
    | None => cret 0
    | Some o =>
        match op_change (ops (q_ops q)) with
        | None => cret (- EINVAL)
        | Some f =>
            if bool_decide (is_Some (tca_ingress_block t)) || bool_decide (is_Some (tca_egress_block t)) then cret (- EOPNOTSUPP)
            else ops_change n a f o
        end
    end in
  if negb (err =? 0) then cret err
  else
    let* r := match tca_stab t with
              | None => cret (inr None)
              | Some o => let* r := get_stab o in
                          cret (match r with inl err => inl err | inr tab => inr (Some (st_addr tab)) end)
              end in
    match r with
    | inl err => cret err
    | inr stab =>
        let* q := get_q a in
        upd_q a (set_stab stab) ;;;
        modify (λ s, with_stabs (qdisc_put_stab (q_stab q) (ns_stabs s)) s) ;;;
        (match tca_rate t with
         | None => cret tt
         | Some r =>
             if f_mqroot (q_flags q) then cret tt
             else
               let* err := ask (λ i, gen_new_estimator i r) in
               if err =? 0 then upd_q a (set_rate_est true) else cret tt
         end) ;;;
        cret 0
    end.

(** ** The requests *)

(** [TC_H_MAJ(clid) != TC_H_MAJ(TC_H_INGRESS)] and the like: the object a
    request names, and its parent. *)
Definition tc_get_target (r : nlreq opt) : M st (Z + option Z * Z) :=
  let clid := rq_parent r in
  if negb (clid =? 0) then
    let* pq :=
      if negb (clid =? TC_H_ROOT) then
        if negb (TC_H_MAJ clid =? TC_H_MAJ TC_H_INGRESS) then
          let* p := qdisc_lookup (TC_H_MAJ clid) in
          match p with
          | None => cret None
          | Some p => let* q := qdisc_leaf p clid in cret (Some (Some p, q))
          end
        else
          let* i := gets (λ s, nd_ingress (ns_dev s)) in
          cret (Some (None, match i with Some v => Some (sl_sleeping v) | None => None end))
      else let* q := gets (λ s, nd_qdisc (ns_dev s)) in cret (Some (None, Some q)) in
    match pq with
    | None | Some (_, None) => cret (inl (- ENOENT))
    | Some (p, Some q) =>
        let* qo := get_q q in
        if negb (rq_handle r =? 0) && negb (q_handle qo =? rq_handle r) then cret (inl (- EINVAL))
        else cret (inr (p, q))
    end
  else
    let* q := qdisc_lookup (rq_handle r) in
    match q with
    | None => cret (inl (- ENOENT))
    | Some q => cret (inr (None, q))
    end.

(** [tca[TCA_KIND] && nla_strcmp(tca[TCA_KIND], q->ops->id)]. *)
Definition other_kind (t : tca opt) (q : qd) : bool :=
  match tca_kind t with
  | Some name => negb (bool_decide (op_id (ops (q_ops q)) = name))
  | None => false
  end.

(** RTM_DELQDISC and RTM_GETQDISC. *)
Definition tc_get_qdisc (n : nat) (r : nlreq opt) : M st Z :=
  if rq_delete r && negb (rq_capable r) then cret (- EPERM)
  else
    match rq_tca r with
    | inl err => cret err
    | inr t =>
        let* idx := gets (λ s, nd_ifindex (ns_dev s)) in
        if negb (rq_ifindex r =? idx) then cret (- ENODEV)
        else
          let* tg := tc_get_target r in
          match tg with
          | inl err => cret err
          | inr (p, q) =>
              let* qo := get_q q in
              if other_kind t qo then cret (- EINVAL)
              else if rq_delete r then
                if rq_parent r =? 0 then cret (- EINVAL)
                else if q_handle qo =? 0 then cret (- ENOENT)
                else qdisc_graft n p (rq_parent r) None (Some q)
              else qdisc_notify (rq_parent r) None (Some q) ;;; cret 0
          end
    end.

Definition dev_ingress_queue_create : M st (option slot) :=
  let* i := gets (λ s, nd_ingress (ns_dev s)) in
  match i with
  | Some v => cret (Some v)
  | None =>
      let* ok := ask alloc_ok in
      if negb ok then cret None
      else
        let v := Slot noop_qdisc noop_qdisc in
        modify (λ s, with_dev (set_nd_ingress (Some v) (ns_dev s)) s) ;;; cret (Some v)
  end.

(** What [tc_modify_qdisc] decides to do. *)
Inductive modify_act :=
| Refuse (err : Z)
| Change (q : Z)
| Regraft (p : option Z) (q : Z)
| CreateGraft (p : option Z).

(** The parent of a request and the object now in its place. *)
Definition modify_place (r : nlreq opt) : M st (option (option Z * option Z)) :=
  let clid := rq_parent r in
  if clid =? TC_H_ROOT then let* q := gets (λ s, nd_qdisc (ns_dev s)) in cret (Some (None, Some q))
  else if clid =? TC_H_INGRESS then
    let* i := dev_ingress_queue_create in
    cret (Some (None, match i with Some v => Some (sl_sleeping v) | None => None end))
  else
    let* p := qdisc_lookup (TC_H_MAJ clid) in
    match p with
    | None => cret None
    | Some p => let* q := qdisc_leaf p clid in cret (Some (Some p, q))
    end.

(** The handle of a request names another object, or none. *)
Definition modify_handle (r : nlreq opt) (t : tca opt) (p q : option Z) : M st modify_act :=
  if bool_decide (is_Some q) && negb (rq_replace r) then cret (Refuse (- EEXIST))
  else if negb (TC_H_MIN (rq_handle r) =? 0) then cret (Refuse (- EINVAL))
  else
    let* o := qdisc_lookup (rq_handle r) in
    match o with
    | None => cret (CreateGraft p)
    | Some q =>
        let* qo := get_q q in
        if rq_excl r then cret (Refuse (- EEXIST))
        else if other_kind t qo then cret (Refuse (- EINVAL))
        else
          let* loop := match p with
                       | None => cret false
                       | Some p => if q =? p then cret true else check_loop 8 q p
                       end in
          if loop then cret (Refuse (- ELOOP)) else cret (Regraft p q)
    end.

(** The common end of the cases without [goto]. *)
Definition modify_change (r : nlreq opt) (t : tca opt) (q : option Z) : M st modify_act :=
  match q with
  | None => cret (Refuse (- ENOENT))
  | Some q =>
      let* qo := get_q q in
      if rq_excl r then cret (Refuse (- EEXIST))
      else if other_kind t qo then cret (Refuse (- EINVAL))
      else cret (Change q)
  end.

Definition modify_decide (r : nlreq opt) (t : tca opt) : M st modify_act :=
  if negb (rq_parent r =? 0) then
    let* pq := modify_place r in
    match pq with
    | None => cret (Refuse (- ENOENT))
    | Some (p, q) =>
        let* qo := flags_of q in
        (* it may be the default one *)
        let q := match qo with Some o => if q_handle o =? 0 then None else q | None => None end in
        if match qo with
           | Some o => negb (q_handle o =? 0) && negb (rq_handle r =? 0) && (q_handle o =? rq_handle r)
           | None => false
           end
        then modify_change r t q
        else if negb (rq_handle r =? 0) then modify_handle r t p q
        else
          match q, qo with
          | Some q, Some o =>
              if rq_create r && rq_replace r && (rq_excl r || other_kind t o) then cret (CreateGraft p)
              else modify_change r t (Some q)
          | _, _ => cret (CreateGraft p)
          end
    end
  else if rq_handle r =? 0 then cret (Refuse (- EINVAL))
  else let* q := qdisc_lookup (rq_handle r) in modify_change r t q.

(** The queue of a new object. *)
Definition create_queue (r : nlreq opt) (p : option Z) : M st (option queue) :=
  match p with
  | None => cret (Some (TxQueue 0))
  | Some p =>
      let* po := get_q p in
      let* k := gets num_tx in
      match op_cl (ops (q_ops po)) with
      | Some c => match cl_select_queue c with
                  | Some f => cret (f k (rq_parent r))
                  | None => cret (Some (q_queue po))
                  end
      | None => cret (Some (q_queue po))
      end
  end.

(** The label [graft]. *)
Definition modify_graft (n : nat) (r : nlreq opt) (p : option Z) (q : Z) : M st Z :=
  let* err := qdisc_graft n p (rq_parent r) (Some q) None in
  if negb (err =? 0) then qdisc_put (run n) n q ;;; cret err else cret 0.

Definition modify_create (n : nat) (r : nlreq opt) (t : tca opt) (p : option Z) : M st (Z + Z) :=
  if negb (rq_create r) then cret (inl (- ENOENT))
  else if rq_parent r =? TC_H_INGRESS then
    let* i := gets (λ s, nd_ingress (ns_dev s)) in
    match i with
    | Some _ => qdisc_create n (Some IngressQueue) (rq_parent r) (rq_parent r) t
    | None => cret (inl (- ENOENT))
    end
  else
    let* dq := create_queue r p in
    qdisc_create n dq (rq_parent r) (rq_handle r) t.

(** RTM_NEWQDISC; [replays] bounds the jumps to [replay]. *)
Fixpoint tc_modify_qdisc (replays n : nat) (r : nlreq opt) : M st Z :=
  if negb (rq_capable r) then cret (- EPERM)
  else
    match rq_tca r with
    | inl err => cret err
    | inr t =>
        let* idx := gets (λ s, nd_ifindex (ns_dev s)) in
        if negb (rq_ifindex r =? idx) then cret (- ENODEV)
        else
          let* act := modify_decide r t in
          match act with
          | Refuse err => cret err
          | Change q =>
              let* err := qdisc_change n q t in
              (if err =? 0 then qdisc_notify (rq_parent r) None (Some q) else cret tt) ;;;
              cret err
          | Regraft p q =>
              ref_inc q ;;;
              modify_graft n r p q
          | CreateGraft p =>
              let* c := modify_create n r t p in
              match c with
              | inr q => modify_graft n r p q
              | inl err =>
                  if err =? - EAGAIN then
                    match replays with
                    | O => cfail
                    | S m => tc_modify_qdisc m n r
                    end
                  else cret err
              end
          end
    end.

(** ** Requests about classes *)

(** The [struct tcmsg] of [tc_fill_tclass]; [None] if the kind refuses. *)
Definition class_msg (a : Z) (c : Qdisc_class_ops P opt) (cl : Z) : M st (option (Z * Z * Z)) :=
  let* q := get_q a in
  let* k := gets num_tx in
  match cl_dump c k (q_priv q) cl (q_handle q, q_handle q) with
  | None => cret None
  | Some (parent, handle, r) =>
      let* o := leaf_of (Some r) in
      match o with
      | None => cret None
      | Some b => let* v := get_q b in cret (Some (parent, handle, q_handle v))
      end
  end.

(** [rtnetlink_send], and what the callers make of its result. *)
Definition class_send (deleted : bool) (m : Z * Z * Z) : M st Z :=
  let* err := ask rtnetlink_send in
  let '(parent, handle, info) := m in
  modify (λ s, with_notes (ns_notes s ++ [ClassNote deleted parent handle info]) s) ;;;
  cret (if 0 <? err then 0 else err).

(** The allocation may fail; the room in the message may not be enough. *)
Definition tclass_notify (a : Z) (c : Qdisc_class_ops P opt) (cl : Z) : M st Z :=
  let* ok := ask alloc_ok in
  if negb ok then cret (- ENOBUFS)
  else
    let* m := class_msg a c cl in
    let* room := ask alloc_ok in
    match m with
    | Some m => if negb room then cret (- EINVAL) else class_send false m
    | None => cret (- EINVAL)
    end.

Definition tclass_del_notify (a : Z) (c : Qdisc_class_ops P opt) (cl : Z) : M st Z :=
  match cl_delete c with
  | None => cret (- EOPNOTSUPP)
  | Some f =>
      let* ok := ask alloc_ok in
      if negb ok then cret (- ENOBUFS)
      else
        let* m := class_msg a c cl in
        let* room := ask alloc_ok in
        match m with
        | Some m =>
            if negb room then cret (- EINVAL)
            else
              let* q := get_q a in
              upd_q a (set_qpriv (f cl (q_priv q)).2) ;;;
              if negb ((f cl (q_priv q)).1 =? 0) then cret (f cl (q_priv q)).1 else class_send true m
        | None => cret (- EINVAL)
        end
  end.

(** [cops->tcf_block(q, cl, NULL)], called unseen; then the filters of the block,
    which do not concern the disciplines. *)
Definition tc_bind_tclass (a : Z) (c : Qdisc_class_ops P opt) (portid : Z) : M st unit :=
  let* q := get_q a in
  let* k := gets num_tx in
  if cl_find c k (q_priv q) portid =? 0 then cret tt
  else if cl_has_block c then cret tt else cfail.

Inductive tclass_cmd := RTM_NEWTCLASS | RTM_DELTCLASS | RTM_GETTCLASS.

(** Step 1 of [tc_ctl_tclass]: the handle of the discipline and the parent; [root]
    is [dev->qdisc->handle]. *)
Definition tclass_ids (root portid clid : Z) : option (Z * Z) :=
  let qid := TC_H_MAJ clid in
  if negb (portid =? TC_H_ROOT) then
    let qid1 := TC_H_MAJ portid in
    if negb (qid =? 0) && negb (qid1 =? 0) && negb (qid =? qid1) then None
    else
      let qid := if negb (qid =? 0) && negb (qid1 =? 0) then qid
                 else if negb (qid1 =? 0) then qid1
                 else if qid =? 0 then root else qid in
      Some (qid, if negb (portid =? 0) then TC_H_MAKE qid portid else portid)
  else Some (if qid =? 0 then root else qid, portid).

(** The class; [0] if there is none. *)
Definition tclass_clid (qid portid clid : Z) : Z :=
  if clid =? 0 then (if portid =? TC_H_ROOT then qid else 0) else TC_H_MAKE qid clid.

(** The end: [cops->change]. *)
Definition tclass_change (a : Z) (c : Qdisc_class_ops P opt) (t : tca opt) (clid portid cl : Z) : M st Z :=
  if bool_decide (is_Some (tca_ingress_block t)) || bool_decide (is_Some (tca_egress_block t)) then cret (- EOPNOTSUPP)
  else
    match cl_change c with
    | None => cret (- EOPNOTSUPP)
    | Some f =>
        let* q := get_q a in
        let '(err, p, new_cl) := f clid portid cl (tca_options t) (q_priv q) in
        upd_q a (set_qpriv p) ;;;
        if negb (err =? 0) then cret err
        else
          tclass_notify a c new_cl ;;;
          (if negb (cl =? new_cl) then tc_bind_tclass a c portid else cret tt) ;;;
          cret 0
    end.

(** Once the discipline is found. *)
Definition tclass_do (cmd : tclass_cmd) (r : nlreq opt) (t : tca opt) (a : Z) (c : Qdisc_class_ops P opt) (clid portid : Z) : M st Z :=
  let* q := get_q a in
  let* k := gets num_tx in
  let cl := if clid =? 0 then 0 else cl_find c k (q_priv q) clid in
  match cmd with
  | RTM_NEWTCLASS =>
      if (cl =? 0) && negb (rq_create r) then cret (- ENOENT)
      else if negb (cl =? 0) && rq_excl r then cret (- EEXIST)
      else tclass_change a c t clid portid cl
  | RTM_DELTCLASS =>
      if cl =? 0 then cret (- ENOENT)
      else
        let* err := tclass_del_notify a c cl in
        tc_bind_tclass a c portid ;;;
        cret err
  | RTM_GETTCLASS => if cl =? 0 then cret (- ENOENT) else tclass_notify a c cl
  end.

Definition tc_ctl_tclass (cmd : tclass_cmd) (r : nlreq opt) : M st Z :=
  if match cmd with RTM_GETTCLASS => false | _ => negb (rq_capable r) end then cret (- EPERM)
  else
    match rq_tca r with
    | inl err => cret err
    | inr t =>
        let* idx := gets (λ s, nd_ifindex (ns_dev s)) in
        if negb (rq_ifindex r =? idx) then cret (- ENODEV)
        else
          let* root := gets (λ s, nd_qdisc (ns_dev s)) in
          let* rq := get_q root in
          match tclass_ids (q_handle rq) (rq_parent r) (rq_handle r) with
          | None => cret (- EINVAL)
          | Some (qid, portid) =>
              let* o := qdisc_lookup qid in
              match o with
              | None => cret (- ENOENT)
              | Some a =>
                  let* q := get_q a in
                  match op_cl (ops (q_ops q)) with
                  | None => cret (- EINVAL)
                  | Some c => tclass_do cmd r t a c (tclass_clid qid portid (rq_handle r)) portid
                  end
              end
          end
    end.

(** ** The life of the device *)

(** [dev_init_scheduler]: every pointer is [&noop_qdisc]. *)
Definition dev_init_scheduler : M st unit :=
  set_root noop_qdisc ;;;
  let* l := gets all_queues in
  each (λ dq, put_slot dq (Slot noop_qdisc noop_qdisc)) l.

Definition set_up (b : bool) : M st unit :=
  modify (λ s, let d := ns_dev s in with_dev (Netdev (nd_ifindex d) b (nd_carrier d) (nd_multiqueue d) (nd_no_queue d)
    (nd_real_num_tx d) (nd_tx_queue_len d) (nd_qdisc d) (nd_tx d) (nd_ingress d) (nd_hash d) (nd_refs d)) s).

Definition set_carrier (b : bool) : M st unit :=
  modify (λ s, let d := ns_dev s in with_dev (Netdev (nd_ifindex d) (nd_up d) b (nd_multiqueue d) (nd_no_queue d)
    (nd_real_num_tx d) (nd_tx_queue_len d) (nd_qdisc d) (nd_tx d) (nd_ingress d) (nd_hash d) (nd_refs d)) s).

(** The part of [__dev_open] and [__dev_close_many] (net/core/dev.c) that
    concerns the queues. *)
Definition dev_open (n : nat) : M st unit := set_up true ;;; dev_activate n.

Definition dev_close (n : nat) : M st unit := dev_deactivate n ;;; set_up false.

(** [linkwatch_do_dev] (net/core/link_watch.c), after the carrier changed. *)
Definition linkwatch_do_dev (n : nat) (carrier : bool) : M st unit :=
  set_carrier carrier ;;;
  let* up := gets (λ s, nd_up (ns_dev s)) in
  if up then if carrier then dev_activate n else dev_deactivate n else cret tt.

End api.
