(* ===== verification/QapiTheorems.v ===== *)
(** * The requests and events of a device are safe

    Every handler of Qapi.v ends, reads no freed object, and keeps the invariant
    [tree]: reference counts are exact, so nothing in use is freed and nothing is
    lost, the hierarchy has no loops, and the hash table and the transmit queues
    hold no dangling pointers. *)

From Stdlib Require Import ZArith Lia.
From stdpp Require Import base numbers list gmap option sets strings.
From S2P Require Import Prelude Sched Stab Qtree QtreeInv QtreeRun Qapi.

Open Scope Z_scope.

Section api.
Context {kind P opt : Type} `{!QdiscKinds kind P opt} `{!NetEnv kind P} `{!NetEnvOk kind P}.
Context {refs : KindRefs (kind := kind) (P := P)} {kok : KindsOk}.
Notation qd := (sqdisc kind P).
Notation st := (nstate kind P).
Implicit Types (s : st) (q : qd).

(** ** The invariant at rest *)

(** Objects that take over a device are made for its root. *)
Definition att_ok q : Prop :=
  is_Some (op_attach (ops (q_ops q))) → q_parent q = TC_H_ROOT ∧ f_ingress (q_flags q) = false.

(** All children are in the hash table, but for those of [X]. *)
Definition objs (X : list Z) s : Prop :=
  ∀ a q, ns_heap s !! a = Some q → att_ok q ∧ (a ∉ X → unhashed (q_priv q) = []).

Definition plain s (a : Z) : Prop := ∃ q, ns_heap s !! a = Some q ∧ op_attach (ops (q_ops q)) = None.

(** Devices on which no reference is ever lost: those with one queue, and those
    that get the [mq] discipline. *)
Definition tidy (d : netdev) : bool := (length (nd_tx d) =? 1)%nat || (nd_multiqueue d && negb (nd_no_queue d)).

Record pre (r : bool) (L : gset Z) (X H : list Z) s : Prop := {
  pr_inv : inv r L ∅ H [] s;
  pr_objs : objs X s;
  pr_ingress v : nd_ingress (ns_dev s) = Some v → plain s (sl_sleeping v);
  pr_tidy : tidy (ns_dev s) = true → ns_leaked s = [];
}.

(** The first transmit queue is empty when the device is. *)
Definition zero_ok s : Prop :=
  nd_qdisc (ns_dev s) = noop_qdisc → ∀ v, slot_of (TxQueue 0) (ns_dev s) = Some v → sl_sleeping v = noop_qdisc.

(** Between two requests nothing is held. *)
Record tree s : Prop := {
  tr_pre : pre true ∅ [] [] s;
  tr_zero : zero_ok s;
}.
Arguments pr_inv {r L X H s} _.
Arguments pr_objs {r L X H s} _.
Arguments pr_ingress {r L X H s} _.
Arguments pr_tidy {r L X H s} _.

(** What the device keeps while its root changes. *)
Definition dev_fixed (d : netdev) :=
  (nd_ifindex d, nd_up d, nd_carrier d, nd_multiqueue d, nd_no_queue d, nd_real_num_tx d, length (nd_tx d), bool_decide (is_Some (nd_ingress d))).

Lemma static_fixed d d' : dev_static d' = dev_static d → dev_fixed d' = dev_fixed d.
Proof. intros [=]. unfold dev_fixed. congruence. Qed.

Lemma fixed_tidy d d' : dev_fixed d' = dev_fixed d → tidy d' = tidy d.
Proof. intros [=]. unfold tidy. congruence. Qed.

Lemma tidy_kept s s' : dev_static (ns_dev s') = dev_static (ns_dev s) → ns_leaked s' = ns_leaked s →
  (tidy (ns_dev s) = true → ns_leaked s = []) → tidy (ns_dev s') = true → ns_leaked s' = [].
Proof. intros Hd%static_fixed%fixed_tidy -> Ht. by rewrite Hd. Qed.

Lemma same_att q q' : same q q' → att_ok q → att_ok q'.
Proof. intros (E1 & _ & E3 & _ & E5 & _) Ha. unfold att_ok. by rewrite E1, E3, E5. Qed.

Lemma objs_evolves L F X s s' : evolves L ∅ F s s' → objs X s → objs X s'.
Proof.
  intros Hev Ho a q' Hq'. destruct (ev_new _ _ _ _ _ Hev a q' Hq') as [(q & Hq & Hs & Hu)|[Hn Hu]]; [set_solver| |].
  - destruct (Ho a q Hq) as [Ha Hu']. split; [by eapply same_att|auto].
  - split; [|done]. unfold att_ok. rewrite Hn. by intros [? ?].
Qed.

Lemma plain_evolves L F s s' a : evolves L ∅ F s s' → is_Some (ns_heap s' !! a) → plain s a → plain s' a.
Proof.
  intros Hev [q' Hq'] (q & Hq & Hn). exists q'. split; [done|].
  destruct (ev_new _ _ _ _ _ Hev a q' Hq') as [(v & Hv & Hs & _)|[Hn' _]]; [set_solver| |done].
  simplify_eq. by destruct Hs as (-> & _).
Qed.

Lemma sleeping_held r L B H U s x : inv r L B H U s → x ∈ sleeping (ns_dev s) → is_Some (ns_heap s !! x).
Proof. intros I Hx. apply (inv_held I). unfold roots. rewrite !elem_of_app. auto. Qed.

Lemma root_held L B H U s : inv true L B H U s → is_Some (ns_heap s !! nd_qdisc (ns_dev s)).
Proof. intros I. apply (inv_held I). unfold roots. by left. Qed.

Lemma held_heap r L B H U s x : inv r L B H U s → x ∈ H → is_Some (ns_heap s !! x).
Proof. intros I Hx. apply (inv_held I). rewrite !elem_of_app. auto. Qed.

(** A step that leaves the slots alone. *)
Lemma pre_evolves r L L' X H H' F {U} s s' : pre r L X H s → inv r L' ∅ H' U s' → evolves L ∅ F s s' → slots_same s s' → pre r L' X H' s'.
Proof.
  intros [I Ho Hi Ht] I' Hev [_ [= Hsl Hl]].
  split; [eapply inv_weaken; [exact I'|done|apply submseteq_nil_l]|by eapply objs_evolves| |by eapply tidy_kept, Ht; [apply (ev_dev _ _ _ _ _ Hev)|]].
  intros v Hv. eapply plain_evolves; [exact Hev| |].
  - eapply sleeping_held; [exact I'|]. apply (sleeping_slot IngressQueue). exact Hv.
  - apply Hi. by rewrite <- Hsl.
Qed.

Lemma pre_calms r L X H s s' : pre r L X H s → calms s s' → pre r L X H s'.
Proof.
  intros Hp Hc. eapply (pre_evolves _ _ _ _ _ _ []); [exact Hp|eapply inv_calms; [apply (pr_inv Hp)|done]|by apply evolves_calms|by apply calms_slots].
Qed.

Lemma zero_calms s s' : calms s s' → zero_ok s → zero_ok s'.
Proof.
  intros Hc Hz. pose proof (cs_dev _ _ Hc) as Hd. unfold zero_ok. rewrite (slot_of_core _ _ _ Hd).
  injection Hd as _ _ _ _ _ _ -> _ _ _. done.
Qed.

Lemma pre_weaken r L X H H' s : pre r L X H s → (∀ x, x ≠ noop_qdisc → occ x H' = occ x H) → pre r L X H' s.
Proof. intros [I Ho Hi Ht] HH. split; [|done..]. by eapply inv_weaken. Qed.

(** The set [L] is free at rest. *)
Lemma pre_setL r L L' X H s : pre r L X H s →
  (∀ a b, edge ∅ (ns_heap s) a b → a ∉ L' → b ∈ L' → b = noop_qdisc) →
  (∀ a, a ∈ L' → is_Some (ns_heap s !! a)) → pre r L' X H s.
Proof. intros [I Ho Hi Ht] H1 H2. split; [|done..]. eapply inv_setL; [exact I|done|done|set_solver]. Qed.

Lemma pre_empty r L X H s : pre r L X H s → pre r ∅ X H s.
Proof. intros Hp. eapply pre_setL; [exact Hp|set_solver..]. Qed.

Lemma pre_all r L X H s : pre r L X H s → pre r (dom (ns_heap s)) X H s.
Proof.
  intros Hp. eapply pre_setL; [exact Hp| |by intros a ?%elem_of_dom].
  intros a b (q & Hq & _) Ha. destruct Ha. by apply elem_of_dom.
Qed.

(** ** Release *)

Lemma put_pre r L X H s a : pre r L X (a :: H) s → (a ∈ L → a = noop_qdisc) →
  settles (λ n, qdisc_put (run n) n a) s (λ _ s', pre r L X H s' ∧ evolves L ∅ H s s' ∧ slots_same s s').
Proof.
  intros Hp HL. eapply settles_mono.
  - apply (put_ok (Z.to_nat (live s)) r L ∅ H [] s a); [apply (pr_inv Hp)|done|by intros x ?%elem_of_nil|].
    pose proof (live_nonneg s). lia.
  - intros [] s' (I' & Hev & Hsl & _). split_and!; [|done..]. by eapply pre_evolves.
Qed.

(** ** Steps that only touch packets and the transmit path *)

Record light s s' : Prop := {
  lt_heap : calms s (with_dev (ns_dev s) s');
  lt_static : dev_static (ns_dev s') = dev_static (ns_dev s);
  lt_sleep dq : sl_sleeping <$> slot_of dq (ns_dev s') = sl_sleeping <$> slot_of dq (ns_dev s);
}.

Lemma calms_light s s' : calms s s' → light s s'.
Proof.
  intros Hc. split.
  - destruct Hc as [H1 H2 H3]. by split.
  - by apply calms_static.
  - intros dq. by rewrite (slot_of_core _ _ _ (cs_dev _ _ Hc)).
Qed.

#[global] Instance light_preorder : PreOrder light.
Proof.
  split.
  - intros s. by apply calms_light.
  - intros s1 s2 s3 [H1 D1 E1] [H2 D2 E2]. split; [|congruence|intros dq; by rewrite E2, E1].
    destruct H1 as [A1 _ L1], H2 as [A2 _ L2]. split; [|done|simpl in *; congruence]. intros a. specialize (A1 a). specialize (A2 a).
    simpl in *. destruct (ns_heap s1 !! a), (ns_heap s2 !! a), (ns_heap s3 !! a); simpl in *; try done. by etrans.
Qed.

Lemma light_slot s dq v a : slot_of dq (ns_dev s) = Some v →
  light s (with_dev (set_slot dq (Slot a (sl_sleeping v)) (ns_dev s)) s).
Proof.
  intros Hv. split; [by apply calms_eq|by eapply set_slot_static|]. intros dq'. simpl. rewrite (slot_of_set _ _ _ _ _ Hv).
  case_decide as Hd; [|done]. subst. by rewrite Hv.
Qed.

Lemma light_valid s s' dq : light s s' → valid_queue (ns_dev s) dq → valid_queue (ns_dev s') dq.
Proof. intros Hl. apply valid_static, (lt_static _ _ Hl). Qed.

Lemma light_heap s s' a : light s s' → is_Some (ns_heap s !! a) → is_Some (ns_heap s' !! a).
Proof. intros Hl. apply (calms_is_Some _ _ _ (lt_heap _ _ Hl)). Qed.

Lemma light_zero s s' : light s s' → zero_ok s → zero_ok s'.
Proof.
  intros [_ Hd Hs] Hz Hr v Hv. specialize (Hs (TxQueue 0)). rewrite Hv in Hs. destruct (slot_of (TxQueue 0) (ns_dev s)) as [w|] eqn:Hw; [|done].
  simpl in Hs. injection Hs as ->. apply Hz; [|done]. injection Hd as _ _ _ _ _ _ E _ _. congruence.
Qed.

Lemma pre_light r L X H s s' : pre r L X H s → inv r L ∅ H [] s' → light s s' → pre r L X H s'.
Proof.
  intros [I Ho Hi Ht] I' [Hc Hd Hs]. set (s1 := with_dev (ns_dev s) s') in *. split; [done| | |by eapply tidy_kept, Ht; [|apply (cs_leaked _ _ Hc)]].
  - intros a q' Hq'. destruct (calms_lookup' s s1 a q' Hc Hq') as (q & Hq & Hcm). destruct (Ho a q Hq) as [Ha Hu].
    split; [eapply same_att; [by apply calm_same|done]|]. destruct Hcm as (_ & _ & _ & _ & _ & _ & _ & _ & -> & _). done.
  - intros v Hv. specialize (Hs IngressQueue). simpl in Hs. rewrite Hv in Hs. destruct (nd_ingress (ns_dev s)) as [w|] eqn:Hw; [|done].
    simpl in Hs. injection Hs as ->. destruct (Hi w eq_refl) as (q & Hq & Hn).
    destruct (calms_lookup s s1 _ q Hc Hq) as (q' & Hq' & (E & _)). exists q'. by rewrite E.
Qed.

(** The discipline the transmit path uses exists. *)
Lemma active_heap r L B H U s dq v : inv r L B H U s → slot_of dq (ns_dev s) = Some v → is_Some (ns_heap s !! sl_qdisc v).
Proof.
  intros I Hv. destruct (inv_active I dq v Hv) as [->|[->|Hl]].
  - destruct (inv_noop I) as (q & Hq & _). by exists q.
  - eapply sleeping_held; [exact I|by eapply sleeping_slot].
  - apply (inv_held I). rewrite !elem_of_app. auto.
Qed.

Lemma settles_slot {A} dq v (g : nat → slot → M st A) s R :
  slot_of dq (ns_dev s) = Some v → settles (λ n, g n v) s R → settles (λ n, cbind (get_slot dq) (g n)) s R.
Proof. intros Hv. apply settles_ext. intros n. unfold cbind, get_slot. by rewrite Hv. Qed.

(** A loop over queues. *)
Lemma each_queue (f : nat → queue → M st unit) l s r L X H : pre r L X H s → (∀ dq, dq ∈ l → valid_queue (ns_dev s) dq) →
  (∀ dq s', pre r L X H s' → valid_queue (ns_dev s') dq → settles (λ n, f n dq) s' (λ _ s'', pre r L X H s'' ∧ light s' s'')) →
  settles (λ n, each (f n) l) s (λ _ s', pre r L X H s' ∧ light s s').
Proof.
  intros Hp Hl Hf. apply (each_settles _ _ (λ s', pre r L X H s' ∧ light s s')); [by split|].
  intros dq s1 Hdq [Hp1 Hl1]. eapply settles_mono; [apply Hf; [done|by eapply light_valid; [|apply Hl]]|].
  intros [] s2 [Hp2 Hl2]. split; [done|by etrans].
Qed.

Lemma all_queues_valid s dq : dq ∈ all_queues s → valid_queue (ns_dev s) dq.
Proof.
  unfold all_queues. rewrite elem_of_app. intros [Hin|Hin].
  - apply list_elem_of_fmap in Hin as (i & -> & Hi). apply lookup_lt_is_Some. apply elem_of_seq in Hi. unfold num_tx in Hi. lia.
  - destruct (nd_ingress (ns_dev s)) eqn:E; [|by apply elem_of_nil in Hin]. apply list_elem_of_singleton in Hin as ->.
    unfold valid_queue. simpl. by rewrite E.
Qed.

Lemma reset_pre r L X H s a : pre r L X H s → is_Some (ns_heap s !! a) → settles (λ n, qdisc_reset n a) s (λ _ s', pre r L X H s' ∧ light s s').
Proof.
  intros Hp Ha. eapply settles_mono; [eapply qdisc_reset_calm; [apply (pr_inv Hp)|by right; left|done]|].
  intros [] s' Hc. split; [by eapply pre_calms|by apply calms_light].
Qed.

Lemma dev_deactivate_queue_ok r L X H s dq : pre r L X H s → valid_queue (ns_dev s) dq →
  settles (λ n, dev_deactivate_queue n dq) s (λ _ s', pre r L X H s' ∧ light s s').
Proof.
  intros Hp [v Hv]. eapply settles_slot; [exact Hv|]. destruct (active_heap _ _ _ _ _ _ _ _ (pr_inv Hp) Hv) as [q Hq].
  eapply settles_get; [exact Hq|].
  eapply (settles_bind _ _ _ (λ _ s1, calms s s1)).
  { destruct (f_builtin (q_flags q)); [by apply settles_ret|]. eapply settles_upd_last; [exact Hq|].
    by eapply (calms_upd _ _ (sl_qdisc v) q (set_deactivated true q)). }
  intros [] s1 Hc1. apply settles_modify. set (s2 := with_dev _ s1).
  assert (slot_of dq (ns_dev s1) = Some v) as Hv1 by (by rewrite (slot_of_core _ _ _ (cs_dev _ _ Hc1))).
  assert (light s s2) as Hl2 by (etrans; [by apply calms_light|by apply light_slot]).
  assert (pre r L X H s2) as Hp2.
  { eapply pre_light; [exact Hp| |done]. eapply (inv_set_active _ _ _ _ _ s1 s2 dq v noop_qdisc); [|done|auto|done..].
    eapply inv_calms; [apply (pr_inv Hp)|done]. }
  eapply settles_mono; [apply (reset_pre _ _ _ _ _ _ Hp2), (light_heap s s2 _ Hl2); by exists q|].
  intros [] s3 [Hp3 Hl3]. split; [done|by etrans].
Qed.

Lemma dev_deactivate_ok r L X H s : pre r L X H s → settles (λ n, dev_deactivate n) s (λ _ s', pre r L X H s' ∧ light s s').
Proof.
  intros Hp. apply settles_gets. pose proof (all_queues_valid s) as Hall.
  eapply settles_bind; [apply (each_queue _ _ _ _ _ _ _ Hp Hall); intros; by apply dev_deactivate_queue_ok|].
  intros [] s1 [Hp1 Hl1]. eapply settles_mono.
  - apply (each_queue _ _ _ _ _ _ _ Hp1); [intros dq Hdq; by eapply light_valid, Hall|].
    intros dq s2 Hp2 [v Hv]. eapply settles_slot; [exact Hv|]. apply reset_pre; [done|]. eapply sleeping_held; [apply (pr_inv Hp2)|].
    by eapply sleeping_slot.
  - intros [] s2 [Hp2 Hl2]. split; [done|by etrans].
Qed.

(** ** Activation *)

Lemma transition_ok r L X H s dq : pre r L X H s → valid_queue (ns_dev s) dq →
  settles (λ _, transition_one_qdisc dq) s (λ _ s', pre r L X H s' ∧ light s s').
Proof.
  intros Hp [v Hv]. eapply settles_slot; [exact Hv|].
  destruct (sleeping_held _ _ _ _ _ _ _ (pr_inv Hp) (sleeping_slot _ _ _ Hv)) as [q Hq]. eapply settles_get; [exact Hq|].
  eapply (settles_bind _ _ _ (λ _ s1, calms s s1)).
  { destruct (f_builtin (q_flags q)); [by apply settles_ret|]. eapply settles_upd_last; [exact Hq|].
    by eapply (calms_upd _ _ (sl_sleeping v) q (set_deactivated false q)). }
  intros [] s1 Hc1. eapply (settles_done _ _ tt); [done|]. set (s2 := with_dev _ s1).
  assert (slot_of dq (ns_dev s1) = Some v) as Hv1 by (by rewrite (slot_of_core _ _ _ (cs_dev _ _ Hc1))).
  assert (light s s2) as Hl2 by (etrans; [by apply calms_light|by apply light_slot]). split; [|done].
  eapply pre_light; [exact Hp| |done]. eapply (inv_set_active _ _ _ _ _ s1 s2 dq v (sl_sleeping v)); [|done|auto|done..].
  eapply inv_calms; [apply (pr_inv Hp)|done].
Qed.

Lemma unhashed_nil p : children p = [] → unhashed p = [].
Proof.
  intros Hc. destruct (unhashed p) as [|b l] eqn:E; [done|]. assert (b ∈ children p) as Hb by (apply children_unhashed; rewrite E; by left).
  rewrite Hc in Hb. by apply elem_of_nil in Hb.
Qed.

(** [ops->attach] of the object that has become the root. *)
Lemma ops_attach_ok H s a q f : pre true {[a]} [a] H s → ns_heap s !! a = Some q → op_attach (ops (q_ops q)) = Some f →
  a ≠ noop_qdisc → (∀ x, ¬ edge ∅ (ns_heap s) x a) → a ∉ sleeping (ns_dev s) → nd_qdisc (ns_dev s) = a → length (children (q_priv q)) = num_tx s →
  settles (λ n, ops_attach n a f) s (λ _ s', pre true ∅ [] H s' ∧ nd_qdisc (ns_dev s') = a ∧
    dev_static (ns_dev s') = dev_static (ns_dev s) ∧ ∃ q', ns_heap s' !! a = Some q' ∧ same q q').
Proof.
  intros Hp Ha Ef Hn Hno Hsl Hroot Hfull. pose proof (pr_inv Hp) as I. eapply settles_get; [exact Ha|].
  pose proof (inv_begin _ _ _ _ _ _ _ _ I Ha) as I1. specialize (I1 (not_elem_of_empty a) Hn (elem_of_singleton_2 _ _ eq_refl)).
  destruct (inv_fits I a q Ha) as [Hfit _].
  assert (a ∉ children (q_priv q)) as Hch by (intros Hin; apply (Hno a); exists q; split_and!; [done|set_solver|done]).
  eapply self_of_ok; [exact Ha|]. intros me _ _ _ Hmq _ Hmn.
  assert (sees (valid_queue (ns_dev s)) me) as Hsees by (eapply sees_valid; [exact I|rewrite Hmq; by apply (inv_queue I a)|done]).
  eapply settles_bind.
  { eapply (prog_run_ok None _ 0 true {[a]} _ _ [] []); [eapply (ok_attach _ _ me (q_priv q) {[a]}); [exact Ef|done|exact Hsees|congruence|set_solver]|exact put_ok|lia|by left|].
    split; [exact I1| |by intros ? ?%elem_of_nil..|done| |done|by intros ? ?%elem_of_nil].
    - intros x Hx. rewrite app_nil_r. by apply children_unhashed.
    - intros _ x Hx ->%elem_of_singleton. done. }
  intros an s1 (H1 & U1 & (-> & Hc1 & Hf1) & I2 & [Hev _ [= Hin Hl] _]). simpl in I2.
  destruct (ev_same _ _ _ _ _ Hev a q Ha) as (q1 & Ha1 & Hs1); [set_solver|].
  assert (a ∈ ({[a]} : gset Z)) as HaL by set_solver.
  destruct (ev_refcnt _ _ _ _ _ Hev a q q1 Ha Ha1 HaL) as [Hr1 _].
  pose proof (ev_dev _ _ _ _ _ Hev) as Hd1. assert (nd_qdisc (ns_dev s1) = a) as Hroot1 by (injection Hd1; congruence).
  eapply settles_upd_last; [exact Ha1|]. set (q2 := set_enqueue _ _). set (s2 := with_heap _ s1).
  assert (inv true {[a]} ∅ H [] s2) as I3.
  { eapply (inv_leave _ _ _ _ _ [] U1 s1 s2 a q1 q2); [by rewrite !app_nil_r in *|done|set_solver|done| |done|done| | |simpl; by destruct Hs1 as (-> & _)|set_solver..|done].
    - rewrite Hr1. apply (inv_alive I a); [done..|set_solver].
    - simpl. by rewrite Hc1.
    - simpl. rewrite (unhashed_nil _ Hc1). apply submseteq_nil_l. }
  split_and!; [|done|done|exists q2; split; [apply lookup_insert_eq|by eapply same_trans; [exact Hs1|]]].
  apply (pre_empty _ {[a]}). split; [done| | |by eapply tidy_kept, (pr_tidy Hp)].
  - intros x q' Hx. destruct (lookup_update _ _ _ _ _ _ Ha1 Hx) as [[-> ->]|[Hne Hx']].
    + destruct (pr_objs Hp a q Ha) as [Hatt _]. split; [eapply same_att; [|exact Hatt]; by eapply same_trans; [exact Hs1|]|].
      intros _. by apply unhashed_nil.
    + destruct (ev_new _ _ _ _ _ Hev x q' Hx') as [(v & Hv & Hs & Hu)|[Hna Hu]]; [set_solver| |].
      * destruct (pr_objs Hp x v Hv) as [Hatt Hun]. split; [by eapply same_att|]. intros _. apply Hu, Hun. set_solver.
      * split; [|done]. unfold att_ok. rewrite Hna. by intros [? ?].
  - intros v Hv. simpl in Hv. rewrite Hin in Hv. destruct (pr_ingress Hp v Hv) as (w & Hw & Hna).
    assert (sl_sleeping v ∈ sleeping (ns_dev s)) as Hvs by (apply (sleeping_slot IngressQueue); exact Hv).
    assert (sl_sleeping v ≠ a) as Hva by (intros E; by rewrite E in Hvs).
    destruct (sleeping_held _ _ _ _ _ _ (sl_sleeping v) I3) as [w' Hw']; [apply (sleeping_slot IngressQueue); simpl; congruence|].
    exists w'. split; [done|]. simpl in Hw'. rewrite lookup_insert_ne in Hw' by done.
    destruct (ev_new _ _ _ _ _ Hev _ w' Hw') as [(z & Hz & Hs & _)|[Hna' _]]; [set_solver| |done].
    simplify_eq. by destruct Hs as (-> & _).
Qed.

(** The first transmit queue holds nothing, or an object made for the root. *)
Definition rootish s : Prop := ∀ v, slot_of (TxQueue 0) (ns_dev s) = Some v →
  sl_sleeping v = noop_qdisc ∨ ∃ q, ns_heap s !! sl_sleeping v = Some q ∧ q_parent q = TC_H_ROOT.

Lemma rootish_evolves F s s' H U : evolves (dom (ns_heap s)) ∅ F s s' → slots_same s s' → inv true ∅ ∅ H U s → rootish s → rootish s'.
Proof.
  intros Hev [Ht _] I Hr v Hv. simpl in Hv. rewrite Ht in Hv. destruct (Hr v Hv) as [|(q & Hq & Hp)]; [by left|]. right.
  destruct (ev_same _ _ _ _ _ Hev _ q Hq) as (q' & Hq' & (_ & _ & E & _)); [left; by apply elem_of_dom|]. exists q'. by rewrite E.
Qed.

(** The store of a new object into a slot; what was there is lost. *)
Lemma store_slot_ok r L X H s i v a : pre r L X (a :: H) s → slot_of (TxQueue i) (ns_dev s) = Some v →
  (tidy (ns_dev s) = true → sl_sleeping v = noop_qdisc) →
  let s' := with_leaked (if sl_sleeping v =? noop_qdisc then ns_leaked s else sl_sleeping v :: ns_leaked s)
    (with_dev (set_slot (TxQueue i) (Slot (sl_qdisc v) a) (ns_dev s)) s) in pre r L X H s'.
Proof.
  intros [I Ho Hi Ht] Hv Hti s'. split; [|done|done|].
  2:{ assert (tidy (ns_dev s') = tidy (ns_dev s)) as -> by (apply fixed_tidy, static_fixed; by eapply set_slot_static).
      intros E. simpl. by rewrite (Hti E), (Ht E). }
  apply (inv_dev r r L ∅ (a :: H) H [] [] s s' I); [done| |done|done|by left| |simpl; by rewrite length_insert|].
  - intros x Hx. pose proof (occ_sleeping_set x (TxQueue i) v (Slot (sl_qdisc v) a) _ Hv) as Hs. unfold roots.
    change (ns_dev s') with (set_slot (TxQueue i) (Slot (sl_qdisc v) a) (ns_dev s)).
    change (nd_qdisc (set_slot _ _ _)) with (nd_qdisc (ns_dev s)). rewrite !occ_app. cbn [occ] in *.
    cbn [s' with_leaked ns_leaked]. destruct (Z.eqb_spec (sl_sleeping v) noop_qdisc) as [E|E]; cbn [occ sl_sleeping] in *; [|lia].
    rewrite E in Hs. destruct (Z.eqb_spec noop_qdisc x); [done|]. lia.
  - intros dq [w Hw]. cbn [s' with_leaked with_dev ns_dev]. rewrite (slot_of_set _ _ _ _ _ Hv). case_decide; eauto.
  - intros dq w. cbn [s' with_leaked with_dev ns_dev ns_leaked]. rewrite (slot_of_set _ _ _ _ _ Hv). case_decide as Hd.
    + intros [= <-]. simpl. destruct (inv_active I _ v Hv) as [|[E|E]]; [by left|..].
      * destruct (Z.eqb_spec (sl_sleeping v) noop_qdisc) as [Z0|]; [left; congruence|]. right. right. rewrite E. by left.
      * right. right. case_match; [done|by right].
    + intros Hw. destruct (inv_active I _ w Hw) as [|[|E]]; [by left|by right; left|]. right. right. case_match; [done|by right].
Qed.

Lemma attach_one_ok H s i : pre true ∅ [] H s → (i < num_tx s)%nat → nd_multiqueue (ns_dev s) = false ∨ nd_no_queue (ns_dev s) = true →
  rootish s → (tidy (ns_dev s) = true → ∀ v, slot_of (TxQueue i) (ns_dev s) = Some v → sl_sleeping v = noop_qdisc) →
  settles (λ n, attach_one_default_qdisc n (TxQueue i)) s (λ _ s', pre true ∅ [] H s' ∧ dev_static (ns_dev s') = dev_static (ns_dev s) ∧ rootish s').
Proof.
  intros Hp Hi Hmq Hro Hti. apply settles_gets. set (k := if nd_no_queue (ns_dev s) then noqueue_ops else ns_default s).
  pose proof (pre_all _ _ _ _ _ Hp) as Hp'. set (L := dom (ns_heap s)) in *.
  eapply settles_bind.
  { apply (create_dflt_ok true L ∅ H [] s (TxQueue i) k TC_H_ROOT (pr_inv Hp')); [by apply lookup_lt_is_Some|by intros x ?%elem_of_nil|].
    intros rk _ k' _. apply create_ok. }
  intros o s1 [Hsl Hres]. destruct o as [a|].
  - destruct Hres as (I1 & HaL & Hev & q & Hnb & Hk & Hpar & Hh & Hset).
    assert (op_attach (ops k) = None ∧ unhashed (q_priv q) = []) as [Hna Hun].
    { destruct Hset as [|(Hs & _ & Hm & _)]; [done|]. destruct Hmq as [Hmq|Hmq]; [congruence|].
      unfold k in Hs. rewrite Hmq, ok_noqueue in Hs. by destruct Hs. }
    pose proof (nb_heap _ _ _ _ Hnb) as Ha1.
    assert (evolves L ∅ H s s1) as Hev1.
    { eapply evolves_unbusy; [exact HaL|exact Hev|by apply evolves_calms|]. intros v Hv. simplify_eq. by rewrite Hk. }
    assert (pre true L [] (a :: H) s1) as Hp1 by by eapply pre_evolves.
    assert (rootish s1) as Hro1 by (by eapply rootish_evolves; [..|apply (pr_inv Hp)|]).
    apply settles_gets. eapply (settles_bind _ _ _ (λ _ s2, calms s1 s2)).
    { case_match; [|by apply settles_ret]. eapply settles_upd_last; [exact Ha1|]. by eapply (calms_upd _ _ a q (map_flags set_onetxqueue_noparent q)). }
    intros [] s2 Hc2. pose proof (pre_calms _ _ _ _ _ _ Hp1 Hc2) as Hp2. destruct (calms_lookup _ _ _ _ Hc2 Ha1) as (q2 & Ha2 & Hq2).
    assert (is_Some (slot_of (TxQueue i) (ns_dev s2))) as [v Hv].
    { rewrite (slot_of_core _ _ _ (cs_dev _ _ Hc2)). simpl. rewrite (proj1 Hsl). by apply lookup_lt_is_Some. }
    eapply settles_slot; [exact Hv|]. apply settles_modify. eapply (settles_done _ _ tt); [done|].
    assert (tidy (ns_dev s2) = true → sl_sleeping v = noop_qdisc) as Hti2.
    { rewrite (fixed_tidy _ _ (static_fixed _ _ (calms_static _ _ Hc2))), (fixed_tidy _ _ (static_fixed _ _ (ev_dev _ _ _ _ _ Hev1))).
      intros E. apply (Hti E). rewrite (slot_of_core _ _ _ (cs_dev _ _ Hc2)) in Hv. simpl in *. by rewrite <- (proj1 Hsl). }
    pose proof (store_slot_ok _ _ _ _ _ _ _ _ Hp2 Hv Hti2) as Hp3. split_and!; [by eapply pre_empty| |].
    + etrans; [by eapply set_slot_static|]. rewrite (calms_static _ _ Hc2). apply (ev_dev _ _ _ _ _ Hev1).
    + intros w. cbn [with_leaked with_dev ns_dev ns_heap]. rewrite (slot_of_set _ _ _ _ _ Hv). case_decide.
      * intros [= <-]. right. exists q2. split; [done|]. destruct Hq2 as (_ & _ & -> & _). done.
      * rewrite (slot_of_core _ _ _ (cs_dev _ _ Hc2)). intros Hw. destruct (Hro1 w Hw) as [|(u & Hu & Hup)]; [by left|]. right.
        destruct (calms_lookup _ _ _ _ Hc2 Hu) as (u2 & Hu2 & (_ & _ & E & _)). exists u2. by rewrite E.
  - destruct Hres as [I1 Hev]. apply settles_ret. split_and!; [eapply pre_empty; by eapply pre_evolves|apply (ev_dev _ _ _ _ _ Hev)|].
    by eapply rootish_evolves; [..|apply (pr_inv Hp)|].
Qed.

(** A reference more. *)
Lemma ref_inc_ok r L X H s a : pre r L X H s → is_Some (ns_heap s !! a) →
  settles (λ _, ref_inc a) s (λ _ s', pre r L X (a :: H) s' ∧ ns_dev s' = ns_dev s ∧
    (∀ B x y, edge B (ns_heap s') x y → edge B (ns_heap s) x y) ∧
    ∀ x q, ns_heap s !! x = Some q → ∃ q', ns_heap s' !! x = Some q' ∧ same q q' ∧ q_priv q' = q_priv q).
Proof.
  intros Hp [q Ha]. pose proof (pr_inv Hp) as I. eapply settles_upd_last; [exact Ha|]. set (q' := set_refcnt _ q). set (s' := with_heap _ s).
  assert (∀ x v, ns_heap s' !! x = Some v → ∃ v0, ns_heap s !! x = Some v0 ∧ same v0 v ∧ q_priv v = q_priv v0) as Hback.
  { intros x v Hv. destruct (lookup_update _ _ _ _ _ _ Ha Hv) as [[-> ->]|[_ Hv']]; [by exists q|by exists v]. }
  assert (∀ x v, ns_heap s !! x = Some v → ∃ v', ns_heap s' !! x = Some v' ∧ same v v' ∧ q_priv v' = q_priv v) as Hforth.
  { intros x v Hv. simpl. destruct (decide (x = a)) as [->|Hne]; [rewrite lookup_insert_eq|rewrite lookup_insert_ne by done]; simplify_eq; by eexists. }
  split_and!; [|done|intros B x y (v & (v0 & Hv0 & _ & Ep)%Hback & HB & Hy); exists v0; by rewrite <- Ep|done]. split; [..|apply (pr_tidy Hp)].
  - assert (q' = set_refcnt (qdisc_refcount_inc (bool_decide (a = noop_qdisc)) (q_refcnt q)) q) as Eq by (unfold q'; by rewrite (inv_builtin I a q Ha)).
    case_bool_decide as Hn.
    + subst a. apply inv_noop_held. eapply inv_calms; [exact I|]. eapply (calms_upd _ _ noop_qdisc q q'); [done| |done..].
      rewrite Eq, refcount_inc_builtin. done.
    + rewrite refcount_inc_ok in Eq. eapply (inv_refcnt _ _ _ _ _ _ s s' a q (q_refcnt q + 1) I Ha Hn); [|set_solver| |by rewrite <- Eq].
      * intros x. simpl. rewrite (Z.eqb_sym a x). case_match; lia.
      * intros _. pose proof (inv_alive I a q Ha Hn). set_solver by lia.
  - intros x v Hv. destruct (Hback x v Hv) as (v0 & Hv0 & Hs & ->). destruct (pr_objs Hp x v0 Hv0) as [Hat Hun]. split; [by eapply same_att|done].
  - intros v Hv. destruct (pr_ingress Hp v Hv) as (w & Hw & Hna). destruct (Hforth _ w Hw) as (w' & Hw' & (E & _) & _). exists w'. by rewrite E.
Qed.

Lemma unroot_pre L X H s : pre true L X H s → pre false L X (nd_qdisc (ns_dev s) :: H) s.
Proof. intros [I Ho Hi Ht]. split; [by apply inv_unroot|done..]. Qed.

Lemma root_pre L X H s a : pre false L X (a :: H) s → pre true L X H (with_dev (set_nd_qdisc a (ns_dev s)) s).
Proof. intros [I Ho Hi Ht]. split; [by eapply inv_root|done..]. Qed.

Lemma noop_pre r L X H s : pre r L X (noop_qdisc :: H) s ↔ pre r L X H s.
Proof. split; intros [I Ho Hi Ht]; (split; [by apply inv_noop_held|done..]). Qed.

(** The order of the two steps does not matter. *)
Lemma root_ref_comm a s : cbind (set_root a) (λ _, ref_inc a) s = cbind (ref_inc a) (λ _, set_root a) s.
Proof. unfold cbind, set_root, ref_inc, modify, upd_q. simpl. by destruct (ns_heap s !! a). Qed.

Definition root_plain s : Prop :=
  nd_qdisc (ns_dev s) = noop_qdisc ∨ ∃ q, ns_heap s !! nd_qdisc (ns_dev s) = Some q ∧ q_parent q = TC_H_ROOT.

Lemma zero_rootish s : zero_ok s → nd_qdisc (ns_dev s) = noop_qdisc → rootish s.
Proof. intros Hz Hn v Hv. left. by apply Hz. Qed.

Lemma attach_loop_ok H s : pre true ∅ [] H s → nd_multiqueue (ns_dev s) = false ∨ nd_no_queue (ns_dev s) = true → rootish s →
  (∀ v, slot_of (TxQueue 0) (ns_dev s) = Some v → sl_sleeping v = noop_qdisc) →
  settles (λ n, each (attach_one_default_qdisc n) (tx_queues s)) s (λ _ s', pre true ∅ [] H s' ∧ dev_static (ns_dev s') = dev_static (ns_dev s) ∧ rootish s').
Proof.
  intros Hp Hmq Hro Hz. destruct (decide (num_tx s = 1%nat)) as [E|E].
  - unfold tx_queues. rewrite E. simpl. eapply settles_bind; [apply (attach_one_ok H s 0 Hp); [lia|done|done|auto]|].
    intros [] s1 Hs1. by apply settles_ret.
  - assert (tidy (ns_dev s) = false) as Hti.
    { unfold tidy. destruct (Nat.eqb_spec (length (nd_tx (ns_dev s))) 1); [done|]. by destruct Hmq as [-> | ->]; rewrite ?andb_false_r. }
    apply (each_settles _ _ (λ s', pre true ∅ [] H s' ∧ dev_static (ns_dev s') = dev_static (ns_dev s) ∧ rootish s')); [done|].
    intros dq s1 Hdq (Hp1 & Hd1 & Hr1). apply list_elem_of_fmap in Hdq as (i & -> & Hi%elem_of_seq).
    rewrite <- (fixed_tidy _ _ (static_fixed _ _ Hd1)) in Hti.
    eapply settles_mono; [apply (attach_one_ok H s1 i Hp1); [| |done|congruence]|].
    + unfold num_tx in *. injection Hd1 as _ _ _ _ _ _ _ -> _. lia.
    + injection Hd1 as _ _ _ -> -> _ _ _ _. done.
    + intros [] s2 (Hp2 & Hd2 & Hr2). split_and!; [done|congruence|done].
Qed.

(** The objects the queues got, one for each. *)
Lemma attach_each_ok H s : pre true ∅ [] H s → nd_multiqueue (ns_dev s) = false ∨ nd_no_queue (ns_dev s) = true → zero_ok s →
  nd_qdisc (ns_dev s) = noop_qdisc →
  settles (λ n, let* l := gets tx_queues in
     each (attach_one_default_qdisc n) l ;;;
     let* v := get_slot (TxQueue 0) in
     set_root (sl_sleeping v) ;;;
     ref_inc (sl_sleeping v)) s (λ _ s', pre true ∅ [] H s' ∧ dev_fixed (ns_dev s') = dev_fixed (ns_dev s) ∧ zero_ok s' ∧ root_plain s').
Proof.
  intros Hp Hmq Hz Hnd. apply settles_gets.
  eapply settles_bind; [apply (attach_loop_ok H s Hp Hmq (zero_rootish s Hz Hnd) (Hz Hnd))|].
  intros [] s1 (Hp1 & Hd1 & Hr1).
  assert (is_Some (slot_of (TxQueue 0) (ns_dev s1))) as [v Hv].
  { apply lookup_lt_is_Some. pose proof (inv_tx (pr_inv Hp1)). lia. }
  eapply settles_slot; [exact Hv|]. set (a := sl_sleeping v).
  apply (settles_ext _ (λ _, cbind (ref_inc a) (λ _, set_root a))); [intros n; apply root_ref_comm|].
  assert (nd_qdisc (ns_dev s1) = noop_qdisc) as Hnd1 by (injection Hd1; congruence).
  pose proof (unroot_pre _ _ _ _ Hp1) as Hp2. rewrite Hnd1 in Hp2. apply (proj1 (noop_pre _ _ _ _ _)) in Hp2.
  eapply settles_bind; [apply (ref_inc_ok _ _ _ _ _ a Hp2), (sleeping_held _ _ _ _ _ _ _ (pr_inv Hp2)); by eapply sleeping_slot|].
  intros [] s3 (Hp3 & Hd3 & _ & Hh3). eapply (settles_done _ _ tt); [done|]. split_and!.
  - exact (root_pre _ _ _ _ _ Hp3).
  - simpl. rewrite Hd3. exact (static_fixed _ _ Hd1).
  - intros Ha w. simpl in *. rewrite Hd3. intros Hw. by simplify_eq/=.
  - destruct (Hr1 v Hv) as [|(q & Hq & Hpar)]; [by left|]. right. destruct (Hh3 _ q Hq) as (q' & Hq' & (_ & _ & E & _) & _). exists q'. split; [done|congruence].
Qed.

(** A step that makes the object at [a]. *)
Lemma pre_born r L L' H H' F U s s' a q : pre r L [] H s → inv r L' ∅ H' U s' → evolves L ({[a]} ∪ ∅) F s s' → slots_same s s' →
  ns_heap s' !! a = Some q → att_ok q → a ∉ sleeping (ns_dev s') → pre r L' [a] H' s'.
Proof.
  intros [I Ho Hi Ht] I' Hev [_ [= Hsl Hl]] Ha Hat Has.
  assert (∀ x v, ns_heap s' !! x = Some v → x ≠ a → (∃ w, ns_heap s !! x = Some w ∧ same w v ∧ (unhashed (q_priv w) = [] → unhashed (q_priv v) = [])) ∨
    (op_attach (ops (q_ops v)) = None ∧ unhashed (q_priv v) = [])) as Hnew.
  { intros x v Hx Hne. apply (ev_new _ _ _ _ _ Hev x v Hx). set_solver. }
  split; [eapply inv_weaken; [exact I'|done|apply submseteq_nil_l]| | |by eapply tidy_kept, Ht; [apply (ev_dev _ _ _ _ _ Hev)|]].
  - intros x v Hx. destruct (decide (x = a)) as [->|Hne]; [simplify_eq; split; [done|]; intros []; by left|].
    destruct (Hnew x v Hx Hne) as [(w & Hw & Hs & Hu)|[Hna Hu]].
    + destruct (Ho x w Hw) as [Hatt Hun]. split; [by eapply same_att|]. intros _. apply Hu, Hun. by intros ?%elem_of_nil.
    + split; [|done]. unfold att_ok. rewrite Hna. by intros [? ?].
  - intros v Hv. assert (sl_sleeping v ∈ sleeping (ns_dev s')) as Hvs by (by apply (sleeping_slot IngressQueue)).
    destruct (sleeping_held _ _ _ _ _ _ _ I' Hvs) as [u Hu]. exists u. split; [done|].
    destruct (Hnew _ u Hu) as [(w & Hw & (E & _) & _)|[? _]]; [by intros E; rewrite E in Hvs| |done].
    rewrite Hsl in Hv. destruct (Hi v Hv) as (w' & Hw' & Hna). by simplify_eq; rewrite E.
Qed.

(** The device does not hold a new object. *)
Lemma newborn_roots r L H U s a q : inv r L ∅ (a :: H) U s → ns_heap s !! a = Some q → a ≠ noop_qdisc → q_refcnt q = 1 → a ∉ roots r (ns_dev s).
Proof.
  intros I Ha Hn Hr. pose proof (inv_count I a q Ha Hn) as Hc. cbn [occ] in Hc. rewrite Z.eqb_refl in Hc.
  rewrite occ_zero. pose proof (occ_nonneg a (roots r (ns_dev s))).
  pose proof (occ_nonneg a H). pose proof (occ_nonneg a (ns_leaked s)). pose proof (owned_nonneg children ∅ (ns_heap s) a). lia.
Qed.

Lemma newborn_slots r L H U s a q : inv r L ∅ (a :: H) U s → ns_heap s !! a = Some q → a ≠ noop_qdisc → q_refcnt q = 1 → a ∉ sleeping (ns_dev s).
Proof. intros I Ha Hn Hr Hin. eapply newborn_roots; [exact I|done..|]. unfold roots. apply elem_of_app. by right. Qed.

(** Multiqueue devices get the [mq] discipline. *)
Lemma attach_mq_ok H s : pre true ∅ [] H s → nd_qdisc (ns_dev s) = noop_qdisc → zero_ok s →
  settles (λ n, let* o := qdisc_create_dflt (run n) n (Some (TxQueue 0)) mq_ops TC_H_ROOT in
     match o with
     | None => cret tt
     | Some a =>
         set_root a ;;;
         match op_attach (ops mq_ops) with
         | Some f => ops_attach n a f
         | None => cfail
         end
     end) s (λ _ s', pre true ∅ [] H s' ∧ dev_fixed (ns_dev s') = dev_fixed (ns_dev s) ∧ zero_ok s' ∧ root_plain s').
Proof.
  intros Hp Hnd Hz. pose proof (pre_all _ _ _ _ _ Hp) as Hp'. set (L := dom (ns_heap s)) in *.
  eapply settles_bind.
  { apply (create_dflt_ok true L ∅ H [] s (TxQueue 0) mq_ops TC_H_ROOT (pr_inv Hp')); [|by intros x ?%elem_of_nil|intros rk _ k' _; apply create_ok].
    apply lookup_lt_is_Some. pose proof (inv_tx (pr_inv Hp)). lia. }
  intros o s1 [Hsl Hres]. destruct o as [a|].
  - destruct Hres as (I1 & HaL & Hev & q & [Ha Hn _ Hr Hno] & Hk & Hpar & Hin & Hset). pose proof (ev_dev _ _ _ _ _ Hev) as Hd1.
    assert (nd_qdisc (ns_dev s1) = noop_qdisc) as Hnd1 by (injection Hd1; congruence).
    assert (length (children (q_priv q)) = num_tx s1) as Hfull.
    { destruct Hset as [[Hna _]|(_ & _ & _ & ->)]; [destruct ok_mq; congruence|]. unfold num_tx. injection Hd1; congruence. }
    assert (a ∉ sleeping (ns_dev s1)) as Has by (by eapply newborn_slots).
    assert (pre true L [a] (a :: H) s1) as Hp1 by (eapply (pre_born _ _ _ _ _ H _ s s1 a q); done).
    assert (pre true {[a]} [a] H (with_dev (set_nd_qdisc a (ns_dev s1)) s1)) as Hp2.
    { apply root_pre. apply unroot_pre in Hp1. rewrite Hnd1 in Hp1. apply (proj1 (noop_pre _ _ _ _ _)) in Hp1.
      eapply pre_setL; [exact Hp1|intros x y He Hx ->%elem_of_singleton; by apply Hno in He|intros x ->%elem_of_singleton; by exists q]. }
    apply settles_modify. destruct ok_mq as [f Ef]. rewrite Ef.
    eapply settles_mono; [eapply (ops_attach_ok H _ a q f Hp2); [exact Ha|by rewrite Hk|done..]|].
    intros [] s3 (Hp3 & Hnd3 & Hd3 & q3 & Ha3 & (_ & _ & E3 & _)). split_and!; [done| |intros E; congruence|].
    + rewrite (static_fixed _ _ Hd3). exact (static_fixed _ _ Hd1).
    + right. exists q3. rewrite Hnd3. split; [done|congruence].
  - destruct Hres as [I1 Hev]. pose proof (ev_dev _ _ _ _ _ Hev) as Hd1. apply settles_ret.
    assert (nd_qdisc (ns_dev s1) = noop_qdisc) as Hnd1 by (injection Hd1; congruence).
    split_and!; [eapply pre_empty; by eapply pre_evolves|by apply static_fixed| |by left].
    intros _ v Hv. apply (Hz Hnd). simpl in *. by rewrite <- (proj1 Hsl).
Qed.

Lemma attach_default_qdiscs_ok H s : pre true ∅ [] H s → nd_qdisc (ns_dev s) = noop_qdisc → zero_ok s →
  settles (λ n, attach_default_qdiscs n) s (λ _ s', pre true ∅ [] H s' ∧ dev_fixed (ns_dev s') = dev_fixed (ns_dev s) ∧ zero_ok s').
Proof.
  intros Hp Hnd Hz. apply settles_gets.
  eapply (settles_bind _ _ _ (λ _ s', pre true ∅ [] H s' ∧ dev_fixed (ns_dev s') = dev_fixed (ns_dev s) ∧ zero_ok s' ∧ root_plain s')).
  { destruct (nd_multiqueue (ns_dev s)) eqn:E1, (nd_no_queue (ns_dev s)) eqn:E2; simpl;
      [apply attach_each_ok; auto|by apply attach_mq_ok|apply attach_each_ok; auto..]. }
  intros [] s1 (Hp1 & Hf1 & Hz1 & Hr1). apply settles_gets. destruct (Z.eqb_spec (nd_qdisc (ns_dev s1)) noop_qdisc) as [E|E]; simpl; [by apply settles_ret|].
  destruct Hr1 as [|(q & Hq & Hpar)]; [done|]. eapply settles_get; [exact Hq|]. unfold hashable. rewrite Hpar. by apply settles_ret.
Qed.

Lemma light_fixed s s' : light s s' → dev_fixed (ns_dev s') = dev_fixed (ns_dev s).
Proof. intros Hl. apply static_fixed, (lt_static _ _ Hl). Qed.

Lemma transitions_ok r L X H s : pre r L X H s → settles (λ _, let* l := gets all_queues in each transition_one_qdisc l) s (λ _ s', pre r L X H s' ∧ light s s').
Proof.
  intros Hp. apply settles_gets, (each_queue (λ _, transition_one_qdisc) _ _ _ _ _ _ Hp (all_queues_valid s)). intros. by apply transition_ok.
Qed.

(** A device with a root keeps it. *)
Lemma activate_light r L X H s : pre r L X H s → nd_qdisc (ns_dev s) ≠ noop_qdisc →
  settles (λ n, dev_activate n) s (λ _ s', pre r L X H s' ∧ light s s').
Proof.
  intros Hp Hn. apply settles_gets. destruct (Z.eqb_spec (nd_qdisc (ns_dev s)) noop_qdisc); [done|].
  eapply (settles_bind _ _ _ (λ _ s1, s1 = s)); [by apply settles_ret|]. intros [] s1 ->. apply settles_gets. destruct (nd_carrier _); [by apply transitions_ok|by apply settles_ret].
Qed.

Lemma dev_activate_ok H s : pre true ∅ [] H s → zero_ok s →
  settles (λ n, dev_activate n) s (λ _ s', pre true ∅ [] H s' ∧ dev_fixed (ns_dev s') = dev_fixed (ns_dev s) ∧ zero_ok s').
Proof.
  intros Hp Hz. apply settles_gets.
  eapply (settles_bind _ _ _ (λ _ s', pre true ∅ [] H s' ∧ dev_fixed (ns_dev s') = dev_fixed (ns_dev s) ∧ zero_ok s')).
  { destruct (Z.eqb_spec (nd_qdisc (ns_dev s)) noop_qdisc); [by apply attach_default_qdiscs_ok|by apply settles_ret]. }
  intros [] s1 (Hp1 & Hf1 & Hz1). apply settles_gets. destruct (nd_carrier _); [|by apply settles_ret]. apply settles_gets.
  eapply settles_mono; [apply (each_queue (λ _, transition_one_qdisc) _ _ _ _ _ _ Hp1 (all_queues_valid s1)); intros; by apply transition_ok|].
  intros [] s2 [Hp2 Hl2]. split_and!; [done|by rewrite (light_fixed _ _ Hl2)|by eapply light_zero].
Qed.

(** ** The life of the device *)

Lemma pre_dev r L X H s d : pre r L X H s → nd_qdisc d = nd_qdisc (ns_dev s) → nd_tx d = nd_tx (ns_dev s) → nd_ingress d = nd_ingress (ns_dev s) →
  nd_hash d = nd_hash (ns_dev s) → nd_multiqueue d = nd_multiqueue (ns_dev s) → nd_no_queue d = nd_no_queue (ns_dev s) → pre r L X H (with_dev d s).
Proof.
  intros [I Ho Hi Ht] E1 E2 E3 E4 E5 E6. assert (∀ dq, slot_of dq d = slot_of dq (ns_dev s)) as Es by (intros []; simpl; congruence).
  split; [|done|simpl; by rewrite E3|unfold tidy; simpl; by rewrite E2, E5, E6].
  eapply (inv_dev r r L ∅ H H [] [] s _ I); simpl.
  - done.
  - intros x _. unfold roots, sleeping. by rewrite E1, E2, E3.
  - intros x. rewrite E4. lia.
  - done.
  - intros x. rewrite E4. auto.
  - intros dq. by rewrite Es.
  - by rewrite E2.
  - intros dq v. rewrite Es. apply (inv_active I).
Qed.

(** The steps of a device at rest. *)
Lemma tree_light s s' : tree s → pre true ∅ [] [] s' → light s s' → tree s'.
Proof. intros [_ Hz] Hp Hl. split; [done|by eapply light_zero]. Qed.

Lemma tree_calms s s' : tree s → calms s s' → tree s'.
Proof. intros [Hp Hz] Hc. split; [by eapply pre_calms|by eapply zero_calms]. Qed.

Lemma tree_dev s d : tree s → nd_qdisc d = nd_qdisc (ns_dev s) → nd_tx d = nd_tx (ns_dev s) → nd_ingress d = nd_ingress (ns_dev s) →
  nd_hash d = nd_hash (ns_dev s) → nd_multiqueue d = nd_multiqueue (ns_dev s) → nd_no_queue d = nd_no_queue (ns_dev s) → tree (with_dev d s).
Proof.
  intros [Hp Hz] E1 E2 E3 E4 E5 E6. split; [by apply pre_dev|]. unfold zero_ok. simpl. by rewrite E1, E2.
Qed.

Lemma activate_tree s : tree s → settles (λ n, dev_activate n) s (λ _ s', tree s').
Proof. intros [Hp Hz]. eapply settles_mono; [by apply dev_activate_ok|]. intros [] s' (Hp' & _ & Hz'). by split. Qed.

Lemma deactivate_tree s : tree s → settles (λ n, dev_deactivate n) s (λ _ s', tree s').
Proof. intros Ht. eapply settles_mono; [apply dev_deactivate_ok, (tr_pre _ Ht)|]. intros [] s' [Hp' Hl]. by eapply tree_light. Qed.

Lemma dev_open_ok s : tree s → settles (λ n, dev_open n) s (λ _ s', tree s').
Proof. intros Ht. apply settles_modify, activate_tree. by apply tree_dev. Qed.

Lemma dev_close_ok s : tree s → settles (λ n, dev_close n) s (λ _ s', tree s').
Proof. intros Ht. eapply settles_bind; [by apply deactivate_tree|]. intros [] s' Ht'. eapply (settles_done _ _ tt); [done|]. by apply tree_dev. Qed.

Lemma linkwatch_ok s b : tree s → settles (λ n, linkwatch_do_dev n b) s (λ _ s', tree s').
Proof.
  intros Ht. apply settles_modify, settles_gets. match goal with |- settles _ ?s1 _ => assert (tree s1) as Ht' by (by apply tree_dev) end.
  case_match; [|apply settles_ret; exact Ht']. destruct b; [apply activate_tree|apply deactivate_tree]; exact Ht'.
Qed.

Lemma change_len_loop_ok r L X H s0 s l : pre r L X H s0 → calms s0 s → (∀ dq, dq ∈ l → valid_queue (ns_dev s0) dq) →
  settles (λ _, change_len_loop l) s (λ _ s', calms s0 s').
Proof.
  intros Hp. revert s. induction l as [|dq l IH]; intros s Hc Hl; [by apply settles_ret|]. simpl.
  pose proof (pr_inv (pre_calms _ _ _ _ _ _ Hp Hc)) as I. destruct (Hl dq) as [v Hv]; [by left|].
  rewrite <- (slot_of_core _ _ _ (cs_dev _ _ Hc)) in Hv. eapply settles_slot; [exact Hv|].
  destruct (sleeping_held _ _ _ _ _ _ _ I (sleeping_slot _ _ _ Hv)) as [q Hq]. eapply settles_get; [exact Hq|]. apply settles_gets.
  assert (∀ dq, dq ∈ l → valid_queue (ns_dev s0) dq) as Hl' by (intros dq' Hd; apply Hl; by right).
  destruct (op_change_tx_queue_len (ops (q_ops q))) as [f|] eqn:Ef; [|by apply IH].
  eapply settles_upd; [exact Hq|]. set (p := (f _ _).2). match goal with |- settles _ ?s2 _ => set (s1 := s2) end.
  assert (calms s0 s1) as Hc1.
  { etrans; [exact Hc|]. eapply (calms_upd s s1 (sl_sleeping v) q (set_qpriv p q)); [done| |done..]. eapply keeps_refs_calm; [done|].
    eapply ok_tx_len; [exact Ef|]. by apply (inv_fits I (sl_sleeping v)). }
  case_match; [by apply IH|by apply settles_ret].
Qed.

Lemma tx_queues_valid s dq : dq ∈ tx_queues s → valid_queue (ns_dev s) dq.
Proof. intros Hd. apply all_queues_valid. unfold all_queues. rewrite elem_of_app. auto. Qed.

Lemma change_len_tree s : tree s → settles (λ n, dev_qdisc_change_tx_queue_len n) s (λ _ s', tree s').
Proof.
  intros Ht. apply settles_gets. eapply (settles_bind _ _ _ (λ _ s', tree s')); [case_match; [by apply deactivate_tree|by apply settles_ret]|].
  intros [] s1 Ht1. apply settles_gets.
  eapply settles_bind; [by apply (change_len_loop_ok _ _ _ _ _ s1 _ (tr_pre _ Ht1)); [|apply tx_queues_valid]|].
  intros ret s2 Hc. assert (tree s2) as Ht2 by by eapply tree_calms.
  eapply (settles_bind _ _ _ (λ _ s', tree s')); [case_match; [by apply activate_tree|by apply settles_ret]|].
  intros [] s3 Ht3. by apply settles_ret.
Qed.

Lemma dev_change_len_ok s veto len : tree s → settles (λ n, dev_change_tx_queue_len n veto len) s (λ _ s', tree s').
Proof.
  intros Ht. apply settles_gets. do 2 (case_match; [by apply settles_ret|]). apply settles_modify.
  assert (tree (with_dev (set_nd_len len (ns_dev s)) s)) as Ht1 by by apply tree_dev.
  eapply (settles_bind _ _ _ (λ _ s', tree s')); [case_match; [by apply settles_ret|by apply change_len_tree]|].
  intros res s2 Ht2. case_match; [by apply settles_ret|]. apply settles_modify, settles_ret. by apply tree_dev.
Qed.

(** ** The end of the device *)

Lemma noop_plain r L B H U s : inv r L B H U s → plain s noop_qdisc.
Proof. intros I. destruct (inv_noop I) as (q & Hq & Ho & _). exists q. split; [done|]. rewrite Ho. apply ok_noop. Qed.

(** A slot gets another object, and what it held is in hand. *)
Lemma graft_slot_pre r L X H s dq v a : pre r L X (a :: H) s → slot_of dq (ns_dev s) = Some v → (dq = IngressQueue → plain s a) →
  pre r L X (sl_sleeping v :: H) (with_dev (set_slot dq (Slot noop_qdisc a) (ns_dev s)) s).
Proof.
  intros [I Ho Hi Ht] Hv Hpl. split; [|done| |].
  - eapply (inv_slot _ _ _ (a :: H) H _ s _ dq v (Slot noop_qdisc a)); [exact I|exact Hv|done|by left|done..].
  - intros w Hw. change (slot_of IngressQueue (set_slot dq (Slot noop_qdisc a) (ns_dev s)) = Some w) in Hw.
    rewrite (slot_of_set _ _ _ _ _ Hv) in Hw. case_decide; [|exact (Hi w Hw)]. simplify_eq/=. exact (Hpl eq_refl).
  - assert (tidy (set_slot dq (Slot noop_qdisc a) (ns_dev s)) = tidy (ns_dev s)) as E by (apply fixed_tidy, static_fixed; by eapply set_slot_static).
    simpl. by rewrite E.
Qed.

Lemma clear_slot_pre r L X H s dq v : pre r L X H s → slot_of dq (ns_dev s) = Some v →
  pre r L X (sl_sleeping v :: H) (with_dev (set_slot dq (Slot noop_qdisc noop_qdisc) (ns_dev s)) s).
Proof. intros Hp Hv. apply graft_slot_pre; [by apply noop_pre|done|]. intros _. exact (noop_plain _ _ _ _ _ _ (pr_inv Hp)). Qed.

Lemma shutdown_queue_ok r H s dq : pre r ∅ [] H s → valid_queue (ns_dev s) dq →
  settles (λ n, shutdown_scheduler_queue n dq) s (λ _ s', pre r ∅ [] H s' ∧ dev_static (ns_dev s') = dev_static (ns_dev s) ∧
    ∀ dq' v', slot_of dq' (ns_dev s') = Some v' → v' = Slot noop_qdisc noop_qdisc ∨ (dq' ≠ dq ∧ slot_of dq' (ns_dev s) = Some v')).
Proof.
  intros Hp [v Hv]. eapply settles_slot; [exact Hv|]. apply settles_modify. pose proof (clear_slot_pre _ _ _ _ _ _ _ Hp Hv) as Hp1.
  eapply settles_mono; [apply (put_pre _ _ _ _ _ _ Hp1); set_solver|]. intros [] s2 (Hp2 & Hev & [Ht [= Hi _]]). split_and!; [done| |].
  - rewrite (ev_dev _ _ _ _ _ Hev). by eapply set_slot_static.
  - intros dq' v' Hv'. assert (slot_of dq' (set_slot dq (Slot noop_qdisc noop_qdisc) (ns_dev s)) = Some v') as Hs.
    { rewrite <- Hv'. destruct dq' as [i| |]; simpl; [by rewrite Ht|by rewrite Hi|done]. }
    rewrite (slot_of_set _ _ _ _ _ Hv) in Hs. case_decide; [left; congruence|by right].
Qed.

Lemma shutdown_loop_ok r H l s : pre r ∅ [] H s → (∀ dq, dq ∈ l → valid_queue (ns_dev s) dq) →
  settles (λ n, each (shutdown_scheduler_queue n) l) s (λ _ s', pre r ∅ [] H s' ∧ dev_static (ns_dev s') = dev_static (ns_dev s) ∧
    ∀ dq' v', slot_of dq' (ns_dev s') = Some v' → v' = Slot noop_qdisc noop_qdisc ∨ (dq' ∉ l ∧ slot_of dq' (ns_dev s) = Some v')).
Proof.
  revert s. induction l as [|dq l IH]; intros s Hp Hl.
  - apply settles_ret. split_and!; [done..|]. intros dq' v' Hv'. right. split; [by apply not_elem_of_nil|done].
  - simpl. eapply settles_bind; [apply shutdown_queue_ok; [done|apply Hl; by left]|]. intros [] s1 (Hp1 & Hd1 & Hs1).
    eapply settles_mono; [apply (IH s1 Hp1)|].
    + intros dq' Hd. eapply valid_static; [exact Hd1|]. apply Hl. by right.
    + intros [] s2 (Hp2 & Hd2 & Hs2). split_and!; [done|congruence|]. intros dq' v' Hv'. destruct (Hs2 _ _ Hv') as [|[Hn Hv1]]; [by left|].
      destruct (Hs1 _ _ Hv1) as [|[Hn' Hv0]]; [by left|]. right. rewrite elem_of_cons. tauto.
Qed.

Lemma all_queues_all s dq : valid_queue (ns_dev s) dq → dq ∈ all_queues s.
Proof.
  unfold all_queues. rewrite elem_of_app. intros [v Hv]. destruct dq as [i| |]; simpl in Hv; [left|right|done].
  - apply list_elem_of_fmap. exists i. split; [done|]. apply elem_of_seq. apply lookup_lt_Some in Hv. unfold num_tx. lia.
  - rewrite Hv. by left.
Qed.

Lemma dev_shutdown_ok s : tree s → settles (λ n, dev_shutdown n) s (λ _ s', tree s' ∧ dev_fixed (ns_dev s') = dev_fixed (ns_dev s) ∧
  ∀ x, x ∈ roots true (ns_dev s') → x = noop_qdisc).
Proof.
  intros [Hp Hz]. apply settles_gets. eapply settles_bind; [apply (shutdown_loop_ok _ _ _ _ Hp), all_queues_valid|].
  intros [] s1 (Hp1 & Hd1 & Hs1). apply settles_gets.
  assert (∀ dq v, slot_of dq (ns_dev s1) = Some v → v = Slot noop_qdisc noop_qdisc) as Hno.
  { intros dq v Hv. destruct (Hs1 _ _ Hv) as [|[Hn Hv0]]; [done|]. destruct Hn. apply all_queues_all. by exists v. }
  eapply settles_bind; [apply (put_pre _ _ _ _ _ _ (unroot_pre _ _ _ _ Hp1)); set_solver|]. intros [] s2 (Hp2 & Hev & [Ht [= Hi _]]).
  eapply (settles_done _ _ tt); [done|]. set (s3 := with_dev _ s2).
  assert (∀ dq v, slot_of dq (ns_dev s3) = Some v → v = Slot noop_qdisc noop_qdisc) as Hno3.
  { intros dq v Hv. apply (Hno dq). rewrite <- Hv. destruct dq; simpl; congruence. }
  split_and!; [split| |].
  - apply root_pre. by apply noop_pre.
  - intros _ v Hv. by rewrite (Hno3 _ _ Hv).
  - etrans; [exact (static_fixed _ _ (ev_dev _ _ _ _ _ Hev))|by apply static_fixed].
  - intros x. unfold roots, sleeping. rewrite !elem_of_app. intros [Hx|[Hx|Hx]].
    + by apply list_elem_of_singleton in Hx.
    + apply list_elem_of_fmap in Hx as (v & -> & Hv). apply list_elem_of_lookup in Hv as [i Hv]. by rewrite (Hno3 (TxQueue i) v Hv).
    + destruct (nd_ingress (ns_dev s3)) as [v|] eqn:E; [|by apply elem_of_nil in Hx]. apply list_elem_of_singleton in Hx as ->.
      by rewrite (Hno3 IngressQueue v E).
Qed.

(** ** Nothing is left behind *)

Lemma edge_irrefl r L B H U s x : inv r L B H U s → ¬ tc (edge B (ns_heap s)) x x.
Proof.
  intros I. induction (inv_wf I x) as [x _ IH]. intros Hx. inversion Hx as [? ? He|? y ? He Hy]; subst.
  - by apply (IH x He).
  - apply (IH y He). by eapply tc_r.
Qed.

(** An object that is not referenced from outside has an owner. *)
Lemma owned_pos f B (h : gmap Z qd) a : 1 ≤ owned_by f B h a → ∃ x q, h !! x = Some q ∧ x ∉ B ∧ a ∈ f (q_priv q).
Proof.
  unfold owned_by. induction h as [|k v m Hn IH] using map_ind; [done|]. rewrite hsum_insert by done.
  assert (1 ≤ hsum (λ b q, if bool_decide (b ∈ B) then 0 else occ a (f (q_priv q))) m → ∃ x q, <[k := v]> m !! x = Some q ∧ x ∉ B ∧ a ∈ f (q_priv q)) as IH'.
  { intros (x & q & Hq & Hx)%IH. exists x, q. rewrite lookup_insert_ne; [done|]. intros ->. congruence. }
  case_bool_decide as Hk; [by apply IH'|]. destruct (decide (a ∈ f (q_priv v))) as [Ha|Ha%occ_zero].
  - intros _. exists k, v. by rewrite lookup_insert_eq.
  - rewrite Ha. apply IH'.
Qed.

(** Going from an object to its owners ends. *)
Lemma owners_end r L H U s a : inv r L ∅ H U s → sn (flip (edge ∅ (ns_heap s))) a.
Proof.
  intros I. apply tc_finite_sn.
  - intros x Hx. apply (edge_irrefl _ _ _ _ _ _ x I). clear I. revert Hx. generalize (edge ∅ (ns_heap s)) as R. intros R Hx.
    assert (∀ y z, tc (flip R) y z → tc R z y) as Hf; [|by apply Hf]. induction 1; [by apply tc_once|by eapply tc_r].
  - exists (elements (dom (ns_heap s))). intros x Hx. apply elem_of_elements, elem_of_dom.
    induction Hx as [y z (q & Hq & _)|]; [by exists q|done].
Qed.

(** Every object is reached from a root, a reference in hand or a lost one. *)
Lemma no_garbage r L H U s a : inv r L ∅ H U s → is_Some (ns_heap s !! a) → a ≠ noop_qdisc →
  ∃ x, x ∈ roots r (ns_dev s) ++ H ++ ns_leaked s ∧ rtc (edge ∅ (ns_heap s)) x a.
Proof.
  intros I. pose proof (owners_end _ _ _ _ _ a I) as Hsn.
  induction Hsn as [a _ IH]. intros [q Ha] Hn.
  destruct (decide (a ∈ roots r (ns_dev s) ++ H ++ ns_leaked s)) as [Hin|Hin]; [by exists a|].
  destruct (owned_pos children ∅ (ns_heap s) a) as (x & q' & Hq' & _ & Hc).
  { pose proof (inv_count I a q Ha Hn) as E. assert (0 < q_refcnt q) by (apply (inv_alive I a); [done..|set_solver]).
    rewrite !not_elem_of_app, !occ_zero in Hin. lia. }
  assert (edge ∅ (ns_heap s) x a) as He by (exists q'; split_and!; [done|set_solver|done]).
  destruct (IH x He) as (y & Hy & Hr); [by exists q'| |exists y; split; [done|by eapply rtc_r]].
  intros ->. destruct (inv_noop I) as (v & Hv & _ & _ & E). simplify_eq. rewrite E in Hc. by apply elem_of_nil in Hc.
Qed.

(** The objects above [a], and [a] itself. *)
Record above s (a : Z) (A : gset Z) : Prop := {
  ab_self : a ∈ A;
  ab_heap x : x ∈ A → is_Some (ns_heap s !! x);
  ab_up x y : edge ∅ (ns_heap s) x y → y ∈ A → x ∈ A;
  ab_reach x : x ∈ A → rtc (edge ∅ (ns_heap s)) x a;
}.

Lemma above_exists r L H U s a : inv r L ∅ H U s → is_Some (ns_heap s !! a) → ∃ A, above s a A.
Proof.
  intros I. induction (owners_end _ _ _ _ _ a I) as [a _ IH]. intros Ha.
  assert (∀ l : list Z, (∀ x, x ∈ l → edge ∅ (ns_heap s) x a) → ∃ A : gset Z, (∀ x, x ∈ l → x ∈ A) ∧ (∀ x, x ∈ A → is_Some (ns_heap s !! x)) ∧
    (∀ x y, edge ∅ (ns_heap s) x y → y ∈ A → x ∈ A) ∧ (∀ x, x ∈ A → rtc (edge ∅ (ns_heap s)) x a)) as Hl.
  { induction l as [|p l IHl]; intros Hl; [exists ∅; set_solver|].
    assert (edge ∅ (ns_heap s) p a) as Hp by (apply Hl; by left). destruct (IH p Hp) as (A & [A1 A2 A3 A4]); [destruct Hp as (q & Hq & _); by exists q|].
    destruct IHl as (A' & B1 & B2 & B3 & B4); [intros x Hx; apply Hl; by right|]. exists (A ∪ A'). split_and!.
    - intros x [->|Hx]%elem_of_cons; apply elem_of_union; auto.
    - intros x [Hx|Hx]%elem_of_union; auto.
    - intros x y He [Hx|Hx]%elem_of_union; apply elem_of_union; eauto.
    - intros x [Hx|Hx]%elem_of_union; [|auto]. eapply rtc_r; [by apply A4|done]. }
  destruct (Hl (filter (λ x, a ∈ from_option (λ q, children (q_priv q)) [] (ns_heap s !! x)) (elements (dom (ns_heap s))))) as (A & A1 & A2 & A3 & A4).
  { intros x [Hin _]%list_elem_of_filter. destruct (ns_heap s !! x) as [q|] eqn:Hq; [|by apply elem_of_nil in Hin].
    exists q. split_and!; [done|set_solver|done]. }
  exists ({[a]} ∪ A). split.
  - set_solver.
  - intros x [->|Hx]%elem_of_busy; auto.
  - intros x y He [->|Hy]%elem_of_busy; apply elem_of_busy; right; [|eauto]. apply A1. destruct He as (q & Hq & _ & Hin).
    apply list_elem_of_filter. split; [by rewrite Hq|]. apply elem_of_elements, elem_of_dom. by exists q.
  - intros x [->|Hx]%elem_of_busy; [done|auto].
Qed.

End api.

Arguments pr_inv {kind P opt _ refs r L X H s} _.
Arguments pr_objs {kind P opt _ refs r L X H s} _.
Arguments pr_ingress {kind P opt _ refs r L X H s} _.
Arguments pr_tidy {kind P opt _ refs r L X H s} _.
Arguments tr_pre {kind P opt _ refs s} _.
Arguments tr_zero {kind P opt _ refs s} _.
