(* ===== verification/QapiGraft.v ===== *)
(** * Grafting is safe

    Looking up disciplines by handle and class, the check for loops, the
    notifications, and [qdisc_graft]: a new discipline takes the place of an old
    one at the root, at the ingress queue, in a class or in a transmit queue. *)

From Stdlib Require Import ZArith Lia.
From stdpp Require Import base numbers list gmap option sets strings.
From S2P Require Import Prelude Sched Stab Qtree QtreeInv QtreeRun Qapi QapiTheorems.

Open Scope Z_scope.

Section graft.
Context {kind P opt : Type} `{!QdiscKinds kind P opt} `{!NetEnv kind P} `{!NetEnvOk kind P}.
Context {refs : KindRefs (kind := kind) (P := P)} {kok : KindsOk}.
Notation qd := (sqdisc kind P).
Notation st := (nstate kind P).
Implicit Types (s : st) (q : qd).

(** ** Lookup *)

(** The object has the handle; if it takes over devices, it is the root. *)
Definition found (h a : Z) s : Prop :=
  ∃ q, ns_heap s !! a = Some q ∧ q_handle q = h ∧ (is_Some (op_attach (ops (q_ops q))) → a = nd_qdisc (ns_dev s)).

Lemma hash_find_total r L B H U s h l : inv r L B H U s → (∀ a, a ∈ l → a ∈ nd_hash (ns_dev s)) →
  ∃ o, hash_find l h s = Some (o, s) ∧ ∀ a, o = Some a → a ∈ l ∧ ∃ q, ns_heap s !! a = Some q ∧ q_handle q = h.
Proof.
  intros I. induction l as [|a l IH]; intros Hl; simpl; [by exists None|].
  destruct (inv_hash I a) as (q & Hq & _); [apply Hl; by left|]. unfold cbind, get_q. rewrite Hq.
  destruct (Z.eqb_spec (q_handle q) h) as [E|E].
  - exists (Some a). split; [done|]. intros a' [= <-]. split; [by left|eauto].
  - destruct IH as (o & Ho & Hs); [intros b Hb; apply Hl; by right|]. exists o. split; [done|]. intros b Hb. destruct (Hs b Hb). split; [by right|done].
Qed.

(** The places where an object with the handle may be found. *)
Definition visible s (a : Z) : Prop :=
  a = nd_qdisc (ns_dev s) ∨ (∃ v, nd_ingress (ns_dev s) = Some v ∧ a = sl_sleeping v) ∨ a ∈ nd_hash (ns_dev s).

Lemma match_from_root_total r L B H U s root h : inv r L B H U s → is_Some (ns_heap s !! root) → visible s root →
  ∃ o, qdisc_match_from_root root h s = Some (o, s) ∧ ∀ a, o = Some a → visible s a ∧ ∃ q, ns_heap s !! a = Some q ∧ q_handle q = h.
Proof.
  intros I [q Hq] Hv. unfold qdisc_match_from_root, cbind, get_q. rewrite Hq.
  case_decide; [eexists; split; [done|]; intros a; destruct (Z.eqb_spec (q_handle q) h); [intros [= <-]; eauto|done]|].
  destruct (negb _ && _) eqn:E.
  - apply andb_true_iff in E as [_ E%Z.eqb_eq]. exists (Some root). split; [done|]. intros a [= <-]. eauto.
  - destruct (hash_find_total _ _ _ _ _ _ h _ I (λ a Ha, Ha)) as (o & Ho & Hs). exists o. split; [exact Ho|].
    intros a Ha. destruct (Hs a Ha) as [Hin Hx]. split; [by right; right|done].
Qed.

Lemma qdisc_lookup_total L B H U s h : inv true L B H U s →
  ∃ o, qdisc_lookup h s = Some (o, s) ∧ ∀ a, o = Some a → h ≠ 0 ∧ visible s a ∧ ∃ q, ns_heap s !! a = Some q ∧ q_handle q = h.
Proof.
  intros I. unfold qdisc_lookup. destruct (Z.eqb_spec h 0) as [|Hh]; [by exists None|].
  destruct (match_from_root_total _ _ _ _ _ _ (nd_qdisc (ns_dev s)) h I) as (o & Ho & Hf); [by eapply root_held|by left|].
  unfold cbind, gets. rewrite Ho. destruct o as [a|]; [exists (Some a); split; [done|]; intros a' [= <-]; auto|].
  destruct (nd_ingress (ns_dev s)) as [v|] eqn:Ei; [|by exists None].
  destruct (match_from_root_total _ _ _ _ _ _ (sl_sleeping v) h I) as (o & Ho' & Hf'); [|right; left; eauto|].
  - eapply sleeping_held; [exact I|]. by apply (sleeping_slot IngressQueue).
  - exists o. split; [done|]. auto.
Qed.

Lemma qdisc_lookup_ok L X H s h : pre true L X H s →
  ∃ o, qdisc_lookup h s = Some (o, s) ∧ ∀ a, o = Some a → h ≠ 0 ∧ found h a s.
Proof.
  intros Hp. destruct (qdisc_lookup_total _ _ _ _ _ h (pr_inv Hp)) as (o & Ho & Hf). exists o. split; [done|].
  intros a Ha. destruct (Hf a Ha) as (Hh & Hv & q & Hq & E). split; [done|]. exists q. split_and!; [done..|]. intros Hat.
  destruct Hv as [|[(v & Hv & ->)|Hin]]; [done|..].
  - destruct (pr_ingress Hp v Hv) as (w & Hw & Hn). simplify_eq. rewrite Hn in Hat. by destruct Hat.
  - destruct (inv_hash (pr_inv Hp) a Hin) as (w & Hw & Hha & _), (pr_objs Hp a q Hq) as [Ha' _]. destruct (Ha' Hat) as [E1 _].
    simplify_eq. unfold hashable in Hha. by rewrite E1 in Hha.
Qed.

Lemma found_noop L X H s h a : pre true L X H s → h ≠ 0 → found h a s → a ≠ noop_qdisc.
Proof. intros Hp Hh (q & Hq & E & _) ->. destruct (inv_noop (pr_inv Hp)) as (v & Hv & _ & E' & _). by simplify_eq. Qed.

(** [cops->leaf] of a class that exists. *)
Lemma leaf_of_ok r L X H s p q c cl : pre r L X H s → ns_heap s !! p = Some q → op_cl (ops (q_ops q)) = Some c →
  (cl ∈ cl_walk c (num_tx s) (q_priv q) ∨ ∃ id, cl_find c (num_tx s) (q_priv q) id = cl ∧ cl ≠ 0) →
  ∃ o, leaf_of (cl_leaf c (num_tx s) (q_priv q) cl) s = Some (o, s) ∧ (∀ b, o = Some b → is_Some (ns_heap s !! b)) ∧
    (∀ b, cl_leaf c (num_tx s) (q_priv q) cl = Some (Child b) → o = Some b).
Proof.
  intros Hp Hq Hc Hcl. destruct (inv_fits (pr_inv Hp) p q Hq) as [Hfit _]. pose proof (ok_leaf _ c (num_tx s) (q_priv q) cl Hc Hfit Hcl) as Hl.
  destruct (cl_leaf c (num_tx s) (q_priv q) cl) as [[b|dq]|]; simpl.
  - exists (Some b). split_and!; [done| |by intros b' [= ->]]. intros b' [= <-].
    destruct Hl as [Hl| ->]; [|destruct (inv_noop (pr_inv Hp)) as (v & Hv & _); by exists v]. apply (inv_edge (pr_inv Hp) p). exists q. split_and!; [done|set_solver|done].
  - destruct Hl as (i & -> & Hi). apply lookup_lt_is_Some in Hi as [v Hv]. unfold cbind, get_slot. simpl. rewrite Hv.
    exists (Some (sl_sleeping v)). split_and!; [done| |done]. intros b' [= <-]. eapply sleeping_held; [apply (pr_inv Hp)|]. by apply (sleeping_slot (TxQueue i)).
  - by exists None.
Qed.

Lemma qdisc_leaf_ok r L X H s p id : pre r L X H s → is_Some (ns_heap s !! p) →
  ∃ o, qdisc_leaf p id s = Some (o, s) ∧ ∀ b, o = Some b → is_Some (ns_heap s !! b).
Proof.
  intros Hp [q Hq]. unfold qdisc_leaf, cbind, get_q, gets. rewrite Hq. destruct (op_cl (ops (q_ops q))) as [c|] eqn:Ec; [|by exists None].
  destruct (Z.eqb_spec (cl_find c (num_tx s) (q_priv q) id) 0); [by exists None|].
  destruct (leaf_of_ok _ _ _ _ _ _ _ _ (cl_find c (num_tx s) (q_priv q) id) Hp Hq Ec) as (o & Ho & Hs & _); [eauto|]. by exists o.
Qed.

(** ** Loops *)

Lemma noop_childless r L B H U s b : inv r L B H U s → rtc (edge B (ns_heap s)) noop_qdisc b → b = noop_qdisc.
Proof.
  intros I Hr. apply rtc_inv in Hr as [|(y & (q & Hq & _ & Hy) & _)]; [done|].
  destruct (inv_noop I) as (v & Hv & _ & _ & E). simplify_eq. rewrite E in Hy. by apply elem_of_nil in Hy.
Qed.

(** If [check_loop] finds nothing, [p] is not below [q]. *)
Definition loop_free s (p a : Z) : Prop := a ≠ p ∧ ¬ rtc (edge ∅ (ns_heap s)) a p.

Lemma walk_ok (fn : Z → M st bool) (T : Z → Prop) s l : (∀ cl, cl ∈ l → ∃ t, fn cl s = Some (t, s) ∧ (t = false → T cl)) →
  ∃ b, walk fn l s = Some (b, s) ∧ (b = false → ∀ cl, cl ∈ l → T cl).
Proof.
  induction l as [|cl l IH]; intros Hl; simpl; [exists false; split; [done|]; by intros _ cl ?%elem_of_nil|].
  destruct (Hl cl) as (t & Ht & HT); [by left|]. unfold cbind. rewrite Ht. destruct t; [by exists true|].
  destruct IH as (b & Hb & Hall); [intros; apply Hl; by right|]. exists b. split; [done|]. intros E c [->|Hc]%elem_of_cons; auto.
Qed.

Lemma check_loop_ok r L H s p room : pre r L [] H s → p ≠ noop_qdisc → ∀ a, is_Some (ns_heap s !! a) →
  ∃ b, check_loop room a p s = Some (b, s) ∧ (b = false → a ≠ p → loop_free s p a).
Proof.
  intros Hp Hpn. induction room as [room IH] using lt_wf_ind. intros a [q Hq]. pose proof (pr_inv Hp) as I.
  destruct (inv_fits I a q Hq) as [Hfit _], (pr_objs Hp a q Hq) as [_ Hun]. specialize (Hun (not_elem_of_nil a)).
  assert (∀ b, is_Some (ns_heap s !! b) → ∃ t, (if b =? p then cret true else match room with O => cret true | S room => check_loop room b p end) s
    = Some (t, s) ∧ (t = false → loop_free s p b)) as Hbody.
  { intros b Hb. destruct (Z.eqb_spec b p); [by exists true|]. destruct room as [|room]; [by exists true|].
    destruct (IH room ltac:(lia) b Hb) as (t & Ht & Hf). exists t. auto. }
  assert ((∀ b, b ∈ children (q_priv q) → b = noop_qdisc ∨ loop_free s p b) → a ≠ p → loop_free s p a) as Hgo.
  { intros Hch Hne. split; [done|]. intros Hr. apply rtc_inv in Hr as [|(b & (v & Hv & _ & Hb) & Hr)]; [done|]. simplify_eq.
    destruct (Hch b Hb) as [->|[_ ?]]; [|done]. by apply (noop_childless _ _ _ _ _ _ _ I) in Hr. }
  assert (check_loop room a p s = match op_cl (ops (q_ops q)) with
    | None => cret false
    | Some c => walk (λ cl, let* leaf := leaf_of (cl_leaf c (num_tx s) (q_priv q) cl) in
        match leaf with
        | None => cret false
        | Some b => if b =? p then cret true else match room with O => cret true | S room => check_loop room b p end
        end) (cl_walk c (num_tx s) (q_priv q)) end s) as ->.
  { destruct room; simpl; unfold cbind at 1 2, get_q, gets; by rewrite Hq. }
  destruct (op_cl (ops (q_ops q))) as [c|] eqn:Ec.
  - match goal with |- context [walk ?fn ?l] =>
      destruct (walk_ok fn (λ cl, ∀ b, cl_leaf c (num_tx s) (q_priv q) cl = Some (Child b) → loop_free s p b) s l) as (t & Ht & Hall) end.
    + intros cl Hcl. destruct (leaf_of_ok _ _ _ _ _ _ _ _ cl Hp Hq Ec) as (o & Ho & Hs & Hchild); [by left|]. unfold cbind. rewrite Ho.
      destruct o as [b|]; [|exists false; split; [done|]; intros _ b Hb; by apply Hchild in Hb].
      destruct (Hbody b) as (t & Ht & Hf); [by apply Hs|]. exists t. split; [exact Ht|]. intros E b' Hb'. apply Hchild in Hb'. simplify_eq. auto.
    + exists t. split; [exact Ht|]. intros E. apply Hgo. intros b Hb. destruct (decide (b = noop_qdisc)) as [|Hbn]; [by left|]. right.
      destruct (ok_walk _ c (num_tx s) _ Ec Hfit Hun b Hb Hbn) as (cl & Hcl & Hl). by apply (Hall E cl).
  - exists false. split; [done|]. intros _. apply Hgo. rewrite (ok_no_class _ _ Ec Hfit). by intros b ?%elem_of_nil.
Qed.

(** ** Notifications *)

Lemma noted_ok s o : (∀ a, o = Some a → is_Some (ns_heap s !! a)) → ∃ h, noted o s = Some (h, s).
Proof. destruct o as [a|]; intros Ha; [|by exists None]. destruct (Ha a eq_refl) as [q Hq]. simpl. unfold cbind, get_q. rewrite Hq. eauto. Qed.

Lemma qdisc_notify_ok s clid old new : (∀ a, old = Some a → is_Some (ns_heap s !! a)) → (∀ a, new = Some a → is_Some (ns_heap s !! a)) →
  settles (λ _, qdisc_notify clid old new) s (λ _ s', calms s s').
Proof.
  intros Ho Hn. apply settles_ask. assert (calms s (tick s)) as Hc by by apply calms_eq. destruct (alloc_ok _); [|by apply settles_ret].
  destruct (noted_ok (tick s) old Ho) as (h & Eh), (noted_ok (tick s) new Hn) as (w & Ew).
  eapply (settles_bind _ _ _ (λ x s1, x = h ∧ s1 = tick s)); [by eapply settles_done|]. intros ? ? [-> ->].
  eapply (settles_bind _ _ _ (λ x s1, x = w ∧ s1 = tick s)); [by eapply settles_done|]. intros ? ? [-> ->].
  destruct h, w; (eapply (settles_done _ _ tt); [done|]); by apply calms_eq.
Qed.

Lemma held_list r L X H s o : pre r L X (option_list o ++ H) s → ∀ a, o = Some a → is_Some (ns_heap s !! a).
Proof. intros Hp a ->. eapply held_heap; [apply (pr_inv Hp)|by left]. Qed.

(** The old object is given up. *)
Lemma notify_and_destroy_ok r L X H s clid old new : pre r L X (option_list old ++ H) s → (∀ a, new = Some a → is_Some (ns_heap s !! a)) →
  (∀ a, old = Some a → a ∈ L → a = noop_qdisc) →
  settles (λ n, notify_and_destroy n clid old new) s (λ _ s', pre r L X H s' ∧ evolves L ∅ H s s' ∧ slots_same s s').
Proof.
  intros Hp Hn HL. eapply (settles_bind _ _ _ (λ _ s1, calms s s1)).
  { destruct old, new; try (by apply qdisc_notify_ok; [eapply held_list|]). by apply settles_ret. }
  intros [] s1 Hc. pose proof (pre_calms _ _ _ _ _ _ Hp Hc) as Hp1. destruct old as [a|]; simpl in *.
  - eapply settles_mono; [apply (put_pre _ _ _ _ _ _ Hp1), (HL a eq_refl)|]. intros [] s2 (Hp2 & Hev & Hsl). split_and!; [done| |].
    + eapply evolves_trans; [by apply evolves_calms|done].
    + eapply slots_trans; [by apply calms_slots|done].
  - apply settles_ret. split_and!; [done|by apply evolves_calms|by apply calms_slots].
Qed.

(** ** The root *)

Definition place (new : option Z) : Z := default noop_qdisc new.

Lemma place_pre r L X H s new : pre r L X (option_list new ++ H) s → pre r L X (place new :: H) s.
Proof. destruct new; [done|]. apply noop_pre. Qed.

Lemma graft_ref_comm {A} dq a (g : nat → Z → M st A) s R : is_Some (ns_heap s !! a) →
  settles (λ n, ref_inc a ;;; let* old := dev_graft_qdisc dq a in g n old) s R →
  settles (λ n, let* old := dev_graft_qdisc dq a in ref_inc a ;;; g n old) s R.
Proof.
  intros [q Ha]. apply settles_ext. intros n. unfold cbind, dev_graft_qdisc, ref_inc, get_slot, put_slot, modify, upd_q, cbind. simpl. rewrite Ha.
  simpl. destruct (slot_of dq (ns_dev s)); [|done]. simpl. by rewrite Ha.
Qed.

(** One queue gets [a], and its old object is released. *)
Lemma graft_queue_ok r H s i a : pre r ∅ [] (a :: H) s → (i < num_tx s)%nat →
  settles (λ n, let* old := dev_graft_qdisc (TxQueue i) a in qdisc_put (run n) n old) s
    (λ _ s', pre r ∅ [] H s' ∧ dev_static (ns_dev s') = dev_static (ns_dev s) ∧
      nd_tx (ns_dev s') = <[i := Slot noop_qdisc a]> (nd_tx (ns_dev s))).
Proof.
  intros Hp [v Hv]%lookup_lt_is_Some. unfold dev_graft_qdisc. apply settles_assoc. eapply settles_slot; [exact Hv|].
  apply settles_assoc, settles_modify. eapply (settles_bind _ _ _ (λ x s1, x = sl_sleeping v ∧ s1 = _)); [by eapply settles_done|]. intros ? ? [-> ->].
  pose proof (graft_slot_pre _ _ _ _ _ (TxQueue i) v a Hp Hv) as Hp1. eapply settles_mono; [apply (put_pre _ _ _ _ _ _ (Hp1 ltac:(done))); set_solver|].
  intros [] s2 (Hp2 & Hev & [Ht _]). split_and!; [done| |done]. rewrite (ev_dev _ _ _ _ _ Hev). by eapply (set_slot_static (TxQueue i)).
Qed.

(** The queues after the first: each takes a reference of its own. *)
Lemma graft_loop_rest r H new k i s : pre r ∅ [] H s → (0 < i)%nat → (i + k)%nat = num_tx s →
  (∃ v, slot_of (TxQueue 0) (ns_dev s) = Some v ∧ sl_sleeping v = place new) →
  settles (λ n, graft_loop n new i k) s (λ _ s', pre r ∅ [] H s' ∧ dev_static (ns_dev s') = dev_static (ns_dev s) ∧
    ∃ v, slot_of (TxQueue 0) (ns_dev s') = Some v ∧ sl_sleeping v = place new).
Proof.
  revert i s. induction k as [|k IH]; intros i s Hp Hi Hk (v & Hv & Hvs); [apply settles_ret; eauto|]. simpl.
  assert (is_Some (ns_heap s !! place new)) as Ha.
  { rewrite <- Hvs. eapply sleeping_held; [apply (pr_inv Hp)|by eapply sleeping_slot]. }
  assert (settles (λ n, let* old := dev_graft_qdisc (TxQueue i) (place new) in
      (if new is Some a then ref_inc a else cret tt) ;;; qdisc_put (run n) n old) s
    (λ _ s', pre r ∅ [] H s' ∧ dev_static (ns_dev s') = dev_static (ns_dev s) ∧ nd_tx (ns_dev s') = <[i := Slot noop_qdisc (place new)]> (nd_tx (ns_dev s)))) as Hone.
  { destruct new as [a|].
    - apply graft_ref_comm; [done|]. eapply settles_bind; [by apply ref_inc_ok|]. intros [] s1 (Hp1 & Hd1 & _).
      rewrite <- Hd1. apply graft_queue_ok; [done|]. unfold num_tx in *. rewrite Hd1. lia.
    - eapply settles_ext; [|apply graft_queue_ok; [by apply noop_pre|lia]]. done. }
  eapply (settles_ext _ (λ n, (let* old := dev_graft_qdisc (TxQueue i) (place new) in
      (if new is Some a then ref_inc a else cret tt) ;;; qdisc_put (run n) n old) ;;; graft_loop n new (Datatypes.S i) k)).
  { intros n. destruct (Nat.ltb_spec 0 i); [|lia]. unfold cbind. destruct (dev_graft_qdisc _ _ s) as [[old s1]|]; [|done].
    destruct new as [a|]; [destruct (ref_inc a s1) as [[[] s2]|]; [|done]; by destruct (qdisc_put _ _ _ s2) as [[[] ?]|]|].
    simpl. by destruct (qdisc_put _ _ _ s1) as [[[] ?]|]. }
  eapply settles_bind; [exact Hone|]. intros [] s1 (Hp1 & Hd1 & Ht1). eapply settles_mono; [apply (IH (Datatypes.S i) s1 Hp1); [lia| |]|].
  - unfold num_tx in *. injection Hd1 as _ _ _ _ _ _ _ -> _. lia.
  - exists v. split; [|done]. simpl. rewrite Ht1, list_lookup_insert_ne by lia. done.
  - intros [] s2 (Hp2 & Hd2 & Hs2). split_and!; [done|congruence|done].
Qed.

Lemma graft_loop_ok r H new s : pre r ∅ [] (option_list new ++ H) s →
  settles (λ n, graft_loop n new 0 (num_tx s)) s (λ _ s', pre r ∅ [] H s' ∧ dev_static (ns_dev s') = dev_static (ns_dev s) ∧
    ∃ v, slot_of (TxQueue 0) (ns_dev s') = Some v ∧ sl_sleeping v = place new).
Proof.
  intros Hp. pose proof (inv_tx (pr_inv Hp)) as Htx. destruct (num_tx s) as [|k] eqn:Ek; [unfold num_tx in Ek; lia|]. simpl.
  eapply (settles_ext _ (λ n, (let* old := dev_graft_qdisc (TxQueue 0) (place new) in qdisc_put (run n) n old) ;;; graft_loop n new 1 k)).
  { intros n. unfold cbind. destruct (dev_graft_qdisc _ _ s) as [[old s1]|]; [|done].
    destruct new as [a|]; simpl; by destruct (qdisc_put _ _ _ s1) as [[[] ?]|]. }
  eapply settles_bind; [apply graft_queue_ok; [by apply place_pre|lia]|]. intros [] s1 (Hp1 & Hd1 & Ht1).
  eapply settles_mono; [apply (graft_loop_rest _ H new k 1 s1 Hp1); [lia| |]|].
  - unfold num_tx in *. injection Hd1 as _ _ _ _ _ _ _ -> _. lia.
  - exists (Slot noop_qdisc (place new)). split; [|done]. simpl. rewrite Ht1, list_lookup_insert_eq; [done|]. unfold num_tx in Ek. lia.
  - intros [] s2 (Hp2 & Hd2 & Hs2). split_and!; [done|congruence|done].
Qed.

(** The end of both branches. *)
Lemma graft_activate H s : pre true ∅ [] H s → zero_ok s →
  settles (λ n, let* up := gets (λ s, nd_up (ns_dev s)) in (if up then dev_activate n else cret tt) ;;; cret 0) s
    (λ err s', err = 0 ∧ pre true ∅ [] H s' ∧ zero_ok s').
Proof.
  intros Hp Hz. apply settles_gets. eapply (settles_bind _ _ _ (λ _ s', pre true ∅ [] H s' ∧ zero_ok s')).
  - case_match; [|by apply settles_ret]. eapply settles_mono; [by apply dev_activate_ok|]. intros [] s' (? & _ & ?). done.
  - intros [] s' [Hp' Hz']. by apply settles_ret.
Qed.

(** A device that is up is stopped first. *)
Lemma graft_deactivate {A} r L X H s (g : nat → unit → M st A) R : pre r L X H s →
  (∀ s1, pre r L X H s1 → light s s1 → settles (λ n, g n tt) s1 R) →
  settles (λ n, cbind (if nd_up (ns_dev s) then dev_deactivate n else cret tt) (g n)) s R.
Proof.
  intros Hp Hg. eapply (settles_bind _ _ _ (λ _ s1, pre r L X H s1 ∧ light s s1)).
  - case_match; [by apply dev_deactivate_ok|by apply settles_ret].
  - intros [] s1 [Hp1 Hl1]. by apply Hg.
Qed.

Lemma flags_of_ok {A} o s (g : nat → option qd → M st A) R : (∀ a, o = Some a → is_Some (ns_heap s !! a)) →
  (∀ qo, match o with Some a => qo = ns_heap s !! a ∧ is_Some qo | None => qo = None end → settles (λ n, g n qo) s R) →
  settles (λ n, cbind (flags_of o) (g n)) s R.
Proof.
  intros Ho Hg. destruct o as [a|]; simpl.
  - destruct (Ho a eq_refl) as [q Hq]. apply settles_assoc. eapply settles_get; [exact Hq|].
    eapply (settles_bind _ _ _ (λ x s1, x = Some q ∧ s1 = s)); [by apply settles_ret|]. intros ? ? [-> ->]. apply Hg. by rewrite Hq.
  - eapply (settles_bind _ _ _ (λ x s1, x = None ∧ s1 = s)); [by apply settles_ret|]. intros ? ? [-> ->]. by apply Hg.
Qed.

Lemma plain_light s s' a : light s s' → plain s a → plain s' a.
Proof.
  intros [Hc _ _] (q & Hq & Hn). destruct (calms_lookup _ _ _ _ Hc Hq) as (q' & Hq' & (E & _)). exists q'. by rewrite E.
Qed.

(** All queues get the new object, and so does [dev->qdisc]. *)
Lemma graft_all_ok H s clid new : pre true ∅ [] (option_list new ++ H) s →
  settles (λ n, graft_loop n new 0 (num_tx s) ;;;
     let* root := gets (λ s, nd_qdisc (ns_dev s)) in
     notify_and_destroy n clid (Some root) new ;;;
     (if new is Some a then ref_inc a else cret tt) ;;;
     set_root (place new)) s (λ _ s', pre true ∅ [] H s' ∧ zero_ok s').
Proof.
  intros Hp. eapply settles_bind; [by apply graft_loop_ok|]. intros [] s1 (Hp1 & Hd1 & v & Hv & Hvs). apply settles_gets.
  assert (is_Some (ns_heap s1 !! place new)) as Ha.
  { rewrite <- Hvs. eapply sleeping_held; [apply (pr_inv Hp1)|by eapply sleeping_slot]. }
  eapply settles_bind; [apply (notify_and_destroy_ok false ∅ [] H); [by apply unroot_pre|by intros a ->|set_solver]|].
  intros [] s2 (Hp2 & _ & [Ht2 _]). assert (slot_of (TxQueue 0) (ns_dev s2) = Some v) as Hv2 by (simpl in *; by rewrite Ht2).
  eapply (settles_bind _ _ _ (λ _ s3, pre false ∅ [] (place new :: H) s3 ∧ ns_dev s3 = ns_dev s2)).
  { destruct new as [a|]; [|apply settles_ret; split; [by apply noop_pre|done]].
    eapply settles_mono; [apply (ref_inc_ok _ _ _ _ _ a Hp2)|by intros [] s3 (Hp3 & Hd3 & _)].
    change a with (place (Some a)). rewrite <- Hvs. eapply sleeping_held; [apply (pr_inv Hp2)|by eapply sleeping_slot]. }
  intros [] s3 [Hp3 Hd3]. eapply (settles_done _ _ tt); [done|]. split; [exact (root_pre _ _ _ _ _ Hp3)|].
  intros E w Hw. simpl in *. rewrite Hd3, Hv2 in Hw. simplify_eq. congruence.
Qed.

(** The ingress queue gets the new object. *)
Lemma graft_ingress_ok H s clid new : pre true ∅ [] (option_list new ++ H) s → zero_ok s → is_Some (nd_ingress (ns_dev s)) →
  (∀ a, new = Some a → plain s a) →
  settles (λ n, let* o := dev_graft_qdisc IngressQueue (place new) in notify_and_destroy n clid (Some o) new) s
    (λ _ s', pre true ∅ [] H s' ∧ zero_ok s').
Proof.
  intros Hp Hz [v Hv] Hpl. assert (plain s (place new)) as Hpl'.
  { destruct new as [a|]; [by apply Hpl|]. exact (noop_plain _ _ _ _ _ _ (pr_inv Hp)). }
  unfold dev_graft_qdisc. apply settles_assoc. eapply settles_slot; [exact Hv|]. apply settles_assoc, settles_modify.
  eapply (settles_bind _ _ _ (λ x s1, x = sl_sleeping v ∧ s1 = _)); [by eapply settles_done|]. intros ? ? [-> ->].
  pose proof (graft_slot_pre _ _ _ _ _ IngressQueue v (place new) (place_pre _ _ _ _ _ _ Hp) Hv (λ _, Hpl')) as Hp1.
  eapply settles_mono; [apply (notify_and_destroy_ok true ∅ [] H); [exact Hp1| |set_solver]|].
  - intros a ->. destruct Hpl' as (q & Hq & _). by exists q.
  - intros [] s2 (Hp2 & Hev & [Ht _]). split; [done|]. intros E w Hw. pose proof (ev_dev _ _ _ _ _ Hev) as Hd. apply Hz.
    + injection Hd as _ _ _ _ _ _ En _ _. congruence.
    + simpl in *. by rewrite Ht in Hw.
Qed.

(** What [qdisc_graft] leaves: on an error the new object is still in hand. *)
Definition grafted (H : list Z) (new : option Z) (err : Z) s : Prop :=
  zero_ok s ∧ pre true ∅ [] (if err =? 0 then H else option_list new ++ H) s.

Lemma graft_root_plain H s clid new old : pre true ∅ [] (option_list new ++ H) s → zero_ok s →
  (∀ a, new = Some a → plain s a) → (∀ a, old = Some a → is_Some (ns_heap s !! a)) →
  settles (λ n, graft_root n clid new old) s (grafted H new).
Proof.
  intros Hp Hz Hpl Hold. apply flags_of_ok; [done|]. intros oq _.
  apply flags_of_ok; [by eapply held_list|]. intros nq Hnq. apply settles_gets.
  assert ((if nq is Some q then op_attach (ops (q_ops q)) else None) = None) as ->.
  { destruct new as [a|]; [|by rewrite Hnq]. destruct (Hpl a eq_refl) as (q & Hq & Hn), Hnq as [-> _]. by rewrite Hq. }
  destruct (has_ingress oq || has_ingress nq) eqn:Ei; simpl.
  - case_bool_decide as Hin; [by apply settles_ret|]. apply not_eq_None_Some in Hin.
    apply (graft_deactivate _ _ _ _ _ _ _ Hp). intros s1 Hp1 Hl1.
    apply (settles_ext _ (λ n, (let* o := dev_graft_qdisc IngressQueue (place new) in notify_and_destroy n clid (Some o) new) ;;;
      let* up := gets (λ s, nd_up (ns_dev s)) in (if up then dev_activate n else cret tt) ;;; cret 0)).
    { intros n. change (default noop_qdisc new) with (place new). unfold cbind, gets.
      destruct (dev_graft_qdisc IngressQueue (place new) s1) as [[? ?]|]; [|done]. simpl. by destruct (notify_and_destroy _ _ _ _ _) as [[[] ?]|]. }
    eapply settles_bind.
    + apply (graft_ingress_ok H); [done|by eapply light_zero| |intros a E; by eapply plain_light, Hpl].
      pose proof (lt_static _ _ Hl1) as Hd. injection Hd as _ _ _ _ _ _ _ _ E. rewrite (bool_decide_true _ Hin) in E. by apply bool_decide_eq_true in E.
    + intros [] s2 [Hp2 Hz2]. eapply settles_mono; [by apply (graft_activate H)|]. intros err s3 (-> & Hp3 & Hz3). by split.
  - apply (graft_deactivate _ _ _ _ _ _ _ Hp). intros s1 Hp1 Hl1.
    apply (settles_ext _ (λ n, (graft_loop n new 0 (num_tx s1) ;;;
      let* root := gets (λ s, nd_qdisc (ns_dev s)) in
      notify_and_destroy n clid (Some root) new ;;;
      (if new is Some a then ref_inc a else cret tt) ;;;
      set_root (place new)) ;;;
      let* up := gets (λ s, nd_up (ns_dev s)) in (if up then dev_activate n else cret tt) ;;; cret 0)).
    { intros n. unfold cbind, gets. destruct (graft_loop n new 0 (num_tx s1) s1) as [[[] s2]|]; [|done].
      simpl. destruct (notify_and_destroy _ _ _ _ s2) as [[[] s3]|]; [|done]. by destruct new as [a|]; [destruct (ref_inc a s3) as [[[] ?]|]|]. }
    eapply settles_bind; [by apply (graft_all_ok H)|].
    intros [] s2 [Hp2 Hz2]. eapply settles_mono; [by apply (graft_activate H)|]. intros err s3 (-> & Hp3 & Hz3). by split.
Qed.

(** An object that has just been made and will take over the device. *)
Record heir s (a : Z) q : Prop := {
  hr_heap : ns_heap s !! a = Some q;
  hr_noop : a ≠ noop_qdisc;
  hr_edge x : ¬ edge ∅ (ns_heap s) x a;
  hr_slots : a ∉ sleeping (ns_dev s);
  hr_root : a ≠ nd_qdisc (ns_dev s);
}.

Lemma sleeping_inv x d : x ∈ sleeping d → ∃ dq v, slot_of dq d = Some v ∧ sl_sleeping v = x.
Proof.
  unfold sleeping. rewrite elem_of_app. intros [Hx|Hx].
  - apply list_elem_of_fmap in Hx as (v & -> & Hv). apply list_elem_of_lookup in Hv as [i Hv]. by exists (TxQueue i), v.
  - destruct (nd_ingress d) as [v|] eqn:E; [|by apply elem_of_nil in Hx]. apply list_elem_of_singleton in Hx as ->. by exists IngressQueue, v.
Qed.

Lemma heir_light s s' a q : heir s a q → light s s' → ∃ q', heir s' a q' ∧ q_ops q' = q_ops q ∧ children (q_priv q') = children (q_priv q).
Proof.
  intros [Ha Hn He Hs Hr] [Hc Hd Hl]. destruct (calms_lookup _ _ _ _ Hc Ha) as (q' & Hq' & (E & _ & _ & _ & _ & _ & _ & Ec & _)). exists q'. split; [|done].
  split; [exact Hq'|done| | |].
  - intros x Hx. apply (He x). by apply (calms_edge _ _ _ _ _ Hc).
  - intros (dq & v & Hv & E')%sleeping_inv. specialize (Hl dq). rewrite Hv in Hl. destruct (slot_of dq (ns_dev s)) as [w|] eqn:Hw; [|done].
    simpl in Hl. injection Hl as Hl. apply Hs. rewrite <- E', Hl. by eapply sleeping_slot.
  - injection Hd as _ _ _ _ _ _ -> _ _. done.
Qed.

Lemma graft_root_attach H s clid a q f : pre true {[a]} [a] (a :: H) s → heir s a q → op_attach (ops (q_ops q)) = Some f →
  f_ingress (q_flags q) = false → length (children (q_priv q)) = num_tx s → settles (λ n, graft_root n clid (Some a) None) s (grafted H (Some a)).
Proof.
  intros Hp Hhr Ef Hin Hfull. apply flags_of_ok; [done|]. intros oq ->. apply flags_of_ok; [by intros b [= <-]; exists q; apply Hhr|].
  intros nq [-> _]. rewrite (hr_heap _ _ _ Hhr). apply settles_gets. simpl. rewrite Ef, Hin. simpl.
  apply (graft_deactivate _ _ _ _ _ _ _ Hp). intros s1 Hp1 Hl1. destruct (heir_light _ _ _ _ Hhr Hl1) as (q1 & [Ha Hn He Hs Hr] & Eo & Ec).
  eapply (settles_bind _ _ _ (λ _ s2, s2 = s1)); [by apply settles_ret|]. intros x ? ->. apply settles_assoc, settles_gets, settles_assoc.
  eapply settles_bind.
  { apply (notify_and_destroy_ok false {[a]} [a] (a :: H)); [by apply unroot_pre|intros b [= <-]; by exists q1|]. intros b [= <-] E%elem_of_singleton. congruence. }
  intros [] s2 (Hp2 & Hev & Hsl). apply settles_assoc. eapply (settles_bind _ _ _ (λ _ s3, s3 = s2)); [by apply settles_ret|]. intros [] ? ->.
  apply settles_assoc, settles_modify. destruct (ev_same _ _ _ _ _ Hev a q1 Ha) as (q2 & Ha2 & (E2 & _)); [set_solver|].
  eapply settles_bind; [apply (ops_attach_ok H _ a q2 f (root_pre _ _ _ _ _ Hp2)); [exact Ha2|congruence|done| | |done|]|].
  - eapply (no_edge_to false _ _ _ _ _ _ s1 s2); [apply (pr_inv (unroot_pre _ _ _ _ Hp1))|apply (pr_inv Hp2)|exact Hev|set_solver|done|done].
  - change (a ∉ sleeping (ns_dev s2)). by rewrite (slots_sleeping _ _ Hsl).
  - destruct (ev_refcnt _ _ _ _ _ Hev a q1 q2 Ha Ha2) as [_ E3]; [by apply elem_of_singleton|]. rewrite E3, Ec, Hfull by apply not_elem_of_empty.
    change (num_tx s = length (nd_tx (ns_dev s2))). rewrite (proj1 Hsl). pose proof (lt_static _ _ Hl1) as Hd1. unfold num_tx. injection Hd1; congruence.
  - intros [] s4 (Hp4 & Hnd4 & _). eapply settles_mono; [apply (graft_activate H _ Hp4); intros E; congruence|].
    intros err s5 (-> & Hp5 & Hz5). by split.
Qed.

(** ** Classes *)

Lemma mq_graft_ok H s i new : pre true ∅ [] (option_list new ++ H) s → nd_qdisc (ns_dev s) ≠ noop_qdisc → (i < num_tx s)%nat →
  settles (λ n, mq_graft n (TxQueue i) new) s (λ old s', pre true ∅ [] (old :: H) s' ∧ nd_qdisc (ns_dev s') = nd_qdisc (ns_dev s) ∧
    ∀ a, new = Some a → is_Some (ns_heap s' !! a)).
Proof.
  intros Hp Hn Hi. apply settles_gets, (graft_deactivate _ _ _ _ _ _ _ Hp). intros s1 Hp1 Hl1.
  pose proof (lt_static _ _ Hl1) as Hd1. assert (nd_qdisc (ns_dev s1) = nd_qdisc (ns_dev s)) as En by (injection Hd1; congruence).
  assert (is_Some (slot_of (TxQueue i) (ns_dev s1))) as [v Hv].
  { eapply light_valid; [exact Hl1|]. by apply lookup_lt_is_Some. }
  unfold dev_graft_qdisc. apply settles_assoc. eapply settles_slot; [exact Hv|]. apply settles_assoc, settles_modify.
  change (default noop_qdisc new) with (place new). set (s2 := with_dev _ s1).
  eapply (settles_bind _ _ _ (λ x s', x = sl_sleeping v ∧ s' = s2)); [by eapply settles_done|]. intros ? ? [-> ->].
  assert (pre true ∅ [] (sl_sleeping v :: H) s2) as Hp2.
  { apply (graft_slot_pre _ _ _ _ _ (TxQueue i) v (place new)); [by apply place_pre|done|done]. }
  assert (∀ a, new = Some a → is_Some (ns_heap s2 !! a)) as Hnew by exact (held_list _ _ _ _ _ _ Hp1).
  eapply (settles_bind _ _ _ (λ _ s3, calms s2 s3)).
  { destruct new as [a|]; [|by apply settles_ret]. destruct (Hnew a eq_refl) as [q Hq]. eapply settles_upd_last; [exact Hq|].
    by eapply (calms_upd _ _ a q (map_flags set_onetxqueue_noparent q)). }
  intros [] s3 Hc3. assert (nd_qdisc (ns_dev s3) = nd_qdisc (ns_dev s)) as En3.
  { rewrite <- En. pose proof (cs_dev _ _ Hc3) as Hd. by injection Hd. }
  assert (pre true ∅ [] (sl_sleeping v :: H) s3) as Hp3 by by eapply pre_calms.
  eapply (settles_bind _ _ _ (λ _ s4, pre true ∅ [] (sl_sleeping v :: H) s4 ∧ light s3 s4)).
  { case_match; [|by apply settles_ret]. apply activate_light; [done|congruence]. }
  intros [] s4 [Hp4 Hl4]. apply settles_ret. split_and!; [done| |].
  - pose proof (lt_static _ _ Hl4) as Hd. injection Hd; congruence.
  - intros a E. eapply light_heap; [exact Hl4|]. eapply calms_is_Some; [exact Hc3|]. by apply Hnew.
Qed.

(** The pointer of a class is exchanged. *)
Lemma graft_slot_ok H s p q new old pr : pre true ∅ [] (option_list new ++ H) s → ns_heap s !! p = Some q → p ≠ noop_qdisc →
  fits (q_ops q) pr → unhashed pr = unhashed (q_priv q) →
  (∀ x, x ≠ noop_qdisc → occ x (children pr) + occ x (option_list old) = occ x (option_list new) + occ x (children (q_priv q))) →
  (∀ a, new = Some a → ¬ rtc (edge ∅ (ns_heap s)) a p) →
  pre true ∅ [] (option_list old ++ H) (with_heap (<[p := set_qpriv pr q]> (ns_heap s)) s).
Proof.
  intros Hp Ha Hn Hfit Hun Hocc Hloop. pose proof (pr_inv (pre_all _ _ _ _ _ Hp)) as I. set (L := dom (ns_heap s)) in *.
  pose proof (inv_begin _ _ _ _ _ _ _ _ I Ha (not_elem_of_empty p) Hn ltac:(by apply elem_of_dom; exists q)) as I1.
  assert (∀ b, edge ({[p]} ∪ ∅) (ns_heap s) b p → edge ∅ (ns_heap s) b p) as Hsub by (intros b; apply edge_sub).
  assert (∀ b, rtc (edge ({[p]} ∪ ∅) (ns_heap s)) b p → rtc (edge ∅ (ns_heap s)) b p) as Hsub'.
  { intros b. apply rtc_subrel. intros x y. apply edge_sub. }
  set (s' := with_heap _ s). assert (inv true L ∅ (option_list old ++ H) [] s') as I2.
  { eapply (inv_leave _ _ _ _ _ (children pr) (unhashed (q_priv q)) s s' p q (set_qpriv pr q)); [|done|done|done| |done|done|done|by rewrite <- Hun|done| | |done].
    - eapply inv_weaken; [exact I1| |done]. intros x Hx. specialize (Hocc x Hx). rewrite !occ_app. lia.
    - apply (inv_alive I p q Ha Hn). set_solver.
    - intros b _ HL. destruct HL. by apply elem_of_dom; exists q.
    - intros b Hb Hr%Hsub'. destruct (decide (b = noop_qdisc)) as [->|Hbn]; [by apply (noop_childless _ _ _ _ _ _ _ I) in Hr|].
      specialize (Hocc b Hbn). apply occ_pos in Hb. pose proof (occ_nonneg b (option_list old)).
      assert (b ∈ option_list new ∨ b ∈ children (q_priv q)) as [Hb'|Hb'] by (rewrite !occ_pos; lia).
      + destruct new as [a|]; [|by apply elem_of_nil in Hb']. apply list_elem_of_singleton in Hb' as ->. by apply (Hloop a).
      + apply (edge_irrefl _ _ _ _ _ _ p I). eapply tc_rtc_r; [|exact Hr]. apply tc_once. exists q. split_and!; [done|set_solver|done]. }
  destruct Hp as [I0 Ho Hi Ht]. split; [by eapply inv_setL; [exact I2|set_solver..]| | |exact Ht].
  - intros x v Hx. destruct (lookup_update _ _ _ _ _ _ Ha Hx) as [[-> ->]|[_ Hx']]; [|by apply (Ho x)].
    destruct (Ho p q Ha) as [Hat Hu]. split; [exact Hat|]. simpl. rewrite Hun. exact Hu.
  - intros v Hv. destruct (Hi v Hv) as (w & Hw & Hna). destruct (decide (sl_sleeping v = p)) as [E|E].
    + exists (set_qpriv pr q). simpl. rewrite E, lookup_insert_eq. split; [done|]. rewrite E in Hw. by simplify_eq.
    + exists w. simpl. by rewrite lookup_insert_ne.
Qed.

Lemma grafted_fail H new err s s' : pre true ∅ [] (option_list new ++ H) s → zero_ok s → calms s s' → err ≠ 0 → grafted H new err s'.
Proof.
  intros Hp Hz Hc Herr. split; [by eapply zero_calms|]. destruct (Z.eqb_spec err 0); [done|]. by eapply pre_calms.
Qed.

Lemma zero_evolves L F s s' : evolves L ∅ F s s' → slots_same s s' → zero_ok s → zero_ok s'.
Proof.
  intros Hev [Ht _] Hz E v Hv. apply Hz; [|simpl in *; by rewrite <- Ht]. pose proof (ev_dev _ _ _ _ _ Hev) as Hd. injection Hd; congruence.
Qed.

(** After the pointer was exchanged. *)
Lemma graft_slot_end H s clid new old : pre true ∅ [] (option_list old ++ H) s → zero_ok s → (∀ a, new = Some a → is_Some (ns_heap s !! a)) →
  settles (λ n, (if old is Some b then upd_q b qdisc_flush else cret tt) ;;; notify_and_destroy n clid old new ;;; cret 0) s (grafted H new).
Proof.
  intros Hp Hz Hnew. eapply (settles_bind _ _ _ (λ _ s1, calms s s1)).
  { destruct old as [b|]; [|by apply settles_ret]. destruct (held_list _ _ _ _ _ (Some b) Hp b eq_refl) as [q Hq].
    eapply settles_upd_last; [exact Hq|]. eapply (calms_upd _ _ b q (qdisc_flush q)); [done|apply ok_flush|done..]. }
  intros [] s1 Hc. eapply settles_bind.
  { apply (notify_and_destroy_ok true ∅ [] H); [by eapply pre_calms|intros a E; eapply calms_is_Some; [exact Hc|auto]|set_solver]. }
  intros [] s2 (Hp2 & Hev & Hsl). apply settles_ret. split; [|done]. eapply zero_evolves; [done..|by eapply zero_calms].
Qed.

Lemma graft_class_ok H s p q clid new : pre true ∅ [] (option_list new ++ H) s → zero_ok s → ns_heap s !! p = Some q → p ≠ noop_qdisc →
  (is_Some (op_attach (ops (q_ops q))) → p = nd_qdisc (ns_dev s)) → (∀ a, new = Some a → ¬ rtc (edge ∅ (ns_heap s)) a p) →
  settles (λ n, graft_class n p clid new) s (grafted H new).
Proof.
  intros Hp Hz Ha Hn Hroot Hloop. eapply settles_get; [exact Ha|]. eapply (settles_bind _ _ _ (λ _ s1, calms s s1)).
  { destruct new as [a|]; [|by apply settles_ret]. destruct (held_list _ _ _ _ _ (Some a) Hp a eq_refl) as [v Hv].
    eapply settles_get; [exact Hv|]. case_match; [|by apply settles_ret]. eapply settles_upd_last; [exact Hv|].
    by eapply (calms_upd _ _ a v (map_flags clear_nolock v)). }
  intros [] s1 Hc. apply settles_gets. pose proof (pre_calms _ _ _ _ _ _ Hp Hc) as Hp1. pose proof (zero_calms _ _ Hc Hz) as Hz1.
  destruct (calms_lookup _ _ _ _ Hc Ha) as (q1 & Ha1 & Hq1). destruct (inv_fits (pr_inv Hp) p q Ha) as [Hfit _].
  destruct (op_cl (ops (q_ops q))) as [c|] eqn:Ec; [|apply settles_ret; by eapply grafted_fail].
  destruct (cl_graft c) as [f|] eqn:Ef; [|apply settles_ret; by eapply grafted_fail].
  cbv zeta. destruct (Z.eqb_spec (cl_find c (num_tx s1) (q_priv q) clid) 0) as [|Hcl]; [apply settles_ret; by eapply grafted_fail|].
  pose proof (ok_graft _ c f (num_tx s1) (q_priv q) _ clid new Ec Ef Hfit eq_refl Hcl) as Hg.
  destruct (f (num_tx s1) (q_priv q) _ new) as [err|old pr|dq].
  - apply settles_ret. by eapply grafted_fail.
  - destruct Hg as (Hf' & Hun & Hocc). destruct Hq1 as (E1 & _ & _ & _ & _ & _ & _ & E8 & E9 & _). eapply settles_upd; [exact Ha1|].
    apply (graft_slot_end H _ clid new old).
    + apply (graft_slot_ok H s1 p q1 new old pr Hp1 Ha1 Hn); [by rewrite E1|congruence|intros x Hx; rewrite E8; by apply Hocc|].
      intros a E Hr. apply (Hloop a E). revert Hr. apply rtc_subrel. intros x y. apply (calms_edge _ _ _ _ _ Hc).
    + exact Hz1.
    + intros a E. simpl. apply is_Some_update. by apply (held_list _ _ _ _ _ _ Hp1).
  - destruct Hg as (Hat & i & -> & Hi). specialize (Hroot Hat). assert (nd_qdisc (ns_dev s1) = nd_qdisc (ns_dev s)) as En.
    { pose proof (cs_dev _ _ Hc) as Hd. by injection Hd. }
    eapply settles_bind; [apply (mq_graft_ok H); [done|congruence|done]|]. intros old s2 (Hp2 & En2 & Hnew).
    eapply settles_bind; [apply (notify_and_destroy_ok true ∅ [] H); [exact Hp2|done|set_solver]|]. intros [] s3 (Hp3 & Hev & Hsl).
    apply settles_ret. split; [|done]. intros E. pose proof (ev_dev _ _ _ _ _ Hev) as Hd. injection Hd as _ _ _ _ _ _ En3 _ _. congruence.
Qed.

End graft.
