(* ===== verification/QapiClass.v ===== *)
(** * Requests about classes are safe

    [tc_ctl_tclass] of Qapi.v ends and keeps the hierarchy of disciplines, unless
    it has to bind filters for a kind without [tcf_block]. *)

From Stdlib Require Import ZArith Lia.
From stdpp Require Import base numbers list gmap option sets strings.
From S2P Require Import Prelude Sched Stab Qtree QtreeInv QtreeRun Qapi QapiTheorems QapiGraft.

Open Scope Z_scope.

Section class.
Context {kind P opt : Type} `{!QdiscKinds kind P opt} `{!NetEnv kind P} `{!NetEnvOk kind P}.
Context {refs : KindRefs (kind := kind) (P := P)} {kok : KindsOk}.
Notation qd := (sqdisc kind P).
Notation st := (nstate kind P).
Implicit Types (s : st) (r : nlreq opt) (t : tca opt).

(** A discipline with classes. *)
Definition classful s (a : Z) (q : qd) (c : Qdisc_class_ops P opt) : Prop :=
  ns_heap s !! a = Some q ∧ op_cl (ops (q_ops q)) = Some c.

(** A class that exists. *)
Definition class_known s (q : qd) (c : Qdisc_class_ops P opt) (cl : Z) : Prop :=
  cl ∈ cl_walk c (num_tx s) (q_priv q) ∨ ∃ id, cl_find c (num_tx s) (q_priv q) id = cl ∧ cl ≠ 0.

Lemma class_msg_ok b L X H s a q c cl : pre b L X H s → classful s a q c → class_known s q c cl → ∃ o, class_msg a c cl s = Some (o, s).
Proof.
  intros Hp [Hq Hc] Hcl. destruct (inv_fits (pr_inv Hp) a q Hq) as [Hfit _].
  pose proof (ok_dump _ c (num_tx s) (q_priv q) cl (q_handle q, q_handle q) Hc Hfit Hcl) as Hd.
  unfold class_msg, cbind, get_q, gets. rewrite Hq. destruct (cl_dump _ _ _ _ _) as [[[parent handle] [x|dq]]|]; [| |by eexists]; simpl.
  - assert (is_Some (ns_heap s !! x)) as [v Hv]; [|rewrite Hv; by eexists].
    destruct Hd as [Hd| ->]; [|destruct (inv_noop (pr_inv Hp)) as (v & Hv & _); by exists v].
    apply (inv_edge (pr_inv Hp) a). exists q. split_and!; [done|set_solver|done].
  - destruct Hd as (i & -> & Hi). apply lookup_lt_is_Some in Hi as [v Hv]. unfold cbind, get_slot. simpl. rewrite Hv.
    destruct (sleeping_held _ _ _ _ _ _ _ (pr_inv Hp) (sleeping_slot (TxQueue i) _ _ Hv)) as [w Hw]. simpl. unfold get_q. rewrite Hw. by eexists.
Qed.

Lemma class_send_ok s b m : settles (λ _, class_send b m) s (λ _ s', calms s s').
Proof. destruct m as [[parent handle] info]. apply settles_ask, settles_modify, settles_ret. by apply calms_eq. Qed.

(** The message, once there is memory for it. *)
Lemma class_msg_settles {B} b L X H s a q c cl (g : nat → option (Z * Z * Z) → M st B) R :
  pre b L X H s → classful s a q c → class_known s q c cl → (∀ o, settles (λ n, g n o) (tick s) R) →
  settles (λ n, cbind (class_msg a c cl) (g n)) (tick s) R.
Proof.
  intros Hp Hq Hcl Hg. assert (pre b L X H (tick s)) as Hp' by (eapply pre_calms; [exact Hp|by apply calms_eq]).
  destruct (class_msg_ok _ _ _ _ _ _ _ _ _ Hp' Hq Hcl) as (o & Ho). eapply settles_ext; [|apply (Hg o)]. intros n. unfold cbind. by rewrite Ho.
Qed.

Lemma tclass_notify_ok b L X H s a q c cl : pre b L X H s → classful s a q c → class_known s q c cl →
  settles (λ _, tclass_notify a c cl) s (λ _ s', calms s s').
Proof.
  intros Hp Hq Hcl. apply settles_ask. case_match; [apply settles_ret; by apply calms_eq|]. eapply class_msg_settles; [done..|].
  intros o. apply settles_ask. destruct o as [m|]; [|apply settles_ret; by apply calms_eq]. case_match; [apply settles_ret; by apply calms_eq|].
  eapply settles_mono; [apply class_send_ok|]. intros err s' Hc. etrans; [|exact Hc]. by apply calms_eq.
Qed.

(** The private data of a discipline changes, its references do not. *)
Lemma classful_upd b L X H s a q c p : pre b L X H s → classful s a q c → keeps_refs (q_ops q) (q_priv q) p →
  let s' := with_heap (<[a := set_qpriv p q]> (ns_heap s)) s in calms s s' ∧ classful s' a (set_qpriv p q) c.
Proof.
  intros Hp [Hq Hc] Hk s'. split; [|split; [apply lookup_insert_eq|done]].
  eapply (calms_upd s s' a q (set_qpriv p q)); [done| |done..]. by eapply keeps_refs_calm.
Qed.

Lemma tclass_del_notify_ok b L X H s a q c cl : pre b L X H s → classful s a q c → class_known s q c cl →
  settles (λ _, tclass_del_notify a c cl) s (λ _ s', calms s s' ∧ (cl_delete c = None → s' = s)).
Proof.
  intros Hp Hq Hcl. unfold tclass_del_notify. destruct (cl_delete c) as [f|] eqn:Ef; [|by apply settles_ret].
  apply settles_ask. assert (∀ s', calms s s' → calms s s' ∧ (Some f = None → s' = s)) as Hno by done.
  case_match; [apply settles_ret, Hno; by apply calms_eq|]. eapply class_msg_settles; [done..|].
  intros o. apply settles_ask. destruct o as [m|]; [|apply settles_ret, Hno; by apply calms_eq].
  case_match; [apply settles_ret, Hno; by apply calms_eq|]. set (s1 := tick (tick s)). assert (calms s s1) as Hc1 by by apply calms_eq.
  assert (pre b L X H s1) as Hp1 by (by eapply pre_calms). assert (classful s1 a q c) as Hq1 by done.
  eapply settles_get; [apply Hq1|]. eapply settles_upd; [apply Hq1|].
  destruct (classful_upd b L X H s1 a q c (f cl (q_priv q)).2 Hp1 Hq1) as [Hc2 _].
  { eapply ok_cl_delete; [apply Hq|exact Ef|]. by apply (inv_fits (pr_inv Hp) a), Hq. }
  case_match; [apply settles_ret, Hno; by etrans|]. eapply settles_mono; [apply class_send_ok|]. intros err s' Hc3. apply Hno. etrans; [|exact Hc3]. by etrans.
Qed.

Lemma tc_bind_ok s a q c portid : classful s a q c → cl_has_block c = true ∨ cl_find c (num_tx s) (q_priv q) portid = 0 →
  tc_bind_tclass a c portid s = Some (tt, s).
Proof.
  intros [Hq _] Hb. unfold tc_bind_tclass, cbind, get_q, gets. rewrite Hq. destruct (Z.eqb_spec (cl_find c (num_tx s) (q_priv q) portid) 0); [done|].
  by destruct Hb as [->|].
Qed.

(** The class a request names. *)
Definition named_class s (q : qd) (c : Qdisc_class_ops P opt) (clid : Z) : Z :=
  if clid =? 0 then 0 else cl_find c (num_tx s) (q_priv q) clid.

(** The request does not make [tc_bind_tclass] call [tcf_block] where it is NULL. *)
Definition bindable (cmd : tclass_cmd) s (q : qd) (c : Qdisc_class_ops P opt) (clid portid : Z) : Prop :=
  cl_has_block c = true ∨
  match cmd with
  | RTM_NEWTCLASS => cl_change c = None
  | RTM_DELTCLASS => cl_delete c = None ∧ (named_class s q c clid = 0 ∨ cl_find c (num_tx s) (q_priv q) portid = 0)
  | RTM_GETTCLASS => True
  end.

Lemma tclass_change_ok b L X H s a q c t clid portid cl : pre b L X H s → classful s a q c →
  cl_has_block c = true ∨ cl_change c = None → settles (λ _, tclass_change a c t clid portid cl) s (λ _ s', calms s s').
Proof.
  intros Hp Hq Hb. unfold tclass_change. case_match; [by apply settles_ret|]. destruct (cl_change c) as [f|] eqn:Ef; [|by apply settles_ret].
  destruct Hb as [Hb|]; [|done]. eapply settles_get; [apply Hq|].
  pose proof (ok_cl_change _ c f (num_tx s) clid portid cl (tca_options t) (q_priv q) (proj2 Hq) Ef (proj1 (inv_fits (pr_inv Hp) a q (proj1 Hq)))) as Hk.
  destruct (f clid portid cl (tca_options t) (q_priv q)) as [[err p] new_cl]. destruct Hk as [Hk Hnew]. eapply settles_upd; [apply Hq|].
  destruct (classful_upd b L X H s a q c p Hp Hq Hk) as [Hc1 Hq1]. destruct (Z.eqb_spec err 0) as [E|E]; simpl; [|by apply settles_ret].
  eapply settles_bind; [eapply (tclass_notify_ok b L X H); [by eapply pre_calms|exact Hq1|right; by apply Hnew]|]. intros e s2 Hc2.
  assert (calms s s2) as Hc by (by etrans). destruct (calms_lookup _ _ _ _ Hc (proj1 Hq)) as (q2 & Hq2 & Hcalm).
  assert (classful s2 a q2 c) as Hq2' by (split; [done|]; destruct Hcalm as [-> _]; apply Hq).
  eapply (settles_bind _ _ _ (λ _ s3, s3 = s2)); [|intros ? ? ->; by apply settles_ret].
  case_match; [|by apply settles_ret]. eapply settles_done; [eapply tc_bind_ok; [exact Hq2'|by left]|done].
Qed.

Lemma tclass_do_ok b L X H s cmd r t a q c clid portid : pre b L X H s → classful s a q c → bindable cmd s q c clid portid →
  settles (λ _, tclass_do cmd r t a c clid portid) s (λ _ s', calms s s').
Proof.
  intros Hp Hq Hb. unfold tclass_do. eapply settles_get; [apply Hq|]. apply settles_gets. change (if clid =? 0 then 0 else _) with (named_class s q c clid).
  assert (named_class s q c clid ≠ 0 → class_known s q c (named_class s q c clid)) as Hkn.
  { unfold named_class. case_match; [done|]. intros Hne. right. by exists clid. }
  destruct cmd.
  - case_match; [by apply settles_ret|]. case_match; [by apply settles_ret|]. eapply tclass_change_ok; [done..|]. destruct Hb; auto.
  - destruct (Z.eqb_spec (named_class s q c clid) 0) as [|Hne]; [by apply settles_ret|].
    eapply settles_bind; [by apply (tclass_del_notify_ok b L X H s a q c _ Hp Hq), Hkn|]. intros err s1 [Hc1 Hsame].
    destruct (calms_lookup _ _ _ _ Hc1 (proj1 Hq)) as (q1 & Hq1 & Hcalm). assert (classful s1 a q1 c) as Hq1' by (split; [done|]; destruct Hcalm as [-> _]; apply Hq).
    eapply (settles_bind _ _ _ (λ _ s2, s2 = s1)); [|intros ? ? ->; by apply settles_ret]. eapply settles_done; [|done]. eapply tc_bind_ok; [exact Hq1'|].
    destruct Hb as [Hb|[Hd [Hb|Hb]]]; [by left|done|right]. rewrite (Hsame Hd) in *. destruct Hq as [Hq _]. by simplify_eq.
  - destruct (Z.eqb_spec (named_class s q c clid) 0) as [|Hne]; [by apply settles_ret|]. eapply tclass_notify_ok; [done..|by apply Hkn].
Qed.

(** For every discipline the request may name. *)
Definition class_request_ok (cmd : tclass_cmd) r s : Prop := ∀ root qid portid a q c,
  ns_heap s !! nd_qdisc (ns_dev s) = Some root → tclass_ids (q_handle root) (rq_parent r) (rq_handle r) = Some (qid, portid) →
  q_handle q = qid → classful s a q c → bindable cmd s q c (tclass_clid qid portid (rq_handle r)) portid.

Lemma tc_ctl_tclass_ok s cmd r : tree s → class_request_ok cmd r s → settles (λ _, tc_ctl_tclass cmd r) s (λ _ s', tree s').
Proof.
  intros Ht Hok. pose proof (tr_pre Ht) as Hp. unfold tc_ctl_tclass. destruct (match cmd with RTM_GETTCLASS => _ | _ => _ end); [by apply settles_ret|].
  destruct (rq_tca r) as [err|t]; [by apply settles_ret|]. apply settles_gets. destruct (negb (_ =? _)); [by apply settles_ret|]. apply settles_gets.
  destruct (root_held _ _ _ _ _ (pr_inv Hp)) as [root Hroot]. eapply settles_get; [exact Hroot|].
  destruct (tclass_ids _ _ _) as [[qid portid]|] eqn:Eid; [|by apply settles_ret].
  destruct (qdisc_lookup_ok _ _ _ _ qid Hp) as (o & Ho & Hf). eapply (settles_bind _ _ _ (λ x s1, x = o ∧ s1 = s)); [by eapply settles_done|].
  intros ? ? [-> ->]. destruct o as [a|]; [|by apply settles_ret]. destruct (Hf a eq_refl) as (_ & q & Hq & Eh & _).
  eapply settles_get; [exact Hq|]. destruct (op_cl (ops (q_ops q))) as [c|] eqn:Ec; [|by apply settles_ret].
  eapply settles_mono; [eapply tclass_do_ok; [exact Hp|done|by eapply Hok]|]. intros err s' Hc. by eapply tree_calms.
Qed.

End class.
