(* ===== verification/QapiCreate.v ===== *)
(** * Creation and change by request are safe

    [qdisc_create] either hands out a new object that nothing else points to, or
    undoes all it did; [qdisc_change] keeps the hierarchy. *)

From Stdlib Require Import ZArith Lia.
From stdpp Require Import base numbers list gmap option sets strings.
From S2P Require Import Prelude Sched Stab Qtree QtreeInv QtreeRun Qapi QapiTheorems QapiGraft.

Open Scope Z_scope.

Section create.
Context {kind P opt : Type} `{!QdiscKinds kind P opt} `{!NetEnv kind P} `{!NetEnvOk kind P}.
Context {refs : KindRefs (kind := kind) (P := P)} {kok : KindsOk}.
Notation qd := (sqdisc kind P).
Notation st := (nstate kind P).
Implicit Types (s : st) (q : qd).

(** ** Handles *)

Lemma alloc_handle_loop_ok L B H U i s : inv true L B H U s →
  ∃ h u, alloc_handle_loop i s = Some (h, with_autohandle u s).
Proof.
  revert s. induction i as [|i IH]; intros s I; simpl; [exists 0, (ns_autohandle s); by destruct s|].
  unfold cbind at 1 2, modify, gets. match goal with |- context [qdisc_lookup ?h] => generalize h; intros h0 end.
  match goal with |- context [cbind _ _ ?s2] => set (s1 := s2) end.
  assert (inv true L B H U s1) as I1 by (eapply inv_calms; [exact I|by apply calms_eq]).
  destruct (qdisc_lookup_total _ _ _ _ _ h0 I1) as (o & Ho & _). unfold cbind. rewrite Ho. destruct o as [a|]; [|by eexists _, _].
  destruct (IH s1 I1) as (h & u & E). exists h, u. exact E.
Qed.

(** ** An object that has not been initialized *)

(** [s] is [s0] with the object [q] at [a]. *)
Record infant (k : kind) s0 s (a : Z) q : Prop := {
  in_fresh : ns_heap s0 !! a = None;
  in_heap : ns_heap s = <[a := q]> (ns_heap s0);
  in_dev : dev_core (ns_dev s) = dev_core (ns_dev s0);
  in_leaked : ns_leaked s = ns_leaked s0;
  in_ops : q_ops q = k;
  in_queue : valid_queue (ns_dev s0) (q_queue q);
  in_refcnt : q_refcnt q = 1;
  in_builtin : f_builtin (q_flags q) = false;
  in_refs : children (q_priv q) = [] ∧ unhashed (q_priv q) = [] ∧ fits k (q_priv q);
}.

Lemma infant_lookup k s0 s a q : infant k s0 s a q → ns_heap s !! a = Some q.
Proof. intros [_ -> _ _ _ _ _ _ _]. apply lookup_insert_eq. Qed.

(** The object changes, but not its references. *)
Lemma infant_upd k s0 s a q q' s' : infant k s0 s a q → ns_heap s' = <[a := q']> (ns_heap s) → dev_core (ns_dev s') = dev_core (ns_dev s) →
  ns_leaked s' = ns_leaked s → q_ops q' = q_ops q → q_queue q' = q_queue q → q_refcnt q' = q_refcnt q →
  f_builtin (q_flags q') = f_builtin (q_flags q) → keeps_refs k (q_priv q) (q_priv q') → infant k s0 s' a q'.
Proof.
  intros [F1 F2 F3 F4 F5 F6 F7 F8 (F9 & F10 & F11)] Eh Ed El E1 E2 E3 E4 (E5 & E6 & E7). split; try congruence.
  - by rewrite Eh, F2, insert_insert_eq.
  - split_and!; congruence.
Qed.

Lemma infant_same k s0 s a q s' : infant k s0 s a q → ns_heap s' = ns_heap s → dev_core (ns_dev s') = dev_core (ns_dev s) →
  ns_leaked s' = ns_leaked s → infant k s0 s' a q.
Proof. intros [F1 F2 F3 F4 F5 F6 F7 F8 F9] Eh Ed El. split; congruence. Qed.

Lemma keeps_refl k (q : qd) : fits k (q_priv q) → keeps_refs k (q_priv q) (q_priv q).
Proof. done. Qed.

Lemma core_static d d' : dev_core d' = dev_core d → dev_static d' = dev_static d.
Proof. intros [= E1 E2 E3 E4 E5 E6 E7 E8 E9 _]. unfold dev_static. by rewrite E1, E2, E3, E4, E5, E6, E7, E8, E9. Qed.

Lemma infant_born r L H U k s0 s a q : inv r L ∅ H U s0 → infant k s0 s a q →
  inv r L ∅ (a :: H) (a :: U) s ∧ newborn ∅ s a q ∧ a ∉ L ∧ evolves L ({[a]} ∪ ∅) H s0 s ∧ slots_same s0 s.
Proof.
  intros I [F1 F2 F3 F4 F5 F6 F7 F8 (F9 & F10 & F11)]. destruct (inv_fresh _ _ _ _ _ _ _ I F1) as (Hn & _ & HL & Hno & _).
  set (s1 := with_heap (<[a := q]> (ns_heap s0)) s0). assert (inv r L ∅ (a :: H) (a :: U) s1) as I1.
  { eapply (inv_alloc r L ∅ H U s0 s1 a q I F1 F8 F7 F9 F10); [by rewrite F5|done|done]. }
  assert (calms s1 s) as Hc by (apply calms_eq; done). split_and!; [by eapply inv_calms| |done| |].
  - split; [rewrite F2; apply lookup_insert_eq|done|set_solver|done|]. rewrite F2. intros x (v & Hv & HxB & Hin).
    destruct (decide (x = a)) as [->|]; [rewrite lookup_insert_eq in Hv|rewrite lookup_insert_ne in Hv by done].
    + simplify_eq. rewrite F9 in Hin. by apply elem_of_nil in Hin.
    + apply (Hno x). by exists v.
  - eapply (evolves_new _ _ _ _ _ a q); [done|done|by apply core_static|set_solver].
  - split; [by injection F3|]. rewrite F4. by injection F3 as _ _ _ _ _ _ _ _ -> _.
Qed.

(** ** Undoing *)

Lemma evolves_delete L F s s' a : ns_heap s' = delete a (ns_heap s) → dev_static (ns_dev s') = dev_static (ns_dev s) → a ∉ L → a ∉ F →
  evolves L ∅ F s s'.
Proof.
  intros Eh Ed HL HF. assert (∀ x, x ≠ a → ns_heap s' !! x = ns_heap s !! x) as Hl by (intros; rewrite Eh; by rewrite lookup_delete_ne).
  split; [| | |done].
  - intros x v Hx Hin. exists v. rewrite Hl; [done|]. intros ->. set_solver.
  - intros x v v' Hx Hx' HxL. rewrite Hl in Hx' by (intros ->; tauto). by simplify_eq.
  - intros x v Hx _. left. exists v. split; [|done]. destruct (decide (x = a)) as [->|]; [|by rewrite Hl in Hx].
    by rewrite Eh, lookup_delete_eq in Hx.
Qed.

(** [err_out3]: the object, still held by its maker, is freed. *)
Lemma create_undo_ok L H s a q k err : inv true ({[a]} ∪ L) ({[a]} ∪ ∅) (a :: H) [a] s → ns_heap s !! a = Some q → q_refcnt q = 1 → a ∉ L →
  settles (λ _, create_undo k a err) s (λ r s', r = inl err ∧ inv true L ∅ H [] s' ∧ evolves L ∅ H s s' ∧ slots_same s s' ∧ ns_heap s' !! a = None).
Proof.
  intros I Ha Hr HL. unfold create_undo. do 3 apply settles_modify. apply settles_ret. match goal with |- _ ∧ inv _ _ _ _ _ ?s3 ∧ _ => set (s' := s3) end.
  destruct (inv_B I a) as (v & Hv & Hn & _); [set_solver|]. simplify_eq. set (s1 := with_heap (ns_heap s) s').
  assert (calms s s1) as Hc1 by by apply calms_eq. pose proof (inv_calms _ _ _ _ _ _ _ I Hc1) as I1.
  set (s2 := with_heap (<[a := set_refcnt 0 q]> (ns_heap s)) s').
  assert (inv true ({[a]} ∪ L) ({[a]} ∪ ∅) H [a] s2) as I2.
  { eapply (inv_refcnt _ _ _ _ _ _ s1 s2 a q 0 I1 Ha Hn); [|set_solver|set_solver|done]. intros x. cbn [occ]. rewrite Hr, (Z.eqb_sym a x). case_match; lia. }
  assert (inv true L ({[a]} ∪ ∅) H [a] s2) as I3.
  { eapply inv_setL_gen; [exact I2|..].
    - intros x y He Hx Hy. destruct (decide (x = a)) as [->|Hne]; [destruct He as (_ & _ & HB & _); set_solver|]. apply (inv_sep I2 x); set_solver.
    - intros x Hx. apply (inv_L I2). set_solver.
    - intros x w Hx _ Hw. right. assert (x = a) as -> by set_solver. simpl in Hw. rewrite lookup_insert_eq in Hw. by simplify_eq. }
  assert (a ∉ nd_hash (ns_dev s')) as Hh.
  { apply occ_zero. pose proof (inv_once I3 a) as Ho. cbn [occ] in Ho. rewrite Z.eqb_refl in Ho. change (ns_dev s2) with (ns_dev s') in Ho.
    pose proof (occ_nonneg a (nd_hash (ns_dev s'))). pose proof (owned_nonneg unhashed ({[a]} ∪ ∅) (ns_heap s2) a). lia. }
  split_and!; [done| | | |simpl; apply lookup_delete_eq].
  - eapply (inv_delete _ _ _ _ _ s2 s' a (set_refcnt 0 q)); [|apply lookup_insert_eq|done|set_solver|done|by apply not_elem_of_nil|done|].
    + eapply inv_weaken; [exact I3|done|apply submseteq_nil_l].
    + split_and!; [|done|done]. simpl. by rewrite delete_insert_eq.
  - eapply evolves_delete; [done|done|done|]. pose proof (inv_count I a q Ha Hn) as Hcnt. cbn [occ] in Hcnt. rewrite Z.eqb_refl, Hr in Hcnt.
    apply occ_zero. pose proof (occ_nonneg a (roots true (ns_dev s))). pose proof (occ_nonneg a H). pose proof (occ_nonneg a (ns_leaked s)).
    pose proof (owned_nonneg children ({[a]} ∪ ∅) (ns_heap s) a). lia.
  - by apply (calms_slots s s1).
Qed.

(** An object that only its maker knows. *)
Record born (k : kind) L H s0 s (a : Z) q : Prop := {
  bn_inv : inv true L ∅ (a :: H) [a] s;
  bn_new : newborn ∅ s a q;
  bn_L : a ∉ L;
  bn_ops : q_ops q = k;
  bn_child b : b ∈ children (q_priv q) → b ∈ L → b = noop_qdisc;
  bn_ev : evolves L ({[a]} ∪ ∅) H s0 s;
  bn_slots : slots_same s0 s;
}.

Lemma born_calms k L H s0 s s' a q : born k L H s0 s a q → calms s s' → ∃ q', born k L H s0 s' a q' ∧ calm q q'.
Proof.
  intros [I [Ha Hn HB Hr Hno] HL Ho Hc Hev Hsl] Hcs. destruct (calms_lookup _ _ _ _ Hcs Ha) as (q' & Ha' & Hq'). exists q'. split; [|done].
  pose proof Hq' as (E1 & _ & _ & _ & _ & _ & E7 & E8 & _). split.
  - by eapply inv_calms.
  - split; [done|done|done|congruence|]. intros x. rewrite (calms_edge _ _ _ _ _ Hcs). apply Hno.
  - done.
  - congruence.
  - by rewrite E8.
  - eapply evolves_trans; [exact Hev|by apply evolves_calms].
  - eapply slots_trans; [exact Hsl|by apply calms_slots].
Qed.

(** Nothing is left of a creation that failed. *)
Definition undone L H s0 (err : Z) (r : Z + Z) s : Prop := r = inl err ∧ inv true L ∅ H [] s ∧ evolves L ∅ H s0 s ∧ slots_same s0 s.

Lemma born_busy k L H s0 s a q : born k L H s0 s a q → inv true ({[a]} ∪ L) ({[a]} ∪ ∅) (children (q_priv q) ++ a :: H) (unhashed (q_priv q) ++ [a]) s.
Proof.
  intros [I Hnb HL Ho Hc Hev Hsl]. pose proof Hnb as [Ha Hn HB _ _]. apply inv_begin; [by eapply inv_born|done|done|done|set_solver].
Qed.

Lemma undo_born k L H s0 s a q err : born k L H s0 s a q → children (q_priv q) = [] → settles (λ _, create_undo k a err) s (undone L H s0 err).
Proof.
  intros Hb Hc. pose proof (born_busy _ _ _ _ _ _ _ Hb) as I. rewrite Hc in I. destruct Hb as [_ [Ha Hn HB Hr Hno] HL Ho _ Hev Hsl].
  eapply settles_mono; [eapply create_undo_ok; [eapply inv_weaken; [exact I|done|by apply submseteq_inserts_l]|exact Ha|done|done]|].
  intros r s' (-> & I' & Hev' & Hsl' & Hno'). split_and!; [done|done| |by eapply slots_trans].
  eapply evolves_unbusy; [exact HL|exact Hev|exact Hev'|]. intros v Hv. congruence.
Qed.

Lemma create_destroy_ok k L H s0 s a q err : born k L H s0 s a q → settles (λ n, create_destroy n k a err) s (undone L H s0 err).
Proof.
  intros Hb. pose proof (born_busy _ _ _ _ _ _ _ Hb) as I. destruct Hb as [I0 [Ha Hn HB Hr Hno] HL Ho Hch Hev Hsl].
  eapply settles_get; [exact Ha|]. eapply self_of_ok; [exact Ha|]. intros me _ _ _ _ _ _. rewrite <- Ho.
  assert (inv true ({[a]} ∪ L) ({[a]} ∪ ∅) (children (q_priv q) ++ a :: H) [a] s) as I' by (eapply inv_weaken; [exact I|done|by apply submseteq_inserts_l]).
  eapply settles_bind; [eapply (ops_destroy_ok (Z.to_nat (live s)) true ({[a]} ∪ L) ({[a]} ∪ ∅) (a :: H) [a] s q me (put_ok _) I')|].
  - by apply (inv_fits I0 a).
  - intros c Hc [->|HcL]%elem_of_busy; [|by apply Hch]. destruct (Hno a). by exists q.
  - intros x ->%list_elem_of_singleton. left. by left.
  - pose proof (live_nonneg s). lia.
  - intros [] s1 [I1 [Hev1 Hsl1 _ _]]. destruct (ev_same _ _ _ _ _ Hev1 a q Ha) as (q1 & Ha1 & _); [set_solver|].
    destruct (ev_refcnt _ _ _ _ _ Hev1 a q q1 Ha Ha1) as [Hr1 _]; [set_solver|].
    eapply settles_mono; [eapply (create_undo_ok L H s1 a q1); [done|done|congruence|done]|].
    intros r s2 (-> & I2 & Hev2 & Hsl2 & Hno2). split_and!; [done|done| |eapply slots_trans; [exact Hsl|by eapply slots_trans]].
    eapply (evolves_unbusy L ∅ H s0 s1 s2 a HL); [|exact Hev2|intros v Hv; congruence].
    eapply evolves_trans; [exact Hev|]. eapply evolves_sub; [| |exact Hev1]; [set_solver|by right].
Qed.

Lemma create_release_ok k L H s0 s a q err : born k L H s0 s a q → settles (λ n, create_release n k a err) s (undone L H s0 err).
Proof.
  intros Hb. eapply settles_get; [apply (bn_new _ _ _ _ _ _ _ Hb)|]. apply settles_modify.
  match goal with |- settles _ ?s1 _ => destruct (born_calms _ _ _ _ _ s1 _ _ Hb) as (q' & Hb' & _) end; [by apply calms_eq|].
  by eapply create_destroy_ok.
Qed.

(** What is not in [L] does not lead into it. *)
Lemma no_path_into r L B H U s a b : inv r L B H U s → a ∈ L → a ≠ noop_qdisc → (b ∈ L → b = noop_qdisc) → ¬ rtc (edge B (ns_heap s)) b a.
Proof.
  intros I Ha Hn Hb Hr. induction Hr as [b|b y a He Hr IH]; [by apply Hn, Hb|]. destruct (decide (b ∈ L)) as [HbL|HbL].
  - rewrite (Hb HbL) in He. eapply Hn, (noop_childless _ _ _ _ _ _ _ I). by eapply rtc_l.
  - apply IH; [done..|]. by apply (inv_sep I b).
Qed.

(** ** The end of a creation *)

(** The errors the parser of attributes gives. *)
Definition tca_ok (t : tca opt) : Prop := ∀ e, tca_stab t = Some (inl e) → e ≠ - EAGAIN.

Lemma get_stab_ok o s : (∀ e, o = inl e → e ≠ - EAGAIN) →
  settles (λ _, get_stab o) s (λ r s', calms s s' ∧ ∀ e, r = inl e → e ≠ - EAGAIN).
Proof.
  intros Ho. destruct (qdisc_get_stab (kmalloc_stab (ns_clock s) (map st_addr (ns_stabs s))) o (ns_stabs s)) as [r l] eqn:E.
  eapply settles_done; [unfold get_stab; by rewrite E|].
  split; [by apply calms_eq|]. intros e ->. unfold qdisc_get_stab in E. repeat case_match; simplify_eq; auto.
Qed.

Lemma create_stab_ok a t s : tca_ok t → is_Some (ns_heap s !! a) →
  settles (λ _, create_stab a t) s (λ e s', calms s s' ∧ ∀ err, e = Some err → err ≠ - EAGAIN).
Proof.
  intros Ht Ha. unfold create_stab. destruct (tca_stab t) as [o|] eqn:Eo; [|by apply settles_ret].
  eapply settles_bind; [apply get_stab_ok; intros e ->; by apply Ht|]. intros r s1 [Hc Hr]. destruct r as [err|tab].
  - apply settles_ret. split; [done|]. intros e [= <-]. by apply Hr.
  - destruct (calms_is_Some _ _ _ Hc Ha) as [q Hq]. eapply settles_upd; [exact Hq|]. apply settles_ret. split; [|done].
    etrans; [exact Hc|]. by eapply (calms_upd _ _ a q (set_stab (Some (st_addr tab)) q)).
Qed.

Lemma create_rate_ok a (t : tca opt) s : is_Some (ns_heap s !! a) →
  settles (λ _, create_rate a t) s (λ e s', calms s s' ∧ ∀ err, e = Some err → err ≠ - EAGAIN).
Proof.
  intros [q Hq]. unfold create_rate. destruct (tca_rate t) as [r|]; [|by apply settles_ret]. eapply settles_get; [exact Hq|].
  case_match; [apply settles_ret; split; [done|by intros e [= <-]]|]. apply settles_ask.
  assert (calms s (tick s)) as Hc by by apply calms_eq. destruct (Z.eqb_spec (gen_new_estimator (ns_clock s) r) 0).
  - eapply settles_upd; [exact Hq|]. apply settles_ret. split; [|done]. etrans; [exact Hc|]. by eapply (calms_upd _ _ a q (set_rate_est true q)).
  - apply settles_ret. split; [done|]. intros e [= <-]. apply estimator_errors.
Qed.

(** A creation that has succeeded. *)
Record created (k : kind) (par : Z) H s0 s (a : Z) q : Prop := {
  cd_new : newborn ∅ s a q;
  cd_ops : q_ops q = k;
  cd_parent : q_parent q = par;
  cd_att : att_ok q;
  cd_plain : op_attach (ops k) = None → unhashed (q_priv q) = [];
  cd_full : is_Some (op_attach (ops k)) → length (children (q_priv q)) = num_tx s0;
  cd_pre : pre true ∅ [a] (a :: H) s;
  cd_static : dev_static (ns_dev s) = dev_static (ns_dev s0);
  cd_slots : slots_same s0 s;
  cd_old x v : ns_heap s0 !! x = Some v → ∃ v', ns_heap s !! x = Some v' ∧ same v v';
  cd_reach x : is_Some (ns_heap s0 !! x) → x ≠ noop_qdisc → ¬ rtc (edge ∅ (ns_heap s)) a x;
}.

(** The objects of [s0] are there, as they were. *)
Definition untouched s0 s : Prop := ∀ x v, ns_heap s0 !! x = Some v →
  ∃ v', ns_heap s !! x = Some v' ∧ same v v' ∧ q_refcnt v' = q_refcnt v ∧ children (q_priv v') = children (q_priv v).

Lemma calms_untouched s s' : calms s s' → untouched s s'.
Proof.
  intros Hc x v Hx. destruct (calms_lookup _ _ _ _ Hc Hx) as (v' & Hv' & Hq). exists v'. pose proof (calm_same _ _ Hq). by destruct Hq as (_ & _ & _ & _ & _ & _ & E7 & E8 & _).
Qed.

Lemma untouched_trans s1 s2 s3 : untouched s1 s2 → untouched s2 s3 → untouched s1 s3.
Proof.
  intros H1 H2 x v Hx. destruct (H1 x v Hx) as (v1 & Hv1 & S1 & R1 & C1), (H2 x v1 Hv1) as (v2 & Hv2 & S2 & R2 & C2).
  exists v2. split_and!; [done|by eapply same_trans|congruence..].
Qed.

Definition creation (k : kind) (par : Z) H s0 (r : Z + Z) s : Prop :=
  match r with
  | inl err => err ≠ - EAGAIN ∧ pre true ∅ [] H s ∧ dev_static (ns_dev s) = dev_static (ns_dev s0) ∧ slots_same s0 s ∧ untouched s0 s
  | inr a => ∃ q, created k par H s0 s a q
  end.

Lemma undone_creation k par L H s0 err r s : pre true L [] H s0 → L = dom (ns_heap s0) → err ≠ - EAGAIN → undone L H s0 err r s → creation k par H s0 r s.
Proof.
  intros Hp EL Herr (-> & I & Hev & Hsl). split_and!; [done| |apply (ev_dev _ _ _ _ _ Hev)|done|].
  - eapply pre_empty. by eapply pre_evolves.
  - intros x v Hx. assert (x ∈ L) as HxL by (subst L; apply elem_of_dom; by exists v). destruct (ev_same _ _ _ _ _ Hev x v Hx) as (v' & Hv' & Hs); [by left|].
    destruct (ev_refcnt _ _ _ _ _ Hev x v v' Hx Hv' HxL) as [Hr Hc]. exists v'. split_and!; [done..|]. apply Hc. set_solver.
Qed.

(** The facts that the initialization established survive. *)
Definition ripe (k : kind) (par : Z) s0 q : Prop := q_parent q = par ∧ att_ok q ∧
  (op_attach (ops k) = None → unhashed (q_priv q) = []) ∧ (is_Some (op_attach (ops k)) → length (children (q_priv q)) = num_tx s0).

Lemma ripe_calm k par s0 q q' : ripe k par s0 q → calm q q' → ripe k par s0 q'.
Proof.
  intros (E1 & E2 & E3 & E4) Hc. pose proof Hc as (_ & _ & E & _ & _ & _ & _ & Ec & Eu & _).
  split_and!; [congruence|eapply same_att; [by apply calm_same|done]|by rewrite Eu|by rewrite Ec].
Qed.

Lemma create_hash_ok k par L H s0 s a q : pre true L [] H s0 → L = dom (ns_heap s0) → born k L H s0 s a q → ripe k par s0 q →
  settles (λ _, qdisc_hash_add a false ;;; cret (inr a)) s (creation k par H s0).
Proof.
  intros Hp EL [I Hnb HL Ho Hch Hev Hsl] (E1 & E2 & E3 & E4). pose proof Hnb as [Ha Hn _ Hr Hno].
  assert (∀ U s', inv true L ∅ (a :: H) U s' → evolves L ({[a]} ∪ ∅) H s0 s' → slots_same s0 s' → ns_heap s' = ns_heap s → created k par H s0 s' a q) as Hdone.
  { intros U s' I' Hev' Hsl' Eh. assert (newborn ∅ s' a q) as Hnb' by (split; rewrite ?Eh; done).
    split; [done..| |apply (ev_dev _ _ _ _ _ Hev')|done| |].
    2:{ intros x v Hx. apply (ev_same _ _ _ _ _ Hev' x v Hx). left. subst L. apply elem_of_dom. by exists v. }
    2:{ intros x Hx Hxn. eapply no_path_into; [exact I'|subst L; by apply elem_of_dom|done|done]. }
    eapply pre_empty. eapply pre_born; [exact Hp|exact I'|exact Hev'|done|apply Hnb'|done|].
    eapply newborn_slots; [exact I'|apply Hnb'|done|done]. }
  unfold qdisc_hash_add. apply settles_assoc. eapply settles_get; [exact Ha|]. destruct (hashable q) eqn:Eh.
  - apply settles_assoc, settles_modify. eapply (settles_bind _ _ _ (λ _ s1, s1 = _)); [by apply settles_ret|]. intros [] ? ->. apply settles_ret.
    match goal with |- creation _ _ _ _ _ ?s2 => set (s1 := s2) end.
    assert (inv true L ∅ (a :: H) [] s1) as I1 by (by eapply (inv_hash_add _ _ _ _ _ s s1 a q)). exists q. eapply (Hdone []); [done| | |done].
    + eapply evolves_trans; [exact Hev|by apply evolves_heap].
    + eapply slots_trans; [exact Hsl|done].
  - eapply (settles_bind _ _ _ (λ _ s1, s1 = s)); [by apply settles_ret|]. intros [] ? ->. apply settles_ret. exists q. by eapply Hdone.
Qed.

Lemma create_extras_ok k par L H s0 s a q t : tca_ok t → pre true L [] H s0 → L = dom (ns_heap s0) → born k L H s0 s a q → ripe k par s0 q →
  settles (λ n, create_extras n k a t) s (creation k par H s0).
Proof.
  intros Ht Hp EL Hb Hri. unfold create_extras.
  eapply settles_bind; [apply create_stab_ok; [done|exists q; apply (bn_new _ _ _ _ _ _ _ Hb)]|]. intros e s1 [Hc1 He1].
  destruct (born_calms _ _ _ _ _ _ _ _ Hb Hc1) as (q1 & Hb1 & Hq1). pose proof (ripe_calm _ _ _ _ _ Hri Hq1) as Hri1.
  destruct e as [err|]; [eapply settles_mono; [by eapply create_release_ok|]; intros r s'; apply undone_creation; auto|].
  eapply settles_bind; [apply create_rate_ok; exists q1; apply (bn_new _ _ _ _ _ _ _ Hb1)|]. intros e s2 [Hc2 He2].
  destruct (born_calms _ _ _ _ _ _ _ _ Hb1 Hc2) as (q2 & Hb2 & Hq2). pose proof (ripe_calm _ _ _ _ _ Hri1 Hq2) as Hri2.
  destruct e as [err|]; [eapply settles_mono; [by eapply create_release_ok|]; intros r s'; apply undone_creation; auto|].
  by eapply create_hash_ok.
Qed.

(** ** The beginning *)

Lemma create_handle_ok k L H s0 s a q handle : inv true L ∅ H [] s0 → infant k s0 s a q →
  settles (λ _, create_handle a handle) s (λ _ s', ∃ q', infant k s0 s' a q' ∧ q_parent q' = q_parent q ∧
    (f_ingress (q_flags q') = true → f_ingress (q_flags q) = true ∨ handle = TC_H_INGRESS)).
Proof.
  intros I Hi. pose proof (infant_lookup _ _ _ _ _ Hi) as Ha. pose proof (in_refs _ _ _ _ _ Hi) as (_ & _ & Hfit). unfold create_handle.
  destruct (Z.eqb_spec handle TC_H_INGRESS) as [->|Hh].
  - eapply settles_upd; [exact Ha|]. apply settles_ret. exists (map_flags set_ingress q). split_and!; [by eapply infant_upd|done|auto].
  - eapply (settles_bind _ _ _ (λ _ s1, infant k s0 s1 a q)).
    { case_match; [|by apply settles_ret]. destruct (infant_born _ _ _ _ _ _ _ _ _ I Hi) as (I1 & _).
      destruct (alloc_handle_loop_ok _ _ _ _ (Z.to_nat 32768) s I1) as (h & u & E). eapply settles_done; [exact E|]. by eapply infant_same. }
    intros h s1 Hi1. case_match; [apply settles_ret; eauto|]. apply settles_gets.
    eapply (settles_bind _ _ _ (λ _ s2, ∃ q', infant k s0 s2 a q' ∧ q_parent q' = q_parent q ∧ f_ingress (q_flags q') = f_ingress (q_flags q))).
    { case_match; [|apply settles_ret; by exists q]. eapply settles_upd_last; [by eapply infant_lookup|]. exists (map_flags set_onetxqueue q).
      split; [by eapply infant_upd|done]. }
    intros [] s2 (q2 & Hi2 & E1 & E2). apply settles_ret. exists q2. split_and!; [done..|]. rewrite E2. auto.
Qed.

Lemma block_set_ok k s0 s a q idx f : infant k s0 s a q → (∀ g n p, f = Some g → fits k p → keeps_refs k p (g n p)) →
  settles (λ _, block_set a idx f) s (λ err s', err ≠ - EAGAIN ∧ ∃ q', infant k s0 s' a q' ∧ same q q').
Proof.
  intros Hi Hf. assert (same q q) as Hsame by done. unfold block_set. destruct idx as [b|]; [|apply settles_ret; eauto].
  case_match; [apply settles_ret; eauto|]. destruct f as [g|]; [|apply settles_ret; eauto].
  eapply settles_upd; [by eapply infant_lookup|]. apply settles_ret. split; [done|]. pose proof (in_refs _ _ _ _ _ Hi) as (_ & _ & Hfit).
  exists (set_qpriv (g b (q_priv q)) q). split; [|done]. eapply infant_upd; [exact Hi|done..|]. by apply Hf.
Qed.

Lemma block_indexes_ok k s0 s a q (t : tca opt) : infant k s0 s a q →
  settles (λ _, qdisc_block_indexes_set a t) s (λ err s', err ≠ - EAGAIN ∧ ∃ q', infant k s0 s' a q' ∧ same q q').
Proof.
  intros Hi. eapply settles_get; [by eapply infant_lookup|]. pose proof (in_ops _ _ _ _ _ Hi) as Ho. rewrite Ho.
  eapply settles_bind; [eapply block_set_ok; [exact Hi|]; intros g n p Eg; by eapply ok_ingress_block|]. intros err s1 (Herr & q1 & Hi1 & Hs1).
  case_match; [apply settles_ret; eauto|].
  eapply settles_mono; [eapply block_set_ok; [exact Hi1|]; intros g n p Eg; by eapply ok_egress_block|].
  intros err' s2 (Herr' & q2 & Hi2 & Hs2). split; [done|]. exists q2. split; [done|]. by eapply same_trans.
Qed.

Lemma infant_is_born k L H s0 s a q : inv true L ∅ H [] s0 → infant k s0 s a q → born k L H s0 s a q.
Proof.
  intros I Hi. destruct (infant_born _ _ _ _ _ _ _ _ _ I Hi) as (I1 & Hnb & HL & Hev & Hsl). destruct (in_refs _ _ _ _ _ Hi) as (Hc & _).
  split; [done|done|done|apply (in_ops _ _ _ _ _ Hi)|rewrite Hc; by intros b ?%elem_of_nil|done|done].
Qed.

(** [ops->init] and what follows. *)
Lemma create_init_ok k par L H s0 s a q t : tca_ok t → pre true L [] H s0 → L = dom (ns_heap s0) → infant k s0 s a q → q_parent q = par →
  (par = TC_H_ROOT → f_ingress (q_flags q) = false) →
  settles (λ n, let* err := match op_init (ops k) with
                        | None => cret 0
                        | Some f => ops_init (run n) a f (tca_options t)
                        end in
            if negb (err =? 0) then create_destroy n k a err else create_extras n k a t) s (creation k par H s0).
Proof.
  intros Ht Hp EL Hi Hpar Hing. pose proof (pr_inv Hp) as I. pose proof (in_ops _ _ _ _ _ Hi) as Ho.
  destruct (infant_born _ _ _ _ _ _ _ _ _ I Hi) as (I1 & Hnb & HL & Hev & Hsl). destruct (in_refs _ _ _ _ _ Hi) as (Hc & Hu & Hfit).
  eapply (settles_bind _ _ _ (λ err s1, ∃ q1, born k L H s0 s1 a q1 ∧ err ≠ - EAGAIN ∧ (err = 0 → ripe k par s0 q1))).
  - destruct (op_init (ops k)) as [f|] eqn:Ef.
    + eapply settles_mono; [eapply (ops_init_ok true L ∅ H [] s a q f); [done..|by rewrite Ho|by intros x ?%elem_of_nil|intros rk _ k' _; apply create_ok]|].
      intros err s1 (I2 & Hev2 & Hsl2 & q2 & Hnb2 & Hs2 & Hch2 & Hag & Hset). exists q2.
      assert (born k L H s0 s1 a q2) as Hb.
      { split; [done..| |done|by eapply evolves_trans|by eapply slots_trans]. destruct Hs2 as (E & _). congruence. }
      split_and!; [done..|]. intros E0. specialize (Hset E0). pose proof Hs2 as (E1 & _ & E3 & _ & E5 & _). split_and!; [congruence| | |].
      * unfold att_ok. rewrite E1, E3, E5, Ho, Hpar. intros Hat. destruct Hset as [[Hna _]|(_ & Hr & _)].
        -- rewrite Ho in Hna. rewrite Hna in Hat. by destruct Hat.
        -- split; [congruence|]. apply Hing. congruence.
      * intros Hna. destruct Hset as [[_ ?]|([? ?] & _)]; [done|]. congruence.
      * intros [g Eg]. destruct Hset as [[Hna _]|(_ & _ & _ & ->)]; [congruence|]. exact (f_equal length (proj1 Hsl)).
    + apply settles_ret. exists q. split_and!; [by eapply infant_is_born|done|]. intros _. pose proof (ok_no_init k Ef) as Hna. unfold ripe, att_ok. rewrite Ho, Hna.
      split_and!; [done| |done|]; by intros [? ?].
  - intros err s1 (q1 & Hb & Hag & Hri). destruct (Z.eqb_spec err 0) as [E|E]; simpl.
    + eapply create_extras_ok; [done..|exact Hb|auto].
    + eapply settles_mono; [by eapply create_destroy_ok|]. intros r s'. by apply undone_creation.
Qed.

Lemma alloc_infant L H s dq k : inv true L ∅ H [] s → valid_queue (ns_dev s) dq →
  settles (λ _, qdisc_alloc (Some dq) k) s (λ res s', match res with
    | inl err => calms s s' ∧ err ≠ - EAGAIN
    | inr a => ∃ q, infant k s s' a q ∧ f_ingress (q_flags q) = false
    end).
Proof.
  intros I Hdq. eapply settles_mono; [by apply (qdisc_alloc_ok _ _ _ _ _ _ dq k I)|]. intros res s1 ([_ [= _ Hl]] & _ & Hres).
  destruct res as [err|a]; [done|]. destruct Hres as (Hfr & Hd & q & Eh & (E1 & E2 & E3 & E4 & E5) & _ & Hin & _). exists q. split; [|done].
  split; [done..|by rewrite E2|done|done|]. rewrite E3. apply ok_priv0.
Qed.

Lemma create_with_ok k dqo par handle H s t : pre true ∅ [] H s → tca_ok t → (∀ dq, dqo = Some dq → valid_queue (ns_dev s) dq) →
  (handle = TC_H_INGRESS → par ≠ TC_H_ROOT) →
  settles (λ n, create_with n k dqo par handle t) s (creation k par H s).
Proof.
  intros Hp Ht Hdq Hpar. apply pre_all in Hp. set (L := dom (ns_heap s)) in *. unfold create_with.
  eapply (settles_bind _ _ _ (λ res s', match res with
    | inl err => calms s s' ∧ err ≠ - EAGAIN
    | inr a => ∃ q, infant k s s' a q ∧ f_ingress (q_flags q) = false
    end)).
  { destruct dqo as [dq|]; [by apply (alloc_infant L H), Hdq; [apply (pr_inv Hp)|]|by apply settles_ret]. }
  intros [err|a] s1 Hres.
  - destruct Hres as [Hc Herr]. apply settles_modify, settles_ret. match goal with |- creation _ _ _ _ _ ?s2 => assert (calms s s2) as Hc2 end.
    { etrans; [exact Hc|by apply calms_eq]. }
    split_and!; [done|eapply pre_empty; by eapply pre_calms|by apply calms_static|by apply calms_slots|by apply calms_untouched].
  - destruct Hres as (q & Hi & Hin). pose proof (in_refs _ _ _ _ _ Hi) as (_ & _ & Hfit). eapply settles_upd; [by eapply infant_lookup|].
    match goal with |- settles _ ?s2 _ => assert (infant k s s2 a (set_parent par q)) as Hi2 by by eapply infant_upd end.
    eapply settles_bind; [eapply create_handle_ok; [apply (pr_inv Hp)|exact Hi2]|]. intros h s3 (q3 & Hi3 & Epar & Eing). simpl in Epar.
    assert (∀ s' q' err, infant k s s' a q' → err ≠ - EAGAIN → settles (λ _, create_undo k a err) s' (creation k par H s)) as Hundo.
    { intros s' q' err Hi' Herr. eapply settles_mono; [eapply undo_born; [eapply infant_is_born; [apply (pr_inv Hp)|exact Hi']|apply (in_refs _ _ _ _ _ Hi')]|].
      intros r s4. by apply undone_creation. }
    destruct h as [h|]; [|by eapply Hundo]. eapply settles_upd; [by eapply infant_lookup|]. pose proof (in_refs _ _ _ _ _ Hi3) as (_ & _ & Hfit3).
    match goal with |- settles _ ?s4 _ => assert (infant k s s4 a (set_handle h q3)) as Hi4 by by eapply infant_upd end.
    apply settles_modify. match goal with |- settles _ ?s5 _ =>
      assert (infant k s s5 a (set_handle h q3)) as Hi5 by (case_match; [by eapply infant_same|exact Hi4]); revert Hi5; generalize s5 end.
    intros s5 Hi5.
    eapply settles_bind; [by apply block_indexes_ok|]. intros err s6 (Herr & q6 & Hi6 & Hs6). case_match; [by eapply Hundo|].
    eapply (create_init_ok k par L H s s6 a q6 t Ht Hp eq_refl Hi6); destruct Hs6 as (_ & _ & E3 & _ & E5 & _).
    + rewrite E3. exact Epar.
    + intros Er. rewrite E5. simpl. destruct (f_ingress (q_flags q3)); [|done]. destruct (Eing eq_refl) as [E|E]; [simpl in E; congruence|]. by destruct (Hpar E).
Qed.

(** The kind a request names, if it is there. *)
Definition known (name : option string) (base : list kind) : option kind :=
  match name with
  | None => None
  | Some name => match find_ops name base with
                 | Some k => if try_module_get (op_owner (ops k)) then Some k else None
                 | None => None
                 end
  end.

Lemma lookup_ops_ok name s : ∃ s', qdisc_lookup_ops name s = Some (known name (ns_base s), s') ∧ calms s s' ∧ ns_base s' = ns_base s.
Proof.
  unfold qdisc_lookup_ops, known. destruct name as [name|]; [|by exists s]. unfold cbind, gets. destruct (find_ops name (ns_base s)) as [k|]; [|by exists s].
  destruct (try_module_get _); [|by exists s]. eexists. split_and!; [done|by apply calms_eq|done].
Qed.

Lemma creation_calms k par H s s1 r s' : calms s s1 → creation k par H s1 r s' → creation k par H s r s'.
Proof.
  intros Hc. pose proof (calms_static _ _ Hc) as Ed. pose proof (calms_slots _ _ Hc) as Es. destruct r as [err|a]; simpl.
  - intros (H1 & H2 & H3 & H4 & H5). split_and!; [done..|congruence|by eapply slots_trans|].
    eapply untouched_trans; [by apply calms_untouched|done].
  - intros (q & [C1 C2 C3 C4 C5 C5' C6 C7 C8 C9 C10]). exists q.
    assert (num_tx s1 = num_tx s) as En by exact (f_equal length (proj1 Es)). split; [done..|by rewrite <- En|done|congruence|by eapply slots_trans| |].
    + intros x v Hx. destruct (calms_lookup _ _ _ _ Hc Hx) as (v1 & Hv1 & Hs1). destruct (C9 x v1 Hv1) as (v' & Hv' & Hs').
      exists v'. split; [done|]. eapply same_trans; [by apply calm_same|done].
    + intros x Hx. apply C10. by eapply calms_is_Some.
Qed.

(** If the module has to be loaded, the request starts again; then it is known. *)
Lemma qdisc_create_ok dqo par handle H s t : pre true ∅ [] H s → tca_ok t → (∀ dq, dqo = Some dq → valid_queue (ns_dev s) dq) →
  (handle = TC_H_INGRESS → par ≠ TC_H_ROOT) →
  settles (λ n, qdisc_create n dqo par handle t) s (λ r s',
    match known (tca_kind t) (ns_base s) with
    | Some k => creation k par H s r s'
    | None => calms s s' ∧ ∃ err, r = inl err ∧ (err = - EAGAIN → is_Some (known (tca_kind t) (ns_base s')))
    end).
Proof.
  intros Hp Ht Hdq Hpar. unfold qdisc_create. destruct (lookup_ops_ok (tca_kind t) s) as (s1 & E1 & Hc1 & Eb1).
  eapply (settles_bind _ _ _ (λ o s', o = known (tca_kind t) (ns_base s) ∧ s' = s1)); [by eapply settles_done|]. intros ? ? [-> ->].
  destruct (known (tca_kind t) (ns_base s)) as [k|] eqn:Ek.
  - eapply settles_mono; [apply (create_with_ok k dqo par handle H s1 t)|intros r s'; by apply creation_calms]; [by eapply pre_calms|done| |done].
    intros dq Hd. unfold valid_queue. rewrite (slot_of_core _ _ _ (cs_dev _ _ Hc1)). by apply Hdq.
  - destruct (tca_kind t) as [name|] eqn:En; [|apply settles_ret; split; [done|]; by eexists].
    case_match; [|apply settles_ret; split; [done|]; by eexists]. apply settles_modify.
    match goal with |- settles _ ?s2 _ => set (s2' := s2) end. assert (calms s s2') as Hc2 by (etrans; [exact Hc1|by apply calms_eq]).
    destruct (lookup_ops_ok (Some name) s2') as (s3 & E3 & Hc3 & Eb3).
    eapply (settles_bind _ _ _ (λ o s', o = known (Some name) (ns_base s2') ∧ s' = s3)); [by eapply settles_done|]. intros ? ? [-> ->].
    destruct (known (Some name) (ns_base s2')) as [k|] eqn:Ek3.
    + apply settles_modify, settles_ret. split; [etrans; [exact Hc2|]; etrans; [exact Hc3|by apply calms_eq]|].
      eexists. split; [done|]. intros _. cbn [with_mods ns_base]. rewrite Eb3, Ek3. eauto.
    + apply settles_ret. split; [by etrans|]. by eexists.
Qed.

(** ** Change *)

(** The object at [a] was busy, and has its references again. *)
Lemma pre_busy r L L' H H' F U s s' a q q' : pre r L [] H s → inv r L' ∅ H' U s' → evolves L ({[a]} ∪ ∅) F s s' → slots_same s s' →
  ns_heap s !! a = Some q → ns_heap s' !! a = Some q' → same q q' → unhashed (q_priv q') = [] → pre r L' [] H' s'.
Proof.
  intros [I Ho Hi Ht] I' Hev [_ [= Hsl Hl]] Ha Ha' Hs Hu.
  assert (∀ x v, ns_heap s' !! x = Some v → (∃ w, ns_heap s !! x = Some w ∧ same w v ∧ (unhashed (q_priv w) = [] → unhashed (q_priv v) = [])) ∨
    (op_attach (ops (q_ops v)) = None ∧ unhashed (q_priv v) = [])) as Hnew.
  { intros x v Hx. destruct (decide (x = a)) as [->|Hne]; [simplify_eq; left; eauto|]. apply (ev_new _ _ _ _ _ Hev x v Hx). set_solver. }
  split; [eapply inv_weaken; [exact I'|done|apply submseteq_nil_l]| | |by eapply tidy_kept, Ht; [apply (ev_dev _ _ _ _ _ Hev)|]].
  - intros x v Hx. destruct (Hnew x v Hx) as [(w & Hw & Hs' & Hu')|[Hna Hu']].
    + destruct (Ho x w Hw) as [Hatt Hun]. split; [by eapply same_att|auto].
    + split; [|done]. unfold att_ok. rewrite Hna. by intros [? ?].
  - intros v Hv. assert (sl_sleeping v ∈ sleeping (ns_dev s')) as Hvs by (by apply (sleeping_slot IngressQueue)).
    destruct (sleeping_held _ _ _ _ _ _ _ I' Hvs) as [u Hu']. exists u. split; [done|].
    destruct (Hnew _ u Hu') as [(w & Hw & (E & _) & _)|[? _]]; [|done].
    rewrite Hsl in Hv. destruct (Hi v Hv) as (w' & Hw' & Hna). simplify_eq. by rewrite E.
Qed.

(** The children's limits can be set. *)
Definition limits_ok s q : Prop := ∀ b, b ∈ children (q_priv q) → ∃ v, ns_heap s !! b = Some v ∧ limitable (q_ops v) = true.

Lemma ops_change_ok H s a q f o : pre true ∅ [] H s → ns_heap s !! a = Some q → a ≠ noop_qdisc → op_change (ops (q_ops q)) = Some f →
  limits_ok s q →
  settles (λ n, ops_change n a f o) s (λ _ s', pre true ∅ [] H s' ∧ slots_same s s' ∧ dev_static (ns_dev s') = dev_static (ns_dev s) ∧ is_Some (ns_heap s' !! a)).
Proof.
  intros Hp Ha Hn Ef Hlim. destruct (above_exists _ _ _ _ _ a (pr_inv Hp)) as (A & [A1 A2 A3 A4]); [by exists q|].
  assert (pre true A [] H s) as HpA by (eapply pre_setL; [exact Hp|intros x y He Hx Hy; destruct Hx; by eapply A3|done]).
  pose proof (pr_inv HpA) as I. destruct (inv_fits I a q Ha) as [Hfit _], (pr_objs Hp a q Ha) as [_ Hun]. specialize (Hun (not_elem_of_nil a)).
  pose proof (inv_begin _ _ _ _ _ _ _ _ I Ha (not_elem_of_empty a) Hn A1) as I1. rewrite Hun in I1.
  assert (∀ b, b ∈ children (q_priv q) → b ∈ A → b = noop_qdisc) as Hch.
  { intros b Hb HbA. destruct (edge_irrefl _ _ _ _ _ _ a I). eapply tc_rtc_r; [apply tc_once; exists q; split_and!; [done|set_solver|exact Hb]|by apply A4]. }
  eapply settles_get; [exact Ha|]. eapply self_of_ok; [exact Ha|]. intros me _ _ _ Hmq _ Hmn.
  assert (sees (valid_queue (ns_dev s)) me) as Hsees by (eapply sees_valid; [exact I|rewrite Hmq; by apply (inv_queue I a)|done]).
  destruct (ok_change _ f me (q_priv q) o A _ Ef Hfit Hun Hsees Hch) as (rk & Hown).
  eapply settles_bind.
  { eapply (prog_run_ok None _ rk false A _ _ _ _ _ _ Hown); [exact put_ok|intros k _; apply create_ok|by left|].
    split; [exact I1|by intros x ?%elem_of_nil..|done|done|done|]. intros x Hx. auto. }
  intros an s1 (H1 & U1 & ((Lc & Lu & Lf) & Hu1 & HA1) & I2 & [Hev Hsl _ _]). specialize (Hsl eq_refl).
  destruct (ev_same _ _ _ _ _ Hev a q Ha) as (q1 & Ha1 & Hs1); [auto|]. destruct (ev_refcnt _ _ _ _ _ Hev a q q1 Ha Ha1 A1) as [Hr1 _].
  eapply settles_upd; [exact Ha1|]. apply settles_ret. set (q2 := set_enqueue _ _). set (s2 := with_heap _ s1).
  assert (inv true A ∅ H [] s2) as I3.
  { eapply (inv_leave _ _ _ _ _ H1 U1 s1 s2 a q1 q2); [exact I2|done|set_solver|done| |done|done|done|done|simpl; by destruct Hs1 as (-> & _)|done| |done].
    - rewrite Hr1. apply (inv_alive I a); [done..|set_solver].
    - intros b Hb. eapply no_path_into; [exact I2|done|done|]. by apply HA1. }
  split_and!; [|done|apply (ev_dev _ _ _ _ _ Hev)|simpl; rewrite lookup_insert_eq; eauto].
  eapply (pre_empty _ A), (pre_busy _ _ _ _ _ H _ s s2 a q q2 HpA I3); [| |done|apply lookup_insert_eq|by eapply same_trans|done].
  - (* the store *)
    destruct Hev as [V1 V2 V3 V4]. split; [| | |done].
    + intros x v Hx Hin. destruct (decide (x = a)) as [->|Hne]; [exists q2; simplify_eq; split; [apply lookup_insert_eq|by eapply same_trans]|].
      destruct (V1 x v Hx Hin) as (v' & Hv' & Hs). exists v'. simpl. by rewrite lookup_insert_ne.
    + intros x v v' Hx Hx' HxA. destruct (lookup_update _ _ _ _ _ _ Ha1 Hx') as [[-> ->]|[Hne Hx1]]; [|by eapply V2].
      simplify_eq. split; [done|]. set_solver.
    + intros x v Hx HxB. apply V3; [|done]. simpl in Hx. rewrite lookup_insert_ne in Hx; [done|]. set_solver.
  - done.
Qed.

Lemma qdisc_change_ok H s a q t : pre true ∅ [] H s → ns_heap s !! a = Some q → limits_ok s q → a ≠ noop_qdisc → tca_ok t →
  settles (λ n, qdisc_change n a t) s (λ _ s', pre true ∅ [] H s' ∧ slots_same s s' ∧ dev_static (ns_dev s') = dev_static (ns_dev s) ∧ is_Some (ns_heap s' !! a)).
Proof.
  intros Hp Ha Hlim Hn Ht. eapply settles_get; [exact Ha|].
  set (R := λ s' : st, pre true ∅ [] H s' ∧ slots_same s s' ∧ dev_static (ns_dev s') = dev_static (ns_dev s) ∧ is_Some (ns_heap s' !! a)).
  assert (R s) as HR by (unfold R; split_and!; [done..|by exists q]).
  assert (∀ s1 s2, R s1 → calms s1 s2 → R s2) as HRc.
  { intros s1 s2 (P1 & P2 & P3 & P4) Hc. split_and!; [by eapply pre_calms|eapply slots_trans; [exact P2|by apply calms_slots]|
      rewrite (calms_static _ _ Hc); done|by eapply calms_is_Some]. }
  eapply (settles_bind _ _ _ (λ _ s1, R s1)).
  { destruct (tca_options t) as [o|]; [|by apply settles_ret]. destruct (op_change _) as [f|] eqn:Ef; [|by apply settles_ret].
    case_match; [by apply settles_ret|]. by apply (ops_change_ok H s a q f o). }
  intros err s1 HR1. case_match; [by apply settles_ret|].
  eapply (settles_bind _ _ _ (λ _ s2, R s2)).
  { destruct (tca_stab t) as [o|] eqn:Eo; [|by apply settles_ret]. eapply settles_bind; [apply get_stab_ok; intros e ->; by apply Ht|].
    intros r s2 [Hc _]. apply settles_ret. by eapply HRc. }
  intros [err'|stab] s2 HR2; [by apply settles_ret|]. destruct HR2 as (P1 & P2 & P3 & [q2 Ha2]).
  eapply settles_get; [exact Ha2|]. eapply settles_upd; [exact Ha2|]. apply settles_modify.
  match goal with |- settles _ ?s4 _ => assert (R s4 ∧ ns_heap s4 !! a = Some (set_stab stab q2)) as [HR4 Ha4]; [|revert HR4 Ha4; generalize s4; intros s3 HR4 Ha4] end.
  { split; [|apply lookup_insert_eq]. eapply (HRc s2); [by unfold R; eauto|]. by eapply (calms_upd _ _ a q2 (set_stab stab q2)). }
  eapply (settles_bind _ _ _ (λ _ s4, R s4)); [|intros [] s4 HR5; by apply settles_ret].
  destruct (tca_rate t) as [rt|]; [|by apply settles_ret]. case_match; [by apply settles_ret|]. apply settles_ask.
  assert (R (tick s3)) as HRt by (eapply HRc; [exact HR4|by apply calms_eq]). case_match; [|by apply settles_ret].
  eapply settles_upd_last; [exact Ha4|]. eapply (HRc (tick s3)); [done|]. by eapply (calms_upd _ _ a _ (set_rate_est true (set_stab stab q2))).
Qed.

End create.
