(* ===== verification/QapiSafe.v ===== *)
(** * Every request and event is safe

    The handlers of Qapi.v, one after the other: for a device in a state that
    requests and events lead to, each of them ends, follows no dangling pointer,
    and keeps the hierarchy of disciplines well formed.  The exceptions, three
    requests on which the code fails, are excluded here and shown to fail in
    QkindsSample.v. *)

From Stdlib Require Import ZArith Lia.
From stdpp Require Import base numbers list gmap option sets strings.
From S2P Require Import Prelude Sched Stab Qtree QtreeInv QtreeRun Qapi QapiTheorems QapiGraft QapiClass QapiCreate.

Open Scope Z_scope.

Section safe.
Context {kind P opt : Type} `{!EqDecision kind} `{!QdiscKinds kind P opt} `{!NetEnv kind P} `{!NetEnvOk kind P}.
Context {refs : KindRefs (kind := kind) (P := P)} {kok : KindsOk}.
Notation qd := (sqdisc kind P).
Notation st := (nstate kind P).
Implicit Types (s : st) (r : nlreq opt) (t : tca opt).

(** A computation that only reads. *)
Lemma settles_read {A B} (m : M st A) (Φ : A → Prop) (g : nat → A → M st B) s R :
  (∃ o, m s = Some (o, s) ∧ Φ o) → (∀ o, Φ o → settles (λ n, g n o) s R) → settles (λ n, cbind m (g n)) s R.
Proof. intros (o & Ho & HΦ) Hg. eapply (settles_ext _ (λ n, g n o)); [|by apply Hg]. intros n. unfold cbind. by rewrite Ho. Qed.

Lemma settles_retbind {A B} (a : A) (g : nat → A → M st B) s R : settles (λ n, g n a) s R → settles (λ n, cbind (cret a) (g n)) s R.
Proof. done. Qed.

(** ** Where a request points *)

(** The parent of a class. *)
Definition parent_ok s (p : Z) : Prop :=
  p ≠ noop_qdisc ∧ ∃ q, ns_heap s !! p = Some q ∧ (is_Some (op_attach (ops (q_ops q))) → p = nd_qdisc (ns_dev s)).

Lemma found_parent L X H s h p : pre true L X H s → h ≠ 0 → found h p s → parent_ok s p.
Proof.
  intros Hp Hh Hf. split; [by eapply found_noop|]. destruct Hf as (q & Hq & _ & Hat). eauto.
Qed.

(** The root and the ingress queue have no parent. *)
Definition at_root (r : nlreq opt) : Prop := rq_parent r = TC_H_ROOT ∨ rq_parent r = TC_H_INGRESS.

Definition place_ok (r : nlreq opt) s (p q : option Z) : Prop :=
  (∀ b, q = Some b → is_Some (ns_heap s !! b)) ∧
  match p with
  | Some p => parent_ok s p ∧ ¬ at_root r
  | None => at_root r ∧ (rq_parent r = TC_H_ROOT → q = Some (nd_qdisc (ns_dev s)))
  end.

(** What a step of the decision keeps. *)
Definition kept s s' : Prop :=
  ns_heap s' = ns_heap s ∧ nd_qdisc (ns_dev s') = nd_qdisc (ns_dev s) ∧ ns_base s' = ns_base s.

Lemma tree_ingress s : tree s → nd_ingress (ns_dev s) = None →
  tree (with_dev (set_nd_ingress (Some (Slot noop_qdisc noop_qdisc)) (ns_dev s)) s).
Proof.
  intros [[I Ho Hi Ht] Hz] En. split; [split; [|done| |done]|done].
  - eapply (inv_dev _ _ _ _ _ _ _ _ s _ I); simpl.
    + done.
    + intros x Hx. unfold roots, sleeping. simpl. rewrite En, !occ_app. cbn [occ]. destruct (Z.eqb_spec noop_qdisc x); [congruence|lia].
    + lia.
    + done.
    + auto.
    + intros [i| |]; simpl; [done|eauto|done].
    + done.
    + intros [i| |] v; simpl; [apply (inv_active I (TxQueue i))|intros [= <-]; by left|done].
  - intros v [= <-]. exact (noop_plain _ _ _ _ _ _ I).
Qed.

Lemma ingress_create_ok s : tree s →
  settles (λ _, dev_ingress_queue_create) s (λ o s', tree s' ∧ kept s s' ∧ ∀ v, o = Some v → is_Some (ns_heap s' !! sl_sleeping v)).
Proof.
  intros Ht. apply settles_gets. destruct (nd_ingress (ns_dev s)) as [v|] eqn:En.
  - apply settles_ret. split_and!; [done..|]. intros w [= <-]. eapply sleeping_held; [apply (pr_inv (tr_pre Ht))|by apply (sleeping_slot IngressQueue)].
  - apply settles_ask. assert (tree (tick s)) as Ht' by (eapply tree_calms; [exact Ht|by apply calms_eq]).
    destruct (alloc_ok _); [|by apply settles_ret]. apply settles_modify, settles_ret. pose proof (tree_ingress _ Ht' En) as Ht2. split_and!; [done..|].
    intros w [= <-]. destruct (inv_noop (pr_inv (tr_pre Ht2))) as (q & Hq & _). by exists q.
Qed.

Lemma modify_place_ok r s : tree s →
  settles (λ _, modify_place r) s (λ pq s', tree s' ∧ kept s s' ∧ ∀ p q, pq = Some (p, q) → place_ok r s' p q).
Proof.
  intros Ht. pose proof (tr_pre Ht) as Hp. unfold modify_place, place_ok, at_root. destruct (Z.eqb_spec (rq_parent r) TC_H_ROOT) as [Er|Er].
  - apply settles_gets, settles_ret. split_and!; [done..|]. intros p q [= <- <-]. split_and!; [|auto|done].
    intros b [= <-]. eapply root_held. apply (pr_inv Hp).
  - destruct (Z.eqb_spec (rq_parent r) TC_H_INGRESS) as [Ei|Ei].
    + eapply settles_bind; [by apply ingress_create_ok|]. intros i s1 (Ht1 & Hk & Hi). apply settles_ret. split_and!; [done..|].
      intros p q [= <- <-]. split_and!; [|auto|by intros]. intros b. destruct i as [v|]; [|done]. intros [= <-]. auto.
    + eapply settles_read; [apply (qdisc_lookup_ok _ _ _ _ (TC_H_MAJ (rq_parent r)) Hp)|]. intros [p|] Hf; [|by apply settles_ret].
      destruct (Hf p eq_refl) as [Hh Hfp]. pose proof (found_parent _ _ _ _ _ _ Hp Hh Hfp) as Hpo.
      eapply settles_read; [apply (qdisc_leaf_ok _ _ _ _ _ p (rq_parent r) Hp); destruct Hpo as (_ & q & Hq & _); by exists q|].
      intros o Ho. apply settles_ret. split_and!; [done..|]. intros p' q [= <- <-]. split_and!; [done..|]. by intros [|].
Qed.

(** ** What a request decides to do *)

(** The request asks the discipline that has taken over the device to be grafted
    at the root again, through the name of the ingress queue. *)
Definition retakes (r : nlreq opt) s : Prop :=
  rq_parent r = TC_H_INGRESS ∧ ∃ q, ns_heap s !! nd_qdisc (ns_dev s) = Some q ∧ is_Some (op_attach (ops (q_ops q))) ∧ q_handle q = rq_handle r.

(** What a request changes, unless it makes a new object. *)
Definition target (r : nlreq opt) s (a : Z) (q : sqdisc kind P) : Prop :=
  ns_heap s !! a = Some q ∧
  (q_handle q = rq_handle r ∨ (rq_handle r = 0 ∧ (rq_parent r = TC_H_ROOT → a = nd_qdisc (ns_dev s)))).

(** Its children have limits that can be set. *)
Definition resizable (r : nlreq opt) s : Prop := ∀ a q, target r s a q → limits_ok s q.

Definition act_ok (r : nlreq opt) s (act : modify_act) : Prop :=
  match act with
  | Refuse _ => True
  | Change a => a ≠ noop_qdisc ∧ ∃ q, target r s a q
  | Regraft None q => at_root r ∧ plain s q
  | Regraft (Some p) q => parent_ok s p ∧ is_Some (ns_heap s !! q) ∧ loop_free s p q
  | CreateGraft p => rq_handle r ≠ TC_H_INGRESS ∧ match p with Some p => parent_ok s p ∧ ¬ at_root r | None => at_root r end
  end.

Lemma change_act_ok r t s qo : pre true ∅ [] [] s → (∀ b, qo = Some b → b ≠ noop_qdisc ∧ ∃ q, target r s b q) →
  settles (λ _, modify_change r t qo) s (λ act s', s' = s ∧ act_ok r s act).
Proof.
  intros Hp Hq. destruct qo as [b|]; [|by apply settles_ret]. destruct (Hq b eq_refl) as (Hn & q & Hb). eapply settles_get; [exact (proj1 Hb)|].
  do 2 (case_match; [by apply settles_ret|]). apply settles_ret. split; [done|]. split; [done|by exists q].
Qed.

Lemma min_ingress h : TC_H_MIN h = 0 → h ≠ TC_H_INGRESS.
Proof. by intros Hm ->. Qed.

Lemma handle_act_ok r t s p q0 q : tree s → ¬ retakes r s → place_ok r s p q0 →
  (∀ b v, q0 = Some b → ns_heap s !! b = Some v → q_handle v ≠ rq_handle r) →
  settles (λ _, modify_handle r t p q) s (λ act s', s' = s ∧ act_ok r s act).
Proof.
  intros Ht Hre [_ Hpl] Hne. pose proof (tr_pre Ht) as Hp. unfold modify_handle.
  destruct (bool_decide (is_Some q) && negb (rq_replace r)); [by apply settles_ret|].
  destruct (Z.eqb_spec (TC_H_MIN (rq_handle r)) 0) as [Hmin%min_ingress|]; [|by apply settles_ret]. simpl.
  eapply settles_read; [apply (qdisc_lookup_ok _ _ _ _ (rq_handle r) Hp)|]. intros [a|] Hf.
  - destruct (Hf a eq_refl) as [Hh Hfa]. pose proof (found_noop _ _ _ _ _ _ Hp Hh Hfa) as Hn. destruct Hfa as (v & Hv & Eh & Hat).
    eapply settles_get; [exact Hv|]. destruct (rq_excl r); [by apply settles_ret|]. destruct (other_kind t v); [by apply settles_ret|]. destruct p as [p|].
    + destruct Hpl as [Hpo _]. destruct (Z.eqb_spec a p) as [|Hap]; [by apply settles_retbind, settles_ret|].
      destruct (check_loop_ok _ _ _ _ p 8 Hp (proj1 Hpo) a) as (b & Hb & Hlf); [by exists v|].
      eapply (settles_read _ (λ x, x = b)); [eauto|]. intros ? ->. destruct b; [by apply settles_ret|]. apply settles_ret.
      split; [done|]. split_and!; [done|by exists v|auto].
    + apply settles_retbind, settles_ret. destruct Hpl as [Hroot Hq0]. split; [done|]. split; [done|]. exists v. split; [done|].
      destruct (op_attach (ops (q_ops v))) as [f|] eqn:Ef; [|done]. specialize (Hat (mk_is_Some _ _ eq_refl)). subst a. destruct Hroot as [Er|Ei].
      * by destruct (Hne _ v (Hq0 Er) Hv).
      * destruct Hre. split; [done|]. exists v. rewrite Ef. eauto.
  - apply settles_ret. split; [done|]. split; [done|]. destruct p; [done|]. by destruct Hpl.
Qed.

Lemma modify_decide_ok r t s : tree s → ¬ retakes r s →
  settles (λ _, modify_decide r t) s (λ act s', tree s' ∧ kept s s' ∧ act_ok r s' act).
Proof.
  intros Ht Hre. unfold modify_decide. destruct (Z.eqb_spec (rq_parent r) 0) as [E0|E0]; simpl.
  - destruct (Z.eqb_spec (rq_handle r) 0); [by apply settles_ret|]. pose proof (tr_pre Ht) as Hp.
    eapply settles_read; [apply (qdisc_lookup_ok _ _ _ _ (rq_handle r) Hp)|]. intros o Hf.
    eapply settles_mono; [apply change_act_ok; [done|]|by intros act s' [-> ?]]. intros b Hb. destruct (Hf b Hb) as [Hh Hfb].
    split; [by eapply found_noop|]. destruct Hfb as (q & Hq & E & _). exists q. by split; [|left].
  - eapply settles_bind; [by apply modify_place_ok|]. intros [[p q]|] s1 (Ht1 & Hk & Hpl); [|by apply settles_ret].
    specialize (Hpl p q eq_refl). pose proof (tr_pre Ht1) as Hp. assert (¬ retakes r s1) as Hre1.
    { destruct Hk as (Eh & En & _). unfold retakes. by rewrite Eh, En. }
    assert (∀ f : nat → M st modify_act, settles f s1 (λ act s', s' = s1 ∧ act_ok r s1 act) → settles f s1 (λ act s', tree s' ∧ kept s s' ∧ act_ok r s' act)) as Hdone.
    { intros f Hs. eapply settles_mono; [exact Hs|]. by intros act s' [-> ?]. }
    apply flags_of_ok; [apply Hpl|]. intros qo Hqo.
    assert (∀ b o, q = Some b → qo = Some o → q_handle o ≠ 0 → b ≠ noop_qdisc) as Hnn.
    { intros b o -> -> Hh ->. destruct Hqo as [Hqo _]. destruct (inv_noop (pr_inv Hp)) as (v & Hv & _ & Ev & _). congruence. }
    destruct (match qo with Some o => _ | None => false end) eqn:Em; [|destruct (Z.eqb_spec (rq_handle r) 0) as [Eh|Eh]; simpl].
    + apply Hdone, change_act_ok; [done|]. intros b Hb. destruct qo as [o|]; [|done]. destruct (Z.eqb_spec (q_handle o) 0) as [|Eo]; [done|]. subst q.
      split; [by eapply Hnn|]. exists o. split; [symmetry; apply Hqo|]. left. destruct (Z.eqb_spec (q_handle o) (rq_handle r)); [done|]. by rewrite andb_false_r in Em.
    + assert (settles (λ _, cret (CreateGraft p)) s1 (λ act s', tree s' ∧ kept s s' ∧ act_ok r s' act)) as Hcreate.
      { apply Hdone, settles_ret. split; [done|]. split; [by rewrite Eh|]. destruct Hpl as [_ Hpl]. destruct p; [done|by destruct Hpl]. }
      destruct qo as [o|]; [|by destruct q]. destruct (Z.eqb_spec (q_handle o) 0) as [|Eo]; [done|]. destruct q as [b|]; [|done].
      case_match; [done|]. apply Hdone, (change_act_ok r t s1 (Some b)); [done|]. intros b' [= <-].
      split; [by eapply Hnn|]. exists o. split; [symmetry; apply Hqo|]. right. split; [done|]. intros Er. destruct Hpl as [_ Hpl].
      destruct p as [p|]; [destruct Hpl as [_ []]; by left|]. destruct Hpl as [_ Hroot]. specialize (Hroot Er). congruence.
    + apply Hdone. eapply handle_act_ok; [done|done|exact Hpl|]. intros b v -> Hv Ev. destruct Hqo as [-> _]. rewrite Hv in Em.
      destruct (Z.eqb_spec (q_handle v) 0), (Z.eqb_spec (rq_handle r) 0), (Z.eqb_spec (q_handle v) (rq_handle r)); simpl in *; congruence.
Qed.

(** ** Putting an object in its place *)

Lemma modify_graft_ok s r p a : settles (λ n, qdisc_graft n p (rq_parent r) (Some a) None) s (grafted [] (Some a)) →
  settles (λ n, modify_graft n r p a) s (λ _ s', tree s').
Proof.
  intros Hg. eapply settles_bind; [exact Hg|]. intros err s1 [Hz Hp]. destruct (Z.eqb_spec err 0) as [E|E]; simpl; [by apply settles_ret|].
  eapply settles_bind; [apply (put_pre _ _ _ _ _ _ Hp); set_solver|]. intros [] s2 (Hp2 & Hev & Hsl). apply settles_ret.
  split; [done|by eapply zero_evolves].
Qed.

Lemma regraft_ok s r p a : tree s → act_ok r s (Regraft p a) → settles (λ n, ref_inc a ;;; modify_graft n r p a) s (λ _ s', tree s').
Proof.
  intros [Hp Hz] Ha. assert (is_Some (ns_heap s !! a)) as Hs by (destruct p; [by destruct Ha as (_ & ? & _)|destruct Ha as (_ & q & Hq & _); by exists q]).
  eapply settles_bind; [by apply (ref_inc_ok _ _ _ _ _ a Hp)|]. intros [] s1 (Hp1 & Hd1 & Hedge & Hsame).
  assert (zero_ok s1) as Hz1 by (unfold zero_ok; by rewrite Hd1). apply modify_graft_ok. destruct p as [p|]; simpl.
  - destruct Ha as ((Hpn & q & Hq & Hat) & _ & [_ Hlf]). destruct (Hsame p q Hq) as (q1 & Hq1 & (E1 & _) & _).
    apply (graft_class_ok [] s1 p q1); [done..|by rewrite E1, Hd1|]. intros b [= <-] Hr. apply Hlf. revert Hr. apply rtc_subrel, Hedge.
  - destruct Ha as (_ & q & Hq & Hna). destruct (Hsame a q Hq) as (q1 & Hq1 & (E1 & _) & _).
    apply (graft_root_plain [] s1); [done..| |done]. intros b [= <-]. exists q1. by rewrite E1.
Qed.

(** ** Creation *)

Lemma create_queue_ok s r p : tree s → match p with Some p => parent_ok s p ∧ ¬ at_root r | None => at_root r end →
  ∃ o, create_queue r p s = Some (o, s) ∧ ∀ dq, o = Some dq → valid_queue (ns_dev s) dq.
Proof.
  intros Ht Hp. pose proof (pr_inv (tr_pre Ht)) as I. destruct p as [p|]; simpl.
  - destruct Hp as [(Hn & q & Hq & _) _]. unfold cbind, get_q, gets. rewrite Hq. assert (valid_queue (ns_dev s) (q_queue q)) as Hv by by apply (inv_queue I p).
    destruct (op_cl (ops (q_ops q))) as [c|] eqn:Ec; [|eexists; split; [done|]; by intros dq [= <-]].
    destruct (cl_select_queue c) as [f|] eqn:Ef; [|eexists; split; [done|]; by intros dq [= <-]].
    eexists. split; [done|]. intros dq Hd. destruct (ok_select _ c f _ _ _ Ec Ef Hd) as (i & -> & Hi). by apply lookup_lt_is_Some.
  - eexists. split; [done|]. intros dq [= <-]. apply lookup_lt_is_Some. pose proof (inv_tx I). lia.
Qed.

(** The result of [modify_create]: as that of [qdisc_create]. *)
Definition made_for (r : nlreq opt) (t : tca opt) s (res : Z + Z) s' : Prop :=
  match known (tca_kind t) (ns_base s) with
  | Some k => creation k (rq_parent r) [] s res s'
  | None => calms s s' ∧ ∃ err, res = inl err ∧ (err = - EAGAIN → is_Some (known (tca_kind t) (ns_base s')))
  end.

Lemma made_for_error r t s err : tree s → err ≠ - EAGAIN → made_for r t s (inl err) s.
Proof.
  intros Ht Herr. unfold made_for. case_match.
  - split_and!; [done|apply (tr_pre Ht)|done|done|by apply calms_untouched].
  - split; [done|]. by exists err.
Qed.

Lemma modify_create_ok s r t p : tree s → tca_ok t → act_ok r s (CreateGraft p) → settles (λ n, modify_create n r t p) s (made_for r t s).
Proof.
  intros Ht Htca [Hhd Hp]. unfold modify_create. destruct (rq_create r); simpl; [|apply settles_ret; by apply made_for_error].
  destruct (Z.eqb_spec (rq_parent r) TC_H_INGRESS) as [E|E].
  - apply settles_gets. destruct (nd_ingress (ns_dev s)) as [v|] eqn:Ei; [|apply settles_ret; by apply made_for_error].
    apply qdisc_create_ok; [apply (tr_pre Ht)|done| |by rewrite E]. intros dq [= <-]. by exists v.
  - eapply settles_read; [by apply create_queue_ok|]. intros dqo Hdq. apply qdisc_create_ok; [apply (tr_pre Ht)|done..].
Qed.

Lemma created_heir k par s0 s a q : created k par [] s0 s a q → heir s a q.
Proof.
  intros [[Ha Hn HB Hr Hno] _ _ _ _ _ Hp _ _ _ _]. pose proof (newborn_roots _ _ _ _ _ _ _ (pr_inv Hp) Ha Hn Hr) as Hro.
  unfold roots in Hro. rewrite elem_of_app, list_elem_of_singleton in Hro. split; [done..| |]; tauto.
Qed.

Lemma created_graft k s0 s r p a q : tree s0 → act_ok r s0 (CreateGraft p) → created k (rq_parent r) [] s0 s a q →
  settles (λ n, modify_graft n r p a) s (λ _ s', tree s').
Proof.
  intros Ht [_ Hpo] Hcd. pose proof (created_heir _ _ _ _ _ _ Hcd) as Hhr. destruct Hcd as [[Ha Hn HB Hr Hno] Ho Hpar Hat Hpl Hfull Hp Hd Hsl Hold Hreach].
  assert (zero_ok s) as Hz.
  { intros E v Hv. apply (tr_zero Ht); [injection Hd as _ _ _ _ _ _ En _ _; congruence|]. simpl in *. by rewrite <- (proj1 Hsl). }
  apply modify_graft_ok. destruct (op_attach (ops k)) as [f|] eqn:Ef.
  - destruct (Hat ltac:(rewrite Ho, Ef; eauto)) as [Hroot Hing]. destruct p as [p|]; simpl.
    + destruct Hpo as [_ []]. left. congruence.
    + apply (graft_root_attach [] s _ a q f); [|done|by rewrite Ho|done|rewrite Hfull by eauto; unfold num_tx; injection Hd; congruence]. eapply pre_setL; [exact Hp| |].
      * intros x y He _ ->%elem_of_singleton. by apply Hno in He.
      * intros x ->%elem_of_singleton. by exists q.
  - assert (pre true ∅ [] [a] s) as Hp'.
    { destruct Hp as [I Hobj Hi Hti]. split; [done| |done|done]. intros x v Hx. destruct (Hobj x v Hx) as [Hx1 Hx2]. split; [done|]. intros _.
      destruct (decide (x = a)) as [->|Hne]; [simplify_eq; auto|]. apply Hx2. by intros ?%list_elem_of_singleton. }
    destruct p as [p|]; simpl.
    + destruct Hpo as [(Hpn & qp & Hqp & Hpat) _]. destruct (Hold p qp Hqp) as (qp' & Hqp' & (E1 & _)).
      apply (graft_class_ok [] s p qp'); [done..| |].
      * rewrite E1. intros HH. rewrite (Hpat HH). injection Hd; congruence.
      * intros b [= <-]. apply Hreach; [by exists qp|done].
    + apply (graft_root_plain [] s); [done..| |done]. intros b [= <-]. exists q. by rewrite Ho.
Qed.

(** ** The requests *)

Definition req_ok r : Prop := ∀ t, rq_tca r = inr t → tca_ok t.

Lemma kept_retakes r s s' : kept s s' → ¬ retakes r s → ¬ retakes r s'.
Proof. intros (Eh & En & _). unfold retakes. by rewrite Eh, En. Qed.

Lemma kept_resizable r s s' : kept s s' → resizable r s → resizable r s'.
Proof. intros (Eh & En & _) Hs a q. unfold target, limits_ok. rewrite Eh, En. apply Hs. Qed.

Lemma calms_resizable r s s' : calms s s' → resizable r s → resizable r s'.
Proof.
  intros Hc Hs a q' [Hq' Ht] b Hb. destruct (calms_lookup' _ _ _ _ Hc Hq') as (q & Hq & (_ & Eh & _ & _ & _ & _ & _ & Ec & _)).
  pose proof (cs_dev _ _ Hc) as Hd. injection Hd as _ _ _ _ _ _ En _ _ _. rewrite Eh, En in Ht. rewrite Ec in Hb.
  destruct (Hs a q (conj Hq Ht) b Hb) as (v & Hv & Hl). destruct (calms_lookup _ _ _ _ Hc Hv) as (v' & Hv' & (E & _)). exists v'. by rewrite E.
Qed.

Lemma calms_retakes r s s' : calms s s' → ¬ retakes r s → ¬ retakes r s'.
Proof.
  intros Hc Hre (Er & q' & Hq' & Hat & Eh). apply Hre. split; [done|]. pose proof (cs_dev _ _ Hc) as Hd. injection Hd as _ _ _ _ _ _ En _ _ _.
  rewrite En in Hq'. destruct (calms_lookup' _ _ _ _ Hc Hq') as (q & Hq & (E1 & E2 & _)). exists q. by rewrite <- E1, <- E2.
Qed.

Lemma creation_error_tree k par s0 err s : tree s0 → creation k par [] s0 (inl err) s → tree s.
Proof.
  intros Ht (_ & Hp & Hd & Hsl & _). split; [done|]. intros E v Hv. apply (tr_zero Ht); [injection Hd as _ _ _ _ _ _ En _ _; congruence|].
  simpl in *. by rewrite <- (proj1 Hsl).
Qed.

(** RTM_NEWQDISC: at most one replay is needed. *)
Lemma modify_pass m s r t : tree s → ¬ retakes r s → resizable r s → rq_tca r = inr t → tca_ok t →
  (is_Some (known (tca_kind t) (ns_base s)) ∨ ∃ m', m = S m' ∧ ∀ s', tree s' → ¬ retakes r s' → resizable r s' → is_Some (known (tca_kind t) (ns_base s')) →
     settles (λ n, tc_modify_qdisc m' n r) s' (λ _ s'', tree s'')) →
  settles (λ n, tc_modify_qdisc m n r) s (λ _ s', tree s').
Proof.
  intros Ht Hre Hsz Er Htca Hm. apply (settles_ext _ (λ n, if negb (rq_capable r) then cret (- EPERM) else
    let* idx := gets (λ s, nd_ifindex (ns_dev s)) in
    if negb (rq_ifindex r =? idx) then cret (- ENODEV)
    else
      let* act := modify_decide r t in
      match act with
      | Refuse err => cret err
      | Change q =>
          let* err := qdisc_change n q t in
          (if err =? 0 then qdisc_notify (rq_parent r) None (Some q) else cret tt) ;;; cret err
      | Regraft p q => ref_inc q ;;; modify_graft n r p q
      | CreateGraft p =>
          let* c := modify_create n r t p in
          match c with
          | inr q => modify_graft n r p q
          | inl err => if err =? - EAGAIN then match m with O => cfail | S m => tc_modify_qdisc m n r end else cret err
          end
      end)); [intros n; destruct m; simpl; by rewrite Er|].
  destruct (rq_capable r); simpl; [|by apply settles_ret]. apply settles_gets. case_match; [by apply settles_ret|].
  eapply settles_bind; [by apply modify_decide_ok|]. intros act s1 (Ht1 & Hk & Hact). destruct act as [err|a|p a|p].
  - by apply settles_ret.
  - destruct Hact as (Hn & q & Htg). eapply settles_bind; [apply (qdisc_change_ok [] s1 a q t (tr_pre Ht1)); [apply Htg|by eapply (kept_resizable r s s1)|done..]|]. intros err s2 (Hp2 & Hsl & Hd & Ha2).
    assert (tree s2) as Ht2.
    { split; [done|]. intros E v Hv. apply (tr_zero Ht1); [injection Hd as _ _ _ _ _ _ En _ _; congruence|]. simpl in *. by rewrite <- (proj1 Hsl). }
    eapply (settles_bind _ _ _ (λ _ s3, calms s2 s3)); [case_match; [apply qdisc_notify_ok; [done|by intros b [= <-]]|by apply settles_ret]|].
    intros [] s3 Hc. apply settles_ret. by eapply tree_calms.
  - by apply regraft_ok.
  - eapply settles_bind; [by apply modify_create_ok|]. intros c s2 Hc. unfold made_for in Hc. rewrite (proj2 (proj2 Hk)) in Hc.
    destruct (known (tca_kind t) (ns_base s)) as [k|] eqn:Ek.
    + destruct c as [err|a].
      * destruct (Z.eqb_spec err (- EAGAIN)); [by destruct Hc|]. apply settles_ret. by eapply creation_error_tree.
      * destruct Hc as (q & Hcd). by eapply created_graft.
    + destruct Hc as (Hc & err & -> & Hag). assert (tree s2) as Ht2 by by eapply tree_calms.
      destruct (Z.eqb_spec err (- EAGAIN)) as [E|E]; [|by apply settles_ret]. destruct Hm as [[? ?]|(m' & -> & Hm)]; [done|].
      apply Hm; [done|eapply calms_retakes; [exact Hc|]; by eapply kept_retakes|eapply calms_resizable; [exact Hc|]; by eapply kept_resizable|auto].
Qed.

Lemma tc_modify_qdisc_ok m s r : tree s → ¬ retakes r s → resizable r s → req_ok r → settles (λ n, tc_modify_qdisc (S m) n r) s (λ _ s', tree s').
Proof.
  intros Ht Hre Hsz Hr. destruct (rq_tca r) as [err|t] eqn:Er.
  - apply (settles_ext _ (λ _, if negb (rq_capable r) then cret (- EPERM) else cret err)); [intros n; simpl; by rewrite Er|].
    case_match; by apply settles_ret.
  - eapply modify_pass; [done..|exact Er|by apply Hr|]. right. exists m. split; [done|]. intros s' Ht' Hre' Hsz' Hkn.
    eapply modify_pass; [done..|exact Er|by apply Hr|by left].
Qed.

Lemma tc_get_target_ok s r : tree s → ∃ res, tc_get_target r s = Some (res, s) ∧
  ∀ p q, res = inr (p, q) → is_Some (ns_heap s !! q) ∧ ∀ p', p = Some p' → parent_ok s p'.
Proof.
  intros Ht. pose proof (tr_pre Ht) as Hp. unfold tc_get_target. destruct (Z.eqb_spec (rq_parent r) 0) as [E0|E0]; simpl.
  - destruct (qdisc_lookup_ok _ _ _ _ (rq_handle r) Hp) as (o & Ho & Hf). unfold cbind. rewrite Ho. destruct o as [a|]; [|by eexists].
    eexists. split; [done|]. intros p q [= <- <-]. split; [|done]. destruct (Hf a eq_refl) as (_ & v & Hv & _). by exists v.
  - match goal with |- context [cbind ?m _ s] => assert (∃ pq, m s = Some (pq, s) ∧ ∀ p q, pq = Some (p, Some q) →
      is_Some (ns_heap s !! q) ∧ ∀ p', p = Some p' → parent_ok s p') as (pq & Hm & Hpq) end.
    { destruct (Z.eqb_spec (rq_parent r) TC_H_ROOT) as [Er|Er]; simpl.
      - eexists. split; [done|]. intros p q [= <- <-]. split; [|done]. eapply root_held. apply (pr_inv Hp).
      - destruct (negb _); [|eexists; split; [done|]; intros p q; destruct (nd_ingress (ns_dev s)) as [v|] eqn:Ei; [|done]].
        + destruct (qdisc_lookup_ok _ _ _ _ (TC_H_MAJ (rq_parent r)) Hp) as (o & Ho & Hf). unfold cbind. rewrite Ho. destruct o as [p|]; [|by eexists].
          destruct (Hf p eq_refl) as [Hh Hfp]. pose proof (found_parent _ _ _ _ _ _ Hp Hh Hfp) as Hpo.
          destruct (qdisc_leaf_ok _ _ _ _ _ p (rq_parent r) Hp) as (l & El & Hl); [destruct Hpo as (_ & v & Hv & _); by exists v|].
          rewrite El. eexists. split; [done|]. intros p' q [= <- ->]. split; [by apply Hl|]. by intros ? [= <-].
        + intros [= <- <-]. split; [|done]. eapply sleeping_held; [apply (pr_inv Hp)|]. by apply (sleeping_slot IngressQueue). }
    unfold cbind at 1. rewrite Hm. destruct pq as [[p [q|]]|]; [|by eexists..]. destruct (Hpq p q eq_refl) as [[v Hv] Hpo].
    unfold cbind, get_q. rewrite Hv. clear Hm. case_match; [eexists; (split; [reflexivity|done])|]. eexists. split; [done|]. intros ? ? [= <- <-]. split; [by exists v|done].
Qed.

Lemma grafted_tree err s : grafted [] None err s → tree s.
Proof. intros [Hz Hp]. split; [|done]. by destruct (err =? 0). Qed.

(** RTM_DELQDISC and RTM_GETQDISC. *)
Lemma tc_get_qdisc_ok s r : tree s → settles (λ n, tc_get_qdisc n r) s (λ _ s', tree s').
Proof.
  intros Ht. pose proof (tr_pre Ht) as Hp. unfold tc_get_qdisc. case_match; [by apply settles_ret|]. destruct (rq_tca r) as [err|t]; [by apply settles_ret|].
  apply settles_gets. case_match; [by apply settles_ret|]. eapply settles_read; [by apply tc_get_target_ok|].
  intros [err|[p q]] Htg; [by apply settles_ret|]. destruct (Htg p q eq_refl) as [[v Hv] Hpo]. eapply settles_get; [exact Hv|].
  case_match; [by apply settles_ret|]. case_match.
  - case_match; [by apply settles_ret|]. case_match; [by apply settles_ret|]. eapply settles_mono; [|intros err s'; apply grafted_tree]. destruct p as [p|]; simpl.
    + destruct (Hpo p eq_refl) as (Hn & qp & Hqp & Hat). by apply (graft_class_ok [] s p qp _ None Hp (tr_zero Ht) Hqp Hn Hat).
    + apply (graft_root_plain [] s _ None (Some q) Hp (tr_zero Ht)); [done|]. intros b [= <-]. by exists v.
  - eapply settles_bind; [apply qdisc_notify_ok; [done|intros b [= <-]; by exists v]|]. intros [] s1 Hc. apply settles_ret. by eapply tree_calms.
Qed.

Lemma register_ok s k : tree s → settles (λ _, register_qdisc k) s (λ _ s', tree s').
Proof.
  intros Ht. apply settles_gets. case_match; [by apply settles_ret|]. case_match; [by apply settles_ret|].
  apply settles_modify, settles_ret. eapply tree_calms; [exact Ht|by apply calms_eq].
Qed.

Lemma unregister_ok s k : tree s → settles (λ _, unregister_qdisc k) s (λ _ s', tree s').
Proof.
  intros Ht. apply settles_gets. case_match; [|by apply settles_ret].
  apply settles_modify, settles_ret. eapply tree_calms; [exact Ht|by apply calms_eq].
Qed.

Lemma set_default_ok s ok name : tree s → settles (λ _, qdisc_set_default ok name) s (λ _ s', tree s').
Proof.
  intros Ht. unfold qdisc_set_default. case_match; [by apply settles_ret|]. destruct (lookup_ops_ok (Some name) s) as (s1 & E1 & Hc1 & _).
  eapply (settles_bind _ _ _ (λ _ s', calms s s')); [by eapply settles_done|]. intros o s2 Hc2.
  eapply (settles_bind _ _ _ (λ _ s', calms s s')).
  { destruct o as [k|]; [by apply settles_ret|]. apply settles_modify.
    match goal with |- settles _ ?s3 _ => destruct (lookup_ops_ok (Some name) s3) as (s4 & E4 & Hc4 & _); assert (calms s s3) as Hc3 end.
    - etrans; [exact Hc2|by apply calms_eq].
    - eapply settles_done; [exact E4|by etrans]. }
  intros o' s3 Hc3. destruct o' as [k|]; [|apply settles_ret; by eapply tree_calms]. apply settles_gets. do 2 apply settles_modify. apply settles_ret.
  eapply tree_calms; [exact Ht|]. etrans; [exact Hc3|by apply calms_eq].
Qed.

(** ** The life of a device *)

(** What reaches the scheduler under the RTNL lock.  One replay of a request is
    allowed; [tc_modify_qdisc_ok] shows that it is enough. *)
Inductive event :=
| RtmNewQdisc (r : nlreq opt)
| RtmGetQdisc (r : nlreq opt)               (* RTM_DELQDISC too *)
| RtmTclass (cmd : tclass_cmd) (r : nlreq opt)
| DevOpen
| DevClose
| CarrierChange (carrier : bool)
| TxQueueLen (veto new_len : Z)
| SetDefault (capable : bool) (name : string)
| Register (k : kind)
| Unregister (k : kind)
| DevShutdown.

Definition dispatch (n : nat) (ev : event) : M st Z :=
  match ev with
  | RtmNewQdisc r => tc_modify_qdisc 1 n r
  | RtmGetQdisc r => tc_get_qdisc n r
  | RtmTclass cmd r => tc_ctl_tclass cmd r
  | DevOpen => dev_open n ;;; cret 0
  | DevClose => dev_close n ;;; cret 0
  | CarrierChange b => linkwatch_do_dev n b ;;; cret 0
  | TxQueueLen veto len => dev_change_tx_queue_len n veto len
  | SetDefault ok name => qdisc_set_default ok name
  | Register k => register_qdisc k
  | Unregister k => unregister_qdisc k
  | DevShutdown => dev_shutdown n ;;; cret 0
  end.

(** The handler returns, whatever the fuel, if there is enough. *)
Inductive step s (ev : event) s' : Prop :=
| Step n0 err : (∀ n, (n0 ≤ n)%nat → dispatch n ev s = Some (err, s')) → step s ev s'.

Definition allowed (ev : event) s : Prop :=
  match ev with
  | RtmNewQdisc r => req_ok r ∧ ¬ retakes r s ∧ resizable r s
  | RtmTclass cmd r => class_request_ok cmd r s
  | _ => True
  end.

(** A device before [dev_init_scheduler]: there is only [&noop_qdisc]. *)
Record registered s : Prop := {
  rg_heap : ∃ q, ns_heap s = {[noop_qdisc := q]} ∧ q_ops q = noop_ops ∧ q_handle q = 0 ∧ f_builtin (q_flags q) = true ∧
    children (q_priv q) = [] ∧ fits noop_ops (q_priv q);
  rg_ingress : nd_ingress (ns_dev s) = None;
  rg_hash : nd_hash (ns_dev s) = [];
  rg_leaked : ns_leaked s = [];
  rg_tx : 0 < Z.of_nat (num_tx s) < 65535;
}.

(** The states of a device. *)
Inductive reached : st → Prop :=
| reached_init s s' : registered s → dev_init_scheduler s = Some (tt, s') → reached s'
| reached_step s ev s' : reached s → allowed ev s → step s ev s' → reached s'.

Lemma dispatch_ok s ev : tree s → allowed ev s → settles (λ n, dispatch n ev) s (λ _ s', tree s').
Proof.
  assert (∀ f : nat → M st unit, settles f s (λ _ s', tree s') → settles (λ n, f n ;;; cret 0) s (λ _ s', tree s')) as Hret.
  { intros f Hf. eapply settles_bind; [exact Hf|]. intros [] s' Ht. by apply settles_ret. }
  intros Ht Hal. destruct ev as [r|r|cmd r| | |b|veto len|ok name|k|k|]; cbn [dispatch allowed] in *.
  - destruct Hal as (? & ? & ?). by apply (tc_modify_qdisc_ok 0).
  - by apply tc_get_qdisc_ok.
  - by apply tc_ctl_tclass_ok.
  - by apply Hret, dev_open_ok.
  - by apply Hret, dev_close_ok.
  - by apply Hret, linkwatch_ok.
  - by apply dev_change_len_ok.
  - by apply set_default_ok.
  - by apply register_ok.
  - by apply unregister_ok.
  - apply Hret. eapply settles_mono; [by apply dev_shutdown_ok|]. by intros [] s' (? & _).
Qed.

(** [dev_init_scheduler] makes every pointer [&noop_qdisc]. *)
Lemma init_slots (l : list queue) s : (∀ dq, dq ∈ l → valid_queue (ns_dev s) dq) →
  ∃ s', each (λ dq, put_slot dq (Slot noop_qdisc noop_qdisc)) l s = Some (tt, s') ∧ ns_heap s' = ns_heap s ∧ ns_leaked s' = ns_leaked s ∧
    nd_hash (ns_dev s') = nd_hash (ns_dev s) ∧ dev_static (ns_dev s') = dev_static (ns_dev s) ∧
    ∀ dq v, slot_of dq (ns_dev s') = Some v → v = Slot noop_qdisc noop_qdisc ∨ (dq ∉ l ∧ slot_of dq (ns_dev s) = Some v).
Proof.
  revert s. induction l as [|dq l IH]; intros s Hl.
  - exists s. split_and!; [done..|]. intros dq v Hv. right. split; [apply not_elem_of_nil|done].
  - destruct (Hl dq) as [w Hw]; [by left|]. simpl. unfold cbind at 1, put_slot at 1, modify.
    set (s1 := with_dev (set_slot dq (Slot noop_qdisc noop_qdisc) (ns_dev s)) s).
    assert (dev_static (ns_dev s1) = dev_static (ns_dev s)) as Hd1 by by eapply set_slot_static.
    destruct (IH s1) as (s' & E & Eh & El & Ex & Ed & Hs); [intros dq' Hd; eapply valid_static; [exact Hd1|]; apply Hl; by right|].
    exists s'. split_and!; [done..|rewrite Ex; by destruct dq|congruence|]. intros dq' v Hv. destruct (Hs dq' v Hv) as [|[Hn Hv1]]; [by left|].
    simpl in Hv1. rewrite (slot_of_set _ _ _ _ _ Hw) in Hv1. case_decide; [left; congruence|]. right. rewrite elem_of_cons. tauto.
Qed.

Lemma init_tree s s' : registered s → dev_init_scheduler s = Some (tt, s') → tree s'.
Proof.
  intros [(q & Eh & Eo & Ehd & Eb & Ec & Ef) Ei Ex El Etx] Hinit. unfold dev_init_scheduler in Hinit. unfold cbind at 1, set_root, modify in Hinit.
  set (s1 := with_dev _ s) in Hinit. unfold cbind, gets in Hinit. destruct (init_slots (all_queues s1) s1) as (s2 & E2 & Eh2 & El2 & Ex2 & Ed2 & Hs2).
  { intros dq Hd. by apply all_queues_valid. }
  rewrite E2 in Hinit. injection Hinit as ->. assert (nd_qdisc (ns_dev s') = noop_qdisc) as Enq by (injection Ed2; congruence).
  assert (length (nd_tx (ns_dev s')) = length (nd_tx (ns_dev s))) as Elen by (injection Ed2; congruence).
  assert (∀ dq v, slot_of dq (ns_dev s') = Some v → v = Slot noop_qdisc noop_qdisc) as Hno.
  { intros dq v Hv. destruct (Hs2 dq v Hv) as [|[Hn Hv1]]; [done|]. destruct Hn. apply all_queues_all. by exists v. }
  assert (ns_heap s' = {[noop_qdisc := q]}) as Eh' by by rewrite Eh2.
  assert (∀ x v, ns_heap s' !! x = Some v → x = noop_qdisc ∧ v = q) as Hone.
  { intros x v. rewrite Eh'. intros [<- <-]%lookup_singleton_Some. done. }
  assert (unhashed (q_priv q) = []) as Eu by by apply unhashed_nil.
  assert (∀ x y, ¬ edge ∅ (ns_heap s') x y) as Hed.
  { intros x y (v & Hv & _ & Hin). destruct (Hone x v Hv) as [_ ->]. rewrite Ec in Hin. by apply elem_of_nil in Hin. }
  assert (∀ x, x ∈ roots true (ns_dev s') ++ [] ++ ns_leaked s' → x = noop_qdisc) as Hroots.
  { intros x. rewrite El2. change (ns_leaked s1) with (ns_leaked s). rewrite El, app_nil_l, app_nil_r. unfold roots. rewrite elem_of_app, list_elem_of_singleton.
    intros [->|(dq & v & Hv & <-)%sleeping_inv]; [done|]. by rewrite (Hno dq v Hv). }
  split; [split; [split| | |]|].
  - exists q. rewrite Eh', lookup_singleton_eq. done.
  - intros a v Hv. destruct (Hone a v Hv) as [-> ->]. by rewrite bool_decide_true.
  - intros a v Hv Ha. by destruct (Hone a v Hv).
  - intros a v Hv Ha. by destruct (Hone a v Hv).
  - intros a Ha. rewrite (Hroots a Ha), Eh', lookup_singleton_eq. eauto.
  - intros a b He. by apply Hed in He.
  - intros a v Hv. destruct (Hone a v Hv) as [-> ->]. rewrite Eu, Eo. split; [done|apply not_elem_of_nil].
  - intros a. rewrite Ex2. change (nd_hash (ns_dev s1)) with (nd_hash (ns_dev s)). rewrite Ex. cbn [occ]. rewrite Eh'. unfold owned_by. rewrite <- insert_empty.
    rewrite hsum_insert by done. rewrite Eu. by case_match.
  - by intros a ?%elem_of_nil.
  - intros a. rewrite Ex2. change (nd_hash (ns_dev s1)) with (nd_hash (ns_dev s)). rewrite Ex. by intros ?%elem_of_nil.
  - intros a b He. by apply Hed in He.
  - set_solver.
  - set_solver.
  - intros a. constructor. intros y He. by apply Hed in He.
  - intros a v Hv Ha. by destruct (Hone a v Hv).
  - intros dq v Hv. rewrite (Hno dq v Hv). by left.
  - rewrite Elen. exact Etx.
  - intros a v Hv. destruct (Hone a v Hv) as [-> ->]. split; [|done]. unfold att_ok. rewrite Eo. destruct ok_noop as [_ ->]. by intros [? ?].
  - intros v Hv. rewrite (Hno IngressQueue v Hv). exists q. rewrite Eh', lookup_singleton_eq, Eo. split; [done|apply ok_noop].
  - intros _. rewrite El2. exact El.
  - intros _ v Hv. by rewrite (Hno _ v Hv).
Qed.

Lemma reached_tree s : reached s → tree s.
Proof.
  induction 1 as [s s' Hr Hi|s ev s' _ Ht Hal [n0 err Hs]]; [by eapply init_tree|]. destruct (dispatch_ok s ev Ht Hal) as (n1 & e & s2 & Ht2 & Hs2).
  specialize (Hs (n0 `max` n1)%nat ltac:(lia)). specialize (Hs2 (n0 `max` n1)%nat ltac:(lia)). congruence.
Qed.


(** A module that registers its kind and leaves again leaves no trace. *)
Lemma register_unregister k s s' :
  register_qdisc k s = Some (0, s') → unregister_qdisc k s' = Some (0, s).
Proof.
  unfold register_qdisc, unregister_qdisc, cbind, gets, modify. destruct (find_ops _ _) as [k'|] eqn:Ef; [done|].
  destruct (_ && _); [done|]. intros [= <-]. simpl. assert (k ∉ ns_base s) as Hk.
  { intros Hin. unfold find_ops in Ef. apply head_None in Ef. apply (elem_of_nil k). rewrite <- Ef. by apply list_elem_of_filter. }
  assert (unlink_ops k (ns_base s ++ [k]) = Some (ns_base s)) as ->; [|by destruct s].
  clear Ef. induction (ns_base s) as [|x l IH]; simpl; [by rewrite decide_True|]. apply not_elem_of_cons in Hk as [Hne Hk].
  case_decide; [congruence|]. by rewrite IH.
Qed.

Lemma occ_NoDup (l : list Z) : (∀ x, occ x l ≤ 1) → NoDup l.
Proof.
  induction l as [|a l IH]; intros Hl; [constructor|]. constructor.
  - specialize (Hl a). cbn [occ] in Hl. rewrite Z.eqb_refl in Hl. rewrite occ_zero. pose proof (occ_nonneg a l). lia.
  - apply IH. intros x. specialize (Hl x). cbn [occ] in Hl. case_match; lia.
Qed.


(** C26: On a device with one queue, or one that gets the [mq] discipline, no
    discipline is ever lost: each one is held by the device, directly or through
    others. *)
Theorem nothing_is_lost s a : reached s → tidy (ns_dev s) = true → is_Some (ns_heap s !! a) → a ≠ noop_qdisc →
  ∃ x, x ∈ roots true (ns_dev s) ∧ rtc (edge ∅ (ns_heap s)) x a.
Proof.
  intros Hr Hti Ha Hn. pose proof (tr_pre (reached_tree _ Hr)) as Hp. destruct (no_garbage _ _ _ _ _ _ (pr_inv Hp) Ha Hn) as (x & Hx & Hxa).
  exists x. split; [|done]. rewrite (pr_tidy Hp Hti), app_nil_l, app_nil_r in Hx. done.
Qed.


(** Nothing new is left when the old objects are as they were. *)
Lemma untouched_dom s s' : tree s → tree s' → dev_static (ns_dev s') = dev_static (ns_dev s) → slots_same s s' → untouched s s' →
  ∀ a, is_Some (ns_heap s' !! a) → is_Some (ns_heap s !! a).
Proof.
  intros Ht Ht' Hd Hsl Hu a Ha. pose proof (pr_inv (tr_pre Ht)) as I. pose proof (pr_inv (tr_pre Ht')) as I'.
  destruct (decide (a = noop_qdisc)) as [->|Hn]; [destruct (inv_noop I) as (q & Hq & _); by exists q|].
  destruct (no_garbage _ _ _ _ _ _ I' Ha Hn) as (x & Hx & Hr).
  assert (roots true (ns_dev s') ++ [] ++ ns_leaked s' = roots true (ns_dev s) ++ [] ++ ns_leaked s) as E.
  { destruct Hsl as [E1 [= E2 ->]]. unfold roots, sleeping. rewrite E1, E2. injection Hd as _ _ _ _ _ _ -> _ _. done. }
  rewrite E in Hx. apply (inv_held I) in Hx. clear Ha Hn. induction Hr as [|x y z (q' & Hq' & HB & Hy) _ IH]; [done|]. apply IH.
  destruct Hx as [q Hq]. destruct (Hu x q Hq) as (v & Hv & _ & _ & Ec). simplify_eq. apply (inv_edge I x). exists q. by rewrite <- Ec.
Qed.

(** C17: A creation that fails, for want of memory, of a handle, of a module or
    because the kind, its size table or its estimator refuses, leaves the
    hierarchy as it was: the same objects, with the same identities, references
    and counts. *)
Theorem failed_creation_harmless s dqo par handle t :
  reached s → tca_ok t → (∀ dq, dqo = Some dq → valid_queue (ns_dev s) dq) → (handle = TC_H_INGRESS → par ≠ TC_H_ROOT) →
  ∃ n0 res s', (∀ n, (n0 ≤ n)%nat → qdisc_create n dqo par handle t s = Some (res, s')) ∧
    ∀ err, res = inl err → untouched s s' ∧ dom (ns_heap s') = dom (ns_heap s) ∧ slots_same s s'.
Proof.
  intros Hr Htca Hdq Hpar. pose proof (reached_tree _ Hr) as Ht.
  destruct (qdisc_create_ok dqo par handle [] s t (tr_pre Ht) Htca Hdq Hpar) as (n0 & r & s' & Hq & Hs). exists n0, r, s'. split; [done|].
  intros err ->. assert (tree s' ∧ dev_static (ns_dev s') = dev_static (ns_dev s) ∧ slots_same s s' ∧ untouched s s') as (Ht' & Hd & Hsl & Hu).
  { destruct (known _ _) as [k|].
    - pose proof (creation_error_tree _ _ _ _ _ Ht Hq) as Ht'. by destruct Hq as (_ & _ & ? & ? & ?).
    - destruct Hq as [Hc _]. split_and!; [by eapply tree_calms|by apply calms_static|by apply calms_slots|by apply calms_untouched]. }
  split_and!; [done| |done]. apply leibniz_equiv. intros a. rewrite !elem_of_dom. split; [by eapply untouched_dom|].
  intros [q Hqa]. destruct (Hu a q Hqa) as (v & Hv & _). by exists v.
Qed.


End safe.
