(* ===== verification/Qdump.v ===== *)
(** * Dumps of disciplines and classes (src/net/sched/sch_api.c, src/net/netlink/af_netlink.c)

    [netlink_dump] answers a request for a dump in pieces: each call of
    [recvmsg] gets a buffer, which the dump operation fills as far as it can,
    leaving in [cb->args] where it stopped.  The lock is released between two
    pieces.  Modelled are [tc_dump_qdisc] and [tc_dump_tclass] with what they
    call; of a message, the [struct tcmsg] and the kind, and of its other
    attributes (options, statistics) the length.  Each device is a state of
    Qtree.v. *)

From Stdlib Require Import ZArith Lia.
From stdpp Require Import base numbers list gmap option strings.
From S2P Require Import Prelude Sched Stab Qtree Qapi.

Open Scope Z_scope.

(** ** Pieces of a dump *)

(** [struct sk_buff] as a dump fills it. *)
Record nlbuf (T : Type) := Nlbuf {
  nb_room : Z;        (* skb_tailroom *)
  nb_len : Z;         (* skb->len *)
  nb_msgs : list T;
}.
Arguments Nlbuf {T} _ _ _.
Arguments nb_room {T} _.
Arguments nb_len {T} _.
Arguments nb_msgs {T} _.

(** A message with all its attributes, or [nlmsg_trim]. *)
Definition nlmsg_append {T} (size : Z) (m : T) (b : nlbuf T) : Z * nlbuf T :=
  if nb_room b <? size then (-1, b)
  else (nb_len b + size, Nlbuf (nb_room b - size) (nb_len b + size) (nb_msgs b ++ [m])).

(** [struct netlink_sock]: [dump_done_errno], [cb.args], [cb_running]. *)
Record nlsock (A : Type) := Nlsock {
  nlk_errno : Z;
  nlk_args : A;
  nlk_running : bool;
}.
Arguments Nlsock {A} _ _ _.
Arguments nlk_errno {A} _.
Arguments nlk_args {A} _.
Arguments nlk_running {A} _.

Inductive nlmsg (T : Type) :=
| Answer (m : T)
| Done (errno : Z).   (* NLMSG_DONE *)
Arguments Answer {T} m.
Arguments Done {T} errno.

(** The length of [NLMSG_DONE], [nlmsg_total_size(sizeof(int))]. *)
Definition DONE_SIZE : Z := 20.

(** [alloc] is the size of the buffer, [None] when there is no memory or the
    socket has too much unread.  The result has the datagram sent, if any. *)
Definition netlink_dump {A T} (dump : A → nlbuf T → option (Z * A * nlbuf T)) (alloc : option Z) (nlk : nlsock A)
    : option (Z * option (list (nlmsg T)) * nlsock A) :=
  if negb (nlk_running nlk) then Some (- EINVAL, None, nlk)
  else
    match alloc with
    | None => Some (- ENOBUFS, None, nlk)
    | Some size =>
        let b := Nlbuf size 0 [] in
        match (if 0 <? nlk_errno nlk then dump (nlk_args nlk) b else Some (nlk_errno nlk, nlk_args nlk, b)) with
        | None => None
        | Some (errno, args, b) =>
            let msgs := map Answer (nb_msgs b) in
            if (0 <? errno) || (nb_room b <? DONE_SIZE) then Some (0, Some msgs, Nlsock errno args true)
            else Some (0, Some (msgs ++ [Done errno]), Nlsock errno args false)
        end
    end.

(** Calls of [recvmsg] until the end of the dump: the datagrams received. *)
Fixpoint recv_all {A T} (dump : A → nlbuf T → option (Z * A * nlbuf T)) (allocs : list (option Z)) (nlk : nlsock A)
    : option (list (list (nlmsg T)) * nlsock A) :=
  match allocs with
  | [] => Some ([], nlk)
  | alloc :: allocs =>
      if negb (nlk_running nlk) then Some ([], nlk)
      else
        match netlink_dump dump alloc nlk with
        | None => None
        | Some (_, o, nlk) =>
            match recv_all dump allocs nlk with
            | None => None
            | Some (l, nlk) => Some (option_list o ++ l, nlk)
            end
        end
  end.

(** [__netlink_dump_start]. *)
Definition dump_start {A} (args : A) : nlsock A := Nlsock 2147483647 args true.

(** ** Messages *)

(** [struct tcmsg] and TCA_KIND. *)
Record tcmsg := Tcmsg {
  tm_ifindex : Z;
  tm_parent : Z;
  tm_handle : Z;
  tm_info : Z;
  tm_kind : string;
}.

(** [hash_bucket] is [hash_min(handle, 4)]; the lengths are those of the attributes
    besides TCA_KIND. *)
Class DumpEnv (kind P : Type) := {
  hash_bucket : Z → nat;
  attrs_len : sqdisc kind P → Z;
  class_attrs_len : sqdisc kind P → Z → Z;
}.

Class DumpEnvOk (kind P : Type) `{DumpEnv kind P} := {
  hash_bucket_lt h : (hash_bucket h < 16)%nat;
  attrs_len_nonneg q : 0 ≤ attrs_len q;
  class_attrs_len_nonneg q cl : 0 ≤ class_attrs_len q cl;
}.

Section dump.
Context {kind P opt : Type} `{!QdiscKinds kind P opt} `{!DumpEnv kind P}.
Notation qd := (sqdisc kind P).
Notation st := (nstate kind P).
Implicit Types s : st.

(** The headers take 36 bytes; an attribute has four more than its contents, and
    the string a null byte. *)
Definition msg_size (id : string) (attrs : Z) : Z :=
  36 + (4 * ((4 + (Z.of_nat (String.length id) + 1) + 3) / 4)) + attrs.

Definition qdisc_id (q : qd) : string := op_id (ops (q_ops q)).

(** ** Disciplines *)

Definition qdisc_msg s (q : qd) (clid : Z) : tcmsg :=
  Tcmsg (nd_ifindex (ns_dev s)) clid (q_handle q) (q_refcnt q) (qdisc_id q).

Definition qdisc_size (q : qd) : Z := msg_size (qdisc_id q) (attrs_len q).

Definition tc_fill_qdisc s (q : qd) (clid : Z) (b : nlbuf tcmsg) : Z * nlbuf tcmsg :=
  nlmsg_append (qdisc_size q) (qdisc_msg s q clid) b.

(** [hash_for_each]: the buckets in order. *)
Definition bucket_of s (a : Z) : nat := match ns_heap s !! a with Some q => hash_bucket (q_handle q) | None => 0%nat end.

Definition hash_for_each s : list Z :=
  concat (map (λ b, filter (λ a, bucket_of s a = b) (nd_hash (ns_dev s))) (seq 0 16)).

(** The disciplines of a list, from number [s_q_idx] on; [-1] when one does not
    fit. *)
Fixpoint dump_qdiscs s (invisible : bool) (s_q_idx : Z) (l : list Z) (q_idx : Z) (b : nlbuf tcmsg)
    : option (Z * Z * nlbuf tcmsg) :=
  match l with
  | [] => Some (0, q_idx, b)
  | a :: l =>
      if q_idx <? s_q_idx then dump_qdiscs s invisible s_q_idx l (q_idx + 1) b
      else
        match ns_heap s !! a with
        | None => None
        | Some q =>
            if tc_qdisc_dump_ignore q invisible then dump_qdiscs s invisible s_q_idx l (q_idx + 1) b
            else
              let '(r, b) := tc_fill_qdisc s q (q_parent q) b in
              if r <=? 0 then Some (-1, q_idx, b) else dump_qdiscs s invisible s_q_idx l (q_idx + 1) b
        end
  end.

Definition tc_dump_qdisc_root s (invisible : bool) (root q_idx s_q_idx : Z) (recur : bool) (b : nlbuf tcmsg)
    : option (Z * Z * nlbuf tcmsg) :=
  match dump_qdiscs s invisible s_q_idx [root] q_idx b with
  | None => None
  | Some (ret, q_idx, b) =>
      if ret <? 0 then Some (ret, q_idx, b)
      else
        match ns_heap s !! root with
        | None => None
        | Some q =>
            if bool_decide (q_queue q = NoopQueue) || negb recur then Some (0, q_idx, b)
            else dump_qdiscs s invisible s_q_idx (hash_for_each s) q_idx b
        end
  end.

(** One device: its root with the hash table, and its ingress queue. *)
Definition dump_dev s (invisible : bool) (s_q_idx : Z) (b : nlbuf tcmsg) : option (Z * Z * nlbuf tcmsg) :=
  match tc_dump_qdisc_root s invisible (nd_qdisc (ns_dev s)) 0 s_q_idx true b with
  | None => None
  | Some (ret, q_idx, b) =>
      if ret <? 0 then Some (ret, q_idx, b)
      else
        match nd_ingress (ns_dev s) with
        | None => Some (0, q_idx, b)
        | Some v => tc_dump_qdisc_root s invisible (sl_sleeping v) q_idx s_q_idx false b
        end
  end.

(** [for_each_netdev]. *)
Fixpoint dump_devs (invisible : bool) (s_idx : Z) (devs : list st) (idx s_q_idx q_idx : Z) (b : nlbuf tcmsg)
    : option (Z * Z * nlbuf tcmsg) :=
  match devs with
  | [] => Some (idx, q_idx, b)
  | s :: devs =>
      if idx <? s_idx then dump_devs invisible s_idx devs (idx + 1) s_q_idx q_idx b
      else
        let s_q_idx := if s_idx <? idx then 0 else s_q_idx in
        match dump_dev s invisible s_q_idx b with
        | None => None
        | Some (ret, q_idx, b) =>
            if ret <? 0 then Some (idx, q_idx, b) else dump_devs invisible s_idx devs (idx + 1) s_q_idx q_idx b
        end
  end.

(** [tca]: the error of [nlmsg_parse], or whether TCA_DUMP_INVISIBLE is there. *)
Definition tc_dump_qdisc (tca : Z + bool) (devs : list st) (args : Z * Z) (b : nlbuf tcmsg)
    : option (Z * (Z * Z) * nlbuf tcmsg) :=
  match tca with
  | inl err => Some (err, args, b)
  | inr invisible =>
      match dump_devs invisible args.1 devs 0 args.2 args.2 b with
      | None => None
      | Some (idx, q_idx, b) => Some (nb_len b, (idx, q_idx), b)
      end
  end.

(** ** Classes *)

Definition class_size (q : qd) (cl : Z) : Z := msg_size (qdisc_id q) (class_attrs_len q cl).

(** The handle of the object [r]. *)
Definition handle_of s (r : leafref) : option Z :=
  match r with
  | Child a => q_handle <$> ns_heap s !! a
  | OfQueue dq => v ← slot_of dq (ns_dev s); q_handle <$> ns_heap s !! sl_sleeping v
  end.

Definition tc_fill_tclass s (q : qd) (c : Qdisc_class_ops P opt) (cl : Z) (b : nlbuf tcmsg) : option (Z * nlbuf tcmsg) :=
  match cl_dump c (num_tx s) (q_priv q) cl (q_handle q, q_handle q) with
  | None => Some (-1, b)
  | Some (parent, handle, r) =>
      match handle_of s r with
      | None => None
      | Some info =>
          Some (nlmsg_append (class_size q cl) (Tcmsg (nd_ifindex (ns_dev s)) parent handle info (qdisc_id q)) b)
      end
  end.

(** [cl_ops->walk] with [qdisc_class_dump]: the classes from number [skip] on;
    whether the callback stopped it, and [w.count]. *)
Fixpoint dump_walk_classes s (q : qd) (c : Qdisc_class_ops P opt) (skip : Z) (l : list Z) (count : Z) (b : nlbuf tcmsg)
    : option (bool * Z * nlbuf tcmsg) :=
  match l with
  | [] => Some (false, count, b)
  | cl :: l =>
      if count <? skip then dump_walk_classes s q c skip l (count + 1) b
      else
        match tc_fill_tclass s q c cl b with
        | None => None
        | Some (r, b) => if r <? 0 then Some (true, count, b) else dump_walk_classes s q c skip l (count + 1) b
        end
  end.

(** The state of a dump of classes: [*t_p], [cb->args[1]] and the buffer. *)
Definition tc_dump_tclass_qdisc s (tcm_parent s_t a t arg : Z) (b : nlbuf tcmsg) : option (Z * Z * Z * nlbuf tcmsg) :=
  match ns_heap s !! a with
  | None => None
  | Some q =>
      match op_cl (ops (q_ops q)) with
      | None => Some (0, t + 1, arg, b)
      | Some c =>
          if tc_qdisc_dump_ignore q false || (t <? s_t)
             || negb (tcm_parent =? 0) && negb (TC_H_MAJ tcm_parent =? q_handle q)
          then Some (0, t + 1, arg, b)
          else
            let skip := if s_t <? t then 0 else arg in
            match dump_walk_classes s q c skip (cl_walk c (num_tx s) (q_priv q)) 0 b with
            | None => None
            | Some (stop, count, b) => if stop then Some (-1, t, count, b) else Some (0, t + 1, count, b)
            end
      end
  end.

Fixpoint dump_tclass_qdiscs s (tcm_parent s_t : Z) (l : list Z) (t arg : Z) (b : nlbuf tcmsg)
    : option (Z * Z * Z * nlbuf tcmsg) :=
  match l with
  | [] => Some (0, t, arg, b)
  | a :: l =>
      match tc_dump_tclass_qdisc s tcm_parent s_t a t arg b with
      | None => None
      | Some (ret, t, arg, b) => if ret <? 0 then Some (-1, t, arg, b) else dump_tclass_qdiscs s tcm_parent s_t l t arg b
      end
  end.

(** The disciplines [tc_dump_tclass_root] looks at after the root. *)
Definition tclass_below s (tcm_parent root : Z) : option (list Z) :=
  match ns_heap s !! root with
  | None => None
  | Some q =>
      if bool_decide (q_queue q = NoopQueue) then Some []
      else if negb (tcm_parent =? 0) then
        match qdisc_match_from_root root (TC_H_MAJ tcm_parent) s with
        | None => None
        | Some (o, _) => Some (filter (λ a, a ≠ root) (option_list o))
        end
      else Some (hash_for_each s)
  end.

Definition tc_dump_tclass_root s (tcm_parent root s_t t arg : Z) (b : nlbuf tcmsg) : option (Z * Z * Z * nlbuf tcmsg) :=
  match tc_dump_tclass_qdisc s tcm_parent s_t root t arg b with
  | None => None
  | Some (ret, t, arg, b) =>
      if ret <? 0 then Some (-1, t, arg, b)
      else
        match tclass_below s tcm_parent root with
        | None => None
        | Some l => dump_tclass_qdiscs s tcm_parent s_t l t arg b
        end
  end.

(** The device of the request. *)
Definition dump_tclass_dev s (tcm_parent s_t arg : Z) (b : nlbuf tcmsg) : option (Z * Z * nlbuf tcmsg) :=
  match tc_dump_tclass_root s tcm_parent (nd_qdisc (ns_dev s)) s_t 0 arg b with
  | None => None
  | Some (ret, t, arg, b) =>
      if ret <? 0 then Some (t, arg, b)
      else
        match nd_ingress (ns_dev s) with
        | None => Some (t, arg, b)
        | Some v =>
            match tc_dump_tclass_root s tcm_parent (sl_sleeping v) s_t t arg b with
            | None => None
            | Some (_, t, arg, b) => Some (t, arg, b)
            end
        end
  end.

(** [args] are [cb->args[0]] and [cb->args[1]].  A request that is too short, or
    for a device that is not there, is answered by nothing. *)
Definition tc_dump_tclass (tcm : option (Z * Z)) (devs : list st) (args : Z * Z) (b : nlbuf tcmsg)
    : option (Z * (Z * Z) * nlbuf tcmsg) :=
  match tcm with
  | None => Some (0, args, b)
  | Some (ifindex, tcm_parent) =>
      match list_find (λ s, nd_ifindex (ns_dev s) = ifindex) devs with
      | None => Some (0, args, b)
      | Some (_, s) =>
          match dump_tclass_dev s tcm_parent args.1 args.2 b with
          | None => None
          | Some (t, arg, b) => Some (nb_len b, (t, arg), b)
          end
      end
  end.

End dump.
