(* ===== verification/QdumpTheorems.v ===== *)
(** * Dumps are complete

    However the buffers divide it, a dump of Qdump.v tells about every discipline,
    or every class, exactly once and in order, and ends with [NLMSG_DONE].  The
    cursor a dump operation leaves in [cb->args] stands for the list of messages
    that remain ([resumes]); that [netlink_dump] then delivers them all is proved
    once, and the two operations are shown to keep their cursors. *)

From Stdlib Require Import ZArith Lia.
From stdpp Require Import base numbers list gmap option sets strings.
From S2P Require Import Prelude Sched Stab Qtree QtreeInv QtreeRun Qapi QapiTheorems QapiGraft QapiCreate QapiSafe Qdump.

Open Scope Z_scope.

(** ** Pieces *)

Section pieces.
Context {T : Type} (R : Z).
Implicit Types (b : nlbuf T) (todo left : list T).

(** A buffer of size [R]. *)
Definition buf_ok b : Prop := nb_room b + nb_len b = R ∧ 0 ≤ nb_len b ∧ (nb_len b = 0 ↔ nb_msgs b = []).

(** A part of a dump that had [todo] to tell and [left] it untold: because it
    [stopped] when the buffer was full. *)
Definition piece (stopped : bool) todo left b b' : Prop :=
  buf_ok b' ∧ ∃ new, todo = new ++ left ∧ nb_msgs b' = nb_msgs b ++ new ∧
    if stopped then nb_msgs b' ≠ [] else left = [].

Lemma piece_nil b : buf_ok b → piece false [] [] b b.
Proof. intros Hb. split; [done|]. exists []. split_and!; [done|by rewrite app_nil_r|done]. Qed.

Lemma piece_end todo left b b' : piece false todo left b b' → piece false todo [] b b' ∧ left = [].
Proof. intros (Hb & n & E & M & ->). split; [|done]. split; [done|]. by exists n. Qed.

Lemma piece_app stopped todo todo' left b b1 b2 :
  piece false todo [] b b1 → piece stopped todo' left b1 b2 → piece stopped (todo ++ todo') left b b2.
Proof.
  intros (_ & n1 & E1 & M1 & _) (Hb & n2 & E2 & M2 & Hl). rewrite app_nil_r in E1. split; [done|]. exists (n1 ++ n2).
  subst. rewrite M2, M1, !app_assoc in *. done.
Qed.

Lemma piece_stop todo todo' left b b1 : piece true todo left b b1 → piece true (todo ++ todo') (left ++ todo') b b1.
Proof. intros (Hb & n & -> & M & Hl). split; [done|]. exists n. by rewrite app_assoc. Qed.

Lemma piece_append size m b : buf_ok b → 0 < size ≤ R →
  let '(r, b') := nlmsg_append size m b in
  if decide (r <= 0) then b' = b ∧ r = -1 ∧ ∀ todo, piece true todo todo b b else piece false [m] [] b b'.
Proof.
  intros (Hr & Hn & He) Hs. unfold nlmsg_append. destruct (Z.ltb_spec (nb_room b) size).
  - rewrite decide_True by lia. split_and!; [done..|]. intros todo. split; [done|]. exists []. rewrite app_nil_r. split_and!; [done..|].
    intros E%He. lia.
  - rewrite decide_False by lia. split.
    + split_and!; simpl; [lia..|]. split; [lia|]. by destruct (nb_msgs b).
    + by exists [m].
Qed.

(** A loop that counts its items, passes over the first [skip] and stops at one
    that does not fit. *)
Fixpoint count_loop {X} (emit : X → nlbuf T → option (bool * nlbuf T)) (skip : Z) (l : list X) (count : Z) b
    : option (bool * Z * nlbuf T) :=
  match l with
  | [] => Some (false, count, b)
  | x :: l =>
      if count <? skip then count_loop emit skip l (count + 1) b
      else
        match emit x b with
        | None => None
        | Some (stop, b) => if stop then Some (true, count, b) else count_loop emit skip l (count + 1) b
        end
  end.

(** [entry x] is what [emit] writes of [x]. *)
Definition emits {X} (emit : X → nlbuf T → option (bool * nlbuf T)) (entry : X → option T) (x : X) : Prop :=
  ∀ b, buf_ok b → ∃ stop b', emit x b = Some (stop, b') ∧
    if stop then ∀ todo, piece true todo todo b b' else piece false (option_list (entry x)) [] b b'.

Lemma count_loop_piece {X} emit (entry : X → option T) skip l count b :
  Forall (emits emit entry) l → buf_ok b →
  ∃ stopped count' b', count_loop emit skip l count b = Some (stopped, count', b') ∧ count ≤ count' ∧
    piece stopped (omap entry (drop (Z.to_nat (skip - count)) l)) (omap entry (drop (Z.to_nat (count' - count)) l)) b b'.
Proof.
  intros Hl. revert count b. induction Hl as [|x l Hx Hl IH]; intros count b Hb.
  { exists false, count, b. rewrite !drop_nil. split_and!; [done..|by apply piece_nil]. }
  assert (∀ b1, piece false (if count <? skip then [] else option_list (entry x)) [] b b1 →
    ∃ stopped count' b', count_loop emit skip l (count + 1) b1 = Some (stopped, count', b') ∧ count ≤ count' ∧
      piece stopped (omap entry (drop (Z.to_nat (skip - count)) (x :: l))) (omap entry (drop (Z.to_nat (count' - count)) (x :: l))) b b') as Hgo.
  { intros b1 Hp. destruct (IH (count + 1) b1 (proj1 Hp)) as (st & q' & b' & -> & Hle & Hp'). exists st, q', b'. split_and!; [done|lia|].
    replace (Z.to_nat (q' - count)) with (S (Z.to_nat (q' - (count + 1)))) by lia. simpl. destruct (Z.ltb_spec count skip).
    - replace (Z.to_nat (skip - count)) with (S (Z.to_nat (skip - (count + 1)))) by lia. apply (piece_app st [] _ _ _ b1); done.
    - replace (Z.to_nat (skip - count)) with 0%nat by lia. replace (Z.to_nat (skip - (count + 1))) with 0%nat in Hp' by lia.
      rewrite drop_0 in *. simpl. pose proof (piece_app _ _ _ _ _ _ _ Hp Hp') as Hp2. by destruct (entry x). }
  simpl count_loop. destruct (Z.ltb_spec count skip); [apply Hgo; by apply piece_nil|].
  destruct (Hx b Hb) as (stop & b' & -> & Hp). destruct stop; [|by apply Hgo].
  exists true, count, b'. rewrite Z.sub_diag. replace (Z.to_nat (skip - count)) with 0%nat by lia. split_and!; [done..|apply Hp].
Qed.

(** The cursors: what remains of the items [l] at item [args.1], of which
    [args.2] is told. *)
Definition cursor_rest {X} (f : X → nat → list T) (l : list X) (args : Z * Z) : list T :=
  match drop (Z.to_nat args.1) l with
  | [] => []
  | x :: l => f x (Z.to_nat (if args.1 <? 0 then 0 else args.2)) ++ (l ≫= λ x, f x 0%nat)
  end.

Lemma cursor_next {X} (f : X → nat → list T) x l i j : 0 ≤ i → cursor_rest f (x :: l) (i + 1, j) = cursor_rest f l (i, j).
Proof.
  intros Hi. unfold cursor_rest. simpl. replace (Z.to_nat (i + 1)) with (S (Z.to_nat i)) by lia. simpl.
  destruct (Z.ltb_spec (i + 1) 0), (Z.ltb_spec i 0); done || lia.
Qed.

Lemma cursor_all {X} (f : X → nat → list T) l i j : i < 0 → cursor_rest f l (i, j) = l ≫= λ x, f x 0%nat.
Proof. intros Hi. unfold cursor_rest. simpl. rewrite (proj2 (Z.ltb_lt i 0)) by lia. replace (Z.to_nat i) with 0%nat by lia. by destruct l. Qed.

Lemma cursor_start {X} (f : X → nat → list T) l : cursor_rest f l (0, 0) = l ≫= λ x, f x 0%nat.
Proof. by destruct l. Qed.

(** The item of the cursor, when [k] items were before it. *)
Lemma cursor_here {X} (f : X → nat → list T) x l i k j : i ≤ k →
  cursor_rest f (x :: l) (i - k, j) = f x (Z.to_nat (if i <? k then 0 else j)) ++ (l ≫= λ x, f x 0%nat).
Proof.
  intros Hi. unfold cursor_rest. simpl. replace (Z.to_nat (i - k)) with 0%nat by lia. simpl.
  by destruct (Z.ltb_spec (i - k) 0), (Z.ltb_spec i k); try lia.
Qed.

End pieces.

(** ** The whole *)

Section whole.
Context {A T : Type} (dump : A → nlbuf T → option (Z * A * nlbuf T)) (rest : A → list T) (R : Z).

(** From a cursor, into an empty buffer of at least [R] bytes. *)
Definition resumes : Prop := ∀ args size, R ≤ size →
  ∃ args' b' stopped, dump args (Nlbuf size 0 []) = Some (nb_len b', args', b') ∧
    piece size stopped (rest args) (rest args') (Nlbuf size 0 []) b'.

Lemma piece_recv size stopped todo left b' : DONE_SIZE ≤ size →
  piece (T := T) size stopped todo left (Nlbuf size 0 []) b' →
  todo = nb_msgs b' ++ left ∧
  ((nb_msgs b' = [] ∧ todo = [] ∧ nb_len b' = 0 ∧ DONE_SIZE ≤ nb_room b') ∨ (nb_msgs b' ≠ [] ∧ 0 < nb_len b')).
Proof.
  intros Hsz ((Hr & Hn & He) & new & E & M & Hs). simpl in M. rewrite M. split; [done|].
  destruct new as [|m new]; [left|right].
  - assert (nb_len b' = 0) by (by apply He). destruct stopped; [congruence|]. subst. split_and!; [done..|lia].
  - split; [done|]. assert (nb_len b' ≠ 0) by (intros E0%He; congruence). lia.
Qed.

(** Enough calls that get memory tell everything. *)
Lemma recv_all_complete allocs args e :
  resumes → DONE_SIZE ≤ R → 0 < e → Forall (λ o, ∀ n, o = Some n → R ≤ n) allocs →
  (length (rest args) < length (omap id allocs))%nat →
  ∃ dgs nlk, recv_all dump allocs (Nlsock e args true) = Some (dgs, nlk) ∧ nlk_running nlk = false ∧
    concat dgs = map Answer (rest args) ++ [Done 0].
Proof.
  intros Hres HR. revert args e. induction allocs as [|o allocs IH]; intros args e He Hal Hlen; [simpl in Hlen; lia|].
  apply Forall_cons in Hal as [Ho Hal]. simpl. unfold netlink_dump. cbn [nlk_running nlk_errno nlk_args negb].
  destruct o as [size|]; [|by destruct (IH args e He Hal Hlen) as (dgs & nlk & -> & ? & ?); exists dgs, nlk].
  rewrite (proj2 (Z.ltb_lt 0 e)) by lia. specialize (Ho size eq_refl).
  destruct (Hres args size Ho) as (args' & b' & stopped & -> & Hp). apply piece_recv in Hp as [E Hp]; [|lia].
  destruct Hp as [(M & E0 & L0 & Hroom)|(M & L0)].
  - rewrite L0, (proj2 (Z.ltb_ge (nb_room b') DONE_SIZE)) by lia. cbn [Z.ltb Z.compare orb].
    exists [[Done 0]], (Nlsock 0 args' false). rewrite M, E0. by destruct allocs.
  - rewrite (proj2 (Z.ltb_lt 0 (nb_len b'))) by lia. cbn [orb].
    destruct (IH args' (nb_len b') L0 Hal) as (dgs & nlk & -> & Hrun & Hc).
    { rewrite E, length_app in Hlen. simpl in Hlen. destruct (nb_msgs b'); [done|]. simpl in Hlen.
      change (omap id allocs) with (list_omap (option Z) Z id allocs). lia. }
    exists (map Answer (nb_msgs b') :: dgs), nlk. split_and!; [done..|]. simpl. by rewrite Hc, E, map_app, app_assoc.
Qed.

End whole.

Section dumps.
Context {kind P opt : Type} `{!EqDecision kind} `{!QdiscKinds kind P opt} `{!NetEnv kind P} `{!NetEnvOk kind P}.
Context {refs : KindRefs (kind := kind) (P := P)} {kok : KindsOk} `{!DumpEnv kind P} `{!DumpEnvOk kind P}.
Notation qd := (sqdisc kind P).
Notation st := (nstate kind P).
Implicit Types s : st.

Lemma msg_size_pos id attrs : 0 ≤ attrs → 0 < msg_size id attrs.
Proof. intros ?. unfold msg_size. assert (0 ≤ (4 + (Z.of_nat (String.length id) + 1) + 3) / 4) by (apply Z.div_pos; lia). lia. Qed.

(** [hash_for_each] meets every entry of the table once. *)
Lemma hash_for_each_perm s : hash_for_each s ≡ₚ nd_hash (ns_dev s).
Proof.
  unfold hash_for_each. assert (∀ a, a ∈ nd_hash (ns_dev s) → bucket_of s a ∈ seq 0 16) as Hb.
  { intros a _. apply elem_of_seq. unfold bucket_of. destruct (_ !! a); [|lia]. split; [lia|]. apply hash_bucket_lt. }
  revert Hb. generalize (nd_hash (ns_dev s)) as l. pose proof (NoDup_seq 0 16) as Hn. revert Hn. generalize (seq 0 16) as bs.
  induction bs as [|x bs IH]; intros Hn l Hb; simpl.
  - destruct l as [|a l]; [done|]. specialize (Hb a (list_elem_of_here _ _)). by apply elem_of_nil in Hb.
  - apply NoDup_cons in Hn as [Hx Hn]. etrans; [|apply (filter_app_complement (λ a, bucket_of s a = x) l)]. f_equiv.
    rewrite <- (IH Hn (filter (λ a, bucket_of s a ≠ x) l)).
    + apply reflexive_eq. f_equal. apply map_ext_in. intros y Hy%list_elem_of_In. rewrite list_filter_filter. apply list_filter_iff.
      intros a. assert (y ≠ x) by (by intros ->). naive_solver congruence.
    + intros a [Hne Ha]%list_elem_of_filter. specialize (Hb a Ha). apply elem_of_cons in Hb. naive_solver.
Qed.

(** ** Disciplines *)

Section qdiscs.
Context (invisible : bool).

(** What there is to tell about an object. *)
Definition qdisc_entry s (a : Z) : option tcmsg :=
  q ← ns_heap s !! a; if tc_qdisc_dump_ignore q invisible then None else Some (qdisc_msg s q (q_parent q)).

(** The objects of a device: its root, those in the hash table, and the one of
    the ingress queue. *)
Definition below_root s (root : Z) : list Z :=
  match ns_heap s !! root with
  | Some q => if bool_decide (q_queue q = NoopQueue) then [] else hash_for_each s
  | None => []
  end.

Definition device_qdiscs s : list Z :=
  nd_qdisc (ns_dev s) :: below_root s (nd_qdisc (ns_dev s)) ++
  match nd_ingress (ns_dev s) with Some v => [sl_sleeping v] | None => [] end.

Definition qdisc_list (devs : list st) : list tcmsg := devs ≫= λ s, omap (qdisc_entry s) (device_qdiscs s).

(** What remains of a device after [j] objects. *)
Definition qdisc_part s (j : nat) : list tcmsg := omap (qdisc_entry s) (drop j (device_qdiscs s)).

Lemma dump_qdiscs_app s s_q_idx l l' q_idx b :
  dump_qdiscs s invisible s_q_idx (l ++ l') q_idx b =
  match dump_qdiscs s invisible s_q_idx l q_idx b with
  | None => None
  | Some (ret, q_idx, b) => if ret <? 0 then Some (ret, q_idx, b) else dump_qdiscs s invisible s_q_idx l' q_idx b
  end.
Proof.
  revert q_idx b. induction l as [|a l IH]; intros q_idx b; [done|]. simpl. destruct (q_idx <? s_q_idx); [apply IH|].
  destruct (ns_heap s !! a) as [q|]; [|done]. destruct (tc_qdisc_dump_ignore q invisible); [apply IH|].
  destruct (tc_fill_qdisc s q (q_parent q) b) as [r b']. destruct (r <=? 0); [done|apply IH].
Qed.

(** What the dumps rely on: the pointers they follow lead to objects. *)
Definition held_live s : Prop := ∀ a, a ∈ roots true (ns_dev s) ++ nd_hash (ns_dev s) → is_Some (ns_heap s !! a).

Lemma live_items s a : held_live s → a ∈ device_qdiscs s → is_Some (ns_heap s !! a).
Proof.
  intros Hl Ha. apply Hl. unfold device_qdiscs, below_root in Ha. unfold roots, sleeping.
  apply elem_of_cons in Ha as [->|[Ha|Ha]%elem_of_app].
  - by left.
  - destruct (ns_heap s !! _) as [q|]; [|by apply elem_of_nil in Ha]. case_bool_decide; [by apply elem_of_nil in Ha|].
    rewrite hash_for_each_perm in Ha. by apply elem_of_app; right.
  - apply elem_of_app; left. apply elem_of_app; right. apply elem_of_app; right. by destruct (nd_ingress (ns_dev s)).
Qed.

(** The dump of a root is the loop over it and what is below. *)
Lemma dump_root_items s root q_idx s_q_idx recur b : is_Some (ns_heap s !! root) →
  tc_dump_qdisc_root s invisible root q_idx s_q_idx recur b =
  dump_qdiscs s invisible s_q_idx ([root] ++ if recur then below_root s root else []) q_idx b.
Proof.
  intros [q Hq]. unfold tc_dump_qdisc_root, below_root. rewrite dump_qdiscs_app, Hq.
  destruct (dump_qdiscs s invisible s_q_idx [root] q_idx b) as [[[ret q_idx'] b']|]; [|done].
  destruct (ret <? 0); [done|]. by destruct (bool_decide (q_queue q = NoopQueue)), recur.
Qed.

(** The dump of a device is the loop over its objects. *)
Lemma dump_dev_items s s_q_idx b : held_live s →
  dump_dev s invisible s_q_idx b = dump_qdiscs s invisible s_q_idx (device_qdiscs s) 0 b.
Proof.
  intros Hl. unfold dump_dev. rewrite dump_root_items by (apply (live_items s _ Hl); by left).
  change (device_qdiscs s) with (([nd_qdisc (ns_dev s)] ++ below_root s (nd_qdisc (ns_dev s))) ++
    match nd_ingress (ns_dev s) with Some v => [sl_sleeping v] | None => [] end).
  rewrite (dump_qdiscs_app s s_q_idx (_ ++ _)). destruct (dump_qdiscs _ _ _ _ _ _) as [[[ret q_idx] b1]|]; [|done].
  destruct (ret <? 0); [done|]. destruct (nd_ingress (ns_dev s)) as [v|] eqn:Ei; [|done].
  rewrite dump_root_items; [done|]. apply (live_items s _ Hl). unfold device_qdiscs. rewrite Ei. set_solver.
Qed.

Definition emit_qdisc s (a : Z) (b : nlbuf tcmsg) : option (bool * nlbuf tcmsg) :=
  match ns_heap s !! a with
  | None => None
  | Some q =>
      if tc_qdisc_dump_ignore q invisible then Some (false, b)
      else let '(r, b) := tc_fill_qdisc s q (q_parent q) b in Some (r <=? 0, b)
  end.

Lemma dump_qdiscs_loop s s_q_idx l q_idx b :
  dump_qdiscs s invisible s_q_idx l q_idx b =
  match count_loop (emit_qdisc s) s_q_idx l q_idx b with
  | None => None
  | Some (stop, q_idx, b) => Some (if stop then -1 else 0, q_idx, b)
  end.
Proof.
  revert q_idx b. induction l as [|a l IH]; intros q_idx b; [done|]. simpl. destruct (q_idx <? s_q_idx); [apply IH|].
  unfold emit_qdisc at 1. destruct (ns_heap s !! a) as [q|]; [|done]. destruct (tc_qdisc_dump_ignore q invisible); [apply IH|].
  destruct (tc_fill_qdisc s q (q_parent q) b) as [r b']. destruct (r <=? 0); [done|apply IH].
Qed.

Lemma emits_qdisc R s a q : ns_heap s !! a = Some q → qdisc_size q ≤ R → emits R (emit_qdisc s) (qdisc_entry s) a.
Proof.
  intros Hq HR b Hb. unfold emit_qdisc, qdisc_entry, tc_fill_qdisc. rewrite Hq. simpl.
  destruct (tc_qdisc_dump_ignore q invisible); [exists false, b; split; [done|by apply piece_nil]|].
  pose proof (piece_append R (qdisc_size q) (qdisc_msg s q (q_parent q)) b Hb (conj (msg_size_pos _ _ (attrs_len_nonneg q)) HR)) as Ha.
  destruct (nlmsg_append _ _ _) as [r b1]. exists (r <=? 0), b1. split; [done|].
  case_decide; destruct (Z.leb_spec r 0); try lia; [|done]. by destruct Ha as (-> & _ & Ha).
Qed.

(** Every message fits into a buffer of size [R]. *)
Definition qdiscs_fit (R : Z) s : Prop := ∀ a q, ns_heap s !! a = Some q → qdisc_size q ≤ R.

Lemma dump_dev_piece R s s_q_idx b : held_live s → qdiscs_fit R s → buf_ok R b →
  ∃ stopped q_idx' b', dump_dev s invisible s_q_idx b = Some (if stopped : bool then -1 else 0, q_idx', b') ∧
    piece R stopped (qdisc_part s (Z.to_nat s_q_idx)) (qdisc_part s (Z.to_nat q_idx')) b b'.
Proof.
  intros Hl HR Hb. rewrite dump_dev_items, dump_qdiscs_loop by done.
  destruct (count_loop_piece R (emit_qdisc s) (qdisc_entry s) s_q_idx (device_qdiscs s) 0 b) as (st & q' & b' & -> & _ & Hp); [|done|].
  - apply Forall_forall. intros a Ha. destruct (live_items s a Hl Ha) as [q Hq]. eapply emits_qdisc; [done|by eapply HR].
  - rewrite !Z.sub_0_r in Hp. by exists st, q', b'.
Qed.

Lemma dump_devs_piece R devs s_idx idx s_q_idx q_idx b :
  Forall held_live devs → Forall (qdiscs_fit R) devs → buf_ok R b →
  ∃ stopped idx' q_idx' b', dump_devs invisible s_idx devs idx s_q_idx q_idx b = Some (idx', q_idx', b') ∧ idx ≤ idx' ∧
    piece R stopped (cursor_rest qdisc_part devs (s_idx - idx, s_q_idx)) (cursor_rest qdisc_part devs (idx' - idx, q_idx')) b b'.
Proof.
  intros Hl HR. revert idx s_q_idx q_idx b. induction devs as [|s devs IH]; intros idx s_q_idx q_idx b Hb.
  { exists false, idx, q_idx, b. unfold cursor_rest. rewrite !drop_nil. split_and!; [done..|by apply piece_nil]. }
  apply Forall_cons in Hl as [Hls Hl]. apply Forall_cons in HR as [HRs HR]. simpl dump_devs. destruct (Z.ltb_spec idx s_idx) as [Hlt|Hge].
  - destruct (IH Hl HR (idx + 1) s_q_idx q_idx b Hb) as (st & i' & q' & b' & -> & Hi & Hp). exists st, i', q', b'. split_and!; [done|lia|].
    replace (s_idx - idx) with (s_idx - (idx + 1) + 1) by lia. replace (i' - idx) with (i' - (idx + 1) + 1) by lia.
    by rewrite !cursor_next by lia.
  - destruct (dump_dev_piece R s (if s_idx <? idx then 0 else s_q_idx) b Hls HRs Hb) as (st & q' & b' & -> & Hp).
    rewrite cursor_here by lia. destruct st; simpl.
    + exists true, idx, q', b'. rewrite cursor_here, Z.ltb_irrefl by lia. split_and!; [done..|]. by apply piece_stop.
    + apply piece_end in Hp as [Hp _].
      destruct (IH Hl HR (idx + 1) (if s_idx <? idx then 0 else s_q_idx) q' b' (proj1 Hp)) as (st & i' & q2 & b2 & -> & Hi & Hp2).
      exists st, i', q2, b2. split_and!; [done|lia|]. rewrite cursor_all in Hp2 by lia.
      replace (i' - idx) with (i' - (idx + 1) + 1) by lia. rewrite cursor_next by lia. by eapply piece_app.
Qed.

Lemma tc_dump_qdisc_resumes R devs : Forall held_live devs → Forall (qdiscs_fit R) devs →
  resumes (tc_dump_qdisc (inr invisible) devs) (cursor_rest qdisc_part devs) R.
Proof.
  intros Hl HR [s_idx s_q_idx] size Hs. unfold tc_dump_qdisc. cbn [fst snd].
  destruct (dump_devs_piece size devs s_idx 0 s_q_idx s_q_idx (Nlbuf size 0 []) Hl) as (st & i' & q' & b' & -> & _ & Hp).
  - eapply Forall_impl; [exact HR|]. intros s Hsz a q Ha. specialize (Hsz a q Ha). lia.
  - split_and!; simpl; [lia..|done].
  - rewrite !Z.sub_0_r in Hp. by exists (i', q'), b', st.
Qed.

End qdiscs.

Lemma reached_live s : reached s → held_live s.
Proof.
  intros Hr. pose proof (pr_inv (tr_pre (reached_tree _ Hr))) as I. intros a [Ha|Ha]%elem_of_app.
  - apply (inv_held I). rewrite !elem_of_app. auto.
  - destruct (inv_hash I a Ha) as (q & Hq & _). by exists q.
Qed.

(** C31: A dump of the disciplines is complete: whatever buffers the calls of
    [recvmsg] get, if each has room for one message and enough of them get one,
    the datagrams received together tell, in order and each once, about the root
    of every device, the disciplines in its hash table and that of its ingress
    queue, except the built-in and the invisible ones, and end with [NLMSG_DONE]. *)
Theorem qdisc_dump_complete invisible devs allocs R :
  Forall reached devs → Forall (qdiscs_fit R) devs → DONE_SIZE ≤ R →
  Forall (λ o, ∀ n, o = Some n → R ≤ n) allocs → (length (qdisc_list invisible devs) < length (omap id allocs))%nat →
  ∃ dgs nlk, recv_all (tc_dump_qdisc (inr invisible) devs) allocs (dump_start (0, 0)) = Some (dgs, nlk) ∧
    nlk_running nlk = false ∧ concat dgs = map Answer (qdisc_list invisible devs) ++ [Done 0].
Proof.
  intros Hr HR Hd Hal Hlen. assert (cursor_rest (qdisc_part invisible) devs (0, 0) = qdisc_list invisible devs) as E by apply cursor_start.
  rewrite <- E in *. eapply recv_all_complete; [|done..]. apply tc_dump_qdisc_resumes; [|done].
  eapply Forall_impl; [exact Hr|apply reached_live].
Qed.

(** ** Classes *)

Section classes.
Context (tcm_parent : Z).

Definition class_entry s (q : qd) (c : Qdisc_class_ops P opt) (cl : Z) : option tcmsg :=
  '(parent, handle, r) ← cl_dump c (num_tx s) (q_priv q) cl (q_handle q, q_handle q);
  info ← handle_of s r;
  Some (Tcmsg (nd_ifindex (ns_dev s)) parent handle info (qdisc_id q)).

(** The class operations of a discipline whose classes are asked for. *)
Definition asked (q : qd) : option (Qdisc_class_ops P opt) :=
  c ← op_cl (ops (q_ops q));
  if tc_qdisc_dump_ignore q false || negb (tcm_parent =? 0) && negb (TC_H_MAJ tcm_parent =? q_handle q) then None else Some c.

(** What remains of a discipline after [j] classes. *)
Definition class_part s (a : Z) (j : nat) : list tcmsg :=
  match ns_heap s !! a with
  | Some q => match asked q with
              | Some c => omap (class_entry s q c) (drop j (cl_walk c (num_tx s) (q_priv q)))
              | None => []
              end
  | None => []
  end.

Definition with_below s (root : Z) : list Z := root :: default [] (tclass_below s tcm_parent root).

(** The disciplines looked at: when no parent is given, those in the hash table
    once for the root and once more for the ingress queue. *)
Definition tclass_qdiscs s : list Z :=
  with_below s (nd_qdisc (ns_dev s)) ++
  match nd_ingress (ns_dev s) with Some v => with_below s (sl_sleeping v) | None => [] end.

Definition class_list s : list tcmsg := tclass_qdiscs s ≫= λ a, class_part s a 0.

(** No kind refuses to describe a class, and every description fits. *)
Definition classes_fit (R : Z) s : Prop := ∀ a q c cl, a ∈ tclass_qdiscs s → ns_heap s !! a = Some q → asked q = Some c →
  cl ∈ cl_walk c (num_tx s) (q_priv q) →
  is_Some (cl_dump c (num_tx s) (q_priv q) cl (q_handle q, q_handle q)) ∧ class_size q cl ≤ R.

Definition emit_class s (q : qd) (c : Qdisc_class_ops P opt) (cl : Z) (b : nlbuf tcmsg) : option (bool * nlbuf tcmsg) :=
  match tc_fill_tclass s q c cl b with None => None | Some (r, b) => Some (r <? 0, b) end.

Lemma dump_walk_loop s q c skip l count b :
  dump_walk_classes s q c skip l count b = count_loop (emit_class s q c) skip l count b.
Proof.
  revert count b. induction l as [|cl l IH]; intros count b; [done|]. simpl. destruct (count <? skip); [apply IH|].
  unfold emit_class at 1. destruct (tc_fill_tclass s q c cl b) as [[r b']|]; [|done]. destruct (r <? 0); [done|apply IH].
Qed.

Lemma handle_of_ok s a q c cl ph parent handle r : reached s → ns_heap s !! a = Some q → op_cl (ops (q_ops q)) = Some c →
  cl ∈ cl_walk c (num_tx s) (q_priv q) → cl_dump c (num_tx s) (q_priv q) cl ph = Some (parent, handle, r) → is_Some (handle_of s r).
Proof.
  intros Hr Hq Hc Hcl Hd. pose proof (pr_inv (tr_pre (reached_tree _ Hr))) as I. destruct (inv_fits I a q Hq) as [Hfit _].
  pose proof (ok_dump _ c (num_tx s) (q_priv q) cl ph Hc Hfit (or_introl Hcl)) as Ho. rewrite Hd in Ho. destruct r as [b|dq]; simpl.
  - apply fmap_is_Some. destruct Ho as [Ho| ->]; [|destruct (inv_noop I) as (v & Hv & _); by exists v].
    apply (inv_edge I a). exists q. split_and!; [done|set_solver|done].
  - destruct Ho as (i & -> & Hi). apply lookup_lt_is_Some in Hi as [v Hv]. simpl. rewrite Hv. simpl. apply fmap_is_Some.
    eapply sleeping_held; [exact I|]. by apply (sleeping_slot (TxQueue i)).
Qed.

Lemma emits_class R s a q c cl : reached s → ns_heap s !! a = Some q → op_cl (ops (q_ops q)) = Some c →
  cl ∈ cl_walk c (num_tx s) (q_priv q) → is_Some (cl_dump c (num_tx s) (q_priv q) cl (q_handle q, q_handle q)) → class_size q cl ≤ R →
  emits R (emit_class s q c) (class_entry s q c) cl.
Proof.
  intros Hr Hq Hc Hcl [[[parent handle] r] Hd] HR b Hb. destruct (handle_of_ok _ _ _ _ _ _ _ _ _ Hr Hq Hc Hcl Hd) as [info Hi].
  unfold emit_class, class_entry, tc_fill_tclass. rewrite Hd. simpl. rewrite Hi. simpl.
  pose proof (piece_append R (class_size q cl) (Tcmsg (nd_ifindex (ns_dev s)) parent handle info (qdisc_id q)) b Hb
    (conj (msg_size_pos _ _ (class_attrs_len_nonneg q cl)) HR)) as Ha.
  destruct (nlmsg_append _ _ _) as [r' b1] eqn:Eapp. exists (r' <? 0), b1. split; [done|].
  case_decide; destruct (Z.ltb_spec r' 0); try lia; [by destruct Ha as (-> & _ & Ha)|done].
Qed.

Lemma tclass_qdisc_piece R s s_t a t arg b : reached s → classes_fit R s → a ∈ tclass_qdiscs s → is_Some (ns_heap s !! a) → s_t ≤ t → buf_ok R b →
  ∃ stopped arg' b', tc_dump_tclass_qdisc s tcm_parent s_t a t arg b = Some (if stopped : bool then -1 else 0, if stopped then t else t + 1, arg', b') ∧
    piece R stopped (class_part s a (Z.to_nat (if s_t <? t then 0 else arg))) (class_part s a (Z.to_nat arg')) b b'.
Proof.
  intros Hr HR Ha [q Hq] Ht Hb. unfold tc_dump_tclass_qdisc, class_part. rewrite Hq. pose proof (HR a q) as HRa. unfold asked in *.
  destruct (op_cl (ops (q_ops q))) as [c|] eqn:Ec; simpl in *; [|exists false, arg, b; split; [done|by apply piece_nil]].
  rewrite (proj2 (Z.ltb_ge t s_t)), orb_false_r by lia.
  destruct (tc_qdisc_dump_ignore q false || _) eqn:Ei; [exists false, arg, b; split; [done|by apply piece_nil]|].
  rewrite dump_walk_loop.
  destruct (count_loop_piece R (emit_class s q c) (class_entry s q c) (if s_t <? t then 0 else arg)
    (cl_walk c (num_tx s) (q_priv q)) 0 b) as (st & q' & b' & -> & _ & Hp); [|done|].
  - apply Forall_forall. intros cl Hcl. destruct (HRa c cl Ha Hq eq_refl Hcl). by eapply emits_class.
  - rewrite !Z.sub_0_r in Hp. exists st, q', b'. by destruct st.
Qed.

Lemma tclass_qdiscs_app s s_t l l' t arg b :
  dump_tclass_qdiscs s tcm_parent s_t (l ++ l') t arg b =
  match dump_tclass_qdiscs s tcm_parent s_t l t arg b with
  | None => None
  | Some (ret, t, arg, b) => if ret <? 0 then Some (-1, t, arg, b) else dump_tclass_qdiscs s tcm_parent s_t l' t arg b
  end.
Proof.
  revert t arg b. induction l as [|a l IH]; intros t arg b; [done|]. simpl.
  destruct (tc_dump_tclass_qdisc s tcm_parent s_t a t arg b) as [[[[ret t1] arg1] b1]|]; [|done]. destruct (ret <? 0); [done|apply IH].
Qed.

Lemma tclass_loop_piece R s s_t l t arg b : reached s → classes_fit R s →
  (∀ a, a ∈ l → a ∈ tclass_qdiscs s ∧ is_Some (ns_heap s !! a)) → buf_ok R b →
  ∃ stopped t' arg' b', dump_tclass_qdiscs s tcm_parent s_t l t arg b = Some (if stopped : bool then -1 else 0, t', arg', b') ∧ t ≤ t' ∧
    piece R stopped (cursor_rest (class_part s) l (s_t - t, arg)) (cursor_rest (class_part s) l (t' - t, arg')) b b'.
Proof.
  intros Hr HR. revert t arg b. induction l as [|a l IH]; intros t arg b Hl Hb.
  { exists false, t, arg, b. unfold cursor_rest. rewrite !drop_nil. split_and!; [done..|by apply piece_nil]. }
  assert (∀ x, x ∈ l → x ∈ tclass_qdiscs s ∧ is_Some (ns_heap s !! x)) as Hl' by (intros x Hx; apply Hl; by right).
  destruct (Hl a) as [Ha Hs]; [by left|]. simpl dump_tclass_qdiscs. destruct (Z.lt_ge_cases t s_t) as [Hlt|Hge].
  - assert (tc_dump_tclass_qdisc s tcm_parent s_t a t arg b = Some (0, t + 1, arg, b)) as ->.
    { unfold tc_dump_tclass_qdisc. destruct Hs as [q ->]. rewrite (proj2 (Z.ltb_lt t s_t)), orb_true_r by lia. by destruct (op_cl _). }
    destruct (IH (t + 1) arg b Hl' Hb) as (st & t' & arg' & b' & E & Hi & Hp). rewrite E. exists st, t', arg', b'. split_and!; [done|lia|].
    replace (s_t - t) with (s_t - (t + 1) + 1) by lia. replace (t' - t) with (t' - (t + 1) + 1) by lia. by rewrite !cursor_next by lia.
  - destruct (tclass_qdisc_piece R s s_t a t arg b Hr HR Ha Hs Hge Hb) as (st & arg' & b' & -> & Hp).
    rewrite cursor_here by lia. destruct st; simpl.
    + exists true, t, arg', b'. rewrite cursor_here, Z.ltb_irrefl by lia. split_and!; [done..|]. by apply piece_stop.
    + apply piece_end in Hp as [Hp _].
      destruct (IH (t + 1) arg' b' Hl' (proj1 Hp)) as (st & t' & arg2 & b2 & E & Hi & Hp2). rewrite E.
      exists st, t', arg2, b2. split_and!; [done|lia|]. rewrite cursor_all in Hp2 by lia.
      replace (t' - t) with (t' - (t + 1) + 1) by lia. rewrite cursor_next by lia. by eapply piece_app.
Qed.

(** The lookup below a root succeeds, and finds objects. *)
Lemma tclass_below_ok s root : reached s → visible s root →
  ∃ l, tclass_below s tcm_parent root = Some l ∧ ∀ a, a ∈ root :: l → is_Some (ns_heap s !! a).
Proof.
  intros Hr Hv. pose proof (reached_live s Hr) as Hl. pose proof (pr_inv (tr_pre (reached_tree _ Hr))) as I.
  assert (∀ a, visible s a → is_Some (ns_heap s !! a)) as Hlive.
  { intros a [->|[(v & Ei & ->)|Ha]]; [by eapply root_held|by eapply sleeping_held; [|apply (sleeping_slot IngressQueue)]|].
    apply Hl, elem_of_app. by right. }
  pose proof (Hlive root Hv) as Hroot. unfold tclass_below. destruct (ns_heap s !! root) as [q|] eqn:Hq; [|by destruct Hroot].
  assert (∀ l, (∀ a, a ∈ l → visible s a) → ∀ a, a ∈ root :: l → is_Some (ns_heap s !! a)) as Hall.
  { intros l Hvl a [->|Ha]%elem_of_cons; auto. }
  case_bool_decide; [exists []; split; [done|]; apply Hall; by intros a ?%elem_of_nil|].
  destruct (negb (tcm_parent =? 0)).
  - destruct (match_from_root_total _ _ _ _ _ _ root (TC_H_MAJ tcm_parent) I) as (o & -> & Ho); [by exists q|done|].
    eexists. split; [done|]. apply Hall. intros a [_ Ha]%list_elem_of_filter. destruct o as [x|]; [|by apply elem_of_nil in Ha].
    apply list_elem_of_singleton in Ha as ->. by destruct (Ho x eq_refl).
  - eexists. split; [done|]. apply Hall. intros a. rewrite hash_for_each_perm. intros Ha. by right; right.
Qed.

Lemma dump_troot_items s root s_t t arg b : reached s → visible s root →
  tc_dump_tclass_root s tcm_parent root s_t t arg b = dump_tclass_qdiscs s tcm_parent s_t (with_below s root) t arg b ∧
  ∀ a, a ∈ with_below s root → is_Some (ns_heap s !! a).
Proof.
  intros Hr Hv. destruct (tclass_below_ok s root Hr Hv) as (l & Hl & Hlive). unfold tc_dump_tclass_root, with_below. rewrite Hl. simpl.
  split; [|done]. destruct (tc_dump_tclass_qdisc s tcm_parent s_t root t arg b) as [[[[ret t'] arg'] b']|]; [|done]. by destruct (ret <? 0).
Qed.

Lemma dump_tclass_items s s_t arg b : reached s →
  dump_tclass_dev s tcm_parent s_t arg b =
    match dump_tclass_qdiscs s tcm_parent s_t (tclass_qdiscs s) 0 arg b with
    | None => None
    | Some (_, t, arg, b) => Some (t, arg, b)
    end ∧
  ∀ a, a ∈ tclass_qdiscs s → is_Some (ns_heap s !! a).
Proof.
  intros Hr. unfold dump_tclass_dev, tclass_qdiscs. rewrite tclass_qdiscs_app.
  destruct (dump_troot_items s (nd_qdisc (ns_dev s)) s_t 0 arg b Hr) as [-> Hl]; [by left|].
  assert (∀ v t arg b, nd_ingress (ns_dev s) = Some v →
    tc_dump_tclass_root s tcm_parent (sl_sleeping v) s_t t arg b = dump_tclass_qdiscs s tcm_parent s_t (with_below s (sl_sleeping v)) t arg b ∧
    ∀ a, a ∈ with_below s (sl_sleeping v) → is_Some (ns_heap s !! a)) as Hi by (intros; apply dump_troot_items; [done|right; left; eauto]).
  split.
  - destruct (dump_tclass_qdiscs _ _ _ _ _ _ _) as [[[[ret t1] arg1] b1]|]; [|done]. destruct (ret <? 0); [done|].
    destruct (nd_ingress (ns_dev s)) as [v|] eqn:Ei; [|done]. by destruct (Hi v t1 arg1 b1 eq_refl) as [-> _].
  - intros a [Ha|Ha]%elem_of_app; [auto|]. destruct (nd_ingress (ns_dev s)) as [v|] eqn:Ei; [|by apply elem_of_nil in Ha].
    by apply (Hi v 0 0 b eq_refl).
Qed.

Lemma tc_dump_tclass_resumes R devs ifindex i s : reached s → classes_fit R s →
  list_find (λ s, nd_ifindex (ns_dev s) = ifindex) devs = Some (i, s) →
  resumes (tc_dump_tclass (Some (ifindex, tcm_parent)) devs) (cursor_rest (class_part s) (tclass_qdiscs s)) R.
Proof.
  intros Hr HR Hf [s_t arg] size Hs. unfold tc_dump_tclass. rewrite Hf. cbn [fst snd].
  destruct (dump_tclass_items s s_t arg (Nlbuf size 0 []) Hr) as [-> Hl].
  destruct (tclass_loop_piece size s s_t (tclass_qdiscs s) 0 arg (Nlbuf size 0 []) Hr) as (st & t' & arg' & b' & -> & _ & Hp).
  - intros a q c cl Ha Hq Hc Hcl. destruct (HR a q c cl Ha Hq Hc Hcl). split; [done|lia].
  - auto.
  - split_and!; simpl; [lia..|done].
  - rewrite !Z.sub_0_r in Hp. by exists (t', arg'), b', st.
Qed.

End classes.

(** C33: A dump of the classes of a device is complete in the same way: the
    datagrams tell about every class of the disciplines asked for, in the order
    of [tclass_qdiscs], and end with [NLMSG_DONE], if no kind refuses to describe
    one of its classes. *)
Theorem class_dump_complete tcm_parent devs ifindex i s allocs R :
  list_find (λ s, nd_ifindex (ns_dev s) = ifindex) devs = Some (i, s) → reached s → classes_fit tcm_parent R s → DONE_SIZE ≤ R →
  Forall (λ o, ∀ n, o = Some n → R ≤ n) allocs → (length (class_list tcm_parent s) < length (omap id allocs))%nat →
  ∃ dgs nlk, recv_all (tc_dump_tclass (Some (ifindex, tcm_parent)) devs) allocs (dump_start (0, 0)) = Some (dgs, nlk) ∧
    nlk_running nlk = false ∧ concat dgs = map Answer (class_list tcm_parent s) ++ [Done 0].
Proof.
  intros Hf Hr HR Hd Hal Hlen. unfold class_list in *. rewrite <- (cursor_start (class_part tcm_parent s)) in *.
  eapply recv_all_complete; [|done..]. by eapply tc_dump_tclass_resumes.
Qed.

End dumps.
