(* ===== verification/Qkinds.v ===== *)
(** * Kinds of queueing disciplines (src/net/sched/sch_generic.c, sch_fifo.c, sch_mq.c, sch_tbf.c, sch_netem.c)

    The [Qdisc_ops] tables of [noop], [noqueue], [pfifo_fast], [pfifo], [bfifo],
    [pfifo_head_drop], [mq], [tbf] and [netem], as kinds of Qtree.v.  Private data
    is that of Fifo.v, PfifoFast.v, Tbf.v and Netem.v, with the addresses of the
    children in the place of queues; what an operation does to other objects is a
    program of calls into the core. *)

From Stdlib Require Import ZArith Lia.
From stdpp Require Import base numbers list gmap option strings.
From S2P Require Import Prelude Sched Tbf Fifo PfifoFast NetemRand Netem NetemConf NetemTheorems.
From S2P Require Import Stab Qtree Qapi.

Open Scope Z_scope.

Inductive qkind := Noop_k | Noqueue_k | Pfifo_fast_k | Pfifo_k | Bfifo_k | Pfifo_head_drop_k | Mq_k | Tbf_k | Netem_k.

#[export] Instance qkind_eq_dec : EqDecision qkind.
Proof. solve_decision. Defined.

(** [qdisc_priv(sch)]; a FIFO has none, but its limit is in its [struct Qdisc].
    [Mq_priv]: the entries of [priv->qdiscs] that are not NULL, or [None] if it is
    NULL. *)
Inductive qpriv (A : Type) :=
| No_priv
| Fifo_priv (f : fifo)
| Fast_priv (q : pfifo_fast A)
| Mq_priv (qdiscs : option (list Z))
| Tbf_priv (q : tbf_sched_data Z)
| Netem_priv (q : netem Z).
Arguments No_priv {A}.
Arguments Fifo_priv {A} f.
Arguments Fast_priv {A} q.
Arguments Mq_priv {A} qdiscs.
Arguments Tbf_priv {A} q.
Arguments Netem_priv {A} q.

(** The errors of [nla_parse]. *)
Inductive nla_err := Nla_inval | Nla_range.

Definition nla_code (e : nla_err) : Z := match e with Nla_inval => - EINVAL | Nla_range => - ERANGE end.

(** TCA_OPTIONS, as the kinds read it: the length and first word; the attributes
    nested in it; the structure and the attributes that follow it. *)
Record qopts := Qopts {
  as_fifo : Z * Z;
  as_tbf : nla_err + tbf_tb;
  as_netem : nla_err + tc_netem_qopt * netem_tb;
}.

Definition no_flags : qflags := Qflags false false false false false false false false.

Section kinds.
Context `{KernelHeaders} `{SkbQueue} {A : Type} `{SkbArray A}.
Context `{NetemHeaders} `{NetemEnv} `{ReciprocalDiv} `{ChildQdisc Z}.

(** The [qdisc_priv] of a [pfifo_fast] before its [init]; [psched_mtu] of the
    device; the rate tables of other disciplines; bounds on the loops that empty
    a ring and a tree of packets; whether [tbf_change] fills the bucket. *)
Context (rings0 : list A) (psched_mtu : Z) (rtabs : list qdisc_rate_table) (drain_fuel tree_fuel : nat) (refill : bool).

Notation P := (qpriv A).
Notation prog := (prog qkind P).
Notation class_ops := (Qdisc_class_ops P qopts).

(** A result that touches only the private data. *)
Definition done (err : Z) (p : P) : prog := Ret (Ans err p false false).

(** A null pointer is followed. *)
Definition crash : prog := DevGraft NoopQueue noop_qdisc (λ _, done 0 No_priv).

Fixpoint put_all (l : list Z) (c : prog) : prog :=
  match l with
  | [] => c
  | a :: l => QdiscPut a (put_all l c)
  end.

(** ** noop, noqueue *)

Definition noqueue_init (me : self qkind) (o : option qopts) : prog := Ret (Ans 0 No_priv false true).

(** ** pfifo, bfifo, pfifo_head_drop *)

Definition fifo0 (k : fifo_ops) : fifo :=
  {| f_ops := k; f_limit := 0; f_bypass := false; f_handle := 0;
     f_head := {| sh_list := []; sh_qlen := 0; sh_qstats := {| gq_backlog := 0; gq_drops := 0; gq_overlimits := 0 |} |} |}.

Definition fifo_op_init (k : fifo_ops) (me : self qkind) (o : option qopts) : prog :=
  let '(err, f) := fifo_init (sf_tx_queue_len me) psched_mtu (as_fifo <$> o) (fifo0 k) in done err (Fifo_priv f).

Definition fifo_op_change (me : self qkind) (p : P) (o : qopts) : prog :=
  match p with
  | Fifo_priv f => let '(err, f) := fifo_init (sf_tx_queue_len me) psched_mtu (Some (as_fifo o)) f in done err (Fifo_priv f)
  | _ => crash
  end.

(** [change], from [fifo_set_limit]. *)
Definition fifo_op_limit (limit : Z) (p : P) : Z * P :=
  match p with
  | Fifo_priv f => let '(err, f) := fifo_init 0 psched_mtu (Some (4, limit)) f in (err, Fifo_priv f)
  | _ => (0, p)
  end.

Definition fifo_op_reset (now : Z) (p : P) : P * list Z :=
  match p with
  | Fifo_priv f => (Fifo_priv (set_head (qdisc_reset_queue (f_head f)) f), [])
  | _ => (p, [])
  end.

(** [fifo_create_dflt(sch, &bfifo_qdisc_ops, limit)]: an error or the address. *)
Definition fifo_create_dflt_call (me : self qkind) (limit : Z) (c : Z + Z → prog) : prog :=
  CreateDflt (sf_queue me) Bfifo_k (TC_H_MAKE (sf_handle me) 1) (λ o,
    match o with
    | None => c (inl (- ENOMEM))
    | Some a => SetLimit a limit (λ err, if err <? 0 then QdiscPut a (c (inl err)) else c (inr a))
    end).

(** ** pfifo_fast *)

Definition fast0 : pfifo_fast A := Pfifo_fast rings0 0 0 0 0 0 false.

Definition fast_op_init (me : self qkind) (o : option qopts) : prog :=
  let '(err, q) := pfifo_fast_init (sf_tx_queue_len me) fast0 in done err (Fast_priv q).

Definition fast_op_reset (now : Z) (p : P) : P * list Z :=
  match p with
  | Fast_priv q => (match pfifo_fast_reset drain_fuel q with Some (q, _) => Fast_priv q | None => p end, [])
  | _ => (p, [])
  end.

Definition fast_op_destroy (me : self qkind) (p : P) : prog :=
  match p with
  | Fast_priv q => done 0 (Fast_priv (pfifo_fast_destroy q))
  | _ => crash
  end.

Definition fast_op_tx_len (len : Z) (p : P) : Z * P :=
  match p with
  | Fast_priv q => let '(err, q, _) := pfifo_fast_change_tx_queue_len len q in (err, Fast_priv q)
  | _ => (0, p)
  end.

(** ** mq *)

(** The queues [ntx], [ntx + 1], ...; [l] are the children made so far. *)
Fixpoint mq_make (me : self qkind) (ntx todo : nat) (l : list Z) : prog :=
  match todo with
  | O => Ret (Ans 0 (Mq_priv (Some l)) true false)
  | S todo =>
      CreateDflt (TxQueue ntx) (sf_default me ntx)
        (TC_H_MAKE (TC_H_MAJ (sf_handle me)) (TC_H_MIN (Z.of_nat ntx + 1))) (λ o,
        match o with
        | None => done (- ENOMEM) (Mq_priv (Some l))
        | Some a => TxFlags a (mq_make me (S ntx) todo (l ++ [a]))
        end)
  end.

Definition mq_init (me : self qkind) (o : option qopts) : prog :=
  if negb (sf_parent me =? TC_H_ROOT) then done (- EOPNOTSUPP) (Mq_priv None)
  else if negb (sf_multiqueue me) then done (- EOPNOTSUPP) (Mq_priv None)
  else Alloc (λ ok, if ok then mq_make me 0 (sf_num_tx me) [] else done (- ENOMEM) (Mq_priv None)).

Definition mq_destroy (me : self qkind) (p : P) : prog :=
  match p with
  | Mq_priv (Some l) => put_all l (done 0 (Mq_priv None))
  | Mq_priv None => done 0 (Mq_priv None)
  | _ => crash
  end.

(** [qdisc->dev_queue] is the queue for which [mq_init] made it. *)
Fixpoint mq_attach_from (me : self qkind) (ntx todo : nat) (l : list Z) : prog :=
  match todo with
  | O => done 0 (Mq_priv None)
  | S todo =>
      match l with
      | [] => crash
      | a :: l =>
          DevGraft (TxQueue ntx) a (λ old, QdiscPut old
            (if bool_decide (ntx < sf_real_num_tx me)%nat
             then HashAdd a false (mq_attach_from me (S ntx) todo l)
             else mq_attach_from me (S ntx) todo l))
      end
  end.

Definition mq_attach (me : self qkind) (p : P) : prog :=
  match p with
  | Mq_priv (Some l) => mq_attach_from me 0 (sf_num_tx me) l
  | Mq_priv None => mq_attach_from me 0 (sf_num_tx me) []
  | _ => crash
  end.

Definition mq_queue_get (num_tx : nat) (cl : Z) : option queue :=
  let ntx := u64 (cl - 1) in
  if Z.of_nat num_tx <=? ntx then None else Some (TxQueue (Z.to_nat ntx)).

(** The result of [mq_queue_get] is used unseen. *)
Definition mq_queue (num_tx : nat) (cl : Z) : queue := default NoopQueue (mq_queue_get num_tx cl).

Definition mq_select_queue (num_tx : nat) (parent : Z) : option queue := mq_queue_get num_tx (TC_H_MIN parent).

Definition mq_find (num_tx : nat) (p : P) (classid : Z) : Z :=
  let ntx := TC_H_MIN classid in
  match mq_queue_get num_tx ntx with None => 0 | Some _ => ntx end.

Definition mq_class_ops : class_ops := {|
  cl_select_queue := Some mq_select_queue;
  cl_graft := Some (λ num_tx p cl new, GraftQueue (mq_queue num_tx cl));
  cl_leaf num_tx p cl := Some (OfQueue (mq_queue num_tx cl));
  cl_find := mq_find;
  cl_walk num_tx p := map (λ ntx, Z.of_nat ntx + 1) (seq 0 num_tx);
  cl_dump num_tx p cl ph := Some (TC_H_ROOT, Z.lor ph.2 (TC_H_MIN cl), OfQueue (mq_queue num_tx cl));
  cl_change := None;
  cl_delete := None;
  cl_has_block := false;
|}.

(** ** tbf *)

Definition tbf0 : tbf_sched_data Z :=
  {| limit := 0; max_size := 0; buffer := 0; mtu := 0; rate := ratecfg_zero; peak := ratecfg_zero; tokens := 0; ptokens := 0;
     t_c := 0; qdisc := Tbf.Noop; watchdog := {| wd_last_expires := 0; wd_timer := None |} |}.

(** [q->qdisc], which may be [&noop_qdisc]. *)
Definition ptr_of (i : inner Z) : Z := match i with Tbf.Noop => noop_qdisc | Tbf.Child c => c end.

(** Once the parameters are known to be good. *)
Definition tbf_op_install (me : self qkind) (q : tbf_sched_data Z) (p : tbf_params) (qopt : tc_tbf_qopt) (tb : tbf_tb) : prog :=
  match qdisc q with
  | Tbf.Child c =>
      SetLimit c (qopt_limit qopt) (λ err,
        if negb (err =? 0) then done err (Tbf_priv q) else done 0 (Tbf_priv (tbf_install refill p qopt tb (Tbf.Child c) q)))
  | Tbf.Noop =>
      if 0 <? qopt_limit qopt then
        fifo_create_dflt_call me (qopt_limit qopt) (λ r,
          match r with
          | inl err => done err (Tbf_priv q)
          | inr a => HashAdd a true (QdiscPut noop_qdisc (done 0 (Tbf_priv (tbf_install refill p qopt tb (Tbf.Child a) q))))
          end)
      else done 0 (Tbf_priv (tbf_install refill p qopt tb Tbf.Noop q))
  end.

(** Where [qdisc_get_rtab] may put a table. *)
Definition rtab_memory (ok : bool) : option Z := if ok then Some 0 else None.

Definition tbf_op_set (me : self qkind) (q : tbf_sched_data Z) (o : nla_err + tbf_tb) : prog :=
  match o with
  | inl e => done (nla_code e) (Tbf_priv q)
  | inr tb =>
      match tb_parms tb with
      | None => done (- EINVAL) (Tbf_priv q)
      | Some qopt =>
          Alloc (λ ok1, Alloc (λ ok2,
            let '(rtabs, rate_spec) := touch_rtab (rtab_memory ok1) (qopt_rate qopt) (tb_rtab tb) rtabs in
            let '(_, peak_spec) := touch_rtab (rtab_memory ok2) (qopt_peakrate qopt) (tb_ptab tb) rtabs in
            match tbf_params_of rate_spec peak_spec qopt tb with
            | inl err => done err (Tbf_priv q)
            | inr p => if pr_max_size p =? 0 then done (- EINVAL) (Tbf_priv q) else tbf_op_install me q p qopt tb
            end))
      end
  end.

Definition tbf_op_init (me : self qkind) (o : option qopts) : prog :=
  let q := set_qdisc Tbf.Noop (set_watchdog (qdisc_watchdog_init (watchdog tbf0)) tbf0) in
  match o with
  | None => done (- EINVAL) (Tbf_priv q)
  | Some o => tbf_op_set me (set_bucket (tokens q) (ptokens q) (sf_now me) q) (as_tbf o)
  end.

Definition tbf_op_change (me : self qkind) (p : P) (o : qopts) : prog :=
  match p with
  | Tbf_priv q => tbf_op_set me q (as_tbf o)
  | _ => crash
  end.

Definition tbf_op_reset (now : Z) (p : P) : P * list Z :=
  match p with
  | Tbf_priv q =>
      (Tbf_priv (set_watchdog (qdisc_watchdog_cancel (watchdog q)) (set_bucket (buffer q) (mtu q) now q)), [ptr_of (qdisc q)])
  | _ => (p, [])
  end.

Definition tbf_op_destroy (me : self qkind) (p : P) : prog :=
  match p with
  | Tbf_priv q =>
      QdiscPut (ptr_of (qdisc q)) (done 0 (Tbf_priv (set_watchdog (qdisc_watchdog_cancel (watchdog q)) q)))
  | _ => crash
  end.

Definition tbf_op_graft (num_tx : nat) (p : P) (cl : Z) (new : option Z) : graft_act P :=
  match p with
  | Tbf_priv q =>
      GraftSlot (Some (ptr_of (qdisc q)))
        (Tbf_priv (set_qdisc (match new with None => Tbf.Noop | Some a => Tbf.Child a end) q))
  | _ => GraftErr (- EINVAL)
  end.

Definition tbf_class_ops : class_ops := {|
  cl_select_queue := None;
  cl_graft := Some tbf_op_graft;
  cl_leaf num_tx p cl := match p with Tbf_priv q => Some (Child (ptr_of (qdisc q))) | _ => None end;
  cl_find num_tx p classid := tbf_find classid;
  cl_walk num_tx p := [1];
  cl_dump num_tx p cl ph :=
    match p with Tbf_priv q => Some (ph.1, Z.lor ph.2 (TC_H_MIN 1), Child (ptr_of (qdisc q))) | _ => None end;
  cl_change := None;
  cl_delete := None;
  cl_has_block := false;
|}.

(** ** netem *)

Definition netem_opt (o : qopts) : option (Z + tc_netem_qopt * netem_tb) :=
  Some (match as_netem o with inl e => inl (nla_code e) | inr x => inr x end).

(** The private data after a computation of Netem.v. *)
Definition netem_call {X} (m : M (netem Z) X) (q : netem Z) (c : X → netem Z → prog) : prog :=
  match m q with Some (x, q) => c x q | None => crash end.

Definition netem_op_init (me : self qkind) (o : option qopts) : prog :=
  netem_call (netem_init (o ≫= netem_opt)) (netem_zero Z) (λ err q, done err (Netem_priv q)).

Definition netem_op_change (me : self qkind) (p : P) (o : qopts) : prog :=
  match p with
  | Netem_priv q => netem_call (netem_change (netem_opt o)) q (λ err q, done err (Netem_priv q))
  | _ => crash
  end.

(** The child is reset by the core. *)
Definition netem_op_reset (now : Z) (p : P) : P * list Z :=
  match p with
  | Netem_priv q =>
      (match netem_reset tree_fuel (upd_child (λ _, None) q) with
       | Some (_, q') => Netem_priv (upd_child (λ _, nm_child q) q')
       | None => p
       end, option_list (nm_child q))
  | _ => (p, [])
  end.

Definition netem_op_destroy (me : self qkind) (p : P) : prog :=
  match p with
  | Netem_priv q => put_all (option_list (nm_child q)) (netem_call netem_destroy q (λ _ q, done 0 (Netem_priv q)))
  | _ => crash
  end.

Definition netem_op_graft (num_tx : nat) (p : P) (cl : Z) (new : option Z) : graft_act P :=
  match p with
  | Netem_priv q => GraftSlot (nm_child q) (Netem_priv (upd_child (λ _, new) q))
  | _ => GraftErr (- EINVAL)
  end.

Definition netem_class_ops : class_ops := {|
  cl_select_queue := None;
  cl_graft := Some netem_op_graft;
  cl_leaf num_tx p cl := match p with Netem_priv q => Child <$> nm_child q | _ => None end;
  cl_find num_tx p classid := netem_find classid;
  cl_walk num_tx p := [1];
  cl_dump num_tx p cl ph :=
    match p with
    | Netem_priv q => if negb (cl =? 1) then None else c ← nm_child q; Some (ph.1, Z.lor ph.2 (TC_H_MIN 1), Child c)
    | _ => None
    end;
  cl_change := None;
  cl_delete := None;
  cl_has_block := false;
|}.

(** ** The tables *)

(** Module 0 is the kernel itself. *)
Definition noop_qdisc_ops : Qdisc_ops qkind P qopts := {|
  op_id := "noop"; op_has_peek := true; op_has_dequeue := true; op_owner := 0; op_static_flags := no_flags; op_priv0 := No_priv;
  op_init := None; op_change := None; op_reset := None; op_destroy := None; op_attach := None; op_limit := None;
  op_ingress_block_set := None; op_egress_block_set := None; op_change_tx_queue_len := None; op_cl := None |}.

Definition fifo_qdisc_ops (id : string) (k : fifo_ops) : Qdisc_ops qkind P qopts := {|
  op_id := id; op_has_peek := true; op_has_dequeue := true; op_owner := 0; op_static_flags := no_flags;
  op_priv0 := Fifo_priv (fifo0 k); op_init := Some (fifo_op_init k); op_change := Some fifo_op_change;
  op_reset := Some fifo_op_reset; op_destroy := None; op_attach := None; op_limit := Some fifo_op_limit;
  op_ingress_block_set := None; op_egress_block_set := None; op_change_tx_queue_len := None; op_cl := None |}.

Definition noqueue_qdisc_ops : Qdisc_ops qkind P qopts := {|
  op_id := "noqueue"; op_has_peek := true; op_has_dequeue := true; op_owner := 0; op_static_flags := no_flags; op_priv0 := No_priv;
  op_init := Some noqueue_init; op_change := None; op_reset := None; op_destroy := None; op_attach := None; op_limit := None;
  op_ingress_block_set := None; op_egress_block_set := None; op_change_tx_queue_len := None; op_cl := None |}.

Definition pfifo_fast_ops : Qdisc_ops qkind P qopts := {|
  op_id := "pfifo_fast"; op_has_peek := true; op_has_dequeue := true; op_owner := 0;
  op_static_flags := Qflags false false true false false false false true; op_priv0 := Fast_priv fast0;
  op_init := Some fast_op_init; op_change := None; op_reset := Some fast_op_reset; op_destroy := Some fast_op_destroy;
  op_attach := None; op_limit := None; op_ingress_block_set := None; op_egress_block_set := None;
  op_change_tx_queue_len := Some fast_op_tx_len; op_cl := None |}.

Definition mq_qdisc_ops : Qdisc_ops qkind P qopts := {|
  op_id := "mq"; op_has_peek := false; op_has_dequeue := false; op_owner := 0; op_static_flags := no_flags; op_priv0 := Mq_priv None;
  op_init := Some mq_init; op_change := None; op_reset := None; op_destroy := Some mq_destroy; op_attach := Some mq_attach;
  op_limit := None; op_ingress_block_set := None; op_egress_block_set := None; op_change_tx_queue_len := None;
  op_cl := Some mq_class_ops |}.

(** [sch_tbf] and [sch_netem] are modules. *)
Definition tbf_qdisc_ops : Qdisc_ops qkind P qopts := {|
  op_id := "tbf"; op_has_peek := true; op_has_dequeue := true; op_owner := 1; op_static_flags := no_flags; op_priv0 := Tbf_priv tbf0;
  op_init := Some tbf_op_init; op_change := Some tbf_op_change; op_reset := Some tbf_op_reset; op_destroy := Some tbf_op_destroy;
  op_attach := None; op_limit := None; op_ingress_block_set := None; op_egress_block_set := None;
  op_change_tx_queue_len := None; op_cl := Some tbf_class_ops |}.

Definition netem_qdisc_ops : Qdisc_ops qkind P qopts := {|
  op_id := "netem"; op_has_peek := true; op_has_dequeue := true; op_owner := 2; op_static_flags := no_flags;
  op_priv0 := Netem_priv (netem_zero Z);
  op_init := Some netem_op_init; op_change := Some netem_op_change; op_reset := Some netem_op_reset;
  op_destroy := Some netem_op_destroy; op_attach := None; op_limit := None; op_ingress_block_set := None;
  op_egress_block_set := None; op_change_tx_queue_len := None; op_cl := Some netem_class_ops |}.

Definition ops_of (k : qkind) : Qdisc_ops qkind P qopts :=
  match k with
  | Noop_k => noop_qdisc_ops
  | Noqueue_k => noqueue_qdisc_ops
  | Pfifo_fast_k => pfifo_fast_ops
  | Pfifo_k => fifo_qdisc_ops "pfifo" Pfifo
  | Bfifo_k => fifo_qdisc_ops "bfifo" Bfifo
  | Pfifo_head_drop_k => fifo_qdisc_ops "pfifo_head_drop" PfifoHeadDrop
  | Mq_k => mq_qdisc_ops
  | Tbf_k => tbf_qdisc_ops
  | Netem_k => netem_qdisc_ops
  end.

#[global] Instance kernel_kinds : QdiscKinds qkind P qopts := {|
  ops := ops_of;
  noop_ops := Noop_k;
  noqueue_ops := Noqueue_k;
  mq_ops := Mq_k;
|}.

End kinds.
