(* ===== verification/QkindsOk.v ===== *)
(** * The kinds keep the discipline of references

    The programs of Qkinds.v are typable in the linear type system of QtreeInv.v,
    so every theorem of QapiSafe.v holds of a device whose disciplines are of these
    kinds. *)

From Stdlib Require Import ZArith Lia.
From stdpp Require Import base numbers list gmap option strings.
From S2P Require Import Prelude Sched Tbf Fifo PfifoFast NetemRand Netem NetemConf NetemTheorems.
From S2P Require Import Stab Qtree QtreeInv Qapi Qkinds.

Open Scope Z_scope.

(** ** References *)

Section refs.
Context {A : Type}.

(** [&noop_qdisc] is not counted. *)
Definition priv_children (p : qpriv A) : list Z :=
  match p with
  | Mq_priv (Some l) => l
  | Tbf_priv q => match qdisc q with Tbf.Noop => [] | Tbf.Child c => [c] end
  | Netem_priv q => option_list (nm_child q)
  | _ => []
  end.

(** Before [mq_attach], the children of [mq] are not in the hash table. *)
Definition priv_unhashed (p : qpriv A) : list Z := match p with Mq_priv (Some l) => l | _ => [] end.

Definition priv_fits (k : qkind) (p : qpriv A) : Prop :=
  match k, p with
  | (Noop_k | Noqueue_k), No_priv => True
  | (Pfifo_k | Bfifo_k | Pfifo_head_drop_k), Fifo_priv _ => True
  | Pfifo_fast_k, Fast_priv _ => True
  | Mq_k, Mq_priv _ => True
  | Tbf_k, Tbf_priv _ => True
  | Netem_k, Netem_priv _ => True
  | _, _ => False
  end.

#[global] Instance kernel_refs : KindRefs (kind := qkind) (P := qpriv A).
Proof.
  refine {| children := priv_children; unhashed := priv_unhashed; fits := priv_fits |}.
  intros [| | |[l|]| |] b; simpl; try done; by intros ?%elem_of_nil.
Defined.

End refs.

(** ** The errors of netem *)

Section netem_errors.
Context `{KernelHeaders} `{NetemHeaders} `{NetemEnv} `{ReciprocalDiv} `{ChildQdisc Z}.
Implicit Types s : netem Z.

Lemma get_loss_clg_err attrs s r s' : get_loss_clg attrs s = Some (r, s') → r = 0 ∨ r = - EINVAL.
Proof.
  revert s. induction attrs as [|[] attrs IH]; intros s; cbn [get_loss_clg]; try (by intros [= <- <-]; auto).
  all: case_match; [intros [= <- <-]; auto|]; unfold cbind, Netem.modify; apply IH.
Qed.

Lemma change_dist_err o set s r s' : change_dist o set s = Some (r, s') → r = 0 ∨ r = - EINVAL ∨ r = - ENOMEM.
Proof.
  destruct o as [d|]; simpl; [|intros [= <- <-]; auto]. unfold cbind, get_dist_table, Netem.modify. destruct (NETEM_DIST_MAX <? _); simpl; [intros [= <- <-]; auto|].
  unfold cbind, next. simpl. destruct (malloc_at _); simpl; intros [= <- <-]; auto.
Qed.

Lemma netem_change_err e s r s' : netem_change (Some e) s = Some (r, s') → (∀ err, e = inl err → err ≠ - EAGAIN) → r ≠ - EAGAIN.
Proof.
  intros Hc He. destruct e as [err|[qopt tb]]; [injection Hc as <- _; by apply He|]. cbn [netem_change] in Hc.
  unfold cbind at 1 2, cfg, Netem.gets in Hc. cbv beta iota in Hc. unfold cbind at 1 in Hc.
  match type of Hc with match ?m s with _ => _ end = _ => destruct (m s) as [[r1 s1]|] eqn:E1; [|done] end.
  assert (r1 = 0 ∨ r1 = - EINVAL) as Hr1.
  { destruct (tb_loss tb); [by eapply get_loss_clg_err|]. injection E1 as <- _. auto. }
  destruct (Z.eqb_spec r1 0); simpl in Hc; [|injection Hc as <- _; destruct Hr1; by subst]. unfold cbind at 1 in Hc.
  destruct (change_dists tb s1) as [[r2 s2]|] eqn:E2; [|done]. assert (r2 = 0 ∨ r2 = - EINVAL ∨ r2 = - ENOMEM) as Hr2.
  { unfold change_dists, cbind in E2. destruct (change_dist (tb_delay_dist tb) _ s1) as [[r3 s3]|] eqn:E3; [|done].
    apply change_dist_err in E3. destruct (negb _); [injection E2 as <- _; auto|by eapply change_dist_err]. }
  destruct (Z.eqb_spec r2 0); simpl in Hc; [|injection Hc as <- _; by destruct Hr2 as [|[|]]; subst]. unfold cbind in Hc.
  destruct (netem_install qopt tb s2) as [[? ?]|]; [|done]. by injection Hc as <- _.
Qed.

(** The result of a change: the child stays. *)
Lemma netem_change_result o s : ∃ r s', netem_change (netem_opt o) s = Some (r, s') ∧ nm_child s' = nm_child s ∧ r ≠ - EAGAIN.
Proof.
  destruct (netem_change_spec (netem_opt o) s) as (r & s' & Hc & Hq & _). exists r, s'. split_and!; [done|by destruct Hq|].
  eapply netem_change_err; [exact Hc|]. intros err. destruct (as_netem o) as [[]|]; by intros [= <-].
Qed.

Lemma netem_init_result o : ∃ r s', netem_init (o ≫= netem_opt) (netem_zero Z) = Some (r, s') ∧ nm_child s' = None ∧ r ≠ - EAGAIN.
Proof.
  unfold netem_init, cbind, Netem.modify. destruct o as [o|]; simpl; [|by eexists _, _].
  destruct (netem_change_result o (upd_cfg (cfg_set_loss_model CLG_RANDOM) (upd_watchdog qdisc_watchdog_init (netem_zero Z)))) as (r & s' & Hc & Hch & Hr).
  exists r, s'. by split_and!.
Qed.

End netem_errors.

(** ** Derivations *)

Section typing.
Context `{KernelHeaders} `{SkbQueue} {A : Type} `{SkbArray A}.
Context `{NetemHeaders} `{NetemEnv} `{ReciprocalDiv} `{ChildQdisc Z}.
Context (rings0 : list A) (psched_mtu : Z) (rtabs : list qdisc_rate_table) (drain_fuel tree_fuel : nat) (refill : bool).
Notation P := (qpriv A).

#[local] Instance the_kinds : QdiscKinds qkind P qopts := kernel_kinds rings0 psched_mtu rtabs drain_fuel tree_fuel refill.

Context `{!NetEnv qkind P}.

(** Nothing is created below a default object that is not a root. *)
Definition kernel_rank (k : qkind) : nat := 0.

Abbreviation own V rk g L := (owns kernel_rank V rk g L).

Lemma owns_mono V rk g L X U G T (p : prog qkind P) (Q Q' : ans P → list Z → list Z → Prop) :
  own V rk g L X U G T p Q → (∀ r Y W, Q r Y W → Q' r Y W) → own V rk g L X U G T p Q'.
Proof.
  intros Ho. revert Q'. induction Ho; intros Q' HQ;
    [apply ow_ret|eapply ow_create|eapply ow_put|apply ow_put_noop|eapply ow_hash|apply ow_limit|apply ow_flags|eapply ow_graft|apply ow_alloc]; eauto.
Qed.

Lemma put_all_owns V L l c Q : (∀ b, b ∈ l → b ∈ L → b = noop_qdisc) →
  own V 0 false L [] [] [] [] c Q → own V 0 false L l [] [] [] (put_all l c) Q.
Proof.
  induction l as [|a l IH]; intros Hl Hc; simpl; [done|]. eapply (ow_put _ _ _ _ _ _ l _ [] _ _ []); [done|done|by intros ? ?%elem_of_nil..|apply Hl; by left|].
  apply IH; [|done]. intros b Hb. apply Hl. by right.
Qed.

(** ** mq *)

Lemma mq_queue_get_some n cl dq : mq_queue_get n cl = Some dq → ∃ i, dq = TxQueue i ∧ (i < n)%nat.
Proof.
  unfold mq_queue_get. pose proof (Z.mod_pos_bound (cl - 1) (2 ^ 64)) as Hb. unfold u64. destruct (Z.leb_spec (Z.of_nat n) ((cl - 1) mod 2 ^ 64)); [done|].
  intros [= <-]. eexists. split; [done|]. lia.
Qed.

Lemma mq_find_some n (p : P) id cl : mq_find n p id = cl → cl ≠ 0 → ∃ i, mq_queue n cl = TxQueue i ∧ (i < n)%nat.
Proof.
  unfold mq_find, mq_queue. destruct (mq_queue_get n (TC_H_MIN id)) as [dq|] eqn:E; [|by intros <-]. intros <- _. rewrite E.
  by eapply mq_queue_get_some.
Qed.

Lemma mq_walk_some n cl : cl ∈ map (λ ntx, Z.of_nat ntx + 1) (seq 0 n) → ∃ i, mq_queue n cl = TxQueue i ∧ (i < n)%nat.
Proof.
  intros (i & -> & Hi%elem_of_seq)%list_elem_of_fmap. unfold mq_queue, mq_queue_get, u64. replace (Z.of_nat i + 1 - 1) with (Z.of_nat i) by lia.
  pose proof (Z.mod_pos_bound (Z.of_nat i) (2 ^ 64)). pose proof (Z.mod_le (Z.of_nat i) (2 ^ 64)).
  destruct (Z.leb_spec (Z.of_nat n) (Z.of_nat i mod 2 ^ 64)); [lia|]. eexists. split; [done|]. lia.
Qed.

(** The children of [mq] are no roots. *)
Lemma mq_parentid h ntx : 0 ≤ ntx < 65534 → TC_H_MAKE (TC_H_MAJ h) (TC_H_MIN (ntx + 1)) ≠ TC_H_ROOT.
Proof.
  intros Hn E. assert (Z.land (TC_H_MAKE (TC_H_MAJ h) (TC_H_MIN (ntx + 1))) 65535 = ntx + 1) as E1.
  { unfold TC_H_MAKE, TC_H_MIN, TC_H_MAJ. rewrite Z.land_lor_distr_l, <- !Z.land_assoc. change (Z.land 4294901760 (Z.land 4294901760 65535)) with 0.
    change (Z.land 65535 (Z.land 65535 65535)) with (Z.ones 16). rewrite Z.land_0_r, Z.lor_0_l, Z.land_ones by done. apply Z.mod_small. lia. }
  rewrite E in E1. change (Z.land TC_H_ROOT 65535) with 65535 in E1. lia.
Qed.

Definition init_post (k : qkind) (me : self qkind) (L : gset Z) (r : ans P) (X U : list Z) : Prop :=
  leaves k r X U ∧ (∀ b, b ∈ X → b ∈ L → b = noop_qdisc) ∧ an_err r ≠ - EAGAIN ∧
  (an_err r = 0 → (op_attach (ops k) = None ∧ unhashed (an_priv r) = []) ∨
    (is_Some (op_attach (ops k)) ∧ sf_parent me = TC_H_ROOT ∧ sf_multiqueue me = true ∧ length (children (an_priv r)) = sf_num_tx me)).

Lemma mq_make_owns V L me todo : sees V me → sf_parent me = TC_H_ROOT → sf_multiqueue me = true →
  ∀ ntx l X U T, (ntx + todo = sf_num_tx me)%nat → length l = ntx → X ≡ₚ l → U ≡ₚ l → (∀ b, b ∈ l → b ∉ L) →
  own V 1 false L X U [] T (mq_make me ntx todo l) (init_post Mq_k me L).
Proof.
  intros (Vq & Vi & Vn) Hp Hm. induction todo as [|todo IH]; intros ntx l X U T Hn Hl HX HU HL; simpl.
  - apply ow_ret. split_and!; simpl; [|intros b; rewrite HX; intros Hb ?; by destruct (HL b Hb)|done|].
    + split_and!; simpl; [by rewrite HX|by rewrite HU|done].
    + intros _. right. split_and!; [by eexists|done..|lia].
  - apply ow_create; [apply Vi; lia|unfold kernel_rank; lia|apply mq_parentid; lia| |].
    + apply ow_ret. split_and!; simpl; [|intros b; rewrite HX; intros Hb ?; by destruct (HL b Hb)|done|done].
      split_and!; simpl; [by rewrite HX|by rewrite HU|done].
    + intros a HaL Ha. apply ow_flags; [by left|]. apply IH; [lia|rewrite length_app; simpl; lia|rewrite HX; apply Permutation_cons_append|rewrite HU; apply Permutation_cons_append|].
      intros b [Hb| ->%list_elem_of_singleton]%elem_of_app; [by apply HL|done].
Qed.

Lemma mq_init_owns V L me o : sees V me → ∃ rk, (sf_parent me ≠ TC_H_ROOT → rk = 0%nat) ∧
  own V rk false L [] [] [] [] (mq_init me o) (init_post Mq_k me L).
Proof.
  intros Hs. assert (∀ rk err, err ≠ 0 → err ≠ - EAGAIN → own V rk false L [] [] [] [] (done err (Mq_priv None)) (init_post Mq_k me L)) as Herr.
  { intros rk err E0 E1. apply ow_ret. split_and!; simpl; [by split_and!|by intros ? ?%elem_of_nil|done|done]. }
  unfold mq_init. destruct (Z.eqb_spec (sf_parent me) TC_H_ROOT) as [Hp|Hp]; simpl; [|exists 0%nat; split; [done|by apply Herr]].
  exists 1%nat. split; [done|]. destruct (sf_multiqueue me) eqn:Hm; simpl; [|by apply Herr]. apply ow_alloc. intros [|]; [|by apply Herr].
  apply mq_make_owns; [done..|by intros ? ?%elem_of_nil].
Qed.

Lemma mq_attach_owns V L me todo : (∀ i, (i < sf_num_tx me)%nat → V (TxQueue i)) →
  ∀ ntx l U G, (ntx + todo = sf_num_tx me)%nat → length l = todo → l ⊆+ U → (∀ b, b ∈ l → b ∈ L → b = noop_qdisc) →
  own V 0 true L l U G [] (mq_attach_from me ntx todo l) (λ r X _, X = [] ∧ children (an_priv r) = [] ∧ fits Mq_k (an_priv r)).
Proof.
  intros Vi. induction todo as [|todo IH]; intros ntx l U G Hn Hl HU HL; simpl.
  - apply nil_length_inv in Hl as ->. by apply ow_ret.
  - destruct l as [|a l]; [done|]. injection Hl as Hl.
    assert (∀ b, b ∈ a :: l → b ∈ l ++ [a]) as Hin by (intros b; rewrite elem_of_app, elem_of_cons, list_elem_of_singleton; tauto).
    eapply (ow_graft _ _ _ _ _ _ l _ (a :: l) _ _ []); [done|apply Vi; lia|by eexists|done|done|done|by intros ? ?%elem_of_nil|apply HL; by left|].
    intros old Hold. eapply (ow_put _ _ _ _ _ _ l _ (a :: l) _ _ []); [done|done|done|by intros ? ?%elem_of_nil|done|].
    assert (∀ b, b ∈ l → b ∈ L → b = noop_qdisc) as HL' by (intros b Hb; apply HL; by right).
    case_bool_decide; [apply (ow_hash _ _ _ _ _ _ _ l); [done|]|]; apply IH; try done; [lia..|by apply submseteq_cons].
Qed.

(** ** tbf *)

Lemma tbf_params_err r p qopt tb err : tbf_params_of r p qopt tb = inl err → err = - EINVAL.
Proof. unfold tbf_params_of. repeat case_match; congruence. Qed.

Definition change_post (k : qkind) (L : gset Z) (r : ans P) (X U : list Z) : Prop :=
  leaves k r X U ∧ unhashed (an_priv r) = [] ∧ (∀ b, b ∈ X → b ∈ L → b = noop_qdisc) ∧ an_err r ≠ - EAGAIN.

Lemma tbf_keep_owns V L U G T err q X : X = children (Tbf_priv (A := A) q) → (∀ b, b ∈ X → b ∈ L → b = noop_qdisc) → err ≠ - EAGAIN →
  own V 1 false L X U G T (done err (Tbf_priv q)) (change_post Tbf_k L).
Proof. intros -> HL Herr. apply ow_ret. split_and!; [split_and!; [done|apply submseteq_nil_l|done]|done..]. Qed.

Lemma tbf_set_owns V L me q o : V (sf_queue me) → (∀ b, b ∈ children (Tbf_priv (A := A) q) → b ∈ L → b = noop_qdisc) →
  own V 1 false L (children (Tbf_priv (A := A) q)) [] [] (children (Tbf_priv (A := A) q)) (tbf_op_set rtabs refill me q o) (change_post Tbf_k L).
Proof.
  intros HV HL. destruct o as [[]|tb]; simpl; [by apply tbf_keep_owns..|]. destruct (tb_parms tb) as [qopt|]; [|by apply tbf_keep_owns].
  apply ow_alloc. intros b1. apply ow_alloc. intros b2. do 2 destruct (touch_rtab _ _ _ _) as [? ?]. destruct (tbf_params_of _ _ _ _) as [err|p] eqn:Ep.
  { apply tbf_params_err in Ep as ->. by apply tbf_keep_owns. }
  destruct (pr_max_size p =? 0); [by apply tbf_keep_owns|]. unfold tbf_op_install. simpl in *. destruct (qdisc q) as [|c] eqn:Eq.
  - destruct (0 <? _); [|by apply tbf_keep_owns]. apply ow_create; [done|unfold kernel_rank; lia| | |].
    + unfold TC_H_MAKE. intros E. apply (f_equal (λ z, Z.land z 65535)) in E. rewrite Z.land_lor_distr_l, <- Z.land_assoc, Z.land_0_r in E. done.
    + apply tbf_keep_owns; [simpl; by rewrite Eq|by intros ? ?%elem_of_nil|done].
    + intros a HaL Ha. apply ow_limit; [by left|by left|]. intros err Herr. destruct (err <? 0).
      * apply (ow_put _ _ _ _ _ _ [] _ [] _ _ []); [done|apply submseteq_nil_l|by intros ? ?%elem_of_nil..|done|].
        apply tbf_keep_owns; [simpl; by rewrite Eq|by intros ? ?%elem_of_nil|done].
      * apply (ow_hash _ _ _ _ _ _ _ []); [done|]. apply ow_put_noop, tbf_keep_owns; [done|by intros ? ->%list_elem_of_singleton ?|done].
  - apply ow_limit; [by left..|]. intros err Herr. destruct (negb _); apply tbf_keep_owns; try done. simpl. by rewrite Eq.
Qed.

(** ** What the core relies on *)

(** An operation that returns at once and has no references. *)
Lemma done_owns k V rk L me err p : fits k p → children p = [] → unhashed p = [] → op_attach (ops k) = None → err ≠ - EAGAIN →
  own V rk false L [] [] [] [] (done err p) (init_post k me L).
Proof.
  intros Hf Hc Hu Ha He. apply ow_ret. unfold init_post, leaves. cbn [an_priv an_err]. rewrite Hc, Hu.
  split_and!; [done..|by intros ? ?%elem_of_nil|done|auto].
Qed.

Lemma fifo_init_err txq mtu' o f : (fifo_init txq mtu' o f).1 ≠ - EAGAIN.
Proof. unfold fifo_init. destruct o as [[len lim]|]; [|done]. by destruct (len <? 4). Qed.

Lemma init_bands_err n (l : list A) : (init_bands n l).1 ≠ - EAGAIN.
Proof. induction l as [|a l IH]; simpl; [done|]. destruct (skb_array_init n) as [e a']. destruct (negb _); [done|]. by destruct (init_bands n l). Qed.

Lemma fast_init_err n (q : pfifo_fast A) : (pfifo_fast_init n q).1 ≠ - EAGAIN.
Proof.
  unfold pfifo_fast_init. destruct (n =? 0); [done|]. pose proof (init_bands_err n (pf_q q)) as He. destruct (init_bands n (pf_q q)) as [err l].
  destruct (negb _); [done|]. by destruct q.
Qed.

Lemma kernel_init_ok k f me o L V : op_init (ops k) = Some f → sees V me →
  ∃ rk, (o = None → sf_handle me = 0 → sf_parent me ≠ TC_H_ROOT → rk = kernel_rank k) ∧ own V rk false L [] [] [] [] (f me o) (init_post k me L).
Proof.
  intros Ef Hs. assert (∀ k0, k = Pfifo_k ∨ k = Bfifo_k ∨ k = Pfifo_head_drop_k →
    own V 0 false L [] [] [] [] (fifo_op_init psched_mtu k0 me o) (init_post k me L)) as Hfifo.
  { intros k0 Hk. unfold fifo_op_init. pose proof (fifo_init_err (sf_tx_queue_len me) psched_mtu (as_fifo <$> o) (fifo0 k0)) as He.
    destruct (fifo_init _ _ _ _) as [err f0]. apply done_owns; try done; by destruct Hk as [->|[->| ->]]. }
  destruct k; try done; injection Ef as <-.
  - exists 0%nat. split; [done|]. apply ow_ret. split_and!; simpl; [by split_and!|by intros ? ?%elem_of_nil|done|auto].
  - exists 0%nat. split; [done|]. unfold fast_op_init. pose proof (fast_init_err (sf_tx_queue_len me) (fast0 rings0)) as He.
    destruct (pfifo_fast_init _ _) as [err q]. by apply done_owns.
  - exists 0%nat. split; [done|]. apply Hfifo. auto.
  - exists 0%nat. split; [done|]. apply Hfifo. auto.
  - exists 0%nat. split; [done|]. apply Hfifo. auto.
  - destruct (mq_init_owns V L me o Hs) as (rk & Hrk & Hown). exists rk. split; [|done]. intros _ _. exact Hrk.
  - destruct o as [o|]; [|exists 0%nat; split; [done|by apply done_owns]]. exists 1%nat. split; [done|].
    unfold tbf_op_init. match goal with |- context [tbf_op_set _ _ _ ?q ?x] => pose proof (tbf_set_owns V L me q x) as Hown end.
    eapply owns_mono; [apply Hown; [by destruct Hs|by intros ? ?%elem_of_nil]|]. intros r X U ((Hc & Hu & Hf) & Hn & HL & He).
    split_and!; [done..|]. auto.
  - exists 0%nat. split; [done|]. unfold netem_op_init, netem_call. destruct (netem_init_result o) as (r & q & -> & Hc & Hr).
    apply done_owns; try done. simpl. by rewrite Hc.
Qed.

Lemma kernel_change_ok k f me p o L V : op_change (ops k) = Some f → fits k p → sees V me → (∀ b, b ∈ children p → b ∈ L → b = noop_qdisc) →
  ∃ rk, own V rk false L (children p) [] [] (children p) (f me p o) (change_post k L).
Proof.
  intros Ef Hf Hs HL. destruct k; try done; injection Ef as <-; destruct p as [|f0|q|l|q|q]; try done.
  1-3: exists 0%nat; unfold fifo_op_change; pose proof (fifo_init_err (sf_tx_queue_len me) psched_mtu (Some (as_fifo o)) f0) as He; destruct (fifo_init _ _ _ _) as [err f1];
    apply ow_ret; split_and!; simpl; [by split_and!|done|by intros ? ?%elem_of_nil|done].
  - exists 1%nat. apply tbf_set_owns; [by destruct Hs|done].
  - exists 0%nat. unfold netem_op_change, netem_call. destruct (netem_change_result o q) as (r & q' & -> & Hc & Hr).
    apply ow_ret. split_and!; simpl; [split_and!; simpl; [by rewrite Hc|done|done]|done|done|done].
Qed.

Lemma kernel_destroy_ok k f me p L V : op_destroy (ops k) = Some f → fits k p → (∀ b, b ∈ children p → b ∈ L → b = noop_qdisc) →
  own V 0 false L (children p) [] [] [] (f me p) (λ _ X _, X = []).
Proof.
  intros Ef Hf HL. destruct k; try done; injection Ef as <-; destruct p as [|f0|q|l|q|q]; try done; simpl in *.
  - by apply ow_ret.
  - destruct l as [l|]; [|by apply ow_ret]. apply put_all_owns; [done|]. by apply ow_ret.
  - destruct (qdisc q) as [|c]; simpl in *; [apply ow_put_noop; by apply ow_ret|].
    apply (put_all_owns V L [c]); [done|]. by apply ow_ret.
  - apply put_all_owns; [done|]. by apply ow_ret.
Qed.

Lemma kernel_attach_ok k f me p L V : op_attach (ops k) = Some f → fits k p → sees V me → length (children p) = sf_num_tx me →
  (∀ b, b ∈ children p → b ∈ L → b = noop_qdisc) →
  own V 0 true L (children p) (unhashed p) [] [] (f me p) (λ r X _, X = [] ∧ children (an_priv r) = [] ∧ fits k (an_priv r)).
Proof.
  intros Ef Hf (_ & Hi & Hn) Hl HL. destruct k; try done; injection Ef as <-; destruct p as [|f0|q|[l|]|q|q]; try done; simpl in *; [|lia].
  by apply mq_attach_owns.
Qed.

Lemma kernel_reset_ok k f now p : op_reset (ops k) = Some f → fits k p →
  keeps_refs k p (f now p).1 ∧ ∀ c, c ∈ (f now p).2 → c ∈ children p ∨ c = noop_qdisc.
Proof.
  intros Ef Hf. destruct k; try done; injection Ef as <-; destruct p as [|f0|q|l|q|q]; try done; simpl; (split; [|try (by intros ? ?%elem_of_nil)]).
  - by destruct (pfifo_fast_reset drain_fuel q) as [[? ?]|].
  - done.
  - done.
  - done.
  - done.
  - intros c ->%list_elem_of_singleton. destruct (qdisc q); [by right|]. left. by left.
  - by destruct (netem_reset tree_fuel _) as [[? ?]|].
  - by left.
Qed.

Lemma kernel_limit_ok k f n p : op_limit (ops k) = Some f → fits k p → keeps_refs k p (f n p).2 ∧ (f n p).1 ≠ - EAGAIN.
Proof. intros Ef Hf. by destruct k; try done; injection Ef as <-; destruct p as [|f0|q|l|q|q]. Qed.

Lemma kernel_tx_len_ok k f n p : op_change_tx_queue_len (ops k) = Some f → fits k p → keeps_refs k p (f n p).2.
Proof.
  intros Ef Hf. destruct k; try done; injection Ef as <-; destruct p as [|f0|q|l|q|q]; try done. simpl.
  by destruct (pfifo_fast_change_tx_queue_len n q) as [[? ?] ?].
Qed.

Lemma kernel_graft_ok k c f n p cl id new : op_cl (ops k) = Some c → cl_graft c = Some f → fits k p → cl_find c n p id = cl → cl ≠ 0 →
  match f n p cl new with
  | GraftErr err => err ≠ 0
  | GraftSlot old p' => fits k p' ∧ unhashed p' = unhashed p ∧
      ∀ x, x ≠ noop_qdisc → occ x (children p') + occ x (option_list old) = occ x (option_list new) + occ x (children p)
  | GraftQueue dq => is_Some (op_attach (ops k)) ∧ ∃ i, dq = TxQueue i ∧ (i < n)%nat
  end.
Proof.
  intros Ec Eg Hf Hcl Hne. destruct k; try done; injection Ec as <-; injection Eg as <-; destruct p as [|f0|q|l|q|q]; try done.
  - split; [by eexists|]. exact (mq_find_some _ _ _ _ Hcl Hne).
  - split_and!; [done..|]. intros x Hx. unfold children, kernel_refs, priv_children, ptr_of. cbn [qdisc set_qdisc].
    assert (∀ y, occ x (option_list (Some y)) = (if y =? x then 1 else 0) + 0) as Ho by done. assert (occ x (option_list None) = 0) as Hn by done.
    destruct (qdisc q) as [|c0], new as [a|]; rewrite ?Ho, ?Hn; cbn [occ]; destruct (Z.eqb_spec noop_qdisc x); congruence || lia.
Qed.

Lemma kernel_leaf_ok k c n p cl : op_cl (ops k) = Some c → fits k p → (cl ∈ cl_walk c n p ∨ ∃ id, cl_find c n p id = cl ∧ cl ≠ 0) →
  match cl_leaf c n p cl with
  | Some (Child b) => b ∈ children p ∨ b = noop_qdisc
  | Some (OfQueue dq) => ∃ i, dq = TxQueue i ∧ (i < n)%nat
  | None => True
  end.
Proof.
  intros Ec Hf Hcl. destruct k; try done; injection Ec as <-; destruct p as [|f0|q|l|q|q]; try done; simpl in *.
  - destruct Hcl as [Hcl|(id & Hid & Hne)]; [by apply mq_walk_some|by eapply mq_find_some].
  - destruct (qdisc q); [by right|]. left. by left.
  - destruct (nm_child q); [left; by left|done].
Qed.

Lemma kernel_dump_ok k c n p cl ph : op_cl (ops k) = Some c → fits k p →
  (cl ∈ cl_walk c n p ∨ ∃ id, cl_find c n p id = cl ∧ cl ≠ 0) →
  match cl_dump c n p cl ph with
  | Some (_, Child b) => b ∈ children p ∨ b = noop_qdisc
  | Some (_, OfQueue dq) => ∃ i, dq = TxQueue i ∧ (i < n)%nat
  | None => True
  end.
Proof.
  intros Ec Hf Hcl. destruct k; try done; injection Ec as <-; destruct p as [|f0|q|l|q|q]; try done; simpl in *.
  - destruct Hcl as [Hcl|(id & Hid & Hne)]; [by apply mq_walk_some|by eapply mq_find_some].
  - destruct (qdisc q); [by right|]. left. by left.
  - destruct (negb _); [done|]. destruct (nm_child q); [left; by left|done].
Qed.

Lemma kernel_walk_ok k c n p : op_cl (ops k) = Some c → fits k p → unhashed p = [] →
  ∀ b, b ∈ children p → b ≠ noop_qdisc → ∃ cl, cl ∈ cl_walk c n p ∧ cl_leaf c n p cl = Some (Child b).
Proof.
  intros Ec Hf Hu b Hb Hn. destruct k; try done; injection Ec as <-; destruct p as [|f0|q|[l|]|q|q]; try done; simpl in *.
  - rewrite Hu in Hb. by apply elem_of_nil in Hb.
  - by apply elem_of_nil in Hb.
  - exists 1. split; [by left|]. destruct (qdisc q) as [|c]; [by apply elem_of_nil in Hb|]. by apply list_elem_of_singleton in Hb as ->.
  - exists 1. split; [by left|]. destruct (nm_child q) as [c|]; simpl in *; [|by apply elem_of_nil in Hb]. by apply list_elem_of_singleton in Hb as ->.
Qed.

(** C9: What the nine kinds do in their [init], [change], [destroy] and [attach] is
    well typed as to references: whatever calls into the core succeed or fail, each
    reference they get is released, handed to a queue of the device or kept in the
    private data, exactly once; [destroy] and [attach] leave none; no child is put
    into the hash table twice; [init] reports success for [mq] only when every
    queue of the device has its child. *)
Theorem kernel_programs_typed k me p o x L V : sees V me → fits k p →
  (∀ f, op_init (ops k) = Some f → ∃ rk, own V rk false L [] [] [] [] (f me o) (init_post k me L)) ∧
  ((∀ b, b ∈ children p → b ∈ L → b = noop_qdisc) →
    (∀ f, op_change (ops k) = Some f → ∃ rk, own V rk false L (children p) [] [] (children p) (f me p x) (change_post k L)) ∧
    (∀ f, op_destroy (ops k) = Some f → own V 0 false L (children p) [] [] [] (f me p) (λ _ X _, X = [])) ∧
    (∀ f, op_attach (ops k) = Some f → length (children p) = sf_num_tx me →
      own V 0 true L (children p) (unhashed p) [] [] (f me p) (λ r X _, X = [] ∧ children (an_priv r) = [] ∧ fits k (an_priv r)))).
Proof.
  intros Hs Hf. split; [intros f Ef; destruct (kernel_init_ok k f me o L V Ef Hs) as (rk & _ & Hown); by exists rk|]. intros HL. split_and!.
  - intros f Ef. exact (kernel_change_ok k f me p x L V Ef Hf Hs HL).
  - intros f Ef. exact (kernel_destroy_ok k f me p L V Ef Hf HL).
  - intros f Ef Hl. exact (kernel_attach_ok k f me p L V Ef Hf Hs Hl HL).
Qed.

(** The kinds are as the core wants them. *)
#[global] Instance kernel_ok (Hflush : ∀ q, calm q (qdisc_flush q)) : KindsOk (kind := qkind) (P := P) (opt := qopts).
Proof.
  refine {| rank := kernel_rank; ok_change k f me p o L V Ef Hf _ Hs HL := _; ok_init := kernel_init_ok; ok_destroy := kernel_destroy_ok;
    ok_attach := kernel_attach_ok; ok_reset := kernel_reset_ok; ok_limit := kernel_limit_ok; ok_tx_len := kernel_tx_len_ok;
    ok_graft := kernel_graft_ok; ok_leaf := kernel_leaf_ok; ok_walk := kernel_walk_ok; ok_dump := kernel_dump_ok; ok_flush := Hflush |}; try done.
  - by intros [].
  - by intros [].
  - by intros [].
  - destruct (kernel_change_ok k f me p o L V Ef Hf Hs HL) as (rk & Hown). exists rk. eapply owns_mono; [exact Hown|].
    by intros r X U (? & ? & ? & ?).
  - by intros [] [].
  - intros [] f n p; done.
  - intros [] f n p; done.
  - intros [] c f n id dq; try done; intros [= <-] Hf; try done. injection Hf as <-. apply mq_queue_get_some.
  - by intros [] c f n clid parent cl o p; try done; intros [= <-].
  - by intros [] c f cl p; try done; intros [= <-].
  - by intros [] [].
Defined.

End typing.
