(* ===== verification/QkindsSample.v ===== *)
(** * Devices with disciplines of these kinds

    A concrete environment for Qapi.v and Qkinds.v, runs of requests from the start
    of a device, and what they show: instances of the theorems of QapiSafe.v, and
    three requests that go wrong. *)

From Stdlib Require Import ZArith Lia.
From stdpp Require Import base numbers list gmap option strings sets.
From S2P Require Import Prelude Sched SchedSample Tbf Fifo PfifoFast NetemRand Netem NetemConf NetemTheorems.
From S2P Require Import Stab Qtree QtreeInv QtreeRun Qapi QapiTheorems QapiGraft QapiCreate QapiSafe Qkinds QkindsOk.

Open Scope Z_scope.

#[local] Existing Instances sample_headers sample_queue sample_ring sample_env sample_nheaders sample_recip.

(** The child of a netem is reset by the core. *)
Definition no_child : ChildQdisc Z := {|
  cq_enqueue skb c := (0, c, []); cq_dequeue now c := (None, c); cq_reset now c := c; cq_handle c := 0 |}.
#[local] Existing Instance no_child.

Abbreviation P := (qpriv ring).

Definition null_ring : ring := {| ring_size := 0; ring_list := [] |}.

#[local] Instance the_kinds : QdiscKinds qkind P qopts := kernel_kinds [null_ring; null_ring; null_ring] 1514 [] 2000 2000 true.

(** An address above those in use. *)
Definition above_all (used : gset Z) : Z := foldr Z.max 0 (elements used) + 1.

Lemma above_all_fresh used : above_all used ∉ used.
Proof.
  unfold above_all. intros Hin%elem_of_elements. assert (∀ l x, x ∈ l → x ≤ foldr Z.max 0 l) as Hle.
  { induction l as [|y l IH]; intros x; [by intros ?%elem_of_nil|]. intros [->|Hx]%elem_of_cons; simpl; [lia|]. specialize (IH x Hx). lia. }
  specialize (Hle _ _ Hin). lia.
Qed.

(** [fails]: the allocations that fail. *)
Definition sample_netenv (fails : nat → bool) : NetEnv qkind P := {|
  kzalloc n used := if fails n then None else Some (above_all used);
  kmalloc_stab n l := Some (foldr Z.max 0 l + 1);
  alloc_ok n := negb (fails n);
  try_module_get m := true;
  request_module name base := base;
  gen_new_estimator n l := 0;
  ktime_ns n := 1000 * Z.of_nat n;
  rtnetlink_send n := 0;
  DEFAULT_TX_QUEUE_LEN := 1000;
  get_default_qdisc_ops k real i := if bool_decide (i < real)%nat then k else Pfifo_fast_k;
  qdisc_refcount_inc builtin r := if builtin then r else r + 1;
  refcount_dec_and_test r := (r - 1, r - 1 =? 0);
  qdisc_flush q := q;
|}.

Definition sample_netenv_ok fails : @NetEnvOk qkind P (sample_netenv fails).
Proof.
  split; simpl; [|done..]. intros n used a. destruct (fails n); [done|]. intros [= <-]. apply above_all_fresh.
Defined.

(** ** The start of a device *)

Definition sample_device (queues : nat) (multiqueue no_queue : bool) : netdev :=
  Netdev 1 false true multiqueue no_queue queues 1000 noop_qdisc (replicate queues (Slot noop_qdisc noop_qdisc)) None [] 0.

Definition noop_object : sqdisc qkind P :=
  Sqdisc Noop_k 0 0 (Qflags true false false false false false false false) 1 NoopQueue true false None false [] [] 0 0 No_priv.

Definition all_kinds : list qkind := [Pfifo_k; Bfifo_k; Pfifo_head_drop_k; Mq_k; Noqueue_k; Pfifo_fast_k; Tbf_k; Netem_k].

Definition start (d : netdev) : nstate qkind P :=
  Nstate {[noop_qdisc := noop_object]} d [] 2147483648 ∅ Pfifo_fast_k all_kinds 0 [] [] [].

(** ** Requests *)

(** A token bucket of 1 Mbyte/s, 10000 bytes deep, before a queue of 20000. *)
Definition tbf_opts : qopts :=
  let spec r := {| cell_log := 0; rs_linklayer := TC_LINKLAYER_ETHERNET; rs_overhead := 0; cell_align := 0; mpu := 0; rs_rate := r |} in
  Qopts (0, 0) (inr {| tb_parms := Some {| qopt_limit := 20000; qopt_rate := spec 1000000; qopt_peakrate := spec 0; qopt_mtu := 0; qopt_buffer := 0 |};
    tb_rtab := None; tb_ptab := None; tb_rate64 := None; tb_prate64 := None; tb_burst := Some 10000; tb_pburst := None |}) (inl Nla_inval).

Definition request (create : bool) (parent handle : Z) (kind : option string) (o : option qopts) : nlreq qopts :=
  Nlreq false true create create false 1 parent handle (inr (Tca kind o None None None None)).

Abbreviation ev := (event (kind := qkind) (opt := qopts)).

Definition add_tbf : ev := RtmNewQdisc (request true TC_H_ROOT 65536 (Some "tbf"%string) (Some tbf_opts)).
Definition change_tbf : ev := RtmNewQdisc (request false 0 65536 None (Some tbf_opts)).
Definition add_fast_below : ev := RtmNewQdisc (request true 65537 131072 (Some "pfifo_fast"%string) None).
Definition add_mq : ev := RtmNewQdisc (request true TC_H_ROOT 65536 (Some "mq"%string) None).
Definition delete_tbf_class : ev := RtmTclass RTM_DELTCLASS (request false 65537 65537 None None).
Definition get_tbf_class : ev := RtmTclass RTM_GETTCLASS (request false 65537 65537 None None).
Definition regraft_mq : ev := RtmNewQdisc (request true TC_H_INGRESS 65536 None None).

(** ** Runs *)

(** The handler returns with this much fuel, and so with more. *)
Abbreviation returns env e s r := (∀ n, @dispatch qkind P qopts _ the_kinds env (30 + n) e s = r).

Definition sample_refs : KindRefs (kind := qkind) (P := P) := kernel_refs.
#[local] Existing Instance sample_refs.

(** The children of every object have limits that can be set. *)
Definition all_limits (s : nstate qkind P) : bool :=
  forallb (λ x, forallb (λ b, match ns_heap s !! b with Some v => limitable (q_ops v) | None => false end) (children (q_priv x.2)))
    (map_to_list (ns_heap s)).

Lemma all_limits_ok s q a : all_limits s = true → ns_heap s !! a = Some q → limits_ok s q.
Proof.
  unfold all_limits. rewrite forallb_forall. intros Hall Ha b Hb. specialize (Hall (a, q)). rewrite <- list_elem_of_In, elem_of_map_to_list in Hall.
  specialize (Hall Ha). rewrite forallb_forall in Hall. specialize (Hall b). rewrite <- list_elem_of_In in Hall. specialize (Hall Hb). simpl in Hall.
  destruct (ns_heap s !! b) as [v|]; [by exists v|done].
Qed.

(** A request with good attributes is allowed if it does not name the ingress queue
    and every limit can be set. *)
Lemma allowed_ok s r t : rq_tca r = inr t → tca_stab t = None → rq_parent r ≠ TC_H_INGRESS → all_limits s = true → allowed (RtmNewQdisc r) s.
Proof.
  intros Er Et Ep Hl. split_and!.
  - intros t' E. rewrite Er in E. injection E as <-. intros e. by rewrite Et.
  - by intros [? _].
  - intros a q [Ha _]. by eapply all_limits_ok.
Qed.

Lemma step_reached `{!NetEnv qkind P} s e s' err : reached s → allowed e s → returns _ e s (Some (err, s')) → reached s'.
Proof.
  intros Hr Hal Hd. eapply reached_step; [exact Hr|exact Hal|]. apply (Step _ _ _ 30 err). intros n Hn.
  replace n with (30 + (n - 30))%nat by lia. apply Hd.
Qed.

Lemma start_reached `{!NetEnv qkind P} d : nd_ingress d = None → nd_hash d = [] → 0 < Z.of_nat (length (nd_tx d)) < 65535 →
  ∀ s, dev_init_scheduler (start d) = Some (tt, s) → reached s.
Proof.
  intros Hi Hh Ht s Hs. eapply reached_init; [|exact Hs]. split; [|done..]. exists noop_object. split_and!; done.
Qed.

Lemma flush_calm (q : sqdisc qkind P) : calm q q.
Proof. reflexivity. Qed.

(** With memory enough. *)
Module Steady.

#[local] Instance env : NetEnv qkind P := sample_netenv (λ _, false).
#[local] Instance env_ok : NetEnvOk qkind P := sample_netenv_ok (λ _, false).
#[local] Instance kinds_ok : KindsOk (kind := qkind) (P := P) (opt := qopts) := kernel_ok _ _ _ _ _ _ flush_calm.

(** The state after an event. *)
Definition next (e : ev) (s : nstate qkind P) : nstate qkind P := match dispatch 30 e s with Some (_, s') => s' | None => s end.

(** One queue: a token bucket with its own queue, then with a [pfifo_fast]. *)
Definition one_start := Eval vm_compute in start (sample_device 1 false false).
Definition one_open := Eval vm_compute in next DevOpen one_start.
Definition one_tbf := Eval vm_compute in next add_tbf one_open.
Definition one_fast := Eval vm_compute in next add_fast_below one_tbf.

(** Two queues: [mq]. *)
Definition two_start := Eval vm_compute in start (sample_device 2 true false).
Definition two_mq := Eval vm_compute in next add_mq two_start.

Lemma one_tbf_reached : reached one_tbf.
Proof.
  apply (step_reached one_open add_tbf _ 0); [|eapply allowed_ok; done|intros n; vm_compute; reflexivity].
  apply (step_reached one_start DevOpen _ 0); [|done|intros n; vm_compute; reflexivity].
  by apply (start_reached (sample_device 1 false false)).
Qed.

Lemma one_fast_reached : reached one_fast.
Proof.
  apply (step_reached one_tbf add_fast_below _ 0); [exact one_tbf_reached|eapply allowed_ok; done|intros n; vm_compute; reflexivity].
Qed.

Lemma two_mq_reached : reached two_mq.
Proof.
  apply (step_reached two_start add_mq _ 0); [|eapply allowed_ok; done|intros n; vm_compute; reflexivity].
  by apply (start_reached (sample_device 2 true false)).
Qed.

Ltac any_fuel n := do 30 (destruct n as [|n]; [vm_compute; reflexivity|]); vm_compute; reflexivity.

(** The parameters of a token bucket whose child is a [pfifo_fast] are changed:
    [fifo_set_limit] takes the child for a FIFO and calls its [change], which is
    NULL. *)
Theorem tbf_change_crashes : reached one_fast ∧ ∀ n, dispatch n change_tbf one_fast = None.
Proof. split; [exact one_fast_reached|]. intros n. any_fuel n. Qed.

(** The handle of the [mq] at the root and the ingress queue are named together:
    [mq_attach] is called again, when [priv->qdiscs] is NULL. *)
Theorem mq_regraft_crashes : reached two_mq ∧ ∀ n, dispatch n regraft_mq two_mq = None.
Proof. split; [exact two_mq_reached|]. intros n. any_fuel n. Qed.

(** The class of a token bucket is to be deleted: [tclass_del_notify] answers that
    it cannot be, but [tc_bind_tclass] is called all the same, and calls
    [tcf_block], which is NULL. *)
Theorem class_delete_crashes : reached one_tbf ∧ ∀ n, dispatch n delete_tbf_class one_tbf = None.
Proof. split; [exact one_tbf_reached|]. intros n. any_fuel n. Qed.

(** To ask for it is fine: the answer is the one message that describes it. *)
Lemma class_get_answers n : ∃ s', dispatch n get_tbf_class one_tbf = Some (0, s') ∧ ns_notes s' = ns_notes one_tbf ++ [ClassNote false 65536 65537 0].
Proof. eexists. split; [vm_compute; reflexivity|vm_compute; reflexivity]. Qed.

(** ** Instances *)



Lemma nothing_is_lost_witness : ∃ x, x ∈ roots true (ns_dev one_tbf) ∧ rtc (edge ∅ (ns_heap one_tbf)) x 3.
Proof. apply (nothing_is_lost one_tbf 3 one_tbf_reached); [done|by eexists|done]. Defined.


(** [mq] refuses to be made elsewhere than at the root. *)
Definition mq_below : tca qopts := Tca (Some "mq"%string) None None None None None.

Lemma failed_creation_harmless_witness :
  ∃ n0 res s', (∀ n, (n0 ≤ n)%nat → qdisc_create n (Some (TxQueue 0)) 65537 196608 mq_below one_tbf = Some (res, s')) ∧
    ∀ err, res = inl err → untouched one_tbf s' ∧ dom (ns_heap s') = dom (ns_heap one_tbf) ∧ slots_same one_tbf s'.
Proof.
  apply (failed_creation_harmless one_tbf (Some (TxQueue 0)) 65537 196608 mq_below one_tbf_reached); [done|intros dq [= <-]; by eexists|done].
Defined.

Lemma mq_below_fails n : ∃ s', qdisc_create (30 + n) (Some (TxQueue 0)) 65537 196608 mq_below one_tbf = Some (inl (- EOPNOTSUPP), s').
Proof. eexists. vm_compute. reflexivity. Qed.

(** The [mq] of a device with two queues, before it is attached. *)
Definition mq_self : self qkind := Self 1 65536 TC_H_ROOT (TxQueue 0) true 2 2 (λ _, Pfifo_fast_k) 1000 0.

Lemma kernel_programs_typed_witness : ∃ rk, owns kernel_rank (λ dq, dq = TxQueue 0 ∨ dq = TxQueue 1) rk false ∅ [] [] [] [] (mq_init mq_self None)
  (init_post [null_ring; null_ring; null_ring] 1514 [] 2000 2000 true Mq_k mq_self ∅).
Proof.
  apply (kernel_programs_typed [null_ring; null_ring; null_ring] 1514 [] 2000 2000 true Mq_k mq_self (Mq_priv (Some [2; 3])) None tbf_opts ∅); [|done|done].
  split_and!; [by left| |done|done]. intros [|[|i]] Hi; [by left|by right|]. simpl in Hi. lia.
Defined.

(** A program that makes a queue and releases it. *)
Definition make_and_put : prog qkind P :=
  CreateDflt (TxQueue 0) Pfifo_k 65537 (λ o, match o with None => done (- ENOMEM) No_priv | Some a => QdiscPut a (done 0 No_priv) end).

Lemma make_and_put_owns : owns rank (valid_queue (ns_dev one_tbf)) 1 false ∅ [] [] [] [] make_and_put (λ _ H U, H = [] ∧ U = []).
Proof.
  apply ow_create; [by eexists|simpl; unfold kernel_rank; lia|done|by apply ow_ret|]. intros a _ _.
  apply (ow_put _ _ _ _ _ _ [] _ [] _ _ []); [done|apply submseteq_nil_l|by intros ? ?%elem_of_nil..|done|by apply ow_ret].
Qed.

Lemma one_tbf_ready : ready (valid_queue (ns_dev one_tbf)) false None true ∅ ∅ [] [] [] [] [] [] one_tbf.
Proof.
  split; [exact (pr_inv (tr_pre (reached_tree _ one_tbf_reached)))|by intros ? ?%elem_of_nil..|done|done|done|by intros ? ?%elem_of_nil].
Qed.


End Steady.

(** The first allocation fails, the others succeed. *)
Module Short.

#[local] Instance env : NetEnv qkind P := sample_netenv (λ n, (n =? 0)%nat).

Definition next (e : ev) (s : nstate qkind P) : nstate qkind P := match dispatch 30 e s with Some (_, s') => s' | None => s end.

(** Two queues and IFF_NO_QUEUE: only the second queue gets its [noqueue], and
    [dev->qdisc] stays [&noop_qdisc], so that the next opening attaches again. *)
Definition two_start := Eval vm_compute in start (sample_device 2 true true).
Definition two_open := Eval vm_compute in next DevOpen two_start.
Definition two_closed := Eval vm_compute in next DevClose two_open.
Definition two_again := Eval vm_compute in next DevOpen two_closed.

(** The [noqueue] of the second queue is overwritten and never released. *)
Theorem attach_leaks : reached two_again ∧ ns_leaked two_again = [1] ∧ is_Some (ns_heap two_again !! 1) ∧
  1 ∉ roots true (ns_dev two_again) ∧ ∀ a, ¬ edge ∅ (ns_heap two_again) a 1.
Proof.
  split; [|split_and!; [done|by eexists|by apply (bool_decide_unpack _); vm_compute|]].
  - apply (step_reached two_closed DevOpen _ 0); [|done|intros n; vm_compute; reflexivity].
    apply (step_reached two_open DevClose _ 0); [|done|intros n; vm_compute; reflexivity].
    apply (step_reached two_start DevOpen _ 0); [|done|intros n; vm_compute; reflexivity].
    by apply (start_reached (sample_device 2 true true)).
  - intros a (q & Hq & _ & Hin). assert (map_Forall (λ _ q, 1 ∉ children (q_priv q)) (ns_heap two_again)) as Hall.
    { by apply (bool_decide_unpack _); vm_compute. }
    by apply (Hall a q Hq).
Qed.

End Short.
