(* ===== verification/QdumpSample.v ===== *)
(** * Dumps of sample devices

    The devices of QkindsSample.v, dumped: instances of the theorems of
    QdumpTheorems.v, and three dumps that are not what is expected. *)

From Stdlib Require Import ZArith Lia.
From stdpp Require Import base numbers list gmap option strings sets.
From S2P Require Import Prelude Sched SchedSample Tbf Fifo PfifoFast NetemRand Netem NetemConf NetemTheorems.
From S2P Require Import Stab Qtree QtreeInv QtreeRun Qapi QapiTheorems QapiGraft QapiCreate QapiSafe Qkinds QkindsOk QkindsSample.
From S2P Require Import Qdump QdumpTheorems.

Open Scope Z_scope.

#[local] Existing Instances sample_headers sample_queue sample_ring sample_env sample_nheaders sample_recip no_child.
#[local] Existing Instances the_kinds sample_refs Steady.env Steady.env_ok Steady.kinds_ok.

(** [hash_32(handle, 4)] of linux/hash.h, and attributes of 60 bytes. *)
#[local] Instance sample_dump : DumpEnv qkind P := {|
  hash_bucket h := Z.to_nat (u32 (h * 1640531527) / 2 ^ 28);
  attrs_len q := 60;
  class_attrs_len q cl := 40;
|}.

#[local] Instance sample_dump_ok : DumpEnvOk qkind P.
Proof.
  split; simpl; [|lia..]. intros h. pose proof (u32_range (h * 1640531527)). assert (u32 (h * 1640531527) / 2 ^ 28 < 16) by (apply Z.div_lt_upper_bound; lia).
  assert (0 ≤ u32 (h * 1640531527) / 2 ^ 28) by (apply Z.div_pos; lia). lia.
Qed.

(** ** More devices *)

Definition netem_opts : qopts := Qopts (0, 0) (inl Nla_inval) (inr (NQopt 0 1000 0 0 0 0, no_attrs)).

Definition add (parent handle : Z) (kind : string) (o : option qopts) : ev := RtmNewQdisc (request true parent handle (Some kind) o).
Definition move (parent handle : Z) : ev := RtmNewQdisc (request true parent handle None None).

(** A token bucket below the second class of [mq]; then a [netem] below the first;
    or a FIFO at the ingress queue. *)
Definition two_tbf := Eval vm_compute in Steady.next (add 65538 196608 "tbf" (Some tbf_opts)) Steady.two_mq.
Definition two_netem := Eval vm_compute in Steady.next (add 65537 131072 "netem" (Some netem_opts)) two_tbf.
Definition two_ingress := Eval vm_compute in Steady.next (add TC_H_INGRESS 0 "pfifo" None) two_tbf.

(** A FIFO below the token bucket, moved to the root. *)
Definition one_fifo := Eval vm_compute in Steady.next (add 65537 131072 "pfifo" None) Steady.one_tbf.
Definition one_moved := Eval vm_compute in Steady.next (move TC_H_ROOT 131072) one_fifo.

Lemma two_tbf_reached : reached two_tbf.
Proof.
  apply (step_reached Steady.two_mq (add 65538 196608 "tbf" (Some tbf_opts)) _ 0);
    [exact Steady.two_mq_reached|eapply allowed_ok; done|intros n; vm_compute; reflexivity].
Qed.

Lemma two_netem_reached : reached two_netem.
Proof.
  apply (step_reached two_tbf (add 65537 131072 "netem" (Some netem_opts)) _ 0);
    [exact two_tbf_reached|eapply allowed_ok; done|intros n; vm_compute; reflexivity].
Qed.

Lemma two_ingress_reached : reached two_ingress.
Proof.
  apply (step_reached two_tbf (add TC_H_INGRESS 0 "pfifo" None) _ 0); [exact two_tbf_reached| |intros n; vm_compute; reflexivity].
  split_and!.
  - intros t [= <-] e. done.
  - intros (_ & q & Hq & _ & E). vm_compute in Hq. injection Hq as <-. done.
  - intros a q [Ha _]. by eapply all_limits_ok.
Qed.

Lemma one_moved_reached : reached one_moved.
Proof.
  apply (step_reached one_fifo (move TC_H_ROOT 131072) _ 0); [|eapply allowed_ok; done|intros n; vm_compute; reflexivity].
  apply (step_reached Steady.one_tbf (add 65537 131072 "pfifo" None) _ 0);
    [exact Steady.one_tbf_reached|eapply allowed_ok; done|intros n; vm_compute; reflexivity].
Qed.

(** ** Dumps that surprise *)

Definition summary (m : tcmsg) : Z * Z * string := (tm_parent m, tm_handle m, tm_kind m).

(** The FIFO moved to the root is told twice, as the root and from the hash table,
    where only a root would be left out; its parent is gone. *)
Theorem moved_qdisc_dumped_twice :
  reached one_moved ∧ map summary (qdisc_list false [one_moved]) = [(65537, 131072, "pfifo"%string); (65537, 131072, "pfifo"%string)].
Proof. split; [exact one_moved_reached|vm_compute; reflexivity]. Qed.

(** With a discipline at the ingress queue, the hash table is gone through twice:
    the class 3:1 of the token bucket is told twice. *)
Theorem ingress_dumps_classes_twice :
  reached two_ingress ∧ map summary (class_list 0 two_ingress) =
    [(TC_H_ROOT, 65537, "mq"%string); (TC_H_ROOT, 65538, "mq"%string); (196608, 196609, "tbf"%string); (196608, 196609, "tbf"%string)].
Proof. split; [exact two_ingress_reached|vm_compute; reflexivity]. Qed.

(** A [netem] without a child refuses to describe its class, which ends the dump
    without an error: the class 3:1 of the token bucket, which is told before the
    [netem] is there, is missing. *)
Theorem netem_hides_classes :
  reached two_netem ∧
  (196608, 196609, "tbf"%string) ∈ map summary (class_list 0 two_tbf) ∧
  ∃ dgs nlk, recv_all (tc_dump_tclass (Some (1, 0)) [two_netem]) (replicate 9 (Some 4096)) (dump_start (0, 0)) = Some (dgs, nlk) ∧
    omap (λ m, if m is Answer m then Some (summary m) else None) (concat dgs) = [(TC_H_ROOT, 65537, "mq"%string); (TC_H_ROOT, 65538, "mq"%string)] ∧
    list.last (concat dgs) = Some (Done 0).
Proof.
  split; [exact two_netem_reached|]. split; [apply (bool_decide_unpack _); vm_compute; exact I|].
  eexists _, _. split; [vm_compute; reflexivity|]. split; vm_compute; reflexivity.
Qed.

(** ** Instances *)

(** Buffers of 120 bytes and more. *)
Definition some_buffers : list (option Z) := [Some 120; None; Some 250; Some 120; Some 4096; Some 120; Some 120].

Lemma buffers_big : Forall (λ o, ∀ n, o = Some n → 120 ≤ n) some_buffers.
Proof. by repeat (constructor; [intros n [= <-]; lia || done|]). Qed.

Lemma qdiscs_fit_all s : map_Forall (λ _ q, qdisc_size q ≤ 120) (ns_heap s) → qdiscs_fit 120 s.
Proof. intros Hs a q Hq. by apply (Hs a). Qed.

Lemma qdisc_dump_complete_witness :
  ∃ dgs nlk, recv_all (tc_dump_qdisc (inr false) [Steady.one_tbf; two_tbf]) some_buffers (dump_start (0, 0)) = Some (dgs, nlk) ∧
    nlk_running nlk = false ∧ concat dgs = map Answer (qdisc_list false [Steady.one_tbf; two_tbf]) ++ [Done 0].
Proof.
  apply (qdisc_dump_complete false [Steady.one_tbf; two_tbf] some_buffers 120).
  - repeat constructor; [exact Steady.one_tbf_reached|exact two_tbf_reached].
  - constructor; [|constructor; [|constructor]]; apply qdiscs_fit_all, (bool_decide_unpack _); vm_compute; exact I.
  - done.
  - exact buffers_big.
  - vm_compute. lia.
Defined.

(** The conditions of the dump of classes, evaluated. *)
Definition classes_fitb (R : Z) (tcm_parent : Z) (s : nstate qkind P) : bool :=
  forallb (λ a, match ns_heap s !! a with
                | Some q => match asked tcm_parent q with
                            | Some c => forallb (λ cl, bool_decide (is_Some (cl_dump c (num_tx s) (q_priv q) cl (q_handle q, q_handle q))) && (class_size q cl <=? R))
                                          (cl_walk c (num_tx s) (q_priv q))
                            | None => true
                            end
                | None => true
                end) (tclass_qdiscs tcm_parent s).

Lemma classes_fitb_ok R tcm_parent s : classes_fitb R tcm_parent s = true → classes_fit tcm_parent R s.
Proof.
  unfold classes_fitb. rewrite forallb_forall. intros Hall a q c cl Ha Hq Hc Hcl. specialize (Hall a). rewrite <- list_elem_of_In in Hall.
  specialize (Hall Ha). rewrite Hq, Hc, forallb_forall in Hall. specialize (Hall cl). rewrite <- list_elem_of_In in Hall.
  apply Hall in Hcl as [?%bool_decide_eq_true ?%Z.leb_le]%andb_true_iff. done.
Qed.

Lemma class_dump_complete_witness :
  ∃ dgs nlk, recv_all (tc_dump_tclass (Some (1, 0)) [two_tbf]) some_buffers (dump_start (0, 0)) = Some (dgs, nlk) ∧
    nlk_running nlk = false ∧ concat dgs = map Answer (class_list 0 two_tbf) ++ [Done 0].
Proof.
  apply (class_dump_complete 0 [two_tbf] 1 0 two_tbf some_buffers 120).
  - done.
  - exact two_tbf_reached.
  - apply classes_fitb_ok. vm_compute. reflexivity.
  - done.
  - exact buffers_big.
  - vm_compute. lia.
Defined.
